(* ===== verification/_CoqProject ===== *)
-Q . S2P
Prelude.v
Identifiers.v
RoomVersionRules.v
CanonicalJson.v
Signatures.v
Events.v
EventAuth.v
Sample.v
AuthReads.v
AuthLevels.v
AuthMember.v
TopoSort.v
TopoSpec.v
Resolve.v
ConflictSets.v
PowerGraph.v
Mainline.v
ResolveSpec.v
ResolveOrder.v
AuthPanic.v
ResolveTotal.v
AsyncAuth.v
AsyncResolve.v
RedactionSpec.v
SignatureSpec.v
EventFormat.v
Bytes.v
StoreCodec.v
StoreCodecSpec.v
WordMatch.v
FlatJson.v
Push.v
PushSpec.v
CrossProcessLock.v
CrossProcessLockSpec.v
MutexMap.v
SingleFlight.v
RingBuffer.v
Backoff.v
Bloom.v
Cipher.v
Megolm.v
MegolmSession.v
SampleCrypto.v
MegolmRatchet.v
MegolmSpec.v
Olm.v
OlmSession.v
OlmChain.v
OlmPair.v
OlmAccount.v
OneTimeKeysSpec.v
OlmConversation.v
Updates.v
LinkedChunk.v
LinkedHeap.v
LinkedList.v
LinkedRefine.v
LinkedObserver.v
LinkedEdits.v
LinkedCommands.v
AsVector.v
AsVectorSpec.v
Relational.v
RelationalSpec.v
RelationalLoad.v
Persistence.v
TimelineItems.v
DateDividers.v
DateDividersSpec.v
TimelineState.v
TimelineSpec.v
SlidingSync.v
Keys.v
QrCode.v
ShortAuth.v
SasFlow.v
SasSpec.v
SasAuth.v
SasPair.v
