(* ===== verification/Prelude.v ===== *)
(** * harana-matrix: a verification development

    harana-matrix is a Matrix implementation in Rust: the types and rules that
    clients and homeservers share (crates [common-*]), parts of a homeserver
    ([server-*]) and a client with its stores, its cryptography and its user
    interface layer ([client-*]).  This library models the algorithmic core of these
    crates as Rocq functions and proves what makes it correct.  Paths below are
    relative to [src/crates].

    ** Conventions

    A pure function is a Rocq function of the same name; where two crates use one
    name, the definition has a prefix.  A method on [&mut self] takes the state and
    returns the new one.  [Result] is the type [outcome] of this file, whose other two
    values are [Panic] (an [unwrap], an index out of range, an arithmetic overflow of
    a debug build, a failed [debug_assert!]) and [OutOfFuel] (a loop of the model that
    was cut off).  A theorem that says [= Ret _] therefore says that the code neither
    fails, nor panics, nor runs on.  The argument [debug] says whether the build has
    overflow checks and debug assertions.  Machine integers are [Z] with their
    wrap-around written out where it can matter, byte strings are lists of bytes,
    [HashMap] and [BTreeMap] are [gmap] or lists sorted by key.  The iteration order of
    a hash map is a parameter ([HashIter]), and so is every random value and every
    reading of a clock.

    Code outside the repository is a class: its operations and the documented laws
    that the code relies on.  These are [External] and [JsonText] (serde, serde_json),
    [Crypto], [Primitives], [Ed25519], [Curve25519], [Base64], [Base64ct] and
    [KeyArrays] (cryptographic crates), [ProstMegolm] and [ProstOlm] (protocol
    buffers), [SerdeJson], [Regex], [IndexSets], [VectorApply], [FuturesMutex],
    [Allocator], [Floats], [LocalTime] and [SasWorld].  Each class has an instance made
    of concrete functions, most of them in [Sample], [SampleCrypto], [Olm] and
    [SasSpec]; with it the witnesses of the theorems are evaluated, so no set of laws
    is contradictory.

    Interfaces between parts of the library are classes as well: [OrdLaws] (total
    orders), [Rule] (the trait of push rules), [LeaseStore] (what a store of leases
    promises, with the memory, IndexedDB and SQLite stores as instances), [Observer]
    and [LazyObserver] (what follows the updates of a linked chunk, with the vector and
    the relational store as instances), [Pickled] (what a pickle has to keep).

    ** The parts, their files and their theorems

    _Identifiers, JSON, room versions._  [Identifiers] is
    [common-identifiers-validation] and the accessors of [common-types/identifiers],
    with which texts are accepted and that they are taken apart into their parts.  [RoomVersionRules] has the rule sets of all room versions.
    [CanonicalJson] has the values, redaction and the redacting serializer of
    [common-types/canonical_json]; [RedactionSpec] shows that serializing while
    redacting is redacting, then serializing.  [Signatures] is [common-signatures]
    (hashing, signing, verification of events); [SignatureSpec] shows that a signed
    event verifies and that redaction keeps hash and signatures.  [EventFormat] is the
    PDU format check.

    _Authorization and state resolution_ ([common-state-res], [server-state-res]).
    [Events] and [EventAuth] are the typed events and the authorization rules, each
    rule as the code has it.  [AuthLevels] shows that power level events do not
    escalate, [AuthMember] that the membership rules accept exactly what a declarative
    relation allows, [AuthReads] that only the selected auth events are read,
    [AuthPanic] which events make the checks panic.  [TopoSort] and [Resolve] are
    [resolve.rs]: conflict sets, auth difference, power graph, power sort, iterative
    checks, mainline sort.  [TopoSpec], [ConflictSets], [PowerGraph] and [Mainline]
    relate each step to its definition in the specification; [ResolveSpec] shows that
    what is resolved is agreed on or authorized, [ResolveOrder] that the result depends
    neither on the order of the forks nor on any iteration order, [ResolveTotal] that
    resolution returns.  [AsyncAuth] and [AsyncResolve]
    are the adapters to asynchronous stores and show that they agree with the
    synchronous algorithms.

    _Stores and shared data structures_ ([server-store-codec], [client-common]).
    [Bytes] and [StoreCodec] are the record format, [StoreCodecSpec] its round trip and
    order.  [LinkedChunk] is the doubly linked list of chunks on a heap of raw pointers;
    [LinkedHeap], [LinkedList] and [LinkedRefine] show that it refines a machine on
    plain lists, hence that no pointer dangles; [LinkedObserver],
    [LinkedEdits] and [LinkedCommands] show what every operation does to the items and
    to whoever follows the updates.  [Updates] is the log of updates with its readers,
    [AsVector] and [AsVectorSpec] the vector that follows a linked chunk, [Relational]
    with [RelationalSpec] and [RelationalLoad] the store;
    [Persistence] joins them: what was propagated is loaded again.  [CrossProcessLock] and [CrossProcessLockSpec] are the lock between processes, as
    steps of any number of processes over a store and a clock: mutual exclusion, and
    when the dirty flag is set.  [MutexMap] and [SingleFlight] are the
    keyed mutexes and the coalescing of calls, [RingBuffer], [Backoff] and
    [Bloom] the smaller utilities.

    _Push rules_ ([common-types/push]).  [WordMatch], [FlatJson] and [Push] are the
    conditions and rule sets; [PushSpec] shows what user changes and updates of the
    server keep.

    _End-to-end encryption_ ([common-olm]).  [Cipher], [Megolm], [MegolmSession],
    [Olm], [OlmSession] and [OlmAccount] are the ratchets, messages, sessions and
    accounts.  [MegolmRatchet] shows that fast-forwarding is repeated advancing,
    [MegolmSpec] that a receiver decrypts exactly what it should in any order;
    [OlmChain], [OlmPair] and [OlmConversation] that two Olm sessions follow
    an abstract conversation under any delivery, [OneTimeKeysSpec] that the key store
    is a bounded queue.  [Keys] is keys as text.

    _Verification_ ([common-olm/sas.rs], [client-crypto/verification/sas],
    [client-qrcode]).  [ShortAuth] and [SasFlow] are the short authentication strings:
    the agreement and its codes, and the state machine of one side with every message,
    cancellation and time-out.  [SasSpec] shows what the compared strings are,
    [SasAuth] that a side that is done has all its evidence whoever sends what,
    [SasPair] that two honest sides agree in every interleaving and can finish.
    [QrCode] is the payload of QR codes, with an exact account of what
    is decoded.

    _Timeline_ ([client-ui/timeline]).  [TimelineItems] has the items, the remembered
    events and the indices between them, and shows that every edit keeps them in step.  [DateDividers] is the adjuster of the date dividers,
    [DateDividersSpec] shows that it leaves each divider exactly where the date changes.
    [TimelineState] handles diffs, local echoes, sending states, clearing and the read
    marker; [TimelineSpec] shows that under any sequence of these the items follow the
    vector of events, and what goes wrong when a timeline with a local echo is cleared.

    _Sliding sync_ ([client-matrix/sliding_sync/list]).  [SlidingSync] has the request
    generator and the list, and shows that requests are always valid and
    that the pages cover all rooms after exactly the batches it takes.

    ** Fuel and bounds

    Loops that are not structural take fuel.  The walks along auth events in [Resolve]
    have no bound in the code: their fuel is an argument, and [ResolveTotal] shows that
    the length of the longest chain of auth events is enough when events refer to older
    ones.  The loops of the power graph, of [TopoSort], the linked chunk, the codec, the
    word matcher, the skipping of message keys, the spinning lock and the removal of
    stray dividers are given fuel that is shown to be enough on every input they are
    run on, by a measure.  The sizes of machine integers that appear as hypotheses
    are 2^32 for the rooms of a sliding sync list together with a batch, 2^63 for the
    generations of a lease and 64 bits for the sizes of Bloom filters.  The timeline
    theorem is for builds without debug assertions, since the debug build panics on
    monthly dividers ([monthly_dividers_repeat]).

    ** Not modelled

    - Network, I/O and runtimes: the HTTP client and sync loops of [client-matrix], the
      SQLite and IndexedDB back ends apart from their leases, the server resolver,
      executors and tasks.  What they do is in third-party crates and services.
    - Serde types and generated code: [common-client-api], [common-federation-api],
      [common-appservice-api], most of [common-events], [common-macros].  They are
      declarations without algorithms.
    - Wrappers over one third-party engine: thumbnails (image), search (tantivy), HTML
      (html5ever), ECIES, HPKE and PK encryption (cryptographic crates), application
      service namespaces (regex), the pickle format of libolm.
    - The Olm machine and the identity and session managers of [client-crypto], the state
      store of [client-base] and the event cache of [client-matrix]: asynchronous code
      whose state is spread over store traits and locks.  The data structures they rest
      on (linked chunks, sessions, locks, verification flows) are modelled.
    - Of the timeline, the contents of items with their aggregations and read receipts;
      of the verification, the wrapper that saves the result in the store and the
      verification requests around the flow; of sliding sync, the observables and the
      cache.
    - Unstable features that are off by default, and [Debug] and [Display]
      implementations. *)

From Stdlib Require Export Ascii.
From stdpp Require Export base list gmap strings pretty sorting.

(** ** Results *)

(** Rust's [Result<A, E>]. *)
Inductive result (E A : Type) : Type :=
| Ok (a : A)
| Err (e : E).

Arguments Ok {E A} a.
Arguments Err {E A} e.

(** What a computation that may also panic or be cut off by the fuel of its
    model ends with.  [Ret] and [Throw] are the two cases of [Result]. *)
Inductive outcome (E A : Type) : Type :=
| Ret (a : A)
| Throw (e : E)
| Panic
| OutOfFuel.

Arguments Ret {E A} a.
Arguments Throw {E A} e.
Arguments Panic {E A}.
Arguments OutOfFuel {E A}.

Declare Scope rust_scope.
Delimit Scope rust_scope with rust.

(** The question-mark operator on [Result]. *)
Notation "'let?' x ':=' e 'in' k" :=
  (match e with Ok x => k | Err err => Err err end)
  (at level 200, x pattern, e at level 200, k at level 200,
   format "'[v' 'let?'  x  ':='  e  'in' '/' k ']'") : rust_scope.

(** The question-mark operator on [outcome]; panics and missing fuel propagate. *)
Notation "'let!' x ':=' e 'in' k" :=
  (match e with
   | Ret x => k
   | Throw err => Throw err
   | Panic => Panic
   | OutOfFuel => OutOfFuel
   end)
  (at level 200, x pattern, e at level 200, k at level 200,
   format "'[v' 'let!'  x  ':='  e  'in' '/' k ']'") : rust_scope.

Open Scope rust_scope.

Definition is_ok {E A} (r : result E A) : bool :=
  match r with Ok _ => true | Err _ => false end.

Definition is_err {E A} (r : result E A) : bool := negb (is_ok r).

(** [Option::ok_or] *)
Definition ok_or {E A} (o : option A) (e : E) : result E A :=
  match o with Some a => Ok a | None => Err e end.

(** [Result::ok] *)
Definition result_ok {E A} (r : result E A) : option A :=
  match r with Ok a => Some a | Err _ => None end.

(** [Result::map_err] *)
Definition map_err {E F A} (f : E → F) (r : result E A) : result F A :=
  match r with Ok a => Ok a | Err e => Err (f e) end.

(** ** Automation *)

(** Case analysis on the innermost [match] or [if] of a hypothesis or the goal,
    with contradictory equations removed. *)
Ltac step_match :=
  match goal with
  | H : context [match ?x with _ => _ end] |- _ =>
      lazymatch x with context [match _ with _ => _ end] => fail | _ => idtac end;
      destruct x eqn:?; simplify_eq/=
  | |- context [match ?x with _ => _ end] =>
      lazymatch x with context [match _ with _ => _ end] => fail | _ => idtac end;
      destruct x eqn:?; simplify_eq/=
  end.

Ltac step_matches := repeat step_match.

(** The same on hypotheses only. *)
Ltac inv_match :=
  match goal with
  | H : context [match ?x with _ => _ end] |- _ =>
      lazymatch x with context [match _ with _ => _ end] => fail | _ => idtac end;
      destruct x eqn:?; simplify_eq/=
  end.

Ltac inv_matches := repeat inv_match.

(** Closes an equation of closed terms by evaluating both sides; the types of the
    two sides are left alone. *)
Ltac by_vm := match goal with |- _ = ?y => vm_cast_no_check (eq_refl y) end.

(** Closes a decidable closed proposition by evaluating its decision. *)
Ltac by_decide :=
  match goal with |- ?P => refine (bool_decide_eq_true_1 P _); by_vm end.

(** The value a stateful computation returns, and the state it leaves. *)
Definition returned {E A S} (o : outcome E (A * S)) : option A :=
  match o with Ret (a, _) => Some a | _ => None end.

Definition left_state {E A S} (s : S) (o : outcome E (A * S)) : S :=
  match o with Ret (_, s) => s | _ => s end.

Lemma returned_ret {E A S} (s : S) (o : outcome E (A * S)) a : returned o = Some a → o = Ret (a, left_state s o).
Proof. destruct o as [[? ?]| | |]; [intros [= ->]|..]; done. Qed.

(** A sequence of computations returns exactly when each of them does. *)
Lemma bind_ret {E A B} (e : outcome E A) (k : A → outcome E B) b :
  (let! x := e in k x) = Ret b ↔ ∃ x, e = Ret x ∧ k x = Ret b.
Proof. destruct e; naive_solver. Qed.

(** A computation that ends with a value or an error. *)
Definition no_panic {E A} (r : outcome E A) : Prop :=
  match r with Ret _ | Throw _ => True | _ => False end.

Lemma no_panic_bind {E A B} (e : outcome E A) (k : A → outcome E B) :
  no_panic e → (∀ x, e = Ret x → no_panic (k x)) → no_panic (let! x := e in k x).
Proof. destruct e; naive_solver. Qed.

Create HintDb no_panic.
#[export] Hint Resolve no_panic_bind : no_panic.

(** Opens the binds of a computation known to return. *)
Ltac inv_bind H :=
  repeat (apply bind_ret in H as (? & ? & H); cbn beta in H).

(** Two results of the same computation agree. *)
Ltac same_result :=
  repeat match goal with
  | H1 : ?x = Ret _, H2 : ?x = Ret _ |- _ =>
      rewrite H1 in H2; first [ injection H2 as ?; subst | clear H2 ]
  | H1 : ?x = Ret _, H2 : ?x = _ |- _ => rewrite H1 in H2; discriminate H2
  end; simplify_eq/=.

(** Boolean connectives and tests to propositions. *)
Ltac to_prop :=
  repeat match goal with
  | H : _ && _ = true |- _ => apply andb_true_iff in H as [? ?]
  | H : _ || _ = false |- _ => apply orb_false_iff in H as [? ?]
  | H : negb _ = true |- _ => apply negb_true_iff in H
  | H : negb _ = false |- _ => apply negb_false_iff in H
  | H : bool_decide _ = true |- _ => apply bool_decide_eq_true_1 in H
  | H : bool_decide _ = false |- _ => apply bool_decide_eq_false_1 in H
  end.

(** ** Comparison

    [Ord::cmp] with the laws its documentation asks of an implementation. *)
Class OrdLaws {A} (cmp : A → A → comparison) : Prop := {
  cmp_eq : ∀ a b, cmp a b = Eq ↔ a = b;
  cmp_opp : ∀ a b, cmp b a = CompOpp (cmp a b);
  cmp_lt_trans : ∀ a b c, cmp a b = Lt → cmp b c = Lt → cmp a c = Lt
}.

Arguments cmp_eq {A} cmp {_}.
Arguments cmp_opp {A} cmp {_}.
Arguments cmp_lt_trans {A} cmp {_}.

(** [Ordering::then] *)
Definition cmp_then (c1 c2 : comparison) : comparison :=
  match c1 with Eq => c2 | _ => c1 end.

(** [Option]: [None] is least. *)
Definition option_cmp {A} (cmp : A → A → comparison) (a b : option A) : comparison :=
  match a, b with
  | None, None => Eq
  | None, Some _ => Lt
  | Some _, None => Gt
  | Some a, Some b => cmp a b
  end.

(** The comparison of two keys, one after the other. *)
Definition pair_cmp {A B} (cmpA : A → A → comparison) (cmpB : B → B → comparison)
    (a b : A * B) : comparison :=
  cmp_then (cmpA a.1 b.1) (cmpB a.2 b.2).

(** [a <= b] *)
Definition cmp_le {A} (cmp : A → A → comparison) (a b : A) : Prop := cmp a b ≠ Gt.

#[export] Instance cmp_le_dec {A} (cmp : A → A → comparison) : RelDecision (cmp_le cmp).
Proof. intros a b. unfold cmp_le. destruct (cmp a b); [left|left|right]; auto. Defined.

Section ord_laws.
Context {A} (cmp : A → A → comparison) `{!OrdLaws cmp}.

Lemma cmp_refl a : cmp a a = Eq.
Proof. by apply cmp_eq. Qed.

Lemma cmp_gt_lt a b : cmp a b = Gt ↔ cmp b a = Lt.
Proof. rewrite (cmp_opp cmp a b). by destruct (cmp a b). Qed.

Lemma cmp_le_lt_or_eq a b : cmp_le cmp a b ↔ cmp a b = Lt ∨ a = b.
Proof.
  unfold cmp_le. rewrite <- (cmp_eq cmp a b). destruct (cmp a b); naive_solver.
Qed.

#[export] Instance cmp_le_trans : Transitive (cmp_le cmp).
Proof.
  intros a b c. rewrite !cmp_le_lt_or_eq.
  intros [?| ->] [?| <-]; eauto using cmp_lt_trans.
Qed.

#[export] Instance cmp_le_total : Total (cmp_le cmp).
Proof. intros a b. unfold cmp_le. rewrite (cmp_opp cmp a b). destruct (cmp a b); auto. Qed.

#[export] Instance cmp_le_anti : AntiSymm (=) (cmp_le cmp).
Proof.
  intros a b [Hab| ->]%cmp_le_lt_or_eq [Hba|?]%cmp_le_lt_or_eq; try done.
  apply cmp_gt_lt in Hba. congruence.
Qed.

#[export] Instance option_cmp_laws : OrdLaws (option_cmp cmp).
Proof.
  split.
  - intros [a|] [b|]; simpl; try naive_solver. rewrite (cmp_eq cmp). naive_solver.
  - intros [a|] [b|]; simpl; try done. apply cmp_opp, _.
  - intros [a|] [b|] [c|]; simpl; try done. apply cmp_lt_trans, _.
Qed.

(** The flipped comparison. *)
Lemma flip_cmp_laws : OrdLaws (flip cmp).
Proof.
  split; simpl.
  - intros a b. rewrite (cmp_eq cmp). naive_solver.
  - intros a b. apply cmp_opp, _.
  - intros a b c ? ?. by eapply (cmp_lt_trans cmp).
Qed.

(** The comparison of the images under an injection. *)
Lemma inj_cmp_laws {B} (f : B → A) `{!Inj (=) (=) f} : OrdLaws (λ a b, cmp (f a) (f b)).
Proof.
  split.
  - intros a b. rewrite (cmp_eq cmp). split; [apply (inj f)|congruence].
  - intros a b. apply cmp_opp, _.
  - intros a b c. apply cmp_lt_trans, _.
Qed.

End ord_laws.

#[export] Instance pair_cmp_laws {A B} (cmpA : A → A → comparison) (cmpB : B → B → comparison)
  `{!OrdLaws cmpA, !OrdLaws cmpB} : OrdLaws (pair_cmp cmpA cmpB).
Proof.
  unfold pair_cmp, cmp_then. split.
  - intros [a b] [a' b']; simpl. pose proof (cmp_eq cmpA a a') as Ha. pose proof (cmp_eq cmpB b b') as Hb.
    destruct (cmpA a a'), (cmpB b b'); naive_solver.
  - intros [a b] [a' b']; simpl. rewrite (cmp_opp cmpA a a'), (cmp_opp cmpB b b').
    by destruct (cmpA a a').
  - intros [a b] [a' b'] [a'' b'']; simpl.
    destruct (cmpA a a') eqn:H1; [apply (cmp_eq cmpA) in H1 as ->| |done].
    + destruct (cmpA a' a''); try done. apply cmp_lt_trans, _.
    + destruct (cmpA a' a'') eqn:H2; try done.
      * apply (cmp_eq cmpA) in H2 as ->. by rewrite H1.
      * by rewrite (cmp_lt_trans cmpA _ _ _ H1 H2).
Qed.

#[export] Instance Z_compare_laws : OrdLaws Z.compare.
Proof.
  split.
  - intros. apply Z.compare_eq_iff.
  - intros. apply Z.compare_antisym.
  - intros a b c. rewrite !Z.compare_lt_iff. lia.
Qed.

#[export] Instance nat_compare_laws : OrdLaws Nat.compare.
Proof.
  split.
  - intros. apply Nat.compare_eq_iff.
  - intros. apply Nat.compare_antisym.
  - intros a b c. rewrite !Nat.compare_lt_iff. lia.
Qed.

Lemma string_compare_refl s : String.compare s s = Eq.
Proof.
  induction s as [|a s IH]; simpl; [done|]. unfold Ascii.compare. by rewrite N.compare_refl.
Qed.

Lemma string_compare_eq s1 s2 : String.compare s1 s2 = Eq ↔ s1 = s2.
Proof.
  split; [apply String.compare_eq_iff|]. intros ->. apply string_compare_refl.
Qed.

#[export] Instance string_compare_laws : OrdLaws String.compare.
Proof.
  split.
  - apply string_compare_eq.
  - intros. apply String.compare_antisym.
  - intros a b c Hab Hbc.
    assert (∀ s1 s2, String.compare s1 s2 = Lt ↔ String.le s1 s2 ∧ s1 ≠ s2) as Hlt.
    { intros s1 s2. rewrite <- string_compare_eq. unfold String.le, String.leb.
      destruct (String.compare s1 s2); naive_solver. }
    apply Hlt in Hab as [Hab Hne], Hbc as [Hbc _]. apply Hlt. split; [by etrans|].
    intros ->. by destruct Hne; apply (anti_symm String.le).
Qed.

Lemma StronglySorted_mono {A} (R1 R2 : A → A → Prop) l :
  (∀ x y, x ∈ l → y ∈ l → R1 x y → R2 x y) → StronglySorted R1 l → StronglySorted R2 l.
Proof.
  intros HR Hl. induction Hl as [|x l Hl IH Hx]; constructor.
  - apply IH. intros y z Hy Hz. apply HR; by constructor.
  - rewrite Forall_forall in Hx |- *. intros y Hy.
    apply HR; [constructor|by constructor|auto].
Qed.

(** Two filters that agree on the elements of the list. *)
Lemma list_filter_ext_in {A} (P Q : A → Prop) `{!∀ x, Decision (P x), !∀ x, Decision (Q x)} (l : list A) :
  (∀ x, x ∈ l → P x ↔ Q x) → filter P l = filter Q l.
Proof.
  induction l as [|x l IH]; intros Hl; [done|]. rewrite !filter_cons.
  assert (filter P l = filter Q l) as -> by (apply IH; intros y Hy; apply Hl; by right).
  assert (P x ↔ Q x) by (apply Hl; by left). repeat case_decide; tauto.
Qed.

(** The iteration order of a [BTreeSet] of strings. *)
Definition btree_elements (s : gset string) : list string :=
  merge_sort String.le (elements s).

(** ** Hash containers

    [HashMap] and [HashSet] are finite maps and sets; the order in which they
    are iterated is arbitrary.  A model that iterates one takes the order from
    an instance of this class, at a path that names the iteration, so that a
    theorem about every instance holds of every iteration order. *)
Class HashIter : Type := {
  hash_iter : ∀ (site : list string) (K : Type) (eqK : EqDecision K) (cK : Countable K)
                (V : Type), gmap K V → list (K * V);
  hash_iter_perm : ∀ site K eqK cK V (m : gmap K V),
    hash_iter site K eqK cK V m ≡ₚ map_to_list m
}.

Definition iter_map `{!HashIter} {K} `{Countable K} {V} (site : list string)
    (m : gmap K V) : list (K * V) :=
  hash_iter site K _ _ V m.

(** The keys of a map, and the elements of a set (a map to [()]). *)
Definition iter_keys `{!HashIter} {K} `{Countable K} {V} (site : list string)
    (m : gmap K V) : list K :=
  (iter_map site m).*1.

Definition iter_set `{!HashIter} {K} `{Countable K} (site : list string)
    (s : gset K) : list K :=
  (iter_map site (gset_to_gmap () s)).*1.

Section hash_iter.
Context `{!HashIter} {K : Type} `{Countable K}.

Lemma iter_map_perm {V} site (m : gmap K V) : iter_map site m ≡ₚ map_to_list m.
Proof. apply hash_iter_perm. Qed.

Lemma elem_of_iter_map {V} site (m : gmap K V) k v :
  (k, v) ∈ iter_map site m ↔ m !! k = Some v.
Proof. rewrite iter_map_perm. apply elem_of_map_to_list. Qed.

Lemma NoDup_iter_keys {V} site (m : gmap K V) : NoDup (iter_keys site m).
Proof.
  unfold iter_keys. rewrite iter_map_perm. apply NoDup_fst_map_to_list.
Qed.

Lemma elem_of_iter_keys {V} site (m : gmap K V) k :
  k ∈ iter_keys site m ↔ k ∈ dom m.
Proof.
  unfold iter_keys. rewrite list_elem_of_fmap, elem_of_dom. split.
  - intros ([k' v] & -> & Hin). apply elem_of_iter_map in Hin. by eexists.
  - intros [v Hv]. exists (k, v). by rewrite elem_of_iter_map.
Qed.

Lemma NoDup_iter_set site (s : gset K) : NoDup (iter_set site s).
Proof. apply NoDup_iter_keys. Qed.

Lemma elem_of_iter_set site (s : gset K) k : k ∈ iter_set site s ↔ k ∈ s.
Proof.
  change (k ∈ iter_keys site (gset_to_gmap () s) ↔ k ∈ s).
  by rewrite elem_of_iter_keys, dom_gset_to_gmap.
Qed.

End hash_iter.

(** Two concrete orders: that of [map_to_list], and its reverse. *)
Definition hash_iter_std : HashIter := {|
  hash_iter _ K eqK cK V m := map_to_list m;
  hash_iter_perm _ K eqK cK V m := reflexivity _
|}.

Lemma reverse_map_to_list_perm K eqK cK V (m : @gmap K eqK cK V) :
  reverse (map_to_list m) ≡ₚ map_to_list m.
Proof. apply reverse_Permutation. Qed.

Definition hash_iter_rev : HashIter := {|
  hash_iter _ K eqK cK V m := reverse (map_to_list m);
  hash_iter_perm _ K eqK cK V m := reverse_map_to_list_perm K eqK cK V m
|}.

(** ** Strings

    A Rust string is the sequence of its UTF-8 bytes, held as a [string]. *)

(** [str::find] of a one-byte character. *)
Fixpoint str_find (c : ascii) (s : string) : option nat :=
  match s with
  | EmptyString => None
  | String a s' => if Ascii.eqb a c then Some 0 else S <$> str_find c s'
  end.

(** [&s[n..]] and [&s[..n]] for [n] within the string. *)
Fixpoint str_drop (n : nat) (s : string) : string :=
  match n, s with
  | 0, _ => s
  | S n, EmptyString => EmptyString
  | S n, String _ s' => str_drop n s'
  end.

Fixpoint str_take (n : nat) (s : string) : string :=
  match n, s with
  | 0, _ => EmptyString
  | S n, EmptyString => EmptyString
  | S n, String a s' => String a (str_take n s')
  end.

Definition str_first (s : string) : option ascii :=
  match s with EmptyString => None | String a _ => Some a end.

(** [str::contains] of a one-byte character. *)
Definition str_contains (c : ascii) (s : string) : bool :=
  match str_find c s with Some _ => true | None => false end.

(** [bytes().all(p)] *)
Fixpoint str_all (p : ascii → bool) (s : string) : bool :=
  match s with
  | EmptyString => true
  | String a s' => p a && str_all p s'
  end.

Definition str_starts_with (c : ascii) (s : string) : bool :=
  match s with EmptyString => false | String a _ => Ascii.eqb a c end.

(** [strip_prefix] of a string. *)
Fixpoint strip_prefix (p s : string) : option string :=
  match p, s with
  | EmptyString, _ => Some s
  | String a p', String b s' => if Ascii.eqb a b then strip_prefix p' s' else None
  | String _ _, EmptyString => None
  end.

Lemma str_find_lt c s i : str_find c s = Some i → i < String.length s.
Proof.
  revert i. induction s as [|a s IH]; intros i; simpl; [done|].
  destruct (Ascii.eqb a c); intros Hi; simplify_eq; [lia|].
  apply fmap_Some in Hi as (j & Hj & ->). specialize (IH _ Hj). lia.
Qed.

Lemma str_take_drop n s : (str_take n s +:+ str_drop n s) = s.
Proof.
  revert s. induction n as [|n IH]; intros [|a s]; try done.
  simpl. unfold String.app. simpl. f_equal. apply IH.
Qed.

Lemma length_str_drop n s : String.length (str_drop n s) = String.length s - n.
Proof. revert s. induction n as [|n IH]; intros [|a s]; simpl; auto. Qed.

Lemma str_app_assoc (s1 s2 s3 : string) : (s1 +:+ s2) +:+ s3 = s1 +:+ s2 +:+ s3.
Proof. induction s1 as [|a s1 IH]; [done|]. unfold String.app in *. simpl. f_equal. exact IH. Qed.

(** ** Filters that keep everything *)

Lemma filter_all {A} (P : A → Prop) `{!∀ x, Decision (P x)} (l : list A) : (∀ x, x ∈ l → P x) → filter P l = l.
Proof.
  induction l as [|x l IH]; intros Hl; [done|]. rewrite filter_cons_True by (apply Hl; by left).
  by rewrite IH by (intros y Hy; apply Hl; by right).
Qed.
