(* ===== verification/Identifiers.v ===== *)
(** * Identifiers

    The identifier grammar of [crates/common-identifiers-validation] and the
    accessors of [crates/common-types/src/identifiers] that the rest of the
    development uses.  An identifier is the string it wraps; [Ok] of a
    [validate] function is what the [TryFrom<&str>] of the identifier checks.
    The default build is modelled: the [compat-*] features are off.

    The lemmas at the end show which texts are user IDs and content URIs and what they
    are taken apart into. *)

From S2P Require Import Prelude.

(** ** Errors ([error.rs]) *)

Inductive MxcUriError :=
| WrongSchema
| MissingSlash
| MediaIdMalformed
| ServerNameMalformed.

(** The variants the modelled validators return. *)
Inductive IdError :=
| Empty
| InvalidCharacters
| InvalidMxcUri (e : MxcUriError)
| InvalidServerName
| MaximumLengthExceeded
| MissingColon
| MissingLeadingSigil.

(** [Display] of the errors *)
Definition display_mxc_error (e : MxcUriError) : string :=
  match e with
  | WrongSchema => "MXC URI schema was not mxc://"
  | MissingSlash => "MXC URI does not have first slash"
  | MediaIdMalformed => "Media Identifier malformed, invalid characters"
  | ServerNameMalformed => "invalid Server Name"
  end.

Definition display_id_error (e : IdError) : string :=
  match e with
  | Empty => "identifier or required part of it is empty"
  | InvalidCharacters => "identifier contains invalid characters"
  | InvalidMxcUri e => "invalid Matrix Content URI: " +:+ display_mxc_error e
  | InvalidServerName => "server name is not a valid IP address or domain name"
  | MaximumLengthExceeded => "ID exceeds 255 bytes"
  | MissingColon => "required colon is missing"
  | MissingLeadingSigil => "leading sigil is incorrect or missing"
  end.

Definition ID_MAX_BYTES : nat := 255.

(** ** Standard library functions the validators use *)

Definition byte_val (c : ascii) : Z := Z.of_N (N_of_ascii c).

Definition in_range (lo hi : Z) (c : ascii) : bool :=
  (lo <=? byte_val c)%Z && (byte_val c <=? hi)%Z.

Definition is_ascii_digit (c : ascii) : bool := in_range 48 57 c.
Definition is_ascii_lower (c : ascii) : bool := in_range 97 122 c.
Definition is_ascii_upper (c : ascii) : bool := in_range 65 90 c.

Definition is_ascii_alphanumeric (c : ascii) : bool :=
  is_ascii_digit c || is_ascii_lower c || is_ascii_upper c.

(** [char::to_digit] *)
Definition to_digit (radix : Z) (c : ascii) : option Z :=
  let b := byte_val c in
  let d := if is_ascii_digit c then Some (b - 48)%Z
           else if is_ascii_lower c then Some (b - 87)%Z
           else if is_ascii_upper c then Some (b - 55)%Z
           else None in
  match d with
  | Some v => if (v <? radix)%Z then Some v else None
  | None => None
  end.

(** The digits of an unsigned number in base ten, as [from_str_radix] reads
    them; [None] for a byte that is no digit. *)
Fixpoint parse_digits (acc : Z) (s : string) : option Z :=
  match s with
  | EmptyString => Some acc
  | String c s' =>
      match to_digit 10 c with
      | Some d => parse_digits (acc * 10 + d) s'
      | None => None
      end
  end.

(** [str::parse::<u16>]: an optional plus sign, then at least one digit, and a
    value of sixteen bits. *)
Definition parse_u16 (s : string) : option Z :=
  let digits := match s with
                | String "+" s' => s'
                | _ => s
                end in
  match digits with
  | EmptyString => None
  | _ => match parse_digits 0 digits with
         | Some v => if (v <? 65536)%Z then Some v else None
         | None => None
         end
  end.

(** [core::net::parser]: each reader returns what is left of the input, or
    [None] with the input unread. *)

(** All digits of the radix at the head: how many, their value, the rest. *)
Fixpoint read_digits (radix : Z) (n : nat) (acc : Z) (s : string) : nat * Z * string :=
  match s with
  | EmptyString => (n, acc, s)
  | String c s' =>
      match to_digit radix c with
      | Some d => read_digits radix (S n) (acc * radix + d) s'
      | None => (n, acc, s)
      end
  end.

(** [read_number] with a bound on the digits and on the value. *)
Definition read_number (radix : Z) (max_digits : nat) (max_value : Z)
    (allow_zero_prefix : bool) (s : string) : option (Z * string) :=
  let '(n, v, rest) := read_digits radix 0 0 s in
  if (n =? 0)%nat || (max_digits <? n)%nat then None
  else if negb allow_zero_prefix && str_starts_with "0" s && (1 <? n)%nat then None
  else if (max_value <? v)%Z then None
  else Some (v, rest).

Definition read_given_char (c : ascii) (s : string) : option string :=
  match s with
  | String a s' => if Ascii.eqb a c then Some s' else None
  | EmptyString => None
  end.

(** [read_separator]: the separator is required except at index 0. *)
Definition read_separator {A} (sep : ascii) (index : nat)
    (inner : string → option (A * string)) (s : string) : option (A * string) :=
  match index with
  | 0 => inner s
  | S _ => match read_given_char sep s with
           | Some s' => inner s'
           | None => None
           end
  end.

Fixpoint read_ipv4_groups (fuel i : nat) (s : string) : option string :=
  match fuel with
  | 0 => Some s
  | S fuel =>
      match read_separator "." i (read_number 10 3 255 false) s with
      | Some (_, s') => read_ipv4_groups fuel (S i) s'
      | None => None
      end
  end.

Definition read_ipv4_addr (s : string) : option (() * string) :=
  (λ s', ((), s')) <$> read_ipv4_groups 4 0 s.

(** [read_groups] over [limit] slots, from slot [i]: the number of groups read,
    whether they end in an embedded IPv4 address, and the rest. *)
Fixpoint read_groups (slots i limit : nat) (s : string) : nat * bool * string :=
  match slots with
  | 0 => (limit, false, s)
  | S slots =>
      match (if (i <? limit - 1)%nat then read_separator ":" i read_ipv4_addr s else None) with
      | Some (_, s') => (i + 2, true, s')
      | None =>
          match read_separator ":" i (read_number 16 4 65535 true) s with
          | Some (_, s') => read_groups slots (S i) limit s'
          | None => (i, false, s)
          end
      end
  end.

Definition read_ipv6_addr (s : string) : option string :=
  let '(head_size, head_ipv4, s1) := read_groups 8 0 8 s in
  if (head_size =? 8)%nat then Some s1
  else if head_ipv4 then None
  else match read_given_char ":" s1 with
       | None => None
       | Some s2 =>
           match read_given_char ":" s2 with
           | None => None
           | Some s3 =>
               let limit := 8 - (head_size + 1) in
               let '(_, _, s4) := read_groups limit 0 limit s3 in
               Some s4
           end
       end.

(** [str::parse::<Ipv6Addr>().is_ok()]: the whole input is read. *)
Definition is_ipv6_addr (s : string) : bool :=
  match read_ipv6_addr s with
  | Some EmptyString => true
  | _ => false
  end.

(** ** Validators *)

(** [server_name::validate] *)
Definition server_name_validate (server_name : string) : result IdError unit :=
  match server_name with
  | EmptyString => Err InvalidServerName
  | _ =>
      let? end_of_host :=
        if str_starts_with "[" server_name then
          match str_find "]" server_name with
          | None => Err InvalidServerName
          | Some end_of_ipv6 =>
              if negb (is_ipv6_addr (str_drop 1 (str_take end_of_ipv6 server_name)))
              then Err InvalidServerName
              else Ok (end_of_ipv6 + 1)
          end
        else
          let end_of_host := default (String.length server_name) (str_find ":" server_name) in
          if (end_of_host =? 0)%nat then Err InvalidServerName
          else if negb (str_all (λ b, is_ascii_alphanumeric b || Ascii.eqb b "-" || Ascii.eqb b ".")
                          (str_take end_of_host server_name))
          then Err InvalidServerName
          else Ok end_of_host in
      if negb (String.length server_name =? end_of_host)%nat
         && (negb (str_starts_with ":" (str_drop end_of_host server_name))
             || match parse_u16 (str_drop (end_of_host + 1) server_name) with
                | Some _ => false
                | None => true
                end)
      then Err InvalidServerName
      else Ok tt
  end.

(** [validate_id] *)
Definition validate_id (id : string) (first_byte : ascii) : result IdError unit :=
  if (ID_MAX_BYTES <? String.length id)%nat then Err MaximumLengthExceeded
  else if negb (str_starts_with first_byte id) then Err MissingLeadingSigil
  else Ok tt.

(** [parse_id] *)
Definition parse_id (id : string) (first_byte : ascii) : result IdError nat :=
  let? _ := validate_id id first_byte in
  let? colon_idx := ok_or (str_find ":" id) MissingColon in
  let? _ := server_name_validate (str_drop (colon_idx + 1) id) in
  Ok colon_idx.

(** [validate_delimited_id] *)
Definition validate_delimited_id (id : string) (first_byte : ascii) : result IdError unit :=
  let? _ := parse_id id first_byte in Ok tt.

(** [localpart_is_backwards_compatible] *)
Definition localpart_is_backwards_compatible (localpart : string) : result IdError unit :=
  if str_contains ":" localpart || str_contains "000" localpart
  then Err InvalidCharacters else Ok tt.

(** [&s[1..colon_idx]]; [Panic] when the range is not one of the string. *)
Definition slice_localpart (s : string) (colon_idx : nat) : outcome IdError string :=
  if (1 <=? colon_idx)%nat && (colon_idx <=? String.length s)%nat
  then Ret (str_drop 1 (str_take colon_idx s)) else Panic.

Definition lift {E A} (r : result E A) : outcome E A :=
  match r with Ok a => Ret a | Err e => Throw e end.

(** [user_id::validate] *)
Definition user_id_validate (s : string) : outcome IdError unit :=
  let! colon_idx := lift (parse_id s "@") in
  let! localpart := slice_localpart s colon_idx in
  lift (localpart_is_backwards_compatible localpart).

(** [user_id::localpart_is_fully_conforming] *)
Definition localpart_is_fully_conforming (localpart : string) : result IdError bool :=
  match localpart with
  | EmptyString => Err Empty
  | _ =>
      let is_fully_conforming :=
        str_all (λ b, is_ascii_digit b || is_ascii_lower b || Ascii.eqb b "-" || Ascii.eqb b "."
                      || Ascii.eqb b "=" || Ascii.eqb b "_" || Ascii.eqb b "/" || Ascii.eqb b "+")
          localpart in
      if negb is_fully_conforming
         && negb (str_all (λ b, negb ((byte_val b <? 33)%Z || Ascii.eqb b ":" || (126 <? byte_val b)%Z))
                    localpart)
      then Err InvalidCharacters
      else Ok is_fully_conforming
  end.

(** [user_id::validate_strict] *)
Definition user_id_validate_strict (s : string) : outcome IdError unit :=
  if (ID_MAX_BYTES <? String.length s)%nat then Throw MaximumLengthExceeded
  else
    let! colon_idx := lift (parse_id s "@") in
    let! localpart := slice_localpart s colon_idx in
    let! conforming := lift (localpart_is_fully_conforming localpart) in
    if negb conforming then Throw InvalidCharacters else Ret tt.

(** [room_id::validate] *)
Definition room_id_validate (s : string) : result IdError unit :=
  let? _ := validate_id s "!" in
  if str_contains "000" s then Err InvalidCharacters else Ok tt.

(** [event_id::validate] *)
Definition event_id_validate (s : string) : result IdError unit :=
  if str_contains ":" s then
    let? _ := validate_delimited_id s "$" in Ok tt
  else if negb (str_starts_with "$" s) then Err MissingLeadingSigil
  else Ok tt.

(** [room_alias_id::validate] *)
Definition room_alias_id_validate (s : string) : outcome IdError unit :=
  let! colon_idx := lift (parse_id s "#") in
  let! localpart := slice_localpart s colon_idx in
  lift (localpart_is_backwards_compatible localpart).

(** [room_id_or_alias_id::validate] *)
Definition room_id_or_alias_id_validate (s : string) : outcome IdError unit :=
  match str_first s with
  | Some "#"%char => room_alias_id_validate s
  | Some "!"%char => lift (room_id_validate s)
  | _ => Throw MissingLeadingSigil
  end.

(** [as u8] *)
Definition as_u8 (n : nat) : Z := Z.of_nat n mod 256.

(** [NonZeroU8::new] *)
Definition NonZeroU8_new (z : Z) : option Z := if (z =? 0)%Z then None else Some z.

(** Whether a byte continues a UTF-8 sequence. *)
Definition is_continuation (c : ascii) : bool := in_range 128 191 c.

(** [&s[n..]], which panics past the end or inside a character. *)
Definition slice_from {E} (n : nat) (s : string) : outcome E string :=
  if (n <=? String.length s)%nat
     && negb (match str_first (str_drop n s) with Some c => is_continuation c | None => false end)
  then Ret (str_drop n s) else Panic.

(** [key_id::validate], for the [validate] of the key name type. *)
Definition key_id_validate (key_name_validate : string → result IdError unit)
    (s : string) : outcome IdError Z :=
  let! idx := lift (ok_or (str_find ":" s) MissingColon) in
  let! colon_idx := lift (ok_or (NonZeroU8_new (as_u8 idx)) MissingColon) in
  let! key_name := slice_from (Z.to_nat colon_idx + 1) s in
  let! _ := lift (key_name_validate key_name) in
  Ret colon_idx.

Definition PROTOCOL : string := "mxc://".

(** [mxc_uri::validate] *)
Definition mxc_uri_validate (uri : string) : outcome MxcUriError Z :=
  match strip_prefix PROTOCOL uri with
  | None => Throw WrongSchema
  | Some uri =>
      match str_find "/" uri with
      | None => Throw MissingSlash
      | Some index =>
          let server_name := str_take index uri in
          let media_id := str_drop (index + 1) uri in
          let media_id_is_valid :=
            str_all (λ b, is_ascii_digit b || is_ascii_lower b || is_ascii_upper b
                          || Ascii.eqb b "-" || Ascii.eqb b "_") media_id in
          if negb media_id_is_valid then Throw MediaIdMalformed
          else if is_err (server_name_validate server_name) then Throw ServerNameMalformed
          else match NonZeroU8_new (as_u8 (index + 6)) with
               | Some z => Ret z
               | None => Panic
               end
      end
  end.

(** [&s[a..b]], which panics on a range that is not one of the string or cuts a
    character. *)
Definition slice_range {E} (a b : nat) (s : string) : outcome E string :=
  let boundary n := negb (match str_first (str_drop n s) with
                          | Some c => is_continuation c | None => false end) in
  if (a <=? b)%nat && (b <=? String.length s)%nat && boundary a && boundary b
  then Ret (str_drop a (str_take b s)) else Panic.

(** [MxcUri::parts] *)
Definition mxc_parts (uri : string) : outcome MxcUriError (string * string) :=
  let! idx := mxc_uri_validate uri in
  let! server_name := slice_range 6 (Z.to_nat idx) uri in
  let! media_id := slice_from (Z.to_nat idx + 1) uri in
  Ret (server_name, media_id).

(** [space_child_order::validate] *)
Definition space_child_order_validate (s : string) : result IdError unit :=
  if (50 <? String.length s)%nat then Err MaximumLengthExceeded
  else if negb (str_all (in_range 32 126) s) then Err InvalidCharacters
  else Ok tt.

(** ** Accessors ([common-types/src/identifiers]) *)

(** [UserId::colon_idx], which unwraps the position of the colon. *)
Definition user_id_colon_idx (s : string) : option nat := str_find ":" s.

(** [UserId::server_name].  A [UserId] has a colon, so the [unwrap] in
    [colon_idx] does not panic; the default stands for no case of the type. *)
Definition user_id_server_name (s : string) : string :=
  match user_id_colon_idx s with
  | Some i => str_drop (i + 1) s
  | None => EmptyString
  end.

(** [UserId::localpart] *)
Definition user_id_localpart (s : string) : string :=
  match user_id_colon_idx s with
  | Some i => str_drop 1 (str_take i s)
  | None => EmptyString
  end.

(** [EventId::server_name] *)
Definition event_id_server_name (s : string) : option string :=
  (λ i, str_drop (i + 1) s) <$> str_find ":" s.

(** [RoomOrAliasId::server_name], which [RoomId::server_name] calls. *)
Definition room_id_server_name (s : string) : option string :=
  match str_find ":" s with
  | None => None
  | Some i =>
      let server_name := str_drop (i + 1) s in
      if is_ok (server_name_validate server_name) then Some server_name else None
  end.

(** [RoomId::strip_sigil]; the sigil was checked when the id was made. *)
Definition room_id_strip_sigil (s : string) : option string := strip_prefix "!" s.

(** [RoomIdExt::room_create_event_id] of [common-state-res/src/utils.rs]. *)
Definition room_create_event_id (room_id : string) : result IdError string :=
  let id := String "$" (default EmptyString (room_id_strip_sigil room_id)) in
  let? _ := event_id_validate id in Ok id.

(** ** Identifiers: grammar, round trips, and where the validators fail

    User IDs and content URIs are what the grammar says and are taken apart into
    the parts they were made of; the offsets kept in one byte go wrong beyond it. *)

#[local] Arguments String.append !_ _ /.

(** ** Strings *)

Lemma str_length_app s1 s2 : String.length (s1 +:+ s2) = String.length s1 + String.length s2.
Proof. induction s1 as [|a s1 IH]; [done|]. cbn. f_equal. exact IH. Qed.

Lemma str_take_app s1 s2 : str_take (String.length s1) (s1 +:+ s2) = s1.
Proof. induction s1 as [|a s1 IH]; [done|]. cbn. f_equal. exact IH. Qed.

Lemma str_drop_app s1 s2 : str_drop (String.length s1) (s1 +:+ s2) = s2.
Proof. induction s1 as [|a s1 IH]; [done|]. exact IH. Qed.

Lemma str_drop_app_cons s1 a s2 : str_drop (String.length s1 + 1) (s1 +:+ String a s2) = s2.
Proof. induction s1 as [|b s1 IH]; [done|]. exact IH. Qed.

Lemma str_find_app c s1 s2 : str_find c s1 = None → str_find c (s1 +:+ String c s2) = Some (String.length s1).
Proof.
  induction s1 as [|a s1 IH]; cbn.
  - by rewrite Ascii.eqb_refl.
  - destruct (Ascii.eqb a c); [done|]. intros Hn%fmap_None. by rewrite (IH Hn).
Qed.

Lemma str_find_split c s i :
  str_find c s = Some i →
  ∃ s1 s2, s = s1 +:+ String c s2 ∧ str_find c s1 = None ∧ String.length s1 = i.
Proof.
  revert i. induction s as [|a s IH]; intros i; cbn; [done|].
  destruct (Ascii.eqb_spec a c) as [->|Hne]; intros Hi.
  - injection Hi as <-. by exists EmptyString, s.
  - apply fmap_Some in Hi as (j & Hj & ->). destruct (IH _ Hj) as (s1 & s2 & -> & Hn & <-).
    exists (String a s1), s2. split_and!; [done| |done]. cbn.
    destruct (Ascii.eqb_spec a c); [done|]. by rewrite Hn.
Qed.

Lemma str_contains_false c s : str_contains c s = false ↔ str_find c s = None.
Proof. unfold str_contains. destruct (str_find c s); naive_solver. Qed.

(** ** User IDs *)

(** [@localpart:server_name] *)
Definition user_id_of (localpart server_name : string) : string :=
  String "@" (localpart +:+ String ":" server_name).

(** The grammar of (historical) user IDs. *)
Definition user_id_ok (localpart server_name : string) : Prop :=
  str_find ":" localpart = None ∧ str_find "000" localpart = None ∧
  server_name_validate server_name = Ok tt ∧
  String.length (user_id_of localpart server_name) ≤ ID_MAX_BYTES.

Lemma user_id_find l sn : str_find ":" l = None → str_find ":" (user_id_of l sn) = Some (S (String.length l)).
Proof. intros Hl. unfold user_id_of. cbn. by rewrite str_find_app. Qed.

Lemma parse_id_user l sn :
  user_id_ok l sn → parse_id (user_id_of l sn) "@" = Ok (S (String.length l)).
Proof.
  intros (Hl & _ & Hsn & Hlen). unfold parse_id, validate_id.
  destruct (Nat.ltb_spec ID_MAX_BYTES (String.length (user_id_of l sn))); [lia|].
  rewrite user_id_find by done. cbn. rewrite str_drop_app_cons. by rewrite Hsn.
Qed.

Lemma user_slice l sn : slice_localpart (user_id_of l sn) (S (String.length l)) = Ret l.
Proof.
  unfold slice_localpart, user_id_of. simpl. rewrite str_length_app. simpl.
  destruct (Nat.leb_spec (String.length l) (String.length l + S (String.length sn))); [|lia].
  by rewrite str_take_app.
Qed.

Lemma user_id_parse s i :
  parse_id s "@" = Ok i →
  ∃ l sn, s = user_id_of l sn ∧ str_find ":" l = None ∧ server_name_validate sn = Ok tt ∧
    String.length s ≤ ID_MAX_BYTES ∧ i = S (String.length l).
Proof.
  unfold parse_id, validate_id.
  destruct (Nat.ltb_spec ID_MAX_BYTES (String.length s)) as [|Hlen]; [done|].
  destruct s as [|a s]; [done|]. cbn [str_starts_with].
  destruct (Ascii.eqb_spec a "@") as [->|]; [|done]. cbn [negb].
  destruct (str_find ":" (String "@" s)) as [j|] eqn:Hj; [|done]. cbn [ok_or].
  apply str_find_split in Hj as (s1 & sn & Hs & Hn & <-).
  destruct s1 as [|b l]; [done|]. cbn in Hs. injection Hs as <- ->.
  cbn. rewrite str_drop_app_cons.
  destruct (server_name_validate sn) as [[]|] eqn:Hsn; [|done]. intros [= <-].
  exists l, sn. split_and!; try done. cbn in Hn. by apply fmap_None in Hn.
Qed.

(** The slice of the localpart is never out of range. *)
Lemma user_id_validate_np s : no_panic (user_id_validate s).
Proof.
  unfold user_id_validate. destruct (parse_id s "@") as [i|e] eqn:Hp; [|done]. simpl.
  destruct (user_id_parse _ _ Hp) as (l & sn & -> & _ & _ & _ & ->).
  rewrite user_slice. by destruct (localpart_is_backwards_compatible l).
Qed.

(** [user_id::validate] never panics, and accepts exactly the strings
    [@localpart:server_name] of at most 255 bytes whose localpart has neither a colon
    nor a NUL byte and whose server name is valid. *)
Theorem user_id_validate_grammar s :
  user_id_validate s ≠ Panic ∧
  (user_id_validate s = Ret tt ↔ ∃ l sn, s = user_id_of l sn ∧ user_id_ok l sn).
Proof.
  unfold user_id_validate. destruct (parse_id s "@") as [i|e] eqn:Hp; cbn.
  - destruct (user_id_parse _ _ Hp) as (l & sn & -> & Hl & Hsn & Hlen & ->).
    rewrite user_slice. unfold localpart_is_backwards_compatible, user_id_ok.
    rewrite (proj2 (str_contains_false ":" l) Hl). cbn.
    destruct (str_contains "000" l) eqn:Hnul; cbn; split; try done.
    + split; [done|]. intros (l' & sn' & Heq & Hl' & Hn' & _).
      assert (Some (S (String.length l)) = Some (S (String.length l'))) as [= Hlen'].
      { rewrite <- (user_id_find l sn Hl), Heq. by apply user_id_find. }
      assert (l = l') as ->.
      { unfold user_id_of in Heq. injection Heq as Heq.
        rewrite <- (str_take_app l (String ":" sn)), Heq, Hlen'. apply str_take_app. }
      unfold str_contains in Hnul. by rewrite Hn' in Hnul.
    + split; [|done]. intros _. exists l, sn. split; [done|].
      split_and!; try done. by apply str_contains_false.
  - split; [done|]. split; [done|]. intros (l & sn & -> & Hok).
    by rewrite (parse_id_user l sn Hok) in Hp.
Qed.

(** A valid user ID is taken apart into the localpart and server name it was
    made of. *)
Theorem user_id_parts l sn :
  user_id_ok l sn →
  user_id_validate (user_id_of l sn) = Ret tt ∧
  user_id_localpart (user_id_of l sn) = l ∧ user_id_server_name (user_id_of l sn) = sn.
Proof.
  intros Hok. pose proof Hok as (Hl & Hn & Hsn & Hlen). split_and!.
  - unfold user_id_validate. rewrite (parse_id_user l sn Hok). cbn. rewrite user_slice.
    unfold localpart_is_backwards_compatible.
    by rewrite (proj2 (str_contains_false ":" l) Hl), (proj2 (str_contains_false "000" l) Hn).
  - unfold user_id_localpart, user_id_colon_idx. rewrite user_id_find by done.
    cbn. by rewrite str_take_app.
  - unfold user_id_server_name, user_id_colon_idx. rewrite user_id_find by done.
    cbn. by rewrite str_drop_app_cons.
Qed.

Lemma user_id_parts_witness :
  user_id_validate (user_id_of "alice" "example.org:8448") = Ret tt ∧
  user_id_localpart (user_id_of "alice" "example.org:8448") = "alice" ∧
  user_id_server_name (user_id_of "alice" "example.org:8448") = "example.org:8448".
Proof. apply (user_id_parts "alice" "example.org:8448"). split_and!; first [by_vm | by_decide]. Defined.

(** ** Content URIs *)

(** [mxc://server_name/media_id] *)
Definition mxc_of (server_name media_id : string) : string :=
  PROTOCOL +:+ (server_name +:+ String "/" media_id).

Definition media_id_ok (media_id : string) : bool :=
  str_all (λ b, is_ascii_digit b || is_ascii_lower b || is_ascii_upper b
                || Ascii.eqb b "-" || Ascii.eqb b "_") media_id.

Lemma strip_prefix_app p s : strip_prefix p (p +:+ s) = Some s.
Proof. induction p as [|a p IH]; [by destruct s|]. simpl. by rewrite Ascii.eqb_refl. Qed.

(** The offset of the slash, in one byte. *)
Lemma mxc_validate_of sn m :
  str_find "/" sn = None → server_name_validate sn = Ok tt → media_id_ok m = true →
  mxc_uri_validate (mxc_of sn m) =
  match NonZeroU8_new (as_u8 (String.length sn + 6)) with Some z => Ret z | None => Panic end.
Proof.
  intros Hsn Hv Hm. unfold mxc_uri_validate, mxc_of.
  rewrite strip_prefix_app, str_find_app, str_take_app, str_drop_app_cons by done.
  fold (media_id_ok m). by rewrite Hm, Hv.
Qed.

Lemma is_continuation_range c : is_continuation c = true → (128 ≤ byte_val c)%Z.
Proof. unfold is_continuation, in_range. intros [?%Z.leb_le _]%andb_true_iff. done. Qed.

Lemma media_id_first m : media_id_ok m = true → (match str_first m with Some c => is_continuation c | None => false end) = false.
Proof.
  destruct m as [|c m]; [done|]. unfold media_id_ok. simpl. intros [Hc _]%andb_true_iff.
  destruct (is_continuation c) eqn:Hcont; [|done]. apply is_continuation_range in Hcont. exfalso.
  revert Hc Hcont. by destruct c as [[] [] [] [] [] [] [] []]; vm_compute.
Qed.

Lemma server_name_first sn :
  server_name_validate sn = Ok tt →
  ∃ c sn', sn = String c sn' ∧ is_continuation c = false.
Proof.
  unfold server_name_validate. destruct sn as [|c sn']; [done|]. intros Hv.
  exists c, sn'. split; [done|]. cbn [str_starts_with] in Hv.
  destruct (Ascii.eqb_spec c "[") as [->|Hc]; [done|].
  set (eoh := default _ _) in Hv. destruct eoh as [|n]; [done|]. cbn [Nat.eqb str_take str_all] in Hv.
  destruct (is_continuation c) eqn:Hcont; [|done]. exfalso.
  destruct (is_ascii_alphanumeric c || Ascii.eqb c "-" || Ascii.eqb c ".") eqn:Hb; [|done].
  clear Hv. apply is_continuation_range in Hcont. revert Hb Hcont.
  by destruct c as [[] [] [] [] [] [] [] []]; vm_compute.
Qed.

(** A content URI whose server name is shorter than 250 bytes is taken apart
    into the server name and media id it was made of. *)
Theorem mxc_parts_of sn m :
  str_find "/" sn = None → server_name_validate sn = Ok tt → media_id_ok m = true →
  String.length sn < 250 → mxc_parts (mxc_of sn m) = Ret (sn, m).
Proof.
  intros Hsl Hv Hm Hlen. unfold mxc_parts. rewrite mxc_validate_of by done.
  unfold NonZeroU8_new, as_u8. rewrite Z.mod_small by lia.
  destruct (Z.eqb_spec (Z.of_nat (String.length sn + 6)) 0); [lia|].
  rewrite Nat2Z.id. replace (String.length sn + 6) with (6 + String.length sn) by lia.
  destruct (server_name_first sn Hv) as (c & sn' & Heq & Hc).
  assert (slice_range (E := MxcUriError) 6 (6 + String.length sn) (mxc_of sn m) = Ret sn) as ->.
  { unfold slice_range, mxc_of, PROTOCOL. cbn -[Nat.leb]. rewrite str_drop_app, str_length_app.
    simpl. destruct (Nat.leb_spec (String.length sn) (String.length sn + S (String.length m))); [|lia].
    rewrite Heq at 1. simpl. rewrite Hc. simpl. by rewrite str_take_app. }
  assert (slice_from (E := MxcUriError) (6 + String.length sn + 1) (mxc_of sn m) = Ret m) as ->; [|done].
  unfold slice_from, mxc_of, PROTOCOL. cbn -[Nat.leb]. rewrite str_drop_app_cons, str_length_app. simpl.
  rewrite (media_id_first m Hm).
  destruct (Nat.leb_spec (String.length sn + 1) (String.length sn + S (String.length m))); [done|lia].
Qed.

Lemma mxc_parts_of_witness : mxc_parts (mxc_of "example.org" "abc123") = Ret ("example.org", "abc123").
Proof. apply (mxc_parts_of "example.org" "abc123"); first [by_vm | by_decide]. Defined.

(** A content URI whose server name has 250 bytes (modulo 256) makes the
    validator panic: the offset of the slash is cut to one byte, which is then zero. *)
Theorem mxc_validate_panics sn m :
  str_find "/" sn = None → server_name_validate sn = Ok tt → media_id_ok m = true →
  String.length sn mod 256 = 250 → mxc_uri_validate (mxc_of sn m) = Panic.
Proof.
  intros Hsl Hv Hm Hlen. rewrite mxc_validate_of by done. unfold NonZeroU8_new, as_u8.
  assert (Z.of_nat (String.length sn + 6) mod 256 = 0)%Z as ->; [|done].
  rewrite Nat2Z.inj_add. apply (f_equal Z.of_nat) in Hlen. rewrite Nat2Z.inj_mod in Hlen.
  change (Z.of_nat 256) with 256%Z in Hlen.
  rewrite Z.add_mod, Hlen by lia. done.
Qed.

(** A host name of 250 letters. *)
Fixpoint letters (n : nat) : string :=
  match n with 0 => EmptyString | S n => String "a" (letters n) end.

Lemma mxc_validate_panics_witness : mxc_uri_validate (mxc_of (letters 250) "abc") = Panic.
Proof. apply (mxc_validate_panics (letters 250) "abc"); by_vm. Defined.

(** ** Key IDs *)

(** [algorithm:key_name] *)
Definition key_id_of (algorithm key_name : string) : string :=
  algorithm +:+ String ":" key_name.

(** [s] begins at the start of a character, as after a one-byte character in UTF-8. *)
Definition starts_char (s : string) : bool :=
  negb (match str_first s with Some c => is_continuation c | None => false end).

Lemma key_id_validate_of v alg name :
  str_find ":" alg = None → starts_char name = true → 0 < String.length alg < 256 →
  key_id_validate v (key_id_of alg name) =
  (let! _ := lift (v name) in Ret (Z.of_nat (String.length alg))).
Proof.
  intros Ha Hs Hlen. unfold key_id_validate, key_id_of. rewrite str_find_app by done.
  unfold NonZeroU8_new, as_u8, lift at 1. simpl. rewrite Z.mod_small by lia.
  destruct (Z.eqb_spec (Z.of_nat (String.length alg)) 0); [lia|]. simpl.
  unfold slice_from. rewrite Nat2Z.id, str_drop_app_cons, str_length_app. simpl.
  fold (starts_char name). rewrite Hs.
  by destruct (Nat.leb_spec (String.length alg + 1) (String.length alg + S (String.length name))); [|lia].
Qed.

(** A key ID whose algorithm has between 1 and 255 bytes is accepted exactly
    when its key name is, and its colon is found; one whose algorithm has 256
    bytes is refused for a missing colon. *)
Theorem key_id_validate_spec v alg name :
  str_find ":" alg = None → starts_char name = true →
  (0 < String.length alg < 256 →
   (key_id_validate v (key_id_of alg name) = Ret (Z.of_nat (String.length alg)) ↔ v name = Ok tt)) ∧
  (String.length alg = 256 → key_id_validate v (key_id_of alg name) = Throw MissingColon).
Proof.
  intros Ha Hs. split.
  - intros Hlen. rewrite key_id_validate_of by done.
    destruct (v name) as [[]|]; naive_solver.
  - intros Hlen. unfold key_id_validate, key_id_of. rewrite str_find_app by done.
    unfold NonZeroU8_new, as_u8. by rewrite Hlen.
Qed.

Lemma key_id_validate_spec_witness :
  (0 < String.length "ed25519" < 256 →
   (key_id_validate (λ _, Ok tt) (key_id_of "ed25519" "auto") = Ret 7%Z ↔ Ok tt = @Ok IdError _ tt)) ∧
  (String.length "ed25519" = 256 →
   key_id_validate (λ _, Ok tt) (key_id_of "ed25519" "auto") = Throw MissingColon).
Proof. apply (key_id_validate_spec (λ _, Ok tt) "ed25519" "auto"); by_vm. Defined.
