(* ===== verification/RoomVersionRules.v ===== *)
(** * Room version rules

    The constants of [crates/common-types/src/room_version_rules.rs]: what each
    room version switches on and off.  A constant that Rust builds with the
    [..Self::Vn] syntax takes every field it does not name from that base. *)

From S2P Require Import Prelude.

(** [AuthorizationRules] *)
Record AuthorizationRules := {
  special_case_room_redaction : bool;
  special_case_room_aliases : bool;
  strict_canonical_json : bool;
  limit_notifications_power_levels : bool;
  knocking : bool;
  restricted_join_rule : bool;
  knock_restricted_join_rule : bool;
  integer_power_levels : bool;
  use_room_create_sender : bool;
  explicitly_privilege_room_creators : bool;
  additional_room_creators : bool;
  room_create_event_id_as_room_id : bool
}.

(** [AuthorizationRules::V1] *)
Definition AuthV1 : AuthorizationRules := {|
  special_case_room_redaction := true;
  special_case_room_aliases := true;
  strict_canonical_json := false;
  limit_notifications_power_levels := false;
  knocking := false;
  restricted_join_rule := false;
  knock_restricted_join_rule := false;
  integer_power_levels := false;
  use_room_create_sender := false;
  explicitly_privilege_room_creators := false;
  additional_room_creators := false;
  room_create_event_id_as_room_id := false
|}.

(** [AuthorizationRules::V3] *)
Definition AuthV3 : AuthorizationRules := {|
  special_case_room_redaction := false;
  special_case_room_aliases := special_case_room_aliases AuthV1;
  strict_canonical_json := strict_canonical_json AuthV1;
  limit_notifications_power_levels := limit_notifications_power_levels AuthV1;
  knocking := knocking AuthV1;
  restricted_join_rule := restricted_join_rule AuthV1;
  knock_restricted_join_rule := knock_restricted_join_rule AuthV1;
  integer_power_levels := integer_power_levels AuthV1;
  use_room_create_sender := use_room_create_sender AuthV1;
  explicitly_privilege_room_creators := explicitly_privilege_room_creators AuthV1;
  additional_room_creators := additional_room_creators AuthV1;
  room_create_event_id_as_room_id := room_create_event_id_as_room_id AuthV1
|}.

(** [AuthorizationRules::V6] *)
Definition AuthV6 : AuthorizationRules := {|
  special_case_room_redaction := special_case_room_redaction AuthV3;
  special_case_room_aliases := false;
  strict_canonical_json := true;
  limit_notifications_power_levels := true;
  knocking := knocking AuthV3;
  restricted_join_rule := restricted_join_rule AuthV3;
  knock_restricted_join_rule := knock_restricted_join_rule AuthV3;
  integer_power_levels := integer_power_levels AuthV3;
  use_room_create_sender := use_room_create_sender AuthV3;
  explicitly_privilege_room_creators := explicitly_privilege_room_creators AuthV3;
  additional_room_creators := additional_room_creators AuthV3;
  room_create_event_id_as_room_id := room_create_event_id_as_room_id AuthV3
|}.

(** [AuthorizationRules::V7] *)
Definition AuthV7 : AuthorizationRules := {|
  special_case_room_redaction := special_case_room_redaction AuthV6;
  special_case_room_aliases := special_case_room_aliases AuthV6;
  strict_canonical_json := strict_canonical_json AuthV6;
  limit_notifications_power_levels := limit_notifications_power_levels AuthV6;
  knocking := true;
  restricted_join_rule := restricted_join_rule AuthV6;
  knock_restricted_join_rule := knock_restricted_join_rule AuthV6;
  integer_power_levels := integer_power_levels AuthV6;
  use_room_create_sender := use_room_create_sender AuthV6;
  explicitly_privilege_room_creators := explicitly_privilege_room_creators AuthV6;
  additional_room_creators := additional_room_creators AuthV6;
  room_create_event_id_as_room_id := room_create_event_id_as_room_id AuthV6
|}.

(** [AuthorizationRules::V8] *)
Definition AuthV8 : AuthorizationRules := {|
  special_case_room_redaction := special_case_room_redaction AuthV7;
  special_case_room_aliases := special_case_room_aliases AuthV7;
  strict_canonical_json := strict_canonical_json AuthV7;
  limit_notifications_power_levels := limit_notifications_power_levels AuthV7;
  knocking := knocking AuthV7;
  restricted_join_rule := true;
  knock_restricted_join_rule := knock_restricted_join_rule AuthV7;
  integer_power_levels := integer_power_levels AuthV7;
  use_room_create_sender := use_room_create_sender AuthV7;
  explicitly_privilege_room_creators := explicitly_privilege_room_creators AuthV7;
  additional_room_creators := additional_room_creators AuthV7;
  room_create_event_id_as_room_id := room_create_event_id_as_room_id AuthV7
|}.

(** [AuthorizationRules::V10] *)
Definition AuthV10 : AuthorizationRules := {|
  special_case_room_redaction := special_case_room_redaction AuthV8;
  special_case_room_aliases := special_case_room_aliases AuthV8;
  strict_canonical_json := strict_canonical_json AuthV8;
  limit_notifications_power_levels := limit_notifications_power_levels AuthV8;
  knocking := knocking AuthV8;
  restricted_join_rule := restricted_join_rule AuthV8;
  knock_restricted_join_rule := true;
  integer_power_levels := true;
  use_room_create_sender := use_room_create_sender AuthV8;
  explicitly_privilege_room_creators := explicitly_privilege_room_creators AuthV8;
  additional_room_creators := additional_room_creators AuthV8;
  room_create_event_id_as_room_id := room_create_event_id_as_room_id AuthV8
|}.

(** [AuthorizationRules::V11] *)
Definition AuthV11 : AuthorizationRules := {|
  special_case_room_redaction := special_case_room_redaction AuthV10;
  special_case_room_aliases := special_case_room_aliases AuthV10;
  strict_canonical_json := strict_canonical_json AuthV10;
  limit_notifications_power_levels := limit_notifications_power_levels AuthV10;
  knocking := knocking AuthV10;
  restricted_join_rule := restricted_join_rule AuthV10;
  knock_restricted_join_rule := knock_restricted_join_rule AuthV10;
  integer_power_levels := integer_power_levels AuthV10;
  use_room_create_sender := true;
  explicitly_privilege_room_creators := explicitly_privilege_room_creators AuthV10;
  additional_room_creators := additional_room_creators AuthV10;
  room_create_event_id_as_room_id := room_create_event_id_as_room_id AuthV10
|}.

(** [AuthorizationRules::V12] *)
Definition AuthV12 : AuthorizationRules := {|
  special_case_room_redaction := special_case_room_redaction AuthV11;
  special_case_room_aliases := special_case_room_aliases AuthV11;
  strict_canonical_json := strict_canonical_json AuthV11;
  limit_notifications_power_levels := limit_notifications_power_levels AuthV11;
  knocking := knocking AuthV11;
  restricted_join_rule := restricted_join_rule AuthV11;
  knock_restricted_join_rule := knock_restricted_join_rule AuthV11;
  integer_power_levels := integer_power_levels AuthV11;
  use_room_create_sender := use_room_create_sender AuthV11;
  explicitly_privilege_room_creators := true;
  additional_room_creators := true;
  room_create_event_id_as_room_id := true
|}.

(** [StateResolutionV2Rules] *)
Record StateResolutionV2Rules := {
  begin_iterative_auth_checks_with_empty_state_map : bool;
  consider_conflicted_state_subgraph : bool
}.

(** [StateResolutionV2Rules::V2_0] *)
Definition StateResV2_0 : StateResolutionV2Rules := {|
  begin_iterative_auth_checks_with_empty_state_map := false;
  consider_conflicted_state_subgraph := false
|}.

(** [StateResolutionV2Rules::V2_1] *)
Definition StateResV2_1 : StateResolutionV2Rules := {|
  begin_iterative_auth_checks_with_empty_state_map := true;
  consider_conflicted_state_subgraph := true
|}.

(** [EventFormatRules] *)
Record EventFormatRules := {
  require_event_id : bool;
  require_room_create_room_id : bool;
  allow_room_create_in_auth_events : bool
}.

(** [EventFormatRules::V1] *)
Definition FormatV1 : EventFormatRules := {|
  require_event_id := true;
  require_room_create_room_id := true;
  allow_room_create_in_auth_events := true
|}.

(** [EventFormatRules::V3] *)
Definition FormatV3 : EventFormatRules := {|
  require_event_id := false;
  require_room_create_room_id := require_room_create_room_id FormatV1;
  allow_room_create_in_auth_events := allow_room_create_in_auth_events FormatV1
|}.

(** [EventFormatRules::V12] *)
Definition FormatV12 : EventFormatRules := {|
  require_event_id := require_event_id FormatV3;
  require_room_create_room_id := false;
  allow_room_create_in_auth_events := false
|}.

(** [RedactionRules], without the field of the unstable [msc2870] feature. *)
Record RedactionRules := {
  keep_room_aliases_aliases : bool;
  keep_room_join_rules_allow : bool;
  keep_room_member_join_authorised_via_users_server : bool;
  keep_origin_membership_prev_state : bool;
  keep_room_create_content : bool;
  keep_room_redaction_redacts : bool;
  keep_room_power_levels_invite : bool;
  keep_room_member_third_party_invite_signed : bool;
  content_field_redacts : bool
}.

(** [RedactionRules::V1] *)
Definition RedactionV1 : RedactionRules := {|
  keep_room_aliases_aliases := true;
  keep_room_join_rules_allow := false;
  keep_room_member_join_authorised_via_users_server := false;
  keep_origin_membership_prev_state := true;
  keep_room_create_content := false;
  keep_room_redaction_redacts := false;
  keep_room_power_levels_invite := false;
  keep_room_member_third_party_invite_signed := false;
  content_field_redacts := false
|}.

(** [RedactionRules::V6] *)
Definition RedactionV6 : RedactionRules := {|
  keep_room_aliases_aliases := false;
  keep_room_join_rules_allow := keep_room_join_rules_allow RedactionV1;
  keep_room_member_join_authorised_via_users_server := keep_room_member_join_authorised_via_users_server RedactionV1;
  keep_origin_membership_prev_state := keep_origin_membership_prev_state RedactionV1;
  keep_room_create_content := keep_room_create_content RedactionV1;
  keep_room_redaction_redacts := keep_room_redaction_redacts RedactionV1;
  keep_room_power_levels_invite := keep_room_power_levels_invite RedactionV1;
  keep_room_member_third_party_invite_signed := keep_room_member_third_party_invite_signed RedactionV1;
  content_field_redacts := content_field_redacts RedactionV1
|}.

(** [RedactionRules::V8] *)
Definition RedactionV8 : RedactionRules := {|
  keep_room_aliases_aliases := keep_room_aliases_aliases RedactionV6;
  keep_room_join_rules_allow := true;
  keep_room_member_join_authorised_via_users_server := keep_room_member_join_authorised_via_users_server RedactionV6;
  keep_origin_membership_prev_state := keep_origin_membership_prev_state RedactionV6;
  keep_room_create_content := keep_room_create_content RedactionV6;
  keep_room_redaction_redacts := keep_room_redaction_redacts RedactionV6;
  keep_room_power_levels_invite := keep_room_power_levels_invite RedactionV6;
  keep_room_member_third_party_invite_signed := keep_room_member_third_party_invite_signed RedactionV6;
  content_field_redacts := content_field_redacts RedactionV6
|}.

(** [RedactionRules::V9] *)
Definition RedactionV9 : RedactionRules := {|
  keep_room_aliases_aliases := keep_room_aliases_aliases RedactionV8;
  keep_room_join_rules_allow := keep_room_join_rules_allow RedactionV8;
  keep_room_member_join_authorised_via_users_server := true;
  keep_origin_membership_prev_state := keep_origin_membership_prev_state RedactionV8;
  keep_room_create_content := keep_room_create_content RedactionV8;
  keep_room_redaction_redacts := keep_room_redaction_redacts RedactionV8;
  keep_room_power_levels_invite := keep_room_power_levels_invite RedactionV8;
  keep_room_member_third_party_invite_signed := keep_room_member_third_party_invite_signed RedactionV8;
  content_field_redacts := content_field_redacts RedactionV8
|}.

(** [RedactionRules::V11] *)
Definition RedactionV11 : RedactionRules := {|
  keep_room_aliases_aliases := keep_room_aliases_aliases RedactionV9;
  keep_room_join_rules_allow := keep_room_join_rules_allow RedactionV9;
  keep_room_member_join_authorised_via_users_server := keep_room_member_join_authorised_via_users_server RedactionV9;
  keep_origin_membership_prev_state := false;
  keep_room_create_content := true;
  keep_room_redaction_redacts := true;
  keep_room_power_levels_invite := true;
  keep_room_member_third_party_invite_signed := true;
  content_field_redacts := true
|}.

(** [SignaturesRules] *)
Record SignaturesRules := {
  check_event_id_server : bool;
  check_join_authorised_via_users_server : bool
}.

(** [SignaturesRules::V1] *)
Definition SignaturesV1 : SignaturesRules := {|
  check_event_id_server := true;
  check_join_authorised_via_users_server := false
|}.

(** [SignaturesRules::V3] *)
Definition SignaturesV3 : SignaturesRules := {|
  check_event_id_server := false;
  check_join_authorised_via_users_server := check_join_authorised_via_users_server SignaturesV1
|}.

(** [SignaturesRules::V8] *)
Definition SignaturesV8 : SignaturesRules := {|
  check_event_id_server := check_event_id_server SignaturesV3;
  check_join_authorised_via_users_server := true
|}.

(** [RoomVersionDisposition] *)
Inductive RoomVersionDisposition := Stable | Unstable.

(** [EventIdFormatVersion] *)
Inductive EventIdFormatVersion := EventIdV1 | EventIdV2 | EventIdV3.

(** [RoomIdFormatVersion] *)
Inductive RoomIdFormatVersion := RoomIdV1 | RoomIdV2.

(** [EventsReferenceFormatVersion] *)
Inductive EventsReferenceFormatVersion := EventsReferenceV1 | EventsReferenceV2.

(** [StateResolutionVersion] *)
Inductive StateResolutionVersion :=
| StateResV1
| StateResV2 (rules : StateResolutionV2Rules).

(** [StateResolutionVersion::v2_rules] *)
Definition v2_rules (v : StateResolutionVersion) : option StateResolutionV2Rules :=
  match v with StateResV1 => None | StateResV2 r => Some r end.

(** [RoomVersionRules] *)
Record RoomVersionRules := {
  disposition : RoomVersionDisposition;
  event_id_format : EventIdFormatVersion;
  room_id_format : RoomIdFormatVersion;
  events_reference_format : EventsReferenceFormatVersion;
  state_res : StateResolutionVersion;
  enforce_key_validity : bool;
  authorization : AuthorizationRules;
  redaction : RedactionRules;
  signatures : SignaturesRules;
  event_format : EventFormatRules
}.

(** [RoomVersionRules::V1] *)
Definition RulesV1 : RoomVersionRules := {|
  disposition := Stable;
  event_id_format := EventIdV1;
  room_id_format := RoomIdV1;
  events_reference_format := EventsReferenceV1;
  state_res := StateResV1;
  enforce_key_validity := false;
  authorization := AuthV1;
  redaction := RedactionV1;
  signatures := SignaturesV1;
  event_format := FormatV1
|}.

(** [RoomVersionRules::V2] *)
Definition RulesV2 : RoomVersionRules := {|
  disposition := disposition RulesV1;
  event_id_format := event_id_format RulesV1;
  room_id_format := room_id_format RulesV1;
  events_reference_format := events_reference_format RulesV1;
  state_res := StateResV2 StateResV2_0;
  enforce_key_validity := enforce_key_validity RulesV1;
  authorization := authorization RulesV1;
  redaction := redaction RulesV1;
  signatures := signatures RulesV1;
  event_format := event_format RulesV1
|}.

(** [RoomVersionRules::V3] *)
Definition RulesV3 : RoomVersionRules := {|
  disposition := disposition RulesV2;
  event_id_format := EventIdV2;
  room_id_format := room_id_format RulesV2;
  events_reference_format := EventsReferenceV2;
  state_res := state_res RulesV2;
  enforce_key_validity := enforce_key_validity RulesV2;
  authorization := AuthV3;
  redaction := redaction RulesV2;
  signatures := SignaturesV3;
  event_format := FormatV3
|}.

(** [RoomVersionRules::V4] *)
Definition RulesV4 : RoomVersionRules := {|
  disposition := disposition RulesV3;
  event_id_format := EventIdV3;
  room_id_format := room_id_format RulesV3;
  events_reference_format := events_reference_format RulesV3;
  state_res := state_res RulesV3;
  enforce_key_validity := enforce_key_validity RulesV3;
  authorization := authorization RulesV3;
  redaction := redaction RulesV3;
  signatures := signatures RulesV3;
  event_format := event_format RulesV3
|}.

(** [RoomVersionRules::V5] *)
Definition RulesV5 : RoomVersionRules := {|
  disposition := disposition RulesV4;
  event_id_format := event_id_format RulesV4;
  room_id_format := room_id_format RulesV4;
  events_reference_format := events_reference_format RulesV4;
  state_res := state_res RulesV4;
  enforce_key_validity := true;
  authorization := authorization RulesV4;
  redaction := redaction RulesV4;
  signatures := signatures RulesV4;
  event_format := event_format RulesV4
|}.

(** [RoomVersionRules::V6] *)
Definition RulesV6 : RoomVersionRules := {|
  disposition := disposition RulesV5;
  event_id_format := event_id_format RulesV5;
  room_id_format := room_id_format RulesV5;
  events_reference_format := events_reference_format RulesV5;
  state_res := state_res RulesV5;
  enforce_key_validity := enforce_key_validity RulesV5;
  authorization := AuthV6;
  redaction := RedactionV6;
  signatures := signatures RulesV5;
  event_format := event_format RulesV5
|}.

(** [RoomVersionRules::V7] *)
Definition RulesV7 : RoomVersionRules := {|
  disposition := disposition RulesV6;
  event_id_format := event_id_format RulesV6;
  room_id_format := room_id_format RulesV6;
  events_reference_format := events_reference_format RulesV6;
  state_res := state_res RulesV6;
  enforce_key_validity := enforce_key_validity RulesV6;
  authorization := AuthV7;
  redaction := redaction RulesV6;
  signatures := signatures RulesV6;
  event_format := event_format RulesV6
|}.

(** [RoomVersionRules::V8] *)
Definition RulesV8 : RoomVersionRules := {|
  disposition := disposition RulesV7;
  event_id_format := event_id_format RulesV7;
  room_id_format := room_id_format RulesV7;
  events_reference_format := events_reference_format RulesV7;
  state_res := state_res RulesV7;
  enforce_key_validity := enforce_key_validity RulesV7;
  authorization := AuthV8;
  redaction := RedactionV8;
  signatures := SignaturesV8;
  event_format := event_format RulesV7
|}.

(** [RoomVersionRules::V9] *)
Definition RulesV9 : RoomVersionRules := {|
  disposition := disposition RulesV8;
  event_id_format := event_id_format RulesV8;
  room_id_format := room_id_format RulesV8;
  events_reference_format := events_reference_format RulesV8;
  state_res := state_res RulesV8;
  enforce_key_validity := enforce_key_validity RulesV8;
  authorization := authorization RulesV8;
  redaction := RedactionV9;
  signatures := signatures RulesV8;
  event_format := event_format RulesV8
|}.

(** [RoomVersionRules::V10] *)
Definition RulesV10 : RoomVersionRules := {|
  disposition := disposition RulesV9;
  event_id_format := event_id_format RulesV9;
  room_id_format := room_id_format RulesV9;
  events_reference_format := events_reference_format RulesV9;
  state_res := state_res RulesV9;
  enforce_key_validity := enforce_key_validity RulesV9;
  authorization := AuthV10;
  redaction := redaction RulesV9;
  signatures := signatures RulesV9;
  event_format := event_format RulesV9
|}.

(** [RoomVersionRules::V11] *)
Definition RulesV11 : RoomVersionRules := {|
  disposition := disposition RulesV10;
  event_id_format := event_id_format RulesV10;
  room_id_format := room_id_format RulesV10;
  events_reference_format := events_reference_format RulesV10;
  state_res := state_res RulesV10;
  enforce_key_validity := enforce_key_validity RulesV10;
  authorization := AuthV11;
  redaction := RedactionV11;
  signatures := signatures RulesV10;
  event_format := event_format RulesV10
|}.

(** [RoomVersionRules::V12] *)
Definition RulesV12 : RoomVersionRules := {|
  disposition := disposition RulesV11;
  event_id_format := event_id_format RulesV11;
  room_id_format := RoomIdV2;
  events_reference_format := events_reference_format RulesV11;
  state_res := StateResV2 StateResV2_1;
  enforce_key_validity := enforce_key_validity RulesV11;
  authorization := AuthV12;
  redaction := redaction RulesV11;
  signatures := signatures RulesV11;
  event_format := FormatV12
|}.

(** [RoomVersionId], without the unstable [msc2870] variant. *)
Inductive RoomVersionId :=
| V1 | V2 | V3 | V4 | V5 | V6 | V7 | V8 | V9 | V10 | V11 | V12
| CustomVersion (version : string).

(** [RoomVersionId::rules] *)
Definition rules (id : RoomVersionId) : option RoomVersionRules :=
  match id with
  | V1 => Some RulesV1
  | V2 => Some RulesV2
  | V3 => Some RulesV3
  | V4 => Some RulesV4
  | V5 => Some RulesV5
  | V6 => Some RulesV6
  | V7 => Some RulesV7
  | V8 => Some RulesV8
  | V9 => Some RulesV9
  | V10 => Some RulesV10
  | V11 => Some RulesV11
  | V12 => Some RulesV12
  | CustomVersion _ => None
  end.

(** The dependency between rules that the checks rely on: a version that allows
    [knock_restricted] also allows [restricted]. *)
Definition wf_rules (r : AuthorizationRules) : Prop :=
  knock_restricted_join_rule r = true → restricted_join_rule r = true.

(** Every room version the crate knows is well formed. *)
Lemma rules_wf id r : rules id = Some r → wf_rules (authorization r).
Proof. destruct id; intros Hr; simplify_eq/=; by cbv. Qed.
