(* ===== verification/CanonicalJson.v ===== *)
(** * Canonical JSON ([common-types/src/canonical_json.rs] and [canonical_json/])

    Canonical JSON values with their typed accessors, redaction by the rules of a
    room version, and the serializer that redacts on the fly.  An object is a
    [BTreeMap]: the list of its members in the order of their keys.  The optional
    feature [unstable-msc2870] is off, as it is by default. *)

From S2P Require Import Prelude RoomVersionRules.

#[local] Open Scope string_scope.

(** ** Values *)

(** [CanonicalJsonValue] *)
Inductive CanonicalJson :=
| CNull
| CBool (b : bool)
| CInteger (z : Z)
| CString (s : string)
| CArray (l : list CanonicalJson)
| CObject (kvs : list (string * CanonicalJson)).

Abbreviation CanonicalJsonObject := (list (string * CanonicalJson)).

(** [CanonicalJsonType] *)
Inductive CanonicalJsonType := TObject | TString | TInteger | TArray | TBoolean | TNull.

(** [CanonicalJsonValue::json_type] *)
Definition json_type (v : CanonicalJson) : CanonicalJsonType :=
  match v with
  | CNull => TNull
  | CBool _ => TBoolean
  | CInteger _ => TInteger
  | CString _ => TString
  | CArray _ => TArray
  | CObject _ => TObject
  end.

(** [CanonicalJsonValue::as_str] and [as_object] *)
Definition as_str (v : CanonicalJson) : option string :=
  match v with CString s => Some s | _ => None end.

Definition as_object (v : CanonicalJson) : option CanonicalJsonObject :=
  match v with CObject o => Some o | _ => None end.

(** [BTreeMap::get] and [BTreeMap::insert] *)
Fixpoint obj_get {V} (k : string) (kvs : list (string * V)) : option V :=
  match kvs with
  | [] => None
  | (k', v) :: kvs => if String.eqb k k' then Some v else obj_get k kvs
  end.

Fixpoint obj_insert {V} (k : string) (v : V) (kvs : list (string * V)) : list (string * V) :=
  match kvs with
  | [] => [(k, v)]
  | (k', v') :: kvs' =>
      match String.compare k k' with
      | Lt => (k, v) :: kvs
      | Eq => (k, v) :: kvs'
      | Gt => (k', v') :: obj_insert k v kvs'
      end
  end.

(** ** Typed access ([CanonicalJsonObjectExt]) *)

(** [CanonicalJsonFieldError] *)
Inductive FieldError :=
| InvalidType (path : string) (expected found : CanonicalJsonType)
| Missing (path : string).

(** [Debug] of a type, and [Display] of an error *)
Definition debug_type (t : CanonicalJsonType) : string :=
  match t with
  | TObject => "Object"
  | TString => "String"
  | TInteger => "Integer"
  | TArray => "Array"
  | TBoolean => "Boolean"
  | TNull => "Null"
  end.

Definition display_field_error (e : FieldError) : string :=
  match e with
  | InvalidType path expected found =>
      "invalid type at `" +:+ path +:+ "`: expected " +:+ debug_type expected
      +:+ ", found " +:+ debug_type found
  | Missing path => "missing field: `" +:+ path +:+ "`"
  end.

Section access.
Context (obj : CanonicalJsonObject) (field path : string).

(** [get_as_object] *)
Definition get_as_object : result FieldError (option CanonicalJsonObject) :=
  match obj_get field obj with
  | Some (CObject o) => Ok (Some o)
  | Some v => Err (InvalidType path TObject (json_type v))
  | None => Ok None
  end.

(** [get_as_required_object] *)
Definition get_as_required_object : result FieldError CanonicalJsonObject :=
  let? o := get_as_object in ok_or o (Missing path).

(** [get_as_string] *)
Definition get_as_string : result FieldError (option string) :=
  match obj_get field obj with
  | Some (CString s) => Ok (Some s)
  | Some v => Err (InvalidType path TString (json_type v))
  | None => Ok None
  end.

(** [get_as_required_string] *)
Definition get_as_required_string : result FieldError string :=
  let? s := get_as_string in ok_or s (Missing path).

(** [get_as_object_or_insert_default], followed by an update of the object the
    reference points to. *)
Definition update_object_or_default
    (f : CanonicalJsonObject → result FieldError CanonicalJsonObject)
    : result FieldError CanonicalJsonObject :=
  match default (CObject []) (obj_get field obj) with
  | CObject o => let? o := f o in Ok (obj_insert field (CObject o) obj)
  | v => Err (InvalidType path TString (json_type v))
  end.

End access.

(** ** Redaction ([canonical_json/redaction.rs]) *)

(** [RetainedKeys] and [RetainKey] *)
Inductive RetainedKeys :=
| RetainAll
| RetainSome (retain_key_fn : RedactionRules → string → RetainKey)
| RetainNone
with RetainKey :=
| RetainYes (child_retained_keys : option RetainedKeys)
| RetainNo.

(** [From<bool>] *)
Definition retain (b : bool) : RetainKey := if b then RetainYes None else RetainNo.

(** [should_retain_key] *)
Definition should_retain_key (rk : RetainedKeys) (rules : RedactionRules) (key : string) : RetainKey :=
  match rk with
  | RetainAll => retain true
  | RetainSome retain_key_fn => retain_key_fn rules key
  | RetainNone => retain false
  end.

(** [RetainedKeys::apply]: the members are visited in the order of their keys and
    inserted behind the ones kept before. *)
Fixpoint apply_retained (rk : RetainedKeys) (rules : RedactionRules)
    (object : CanonicalJsonObject) : CanonicalJsonObject :=
  match rk with
  | RetainAll => object
  | RetainSome retain_key_fn =>
      omap (λ kv,
        match retain_key_fn rules kv.1 with
        | RetainYes child_retained_keys =>
            match child_retained_keys, kv.2 with
            | Some child, CObject child_object =>
                Some (kv.1, CObject (apply_retained child rules child_object))
            | _, value => Some (kv.1, value)
            end
        | RetainNo => None
        end) object
  | RetainNone => []
  end.

(** A key among the given ones: the [match] on string literals. *)
Definition key_in (key : string) (keys : list string) : bool := existsb (String.eqb key) keys.

(** [is_room_member_content_key_retained] *)
Definition is_room_member_content_key_retained (rules : RedactionRules) (key : string) : RetainKey :=
  if String.eqb key "membership" then retain true
  else if String.eqb key "join_authorised_via_users_server"
  then retain (keep_room_member_join_authorised_via_users_server rules)
  else if String.eqb key "third_party_invite" && keep_room_member_third_party_invite_signed rules
  then RetainYes (Some (RetainSome (λ _ key, retain (String.eqb key "signed"))))
  else retain false.

(** [room_create_content_retained_keys] *)
Definition room_create_content_retained_keys (rules : RedactionRules) : RetainedKeys :=
  if keep_room_create_content rules then RetainAll
  else RetainSome (λ _ field, retain (String.eqb field "creator")).

(** [is_room_join_rules_content_key_retained] *)
Definition is_room_join_rules_content_key_retained (rules : RedactionRules) (key : string) : RetainKey :=
  retain (if String.eqb key "join_rule" then true
          else if String.eqb key "allow" then keep_room_join_rules_allow rules
          else false).

(** [is_room_power_levels_content_key_retained] *)
Definition is_room_power_levels_content_key_retained (rules : RedactionRules) (key : string) : RetainKey :=
  retain (if key_in key ["ban"; "events"; "events_default"; "kick"; "redact"; "state_default";
                         "users"; "users_default"] then true
          else if String.eqb key "invite" then keep_room_power_levels_invite rules
          else false).

(** [is_room_history_visibility_content_key_retained] *)
Definition is_room_history_visibility_content_key_retained (key : string) : RetainKey :=
  retain (String.eqb key "history_visibility").

(** [room_redaction_content_retained_keys] *)
Definition room_redaction_content_retained_keys (rules : RedactionRules) : RetainedKeys :=
  if keep_room_redaction_redacts rules
  then RetainSome (λ _ field, retain (String.eqb field "redacts"))
  else RetainNone.

(** [room_aliases_content_retained_keys] *)
Definition room_aliases_content_retained_keys (rules : RedactionRules) : RetainedKeys :=
  if keep_room_aliases_aliases rules
  then RetainSome (λ _ field, retain (String.eqb field "aliases"))
  else RetainNone.

(** [retained_event_content_keys] *)
Definition retained_event_content_keys (event_type : string) (rules : RedactionRules) : RetainedKeys :=
  if String.eqb event_type "m.room.member" then RetainSome is_room_member_content_key_retained
  else if String.eqb event_type "m.room.create" then room_create_content_retained_keys rules
  else if String.eqb event_type "m.room.join_rules"
  then RetainSome is_room_join_rules_content_key_retained
  else if String.eqb event_type "m.room.power_levels"
  then RetainSome is_room_power_levels_content_key_retained
  else if String.eqb event_type "m.room.history_visibility"
  then RetainSome (λ _ key, is_room_history_visibility_content_key_retained key)
  else if String.eqb event_type "m.room.redaction" then room_redaction_content_retained_keys rules
  else if String.eqb event_type "m.room.aliases" then room_aliases_content_retained_keys rules
  else RetainNone.

(** The keys kept at the top level of an event of the given type. *)
Definition retain_event_key (event_type : string) (rules : RedactionRules) (key : string) : RetainKey :=
  if String.eqb key "content"
  then RetainYes (Some (retained_event_content_keys event_type rules))
  else if key_in key ["event_id"; "type"; "room_id"; "sender"; "state_key"; "hashes"; "signatures";
                      "depth"; "prev_events"; "auth_events"; "origin_server_ts"]
  then retain true
  else if key_in key ["origin"; "membership"; "prev_state"]
  then retain (keep_origin_membership_prev_state rules)
  else retain false.

(** [retained_event_keys] *)
Definition retained_event_keys (event : CanonicalJsonObject) : result FieldError RetainedKeys :=
  let? event_type := get_as_required_string event "type" "type" in
  Ok (RetainSome (retain_event_key event_type)).

(** [redact_in_place] and [redact] *)
Definition redact (event : CanonicalJsonObject) (rules : RedactionRules)
    (redacted_because : option CanonicalJsonObject) : result FieldError CanonicalJsonObject :=
  let? rk := retained_event_keys event in
  let event := apply_retained rk rules event in
  match redacted_because with
  | Some because =>
      Ok (obj_insert "unsigned" (CObject [("redacted_because", CObject because)]) event)
  | None => Ok event
  end.

(** [redact_content_in_place] *)
Definition redact_content_in_place (content : CanonicalJsonObject) (rules : RedactionRules)
    (event_type : string) : CanonicalJsonObject :=
  apply_retained (retained_event_content_keys event_type rules) rules content.

(** ** The redacting serializer ([canonical_json/redaction/serializer.rs]) *)

(** The entries the serialization of an object with retained keys writes. *)
Fixpoint serialize_retained (rk : RetainedKeys) (rules : RedactionRules)
    (custom_redacted_fields : list string) (object : CanonicalJsonObject) : CanonicalJsonObject :=
  match rk with
  | RetainAll => omap (λ kv, if key_in kv.1 custom_redacted_fields then None else Some kv) object
  | RetainNone => []
  | RetainSome retain_key_fn =>
      omap (λ kv,
        if key_in kv.1 custom_redacted_fields then None
        else
          match retain_key_fn rules kv.1 with
          | RetainYes child_retained_keys =>
              match child_retained_keys, kv.2 with
              | Some child, CObject child_object =>
                  Some (kv.1, CObject (serialize_retained child rules [] child_object))
              | _, value => Some (kv.1, value)
              end
          | RetainNo => None
          end) object
  end.

(** The loop of [RedactingObjectSerializer::serialize]. *)
Definition serialize_object (retained_keys : option (RetainedKeys * RedactionRules))
    (custom_redacted_fields : list string) (object : CanonicalJsonObject) : CanonicalJsonObject :=
  match retained_keys with
  | Some (rk, rules) => serialize_retained rk rules custom_redacted_fields object
  | None => omap (λ kv, if key_in kv.1 custom_redacted_fields then None else Some kv) object
  end.

(** [serde_json::to_string] of a map of canonical JSON values, and [Debug] of one of
    them: what they print is left open. *)
Class JsonText : Type := {
  to_json_string : CanonicalJsonObject → result string string;
  debug_json : CanonicalJson → string
}.

(** [RedactingSerializer::serialize], with the rules and the custom fields the
    builder methods set. *)
Definition redacting_serialize `{!JsonText} (rules : option RedactionRules)
    (custom_redacted_root_fields : list string) (object : CanonicalJsonObject)
    : result string string :=
  let? retained_keys :=
    match rules with
    | Some rules =>
        let? rk := map_err display_field_error (retained_event_keys object) in
        Ok (Some (rk, rules))
    | None => Ok None
    end in
  to_json_string (serialize_object retained_keys custom_redacted_root_fields object).
