(* ===== verification/Signatures.v ===== *)
(** * Hashes and signatures ([common-signatures/src])

    Content and reference hashes of events, signing, and verification.  SHA-256,
    base64 and Ed25519 come from other crates: they are the operations of the
    class [Crypto], with what their documentation promises in [CryptoLaws]. *)

From S2P Require Import Prelude Identifiers RoomVersionRules CanonicalJson.

#[local] Open Scope string_scope.

Class Crypto : Type := {
  sha256 : string → string;
  (** [encode] with the standard and the URL-safe alphabet, and [Base64::parse] *)
  base64_encode : string → string;
  base64_url_encode : string → string;
  base64_parse : string → option string;
  (** [ed25519_dalek]: signing keys, what [VerifyingKey::try_from] accepts, and
      [VerifyingKey::verify] *)
  SigningKey : Type;
  ed25519_sign : SigningKey → string → string;
  ed25519_public_key : SigningKey → string;
  ed25519_is_key : string → bool;
  ed25519_verify : string → string → string → bool
}.

Class CryptoLaws `{!Crypto} : Prop := {
  base64_roundtrip : ∀ b, base64_parse (base64_encode b) = Some b;
  ed25519_signature_length : ∀ k m, String.length (ed25519_sign k m) = 64;
  ed25519_public_is_key : ∀ k, ed25519_is_key (ed25519_public_key k) = true;
  ed25519_sign_verify : ∀ k m,
    ed25519_verify (ed25519_public_key k) (ed25519_sign k m) m = true
}.

(** ** Errors ([error.rs], [ed25519.rs]) *)

Inductive JsonError :=
| PduTooLarge
| FieldErr (e : FieldError)
| SerdeErr (e : string).

(** [Display] of a [JsonError] *)
Definition display_json_error (e : JsonError) : string :=
  match e with
  | PduTooLarge => "PDU is larger than maximum of 65535 bytes"
  | FieldErr e => display_field_error e
  | SerdeErr e => e
  end.

Inductive Ed25519VerificationError :=
| InvalidPublicKey
| InvalidSignatureLength (expected found : nat)
| SignatureVerification.

Inductive VerificationError :=
| JsonErr (e : JsonError)
| InvalidBase64Signature (path : string)
| ParseIdentifier (identifier_type : string) (source : IdError)
| UnsupportedAlgorithm
| NoSignaturesForEntity (entity : string)
| NoPublicKeysForEntity (entity : string)
| NoSupportedSignatureForEntity (entity : string)
| Ed25519Err (e : Ed25519VerificationError).

(** [PublicKeyMap] *)
Abbreviation PublicKeyMap := (gmap string (gmap string string)).

Section signatures.
Context `{!JsonText, !Crypto}.

(** [Ed25519Verifier::verify_json] *)
Definition ed25519_verify_json (public_key signature message : string)
    : result Ed25519VerificationError unit :=
  if negb (ed25519_is_key public_key) then Err InvalidPublicKey
  else if negb (Nat.eqb (String.length signature) 64)
  then Err (InvalidSignatureLength 64 (String.length signature))
  else if ed25519_verify public_key signature message then Ok tt
  else Err SignatureVerification.

(** [verifier_from_algorithm]: whether an algorithm is supported *)
Definition supported_algorithm (algorithm : string) : bool := String.eqb algorithm "ed25519".

(** [verify_canonical_json_bytes] *)
Definition verify_canonical_json_bytes (algorithm public_key signature canonical_json : string)
    : result VerificationError unit :=
  if supported_algorithm algorithm
  then map_err Ed25519Err (ed25519_verify_json public_key signature canonical_json)
  else Err UnsupportedAlgorithm.

(** ** Hashes ([hash.rs]) *)

Definition MAX_PDU_BYTES : Z := 65535.
Definition CONTENT_HASH_FIELDS_TO_REMOVE : list string := ["hashes"; "signatures"; "unsigned"].
Definition REFERENCE_HASH_FIELDS_TO_REMOVE : list string := ["signatures"; "unsigned"].

Definition too_large (json : string) : bool := (MAX_PDU_BYTES <? Z.of_nat (String.length json))%Z.

(** [content_hash] *)
Definition content_hash (object : CanonicalJsonObject) : result JsonError string :=
  let? json := map_err SerdeErr (redacting_serialize None CONTENT_HASH_FIELDS_TO_REMOVE object) in
  if too_large json then Err PduTooLarge else Ok (sha256 json).

(** [add_content_hash_to_event] *)
Definition add_content_hash_to_event (object : CanonicalJsonObject)
    : result JsonError CanonicalJsonObject :=
  let? hash := content_hash object in
  map_err FieldErr (update_object_or_default object "hashes" "hashes"
    (λ hashes, Ok (obj_insert "sha256" (CString (base64_encode hash)) hashes))).

(** [reference_hash] *)
Definition reference_hash (object : CanonicalJsonObject) (rules : RoomVersionRules)
    : result JsonError string :=
  let? json := map_err SerdeErr
    (redacting_serialize (Some (redaction rules)) REFERENCE_HASH_FIELDS_TO_REMOVE object) in
  if too_large json then Err PduTooLarge
  else
    let hash := sha256 json in
    Ok (match event_id_format rules with
        | EventIdV1 | EventIdV2 => base64_encode hash
        | _ => base64_url_encode hash
        end).

(** ** Signing ([sign.rs]) *)

Definition FIELDS_TO_REMOVE_FOR_SIGNING : list string := ["signatures"; "unsigned"].

(** [Ed25519KeyPair] *)
Record KeyPair := {
  signing_key : SigningKey;
  version : string
}.

(** [KeyId::from_parts] of the algorithm and the version *)
Definition signature_id (key_pair : KeyPair) : string := "ed25519:" +:+ version key_pair.

(** [insert_signature], of the signature [key_pair.sign(json)] *)
Definition insert_signature (object : CanonicalJsonObject) (entity_id : string)
    (key_pair : KeyPair) (json : string) : result FieldError CanonicalJsonObject :=
  update_object_or_default object "signatures" "signatures" (λ signatures,
    update_object_or_default signatures entity_id ("signatures." +:+ entity_id)
      (λ entity_signatures_set,
        Ok (obj_insert (signature_id key_pair)
              (CString (base64_encode (ed25519_sign (signing_key key_pair) json)))
              entity_signatures_set))).

(** [sign_event] *)
Definition sign_event (entity_id : string) (key_pair : KeyPair) (object : CanonicalJsonObject)
    (redaction_rules : RedactionRules) : result JsonError CanonicalJsonObject :=
  let? json := map_err SerdeErr
    (redacting_serialize (Some redaction_rules) FIELDS_TO_REMOVE_FOR_SIGNING object) in
  map_err FieldErr (insert_signature object entity_id key_pair json).

(** [hash_and_sign_event] *)
Definition hash_and_sign_event (entity_id : string) (key_pair : KeyPair)
    (object : CanonicalJsonObject) (redaction_rules : RedactionRules)
    : result JsonError CanonicalJsonObject :=
  let? object := add_content_hash_to_event object in
  sign_event entity_id key_pair object redaction_rules.

(** [to_canonical_json_string_for_signing] *)
Definition to_canonical_json_string_for_signing (object : CanonicalJsonObject)
    : result JsonError string :=
  map_err SerdeErr (redacting_serialize None FIELDS_TO_REMOVE_FOR_SIGNING object).

(** [sign_json] *)
Definition sign_json (entity_id : string) (key_pair : KeyPair) (object : CanonicalJsonObject)
    : result JsonError CanonicalJsonObject :=
  let? json := to_canonical_json_string_for_signing object in
  map_err FieldErr (insert_signature object entity_id key_pair json).

(** ** Verification ([verify.rs]) *)

(** [FetchEntityPublicSigningKey::public_signing_key] of a [PublicKeyMap] *)
Definition public_signing_key (public_key_map : PublicKeyMap) (entity key_id : string)
    : result VerificationError (option string) :=
  match public_key_map !! entity with
  | None => Err (NoPublicKeysForEntity entity)
  | Some keys => Ok (keys !! key_id)
  end.

Definition from_result {E A} (r : result E A) : outcome E A :=
  match r with Ok a => Ret a | Err e => Throw e end.

(** The loop over the signatures of an entity; the result says whether one was
    checked. *)
Fixpoint verify_signatures
    (fetch_public_key : string → string → result VerificationError (option string))
    (entity_id canonical_json : string) (checked : bool) (signature_set : CanonicalJsonObject)
    : outcome VerificationError bool :=
  match signature_set with
  | [] => Ret checked
  | (key_id, signature) :: signature_set =>
      let path := "signatures." +:+ entity_id +:+ "." +:+ key_id in
      let! public_key := from_result (fetch_public_key entity_id key_id) in
      match public_key with
      | None => verify_signatures fetch_public_key entity_id canonical_json checked signature_set
      | Some public_key =>
          match key_id_validate (λ _, Ok tt) key_id with
          | Panic => Panic
          | OutOfFuel => OutOfFuel
          | Throw _ => verify_signatures fetch_public_key entity_id canonical_json checked signature_set
          | Ret _ =>
              let algorithm := match str_find ":" key_id with
                               | Some i => str_take i key_id
                               | None => EmptyString
                               end in
              if negb (supported_algorithm algorithm)
              then verify_signatures fetch_public_key entity_id canonical_json checked signature_set
              else
                match signature with
                | CString signature =>
                    match base64_parse signature with
                    | None => Throw (InvalidBase64Signature path)
                    | Some signature =>
                        let! _ := from_result (map_err Ed25519Err
                          (ed25519_verify_json public_key signature canonical_json)) in
                        verify_signatures fetch_public_key entity_id canonical_json true signature_set
                    end
                | v => Throw (JsonErr (FieldErr (InvalidType path TString (json_type v))))
                end
          end
      end
  end.

(** [verify_canonical_json_for_entity] *)
Definition verify_canonical_json_for_entity (entity_id : string)
    (fetch_public_key : string → string → result VerificationError (option string))
    (signature_map : CanonicalJsonObject) (canonical_json : string)
    : outcome VerificationError unit :=
  match get_as_object signature_map entity_id ("signatures." +:+ entity_id) with
  | Err e => Throw (JsonErr (FieldErr e))
  | Ok None => Throw (NoSignaturesForEntity entity_id)
  | Ok (Some signature_set) =>
      let! checked := verify_signatures fetch_public_key entity_id canonical_json false signature_set in
      if checked then Ret tt else Throw (NoSupportedSignatureForEntity entity_id)
  end.

(** A field error as a verification error. *)
Definition field {A} (r : result FieldError A) : outcome VerificationError A :=
  from_result (map_err (λ e, JsonErr (FieldErr e)) r).

(** [is_invite_via_third_party_id] *)
Definition is_invite_via_third_party_id (object : CanonicalJsonObject)
    : outcome VerificationError bool :=
  let! event_type := field (get_as_required_string object "type" "type") in
  if negb (String.eqb event_type "m.room.member") then Ret false
  else
    let! content := field (get_as_required_object object "content" "content") in
    let! membership := field (get_as_required_string content "membership" "content.membership") in
    if negb (String.eqb membership "invite") then Ret false
    else
      let! tpi := field (get_as_object content "third_party_invite" "content.third_party_invite") in
      Ret (match tpi with Some _ => true | None => false end).

(** [<&UserId>::try_from] and its server name *)
Definition user_server (user_id : string) : outcome VerificationError string :=
  match user_id_validate user_id with
  | Ret _ => Ret (user_id_server_name user_id)
  | Throw e => Throw (ParseIdentifier "user ID" e)
  | Panic => Panic
  | OutOfFuel => OutOfFuel
  end.

(** The server of the [event_id] *)
Definition event_id_server (object : CanonicalJsonObject) : outcome VerificationError string :=
  let! raw_event_id := field (get_as_required_string object "event_id" "event_id") in
  match event_id_validate raw_event_id with
  | Err e => Throw (ParseIdentifier "event ID" e)
  | Ok _ =>
      match event_id_server_name raw_event_id with
      | None => Throw (ParseIdentifier "event ID" InvalidServerName)
      | Some server_name => Ret server_name
      end
  end.

(** The user that authorised a restricted join, if the content names one *)
Definition authorised_user (object : CanonicalJsonObject)
    : outcome VerificationError (option string) :=
  match obj_get "content" object ≫= as_object with
  | None => Ret None
  | Some c => field (get_as_string c "join_authorised_via_users_server"
                       "content.join_authorised_via_users_server")
  end.

(** [required_server_signatures_to_verify_event] *)
Definition required_server_signatures_to_verify_event (object : CanonicalJsonObject)
    (rules : SignaturesRules) : outcome VerificationError (gset string) :=
  let! third_party := is_invite_via_third_party_id object in
  let! servers :=
    if third_party then Ret ∅
    else
      let! sender := field (get_as_required_string object "sender" "sender") in
      let! server := user_server sender in
      Ret {[ server ]} in
  let! servers :=
    if check_event_id_server rules then
      let! server := event_id_server object in Ret ({[ server ]} ∪ servers)
    else Ret servers in
  if check_join_authorised_via_users_server rules then
    let! user := authorised_user object in
    match user with
    | Some user => let! server := user_server user in Ret ({[ server ]} ∪ servers)
    | None => Ret servers
    end
  else Ret servers.

(** The loop over the servers or entities to check. *)
Fixpoint verify_entities
    (fetch_public_key : string → string → result VerificationError (option string))
    (signature_map : CanonicalJsonObject) (canonical_json : string) (entities : list string)
    : outcome VerificationError unit :=
  match entities with
  | [] => Ret tt
  | entity :: entities =>
      let! _ := verify_canonical_json_for_entity entity fetch_public_key signature_map canonical_json in
      verify_entities fetch_public_key signature_map canonical_json entities
  end.

(** [Verified] *)
Inductive Verified := VerifiedAll | VerifiedSignatures.

Definition json {A} (r : result JsonError A) : outcome VerificationError A :=
  from_result (map_err JsonErr r).

(** The redacted JSON a signature covers. *)
Definition signed_json (object : CanonicalJsonObject) (rules : RedactionRules)
    : result JsonError string :=
  map_err SerdeErr (redacting_serialize (Some rules) FIELDS_TO_REMOVE_FOR_SIGNING object).

(** [verify_event] *)
Definition verify_event (public_key_map : PublicKeyMap) (object : CanonicalJsonObject)
    (rules : RoomVersionRules) : outcome VerificationError Verified :=
  let! hashes := field (get_as_required_object object "hashes" "hashes") in
  let! hash := field (get_as_required_string hashes "sha256" "hashes.sha256") in
  let! signature_map := field (get_as_required_object object "signatures" "signatures") in
  let! servers_to_check := required_server_signatures_to_verify_event object (signatures rules) in
  let! canonical_json := json (signed_json object (redaction rules)) in
  let! _ := verify_entities (public_signing_key public_key_map) signature_map canonical_json
              (btree_elements servers_to_check) in
  let! calculated_hash := json (content_hash object) in
  Ret (if bool_decide (base64_parse hash = Some calculated_hash)
       then VerifiedAll else VerifiedSignatures).

(** [verify_json] *)
Definition verify_json (public_key_map : PublicKeyMap) (object : CanonicalJsonObject)
    : outcome VerificationError unit :=
  let! signature_map := field (get_as_required_object object "signatures" "signatures") in
  let! canonical_json := json (to_canonical_json_string_for_signing object) in
  verify_entities (public_signing_key public_key_map) signature_map canonical_json signature_map.*1.

(** [RoomPolicyEventContent]: the policy server, and its Ed25519 key if it has one *)
Record RoomPolicy := {
  via : string;
  policy_ed25519_key : option string
}.

Definition POLICY_SERVER_ED25519_SIGNING_KEY_ID : string := "ed25519:policy_server".

(** [public_signing_key] of a [RoomPolicyEventContent] *)
Definition policy_signing_key (policy : RoomPolicy) (entity key_id : string)
    : result VerificationError (option string) :=
  if negb (String.eqb entity (via policy)) then Err (NoPublicKeysForEntity entity)
  else if negb (String.eqb key_id POLICY_SERVER_ED25519_SIGNING_KEY_ID) then Ok None
  else Ok (policy_ed25519_key policy).

(** [verify_policy_server_signature] *)
Definition verify_policy_server_signature (room_policy : RoomPolicy)
    (object : CanonicalJsonObject) (rules : RoomVersionRules) : outcome VerificationError unit :=
  let! event_type := field (get_as_required_string object "type" "type") in
  if String.eqb event_type "m.room.policy"
     && match get_as_required_string object "state_key" "state_key" with
        | Ok state_key => String.eqb state_key EmptyString
        | Err _ => false
        end
  then Ret tt
  else
    let! signature_map := field (get_as_required_object object "signatures" "signatures") in
    let! canonical_json := json (signed_json object (redaction rules)) in
    verify_canonical_json_for_entity (via room_policy) (policy_signing_key room_policy)
      signature_map canonical_json.

End signatures.
