(* ===== verification/Events.v ===== *)
(** * Events

    The [Event] trait of [crates/common-state-res/src/events/traits.rs], the
    lazily deserialized helper types of [crates/common-state-res/src/events]
    (create, member, power levels, join rules, third-party invite), and the
    ordering of user power levels.

    The content of an event is raw JSON; what reads it is serde and serde_json,
    which are outside the repository.  They are the operations of the class
    [External], one per target type of [from_raw_json_value], with the error
    text they return.  Everything the repository itself does with the results is
    a definition. *)

From S2P Require Import Prelude Identifiers RoomVersionRules CanonicalJson Signatures.

(** ** JSON values *)

(** [serde_json::Number] *)
Inductive Number :=
| PosInt (n : Z)
| NegInt (z : Z)
| Float (bits : Z).

(** [serde_json::Value]; an object lists its members, each key once. *)
Inductive Value :=
| Null
| Bool (b : bool)
| Num (n : Number)
| Str (s : string)
| Arr (l : list Value)
| Obj (kvs : list (string * Value)).

Abbreviation JsonObject := (list (string * Value)).

(** ** Enumerations *)

(** [MembershipState] *)
Inductive MembershipState :=
| Ban | Invite | Join | Knock | Leave
| CustomMembership (s : string).

#[export] Instance MembershipState_eq_dec : EqDecision MembershipState.
Proof. solve_decision. Defined.

(** [JoinRuleKind] *)
Inductive JoinRuleKind :=
| JoinInvite | JoinKnock | JoinPrivate | JoinRestricted | JoinKnockRestricted | JoinPublic
| CustomJoinRule (s : string).

#[export] Instance JoinRuleKind_eq_dec : EqDecision JoinRuleKind.
Proof. solve_decision. Defined.

(** Event types.  A [TimelineEventType] or [StateEventType] is the string its
    [Display] prints, on which the equality of the enumerations agrees. *)
Definition RoomCreate : string := "m.room.create".
Definition RoomMember : string := "m.room.member".
Definition RoomPowerLevels : string := "m.room.power_levels".
Definition RoomJoinRules : string := "m.room.join_rules".
Definition RoomThirdPartyInvite : string := "m.room.third_party_invite".
Definition RoomRedaction : string := "m.room.redaction".
Definition RoomAliases : string := "m.room.aliases".

(** ** User power levels *)

(** [UserPowerLevel] of [common-events/src/room/power_levels.rs] *)
Inductive UserPowerLevel :=
| Infinite
| Int (i : Z).

#[export] Instance UserPowerLevel_eq_dec : EqDecision UserPowerLevel.
Proof. solve_decision. Defined.

(** [Ord::cmp] of [UserPowerLevel] *)
Definition upl_cmp (a b : UserPowerLevel) : comparison :=
  match a, b with
  | Infinite, Infinite => Eq
  | Infinite, Int _ => Gt
  | Int _, Infinite => Lt
  | Int i, Int j => (i ?= j)%Z
  end.

(** [PartialOrd<Int>::partial_cmp] of [UserPowerLevel] *)
Definition upl_cmp_int (a : UserPowerLevel) (j : Z) : comparison :=
  match a with
  | Infinite => Gt
  | Int i => (i ?= j)%Z
  end.

(** [PartialOrd<UserPowerLevel>::partial_cmp] of [Int] *)
Definition int_cmp_upl (i : Z) (b : UserPowerLevel) : comparison :=
  match b with
  | Infinite => Lt
  | Int j => (i ?= j)%Z
  end.

(** The operators the comparisons induce. *)
Definition is_lt (c : comparison) : bool := match c with Lt => true | _ => false end.
Definition is_gt (c : comparison) : bool := match c with Gt => true | _ => false end.
Definition is_ge (c : comparison) : bool := match c with Lt => false | _ => true end.

Definition upl_lt (a b : UserPowerLevel) : bool := is_lt (upl_cmp a b).
Definition upl_lt_int (a : UserPowerLevel) (j : Z) : bool := is_lt (upl_cmp_int a j).
Definition upl_ge_int (a : UserPowerLevel) (j : Z) : bool := is_ge (upl_cmp_int a j).
Definition int_gt_upl (i : Z) (b : UserPowerLevel) : bool := is_gt (int_cmp_upl i b).
Definition int_ge_upl (i : Z) (b : UserPowerLevel) : bool := is_ge (int_cmp_upl i b).

(** ** Code outside the repository *)

(** [RawJson] is [RawJsonValue]. *)
Class External (RawJson : Type) : Type := {
  (** [from_raw_json_value] at the struct each accessor declares *)
  de_federate : RawJson → result string (option bool);
  de_creator : RawJson → result string string;
  de_creator_present : RawJson → result string (option unit);
  de_additional_creators : RawJson → result string (gset string);
  de_membership : RawJson → result string MembershipState;
  de_join_authorised : RawJson → result string (option string);
  de_third_party_invite : RawJson → result string (option CanonicalJsonObject);
  de_join_rule : RawJson → result string JoinRuleKind;
  de_public_keys : RawJson → result string (option string * list string);
  de_object : RawJson → result string JsonObject;
  (** [from_json_value] at [Int] and at a map to [Int], given how a key is read *)
  value_to_int : Value → result string Z;
  value_to_int_map : (string → result string string) → Value → result string (gmap string Z);
  (** [de::Error::invalid_type] for what was expected *)
  invalid_type : Value → string → string;
  (** js_int: conversion of a machine integer, and [FromStr] of [Int] and [UInt] *)
  int_try_from : Z → result string Z;
  parse_int : string → result string Z;
  parse_uint : string → result string Z;
  (** [Base64PublicKey::decode] *)
  public_key_decode : string → option string;
  (** the text of JSON values, and cryptography *)
  external_text :: JsonText;
  external_crypto :: Crypto
}.

(** ** The [Event] trait *)

Record Pdu (RawJson : Type) := {
  event_id : string;
  room_id : option string;
  sender : string;
  origin_server_ts : Z;
  event_type : string;
  content : RawJson;
  state_key : option string;
  prev_events : list string;
  auth_events : list string;
  redacts : option string;
  rejected : bool
}.

Arguments event_id {RawJson} _.
Arguments room_id {RawJson} _.
Arguments sender {RawJson} _.
Arguments origin_server_ts {RawJson} _.
Arguments event_type {RawJson} _.
Arguments content {RawJson} _.
Arguments state_key {RawJson} _.
Arguments prev_events {RawJson} _.
Arguments auth_events {RawJson} _.
Arguments redacts {RawJson} _.
Arguments rejected {RawJson} _.

Section events.
Context {RawJson : Type} `{!External RawJson}.

#[local] Abbreviation Event := (Pdu RawJson).

(** A serde error in a message: [map_err(|err| format!(..., err))]. *)
Definition de_err {A} (prefix : string) (r : result string A) : outcome string A :=
  match r with
  | Ok a => Ret a
  | Err e => Throw (prefix +:+ e)
  end.

(** ** [m.room.create] ([events/create.rs]) *)

(** [RoomCreateEvent::federate] *)
Definition federate (ev : Event) : outcome string bool :=
  let! f := de_err "invalid `m.federate` field in `m.room.create` event: "
              (de_federate (content ev)) in
  Ret (default true f).

(** [RoomCreateEvent::creator] *)
Definition creator (ev : Event) (rules : AuthorizationRules) : outcome string string :=
  if use_room_create_sender rules then Ret (sender ev)
  else de_err "missing or invalid `creator` field in `m.room.create` event: "
         (de_creator (content ev)).

(** [RoomCreateEvent::additional_creators] *)
Definition additional_creators (ev : Event) (rules : AuthorizationRules)
    : outcome string (gset string) :=
  if additional_room_creators rules then
    de_err "invalid `additional_creators` field in `m.room.create` event: "
      (de_additional_creators (content ev))
  else Ret ∅.

(** [RoomCreateEvent::creators] *)
Definition creators (ev : Event) (rules : AuthorizationRules)
    : outcome string (gset string) :=
  let! cs := additional_creators ev rules in
  let! c := creator ev rules in
  Ret ({[ c ]} ∪ cs).

(** [RoomCreateEvent::has_creator] *)
Definition has_creator (ev : Event) : outcome string bool :=
  let! c := de_err "invalid `creator` field in `m.room.create` event: "
              (de_creator_present (content ev)) in
  Ret (match c with Some _ => true | None => false end).

(** ** [m.room.member] ([events/member.rs]) *)

(** [RoomMemberEventContent::membership] *)
Definition content_membership (c : RawJson) : outcome string MembershipState :=
  de_err "missing or invalid `membership` field in `m.room.member` event: "
    (de_membership c).

(** [RoomMemberEvent::membership] *)
Definition membership (ev : Event) : outcome string MembershipState :=
  content_membership (content ev).

(** [RoomMemberEventOptionExt::membership] *)
Definition opt_membership (ev : option Event) : outcome string MembershipState :=
  match ev with
  | Some ev => membership ev
  | None => Ret Leave
  end.

(** [RoomMemberEventContent::join_authorised_via_users_server] *)
Definition join_authorised_via_users_server (c : RawJson) : outcome string (option string) :=
  de_err "invalid `join_authorised_via_users_server` field in `m.room.member` event: "
    (de_join_authorised c).

(** [RoomMemberEventContent::third_party_invite]: the [signed] object of the
    [ThirdPartyInvite], if any. *)
Definition third_party_invite (c : RawJson) : outcome string (option CanonicalJsonObject) :=
  de_err "invalid `third_party_invite` field in `m.room.member` event: "
    (de_third_party_invite c).

(** [ThirdPartyInvite::token] *)
Definition tpi_token (signed : CanonicalJsonObject) : outcome string string :=
  match obj_get "token" signed with
  | None => Throw "missing `token` field in `third_party_invite.signed` of `m.room.member` event"
  | Some v =>
      match as_str v with
      | Some s => Ret s
      | None => Throw ("unexpected format of `token` field in `third_party_invite.signed` of `m.room.member` event: expected string, got " +:+ debug_json v)
      end
  end.

(** [ThirdPartyInvite::mxid] *)
Definition tpi_mxid (signed : CanonicalJsonObject) : outcome string string :=
  match obj_get "mxid" signed with
  | None => Throw "missing `mxid` field in `third_party_invite.signed` of `m.room.member` event"
  | Some v =>
      match as_str v with
      | Some s => Ret s
      | None => Throw ("unexpected format of `mxid` field in `third_party_invite.signed` of `m.room.member` event: expected string, got " +:+ debug_json v)
      end
  end.

(** [ThirdPartyInvite::signatures] *)
Definition tpi_signatures (signed : CanonicalJsonObject) : outcome string CanonicalJsonObject :=
  match obj_get "signatures" signed with
  | None => Throw "missing `signatures` field in `third_party_invite.signed` of `m.room.member` event"
  | Some v =>
      match as_object v with
      | Some o => Ret o
      | None => Throw ("unexpected format of `signatures` field in `third_party_invite.signed` of `m.room.member` event: expected object, got " +:+ debug_json v)
      end
  end.

(** [ThirdPartyInvite::signed_canonical_json] *)
Definition tpi_signed_canonical_json (signed : CanonicalJsonObject) : outcome string string :=
  de_err "invalid `third_party_invite.signed` field in `m.room.member` event: "
    (map_err display_json_error (to_canonical_json_string_for_signing signed)).

(** ** [m.room.join_rules] and [m.room.third_party_invite] *)

(** [RoomJoinRulesEvent::join_rule] *)
Definition join_rule (ev : Event) : outcome string JoinRuleKind :=
  de_err "missing or invalid `join_rule` field in `m.room.join_rules` event: "
    (de_join_rule (content ev)).

(** [RoomThirdPartyInviteEvent::public_keys] *)
Definition public_keys (ev : Event) : outcome string (gset string) :=
  let! p := de_err "invalid `public_key` or `public_keys` field in `m.room.third_party_invite` event: "
              (de_public_keys (content ev)) in
  Ret (list_to_set (option_list p.1 ++ p.2)).

(** ** [m.room.power_levels] ([events/power_levels.rs]) *)

(** [DEFAULT_CREATOR_POWER_LEVEL] *)
Definition DEFAULT_CREATOR_POWER_LEVEL : Z := 100.

(** [RoomPowerLevelsIntField] *)
Inductive IntField :=
| UsersDefault | EventsDefault | StateDefault | BanLevel | RedactLevel | KickLevel | InviteLevel.

(** [RoomPowerLevelsIntField::ALL] *)
Definition ALL : list IntField :=
  [UsersDefault; EventsDefault; StateDefault; BanLevel; RedactLevel; KickLevel; InviteLevel].

(** [RoomPowerLevelsIntField::as_str] *)
Definition field_as_str (f : IntField) : string :=
  match f with
  | UsersDefault => "users_default"
  | EventsDefault => "events_default"
  | StateDefault => "state_default"
  | BanLevel => "ban"
  | RedactLevel => "redact"
  | KickLevel => "kick"
  | InviteLevel => "invite"
  end.

(** [RoomPowerLevelsIntField::default_value] *)
Definition default_value (f : IntField) : Z :=
  match f with
  | UsersDefault | EventsDefault | InviteLevel => 0
  | StateDefault | KickLevel | BanLevel | RedactLevel => 50
  end.

(** The characters [str::trim] removes, as the UTF-8 bytes of each. *)
Definition whitespace : list (list Z) :=
  [[9]; [10]; [11]; [12]; [13]; [32]; [194; 133]; [194; 160]; [225; 154; 128];
   [226; 128; 128]; [226; 128; 129]; [226; 128; 130]; [226; 128; 131]; [226; 128; 132];
   [226; 128; 133]; [226; 128; 134]; [226; 128; 135]; [226; 128; 136]; [226; 128; 137];
   [226; 128; 138]; [226; 128; 168]; [226; 128; 169]; [226; 128; 175]; [226; 129; 159];
   [227; 128; 128]]%Z.

Fixpoint strip_bytes (p : list Z) (s : list ascii) : option (list ascii) :=
  match p, s with
  | [], _ => Some s
  | b :: p, c :: s => if (b =? byte_val c)%Z then strip_bytes p s else None
  | _ :: _, [] => None
  end.

Fixpoint strip_any (ps : list (list Z)) (s : list ascii) : option (list ascii) :=
  match ps with
  | [] => None
  | p :: ps => match strip_bytes p s with Some s' => Some s' | None => strip_any ps s end
  end.

Fixpoint trim_with (ps : list (list Z)) (fuel : nat) (s : list ascii) : list ascii :=
  match fuel with
  | 0 => s
  | S fuel => match strip_any ps s with Some s' => trim_with ps fuel s' | None => s end
  end.

(** [str::trim] *)
Definition trim (s : string) : string :=
  let l := String.list_ascii_of_string s in
  let l := trim_with whitespace (length l) l in
  let l := trim_with (reverse <$> whitespace) (length l) (reverse l) in
  String.string_of_list_ascii (reverse l).

(** [deserialize_v1_powerlevel] of [common-types/src/serde/strings.rs], on a
    [Value]: an integer number, or a string that holds one. *)
Definition deserialize_v1_powerlevel (v : Value) : result string Z :=
  match v with
  | Num (PosInt n) => int_try_from n
  | Num (NegInt z) => int_try_from z
  | Str s =>
      let trimmed := trim s in
      match strip_prefix "+" trimmed with
      | Some without => parse_uint without
      | None => parse_int trimmed
      end
  | Null | Bool _ | Num (Float _) | Arr _ | Obj _ =>
      Err (invalid_type v "an integer or a string")
  end.

(** [btreemap_deserialize_v1_powerlevel_values] of the same file. *)
Fixpoint v1_map_entries (de_key : string → result string string)
    (kvs : JsonObject) (res : gmap string Z) : result string (gmap string Z) :=
  match kvs with
  | [] => Ok res
  | (k, v) :: kvs =>
      let? k := de_key k in
      let? v := deserialize_v1_powerlevel v in
      v1_map_entries de_key kvs (<[k := v]> res)
  end.

Definition btreemap_deserialize_v1_powerlevel_values
    (de_key : string → result string string) (v : Value) : result string (gmap string Z) :=
  match v with
  | Obj kvs => v1_map_entries de_key kvs ∅
  | _ => Err (invalid_type v "a map with integers or strings as values")
  end.

(** How the keys of the maps are read: any string is an event type or a
    notification key; a user must be a valid user ID. *)
Definition de_string_key (k : string) : result string string := Ok k.

Definition de_user_key (k : string) : result string string :=
  match user_id_validate k with
  | Ret _ => Ok k
  | Throw e => Err (display_id_error e)
  | Panic | OutOfFuel => Err EmptyString
  end.

(** [RoomPowerLevelsEvent::deserialized_content] *)
Definition deserialized_content (ev : Event) : outcome string JsonObject :=
  de_err "malformed `m.room.power_levels` content: " (de_object (content ev)).

Definition format_err (field : string) : string :=
  "unexpected format of `" +:+ field +:+ "` field in `content` of `m.room.power_levels` event: ".

(** [RoomPowerLevelsEvent::get_as_int] without its cache. *)
Definition get_as_int (ev : Event) (field : IntField) (rules : AuthorizationRules)
    : outcome string (option Z) :=
  let! c := deserialized_content ev in
  match obj_get (field_as_str field) c with
  | None => Ret None
  | Some value =>
      let! i := de_err (format_err (field_as_str field))
                  (if integer_power_levels rules then value_to_int value
                   else deserialize_v1_powerlevel value) in
      Ret (Some i)
  end.

(** [RoomPowerLevelsEvent::get_as_int_or_default] *)
Definition get_as_int_or_default (ev : Event) (field : IntField) (rules : AuthorizationRules)
    : outcome string Z :=
  let! i := get_as_int ev field rules in
  Ret (default (default_value field) i).

(** [RoomPowerLevelsEvent::get_as_int_map] *)
Definition get_as_int_map (ev : Event) (de_key : string → result string string)
    (field : string) (rules : AuthorizationRules) : outcome string (option (gmap string Z)) :=
  let! c := deserialized_content ev in
  match obj_get field c with
  | None => Ret None
  | Some value =>
      let! m := de_err (format_err field)
                  (if integer_power_levels rules then value_to_int_map de_key value
                   else btreemap_deserialize_v1_powerlevel_values de_key value) in
      Ret (Some m)
  end.

(** [RoomPowerLevelsEvent::events], [notifications] and [users] *)
Definition pl_events (ev : Event) (rules : AuthorizationRules) :=
  get_as_int_map ev de_string_key "events" rules.

Definition pl_notifications (ev : Event) (rules : AuthorizationRules) :=
  get_as_int_map ev de_string_key "notifications" rules.

Definition pl_users (ev : Event) (rules : AuthorizationRules) :=
  get_as_int_map ev de_user_key "users" rules.

(** [RoomPowerLevelsEvent::user_power_level] *)
Definition user_power_level (ev : Event) (user_id : string) (rules : AuthorizationRules)
    : outcome string Z :=
  let! users := pl_users ev rules in
  match users ≫= lookup user_id with
  | Some power_level => Ret power_level
  | None => get_as_int_or_default ev UsersDefault rules
  end.

(** [RoomPowerLevelsEvent::event_power_level] *)
Definition event_power_level (ev : Event) (ty : string) (sk : option string)
    (rules : AuthorizationRules) : outcome string Z :=
  let! events := pl_events ev rules in
  match events ≫= lookup ty with
  | Some power_level => Ret power_level
  | None =>
      let default_field := match sk with Some _ => StateDefault | None => EventsDefault end in
      get_as_int_or_default ev default_field rules
  end.

(** [RoomPowerLevelsEvent::int_fields_map]: the present fields, in the order of
    [ALL]; the first malformed one is the error. *)
Fixpoint int_fields_list (ev : Event) (fields : list IntField) (rules : AuthorizationRules)
    : outcome string (list (IntField * Z)) :=
  match fields with
  | [] => Ret []
  | f :: fields =>
      let! i := get_as_int ev f rules in
      let! rest := int_fields_list ev fields rules in
      Ret (match i with Some i => (f, i) :: rest | None => rest end)
  end.

Definition int_fields_map (ev : Event) (rules : AuthorizationRules) :=
  int_fields_list ev ALL rules.

(** ** [RoomPowerLevelsEventOptionExt] *)

(** [Option<RoomPowerLevelsEvent>::user_power_level] *)
Definition opt_user_power_level (ev : option Event) (user_id : string)
    (creators : gset string) (rules : AuthorizationRules) : outcome string UserPowerLevel :=
  if explicitly_privilege_room_creators rules && bool_decide (user_id ∈ creators)
  then Ret Infinite
  else match ev with
       | Some ev =>
           let! i := user_power_level ev user_id rules in Ret (Int i)
       | None =>
           Ret (Int (if bool_decide (user_id ∈ creators) then DEFAULT_CREATOR_POWER_LEVEL
                     else default_value UsersDefault))
       end.

(** [Option<RoomPowerLevelsEvent>::get_as_int_or_default] *)
Definition opt_get_as_int_or_default (ev : option Event) (field : IntField)
    (rules : AuthorizationRules) : outcome string Z :=
  match ev with
  | Some ev => get_as_int_or_default ev field rules
  | None => Ret (default_value field)
  end.

(** [Option<RoomPowerLevelsEvent>::event_power_level] *)
Definition opt_event_power_level (ev : option Event) (ty : string) (sk : option string)
    (rules : AuthorizationRules) : outcome string Z :=
  match ev with
  | Some ev => event_power_level ev ty sk rules
  | None =>
      Ret (default_value (match sk with Some _ => StateDefault | None => EventsDefault end))
  end.

End events.

#[export] Instance IntField_eq_dec : EqDecision IntField.
Proof. solve_decision. Defined.
