(* ===== verification/EventAuth.v ===== *)
(** * Event authorization

    [crates/common-state-res/src/event_auth.rs] and
    [event_auth/room_member.rs]: the auth events selection, the
    state-independent and the state-dependent authorization rules.

    A check returns [Ret tt] for [Ok(())] and [Throw] with the message of
    [Err]; [Panic] stands for a panic of the thread.  [fetch_event] and
    [fetch_state] are the closures the caller passes. *)

From S2P Require Import Prelude Identifiers RoomVersionRules CanonicalJson Signatures Events.

Section event_auth.
Context {RawJson : Type} `{!External RawJson}.

#[local] Abbreviation Event := (Pdu RawJson).
Abbreviation StateKey := (string * string)%type.

(** ** Auth events selection *)

(** [if !auth_types.contains(&key) { auth_types.push(key) }] *)
Definition push_new (key : StateKey) (l : list StateKey) : list StateKey :=
  if bool_decide (key ∈ l) then l else l ++ [key].

(** [auth_types_for_event] *)
Definition auth_types_for_event (ty sender : string) (sk : option string) (c : RawJson)
    (rules : AuthorizationRules) : outcome string (list StateKey) :=
  if String.eqb ty RoomCreate then Ret []
  else
    let auth_types :=
      [(RoomPowerLevels, EmptyString); (RoomMember, sender)]
      ++ (if room_create_event_id_as_room_id rules then [] else [(RoomCreate, EmptyString)]) in
    if String.eqb ty RoomMember then
      match sk with
      | None => Throw "missing `state_key` field for `m.room.member` event"
      | Some sk =>
          let auth_types := push_new (RoomMember, sk) auth_types in
          let! ms := content_membership c in
          let auth_types :=
            match ms with
            | Join | Invite | Knock => push_new (RoomJoinRules, EmptyString) auth_types
            | _ => auth_types
            end in
          let! auth_types :=
            if bool_decide (ms = Invite) then
              let! tpi := third_party_invite c in
              match tpi with
              | Some signed =>
                  let! token := tpi_token signed in
                  Ret (push_new (RoomThirdPartyInvite, token) auth_types)
              | None => Ret auth_types
              end
            else Ret auth_types in
          if bool_decide (ms = Join) && restricted_join_rule rules then
            let! via := join_authorised_via_users_server c in
            match via with
            | Some user_id => Ret (push_new (RoomMember, user_id) auth_types)
            | None => Ret auth_types
            end
          else Ret auth_types
      end
    else Ret auth_types.

Definition event_auth_types (ev : Event) (rules : AuthorizationRules) :=
  auth_types_for_event (event_type ev) (sender ev) (state_key ev) (content ev) rules.

(** ** State-independent rules *)

(** [check_room_create] *)
Definition check_room_create (ev : Event) (rules : AuthorizationRules) : outcome string unit :=
  match prev_events ev with
  | _ :: _ => Throw "`m.room.create` event cannot have previous events"
  | [] =>
      let! _ :=
        if room_create_event_id_as_room_id rules then
          match room_id ev with
          | Some _ => Throw "`m.room.create` event cannot have a `room_id` field"
          | None => Ret tt
          end
        else
          match room_id ev with
          | None => Throw "missing `room_id` field in `m.room.create` event"
          | Some rid =>
              match room_id_server_name rid with
              | None => Throw "invalid `room_id` field in `m.room.create` event: could not parse server name"
              | Some sn =>
                  if String.eqb sn (user_id_server_name (sender ev)) then Ret tt
                  else Throw "invalid `room_id` field in `m.room.create` event: server name does not match sender's server name"
              end
          end in
      let! _ :=
        if use_room_create_sender rules then Ret tt
        else
          let! has := has_creator ev in
          if has then Ret tt else Throw "missing `creator` field in `m.room.create` event" in
      let! _ := additional_creators ev rules in
      Ret tt
  end.

(** The loop over [auth_events]: the keys seen, or the first failure. *)
Fixpoint check_auth_events (fetch_event : string → option Event) (rid : string)
    (expected : list StateKey) (ids : list string) (seen : gset StateKey)
    : outcome string (gset StateKey) :=
  match ids with
  | [] => Ret seen
  | id :: ids =>
      match fetch_event id with
      | None => Throw ("failed to find auth event " +:+ id)
      | Some auth_event =>
          if negb (bool_decide (room_id auth_event = Some rid))
          then Throw ("auth event " +:+ id +:+ " not in the same room")
          else
            match state_key auth_event with
            | None => Throw ("auth event " +:+ id +:+ " has no `state_key`")
            | Some sk =>
                let ty := event_type auth_event in
                let pair := "(" +:+ ty +:+ ", " +:+ sk +:+ ") pair" in
                if bool_decide ((ty, sk) ∈ seen)
                then Throw ("duplicate auth event " +:+ id +:+ " for " +:+ pair)
                else if negb (bool_decide ((ty, sk) ∈ expected))
                then Throw ("unexpected auth event " +:+ id +:+ " with " +:+ pair)
                else if rejected auth_event
                then Throw ("rejected auth event " +:+ id)
                else check_auth_events fetch_event rid expected ids ({[ (ty, sk) ]} ∪ seen)
            end
      end
  end.

(** [check_state_independent_auth_rules] *)
Definition check_state_independent_auth_rules (rules : AuthorizationRules) (ev : Event)
    (fetch_event : string → option Event) : outcome string unit :=
  if String.eqb (event_type ev) RoomCreate then check_room_create ev rules
  else
    let! expected := event_auth_types ev rules in
    match room_id ev with
    | None => Throw "missing `room_id` field for event"
    | Some rid =>
        let! seen := check_auth_events fetch_event rid expected (auth_events ev) ∅ in
        let! _ :=
          if negb (room_create_event_id_as_room_id rules)
             && negb (existsb (λ k, String.eqb k.1 RoomCreate) (elements seen))
          then Throw "no `m.room.create` event in auth events"
          else Ret tt in
        if room_create_event_id_as_room_id rules then
          match room_create_event_id rid with
          | Err e => Throw ("could not construct `m.room.create` event ID from room ID: "
                            +:+ display_id_error e)
          | Ok create_id =>
              match fetch_event create_id with
              | None => Throw ("failed to find `m.room.create` event " +:+ create_id)
              | Some create_event =>
                  if rejected create_event
                  then Throw ("rejected `m.room.create` event " +:+ create_id)
                  else Ret tt
              end
          end
        else Ret tt
    end.

(** ** [FetchStateExt] *)

Section fetch_state.
Context (fetch_state : string → string → option Event).

Definition room_create_event : outcome string Event :=
  match fetch_state RoomCreate EmptyString with
  | Some ev => Ret ev
  | None => Throw "no `m.room.create` event in current state"
  end.

Definition user_membership (user_id : string) : outcome string MembershipState :=
  opt_membership (fetch_state RoomMember user_id).

Definition room_power_levels_event : option Event :=
  fetch_state RoomPowerLevels EmptyString.

Definition state_join_rule : outcome string JoinRuleKind :=
  match fetch_state RoomJoinRules EmptyString with
  | Some ev => join_rule ev
  | None => Throw "no `m.room.join_rules` event in current state"
  end.

Definition room_third_party_invite_event (token : string) : option Event :=
  fetch_state RoomThirdPartyInvite token.

(** ** [m.room.member] ([room_member.rs]) *)

(** Whether the iterator over [prev_events] yields the create event and then
    nothing. *)
Definition prev_event_is_only (create_id : string) (prev : list string) : bool :=
  match prev with
  | [id] => String.eqb id create_id
  | _ => false
  end.

(** [check_room_member_join] *)
Definition check_room_member_join (ev : Event) (target_user : string)
    (rules : AuthorizationRules) (create_event : Event) : outcome string unit :=
  let! the_creator := creator create_event rules in
  let! cs := creators create_event rules in
  if prev_event_is_only (event_id create_event) (prev_events ev)
     && String.eqb target_user the_creator
  then Ret tt
  else if negb (String.eqb (sender ev) target_user)
  then Throw "sender of join event must match target user"
  else
    let! current_membership := user_membership target_user in
    if bool_decide (current_membership = Ban) then Throw "banned user cannot join room"
    else
      let! jr := state_join_rule in
      let invited_or_joined :=
        match current_membership with Invite | Join => true | _ => false end in
      if (bool_decide (jr = JoinInvite) || knocking rules && bool_decide (jr = JoinKnock))
         && invited_or_joined
      then Ret tt
      else if (restricted_join_rule rules && bool_decide (jr = JoinRestricted))
              || (knock_restricted_join_rule rules && bool_decide (jr = JoinKnockRestricted))
      then
        if invited_or_joined then Ret tt
        else
          let! via := join_authorised_via_users_server (content ev) in
          match via with
          | None => Throw "cannot join restricted room without `join_authorised_via_users_server` field if not invited"
          | Some via =>
              let! via_membership := user_membership via in
              if negb (bool_decide (via_membership = Join))
              then Throw "`join_authorised_via_users_server` is not joined"
              else
                let pl := room_power_levels_event in
                let! via_level := opt_user_power_level pl via cs rules in
                let! invite_level := opt_get_as_int_or_default pl InviteLevel rules in
                if upl_ge_int via_level invite_level then Ret tt
                else Throw "`join_authorised_via_users_server` does not have enough power"
          end
      else if bool_decide (jr = JoinPublic) then Ret tt
      else Throw "cannot join a room that is not `public`".

(** The innermost loop of [check_third_party_invite]: whether a public key
    verifies the signature. *)
Definition verified_by (algorithm signature json : string) (keys : list string) : bool :=
  existsb (λ k, match public_key_decode k with
                | Some pk => is_ok (verify_canonical_json_bytes algorithm pk signature json)
                | None => false
                end) keys.

(** The loop over the signatures of one entity; [true] is the early return. *)
Fixpoint check_entity_signatures (json : string) (keys : list string)
    (sigs : CanonicalJsonObject) : outcome string bool :=
  match sigs with
  | [] => Ret false
  | (key_id, v) :: sigs =>
      match key_id_validate (λ _, Ok tt) key_id with
      | Panic => Panic
      | OutOfFuel => OutOfFuel
      | Throw _ => check_entity_signatures json keys sigs
      | Ret _ =>
          let algorithm :=
            match str_find ":" key_id with
            | Some i => str_take i key_id
            | None => EmptyString
            end in
          match as_str v with
          | None => check_entity_signatures json keys sigs
          | Some sig_str =>
              match base64_parse sig_str with
              | None => check_entity_signatures json keys sigs
              | Some signature =>
                  if verified_by algorithm signature json keys then Ret true
                  else check_entity_signatures json keys sigs
              end
          end
      end
  end.

(** The loop over the entities. *)
Fixpoint check_signatures (json : string) (keys : list string)
    (entities : CanonicalJsonObject) : outcome string bool :=
  match entities with
  | [] => Ret false
  | (_, v) :: entities =>
      match as_object v with
      | None => Throw ("unexpected format of `signatures` field in `third_party_invite.signed` of `m.room.member` event: expected a map of string to object, got " +:+ debug_json v)
      | Some sigs =>
          let! found := check_entity_signatures json keys sigs in
          if found then Ret true else check_signatures json keys entities
      end
  end.

(** [check_third_party_invite] *)
Definition check_third_party_invite (ev : Event) (tpi : CanonicalJsonObject)
    (target_user : string) : outcome string unit :=
  let! target_membership := user_membership target_user in
  if bool_decide (target_membership = Ban) then Throw "cannot invite user that is banned"
  else
    let! token := tpi_token tpi in
    let! mxid := tpi_mxid tpi in
    if negb (String.eqb target_user mxid)
    then Throw "third-party invite mxid does not match target user"
    else
      match room_third_party_invite_event token with
      | None => Throw "no `m.room.third_party_invite` in room state matches the token"
      | Some tpi_event =>
          if negb (String.eqb (sender ev) (sender tpi_event))
          then Throw "sender of `m.room.third_party_invite` does not match sender of `m.room.member`"
          else
            let! keys := public_keys tpi_event in
            let! sigs := tpi_signatures tpi in
            let! json := tpi_signed_canonical_json tpi in
            let! found := check_signatures json (btree_elements keys) sigs in
            if found then Ret tt
            else Throw "no signature on third-party invite matches a public key in `m.room.third_party_invite` event"
      end.

(** [check_room_member_invite] *)
Definition check_room_member_invite (ev : Event) (target_user : string)
    (rules : AuthorizationRules) (create_event : Event) : outcome string unit :=
  let! tpi := third_party_invite (content ev) in
  match tpi with
  | Some tpi => check_third_party_invite ev tpi target_user
  | None =>
      let! sender_membership := user_membership (sender ev) in
      if negb (bool_decide (sender_membership = Join))
      then Throw "cannot invite user if sender is not joined"
      else
        let! target_membership := user_membership target_user in
        match target_membership with
        | Join | Ban => Throw "cannot invite user that is joined or banned"
        | _ =>
            let! cs := creators create_event rules in
            let pl := room_power_levels_event in
            let! sender_level := opt_user_power_level pl (sender ev) cs rules in
            let! invite_level := opt_get_as_int_or_default pl InviteLevel rules in
            if upl_ge_int sender_level invite_level then Ret tt
            else Throw "sender does not have enough power to invite"
        end
  end.

(** [check_room_member_leave] *)
Definition check_room_member_leave (ev : Event) (target_user : string)
    (rules : AuthorizationRules) (create_event : Event) : outcome string unit :=
  let! sender_membership := user_membership (sender ev) in
  if String.eqb (sender ev) target_user then
    let membership_is_invite_or_join :=
      match sender_membership with Join | Invite => true | _ => false end in
    let membership_is_knock := knocking rules && bool_decide (sender_membership = Knock) in
    if membership_is_invite_or_join || membership_is_knock then Ret tt
    else Throw "cannot leave if not joined, invited or knocked"
  else if negb (bool_decide (sender_membership = Join))
  then Throw "cannot kick if sender is not joined"
  else
    let! cs := creators create_event rules in
    let pl := room_power_levels_event in
    let! target_membership := user_membership target_user in
    let! sender_level := opt_user_power_level pl (sender ev) cs rules in
    let! ban_level := opt_get_as_int_or_default pl BanLevel rules in
    if bool_decide (target_membership = Ban) && upl_lt_int sender_level ban_level
    then Throw "sender does not have enough power to unban"
    else
      let! kick_level := opt_get_as_int_or_default pl KickLevel rules in
      let! target_level := opt_user_power_level pl target_user cs rules in
      if upl_ge_int sender_level kick_level && upl_lt target_level sender_level then Ret tt
      else Throw "sender does not have enough power to kick target user".

(** [check_room_member_ban] *)
Definition check_room_member_ban (ev : Event) (target_user : string)
    (rules : AuthorizationRules) (create_event : Event) : outcome string unit :=
  let! sender_membership := user_membership (sender ev) in
  if negb (bool_decide (sender_membership = Join))
  then Throw "cannot ban if sender is not joined"
  else
    let! cs := creators create_event rules in
    let pl := room_power_levels_event in
    let! sender_level := opt_user_power_level pl (sender ev) cs rules in
    let! ban_level := opt_get_as_int_or_default pl BanLevel rules in
    let! target_level := opt_user_power_level pl target_user cs rules in
    if upl_ge_int sender_level ban_level && upl_lt target_level sender_level then Ret tt
    else Throw "sender does not have enough power to ban target user".

(** [check_room_member_knock] *)
Definition check_room_member_knock (ev : Event) (target_user : string)
    (rules : AuthorizationRules) : outcome string unit :=
  let! jr := state_join_rule in
  let supports_knock :=
    bool_decide (jr = JoinKnock)
    || (knock_restricted_join_rule rules && bool_decide (jr = JoinKnockRestricted)) in
  if negb supports_knock
  then Throw "join rule is not set to knock or knock_restricted, knocking is not allowed"
  else if negb (String.eqb (sender ev) target_user)
  then Throw "cannot make another user knock, sender does not match target user"
  else
    let! sender_membership := user_membership (sender ev) in
    match sender_membership with
    | Ban | Invite | Join => Throw "cannot knock if user is banned, invited or joined"
    | _ => Ret tt
    end.

(** [check_room_member] *)
Definition check_room_member (ev : Event) (rules : AuthorizationRules)
    (create_event : Event) : outcome string unit :=
  match state_key ev with
  | None => Throw "missing `state_key` field in `m.room.member` event"
  | Some target_user =>
      match user_id_validate target_user with
      | Panic => Panic
      | OutOfFuel => OutOfFuel
      | Throw e => Throw ("invalid `state_key` field in `m.room.member` event: "
                          +:+ display_id_error e)
      | Ret _ =>
          let! target_membership := membership ev in
          match target_membership with
          | Join => check_room_member_join ev target_user rules create_event
          | Invite => check_room_member_invite ev target_user rules create_event
          | Leave => check_room_member_leave ev target_user rules create_event
          | Ban => check_room_member_ban ev target_user rules create_event
          | Knock =>
              if knocking rules then check_room_member_knock ev target_user rules
              else Throw "unknown membership"
          | CustomMembership _ => Throw "unknown membership"
          end
      end
  end.

End fetch_state.

(** ** [m.room.power_levels] *)

Definition opt_keys (m : option (gmap string Z)) : gset string :=
  match m with Some m => dom m | None => ∅ end.

(** The loop of [check_power_level_maps] over the keys of both maps. *)
Fixpoint check_level_keys (current new : option (gmap string Z))
    (sender_power_level : UserPowerLevel) (reject_current : string → Z → bool)
    (error_fn : string → string) (keys : list string) : outcome string unit :=
  match keys with
  | [] => Ret tt
  | key :: keys =>
      let cur := current ≫= lookup key in
      let nw := new ≫= lookup key in
      if bool_decide (cur = nw)
      then check_level_keys current new sender_power_level reject_current error_fn keys
      else
        let change_rejected := match cur with Some pl => reject_current key pl | None => false end in
        let new_too_big := match nw with Some pl => int_gt_upl pl sender_power_level | None => false end in
        if change_rejected || new_too_big then Throw (error_fn key)
        else check_level_keys current new sender_power_level reject_current error_fn keys
  end.

(** [check_power_level_maps] *)
Definition check_power_level_maps (current new : option (gmap string Z))
    (sender_power_level : UserPowerLevel) (reject_current : string → Z → bool)
    (error_fn : string → string) : outcome string unit :=
  check_level_keys current new sender_power_level reject_current error_fn
    (btree_elements (opt_keys current ∪ opt_keys new)).

(** [new_int_fields.get(field)] *)
Fixpoint field_get (f : IntField) (l : list (IntField * Z)) : option Z :=
  match l with
  | [] => None
  | (g, z) :: l => if bool_decide (f = g) then Some z else field_get f l
  end.

(** The loop over [RoomPowerLevelsIntField::ALL]. *)
Fixpoint check_int_fields (current_ev : Event) (new_fields : list (IntField * Z))
    (rules : AuthorizationRules) (sender_power_level : UserPowerLevel)
    (fields : list IntField) : outcome string unit :=
  match fields with
  | [] => Ret tt
  | f :: fields =>
      let! cur := get_as_int current_ev f rules in
      let nw := field_get f new_fields in
      if bool_decide (cur = nw)
      then check_int_fields current_ev new_fields rules sender_power_level fields
      else if int_gt_upl (default (default_value f) cur) sender_power_level
              || int_gt_upl (default (default_value f) nw) sender_power_level
      then Throw ("sender does not have enough power to change the power level of `"
                  +:+ field_as_str f +:+ "`")
      else check_int_fields current_ev new_fields rules sender_power_level fields
  end.

(** [check_room_power_levels] *)
Definition check_room_power_levels (ev : Event) (current : option Event)
    (rules : AuthorizationRules) (sender_power_level : UserPowerLevel)
    (room_creators : gset string) : outcome string unit :=
  let! new_int_fields := int_fields_map ev rules in
  let! new_events := pl_events ev rules in
  let! new_notifications := pl_notifications ev rules in
  let! new_users := pl_users ev rules in
  if explicitly_privilege_room_creators rules
     && bool_decide (¬ room_creators ## opt_keys new_users)
  then Throw "creator user IDs are not allowed in the `users` field"
  else
    match current with
    | None => Ret tt
    | Some cur =>
        let! _ := check_int_fields cur new_int_fields rules sender_power_level ALL in
        let! current_events := pl_events cur rules in
        let! _ := check_power_level_maps current_events new_events sender_power_level
                    (λ _ pl, int_gt_upl pl sender_power_level)
                    (λ t, "sender does not have enough power to change the `" +:+ t
                          +:+ "` event type power level") in
        let! _ :=
          if limit_notifications_power_levels rules then
            let! current_notifications := pl_notifications cur rules in
            check_power_level_maps current_notifications new_notifications sender_power_level
              (λ _ pl, int_gt_upl pl sender_power_level)
              (λ k, "sender does not have enough power to change the `" +:+ k
                    +:+ "` notification power level")
          else Ret tt in
        let! current_users := pl_users cur rules in
        check_power_level_maps current_users new_users sender_power_level
          (λ user_id pl, negb (String.eqb user_id (sender ev))
                         && int_ge_upl pl sender_power_level)
          (λ u, "sender does not have enough power to change `" +:+ u +:+ "`'s  power level")
    end.

(** [check_room_redaction] *)
Definition check_room_redaction (ev : Event) (current : option Event)
    (rules : AuthorizationRules) (sender_level : UserPowerLevel) : outcome string unit :=
  let! redact_level := opt_get_as_int_or_default current RedactLevel rules in
  if upl_ge_int sender_level redact_level then Ret tt
  else if bool_decide (event_id_server_name (event_id ev)
                       = redacts ev ≫= event_id_server_name)
  then Ret tt
  else Throw "`m.room.redaction` event did not pass any of the allow rules".

(** ** State-dependent rules *)

(** [check_state_dependent_auth_rules] *)
Definition check_state_dependent_auth_rules (rules : AuthorizationRules) (ev : Event)
    (fetch_state : string → string → option Event) : outcome string unit :=
  if String.eqb (event_type ev) RoomCreate then Ret tt
  else
    let! create_event := room_create_event fetch_state in
    let! federated := federate create_event in
    if negb federated
       && negb (String.eqb (user_id_server_name (sender create_event))
                  (user_id_server_name (sender ev)))
    then Throw "room is not federated and event's sender domain does not match `m.room.create` event's sender domain"
    else if special_case_room_aliases rules && String.eqb (event_type ev) RoomAliases then
      if negb (bool_decide (state_key ev = Some (user_id_server_name (sender ev))))
      then Throw "server name of the `state_key` of `m.room.aliases` event does not match the server name of the sender"
      else Ret tt
    else if String.eqb (event_type ev) RoomMember then
      check_room_member fetch_state ev rules create_event
    else
      let! sender_membership := user_membership fetch_state (sender ev) in
      if negb (bool_decide (sender_membership = Join))
      then Throw "sender's membership is not `join`"
      else
        let! cs := creators create_event rules in
        let current := room_power_levels_event fetch_state in
        let! sender_level := opt_user_power_level current (sender ev) cs rules in
        if String.eqb (event_type ev) RoomThirdPartyInvite then
          let! invite_level := opt_get_as_int_or_default current InviteLevel rules in
          if upl_lt_int sender_level invite_level
          then Throw "sender does not have enough power to send invites in this room"
          else Ret tt
        else
          let! required := opt_event_power_level current (event_type ev) (state_key ev) rules in
          if upl_lt_int sender_level required
          then Throw ("sender does not have enough power to send event of type `"
                      +:+ event_type ev +:+ "`")
          else if match state_key ev with Some k => str_starts_with "@" k | None => false end
                  && negb (bool_decide (state_key ev = Some (sender ev)))
          then Throw "sender cannot send event with `state_key` matching another user's ID"
          else if String.eqb (event_type ev) RoomPowerLevels then
            check_room_power_levels ev current rules sender_level cs
          else if special_case_room_redaction rules && String.eqb (event_type ev) RoomRedaction then
            check_room_redaction ev current rules sender_level
          else Ret tt.

End event_auth.
