(* ===== verification/Sample.v ===== *)
(** * A concrete instance of [External] and a small room

    The witnesses of the theorems on authorization and state resolution
    evaluate the model on this room.  The deserializers read the JSON value
    itself; a signature is the first bytes of the key and the text. *)

From S2P Require Import Prelude Identifiers RoomVersionRules CanonicalJson Signatures Events.

Definition obj_of (v : Value) : result string JsonObject :=
  match v with Obj o => Ok o | _ => Err "not an object" end.

(** A field of the object, read with [f]; [None] when it is absent. *)
Definition opt_field {A} (k : string) (f : Value → result string A) (v : Value)
    : result string (option A) :=
  let? o := obj_of v in
  match obj_get k o with
  | None => Ok None
  | Some x => let? a := f x in Ok (Some a)
  end.

Definition req_field {A} (k : string) (f : Value → result string A) (v : Value)
    : result string A :=
  let? o := opt_field k f v in
  match o with Some a => Ok a | None => Err "missing field" end.

Definition as_string (v : Value) : result string string :=
  match v with Str s => Ok s | _ => Err "not a string" end.

Definition as_bool (v : Value) : result string bool :=
  match v with Bool b => Ok b | _ => Err "not a boolean" end.

(** [Int] holds the integers of 53 bits and a sign. *)
Definition as_int (z : Z) : result string Z :=
  if (-9007199254740991 <=? z)%Z && (z <=? 9007199254740991)%Z then Ok z
  else Err "out of range".

Definition value_int (v : Value) : result string Z :=
  match v with
  | Num (PosInt n) => as_int n
  | Num (NegInt z) => as_int z
  | _ => Err "not an integer"
  end.

Fixpoint all_ok {A B} (f : A → result string B) (l : list A) : result string (list B) :=
  match l with
  | [] => Ok []
  | a :: l => let? b := f a in let? bs := all_ok f l in Ok (b :: bs)
  end.

Definition as_array {A} (f : Value → result string A) (v : Value) : result string (list A) :=
  match v with Arr l => all_ok f l | _ => Err "not an array" end.

Definition as_membership (v : Value) : result string MembershipState :=
  let? s := as_string v in
  Ok (if String.eqb s "ban" then Ban
      else if String.eqb s "invite" then Invite
      else if String.eqb s "join" then Join
      else if String.eqb s "knock" then Knock
      else if String.eqb s "leave" then Leave
      else CustomMembership s).

Definition as_join_rule (v : Value) : result string JoinRuleKind :=
  let? s := as_string v in
  Ok (if String.eqb s "invite" then JoinInvite
      else if String.eqb s "knock" then JoinKnock
      else if String.eqb s "private" then JoinPrivate
      else if String.eqb s "restricted" then JoinRestricted
      else if String.eqb s "knock_restricted" then JoinKnockRestricted
      else if String.eqb s "public" then JoinPublic
      else CustomJoinRule s).

(** The canonical form of a value; a float has none. *)
Fixpoint canonical (v : Value) : CanonicalJson :=
  match v with
  | Null => CNull
  | Bool b => CBool b
  | Num (PosInt n) => CInteger n
  | Num (NegInt z) => CInteger z
  | Num (Float _) => CNull
  | Str s => CString s
  | Arr l => CArray (map canonical l)
  | Obj kvs => CObject (map (λ kv, (kv.1, canonical kv.2)) kvs)
  end.

Definition as_signed (v : Value) : result string CanonicalJsonObject :=
  let? s := req_field "signed" Ok v in
  match canonical s with CObject o => Ok o | _ => Err "not an object" end.

Definition as_user (v : Value) : result string string :=
  let? s := as_string v in
  match user_id_validate s with Ret _ => Ok s | _ => Err "not a user ID" end.

Fixpoint map_entries (de_key : string → result string string) (kvs : JsonObject)
    : result string (gmap string Z) :=
  match kvs with
  | [] => Ok ∅
  | (k, v) :: kvs =>
      let? k := de_key k in
      let? i := value_int v in
      let? m := map_entries de_key kvs in
      Ok (<[k := i]> m)
  end.

Definition value_int_map (de_key : string → result string string) (v : Value)
    : result string (gmap string Z) :=
  let? o := obj_of v in map_entries de_key o.

(** A decimal number with an optional sign. *)
Definition sample_parse_uint (s : string) : result string Z :=
  match s with
  | EmptyString => Err "empty"
  | _ => match parse_digits 0 s with Some z => as_int z | None => Err "not a digit" end
  end.

Definition sample_parse_int (s : string) : result string Z :=
  match s with
  | String "-" s' => let? z := sample_parse_uint s' in Ok (- z)%Z
  | _ => sample_parse_uint s
  end.

(** Quoted text, and the printer of canonical JSON (without escapes). *)
Definition quoted (s : string) : string := String "034" (s +:+ String "034" EmptyString).

Fixpoint print_json (v : CanonicalJson) : string :=
  match v with
  | CNull => "null"
  | CBool b => if b then "true" else "false"
  | CInteger z => pretty z
  | CString s => quoted s
  | CArray l => "[" +:+ String.concat "," (map print_json l) +:+ "]"
  | CObject kvs =>
      "{" +:+ String.concat "," (map (λ kv, quoted kv.1 +:+ ":" +:+ print_json kv.2) kvs) +:+ "}"
  end.

Definition sample_text : JsonText := {|
  to_json_string o := Ok (print_json (CObject o));
  debug_json := print_json
|}.

(** The first [n] bytes of a text, filled up with spaces. *)
Fixpoint pad (n : nat) (s : string) : string :=
  match n, s with
  | 0, _ => EmptyString
  | S n, EmptyString => String " " (pad n EmptyString)
  | S n, String c s => String c (pad n s)
  end.

Definition sample_crypto : Crypto := {|
  sha256 := pad 32;
  base64_encode s := s;
  base64_url_encode s := s;
  base64_parse s := Some s;
  SigningKey := string;
  ed25519_sign k m := pad 64 (k +:+ m);
  ed25519_public_key k := k;
  ed25519_is_key _ := true;
  ed25519_verify pk sig m := String.eqb sig (pad 64 (pk +:+ m))
|}.

Lemma length_pad n s : String.length (pad n s) = n.
Proof. revert s. induction n as [|n IH]; intros [|c s]; simpl; auto. Qed.

Lemma sample_crypto_laws : @CryptoLaws sample_crypto.
Proof.
  split.
  - done.
  - intros k m. exact (length_pad 64 (k +:+ m)).
  - done.
  - intros k m. exact (String.eqb_refl (pad 64 (k +:+ m))).
Qed.

Definition sample_external : External Value := {|
  de_federate := opt_field "m.federate" as_bool;
  de_creator := req_field "creator" as_user;
  de_creator_present := opt_field "creator" (λ _, Ok tt);
  de_additional_creators v :=
    let? l := opt_field "additional_creators" (as_array as_user) v in
    Ok (list_to_set (default [] l));
  de_membership := req_field "membership" as_membership;
  de_join_authorised := opt_field "join_authorised_via_users_server" as_user;
  de_third_party_invite := opt_field "third_party_invite" as_signed;
  de_join_rule := req_field "join_rule" as_join_rule;
  de_public_keys v :=
    let? k := opt_field "public_key" as_string v in
    let? ks := opt_field "public_keys" (as_array (req_field "public_key" as_string)) v in
    Ok (k, default [] ks);
  de_object := obj_of;
  value_to_int := value_int;
  value_to_int_map := value_int_map;
  invalid_type _ expected := "invalid type, expected " +:+ expected;
  int_try_from := as_int;
  parse_int := sample_parse_int;
  parse_uint := sample_parse_uint;
  public_key_decode s := Some s;
  external_text := sample_text;
  external_crypto := sample_crypto
|}.

#[local] Existing Instance sample_external.

Abbreviation SampleEvent := (Pdu Value).

(** An event of the sample room. *)
Definition mk_event (id snd ty : string) (sk : option string) (ts : Z) (c : JsonObject)
    (prev auth : list string) : SampleEvent := {|
  event_id := id;
  room_id := Some "!r:a.org";
  sender := snd;
  origin_server_ts := ts;
  event_type := ty;
  content := Obj c;
  state_key := sk;
  prev_events := prev;
  auth_events := auth;
  redacts := None;
  rejected := false
|}.

Definition alice : string := "@alice:a.org".
Definition bob : string := "@bob:b.org".
Definition carol : string := "@carol:c.org".

Definition ev_create : SampleEvent :=
  mk_event "$create" alice RoomCreate (Some EmptyString) 1
    [("creator", Str alice); ("room_version", Str "10")] [] [].

Definition ev_alice : SampleEvent :=
  mk_event "$alice" alice RoomMember (Some alice) 2
    [("membership", Str "join")] ["$create"] ["$create"].

Definition ev_levels : SampleEvent :=
  mk_event "$levels" alice RoomPowerLevels (Some EmptyString) 3
    [("users", Obj [(alice, Num (PosInt 100)); (bob, Num (PosInt 50))])]
    ["$alice"] ["$create"; "$alice"].

Definition ev_rules : SampleEvent :=
  mk_event "$rules" alice RoomJoinRules (Some EmptyString) 4
    [("join_rule", Str "public")] ["$levels"] ["$create"; "$alice"; "$levels"].

Definition ev_bob : SampleEvent :=
  mk_event "$bob" bob RoomMember (Some bob) 5
    [("membership", Str "join")] ["$rules"] ["$create"; "$levels"; "$rules"].

Definition ev_carol : SampleEvent :=
  mk_event "$carol" carol RoomMember (Some carol) 6
    [("membership", Str "join")] ["$bob"] ["$create"; "$levels"; "$rules"].

(** Bob bans Carol, and Alice renames the room twice on two forks. *)
Definition ev_ban : SampleEvent :=
  mk_event "$ban" bob RoomMember (Some carol) 7
    [("membership", Str "ban")] ["$carol"] ["$create"; "$levels"; "$bob"; "$carol"].

Definition ev_name1 : SampleEvent :=
  mk_event "$name1" alice "m.room.name" (Some EmptyString) 8
    [("name", Str "one")] ["$carol"] ["$create"; "$levels"; "$alice"].

Definition ev_name2 : SampleEvent :=
  mk_event "$name2" alice "m.room.name" (Some EmptyString) 9
    [("name", Str "two")] ["$carol"] ["$create"; "$levels"; "$alice"].

(** Bob raises Carol to a moderator. *)
Definition ev_levels2 : SampleEvent :=
  mk_event "$levels2" bob RoomPowerLevels (Some EmptyString) 10
    [("users", Obj [(alice, Num (PosInt 100)); (bob, Num (PosInt 50)); (carol, Num (PosInt 25))])]
    ["$carol"] ["$create"; "$levels"; "$bob"].

Definition sample_events : list SampleEvent :=
  [ev_create; ev_alice; ev_levels; ev_rules; ev_bob; ev_carol; ev_ban; ev_name1; ev_name2;
   ev_levels2].

(** The event store of the sample room. *)
Fixpoint find_event (l : list SampleEvent) (id : string) : option SampleEvent :=
  match l with
  | [] => None
  | ev :: l => if String.eqb id (event_id ev) then Some ev else find_event l id
  end.

Definition sample_fetch : string → option SampleEvent := find_event sample_events.

Lemma find_event_Some l id ev : find_event l id = Some ev → ev ∈ l ∧ event_id ev = id.
Proof.
  induction l as [|x l IH]; simpl; [done|]. destruct (String.eqb_spec id (event_id x)) as [->|].
  - intros [= ->]. split; [constructor|done].
  - intros [? ?]%IH. split; [by constructor|done].
Qed.

(** The number of events before the event of an id. *)
Fixpoint event_index (l : list SampleEvent) (id : string) : nat :=
  match l with
  | [] => 0
  | ev :: l => if String.eqb id (event_id ev) then 0 else S (event_index l id)
  end.

Definition sample_rank : string → nat := event_index sample_events.

(** The state of a list of events. *)
Fixpoint find_state (l : list SampleEvent) (ty sk : string) : option SampleEvent :=
  match l with
  | [] => None
  | ev :: l =>
      if String.eqb ty (event_type ev) && bool_decide (state_key ev = Some sk)
      then Some ev else find_state l ty sk
  end.

Definition sample_state : string → string → option SampleEvent :=
  find_state [ev_create; ev_alice; ev_levels; ev_rules; ev_bob; ev_carol].
