(* ===== verification/AuthReads.v ===== *)
(** * What the authorization rules read

    The auth events selection against the state-dependent rules: the rules read
    the room state at the selected keys only. *)

From S2P Require Import Prelude Identifiers RoomVersionRules CanonicalJson Signatures Events EventAuth Sample.

Section auth_types.
Context {RawJson} `{!External RawJson}.

Lemma elem_of_push_new (k k' : string * string) l :
  k ∈ push_new k' l ↔ k = k' ∨ k ∈ l.
Proof.
  unfold push_new. case_bool_decide.
  - split; [by right|]. by intros [->|].
  - rewrite elem_of_app, list_elem_of_singleton. tauto.
Qed.

(** Closes a membership goal in a list built with [push_new]. *)
Ltac solve_key :=
  repeat (rewrite elem_of_push_new || rewrite elem_of_app || rewrite elem_of_cons);
  first
    [ solve [auto 12]
    | match goal with |- context [match ?a with _ => _ end] => destruct a end; solve_key ].

(** The keys every selection for an event other than a create event holds. *)
Lemma event_auth_types_base ev rules keys :
  event_auth_types ev rules = Ret keys →
  String.eqb (event_type ev) RoomCreate = false →
  (RoomPowerLevels, EmptyString) ∈ keys ∧ (RoomMember, sender ev) ∈ keys.
Proof.
  unfold event_auth_types, auth_types_for_event. intros Hk Hty. rewrite Hty in Hk.
  inv_matches; split; solve_key.
Qed.

(** The keys a membership event adds. *)
Lemma event_auth_types_member ev rules keys target ms :
  event_auth_types ev rules = Ret keys →
  event_type ev = RoomMember → state_key ev = Some target → membership ev = Ret ms →
  (RoomMember, target) ∈ keys ∧
  ((ms = Join ∨ ms = Invite ∨ ms = Knock) → (RoomJoinRules, EmptyString) ∈ keys) ∧
  (ms = Invite → ∀ signed token, third_party_invite (content ev) = Ret (Some signed) →
     tpi_token signed = Ret token → (RoomThirdPartyInvite, token) ∈ keys) ∧
  (ms = Join → restricted_join_rule rules = true → ∀ via,
     join_authorised_via_users_server (content ev) = Ret (Some via) → (RoomMember, via) ∈ keys).
Proof.
  unfold event_auth_types, auth_types_for_event, membership.
  intros Hk Hty Hsk Hms. rewrite Hty, Hsk, Hms in Hk. simpl in Hk.
  destruct ms; simpl in Hk;
    repeat case_bool_decide; simplify_eq/=; inv_matches;
    (split_and!; [solve_key|intros [?|[?|?]]; (done || solve_key)
                 |intros ? signed token Ht Htok; (done || (simplify_eq/=; same_result; solve_key))
                 |intros ? Hr via Hvia; (done || (simplify_eq/=; same_result; solve_key))]).
Qed.

End auth_types.

(** ** What the state-dependent rules read *)

Section reads.
Context {RawJson} `{!External RawJson} (f1 f2 : string → string → option (Pdu RawJson)).

Lemma user_membership_ext u :
  f1 RoomMember u = f2 RoomMember u → user_membership f1 u = user_membership f2 u.
Proof. unfold user_membership. by intros ->. Qed.

Lemma power_levels_ext :
  f1 RoomPowerLevels EmptyString = f2 RoomPowerLevels EmptyString →
  room_power_levels_event f1 = room_power_levels_event f2.
Proof. done. Qed.

Lemma state_join_rule_ext :
  f1 RoomJoinRules EmptyString = f2 RoomJoinRules EmptyString →
  state_join_rule f1 = state_join_rule f2.
Proof. unfold state_join_rule. by intros ->. Qed.

Lemma check_room_member_join_ext ev target rules create_ev :
  wf_rules rules →
  f1 RoomMember target = f2 RoomMember target →
  f1 RoomPowerLevels EmptyString = f2 RoomPowerLevels EmptyString →
  f1 RoomJoinRules EmptyString = f2 RoomJoinRules EmptyString →
  (restricted_join_rule rules = true → ∀ via,
     join_authorised_via_users_server (content ev) = Ret (Some via) →
     f1 RoomMember via = f2 RoomMember via) →
  check_room_member_join f1 ev target rules create_ev
  = check_room_member_join f2 ev target rules create_ev.
Proof.
  intros Hwf Ht Hpl Hjr Hvia. unfold check_room_member_join.
  rewrite (user_membership_ext target Ht), (state_join_rule_ext Hjr), (power_levels_ext Hpl).
  destruct (creator create_ev rules); [|done..].
  destruct (creators create_ev rules); [|done..].
  case_match; [done|]. case_match; [done|].
  destruct (user_membership f2 target) as [cm| | |]; [|done..].
  case_match; [done|].
  destruct (state_join_rule f2) as [jr| | |]; [|done..].
  case_match; [done|].
  destruct (restricted_join_rule rules && bool_decide (jr = JoinRestricted)
            || knock_restricted_join_rule rules && bool_decide (jr = JoinKnockRestricted))
    eqn:Hres; [|done].
  destruct (match cm with Invite | Join => true | _ => false end); [done|].
  destruct (join_authorised_via_users_server (content ev)) as [[via|]| | |]; try done.
  rewrite (user_membership_ext via); [done|]. apply Hvia; [|done].
  apply orb_true_iff in Hres as [Hres|Hres]; to_prop; auto.
Qed.

Lemma check_room_member_invite_ext ev target rules create_ev :
  f1 RoomMember target = f2 RoomMember target →
  f1 RoomMember (sender ev) = f2 RoomMember (sender ev) →
  f1 RoomPowerLevels EmptyString = f2 RoomPowerLevels EmptyString →
  (∀ signed token, third_party_invite (content ev) = Ret (Some signed) →
     tpi_token signed = Ret token →
     f1 RoomThirdPartyInvite token = f2 RoomThirdPartyInvite token) →
  check_room_member_invite f1 ev target rules create_ev
  = check_room_member_invite f2 ev target rules create_ev.
Proof.
  intros Ht Hs Hpl Htpi. unfold check_room_member_invite, check_third_party_invite.
  rewrite (user_membership_ext target Ht), (user_membership_ext _ Hs), (power_levels_ext Hpl).
  destruct (third_party_invite (content ev)) as [[signed|]| | |]; try done.
  destruct (user_membership f2 target); [|done..]. case_match; [done|].
  destruct (tpi_token signed) as [token| | |] eqn:Htok; [|done..].
  unfold room_third_party_invite_event. by rewrite (Htpi signed token).
Qed.

Lemma check_room_member_leave_ext ev target rules create_ev :
  f1 RoomMember target = f2 RoomMember target →
  f1 RoomMember (sender ev) = f2 RoomMember (sender ev) →
  f1 RoomPowerLevels EmptyString = f2 RoomPowerLevels EmptyString →
  check_room_member_leave f1 ev target rules create_ev
  = check_room_member_leave f2 ev target rules create_ev.
Proof.
  intros Ht Hs Hpl. unfold check_room_member_leave.
  by rewrite (user_membership_ext target Ht), (user_membership_ext _ Hs), (power_levels_ext Hpl).
Qed.

Lemma check_room_member_ban_ext ev target rules create_ev :
  f1 RoomMember (sender ev) = f2 RoomMember (sender ev) →
  f1 RoomPowerLevels EmptyString = f2 RoomPowerLevels EmptyString →
  check_room_member_ban f1 ev target rules create_ev
  = check_room_member_ban f2 ev target rules create_ev.
Proof.
  intros Hs Hpl. unfold check_room_member_ban.
  by rewrite (user_membership_ext _ Hs), (power_levels_ext Hpl).
Qed.

Lemma check_room_member_knock_ext ev target rules :
  f1 RoomMember (sender ev) = f2 RoomMember (sender ev) →
  f1 RoomJoinRules EmptyString = f2 RoomJoinRules EmptyString →
  check_room_member_knock f1 ev target rules = check_room_member_knock f2 ev target rules.
Proof.
  intros Hs Hjr. unfold check_room_member_knock.
  by rewrite (user_membership_ext _ Hs), (state_join_rule_ext Hjr).
Qed.

End reads.

(** The keys at which a check may read the state: the selected auth types and
    the create event. *)
Definition reads_at (keys : list (string * string)) (k : string * string) : Prop :=
  k ∈ keys ∨ k = (RoomCreate, EmptyString).

Section reads_member.
Context {RawJson} `{!External RawJson}.

Lemma check_room_member_ext f1 f2 ev rules create_ev keys :
  wf_rules rules →
  event_type ev = RoomMember →
  event_auth_types ev rules = Ret keys →
  (∀ ty sk, reads_at keys (ty, sk) → f1 ty sk = f2 ty sk) →
  check_room_member f1 ev rules create_ev = check_room_member f2 ev rules create_ev.
Proof.
  intros Hwf Hty Hkeys Hext. unfold check_room_member.
  destruct (state_key ev) as [target|] eqn:Hsk; [|done].
  destruct (user_id_validate target); [|done..].
  destruct (membership ev) as [ms| | |] eqn:Hms; [|done..].
  pose proof (event_auth_types_base ev rules keys Hkeys) as Hbase.
  rewrite Hty in Hbase. destruct (Hbase eq_refl) as [Hpl Hs].
  destruct (event_auth_types_member ev rules keys target ms) as (Ht & Hjr & Htpi & Hvia); auto.
  destruct ms; [..|done].
  - apply check_room_member_ban_ext; apply Hext; by left.
  - apply check_room_member_invite_ext; try (apply Hext; by left).
    intros signed token ??. apply Hext. left. eauto.
  - apply check_room_member_join_ext; try done; try (apply Hext; left; auto).
    intros ? via ?. apply Hext. left. auto.
  - case_match; [|done].
    apply check_room_member_knock_ext; apply Hext; left; auto.
  - apply check_room_member_leave_ext; apply Hext; by left.
Qed.

End reads_member.

(** The auth events selection is complete: the state-dependent check of an
    event reads the room state only at the keys [auth_types_for_event] selects
    for it and at the create event, so two states that agree there give the same
    verdict, message included. *)
Theorem check_reads_only_auth_types {RawJson} `{!External RawJson} rules (ev : Pdu RawJson)
    keys f1 f2 :
  wf_rules rules →
  event_auth_types ev rules = Ret keys →
  (∀ ty sk, reads_at keys (ty, sk) → f1 ty sk = f2 ty sk) →
  check_state_dependent_auth_rules rules ev f1 = check_state_dependent_auth_rules rules ev f2.
Proof.
  intros Hwf Hkeys Hext. unfold check_state_dependent_auth_rules.
  destruct (String.eqb (event_type ev) RoomCreate) eqn:Hcr; [done|].
  destruct (event_auth_types_base _ _ _ Hkeys Hcr) as [Hpl Hs].
  unfold room_create_event. rewrite (Hext RoomCreate EmptyString) by (by right).
  destruct (f2 RoomCreate EmptyString) as [create_ev|]; [|done].
  destruct (federate create_ev); [|done..].
  case_match; [done|]. destruct (special_case_room_aliases rules && _); [done|].
  destruct (String.eqb (event_type ev) RoomMember) eqn:Hm.
  - apply String.eqb_eq in Hm. by eapply check_room_member_ext.
  - rewrite (user_membership_ext f1 f2 (sender ev)) by (apply Hext; by left).
    by rewrite (power_levels_ext f1 f2) by (apply Hext; by left).
Qed.

#[local] Existing Instance sample_external.

(** The check of Carol's ban against the room state, and against that state
    without the join rules, which a ban does not select. *)
Lemma check_reads_only_auth_types_witness :
  check_state_dependent_auth_rules AuthV10 ev_ban sample_state
  = check_state_dependent_auth_rules AuthV10 ev_ban
      (find_state [ev_create; ev_alice; ev_levels; ev_bob; ev_carol]).
Proof.
  apply (check_reads_only_auth_types AuthV10 ev_ban
           [(RoomPowerLevels, EmptyString); (RoomMember, bob); (RoomCreate, EmptyString);
            (RoomMember, carol)]).
  - done.
  - vm_compute. reflexivity.
  - intros ty sk [Hin|[= -> ->]]; [|vm_compute; reflexivity].
    rewrite !elem_of_cons, elem_of_nil in Hin.
    destruct Hin as [[= -> ->]|[[= -> ->]|[[= -> ->]|[[= -> ->]|[]]]]]; vm_compute; reflexivity.
Defined.
