(* ===== verification/AuthLevels.v ===== *)
(** * Power levels in the authorization rules

    The order of user power levels, and what a [m.room.power_levels] event may
    change: theorems on [check_power_level_maps] and [check_room_power_levels]. *)

From S2P Require Import Prelude Identifiers RoomVersionRules CanonicalJson Signatures Events EventAuth Sample.

(** ** Power levels as an order *)

Definition level_le (a b : UserPowerLevel) : Prop :=
  match a, b with
  | _, Infinite => True
  | Infinite, Int _ => False
  | Int i, Int j => (i ≤ j)%Z
  end.

Definition level_lt (a b : UserPowerLevel) : Prop := ¬ level_le b a.

#[export] Instance level_le_dec : RelDecision level_le.
Proof. intros [|i] [|j]; simpl; apply _. Defined.

#[export] Instance level_le_total_order : TotalOrder level_le.
Proof.
  split; [split; [split|]|].
  - intros [|i]; simpl; lia.
  - intros [|i] [|j] [|k]; simpl; try done; lia.
  - intros [|i] [|j]; simpl; try done. intros. f_equal. lia.
  - intros [|i] [|j].
    + right; left. done.
    + right; right. split; simpl; tauto.
    + left. split; simpl; tauto.
    + destruct (Z.lt_trichotomy i j) as [?|[->|?]]; [left|right; left|right; right];
        try done; split; simpl; lia.
Qed.

Lemma upl_lt_spec a b : upl_lt a b = true ↔ level_lt a b.
Proof.
  unfold level_lt. destruct a as [|i], b as [|j]; unfold upl_lt; simpl; try (split; intros; (done || tauto)).
  destruct (Z.compare_spec i j); simpl; split; intros; (done || lia).
Qed.

Lemma upl_lt_int_spec a j : upl_lt_int a j = true ↔ level_lt a (Int j).
Proof.
  unfold level_lt. destruct a as [|i]; unfold upl_lt_int; simpl; [split; intros; (done || tauto)|].
  destruct (Z.compare_spec i j); simpl; split; intros; (done || lia).
Qed.

Lemma upl_ge_int_spec a j : upl_ge_int a j = true ↔ level_le (Int j) a.
Proof.
  destruct a as [|i]; unfold upl_ge_int; simpl; [done|].
  destruct (Z.compare_spec i j); simpl; split; intros; (done || lia).
Qed.

Lemma int_gt_upl_spec i b : int_gt_upl i b = true ↔ level_lt b (Int i).
Proof.
  unfold level_lt. destruct b as [|j]; unfold int_gt_upl; simpl; [split; intros; (done || tauto)|].
  destruct (Z.compare_spec i j); simpl; split; intros; (done || lia).
Qed.

Lemma int_ge_upl_spec i b : int_ge_upl i b = true ↔ level_le b (Int i).
Proof.
  destruct b as [|j]; unfold int_ge_upl; simpl; [done|].
  destruct (Z.compare_spec i j); simpl; split; intros; (done || lia).
Qed.

(** ** Changes to a map of levels *)

Section maps.
Context (current new : option (gmap string Z)) (sl : UserPowerLevel)
  (reject : string → Z → bool) (err : string → string).

(** What [check_power_level_maps] asks of one key. *)
Definition entry_ok (k : string) : Prop :=
  (current ≫= lookup k) = (new ≫= lookup k) ∨
  ((∀ z, (current ≫= lookup k) = Some z → reject k z = false) ∧
   (∀ z, (new ≫= lookup k) = Some z → level_le (Int z) sl)).

Lemma check_level_keys_iff keys :
  check_level_keys current new sl reject err keys = Ret tt ↔ ∀ k, k ∈ keys → entry_ok k.
Proof.
  induction keys as [|k keys IH]; simpl; [by split; [set_solver|]|].
  setoid_rewrite elem_of_cons.
  case_bool_decide as Heq.
  { rewrite IH. split; [|by auto]. intros Hall k' [->|]; [by left|auto]. }
  destruct (match current ≫= lookup k with Some pl => reject k pl | None => false end) eqn:Hrej;
    simpl; [|destruct (match new ≫= lookup k with Some pl => int_gt_upl pl sl | None => false end)
               eqn:Hbig].
  - split; [done|]. intros Hall. destruct (Hall k) as [|[Hc _]]; [by left|done|].
    destruct (current ≫= lookup k); [|done]. by rewrite Hc in Hrej.
  - split; [done|]. intros Hall. destruct (Hall k) as [|[_ Hn]]; [by left|done|].
    destruct (new ≫= lookup k); [|done]. apply int_gt_upl_spec in Hbig.
    destruct Hbig. auto.
  - rewrite IH. split; [|by auto]. intros Hall k' [->|]; [|auto]. right. split.
    + intros z Hz. by rewrite Hz in Hrej.
    + intros z Hz. rewrite Hz in Hbig. destruct (decide (level_le (Int z) sl)); [done|].
      by apply not_true_iff_false in Hbig as []; apply int_gt_upl_spec.
Qed.

Lemma check_power_level_maps_iff :
  check_power_level_maps current new sl reject err = Ret tt ↔ ∀ k, entry_ok k.
Proof.
  unfold check_power_level_maps, btree_elements. rewrite check_level_keys_iff.
  split; [|by auto]. intros Hall k.
  destruct (decide (k ∈ opt_keys current ∪ opt_keys new)) as [Hin|Hout].
  - apply Hall. by rewrite merge_sort_Permutation, elem_of_elements.
  - left. apply not_elem_of_union in Hout as [Hc Hn].
    assert (∀ m : option (gmap string Z), k ∉ opt_keys m → m ≫= lookup k = None) as Hnone.
    { intros [m|]; simpl; [|done]. apply not_elem_of_dom. }
    by rewrite !Hnone.
Qed.

End maps.

Section power_levels.
Context {RawJson} `{!External RawJson} (rules : AuthorizationRules).
Implicit Types (ev cur : Pdu RawJson) (sl : UserPowerLevel).

(** An integer field of the new content against the current one: unchanged, or
    both values within the sender's level. *)
Definition field_ok (sl : UserPowerLevel) (f : IntField) (cur new : option Z) : Prop :=
  cur = new ∨ (level_le (Int (default (default_value f) cur)) sl ∧
               level_le (Int (default (default_value f) new)) sl).

Lemma not_int_gt_upl z sl : int_gt_upl z sl = false ↔ level_le (Int z) sl.
Proof.
  rewrite <- not_true_iff_false, int_gt_upl_spec. unfold level_lt.
  split; [apply dec_stable|tauto].
Qed.

Lemma check_int_fields_iff cur new_fields sl fields :
  check_int_fields cur new_fields rules sl fields = Ret tt ↔
  ∀ f, f ∈ fields → ∃ c, get_as_int cur f rules = Ret c ∧ field_ok sl f c (field_get f new_fields).
Proof.
  induction fields as [|f fields IH]; simpl; [by split; [set_solver|]|].
  setoid_rewrite elem_of_cons.
  destruct (get_as_int cur f rules) as [c|e| |] eqn:Hc;
    [|by split; [done|intros Hall; destruct (Hall f) as (? & ? & _); [by left|congruence]]..].
  assert ((field_ok sl f c (field_get f new_fields) ∧
           check_int_fields cur new_fields rules sl fields = Ret tt) ↔
          (∀ g, g = f ∨ g ∈ fields → ∃ c, get_as_int cur g rules = Ret c
             ∧ field_ok sl g c (field_get g new_fields))) as <-.
  { rewrite IH. split.
    - intros [Hf Hall] g [->|]; eauto.
    - intros Hall. split; [|auto]. destruct (Hall f) as (c' & Hc' & ?); [by left|].
      by assert (c' = c) as -> by congruence. }
  unfold field_ok. case_bool_decide as Heq; [tauto|].
  destruct (int_gt_upl (default (default_value f) c) sl) eqn:H1; simpl.
  { split; [done|]. apply int_gt_upl_spec in H1. unfold level_lt in H1. tauto. }
  destruct (int_gt_upl (default (default_value f) (field_get f new_fields)) sl) eqn:H2.
  { split; [done|]. apply int_gt_upl_spec in H2. unfold level_lt in H2. tauto. }
  apply not_int_gt_upl in H1, H2. tauto.
Qed.

(** [int_fields_map] holds what [get_as_int] reads. *)
Lemma int_fields_list_get ev fields l :
  NoDup fields → int_fields_list ev fields rules = Ret l →
  (∀ f, f ∈ fields → get_as_int ev f rules = Ret (field_get f l)) ∧
  (∀ f, f ∉ fields → field_get f l = None).
Proof.
  revert l. induction fields as [|f fields IH]; simpl; intros l Hnd Hl.
  { simplify_eq. set_solver. }
  apply NoDup_cons in Hnd as [Hf Hnd]. inv_bind Hl.
  simplify_eq. destruct (IH _ Hnd ltac:(eassumption)) as [Hin Hout].
  rename select (get_as_int _ _ _ = Ret _) into Hget. split.
  - intros g [->|Hg]%elem_of_cons.
    + rewrite Hget. case_match; simpl; [by case_bool_decide|]. by rewrite Hout.
    + rewrite (Hin g Hg). case_match; simpl; [|done]. case_bool_decide; [set_solver|done].
  - intros g [Hg Hg']%not_elem_of_cons. case_match; simpl; [|auto].
    case_bool_decide; [done|auto].
Qed.

Lemma elem_of_ALL f : f ∈ ALL.
Proof. destruct f; unfold ALL; set_solver. Qed.

Lemma int_fields_map_get ev l f :
  int_fields_map ev rules = Ret l → get_as_int ev f rules = Ret (field_get f l).
Proof.
  intros Hl. eapply int_fields_list_get in Hl as [Hin _]; [apply Hin, elem_of_ALL|].
  unfold ALL. by repeat constructor; set_solver.
Qed.

(** What a [m.room.power_levels] event [ev] may change of the current one [cur],
    for a sender of level [sl]. *)
Record levels_change_ok (ev cur : Pdu RawJson) (sl : UserPowerLevel) : Prop := {
  lc_fields : ∀ f, ∃ c n, get_as_int cur f rules = Ret c ∧ get_as_int ev f rules = Ret n
    ∧ field_ok sl f c n;
  lc_events : ∃ c n, pl_events cur rules = Ret c ∧ pl_events ev rules = Ret n ∧
    ∀ ty, entry_ok c n sl (λ _ pl, int_gt_upl pl sl) ty;
  lc_notifications : ∃ n, pl_notifications ev rules = Ret n ∧
    (limit_notifications_power_levels rules = true →
     ∃ c, pl_notifications cur rules = Ret c ∧
       ∀ k, entry_ok c n sl (λ _ pl, int_gt_upl pl sl) k);
  lc_users : ∃ c n, pl_users cur rules = Ret c ∧ pl_users ev rules = Ret n ∧
    ∀ u, entry_ok c n sl
           (λ u pl, negb (String.eqb u (sender ev)) && int_ge_upl pl sl) u
}.

Lemma int_fields_map_total ev :
  (∀ f, ∃ n, get_as_int ev f rules = Ret n) → ∃ l, int_fields_map ev rules = Ret l.
Proof.
  intros Hget. unfold int_fields_map. induction ALL as [|f fields [l IH]]; simpl; [eauto|].
  destruct (Hget f) as [n ->]. rewrite IH. eauto.
Qed.

Lemma check_room_power_levels_ok ev cur sl cs :
  check_room_power_levels ev (Some cur) rules sl cs = Ret tt ↔
  levels_change_ok ev cur sl ∧
  (explicitly_privilege_room_creators rules = true →
   ∀ n, pl_users ev rules = Ret n → cs ## opt_keys n).
Proof.
  unfold check_room_power_levels. split.
  - intros Hok. inv_bind Hok.
    rename select (int_fields_map _ _ = Ret _) into Hl.
    destruct (explicitly_privilege_room_creators rules && _) eqn:Hpriv; [done|].
    inv_bind Hok. rewrite check_power_level_maps_iff in Hok.
    repeat match goal with u : unit |- _ => destruct u end.
    rename select (check_int_fields _ _ _ _ _ = Ret _) into Hf.
    rename select (check_power_level_maps _ _ _ _ _ = Ret _) into He.
    rename select ((if limit_notifications_power_levels rules then _ else _) = Ret _) into Hn.
    rewrite check_power_level_maps_iff in He. rewrite check_int_fields_iff in Hf.
    split; [split; eauto 10|].
    + intros f. destruct (Hf f (elem_of_ALL f)) as (c & ? & ?).
      eauto 10 using int_fields_map_get.
    + eexists. split; [done|]. intros Hlim. rewrite Hlim in Hn. inv_bind Hn.
      rewrite check_power_level_maps_iff in Hn. eauto.
    + intros Hex n ?. same_result. rewrite Hex in Hpriv. simpl in Hpriv.
      by apply bool_decide_eq_false, dec_stable in Hpriv.
  - intros [[Hf (ce & ne & Hce & Hne & He) (nn & Hnn & Hn) (cu & nu & Hcu & Hnu & Hu)] Hpriv].
    destruct (int_fields_map_total ev) as [l Hl].
    { intros f. destruct (Hf f) as (c & n & _ & ? & _). eauto. }
    assert (check_int_fields cur l rules sl ALL = Ret tt) as Hint.
    { apply check_int_fields_iff. intros f _. destruct (Hf f) as (c & n & ? & Hget & ?).
      rewrite (int_fields_map_get _ _ _ Hl) in Hget. simplify_eq. eauto. }
    rewrite Hl, Hne, Hnn, Hnu, Hint, Hce, Hcu.
    rewrite (proj2 (check_power_level_maps_iff _ _ _ _ _) He).
    rewrite (proj2 (check_power_level_maps_iff _ _ _ _ _) Hu).
    destruct (explicitly_privilege_room_creators rules && _) eqn:Hpriv'.
    { apply andb_true_iff in Hpriv' as [Hex Hd]. apply bool_decide_eq_true in Hd.
      by destruct Hd; apply Hpriv. }
    destruct (limit_notifications_power_levels rules); [|done].
    destruct Hn as (cn & Hcn & Hn); [done|].
    by rewrite Hcn, (proj2 (check_power_level_maps_iff _ _ _ _ _) Hn).
Qed.

(** The sender's domain may send events to the room. *)
Definition federation_ok (cr ev : Pdu RawJson) : Prop :=
  ∃ b, federate cr = Ret b ∧
    (b = true ∨ user_id_server_name (sender cr) = user_id_server_name (sender ev)).

(** The level [req] is the one [ev] needs, and its type's own rules hold. *)
Definition send_ok (current : option (Pdu RawJson)) (ev : Pdu RawJson) (cs : gset string)
    (sl : UserPowerLevel) (req : Z) : Prop :=
  if String.eqb (event_type ev) RoomThirdPartyInvite
  then opt_get_as_int_or_default current InviteLevel rules = Ret req
  else opt_event_power_level current (event_type ev) (state_key ev) rules = Ret req ∧
    (∀ k, state_key ev = Some k → str_starts_with "@" k = true → k = sender ev) ∧
    (event_type ev = RoomPowerLevels → check_room_power_levels ev current rules sl cs = Ret tt) ∧
    (event_type ev = RoomRedaction → special_case_room_redaction rules = true →
     check_room_redaction ev current rules sl = Ret tt).

(** What the rules ask of an event other than [m.room.create], [m.room.member]
    and the special-cased [m.room.aliases]. *)
Record sender_may_send (ev : Pdu RawJson) (fetch : string → string → option (Pdu RawJson))
    (cr : Pdu RawJson) (cs : gset string) (sl : UserPowerLevel) (req : Z) : Prop := {
  sm_create : room_create_event fetch = Ret cr;
  sm_federation : federation_ok cr ev;
  sm_joined : user_membership fetch (sender ev) = Ret Join;
  sm_creators : creators cr rules = Ret cs;
  sm_level : opt_user_power_level (room_power_levels_event fetch) (sender ev) cs rules = Ret sl;
  sm_power : level_le (Int req) sl;
  sm_send : send_ok (room_power_levels_event fetch) ev cs sl req
}.

Lemma not_upl_lt_int sl z : upl_lt_int sl z = false ↔ level_le (Int z) sl.
Proof.
  rewrite <- not_true_iff_false, upl_lt_int_spec. unfold level_lt.
  split; [apply dec_stable|tauto].
Qed.

Lemma user_key_ok ev :
  match state_key ev with Some k => str_starts_with "@" k | None => false end
    && negb (bool_decide (state_key ev = Some (sender ev))) = false ↔
  ∀ k, state_key ev = Some k → str_starts_with "@" k = true → k = sender ev.
Proof.
  destruct (state_key ev) as [k|]; simpl; [|split; [intros _ k [=]|done]].
  rewrite andb_false_iff, negb_false_iff, bool_decide_eq_true. split.
  - intros [Hk|Hk] k' [= <-] ?; [congruence|by injection Hk].
  - intros Hk. destruct (str_starts_with "@" k) eqn:?; [right|by left]. f_equal. by apply Hk.
Qed.

Lemma federation_iff cr ev k :
  (let! federated := federate cr in
   if negb federated && negb (String.eqb (user_id_server_name (sender cr))
                                (user_id_server_name (sender ev)))
   then Throw "room is not federated and event's sender domain does not match `m.room.create` event's sender domain"
   else k) = Ret tt ↔ federation_ok cr ev ∧ k = Ret tt.
Proof.
  unfold federation_ok. rewrite bind_ret. split.
  - intros (b & Hb & Hk). destruct b; simpl in Hk; [naive_solver|].
    destruct (String.eqb_spec (user_id_server_name (sender cr))
                (user_id_server_name (sender ev))); [naive_solver|done].
  - intros [(b & Hb & Hor) Hk]. exists b. split; [done|].
    destruct b; [done|]. destruct Hor as [|Heq]; [done|]. by rewrite Heq, String.eqb_refl.
Qed.

Lemma send_ok_iff current ev cs sl :
  (if String.eqb (event_type ev) RoomThirdPartyInvite then
     let! invite_level := opt_get_as_int_or_default current InviteLevel rules in
     if upl_lt_int sl invite_level
     then Throw "sender does not have enough power to send invites in this room"
     else Ret tt
   else
     let! required := opt_event_power_level current (event_type ev) (state_key ev) rules in
     if upl_lt_int sl required
     then Throw ("sender does not have enough power to send event of type `"
                 +:+ event_type ev +:+ "`")
     else if match state_key ev with Some k => str_starts_with "@" k | None => false end
             && negb (bool_decide (state_key ev = Some (sender ev)))
     then Throw "sender cannot send event with `state_key` matching another user's ID"
     else if String.eqb (event_type ev) RoomPowerLevels then
       check_room_power_levels ev current rules sl cs
     else if special_case_room_redaction rules && String.eqb (event_type ev) RoomRedaction then
       check_room_redaction ev current rules sl
     else Ret tt) = Ret tt ↔
  ∃ req, level_le (Int req) sl ∧ send_ok current ev cs sl req.
Proof.
  unfold send_ok. case (String.eqb (event_type ev) RoomThirdPartyInvite); rewrite bind_ret;
    apply exist_proper; intros req.
  { rewrite <- not_upl_lt_int. destruct (upl_lt_int sl req); naive_solver. }
  rewrite <- not_upl_lt_int. destruct (upl_lt_int sl req); [naive_solver|].
  rewrite <- user_key_ok. destruct (_ && negb _); [naive_solver|].
  destruct (String.eqb_spec (event_type ev) RoomPowerLevels) as [->|Hpl];
    [split; [|naive_solver]; intros [? ?]; split_and!; done|].
  destruct (special_case_room_redaction rules); simpl; [|naive_solver].
  destruct (String.eqb_spec (event_type ev) RoomRedaction); naive_solver.
Qed.

Lemma state_dependent_iff ev fetch :
  event_type ev ≠ RoomCreate → event_type ev ≠ RoomMember →
  (special_case_room_aliases rules = false ∨ event_type ev ≠ RoomAliases) →
  check_state_dependent_auth_rules rules ev fetch = Ret tt ↔
  ∃ cr cs sl req, sender_may_send ev fetch cr cs sl req.
Proof.
  intros Hc Hm Ha. unfold check_state_dependent_auth_rules.
  apply String.eqb_neq in Hc as ->. apply String.eqb_neq in Hm as ->.
  replace (special_case_room_aliases rules && String.eqb (event_type ev) RoomAliases)
    with false by (destruct Ha as [->|?%String.eqb_neq]; [done|by rewrite andb_comm, H]).
  rewrite bind_ret. setoid_rewrite federation_iff. setoid_rewrite bind_ret.
  split.
  - intros (cr & Hcr & Hfed & mem & Hmem & Hk). case_bool_decide as Hj; [|done].
    simpl in Hk. inv_bind Hk. apply send_ok_iff in Hk as (req & ? & ?). subst.
    by exists cr, x, x0, req.
  - intros (cr & cs & sl & req & [Hcr Hfed Hj Hcs Hsl Hpow Hsend]).
    exists cr. split_and!; [done..|]. exists Join. split; [done|]. simpl.
    rewrite Hcs, Hsl. apply send_ok_iff. eauto.
Qed.

(** The rules for every event other than [m.room.create], [m.room.member] and
    the special-cased [m.room.aliases], exactly: the room has a create event, the
    sender's domain may take part, the sender is joined, and their level reaches
    the one the event needs, with the rules of its type. *)
Theorem state_event_accepted_iff ev fetch :
  event_type ev ≠ RoomCreate → event_type ev ≠ RoomMember →
  (special_case_room_aliases rules = false ∨ event_type ev ≠ RoomAliases) →
  check_state_dependent_auth_rules rules ev fetch = Ret tt ↔
  ∃ cr cs sl req, sender_may_send ev fetch cr cs sl req.
Proof. apply state_dependent_iff. Qed.

(** The rules for the content of a [m.room.power_levels] event, exactly: the
    new content is well formed, names no room creator where creators are
    privileged, and differs from the current one only by [levels_change_ok]. *)
Theorem power_levels_event_iff ev current sl cs :
  check_room_power_levels ev current rules sl cs = Ret tt ↔
  (∃ fs es ns us, int_fields_map ev rules = Ret fs ∧ pl_events ev rules = Ret es ∧
     pl_notifications ev rules = Ret ns ∧ pl_users ev rules = Ret us ∧
     (explicitly_privilege_room_creators rules = true → cs ## opt_keys us)) ∧
  (∀ cur, current = Some cur → levels_change_ok ev cur sl).
Proof.
  destruct current as [cur|].
  - rewrite check_room_power_levels_ok. split.
    + intros [Hlc Hpriv]. split; [|by intros ? [= <-]].
      destruct (int_fields_map_total ev) as [l Hl].
      { intros f. destruct (lc_fields _ _ _ Hlc f) as (c & n & _ & ? & _). eauto. }
      destruct Hlc as [_ (? & es & ? & ? & _) (ns & ? & _) (? & us & ? & ? & _)].
      exists l, es, ns, us. eauto 10.
    + intros [(fs & es & ns & us & ? & ? & ? & ? & Hpriv) Hlc].
      split; [by apply Hlc|]. intros ? us' ?. same_result. auto.
  - unfold check_room_power_levels. split.
    + intros Hok. inv_bind Hok. split; [|done].
      do 4 eexists. split_and!; [eassumption..|]. intros Hex. rewrite Hex in Hok.
      simpl in Hok. case_bool_decide as Hd; [done|]. done.
    + intros [(fs & es & ns & us & -> & -> & -> & -> & Hpriv) _].
      destruct (explicitly_privilege_room_creators rules); [|done]. simpl.
      rewrite bool_decide_eq_false_2; [done|]. intros Hd. by apply Hd, Hpriv.
Qed.

End power_levels.

(** ** What an accepted power levels event can do *)

Section accepted.
Context {RawJson} `{!External RawJson} (rules : AuthorizationRules).
Context (ev cur : Pdu RawJson) (fetch : string → string → option (Pdu RawJson)).
Hypothesis Hty : event_type ev = RoomPowerLevels.
Hypothesis Hcur : room_power_levels_event fetch = Some cur.
Hypothesis Hok : check_state_dependent_auth_rules rules ev fetch = Ret tt.

Lemma accepted_levels :
  ∃ cr cs sl req, sender_may_send rules ev fetch cr cs sl req ∧
    levels_change_ok rules ev cur sl.
Proof.
  pose proof Hok as Hok'. apply state_dependent_iff in Hok' as (cr & cs & sl & req & Hs);
    [|by rewrite Hty..|by rewrite Hty; right].
  exists cr, cs, sl, req. split; [done|].
  pose proof (sm_send _ _ _ _ _ _ _ Hs) as Hsend. unfold send_ok in Hsend.
  rewrite Hty, Hcur in Hsend. destruct Hsend as (_ & _ & Hpl & _).
  by apply check_room_power_levels_ok in Hpl; [destruct Hpl|].
Qed.


(** A power levels event cannot touch the entry of another user whose level is
    at least the sender's: an accepted event carries the same entry for them. *)
Theorem accepted_levels_keep_peers u us c cr cs sl :
  room_create_event fetch = Ret cr → creators cr rules = Ret cs →
  opt_user_power_level (Some cur) (sender ev) cs rules = Ret sl →
  pl_users cur rules = Ret us → us ≫= lookup u = Some c →
  u ≠ sender ev → level_le sl (Int c) →
  ∃ us', pl_users ev rules = Ret us' ∧ us' ≫= lookup u = Some c.
Proof using Hty Hcur Hok.
  intros Hcr Hcs Hsl Hus Hc Hne Hle.
  destruct accepted_levels as (cr' & cs' & sl' & req & [] & Hlc).
  rewrite Hcur in *. same_result.
  destruct (lc_users _ _ _ _ Hlc) as (us' & n & Hus' & Hn & Hu). same_result.
  exists n. split; [done|]. specialize (Hu u). unfold entry_ok in Hu. rewrite Hc in Hu.
  destruct Hu as [->|[Hrej _]]; [done|].
  specialize (Hrej _ eq_refl). apply String.eqb_neq in Hne. rewrite Hne in Hrej.
  apply not_true_iff_false in Hrej as []. by apply int_ge_upl_spec.
Qed.

End accepted.

#[local] Existing Instance sample_external.


(** Alice (100) keeps her entry in Bob's event. *)
Lemma accepted_levels_keep_peers_witness :
  ∃ us', pl_users ev_levels2 AuthV10 = Ret us' ∧ us' ≫= lookup alice = Some 100%Z.
Proof.
  apply (accepted_levels_keep_peers AuthV10 ev_levels2 ev_levels sample_state
           eq_refl eq_refl ltac:(by_vm) alice
           (Some (list_to_map [(alice, 100%Z); (bob, 50%Z)])) 100%Z ev_create {[alice]} (Int 50));
    first [by_vm | discriminate | simpl; lia].
Defined.

Lemma state_event_accepted_iff_witness :
  check_state_dependent_auth_rules AuthV10 ev_name1 sample_state = Ret tt ↔
  ∃ cr cs sl req, sender_may_send AuthV10 ev_name1 sample_state cr cs sl req.
Proof.
  apply (state_event_accepted_iff AuthV10 ev_name1 sample_state);
    [discriminate|discriminate|by left].
Defined.
