(* ===== verification/AuthMember.v ===== *)
(** * Membership changes

    The rules for [m.room.member] events as an inductive predicate, one
    constructor per way a change is allowed, and that [check_room_member] accepts
    exactly the events it describes. *)

From S2P Require Import Prelude Identifiers RoomVersionRules CanonicalJson Signatures Events EventAuth Sample AuthLevels.

Section member.
Context {RawJson} `{!External RawJson} (rules : AuthorizationRules).
Context (fetch : string → string → option (Pdu RawJson)).
Implicit Types (ev cr : Pdu RawJson).

(** [u]'s level reaches the one needed for [field]. *)
Definition has_power (cr : Pdu RawJson) (u : string) (field : IntField) : Prop :=
  ∃ cs l z, creators cr rules = Ret cs ∧
    opt_user_power_level (room_power_levels_event fetch) u cs rules = Ret l ∧
    opt_get_as_int_or_default (room_power_levels_event fetch) field rules = Ret z ∧
    level_le (Int z) l.

(** [u]'s level is above [v]'s. *)
Definition outranks (cr : Pdu RawJson) (u v : string) : Prop :=
  ∃ cs l l', creators cr rules = Ret cs ∧
    opt_user_power_level (room_power_levels_event fetch) u cs rules = Ret l ∧
    opt_user_power_level (room_power_levels_event fetch) v cs rules = Ret l' ∧
    level_lt l' l.

Definition invited_or_joined (m : MembershipState) : Prop := m = Invite ∨ m = Join.

(** The join rule lets invited users in. *)
Definition invite_rule (jr : JoinRuleKind) : Prop :=
  jr = JoinInvite ∨ (knocking rules = true ∧ jr = JoinKnock).

(** The join rule is one of the restricted ones of the room version. *)
Definition restricted_rule (jr : JoinRuleKind) : Prop :=
  (restricted_join_rule rules = true ∧ jr = JoinRestricted) ∨
  (knock_restricted_join_rule rules = true ∧ jr = JoinKnockRestricted).

(** A third-party invite for [target] that a key of its event signed. *)
Record third_party_ok (ev : Pdu RawJson) (tpi : CanonicalJsonObject) (target : string)
    : Prop := {
  tp_target : ∃ m, user_membership fetch target = Ret m ∧ m ≠ Ban;
  tp_mxid : tpi_mxid tpi = Ret target;
  tp_event : ∃ token tev keys sigs json, tpi_token tpi = Ret token ∧
    room_third_party_invite_event fetch token = Some tev ∧ sender tev = sender ev ∧
    public_keys tev = Ret keys ∧ tpi_signatures tpi = Ret sigs ∧
    tpi_signed_canonical_json tpi = Ret json ∧
    check_signatures json (btree_elements keys) sigs = Ret true
}.

(** The ways [ev] may change the membership of [target]. *)
Inductive member_allowed (cr ev : Pdu RawJson) (target : string) : MembershipState → Prop :=
| first_join :
    creator cr rules = Ret target → (∃ cs, creators cr rules = Ret cs) →
    prev_events ev = [event_id cr] →
    member_allowed cr ev target Join
| join_by_rule m jr :
    sender ev = target →
    (∃ c cs, creator cr rules = Ret c ∧ creators cr rules = Ret cs) →
    user_membership fetch target = Ret m → m ≠ Ban → state_join_rule fetch = Ret jr →
    (jr = JoinPublic ∨ (invite_rule jr ∨ restricted_rule jr) ∧ invited_or_joined m) →
    member_allowed cr ev target Join
| join_restricted via m jr :
    sender ev = target →
    (∃ c cs, creator cr rules = Ret c ∧ creators cr rules = Ret cs) →
    user_membership fetch target = Ret m → m ≠ Ban → state_join_rule fetch = Ret jr →
    restricted_rule jr →
    join_authorised_via_users_server (content ev) = Ret (Some via) →
    user_membership fetch via = Ret Join → has_power cr via InviteLevel →
    member_allowed cr ev target Join
| invite m :
    third_party_invite (content ev) = Ret None →
    user_membership fetch (sender ev) = Ret Join →
    user_membership fetch target = Ret m → m ≠ Join → m ≠ Ban →
    has_power cr (sender ev) InviteLevel →
    member_allowed cr ev target Invite
| invite_third_party tpi :
    third_party_invite (content ev) = Ret (Some tpi) → third_party_ok ev tpi target →
    member_allowed cr ev target Invite
| leave_self m :
    sender ev = target → user_membership fetch target = Ret m →
    (invited_or_joined m ∨ (knocking rules = true ∧ m = Knock)) →
    member_allowed cr ev target Leave
| kick m :
    sender ev ≠ target → user_membership fetch (sender ev) = Ret Join →
    user_membership fetch target = Ret m →
    (∃ z, opt_get_as_int_or_default (room_power_levels_event fetch) BanLevel rules = Ret z) →
    (m = Ban → has_power cr (sender ev) BanLevel) →
    has_power cr (sender ev) KickLevel → outranks cr (sender ev) target →
    member_allowed cr ev target Leave
| ban :
    user_membership fetch (sender ev) = Ret Join → has_power cr (sender ev) BanLevel →
    outranks cr (sender ev) target →
    member_allowed cr ev target Ban
| knock m jr :
    knocking rules = true → sender ev = target → state_join_rule fetch = Ret jr →
    (jr = JoinKnock ∨ knock_restricted_join_rule rules = true ∧ jr = JoinKnockRestricted) →
    user_membership fetch target = Ret m → m ≠ Ban → ¬ invited_or_joined m →
    member_allowed cr ev target Knock.

Lemma has_power_iff cr u field cs l z :
  creators cr rules = Ret cs →
  opt_user_power_level (room_power_levels_event fetch) u cs rules = Ret l →
  opt_get_as_int_or_default (room_power_levels_event fetch) field rules = Ret z →
  has_power cr u field ↔ upl_ge_int l z = true.
Proof.
  intros Hcs Hl Hz. rewrite upl_ge_int_spec. split; [|by exists cs, l, z].
  intros (? & ? & ? & ? & ? & ? & ?). by same_result.
Qed.

Lemma outranks_iff cr u v cs l l' :
  creators cr rules = Ret cs →
  opt_user_power_level (room_power_levels_event fetch) u cs rules = Ret l →
  opt_user_power_level (room_power_levels_event fetch) v cs rules = Ret l' →
  outranks cr u v ↔ upl_lt l' l = true.
Proof.
  intros Hcs Hl Hl'. rewrite upl_lt_spec. split; [|by exists cs, l, l'].
  intros (? & ? & ? & ? & ? & ? & ?). by same_result.
Qed.

Lemma prev_event_is_only_iff id prev : prev_event_is_only id prev = true ↔ prev = [id].
Proof.
  destruct prev as [|id' [|]]; simpl; try done. rewrite String.eqb_eq. naive_solver.
Qed.

Lemma ban_iff cr ev target :
  check_room_member_ban fetch ev target rules cr = Ret tt ↔
  member_allowed cr ev target Ban.
Proof.
  unfold check_room_member_ban. split.
  - intros Hok. inv_bind Hok. case_bool_decide; simplify_eq/=. inv_bind Hok.
    destruct (_ && _) eqn:Hb in Hok; [|done]. to_prop.
    eapply ban; [done|by eapply has_power_iff|by eapply outranks_iff].
  - inversion 1 as [| | | | | | |Hj Hp Ho|]; subst. rewrite Hj. simpl.
    destruct Hp as (cs & l & z & Hcs & Hl & Hz & Hle), Ho as (cs' & ? & l' & ? & ? & Hl' & Hlt).
    same_result. rewrite Hcs, Hl, Hz, Hl'.
    apply upl_ge_int_spec in Hle as ->. by apply upl_lt_spec in Hlt as ->.
Qed.

Lemma knock_iff cr ev target :
  knocking rules = true →
  check_room_member_knock fetch ev target rules = Ret tt ↔
  member_allowed cr ev target Knock.
Proof.
  intros Hk. unfold check_room_member_knock. split.
  - intros Hok. inv_bind Hok. destruct (negb (_ || _)) eqn:Hrule in Hok; [done|].
    destruct (String.eqb_spec (sender ev) target) as [Heq|]; [|done]. simpl in Hok.
    inv_bind Hok. rewrite Heq in *.
    eapply (knock _ _ _ x0 x); [done..| |done| |].
    + apply negb_false_iff, orb_true_iff in Hrule as [Hr|Hr]; to_prop; auto.
    + by intros ->.
    + by intros [-> | ->].
  - inversion 1 as [| | | | | | | |m jr _ Hs Hjr Hr Hm Hnb Hni]; subst.
    rewrite Hjr, String.eqb_refl, Hm. simpl.
    replace (bool_decide (jr = JoinKnock) || _) with true.
    + simpl. destruct m; try done; destruct Hni; [by left|by right].
    + destruct Hr as [->|[-> ->]]; symmetry; [done|apply orb_true_r].
Qed.

Lemma leave_iff cr ev target :
  check_room_member_leave fetch ev target rules cr = Ret tt ↔
  member_allowed cr ev target Leave.
Proof.
  unfold check_room_member_leave. destruct (String.eqb_spec (sender ev) target) as [Heq|Hne].
  - subst target. rewrite bind_ret. split.
    + intros (m & Hm & Hok). destruct (_ || _) eqn:Hb in Hok; [|done].
      eapply (leave_self _ _ _ m); [done..|]. unfold invited_or_joined.
      apply orb_true_iff in Hb as [Hb|Hb]; [destruct m; naive_solver|to_prop; auto].
    + inversion 1 as [| | | | |m _ Hm Hor|m Hne| |]; subst; [|done].
      exists m. split; [done|]. destruct Hor as [[-> | ->]|[-> ->]]; done.
  - split.
    + intros Hok. inv_bind Hok. case_bool_decide; simplify_eq/=. inv_bind Hok.
      destruct (bool_decide _ && _) eqn:Hban in Hok; [done|]. inv_bind Hok.
      destruct (_ && _) eqn:Hb in Hok; [|done]. to_prop.
      eapply (kick _ _ _ x0); [done..|by eauto| |by eapply has_power_iff|by eapply outranks_iff].
      intros ->. do 3 eexists. split_and!; [done..|]. by apply not_upl_lt_int.
    + inversion 1 as [| | | | |m Heq|m _ Hj Hm [zb Hzb] Hban Hp Ho| |]; subst; [done|].
      destruct Hp as (cs & l & z & Hcs & Hl & Hz & Hle), Ho as (? & ? & l' & ? & ? & Hl' & Hlt).
      same_result. rewrite Hj, Hcs, Hm, Hl, Hzb, Hz, Hl'. simpl.
      apply upl_ge_int_spec in Hle as ->. apply upl_lt_spec in Hlt as ->.
      case_bool_decide as Hb; [|done]. destruct (Hban Hb) as (? & ? & ? & ? & ? & ? & Hle').
      same_result. by apply not_upl_lt_int in Hle' as ->.
Qed.

Lemma third_party_iff ev tpi target :
  check_third_party_invite fetch ev tpi target = Ret tt ↔ third_party_ok ev tpi target.
Proof.
  unfold check_third_party_invite. split.
  - intros Hok. inv_bind Hok. case_bool_decide; [done|]. inv_bind Hok.
    destruct (String.eqb_spec target x1) as [->|]; [|done]. simpl in Hok.
    destruct (room_third_party_invite_event fetch x0) as [tev|] eqn:Htev; [|done].
    destruct (String.eqb_spec (sender ev) (sender tev)) as [Hs|]; [|done]. simpl in Hok.
    inv_bind Hok. destruct x5; [|done]. split; eauto 20.
  - intros [(m & Hm & Hban) Hmx (token & tev & keys & sigs & json & Ht & Htev & Hs & Hk & Hsig & Hj & Hc)].
    rewrite Hm. case_bool_decide; [done|].
    by rewrite Ht, Hmx, String.eqb_refl, Htev, Hs, String.eqb_refl, Hk, Hsig, Hj, Hc.
Qed.

Lemma invite_iff cr ev target :
  check_room_member_invite fetch ev target rules cr = Ret tt ↔
  member_allowed cr ev target Invite.
Proof.
  unfold check_room_member_invite. split.
  - intros Hok. inv_bind Hok. destruct x as [tpi|].
    { eapply invite_third_party; [done|]. by apply third_party_iff. }
    inv_bind Hok. case_bool_decide; simplify_eq/=. inv_bind Hok.
    assert (x ≠ Join ∧ x ≠ Ban) as [Hnj Hnb] by (split; intros ->; done).
    destruct x; try done; inv_bind Hok; destruct (upl_ge_int _ _) eqn:Hge; try done;
      (eapply (invite _ _ _ _); [eassumption..|by eapply has_power_iff]).
  - inversion 1 as [| | |m Htp Hj Hm Hnj Hnb Hp|tpi Htp Hok| | | |]; subst; rewrite Htp.
    + destruct Hp as (cs & l & z & Hcs & Hl & Hz & Hle%upl_ge_int_spec).
      rewrite Hj, Hm, Hcs, Hl, Hz, Hle. by destruct m.
    + by apply third_party_iff.
Qed.

Lemma invite_rule_iff jr :
  bool_decide (jr = JoinInvite) || knocking rules && bool_decide (jr = JoinKnock) = true ↔
  invite_rule jr.
Proof.
  unfold invite_rule. by rewrite orb_true_iff, andb_true_iff, !bool_decide_eq_true.
Qed.

Lemma restricted_rule_iff jr :
  (restricted_join_rule rules && bool_decide (jr = JoinRestricted))
  || (knock_restricted_join_rule rules && bool_decide (jr = JoinKnockRestricted)) = true ↔
  restricted_rule jr.
Proof.
  unfold restricted_rule. by rewrite orb_true_iff, !andb_true_iff, !bool_decide_eq_true.
Qed.

Lemma invited_or_joined_iff m :
  match m with Invite | Join => true | _ => false end = true ↔ invited_or_joined m.
Proof. unfold invited_or_joined. destruct m; naive_solver. Qed.

(** The rule of a join by the user themself. *)
Lemma join_sound cr ev target :
  check_room_member_join fetch ev target rules cr = Ret tt →
  member_allowed cr ev target Join.
Proof.
  unfold check_room_member_join. intros Hok. inv_bind Hok.
  destruct (prev_event_is_only _ _ && _) eqn:Hfirst.
  { to_prop. eapply first_join; [|by eauto|by apply prev_event_is_only_iff].
    by rewrite (proj1 (String.eqb_eq _ _) H2). }
  destruct (String.eqb_spec (sender ev) target) as [Heq|]; [|done]. simpl in Hok.
  inv_bind Hok. case_bool_decide; [done|]. inv_bind Hok.
  destruct ((_ || _) && _) eqn:Hinv in Hok.
  { apply andb_true_iff in Hinv as [?%invite_rule_iff ?%invited_or_joined_iff].
    by eapply join_by_rule; eauto 10. }
  destruct ((_ && _) || _) eqn:Hres in Hok.
  - apply restricted_rule_iff in Hres.
    destruct (match x1 with Invite | Join => true | _ => false end) eqn:Hij in Hok.
    { apply invited_or_joined_iff in Hij. by eapply join_by_rule; eauto 10. }
    inv_bind Hok. destruct x3 as [via|]; [|done]. inv_bind Hok.
    case_bool_decide; simplify_eq/=. inv_bind Hok.
    destruct (upl_ge_int _ _) eqn:?; [|done].
    eapply join_restricted; [done|by eauto|done..|by eapply has_power_iff].
  - case_bool_decide; [|done]. by eapply join_by_rule; eauto 10.
Qed.

Lemma join_complete cr ev target :
  member_allowed cr ev target Join →
  check_room_member_join fetch ev target rules cr = Ret tt.
Proof.
  unfold check_room_member_join.
  inversion 1 as [Hc [cs Hcs] Hprev|m jr Hs (c & cs & Hc & Hcs) Hm Hnb Hjr Hor
                 |via m jr Hs (c & cs & Hc & Hcs) Hm Hnb Hjr Hres Hvia Hvj Hp| | | | | |]; subst.
  - apply prev_event_is_only_iff in Hprev. by rewrite Hc, Hcs, Hprev, String.eqb_refl.
  - rewrite Hc, Hcs, String.eqb_refl, Hm, Hjr. destruct (_ && _); [done|]. simpl.
    case_bool_decide; [done|]. destruct ((_ || _) && _) eqn:Hinv; [done|].
    destruct ((_ && _) || _) eqn:Hrr.
    + apply restricted_rule_iff in Hrr. destruct Hor as [->|[_ Hij]].
      { by destruct Hrr as [[_ ?]|[_ ?]]. }
      by apply invited_or_joined_iff in Hij as ->.
    + destruct Hor as [->|[[Hi|Hr] Hij%invited_or_joined_iff]]; [done| |].
      * apply invite_rule_iff in Hi. by rewrite Hi, Hij in Hinv.
      * apply restricted_rule_iff in Hr. by rewrite Hr in Hrr.
  - rewrite Hc, Hcs, String.eqb_refl, Hm, Hjr. destruct (_ && _); [done|]. simpl.
    case_bool_decide; [done|]. destruct ((_ || _) && _); [done|].
    apply restricted_rule_iff in Hres as ->. destruct (match m with Join => _ | _ => _ end); [done|].
    destruct Hp as (? & l & z & ? & Hl & Hz & Hle%upl_ge_int_spec). same_result.
    by rewrite Hvia, Hvj, Hl, Hz, Hle.
Qed.

(** What the rules ask of the membership event as a whole. *)
Definition member_event_allowed (cr ev : Pdu RawJson) : Prop :=
  ∃ target m, state_key ev = Some target ∧ user_id_validate target = Ret tt ∧
    membership ev = Ret m ∧ member_allowed cr ev target m.

Lemma check_room_member_iff cr ev :
  check_room_member fetch ev rules cr = Ret tt ↔ member_event_allowed cr ev.
Proof.
  unfold check_room_member, member_event_allowed. split.
  - intros Hok. destruct (state_key ev) as [target|]; [|done].
    destruct (user_id_validate target) as [[]| | |] eqn:Hv; try done. inv_bind Hok.
    exists target, x. split_and!; [done..|].
    destruct x; [by apply ban_iff|by apply invite_iff|by apply join_sound| |by apply leave_iff|done].
    destruct (knocking rules) eqn:?; [|done]. by apply knock_iff.
  - intros (target & m & -> & -> & -> & Ha).
    destruct m; [by apply ban_iff|by apply invite_iff|by apply join_complete| |by apply leave_iff|].
    + assert (knocking rules = true) as Hk by (by inversion Ha).
      rewrite Hk. by apply (knock_iff cr).
    + inversion Ha.
Qed.

Lemma member_state_dependent_iff ev :
  event_type ev = RoomMember →
  check_state_dependent_auth_rules rules ev fetch = Ret tt ↔
  ∃ cr, room_create_event fetch = Ret cr ∧ federation_ok cr ev ∧ member_event_allowed cr ev.
Proof.
  intros Hty. unfold check_state_dependent_auth_rules. rewrite Hty.
  change (String.eqb RoomMember RoomCreate) with false.
  change (String.eqb RoomMember RoomMember) with true. cbv iota.
  rewrite bind_ret. setoid_rewrite federation_iff.
  replace (special_case_room_aliases rules && String.eqb RoomMember RoomAliases) with false
    by (by rewrite andb_comm).
  setoid_rewrite check_room_member_iff. done.
Qed.

(** C26. The membership rules, exactly: a [m.room.member] event is accepted if and
    only if the sender's domain may take part and one of the constructors of
    [member_allowed] applies to its target. *)
Theorem member_event_accepted_iff ev :
  event_type ev = RoomMember →
  check_state_dependent_auth_rules rules ev fetch = Ret tt ↔
  ∃ cr, room_create_event fetch = Ret cr ∧ federation_ok cr ev ∧
    ∃ target m, state_key ev = Some target ∧ user_id_validate target = Ret tt ∧
      membership ev = Ret m ∧ member_allowed cr ev target m.
Proof. apply member_state_dependent_iff. Qed.

(** A ban holds: an accepted membership event about a banned user bans them
    again, or is an unban by another user with the power to ban and to kick who
    outranks them, or is the creator's join right after the create event. *)
Theorem ban_is_kept ev cr target m :
  event_type ev = RoomMember → state_key ev = Some target → membership ev = Ret m →
  room_create_event fetch = Ret cr → user_membership fetch target = Ret Ban →
  check_state_dependent_auth_rules rules ev fetch = Ret tt →
  m = Ban ∨
  (m = Leave ∧ sender ev ≠ target ∧ has_power cr (sender ev) BanLevel ∧
   has_power cr (sender ev) KickLevel ∧ outranks cr (sender ev) target) ∨
  (m = Join ∧ creator cr rules = Ret target ∧ prev_events ev = [event_id cr]).
Proof.
  intros Hty Hsk Hm Hcr Hban Hok.
  apply member_state_dependent_iff in Hok as (cr' & ? & _ & t & m' & ? & _ & ? & Ha); [|done].
  same_result. clear Hty.
  destruct Ha as [|? ? ? ? Hu| ? ? ? ? ? Hu|? ? ? Hu|? ? [(? & Hu & ?)]|? ? Hu Hor
                 |? ? ? Hu| |? ? ? ? ? ? Hu]; try same_result; eauto 10.
  by destruct Hor as [[|]|[]].
Qed.

(** Where the room version privileges its creators, no accepted event of
    another user bans or removes one. *)
Theorem creators_are_immune ev cr cs target m :
  explicitly_privilege_room_creators rules = true →
  event_type ev = RoomMember → state_key ev = Some target → membership ev = Ret m →
  room_create_event fetch = Ret cr → creators cr rules = Ret cs → target ∈ cs →
  check_state_dependent_auth_rules rules ev fetch = Ret tt →
  m ≠ Ban ∧ (m = Leave → sender ev = target).
Proof.
  intros Hpriv Hty Hsk Hm Hcr Hcs Hin Hok.
  assert (¬ outranks cr (sender ev) target) as Hno.
  { intros (? & l & l' & ? & ? & Hl' & Hlt). same_result. unfold opt_user_power_level in Hl'.
    rewrite Hpriv, bool_decide_eq_true_2 in Hl' by done. simplify_eq/=. by destruct Hlt, l. }
  apply member_state_dependent_iff in Hok as (cr' & ? & _ & t & m' & ? & _ & ? & Ha); [|done].
  same_result. clear Hty. by destruct Ha.
Qed.

End member.

#[local] Existing Instance sample_external.

Lemma member_event_accepted_iff_witness :
  check_state_dependent_auth_rules AuthV10 ev_ban sample_state = Ret tt ↔
  ∃ cr, room_create_event sample_state = Ret cr ∧ federation_ok cr ev_ban ∧
    ∃ target m, state_key ev_ban = Some target ∧ user_id_validate target = Ret tt ∧
      membership ev_ban = Ret m ∧ member_allowed AuthV10 sample_state cr ev_ban target m.
Proof. by apply (member_event_accepted_iff AuthV10 sample_state ev_ban). Defined.

(** Alice unbans Carol. *)
Definition ev_unban : SampleEvent :=
  mk_event "$unban" alice RoomMember (Some carol) 11
    [("membership", Str "leave")] ["$ban"] ["$create"; "$levels"; "$alice"; "$ban"].

Definition banned_state : string → string → option SampleEvent :=
  find_state [ev_ban; ev_create; ev_alice; ev_levels; ev_rules; ev_bob].

Lemma ban_is_kept_witness :
  Leave = Ban ∨
  (Leave = Leave ∧ alice ≠ carol ∧ has_power AuthV10 banned_state ev_create alice BanLevel ∧
   has_power AuthV10 banned_state ev_create alice KickLevel ∧
   outranks AuthV10 banned_state ev_create alice carol) ∨
  (Leave = Join ∧ creator ev_create AuthV10 = Ret carol ∧ prev_events ev_unban = [event_id ev_create]).
Proof. apply (ban_is_kept AuthV10 banned_state ev_unban ev_create carol Leave); by_vm. Defined.

(** Alice, who created the room, leaves it. *)
Definition ev_leave : SampleEvent :=
  mk_event "$leave" alice RoomMember (Some alice) 12
    [("membership", Str "leave")] ["$carol"] ["$create"; "$levels"; "$alice"].

Lemma creators_are_immune_witness : Leave ≠ Ban ∧ (Leave = Leave → alice = alice).
Proof.
  apply (creators_are_immune AuthV12 sample_state ev_leave ev_create {[alice]} alice Leave);
    first [by_vm | by apply elem_of_singleton].
Defined.
