(* ===== verification/TopoSort.v ===== *)
(** * Reverse topological power ordering

    [reverse_topological_power_sort] of [common-state-res/src/resolve.rs]: Kahn's
    algorithm on the graph of auth events, taking at each step the least candidate
    by sender power level (greatest first), timestamp and event id.

    The order in which the hash maps are iterated is a parameter ([HashIter]); the
    binary heap is the list of its entries, [heap_pop] taking out the entry its
    order puts first. *)

From S2P Require Import Prelude Events.

(** ** Errors ([error.rs]) *)
Inductive Error :=
| NotFound (event_id : string)
| AuthEvent (msg : string)
| MissingStateKey
| FetchConflictedStateSubgraphFailed.

(** ** The order of candidates *)

Record TieBreaker := {
  tb_power_level : UserPowerLevel;
  tb_origin_server_ts : Z;
  tb_event_id : string
}.

#[export] Instance TieBreaker_eq_dec : EqDecision TieBreaker.
Proof. solve_decision. Defined.

(** [Ord::cmp] of [TieBreaker]: the power levels are compared the other way round. *)
Definition tb_cmp (self other : TieBreaker) : comparison :=
  cmp_then
    (cmp_then (upl_cmp (tb_power_level other) (tb_power_level self))
       (Z.compare (tb_origin_server_ts self) (tb_origin_server_ts other)))
    (String.compare (tb_event_id self) (tb_event_id other)).

(** ** The binary heap of [Reverse<TieBreaker>] *)

Fixpoint heap_pop (h : list TieBreaker) : option (TieBreaker * list TieBreaker) :=
  match h with
  | [] => None
  | x :: h =>
      match heap_pop h with
      | None => Some (x, h)
      | Some (y, h') =>
          match tb_cmp x y with
          | Gt => Some (y, x :: h')
          | _ => Some (x, h)
          end
      end
  end.

(** ** The sort *)

Abbreviation Graph := (gmap string (gset string)).

Section sort.
Context `{!HashIter}.
Context (event_details_fn : string → result Error (UserPowerLevel * Z)).

Definition tie_breaker (event_id : string) : outcome Error TieBreaker :=
  match event_details_fn event_id with
  | Err e => Throw e
  | Ok (power_level, origin_server_ts) =>
      Ret {| tb_power_level := power_level;
             tb_origin_server_ts := origin_server_ts;
             tb_event_id := event_id |}
  end.

(** The two edge maps and the heap. *)
Record TopoState := {
  outgoing_edges_map : Graph;
  incoming_edges_map : Graph;
  heap : list TieBreaker
}.

(** [incoming_edges_map.entry(auth_event_id).or_default().insert(event_id)] for
    each of the auth events. *)
Definition add_incoming (event_id : string) (auth_event_ids : list string) (m : Graph) : Graph :=
  foldl (λ m auth_event_id, <[auth_event_id := {[event_id]} ∪ default ∅ (m !! auth_event_id)]> m)
    m auth_event_ids.

(** The first loop: one entry of the graph. *)
Definition topo_add (st : TopoState) (event_id : string) (outgoing_edges : gset string)
    : outcome Error TopoState :=
  if bool_decide (outgoing_edges = ∅) then
    let! tb := tie_breaker event_id in
    Ret {| outgoing_edges_map := outgoing_edges_map st;
           incoming_edges_map := incoming_edges_map st;
           heap := tb :: heap st |}
  else
    Ret {| outgoing_edges_map := <[event_id := outgoing_edges]> (outgoing_edges_map st);
           incoming_edges_map :=
             add_incoming event_id (iter_set ["outgoing_edges"; event_id] outgoing_edges)
               (incoming_edges_map st);
           heap := heap st |}.

Fixpoint topo_init (st : TopoState) (entries : list (string * gset string))
    : outcome Error TopoState :=
  match entries with
  | [] => Ret st
  | (event_id, outgoing_edges) :: entries =>
      let! st := topo_add st event_id outgoing_edges in topo_init st entries
  end.

(** One parent of the event just taken: the edge is removed; without edges left
    the parent becomes a candidate. *)
Definition topo_parent (event_id : string) (st : TopoState) (parent_id : string)
    : outcome Error TopoState :=
  match outgoing_edges_map st !! parent_id with
  | None => Panic
  | Some outgoing_edges =>
      let outgoing_edges := outgoing_edges ∖ {[event_id]} in
      let out := <[parent_id := outgoing_edges]> (outgoing_edges_map st) in
      if bool_decide (outgoing_edges = ∅) then
        let! tb := tie_breaker parent_id in
        match out !! parent_id with
        | None => Panic
        | Some _ =>
            Ret {| outgoing_edges_map := delete parent_id out;
                   incoming_edges_map := incoming_edges_map st;
                   heap := tb :: heap st |}
        end
      else
        Ret {| outgoing_edges_map := out;
               incoming_edges_map := incoming_edges_map st;
               heap := heap st |}
  end.

Fixpoint topo_parents (event_id : string) (st : TopoState) (parents : list string)
    : outcome Error TopoState :=
  match parents with
  | [] => Ret st
  | parent_id :: parents =>
      let! st := topo_parent event_id st parent_id in topo_parents event_id st parents
  end.

(** The loop of Kahn's algorithm. *)
Fixpoint topo_loop (fuel : nat) (st : TopoState) (sorted : list string)
    : outcome Error (list string) :=
  match heap_pop (heap st) with
  | None => Ret sorted
  | Some (tb, h) =>
      match fuel with
      | 0 => OutOfFuel
      | S fuel =>
          let event_id := tb_event_id tb in
          let! st := topo_parents event_id
                       {| outgoing_edges_map := outgoing_edges_map st;
                          incoming_edges_map := incoming_edges_map st;
                          heap := h |}
                       (iter_set ["incoming_edges"; event_id]
                          (default ∅ (incoming_edges_map st !! event_id))) in
          topo_loop fuel st (sorted ++ [event_id])
      end
  end.

(** [reverse_topological_power_sort].  Each event of the graph is taken at most
    once, so its size is enough fuel. *)
Definition reverse_topological_power_sort (graph : Graph) : outcome Error (list string) :=
  let! st := topo_init {| outgoing_edges_map := ∅; incoming_edges_map := ∅; heap := [] |}
               (iter_map ["graph"] graph) in
  topo_loop (size graph) st [].

End sort.
