(* ===== verification/TopoSpec.v ===== *)
(** * The reverse topological power ordering, specified

    [kahn] is the definition of the Matrix specification: at each step the least
    of the candidates is taken.  The theorems show that
    [reverse_topological_power_sort] computes it whatever the iteration order of
    the hash maps, that on an acyclic graph it orders every event after its auth
    events, and that no topological ordering is smaller. *)

From S2P Require Import Prelude Events TopoSort.

(** ** Orders *)

#[export] Instance upl_cmp_laws : OrdLaws upl_cmp.
Proof.
  split.
  - intros [|i] [|j]; simpl; try naive_solver. rewrite Z.compare_eq_iff. naive_solver.
  - intros [|i] [|j]; simpl; try done. apply Z.compare_antisym.
  - intros [|i] [|j] [|k]; simpl; try done. apply (cmp_lt_trans Z.compare).
Qed.

#[export] Instance tb_cmp_laws : OrdLaws tb_cmp.
Proof.
  set (f tb := ((tb_power_level tb, tb_origin_server_ts tb), tb_event_id tb)).
  assert (Inj (=) (=) f) by (intros [] [] Heq; by injection Heq as <- <- <-).
  pose proof (flip_cmp_laws upl_cmp).
  apply (inj_cmp_laws (pair_cmp (pair_cmp (flip upl_cmp) Z.compare) String.compare) f).
Qed.

Lemma heap_pop_none h : heap_pop h = None ↔ h = [].
Proof. destruct h as [|x h]; simpl; [done|]. by repeat case_match. Qed.

Lemma heap_pop_some h x h' :
  heap_pop h = Some (x, h') → h ≡ₚ x :: h' ∧ ∀ y, y ∈ h → cmp_le tb_cmp x y.
Proof.
  revert x h'. induction h as [|y h IH]; intros x h'; simpl; [done|].
  destruct (heap_pop h) as [[z h'']|] eqn:Hpop.
  - destruct (IH _ _ eq_refl) as [Hperm Hmin]. intros Hx.
    destruct (tb_cmp y z) eqn:Hcmp; simplify_eq.
    1,2: split; [done|]; intros w [->|Hw]%elem_of_cons; [by unfold cmp_le; rewrite (cmp_refl tb_cmp)|];
      trans z; [by unfold cmp_le; rewrite Hcmp|auto].
    split; [rewrite Hperm; constructor|]. intros w [->|Hw]%elem_of_cons; [|auto].
    apply (cmp_gt_lt tb_cmp) in Hcmp. unfold cmp_le. by rewrite Hcmp.
  - apply heap_pop_none in Hpop as ->. intros. simplify_eq. split; [done|].
    intros w ->%list_elem_of_singleton. unfold cmp_le. by rewrite (cmp_refl tb_cmp).
Qed.

(** ** The specification *)

Section spec.
Context (details : string → result Error (UserPowerLevel * Z)) (g : Graph).

(** [x] comes before [y] in the comparison of candidates. *)
Definition before (x y : string) : Prop :=
  ∃ tx ty, tie_breaker details x = Ret tx ∧ tie_breaker details y = Ret ty ∧
    tb_cmp tx ty = Lt.

(** The candidates once the events of [D] are taken. *)
Definition ready (D : gset string) (e : string) : Prop :=
  e ∉ D ∧ ∃ o, g !! e = Some o ∧ o ⊆ D.

Inductive kahn (D : gset string) : list string → Prop :=
| kahn_nil : (∀ e, ¬ ready D e) → kahn D []
| kahn_cons e l :
    ready D e → (∀ e', ready D e' → e' = e ∨ before e e') →
    kahn ({[e]} ∪ D) l → kahn D (e :: l).

(** A topological ordering: each event is listed once, after its edges. *)
Fixpoint topological (D : gset string) (l : list string) : Prop :=
  match l with
  | [] => True
  | e :: l => ready D e ∧ topological ({[e]} ∪ D) l
  end.

Lemma before_irrefl x : ¬ before x x.
Proof. intros (tx & ty & Hx & Hy & Hlt). same_result. by rewrite (cmp_refl tb_cmp) in Hlt. Qed.

Lemma before_asym x y : before x y → ¬ before y x.
Proof.
  intros (tx & ty & Hx & Hy & Hlt) (ty' & tx' & Hy' & Hx' & Hgt). same_result.
  apply (cmp_gt_lt tb_cmp) in Hgt. congruence.
Qed.

(** The specification has one ordering. *)
Lemma kahn_unique D l1 l2 : kahn D l1 → kahn D l2 → l1 = l2.
Proof.
  intros H1. revert l2. induction H1 as [D Hno|D e l He Hmin _ IH]; intros l2 H2.
  - destruct H2 as [|e l He]; [done|]. by destruct (Hno e).
  - destruct H2 as [Hno|e' l' He' Hmin' H2]; [by destruct (Hno e)|].
    destruct (Hmin e' He') as [->|Hlt]; [f_equal; auto|].
    destruct (Hmin' e He) as [->|Hlt']; [f_equal; auto|].
    by destruct (before_asym e e').
Qed.

Lemma kahn_topological D l : kahn D l → topological D l.
Proof. induction 1; simpl; auto. Qed.

End spec.

(** ** The algorithm follows the specification *)

(** [Some] of a set that is not empty. *)
Definition nonempty (s : gset string) : option (gset string) :=
  if decide (s = ∅) then None else Some s.

Section algorithm.
Context `{!HashIter} (details : string → result Error (UserPowerLevel * Z)).

(** The state of the algorithm on the graph [g], the events of [D] being taken and
    the edges of [S e] removed from [e]. *)
Record topo_inv (g : Graph) (S : string → gset string) (D : gset string)
    (st : TopoState) : Prop := {
  ti_out : ∀ e, outgoing_edges_map st !! e = g !! e ≫= λ o, nonempty (o ∖ S e);
  ti_in : ∀ a e, e ∈ default ∅ (incoming_edges_map st !! a) ↔ ∃ o, g !! e = Some o ∧ a ∈ o;
  ti_heap : ∀ e, e ∈ tb_event_id <$> heap st ↔ e ∉ D ∧ ∃ o, g !! e = Some o ∧ o ⊆ S e;
  ti_tb : ∀ tb, tb ∈ heap st → tie_breaker details (tb_event_id tb) = Ret tb;
  ti_nodup : NoDup (tb_event_id <$> heap st)
}.

(** A step returns a state, or the error of the details of an event of the graph. *)
Definition step_ok (g : Graph) (P : TopoState → Prop) (r : outcome Error TopoState) : Prop :=
  match r with
  | Ret st => P st
  | Throw err => ∃ e, e ∈ dom g ∧ details e = Err err
  | _ => False
  end.

Lemma tie_breaker_id e tb : tie_breaker details e = Ret tb → tb_event_id tb = e.
Proof. unfold tie_breaker. intros. by repeat case_match; simplify_eq/=. Qed.

Lemma tie_breaker_cases e :
  (∃ tb, tie_breaker details e = Ret tb) ∨
  (∃ err, tie_breaker details e = Throw err ∧ details e = Err err).
Proof. unfold tie_breaker. destruct (details e) as [[]|]; eauto. Qed.

Lemma elem_of_add_incoming e l m a x :
  x ∈ default ∅ (add_incoming e l m !! a) ↔ x ∈ default ∅ (m !! a) ∨ (x = e ∧ a ∈ l).
Proof.
  unfold add_incoming. revert m. induction l as [|b l IH]; intros m; simpl; [set_solver|].
  rewrite IH. destruct (decide (a = b)) as [->|Hne].
  - rewrite lookup_insert_eq. simpl. set_solver.
  - rewrite lookup_insert_ne by done. set_solver.
Qed.

Lemma nonempty_none s : nonempty s = None ↔ s = ∅.
Proof. unfold nonempty. case_decide; naive_solver. Qed.

Lemma nonempty_some s : s ≠ ∅ → nonempty s = Some s.
Proof. unfold nonempty. by case_decide. Qed.

Lemma topo_add_inv g st e o :
  topo_inv g (λ _, ∅) ∅ st → g !! e = None →
  step_ok (<[e := o]> g) (topo_inv (<[e := o]> g) (λ _, ∅) ∅) (topo_add details st e o).
Proof.
  intros [Hout Hin Hheap Htb Hnd] Hg. unfold topo_add. case_bool_decide as Ho.
  - subst o. destruct (tie_breaker_cases e) as [[tb Htbe]|(err & Hte & Herr)];
      [rewrite Htbe|rewrite Hte; simpl; exists e; set_solver].
    pose proof (tie_breaker_id _ _ Htbe) as Hid. split; simpl.
    + intros e'. rewrite Hout. destruct (decide (e = e')) as [->|]; simplify_map_eq; [|done].
      symmetry. by apply nonempty_none.
    + intros a e'. rewrite Hin. destruct (decide (e = e')) as [->|]; simplify_map_eq; [|done].
      split; intros (? & ? & ?); simplify_eq; set_solver.
    + intros e'. rewrite Hid, elem_of_cons, Hheap.
      destruct (decide (e = e')) as [->|]; simplify_map_eq; [|naive_solver].
      split; [|by left]. intros _. split; [set_solver|eauto].
    + intros tb' [->|]%elem_of_cons; [by rewrite Hid|auto].
    + constructor; [|done]. rewrite Hid, Hheap. naive_solver.
  - split; simpl; [| | |done|done].
    + intros e'. destruct (decide (e = e')) as [->|]; simplify_map_eq; [|auto].
      rewrite difference_empty_L. symmetry. by apply nonempty_some.
    + intros a e'. rewrite elem_of_add_incoming, Hin, elem_of_iter_set.
      destruct (decide (e = e')) as [->|]; simplify_map_eq; naive_solver.
    + intros e'. rewrite Hheap.
      destruct (decide (e = e')) as [->|]; simplify_map_eq; [|done]. set_solver.
Qed.

Lemma topo_init_inv entries g st :
  NoDup entries.*1 → (∀ k, k ∈ entries.*1 → g !! k = None) →
  topo_inv g (λ _, ∅) ∅ st →
  step_ok (list_to_map entries ∪ g) (topo_inv (list_to_map entries ∪ g) (λ _, ∅) ∅)
    (topo_init details st entries).
Proof.
  revert g st. induction entries as [|[e o] entries IH]; intros g st; simpl; intros Hnd Hg Hinv.
  { by rewrite (left_id_L ∅ (∪)). }
  apply NoDup_cons in Hnd as [Hne Hnd].
  assert (<[e:=o]> (list_to_map entries) ∪ g = list_to_map entries ∪ <[e:=o]> g) as ->.
  { rewrite <- insert_union_l. apply insert_union_r. by apply not_elem_of_list_to_map_1. }
  pose proof (topo_add_inv g st e o Hinv ltac:(apply Hg; set_solver)) as Hadd.
  destruct (topo_add details st e o) as [st'|err| |]; simpl in *; try done.
  - apply IH; [done| |done]. intros k Hk. rewrite lookup_insert_ne by set_solver.
    apply Hg. set_solver.
  - destruct Hadd as (e' & He' & ?). exists e'. set_solver.
Qed.

Lemma topo_inv_ext g S S' D st :
  (∀ e o, g !! e = Some o → o ∖ S e = o ∖ S' e) → topo_inv g S D st → topo_inv g S' D st.
Proof.
  intros Hext [Hout Hin Hheap Htb Hnd]. split; [|done| |done|done].
  - intros e. rewrite Hout. destruct (g !! e) as [o|] eqn:Ho; simpl; [|done]. by rewrite (Hext e).
  - intros e. rewrite Hheap.
    split; intros (HD & o & Ho & Hsub); split_and!; try done; exists o; (split; [done|]);
      specialize (Hext _ _ Ho); set_solver.
Qed.

(** The removed edges after the parents [ps] of [e] were visited. *)
Definition remove_edge (e : string) (ps : list string) (S : string → gset string)
    : string → gset string :=
  λ x, if decide (x ∈ ps) then {[e]} ∪ S x else S x.

Lemma remove_edge_in e ps S x : x ∈ ps → remove_edge e ps S x = {[e]} ∪ S x.
Proof. unfold remove_edge. intros. by rewrite decide_True. Qed.

Lemma remove_edge_out e ps S x : x ∉ ps → remove_edge e ps S x = S x.
Proof. unfold remove_edge. intros. by rewrite decide_False. Qed.

Lemma remove_edge_cons e p ps S x :
  p ∉ ps → remove_edge e ps (remove_edge e [p] S) x = remove_edge e (p :: ps) S x.
Proof.
  intros Hp. destruct (decide (x = p)) as [->|Hne]; [|destruct (decide (x ∈ ps)) as [Hx|Hx]].
  - rewrite (remove_edge_out e ps), !remove_edge_in by (done || constructor). done.
  - rewrite (remove_edge_in e ps), (remove_edge_in e (p :: ps)) by (done || by constructor).
    rewrite remove_edge_out; [done|]. by rewrite list_elem_of_singleton.
  - rewrite !remove_edge_out; rewrite ?elem_of_cons, ?elem_of_nil; tauto.
Qed.

Lemma topo_parent_inv g S D st e p o :
  topo_inv g S D st → g !! p = Some o → e ∈ o → e ∉ S p → p ∉ D →
  step_ok g (topo_inv g (remove_edge e [p] S) D) (topo_parent details e st p).
Proof.
  intros [Hout Hin Hheap Htb Hnd] Hp He HeS HpD. unfold topo_parent.
  assert (o ∖ S p ≠ ∅) as Hex by (clear -He HeS; set_solver).
  assert (¬ o ⊆ S p) as Hnsub by (clear -He HeS; set_solver).
  assert (outgoing_edges_map st !! p = Some (o ∖ S p)) as Hop.
  { rewrite Hout, Hp. by apply nonempty_some. }
  rewrite Hop, lookup_insert_eq.
  assert (∀ x, x ≠ p → remove_edge e [p] S x = S x) as Hne.
  { intros x ?. apply remove_edge_out. by rewrite list_elem_of_singleton. }
  assert (remove_edge e [p] S p = {[e]} ∪ S p) as Heq.
  { apply remove_edge_in. by rewrite list_elem_of_singleton. }
  assert (o ∖ S p ∖ {[e]} = o ∖ ({[e]} ∪ S p)) as Hdiff by (clear; set_solver).
  case_bool_decide as Hempty; rewrite Hdiff in *.
  - destruct (tie_breaker_cases p) as [[tb Htbe]|(err & Hte & Herr)];
      [rewrite Htbe|rewrite Hte; simpl; exists p; split; [by eapply elem_of_dom_2|done]].
    pose proof (tie_breaker_id _ _ Htbe) as Hid. split; simpl; [|done| | |].
    + intros x. destruct (decide (x = p)) as [->|].
      * rewrite lookup_delete_eq, Hp, Heq. symmetry. by apply nonempty_none.
      * by rewrite lookup_delete_ne, lookup_insert_ne, Hout, Hne.
    + intros x. rewrite Hid, elem_of_cons, Hheap. destruct (decide (x = p)) as [->|].
      * rewrite Heq. split; [|by left]. intros _. split; [done|]. exists o.
        split; [done|]. by apply empty_difference_subseteq_L.
      * rewrite Hne by done. tauto.
    + intros tb' [->|]%elem_of_cons; [by rewrite Hid|auto].
    + constructor; [|done]. rewrite Hid, Hheap. intros (_ & o' & Ho' & ?).
      rewrite Hp in Ho'. by injection Ho' as <-.
  - split; simpl; [|done| |done|done].
    + intros x. destruct (decide (x = p)) as [->|].
      * rewrite lookup_insert_eq, Hp, Heq. symmetry. by apply nonempty_some.
      * by rewrite lookup_insert_ne, Hout, Hne.
    + intros x. destruct (decide (x = p)) as [->|]; [|by rewrite Hheap, Hne].
      rewrite Hheap, Heq. split; intros (_ & o' & Ho' & Hsub);
        rewrite Hp in Ho'; injection Ho' as <-; [done|].
      destruct Hempty. clear -Hsub. set_solver.
Qed.

Lemma topo_parents_inv ps g S D st e :
  NoDup ps → topo_inv g S D st →
  (∀ p, p ∈ ps → p ∉ D ∧ e ∉ S p ∧ ∃ o, g !! p = Some o ∧ e ∈ o) →
  step_ok g (topo_inv g (remove_edge e ps S) D) (topo_parents details e st ps).
Proof.
  revert S st. induction ps as [|p ps IH]; intros S st Hnd Hinv Hps; simpl.
  { eapply topo_inv_ext; [|done]. intros. rewrite remove_edge_out; [done|apply not_elem_of_nil]. }
  apply NoDup_cons in Hnd as [Hp Hnd].
  destruct (Hps p (list_elem_of_here _ _)) as (HpD & HeS & o & Ho & Heo).
  pose proof (topo_parent_inv g S D st e p o Hinv Ho Heo HeS HpD) as Hstep.
  destruct (topo_parent details e st p) as [st'|err| |]; try done. simpl in *.
  assert (step_ok g (topo_inv g (remove_edge e ps (remove_edge e [p] S)) D)
            (topo_parents details e st' ps)) as Hrest.
  { apply IH; [done..|]. intros p' Hp'.
    destruct (Hps p' (list_elem_of_further _ _ _ Hp')) as (? & ? & ?).
    rewrite remove_edge_out; [done|]. rewrite list_elem_of_singleton. by intros ->. }
  destruct (topo_parents details e st' ps) as [st''|err| |]; simpl in *; try done.
  eapply topo_inv_ext; [|done]. intros x ox _. f_equal.
  by apply remove_edge_cons.
Qed.

(** The candidates are what the heap holds. *)
Lemma topo_inv_ready g D st e :
  topo_inv g (λ _, D) D st → ready g D e ↔ e ∈ tb_event_id <$> heap st.
Proof. intros Hinv. by rewrite (ti_heap _ _ _ _ Hinv). Qed.

Lemma topo_inv_min g D st tb h :
  topo_inv g (λ _, D) D st → heap_pop (heap st) = Some (tb, h) →
  ready g D (tb_event_id tb) ∧
  ∀ e, ready g D e → e = tb_event_id tb ∨ before details (tb_event_id tb) e.
Proof.
  intros Hinv [Hperm Hmin]%heap_pop_some.
  assert (tb ∈ heap st) as Htb by (rewrite Hperm; constructor). split.
  { apply (topo_inv_ready _ _ st); [done|]. by apply list_elem_of_fmap_2. }
  intros e He. apply (topo_inv_ready _ _ st) in He; [|done].
  apply list_elem_of_fmap in He as (tb' & -> & Htb').
  destruct (proj1 (cmp_le_lt_or_eq tb_cmp _ _) (Hmin _ Htb')) as [Hlt| ->]; [right|by left].
  exists tb, tb'. split_and!; [by apply (ti_tb _ _ _ _ Hinv)..|done].
Qed.

(** Taking the candidate out of the heap. *)
Lemma topo_inv_pop g D st tb h :
  topo_inv g (λ _, D) D st → heap_pop (heap st) = Some (tb, h) →
  topo_inv g (λ _, D) ({[tb_event_id tb]} ∪ D)
    {| outgoing_edges_map := outgoing_edges_map st;
       incoming_edges_map := incoming_edges_map st; heap := h |}.
Proof.
  intros [Hout Hin Hheap Htb Hnd] [Hperm _]%heap_pop_some.
  rewrite Hperm in Hnd. apply NoDup_cons in Hnd as [Hnew Hnd].
  split; simpl; [done|done| | |done].
  - intros e. specialize (Hheap e). rewrite Hperm, fmap_cons, elem_of_cons in Hheap.
    rewrite not_elem_of_union, not_elem_of_singleton. split.
    + intros He. destruct (proj1 Hheap (or_intror He)) as [HD ?]. split_and!; [|done..].
      by intros ->.
    + intros [[Hne HD] Hex]. by destruct (proj2 Hheap (conj HD Hex)).
  - intros tb' ?. apply Htb. rewrite Hperm. by constructor.
Qed.

(** One round of the loop. *)
Lemma topo_round g D st tb h :
  topo_inv g (λ _, D) D st → (∀ d, d ∈ D → ∃ o, g !! d = Some o ∧ o ⊆ D) →
  heap_pop (heap st) = Some (tb, h) →
  let e := tb_event_id tb in
  step_ok g (topo_inv g (λ _, {[e]} ∪ D) ({[e]} ∪ D))
    (topo_parents details e
       {| outgoing_edges_map := outgoing_edges_map st;
          incoming_edges_map := incoming_edges_map st; heap := h |}
       (iter_set ["incoming_edges"; e] (default ∅ (incoming_edges_map st !! e)))).
Proof.
  intros Hinv Hclosed Hpop e. set (ps := iter_set _ _).
  destruct (topo_inv_min _ _ _ _ _ Hinv Hpop) as [[HeD (oe & Hoe & Hsube)] _]. fold e in HeD, Hoe.
  pose proof (topo_inv_pop _ _ _ _ _ Hinv Hpop) as Hinv'. fold e in Hinv'.
  assert (∀ p, p ∈ ps ↔ ∃ o, g !! p = Some o ∧ e ∈ o) as Hps.
  { intros p. unfold ps. rewrite elem_of_iter_set. apply (ti_in _ _ _ _ Hinv). }
  assert (∀ p, p ∈ ps → p ∉ {[e]} ∪ D ∧ e ∉ D ∧ ∃ o, g !! p = Some o ∧ e ∈ o) as Hpar.
  { intros p (o & Ho & Heo)%Hps. split_and!; [|done|by eauto].
    intros [->%elem_of_singleton|HpD]%elem_of_union.
    - simplify_eq. by apply HeD, Hsube.
    - destruct (Hclosed p HpD) as (o' & ? & Hsub). simplify_eq. by apply HeD, Hsub. }
  pose proof (topo_parents_inv ps g (λ _, D) ({[e]} ∪ D) _ e (NoDup_iter_set _ _) Hinv' Hpar) as Hst.
  destruct (topo_parents _ _ _ _) as [st'|err| |]; simpl in *; [|done..].
  eapply topo_inv_ext; [|apply Hst].
  intros x o Ho. destruct (decide (x ∈ ps)) as [Hx|Hx].
  - by rewrite remove_edge_in.
  - rewrite remove_edge_out by done. rewrite Hps in Hx.
    assert (e ∉ o) as Heo by (intros ?; apply Hx; eauto). clear -Heo. set_solver.
Qed.

Lemma topo_loop_kahn fuel g D st sorted :
  topo_inv g (λ _, D) D st → (∀ d, d ∈ D → ∃ o, g !! d = Some o ∧ o ⊆ D) →
  size (dom g ∖ D) ≤ fuel →
  match topo_loop details fuel st sorted with
  | Ret l => ∃ l', l = sorted ++ l' ∧ kahn details g D l'
  | Throw err => ∃ e, e ∈ dom g ∧ details e = Err err
  | _ => False
  end.
Proof.
  revert D st sorted. induction fuel as [|fuel IH]; intros D st sorted Hinv Hclosed Hfuel; simpl;
    (destruct (heap_pop (heap st)) as [[tb h]|] eqn:Hpop;
       [destruct (topo_inv_min _ _ _ _ _ Hinv Hpop) as [He Hmin]
       |exists []; rewrite app_nil_r; split; [done|]; constructor; intros e;
        rewrite (topo_inv_ready _ _ st) by done; apply heap_pop_none in Hpop;
        rewrite Hpop; apply not_elem_of_nil]);
    destruct He as [HeD (o & Ho & Hsub)];
    assert (tb_event_id tb ∈ dom g ∖ D) as HinD
      by (apply elem_of_difference; split; [by eapply elem_of_dom_2|done]).
  { assert (size (dom g ∖ D) = 0) as Hz by lia.
    apply size_empty_inv in Hz. by apply Hz, elem_of_empty in HinD. }
  pose proof (topo_round _ _ _ _ _ Hinv Hclosed Hpop) as Hround. simpl in Hround.
  destruct (topo_parents _ _ _ _) as [st'|err| |]; simpl in *; try done.
  set (e := tb_event_id tb) in *.
  specialize (IH ({[e]} ∪ D) st' (sorted ++ [e]) Hround).
  assert (match topo_loop details fuel st' (sorted ++ [e]) with
          | Ret l => ∃ l', l = (sorted ++ [e]) ++ l' ∧ kahn details g ({[e]} ∪ D) l'
          | Throw err => ∃ e, e ∈ dom g ∧ details e = Err err
          | _ => False
          end) as Hloop.
  { apply IH.
    - intros d [->%elem_of_singleton|Hd]%elem_of_union; [exists o; set_solver|].
      destruct (Hclosed d Hd) as (od & ? & ?). exists od. set_solver.
    - assert (size (dom g ∖ ({[e]} ∪ D)) < size (dom g ∖ D)); [|lia].
      apply subset_size. split; [set_solver|]. intros Hss. apply Hss in HinD. set_solver. }
  destruct (topo_loop _ _ _ _) as [l|err| |]; try done.
  destruct Hloop as (l' & -> & Hl'). exists (e :: l'). split; [by rewrite <- (assoc_L (++))|].
  constructor; [by split; [|exists o]|done|done].
Qed.

Lemma sort_kahn g :
  match reverse_topological_power_sort details g with
  | Ret l => kahn details g ∅ l
  | Throw err => ∃ e, e ∈ dom g ∧ details e = Err err
  | _ => False
  end.
Proof.
  unfold reverse_topological_power_sort.
  pose proof (topo_init_inv (iter_map ["graph"] g) ∅
    {| outgoing_edges_map := ∅; incoming_edges_map := ∅; heap := [] |}) as Hinit.
  assert (list_to_map (iter_map ["graph"] g) ∪ ∅ = g) as Hg.
  { rewrite (right_id_L ∅ (∪)). rewrite <- (list_to_map_to_list g) at 2.
    apply list_to_map_proper; [apply NoDup_iter_keys|apply iter_map_perm]. }
  rewrite Hg in Hinit.
  assert (step_ok g (topo_inv g (λ _, ∅) ∅) (topo_init details
    {| outgoing_edges_map := ∅; incoming_edges_map := ∅; heap := [] |} (iter_map ["graph"] g)))
    as Hst.
  { apply Hinit; [apply NoDup_iter_keys|set_solver|].
    split; simpl; [done| |set_solver|set_solver|constructor].
    intros a e. rewrite lookup_empty. set_solver. }
  destruct (topo_init _ _ _) as [st|err| |]; simpl in *; try done.
  pose proof (topo_loop_kahn (size g) g ∅ st [] Hst ltac:(set_solver)
                ltac:(by rewrite difference_empty_L, size_dom)) as Hloop.
  destruct (topo_loop _ _ _ _) as [l|err| |]; try done.
  by destruct Hloop as (l' & -> & ?).
Qed.

End algorithm.

(** ** Orderings of an acyclic graph *)

(** The edges lead to events of the graph, and do not form a cycle. *)
Definition auth_dag (g : Graph) : Prop :=
  ∃ rank : string → nat, ∀ e o a, g !! e = Some o → a ∈ o → a ∈ dom g ∧ rank a < rank e.

(** A topological ordering of all the events. *)
Definition linearizes (g : Graph) (l : list string) : Prop :=
  topological g ∅ l ∧ ∀ e, e ∈ dom g → e ∈ l.

(** Lexicographic comparison of two orderings. *)
Inductive lex_le (R : string → string → Prop) : list string → list string → Prop :=
| lex_nil l : lex_le R [] l
| lex_lt x y l l' : R x y → lex_le R (x :: l) (y :: l')
| lex_eq x l l' : lex_le R l l' → lex_le R (x :: l) (x :: l').

Section orderings.
Context (details : string → result Error (UserPowerLevel * Z)) (g : Graph).

Lemma topological_elements D l :
  topological g D l → NoDup l ∧ ∀ e, e ∈ l → e ∉ D ∧ e ∈ dom g.
Proof.
  revert D. induction l as [|x l IH]; simpl; intros D; [split; [constructor|set_solver]|].
  intros [[HxD (o & Ho & _)] Hl]. destruct (IH _ Hl) as [Hnd Hel]. split.
  - constructor; [|done]. intros Hx. destruct (Hel _ Hx) as [[]%not_elem_of_union _]. set_solver.
  - intros e [->|He]%elem_of_cons; [split; [done|by eapply elem_of_dom_2]|].
    destruct (Hel _ He) as [[]%not_elem_of_union ?]. done.
Qed.

(** In a topological ordering the edges of an event come before it. *)
Lemma topological_prefix D l1 e l2 o :
  topological g D (l1 ++ e :: l2) → g !! e = Some o → ∀ a, a ∈ o → a ∈ D ∨ a ∈ l1.
Proof.
  revert D. induction l1 as [|x l1 IH]; simpl; intros D.
  - intros [[_ (o' & ? & Hsub)] _] ? a Ha. simplify_eq. auto.
  - intros [_ Hl] Ho a Ha. destruct (IH _ Hl Ho a Ha) as [[->%elem_of_singleton|]%elem_of_union|];
      rewrite ?elem_of_cons; auto.
Qed.

Lemma kahn_complete D l :
  auth_dag g → kahn details g D l → ∀ e, e ∈ dom g → e ∈ D ∨ e ∈ l.
Proof.
  intros (rank & Hrank) Hk. induction Hk as [D Hno|D x l _ _ _ IH].
  - assert (∀ n e, rank e < n → e ∈ dom g → e ∈ D) as Hall.
    { induction n as [|n IHn]; intros e Hn He; [lia|].
      destruct (decide (e ∈ D)) as [|HeD]; [done|]. apply elem_of_dom in He as [o Ho].
      destruct (Hno e). split; [done|]. exists o. split; [done|]. intros a Ha.
      destruct (Hrank _ _ _ Ho Ha). apply IHn; [lia|done]. }
    eauto.
  - intros e He. destruct (IH e He) as [[->%elem_of_singleton|]%elem_of_union|];
      rewrite ?elem_of_cons; auto.
Qed.

Lemma kahn_smallest D l l' :
  kahn details g D l → topological g D l' → (∀ e, e ∈ dom g → e ∈ D ∨ e ∈ l') →
  lex_le (before details) l l'.
Proof.
  intros Hk. revert l'. induction Hk as [D Hno|D x l Hx Hmin _ IH]; intros l' Htop Hall.
  { constructor. }
  destruct l' as [|y l']; simpl in Htop.
  - destruct Hx as [HxD (o & Ho & _)]. apply elem_of_dom_2 in Ho.
    destruct (Hall x Ho) as [|?%elem_of_nil]; done.
  - destruct Htop as [Hy Htop]. destruct (Hmin y Hy) as [->|]; [|by constructor].
    apply lex_eq, IH; [done|]. intros e He.
    destruct (Hall e He) as [|[->|]%elem_of_cons]; set_solver.
Qed.

End orderings.

(** ** The theorems *)

Section theorems.
Context (details : string → result Error (UserPowerLevel * Z)) (g : Graph).

(** Whatever the order in which the hash maps are iterated, the sort returns the
    ordering of the specification, or the error of the details of an event of the
    graph; it terminates, and neither of its [expect]s is reached. *)
Theorem sort_computes_kahn `{!HashIter} :
  (∃ l, reverse_topological_power_sort details g = Ret l ∧ kahn details g ∅ l) ∨
  (∃ err e, reverse_topological_power_sort details g = Throw err ∧
     e ∈ dom g ∧ details e = Err err).
Proof.
  pose proof (sort_kahn details g) as Hs.
  destruct (reverse_topological_power_sort details g) as [l|err| |];
    [left|right|done|done]; [eauto|].
  destruct Hs as (e & ? & ?). eauto 10.
Qed.

Hypothesis Hdetails : ∀ e, e ∈ dom g → ∃ d, details e = Ok d.

Lemma sort_returns `{!HashIter} :
  ∃ l, reverse_topological_power_sort details g = Ret l ∧ kahn details g ∅ l.
Proof using Hdetails.
  pose proof (sort_kahn details g) as Hs.
  destruct (reverse_topological_power_sort details g) as [l|err| |]; [by eauto| |done|done].
  destruct Hs as (e & He & Herr). destruct (Hdetails e He) as [d ?]. congruence.
Qed.

(** The ordering does not depend on the iteration order of the hash maps. *)
Theorem sort_deterministic (H1 H2 : HashIter) :
  @reverse_topological_power_sort H1 details g = @reverse_topological_power_sort H2 details g.
Proof using Hdetails.
  destruct (@sort_returns H1) as (l1 & -> & Hk1), (@sort_returns H2) as (l2 & -> & Hk2).
  f_equal. by eapply kahn_unique.
Qed.

Lemma sort_linearizes `{!HashIter} l :
  auth_dag g → kahn details g ∅ l →
  l ≡ₚ elements (dom g) ∧ ∀ l1 e l2 o a, l = l1 ++ e :: l2 → g !! e = Some o → a ∈ o → a ∈ l1.
Proof.
  intros Hdag Hk. pose proof (kahn_topological _ _ _ _ Hk) as Htop.
  destruct (topological_elements _ _ _ Htop) as [Hnd Hel]. split.
  - apply NoDup_Permutation; [done|apply NoDup_elements|]. intros e.
    rewrite elem_of_elements. split; [naive_solver|].
    intros He. destruct (kahn_complete _ _ _ _ Hdag Hk e He); set_solver.
  - intros l1 e l2 o a -> Ho Ha.
    destruct (topological_prefix _ _ _ _ _ _ Htop Ho a Ha); set_solver.
Qed.

(** C16. On an acyclic graph the ordering lists every event once, each after its
    auth events, and no ordering of the events that does so is smaller. *)
Theorem sort_smallest `{!HashIter} :
  auth_dag g →
  ∃ l, reverse_topological_power_sort details g = Ret l ∧ l ≡ₚ elements (dom g) ∧
    (∀ l1 e l2 o a, l = l1 ++ e :: l2 → g !! e = Some o → a ∈ o → a ∈ l1) ∧
    ∀ l', linearizes g l' → lex_le (before details) l l'.
Proof using Hdetails.
  intros Hdag. destruct sort_returns as (l & Hl & Hk). exists l. split; [done|].
  destruct (sort_linearizes l Hdag Hk). split_and!; [done..|].
  intros l' [Htop Hall]. eapply kahn_smallest; [done..|]. auto.
Qed.

End theorems.

(** ** A small graph *)

(** [b] and [c] refer to [a], [d] to both; [c]'s sender has the greater level. *)
Definition sample_graph : Graph :=
  {["a" := ∅; "b" := {["a"]}; "c" := {["a"]}; "d" := {["b"; "c"]}]}.

Definition sample_details (e : string) : result Error (UserPowerLevel * Z) :=
  if String.eqb e "c" then Ok (Int 100, 7%Z) else Ok (Int 50, 3%Z).

Lemma sample_details_ok e : e ∈ dom sample_graph → ∃ d, sample_details e = Ok d.
Proof. intros _. unfold sample_details. case_match; eauto. Qed.

Lemma sample_graph_dag : auth_dag sample_graph.
Proof.
  exists (λ e, if String.eqb e "a" then 0 else if String.eqb e "d" then 2 else 1).
  assert (map_Forall (λ e o, set_Forall (λ a, a ∈ dom sample_graph ∧
    (if String.eqb a "a" then 0 else if String.eqb a "d" then 2 else 1) <
    (if String.eqb e "a" then 0 else if String.eqb e "d" then 2 else 1)) o) sample_graph) as Hall.
  { by_decide. }
  intros e o a He Ha. by apply (Hall e o He).
Qed.

Lemma sort_deterministic_witness :
  @reverse_topological_power_sort hash_iter_std sample_details sample_graph =
  @reverse_topological_power_sort hash_iter_rev sample_details sample_graph.
Proof.
  apply (sort_deterministic sample_details sample_graph sample_details_ok).
Defined.

#[local] Existing Instance hash_iter_std.

Lemma sample_graph_linear : linearizes sample_graph ["a"; "b"; "c"; "d"].
Proof.
  split.
  - simpl. unfold ready. split_and!; try done; try set_solver;
      eexists; (split; [reflexivity|set_solver]).
  - assert (set_Forall (λ e, e ∈ ["a"; "b"; "c"; "d"]) (dom sample_graph)) as Hall
      by by_decide.
    apply Hall.
Qed.

Lemma sort_smallest_witness :
  ∃ l, reverse_topological_power_sort sample_details sample_graph = Ret l ∧
    l ≡ₚ elements (dom sample_graph) ∧ lex_le (before sample_details) l ["a"; "b"; "c"; "d"].
Proof.
  destruct (sort_smallest sample_details sample_graph sample_details_ok sample_graph_dag) as (l & ? & ? & _ & Hl).
  exists l. split_and!; [done..|]. apply Hl, sample_graph_linear.
Defined.
