(* ===== verification/Resolve.v ===== *)
(** * State resolution

    [common-state-res/src/resolve.rs]: [resolve] and the steps it is made of,
    over the store [fetch_event].  The walks along auth events have no bound in
    the code (they end because events refer to older events); here they take fuel
    from the argument [fuel]. *)

From S2P Require Import Prelude Identifiers RoomVersionRules CanonicalJson Signatures Events EventAuth TopoSort.

Abbreviation StateMap := (gmap (string * string)).

(** The values of [order_map] in [mainline_sort]. *)
Abbreviation MainlineKey := ((option nat * option Z) * string)%type.

(** ** Conflicted state *)

Section conflicts.
Context `{!HashIter}.

(** [state_maps.flatten()] *)
Fixpoint flatten_maps {V} (site : list string) (maps : list (StateMap V))
    : list ((string * string) * V) :=
  match maps with
  | [] => []
  | m :: maps => iter_map site m ++ flatten_maps ("next" :: site) maps
  end.

(** [occurrences.entry(k).or_default().entry(v).and_modify(|x| *x += 1).or_insert(1)] *)
Definition count_occurrence (occurrences : StateMap (gmap string nat))
    (kv : (string * string) * string) : StateMap (gmap string nat) :=
  let counts := default ∅ (occurrences !! kv.1) in
  <[kv.1 := <[kv.2 := match counts !! kv.2 with Some x => S x | None => 1 end]> counts]>
    occurrences.

(** One id of the second loop: the two maps being built. *)
Definition split_one (state_set_count : nat) (k : string * string)
    (acc : StateMap string * StateMap (list string)) (e : string * nat)
    : StateMap string * StateMap (list string) :=
  let '(unconflicted, conflicted) := acc in
  if Nat.eqb e.2 state_set_count
  then (<[k := e.1]> unconflicted, conflicted)
  else (unconflicted,
        <[k := match conflicted !! k with Some x => x ++ [e.1] | None => [e.1] end]> conflicted).

(** [split_conflicted_state_set] *)
Definition split_conflicted_state_set (state_maps : list (StateMap string))
    : StateMap string * StateMap (list string) :=
  let occurrences := foldl count_occurrence ∅ (flatten_maps ["state_maps"] state_maps) in
  foldl (λ acc kv, foldl (split_one (length state_maps) kv.1) acc
                     (iter_map ["occurrences"; kv.1.1; kv.1.2] kv.2))
    (∅, ∅) (iter_map ["occurrences"] occurrences).

(** [auth_chains.into_iter().flatten()] *)
Fixpoint flatten_sets (site : list string) (sets : list (gset string)) : list string :=
  match sets with
  | [] => []
  | s :: sets => iter_set site s ++ flatten_sets ("next" :: site) sets
  end.

(** [*id_counts.entry(id).or_default() += 1] *)
Definition count_id (id_counts : gmap string nat) (id : string) : gmap string nat :=
  <[id := S (default 0 (id_counts !! id))]> id_counts.

(** [auth_difference] *)
Definition auth_difference (auth_chains : list (gset string)) : list string :=
  let num_sets := length auth_chains in
  let id_counts := foldl count_id ∅ (flatten_sets ["auth_chains"] auth_chains) in
  omap (λ e, if Nat.ltb e.2 num_sets then Some e.1 else None)
    (iter_map ["id_counts"] id_counts).

End conflicts.

Section resolve.
Context {RawJson : Type} `{!External RawJson}.

#[local] Abbreviation Event := (Pdu RawJson).

Context (fetch_event : string → option Event).

(** ** Power events *)

(** [is_type_and_key] *)
Definition is_type_and_key (ev : Event) (ty sk : string) : bool :=
  String.eqb (event_type ev) ty && bool_decide (state_key ev = Some sk).

(** [is_power_event] *)
Definition is_power_event (ev : Event) : bool :=
  if String.eqb (event_type ev) RoomPowerLevels || String.eqb (event_type ev) RoomJoinRules
     || String.eqb (event_type ev) RoomCreate
  then bool_decide (state_key ev = Some EmptyString)
  else if String.eqb (event_type ev) RoomMember then
    match membership ev with
    | Ret (Leave | Ban) => negb (bool_decide (Some (sender ev) = state_key ev))
    | _ => false
    end
  else false.

(** [is_power_event_id] *)
Definition is_power_event_id (event_id : string) : bool :=
  match fetch_event event_id with
  | Some ev => is_power_event ev
  | None => false
  end.

(** ** The graph of power events *)

Section graph.
Context (full_conflicted_set : gset string).

(** One auth event in the loop of [add_event_and_auth_chain_to_graph]; the head of
    [state] is the end of the vector. *)
Definition graph_visit (event_id : string) (acc : Graph * list string)
    (auth_event_id : string) : outcome Error (Graph * list string) :=
  let '(graph, state) := acc in
  if bool_decide (auth_event_id ∈ full_conflicted_set) then
    let state := if bool_decide (auth_event_id ∈ dom graph) then state
                 else auth_event_id :: state in
    match graph !! event_id with
    | None => Panic
    | Some edges => Ret (<[event_id := {[auth_event_id]} ∪ edges]> graph, state)
    end
  else Ret (graph, state).

Fixpoint graph_visit_all (event_id : string) (acc : Graph * list string)
    (auth_event_ids : list string) : outcome Error (Graph * list string) :=
  match auth_event_ids with
  | [] => Ret acc
  | a :: auth_event_ids =>
      let! acc := graph_visit event_id acc a in graph_visit_all event_id acc auth_event_ids
  end.

Definition opt_auth_events (event_id : string) : list string :=
  match fetch_event event_id with Some ev => auth_events ev | None => [] end.

(** The loop of [add_event_and_auth_chain_to_graph]. *)
Fixpoint graph_loop (fuel : nat) (graph : Graph) (state : list string) : outcome Error Graph :=
  match state with
  | [] => Ret graph
  | event_id :: state =>
      match fuel with
      | 0 => OutOfFuel
      | S fuel =>
          let graph := <[event_id := default ∅ (graph !! event_id)]> graph in
          let! acc := graph_visit_all event_id (graph, state) (opt_auth_events event_id) in
          graph_loop fuel acc.1 acc.2
      end
  end.

(** An event is pushed only by the first visit of one that refers to it. *)
Definition graph_fuel (event_id : string) : nat :=
  S (sum_list_with (λ e, length (opt_auth_events e)) (elements ({[event_id]} ∪ full_conflicted_set))).

(** [add_event_and_auth_chain_to_graph] *)
Definition add_event_and_auth_chain_to_graph (graph : Graph) (event_id : string)
    : outcome Error Graph :=
  graph_loop (graph_fuel event_id) graph [event_id].

Fixpoint add_all_to_graph (graph : Graph) (event_ids : list string) : outcome Error Graph :=
  match event_ids with
  | [] => Ret graph
  | event_id :: event_ids =>
      let! graph := add_event_and_auth_chain_to_graph graph event_id in
      add_all_to_graph graph event_ids
  end.

End graph.

(** ** The power level of a sender *)

(** [event.room_id().and_then(|id| id.room_create_event_id().ok()).and_then(fetch_event)] *)
Definition fetch_create_by_room_id (ev : Event) : option Event :=
  rid ← room_id ev;
  id ← result_ok (room_create_event_id rid);
  fetch_event id.

(** The loop over the auth events of [power_level_for_sender]: the create event and
    the power levels event found. *)
Fixpoint find_create_and_levels (rules : AuthorizationRules) (have_creators : bool)
    (create levels : option Event) (auth_event_ids : list string)
    : option Event * option Event :=
  match auth_event_ids with
  | [] => (create, levels)
  | id :: ids =>
      match fetch_event id with
      | None => find_create_and_levels rules have_creators create levels ids
      | Some auth_event =>
          let '(create, levels) :=
            if is_type_and_key auth_event RoomPowerLevels EmptyString
            then (create, Some auth_event)
            else if negb (room_create_event_id_as_room_id rules) && negb have_creators
                    && is_type_and_key auth_event RoomCreate EmptyString
            then (Some auth_event, levels)
            else (create, levels) in
          if bool_decide (is_Some levels)
             && (room_create_event_id_as_room_id rules || have_creators
                 || bool_decide (is_Some create))
          then (create, levels)
          else find_create_and_levels rules have_creators create levels ids
      end
  end.

(** [power_level_for_sender]: the level, and the content of [creators_lock]
    afterwards. *)
Definition power_level_for_sender (event_id : string) (rules : AuthorizationRules)
    (creators_lock : option (gset string))
    : outcome string (UserPowerLevel * option (gset string)) :=
  let event := fetch_event event_id in
  let have_creators := bool_decide (is_Some creators_lock) in
  let create :=
    match event with
    | Some ev =>
        if room_create_event_id_as_room_id rules && negb have_creators
        then fetch_create_by_room_id ev else None
    | None => None
    end in
  let '(create, levels) :=
    find_create_and_levels rules have_creators create None (opt_auth_events event_id) in
  let! lock :=
    match creators_lock, create with
    | Some cs, _ => Ret (Some cs)
    | None, Some create_event => let! cs := creators create_event rules in Ret (Some cs)
    | None, None => Ret None
    end in
  match event, lock with
  | Some ev, Some cs =>
      let! l := opt_user_power_level levels (sender ev) cs rules in Ret (l, lock)
  | _, _ =>
      let! z := opt_get_as_int_or_default levels UsersDefault rules in Ret (Int z, lock)
  end.

(** ** Sorting the power events *)

(** The loop over [graph.keys()]. *)
Fixpoint power_levels_of (rules : AuthorizationRules) (lock : option (gset string))
    (levels : gmap string UserPowerLevel) (event_ids : list string)
    : outcome Error (gmap string UserPowerLevel) :=
  match event_ids with
  | [] => Ret levels
  | event_id :: event_ids =>
      match power_level_for_sender event_id rules lock with
      | Ret (l, lock) => power_levels_of rules lock (<[event_id := l]> levels) event_ids
      | Throw e => Throw (AuthEvent e)
      | Panic => Panic
      | OutOfFuel => OutOfFuel
      end
  end.

(** The closure given to [reverse_topological_power_sort]. *)
Definition event_details (event_to_power_level : gmap string UserPowerLevel) (event_id : string)
    : result Error (UserPowerLevel * Z) :=
  match fetch_event event_id with
  | None => Err (NotFound event_id)
  | Some ev =>
      match event_to_power_level !! event_id with
      | None => Err (NotFound event_id)
      | Some power_level => Ok (power_level, origin_server_ts ev)
      end
  end.

(** [sort_power_events] *)
Definition sort_power_events `{!HashIter} (conflicted_power_events : list string)
    (full_conflicted_set : gset string) (rules : AuthorizationRules)
    : outcome Error (list string) :=
  let! graph := add_all_to_graph full_conflicted_set ∅ conflicted_power_events in
  let! event_to_power_level :=
    power_levels_of rules None ∅ (iter_keys ["graph"; "keys"] graph) in
  reverse_topological_power_sort (event_details event_to_power_level) graph.

(** ** Iterative auth checks *)

(** The loop over the auth events of an event. *)
Fixpoint collect_auth_events (acc : StateMap Event) (auth_event_ids : list string)
    : outcome Error (StateMap Event) :=
  match auth_event_ids with
  | [] => Ret acc
  | id :: ids =>
      match fetch_event id with
      | Some auth_event =>
          if rejected auth_event then collect_auth_events acc ids
          else
            match state_key auth_event with
            | None => Throw MissingStateKey
            | Some sk => collect_auth_events (<[(event_type auth_event, sk) := auth_event]> acc) ids
            end
      | None => collect_auth_events acc ids
      end
  end.

(** The loop over the auth types: the events of the state replace those of the
    event's own auth events. *)
Definition overlay_state (state : StateMap string) (acc : StateMap Event)
    (auth_types : list (string * string)) : StateMap Event :=
  foldl (λ acc key,
    match state !! key ≫= fetch_event with
    | Some auth_event => if rejected auth_event then acc else <[key := auth_event]> acc
    | None => acc
    end) acc auth_types.

(** The events an event is checked against: [None] when its auth types cannot be
    computed. *)
Definition auth_state (rules : AuthorizationRules) (ev : Event) (state : StateMap string)
    : outcome Error (option (StateMap Event)) :=
  let! acc := collect_auth_events ∅ (auth_events ev) in
  let acc :=
    if room_create_event_id_as_room_id rules && negb (String.eqb (event_type ev) RoomCreate)
    then match fetch_create_by_room_id ev with
         | Some create => <[(RoomCreate, EmptyString) := create]> acc
         | None => acc
         end
    else acc in
  match event_auth_types ev rules with
  | Ret auth_types => Ret (Some (overlay_state state acc auth_types))
  | Throw _ => Ret None
  | Panic => Panic
  | OutOfFuel => OutOfFuel
  end.

(** One event of [iterative_auth_checks]. *)
Definition auth_check_step (rules : AuthorizationRules) (state : StateMap string)
    (event_id : string) : outcome Error (StateMap string) :=
  match fetch_event event_id with
  | None => Throw (NotFound event_id)
  | Some ev =>
      match state_key ev with
      | None => Throw MissingStateKey
      | Some sk =>
          let! m := auth_state rules ev state in
          match m with
          | None => Ret state
          | Some auth_events =>
              match check_state_dependent_auth_rules rules ev (λ ty key, auth_events !! (ty, key)) with
              | Ret _ => Ret (<[(event_type ev, sk) := event_id]> state)
              | Throw _ => Ret state
              | Panic => Panic
              | OutOfFuel => OutOfFuel
              end
          end
      end
  end.

(** [iterative_auth_checks] *)
Fixpoint iterative_auth_checks (rules : AuthorizationRules) (events : list string)
    (state : StateMap string) : outcome Error (StateMap string) :=
  match events with
  | [] => Ret state
  | event_id :: events =>
      let! state := auth_check_step rules state event_id in
      iterative_auth_checks rules events state
  end.

(** ** Mainline ordering *)

(** The first power levels event among auth events; [missing id] is the error when
    the auth event [id] is not found. *)
Fixpoint find_power_levels (missing : string → Error) (auth_event_ids : list string)
    : outcome Error (option (string * Event)) :=
  match auth_event_ids with
  | [] => Ret None
  | id :: ids =>
      match fetch_event id with
      | None => Throw (missing id)
      | Some auth_event =>
          if is_type_and_key auth_event RoomPowerLevels EmptyString
          then Ret (Some (id, auth_event))
          else find_power_levels missing ids
      end
  end.

(** The first loop of [mainline_sort]: the mainline, most recent event first. *)
Fixpoint mainline_loop (fuel : nat) (power_level : option string) (mainline : list string)
    : outcome Error (list string) :=
  match power_level with
  | None => Ret mainline
  | Some id =>
      match fuel with
      | 0 => OutOfFuel
      | S fuel =>
          match fetch_event id with
          | None => Throw (NotFound id)
          | Some ev =>
              let! next := find_power_levels (λ _, NotFound id) (auth_events ev) in
              mainline_loop fuel (fst <$> next) (mainline ++ [id])
          end
      end
  end.

(** [mainline.iter().rev().enumerate()], collected in a map: the oldest event has
    position 1. *)
Definition mainline_positions (mainline : list string) : gmap string nat :=
  foldl (λ m e, <[e.2 := S e.1]> m) ∅ (imap (λ i id, (i, id)) (reverse mainline)).

(** [mainline_position] *)
Fixpoint mainline_position (fuel : nat) (event : Event) (mainline_map : gmap string nat)
    : outcome Error (option nat) :=
  match fuel with
  | 0 => OutOfFuel
  | S fuel =>
      match mainline_map !! event_id event with
      | Some position => Ret (Some position)
      | None =>
          let! next := find_power_levels NotFound (auth_events event) in
          match next with
          | None => Ret None
          | Some (_, ev) => mainline_position fuel ev mainline_map
          end
      end
  end.

(** The loop that fills [order_map]. *)
Fixpoint order_events (fuel : nat) (mainline_map : gmap string nat)
    (order_map : gmap string MainlineKey) (events : list string)
    : outcome Error (gmap string MainlineKey) :=
  match events with
  | [] => Ret order_map
  | id :: events =>
      match fetch_event id with
      | None => order_events fuel mainline_map order_map events
      | Some ev =>
          match mainline_position fuel ev mainline_map with
          | Ret position =>
              order_events fuel mainline_map
                (<[id := ((position, origin_server_ts <$> fetch_event id), id)]> order_map) events
          | Throw _ => order_events fuel mainline_map order_map events
          | Panic => Panic
          | OutOfFuel => OutOfFuel
          end
      end
  end.

(** The comparison of the keys of [order_map]. *)
Definition mainline_cmp : MainlineKey → MainlineKey → comparison :=
  pair_cmp (pair_cmp (option_cmp Nat.compare) (option_cmp Z.compare)) String.compare.

(** [sort_by_key] over the keys of [order_map]; each of them has an entry. *)
Definition order_le (order_map : gmap string MainlineKey) (x y : string) : Prop :=
  cmp_le (option_cmp mainline_cmp) (order_map !! x) (order_map !! y).

#[local] Instance order_le_dec order_map : RelDecision (order_le order_map).
Proof. intros x y. unfold order_le. apply _. Defined.

(** [mainline_sort] *)
Definition mainline_sort `{!HashIter} (fuel : nat) (events : list string)
    (power_level : option string) : outcome Error (list string) :=
  match events with
  | [] => Ret []
  | _ =>
      let! mainline := mainline_loop fuel power_level [] in
      let! order_map := order_events fuel (mainline_positions mainline) ∅ events in
      Ret (merge_sort (order_le order_map) (iter_keys ["order_map"] order_map))
  end.

(** ** [resolve] *)

(** The full conflicted set. *)
Definition full_conflicted_set `{!HashIter} (auth_chains : list (gset string))
    (conflicted : StateMap (list string)) (subgraph : gset string) : gset string :=
  list_to_set
    (filter (λ id, is_Some (fetch_event id))
       (auth_difference auth_chains
        ++ concat ((iter_map ["conflicted_state_set"] conflicted).*2)
        ++ iter_set ["conflicted_state_subgraph"] subgraph)).

Definition resolve `{!HashIter} (fuel : nat) (auth_rules : AuthorizationRules)
    (state_res_rules : StateResolutionV2Rules) (state_maps : list (StateMap string))
    (auth_chains : list (gset string))
    (fetch_conflicted_state_subgraph : StateMap (list string) → option (gset string))
    : outcome Error (StateMap string) :=
  let '(unconflicted, conflicted) := split_conflicted_state_set state_maps in
  if bool_decide (conflicted = ∅) then Ret unconflicted
  else
    let! subgraph :=
      if consider_conflicted_state_subgraph state_res_rules
      then match fetch_conflicted_state_subgraph conflicted with
           | Some s => Ret s
           | None => Throw FetchConflictedStateSubgraphFailed
           end
      else Ret ∅ in
    let full := full_conflicted_set auth_chains conflicted subgraph in
    let conflicted_power_events :=
      filter (λ id, is_power_event_id id) (iter_set ["full"; "power_events"] full) in
    let! sorted_power_events := sort_power_events conflicted_power_events full auth_rules in
    let initial :=
      if begin_iterative_auth_checks_with_empty_state_map state_res_rules then ∅
      else unconflicted in
    let! partially_resolved := iterative_auth_checks auth_rules sorted_power_events initial in
    let remaining_events :=
      filter (λ id, id ∉ (list_to_set sorted_power_events : gset string))
        (iter_set ["full"; "remaining"] full) in
    let power_event := partially_resolved !! (RoomPowerLevels, EmptyString) in
    let! sorted_remaining_events := mainline_sort fuel remaining_events power_event in
    let! resolved := iterative_auth_checks auth_rules sorted_remaining_events partially_resolved in
    Ret (unconflicted ∪ resolved).

End resolve.
