(* ===== verification/ConflictSets.v ===== *)
(** * Conflicted state and auth difference

    What [split_conflicted_state_set] and [auth_difference] compute, by counting,
    against their definitions in the specification. *)

From S2P Require Import Prelude Events TopoSort Resolve.

(** ** Counting *)

(** [x += 1], from an absent entry. *)
Definition incr (x : option nat) : option nat :=
  Some (match x with Some x => S x | None => 1 end).

Lemma iter_incr_none n : Nat.iter n incr None = if decide (n = 0) then None else Some n.
Proof.
  induction n as [|n IH]; [done|]. simpl. rewrite IH. unfold incr.
  repeat case_decide; try done; by f_equal; lia.
Qed.

(** The number of occurrences of an element in a list. *)
Definition occurs {A} `{EqDecision A} (x : A) (l : list A) : nat := length (filter (x =.) l).

Lemma occurs_app {A} `{EqDecision A} (x : A) l1 l2 : occurs x (l1 ++ l2) = occurs x l1 + occurs x l2.
Proof. unfold occurs. by rewrite filter_app, length_app. Qed.

Lemma occurs_NoDup {A} `{EqDecision A} (x : A) l :
  NoDup l → occurs x l = if decide (x ∈ l) then 1 else 0.
Proof.
  unfold occurs. induction 1 as [|y l Hy _ IH]; [done|].
  rewrite filter_cons. destruct (decide (x = y)) as [->|Hne].
  - rewrite decide_True by constructor. simpl. rewrite IH. by rewrite decide_False.
  - rewrite IH. destruct (decide (x ∈ l)); [rewrite decide_True|rewrite decide_False];
      rewrite ?elem_of_cons; naive_solver.
Qed.

Lemma filter_length_all {A} (P : A → Prop) `{!∀ x, Decision (P x)} l :
  length (filter P l) = length l ↔ ∀ x, x ∈ l → P x.
Proof.
  induction l as [|x l IH]; [split; [set_solver|done]|]. rewrite filter_cons.
  pose proof (length_filter P l) as Hle. setoid_rewrite elem_of_cons.
  case_decide as Hx; simpl.
  - rewrite Nat.succ_inj_wd, IH. naive_solver.
  - split; [lia|]. intros Hall. destruct Hx. auto.
Qed.

Lemma filter_length_zero {A} (P : A → Prop) `{!∀ x, Decision (P x)} l :
  length (filter P l) = 0 ↔ ∀ x, x ∈ l → ¬ P x.
Proof.
  rewrite length_zero_iff_nil. split.
  - intros Hnil x Hx HP. assert (x ∈ filter P l) as Hin by (by apply list_elem_of_filter).
    rewrite Hnil in Hin. by apply elem_of_nil in Hin.
  - intros Hall. destruct (filter P l) as [|x l'] eqn:Hl; [done|].
    assert (x ∈ filter P l) as [? ?]%list_elem_of_filter by (rewrite Hl; constructor).
    by destruct (Hall x).
Qed.

Lemma filter_length_some {A} (P : A → Prop) `{!∀ x, Decision (P x)} l :
  length (filter P l) ≠ 0 ↔ ∃ x, x ∈ l ∧ P x.
Proof.
  rewrite filter_length_zero. split; [|naive_solver]. intros Hn.
  destruct (decide (Exists P l)) as [Hex|Hno]; [by apply list.Exists_exists in Hex|].
  destruct Hn. intros x ? ?. apply Hno, list.Exists_exists. eauto.
Qed.

Lemma filter_length_not_all {A} (P : A → Prop) `{!∀ x, Decision (P x)} l :
  length (filter P l) ≠ length l ↔ ∃ x, x ∈ l ∧ ¬ P x.
Proof.
  rewrite filter_length_all. split; [|naive_solver]. intros Hn.
  destruct (decide (Exists (λ x, ¬ P x) l)) as [Hex|Hno]; [by apply list.Exists_exists in Hex|].
  destruct Hn. intros x ?. destruct (decide (P x)); [done|].
  destruct Hno. apply list.Exists_exists. eauto.
Qed.

(** ** [split_conflicted_state_set] *)

Section split.
Context `{!HashIter}.
Implicit Types (maps : list (StateMap string)) (k : string * string) (v : string).

(** The number of maps that have [v] at [k]. *)
Definition holders maps k v : nat := length (filter (λ m : StateMap string, m !! k = Some v) maps).

(** The count of [v] at [k]. *)
Definition count_at (o : StateMap (gmap string nat)) k v : option nat := o !! k ≫= lookup v.

Lemma count_at_step o kv k v :
  count_at (count_occurrence o kv) k v =
  if decide ((k, v) = kv) then incr (count_at o k v) else count_at o k v.
Proof.
  destruct kv as [k' v']. unfold count_at, count_occurrence. simpl.
  destruct (decide (k = k')) as [->|Hk].
  - rewrite lookup_insert_eq. simpl. destruct (decide (v = v')) as [->|Hv].
    + rewrite lookup_insert_eq, decide_True by done. by destruct (o !! k').
    + rewrite lookup_insert_ne, decide_False by congruence. by destruct (o !! k').
  - rewrite lookup_insert_ne by done. by rewrite decide_False by congruence.
Qed.

Lemma count_at_foldl l o k v :
  count_at (foldl count_occurrence o l) k v = Nat.iter (occurs (k, v) l) incr (count_at o k v).
Proof.
  unfold occurs. revert o. induction l as [|kv l IH]; intros o; [done|].
  simpl. rewrite IH, count_at_step, filter_cons.
  case_decide; [|done]. simpl. rewrite <- Nat.iter_succ_r. done.
Qed.

Lemma occurs_flatten_maps site maps k v : occurs (k, v) (flatten_maps site maps) = holders maps k v.
Proof.
  unfold holders. revert site. induction maps as [|m maps IH]; intros site; [done|].
  simpl. rewrite occurs_app, IH, filter_cons, occurs_NoDup
    by (rewrite iter_map_perm; apply NoDup_map_to_list).
  destruct (decide (m !! k = Some v)) as [Hm|Hm];
    [rewrite decide_True|rewrite decide_False]; rewrite ?elem_of_iter_map; done.
Qed.

Definition occurrences maps : StateMap (gmap string nat) :=
  foldl count_occurrence ∅ (flatten_maps ["state_maps"] maps).

Lemma count_at_occurrences maps k v n :
  count_at (occurrences maps) k v = Some n ↔ n = holders maps k v ∧ n ≠ 0.
Proof.
  unfold occurrences. rewrite count_at_foldl, occurs_flatten_maps.
  unfold count_at. rewrite lookup_empty. simpl. rewrite iter_incr_none.
  case_decide; naive_solver.
Qed.

(** All the entries of the occurrence map, in the order of the second loop. *)
Definition entries (o : StateMap (gmap string nat)) : list ((string * string) * (string * nat)) :=
  kv ← iter_map ["occurrences"] o;
  e ← iter_map ["occurrences"; kv.1.1; kv.1.2] kv.2;
  [(kv.1, e)].

Lemma elem_of_entries o k v n : (k, (v, n)) ∈ entries o ↔ count_at o k v = Some n.
Proof.
  unfold entries, count_at. rewrite list_elem_of_bind. setoid_rewrite list_elem_of_bind.
  setoid_rewrite list_elem_of_singleton. split.
  - intros ([k' c] & ([v' n'] & Heq & He) & Hk). simplify_eq/=.
    apply elem_of_iter_map in Hk, He. by rewrite Hk.
  - destruct (o !! k) as [c|] eqn:Hk; [|done]. simpl. intros Hv. exists (k, c).
    rewrite elem_of_iter_map. split; [|done]. exists (v, n). by rewrite elem_of_iter_map.
Qed.

Definition split_entry (N : nat) (acc : StateMap string * StateMap (list string))
    (e : (string * string) * (string * nat)) :=
  split_one N e.1 acc e.2.

Lemma split_as_entries maps :
  split_conflicted_state_set maps =
  foldl (split_entry (length maps)) (∅, ∅) (entries (occurrences maps)).
Proof.
  unfold split_conflicted_state_set, entries. fold (occurrences maps).
  generalize (∅ : StateMap string, ∅ : StateMap (list string)).
  induction (iter_map ["occurrences"] (occurrences maps)) as [|kv l IH]; intros acc; [done|].
  simpl. rewrite foldl_app, <- IH. f_equal. clear IH.
  generalize (iter_map ["occurrences"; kv.1.1; kv.1.2] kv.2). intros l'. revert acc.
  induction l' as [|e l' IH]; intros acc; [done|]. simpl. by rewrite IH.
Qed.

Lemma split_fold_unconflicted N E k v :
  (∀ v v', (k, (v, N)) ∈ E → (k, (v', N)) ∈ E → v = v') →
  (foldl (split_entry N) (∅, ∅) E).1 !! k = Some v ↔ (k, (v, N)) ∈ E.
Proof.
  induction E as [|[k' [v' n]] E IH] using rev_ind; intros Huniq; simpl.
  { rewrite lookup_empty, elem_of_nil. done. }
  assert (∀ v v', (k, (v, N)) ∈ E → (k, (v', N)) ∈ E → v = v') as HuniqE.
  { intros v1 v2 ? ?. apply Huniq; apply elem_of_app; by left. }
  specialize (IH HuniqE).
  rewrite foldl_app, elem_of_app, list_elem_of_singleton, <- IH.
  destruct (foldl (split_entry N) (∅, ∅) E) as [u c] eqn:Hf. simpl in *.
  unfold split_entry, split_one. simpl.
  destruct (Nat.eqb_spec n N) as [->|Hn]; simpl; [|split; [by left|by intros [|[=]]]].
  destruct (decide (k = k')) as [->|Hk].
  - rewrite lookup_insert_eq. split; [intros [= ->]; by right|].
    intros [Hu|[= ->]]; [|done]. f_equal. apply IH in Hu.
    apply Huniq; apply elem_of_app; [right; constructor|by left].
  - rewrite lookup_insert_ne by done. split; [by left|by intros [|[=]]].
Qed.

Lemma split_fold_conflicted N E k :
  match (foldl (split_entry N) (∅, ∅) E).2 !! k with
  | Some l => l ≠ [] ∧ ∀ v, v ∈ l ↔ ∃ n, n ≠ N ∧ (k, (v, n)) ∈ E
  | None => ∀ v n, n ≠ N → (k, (v, n)) ∉ E
  end.
Proof.
  induction E as [|[k' [v' n]] E IH] using rev_ind; simpl.
  { rewrite lookup_empty. intros v n _. apply not_elem_of_nil. }
  assert (∀ v m, (k, (v, m)) ∈ E ++ [(k', (v', n))] ↔
    (k, (v, m)) ∈ E ∨ (k = k' ∧ v = v' ∧ m = n)) as Hin.
  { intros v m. rewrite elem_of_app, list_elem_of_singleton. naive_solver. }
  rewrite foldl_app. destruct (foldl (split_entry N) (∅, ∅) E) as [u c]. simpl in *.
  unfold split_entry, split_one. simpl. destruct (Nat.eqb_spec n N) as [->|Hn]; simpl;
    [|destruct (decide (k = k')) as [->|Hk]; [rewrite lookup_insert_eq|rewrite lookup_insert_ne by done]].
  - destruct (c !! k) as [l|]; setoid_rewrite Hin; naive_solver.
  - destruct (c !! k') as [l|].
    + destruct IH as [Hl IH]. split; [by destruct l|]. intros v. setoid_rewrite Hin.
      rewrite elem_of_app, IH, list_elem_of_singleton. naive_solver.
    + split; [done|]. intros v. setoid_rewrite Hin. rewrite list_elem_of_singleton. naive_solver.
  - destruct (c !! k) as [l|]; setoid_rewrite Hin; naive_solver.
Qed.

Lemma elem_of_split_entries maps k v n :
  (k, (v, n)) ∈ entries (occurrences maps) ↔ n = holders maps k v ∧ n ≠ 0.
Proof. by rewrite elem_of_entries, count_at_occurrences. Qed.

Lemma unconflicted_iff maps k v :
  (split_conflicted_state_set maps).1 !! k = Some v ↔
  maps ≠ [] ∧ ∀ m, m ∈ maps → m !! k = Some v.
Proof.
  rewrite split_as_entries, split_fold_unconflicted.
  - rewrite elem_of_split_entries. unfold holders. split.
    + intros [Hall Hne]. symmetry in Hall. rewrite filter_length_all in Hall.
      split; [by intros ->|done].
    + intros [Hne Hall]. split; [|by destruct maps].
      symmetry. by rewrite filter_length_all.
  - intros v1 v2. rewrite !elem_of_split_entries. unfold holders.
    intros [H1 Hne] [H2 _]. symmetry in H1, H2. rewrite filter_length_all in H1, H2.
    destruct maps as [|m maps]; [done|].
    specialize (H1 m (list_elem_of_here _ _)). specialize (H2 m (list_elem_of_here _ _)). congruence.
Qed.

Lemma conflicted_cases maps k :
  match (split_conflicted_state_set maps).2 !! k with
  | Some l => l ≠ [] ∧ ∀ v, v ∈ l ↔
      (∃ m, m ∈ maps ∧ m !! k = Some v) ∧ (∃ m, m ∈ maps ∧ m !! k ≠ Some v)
  | None => ∀ v, (∃ m, m ∈ maps ∧ m !! k = Some v) → ∀ m, m ∈ maps → m !! k = Some v
  end.
Proof.
  rewrite split_as_entries. pose proof (split_fold_conflicted (length maps) (entries (occurrences maps)) k) as Hf.
  assert (∀ v, (∃ n, n ≠ length maps ∧ (k, (v, n)) ∈ entries (occurrences maps)) ↔
    (∃ m, m ∈ maps ∧ m !! k = Some v) ∧ (∃ m, m ∈ maps ∧ m !! k ≠ Some v)) as Hiff.
  { intros v. setoid_rewrite elem_of_split_entries. unfold holders.
    rewrite <- filter_length_some, <- filter_length_not_all. naive_solver. }
  destruct (_ !! k) as [l|].
  - destruct Hf as [Hl Hf]. split; [done|]. intros v. by rewrite Hf, Hiff.
  - intros v Hex m Hm. destruct (decide (m !! k = Some v)) as [|Hne]; [done|].
    destruct (proj2 (Hiff v)) as (n & Hn & Hin); [by eauto|]. by destruct (Hf v n).
Qed.

End split.

(** ** [auth_difference] *)

Section auth_difference.
Context `{!HashIter}.
Implicit Types (chains : list (gset string)) (id : string).

Lemma count_id_foldl l m id :
  foldl count_id m l !! id = Nat.iter (occurs id l) incr (m !! id).
Proof.
  unfold occurs. revert m. induction l as [|x l IH]; intros m; [done|].
  simpl. rewrite IH, filter_cons. unfold count_id. destruct (decide (id = x)) as [->|Hne].
  - rewrite lookup_insert_eq.
    replace (Some (S (default 0 (m !! x)))) with (incr (m !! x)) by (by destruct (m !! x)).
    simpl. by rewrite <- Nat.iter_succ_r.
  - by rewrite lookup_insert_ne.
Qed.

Lemma occurs_flatten_sets site chains id :
  occurs id (flatten_sets site chains) = length (filter (λ s : gset string, id ∈ s) chains).
Proof.
  revert site. induction chains as [|s chains IH]; intros site; [done|].
  simpl. rewrite occurs_app, IH, filter_cons, occurs_NoDup by apply NoDup_iter_set.
  destruct (decide (id ∈ s)) as [Hs|Hs];
    [rewrite decide_True|rewrite decide_False]; rewrite ?elem_of_iter_set; done.
Qed.

Lemma elem_of_auth_difference chains id :
  id ∈ auth_difference chains ↔
  (∃ s, s ∈ chains ∧ id ∈ s) ∧ (∃ s, s ∈ chains ∧ id ∉ s).
Proof.
  rewrite <- (filter_length_some (λ s, id ∈ s)), <- (filter_length_not_all (λ s, id ∈ s)).
  pose proof (length_filter (λ s : gset string, id ∈ s) chains) as Hle.
  assert (∀ n, foldl count_id ∅ (flatten_sets ["auth_chains"] chains) !! id = Some n ↔
    n = length (filter (λ s : gset string, id ∈ s) chains) ∧ n ≠ 0) as Hn.
  { intros n. rewrite count_id_foldl, occurs_flatten_sets, lookup_empty, iter_incr_none.
    case_decide; naive_solver. }
  unfold auth_difference. rewrite list_elem_of_omap. split.
  - intros ([id' n] & Hin & Hlt). apply elem_of_iter_map in Hin. simpl in Hlt.
    destruct (Nat.ltb_spec n (length chains)); simplify_eq. apply Hn in Hin as [-> ?]. lia.
  - intros [Hpos Hne]. eexists (id, _). rewrite elem_of_iter_map. split; [by apply Hn|].
    simpl. destruct (Nat.ltb_spec (length (filter (λ s : gset string, id ∈ s) chains)) (length chains));
      [done|lia].
Qed.

End auth_difference.

(** ** The theorems *)

Section theorems.
Context `{!HashIter}.

(** The pair ([k], [v]) is in the unconflicted state map exactly when every
    state map has [v] at [k]; a value at [k] is in the conflicted state set exactly
    when some state map has it and some other does not. *)
Theorem split_spec (maps : list (StateMap string)) k v :
  let '(unconflicted, conflicted) := split_conflicted_state_set maps in
  (unconflicted !! k = Some v ↔ maps ≠ [] ∧ ∀ m, m ∈ maps → m !! k = Some v) ∧
  ((∃ l, conflicted !! k = Some l ∧ v ∈ l) ↔
   (∃ m, m ∈ maps ∧ m !! k = Some v) ∧ (∃ m, m ∈ maps ∧ m !! k ≠ Some v)).
Proof.
  pose proof (unconflicted_iff maps k v) as Hu. pose proof (conflicted_cases maps k) as Hc.
  destruct (split_conflicted_state_set maps) as [u c]. simpl in *. split; [done|].
  destruct (c !! k) as [l|].
  - destruct Hc as [_ Hc]. rewrite <- Hc. naive_solver.
  - split; [naive_solver|]. intros [Hex (m & Hm & Hne)]. destruct Hne. by apply (Hc v).
Qed.

(** The auth difference is the union of the auth chains minus their
    intersection. *)
Theorem auth_difference_spec (auth_chains : list (gset string)) id :
  id ∈ auth_difference auth_chains ↔
  id ∈ ⋃ auth_chains ∧ ¬ (∀ s, s ∈ auth_chains → id ∈ s).
Proof.
  rewrite elem_of_auth_difference, elem_of_union_list.
  rewrite <- (filter_length_all (λ s, id ∈ s)), filter_length_not_all. naive_solver.
Qed.

End theorems.
