(* ===== verification/PowerGraph.v ===== *)
(** * The graph of power events

    [add_event_and_auth_chain_to_graph] collects the events reachable from the
    power events along auth events of the full conflicted set.  Its loop pushes
    an event again when it is met before its first visit; that it still ends
    rests on the order of the stack. *)

From S2P Require Import Prelude RoomVersionRules CanonicalJson Signatures Events EventAuth TopoSort TopoSpec Resolve.

Section graph.
Context {RawJson : Type} (fetch_event : string → option (Pdu RawJson)) (F : gset string).
Implicit Types (G : Graph) (st : list string).

(** The auth events of [x] in the full conflicted set. *)
Definition conflicted_edges (x : string) : gset string :=
  list_to_set (filter (.∈ F) (opt_auth_events fetch_event x)).

Definition edge (x y : string) : Prop := y ∈ conflicted_edges x.

(** What a visit pushes. *)
Definition pushed (G : Graph) (l : list string) : list string :=
  reverse (filter (λ a, a ∈ F ∧ a ∉ dom G) l).

Lemma graph_visit_all_eq e G st l E :
  G !! e = Some E →
  graph_visit_all F e (G, st) l =
  Ret (<[e := list_to_set (filter (.∈ F) l) ∪ E]> G, pushed G l ++ st).
Proof.
  unfold pushed. revert G st E. induction l as [|a l IH]; intros G st E HE; simpl.
  { by rewrite (left_id_L ∅ (∪)), insert_id. }
  case_bool_decide as Ha.
  - rewrite HE. rewrite (IH _ _ ({[a]} ∪ E)) by apply lookup_insert_eq.
    rewrite insert_insert_eq, !filter_cons, (decide_True (P := a ∈ F)) by done. simpl.
    assert (dom (<[e:={[a]} ∪ E]> G) = dom G) as ->.
    { rewrite dom_insert_L. apply elem_of_dom_2 in HE. set_solver. }
    f_equal. f_equal; [f_equal; set_solver|].
    case_bool_decide as Hdom.
    + by rewrite decide_False by tauto.
    + rewrite decide_True by done. by rewrite reverse_cons, <- (assoc_L (++)).
  - rewrite (IH _ _ E) by done. rewrite !filter_cons.
    rewrite decide_False, decide_False by tauto. done.
Qed.

(** Each node of the graph has its conflicted edges. *)
Definition graph_edges_ok (G : Graph) : Prop :=
  ∀ x E, G !! x = Some E → E = conflicted_edges x.

(** Everything a node refers to is in the graph. *)
Definition graph_closed (G : Graph) : Prop :=
  graph_edges_ok G ∧ ∀ x y, x ∈ dom G → edge x y → y ∈ dom G.

(** The state of the loop: what a node refers to is in the graph or on the stack,
    and for a node on the stack, above it. *)
Record graph_inv (G : Graph) (st : list string) : Prop := {
  gi_edges : graph_edges_ok G;
  gi_stack : ∀ s1 x s2 y, st = s1 ++ x :: s2 → x ∈ dom G → edge x y → y ∈ dom G ∨ y ∈ s1;
  gi_closed : ∀ x y, x ∈ dom G → edge x y → y ∈ dom G ∨ y ∈ st
}.

Lemma elem_of_pushed G e y : y ∈ pushed G (opt_auth_events fetch_event e) ↔ edge e y ∧ y ∉ dom G.
Proof.
  unfold pushed, edge, conflicted_edges.
  rewrite elem_of_reverse, list_elem_of_filter, elem_of_list_to_set, list_elem_of_filter. tauto.
Qed.

Lemma graph_inv_step G st e :
  graph_inv G (e :: st) →
  let G' := <[e := conflicted_edges e]> G in
  graph_inv G' (pushed G' (opt_auth_events fetch_event e) ++ st).
Proof.
  intros [Hedges Hstack Hclosed] G'.
  assert (∀ y, y ∈ dom G' ↔ y = e ∨ y ∈ dom G) as Hdom.
  { intros y. unfold G'. rewrite dom_insert_L. set_solver. }
  assert (∀ y, y ∈ pushed G' (opt_auth_events fetch_event e) ↔
               edge e y ∧ y ∉ dom G') as Hpush.
  { intros y. apply elem_of_pushed. }
  assert (∀ y, edge e y → y ∈ dom G' ∨ y ∈ pushed G' (opt_auth_events fetch_event e))
    as Hedge.
  { intros y Hy. rewrite Hpush. destruct (decide (y ∈ dom G')); auto. }
  assert (∀ l x s2 y, st = l ++ x :: s2 → x ∈ dom G' → edge x y →
    y ∈ dom G' ∨ y ∈ pushed G' (opt_auth_events fetch_event e) ++ l) as Hlow.
  { intros l x s2 y -> Hx Hxy. rewrite elem_of_app. apply Hdom in Hx as [->|Hx].
    - destruct (Hedge y Hxy); auto.
    - destruct (Hstack (e :: l) x s2 y eq_refl Hx Hxy) as [|[->|]%elem_of_cons];
        rewrite Hdom; auto. }
  split.
  - intros x E. unfold G'. intros [[-> <-]|[_ Hx]]%lookup_insert_Some; [done|by apply Hedges].
  - intros s1 x s2 y Heq Hx Hxy.
    apply app_eq_app in Heq as (l & [[Hp Hst]|[-> Hst]]).
    + destruct l as [|x' l]; [simpl in Hst|injection Hst as <- _].
      * rewrite app_nil_r in Hp.
        destruct (Hlow [] x s2 y (eq_sym Hst) Hx Hxy) as [|Hy]; [auto|].
        rewrite app_nil_r, Hp in Hy. auto.
      * assert (x ∈ pushed G' (opt_auth_events fetch_event e)) as [_ []]%Hpush; [|done].
        rewrite Hp. set_solver.
    + by apply (Hlow l x s2 y).
  - intros x y Hx Hxy. rewrite elem_of_app. apply Hdom in Hx as [->|Hx].
    + destruct (Hedge y Hxy); auto.
    + destruct (Hclosed x y Hx Hxy) as [|[->|]%elem_of_cons]; rewrite Hdom; auto.
Qed.

(** The auth events of the nodes still to be visited. *)
Definition weight (U : gset string) (G : Graph) : nat :=
  sum_list_with (λ e, length (opt_auth_events fetch_event e)) (elements (U ∖ dom G)).

Lemma weight_visit U G e E :
  e ∈ U → e ∉ dom G →
  weight U G = length (opt_auth_events fetch_event e) + weight U (<[e := E]> G).
Proof.
  intros HU HG. unfold weight.
  assert (elements (U ∖ dom G) ≡ₚ e :: elements (U ∖ dom (<[e:=E]> G))) as ->; [|done].
  replace (U ∖ dom G) with ({[e]} ∪ U ∖ dom (<[e:=E]> G)).
  - by rewrite elements_union_singleton by set_solver.
  - rewrite dom_insert_L. apply set_eq. intros x.
    destruct (decide (x = e)); set_solver.
Qed.

Lemma length_pushed G l : length (pushed G l) ≤ length l.
Proof. unfold pushed. rewrite length_reverse. apply length_filter. Qed.

Lemma visit_eq G st e :
  graph_edges_ok G →
  graph_visit_all F e (<[e := default ∅ (G !! e)]> G, st) (opt_auth_events fetch_event e) =
  Ret (<[e := conflicted_edges e]> G,
       pushed (<[e := conflicted_edges e]> G) (opt_auth_events fetch_event e) ++ st).
Proof.
  intros Hok. erewrite graph_visit_all_eq by apply lookup_insert_eq.
  rewrite insert_insert_eq. unfold pushed. rewrite !dom_insert_L.
  fold (conflicted_edges e). do 3 f_equal.
  destruct (G !! e) as [E|] eqn:HE; simpl; [|set_solver]. rewrite (Hok _ _ HE). set_solver.
Qed.

(** A visit uses a unit of fuel, and its pushes those of the node's auth events. *)
Lemma fuel_step U G st0 e st :
  st0 = e :: st → (∀ x, x ∈ st0 → x ∈ U) → graph_inv G st0 →
  let G' := <[e := conflicted_edges e]> G in
  length (pushed G' (opt_auth_events fetch_event e)) + weight U G' ≤ weight U G.
Proof.
  intros -> HU Hinv G'. destruct (decide (e ∈ dom G)) as [He|He].
  - assert (dom G' = dom G) as Hdom by (unfold G'; rewrite dom_insert_L; set_solver).
    destruct (pushed G' (opt_auth_events fetch_event e)) as [|y ps] eqn:Hps.
    + unfold weight. by rewrite Hdom.
    + assert (y ∈ pushed G' (opt_auth_events fetch_event e)) as [Hy Hny]%elem_of_pushed
        by (rewrite Hps; constructor).
      rewrite Hdom in Hny.
      destruct (gi_stack _ _ Hinv [] e st y eq_refl He Hy) as [|?%elem_of_nil]; done.
  - rewrite (weight_visit U G e (conflicted_edges e)) by (auto; apply HU; constructor).
    fold G'. pose proof (length_pushed G' (opt_auth_events fetch_event e)). lia.
Qed.

(** The loop ends in a closed graph of what is reachable from the stack. *)
Record graph_post (G : Graph) (st : list string) (G' : Graph) : Prop := {
  gp_closed : graph_closed G';
  gp_sub : dom G ⊆ dom G';
  gp_stack : ∀ x, x ∈ st → x ∈ dom G';
  gp_reach : ∀ y, y ∈ dom G' → y ∈ dom G ∨ ∃ x, x ∈ st ∧ rtc edge x y
}.

Lemma graph_loop_spec U fuel G st :
  F ⊆ U → (∀ x, x ∈ st → x ∈ U) → graph_inv G st → length st + weight U G ≤ fuel →
  ∃ G', graph_loop fetch_event F fuel G st = Ret G' ∧ graph_post G st G'.
Proof.
  intros HF. revert G st. induction fuel as [|fuel IH]; intros G [|e st] HU Hinv Hfuel; simpl in *.
  1,3: exists G; split; [done|]; destruct Hinv as [He _ Hc]; split;
    [split; [done|]; intros x y Hx Hxy; destruct (Hc x y Hx Hxy) as [|?%elem_of_nil]; done
    |done|by intros x ?%elem_of_nil|auto].
  { lia. }
  pose proof (graph_inv_step _ _ _ Hinv) as Hinv'. simpl in Hinv'.
  rewrite visit_eq by apply Hinv. cbn [fst snd].
  set (G' := <[e := conflicted_edges e]> G) in *.
  set (ps := pushed G' (opt_auth_events fetch_event e)) in *.
  assert (∀ y, y ∈ ps ↔ edge e y ∧ y ∉ dom G') as Hps by (intros y; apply elem_of_pushed).
  destruct (IH G' (ps ++ st)) as (G'' & HG'' & [Hcl Hsub Hst Hreach]); [|done| |].
  - intros x [[He _]%Hps|]%elem_of_app; [|apply HU; by constructor]. apply HF.
    by apply elem_of_list_to_set, list_elem_of_filter in He as [? _].
  - rewrite length_app. pose proof (fuel_step U G (e :: st) e st eq_refl HU Hinv) as Hstep.
    cbv zeta in Hstep. fold G' ps in Hstep. lia.
  - exists G''. split; [done|].
    assert (dom G' = {[e]} ∪ dom G) as Hdom by (unfold G'; by rewrite dom_insert_L).
    split; [done|etrans; [|exact Hsub]; rewrite Hdom; apply union_subseteq_r| |].
    + intros x [->|]%elem_of_cons; [|apply Hst, elem_of_app; by right].
      apply Hsub. rewrite Hdom. by apply elem_of_union_l, elem_of_singleton.
    + intros y Hy. destruct (Hreach y Hy) as [Hy'|(x & Hx & Hxy)].
      * rewrite Hdom, elem_of_union, elem_of_singleton in Hy'. destruct Hy' as [->|]; [right|by left].
        exists e. split; [constructor|done].
      * right. apply elem_of_app in Hx as [[Hex _]%Hps|Hx].
        -- exists e. split; [constructor|]. by eapply rtc_l.
        -- exists x. split; [by constructor|done].
Qed.

Lemma graph_closed_inv G e : graph_closed G → graph_inv G [e].
Proof.
  intros [He Hc]. split; [done| |eauto].
  intros [|x' s1] x s2 y Heq Hx Hxy; simplify_eq/=; [eauto|]. by destruct s1.
Qed.

Lemma add_event_spec G e :
  graph_closed G →
  ∃ G', add_event_and_auth_chain_to_graph fetch_event F G e = Ret G' ∧ graph_closed G' ∧
    ∀ y, y ∈ dom G' ↔ y ∈ dom G ∨ rtc edge e y.
Proof.
  intros HG. unfold add_event_and_auth_chain_to_graph.
  destruct (graph_loop_spec ({[e]} ∪ F) (graph_fuel fetch_event F e) G [e])
    as (G' & HG' & [Hcl Hsub Hst Hreach]).
  - apply union_subseteq_r.
  - intros x ->%list_elem_of_singleton. by apply elem_of_union_l, elem_of_singleton.
  - by apply graph_closed_inv.
  - unfold graph_fuel. simpl. apply le_n_S. unfold weight.
    assert (elements ({[e]} ∪ F) ≡ₚ
      elements (({[e]} ∪ F) ∩ dom G) ++ elements (({[e]} ∪ F) ∖ dom G)) as ->.
    { rewrite <- elements_disj_union by (clear; set_solver). f_equiv. intros x.
      destruct (decide (x ∈ dom G)); set_solver. }
    rewrite sum_list_with_app. lia.
  - exists G'. split_and!; [done..|]. intros y. split.
    + intros Hy. destruct (Hreach y Hy) as [|(x & ->%list_elem_of_singleton & ?)]; auto.
    + intros [Hy|Hy]; [by apply Hsub|].
      assert (e ∈ dom G') as Hin by (apply Hst; constructor). clear -Hcl Hy Hin.
      induction Hy as [|x y z Hxy _ IH]; [done|]. apply IH. by apply (proj2 Hcl x).
Qed.

Lemma add_all_spec ps G :
  graph_closed G →
  ∃ G', add_all_to_graph fetch_event F G ps = Ret G' ∧ graph_closed G' ∧
    ∀ y, y ∈ dom G' ↔ y ∈ dom G ∨ ∃ p, p ∈ ps ∧ rtc edge p y.
Proof.
  revert G. induction ps as [|p ps IH]; intros G HG; simpl.
  { exists G. split_and!; [done..|]. intros y. set_solver. }
  destruct (add_event_spec G p HG) as (G1 & -> & HG1 & Hdom1).
  destruct (IH G1 HG1) as (G2 & -> & HG2 & Hdom2). exists G2. split_and!; [done..|].
  intros y. rewrite Hdom2, Hdom1. setoid_rewrite elem_of_cons. naive_solver.
Qed.

Lemma graph_closed_empty : graph_closed ∅.
Proof. split; [intros x E; by rewrite lookup_empty|]. intros x y. by rewrite dom_empty_L, elem_of_empty. Qed.

(** From the power events [ps] the loops build the graph of the events
    reachable from them along auth events of the full conflicted set, each with
    those of its auth events; they end on every store, cyclic or not, and the
    [unwrap] is never reached on a missing node. *)
Theorem power_graph_spec ps :
  ∃ G, add_all_to_graph fetch_event F ∅ ps = Ret G ∧
    (∀ y, y ∈ dom G ↔ ∃ p, p ∈ ps ∧ rtc edge p y) ∧
    ∀ y o, G !! y = Some o → o = list_to_set (filter (.∈ F) (opt_auth_events fetch_event y)).
Proof.
  destruct (add_all_spec ps ∅ graph_closed_empty) as (G & HG & [Hok _] & Hdom).
  exists G. split_and!; [done| |apply Hok]. intros y. rewrite Hdom, dom_empty_L. set_solver.
Qed.

End graph.
