(* ===== verification/Mainline.v ===== *)
(** * Mainline ordering

    The mainline of a power levels event and the position of an event on it, as
    the specification defines them (index 0 is the most recent power levels event,
    no index is infinity), and that [mainline_sort] orders by them although it
    counts positions from the other end. *)

From S2P Require Import Prelude RoomVersionRules CanonicalJson Signatures Events EventAuth Sample TopoSort Resolve.

(** ** The specification *)

(** Indices compared with [None] as infinity. *)
Definition index_cmp (i j : option nat) : comparison :=
  match i, j with
  | None, None => Eq
  | None, Some _ => Gt
  | Some _, None => Lt
  | Some i, Some j => Nat.compare i j
  end.

(** Greater index first, then the older event, then the smaller id. *)
Definition mainline_spec_cmp (x y : (option nat * Z) * string) : comparison :=
  cmp_then (cmp_then (index_cmp y.1.1 x.1.1) (Z.compare x.1.2 y.1.2)) (String.compare x.2 y.2).

Section mainline.
Context {RawJson : Type} (fetch_event : string → option (Pdu RawJson)).

(** [[P0, P1, ...]], each the power levels event among the auth events of the
    one before. *)
Inductive mainline_of : option string → list string → Prop :=
| mainline_none : mainline_of None []
| mainline_some id ev next l :
    fetch_event id = Some ev →
    find_power_levels fetch_event (λ _, NotFound id) (auth_events ev) = Ret next →
    mainline_of (fst <$> next) l → mainline_of (Some id) (id :: l).

(** The index in the mainline of the first event met along power levels events. *)
Inductive mainline_index (mainline : list string) : Pdu RawJson → option nat → Prop :=
| index_hit ev i : mainline !! i = Some (event_id ev) → mainline_index mainline ev (Some i)
| index_next ev id ev' j :
    event_id ev ∉ mainline →
    find_power_levels fetch_event NotFound (auth_events ev) = Ret (Some (id, ev')) →
    mainline_index mainline ev' j → mainline_index mainline ev j
| index_none ev :
    event_id ev ∉ mainline →
    find_power_levels fetch_event NotFound (auth_events ev) = Ret None →
    mainline_index mainline ev None.

(** Events refer to events of smaller rank. *)
Definition store_ranked (rank : string → nat) : Prop :=
  ∀ id ev a, fetch_event id = Some ev → a ∈ auth_events ev → rank a < rank id.

(** An event is stored under its id. *)
Definition store_ids : Prop := ∀ id ev, fetch_event id = Some ev → event_id ev = id.

(** ** The loops *)

Lemma find_power_levels_cases missing l :
  match find_power_levels fetch_event missing l with
  | Ret (Some (id, ev)) => id ∈ l ∧ fetch_event id = Some ev
  | Ret None => True
  | Throw e => ∃ id, id ∈ l ∧ fetch_event id = None ∧ e = missing id
  | _ => False
  end.
Proof.
  induction l as [|id l IH]; simpl; [done|].
  destruct (fetch_event id) as [ev|] eqn:Hev; [|exists id; split_and!; [constructor|done..]].
  destruct (is_type_and_key ev RoomPowerLevels EmptyString); [split; [constructor|done]|].
  destruct (find_power_levels _ _ l) as [[[id' ev']|]|e| |]; try done.
  - destruct IH. split; [by constructor|done].
  - destruct IH as (id' & ? & ? & ?). exists id'. split_and!; [by constructor|done..].
Qed.

Lemma mainline_loop_of fuel pl acc l :
  mainline_loop fetch_event fuel pl acc = Ret l → ∃ l', l = acc ++ l' ∧ mainline_of pl l'.
Proof.
  revert pl acc. induction fuel as [|fuel IH]; intros [id|] acc; simpl; intros Hl; simplify_eq.
  1,3: exists []; rewrite app_nil_r; split; [done|constructor].
  destruct (fetch_event id) as [ev|] eqn:Hev; [|done]. inv_bind Hl.
  destruct (IH _ _ Hl) as (l' & -> & Hl'). exists (id :: l'). rewrite <- (assoc_L (++)).
  split; [done|]. by econstructor.
Qed.

Lemma mainline_loop_total rank fuel pl acc :
  store_ranked rank →
  (∀ id, pl = Some id → rank id < fuel ∨ (0 < fuel ∧ fetch_event id = None)) →
  no_panic (mainline_loop fetch_event fuel pl acc).
Proof.
  intros Hr. revert pl acc. induction fuel as [|fuel IH]; intros [id|] acc Hpl; simpl; try done.
  { destruct (Hpl id eq_refl); lia. }
  destruct (fetch_event id) as [ev|] eqn:Hev; [|done].
  pose proof (find_power_levels_cases (λ _, NotFound id) (auth_events ev)) as Hf.
  destruct (find_power_levels _ _ _) as [[[id' ev']|]|e| |]; try done; simpl.
  - apply IH. intros ? [= <-]. destruct Hf as [Hin _]. left.
    pose proof (Hr _ _ _ Hev Hin). destruct (Hpl id eq_refl) as [|[_ ?]]; [lia|congruence].
  - by apply IH.
Qed.

Lemma mainline_of_rank rank pl l :
  store_ranked rank → mainline_of pl l →
  NoDup l ∧ ∀ x, x ∈ l → ∃ id, pl = Some id ∧ rank x ≤ rank id.
Proof.
  intros Hr. induction 1 as [|id ev next l Hev Hnext Hl [Hnd IH]].
  { split; [constructor|set_solver]. }
  assert (∀ x, x ∈ l → rank x < rank id) as Hlt.
  { intros x Hx. destruct (IH x Hx) as (id' & Hid' & Hle).
    pose proof (find_power_levels_cases (λ _, NotFound id) (auth_events ev)) as Hf.
    rewrite Hnext in Hf. destruct next as [[id'' ev'']|]; simplify_eq/=. destruct Hf as [Hin _].
    pose proof (Hr _ _ _ Hev Hin). lia. }
  split.
  - constructor; [|done]. intros Hin. specialize (Hlt _ Hin). lia.
  - intros x [->|Hx]%elem_of_cons; exists id; (split; [done|]); [done|]. specialize (Hlt _ Hx). lia.
Qed.

(** ** Positions *)

Lemma foldl_positions (l : list string) n m id :
  NoDup l →
  foldl (λ (m : gmap string nat) e, <[e.2 := S e.1]> m) m (imap (λ i id, (n + i, id)) l) !! id =
  match list_find (id =.) l with Some (i, _) => Some (S (n + i)) | None => m !! id end.
Proof.
  revert n m. induction l as [|x l IH]; intros n m Hnd; simpl; [done|].
  apply NoDup_cons in Hnd as [Hx Hnd].
  rewrite (imap_ext _ (λ i id, (S n + i, id))) by (intros; simpl; f_equal; lia).
  rewrite IH by done. case_decide as Heq.
  - subst x. rewrite (proj2 (list_find_None _ _)).
    + rewrite lookup_insert_eq. by f_equal.
    + apply Forall_forall. by intros y Hy ->.
  - destruct (list_find (id =.) l) as [[i y]|]; simpl; [f_equal; lia|].
    by rewrite lookup_insert_ne.
Qed.

Lemma mainline_positions_lookup l id :
  NoDup l →
  (∀ i, l !! i = Some id → mainline_positions l !! id = Some (length l - i)) ∧
  (id ∉ l → mainline_positions l !! id = None).
Proof.
  intros Hnd. unfold mainline_positions.
  assert (NoDup (reverse l)) as Hnd' by (by rewrite reverse_Permutation).
  pose proof (foldl_positions (reverse l) 0 ∅ id Hnd') as Hf. simpl in Hf. rewrite Hf. split.
  - intros i Hi. pose proof (lookup_lt_Some _ _ _ Hi) as Hlt.
    rewrite (proj2 (list_find_Some _ _ (length l - S i) id)).
    + f_equal. lia.
    + split_and!; [|done|].
      * rewrite reverse_lookup by lia. by replace (length l - S (length l - S i)) with i by lia.
      * intros j y Hj Hjlt ->. assert (j = length l - S i); [|lia].
        apply (NoDup_lookup _ _ _ y Hnd' Hj).
        rewrite reverse_lookup by lia. by replace (length l - S (length l - S i)) with i by lia.
  - intros Hid. rewrite (proj2 (list_find_None _ _)); [done|].
    apply Forall_forall. intros y Hy ->. by rewrite elem_of_reverse in Hy.
Qed.

Lemma mainline_position_index fuel ev l r :
  NoDup l → mainline_position fetch_event fuel ev (mainline_positions l) = Ret r →
  ∃ j, mainline_index l ev j ∧ r = (λ i, length l - i) <$> j.
Proof.
  intros Hnd. revert ev. induction fuel as [|fuel IH]; intros ev; simpl; [done|].
  destruct (mainline_positions_lookup l (event_id ev) Hnd) as [Hin Hout].
  destruct (decide (event_id ev ∈ l)) as [Hel|Hel].
  - apply list_elem_of_lookup_1 in Hel as [i Hi]. rewrite (Hin i Hi). intros [= <-].
    exists (Some i). split; [by constructor|done].
  - rewrite Hout by done. intros Hr. inv_bind Hr. destruct x as [[id ev']|].
    + destruct (IH _ Hr) as (j & ? & ->). exists j. split; [by eapply index_next|done].
    + simplify_eq. exists None. split; [by eapply index_none|done].
Qed.

Lemma mainline_position_total rank fuel ev m :
  store_ranked rank → store_ids → fetch_event (event_id ev) = Some ev → rank (event_id ev) < fuel →
  no_panic (mainline_position fetch_event fuel ev m).
Proof.
  intros Hr Hids. revert ev. induction fuel as [|fuel IH]; intros ev Hev Hlt; simpl; [lia|].
  destruct (m !! event_id ev); [done|].
  pose proof (find_power_levels_cases NotFound (auth_events ev)) as Hf.
  destruct (find_power_levels _ _ _) as [[[id' ev']|]|e| |]; try done; simpl.
  destruct Hf as [Hin Hev']. pose proof (Hids _ _ Hev') as Hid. apply IH; [by rewrite Hid|].
  rewrite Hid. pose proof (Hr _ _ _ Hev Hin). lia.
Qed.

Lemma mainline_index_lt l ev i : mainline_index l ev (Some i) → i < length l.
Proof.
  remember (Some i) as j eqn:Hj. induction 1; simplify_eq; eauto using lookup_lt_Some.
Qed.

Lemma mainline_index_fun l ev j1 j2 :
  NoDup l → mainline_index l ev j1 → mainline_index l ev j2 → j1 = j2.
Proof.
  intros Hnd H1. revert j2. induction H1 as [ev i Hi|ev id ev' j Hn Hf _ IH|ev Hn Hf]; intros j2 H2.
  - destruct H2 as [ev i2 Hi2|ev id ev' j Hn|ev Hn]; [f_equal; by eapply NoDup_lookup|..];
      destruct Hn; by eapply list_elem_of_lookup_2.
  - destruct H2 as [ev i2 Hi2| |]; [destruct Hn; by eapply list_elem_of_lookup_2| |];
      same_result; auto.
  - destruct H2 as [ev i2 Hi2| |]; [destruct Hn; by eapply list_elem_of_lookup_2| |];
      same_result; auto.
Qed.

(** ** The sort *)

(** The entry [order_map] gets for an event. *)
Definition order_key (fuel : nat) (m : gmap string nat) (id : string) : option MainlineKey :=
  ev ← fetch_event id;
  match mainline_position fetch_event fuel ev m with
  | Ret position => Some ((position, Some (origin_server_ts ev)), id)
  | _ => None
  end.

Lemma order_events_lookup fuel m om events om' id :
  order_events fetch_event fuel m om events = Ret om' →
  om' !! id = (if decide (id ∈ events) then order_key fuel m id else None) ∪ om !! id.
Proof.
  revert om. induction events as [|x events IH]; intros om; simpl; intros Hom.
  { simplify_eq. by rewrite (left_id_L None (∪)). }
  assert (∀ om1, (∀ y, om1 !! y = (if decide (y = x) then order_key fuel m x else None) ∪ om !! y) →
    order_events fetch_event fuel m om1 events = Ret om' →
    om' !! id = (if decide (id ∈ x :: events) then order_key fuel m id else None) ∪ om !! id) as Hgo.
  { intros om1 Hom1 Hrest. rewrite (IH _ Hrest), Hom1. pose proof (elem_of_cons events id x) as Hc.
    destruct (decide (id ∈ x :: events)), (decide (id ∈ events)), (decide (id = x)) as [->|];
      try tauto; try (by rewrite (left_id_L None (∪)));
      by destruct (order_key fuel m x), (om !! x). }
  assert (order_key fuel m x = None → ∀ y, om !! y =
    (if decide (y = x) then order_key fuel m x else None) ∪ om !! y) as Hskip.
  { intros -> y. by destruct (decide (y = x)), (om !! y). }
  destruct (fetch_event x) as [ev|] eqn:Hx;
    [destruct (mainline_position fetch_event fuel ev m) as [p|e| |] eqn:Hp; try done|].
  2,3: apply (Hgo om); [|done]; apply Hskip; unfold order_key; rewrite Hx; simpl; by rewrite ?Hp.
  assert (order_key fuel m x = Some ((p, Some (origin_server_ts ev)), x)) as Hkey
    by (unfold order_key; rewrite Hx; simpl; by rewrite Hp).
  eapply Hgo; [|exact Hom]. intros y. rewrite Hkey. destruct (decide (y = x)) as [->|].
  - rewrite lookup_insert_eq. by destruct (om !! x).
  - rewrite lookup_insert_ne by done. by destruct (om !! y).
Qed.

(** The loop over the events returns when each position can be computed. *)
Definition position_known (fuel : nat) (m : gmap string nat) (id : string) : Prop :=
  ∀ ev, fetch_event id = Some ev →
    match mainline_position fetch_event fuel ev m with Ret _ | Throw _ => True | _ => False end.

Lemma order_events_returns fuel m om events :
  (∃ om', order_events fetch_event fuel m om events = Ret om') ↔
  ∀ id, id ∈ events → position_known fuel m id.
Proof.
  revert om. induction events as [|x events IH]; intros om; simpl; [set_solver|].
  setoid_rewrite elem_of_cons. unfold position_known.
  destruct (fetch_event x) as [ev|] eqn:Hx; [|rewrite IH; unfold position_known; naive_solver].
  destruct (mainline_position fetch_event fuel ev m) as [p|e| |] eqn:Hp;
    [rewrite IH; unfold position_known..| |].
  1,2: split; [|naive_solver]; intros Hall id [->|Hin] ev' Hev'; [|by apply (Hall id Hin)];
    assert (ev' = ev) as -> by congruence; by rewrite Hp.
  all: split; [by intros [? ?]|]; intros Hall; specialize (Hall x (or_introl eq_refl) ev Hx);
    by rewrite Hp in Hall.
Qed.

#[export] Instance mainline_cmp_laws : OrdLaws mainline_cmp.
Proof. unfold mainline_cmp. apply _. Qed.

#[export] Instance order_le_total om : Total (order_le om).
Proof. intros x y. unfold order_le. apply (cmp_le_total (option_cmp mainline_cmp)). Qed.

#[export] Instance order_le_trans om : Transitive (order_le om).
Proof. intros x y z. unfold order_le. apply (cmp_le_trans (option_cmp mainline_cmp)). Qed.

(** What [mainline_sort] returns for events that are not all skipped. *)
Lemma mainline_sort_ret `{!HashIter} fuel events pl l :
  events ≠ [] → mainline_sort fetch_event fuel events pl = Ret l →
  ∃ mainline om,
    mainline_loop fetch_event fuel pl [] = Ret mainline ∧
    order_events fetch_event fuel (mainline_positions mainline) ∅ events = Ret om ∧
    (∀ id, om !! id = if decide (id ∈ events)
                      then order_key fuel (mainline_positions mainline) id else None) ∧
    NoDup l ∧ (∀ id, id ∈ l ↔ id ∈ dom om) ∧ StronglySorted (order_le om) l.
Proof.
  intros Hne Hl. destruct events as [|x events]; [done|]. unfold mainline_sort in Hl. inv_bind Hl.
  rename x0 into mainline, x1 into om. simplify_eq. exists mainline, om. split_and!; [done..| | | |].
  - intros id. erewrite order_events_lookup by done. rewrite lookup_empty. by case_decide;
      [destruct (order_key _ _ _)|].
  - rewrite merge_sort_Permutation. apply NoDup_iter_keys.
  - intros id. rewrite merge_sort_Permutation. apply elem_of_iter_keys.
  - apply StronglySorted_merge_sort; apply _.
Qed.

Lemma mainline_index_position l ev j fuel :
  NoDup l → mainline_index l ev j →
  match mainline_position fetch_event fuel ev (mainline_positions l) with
  | Ret _ | OutOfFuel => True
  | _ => False
  end.
Proof.
  intros Hnd Hj. revert fuel. induction Hj as [ev i Hi|ev id ev' j Hn Hf _ IH|ev Hn Hf];
    intros [|fuel]; simpl; try done;
    destruct (mainline_positions_lookup l (event_id ev) Hnd) as [Hin Hout].
  - by rewrite (Hin i Hi).
  - rewrite Hout, Hf by done. apply IH.
  - by rewrite Hout, Hf.
Qed.

(** The key of an event in the order of the specification. *)
Definition spec_key (mainline : list string) (id : string) (k : (option nat * Z) * string) : Prop :=
  ∃ ev j, fetch_event id = Some ev ∧ mainline_index mainline ev j ∧
    k = ((j, origin_server_ts ev), id).

Lemma order_key_spec fuel l id key :
  NoDup l → order_key fuel (mainline_positions l) id = Some key →
  ∃ ev j, fetch_event id = Some ev ∧ mainline_index l ev j ∧
    key = (((λ i, length l - i) <$> j, Some (origin_server_ts ev)), id).
Proof.
  unfold order_key. intros Hnd Hkey. destruct (fetch_event id) as [ev|]; simplify_eq/=.
  destruct (mainline_position _ _ _ _) as [p|e| |] eqn:Hp; simplify_eq.
  apply mainline_position_index in Hp as (j & ? & ->); [|done]. eauto 10.
Qed.

Lemma mainline_cmp_spec l evx jx evy jy x y :
  mainline_index l evx jx → mainline_index l evy jy →
  mainline_cmp (((λ i, length l - i) <$> jx, Some (origin_server_ts evx)), x)
               (((λ i, length l - i) <$> jy, Some (origin_server_ts evy)), y) =
  mainline_spec_cmp ((jx, origin_server_ts evx), x) ((jy, origin_server_ts evy), y).
Proof.
  intros Hx Hy. unfold mainline_cmp, mainline_spec_cmp, pair_cmp. simpl. do 2 f_equal.
  destruct jx as [i|], jy as [j|]; simpl; try done.
  apply mainline_index_lt in Hx, Hy.
  destruct (Nat.compare_spec (length l - i) (length l - j)), (Nat.compare_spec j i); (done || lia).
Qed.


(** Every auth event of a stored event is stored. *)
Definition store_closed : Prop :=
  ∀ id ev a, fetch_event id = Some ev → a ∈ auth_events ev → is_Some (fetch_event a).

Lemma find_power_levels_closed missing id ev :
  store_closed → fetch_event id = Some ev →
  ∃ r, find_power_levels fetch_event missing (auth_events ev) = Ret r.
Proof.
  intros Hcl Hev. pose proof (find_power_levels_cases missing (auth_events ev)) as Hf.
  destruct (find_power_levels _ _ _) as [r|e| |]; [eauto| |done|done].
  destruct Hf as (a & Ha & Hnone & _). destruct (Hcl _ _ _ Hev Ha). congruence.
Qed.

Lemma mainline_loop_closed rank fuel pl acc :
  store_ranked rank → store_closed →
  (∀ id, pl = Some id → rank id < fuel ∧ is_Some (fetch_event id)) →
  ∃ l, mainline_loop fetch_event fuel pl acc = Ret l.
Proof.
  intros Hr Hcl. revert pl acc. induction fuel as [|fuel IH]; intros [id|] acc Hpl; simpl; eauto.
  { destruct (Hpl id eq_refl). lia. }
  destruct (Hpl id eq_refl) as [Hlt [ev Hev]]. rewrite Hev.
  destruct (find_power_levels_closed (λ _, NotFound id) id ev Hcl Hev) as [next Hnext].
  rewrite Hnext. apply IH. intros a Ha.
  pose proof (find_power_levels_cases (λ _, NotFound id) (auth_events ev)) as Hf.
  rewrite Hnext in Hf. destruct next as [[id' ev']|]; simplify_eq/=. destruct Hf as [Hin Hev'].
  pose proof (Hr _ _ _ Hev Hin). rewrite Hev'. split; [lia|eauto].
Qed.

Lemma mainline_position_closed rank fuel ev m :
  store_ranked rank → store_ids → store_closed →
  fetch_event (event_id ev) = Some ev → rank (event_id ev) < fuel →
  ∃ p, mainline_position fetch_event fuel ev m = Ret p.
Proof.
  intros Hr Hids Hcl. revert ev. induction fuel as [|fuel IH]; intros ev Hev Hlt; simpl; [lia|].
  destruct (m !! event_id ev); [eauto|].
  destruct (find_power_levels_closed NotFound _ ev Hcl Hev) as [next Hnext]. rewrite Hnext.
  pose proof (find_power_levels_cases NotFound (auth_events ev)) as Hf. rewrite Hnext in Hf.
  destruct next as [[id' ev']|]; [|eauto]. destruct Hf as [Hin Hev'].
  pose proof (Hids _ _ Hev') as Hid. apply IH; rewrite Hid; [done|].
  pose proof (Hr _ _ _ Hev Hin). lia.
Qed.

(** On a store whose events refer only to older stored events, [mainline_sort]
    returns a permutation of the events it is given. *)
Theorem mainline_sort_total `{!HashIter} rank fuel events pl :
  store_ranked rank → store_ids → store_closed → NoDup events →
  (∀ id, id ∈ events ∨ pl = Some id → rank id < fuel ∧ is_Some (fetch_event id)) →
  ∃ l, mainline_sort fetch_event fuel events pl = Ret l ∧ l ≡ₚ events.
Proof.
  intros Hr Hids Hcl Hnd Hfuel. destruct (decide (events = [])) as [->|Hne]; [by exists []|].
  destruct (mainline_loop_closed rank fuel pl [] Hr Hcl) as [mainline Hm]; [by auto|].
  assert (∀ id, id ∈ events → ∃ ev p, fetch_event id = Some ev ∧
    mainline_position fetch_event fuel ev (mainline_positions mainline) = Ret p) as Hpos.
  { intros id Hin. destruct (Hfuel id (or_introl Hin)) as [Hlt [ev Hev]]. exists ev.
    pose proof (Hids _ _ Hev) as Hid. rewrite <- Hid in Hev, Hlt.
    destruct (mainline_position_closed rank fuel ev (mainline_positions mainline)) as [p ?]; eauto.
    exists p. by rewrite <- Hid. }
  destruct (proj2 (order_events_returns fuel (mainline_positions mainline) ∅ events)) as [om Hom].
  { intros id Hin ev Hev. destruct (Hpos id Hin) as (ev' & p & Hev' & Hp). simplify_eq.
    by rewrite Hp. }
  assert (∃ l, mainline_sort fetch_event fuel events pl = Ret l) as [l Hl].
  { unfold mainline_sort. destruct events as [|x events]; [done|]. rewrite Hm, Hom. eauto. }
  exists l. split; [done|].
  destruct (mainline_sort_ret _ _ _ _ Hne Hl) as (m' & om' & Hm' & Hom' & Hlook & Hndl & Hel & _).
  same_result. apply NoDup_Permutation; [done..|]. intros id. rewrite Hel, elem_of_dom, Hlook.
  case_decide as Hin; [|split; [by intros [? ?]|done]]. split; [done|]. intros _.
  destruct (Hpos id Hin) as (ev & p & Hev & Hp). unfold order_key. rewrite Hev. simpl.
  rewrite Hp. eauto.
Qed.

End mainline.

(** ** The sample room *)

Lemma sample_ids : store_ids sample_fetch.
Proof. intros id ev [_ ?]%find_event_Some. done. Qed.

Lemma sample_ranked : store_ranked sample_fetch sample_rank.
Proof.
  intros id ev a [Hin <-]%find_event_Some. revert a.
  assert (Forall (λ ev, Forall (λ a, sample_rank a < sample_rank (event_id ev)) (auth_events ev))
            sample_events) as Hall by by_decide.
  rewrite Forall_forall in Hall. specialize (Hall ev Hin). by rewrite Forall_forall in Hall.
Qed.

Lemma sample_closed : store_closed sample_fetch.
Proof.
  intros id ev a [Hin <-]%find_event_Some. revert a.
  assert (Forall (λ ev, Forall (λ a, is_Some (sample_fetch a)) (auth_events ev))
            sample_events) as Hall by by_decide.
  rewrite Forall_forall in Hall. specialize (Hall ev Hin). by rewrite Forall_forall in Hall.
Qed.

#[local] Existing Instance hash_iter_std.


Lemma mainline_sort_total_witness :
  ∃ l, mainline_sort sample_fetch 20 ["$name2"; "$name1"] (Some "$levels2") = Ret l ∧
    l ≡ₚ ["$name2"; "$name1"].
Proof.
  apply (mainline_sort_total sample_fetch sample_rank);
    [exact sample_ranked|exact sample_ids|exact sample_closed|by_decide|].
  assert (Forall (λ id, sample_rank id < 20 ∧ is_Some (sample_fetch id))
            ["$name2"; "$name1"; "$levels2"]) as Hall by by_decide.
  rewrite Forall_forall in Hall. intros id [Hin|[= <-]]; apply Hall; set_solver.
Defined.
