(* ===== verification/ResolveSpec.v ===== *)
(** * State resolution: what [resolve] returns

    The unconflicted state is kept, every other entry of the result is an event of
    the full conflicted set that passed the authorization rules. *)

From S2P Require Import Prelude RoomVersionRules CanonicalJson Signatures Events EventAuth Sample TopoSort TopoSpec.
From S2P Require Import Resolve ConflictSets PowerGraph Mainline.

Section resolve_spec.
Context {RawJson : Type} `{!External RawJson} (fetch_event : string → option (Pdu RawJson)).
Context (rules : AuthorizationRules).
Implicit Types (state : StateMap string) (k : string * string) (id : string).

(** ** Iterative auth checks *)

(** [id] is an event for [k] that the authorization rules accepted against its auth
    events and the state of the time. *)
Definition accepted k id : Prop :=
  ∃ ev sk state auth, fetch_event id = Some ev ∧ state_key ev = Some sk ∧
    k = (event_type ev, sk) ∧ auth_state fetch_event rules ev state = Ret (Some auth) ∧
    check_state_dependent_auth_rules rules ev (λ ty key, auth !! (ty, key)) = Ret tt.

Lemma auth_check_step_entry state state' id k v :
  auth_check_step fetch_event rules state id = Ret state' → state' !! k = Some v →
  state !! k = Some v ∨ (v = id ∧ accepted k id).
Proof.
  unfold auth_check_step. intros Hstep Hk.
  destruct (fetch_event id) as [ev|] eqn:Hev; [|done].
  destruct (state_key ev) as [sk|] eqn:Hsk; [|done]. inv_bind Hstep.
  destruct x as [auth|]; [|simplify_eq; auto].
  destruct (check_state_dependent_auth_rules _ _ _) as [[]|e| |] eqn:Hcheck; simplify_eq; [|auto].
  apply lookup_insert_Some in Hk as [[<- <-]|[_ ?]]; [|auto].
  right. split; [done|]. by exists ev, sk, state, auth.
Qed.

Lemma iterative_auth_checks_entry events state state' k v :
  iterative_auth_checks fetch_event rules events state = Ret state' → state' !! k = Some v →
  state !! k = Some v ∨ (v ∈ events ∧ accepted k v).
Proof.
  revert state. induction events as [|id events IH]; intros state; simpl; intros Hit Hk.
  { simplify_eq. auto. }
  inv_bind Hit. rename select (auth_check_step _ _ _ _ = Ret _) into Hstep.
  destruct (IH _ Hit Hk) as [Hk'|[? ?]]; [|by rewrite elem_of_cons; auto].
  destruct (auth_check_step_entry _ _ _ _ _ Hstep Hk') as [|[-> ?]]; rewrite elem_of_cons; auto.
Qed.

(** ** The sorted events are conflicted events *)

Lemma edge_in_full F x y : edge fetch_event F x y → y ∈ F.
Proof. intros Hy. by apply elem_of_list_to_set, list_elem_of_filter in Hy as [? _]. Qed.

Lemma reach_in_full F x y : x ∈ F → rtc (edge fetch_event F) x y → y ∈ F.
Proof. intros Hx Hxy. induction Hxy as [|x y z Hxy _ IH]; [done|]. by eapply IH, edge_in_full. Qed.

Lemma sort_power_events_sub `{!HashIter} ps F l :
  (∀ p, p ∈ ps → p ∈ F) → sort_power_events fetch_event ps F rules = Ret l → ∀ x, x ∈ l → x ∈ F.
Proof.
  unfold sort_power_events. intros Hps Hl x Hx.
  destruct (add_all_spec fetch_event F ps ∅ (graph_closed_empty _ _)) as (G & HG & _ & Hdom).
  rewrite HG in Hl. apply bind_ret in Hl as (levels & _ & Hl).
  pose proof (sort_kahn (event_details fetch_event levels) G) as Hk. rewrite Hl in Hk.
  apply kahn_topological, topological_elements in Hk as [_ Hel].
  destruct (Hel x Hx) as [_ Hin]. apply Hdom in Hin as [Hin|(p & Hp & Hreach)].
  - by rewrite dom_empty_L in Hin.
  - eapply reach_in_full; [|done]. by apply Hps.
Qed.

Lemma mainline_sort_sub `{!HashIter} fuel events pl l :
  mainline_sort fetch_event fuel events pl = Ret l → ∀ x, x ∈ l → x ∈ events.
Proof.
  intros Hl x Hx. destruct (decide (events = [])) as [->|Hne]; [by simplify_eq/=|].
  destruct (mainline_sort_ret _ _ _ _ _ Hne Hl) as (m & om & _ & _ & Hom & _ & Hel & _).
  apply Hel, elem_of_dom in Hx as [key Hkey]. rewrite Hom in Hkey. by case_decide.
Qed.

Lemma elem_of_full `{!HashIter} chains conflicted subgraph x :
  x ∈ full_conflicted_set fetch_event chains conflicted subgraph ↔
  is_Some (fetch_event x) ∧
  (x ∈ auth_difference chains ∨ (∃ k l, conflicted !! k = Some l ∧ x ∈ l) ∨ x ∈ subgraph).
Proof.
  unfold full_conflicted_set.
  rewrite elem_of_list_to_set, list_elem_of_filter, !elem_of_app, elem_of_iter_set.
  assert (x ∈ concat ((iter_map ["conflicted_state_set"] conflicted).*2) ↔
    ∃ k l, conflicted !! k = Some l ∧ x ∈ l) as ->; [|done].
  rewrite list_elem_of_In, in_concat. setoid_rewrite <- list_elem_of_In. setoid_rewrite list_elem_of_fmap. split.
  - intros (l & ([k l'] & -> & Hk%elem_of_iter_map) & Hx). eauto.
  - intros (k & l & Hk & Hx). exists l. split; [|done]. exists (k, l).
    by rewrite elem_of_iter_map.
Qed.

(** ** [resolve] step by step *)

Context `{!HashIter} (fuel : nat) (sr : StateResolutionV2Rules).
Context (maps : list (StateMap string)) (chains : list (gset string)).
Context (subgraph_of : StateMap (list string) → option (gset string)).

(** The conflicted state subgraph the rules ask for. *)
Definition subgraph_ok (conflicted : StateMap (list string)) (s : gset string) : Prop :=
  if consider_conflicted_state_subgraph sr then subgraph_of conflicted = Some s else s = ∅.

Record resolve_steps (m : StateMap string) (subgraph : gset string)
    (power_events : list string) (partial : StateMap string) (remaining : list string)
    (resolved : StateMap string) : Prop := {
  rs_subgraph : subgraph_ok (split_conflicted_state_set maps).2 subgraph;
  rs_power :
    let full := full_conflicted_set fetch_event chains (split_conflicted_state_set maps).2 subgraph in
    sort_power_events fetch_event
      (filter (λ id, is_power_event_id fetch_event id) (iter_set ["full"; "power_events"] full))
      full rules = Ret power_events;
  rs_partial :
    iterative_auth_checks fetch_event rules power_events
      (if begin_iterative_auth_checks_with_empty_state_map sr then ∅
       else (split_conflicted_state_set maps).1) = Ret partial;
  rs_remaining :
    let full := full_conflicted_set fetch_event chains (split_conflicted_state_set maps).2 subgraph in
    mainline_sort fetch_event fuel
      (filter (λ id, id ∉ (list_to_set power_events : gset string))
         (iter_set ["full"; "remaining"] full))
      (partial !! (RoomPowerLevels, EmptyString)) = Ret remaining;
  rs_resolved : iterative_auth_checks fetch_event rules remaining partial = Ret resolved;
  rs_result : m = (split_conflicted_state_set maps).1 ∪ resolved
}.

Lemma resolve_ret m :
  resolve fetch_event fuel rules sr maps chains subgraph_of = Ret m ↔
  ((split_conflicted_state_set maps).2 = ∅ ∧ m = (split_conflicted_state_set maps).1) ∨
  ((split_conflicted_state_set maps).2 ≠ ∅ ∧ ∃ s p pm r rm, resolve_steps m s p pm r rm).
Proof.
  unfold resolve. destruct (split_conflicted_state_set maps) as [u c] eqn:Hsplit.
  case_bool_decide as Hc; simpl.
  { split; [intros [= <-]; by left|]. intros [[_ ->]|[? _]]; done. }
  split.
  - intros Hr. inv_bind Hr. right. split; [done|]. simplify_eq.
    exists x, x0, x1, x2, x3. split; rewrite ?Hsplit; simpl; try done.
    unfold subgraph_ok. destruct (consider_conflicted_state_subgraph sr); [|congruence].
    destruct (subgraph_of c); congruence.
  - intros [[? _]|(_ & s & p & pm & r & rm & Hsteps)]; [done|].
    destruct Hsteps as [Hs Hp Hpm Hr Hrm ->]. rewrite Hsplit in *. simpl in *.
    assert ((if consider_conflicted_state_subgraph sr
             then match subgraph_of c with
                  | Some s => Ret s
                  | None => Throw FetchConflictedStateSubgraphFailed
                  end
             else Ret ∅) = Ret s) as ->.
    { unfold subgraph_ok in Hs. destruct (consider_conflicted_state_subgraph sr);
        [by rewrite Hs|by rewrite Hs]. }
    by rewrite Hp, Hpm, Hr, Hrm.
Qed.

(** ** The theorems *)

(** State every fork agrees on is kept: a pair that is in every state map is in
    the resolved state. *)
Theorem unconflicted_state_is_kept m k v :
  resolve fetch_event fuel rules sr maps chains subgraph_of = Ret m →
  maps ≠ [] → (∀ s, s ∈ maps → s !! k = Some v) → m !! k = Some v.
Proof.
  intros Hr Hne Hall.
  assert ((split_conflicted_state_set maps).1 !! k = Some v) as Hu by (by apply unconflicted_iff).
  apply resolve_ret in Hr as [[_ ->]|(_ & s & p & pm & r & rm & [])]; [done|].
  subst m. by apply lookup_union_Some_l.
Qed.

(** Forks with the same state resolve to it, without any check. *)
Theorem agreeing_forks_resolve s :
  maps ≠ [] → (∀ s', s' ∈ maps → s' = s) →
  resolve fetch_event fuel rules sr maps chains subgraph_of = Ret s.
Proof.
  intros Hne Hall. apply resolve_ret. left. split.
  - apply map_empty. intros k. pose proof (conflicted_cases maps k) as Hc.
    destruct (_ !! k) as [l|]; [|done]. destruct Hc as [Hl Hc].
    destruct l as [|v l]; [done|].
    destruct (proj1 (Hc v) (list_elem_of_here _ _)) as [(m1 & Hm1 & Hv) (m2 & Hm2 & Hnv)].
    rewrite (Hall _ Hm1) in Hv. rewrite (Hall _ Hm2) in Hnv. done.
  - apply map_eq. intros k. destruct (s !! k) as [v|] eqn:Hk.
    + symmetry. apply unconflicted_iff. split; [done|]. by intros m ->%Hall.
    + destruct ((split_conflicted_state_set maps).1 !! k) as [v|] eqn:Hv; [|done].
      apply unconflicted_iff in Hv as [_ Hv].
      assert (∃ m, m ∈ maps) as [m Hm].
      { revert Hne. clear. destruct maps as [|m ms]; [done|]. exists m. constructor. }
      specialize (Hv m Hm). rewrite (Hall m Hm) in Hv. congruence.
Qed.

(** C3. Every entry of the resolved state is one all the forks agree on, or an
    event of one of the conflicted sets (a value some fork has, an event of the
    auth difference, or one of the subgraph) that is stored, has that type and
    state key, and that the authorization rules accepted. *)
Theorem resolved_entries_are_authorized m k v :
  resolve fetch_event fuel rules sr maps chains subgraph_of = Ret m → m !! k = Some v →
  (∀ s, s ∈ maps → s !! k = Some v) ∨
  (accepted k v ∧
   ((∃ s k', s ∈ maps ∧ s !! k' = Some v) ∨ v ∈ ⋃ chains ∨
    ∃ s, subgraph_ok (split_conflicted_state_set maps).2 s ∧ v ∈ s)).
Proof.
  intros Hr Hk.
  assert (∀ k v, (split_conflicted_state_set maps).1 !! k = Some v →
    ∀ s, s ∈ maps → s !! k = Some v) as Hu by (by intros ? ? [_ ?]%unconflicted_iff).
  apply resolve_ret in Hr as [[_ ->]|(_ & s & p & pm & r & rm & [])]; [eauto|].
  subst m. apply lookup_union_Some_raw in Hk as [Hk|[_ Hk]]; [eauto|].
  assert (∀ x, x ∈ full_conflicted_set fetch_event chains (split_conflicted_state_set maps).2 s →
    (∃ s k', s ∈ maps ∧ s !! k' = Some x) ∨ x ∈ ⋃ chains ∨
    ∃ s, subgraph_ok (split_conflicted_state_set maps).2 s ∧ x ∈ s) as Hfull.
  { intros x [_ [Hx|[(k' & l & Hl & Hx)|Hx]]]%elem_of_full.
    - apply elem_of_auth_difference in Hx as [Hx _]. right; left. by apply elem_of_union_list.
    - pose proof (conflicted_cases maps k') as Hc. rewrite Hl in Hc. destruct Hc as [_ Hc].
      apply Hc in Hx as [(s' & ? & ?) _]. left. eauto.
    - right; right. eauto. }
  assert (∀ x, x ∈ p ∨ x ∈ r → x ∈ full_conflicted_set fetch_event chains
    (split_conflicted_state_set maps).2 s) as Hsorted.
  { intros x [Hx|Hx].
    - eapply sort_power_events_sub; [|exact rs_power0|done].
      intros q [_ Hq]%list_elem_of_filter. by apply elem_of_iter_set in Hq.
    - eapply mainline_sort_sub in Hx; [|exact rs_remaining0].
      apply list_elem_of_filter in Hx as [_ Hx]. by apply elem_of_iter_set in Hx. }
  destruct (iterative_auth_checks_entry _ _ _ _ _ rs_resolved0 Hk) as [Hk'|[Hin ?]];
    [|right; split; [done|apply Hfull, Hsorted; auto]].
  destruct (iterative_auth_checks_entry _ _ _ _ _ rs_partial0 Hk') as [Hk''|[Hin ?]];
    [|right; split; [done|apply Hfull, Hsorted; auto]].
  destruct (begin_iterative_auth_checks_with_empty_state_map sr); [by rewrite lookup_empty in Hk''|eauto].
Qed.

End resolve_spec.

(** ** The sample room

    Two forks: in one Carol is banned and the name is "one", in the other she is
    still there and it is "two". *)

Definition common_state : StateMap string :=
  list_to_map [((RoomCreate, EmptyString), "$create"); ((RoomMember, alice), "$alice");
               ((RoomPowerLevels, EmptyString), "$levels"); ((RoomJoinRules, EmptyString), "$rules");
               ((RoomMember, bob), "$bob")].

Definition fork1 : StateMap string :=
  <[(RoomMember, carol) := "$ban"]> (<[("m.room.name", EmptyString) := "$name1"]> common_state).

Definition fork2 : StateMap string :=
  <[(RoomMember, carol) := "$carol"]> (<[("m.room.name", EmptyString) := "$name2"]> common_state).

Definition sample_chains : list (gset string) :=
  [{["$create"; "$alice"; "$levels"; "$rules"; "$bob"; "$carol"]};
   {["$create"; "$alice"; "$levels"; "$rules"; "$bob"]}].

Definition sample_resolved : StateMap string :=
  <[(RoomMember, carol) := "$ban"]> (<[("m.room.name", EmptyString) := "$name2"]> common_state).

#[local] Existing Instance sample_external.
#[local] Existing Instance hash_iter_std.

Lemma unconflicted_state_is_kept_witness :
  sample_resolved !! (RoomMember, bob) = Some "$bob".
Proof.
  apply (unconflicted_state_is_kept sample_fetch AuthV10 20 StateResV2_0 [fork1; fork2]
           sample_chains (λ _, None)); [by_vm|done|].
  intros s [->|[->|[]%elem_of_nil]%elem_of_cons]%elem_of_cons; by_vm.
Defined.

Lemma agreeing_forks_resolve_witness :
  resolve sample_fetch 0 AuthV10 StateResV2_0 [fork1; fork1] [] (λ _, None) = Ret fork1.
Proof.
  apply (agreeing_forks_resolve sample_fetch AuthV10 0 StateResV2_0 [fork1; fork1]); [done|].
  by intros s [->|[->|[]%elem_of_nil]%elem_of_cons]%elem_of_cons.
Defined.

Lemma resolved_entries_are_authorized_witness :
  (∀ s, s ∈ [fork1; fork2] → s !! (RoomMember, carol) = Some "$ban") ∨
  (accepted sample_fetch AuthV10 (RoomMember, carol) "$ban" ∧
   ((∃ s k', s ∈ [fork1; fork2] ∧ s !! k' = Some "$ban") ∨ "$ban" ∈ ⋃ sample_chains ∨
    ∃ s, subgraph_ok StateResV2_0 (λ _, None) (split_conflicted_state_set [fork1; fork2]).2 s
         ∧ "$ban" ∈ s)).
Proof.
  apply (resolved_entries_are_authorized sample_fetch AuthV10 20 StateResV2_0 [fork1; fork2]
           sample_chains (λ _, None) sample_resolved); by_vm.
Defined.
