(* ===== verification/ResolveOrder.v ===== *)
(** * State resolution does not depend on iteration order

    [resolve] iterates hash maps whose order is arbitrary, and caches the room's
    creators from whichever event comes first.  For a store whose conflicted
    events cite the room's create event and at most one power levels event, two
    runs over the same forks, in any order, return the same state. *)

From S2P Require Import Prelude RoomVersionRules CanonicalJson Signatures Events EventAuth Sample TopoSort TopoSpec.
From S2P Require Import Resolve ConflictSets PowerGraph Mainline ResolveSpec.

Section order.
Context {RawJson : Type} `{!External RawJson} (fetch_event : string → option (Pdu RawJson)).
Context (rules : AuthorizationRules).

(** ** The power level of a sender *)

Definition is_levels (ev : Pdu RawJson) : bool := is_type_and_key ev RoomPowerLevels EmptyString.
Definition is_create (ev : Pdu RawJson) : bool := is_type_and_key ev RoomCreate EmptyString.

(** The events of the list that satisfy [P], and the first of them. *)
Definition cites (P : Pdu RawJson → bool) (ids : list string) (x : Pdu RawJson) : Prop :=
  ∃ a, a ∈ ids ∧ fetch_event a = Some x ∧ P x = true.

Fixpoint first_cited (P : Pdu RawJson → bool) (ids : list string) : option (Pdu RawJson) :=
  match ids with
  | [] => None
  | a :: ids =>
      match fetch_event a with
      | Some x => if P x then Some x else first_cited P ids
      | None => first_cited P ids
      end
  end.

(** All of them are the same. *)
Definition cites_one (P : Pdu RawJson → bool) (ids : list string) : Prop :=
  ∀ x y, cites P ids x → cites P ids y → x = y.

(** The first of two options. *)
Definition or_else {A} (x y : option A) : option A := match x with Some _ => x | None => y end.

Lemma cites_here P a ids x : fetch_event a = Some x → P x = true → cites P (a :: ids) x.
Proof. intros. exists a. split_and!; [constructor|done..]. Qed.

Lemma cites_further P a ids x : cites P ids x → cites P (a :: ids) x.
Proof. intros (b & ? & ? & ?). exists b. split_and!; [by constructor|done..]. Qed.

Lemma create_not_levels ev : is_create ev = true → is_levels ev = false.
Proof.
  unfold is_create, is_levels, is_type_and_key. intros [->%String.eqb_eq _]%andb_true_iff. done.
Qed.

(** The power levels event found is the cited one, whether the creators are known
    or not. *)
Lemma find_levels_cited hc c0 l0 ids :
  (∀ x y, (l0 = Some x ∨ cites is_levels ids x) → cites is_levels ids y → x = y) →
  (find_create_and_levels fetch_event rules hc c0 l0 ids).2 = or_else l0 (first_cited is_levels ids).
Proof.
  revert c0 l0. induction ids as [|a ids IH]; intros c0 l0 Huniq; simpl; [by destruct l0|].
  assert (∀ x y, (l0 = Some x ∨ cites is_levels ids x) → cites is_levels ids y → x = y) as Huniq'.
  { intros x y [?|?] ?; apply Huniq; eauto using cites_further. }
  destruct (fetch_event a) as [ev|] eqn:Ha; [|by apply IH].
  fold (is_levels ev). destruct (is_levels ev) eqn:Hlev.
  - assert (or_else l0 (Some ev) = Some ev) as ->.
    { destruct l0 as [y|]; [|done]. simpl. f_equal. apply Huniq; eauto using cites_here. }
    case_match; [done|]. rewrite IH; [done|].
    intros x y [[= <-]|?] ?; apply Huniq; eauto using cites_further, cites_here.
  - destruct (_ && is_type_and_key ev RoomCreate EmptyString);
      (destruct (bool_decide (is_Some l0) && _) eqn:Hb; [|by apply IH]);
      apply andb_true_iff in Hb as [Hs%bool_decide_eq_true_1 _]; by destruct Hs as [? ->].
Qed.

(** With the creators unknown, the create event found is the cited one. *)
Lemma find_create_cited c0 l0 ids :
  room_create_event_id_as_room_id rules = false →
  (∀ x y, (c0 = Some x ∨ cites is_create ids x) → cites is_create ids y → x = y) →
  (find_create_and_levels fetch_event rules false c0 l0 ids).1 = or_else c0 (first_cited is_create ids).
Proof.
  intros Hv. revert c0 l0. induction ids as [|a ids IH]; intros c0 l0 Huniq; simpl; [by destruct c0|].
  assert (∀ x y, (c0 = Some x ∨ cites is_create ids x) → cites is_create ids y → x = y) as Huniq'.
  { intros x y [?|?] ?; apply Huniq; eauto using cites_further. }
  destruct (fetch_event a) as [ev|] eqn:Ha; [|by apply IH].
  rewrite Hv. fold (is_levels ev) (is_create ev). simpl.
  destruct (is_create ev) eqn:Hcr; [rewrite (create_not_levels ev Hcr)|].
  - assert (or_else c0 (Some ev) = Some ev) as ->.
    { destruct c0 as [y|]; [|done]. simpl. f_equal. apply Huniq; eauto using cites_here. }
    case_match; [done|]. rewrite IH; [done|].
    intros x y [[= <-]|?] ?; apply Huniq; eauto using cites_further, cites_here.
  - destruct (is_levels ev); (destruct (bool_decide _ && _) eqn:Hb; [|by apply IH]);
      apply andb_true_iff in Hb as [_ Hs%bool_decide_eq_true_1]; by destruct Hs as [? ->].
Qed.

(** Otherwise the create event is left alone. *)
Lemma find_create_known hc c0 l0 ids :
  room_create_event_id_as_room_id rules || hc = true →
  (find_create_and_levels fetch_event rules hc c0 l0 ids).1 = c0.
Proof.
  intros Hv. revert c0 l0. induction ids as [|a ids IH]; intros c0 l0; simpl; [done|].
  destruct (fetch_event a) as [ev|]; [|by apply IH].
  assert (negb (room_create_event_id_as_room_id rules) && negb hc = false) as ->
    by (by rewrite <- negb_orb, Hv).
  simpl. destruct (is_type_and_key ev RoomPowerLevels EmptyString);
    (destruct (bool_decide _ && _); [done|apply IH]).
Qed.

(** The event cites at most one power levels event, and the create event of a room
    whose creators are [cs]. *)
Definition well_cited (cs : gset string) (id : string) : Prop :=
  ∃ ev, fetch_event id = Some ev ∧ cites_one is_levels (auth_events ev) ∧
    ∃ create, creators create rules = Ret cs ∧
      if room_create_event_id_as_room_id rules
      then fetch_create_by_room_id fetch_event ev = Some create
      else cites_one is_create (auth_events ev) ∧
           first_cited is_create (auth_events ev) = Some create.

(** So the cached creators do not change its sender's level. *)
Lemma power_level_lock cs id :
  well_cited cs id →
  power_level_for_sender fetch_event id rules None =
  power_level_for_sender fetch_event id rules (Some cs).
Proof.
  intros (ev & Hev & Hlev & create & Hcs & Hcr).
  unfold power_level_for_sender, opt_auth_events. rewrite Hev.
  rewrite (bool_decide_eq_false_2 (is_Some (@None (gset string)))) by apply is_Some_None.
  rewrite (bool_decide_eq_true_2 (is_Some (Some cs))) by eauto.
  rewrite andb_false_r, andb_true_r. simpl.
  assert (∀ x y, (@None (Pdu RawJson) = Some x ∨ cites is_levels (auth_events ev) x) →
    cites is_levels (auth_events ev) y → x = y) as Huniq by (intros x y [|]; [done|by apply Hlev]).
  set (c0 := if room_create_event_id_as_room_id rules then _ else None).
  destruct (find_create_and_levels fetch_event rules false c0 None (auth_events ev))
    as [c1 l1] eqn:H1.
  destruct (find_create_and_levels fetch_event rules true None None (auth_events ev))
    as [c2 l2] eqn:H2.
  pose proof (find_levels_cited false c0 None _ Huniq) as Hl1. rewrite H1 in Hl1.
  pose proof (find_levels_cited true None None _ Huniq) as Hl2. rewrite H2 in Hl2.
  simpl in *. subst l1 l2.
  assert (c1 = Some create) as ->; [|by rewrite Hcs].
  unfold c0 in H1. destruct (room_create_event_id_as_room_id rules) eqn:Hv.
  - pose proof (find_create_known false (fetch_create_by_room_id fetch_event ev) None
      (auth_events ev)) as Hc. rewrite Hv, H1 in Hc. simpl in Hc. by rewrite Hc.
  - destruct Hcr as [Hone Hfirst].
    pose proof (find_create_cited None None (auth_events ev) Hv) as Hc. rewrite H1 in Hc.
    simpl in Hc. rewrite Hc; [done|]. intros x y [|]; [done|by apply Hone].
Qed.

(** ** The levels of the graph *)

Lemma power_level_lock_out id l lock cs :
  power_level_for_sender fetch_event id rules (Some cs) = Ret (l, lock) → lock = Some cs.
Proof.
  unfold power_level_for_sender. destruct (find_create_and_levels _ _ _ _ _ _) as [c lv].
  destruct (fetch_event id); intros Hl; inv_bind Hl; by simplify_eq.
Qed.

Lemma power_levels_of_spec cs lock ids m m' :
  (∀ id, id ∈ ids → well_cited cs id) → lock = None ∨ lock = Some cs →
  power_levels_of fetch_event rules lock m ids = Ret m' →
  (∀ id, id ∈ ids → ∃ l, power_level_for_sender fetch_event id rules (Some cs) = Ret (l, Some cs) ∧
                         m' !! id = Some l) ∧
  (∀ id, id ∉ ids → m' !! id = m !! id).
Proof.
  revert lock m. induction ids as [|x ids IH]; intros lock m Hwc Hlock; simpl; intros Hm.
  { simplify_eq. split; [set_solver|done]. }
  assert (power_level_for_sender fetch_event x rules lock =
          power_level_for_sender fetch_event x rules (Some cs)) as Heq.
  { destruct Hlock as [->| ->]; [|done]. apply power_level_lock, Hwc. constructor. }
  rewrite Heq in Hm.
  destruct (power_level_for_sender fetch_event x rules (Some cs)) as [[l lock']|e| |] eqn:Hl; try done.
  pose proof (power_level_lock_out _ _ _ _ Hl) as ->.
  destruct (IH (Some cs) (<[x:=l]> m)) as [Hin Hout]; [|by right|done|].
  { intros id Hid. apply Hwc. by constructor. }
  split.
  - intros id Hid. destruct (decide (id ∈ ids)) as [|Hni]; [by apply Hin|].
    apply elem_of_cons in Hid as [->|]; [|done]. exists l. split; [done|].
    rewrite Hout by done. apply lookup_insert_eq.
  - intros id [Hne Hni]%not_elem_of_cons. rewrite Hout by done. by apply lookup_insert_ne.
Qed.

Lemma power_levels_of_returns cs lock ids m :
  (∀ id, id ∈ ids → well_cited cs id ∧
     ∃ l, power_level_for_sender fetch_event id rules (Some cs) = Ret (l, Some cs)) →
  lock = None ∨ lock = Some cs →
  ∃ m', power_levels_of fetch_event rules lock m ids = Ret m'.
Proof.
  revert lock m. induction ids as [|x ids IH]; intros lock m Hids Hlock; simpl; [eauto|].
  destruct (Hids x (list_elem_of_here _ _)) as [Hwc [l Hl]].
  assert (power_level_for_sender fetch_event x rules lock = Ret (l, Some cs)) as ->.
  { destruct Hlock as [->| ->]; [|done]. by rewrite (power_level_lock cs). }
  apply IH; [|by right]. intros id Hid. apply Hids. by constructor.
Qed.

(** Two runs over the same events give the same levels. *)
Lemma power_levels_of_det cs ids1 ids2 m :
  (∀ id, id ∈ ids1 → well_cited cs id) → (∀ id, id ∈ ids1 ↔ id ∈ ids2) →
  power_levels_of fetch_event rules None ∅ ids1 = Ret m →
  power_levels_of fetch_event rules None ∅ ids2 = Ret m.
Proof.
  intros Hwc Hsame Hm.
  destruct (power_levels_of_spec cs None ids1 ∅ m Hwc (or_introl eq_refl) Hm) as [Hin1 Hout1].
  destruct (power_levels_of_returns cs None ids2 ∅) as [m2 Hm2]; [|by left|].
  { intros id Hid%Hsame. split; [by apply Hwc|]. destruct (Hin1 id Hid) as (l & ? & _). eauto. }
  rewrite Hm2. f_equal.
  assert (∀ id, id ∈ ids2 → well_cited cs id) as Hwc2 by (intros id ?%Hsame; auto).
  destruct (power_levels_of_spec cs None ids2 ∅ m2 Hwc2 (or_introl eq_refl) Hm2) as [Hin2 Hout2].
  apply map_eq. intros id. destruct (decide (id ∈ ids1)) as [Hid|Hid].
  - destruct (Hin1 id Hid) as (l & Hl & ->), (Hin2 id (proj1 (Hsame id) Hid)) as (l' & Hl' & ->).
    congruence.
  - rewrite Hout1, Hout2 by (by rewrite <- ?Hsame). done.
Qed.

(** ** The two sorts *)

Lemma power_graph_det F ps1 ps2 G :
  (∀ p, p ∈ ps1 ↔ p ∈ ps2) →
  add_all_to_graph fetch_event F ∅ ps1 = Ret G → add_all_to_graph fetch_event F ∅ ps2 = Ret G.
Proof.
  intros Hsame HG1.
  destruct (add_all_spec fetch_event F ps1 ∅ (graph_closed_empty _ _)) as (G1 & ? & [Hok1 _] & Hdom1).
  destruct (add_all_spec fetch_event F ps2 ∅ (graph_closed_empty _ _)) as (G2 & HG2 & [Hok2 _] & Hdom2).
  same_result. rewrite HG2. f_equal. apply map_eq. intros x.
  assert (x ∈ dom G1 ↔ x ∈ dom G2) as Hdom.
  { rewrite Hdom1, Hdom2. by setoid_rewrite Hsame. }
  rewrite !elem_of_dom in Hdom.
  destruct (G1 !! x) as [o1|] eqn:H1, (G2 !! x) as [o2|] eqn:H2.
  - by rewrite (Hok1 _ _ H1), (Hok2 _ _ H2).
  - by destruct (proj1 Hdom); eauto.
  - by destruct (proj2 Hdom); eauto.
  - done.
Qed.

Lemma sort_power_events_det cs (H1 H2 : HashIter) F ps1 ps2 l :
  (∀ x, x ∈ F → well_cited cs x) → (∀ p, p ∈ ps1 → p ∈ F) → (∀ p, p ∈ ps1 ↔ p ∈ ps2) →
  @sort_power_events _ _ fetch_event H1 ps1 F rules = Ret l →
  @sort_power_events _ _ fetch_event H2 ps2 F rules = Ret l.
Proof.
  unfold sort_power_events. intros Hwc HF Hsame Hl.
  apply bind_ret in Hl as (G & HG & Hl). apply bind_ret in Hl as (levels & Hlev & Hl).
  rewrite (power_graph_det F ps1 ps2 G Hsame HG).
  assert (∀ x, x ∈ dom G → well_cited cs x) as HwcG.
  { destruct (add_all_spec fetch_event F ps1 ∅ (graph_closed_empty _ _)) as (G' & ? & _ & Hdom).
    same_result. intros x [?%elem_of_empty|(p & Hp & Hr)]%Hdom; [done|].
    eapply Hwc, reach_in_full; [|done]. by apply HF. }
  assert (∀ id, id ∈ @iter_keys H1 _ _ _ _ ["graph"; "keys"] G → well_cited cs id) as Hwc1.
  { intros id Hid%elem_of_iter_keys. auto. }
  erewrite power_levels_of_det; [|exact Hwc1| |exact Hlev];
    [|intros id; by rewrite !elem_of_iter_keys].
  destruct (power_levels_of_spec cs None _ ∅ levels Hwc1 (or_introl eq_refl) Hlev) as [Hin _].
  assert (∀ e, e ∈ dom G → ∃ d, event_details fetch_event levels e = Ok d) as Hdet.
  { intros e He. unfold event_details. destruct (HwcG e He) as (ev & -> & _).
    destruct (Hin e) as (le & _ & ->); [by apply elem_of_iter_keys|]. eauto. }
  destruct (@sort_returns _ G Hdet H1) as (l1 & Hl1 & Hk1).
  destruct (@sort_returns _ G Hdet H2) as (l2 & Hl2 & Hk2).
  rewrite Hl2. rewrite Hl1 in Hl. injection Hl as <-. f_equal. by eapply kahn_unique.
Qed.

Lemma order_le_anti fuel m (om : gmap string MainlineKey) x y :
  (∀ id key, om !! id = Some key → order_key fetch_event fuel m id = Some key) →
  x ∈ dom om → y ∈ dom om → order_le om x y → order_le om y x → x = y.
Proof.
  intros Hom [kx Hkx]%elem_of_dom [ky Hky]%elem_of_dom. unfold order_le. rewrite Hkx, Hky.
  intros Hxy Hyx. pose proof (cmp_le_anti (option_cmp mainline_cmp) _ _ Hxy Hyx) as Heq.
  simplify_eq. apply Hom in Hkx, Hky. unfold order_key in *.
  repeat (case_match || simplify_option_eq); done.
Qed.

Lemma mainline_sort_det (H1 H2 : HashIter) fuel ev1 ev2 pl l :
  (∀ x, x ∈ ev1 ↔ x ∈ ev2) →
  @mainline_sort _ fetch_event H1 fuel ev1 pl = Ret l →
  @mainline_sort _ fetch_event H2 fuel ev2 pl = Ret l.
Proof.
  intros Hsame Hl. destruct (decide (ev1 = [])) as [->|Hne].
  { destruct ev2 as [|x ev2]; [done|].
    assert (x ∈ @nil string) as []%elem_of_nil. apply Hsame. constructor. }
  destruct (mainline_sort_ret _ _ _ _ _ Hne Hl)
    as (mainline & om & Hloop & Hord & Hlook & Hnd & Hel & Hsort).
  assert (ev2 ≠ []) as Hne2.
  { intros ->. destruct ev1 as [|x ev1]; [done|].
    assert (x ∈ @nil string) as []%elem_of_nil. apply Hsame. constructor. }
  destruct (proj2 (order_events_returns fetch_event fuel (mainline_positions mainline) ∅ ev2))
    as [om2 Hord2].
  { intros id Hid%Hsame. by apply (proj1 (order_events_returns _ _ _ _ _) (ex_intro _ _ Hord)). }
  assert (∃ l2, @mainline_sort _ fetch_event H2 fuel ev2 pl = Ret l2) as [l2 Hl2].
  { unfold mainline_sort. destruct ev2; [done|]. rewrite Hloop, Hord2. eauto. }
  destruct (@mainline_sort_ret _ _ H2 _ _ _ _ Hne2 Hl2)
    as (mainline2 & om2' & ? & ? & Hlook2 & Hnd2 & Hel2 & Hsort2). same_result.
  assert (om2' = om) as ->.
  { apply map_eq. intros id. rewrite Hlook, Hlook2.
    destruct (decide (id ∈ ev2)) as [Hin|Hin]; [rewrite decide_True|rewrite decide_False];
      by rewrite ?Hsame. }
  rewrite Hl2. f_equal.
  apply (StronglySorted_unique_strong (order_le om)); [|done|done|].
  - intros x y ?%Hel2 ?%Hel. eapply order_le_anti; [|done..].
    intros id key Hkey. rewrite Hlook in Hkey. by case_decide.
  - apply NoDup_Permutation; [done..|]. intros id. by rewrite Hel, Hel2.
Qed.

(** ** [resolve] *)

(** Two lists of conflicting events with the same members. *)
Definition same_members (o1 o2 : option (list string)) : Prop :=
  match o1, o2 with
  | Some l1, Some l2 => ∀ x, x ∈ l1 ↔ x ∈ l2
  | None, None => True
  | _, _ => False
  end.

Lemma same_nil {A} (l1 l2 : list A) : (∀ x, x ∈ l1 ↔ x ∈ l2) → l1 ≠ [] → l2 ≠ [].
Proof.
  intros Hsame Hne ->. destruct l1 as [|x l1]; [done|].
  assert (x ∈ @nil A) as []%elem_of_nil. apply Hsame. constructor.
Qed.

Lemma unconflicted_det (H1 H2 : HashIter) maps1 maps2 :
  (∀ m, m ∈ maps1 ↔ m ∈ maps2) →
  (@split_conflicted_state_set H1 maps1).1 = (@split_conflicted_state_set H2 maps2).1.
Proof.
  intros Hsame. apply map_eq. intros k. apply option_eq. intros v.
  rewrite !unconflicted_iff. setoid_rewrite Hsame.
  split; intros [Hne ?]; (split; [|done]); (eapply same_nil; [|done]);
    intros m; by rewrite Hsame.
Qed.

Lemma conflicted_det (H1 H2 : HashIter) maps1 maps2 k :
  (∀ m, m ∈ maps1 ↔ m ∈ maps2) →
  same_members ((@split_conflicted_state_set H1 maps1).2 !! k)
               ((@split_conflicted_state_set H2 maps2).2 !! k).
Proof.
  intros Hsame. pose proof (@conflicted_cases H1 maps1 k) as Hc1.
  pose proof (@conflicted_cases H2 maps2 k) as Hc2. unfold same_members.
  destruct ((@split_conflicted_state_set H1 maps1).2 !! k) as [l1|],
    ((@split_conflicted_state_set H2 maps2).2 !! k) as [l2|]; [| | |done].
  - destruct Hc1 as [_ Hc1], Hc2 as [_ Hc2]. intros x. rewrite Hc1, Hc2. by setoid_rewrite Hsame.
  - destruct Hc1 as [Hne Hc1]. destruct l1 as [|v l1]; [done|].
    destruct (proj1 (Hc1 v) (list_elem_of_here _ _)) as [Hex (m & Hm%Hsame & Hnv)].
    setoid_rewrite Hsame in Hex. by destruct Hnv; apply (Hc2 v).
  - destruct Hc2 as [Hne Hc2]. destruct l2 as [|v l2]; [done|].
    destruct (proj1 (Hc2 v) (list_elem_of_here _ _)) as [Hex (m & Hm%Hsame & Hnv)].
    setoid_rewrite <- Hsame in Hex. by destruct Hnv; apply (Hc1 v).
Qed.

Lemma same_members_empty (c1 c2 : StateMap (list string)) :
  (∀ k, same_members (c1 !! k) (c2 !! k)) → c1 = ∅ ↔ c2 = ∅.
Proof.
  intros Hsame. rewrite !map_empty. split; intros He k; specialize (Hsame k);
    rewrite He in Hsame; by destruct (_ !! k).
Qed.

Lemma full_det (H1 H2 : HashIter) chains1 chains2 c1 c2 s :
  (∀ c, c ∈ chains1 ↔ c ∈ chains2) → (∀ k, same_members (c1 !! k) (c2 !! k)) →
  @full_conflicted_set _ fetch_event H1 chains1 c1 s =
  @full_conflicted_set _ fetch_event H2 chains2 c2 s.
Proof.
  intros Hch Hsame. apply set_eq. intros x. rewrite !elem_of_full, !elem_of_auth_difference.
  setoid_rewrite Hch.
  assert ((∃ k l, c1 !! k = Some l ∧ x ∈ l) ↔ (∃ k l, c2 !! k = Some l ∧ x ∈ l)) as ->; [|done].
  apply exist_proper. intros k. specialize (Hsame k). unfold same_members in Hsame.
  destruct (c1 !! k), (c2 !! k); naive_solver.
Qed.

(** C1. State resolution is deterministic: over the same forks and auth chains, in
    any order and repetition, and whatever the order in which the hash maps are
    iterated, a run that returns a state returns the same one. *)
Theorem resolve_deterministic (H1 H2 : HashIter) cs fuel sr maps1 maps2 chains1 chains2
    subgraph_of m :
  (∀ s, s ∈ maps1 ↔ s ∈ maps2) → (∀ c, c ∈ chains1 ↔ c ∈ chains2) →
  (∀ c1 c2, (∀ k, same_members (c1 !! k) (c2 !! k)) → subgraph_of c1 = subgraph_of c2) →
  (∀ s x, subgraph_ok sr subgraph_of (@split_conflicted_state_set H1 maps1).2 s →
     x ∈ @full_conflicted_set _ fetch_event H1 chains1 (@split_conflicted_state_set H1 maps1).2 s →
     well_cited cs x) →
  @resolve _ _ fetch_event H1 fuel rules sr maps1 chains1 subgraph_of = Ret m →
  @resolve _ _ fetch_event H2 fuel rules sr maps2 chains2 subgraph_of = Ret m.
Proof.
  intros Hmaps Hch Hsub Hwc Hr.
  pose proof (unconflicted_det H1 H2 maps1 maps2 Hmaps) as Hu.
  assert (∀ k, same_members ((@split_conflicted_state_set H1 maps1).2 !! k)
    ((@split_conflicted_state_set H2 maps2).2 !! k)) as Hc by (intros k; by apply conflicted_det).
  apply resolve_ret. apply resolve_ret in Hr as [[He ->]|(Hne & s & p & pm & r & rm & Hsteps)].
  { left. by rewrite <- Hu, <- (same_members_empty _ _ Hc). }
  right. rewrite <- (same_members_empty _ _ Hc). split; [done|]. exists s, p, pm, r, rm.
  destruct Hsteps as [Hs Hp Hpm Hrem Hres ->]. rewrite Hu in Hpm |- *.
  assert (∀ x, x ∈ @full_conflicted_set _ fetch_event H1 chains1
    (@split_conflicted_state_set H1 maps1).2 s → well_cited cs x) as Hwc' by eauto.
  rewrite (full_det H1 H2 chains1 chains2 _ _ s Hch Hc) in Hp, Hrem.
  cbv zeta in Hp, Hrem.
  split; cbv zeta; [|eapply (sort_power_events_det cs H1); [| | |exact Hp]|done
    |eapply (mainline_sort_det H1); [|exact Hrem]|done|done].
  - unfold subgraph_ok in *. by rewrite <- (Hsub _ _ Hc).
  - intros x Hx. rewrite <- (full_det H1 H2 chains1 chains2 _ _ s Hch Hc) in Hx. by apply Hwc'.
  - intros x [_ Hx]%list_elem_of_filter. by rewrite elem_of_iter_set in Hx.
  - intros x. by rewrite !list_elem_of_filter, !elem_of_iter_set.
  - intros x. by rewrite !list_elem_of_filter, !elem_of_iter_set.
Qed.

End order.

(** ** The sample room *)

#[local] Existing Instance sample_external.

Lemma cites_one_length (P : SampleEvent → bool) ids :
  length (omap (λ a, x ← sample_fetch a; if P x then Some x else None) ids) ≤ 1 →
  cites_one sample_fetch P ids.
Proof.
  intros Hlen. assert (∀ x, cites sample_fetch P ids x →
    x ∈ omap (λ a, x ← sample_fetch a; if P x then Some x else None) ids) as Hin.
  { intros x (a & Ha & Hx & HP). apply list_elem_of_omap. exists a. split; [done|].
    rewrite Hx. simpl. by rewrite HP. }
  intros x y ?%Hin ?%Hin. destruct (omap _ ids) as [|z [|]]; simpl in Hlen; [set_solver| |lia].
  by rewrite !list_elem_of_singleton in *; subst.
Qed.

Lemma sample_well_cited x :
  x ∈ ["$carol"; "$ban"; "$name1"; "$name2"] → well_cited sample_fetch AuthV10 {[alice]} x.
Proof.
  assert (∀ ev, sample_fetch (event_id ev) = Some ev →
    length (omap (λ a, x ← sample_fetch a; if is_levels x then Some x else None) (auth_events ev)) ≤ 1 →
    length (omap (λ a, x ← sample_fetch a; if is_create x then Some x else None) (auth_events ev)) ≤ 1 →
    first_cited sample_fetch is_create (auth_events ev) = Some ev_create →
    well_cited sample_fetch AuthV10 {[alice]} (event_id ev)) as Hwc.
  { intros ev Hev Hl Hc Hf. exists ev. split_and!; [done|by apply cites_one_length|].
    exists ev_create. split; [by_vm|]. split; [by apply cites_one_length|done]. }
  rewrite !elem_of_cons, elem_of_nil. intros [->|[->|[->|[->|[]]]]];
    [apply (Hwc ev_carol)|apply (Hwc ev_ban)|apply (Hwc ev_name1)|apply (Hwc ev_name2)];
    first [by_vm | by_decide].
Qed.

Lemma resolve_deterministic_witness :
  @resolve _ _ sample_fetch hash_iter_rev 20 AuthV10 StateResV2_0 [fork2; fork1]
    (reverse sample_chains) (λ _, None) = Ret sample_resolved.
Proof.
  apply (resolve_deterministic sample_fetch AuthV10 hash_iter_std hash_iter_rev {[alice]} 20
    StateResV2_0 [fork1; fork2] [fork2; fork1] sample_chains (reverse sample_chains)).
  - intros s. rewrite !elem_of_cons. naive_solver.
  - intros c. by rewrite elem_of_reverse.
  - done.
  - intros s x Hs Hx. apply sample_well_cited. unfold subgraph_ok in Hs. simpl in Hs. subst s.
    revert x Hx. change (set_Forall (λ x, x ∈ ["$carol"; "$ban"; "$name1"; "$name2"])
      (@full_conflicted_set _ sample_fetch hash_iter_std sample_chains
         (@split_conflicted_state_set hash_iter_std [fork1; fork2]).2 ∅)).
    by_decide.
  - by_vm.
Defined.
