(* ===== verification/AuthPanic.v ===== *)
(** * The authorization checks and panics

    The checks return a verdict for every event, except that a third-party invite
    signed with a key ID whose colon is past byte 255 can make them panic. *)

From S2P Require Import Prelude Identifiers RoomVersionRules CanonicalJson Signatures Events EventAuth Sample.

(** Solves a goal [no_panic e] by following the shape of [e]. *)
Ltac no_panic_step :=
  match goal with
  | |- no_panic (Ret _) => exact I
  | |- no_panic (Throw _) => exact I
  | |- no_panic (match ?e with Ret _ => _ | Throw _ => Throw _ | Panic => Panic
                             | OutOfFuel => OutOfFuel end) =>
      apply no_panic_bind; [|intros ? ?]
  | |- no_panic (if ?b then _ else _) => destruct b
  | |- no_panic (match ?x with _ => _ end) =>
      lazymatch type of x with outcome _ _ => fail | _ => destruct x end
  | |- _ => solve [eauto with no_panic]
  end.

Ltac solve_no_panic := repeat (cbv zeta; no_panic_step).

Section no_panic.
Context {RawJson : Type} `{!External RawJson}.
Implicit Types (ev : Pdu RawJson) (rules : AuthorizationRules).

(** ** The accessors *)

Lemma de_err_np {A} p (r : result string A) : no_panic (de_err p r).
Proof. by destruct r. Qed.
#[local] Hint Resolve de_err_np : no_panic.

Lemma federate_np ev : no_panic (federate ev).
Proof. unfold federate. solve_no_panic. Qed.

Lemma creator_np ev rules : no_panic (creator ev rules).
Proof. unfold creator. solve_no_panic. Qed.
#[local] Hint Resolve federate_np creator_np : no_panic.

Lemma additional_creators_np ev rules : no_panic (additional_creators ev rules).
Proof. unfold additional_creators. solve_no_panic. Qed.
#[local] Hint Resolve additional_creators_np : no_panic.

Lemma creators_np ev rules : no_panic (creators ev rules).
Proof. unfold creators. solve_no_panic. Qed.

Lemma has_creator_np ev : no_panic (has_creator ev).
Proof. unfold has_creator. solve_no_panic. Qed.

Lemma opt_membership_np oev : no_panic (opt_membership oev).
Proof. unfold opt_membership, membership, content_membership. solve_no_panic. Qed.

Lemma membership_np ev : no_panic (membership ev).
Proof. unfold membership, content_membership. solve_no_panic. Qed.

Lemma tpi_token_np o : no_panic (tpi_token o).
Proof. unfold tpi_token. solve_no_panic. Qed.

Lemma tpi_mxid_np o : no_panic (tpi_mxid o).
Proof. unfold tpi_mxid. solve_no_panic. Qed.

Lemma tpi_signatures_np o : no_panic (tpi_signatures o).
Proof. unfold tpi_signatures. solve_no_panic. Qed.

Lemma public_keys_np ev : no_panic (public_keys ev).
Proof. unfold public_keys. solve_no_panic. Qed.
#[local] Hint Resolve creators_np has_creator_np opt_membership_np membership_np tpi_token_np
  tpi_mxid_np tpi_signatures_np public_keys_np : no_panic.

Lemma get_as_int_np ev f rules : no_panic (get_as_int ev f rules).
Proof. unfold get_as_int, deserialized_content. solve_no_panic. Qed.
#[local] Hint Resolve get_as_int_np : no_panic.

Lemma get_as_int_map_np ev k f rules : no_panic (get_as_int_map ev k f rules).
Proof. unfold get_as_int_map, deserialized_content. solve_no_panic. Qed.
#[local] Hint Resolve get_as_int_map_np : no_panic.

Lemma opt_get_as_int_or_default_np oev f rules : no_panic (opt_get_as_int_or_default oev f rules).
Proof. unfold opt_get_as_int_or_default, get_as_int_or_default. solve_no_panic. Qed.

Lemma opt_user_power_level_np oev u cs rules : no_panic (opt_user_power_level oev u cs rules).
Proof.
  unfold opt_user_power_level, user_power_level, get_as_int_or_default, pl_users. solve_no_panic.
Qed.

Lemma opt_event_power_level_np oev ty sk rules : no_panic (opt_event_power_level oev ty sk rules).
Proof.
  unfold opt_event_power_level, event_power_level, get_as_int_or_default, pl_events. solve_no_panic.
Qed.

Lemma int_fields_list_np ev l rules : no_panic (int_fields_list ev l rules).
Proof. induction l as [|f l IH]; simpl; solve_no_panic. Qed.
#[local] Hint Resolve opt_get_as_int_or_default_np opt_user_power_level_np
  opt_event_power_level_np int_fields_list_np : no_panic.

(** ** The checks *)

Lemma check_level_keys_np c n sl r e l : no_panic (check_level_keys c n sl r e l).
Proof. induction l as [|k l IH]; simpl; solve_no_panic. Qed.

Lemma check_int_fields_np ev n rules sl l : no_panic (check_int_fields ev n rules sl l).
Proof. induction l as [|f l IH]; simpl; solve_no_panic. Qed.
#[local] Hint Resolve check_level_keys_np check_int_fields_np : no_panic.

Lemma check_room_power_levels_np ev cur rules sl cs :
  no_panic (check_room_power_levels ev cur rules sl cs).
Proof.
  unfold check_room_power_levels, int_fields_map, pl_events, pl_notifications, pl_users,
    check_power_level_maps. solve_no_panic.
Qed.

Lemma check_room_redaction_np ev cur rules sl : no_panic (check_room_redaction ev cur rules sl).
Proof. unfold check_room_redaction. solve_no_panic. Qed.
#[local] Hint Resolve check_room_power_levels_np check_room_redaction_np : no_panic.

Section state.
Context (fetch : string → string → option (Pdu RawJson)).

Lemma user_membership_np u : no_panic (user_membership fetch u).
Proof. unfold user_membership. solve_no_panic. Qed.

Lemma state_join_rule_np : no_panic (state_join_rule fetch).
Proof. unfold state_join_rule, join_rule. solve_no_panic. Qed.

Lemma room_create_event_np : no_panic (room_create_event fetch).
Proof. unfold room_create_event. solve_no_panic. Qed.
#[local] Hint Resolve user_membership_np state_join_rule_np room_create_event_np : no_panic.

(** The first colon of a key ID is before byte 256, and what follows it starts a
    character. *)
Definition key_id_fits (k : string) : Prop :=
  ∀ i, str_find ":" k = Some i → i < 256 ∧ starts_char (str_drop (i + 1) k) = true.

Lemma key_id_validate_np k : key_id_fits k → no_panic (key_id_validate (λ _, Ok tt) k).
Proof.
  unfold key_id_validate. intros Hfits. destruct (str_find ":" k) as [i|] eqn:Hi; [|done].
  destruct (Hfits i Hi) as [Hlt Hc]. simpl. unfold NonZeroU8_new, as_u8.
  rewrite Z.mod_small by lia. destruct (Z.eqb_spec (Z.of_nat i) 0); [done|]. simpl.
  unfold slice_from. rewrite Nat2Z.id. unfold starts_char in Hc. rewrite Hc.
  apply str_find_lt in Hi. by destruct (Nat.leb_spec (i + 1) (String.length k)); [|lia].
Qed.

(** The signatures of an entity, and of all of them, have such key IDs. *)
Definition signatures_fit (entities : CanonicalJsonObject) : Prop :=
  ∀ e v o k w, (e, v) ∈ entities → as_object v = Some o → (k, w) ∈ o → key_id_fits k.

Lemma check_entity_signatures_np json keys sigs :
  (∀ k w, (k, w) ∈ sigs → key_id_fits k) → no_panic (check_entity_signatures json keys sigs).
Proof.
  induction sigs as [|[k v] sigs IH]; intros Hfits; simpl; [done|].
  pose proof (key_id_validate_np k (Hfits k v (list_elem_of_here _ _))) as Hk.
  assert (no_panic (check_entity_signatures json keys sigs)) as Hrest.
  { apply IH. intros k' w' ?. eapply Hfits. by constructor. }
  destruct (key_id_validate (λ _, Ok tt) k); [|done..]. solve_no_panic.
Qed.

Lemma check_signatures_np json keys entities :
  signatures_fit entities → no_panic (check_signatures json keys entities).
Proof.
  induction entities as [|[e v] entities IH]; intros Hfits; simpl; [done|].
  destruct (as_object v) as [o|] eqn:Ho; [|done]. apply no_panic_bind.
  - apply check_entity_signatures_np. intros k w ?. eapply Hfits; [constructor|done..].
  - intros [] _; [done|]. apply IH. intros ? ? ? ? ? ?. eapply Hfits. by constructor.
Qed.

(** The third-party invite of an event, if any, has such key IDs. *)
Definition event_key_ids_fit ev : Prop :=
  ∀ signed sigs, third_party_invite (content ev) = Ret (Some signed) →
    tpi_signatures signed = Ret sigs → signatures_fit sigs.

Lemma check_third_party_invite_np ev tpi target :
  event_key_ids_fit ev → third_party_invite (content ev) = Ret (Some tpi) →
  no_panic (check_third_party_invite fetch ev tpi target).
Proof.
  intros Hfit Htpi. unfold check_third_party_invite, tpi_signed_canonical_json.
  solve_no_panic. apply check_signatures_np. by eapply Hfit.
Qed.

Lemma check_room_member_invite_np ev target rules cr :
  event_key_ids_fit ev → no_panic (check_room_member_invite fetch ev target rules cr).
Proof.
  intros Hfit. unfold check_room_member_invite. apply no_panic_bind; [apply de_err_np|].
  intros [tpi|] Htpi; [by apply check_third_party_invite_np|]. solve_no_panic.
Qed.
#[local] Hint Resolve check_room_member_invite_np : no_panic.

Lemma check_room_member_np ev rules cr :
  event_key_ids_fit ev → no_panic (check_room_member fetch ev rules cr).
Proof.
  intros Hfit. unfold check_room_member, check_room_member_join, check_room_member_leave,
    check_room_member_ban, check_room_member_knock, join_authorised_via_users_server.
  destruct (state_key ev) as [target|]; [|done].
  pose proof (user_id_validate_np target) as Hv.
  destruct (user_id_validate target); [|done..]. solve_no_panic.
Qed.
#[local] Hint Resolve check_room_member_np : no_panic.

Lemma check_state_dependent_np rules ev :
  event_key_ids_fit ev → no_panic (check_state_dependent_auth_rules rules ev fetch).
Proof. intros Hfit. unfold check_state_dependent_auth_rules. solve_no_panic. Qed.

End state.

Lemma auth_types_np ev rules : no_panic (event_auth_types ev rules).
Proof.
  unfold event_auth_types, auth_types_for_event, content_membership, third_party_invite,
    join_authorised_via_users_server. solve_no_panic.
Qed.

Lemma check_auth_events_np fetch_event rid expected ids seen :
  no_panic (check_auth_events (RawJson := RawJson) fetch_event rid expected ids seen).
Proof. revert seen. induction ids as [|id ids IH]; intros seen; simpl; solve_no_panic. Qed.
#[local] Hint Resolve auth_types_np check_auth_events_np : no_panic.

Lemma check_state_independent_np rules ev fetch_event :
  no_panic (check_state_independent_auth_rules rules ev fetch_event).
Proof.
  unfold check_state_independent_auth_rules, check_room_create. solve_no_panic.
Qed.

(** The checks return a verdict: the state-independent one for every event and
    store, the state-dependent one for every state and every event whose third-party
    invite, if it has one, is signed with key IDs that have their colon within the
    first 256 bytes. *)
Theorem auth_checks_return_verdicts rules ev fetch_event fetch_state :
  no_panic (check_state_independent_auth_rules rules ev fetch_event) ∧
  (event_key_ids_fit ev → no_panic (check_state_dependent_auth_rules rules ev fetch_state)).
Proof. auto using check_state_independent_np, check_state_dependent_np. Qed.

End no_panic.

(** ** An invite that makes the check panic *)

#[local] Existing Instance sample_external.

(** A key ID with its colon at byte 257; byte 2 is inside its second character. *)
Definition bad_key_id : string :=
  key_id_of (String "a" (String "195" (String "169" (letters 254)))) "k".

Definition ev_third_party : SampleEvent :=
  mk_event "$tpi" alice RoomThirdPartyInvite (Some "token") 13
    [("public_key", Str "key")] ["$carol"] ["$create"; "$levels"; "$alice"].

Definition dave : string := "@dave:d.org".

Definition ev_bad_invite : SampleEvent :=
  mk_event "$invite" alice RoomMember (Some dave) 14
    [("membership", Str "invite");
     ("third_party_invite",
      Obj [("signed", Obj [("mxid", Str dave); ("token", Str "token");
                           ("signatures", Obj [("id.org", Obj [(bad_key_id, Str "sig")])])])])]
    ["$tpi"] ["$create"; "$levels"; "$alice"; "$rules"; "$tpi"].


Lemma auth_checks_return_verdicts_witness :
  no_panic (check_state_independent_auth_rules AuthV10 ev_ban sample_fetch) ∧
  (event_key_ids_fit ev_ban → no_panic (check_state_dependent_auth_rules AuthV10 ev_ban sample_state)).
Proof. apply (auth_checks_return_verdicts AuthV10 ev_ban sample_fetch sample_state). Defined.
