(* ===== verification/AsyncAuth.v ===== *)
(** * Authorization against an asynchronous store ([server-state-res/src])

    The fetch cache of [fetch.rs]: a synchronous algorithm reads an asynchronous store
    through a closure over a cache; a key the cache has no outcome for reads as absent
    and is recorded as a miss.  To say which keys a run misses, an algorithm is written
    as a tree of its lookups; [run] answers them from a function, [run_cache] from a
    cache.  Then the adapters of [auth.rs] over these trees. *)

From S2P Require Import Prelude Identifiers RoomVersionRules CanonicalJson Signatures Events EventAuth Sample AuthReads.

(** ** Algorithms as trees of lookups *)

Inductive lookups (K V R : Type) : Type :=
| Done (r : R)
| Ask (k : K) (next : option V → lookups K V R).

Arguments Done {K V R} r.
Arguments Ask {K V R} k next.

Notation "'ask!' x ':=' k 'in' p" := (Ask k (λ x, p))
  (at level 200, x name, k at level 200, p at level 200,
   format "'[v' 'ask!'  x  ':='  k  'in' '/' p ']'") : rust_scope.

(** The question-mark operator on a computation without lookups. *)
Notation "'try!' x ':=' e 'in' p" :=
  (match e with
   | Ret x => p
   | Throw err => Done (Throw err)
   | Panic => Done Panic
   | OutOfFuel => Done OutOfFuel
   end)
  (at level 200, x pattern, e at level 200, p at level 200,
   format "'[v' 'try!'  x  ':='  e  'in' '/' p ']'") : rust_scope.

Fixpoint run {K V R} (answer : K → option V) (p : lookups K V R) : R :=
  match p with
  | Done r => r
  | Ask k next => run answer (next (answer k))
  end.

(** One algorithm after another. *)
Fixpoint and_then {K V R R'} (p : lookups K V R) (f : R → lookups K V R') : lookups K V R' :=
  match p with
  | Done r => f r
  | Ask k next => Ask k (λ o, and_then (next o) f)
  end.

(** The algorithm asks for keys of [S] only, whatever the answers. *)
Inductive asks_only {K V R} (S : K → Prop) : lookups K V R → Prop :=
| asks_done r : asks_only S (Done r)
| asks_ask k next : S k → (∀ o, asks_only S (next o)) → asks_only S (Ask k next).

Create HintDb asks.
#[export] Hint Constructors asks_only : asks.

Lemma run_and_then {K V R R'} (answer : K → option V) (p : lookups K V R)
    (f : R → lookups K V R') :
  run answer (and_then p f) = run answer (f (run answer p)).
Proof. induction p as [r|k next IH]; simpl; auto. Qed.

Lemma asks_and_then {K V R R'} (S : K → Prop) (p : lookups K V R) (f : R → lookups K V R') :
  asks_only S p → (∀ r, asks_only S (f r)) → asks_only S (and_then p f).
Proof. induction 1; simpl; auto with asks. Qed.

Lemma asks_mono {K V R} (S S' : K → Prop) (p : lookups K V R) :
  (∀ k, S k → S' k) → asks_only S p → asks_only S' p.
Proof. induction 2; auto with asks. Qed.

#[export] Hint Resolve asks_and_then : asks.

(** ** [FetchCache] *)

Definition MAX_FETCH_ROUNDS : nat := 16.

Section fetch_cache.
Context {K : Type} `{Countable K} {V : Type}.

Record FetchCache := {
  entries : gmap K (option V);
  misses : gset K
}.

(** [FetchCache::new] *)
Definition cache_new : FetchCache := {| entries := ∅; misses := ∅ |}.

(** [FetchCache::get]: the answer, and the cache with the miss recorded. *)
Definition cache_get (c : FetchCache) (key : K) : option V * FetchCache :=
  match entries c !! key with
  | Some entry => (entry, c)
  | None => (None, {| entries := entries c; misses := {[key]} ∪ misses c |})
  end.

(** [FetchCache::insert] *)
Definition cache_insert (c : FetchCache) (key : K) (value : option V) : FetchCache :=
  {| entries := <[key := value]> (entries c); misses := misses c |}.

(** [FetchCache::contains] *)
Definition cache_contains (c : FetchCache) (key : K) : bool :=
  bool_decide (is_Some (entries c !! key)).

(** [FetchCache::take_misses] *)
Definition take_misses (c : FetchCache) : gset K * FetchCache :=
  (misses c, {| entries := entries c; misses := ∅ |}).

(** An algorithm over the closure [|key| cache.get(key)]. *)
Fixpoint run_cache {R} (c : FetchCache) (p : lookups K V R) : R * FetchCache :=
  match p with
  | Done r => (r, c)
  | Ask k next => let '(o, c) := cache_get c k in run_cache c (next o)
  end.

(** [for key in pending.drain(..)]: what the cache has no outcome for is fetched. *)
Fixpoint fetch_pending (fetch : K → option V) (c : FetchCache) (pending : list K) : FetchCache :=
  match pending with
  | [] => c
  | key :: pending =>
      if cache_contains c key then fetch_pending fetch c pending
      else fetch_pending fetch (cache_insert c key (fetch key)) pending
  end.

(** What the closure answers without recording. *)
Definition cache_answer (c : FetchCache) (key : K) : option V := mjoin (entries c !! key).

(** ** The cache holds what the store answers *)

Definition cache_ok (fetch : K → option V) (c : FetchCache) : Prop :=
  ∀ k o, entries c !! k = Some o → o = fetch k.

Lemma cache_new_ok fetch : cache_ok fetch cache_new.
Proof. intros k o. simpl. by rewrite lookup_empty. Qed.

Lemma cache_insert_ok fetch c k : cache_ok fetch c → cache_ok fetch (cache_insert c k (fetch k)).
Proof. intros Hc k' o. simpl. intros [[<- <-]|[? ?]]%lookup_insert_Some; [done|by apply Hc]. Qed.

Lemma fetch_pending_ok fetch c pending :
  cache_ok fetch c → cache_ok fetch (fetch_pending fetch c pending).
Proof.
  revert c. induction pending as [|k pending IH]; intros c Hc; simpl; [done|].
  case_match; auto using cache_insert_ok.
Qed.

Lemma fetch_pending_misses fetch c pending :
  misses (fetch_pending fetch c pending) = misses c.
Proof.
  revert c. induction pending as [|k pending IH]; intros c; simpl; [done|].
  case_match; by rewrite IH.
Qed.

(** A drained key has an outcome in the cache, and old outcomes stay. *)
Lemma fetch_pending_dom fetch c pending k :
  k ∈ dom (entries (fetch_pending fetch c pending)) ↔ k ∈ dom (entries c) ∨ k ∈ pending.
Proof.
  revert c. induction pending as [|k' pending IH]; intros c; simpl.
  - rewrite elem_of_nil. tauto.
  - unfold cache_contains. case_bool_decide as Hk; rewrite IH, elem_of_cons.
    + apply elem_of_dom in Hk. split; [tauto|]. intros [?|[->|?]]; auto.
    + simpl. rewrite dom_insert, elem_of_union, elem_of_singleton. tauto.
Qed.

Lemma cache_ok_answer fetch c k :
  cache_ok fetch c → k ∈ dom (entries c) → cache_answer c k = fetch k.
Proof.
  unfold cache_answer. intros Hc [o Ho]%elem_of_dom. rewrite Ho. by apply Hc in Ho as <-.
Qed.

(** A run whose lookups are cached gives the result over the store, and records
    no miss. *)
Lemma run_cache_complete {R} fetch c (p : lookups K V R) :
  cache_ok fetch c → asks_only (λ k, k ∈ dom (entries c)) p → run_cache c p = (run fetch p, c).
Proof.
  intros Hc. induction 1 as [r|k next Hk Hnext IH]; simpl; [done|].
  unfold cache_get. apply elem_of_dom in Hk as [o Ho]. rewrite Ho.
  rewrite (Hc _ _ Ho) in *. apply IH.
Qed.

End fetch_cache.

Arguments FetchCache K {_ _} V.

(** ** Authorization against an asynchronous store ([server-state-res/src/auth.rs])

    The lookups of the authorization rules, written as trees whose runs are the
    rules of [EventAuth], and the adapters that fetch what the rules ask for. *)

#[local] Open Scope string_scope.

Section lookups.
Context {RawJson} `{!External RawJson}.
Notation Event := (Pdu RawJson).
Notation EventLookups := (lookups string Event (outcome string unit)).
Notation StateLookups := (lookups (string * string) Event (outcome string unit)).

(** ** The lookups of the state-independent rules *)

Fixpoint check_auth_events_l (rid : string) (expected : list (string * string))
    (ids : list string) (seen : gset (string * string))
    : lookups string Event (outcome string (gset (string * string))) :=
  match ids with
  | [] => Done (Ret seen)
  | id :: ids =>
      ask! o := id in
      match o with
      | None => Done (Throw ("failed to find auth event " +:+ id))
      | Some auth_event =>
          if negb (bool_decide (room_id auth_event = Some rid))
          then Done (Throw ("auth event " +:+ id +:+ " not in the same room"))
          else
            match state_key auth_event with
            | None => Done (Throw ("auth event " +:+ id +:+ " has no `state_key`"))
            | Some sk =>
                let ty := event_type auth_event in
                let pair := "(" +:+ ty +:+ ", " +:+ sk +:+ ") pair" in
                if bool_decide ((ty, sk) ∈ seen)
                then Done (Throw ("duplicate auth event " +:+ id +:+ " for " +:+ pair))
                else if negb (bool_decide ((ty, sk) ∈ expected))
                then Done (Throw ("unexpected auth event " +:+ id +:+ " with " +:+ pair))
                else if rejected auth_event
                then Done (Throw ("rejected auth event " +:+ id))
                else check_auth_events_l rid expected ids ({[ (ty, sk) ]} ∪ seen)
            end
      end
  end.

Definition independent_lookups (rules : AuthorizationRules) (ev : Event) : EventLookups :=
  if String.eqb (event_type ev) RoomCreate then Done (check_room_create ev rules)
  else
    try! expected := event_auth_types ev rules in
    match room_id ev with
    | None => Done (Throw "missing `room_id` field for event")
    | Some rid =>
        and_then (check_auth_events_l rid expected (auth_events ev) ∅) (λ result,
        try! seen := result in
        try! _ :=
          if negb (room_create_event_id_as_room_id rules)
             && negb (existsb (λ k, String.eqb k.1 RoomCreate) (elements seen))
          then Throw "no `m.room.create` event in auth events"
          else Ret tt in
        if room_create_event_id_as_room_id rules then
          match room_create_event_id rid with
          | Err e => Done (Throw ("could not construct `m.room.create` event ID from room ID: "
                                  +:+ display_id_error e))
          | Ok create_id =>
              ask! o := create_id in
              match o with
              | None => Done (Throw ("failed to find `m.room.create` event " +:+ create_id))
              | Some create_event =>
                  if rejected create_event
                  then Done (Throw ("rejected `m.room.create` event " +:+ create_id))
                  else Done (Ret tt)
              end
          end
        else Done (Ret tt))
    end.

(** ** The lookups of the state-dependent rules *)

Definition check_room_member_join_l (ev : Event) (target_user : string)
    (rules : AuthorizationRules) (create_event : Event) : StateLookups :=
  try! the_creator := creator create_event rules in
  try! cs := creators create_event rules in
  if prev_event_is_only (event_id create_event) (prev_events ev)
     && String.eqb target_user the_creator
  then Done (Ret tt)
  else if negb (String.eqb (sender ev) target_user)
  then Done (Throw "sender of join event must match target user")
  else
    ask! target := (RoomMember, target_user) in
    try! current_membership := opt_membership target in
    if bool_decide (current_membership = Ban) then Done (Throw "banned user cannot join room")
    else
      ask! rule := (RoomJoinRules, EmptyString) in
      try! jr := match rule with
                 | Some ev => join_rule ev
                 | None => Throw "no `m.room.join_rules` event in current state"
                 end in
      let invited_or_joined :=
        match current_membership with Invite | Join => true | _ => false end in
      if (bool_decide (jr = JoinInvite) || knocking rules && bool_decide (jr = JoinKnock))
         && invited_or_joined
      then Done (Ret tt)
      else if (restricted_join_rule rules && bool_decide (jr = JoinRestricted))
              || (knock_restricted_join_rule rules && bool_decide (jr = JoinKnockRestricted))
      then
        if invited_or_joined then Done (Ret tt)
        else
          try! via := join_authorised_via_users_server (content ev) in
          match via with
          | None => Done (Throw "cannot join restricted room without `join_authorised_via_users_server` field if not invited")
          | Some via =>
              ask! via_event := (RoomMember, via) in
              try! via_membership := opt_membership via_event in
              if negb (bool_decide (via_membership = Join))
              then Done (Throw "`join_authorised_via_users_server` is not joined")
              else
                ask! pl := (RoomPowerLevels, EmptyString) in
                try! via_level := opt_user_power_level pl via cs rules in
                try! invite_level := opt_get_as_int_or_default pl InviteLevel rules in
                if upl_ge_int via_level invite_level then Done (Ret tt)
                else Done (Throw "`join_authorised_via_users_server` does not have enough power")
          end
      else if bool_decide (jr = JoinPublic) then Done (Ret tt)
      else Done (Throw "cannot join a room that is not `public`").

Definition check_third_party_invite_l (ev : Event) (tpi : CanonicalJsonObject)
    (target_user : string) : StateLookups :=
  ask! target := (RoomMember, target_user) in
  try! target_membership := opt_membership target in
  if bool_decide (target_membership = Ban)
  then Done (Throw "cannot invite user that is banned")
  else
    try! token := tpi_token tpi in
    try! mxid := tpi_mxid tpi in
    if negb (String.eqb target_user mxid)
    then Done (Throw "third-party invite mxid does not match target user")
    else
      ask! o := (RoomThirdPartyInvite, token) in
      match o with
      | None => Done (Throw "no `m.room.third_party_invite` in room state matches the token")
      | Some tpi_event =>
          if negb (String.eqb (sender ev) (sender tpi_event))
          then Done (Throw "sender of `m.room.third_party_invite` does not match sender of `m.room.member`")
          else
            try! keys := public_keys tpi_event in
            try! sigs := tpi_signatures tpi in
            try! json := tpi_signed_canonical_json tpi in
            try! found := check_signatures json (btree_elements keys) sigs in
            if found then Done (Ret tt)
            else Done (Throw "no signature on third-party invite matches a public key in `m.room.third_party_invite` event")
      end.

Definition check_room_member_invite_l (ev : Event) (target_user : string)
    (rules : AuthorizationRules) (create_event : Event) : StateLookups :=
  try! tpi := third_party_invite (content ev) in
  match tpi with
  | Some tpi => check_third_party_invite_l ev tpi target_user
  | None =>
      ask! s := (RoomMember, sender ev) in
      try! sender_membership := opt_membership s in
      if negb (bool_decide (sender_membership = Join))
      then Done (Throw "cannot invite user if sender is not joined")
      else
        ask! target := (RoomMember, target_user) in
        try! target_membership := opt_membership target in
        match target_membership with
        | Join | Ban => Done (Throw "cannot invite user that is joined or banned")
        | _ =>
            try! cs := creators create_event rules in
            ask! pl := (RoomPowerLevels, EmptyString) in
            try! sender_level := opt_user_power_level pl (sender ev) cs rules in
            try! invite_level := opt_get_as_int_or_default pl InviteLevel rules in
            if upl_ge_int sender_level invite_level then Done (Ret tt)
            else Done (Throw "sender does not have enough power to invite")
        end
  end.

Definition check_room_member_leave_l (ev : Event) (target_user : string)
    (rules : AuthorizationRules) (create_event : Event) : StateLookups :=
  ask! s := (RoomMember, sender ev) in
  try! sender_membership := opt_membership s in
  if String.eqb (sender ev) target_user then
    let membership_is_invite_or_join :=
      match sender_membership with Join | Invite => true | _ => false end in
    let membership_is_knock := knocking rules && bool_decide (sender_membership = Knock) in
    if membership_is_invite_or_join || membership_is_knock then Done (Ret tt)
    else Done (Throw "cannot leave if not joined, invited or knocked")
  else if negb (bool_decide (sender_membership = Join))
  then Done (Throw "cannot kick if sender is not joined")
  else
    try! cs := creators create_event rules in
    ask! pl := (RoomPowerLevels, EmptyString) in
    ask! target := (RoomMember, target_user) in
    try! target_membership := opt_membership target in
    try! sender_level := opt_user_power_level pl (sender ev) cs rules in
    try! ban_level := opt_get_as_int_or_default pl BanLevel rules in
    if bool_decide (target_membership = Ban) && upl_lt_int sender_level ban_level
    then Done (Throw "sender does not have enough power to unban")
    else
      try! kick_level := opt_get_as_int_or_default pl KickLevel rules in
      try! target_level := opt_user_power_level pl target_user cs rules in
      if upl_ge_int sender_level kick_level && upl_lt target_level sender_level
      then Done (Ret tt)
      else Done (Throw "sender does not have enough power to kick target user").

Definition check_room_member_ban_l (ev : Event) (target_user : string)
    (rules : AuthorizationRules) (create_event : Event) : StateLookups :=
  ask! s := (RoomMember, sender ev) in
  try! sender_membership := opt_membership s in
  if negb (bool_decide (sender_membership = Join))
  then Done (Throw "cannot ban if sender is not joined")
  else
    try! cs := creators create_event rules in
    ask! pl := (RoomPowerLevels, EmptyString) in
    try! sender_level := opt_user_power_level pl (sender ev) cs rules in
    try! ban_level := opt_get_as_int_or_default pl BanLevel rules in
    try! target_level := opt_user_power_level pl target_user cs rules in
    if upl_ge_int sender_level ban_level && upl_lt target_level sender_level
    then Done (Ret tt)
    else Done (Throw "sender does not have enough power to ban target user").

Definition check_room_member_knock_l (ev : Event) (target_user : string)
    (rules : AuthorizationRules) : StateLookups :=
  ask! rule := (RoomJoinRules, EmptyString) in
  try! jr := match rule with
             | Some ev => join_rule ev
             | None => Throw "no `m.room.join_rules` event in current state"
             end in
  let supports_knock :=
    bool_decide (jr = JoinKnock)
    || (knock_restricted_join_rule rules && bool_decide (jr = JoinKnockRestricted)) in
  if negb supports_knock
  then Done (Throw "join rule is not set to knock or knock_restricted, knocking is not allowed")
  else if negb (String.eqb (sender ev) target_user)
  then Done (Throw "cannot make another user knock, sender does not match target user")
  else
    ask! s := (RoomMember, sender ev) in
    try! sender_membership := opt_membership s in
    match sender_membership with
    | Ban | Invite | Join => Done (Throw "cannot knock if user is banned, invited or joined")
    | _ => Done (Ret tt)
    end.

Definition check_room_member_l (ev : Event) (rules : AuthorizationRules)
    (create_event : Event) : StateLookups :=
  match state_key ev with
  | None => Done (Throw "missing `state_key` field in `m.room.member` event")
  | Some target_user =>
      match user_id_validate target_user with
      | Panic => Done Panic
      | OutOfFuel => Done OutOfFuel
      | Throw e => Done (Throw ("invalid `state_key` field in `m.room.member` event: "
                                +:+ display_id_error e))
      | Ret _ =>
          try! target_membership := membership ev in
          match target_membership with
          | Join => check_room_member_join_l ev target_user rules create_event
          | Invite => check_room_member_invite_l ev target_user rules create_event
          | Leave => check_room_member_leave_l ev target_user rules create_event
          | Ban => check_room_member_ban_l ev target_user rules create_event
          | Knock =>
              if knocking rules then check_room_member_knock_l ev target_user rules
              else Done (Throw "unknown membership")
          | CustomMembership _ => Done (Throw "unknown membership")
          end
      end
  end.

(** The rules for the events other than create, aliases and member events. *)
Definition check_other_event_l (ev : Event) (rules : AuthorizationRules)
    (create_event : Event) : StateLookups :=
  ask! s := (RoomMember, sender ev) in
  try! sender_membership := opt_membership s in
  if negb (bool_decide (sender_membership = Join))
  then Done (Throw "sender's membership is not `join`")
  else
    try! cs := creators create_event rules in
    ask! current := (RoomPowerLevels, EmptyString) in
    try! sender_level := opt_user_power_level current (sender ev) cs rules in
    if String.eqb (event_type ev) RoomThirdPartyInvite then
      try! invite_level := opt_get_as_int_or_default current InviteLevel rules in
      if upl_lt_int sender_level invite_level
      then Done (Throw "sender does not have enough power to send invites in this room")
      else Done (Ret tt)
    else
      try! required := opt_event_power_level current (event_type ev) (state_key ev) rules in
      if upl_lt_int sender_level required
      then Done (Throw ("sender does not have enough power to send event of type `"
                        +:+ event_type ev +:+ "`"))
      else if match state_key ev with Some k => str_starts_with "@" k | None => false end
              && negb (bool_decide (state_key ev = Some (sender ev)))
      then Done (Throw "sender cannot send event with `state_key` matching another user's ID")
      else if String.eqb (event_type ev) RoomPowerLevels then
        Done (check_room_power_levels ev current rules sender_level cs)
      else if special_case_room_redaction rules && String.eqb (event_type ev) RoomRedaction then
        Done (check_room_redaction ev current rules sender_level)
      else Done (Ret tt).

Definition dependent_lookups (rules : AuthorizationRules) (ev : Event) : StateLookups :=
  if String.eqb (event_type ev) RoomCreate then Done (Ret tt)
  else
    ask! c := (RoomCreate, EmptyString) in
    try! create_event := match c with
                         | Some ev => Ret ev
                         | None => Throw "no `m.room.create` event in current state"
                         end in
    try! federated := federate create_event in
    if negb federated
       && negb (String.eqb (user_id_server_name (sender create_event))
                  (user_id_server_name (sender ev)))
    then Done (Throw "room is not federated and event's sender domain does not match `m.room.create` event's sender domain")
    else if special_case_room_aliases rules && String.eqb (event_type ev) RoomAliases then
      if negb (bool_decide (state_key ev = Some (user_id_server_name (sender ev))))
      then Done (Throw "server name of the `state_key` of `m.room.aliases` event does not match the server name of the sender")
      else Done (Ret tt)
    else if String.eqb (event_type ev) RoomMember then check_room_member_l ev rules create_event
    else check_other_event_l ev rules create_event.

End lookups.

(** ** The trees run as the rules *)

(** Runs through the branches of a tree and of the rule it models. *)
Ltac run_branches :=
  repeat (simpl; try done;
          match goal with |- context [match ?x with _ => _ end] =>
            lazymatch x with context [match _ with _ => _ end] => fail | _ => destruct x eqn:? end
          end).

Section adequacy.
Context {RawJson} `{!External RawJson} (fetch : string → string → option (Pdu RawJson)).
Notation answer := (λ k : string * string, fetch k.1 k.2).

Lemma run_room_member_join ev target rules create_ev :
  run answer (check_room_member_join_l ev target rules create_ev)
  = check_room_member_join fetch ev target rules create_ev.
Proof.
  unfold check_room_member_join_l, check_room_member_join, user_membership, state_join_rule,
    room_power_levels_event. run_branches.
Qed.

Lemma run_room_member_invite ev target rules create_ev :
  run answer (check_room_member_invite_l ev target rules create_ev)
  = check_room_member_invite fetch ev target rules create_ev.
Proof.
  unfold check_room_member_invite_l, check_room_member_invite, check_third_party_invite_l,
    check_third_party_invite, user_membership, room_third_party_invite_event,
    room_power_levels_event. run_branches.
Qed.

Lemma run_room_member_leave ev target rules create_ev :
  run answer (check_room_member_leave_l ev target rules create_ev)
  = check_room_member_leave fetch ev target rules create_ev.
Proof.
  unfold check_room_member_leave_l, check_room_member_leave, user_membership,
    room_power_levels_event. run_branches.
Qed.

Lemma run_room_member_ban ev target rules create_ev :
  run answer (check_room_member_ban_l ev target rules create_ev)
  = check_room_member_ban fetch ev target rules create_ev.
Proof.
  unfold check_room_member_ban_l, check_room_member_ban, user_membership,
    room_power_levels_event. run_branches.
Qed.

Lemma run_room_member_knock ev target rules :
  run answer (check_room_member_knock_l ev target rules)
  = check_room_member_knock fetch ev target rules.
Proof.
  unfold check_room_member_knock_l, check_room_member_knock, user_membership, state_join_rule.
  run_branches.
Qed.

Lemma run_room_member ev rules create_ev :
  run answer (check_room_member_l ev rules create_ev)
  = check_room_member fetch ev rules create_ev.
Proof.
  unfold check_room_member_l, check_room_member.
  destruct (state_key ev) as [target|]; [|done].
  destruct (user_id_validate target); [|done..].
  destruct (membership ev) as [[]| | |]; try done.
  - apply run_room_member_ban.
  - apply run_room_member_invite.
  - apply run_room_member_join.
  - destruct (knocking rules); [apply run_room_member_knock|done].
  - apply run_room_member_leave.
Qed.

(** The tree of the state-dependent rules is the state-dependent check. *)
Lemma run_dependent rules ev :
  run answer (dependent_lookups rules ev) = check_state_dependent_auth_rules rules ev fetch.
Proof.
  unfold dependent_lookups, check_state_dependent_auth_rules, room_create_event.
  destruct (String.eqb (event_type ev) RoomCreate); [done|]. simpl.
  destruct (fetch RoomCreate EmptyString) as [create_ev|]; [|done].
  destruct (federate create_ev); [|done..].
  case_match; [done|]. case_match; [by case_match|].
  destruct (String.eqb (event_type ev) RoomMember); [apply run_room_member|].
  unfold check_other_event_l, user_membership, room_power_levels_event. run_branches.
Qed.

(** The tree of the state-independent rules is the state-independent check. *)
Lemma run_auth_events fetch_event rid expected ids seen :
  run fetch_event (check_auth_events_l (RawJson:=RawJson) rid expected ids seen)
  = check_auth_events fetch_event rid expected ids seen.
Proof.
  revert seen. induction ids as [|id ids IH]; intros seen; [done|]. simpl.
  destruct (fetch_event id) as [auth_ev|]; [|done].
  repeat (case_match; [done|]). case_match; [|done]. by repeat (case_match; [done|]).
Qed.

Lemma run_independent fetch_event rules ev :
  run fetch_event (independent_lookups rules ev)
  = check_state_independent_auth_rules rules ev fetch_event.
Proof.
  unfold independent_lookups, check_state_independent_auth_rules.
  destruct (String.eqb (event_type ev) RoomCreate); [done|].
  destruct (event_auth_types ev rules) as [expected| | |]; [|done..].
  destruct (room_id ev) as [rid|]; [|done].
  rewrite run_and_then, run_auth_events.
  destruct (check_auth_events _ _ _ _ _) as [seen| | |]; [|done..].
  run_branches.
Qed.

End adequacy.

(** ** What the rules look up *)

Section asks.
Context {RawJson} `{!External RawJson}.

(** Walks a tree; what is left are the keys asked for. *)
Ltac walk_tree :=
  repeat (cbn beta iota;
          match goal with
          | |- asks_only _ (Done _) => constructor
          | |- asks_only _ (Ask _ _) => constructor; [|intros ?]
          | |- asks_only _ (match ?x with _ => _ end) => destruct x eqn:?
          end).

Lemma asks_auth_events (S : string → Prop) rid expected ids seen :
  (∀ id, id ∈ ids → S id) →
  asks_only S (check_auth_events_l (RawJson:=RawJson) rid expected ids seen).
Proof.
  revert seen. induction ids as [|id ids IH]; intros seen HS; simpl; walk_tree.
  - apply HS. by left.
  - apply IH. intros id' ?. apply HS. by right.
Qed.

(** The state-independent rules look up the auth events and, where the room ID
    names it, the create event. *)
Lemma asks_independent rules (ev : Pdu RawJson) :
  asks_only (λ id, id ∈ auth_events ev ∨
               room_create_event_id_as_room_id rules = true ∧
               ∃ rid, room_id ev = Some rid ∧ room_create_event_id rid = Ok id)
    (independent_lookups rules ev).
Proof.
  unfold independent_lookups. walk_tree. apply asks_and_then.
  - apply asks_auth_events. auto.
  - intros r. walk_tree. right. eauto.
Qed.

Lemma asks_room_member rules (ev : Pdu RawJson) create_ev keys :
  wf_rules rules →
  event_type ev = RoomMember →
  event_auth_types ev rules = Ret keys →
  asks_only (reads_at keys) (check_room_member_l ev rules create_ev).
Proof.
  intros Hwf Hty Hkeys. unfold check_room_member_l.
  destruct (state_key ev) as [target|] eqn:Hsk; [|constructor].
  destruct (user_id_validate target); [|constructor..].
  destruct (membership ev) as [ms| | |] eqn:Hms; [|constructor..].
  pose proof (event_auth_types_base ev rules keys Hkeys) as Hbase.
  rewrite Hty in Hbase. destruct (Hbase eq_refl) as [Hpl Hs].
  destruct (event_auth_types_member ev rules keys target ms) as (Ht & Hjr & Htpi & Hvia); auto.
  destruct ms; [..|constructor];
    unfold check_room_member_join_l, check_room_member_invite_l, check_third_party_invite_l,
      check_room_member_leave_l, check_room_member_ban_l, check_room_member_knock_l;
    walk_tree; left; auto 6.
  - eauto.
  - apply Hvia; [done| |done].
    repeat match goal with H : _ || _ = true |- _ => apply orb_true_iff in H as [H|H] end;
      to_prop; auto.
Qed.

(** The state-dependent rules look up the selected auth types and the create
    event. *)
Lemma asks_dependent rules (ev : Pdu RawJson) keys :
  wf_rules rules →
  event_auth_types ev rules = Ret keys →
  asks_only (reads_at keys) (dependent_lookups rules ev).
Proof.
  intros Hwf Hkeys. unfold dependent_lookups.
  destruct (String.eqb (event_type ev) RoomCreate) eqn:Hcr; [constructor|].
  destruct (event_auth_types_base _ _ _ Hkeys Hcr) as [Hpl Hs].
  constructor; [by right|]. intros c. unfold check_other_event_l. walk_tree.
  - apply asks_room_member; [done| |done]. by apply String.eqb_eq.
  - by left.
  - by left.
Qed.

End asks.

(** ** The adapters *)

(** [Error] of [error.rs]; [R] is the error of state resolution. *)
Inductive AsyncError (R : Type) : Type :=
| Resolution (e : R)
| UnsupportedStateResolutionVersion
| FetchRoundsExhausted.

Arguments Resolution {R} e.
Arguments UnsupportedStateResolutionVersion {R}.
Arguments FetchRoundsExhausted {R}.

Inductive AuthCheckOutcome :=
| Allow
| Deny (reason : string).

(** [AuthCheckOutcome::is_allowed] *)
Definition is_allowed (o : AuthCheckOutcome) : bool :=
  match o with Allow => true | Deny _ => false end.

(** [AuthCheckOutcome::into_result] *)
Definition into_result (o : AuthCheckOutcome) : result string unit :=
  match o with Allow => Ok tt | Deny reason => Err reason end.

Section adapters.
Context `{!HashIter} {RawJson} `{!External RawJson} {R : Type}.
Notation Event := (Pdu RawJson).
Notation Checked := (outcome (AsyncError R) AuthCheckOutcome).

(** The loop both checks share: [n] rounds of fetching what is pending and
    running the rules over the cache. *)
Fixpoint check_rounds {K} `{Countable K} (fetch : K → option Event)
    (check : lookups K Event (outcome string unit)) (n : nat) (cache : FetchCache K Event)
    (pending : list K) : Checked :=
  match n with
  | 0 => Throw FetchRoundsExhausted
  | S n =>
      let cache := fetch_pending fetch cache pending in
      let '(result, cache) := run_cache cache check in
      match result with
      | Ret _ => Ret Allow
      | Throw reason =>
          let '(missed, cache) := take_misses cache in
          if bool_decide (missed = ∅) then Ret (Deny reason)
          else check_rounds fetch check n cache (iter_set ["misses"] missed)
      | Panic => Panic
      | OutOfFuel => OutOfFuel
      end
  end.

(** The [room_create_event_id] of [auth.rs]. *)
Definition async_room_create_event_id (room_id : string) : result IdError string :=
  let id := String "$" (default EmptyString (room_id_strip_sigil room_id)) in
  let? _ := event_id_validate id in Ok id.

(** The event IDs [check_state_independent_auth_rules] fetches up front. *)
Definition independent_seeds (rules : RoomVersionRules) (ev : Event) : list string :=
  auth_events ev ++
  (if room_create_event_id_as_room_id (authorization rules) then
     match room_id ev with
     | Some rid =>
         match async_room_create_event_id rid with Ok id => [id] | Err _ => [] end
     | None => []
     end
   else []).

(** [check_state_independent_auth_rules] of [auth.rs] *)
Definition async_check_independent (rules : RoomVersionRules) (ev : Event)
    (fetch_event : string → option Event) : Checked :=
  check_rounds fetch_event (independent_lookups (authorization rules) ev)
    MAX_FETCH_ROUNDS cache_new (independent_seeds rules ev).

(** [check_state_dependent_auth_rules] of [auth.rs] *)
Definition async_check_dependent (rules : RoomVersionRules) (ev : Event)
    (fetch_state : string → string → option Event) : Checked :=
  match event_auth_types ev (authorization rules) with
  | Throw reason => Ret (Deny reason)
  | Panic => Panic
  | OutOfFuel => OutOfFuel
  | Ret auth_types =>
      check_rounds (λ k, fetch_state k.1 k.2) (dependent_lookups (authorization rules) ev)
        MAX_FETCH_ROUNDS cache_new (auth_types ++ [(RoomCreate, EmptyString)])
  end.

(** [auth_check] *)
Definition auth_check (rules : RoomVersionRules) (ev : Event)
    (fetch_event : string → option Event) (fetch_state : string → string → option Event)
    : Checked :=
  let! first := async_check_independent rules ev fetch_event in
  match first with
  | Allow => async_check_dependent rules ev fetch_state
  | deny => Ret deny
  end.

(** ** The adapters give the verdict of the rules over the whole store *)

(** A verdict of the synchronous rules as an outcome. *)
Definition verdict (r : outcome string unit) : Checked :=
  match r with
  | Ret _ => Ret Allow
  | Throw reason => Ret (Deny reason)
  | Panic => Panic
  | OutOfFuel => OutOfFuel
  end.

(** What the seeds cover is settled in the first round. *)
Lemma check_rounds_seeded {K} `{Countable K} (fetch : K → option Event) check n pending :
  asks_only (λ k, k ∈ pending) check →
  check_rounds fetch check (S n) cache_new pending = verdict (run fetch check).
Proof.
  intros Hasks. simpl. rewrite (run_cache_complete fetch).
  - destruct (run fetch check); try done. simpl.
    by rewrite fetch_pending_misses, bool_decide_eq_true_2.
  - apply fetch_pending_ok, cache_new_ok.
  - eapply asks_mono; [|exact Hasks]. intros k Hk. apply fetch_pending_dom. by right.
Qed.

Lemma async_check_independent_verdict rules ev fetch_event :
  async_check_independent rules ev fetch_event
  = verdict (check_state_independent_auth_rules (authorization rules) ev fetch_event).
Proof.
  unfold async_check_independent, MAX_FETCH_ROUNDS.
  rewrite check_rounds_seeded, run_independent; [done|].
  eapply asks_mono; [|apply asks_independent]. unfold independent_seeds.
  intros id [?|(Hcr & rid & Hrid & Hid)]; apply elem_of_app; [by left|right].
  rewrite Hcr, Hrid. change (async_room_create_event_id rid) with (room_create_event_id rid).
  rewrite Hid. by left.
Qed.

Lemma async_check_dependent_verdict rules ev fetch_state :
  wf_rules (authorization rules) →
  async_check_dependent rules ev fetch_state
  = match event_auth_types ev (authorization rules) with
    | Ret _ => verdict (check_state_dependent_auth_rules (authorization rules) ev fetch_state)
    | Throw reason => Ret (Deny reason)
    | Panic => Panic
    | OutOfFuel => OutOfFuel
    end.
Proof.
  intros Hwf. unfold async_check_dependent, MAX_FETCH_ROUNDS.
  destruct (event_auth_types ev (authorization rules)) as [keys| | |] eqn:Hkeys; [|done..].
  rewrite check_rounds_seeded, run_dependent; [done|].
  eapply asks_mono; [|by apply asks_dependent].
  intros k [?| ->]; apply elem_of_app; [by left|right; by left].
Qed.

(** Where the state-independent rules accept an event, its auth types are
    selected. *)
Lemma independent_auth_types rules (ev : Event) fetch_event :
  check_state_independent_auth_rules rules ev fetch_event = Ret tt →
  ∃ keys, event_auth_types ev rules = Ret keys.
Proof.
  unfold check_state_independent_auth_rules.
  destruct (String.eqb (event_type ev) RoomCreate) eqn:Hcr.
  - intros _. exists []. unfold event_auth_types, auth_types_for_event. by rewrite Hcr.
  - destruct (event_auth_types ev rules); naive_solver.
Qed.

End adapters.


#[local] Existing Instance sample_external.
#[local] Existing Instance hash_iter_std.

