(* ===== verification/AsyncResolve.v ===== *)
(** * State resolution against an asynchronous store

    What state resolution reads: over a set of events closed under auth events and under
    the create event a room ID names, [resolve] reads nothing outside the set, so that
    two stores that agree on the set give the same result.  Then the adapter of
    [server-state-res/src/resolve.rs], which rests on this. *)

From S2P Require Import Prelude Identifiers RoomVersionRules CanonicalJson Signatures Events EventAuth Sample TopoSort TopoSpec Resolve ConflictSets PowerGraph Mainline ResolveSpec AsyncAuth.

(** ** The sort depends on the details of the events only *)

Section sort_ext.
Context `{!HashIter} (d1 d2 : string → result Error (UserPowerLevel * Z)).
Hypothesis Hd : ∀ id, d1 id = d2 id.

Lemma tie_breaker_ext id : tie_breaker d1 id = tie_breaker d2 id.
Proof. unfold tie_breaker. by rewrite Hd. Qed.

Lemma topo_init_ext st entries : topo_init d1 st entries = topo_init d2 st entries.
Proof.
  revert st. induction entries as [|[id out] entries IH]; intros st; simpl; [done|].
  unfold topo_add. rewrite tie_breaker_ext. case_bool_decide; [|apply IH].
  destruct (tie_breaker d2 id); [apply IH|done..].
Qed.

Lemma topo_parents_ext id st parents : topo_parents d1 id st parents = topo_parents d2 id st parents.
Proof.
  revert st. induction parents as [|p parents IH]; intros st; simpl; [done|].
  assert (topo_parent d1 id st p = topo_parent d2 id st p) as ->.
  { unfold topo_parent. by rewrite tie_breaker_ext. }
  destruct (topo_parent d2 id st p); [apply IH|done..].
Qed.

Lemma topo_loop_ext fuel st sorted : topo_loop d1 fuel st sorted = topo_loop d2 fuel st sorted.
Proof.
  revert st sorted. induction fuel as [|fuel IH]; intros st sorted; simpl; [done|].
  destruct (heap_pop (heap st)) as [[tb h]|]; [|done]. rewrite topo_parents_ext.
  destruct (topo_parents d2 _ _ _); [apply IH|done..].
Qed.

Lemma sort_ext graph :
  reverse_topological_power_sort d1 graph = reverse_topological_power_sort d2 graph.
Proof.
  unfold reverse_topological_power_sort. rewrite topo_init_ext.
  destruct (topo_init d2 _ _); [apply topo_loop_ext|done..].
Qed.

End sort_ext.

(** ** A closed set of events *)

Section reads.
Context {RawJson} `{!External RawJson} (rules : AuthorizationRules).
Context (f1 f2 : string → option (Pdu RawJson)) (S : string → Prop).

(** The set holds the auth events of its events, and the create events their room
    IDs name where the room version identifies it so. *)
Record closed_under : Prop := {
  closed_auth : ∀ id ev a, S id → f1 id = Some ev → a ∈ auth_events ev → S a;
  closed_create : ∀ id ev rid c, room_create_event_id_as_room_id rules = true →
    S id → f1 id = Some ev → room_id ev = Some rid → room_create_event_id rid = Ok c → S c
}.

Hypothesis Hclosed : closed_under.
Hypothesis Hagree : ∀ id, S id → f1 id = f2 id.

Notation all_in l := (∀ id, id ∈ l → S id).

Lemma all_in_cons x l : all_in (x :: l) → S x ∧ all_in l.
Proof. intros Hl. split; [apply Hl; by left|]. intros y Hy. apply Hl. by right. Qed.

Lemma opt_auth_events_ext id : S id → opt_auth_events f1 id = opt_auth_events f2 id.
Proof. unfold opt_auth_events. by intros ->%Hagree. Qed.

Lemma opt_auth_events_in id : S id → all_in (opt_auth_events f1 id).
Proof.
  unfold opt_auth_events. intros Hid a. destruct (f1 id) as [ev|] eqn:Hev.
  - by eapply closed_auth.
  - by intros ?%elem_of_nil.
Qed.

(** ** The power events *)

Section graph.
Context (F : gset string).
Hypothesis HF : all_in F.

Lemma graph_visit_all_in id acc ids acc' :
  all_in acc.2 → graph_visit_all F id acc ids = Ret acc' → all_in acc'.2.
Proof.
  revert acc. induction ids as [|a ids IH]; intros [g st] Hst; simpl; [by intros [= <-]|].
  case_bool_decide as Ha; [|by apply IH].
  destruct (g !! id) as [edges|]; [|done]. apply IH. simpl.
  case_bool_decide; [done|]. intros x [->|Hx]%elem_of_cons; auto.
Qed.

Lemma graph_loop_ext fuel graph state :
  all_in state → graph_loop f1 F fuel graph state = graph_loop f2 F fuel graph state.
Proof.
  revert graph state. induction fuel as [|fuel IH]; intros graph [|id state] Hst; simpl; try done.
  apply all_in_cons in Hst as [Hid Hst]. rewrite (opt_auth_events_ext id Hid).
  destruct (graph_visit_all _ _ _ _) as [acc| | |] eqn:Hacc; [|done..].
  apply IH. by eapply graph_visit_all_in; [|exact Hacc].
Qed.

Lemma sum_list_with_ext {A} (g h : A → nat) l :
  (∀ x, x ∈ l → g x = h x) → sum_list_with g l = sum_list_with h l.
Proof.
  induction l as [|x l IH]; intros Hl; simpl; [done|].
  rewrite (Hl x), IH; [done| |by left]. intros y Hy. apply Hl. by right.
Qed.

Lemma add_all_ext graph ids :
  all_in ids → add_all_to_graph f1 F graph ids = add_all_to_graph f2 F graph ids.
Proof.
  revert graph. induction ids as [|id ids IH]; intros graph Hids; simpl; [done|].
  apply all_in_cons in Hids as [Hid Hids]. unfold add_event_and_auth_chain_to_graph.
  assert (graph_fuel f1 F id = graph_fuel f2 F id) as ->.
  { unfold graph_fuel. f_equal. apply sum_list_with_ext. intros x Hx.
    rewrite opt_auth_events_ext; [done|]. apply elem_of_elements, elem_of_union in Hx as [Hx|Hx]; auto.
    by apply elem_of_singleton in Hx as ->. }
  rewrite graph_loop_ext by (by intros x ->%list_elem_of_singleton).
  destruct (graph_loop f2 F _ _ _); [by apply IH|done..].
Qed.

End graph.

Lemma find_create_and_levels_ext hc c l ids :
  all_in ids → find_create_and_levels f1 rules hc c l ids = find_create_and_levels f2 rules hc c l ids.
Proof.
  revert c l. induction ids as [|id ids IH]; intros c l Hids; simpl; [done|].
  apply all_in_cons in Hids as [Hid Hids]. rewrite (Hagree id Hid).
  destruct (f2 id) as [ev|]; [|by apply IH].
  destruct (if is_type_and_key ev _ _ then _ else _) as [c' l'].
  case_match; [done|by apply IH].
Qed.

Lemma fetch_create_ext id ev :
  room_create_event_id_as_room_id rules = true → S id → f1 id = Some ev →
  fetch_create_by_room_id f1 ev = fetch_create_by_room_id f2 ev.
Proof.
  intros Hcr Hid Hev. unfold fetch_create_by_room_id.
  destruct (room_id ev) as [rid|] eqn:Hrid; [|done]. simpl.
  destruct (room_create_event_id rid) as [c|] eqn:Hc; [|done]. simpl.
  apply Hagree. by eapply closed_create.
Qed.

Lemma power_level_for_sender_ext id lock :
  S id → power_level_for_sender f1 id rules lock = power_level_for_sender f2 id rules lock.
Proof.
  intros Hid. unfold power_level_for_sender.
  rewrite (find_create_and_levels_ext _ _ _ _ (opt_auth_events_in id Hid)).
  rewrite (opt_auth_events_ext id Hid), <- (Hagree id Hid).
  destruct (f1 id) as [ev|] eqn:Hev; [|done].
  destruct (room_create_event_id_as_room_id rules) eqn:Hcr; [|done].
  by rewrite (fetch_create_ext id ev Hcr Hid Hev).
Qed.

Lemma power_levels_of_ext lock m ids :
  all_in ids → power_levels_of f1 rules lock m ids = power_levels_of f2 rules lock m ids.
Proof.
  revert lock m. induction ids as [|id ids IH]; intros lock m Hids; simpl; [done|].
  apply all_in_cons in Hids as [Hid Hids]. rewrite (power_level_for_sender_ext id lock Hid).
  destruct (power_level_for_sender f2 id rules lock) as [[l lock']| | |]; [by apply IH|done..].
Qed.

(** The levels are computed for the given events only. *)
Lemma power_levels_of_dom lock m ids m' :
  power_levels_of f1 rules lock m ids = Ret m' → ∀ id, id ∈ dom m' → id ∈ dom m ∨ id ∈ ids.
Proof.
  revert lock m. induction ids as [|x ids IH]; intros lock m; simpl; [intros [= <-]; auto|].
  destruct (power_level_for_sender f1 x rules lock) as [[l lock']| | |]; [|done..].
  intros Hm id Hid. destruct (IH _ _ Hm id Hid) as [Hin|?]; [|by right; right].
  rewrite dom_insert, elem_of_union, elem_of_singleton in Hin. destruct Hin as [->|?]; [|by left].
  right. by left.
Qed.

Lemma sort_power_events_ext `{!HashIter} ps (F : gset string) :
  all_in F → (∀ p, p ∈ ps → p ∈ F) →
  sort_power_events f1 ps F rules = sort_power_events f2 ps F rules.
Proof.
  intros HF Hps. unfold sort_power_events. rewrite <- add_all_ext by auto.
  destruct (add_all_spec f1 F ps ∅ (graph_closed_empty _ _)) as (G & -> & _ & Hdom).
  assert (all_in (iter_keys ["graph"; "keys"] G)) as Hkeys.
  { intros x [Hx|(p & Hp & Hx)]%elem_of_iter_keys%Hdom; [set_solver|].
    apply HF. eapply reach_in_full; eauto. }
  rewrite <- power_levels_of_ext by done.
  destruct (power_levels_of f1 rules None ∅ _) as [m| | |] eqn:Hm; [|done..].
  apply sort_ext. intros id. unfold event_details. destruct (m !! id) as [l|] eqn:Hid.
  - rewrite Hagree; [done|]. apply mk_is_Some, elem_of_dom in Hid.
    destruct (power_levels_of_dom _ _ _ _ Hm id Hid) as [?|?]; [set_solver|auto].
  - by destruct (f1 id), (f2 id).
Qed.

(** ** The iterative auth checks *)

Definition values_in (state : StateMap string) : Prop := ∀ k id, state !! k = Some id → S id.

Lemma collect_auth_events_ext acc ids :
  all_in ids → collect_auth_events f1 acc ids = collect_auth_events f2 acc ids.
Proof.
  revert acc. induction ids as [|id ids IH]; intros acc Hids; simpl; [done|].
  apply all_in_cons in Hids as [Hid Hids]. rewrite (Hagree id Hid).
  destruct (f2 id) as [ev|]; [|by apply IH]. case_match; [by apply IH|].
  destruct (state_key ev); [by apply IH|done].
Qed.

Lemma overlay_state_ext state acc keys :
  values_in state → overlay_state f1 state acc keys = overlay_state f2 state acc keys.
Proof.
  intros Hst. unfold overlay_state. revert acc.
  induction keys as [|k keys IH]; intros acc; simpl; [done|]. rewrite IH.
  destruct (state !! k) as [id|] eqn:Hk; [|done]. simpl. by rewrite (Hagree id (Hst _ _ Hk)).
Qed.

Lemma auth_state_ext id ev state :
  S id → f1 id = Some ev → values_in state →
  auth_state f1 rules ev state = auth_state f2 rules ev state.
Proof.
  intros Hid Hev Hst. unfold auth_state. rewrite collect_auth_events_ext.
  2: { intros a. by apply (closed_auth Hclosed id ev). }
  destruct (collect_auth_events f2 ∅ _) as [acc| | |]; [|done..].
  destruct (room_create_event_id_as_room_id rules) eqn:Hcr.
  - rewrite (fetch_create_ext id ev Hcr Hid Hev).
    destruct (event_auth_types ev rules); [|done..]. by rewrite overlay_state_ext.
  - destruct (event_auth_types ev rules); [|done..]. by rewrite overlay_state_ext.
Qed.

Lemma auth_check_step_ext state id :
  S id → values_in state → auth_check_step f1 rules state id = auth_check_step f2 rules state id.
Proof.
  intros Hid Hst. unfold auth_check_step. rewrite <- (Hagree id Hid).
  destruct (f1 id) as [ev|] eqn:Hev; [|done]. destruct (state_key ev); [|done].
  by rewrite (auth_state_ext id ev state Hid Hev Hst).
Qed.

Lemma iterative_auth_checks_in events state state' :
  all_in events → values_in state →
  iterative_auth_checks f1 rules events state = Ret state' → values_in state'.
Proof.
  intros Hev Hst Hit k id Hk.
  destruct (iterative_auth_checks_entry _ _ _ _ _ _ _ Hit Hk) as [?|[? _]]; eauto.
Qed.

Lemma iterative_auth_checks_ext events state :
  all_in events → values_in state →
  iterative_auth_checks f1 rules events state = iterative_auth_checks f2 rules events state.
Proof.
  revert state. induction events as [|id events IH]; intros state Hev Hst; simpl; [done|].
  apply all_in_cons in Hev as [Hid Hev]. rewrite <- (auth_check_step_ext state id Hid Hst).
  destruct (auth_check_step f1 rules state id) as [state'| | |] eqn:Hstep; [|done..].
  apply IH; [done|]. intros k x Hk.
  destruct (auth_check_step_entry _ _ _ _ _ _ _ Hstep Hk) as [?|[-> _]]; eauto.
Qed.

(** ** The mainline *)

Lemma find_power_levels_ext missing ids :
  all_in ids → find_power_levels f1 missing ids = find_power_levels f2 missing ids.
Proof.
  induction ids as [|id ids IH]; intros Hids; simpl; [done|].
  apply all_in_cons in Hids as [Hid Hids]. rewrite (Hagree id Hid).
  destruct (f2 id); [|done]. case_match; auto.
Qed.

Lemma find_power_levels_in missing ids id ev :
  find_power_levels f1 missing ids = Ret (Some (id, ev)) → id ∈ ids ∧ f1 id = Some ev.
Proof.
  induction ids as [|x ids IH]; simpl; [done|]. destruct (f1 x) eqn:Hx; [|done].
  case_match; [intros [= -> ->]; split; [by left|done]|].
  intros [? ?]%IH. split; [by right|done].
Qed.

Lemma mainline_loop_ext fuel pl mainline :
  (∀ id, pl = Some id → S id) → mainline_loop f1 fuel pl mainline = mainline_loop f2 fuel pl mainline.
Proof.
  revert pl mainline. induction fuel as [|fuel IH]; intros [id|] mainline Hpl; simpl; try done.
  rewrite <- (Hagree id) by auto. destruct (f1 id) as [ev|] eqn:Hev; [|done].
  assert (all_in (auth_events ev)) as Hauth by (intros a; apply (closed_auth Hclosed id); auto).
  rewrite <- find_power_levels_ext by done.
  destruct (find_power_levels f1 _ _) as [[[x xev]|]| | |] eqn:Hnext; [..|done|done|done]; apply IH.
  - intros y [= <-]. apply Hauth. by apply find_power_levels_in in Hnext as [? _].
  - done.
Qed.

Lemma mainline_position_ext fuel ev m :
  all_in (auth_events ev) → mainline_position f1 fuel ev m = mainline_position f2 fuel ev m.
Proof.
  revert ev. induction fuel as [|fuel IH]; intros ev Hauth; simpl; [done|].
  destruct (m !! event_id ev); [done|]. rewrite <- find_power_levels_ext by done.
  destruct (find_power_levels f1 _ _) as [[[x xev]|]| | |] eqn:Hnext; [|done..]. apply IH.
  apply find_power_levels_in in Hnext as [Hx Hxev]. intros a. apply (closed_auth Hclosed x); auto.
Qed.

Lemma order_events_ext fuel m om events :
  all_in events → order_events f1 fuel m om events = order_events f2 fuel m om events.
Proof.
  revert om. induction events as [|id events IH]; intros om Hev; simpl; [done|].
  apply all_in_cons in Hev as [Hid Hev]. rewrite <- (Hagree id Hid).
  destruct (f1 id) as [ev|] eqn:Hf; [|by apply IH].
  rewrite mainline_position_ext by (intros a; by apply (closed_auth Hclosed id)).
  destruct (mainline_position f2 fuel ev m); auto.
Qed.

Lemma mainline_sort_ext `{!HashIter} fuel events pl :
  all_in events → (∀ id, pl = Some id → S id) →
  mainline_sort f1 fuel events pl = mainline_sort f2 fuel events pl.
Proof.
  intros Hev Hpl. unfold mainline_sort. rewrite mainline_loop_ext by done.
  destruct events; [done|]. destruct (mainline_loop f2 fuel pl []); [|done..].
  by rewrite order_events_ext.
Qed.

(** ** [resolve] *)

Lemma is_power_event_id_ext id : S id → is_power_event_id f1 id = is_power_event_id f2 id.
Proof. unfold is_power_event_id. by intros ->%Hagree. Qed.

Lemma full_ext `{!HashIter} chains conflicted subgraph :
  (∀ c, c ∈ chains → all_in c) → (∀ k l, conflicted !! k = Some l → all_in l) → all_in subgraph →
  full_conflicted_set f1 chains conflicted subgraph = full_conflicted_set f2 chains conflicted subgraph
  ∧ all_in (full_conflicted_set f1 chains conflicted subgraph).
Proof.
  intros Hch Hc Hs.
  assert (∀ x, x ∈ auth_difference chains ∨ (∃ k l, conflicted !! k = Some l ∧ x ∈ l) ∨ x ∈ subgraph →
    S x) as Hin.
  { intros x [Hx|[(k & l & ? & ?)|?]]; eauto.
    apply elem_of_auth_difference in Hx as [(c & ? & ?) _]. eauto. }
  split; [|intros x [_ ?]%elem_of_full; auto].
  apply set_eq. intros x. rewrite !elem_of_full.
  split; intros [Hx ?]; (split; [|done]); by rewrite <- Hagree in * by auto.
Qed.

(** The state maps, the auth chains and the subgraph name events of the set. *)
Record names_in `{!HashIter} sr maps (chains : list (gset string)) subgraph_of : Prop := {
  names_maps : ∀ m, m ∈ maps → values_in m;
  names_chains : ∀ c, c ∈ chains → all_in c;
  names_subgraph : ∀ s,
    subgraph_ok sr subgraph_of (split_conflicted_state_set maps).2 s → all_in s
}.

Lemma unconflicted_in `{!HashIter} maps :
  (∀ m, m ∈ maps → values_in m) → values_in (split_conflicted_state_set maps).1.
Proof.
  intros Hm k id [Hne Hall]%unconflicted_iff. destruct maps as [|m maps]; [done|].
  apply (Hm m (list_elem_of_here _ _) k). apply Hall. by left.
Qed.

Lemma conflicted_in `{!HashIter} maps :
  (∀ m, m ∈ maps → values_in m) →
  ∀ k l, (split_conflicted_state_set maps).2 !! k = Some l → all_in l.
Proof.
  intros Hm k l Hl x Hx. pose proof (conflicted_cases maps k) as Hc. rewrite Hl in Hc.
  destruct Hc as [_ Hc]. apply Hc in Hx as [(m & ? & ?) _]. by eapply Hm.
Qed.

Lemma resolve_ext `{!HashIter} fuel sr maps chains subgraph_of :
  names_in sr maps chains subgraph_of →
  resolve f1 fuel rules sr maps chains subgraph_of = resolve f2 fuel rules sr maps chains subgraph_of.
Proof.
  intros [Hmaps Hchains Hsub]. unfold resolve.
  pose proof (unconflicted_in maps Hmaps) as Hu. pose proof (conflicted_in maps Hmaps) as Hc.
  destruct (split_conflicted_state_set maps) as [u c]. simpl in *. case_bool_decide; [done|].
  destruct (if consider_conflicted_state_subgraph sr then _ else _) as [s| | |] eqn:Hs; [|done..].
  assert (subgraph_ok sr subgraph_of c s) as Hok.
  { unfold subgraph_ok. destruct (consider_conflicted_state_subgraph sr); [|by simplify_eq].
    by destruct (subgraph_of c); simplify_eq. }
  destruct (full_ext chains c s Hchains Hc (Hsub s Hok)) as [<- HF]. cbv zeta.
  set (full := full_conflicted_set f1 chains c s) in *.
  assert (∀ x site, x ∈ iter_set site full → S x) as Hin by (intros x ? ?%elem_of_iter_set; auto).
  rewrite <- (list_filter_ext_in (λ id, is_power_event_id f1 id) (λ id, is_power_event_id f2 id))
    by (intros x Hx; by rewrite is_power_event_id_ext by eauto).
  rewrite <- sort_power_events_ext by
    (done || intros p [_ Hp]%list_elem_of_filter; by apply elem_of_iter_set in Hp).
  destruct (sort_power_events f1 _ full rules) as [p| | |] eqn:Hp; [|done..].
  assert (all_in p) as Hpin.
  { intros x Hx. apply HF. eapply sort_power_events_sub; [|exact Hp|done].
    intros q [_ Hq]%list_elem_of_filter. by apply elem_of_iter_set in Hq. }
  assert (values_in (if begin_iterative_auth_checks_with_empty_state_map sr then ∅ else u)) as Hini.
  { destruct (begin_iterative_auth_checks_with_empty_state_map sr); [|done].
    intros k x. by rewrite lookup_empty. }
  rewrite <- iterative_auth_checks_ext by done.
  destruct (iterative_auth_checks f1 rules p _) as [pm| | |] eqn:Hpm; [|done..].
  pose proof (iterative_auth_checks_in _ _ _ Hpin Hini Hpm) as Hpmin.
  rewrite <- mainline_sort_ext; [|by intros x [_ ?]%list_elem_of_filter; eauto|by apply Hpmin].
  destruct (mainline_sort f1 _ _ _) as [r| | |] eqn:Hr; [|done..].
  rewrite iterative_auth_checks_ext; [done| |done].
  intros x Hx. eapply mainline_sort_sub in Hx; [|exact Hr].
  apply list_elem_of_filter in Hx as [_ ?]. eauto.
Qed.

End reads.

(** ** State resolution against an asynchronous store ([server-state-res/src/resolve.rs])

    The adapter runs [resolve] over a cache seeded with the events its arguments
    name.  Which lookups a run records as missed is left open: [missed] may be
    any function of the cache, and the theorems hold for all of them. *)

#[local] Open Scope string_scope.

Section async_resolve.
Context `{!HashIter} {RawJson} `{!External RawJson}.
Context (fetch_event : string → option (Pdu RawJson)).
Context (missed : FetchCache string (Pdu RawJson) → gset string).
Context (fuel : nat) (rules : RoomVersionRules) (maps : list (StateMap string))
  (chains : list (gset string))
  (subgraph_of : StateMap (list string) → option (gset string)).

(** The events named by the state maps and the auth chains. *)
Definition resolve_seeds : list string :=
  concat ((λ m : StateMap string, (iter_map ["state_map"; "values"] m).*2) <$> maps)
  ++ concat (iter_set ["auth_chain"] <$> chains).

(** The rounds of [resolve]. *)
Fixpoint resolve_rounds (sr : StateResolutionV2Rules) (n : nat)
    (cache : FetchCache string (Pdu RawJson)) (pending : list string)
    : outcome (AsyncError Error) (StateMap string) :=
  match n with
  | 0 => Throw FetchRoundsExhausted
  | S n =>
      let cache := fetch_pending fetch_event cache pending in
      match resolve (cache_answer cache) fuel (authorization rules) sr maps chains subgraph_of with
      | Ret state => Ret state
      | Throw e =>
          if bool_decide (missed cache = ∅) then Throw (Resolution e)
          else resolve_rounds sr n cache (iter_set ["misses"] (missed cache))
      | Panic => Panic
      | OutOfFuel => OutOfFuel
      end
  end.

(** [resolve] of [server-state-res] *)
Definition async_resolve : outcome (AsyncError Error) (StateMap string) :=
  match v2_rules (state_res rules) with
  | None => Throw UnsupportedStateResolutionVersion
  | Some sr => resolve_rounds sr MAX_FETCH_ROUNDS cache_new resolve_seeds
  end.

Lemma elem_of_seeds id :
  id ∈ resolve_seeds ↔ (∃ m k, m ∈ maps ∧ m !! k = Some id) ∨ (∃ c, c ∈ chains ∧ id ∈ c).
Proof.
  unfold resolve_seeds. rewrite elem_of_app, !list_elem_of_In, !in_concat.
  setoid_rewrite <- list_elem_of_In. setoid_rewrite list_elem_of_fmap. split.
  - intros [(l & (m & -> & Hm) & Hid)|(l & (c & -> & Hc) & Hid)].
    + apply list_elem_of_fmap in Hid as ([k id'] & -> & Hk). apply elem_of_iter_map in Hk. left. eauto.
    + apply elem_of_iter_set in Hid. right. eauto.
  - intros [(m & k & Hm & Hk)|(c & Hc & Hid)]; [left|right]; eexists; (split; [by eexists|]).
    + apply list_elem_of_fmap. exists (k, id). by rewrite elem_of_iter_map.
    + by apply elem_of_iter_set.
Qed.

(** A state is returned in the round that finds it. *)
Lemma resolve_rounds_first sr n cache pending m :
  resolve (cache_answer (fetch_pending fetch_event cache pending)) fuel (authorization rules) sr
    maps chains subgraph_of = Ret m →
  resolve_rounds sr (S n) cache pending = Ret m.
Proof. simpl. by intros ->. Qed.

(** ** Seeds that hold the auth chains *)

Section seeded.
Context (sr : StateResolutionV2Rules).
Hypothesis Hclosed : closed_under (authorization rules) fetch_event (λ id, id ∈ resolve_seeds).
Hypothesis Hsub : ∀ s, subgraph_ok sr subgraph_of (split_conflicted_state_set maps).2 s →
  ∀ id, id ∈ s → id ∈ resolve_seeds.

Lemma seeds_name : names_in (λ id, id ∈ resolve_seeds) sr maps chains subgraph_of.
Proof.
  split; [| |done].
  - intros m Hm k id Hk. apply elem_of_seeds. left. eauto.
  - intros c Hc id Hid. apply elem_of_seeds. right. eauto.
Qed.

(** A cache with the seeds is as good as the store. *)
Lemma resolve_cache cache :
  cache_ok fetch_event cache → (∀ id, id ∈ resolve_seeds → id ∈ dom (entries cache)) →
  resolve (cache_answer cache) fuel (authorization rules) sr maps chains subgraph_of
  = resolve fetch_event fuel (authorization rules) sr maps chains subgraph_of.
Proof.
  intros Hok Hdom. symmetry.
  apply (resolve_ext (authorization rules) _ _ (λ id, id ∈ resolve_seeds)); [done| |apply seeds_name].
  intros id Hid. symmetry. apply cache_ok_answer; auto.
Qed.

Lemma resolve_rounds_ret n cache pending m :
  cache_ok fetch_event cache →
  (∀ id, id ∈ resolve_seeds → id ∈ dom (entries (fetch_pending fetch_event cache pending))) →
  resolve_rounds sr (S n) cache pending = Ret m ↔
  resolve fetch_event fuel (authorization rules) sr maps chains subgraph_of = Ret m.
Proof.
  revert cache pending. induction n as [|n IH]; intros cache pending Hok Hdom;
    simpl; rewrite (resolve_cache _ (fetch_pending_ok _ _ pending Hok) Hdom);
    destruct (resolve fetch_event _ _ _ _ _ _) as [m'|e| |] eqn:Hr; try naive_solver.
  - case_bool_decide; naive_solver.
  - case_bool_decide; [naive_solver|]. rewrite <- IH; [by simpl|by apply fetch_pending_ok|].
    intros id Hid. apply fetch_pending_dom. auto.
Qed.

End seeded.

(** C36. Resolving against an asynchronous store returns a state exactly when
    the synchronous resolution over the whole store returns it, when the events
    named by the state maps and auth chains hold their auth events, the create
    event their room ID names, and the conflicted state subgraph. *)
Theorem async_resolve_agrees sr m :
  v2_rules (state_res rules) = Some sr →
  closed_under (authorization rules) fetch_event (λ id, id ∈ resolve_seeds) →
  (∀ s, subgraph_ok sr subgraph_of (split_conflicted_state_set maps).2 s →
     ∀ id, id ∈ s → id ∈ resolve_seeds) →
  async_resolve = Ret m ↔
  resolve fetch_event fuel (authorization rules) sr maps chains subgraph_of = Ret m.
Proof.
  intros Hsr Hclosed Hsub. unfold async_resolve, MAX_FETCH_ROUNDS. rewrite Hsr.
  apply resolve_rounds_ret; [done..|apply cache_new_ok|].
  intros id Hid. apply fetch_pending_dom. by right.
Qed.

End async_resolve.

(** ** The sample room *)

#[local] Existing Instance sample_external.
#[local] Existing Instance hash_iter_std.

Lemma async_resolve_agrees_witness :
  async_resolve sample_fetch (λ _, ∅) 20 RulesV10 [fork1; fork2] sample_chains (λ _, None)
  = Ret sample_resolved.
Proof.
  apply (async_resolve_agrees sample_fetch (λ _, ∅) 20 RulesV10 [fork1; fork2] sample_chains
    (λ _, None) StateResV2_0); [done| | |by_vm].
  - split; [|done]. intros id ev a _ [Hin <-]%find_event_Some Ha.
    assert (Forall (λ ev : SampleEvent, Forall (λ a, a ∈ resolve_seeds [fork1; fork2] sample_chains)
      (auth_events ev)) sample_events) as Hall by by_decide.
    rewrite Forall_forall in Hall. specialize (Hall ev Hin). rewrite Forall_forall in Hall. auto.
  - intros s Hs id Hid. unfold subgraph_ok in Hs. simpl in Hs. subst s.
    by apply elem_of_empty in Hid.
Defined.

(** Forks whose state lacks Bob's membership and the power levels; Carol is
    banned on one of them. *)
Definition small_state : StateMap string :=
  list_to_map [((RoomCreate, EmptyString), "$create"); ((RoomMember, alice), "$alice");
               ((RoomJoinRules, EmptyString), "$rules")].

Definition small_ban : StateMap string := <[(RoomMember, carol) := "$ban"]> small_state.
Definition small_join : StateMap string := <[(RoomMember, carol) := "$carol"]> small_state.

(** A resolution that returns a state is not run again with the events it
    missed: with auth chains that leave out Bob's membership and the power
    levels, the adapter returns a state in which Carol has joined, whatever
    lookups are recorded as missed, while resolution over the store keeps Bob's
    ban. *)
Theorem async_resolve_keeps_misses missed :
  async_resolve sample_fetch missed 20 RulesV10 [small_ban; small_join] [∅; ∅] (λ _, None)
  = Ret small_join ∧
  resolve sample_fetch 20 AuthV10 StateResV2_0 [small_ban; small_join] [∅; ∅] (λ _, None)
  = Ret small_ban.
Proof.
  split; [|by_vm]. unfold async_resolve, MAX_FETCH_ROUNDS.
  apply (resolve_rounds_first _ _ _ RulesV10 _ _ _ StateResV2_0). by_vm.
Qed.
