(* ===== verification/RedactionSpec.v ===== *)
(** * Properties of redaction

    The serializer that redacts on the fly against redaction followed by
    serialization, and redaction as a projection. *)

From S2P Require Import Prelude RoomVersionRules CanonicalJson Signatures Sample.

#[local] Open Scope string_scope.

(** ** Objects *)

Lemma obj_get_insert {V} k k' (v : V) o :
  obj_get k (obj_insert k' v o) = if String.eqb k k' then Some v else obj_get k o.
Proof.
  induction o as [|[k1 v1] o IH]; simpl; [done|].
  destruct (String.compare k' k1) eqn:Hc; simpl; [|done|].
  - apply string_compare_eq in Hc as ->. by destruct (String.eqb k k1).
  - rewrite IH. destruct (String.eqb_spec k k1) as [->|]; [|done].
    destruct (String.eqb_spec k1 k') as [->|]; [|done]. by rewrite string_compare_refl in Hc.
Qed.

Lemma omap_insert_none {V W} (f : string * V → option W) k v o :
  (∀ v', f (k, v') = None) → omap f (obj_insert k v o) = omap f o.
Proof.
  intros Hf. induction o as [|[k1 v1] o IH]; csimpl; [by rewrite Hf|].
  destruct (String.compare k k1) eqn:Hc; csimpl.
  - apply string_compare_eq in Hc as ->. by rewrite !Hf.
  - by rewrite Hf.
  - by rewrite IH.
Qed.

(** ** Retained keys *)

(** The value of a member kept with rules for its children. *)
Definition redact_child (child : RetainedKeys) (rules : RedactionRules) (v : CanonicalJson)
    : CanonicalJson :=
  match v with CObject o => CObject (apply_retained child rules o) | _ => v end.

(** One member under a retention function. *)
Definition retain_member (f : RedactionRules → string → RetainKey) (rules : RedactionRules)
    (kv : string * CanonicalJson) : option (string * CanonicalJson) :=
  match f rules kv.1 with
  | RetainYes (Some child) => Some (kv.1, redact_child child rules kv.2)
  | RetainYes None => Some kv
  | RetainNo => None
  end.

Lemma omap_ext {A B} (f g : A → option B) (l : list A) : (∀ x, f x = g x) → omap f l = omap g l.
Proof. intros Hfg. induction l as [|x l IH]; csimpl; [done|]. by rewrite Hfg, IH. Qed.

Lemma apply_some f rules o :
  apply_retained (RetainSome f) rules o = omap (retain_member f rules) o.
Proof.
  simpl. apply omap_ext. intros [k v]. unfold retain_member. simpl.
  by destruct (f rules k) as [[child|]|]; [destruct v|..].
Qed.

Lemma obj_get_apply f rules o k :
  obj_get k (apply_retained (RetainSome f) rules o) =
  match f rules k with
  | RetainYes (Some child) => redact_child child rules <$> obj_get k o
  | RetainYes None => obj_get k o
  | RetainNo => None
  end.
Proof.
  rewrite apply_some. induction o as [|[k1 v1] o IH]; simpl.
  - by destruct (f rules k) as [[|]|].
  - unfold retain_member at 1. simpl. destruct (String.eqb_spec k k1) as [->|Hne].
    + destruct (f rules k1) as [[child|]|]; simpl; [by rewrite String.eqb_refl..|done].
    + destruct (f rules k1) as [[child|]|]; simpl;
        [by rewrite (proj2 (String.eqb_neq k k1) Hne)..|done].
Qed.

(** ** Redaction is a projection *)

Lemma retain_member_idem f rules kv kv' :
  (∀ child o, f rules kv.1 = RetainYes (Some child) →
     apply_retained child rules (apply_retained child rules o) = apply_retained child rules o) →
  retain_member f rules kv = Some kv' → retain_member f rules kv' = Some kv'.
Proof.
  unfold retain_member. destruct kv as [k v]. simpl. intros IH.
  destruct (f rules k) as [[child|]|] eqn:Hf; intros [= <-]; simpl; rewrite Hf; [|done].
  destruct v; simpl; try done. by rewrite IH.
Qed.

Lemma omap_idem {A} (f : A → option A) (l : list A) :
  (∀ x y, f x = Some y → f y = Some y) → omap f (omap f l) = omap f l.
Proof.
  intros Hf. induction l as [|x l IH]; csimpl; [done|]. destruct (f x) as [y|] eqn:Hx; [|done].
  csimpl. by rewrite (Hf x y Hx), IH.
Qed.

Lemma apply_idem : ∀ rk rules o,
  apply_retained rk rules (apply_retained rk rules o) = apply_retained rk rules o.
Proof.
  fix IH 1. intros [|f|] rules o; [done| |done]. rewrite !apply_some. apply omap_idem.
  intros x y. apply retain_member_idem. intros child o'. generalize (f rules x.1).
  intros [[c|]|] [= <-]. apply IH.
Qed.

Lemma serialize_apply : ∀ rk rules o, serialize_retained rk rules [] o = apply_retained rk rules o.
Proof.
  fix IH 1. intros [|f|] rules o; [|simpl; apply omap_ext; intros [k v]; simpl|done].
  - simpl. induction o as [|kv o IHo]; csimpl; [done|]. by f_equal.
  - generalize (f rules k). intros [[c|]|]; [|done..]. destruct v; try done. by rewrite IH.
Qed.

(** An object without the given keys. *)
Definition without (fields : list string) (o : CanonicalJsonObject) : CanonicalJsonObject :=
  omap (λ kv, if key_in kv.1 fields then None else Some kv) o.

Lemma retain_member_key f rules kv kv' : retain_member f rules kv = Some kv' → kv'.1 = kv.1.
Proof. unfold retain_member. by destruct (f rules kv.1) as [[|]|]; intros [= <-]. Qed.

Lemma serialize_without rk rules fields o :
  serialize_retained rk rules fields o = without fields (apply_retained rk rules o).
Proof.
  destruct rk as [|f|]; [done| |done]. rewrite apply_some. unfold without. simpl.
  induction o as [|kv o IH]; csimpl; [done|]. rewrite IH. clear IH.
  assert (retain_member f rules kv =
    match f rules kv.1 with
    | RetainYes child_retained_keys =>
        match child_retained_keys, kv.2 with
        | Some child, CObject child_object =>
            Some (kv.1, CObject (serialize_retained child rules [] child_object))
        | _, value => Some (kv.1, value)
        end
    | RetainNo => None
    end) as <-.
  { unfold retain_member, redact_child. destruct kv as [k v]. simpl.
    destruct (f rules k) as [[child|]|]; [|done..].
    destruct v; try done. simpl. by rewrite serialize_apply. }
  destruct (retain_member f rules kv) as [kv'|] eqn:Hkv; csimpl.
  - rewrite (retain_member_key _ _ _ _ Hkv). by destruct (key_in kv.1 fields).
  - by destruct (key_in kv.1 fields).
Qed.

Lemma redacting_serialize_spec `{!JsonText} rules fields event :
  redacting_serialize (Some rules) fields event =
  match redact event rules None with
  | Ok event => to_json_string (without fields event)
  | Err e => Err (display_field_error e)
  end.
Proof.
  unfold redacting_serialize, redact. destruct (retained_event_keys event) as [rk|e]; simpl; [|done].
  by rewrite serialize_without.
Qed.

(** C37. Serializing an event while redacting it is redacting it, removing the
    custom fields and serializing the result; an event that cannot be redacted
    is refused with the text of the same error. *)
Theorem redacting_serializer_is_redaction `{!JsonText} rules fields event :
  redacting_serialize (Some rules) fields event =
  match redact event rules None with
  | Ok event => to_json_string (without fields event)
  | Err e => Err (display_field_error e)
  end.
Proof. apply redacting_serialize_spec. Qed.

(** ** Redacting twice *)

Lemma retain_type ty rules : retain_event_key ty rules "type" = RetainYes None.
Proof. done. Qed.

Lemma retained_event_keys_ok event rk :
  retained_event_keys event = Ok rk →
  ∃ ty, obj_get "type" event = Some (CString ty) ∧ rk = RetainSome (retain_event_key ty).
Proof.
  unfold retained_event_keys, get_as_required_string, get_as_string.
  destruct (obj_get "type" event) as [[]|]; simpl; intros [= <-]; eauto.
Qed.

Lemma retained_event_keys_type event ty :
  obj_get "type" event = Some (CString ty) →
  retained_event_keys event = Ok (RetainSome (retain_event_key ty)).
Proof.
  unfold retained_event_keys, get_as_required_string, get_as_string. by intros ->.
Qed.

(** What a redacted event is. *)
Lemma redact_ok event rules because event' :
  redact event rules because = Ok event' →
  ∃ ty, obj_get "type" event = Some (CString ty) ∧
    let kept := apply_retained (RetainSome (retain_event_key ty)) rules event in
    event' = match because with
             | Some b => obj_insert "unsigned" (CObject [("redacted_because", CObject b)]) kept
             | None => kept
             end.
Proof.
  unfold redact. destruct (retained_event_keys event) as [rk|] eqn:Hrk; [|done].
  apply retained_event_keys_ok in Hrk as (ty & Hty & ->). intros He. exists ty.
  split; [done|]. by destruct because; injection He as <-.
Qed.

(** A key other than [unsigned] in a redacted event. *)
Lemma redact_get event rules because event' ty k :
  redact event rules because = Ok event' → obj_get "type" event = Some (CString ty) →
  k ≠ "unsigned" →
  obj_get k event' = obj_get k (apply_retained (RetainSome (retain_event_key ty)) rules event).
Proof.
  intros Hr Hty Hk. apply redact_ok in Hr as (ty' & Hty' & Hev). simplify_eq. rewrite Hev.
  destruct because; [|done]. by rewrite obj_get_insert, (proj2 (String.eqb_neq _ _) Hk).
Qed.

(** Members redaction keeps as they are. *)
Lemma redact_keeps event rules because event' k :
  redact event rules because = Ok event' → k ≠ "unsigned" →
  (∀ ty, retain_event_key ty rules k = RetainYes None) → obj_get k event' = obj_get k event.
Proof.
  intros Hr Hk Hkeep. destruct (redact_ok _ _ _ _ Hr) as (ty & Hty & _).
  by rewrite (redact_get _ _ _ _ _ _ Hr Hty Hk), obj_get_apply, Hkeep.
Qed.

Lemma redact_twice event rules because event' because' :
  redact event rules because = Ok event' →
  redact event' rules because' = redact event rules because'.
Proof.
  intros Hr. pose proof (redact_keeps _ _ _ _ "type" Hr ltac:(done) (λ ty, retain_type ty rules)) as Hty'.
  destruct (redact_ok _ _ _ _ Hr) as (ty & Hty & Hev). unfold redact.
  rewrite (retained_event_keys_type event ty Hty).
  rewrite (retained_event_keys_type event' ty) by (by rewrite Hty').
  assert (apply_retained (RetainSome (retain_event_key ty)) rules event'
          = apply_retained (RetainSome (retain_event_key ty)) rules event) as ->; [|done].
  rewrite Hev. destruct because; [|apply apply_idem].
  rewrite !apply_some, omap_insert_none; [|done]. rewrite <- !apply_some. apply apply_idem.
Qed.

(** Redaction is idempotent: redacting a redacted event, with or without a
    reason, gives what redacting the event itself gives. *)
Theorem redact_idempotent event rules because event' because' :
  redact event rules because = Ok event' →
  redact event' rules because' = redact event rules because'.
Proof. apply redact_twice. Qed.

(** ** A concrete event *)

Definition sample_pdu : CanonicalJsonObject :=
  [("auth_events", CArray []);
   ("content", CObject [("displayname", CString "Bob"); ("membership", CString "join")]);
   ("depth", CInteger 3);
   ("prev_events", CArray []);
   ("room_id", CString "!r:a.org");
   ("sender", CString "@bob:b.org");
   ("state_key", CString "@bob:b.org");
   ("type", CString "m.room.member");
   ("unsigned", CObject [("age", CInteger 5)])].

Definition redacted_pdu : CanonicalJsonObject :=
  [("auth_events", CArray []);
   ("content", CObject [("membership", CString "join")]);
   ("depth", CInteger 3);
   ("prev_events", CArray []);
   ("room_id", CString "!r:a.org");
   ("sender", CString "@bob:b.org");
   ("state_key", CString "@bob:b.org");
   ("type", CString "m.room.member")].

Lemma redact_idempotent_witness : redact redacted_pdu RedactionV11 None = Ok redacted_pdu.
Proof.
  rewrite (redact_idempotent sample_pdu RedactionV11 None redacted_pdu None); reflexivity.
Defined.
