(* ===== verification/SignatureSpec.v ===== *)
(** * Properties of hashes and signatures

    What redaction and signing leave unchanged, the round trip of signing and
    verifying, and the signatures of a redacted event. *)

From S2P Require Import Prelude Identifiers RoomVersionRules CanonicalJson.
From S2P Require Import Signatures Sample RedactionSpec.

#[local] Open Scope string_scope.
#[local] Arguments apply_retained : simpl never.

(** ** Well-formed objects

    The members of an object are in the order of their keys, each key once. *)

Fixpoint keys_sorted {V} (o : list (string * V)) : bool :=
  match o with
  | [] => true
  | (k, _) :: o' =>
      match o' with
      | [] => true
      | (k', _) :: _ => bool_decide (String.compare k k' = Lt)
      end && keys_sorted o'
  end.

Fixpoint json_wf (v : CanonicalJson) : bool :=
  match v with
  | CArray l => forallb json_wf l
  | CObject o => keys_sorted o && forallb (λ kv, json_wf kv.2) o
  | _ => true
  end.

Section keys_sorted.
Context {V : Type}.
Implicit Types o : list (string * V).

Lemma keys_sorted_cons k v o :
  keys_sorted ((k, v) :: o) = true ↔ (∀ kv, kv ∈ o → String.compare k kv.1 = Lt) ∧ keys_sorted o = true.
Proof.
  revert k v. induction o as [|[k1 v1] o IH]; intros k v.
  - simpl. split; [|done]. split; [|done]. by intros ? ?%elem_of_nil.
  - change (bool_decide (String.compare k k1 = Lt) && keys_sorted ((k1, v1) :: o) = true ↔
      (∀ kv, kv ∈ (k1, v1) :: o → String.compare k kv.1 = Lt) ∧ keys_sorted ((k1, v1) :: o) = true).
    rewrite andb_true_iff, bool_decide_eq_true, IH. split.
    + intros (Hk & Hlt & Hs). split_and!; [|done..].
      intros kv [->|Hkv]%elem_of_cons; [done|]. eapply (cmp_lt_trans String.compare); eauto.
    + intros (Hall & Hlt & Hs). split_and!; [|done..]. apply (Hall (k1, v1)). by left.
Qed.

Lemma elem_of_obj_insert k v o kv : kv ∈ obj_insert k v o → kv = (k, v) ∨ kv ∈ o.
Proof.
  induction o as [|[k1 v1] o IH]; simpl.
  - intros ->%list_elem_of_singleton. by left.
  - destruct (String.compare k k1); rewrite !elem_of_cons; naive_solver.
Qed.

Lemma keys_sorted_insert k v o : keys_sorted o = true → keys_sorted (obj_insert k v o) = true.
Proof.
  induction o as [|[k1 v1] o IH]; intros Hs; [done|].
  apply keys_sorted_cons in Hs as [Hlt Hs]. simpl. destruct (String.compare k k1) eqn:Hc.
  - apply string_compare_eq in Hc as ->. apply keys_sorted_cons. auto.
  - rewrite !keys_sorted_cons. split_and!; [|done..].
    intros kv [->|Hkv]%elem_of_cons; [done|]. eapply (cmp_lt_trans String.compare); [done|auto].
  - apply keys_sorted_cons. split; [|by apply IH].
    intros kv [->|Hkv]%elem_of_obj_insert; [|auto]. by apply (cmp_gt_lt String.compare).
Qed.

(** In a sorted object a member is what its key is looked up as. *)
Lemma keys_sorted_get k v o : keys_sorted o = true → (k, v) ∈ o → obj_get k o = Some v.
Proof.
  induction o as [|[k1 v1] o IH]; intros Hs; [by intros ?%elem_of_nil|].
  apply keys_sorted_cons in Hs as [Hlt Hs]. simpl.
  intros [[= -> ->]|Hkv]%elem_of_cons; [by rewrite String.eqb_refl|].
  destruct (String.eqb_spec k k1) as [->|]; [|auto].
  specialize (Hlt _ Hkv). simpl in Hlt. by rewrite string_compare_refl in Hlt.
Qed.

Lemma obj_get_elem k v o : obj_get k o = Some v → (k, v) ∈ o.
Proof.
  induction o as [|[k1 v1] o IH]; simpl; [done|].
  destruct (String.eqb_spec k k1) as [->|]; [intros [= ->]; by left|]. intros ?%IH. by right.
Qed.

End keys_sorted.

Lemma json_wf_object o :
  json_wf (CObject o) = true ↔ keys_sorted o = true ∧ ∀ k v, (k, v) ∈ o → json_wf v = true.
Proof.
  simpl. rewrite andb_true_iff, forallb_forall. setoid_rewrite <- list_elem_of_In. split.
  - intros [? Hall]. split; [done|]. intros k v Hkv. by apply (Hall (k, v)).
  - intros [? Hall]. split; [done|]. intros [k v]. apply Hall.
Qed.

Lemma json_wf_get o k v : json_wf (CObject o) = true → obj_get k o = Some v → json_wf v = true.
Proof. intros [_ Hall]%json_wf_object Hk%obj_get_elem. eauto. Qed.

Lemma json_wf_insert o k v :
  json_wf (CObject o) = true → json_wf v = true → json_wf (CObject (obj_insert k v o)) = true.
Proof.
  intros [Hs Hall]%json_wf_object Hv. apply json_wf_object. split; [by apply keys_sorted_insert|].
  intros k' v' [[= -> ->]|?]%elem_of_obj_insert; eauto.
Qed.

(** ** Redaction and signing keep objects well-formed *)

Lemma keys_sorted_omap {V W} (f : string * V → option (string * W)) o :
  (∀ kv kv', f kv = Some kv' → kv'.1 = kv.1) → keys_sorted o = true →
  keys_sorted (omap f o) = true.
Proof.
  intros Hf. induction o as [|[k v] o IH]; intros Hs; csimpl; [done|].
  apply keys_sorted_cons in Hs as [Hlt Hs]. destruct (f (k, v)) as [[k' w]|] eqn:Hkv; [|auto].
  apply Hf in Hkv. simpl in Hkv. subst k'. apply keys_sorted_cons. split; [|auto].
  intros kv (x & Hx & Hfx)%list_elem_of_omap. apply Hf in Hfx as ->. auto.
Qed.

Lemma apply_wf : ∀ rk rules o,
  json_wf (CObject o) = true → json_wf (CObject (apply_retained rk rules o)) = true.
Proof.
  fix IH 1. intros [|f|] rules o Ho; [done| |done].
  rewrite apply_some. apply json_wf_object in Ho as [Hs Hall]. apply json_wf_object. split.
  - apply keys_sorted_omap; [|done]. intros kv kv'. apply retain_member_key.
  - intros k v ([k1 v1] & Hin & Hm)%list_elem_of_omap. apply Hall in Hin.
    revert Hm. unfold retain_member. simpl. generalize (f rules k1). intros [[child|]|] [= -> <-].
    + destruct v1; try done. simpl. by apply IH.
    + done.
Qed.

Lemma redact_wf event rules because event' :
  json_wf (CObject event) = true → default true ((λ b, json_wf (CObject b)) <$> because) = true →
  redact event rules because = Ok event' → json_wf (CObject event') = true.
Proof.
  intros Hev Hb Hr. destruct (redact_ok _ _ _ _ Hr) as (ty & _ & ->).
  pose proof (apply_wf (RetainSome (retain_event_key ty)) rules event Hev) as Hk.
  destruct because as [b|]; [|done]. apply json_wf_insert; [done|].
  apply json_wf_object. split; [done|]. by intros k v [= -> ->]%list_elem_of_singleton.
Qed.

Lemma update_object_wf obj field path f obj' :
  json_wf (CObject obj) = true →
  (∀ o o', json_wf (CObject o) = true → f o = Ok o' → json_wf (CObject o') = true) →
  update_object_or_default obj field path f = Ok obj' → json_wf (CObject obj') = true.
Proof.
  unfold update_object_or_default. intros Ho Hf.
  destruct (default (CObject []) (obj_get field obj)) as [| | | | |o] eqn:Hd; try done.
  destruct (f o) as [o'|] eqn:Hfo; [|done]. intros [= <-]. apply json_wf_insert; [done|].
  apply (Hf o); [|done]. destruct (obj_get field obj) as [v|] eqn:Hg; [|by injection Hd as <-].
  apply (json_wf_get obj field); [done|]. by rewrite Hg, <- Hd.
Qed.

Section spec.
Context `{!JsonText, !Crypto}.

Lemma hash_and_sign_wf entity kp obj rules obj' :
  json_wf (CObject obj) = true → hash_and_sign_event entity kp obj rules = Ok obj' →
  json_wf (CObject obj') = true.
Proof.
  intros Hobj. unfold hash_and_sign_event, add_content_hash_to_event, sign_event, insert_signature.
  destruct (content_hash obj) as [h|]; [|done].
  destruct (update_object_or_default obj _ _ _) as [obj1|] eqn:H1; simpl; [|done].
  apply update_object_wf in H1; [|done|intros o o' ? [= <-]; by apply json_wf_insert].
  destruct (redacting_serialize _ _ obj1) as [j|]; simpl; [|done].
  destruct (update_object_or_default obj1 _ _ _) as [obj2|] eqn:H2; simpl; [|done].
  intros [= <-]. eapply update_object_wf; [exact H1| |exact H2].
  intros o o' Ho. apply update_object_wf; [done|]. intros o1 o1' ? [= <-]. by apply json_wf_insert.
Qed.

(** ** What is signed and hashed *)

Lemma redacting_serialize_insert rules fields k v obj :
  key_in k fields = true → k ≠ "type" →
  redacting_serialize rules fields (obj_insert k v obj) = redacting_serialize rules fields obj.
Proof.
  intros Hin Hk. unfold redacting_serialize, serialize_object.
  assert (∀ v', (if key_in (k, v').1 fields then None else Some (k, v')) = @None (string * CanonicalJson))
    as Hdrop by (intros v'; simpl; by rewrite Hin).
  destruct rules as [rules|]; simpl; [|by rewrite omap_insert_none].
  assert (retained_event_keys (obj_insert k v obj) = retained_event_keys obj) as ->.
  { unfold retained_event_keys, get_as_required_string, get_as_string.
    rewrite obj_get_insert. by rewrite (proj2 (String.eqb_neq "type" k)) by congruence. }
  destruct (retained_event_keys obj) as [rk|] eqn:Hrk; simpl; [|done].
  apply retained_event_keys_ok in Hrk as (ty & _ & ->). simpl.
  rewrite omap_insert_none; [done|]. intros v'. simpl. by rewrite Hin.
Qed.

(** The redacted form of an event serializes as the event does. *)
Lemma redacting_serialize_redact event rules because event' fields :
  redact event rules because = Ok event' →
  redacting_serialize (Some rules) fields event' = redacting_serialize (Some rules) fields event.
Proof.
  intros Hr. by rewrite !redacting_serialize_spec, (redact_twice _ _ _ _ None Hr).
Qed.

(** The reference hash of an event, which names it from room version 3 on,
    covers what redaction keeps: redacting the event, with or without a reason,
    does not change it. *)
Theorem reference_hash_redact event rules because event' :
  redact event (redaction rules) because = Ok event' →
  reference_hash event' rules = reference_hash event rules.
Proof.
  intros Hr. unfold reference_hash. by rewrite (redacting_serialize_redact _ _ _ _ _ Hr).
Qed.

(** ** Signing and verifying *)

(** The fields that decide whose signatures an event needs. *)
Lemma required_servers_ext o1 o2 rules :
  (∀ k, key_in k ["type"; "content"; "sender"; "event_id"] = true → obj_get k o1 = obj_get k o2) →
  required_server_signatures_to_verify_event o1 rules
  = required_server_signatures_to_verify_event o2 rules.
Proof.
  intros Hk. unfold required_server_signatures_to_verify_event, is_invite_via_third_party_id,
    authorised_user, event_id_server, get_as_required_string, get_as_required_object,
    get_as_string, get_as_object.
  by rewrite (Hk "type"), (Hk "content"), (Hk "sender"), (Hk "event_id") by done.
Qed.

Lemma required_servers_insert k v o rules :
  key_in k ["type"; "content"; "sender"; "event_id"] = false →
  required_server_signatures_to_verify_event (obj_insert k v o) rules
  = required_server_signatures_to_verify_event o rules.
Proof.
  intros Hk. apply required_servers_ext. intros k' Hk'. rewrite obj_get_insert.
  destruct (String.eqb_spec k' k) as [->|]; congruence.
Qed.

(** An updated object: the field holds what the update makes of its object. *)
Lemma update_object_ok obj field path f obj' :
  update_object_or_default obj field path f = Ok obj' →
  ∃ o o', default (CObject []) (obj_get field obj) = CObject o ∧ f o = Ok o' ∧
    obj' = obj_insert field (CObject o') obj.
Proof.
  unfold update_object_or_default. destruct (default _ _) as [| | | | |o]; try done.
  destruct (f o) as [o'|] eqn:Hf; [|done]. intros [= <-]. eauto.
Qed.

Lemma content_hash_insert k v obj :
  key_in k CONTENT_HASH_FIELDS_TO_REMOVE = true → k ≠ "type" →
  content_hash (obj_insert k v obj) = content_hash obj.
Proof. intros Hk Ht. unfold content_hash. by rewrite redacting_serialize_insert. Qed.

Context `{!CryptoLaws}.

(** With one known key, the signatures of other keys are passed over and the one of
    the key is checked. *)
Lemma verify_signatures_one (keys : PublicKeyMap) entity kp msg checked l :
  starts_char (version kp) = true →
  keys !! entity = Some {[ signature_id kp := ed25519_public_key (signing_key kp) ]} →
  (∀ v, (signature_id kp, v) ∈ l → v = CString (base64_encode (ed25519_sign (signing_key kp) msg))) →
  verify_signatures (public_signing_key keys) entity msg checked l
  = Ret (checked || bool_decide (signature_id kp ∈ l.*1)).
Proof.
  intros Hv Hkeys. revert checked. induction l as [|[k v] l IH]; intros checked Hl.
  { rewrite bool_decide_eq_false_2 by (by intros ?%elem_of_nil). by rewrite orb_false_r. }
  assert (∀ v, (signature_id kp, v) ∈ l →
    v = CString (base64_encode (ed25519_sign (signing_key kp) msg))) as Hl'.
  { intros v' Hin. apply Hl. by right. }
  remember (bool_decide (signature_id kp ∈ ((k, v) :: l).*1)) as b eqn:Hb. simpl.
  unfold public_signing_key at 1. rewrite Hkeys. simpl.
  destruct (decide (k = signature_id kp)) as [->|Hne].
  - rewrite lookup_singleton_eq. change (signature_id kp) with (key_id_of "ed25519" (version kp)) at 1.
    rewrite key_id_validate_of by (done || simpl; lia). simpl.
    change (str_find ":" (signature_id kp)) with (Some 7). simpl.
    rewrite (Hl v) by (by left). rewrite base64_roundtrip. unfold ed25519_verify_json.
    rewrite ed25519_public_is_key, ed25519_signature_length, ed25519_sign_verify. simpl.
    rewrite IH by done. simpl. subst b. rewrite bool_decide_eq_true_2 by (by left). by rewrite orb_true_r.
  - rewrite lookup_singleton_ne by done. rewrite IH by done. subst b. f_equal. f_equal.
    apply bool_decide_ext. rewrite fmap_cons, elem_of_cons. naive_solver.
Qed.

(** What hashing and signing an event adds to it. *)
Lemma hash_and_sign_ok entity kp obj rules obj' :
  hash_and_sign_event entity kp obj rules = Ok obj' →
  ∃ h hashes j sigs es,
    let obj1 := obj_insert "hashes"
                  (CObject (obj_insert "sha256" (CString (base64_encode h)) hashes)) obj in
    content_hash obj = Ok h ∧ signed_json obj1 rules = Ok j ∧
    default (CObject []) (obj_get "signatures" obj1) = CObject sigs ∧
    default (CObject []) (obj_get entity sigs) = CObject es ∧
    obj' = obj_insert "signatures" (CObject (obj_insert entity (CObject
             (obj_insert (signature_id kp)
                (CString (base64_encode (ed25519_sign (signing_key kp) j))) es)) sigs)) obj1.
Proof.
  unfold hash_and_sign_event, add_content_hash_to_event, sign_event, insert_signature, signed_json.
  destruct (content_hash obj) as [h|]; [|done].
  destruct (update_object_or_default obj _ _ _) as [obj1|] eqn:Hu1; [|done]. simpl.
  apply update_object_ok in Hu1 as (hashes & ? & _ & [= <-] & ->).
  destruct (redacting_serialize _ _ _) as [j|] eqn:Hj; [|done]. simpl.
  destruct (update_object_or_default _ "signatures" _ _) as [obj2|] eqn:Hu2; [|done].
  apply update_object_ok in Hu2 as (sigs & ? & Hsigs & Hu3 & ->).
  apply update_object_ok in Hu3 as (es & ? & Hes & [= <-] & ->). intros [= <-].
  exists h, hashes, j, sigs, es. cbv zeta. by rewrite Hj.
Qed.

(** An object looked up with a default is well-formed. *)
Lemma default_object_wf obj k o :
  json_wf (CObject obj) = true → default (CObject []) (obj_get k obj) = CObject o →
  json_wf (CObject o) = true.
Proof.
  intros Hobj. destruct (obj_get k obj) as [v|] eqn:Hk; simpl; [intros ->|by intros [= <-]].
  exact (json_wf_get obj k (CObject o) Hobj Hk).
Qed.

Lemma btree_elements_singleton x : btree_elements {[ x ]} = [x].
Proof. unfold btree_elements. by rewrite elements_singleton. Qed.

(** C27. An event that was hashed and signed by its server verifies completely
    with the server's key: its signature is valid and its content hash matches,
    whatever signatures by other keys it already carried. *)
Theorem signed_event_verifies entity kp obj obj' keys rules :
  json_wf (CObject obj) = true →
  hash_and_sign_event entity kp obj (redaction rules) = Ok obj' →
  required_server_signatures_to_verify_event obj (signatures rules) = Ret {[ entity ]} →
  keys !! entity = Some {[ signature_id kp := ed25519_public_key (signing_key kp) ]} →
  starts_char (version kp) = true →
  verify_event keys obj' rules = Ret VerifiedAll.
Proof.
  intros Hwf Hsign Hreq Hkeys Hv.
  apply hash_and_sign_ok in Hsign as (h & hashes & j & sigs & es & Hh & Hj & Hsigs & Hes & ->).
  rewrite obj_get_insert in Hsigs. simpl in Hsigs.
  pose proof (default_object_wf _ _ _ (default_object_wf _ _ _ Hwf Hsigs) Hes) as Hesw.
  apply json_wf_object in Hesw as [Hess _].
  unfold verify_event, get_as_required_object, get_as_object, signed_json in *.
  rewrite !obj_get_insert. simpl. unfold get_as_required_string, get_as_string.
  rewrite obj_get_insert. simpl. rewrite !required_servers_insert, Hreq by done. simpl.
  rewrite redacting_serialize_insert, !content_hash_insert, Hh by done.
  destruct (redacting_serialize (Some (redaction rules)) _ _) as [j'|]; simplify_eq/=.
  rewrite btree_elements_singleton. simpl.
  unfold verify_canonical_json_for_entity, get_as_object.
  rewrite obj_get_insert, String.eqb_refl, (verify_signatures_one _ _ kp) by first
    [ done
    | intros v Hin; apply keys_sorted_get in Hin; [|by apply keys_sorted_insert];
      rewrite obj_get_insert, String.eqb_refl in Hin; congruence ].
  rewrite bool_decide_eq_true_2. 2: {
    apply list_elem_of_fmap. eexists (_, _). split; [done|]. apply obj_get_elem.
    by rewrite obj_get_insert, String.eqb_refl. }
  simpl. by rewrite base64_roundtrip, bool_decide_eq_true_2.
Qed.

End spec.

(** ** The signatures of a redacted event *)

Section redacted.
Context `{!JsonText, !Crypto}.

Lemma verify_entities_iff fetch_key m j entities :
  verify_entities fetch_key m j entities = Ret tt ↔
  ∀ e, e ∈ entities → verify_canonical_json_for_entity e fetch_key m j = Ret tt.
Proof.
  induction entities as [|e entities IH]; simpl.
  - split; [|done]. by intros _ e ?%elem_of_nil.
  - rewrite bind_ret. setoid_rewrite elem_of_cons. setoid_rewrite IH. split.
    + intros ([] & He & Hall) e' [->|?]; auto.
    + intros Hall. exists tt. split; auto.
Qed.

(** The keys a content keeps do not include the authorising user, or keep it as it
    is. *)
Lemma content_keeps_authorising_user ty rules c :
  let k := "join_authorised_via_users_server" in
  let c' := apply_retained (retained_event_content_keys ty rules) rules c in
  obj_get k c' = obj_get k c ∨ obj_get k c' = None.
Proof.
  cbv zeta. unfold retained_event_content_keys, room_create_content_retained_keys,
    room_redaction_content_retained_keys, room_aliases_content_retained_keys.
  repeat case_match; try (by left); try (by right); rewrite obj_get_apply; simpl; auto.
  unfold is_room_member_content_key_retained. simpl.
  destruct (keep_room_member_join_authorised_via_users_server rules); simpl; auto.
Qed.

Lemma content_keeps_membership rules c :
  obj_get "membership" (apply_retained (RetainSome is_room_member_content_key_retained) rules c)
  = obj_get "membership" c.
Proof. by rewrite obj_get_apply. Qed.

Lemma content_adds_no_invite rules c :
  obj_get "third_party_invite" c = None →
  obj_get "third_party_invite" (apply_retained (RetainSome is_room_member_content_key_retained) rules c)
  = None.
Proof. intros Hc. rewrite obj_get_apply, Hc. by destruct (is_room_member_content_key_retained _ _) as [[]|]. Qed.

Context (event event' : CanonicalJsonObject) (rules : RedactionRules)
  (because : option CanonicalJsonObject).
Hypothesis Hredact : redact event rules because = Ok event'.

(** The fields of an event that redaction keeps as they are. *)
Lemma redact_keeps_field k :
  key_in k ["event_id"; "type"; "room_id"; "sender"; "state_key"; "hashes"; "signatures"; "depth";
            "prev_events"; "auth_events"; "origin_server_ts"] = true →
  obj_get k event' = obj_get k event.
Proof.
  intros Hk. apply (redact_keeps _ _ _ _ _ Hredact); [by intros ->|].
  intros ty. unfold retain_event_key. rewrite Hk.
  by destruct (String.eqb_spec k "content") as [->|].
Qed.

Lemma redact_content ty :
  obj_get "type" event = Some (CString ty) →
  obj_get "content" event' =
  redact_child (retained_event_content_keys ty rules) rules <$> obj_get "content" event.
Proof. intros Hty. by rewrite (redact_get _ _ _ _ _ _ Hredact Hty), obj_get_apply by done. Qed.

Lemma redact_invite :
  is_invite_via_third_party_id event = Ret false → is_invite_via_third_party_id event' = Ret false.
Proof.
  destruct (redact_ok _ _ _ _ Hredact) as (ty & Hty & _).
  unfold is_invite_via_third_party_id, get_as_required_string, get_as_required_object,
    get_as_string, get_as_object.
  rewrite (redact_keeps_field "type"), Hty by done. simpl.
  rewrite (redact_content ty Hty). destruct (String.eqb ty "m.room.member") eqn:Hm; simpl; [|done].
  apply String.eqb_eq in Hm as ->.
  change (retained_event_content_keys "m.room.member" rules)
    with (RetainSome is_room_member_content_key_retained).
  destruct (obj_get "content" event) as [[| | | | |c]|]; simpl; try done.
  rewrite (content_keeps_membership rules c).
  destruct (obj_get "membership" c) as [[| | |ms| |]|]; simpl; try done.
  destruct (String.eqb ms "invite"); simpl; [|done].
  destruct (obj_get "third_party_invite" c) as [[]|] eqn:Ht; simpl; try done.
  by rewrite (content_adds_no_invite rules c Ht).
Qed.

Lemma redact_authorised_user :
  authorised_user event' = authorised_user event ∨ authorised_user event' = Ret None.
Proof.
  destruct (redact_ok _ _ _ _ Hredact) as (ty & Hty & _). unfold authorised_user, get_as_string.
  rewrite (redact_content ty Hty).
  destruct (obj_get "content" event) as [[| | | | |c]|]; simpl; try (by left).
  destruct (content_keeps_authorising_user ty rules c) as [Hk|Hk]; rewrite Hk; [by left|by right].
Qed.

Lemma redact_servers sr s :
  is_invite_via_third_party_id event = Ret false →
  required_server_signatures_to_verify_event event sr = Ret s →
  ∃ s', required_server_signatures_to_verify_event event' sr = Ret s' ∧ s' ⊆ s.
Proof.
  intros Hinv. unfold required_server_signatures_to_verify_event.
  rewrite Hinv, (redact_invite Hinv).
  assert (event_id_server event' = event_id_server event) as ->.
  { unfold event_id_server, get_as_required_string, get_as_string.
    by rewrite (redact_keeps_field "event_id"). }
  assert (get_as_required_string event' "sender" "sender"
          = get_as_required_string event "sender" "sender") as ->.
  { unfold get_as_required_string, get_as_string. by rewrite (redact_keeps_field "sender"). }
  cbn beta iota. intros Hs. apply bind_ret in Hs as (s0 & Hs0 & Hs). rewrite Hs0.
  apply bind_ret in Hs as (s1 & Hs1 & Hs). cbn beta iota in *. rewrite Hs1.
  destruct (check_join_authorised_via_users_server sr); [|eauto].
  destruct redact_authorised_user as [->| ->]; [by eauto|]. exists s1. split; [done|].
  apply bind_ret in Hs as ([user|] & _ & Hs); [|by injection Hs as ->].
  apply bind_ret in Hs as (server & _ & [= <-]). set_solver.
Qed.

(** The content hash and the signatures are looked up in kept fields. *)
Lemma redact_keeps_object k path :
  key_in k ["hashes"; "signatures"] = true →
  get_as_required_object event' k path = get_as_required_object event k path.
Proof.
  intros Hk. unfold get_as_required_object, get_as_object. rewrite redact_keeps_field; [done|].
  unfold key_in in *. simpl in *. destruct (String.eqb k "hashes"); [by rewrite !orb_true_r|].
  destruct (String.eqb k "signatures"); [by rewrite !orb_true_r|done].
Qed.

End redacted.

Lemma elem_of_btree_elements (s : gset string) x : x ∈ btree_elements s ↔ x ∈ s.
Proof. unfold btree_elements. by rewrite merge_sort_Permutation, elem_of_elements. Qed.

(** Redacting a verified event keeps it verified: unless it is an invite that
    results from a third-party invite, the servers whose signatures the redacted
    event needs are among those the event needed, and their signatures are valid
    for it too.  Only the content hash may no longer match. *)
Theorem redacted_event_verifies `{!JsonText, !Crypto} keys event rules because event' v h :
  verify_event keys event rules = Ret v →
  is_invite_via_third_party_id event = Ret false →
  redact event (redaction rules) because = Ok event' →
  content_hash event' = Ok h →
  ∃ v', verify_event keys event' rules = Ret v'.
Proof.
  intros Hv Hinv Hr Hh. unfold verify_event, signed_json in *.
  rewrite (redacting_serialize_redact _ _ _ _ _ Hr), !(redact_keeps_object _ _ _ _ Hr) by done.
  apply bind_ret in Hv as (hashes & Hhashes & Hv). rewrite Hhashes.
  apply bind_ret in Hv as (hash & Hhash & Hv). cbn beta iota in *. rewrite Hhash.
  apply bind_ret in Hv as (sigs & Hsigs & Hv). cbn beta iota in *. rewrite Hsigs.
  apply bind_ret in Hv as (s & Hs & Hv).
  destruct (redact_servers _ _ _ _ Hr _ _ Hinv Hs) as (s' & Hs' & Hsub). rewrite Hs'.
  apply bind_ret in Hv as (j & Hj & Hv). cbn beta iota in *. rewrite Hj.
  apply bind_ret in Hv as ([] & Hall & _). cbn beta iota in *.
  rewrite (proj2 (verify_entities_iff _ _ _ _)).
  - rewrite Hh. simpl. eauto.
  - intros e He. apply (proj1 (verify_entities_iff _ _ _ _) Hall).
    apply elem_of_btree_elements, Hsub, elem_of_btree_elements, He.
Qed.

(** ** The sample event, hashed and signed by its server *)

#[local] Existing Instance sample_text.
#[local] Existing Instance sample_crypto.
#[local] Existing Instance sample_crypto_laws.

Definition sample_key : KeyPair := {| signing_key := "secret" : SigningKey; version := "1" |}.

Definition sample_keys : PublicKeyMap := {[ "b.org" := {[ "ed25519:1" := "secret" ]} ]}.

Definition sample_signed : CanonicalJsonObject :=
  match hash_and_sign_event "b.org" sample_key sample_pdu RedactionV11 with
  | Ok o => o
  | Err _ => []
  end.

Definition sample_redacted : CanonicalJsonObject :=
  match redact sample_signed RedactionV11 None with Ok o => o | Err _ => [] end.

Lemma reference_hash_redact_witness :
  reference_hash redacted_pdu RulesV11 = reference_hash sample_pdu RulesV11.
Proof. apply (reference_hash_redact sample_pdu RulesV11 None redacted_pdu). reflexivity. Defined.

Lemma signed_event_verifies_witness :
  verify_event sample_keys sample_signed RulesV11 = Ret VerifiedAll.
Proof.
  apply (signed_event_verifies "b.org" sample_key sample_pdu sample_signed sample_keys RulesV11);
    by_vm.
Defined.

Lemma redacted_event_verifies_witness :
  ∃ v, verify_event sample_keys sample_redacted RulesV11 = Ret v.
Proof.
  apply (redacted_event_verifies sample_keys sample_signed RulesV11 None sample_redacted VerifiedAll
           (match content_hash sample_redacted with Ok h => h | Err _ => EmptyString end)); by_vm.
Defined.
