(* ===== verification/EventFormat.v ===== *)
(** * The format of a PDU ([common-state-res/src/event_format.rs])

    The size limits and field checks a PDU passes on receipt, and the format they
    accept. *)

From S2P Require Import Prelude Identifiers RoomVersionRules CanonicalJson Signatures.

#[local] Open Scope string_scope.

Definition MAX_PREV_EVENTS_LENGTH : nat := 20.
Definition MAX_AUTH_EVENTS_LENGTH : nat := 10.

Section event_format.
Context `{!JsonText}.
Implicit Types (object pdu : CanonicalJsonObject) (rules : EventFormatRules).

(** [extract_optional_string_field] *)
Definition extract_optional_string_field object (field : string) : result string (option string) :=
  match obj_get field object with
  | Some (CString value) =>
      if (ID_MAX_BYTES <? String.length value)%nat
      then Err ("invalid `" +:+ field +:+ "` field in PDU: string length is larger than maximum of 255 bytes")
      else Ok (Some value)
  | Some value => Err ("unexpected format of `" +:+ field +:+ "` field in PDU: expected string, got "
                       +:+ debug_json value)
  | None => Ok None
  end.

(** [extract_required_string_field] *)
Definition extract_required_string_field object (field : string) : result string string :=
  let? value := extract_optional_string_field object field in
  ok_or value ("missing `" +:+ field +:+ "` field in PDU").

(** [extract_required_array_field] *)
Definition extract_required_array_field object (field : string) (max_len : nat)
    : result string (list CanonicalJson) :=
  match obj_get field object with
  | Some (CArray value) =>
      if (max_len <? length value)%nat
      then Err ("invalid `" +:+ field +:+ "` field in PDU: array length is larger than maximum of "
                +:+ pretty max_len)
      else Ok value
  | Some value => Err ("unexpected format of `" +:+ field +:+ "` field in PDU: expected array, got "
                       +:+ debug_json value)
  | None => Err ("missing `" +:+ field +:+ "` field in PDU")
  end.

(** The loop over the auth events: none is the create event of the room. *)
Fixpoint check_no_create (create_hash : string) (auth_events : list CanonicalJson)
    : result string unit :=
  match auth_events with
  | [] => Ok tt
  | CString event_id :: auth_events =>
      match strip_prefix "$" event_id with
      | None => Err "unexpected format of array item in `auth_events` field in PDU: string not beginning with the `$` sigil"
      | Some reference_hash =>
          if String.eqb reference_hash create_hash
          then Err "invalid `auth_events` field in PDU: cannot contain the `m.room.create` event ID"
          else check_no_create create_hash auth_events
      end
  | event_id :: _ =>
      Err ("unexpected format of array item in `auth_events` field in PDU: expected string, got "
           +:+ debug_json event_id)
  end.

(** [check_pdu_format] *)
Definition check_pdu_format pdu rules : result string unit :=
  let? json := map_err (λ e, "Failed to serialize canonical JSON: " +:+ e) (to_json_string pdu) in
  if too_large json then Err "PDU is larger than maximum of {MAX_PDU_BYTES} bytes"
  else
    let? event_type := extract_required_string_field pdu "type" in
    let? _ := extract_required_string_field pdu "sender" in
    let? room_id :=
      if negb (String.eqb event_type "m.room.create") || require_room_create_room_id rules
      then let? r := extract_required_string_field pdu "room_id" in Ok (Some r)
      else Ok None in
    let? _ :=
      if require_event_id rules
      then let? _ := extract_required_string_field pdu "event_id" in Ok tt else Ok tt in
    let? _ := extract_optional_string_field pdu "state_key" in
    let? _ := extract_required_array_field pdu "prev_events" MAX_PREV_EVENTS_LENGTH in
    let? auth_events := extract_required_array_field pdu "auth_events" MAX_AUTH_EVENTS_LENGTH in
    let? _ :=
      if negb (allow_room_create_in_auth_events rules) then
        match room_id with
        | Some room_id =>
            let? _ := map_err (λ e, "invalid `room_id` field in PDU: " +:+ display_id_error e)
                        (room_id_validate room_id) in
            check_no_create (default EmptyString (room_id_strip_sigil room_id)) auth_events
        | None => Ok tt
        end
      else Ok tt in
    match obj_get "depth" pdu with
    | Some (CInteger value) =>
        if (value <? 0)%Z
        then Err "invalid `depth` field in PDU: cannot be a negative integer"
        else Ok tt
    | Some value => Err ("unexpected format of `depth` field in PDU: expected integer, got "
                         +:+ debug_json value)
    | None => Err "missing `depth` field in PDU"
    end.

(** ** The accepted format *)

(** A string of at most 255 bytes, and an array of at most [n] items. *)
Definition short_string pdu (k s : string) : Prop :=
  obj_get k pdu = Some (CString s) ∧ (String.length s ≤ ID_MAX_BYTES)%nat.

Definition short_array pdu (k : string) (n : nat) (l : list CanonicalJson) : Prop :=
  obj_get k pdu = Some (CArray l) ∧ (length l ≤ n)%nat.

(** An event ID, which is not that of the create event of the room [rid]. *)
Definition not_create (rid : string) (v : CanonicalJson) : Prop :=
  ∃ h, v = CString (String "$" h) ∧ rid ≠ String "!" h.

Record pdu_format rules pdu : Prop := {
  format_size : ∃ json, to_json_string pdu = Ok json ∧
    (Z.of_nat (String.length json) ≤ MAX_PDU_BYTES)%Z;
  format_sender : ∃ s, short_string pdu "sender" s;
  format_event_id : require_event_id rules = true → ∃ s, short_string pdu "event_id" s;
  format_state_key : obj_get "state_key" pdu = None ∨ ∃ s, short_string pdu "state_key" s;
  format_prev : ∃ l, short_array pdu "prev_events" MAX_PREV_EVENTS_LENGTH l;
  format_depth : ∃ z, obj_get "depth" pdu = Some (CInteger z) ∧ (0 ≤ z)%Z;
  format_room : ∃ ty auth, short_string pdu "type" ty ∧
    short_array pdu "auth_events" MAX_AUTH_EVENTS_LENGTH auth ∧
    (ty ≠ "m.room.create" ∨ require_room_create_room_id rules = true →
     ∃ rid, short_string pdu "room_id" rid ∧
       (allow_room_create_in_auth_events rules = false →
        room_id_validate rid = Ok tt ∧ Forall (not_create rid) auth))
}.

Lemma let_ok {E A B} (e : result E A) (k : A → result E B) b :
  (let? x := e in k x) = Ok b ↔ ∃ x, e = Ok x ∧ k x = Ok b.
Proof. destruct e; naive_solver. Qed.

Lemma extract_optional_ok object k o :
  extract_optional_string_field object k = Ok o ↔
  match o with Some s => short_string object k s | None => obj_get k object = None end.
Proof.
  unfold extract_optional_string_field, short_string.
  destruct (obj_get k object) as [[| | |s| |]|] eqn:Hk; try (destruct o; naive_solver).
  destruct (Nat.ltb_spec ID_MAX_BYTES (String.length s)); destruct o; naive_solver lia.
Qed.

Lemma extract_required_ok object k s :
  extract_required_string_field object k = Ok s ↔ short_string object k s.
Proof.
  unfold extract_required_string_field. rewrite let_ok. setoid_rewrite extract_optional_ok. split.
  - intros ([s'|] & Hs & [= ->]). done.
  - intros Hs. by exists (Some s).
Qed.

Lemma extract_array_ok object k n l :
  extract_required_array_field object k n = Ok l ↔ short_array object k n l.
Proof.
  unfold extract_required_array_field, short_array.
  destruct (obj_get k object) as [[| | | |a|]|] eqn:Hk; try naive_solver.
  destruct (Nat.ltb_spec n (length a)); naive_solver lia.
Qed.

Lemma strip_prefix_one c s h : strip_prefix (String c EmptyString) s = Some h ↔ s = String c h.
Proof.
  destruct s as [|a s]; simpl; [done|]. destruct (Ascii.eqb_spec c a) as [->|]; [|naive_solver].
  destruct s; naive_solver.
Qed.

Lemma check_no_create_ok create_hash l :
  check_no_create create_hash l = Ok tt ↔ Forall (not_create (String "!" create_hash)) l.
Proof.
  induction l as [|v l IH]; [by split|]. cbn [check_no_create]. rewrite Forall_cons, <- IH. unfold not_create.
  destruct v as [| | |s| |]; try naive_solver.
  destruct (strip_prefix "$" s) as [h|] eqn:Hs.
  - apply strip_prefix_one in Hs as ->. destruct (String.eqb_spec h create_hash) as [->|Hne].
    + split; [done|]. intros [(h & [= <-] & Hn) _]. by destruct Hn.
    + split; [|by intros [_ ?]]. intros Hl. split; [|done]. exists h. split; [done|].
      intros [= <-]. done.
  - split; [done|]. intros [(h & [= ->] & _) _]. by rewrite (proj2 (strip_prefix_one _ _ h)) in Hs.
Qed.

Lemma room_id_sigil rid : room_id_validate rid = Ok tt → ∃ h, rid = String "!" h.
Proof.
  unfold room_id_validate, validate_id. intros Hr. apply let_ok in Hr as ([] & Hv & _).
  case_match; [done|]. destruct rid as [|c rid]; [done|]. simpl in Hv.
  destruct (Ascii.eqb_spec c "!") as [->|]; [by exists rid|done].
Qed.

(** The room ID of an event that needs one, and the auth events against it. *)
Lemma check_room_ok rules rid auth :
  (if negb (allow_room_create_in_auth_events rules) then
     let? _ := map_err (λ e, "invalid `room_id` field in PDU: " +:+ display_id_error e)
                 (room_id_validate rid) in
     check_no_create (default EmptyString (room_id_strip_sigil rid)) auth
   else Ok tt) = Ok tt ↔
  (allow_room_create_in_auth_events rules = false →
   room_id_validate rid = Ok tt ∧ Forall (not_create rid) auth).
Proof.
  destruct (allow_room_create_in_auth_events rules); simpl; [by split|]. rewrite let_ok. split.
  - intros (x & Hx & Hc) _. destruct (room_id_validate rid) as [[]|] eqn:Hv; [|done].
    split; [done|]. destruct (room_id_sigil rid Hv) as [h ->]. revert Hc.
    unfold room_id_strip_sigil. rewrite (proj2 (strip_prefix_one "!" _ h)) by done.
    apply check_no_create_ok.
  - intros Hok. destruct (Hok eq_refl) as [Hv Hall]. rewrite Hv. exists tt. split; [done|].
    destruct (room_id_sigil rid Hv) as [h ->]. unfold room_id_strip_sigil.
    rewrite (proj2 (strip_prefix_one "!" _ h)) by done. by apply check_no_create_ok.
Qed.

Lemma pdu_format_of_check pdu rules : check_pdu_format pdu rules = Ok tt → pdu_format rules pdu.
Proof.
  unfold check_pdu_format, too_large.
  intros Hc. apply let_ok in Hc as (js & Hjs & Hc).
  destruct (Z.ltb_spec MAX_PDU_BYTES (Z.of_nat (String.length js))); [done|].
  apply let_ok in Hc as (ty & Hty%extract_required_ok & Hc).
  apply let_ok in Hc as (snd & Hsnd%extract_required_ok & Hc).
  apply let_ok in Hc as (rid & Hrid & Hc). apply let_ok in Hc as (u & Hid & Hc).
  apply let_ok in Hc as (sk & Hsk%extract_optional_ok & Hc).
  apply let_ok in Hc as (prev & Hprev%extract_array_ok & Hc).
  apply let_ok in Hc as (auth & Hauth%extract_array_ok & Hc).
  apply let_ok in Hc as ([] & Hroom & Hc). split.
  - destruct (to_json_string pdu); simplify_eq/=. eauto.
  - eauto.
  - intros Hreq. rewrite Hreq in Hid. apply let_ok in Hid as (s & Hs%extract_required_ok & _). eauto.
  - destruct sk; eauto.
  - eauto.
  - destruct (obj_get "depth" pdu) as [[| |z| | |]|]; try done.
    destruct (Z.ltb_spec z 0); [done|eauto].
  - exists ty, auth. split_and!; [done..|]. intros Hneed.
    destruct (negb (String.eqb ty "m.room.create") || require_room_create_room_id rules) eqn:Hb.
    + apply let_ok in Hrid as (r & Hr%extract_required_ok & [= <-]). exists r.
      split; [done|]. by apply check_room_ok.
    + apply orb_false_iff in Hb as [Hb1 Hb2]. rewrite negb_false_iff, String.eqb_eq in Hb1.
      destruct Hneed; congruence.
Qed.

Lemma check_of_pdu_format pdu rules : pdu_format rules pdu → check_pdu_format pdu rules = Ok tt.
Proof.
  intros [(js & Hjs & Hlen) (snd & Hsnd) Hid Hsk (prev & Hprev) (z & Hz & Hpos)
          (ty & auth & Hty & Hauth & Hroom)]. unfold check_pdu_format, too_large. rewrite Hjs. simpl.
  destruct (Z.ltb_spec MAX_PDU_BYTES (Z.of_nat (String.length js))); [lia|].
  rewrite (proj2 (extract_required_ok _ _ _) Hty), (proj2 (extract_required_ok _ _ _) Hsnd).
  rewrite (proj2 (extract_array_ok _ _ _ _) Hprev), (proj2 (extract_array_ok _ _ _ _) Hauth).
  assert (∃ o, extract_optional_string_field pdu "state_key" = Ok o) as (o & ->).
  { setoid_rewrite extract_optional_ok. destruct Hsk as [?|[s ?]]; [by exists None|by exists (Some s)]. }
  rewrite Hz. destruct (Z.ltb_spec z 0); [lia|].
  apply let_ok. destruct (negb (String.eqb ty "m.room.create") || require_room_create_room_id rules) eqn:Hb.
  - destruct Hroom as (rid & Hrid & Hr).
    { apply orb_true_iff in Hb as [Hb|Hb]; [left|by right]. by apply negb_true_iff, String.eqb_neq in Hb. }
    exists (Some rid). rewrite (proj2 (extract_required_ok _ _ _) Hrid). split; [done|].
    apply check_room_ok in Hr. rewrite Hr. destruct (require_event_id rules); [|done].
    destruct Hid as [s Hs]; [done|]. by rewrite (proj2 (extract_required_ok _ _ _) Hs).
  - exists None. split; [done|]. rewrite Tauto.if_same. destruct (require_event_id rules); [|done].
    destruct Hid as [s Hs]; [done|]. by rewrite (proj2 (extract_required_ok _ _ _) Hs).
Qed.

(** The PDU format check accepts exactly the PDUs of the format of the room
    version: at most 65535 bytes of JSON, identifiers of at most 255 bytes where
    they are required, at most 20 previous and 10 auth events, a depth that is not
    negative, and, where the room ID names the create event, auth events that are
    event IDs other than that one. *)
Theorem check_pdu_format_iff pdu rules : check_pdu_format pdu rules = Ok tt ↔ pdu_format rules pdu.
Proof. split; [apply pdu_format_of_check|apply check_of_pdu_format]. Qed.

End event_format.
