(* ===== verification/Bytes.v ===== *)
(** * Byte strings

    Bytes, machine integers as big-endian bytes, UTF-8, and the lexicographic order
    of byte strings, with the lemmas that the byte formats share. *)

From Stdlib Require Export Strings.Byte.
From S2P Require Import Prelude.

Abbreviation bytes := (list Byte.byte).

#[export] Instance byte_eq_dec : EqDecision Byte.byte := Byte.byte_eq_dec.

(** ** Machine integers as bytes *)

Definition byte_val (b : Byte.byte) : Z := Z.of_N (Byte.to_N b).

Definition byte_of (z : Z) : Byte.byte :=
  match Byte.of_N (Z.to_N (z mod 256)) with Some b => b | None => x00 end.

(** [to_be_bytes] of a [w]-byte integer, and the value of big-endian bytes. *)
Fixpoint to_be_bytes (w : nat) (z : Z) : bytes :=
  match w with
  | 0 => []
  | S w => byte_of (z / 256 ^ Z.of_nat w) :: to_be_bytes w z
  end.

Definition u_from_be_bytes (bs : bytes) : Z :=
  fold_left (λ acc b, acc * 256 + byte_val b)%Z bs 0%Z.

(** Two's complement of a [w]-byte integer. *)
Definition i_from_be_bytes (w : nat) (bs : bytes) : Z :=
  let u := u_from_be_bytes bs in
  if (u <? 2 ^ (8 * Z.of_nat w - 1))%Z then u else (u - 2 ^ (8 * Z.of_nat w))%Z.

(** ** UTF-8

    [str::from_utf8], as the automaton of well-formed byte sequences: how many
    continuation bytes are due, and the range of the next one. *)
Inductive utf8_state :=
| Boundary
| Due (more : nat) (lo hi : Z).

Definition utf8_step (st : utf8_state) (b : Byte.byte) : option utf8_state :=
  let z := byte_val b in
  let within lo hi := ((lo <=? z) && (z <=? hi))%Z in
  match st with
  | Boundary =>
      if within 0x00 0x7F then Some Boundary
      else if within 0xC2 0xDF then Some (Due 0 0x80 0xBF)
      else if within 0xE0 0xE0 then Some (Due 1 0xA0 0xBF)
      else if within 0xED 0xED then Some (Due 1 0x80 0x9F)
      else if within 0xE1 0xEF then Some (Due 1 0x80 0xBF)
      else if within 0xF0 0xF0 then Some (Due 2 0x90 0xBF)
      else if within 0xF1 0xF3 then Some (Due 2 0x80 0xBF)
      else if within 0xF4 0xF4 then Some (Due 2 0x80 0x8F)
      else None
  | Due more lo hi =>
      if within lo hi then
        Some (match more with 0%nat => Boundary | S more => Due more 0x80 0xBF end)
      else None
  end%Z.

Fixpoint utf8_run (st : utf8_state) (bs : bytes) : bool :=
  match bs with
  | [] => match st with Boundary => true | Due _ _ _ => false end
  | b :: bs => match utf8_step st b with Some st => utf8_run st bs | None => false end
  end.

Definition utf8_valid (bs : bytes) : bool := utf8_run Boundary bs.

(** ** Lemmas *)

Lemma byte_val_bound b : (0 <= byte_val b < 256)%Z.
Proof.
  unfold byte_val. pose proof (Byte.to_N_bounded b). lia.
Qed.

Lemma byte_val_of z : byte_val (byte_of z) = (z mod 256)%Z.
Proof.
  unfold byte_val, byte_of. pose proof (Z.mod_pos_bound z 256 ltac:(lia)) as Hz.
  destruct (Byte.of_N (Z.to_N (z mod 256))) as [b|] eqn:Hb.
  - apply Byte.to_of_N in Hb. rewrite Hb. lia.
  - apply Byte.of_N_None_iff in Hb. lia.
Qed.

#[export] Instance byte_val_inj : Inj (=) (=) byte_val.
Proof.
  intros a b Hab. apply N2Z.inj in Hab.
  assert (Some a = Some b) by (rewrite <- !Byte.of_to_N; congruence). congruence.
Qed.

Lemma length_to_be_bytes w z : length (to_be_bytes w z) = w.
Proof. induction w; simpl; congruence. Qed.

Lemma u_from_be_bytes_cons b bs :
  u_from_be_bytes (b :: bs) = (byte_val b * 256 ^ Z.of_nat (length bs) + u_from_be_bytes bs)%Z.
Proof.
  unfold u_from_be_bytes. cbn [fold_left].
  assert (∀ acc, fold_left (λ acc b, acc * 256 + byte_val b)%Z bs acc
    = (acc * 256 ^ Z.of_nat (length bs) + fold_left (λ acc b, acc * 256 + byte_val b)%Z bs 0)%Z) as ->; [|lia].
  induction bs as [|c bs IH]; intros acc; [cbn; lia|]. cbn [fold_left].
  rewrite IH, (IH (0 * 256 + byte_val c)%Z). cbn [length].
  rewrite Nat2Z.inj_succ, Z.pow_succ_r by lia. lia.
Qed.

Lemma u_from_be_bytes_bound bs : (0 <= u_from_be_bytes bs < 256 ^ Z.of_nat (length bs))%Z.
Proof.
  induction bs as [|c bs IH]; [cbn; lia|]. rewrite u_from_be_bytes_cons. cbn [length].
  rewrite Nat2Z.inj_succ, Z.pow_succ_r by lia. pose proof (byte_val_bound c). nia.
Qed.

Lemma u_from_to_be_bytes w z : u_from_be_bytes (to_be_bytes w z) = (z mod 256 ^ Z.of_nat w)%Z.
Proof.
  induction w as [|w IH]; [by rewrite Z.mod_1_r|]. cbn [to_be_bytes].
  rewrite u_from_be_bytes_cons, length_to_be_bytes, IH, byte_val_of.
  rewrite Nat2Z.inj_succ, Z.pow_succ_r, (Z.mul_comm 256), Z.rem_mul_r by lia. lia.
Qed.

Lemma u64_round_trip z : (0 <= z < 2 ^ 64)%Z → u_from_be_bytes (to_be_bytes 8 z) = z.
Proof. intros Hz. rewrite u_from_to_be_bytes. apply Z.mod_small. done. Qed.

Lemma i64_round_trip z :
  (- 2 ^ 63 <= z < 2 ^ 63)%Z → i_from_be_bytes 8 (to_be_bytes 8 z) = z.
Proof.
  intros Hz. unfold i_from_be_bytes. rewrite u_from_to_be_bytes.
  change (256 ^ Z.of_nat 8)%Z with (2 ^ 64)%Z. change (8 * Z.of_nat 8)%Z with 64%Z.
  destruct (decide (0 <= z)%Z).
  - rewrite Z.mod_small by lia. destruct (Z.ltb_spec z (2 ^ (64 - 1))); lia.
  - rewrite <- (Z.mod_add z 1) by lia. rewrite Z.mod_small by lia.
    destruct (Z.ltb_spec (z + 1 * 2 ^ 64) (2 ^ (64 - 1))); lia.
Qed.

#[global] Arguments to_be_bytes : simpl never.

(** The order of byte strings, as a store compares its keys. *)
Fixpoint bytes_cmp (a b : bytes) : comparison :=
  match a, b with
  | [], [] => Eq
  | [], _ => Lt
  | _, [] => Gt
  | x :: a, y :: b => cmp_then (Z.compare (byte_val x) (byte_val y)) (bytes_cmp a b)
  end.

Lemma bytes_cmp_app a b a' b' :
  length a = length b → bytes_cmp (a ++ a') (b ++ b') = cmp_then (bytes_cmp a b) (bytes_cmp a' b').
Proof.
  revert b. induction a as [|x a IH]; intros [|y b] Hl; try done. simpl.
  rewrite IH by (simpl in Hl; lia). by destruct (byte_val x ?= byte_val y)%Z.
Qed.

(** Equally long byte strings compare as the numbers they write. *)
Lemma bytes_cmp_value a b :
  length a = length b → bytes_cmp a b = Z.compare (u_from_be_bytes a) (u_from_be_bytes b).
Proof.
  revert b. induction a as [|x a IH]; intros [|y b] Hl; try done. simpl in Hl.
  cbn [bytes_cmp]. rewrite IH, !u_from_be_bytes_cons by lia.
  replace (length b) with (length a) by lia.
  pose proof (u_from_be_bytes_bound a). pose proof (u_from_be_bytes_bound b). replace (length b) with (length a) in * by lia.
  destruct (Z.compare_spec (byte_val x) (byte_val y)) as [->|Hxy|Hxy]; simpl.
  - symmetry. rewrite Z.add_compare_mono_l. done.
  - symmetry. apply Z.compare_lt_iff. nia.
  - symmetry. apply Z.compare_gt_iff. nia.
Qed.

