(* ===== verification/StoreCodec.v ===== *)
(** * The record codec of the key-value store

    The Serde format of [crates/server-store-codec]: the serializer of [ser.rs],
    the deserializer of [de.rs] and their errors.  A value is the sequence of
    Serde calls its [Serialize] makes; a type is the sequence of Serde calls its
    [Deserialize] makes.  The flag [debug] is [cfg!(debug_assertions)]: a failed
    [debug_assert!] panics when it is set and does nothing otherwise.  The JSON
    that [Json] delegates to is a parameter. *)

From S2P Require Import Prelude Bytes.

(** ** The JSON format that [Json] delegates to

    [serde_json] on the wrapped values: their Rust types, their texts, and the
    entry points of its deserializer that the codec calls. *)
Inductive json_call := JWhole | JMap | JStruct | JSeq.

Class SerdeJson : Type := {
  json_value : Type;
  json_ty : Type;
  json_error : Type;
  (** the wrapped value is a [Box<RawValue>] *)
  json_is_raw : json_value → bool;
  json_to_writer : json_value → result json_error bytes;
  json_from_slice : json_call → json_ty → bytes → result json_error json_value;
  (** [visit_str] of the visitor of a [serde_json::Value] *)
  json_of_str : bytes → json_value
}.

(** ** Errors *)

(** The messages of [SerdeDe], by what they report. *)
Inductive de_message `{!SerdeJson} :=
| Underflow (type : string)
| InvalidUtf8 (input : bytes)
| InvalidLength (len : nat)
| JsonPayload (e : json_error)
| TrailingBytes (remain : nat).

Inductive Error `{!SerdeJson} :=
| SerdeSer (e : json_error)
| SerdeDe (message : de_message)
| Json (e : json_error)
| Capacity
| Arithmetic.

(** ** Values

    One constructor per method of [serde::Serializer].  The methods the codec
    does not implement panic before they look at their arguments. *)
Inductive value `{!SerdeJson} :=
| VBool | VI8 | VI16 | VU16 | VF32 | VF64 | VUnit
| VUnitVariant | VNewtypeVariant | VTupleVariant | VMap | VStruct | VStructVariant
| VI32 (z : Z) | VI64 (z : Z) | VU8 (z : Z) | VU32 (z : Z) | VU64 (z : Z)
| VChar (c : bytes) | VStr (s : bytes) | VBytes (bs : bytes)
| VNone | VSome (v : value)
| VUnitStruct (name : string)
| VJson (j : json_value)
| VNewtypeStruct (name : string) (v : value)
| VSeq (vs : list value)
| VTuple (vs : list value)
| VTupleStruct (name : string) (vs : list value).

Definition SEP : Byte.byte := xff.

Section codec.
Context `{!SerdeJson} (debug : bool).

Abbreviation M := (outcome Error).

Definition debug_assert (b : bool) : M () :=
  if debug && negb b then Panic else Ret ().

(** [unhandled!] *)
Definition unhandled {A} : M A := Panic.

(** ** The serializer *)

Record Serializer := { out : bytes; depth : Z; sep : bool; fin : bool }.

Definition set_sep (b : bool) (s : Serializer) : Serializer :=
  {| out := out s; depth := depth s; sep := b; fin := fin s |}.

Definition set_depth (d : Z) (s : Serializer) : Serializer :=
  {| out := out s; depth := if debug then d else depth s; sep := sep s; fin := fin s |}.

Definition write (bs : bytes) (s : Serializer) : M Serializer :=
  Ret {| out := out s ++ bs; depth := depth s; sep := sep s; fin := fin s |}.

(** [u32::saturating_add(1)] and [u32::saturating_sub(1)] *)
Definition deeper (d : Z) : Z := Z.min (2 ^ 32 - 1) (d + 1).
Definition shallower (d : Z) : Z := Z.max 0 (d - 1).

Definition sequence_start (s : Serializer) : M Serializer :=
  let! _ := debug_assert (negb (fin s)) in
  Ret (set_sep false (set_depth (deeper (depth s)) s)).

Definition sequence_end (s : Serializer) : M Serializer :=
  Ret (set_sep false (set_depth (shallower (depth s)) s)).

Definition tuple_start (s : Serializer) : M Serializer :=
  let! _ := debug_assert (negb (sep s)) in
  sequence_start s.

Definition tuple_end (s : Serializer) : M Serializer := sequence_end s.

Definition separator (s : Serializer) : M Serializer :=
  let! _ := debug_assert (negb (fin s)) in
  write [SEP] s.

Definition record_start (s : Serializer) : M Serializer :=
  let! _ := debug_assert (negb (fin s)) in
  if sep s then separator (set_sep true s) else Ret (set_sep true s).

Definition set_finalized (s : Serializer) : M Serializer :=
  let! _ := debug_assert (negb (fin s)) in
  Ret {| out := out s; depth := depth s; sep := sep s; fin := if debug then true else fin s |}.

Definition serialize_bytes (bs : bytes) (s : Serializer) : M Serializer :=
  let! _ := debug_assert (0 <? depth s)%Z in
  let! s := write bs s in
  Ret (set_sep true s).

Definition serialize_str (v : bytes) (s : Serializer) : M Serializer :=
  let! _ := debug_assert (0 <? depth s)%Z in
  serialize_bytes v s.

(** [serialize_u8] to [serialize_i64] *)
Definition serialize_int (w : nat) (z : Z) (s : Serializer) : M Serializer :=
  let! s := write (to_be_bytes w z) s in
  Ret (set_sep false s).

Definition serialize_unit_struct (name : string) (s : Serializer) : M Serializer :=
  if bool_decide (name = "Interfix"%string) then set_finalized s
  else if bool_decide (name = "Separator"%string) then separator s
  else unhandled.

Definition serialize_json (j : json_value) (s : Serializer) : M Serializer :=
  let! _ := debug_assert (negb (json_is_raw j)) in
  match json_to_writer j with
  | Ok bs => write bs s
  | Err e => Throw (Json e)
  end.

Section elements.
Variable serialize_value : value → Serializer → M Serializer.

(** [SerializeSeq::serialize_element] and [SerializeTuple::serialize_element] *)
Definition seq_element (v : value) (s : Serializer) : M Serializer :=
  let! s := record_start s in
  serialize_value v s.

Definition tuple_element (v : value) (s : Serializer) : M Serializer :=
  let! s := record_start s in
  let! s := serialize_value v s in
  Ret (set_sep true s).

Fixpoint seq_elements (vs : list value) (s : Serializer) : M Serializer :=
  match vs with
  | [] => Ret s
  | v :: vs => let! s := seq_element v s in seq_elements vs s
  end.

Fixpoint tuple_elements (vs : list value) (s : Serializer) : M Serializer :=
  match vs with
  | [] => Ret s
  | v :: vs => let! s := tuple_element v s in tuple_elements vs s
  end.

End elements.

(** [Serialize::serialize] of a value into the codec's [ser::Serializer]. *)
Fixpoint serialize_value (v : value) (s : Serializer) : M Serializer :=
  match v with
  | VBool | VI8 | VI16 | VU16 | VF32 | VF64 | VUnit
  | VUnitVariant | VNewtypeVariant | VTupleVariant | VMap | VStruct | VStructVariant => unhandled
  | VI32 z | VU32 z => serialize_int 4 z s
  | VI64 z | VU64 z => serialize_int 8 z s
  | VU8 z => serialize_int 1 z s
  | VChar c => serialize_str c s
  | VStr v => serialize_str v s
  | VBytes bs => serialize_bytes bs s
  | VNone => Ret s
  | VSome v => serialize_value v s
  | VUnitStruct name => serialize_unit_struct name s
  | VJson j => serialize_json j s
  | VNewtypeStruct _ _ => unhandled
  | VSeq vs =>
      let! s := sequence_start s in
      let! s := seq_elements serialize_value vs s in
      sequence_end s
  | VTuple vs | VTupleStruct _ vs =>
      let! s := tuple_start s in
      let! s := tuple_elements serialize_value vs s in
      tuple_end s
  end.

(** [serialize] into a [Vec<u8>] that holds [buf]; the error is reported as the
    text of the one it wraps. *)
Definition serialize (buf : bytes) (val : value) : M bytes :=
  match serialize_value val {| out := buf; depth := 0; sep := false; fin := false |} with
  | Ret s => let! _ := debug_assert (depth s =? 0)%Z in Ret (out s)
  | Throw (Json e) => Throw (SerdeSer e)
  | Throw e => Throw e
  | Panic => Panic
  | OutOfFuel => OutOfFuel
  end.

Definition serialize_to_vec (val : value) : M bytes := serialize [] val.

(** ** Types

    One constructor per method of [serde::Deserializer] that the codec is asked
    for.  [TNewtypeStruct] is a newtype other than [Json] and the private one of
    [RawValue]. *)
Inductive ty :=
| TBool | TI8 | TI16 | TI32 | TU8 | TU16 | TU32 | TF32 | TF64 | TChar
| TByteBuf | TUnit | TIgnoredAny | TEnum
| TI64 | TU64 | TStr | TString | TBytes
| TOption (t : ty)
| TSeq (t : ty)
| TTuple (ts : list ty)
| TTupleStruct (name : string) (ts : list ty)
| TUnitStruct (name : string)
| TJson (j : json_ty)
| TNewtypeStruct (t : ty)
| TMap (j : json_ty)
| TStruct (j : json_ty)
| TAny (j : json_ty).

(** ** The deserializer *)

Record Deserializer := { buf : bytes; pos : nat; rec : nat; seq : nat }.

(** [&self.buf[self.pos..]] *)
Definition rest (d : Deserializer) : bytes := drop (pos d) (buf d).

Definition inc_pos (n : nat) (d : Deserializer) : M Deserializer :=
  let d := {| buf := buf d; pos := pos d + n; rec := rec d; seq := seq d |} in
  let! _ := debug_assert (pos d <=? length (buf d)) in
  Ret d.

Definition inc_rec (n : nat) (d : Deserializer) : Deserializer :=
  {| buf := buf d; pos := pos d; rec := rec d + n; seq := seq d |}.

Definition remaining (d : Deserializer) : M nat :=
  if length (buf d) <? pos d then Throw Arithmetic else Ret (length (buf d) - pos d).

(** Slicing out of range panics. *)
Definition finished (d : Deserializer) : M () :=
  if length (buf d) <? pos d then Panic else
  let unparsed := rest d in
  let! remain := remaining d in
  let trailing_sep := (remain =? 1) && bool_decide (head unparsed = Some SEP) in
  if (remain =? 0) || trailing_sep then Ret () else Throw (SerdeDe (TrailingBytes remain)).

Definition de_sequence_start (len : nat) (d : Deserializer) : M Deserializer :=
  let! _ := debug_assert (seq d =? 0) in
  Ret {| buf := buf d; pos := pos d; rec := rec d; seq := len |}.

(** The bytes up to the first separator. *)
Fixpoint first_record (bs : bytes) : bytes :=
  match bs with
  | [] => []
  | b :: bs => if bool_decide (b = SEP) then [] else b :: first_record bs
  end.

Definition record_next (d : Deserializer) : M (bytes * Deserializer) :=
  if length (buf d) <? pos d then Panic else
  let record := first_record (rest d) in
  let! d := inc_pos (length record) d in
  Ret (record, d).

Definition record_trail (d : Deserializer) : M (bytes * Deserializer) :=
  if length (buf d) <? pos d then Panic else
  let record := rest d in
  let! d := inc_pos (length record) d in
  Ret (record, d).

Definition record_ignore_all (d : Deserializer) : M Deserializer :=
  let! (_, d) := record_trail d in Ret d.

Definition record_ignore (d : Deserializer) : M Deserializer :=
  if 0 <? seq d then let! (_, d) := record_next d in Ret d
  else record_ignore_all d.

Definition started (d : Deserializer) : bool := negb (pos d =? 0) || (0 <? rec d).

Definition record_peek_byte (d : Deserializer) : M (option Byte.byte) :=
  if length (buf d) <? pos d then Panic else
  let bs := rest d in
  let! _ :=
    if debug && started d then
      match bs with [] => Panic | b :: _ => debug_assert (bool_decide (b = SEP)) end
    else Ret () in
  Ret (bs !! Nat.b2n (started d)).

Definition de_record_start (d : Deserializer) : M Deserializer :=
  let input_done := length (buf d) <=? pos d in
  let output_done := seq d <=? rec d in
  let incomplete := input_done && negb output_done in
  let! _ := debug_assert (negb (started d) || incomplete || bool_decide (buf d !! pos d = Some SEP)) in
  let! d := inc_pos (Nat.b2n (started d && negb incomplete)) d in
  Ret (inc_rec 1 d).

Definition str_from_bytes (bs : bytes) : M bytes :=
  if utf8_valid bs then Ret bs else Throw (SerdeDe (InvalidUtf8 bs)).

(** The eight bytes of [deserialize_i64] and [deserialize_u64]. *)
Definition take_word (type : string) (d : Deserializer) : M (bytes * Deserializer) :=
  let stop := min (pos d + 8) (length (buf d)) in
  if stop <? pos d then Panic else
  let word := take (stop - pos d) (rest d) in
  if length word =? 8 then let! d := inc_pos 8 d in Ret (word, d)
  else Throw (SerdeDe (Underflow type)).

Definition of_json (e : result json_error json_value) (d : Deserializer) :
    M (value * Deserializer) :=
  match e with Ok j => Ret (VJson j, d) | Err e => Throw (Json e) end.

(** [DeserializeSeed::deserialize] *)
Abbreviation seed := (Deserializer → M (value * Deserializer)).

(** [SeqAccess::next_element_seed] *)
Definition next_element (deserialize : seed) (d : Deserializer) : M (option value * Deserializer) :=
  let finished := length (buf d) <=? pos d in
  let complete := seq d <=? rec d in
  if finished && complete then Ret (None, d)
  else
    let! d := de_record_start d in
    let! (v, d) := deserialize d in
    Ret (Some v, d).

(** The visitor of a [Vec], which asks for elements until there are none; [fuel]
    bounds their number. *)
Fixpoint visit_vec (deserialize : seed) (fuel : nat) (d : Deserializer) : M (list value * Deserializer) :=
  match fuel with
  | 0 => OutOfFuel
  | S fuel =>
      let! (v, d) := next_element deserialize d in
      match v with
      | None => Ret ([], d)
      | Some v => let! (vs, d) := visit_vec deserialize fuel d in Ret (v :: vs, d)
      end
  end.

Section visit_tuple.
Variable deserialize : ty → seed.

(** The visitor of a tuple, which asks for its elements in turn. *)
Fixpoint visit_tuple (ts : list ty) (len : nat) (d : Deserializer) : M (list value * Deserializer) :=
  match ts with
  | [] => Ret ([], d)
  | t :: ts =>
      let! (v, d) := next_element (deserialize t) d in
      match v with
      | None => Throw (SerdeDe (InvalidLength len))
      | Some v => let! (vs, d) := visit_tuple ts (S len) d in Ret (v :: vs, d)
      end
  end.

End visit_tuple.

(** [Deserialize::deserialize] of a type from the codec's [de::Deserializer]. *)
Fixpoint deserialize (t : ty) (d : Deserializer) : M (value * Deserializer) :=
  match t with
  | TBool | TI8 | TI16 | TI32 | TU8 | TU16 | TU32 | TF32 | TF64 | TChar
  | TByteBuf | TUnit | TIgnoredAny | TEnum => unhandled
  | TI64 =>
      let! (word, d) := take_word "i64" d in
      Ret (VI64 (i_from_be_bytes 8 word), d)
  | TU64 =>
      let! (word, d) := take_word "u64" d in
      Ret (VU64 (u_from_be_bytes word), d)
  | TStr | TString =>
      let! (input, d) := record_next d in
      let! s := str_from_bytes input in
      Ret (VStr s, d)
  | TBytes =>
      let! (input, d) := record_trail d in
      Ret (VBytes input, d)
  | TOption t =>
      if bool_decide (buf d !! pos d = None ∨ buf d !! pos d = Some SEP) then Ret (VNone, d)
      else
        let! (v, d) := deserialize t d in
        Ret (VSome v, d)
  | TSeq t =>
      let! d := de_sequence_start 1 d in
      let! (vs, d) := visit_vec (deserialize t) (S (S (length (buf d)))) d in
      Ret (VSeq vs, d)
  | TTuple ts =>
      let! d := de_sequence_start (length ts) d in
      let! (vs, d) := visit_tuple deserialize ts 0 d in
      Ret (VTuple vs, d)
  | TTupleStruct name ts =>
      let! d := de_sequence_start (length ts) d in
      let! (vs, d) := visit_tuple deserialize ts 0 d in
      Ret (VTupleStruct name vs, d)
  | TUnitStruct name =>
      let! d :=
        if bool_decide (name = "Ignore"%string) then record_ignore d
        else if bool_decide (name = "IgnoreAll"%string) then record_ignore_all d
        else unhandled in
      Ret (VUnitStruct name, d)
  | TJson j =>
      let! (input, d) := record_trail d in
      match json_from_slice JWhole j input with
      | Ok j => Ret (VJson j, d)
      | Err e => Throw (SerdeDe (JsonPayload e))
      end
  | TNewtypeStruct t => deserialize t d
  | TMap j =>
      let! (input, d) := record_next d in
      of_json (json_from_slice JMap j input) d
  | TStruct j =>
      let! (input, d) := record_next d in
      of_json (json_from_slice JStruct j input) d
  | TAny j =>
      let! b := record_peek_byte d in
      if bool_decide (b = Some x7b) then
        let! (input, d) := record_next d in
        of_json (json_from_slice JMap j input) d
      else if bool_decide (b = Some x5b) then
        let! (input, d) := record_next d in
        of_json (json_from_slice JSeq j input) d
      else
        let! (input, d) := record_next d in
        let! s := str_from_bytes input in
        Ret (VJson (json_of_str s), d)
  end.

(** [from_slice]; the debug assertion evaluates [finished]. *)
Definition from_slice (t : ty) (input : bytes) : M value :=
  let! (v, d) := deserialize t {| buf := input; pos := 0; rec := 0; seq := 0 |} in
  let! _ :=
    if debug then match finished d with Ret _ => Ret () | _ => Panic end else Ret () in
  Ret v.

End codec.
