(* ===== verification/StoreCodecSpec.v ===== *)
(** * Correctness of the record codec

    The bytes of a record, the round trip of typed tuples, the exactness of
    prefix scans, the order of encoded integers, the cursor invariant of the
    deserializer with its termination, and the agreement of debug and release
    builds. *)

From S2P Require Import Prelude Bytes StoreCodec.

(** ** Text *)

Lemma utf8_run_no_sep st bs : utf8_run st bs = true → (∀ m lo hi, st = Due m lo hi → (hi < 255)%Z) → SEP ∉ bs.
Proof.
  assert (byte_val SEP = 255)%Z as HS by done.
  revert st. induction bs as [|b bs IH]; intros st Hrun Hst; [apply not_elem_of_nil|].
  simpl in Hrun. destruct (utf8_step st b) as [st'|] eqn:Hstep; [|done].
  apply not_elem_of_cons. split.
  - intros <-. unfold utf8_step in Hstep. rewrite HS in Hstep.
    destruct st as [|m lo hi]; [done|]. specialize (Hst _ _ _ eq_refl).
    destruct (Z.leb_spec 255 hi); [lia|]. by rewrite andb_false_r in Hstep.
  - apply (IH st' Hrun). intros m lo hi ->. unfold utf8_step in Hstep.
    destruct st as [|[|m'] lo' hi']; repeat case_match; simplify_eq; lia.
Qed.

Lemma utf8_no_sep bs : utf8_valid bs = true → SEP ∉ bs.
Proof. intros H. by apply (utf8_run_no_sep Boundary). Qed.

(** ** The bytes of a record *)

(** Records with a separator between neighbours. *)
Fixpoint join (bss : list bytes) : bytes :=
  match bss with
  | [] => []
  | [bs] => bs
  | bs :: bss => bs ++ SEP :: join bss
  end.

Lemma join_cons bs bss : bss ≠ [] → join (bs :: bss) = bs ++ SEP :: join bss.
Proof. by destruct bss. Qed.

Lemma join_app bss1 bss2 : bss1 ≠ [] → bss2 ≠ [] → join (bss1 ++ bss2) = join bss1 ++ SEP :: join bss2.
Proof.
  intros H1 H2. induction bss1 as [|bs bss1 IH]; [done|].
  destruct bss1 as [|bs' bss1].
  - simpl. by destruct bss2.
  - cbn [app]. rewrite join_cons by done. rewrite (join_cons bs) by done.
    cbn [app] in IH. rewrite IH by done. by rewrite <- app_assoc.
Qed.

Section encode.
Context `{!SerdeJson}.

(** The payload of a field: every value that a tuple can hold besides the
    containers and the directives. *)
Fixpoint field_bytes (v : value) : option bytes :=
  match v with
  | VI32 z | VU32 z => Some (to_be_bytes 4 z)
  | VI64 z | VU64 z => Some (to_be_bytes 8 z)
  | VU8 z => Some (to_be_bytes 1 z)
  | VChar s | VStr s | VBytes s => Some s
  | VNone => Some []
  | VSome v => field_bytes v
  | VJson j => if json_is_raw j then None else result_ok (json_to_writer j)
  | _ => None
  end.

(** A serializer inside a container. *)
Definition inside (debug : bool) (s : Serializer) : Prop :=
  fin s = false ∧ (debug = true → (0 < depth s)%Z).

Lemma assert_true debug : debug_assert debug true = Ret ().
Proof. unfold debug_assert. by rewrite andb_false_r. Qed.

Lemma assert_inside debug s : inside debug s → debug_assert debug (0 <? depth s)%Z = Ret ().
Proof.
  intros [_ Hd]. unfold debug_assert. destruct debug; [|done]. specialize (Hd eq_refl).
  by destruct (Z.ltb_spec 0 (depth s)); [|lia].
Qed.

Lemma serialize_field debug v bs s :
  inside debug s → field_bytes v = Some bs →
  ∃ b, serialize_value debug v s
    = Ret {| out := out s ++ bs; depth := depth s; sep := b; fin := false |}.
Proof.
  intros Hs. pose proof (assert_inside _ _ Hs) as Ha. destruct Hs as [Hf _].
  induction v; intros Hv; simplify_eq/=;
    unfold serialize_str, serialize_bytes, serialize_int; rewrite ?Ha, <- ?Hf; try by eexists.
  - exists (sep s). rewrite app_nil_r. by destruct s.
  - rewrite <- Hf in IHv. auto.
  - unfold serialize_json. destruct (json_is_raw j); [done|]. simpl. rewrite assert_true.
    destruct (json_to_writer j); simplify_eq/=. by eexists.
Qed.

Lemma serialize_element debug v bs s :
  inside debug s → field_bytes v = Some bs →
  tuple_element debug (serialize_value debug) v s
    = Ret {| out := out s ++ (if sep s then SEP :: bs else bs); depth := depth s; sep := true; fin := false |}.
Proof.
  intros Hs Hv. assert (fin s = false) as Hf by apply Hs. unfold tuple_element, record_start.
  rewrite Hf. simpl. rewrite assert_true. destruct (sep s) eqn:Hsep.
  - unfold separator. simpl. rewrite Hf. simpl. rewrite assert_true. unfold write. simpl.
    edestruct (serialize_field debug v bs) as [b Hb]; [|exact Hv|rewrite Hb].
    + by split; [|apply Hs].
    + simpl. by rewrite <- app_assoc.
  - edestruct (serialize_field debug v bs) as [b Hb]; [|exact Hv|by rewrite Hb].
    by split; [|apply Hs].
Qed.

(** What the fields of a tuple add to the output. *)
Lemma serialize_elements debug vs bss s :
  inside debug s → mapM field_bytes vs = Some bss →
  tuple_elements debug (serialize_value debug) vs s
    = Ret {| out := out s ++ (if sep s && negb (bool_decide (bss = [])) then SEP :: join bss else join bss);
             depth := depth s; sep := sep s || negb (bool_decide (bss = [])); fin := false |}.
Proof.
  revert bss s. induction vs as [|v vs IH]; intros bss s Hs Hvs.
  - injection Hvs as <-. cbn [tuple_elements join]. rewrite bool_decide_true by done. rewrite andb_false_r, orb_false_r, app_nil_r.
    destruct Hs as [<- _]. by destruct s.
  - apply mapM_Some_1 in Hvs. inversion Hvs as [|? bs ? bss' Hv Hvs']; subst.
    apply mapM_Some_2 in Hvs'. cbn [tuple_elements].
    rewrite (serialize_element _ _ _ _ Hs Hv). rewrite (IH bss') by (try split; try apply Hs; done).
    cbn [out depth sep fin]. rewrite (bool_decide_false (bs :: bss' = [])) by done.
    cbn [orb negb]. rewrite orb_true_r, andb_true_r. do 2 f_equal. rewrite <- app_assoc. f_equal.
    destruct (decide (bss' = [])) as [->|Hne].
    + rewrite bool_decide_true by done. simpl. rewrite app_nil_r. by destruct (sep s).
    + rewrite (bool_decide_false (bss' = [])) by done. rewrite (join_cons bs) by done.
      by destruct (sep s).
Qed.

(** The serializer inside a tuple at the top level. *)
Definition top_tuple (debug : bool) (buf : bytes) : Serializer :=
  {| out := buf; depth := if debug then 1 else 0; sep := false; fin := false |}.

Lemma top_tuple_inside debug buf : inside debug (top_tuple debug buf).
Proof. split; [done|]. by destruct debug. Qed.

Lemma serialize_tuple debug buf vs :
  serialize debug buf (VTuple vs)
  = match tuple_elements debug (serialize_value debug) vs (top_tuple debug buf) with
    | Ret s => let! _ := debug_assert debug ((if debug then shallower (depth s) else depth s) =? 0)%Z in Ret (out s)
    | Throw (Json e) => Throw (SerdeSer e)
    | Throw e => Throw e
    | Panic => Panic
    | OutOfFuel => OutOfFuel
    end.
Proof.
  unfold serialize. cbn [serialize_value]. unfold tuple_start, sequence_start, tuple_end, sequence_end.
  cbn [sep fin depth negb]. rewrite assert_true.
  replace (set_sep false (set_depth debug (deeper 0) _)) with (top_tuple debug buf) by (by destruct debug).
  by destruct (tuple_elements _ _ _ _).
Qed.

(** A tuple of fields is the fields with a separator between neighbours. *)
Lemma serialize_fields debug buf vs bss :
  mapM field_bytes vs = Some bss → serialize debug buf (VTuple vs) = Ret (buf ++ join bss).
Proof.
  intros Hvs. rewrite serialize_tuple, (serialize_elements _ _ _ _ (top_tuple_inside _ _) Hvs).
  by destruct debug.
Qed.

(** A tuple that ends in [Interfix] is the same with a trailing separator. *)
Lemma serialize_interfix debug buf vs bss :
  mapM field_bytes vs = Some bss →
  serialize debug buf (VTuple (vs ++ [VUnitStruct "Interfix"]))
  = Ret (buf ++ join bss ++ (if bool_decide (bss = []) then [] else [SEP])).
Proof.
  intros Hvs. rewrite serialize_tuple.
  assert (∀ vs' s, tuple_elements debug (serialize_value debug) (vs ++ vs') s
    = let! s := tuple_elements debug (serialize_value debug) vs s in
      tuple_elements debug (serialize_value debug) vs' s) as ->.
  { clear. intros vs' s. revert s. induction vs as [|v vs IH]; intros s; [done|]. simpl.
    by destruct (tuple_element _ _ _ _). }
  rewrite (serialize_elements _ _ _ _ (top_tuple_inside _ _) Hvs).
  by destruct debug, (bool_decide (bss = [])); cbn; rewrite ?app_nil_r, <- ?app_assoc.
Qed.

End encode.

(** ** Decoding a record *)

Section decode.
Context `{!SerdeJson} (debug : bool).

(** The values of a type that a tuple gives back.  A type that takes the rest of
    the input is given back in last position only; an optional value needs a
    payload that does not start with a separator. *)
Fixpoint field_ty (last : bool) (t : ty) (v : value) : Prop :=
  match t, v with
  | TU64, VU64 z => (0 <= z < 2 ^ 64)%Z
  | TI64, VI64 z => (- 2 ^ 63 <= z < 2 ^ 63)%Z
  | TStr, VStr s | TString, VStr s => utf8_valid s = true
  | TBytes, VBytes _ => last = true
  | TOption _, VNone => True
  | TOption t, VSome v =>
      field_ty last t v ∧ ∃ b bs, field_bytes v = Some (b :: bs) ∧ b ≠ SEP
  | TJson j, VJson x =>
      last = true ∧ json_is_raw x = false ∧
      ∃ bs, json_to_writer x = Ok bs ∧ json_from_slice JWhole j bs = Ok x
  | TMap j, VJson x =>
      json_is_raw x = false ∧
      ∃ bs, json_to_writer x = Ok bs ∧ SEP ∉ bs ∧ json_from_slice JMap j bs = Ok x
  | TStruct j, VJson x =>
      json_is_raw x = false ∧
      ∃ bs, json_to_writer x = Ok bs ∧ SEP ∉ bs ∧ json_from_slice JStruct j bs = Ok x
  | TNewtypeStruct t, v => field_ty last t v
  | _, _ => False
  end.

Fixpoint fields_ty (ts : list ty) (vs : list value) : Prop :=
  match ts, vs with
  | [], [] => True
  | t :: ts, v :: vs => field_ty (bool_decide (length ts = 0)) t v ∧ fields_ty ts vs
  | _, _ => False
  end.

(** What a type that accepts empty input makes of it. *)
Fixpoint tail_ty (t : ty) (v : value) : Prop :=
  match t, v with
  | TStr, VStr [] | TString, VStr [] | TBytes, VBytes [] | TOption _, VNone => True
  | TNewtypeStruct t, v => tail_ty t v
  | _, _ => False
  end.

Lemma field_ty_bytes last t v : field_ty last t v → ∃ bs, field_bytes v = Some bs.
Proof.
  revert v. induction t; intros v; try exact (IHt v); destruct v; simpl; try done; try (by eauto).
  - intros [_ (? & ? & -> & _)]. eauto.
  - intros (_ & -> & ? & -> & _). eauto.
  - intros (-> & ? & -> & _). eauto.
  - intros (-> & ? & -> & _). eauto.
Qed.

Definition advance (n : nat) (d : Deserializer) : Deserializer :=
  {| buf := buf d; pos := pos d + n; rec := rec d; seq := seq d |}.

(** A cursor at the start of the payload [bs], with [tail] behind it. *)
Record at_payload (d : Deserializer) (bs tail : bytes) : Prop := {
  at_rest : rest d = bs ++ tail;
  at_pos : pos d <= length (buf d)
}.

Lemma at_payload_length d bs tail :
  at_payload d bs tail → length (buf d) = pos d + length bs + length tail.
Proof.
  intros [Hr Hp]. apply (f_equal length) in Hr. unfold rest in Hr.
  rewrite length_drop, length_app in Hr. lia.
Qed.

Lemma at_payload_advance d bs tail :
  at_payload d bs tail → at_payload (advance (length bs) d) [] tail.
Proof.
  intros Hd. pose proof (at_payload_length _ _ _ Hd). destruct Hd as [Hr Hp]. split; simpl; [|lia].
  unfold rest in *. simpl. by rewrite <- drop_drop, Hr, drop_app_length.
Qed.

Lemma inc_pos_ok d bs tail n :
  at_payload d bs tail → n <= length bs → inc_pos debug n d = Ret (advance n d).
Proof.
  intros Hd%at_payload_length Hn. unfold inc_pos. cbn [buf pos].
  destruct (Nat.leb_spec (pos d + n) (length (buf d))); [|lia]. by rewrite assert_true.
Qed.

Lemma in_range d bs tail : at_payload d bs tail → (length (buf d) <? pos d) = false.
Proof. intros Hd%at_payload_length. apply Nat.ltb_ge. lia. Qed.

Lemma first_record_app bs tail :
  SEP ∉ bs → tail = [] ∨ (∃ tl, tail = SEP :: tl) → first_record (bs ++ tail) = bs.
Proof.
  intros Hbs Ht. induction bs as [|b bs IH]; simpl.
  - by destruct Ht as [->|[tl ->]].
  - apply not_elem_of_cons in Hbs as [Hb Hbs]. rewrite bool_decide_false by congruence.
    by rewrite IH.
Qed.

Lemma record_next_ok d bs tail :
  at_payload d bs tail → SEP ∉ bs → tail = [] ∨ (∃ tl, tail = SEP :: tl) →
  record_next debug d = Ret (bs, advance (length bs) d).
Proof.
  intros Hd Hbs Ht. unfold record_next. rewrite (in_range _ _ _ Hd), (at_rest _ _ _ Hd).
  by rewrite (first_record_app _ _ Hbs Ht), (inc_pos_ok _ _ _ _ Hd).
Qed.

Lemma record_trail_ok d bs :
  at_payload d bs [] → record_trail debug d = Ret (bs, advance (length bs) d).
Proof.
  intros Hd. unfold record_trail. rewrite (in_range _ _ _ Hd), (at_rest _ _ _ Hd), app_nil_r.
  by rewrite (inc_pos_ok _ _ _ _ Hd).
Qed.

Lemma take_word_ok type d w tail :
  at_payload d w tail → length w = 8 → take_word debug type d = Ret (w, advance 8 d).
Proof.
  intros Hd Hw. pose proof (at_payload_length _ _ _ Hd). unfold take_word.
  replace (min (pos d + 8) (length (buf d))) with (pos d + 8) by lia.
  destruct (Nat.ltb_spec (pos d + 8) (pos d)); [lia|].
  replace (pos d + 8 - pos d) with (length w) by lia.
  rewrite (at_rest _ _ _ Hd), take_app_length. rewrite Hw. simpl.
  by rewrite (inc_pos_ok _ _ _ 8 Hd) by lia.
Qed.

Lemma at_payload_head d bs tail : at_payload d bs tail → buf d !! pos d = head (bs ++ tail).
Proof.
  intros [Hr _]. rewrite <- Hr. unfold rest. rewrite head_lookup, lookup_drop. by rewrite Nat.add_0_r.
Qed.

(** A field is given back, and the cursor moves behind it. *)
Lemma decode_field last t v bs tail d :
  field_ty last t v → field_bytes v = Some bs → at_payload d bs tail →
  tail = [] ∨ (last = false ∧ ∃ tl, tail = SEP :: tl) →
  deserialize debug t d = Ret (v, advance (length bs) d).
Proof.
  intros Ht Hv Hd Hlast.
  assert (tail = [] ∨ ∃ tl, tail = SEP :: tl) as Htail by naive_solver.
  assert (last = true → at_payload d bs []) as Hd' by (intros ->; destruct Hlast as [->|[? _]]; done).
  revert v Ht Hv. induction t; intros v Ht Hv; try exact (IHt v Ht Hv);
    destruct v; simpl in Ht; try done; simplify_eq/=.
  - rewrite (take_word_ok _ _ _ _ Hd) by apply length_to_be_bytes. by rewrite i64_round_trip.
  - rewrite (take_word_ok _ _ _ _ Hd) by apply length_to_be_bytes. by rewrite u64_round_trip.
  - rewrite (record_next_ok _ _ _ Hd) by eauto using utf8_no_sep. unfold str_from_bytes. by rewrite Ht.
  - rewrite (record_next_ok _ _ _ Hd) by eauto using utf8_no_sep. unfold str_from_bytes. by rewrite Ht.
  - by rewrite (record_trail_ok _ _ (Hd' eq_refl)).
  - rewrite (at_payload_head _ _ _ Hd). rewrite bool_decide_true by (destruct Htail as [->|[? ->]]; auto).
    unfold advance. rewrite Nat.add_0_r. by destruct d.
  - destruct Ht as [Ht (b & bs' & Hb & Hne)]. rewrite (at_payload_head _ _ _ Hd).
    rewrite Hv in Hb. injection Hb as ->. rewrite bool_decide_false by (simpl; naive_solver).
    by rewrite (IHt _ Ht Hv).
  - destruct Ht as (-> & Hraw & bs' & Hw & Hr). rewrite Hraw, Hw in Hv. simplify_eq/=.
    by rewrite (record_trail_ok _ _ (Hd' eq_refl)), Hr.
  - destruct Ht as (Hraw & bs' & Hw & Hsep & Hr). rewrite Hraw, Hw in Hv. simplify_eq/=.
    by rewrite (record_next_ok _ _ _ Hd Hsep Htail), Hr.
  - destruct Ht as (Hraw & bs' & Hw & Hsep & Hr). rewrite Hraw, Hw in Hv. simplify_eq/=.
    by rewrite (record_next_ok _ _ _ Hd Hsep Htail), Hr.
Qed.

(** The records that are left, with the separator in front of them unless they
    are at the start. *)
Definition lead (started : bool) (bss : list bytes) : bytes :=
  if started && negb (bool_decide (bss = [])) then SEP :: join bss else join bss.

Lemma join_lead bs bss : join (bs :: bss) = bs ++ lead true bss.
Proof. destruct bss; [by rewrite app_nil_r|done]. Qed.

(** Starting a record steps over the separator in front of it. *)
Lemma record_start_ok d bs :
  pos d <= length (buf d) → rec d < seq d →
  rest d = (if started d then SEP :: bs else bs) →
  let d' := inc_rec 1 (advance (Nat.b2n (started d)) d) in
  de_record_start debug d = Ret d' ∧ at_payload d' bs [].
Proof.
  intros Hp Hlt Hr. unfold de_record_start.
  assert (at_payload d (if started d then SEP :: bs else bs) []) as Hd by (by split; rewrite ?app_nil_r).
  pose proof (at_payload_length _ _ _ Hd) as Hlen. pose proof (at_payload_head _ _ _ Hd) as Hhd.
  destruct (started d) eqn:Hst; cbn [negb orb andb Nat.b2n].
  - rewrite Hhd. cbn [length] in Hlen.
    destruct (Nat.leb_spec (length (buf d)) (pos d)); [lia|]. cbn [andb negb orb Nat.b2n].
    rewrite bool_decide_true by done. rewrite assert_true, (inc_pos_ok _ _ _ 1 Hd) by (simpl; lia).
    split; [done|]. destruct Hd as [Hd _]. split; [|simpl; lia].
    unfold rest in *. simpl. rewrite <- drop_drop, Hd. by rewrite !app_nil_r.
  - rewrite assert_true, (inc_pos_ok _ _ _ 0 Hd) by lia. split; [done|].
    destruct Hd as [Hd _]. split; [|simpl; lia]. unfold rest in *. simpl. by rewrite Nat.add_0_r.
Qed.

(** At the end of the input a record starts where it is. *)
Lemma record_start_at_end d :
  pos d = length (buf d) → rec d < seq d → de_record_start debug d = Ret (inc_rec 1 d).
Proof.
  intros Hp Hlt. unfold de_record_start.
  destruct (Nat.leb_spec (length (buf d)) (pos d)); [|lia].
  destruct (Nat.leb_spec (seq d) (rec d)); [lia|]. cbn [andb negb].
  rewrite orb_true_r, andb_false_r. cbn [orb Nat.b2n]. rewrite assert_true. unfold inc_pos. cbn [buf pos].
  destruct (Nat.leb_spec (pos d + 0) (length (buf d))); [|lia]. rewrite assert_true.
  by rewrite Nat.add_0_r.
Qed.

(** An element is asked of the deserializer while the tuple is not complete. *)
Lemma next_element_asks f d :
  rec d < seq d →
  next_element debug f d
  = (let! d := de_record_start debug d in let! (v, d) := f d in Ret (Some v, d)).
Proof.
  intros Hlt. unfold next_element. destruct (Nat.leb_spec (seq d) (rec d)); [lia|].
  by rewrite andb_false_r.
Qed.

Lemma decode_tail t v d :
  tail_ty t v → pos d = length (buf d) → deserialize debug t d = Ret (v, d).
Proof.
  intros Ht Hp. assert (at_payload d [] []) as Hd.
  { split; [|lia]. unfold rest. rewrite Hp. apply drop_ge. done. }
  assert (advance 0 d = d) as Hadv by (unfold advance; rewrite Nat.add_0_r; by destruct d).
  revert v Ht. induction t; intros v Ht; try exact (IHt v Ht); destruct v as [| | | | | | | | | | | | |? |? |? |? |? |? |[] |[] | |? |? |? |? |? |? |?]; try done; simpl.
  - rewrite (record_next_ok _ _ _ Hd) by (auto; apply not_elem_of_nil). simpl. by rewrite Hadv.
  - rewrite (record_next_ok _ _ _ Hd) by (auto; apply not_elem_of_nil). simpl. by rewrite Hadv.
  - rewrite (record_trail_ok _ _ Hd). simpl. by rewrite Hadv.
  - rewrite (at_payload_head _ _ _ Hd). by rewrite bool_decide_true by auto.
Qed.

Lemma visit_tails ts vs n d :
  Forall2 tail_ty ts vs → pos d = length (buf d) → seq d = rec d + length ts →
  visit_tuple debug (deserialize debug) ts n d = Ret (vs, inc_rec (length ts) d).
Proof.
  intros Hts. revert n d. induction Hts as [|t v ts vs Ht Hts IH]; intros n d Hp Hs.
  - unfold inc_rec. simpl. rewrite Nat.add_0_r. by destruct d.
  - cbn [visit_tuple length] in *. rewrite next_element_asks by lia.
    rewrite record_start_at_end by lia. rewrite (decode_tail _ _ _ Ht) by done.
    rewrite IH by (simpl; lia). unfold inc_rec. simpl.
    by rewrite <- Nat.add_assoc.
Qed.

(** The visitor of a tuple reads back the fields, and the empty tails behind
    them. *)
Lemma visit_fields ts vs bss tails tvs n d :
  fields_ty ts vs → mapM field_bytes vs = Some bss → Forall2 tail_ty tails tvs →
  pos d <= length (buf d) → rest d = lead (started d) bss →
  seq d = rec d + length ts + length tails →
  ∃ d', visit_tuple debug (deserialize debug) (ts ++ tails) n d = Ret (vs ++ tvs, d')
    ∧ buf d' = buf d ∧ pos d' = length (buf d).
Proof.
  intros Hts Hvs Htails. revert vs bss n d Hts Hvs.
  induction ts as [|t ts IH]; intros [|v vs] bss n d Hts Hvs Hp Hr Hs; try done.
  - injection Hvs as <-. simpl in Hs. assert (pos d = length (buf d)) as Hend.
    { apply (f_equal length) in Hr. unfold rest, lead in Hr. rewrite length_drop in Hr.
      rewrite bool_decide_true, andb_false_r in Hr by done. simpl in Hr. lia. }
    exists (inc_rec (length tails) d). split; [|done]. apply visit_tails; [done..|lia].
  - apply mapM_Some_1 in Hvs. inversion Hvs as [|? bs ? bss' Hv Hvs']; subst.
    assert (length ts = length bss') as Hlen.
    { apply Forall2_length in Hvs'. rewrite <- Hvs'. clear -Hts. destruct Hts as [_ Hts].
      revert vs Hts. induction ts; intros [|? ?] Hts; simpl in *; try done. f_equal. naive_solver. }
    apply mapM_Some_2 in Hvs'. destruct Hts as [Ht Hts]. cbn [app visit_tuple length] in *.
    rewrite next_element_asks by lia.
    destruct (record_start_ok d (join (bs :: bss'))) as [-> Hat]; [done|lia| |].
    { rewrite Hr. unfold lead. rewrite bool_decide_false by done. by destruct (started d). }
    set (d1 := inc_rec 1 _) in *. rewrite join_lead in Hat.
    assert (at_payload d1 bs (lead true bss')) as Hat1 by (destruct Hat; split; by rewrite ?app_nil_r in *).
    rewrite (decode_field _ t v bs (lead true bss') d1 Ht Hv Hat1); cycle 1.
    { destruct bss'; [by left|right]. split; [|by eexists]. apply bool_decide_false. by rewrite Hlen. }
    pose proof (at_payload_advance _ _ _ Hat1) as [Hr2 Hp2].
    assert (started (advance (length bs) d1) = true) as Hst.
    { unfold started. apply orb_true_iff. right. apply Nat.ltb_lt. simpl. lia. }
    destruct (IH vs bss' (S n) (advance (length bs) d1)) as (d' & -> & Hb & Hp'); try done.
    { by rewrite Hst. }
    { simpl. lia. }
    by exists d'.
Qed.

(** A record of fields is read back, also by a tuple that has gained trailing
    fields since the record was written. *)
Lemma from_slice_fields ts vs bss tails tvs :
  fields_ty ts vs → mapM field_bytes vs = Some bss → Forall2 tail_ty tails tvs →
  from_slice debug (TTuple (ts ++ tails)) (join bss) = Ret (VTuple (vs ++ tvs)).
Proof.
  intros Hts Hvs Htails. unfold from_slice. cbn [deserialize].
  unfold de_sequence_start. cbn [seq Nat.eqb]. rewrite assert_true.
  edestruct (visit_fields ts vs bss tails tvs 0) as (d' & Hvisit & Hb & Hp); [done..| | | |rewrite Hvisit].
  - cbn. lia.
  - done.
  - cbn. by rewrite length_app.
  - unfold finished, remaining, rest. cbn in Hb, Hp. rewrite Hb, Hp, Nat.ltb_irrefl, Nat.sub_diag.
    by destruct debug.
Qed.

End decode.

Lemma fields_ty_bytes `{!SerdeJson} ts vs :
  fields_ty ts vs → ∃ bss, mapM field_bytes vs = Some bss.
Proof.
  revert vs. induction ts as [|t ts IH]; intros [|v vs]; simpl; try done; [by eexists|].
  intros [[bs ->]%field_ty_bytes [bss ->]%IH]. by eexists.
Qed.


(** A JSON whose values are their texts. *)
Definition text_json : SerdeJson := {|
  json_value := bytes; json_ty := (); json_error := ();
  json_is_raw _ := false;
  json_to_writer := Ok;
  json_from_slice _ _ bs := Ok bs;
  json_of_str bs := bs
|}.


(** ** Prefix scans *)

Lemma sep_app_inj (x y a b : bytes) :
  SEP ∉ x → SEP ∉ y → x ++ SEP :: a = y ++ SEP :: b ↔ x = y ∧ a = b.
Proof.
  intros Hx Hy. split; [|by intros [-> ->]].
  revert y Hy. induction x as [|c x IH]; intros [|e y] Hy Heq; injection Heq.
  - by intros ->.
  - intros _ Hc. apply not_elem_of_cons in Hy as [? _]. congruence.
  - intros _ Hc. apply not_elem_of_cons in Hx as [? _]. congruence.
  - clear Heq. intros Heq ->. apply not_elem_of_cons in Hx as [_ Hx], Hy as [_ Hy].
    by destruct (IH Hx y Hy Heq) as [-> ->].
Qed.

(** Each text of a prefix with its separator behind it. *)
Definition closed_texts (ps : list bytes) : bytes := concat (map (λ x, x ++ [SEP]) ps).

Lemma closed_texts_join ps :
  join ps ++ (if bool_decide (ps = []) then [] else [SEP]) = closed_texts ps.
Proof.
  unfold closed_texts. induction ps as [|x ps IH]; [done|]. rewrite bool_decide_false by done.
  cbn [map concat]. rewrite <- IH. destruct ps as [|y ps].
  - simpl. by rewrite app_nil_r.
  - rewrite join_cons by done. rewrite bool_decide_false by done. by rewrite <- !app_assoc.
Qed.

Lemma closed_texts_prefix ps ss others :
  Forall (λ s, SEP ∉ s) ps → Forall (λ s, SEP ∉ s) ss → length ps ≤ length ss → ss ++ others ≠ [] →
  closed_texts ps `prefix_of` join (ss ++ others)
  ↔ ps `prefix_of` ss ∧ length ps < length (ss ++ others).
Proof.
  intros Hps. revert ss. induction Hps as [|x ps Hx Hps IH]; intros ss Hss Hl Hne.
  - split; [|intros; apply prefix_nil]. intros _. split; [apply prefix_nil|].
    by destruct (ss ++ others); [|simpl; lia].
  - destruct Hss as [|s ss Hs Hss]; [simpl in Hl; lia|]. cbn [app length] in *.
    rewrite join_lead. unfold lead. cbn [andb].
    assert (closed_texts (x :: ps) = x ++ SEP :: closed_texts ps) as ->.
    { unfold closed_texts. cbn [map concat]. by rewrite <- app_assoc. }
    assert (x :: ps `prefix_of` s :: ss ↔ x = s ∧ ps `prefix_of` ss) as ->.
    { split; [|intros [-> ?]; by apply prefix_cons].
      intros Hp. split; [by eapply prefix_cons_inv_1|by eapply prefix_cons_inv_2]. }
    destruct (decide (ss ++ others = [])) as [He|He].
    + rewrite He, bool_decide_true by done. simpl. rewrite app_nil_r. split; [|lia].
      intros [k Hk]. rewrite <- app_assoc in Hk. destruct Hs. rewrite Hk. set_solver.
    + rewrite bool_decide_false by done. cbn [negb].
      assert (x ++ SEP :: closed_texts ps `prefix_of` s ++ SEP :: join (ss ++ others)
        ↔ x = s ∧ closed_texts ps `prefix_of` join (ss ++ others)) as ->.
      { unfold prefix. setoid_rewrite <- app_assoc. simpl. setoid_rewrite sep_app_inj; [|done..].
        naive_solver. }
      rewrite (IH ss) by (done || lia). split; intros; destruct_and?; split_and!; (done || lia).
Qed.

Lemma texts_bytes `{!SerdeJson} ss : mapM field_bytes (VStr <$> ss) = Some ss.
Proof. apply mapM_Some_2. induction ss; constructor; done. Qed.

(** A tuple of texts that ends in [Interfix] encodes a prefix of exactly the keys
    that start with the same texts and go on after them: a scan by that prefix
    never matches a key that agrees with part of a component only. *)
Theorem prefix_scan_exact `{!SerdeJson} debug ps ss others obs :
  Forall (λ s, utf8_valid s = true) ps → Forall (λ s, utf8_valid s = true) ss →
  length ps <= length ss → mapM field_bytes others = Some obs → ss ≠ [] →
  ∃ prefix key,
    serialize_to_vec debug (VTuple ((VStr <$> ps) ++ [VUnitStruct "Interfix"])) = Ret prefix
    ∧ serialize_to_vec debug (VTuple ((VStr <$> ss) ++ others)) = Ret key
    ∧ (prefix `prefix_of` key ↔ ps `prefix_of` ss ∧ length ps < length (ss ++ obs)).
Proof.
  intros Hps Hss Hl Hobs Hne.
  assert (mapM field_bytes ((VStr <$> ss) ++ others) = Some (ss ++ obs)) as Hkey.
  { apply mapM_Some_2, Forall2_app; apply mapM_Some_1; [apply texts_bytes|done]. }
  exists (closed_texts ps), (join (ss ++ obs)). split_and!.
  - unfold serialize_to_vec. rewrite (serialize_interfix _ [] _ _ (texts_bytes ps)).
    by rewrite closed_texts_join.
  - exact (serialize_fields _ [] _ _ Hkey).
  - apply closed_texts_prefix; [by eapply Forall_impl, utf8_no_sep..|done|].
    by destruct ss.
Qed.

Lemma prefix_scan_exact_witness :
  ∃ prefix key,
    serialize_to_vec (H := text_json) true (VTuple ((VStr <$> [[x61]; [x62]]) ++ [VUnitStruct "Interfix"]))
      = Ret prefix
    ∧ serialize_to_vec (H := text_json) true (VTuple ((VStr <$> [[x61]; [x62; x63]]) ++ [VU64 7])) = Ret key
    ∧ (prefix `prefix_of` key ↔ [[x61]; [x62]] `prefix_of` [[x61]; [x62; x63]] ∧ 2 < 3).
Proof.
  apply (prefix_scan_exact (H := text_json) true [[x61]; [x62]] [[x61]; [x62; x63]] [VU64 7]
    [to_be_bytes 8 7]); [by repeat constructor..|simpl; lia|done|done].
Defined.

(** The lexicographic order of equally long lists. *)
Fixpoint list_cmp (xs ys : list Z) : comparison :=
  match xs, ys with
  | x :: xs, y :: ys => cmp_then (Z.compare x y) (list_cmp xs ys)
  | _, _ => Eq
  end.

Lemma u64_bytes `{!SerdeJson} xs : mapM field_bytes (VU64 <$> xs) = Some (to_be_bytes 8 <$> xs).
Proof. apply mapM_Some_2. induction xs; constructor; done. Qed.

Lemma u64_cmp x y :
  (0 <= x < 2 ^ 64)%Z → (0 <= y < 2 ^ 64)%Z →
  bytes_cmp (to_be_bytes 8 x) (to_be_bytes 8 y) = Z.compare x y.
Proof.
  intros. rewrite bytes_cmp_value by (by rewrite !length_to_be_bytes). by rewrite !u64_round_trip.
Qed.

(** The keys of a column of [u64] tuples sort by their bytes as the tuples sort
    by their numbers. *)
Theorem u64_keys_sorted `{!SerdeJson} debug (xs ys : list Z) :
  length xs = length ys →
  Forall (λ z, 0 <= z < 2 ^ 64)%Z xs → Forall (λ z, 0 <= z < 2 ^ 64)%Z ys →
  ∃ a b, serialize_to_vec debug (VTuple (VU64 <$> xs)) = Ret a
    ∧ serialize_to_vec debug (VTuple (VU64 <$> ys)) = Ret b
    ∧ bytes_cmp a b = list_cmp xs ys.
Proof.
  intros Hl Hxs Hys. do 2 eexists.
  split_and!; [exact (serialize_fields _ [] _ _ (u64_bytes _))..|]. cbn [app].
  revert ys Hl Hys. induction Hxs as [|x xs Hx Hxs IH]; intros ys Hl Hys.
  { by destruct ys. }
  destruct Hys as [|y ys Hy Hys]; [done|]. injection Hl as Hl. rewrite !fmap_cons, !join_lead.
  rewrite bytes_cmp_app by (by rewrite !length_to_be_bytes). rewrite u64_cmp by done. cbn [list_cmp].
  f_equal. rewrite <- (IH ys Hl Hys). destruct xs, ys; done.
Qed.

Lemma u64_keys_sorted_witness :
  ∃ a b, serialize_to_vec (H := text_json) true (VTuple (VU64 <$> [1; 255]%Z)) = Ret a
    ∧ serialize_to_vec (H := text_json) true (VTuple (VU64 <$> [1; 256]%Z)) = Ret b
    ∧ bytes_cmp a b = list_cmp [1; 255]%Z [1; 256]%Z.
Proof.
  apply (u64_keys_sorted (H := text_json) true [1; 255]%Z [1; 256]%Z);
    [done|repeat constructor; lia..].
Defined.

(** ** The cursor of the deserializer *)

Definition is_leaf `{!SerdeJson} (t : ty) : bool :=
  match t with
  | TOption _ | TSeq _ | TTuple _ | TTupleStruct _ _ | TNewtypeStruct _ => false
  | _ => true
  end.

Section ty_ind.
Context `{!SerdeJson} (P : ty → Prop).
Hypothesis (Hoption : ∀ t, P t → P (TOption t)) (Hseq : ∀ t, P t → P (TSeq t))
  (Htuple : ∀ ts, Forall P ts → P (TTuple ts))
  (Hstruct : ∀ name ts, Forall P ts → P (TTupleStruct name ts))
  (Hnewtype : ∀ t, P t → P (TNewtypeStruct t))
  (Hleaf : ∀ t, is_leaf t = true → P t).

(** Induction on a type through the element types of its tuples. *)
Fixpoint ty_ind' (t : ty) : P t :=
  let go := fix go ts : Forall P ts :=
    match ts with
    | [] => Forall_nil_2 _
    | t :: ts => Forall_cons_2 _ _ _ (ty_ind' t) (go ts)
    end in
  match t as t return (is_leaf t = true → P t) → P t with
  | TOption t => λ _, Hoption t (ty_ind' t)
  | TSeq t => λ _, Hseq t (ty_ind' t)
  | TTuple ts => λ _, Htuple ts (go ts)
  | TTupleStruct name ts => λ _, Hstruct name ts (go ts)
  | TNewtypeStruct t => λ _, Hnewtype t (ty_ind' t)
  | _ => λ H, H eq_refl
  end (Hleaf t).

End ty_ind.

(** The types whose calls the deserializer implements. *)
Fixpoint supported `{!SerdeJson} (t : ty) : bool :=
  match t with
  | TI64 | TU64 | TStr | TString | TBytes | TJson _ | TMap _ | TStruct _ | TAny _ => true
  | TOption t | TSeq t | TNewtypeStruct t => supported t
  | TTuple ts | TTupleStruct _ ts => forallb supported ts
  | TUnitStruct name => bool_decide (name = "Ignore"%string ∨ name = "IgnoreAll"%string)
  | _ => false
  end.

Section cursor.
Context `{!SerdeJson} (debug : bool).

(** The cursor is inside its buffer. *)
Definition cursor_ok (d : Deserializer) : Prop := pos d <= length (buf d).

(** How decoding moves the cursor: forward and not past the end, with the record
    counter, and with no sequence left incomplete. *)
Record moved (d d' : Deserializer) : Prop := {
  moved_buf : buf d' = buf d;
  moved_pos : pos d <= pos d';
  moved_ok : cursor_ok d';
  moved_rec : rec d <= rec d';
  moved_seq : seq d' = seq d ∨ seq d' <= rec d'
}.

Lemma moved_refl d : cursor_ok d → moved d d.
Proof. intros. split; auto. Qed.

Lemma moved_trans d1 d2 d3 : moved d1 d2 → moved d2 d3 → moved d1 d3.
Proof. intros [] []. split; [congruence|lia|done|lia|lia]. Qed.

(** An outcome of decoding from [d]: a moved cursor or an error; a panic only
    where [panics] allows it; never a lack of fuel. *)
Definition moves {A} (panics : bool) (d : Deserializer) (r : outcome Error (A * Deserializer)) : Prop :=
  match r with
  | Ret (_, d') => moved d d'
  | Throw _ => True
  | Panic => panics = true
  | OutOfFuel => False
  end.

Lemma moves_bind {A B} panics d (r : outcome Error (A * Deserializer))
    (k : A * Deserializer → outcome Error (B * Deserializer)) :
  moves panics d r → (∀ a d', moved d d' → moves panics d' (k (a, d'))) →
  moves panics d (let! x := r in k x).
Proof.
  destruct r as [[a d']| | |]; simpl; try done. intros Hd Hk. specialize (Hk a d' Hd).
  destruct (k (a, d')) as [[b d'']| | |]; simpl in *; try done. by eapply moved_trans.
Qed.

Lemma inc_pos_moves d n :
  pos d + n <= length (buf d) → inc_pos debug n d = Ret (advance n d) ∧ moved d (advance n d).
Proof.
  intros Hn. split.
  - unfold inc_pos. cbn [buf pos]. destruct (Nat.leb_spec (pos d + n) (length (buf d))); [|lia].
    by rewrite assert_true.
  - split; unfold cursor_ok; simpl; auto; lia.
Qed.

Lemma length_first_record bs : length (first_record bs) <= length bs.
Proof. induction bs; simpl; [done|]. case_bool_decide; simpl; lia. Qed.

Lemma cursor_in_range d : cursor_ok d → (length (buf d) <? pos d) = false.
Proof. intros. by apply Nat.ltb_ge. Qed.

Lemma length_rest d : length (rest d) = length (buf d) - pos d.
Proof. apply length_drop. Qed.

Lemma record_next_moves panics d : cursor_ok d → moves panics d (record_next debug d).
Proof.
  intros Hd. unfold record_next. rewrite cursor_in_range by done. unfold cursor_ok in Hd.
  pose proof (length_first_record (rest d)). rewrite length_rest in *.
  by destruct (inc_pos_moves d (length (first_record (rest d)))) as [-> ?]; [lia|].
Qed.

Lemma record_trail_moves panics d : cursor_ok d → moves panics d (record_trail debug d).
Proof.
  intros Hd. unfold record_trail. rewrite cursor_in_range by done. unfold cursor_ok in Hd.
  by destruct (inc_pos_moves d (length (rest d))) as [-> ?]; [rewrite length_rest; lia|].
Qed.

Lemma take_word_moves panics type d : cursor_ok d → moves panics d (take_word debug type d).
Proof.
  unfold cursor_ok. intros Hd. unfold take_word.
  destruct (Nat.ltb_spec (min (pos d + 8) (length (buf d))) (pos d)); [lia|].
  destruct (Nat.eqb_spec (length (take (min (pos d + 8) (length (buf d)) - pos d) (rest d))) 8) as [Hw|]; [|done].
  rewrite length_take, length_rest in Hw.
  by destruct (inc_pos_moves d 8) as [-> ?]; [lia|].
Qed.

(** What asking for an element does to the cursor. *)
Definition asked (panics : bool) (d : Deserializer) (r : outcome Error (option value * Deserializer)) : Prop :=
  match r with
  | Ret (None, d') => d' = d ∧ seq d <= rec d
  | Ret (Some _, d') => moved d d' ∧ rec d < rec d' ∧ (0 < rec d → seq d <= rec d → pos d < pos d')
  | Throw _ => True
  | Panic => panics = true
  | OutOfFuel => False
  end.

Lemma record_start_moves d :
  cursor_ok d → ¬ (length (buf d) <= pos d ∧ seq d <= rec d) →
  match de_record_start debug d with
  | Ret d' => moved d d' ∧ rec d' = S (rec d) ∧ seq d' = seq d ∧
      (0 < rec d → seq d <= rec d → pos d < pos d')
  | Panic => debug = true
  | _ => False
  end.
Proof.
  unfold cursor_ok. intros Hd Hn. unfold de_record_start.
  set (n := Nat.b2n _). assert (pos d + n <= length (buf d) ∧ (0 < rec d → seq d <= rec d → n = 1)) as [Hp H1].
  { subst n. unfold started. destruct (Nat.leb_spec (length (buf d)) (pos d)), (Nat.leb_spec (seq d) (rec d));
      try lia; cbn [andb negb]; rewrite ?andb_false_r, ?andb_true_r; cbn [Nat.b2n]; [lia|..];
      destruct (Nat.ltb_spec 0 (rec d)); rewrite ?orb_true_r; cbn [Nat.b2n]; try lia;
      destruct (negb _ || _); cbn [Nat.b2n]; lia. }
  destruct (inc_pos_moves d n Hp) as [-> Hm].
  unfold debug_assert. destruct (debug && _) eqn:Hdb; [by apply andb_true_iff in Hdb as [-> _]|].
  clearbody n. destruct Hm as [? ? Hok ? ?]. unfold cursor_ok in Hok. simpl in *.
  split_and!; [|lia|done|intros; rewrite H1 by done; lia].
  split; unfold cursor_ok; simpl; auto; lia.
Qed.

Lemma next_element_asked panics f d :
  (debug = true → panics = true) → (∀ d, cursor_ok d → moves panics d (f d)) → cursor_ok d →
  asked panics d (next_element debug f d).
Proof.
  intros Hpanics Hf Hd. unfold next_element.
  destruct (Nat.leb_spec (length (buf d)) (pos d)), (Nat.leb_spec (seq d) (rec d)); cbn [andb]; try done;
    (pose proof (record_start_moves d Hd ltac:(lia)) as Hs;
     destruct (de_record_start debug d) as [d1| | |]; [|done|by apply Hpanics|done];
     destruct Hs as (Hm & Hr & Hq & Hp);
     specialize (Hf d1 (moved_ok _ _ Hm)); destruct (f d1) as [[v d2]| | |]; try done;
     simpl in *; split_and!;
     [by eapply moved_trans|pose proof (moved_rec _ _ Hf); lia|
      intros; specialize (Hp ltac:(done) ltac:(done)); pose proof (moved_pos _ _ Hf); lia]).
Qed.

(** A [Vec] past its first element makes progress with every element. *)
Lemma visit_vec_moves panics f fuel d :
  (debug = true → panics = true) → (∀ d, cursor_ok d → moves panics d (f d)) →
  cursor_ok d → 0 < rec d → seq d <= rec d → length (buf d) - pos d < fuel →
  moves panics d (visit_vec debug f fuel d).
Proof.
  intros Hpanics Hf. revert d. induction fuel as [|fuel IH]; intros d Hd Hr Hs Hfuel; [lia|].
  cbn [visit_vec]. pose proof (next_element_asked panics f d Hpanics Hf Hd) as Ha.
  destruct (next_element debug f d) as [[[v|] d']| | |]; try done; cbn in Ha.
  - destruct Ha as (Hm & Hlt & Hp). specialize (Hp Hr Hs).
    assert (moves panics d' (visit_vec debug f fuel d')) as Hv.
    { destruct Hm as [Hb ? Hok ? ?]. apply IH; [done|lia|lia|].
      unfold cursor_ok in Hok. rewrite Hb in *. lia. }
    destruct (visit_vec debug f fuel d') as [[vs d'']| | |]; try done. simpl in *. by eapply moved_trans.
  - destruct Ha as [-> _]. by apply moved_refl.
Qed.

Lemma visit_tuple_moves panics ts n d :
  (debug = true → panics = true) →
  Forall (λ t, ∀ d, cursor_ok d → moves panics d (deserialize debug t d)) ts →
  cursor_ok d →
  match visit_tuple debug (deserialize debug) ts n d with
  | Ret (_, d') => moved d d' ∧ rec d + length ts <= rec d'
  | r => moves panics d r
  end.
Proof.
  intros Hpanics Hts. revert n d. induction Hts as [|t ts Ht Hts IH]; intros n d Hd; cbn [visit_tuple].
  { split; [by apply moved_refl|simpl; lia]. }
  pose proof (next_element_asked panics _ d Hpanics Ht Hd) as Ha.
  destruct (next_element debug _ d) as [[[v|] d']| | |]; try done; cbn in Ha.
  destruct Ha as (Hm & Hlt & _). specialize (IH (S n) d' (moved_ok _ _ Hm)).
  destruct (visit_tuple debug _ ts (S n) d') as [[vs d'']| | |]; try done.
  destruct IH as [Hm' Hlen]. split; [by eapply moved_trans|simpl; lia].
Qed.

Lemma visit_vec_S (f : Deserializer → outcome Error (value * Deserializer)) fuel d :
  visit_vec debug f (S fuel) d
  = (let! (v, d) := next_element debug f d in
     match v with
     | None => Ret ([], d)
     | Some v => let! (vs, d) := visit_vec debug f fuel d in Ret (v :: vs, d)
     end).
Proof. done. Qed.

Lemma vec_moves panics f d :
  (debug = true → panics = true) → (∀ d, cursor_ok d → moves panics d (f d)) → cursor_ok d →
  moves panics d
    (let! d := de_sequence_start debug 1 d in
     let! (vs, d) := visit_vec debug f (S (S (length (buf d)))) d in
     Ret (VSeq vs, d)).
Proof.
  intros Hpanics Hf Hd. unfold de_sequence_start, debug_assert.
  destruct (debug && _) eqn:Hdb; [by apply andb_true_iff in Hdb as [-> _]; apply Hpanics|].
  set (d0 := Build_Deserializer _ _ _ _). assert (cursor_ok d0) as Hd0 by exact Hd.
  rewrite visit_vec_S. pose proof (next_element_asked panics f d0 Hpanics Hf Hd0) as Ha.
  destruct (next_element debug f d0) as [[[v|] d']| | |]; try done; cbn [asked] in Ha.
  - destruct Ha as (Hm & Hlt & _). destruct Hm as [Hb Hp Hok Hr Hq].
    assert (moves panics d' (visit_vec debug f (S (length (buf d0))) d')) as Hv.
    { apply visit_vec_moves; try done; cbn in *; rewrite ?Hb; cbn; lia. }
    destruct (visit_vec debug f _ d') as [[vs d'']| | |]; try done.
    destruct Hv as [? ? ? ? Hq']. cbn in *. split; [congruence|lia|done|lia|]. right. lia.
  - destruct Ha as [-> Ha]. by cbn in Ha; split; cbn; auto.
Qed.

Lemma tuple_moves panics ts (g : list value → value) d :
  (debug = true → panics = true) →
  Forall (λ t, ∀ d, cursor_ok d → moves panics d (deserialize debug t d)) ts → cursor_ok d →
  moves panics d
    (let! d := de_sequence_start debug (length ts) d in
     let! (vs, d) := visit_tuple debug (deserialize debug) ts 0 d in
     Ret (g vs, d)).
Proof.
  intros Hpanics Hts Hd. unfold de_sequence_start, debug_assert.
  destruct (debug && _) eqn:Hdb; [by apply andb_true_iff in Hdb as [-> _]; apply Hpanics|].
  set (d0 := Build_Deserializer _ _ _ _). assert (cursor_ok d0) as Hd0 by exact Hd.
  pose proof (visit_tuple_moves panics ts 0 d0 Hpanics Hts Hd0) as Hv.
  destruct (visit_tuple debug _ ts 0 d0) as [[vs d']| | |]; try done.
  destruct Hv as [[? ? ? ? Hq] Hr]. cbn in *. split; cbn; auto. right. lia.
Qed.

Lemma elements_move ts :
  Forall (λ t, ∀ d, cursor_ok d → moves (debug || negb (supported t)) d (deserialize debug t d)) ts →
  Forall (λ t, ∀ d, cursor_ok d →
    moves (debug || negb (forallb supported ts)) d (deserialize debug t d)) ts.
Proof.
  rewrite !Forall_forall. intros Hts t Ht d Hd. specialize (Hts t Ht d Hd).
  destruct (deserialize debug t d) as [[? ?]| | |]; try done. simpl in *.
  destruct debug; [done|]. simpl in *. apply negb_true_iff. apply negb_true_iff in Hts.
  destruct (forallb supported ts) eqn:Hall; [|done].
  rewrite forallb_forall in Hall. specialize (Hall t). rewrite <- list_elem_of_In in Hall. naive_solver.
Qed.

(** What is made of a payload leaves the cursor behind it. *)
Definition payload_kept {A} (k : A * Deserializer → outcome Error (value * Deserializer)) : Prop :=
  ∀ a d, match k (a, d) with Ret (_, d') => d' = d | Throw _ => True | _ => False end.

Lemma payload_moves {A} panics d (k : A * Deserializer → outcome Error (value * Deserializer)) :
  payload_kept k → ∀ a d', moved d d' → moves panics d' (k (a, d')).
Proof.
  intros Hk a d' Hm. specialize (Hk a d'). destruct (k (a, d')) as [[v d'']| | |]; try done.
  simpl. rewrite Hk. apply moved_refl, Hm.
Qed.

Lemma text_kept (g : bytes → value) :
  payload_kept (λ '(input, d), let! s := str_from_bytes input in Ret (g s, d)).
Proof. intros a d. unfold str_from_bytes. by destruct (utf8_valid a). Qed.

Lemma json_kept call j : payload_kept (λ '(input, d), of_json (json_from_slice call j input) d).
Proof. intros a d. by destruct (json_from_slice call j a). Qed.

Lemma directive_moves name d :
  cursor_ok d →
  moves (debug || negb (bool_decide (name = "Ignore"%string ∨ name = "IgnoreAll"%string))) d
    (deserialize debug (TUnitStruct name) d).
Proof.
  intros Hd. cbn [deserialize]. set (panics := debug || _).
  assert (moves panics d (let! d := record_ignore_all debug d in Ret (VUnitStruct name, d))) as Hall.
  { pose proof (record_trail_moves panics d Hd) as Ht. unfold record_ignore_all.
    by destruct (record_trail debug d) as [[? ?]| | |]. }
  case_bool_decide as H1; [|case_bool_decide as H2].
  - unfold record_ignore. destruct (0 <? seq d); [|done].
    pose proof (record_next_moves panics d Hd) as Ht.
    by destruct (record_next debug d) as [[? ?]| | |].
  - done.
  - subst panics. rewrite bool_decide_false by tauto. simpl. by rewrite orb_true_r.
Qed.

Lemma peek_ok d :
  cursor_ok d → match record_peek_byte debug d with Ret _ => True | Panic => debug = true | _ => False end.
Proof.
  intros Hd. unfold record_peek_byte, debug_assert. rewrite cursor_in_range by done.
  destruct debug, (started d); simpl; try done. destruct (rest d); [done|].
  by destruct (negb _).
Qed.

Lemma any_moves j d : cursor_ok d → moves (debug || false) d (deserialize debug (TAny j) d).
Proof.
  intros Hd. cbn [deserialize]. pose proof (peek_ok d Hd) as Hp.
  destruct (record_peek_byte debug d) as [b| | |]; [|done|by simpl; rewrite Hp|done].
  repeat case_bool_decide; (apply moves_bind; [by apply record_next_moves|]);
    [apply (payload_moves _ _ _ (json_kept _ _))|apply (payload_moves _ _ _ (json_kept _ _))
    |apply (payload_moves _ _ _ (text_kept _))].
Qed.

(** Decoding a type moves the cursor. *)
Lemma deserialize_moves t d :
  cursor_ok d → moves (debug || negb (supported t)) d (deserialize debug t d).
Proof.
  assert (∀ b, debug = true → debug || b = true) as Hdbg by (by intros b ->).
  assert (∀ d, cursor_ok d → moved d d) as Hrefl by apply moved_refl.
  revert d. induction t as [t IH|t IH|ts IH|name ts IH|t IH|t Hl] using ty_ind'; intros d Hd.
  - cbn [deserialize supported]. case_bool_decide; [by apply Hrefl|].
    apply moves_bind; [by apply IH|]. intros v d' Hm. apply Hrefl, Hm.
  - cbn [deserialize supported]. apply vec_moves; auto.
  - apply (tuple_moves _ ts VTuple); [auto|by apply elements_move|done].
  - apply (tuple_moves _ ts (VTupleStruct name)); [auto|by apply elements_move|done].
  - by apply IH.
  - destruct t; try done; cbn [deserialize supported negb]; unfold unhandled; simpl; rewrite ?orb_true_r; try done.
    all: try (apply moves_bind;
      [by auto using record_next_moves, record_trail_moves, take_word_moves|intros a d' Hm; specialize (Hrefl d' (moved_ok _ _ Hm))]).
    all: try (unfold str_from_bytes, of_json; by repeat case_match).
    + by apply directive_moves.
    + by apply any_moves.
Qed.

End cursor.

(** Decoding any type from a cursor inside its buffer keeps the cursor inside the
    same buffer and moves it and its record counter forward only; it ends with a
    value or an error, where a panic needs a debug build or a type that the codec
    does not implement. *)
Theorem cursor_stays_in_range `{!SerdeJson} debug t d :
  pos d <= length (buf d) →
  match deserialize debug t d with
  | Ret (_, d') =>
      buf d' = buf d ∧ pos d <= pos d' <= length (buf d) ∧ rec d <= rec d'
      ∧ (seq d' = seq d ∨ seq d' <= rec d')
  | Throw _ => True
  | Panic => debug = true ∨ supported t = false
  | OutOfFuel => False
  end.
Proof.
  intros Hd. pose proof (deserialize_moves debug t d Hd) as Hm.
  destruct (deserialize debug t d) as [[v d']| | |]; try done.
  - destruct Hm as [Hb Hp Hok ? ?]. unfold cursor_ok in Hok. rewrite Hb in Hok. auto.
  - simpl in Hm. by destruct debug, (supported t); auto.
Qed.

Lemma cursor_stays_in_range_witness :
  let d := {| buf := [x61; SEP; x62]; pos := 1; rec := 1; seq := 2 |} in
  match deserialize (H := text_json) true TStr d with
  | Ret (_, d') => buf d' = buf d ∧ 1 <= pos d' <= 3 ∧ 1 <= rec d' ∧ (seq d' = 2 ∨ seq d' <= rec d')
  | Throw _ => True
  | Panic => true = true ∨ supported (H := text_json) TStr = false
  | OutOfFuel => False
  end.
Proof. intros d. apply (cursor_stays_in_range (H := text_json) true TStr d). simpl. lia. Defined.

(** In a release build, decoding any bytes, damaged ones included, as a type the
    codec implements ends with a value or an error: it neither panics nor loops. *)
Theorem release_decoding_total `{!SerdeJson} t input :
  supported t = true →
  (∃ v, from_slice false t input = Ret v) ∨ (∃ e, from_slice false t input = Throw e).
Proof.
  intros Ht. unfold from_slice. set (d := Build_Deserializer _ _ _ _).
  assert (cursor_ok d) as Hd by (unfold cursor_ok; simpl; lia).
  pose proof (deserialize_moves false t d Hd) as Hm. rewrite Ht in Hm.
  by destruct (deserialize false t d) as [[v d']| | |]; eauto.
Qed.

Lemma release_decoding_total_witness :
  (∃ v, from_slice (H := text_json) false (TSeq TU64) [SEP; x01] = Ret v)
  ∨ (∃ e, from_slice (H := text_json) false (TSeq TU64) [SEP; x01] = Throw e).
Proof. apply (release_decoding_total (H := text_json) (TSeq TU64) [SEP; x01]). done. Defined.

(** ** Values the format does not give back *)

(** An optional signed integer whose first byte is the separator, that is a
    negative one above [-2^56], is written but not given back: a release build
    reads it as absent and a debug build panics. *)
Theorem optional_negative_lost `{!SerdeJson} debug_w z :
  (- 2 ^ 56 <= z < 0)%Z →
  ∃ bs, serialize_to_vec debug_w (VTuple [VSome (VI64 z)]) = Ret bs
    ∧ from_slice false (TTuple [TOption TI64]) bs = Ret (VTuple [VNone])
    ∧ from_slice true (TTuple [TOption TI64]) bs = Panic.
Proof.
  intros Hz. exists (to_be_bytes 8 z).
  split; [exact (serialize_fields debug_w [] [VSome (VI64 z)] [to_be_bytes 8 z] eq_refl)|].
  assert (∃ bs, to_be_bytes 8 z = SEP :: bs ∧ length bs = 7) as (bs & -> & Hl).
  { eexists. split; [|apply (length_to_be_bytes 7 z)].
    change (to_be_bytes 8 z) with (byte_of (z / 256 ^ 7) :: to_be_bytes 7 z). f_equal.
    apply (inj byte_val). rewrite byte_val_of. change (byte_val SEP) with 255%Z.
    change (256 ^ 7)%Z with (2 ^ 56)%Z.
    assert (z / 2 ^ 56 = -1)%Z as -> by (symmetry; apply (Z.div_unique_pos _ _ _ (z + 2 ^ 56)%Z); lia).
    done. }
  by do 8 (destruct bs as [|? bs]; try done).
Qed.

Lemma optional_negative_lost_witness :
  ∃ bs, serialize_to_vec (H := text_json) true (VTuple [VSome (VI64 (-1))]) = Ret bs
    ∧ from_slice (H := text_json) false (TTuple [TOption TI64]) bs = Ret (VTuple [VNone])
    ∧ from_slice (H := text_json) true (TTuple [TOption TI64]) bs = Panic.
Proof. apply (optional_negative_lost (H := text_json) true (-1)). lia. Defined.
