(* ===== verification/WordMatch.v ===== *)
(** * Matching words

    [matches_word] of [crates/common-types/src/push/condition.rs]: whether a pattern
    occurs in a text between word boundaries. A text is its bytes; the bytes of a
    character that is not ASCII are not word characters, like the character itself, so
    that a byte offset at a character boundary can be looked at by its byte. Patterns
    with wildcards are turned into a regular expression; the regex crate is a parameter. *)

From S2P Require Import Prelude Identifiers.

Abbreviation text := (list ascii).

Class Regex : Type := {
  escape : text → text;
  (** [Regex::new] and [is_match]; [None]: the expression is not accepted *)
  regex_is_match : text → text → option bool
}.

(** ** Strings *)

Definition is_word_char (c : ascii) : bool := is_ascii_alphanumeric c || Ascii.eqb c "_".

(** [str::find] of a string and of a character *)
Fixpoint find_text (pattern s : text) : option nat :=
  if bool_decide (pattern `prefix_of` s) then Some 0
  else match s with [] => None | _ :: s => S <$> find_text pattern s end.

Definition find_char (f : ascii → bool) (s : text) : option nat := fst <$> list_find (λ c, f c = true) s.

(** [char_at] panics at the end of the string. *)
Definition char_at (s : text) (index : nat) : outcome Empty_set ascii :=
  match s !! index with Some c => Ret c | None => Panic end.

Definition find_prev_char (s : text) (index : nat) : option ascii :=
  match index with 0 => None | S i => s !! i end.

Definition is_wildcard (c : ascii) : bool := Ascii.eqb c "?" || Ascii.eqb c "*".

Fixpoint bytes_of (s : string) : text := match s with EmptyString => [] | String c s => c :: bytes_of s end.

(** ** Wildcards *)

Definition wildcards_to_regex (chunk : text) : text :=
  let question_marks := pretty (length (List.filter (λ c, Ascii.eqb c "?") chunk)) in
  if existsb (λ c, Ascii.eqb c "*") chunk then bytes_of (".{" +:+ question_marks +:+ ",}")
  else bytes_of (".{" +:+ question_marks +:+ "}").

Definition slice (s : text) (start end_ : nat) : text := take (end_ - start) (drop start s).

Section regex.
Context `{!Regex}.

(** The loop over the characters of the pattern: the chunks so far, whether the
    previous character was a wildcard, and where the current chunk starts. *)
Fixpoint chunk_loop (pattern : text) (i : nat) (rest : text) (chunks : list text) (prev_wildcard : bool) (chunk_start : nat) :
    list text * bool * nat :=
  match rest with
  | [] => (chunks, prev_wildcard, chunk_start)
  | c :: rest =>
      if is_wildcard c && negb prev_wildcard then
        if i =? 0 then chunk_loop pattern (S i) rest chunks true chunk_start
        else chunk_loop pattern (S i) rest (chunks ++ [escape (slice pattern chunk_start i)]) true i
      else if prev_wildcard then
        chunk_loop pattern (S i) rest (chunks ++ [wildcards_to_regex (slice pattern chunk_start i)]) false i
      else chunk_loop pattern (S i) rest chunks prev_wildcard chunk_start
  end.

Definition regex_chunks (pattern : text) : list text :=
  let '(chunks, prev_wildcard, chunk_start) := chunk_loop pattern 0 pattern [] false 0 in
  let chunk := slice pattern chunk_start (length pattern) in
  chunks ++ [if negb prev_wildcard then escape chunk else wildcards_to_regex chunk].

Definition word_regex (pattern : text) : text :=
  bytes_of "(?-u:^|\W|\b)" ++ concat (regex_chunks pattern) ++ bytes_of "(?-u:\b|\W|$)".

(** ** Words *)

Definition word_boundary_start (s : text) (start : nat) : outcome Empty_set bool :=
  let! c := char_at s start in
  Ret (negb (is_word_char c) || negb (match find_prev_char s start with Some c => is_word_char c | None => false end)).

Definition word_boundary_end (s : text) (end_ : nat) : outcome Empty_set bool :=
  if end_ =? length s then Ret true
  else
    match find_prev_char s end_ with
    | None => Panic
    | Some c =>
        if negb (is_word_char c) then Ret true
        else let! c := char_at s end_ in Ret (negb (is_word_char c))
    end.

Fixpoint matches_word_loop (fuel : nat) (s pattern : text) : outcome Empty_set bool :=
  match fuel with
  | 0 => OutOfFuel
  | S fuel =>
      if bool_decide (s = pattern) then Ret true
      else if bool_decide (pattern = []) then Ret false
      else if existsb is_wildcard pattern then
        match regex_is_match (word_regex pattern) s with Some b => Ret b | None => Panic end
      else
        match find_text pattern s with
        | None => Ret false
        | Some start =>
            let end_ := start + length pattern in
            let! at_start := word_boundary_start s start in
            let! matched := if at_start then word_boundary_end s end_ else Ret false in
            if matched : bool then Ret true
            else
              let non_word_str := drop start s in
              match find_char (λ c, negb (is_word_char c)) non_word_str with
              | None => Ret false
              | Some non_word =>
                  let word_str := drop non_word non_word_str in
                  match find_char is_word_char word_str with
                  | None => Ret false
                  | Some word => matches_word_loop fuel (drop word word_str) pattern
                  end
              end
        end
  end.

(** Every call is on a shorter text. *)
Definition matches_word (s pattern : text) : outcome Empty_set bool := matches_word_loop (S (length s)) s pattern.

End regex.

(** ** Correctness *)

(** The position [k] of [s] is a word boundary: it is at the start or the end, or one
    of the characters next to it is not a word character. *)
Definition boundary (s : text) (k : nat) : Prop :=
  match k with
  | 0 => True
  | S j => ∀ a b, s !! j = Some a → s !! k = Some b → is_word_char a = false ∨ is_word_char b = false
  end.

(** The pattern occurs at [k], between word boundaries. *)
Definition word_at (s pattern : text) (k : nat) : Prop :=
  pattern `prefix_of` drop k s ∧ boundary s k ∧ boundary s (k + length pattern).

Lemma prefix_lookup (p s : text) k i c : p `prefix_of` drop k s → p !! i = Some c → s !! (k + i) = Some c.
Proof. intros [r Hr] Hi. rewrite <- lookup_drop, Hr. by apply lookup_app_l_Some. Qed.

Lemma find_text_Some p s i :
  find_text p s = Some i → p `prefix_of` drop i s ∧ ∀ j, j < i → ¬ p `prefix_of` drop j s.
Proof.
  revert i. induction s as [|a s IH]; intros i; cbn; case_bool_decide as Hp; try (intros; simplify_eq; split; [done|lia]); [done|].
  intros (j & Hj & ->)%fmap_Some. apply IH in Hj as [Hpre Hmin]. split; [done|]. intros [|k] Hk; [done|]. apply Hmin. lia.
Qed.

Lemma find_text_None p s k : find_text p s = None → p ≠ [] → ¬ p `prefix_of` drop k s.
Proof.
  revert k. induction s as [|a s IH]; intros k; cbn; case_bool_decide as Hp; try done.
  - intros _ Hne. by rewrite drop_nil.
  - intros Hf%fmap_None Hne. destruct k as [|k]; [done|]. by apply IH.
Qed.

Lemma find_char_Some f s i :
  find_char f s = Some i ↔ (∃ c, s !! i = Some c ∧ f c = true) ∧ ∀ j c, j < i → s !! j = Some c → f c = false.
Proof.
  unfold find_char. rewrite fmap_Some. split.
  - intros ([j c] & (Hj & Hc & Hmin)%list_find_Some & ->). split; [eauto|]. intros k d Hk Hd. apply not_true_iff_false. by eapply Hmin.
  - intros [(c & Hc & Hf) Hmin]. exists (i, c). split; [|done]. apply list_find_Some. split_and!; [done..|].
    intros j d Hd Hj. by rewrite (Hmin j d Hj Hd).
Qed.

Lemma find_char_None f s i c : find_char f s = None → s !! i = Some c → f c = false.
Proof.
  unfold find_char. intros H%fmap_None Hi. apply list_find_None in H. rewrite Forall_lookup in H. apply not_true_iff_false. by eapply H.
Qed.

Lemma boundary_start_spec s k : k < length s → ∃ b, word_boundary_start s k = Ret b ∧ (b = true ↔ boundary s k).
Proof.
  intros Hk. unfold word_boundary_start, char_at. destruct (lookup_lt_is_Some_2 s k Hk) as [c Hc]. rewrite Hc.
  eexists. split; [done|]. unfold boundary. destruct k as [|j]; cbn; [by rewrite orb_true_r|].
  destruct (lookup_lt_is_Some_2 s j) as [a Ha]; [lia|]. rewrite Ha, orb_true_iff, !negb_true_iff. split; [|intros H; destruct (H a c); auto].
  intros [H|H] a' b' Ha' Hb'; simplify_eq; auto.
Qed.

Lemma boundary_end_spec s k : 0 < k → k ≤ length s → ∃ b, word_boundary_end s k = Ret b ∧ (b = true ↔ boundary s k).
Proof.
  intros Hpos Hk. unfold word_boundary_end, char_at. destruct k as [|j]; [lia|]. destruct (Nat.eqb_spec (S j) (length s)) as [He|Hne].
  - exists true. split; [done|]. split; [|done]. intros _ a b _ Hb. apply lookup_lt_Some in Hb. lia.
  - destruct (lookup_lt_is_Some_2 s j) as [a Ha]; [lia|]. destruct (lookup_lt_is_Some_2 s (S j)) as [c Hc]; [lia|].
    cbn [find_prev_char]. rewrite Ha, Hc. destruct (is_word_char a) eqn:Hwa; cbn; eexists; (split; [done|]); cbn.
    + rewrite negb_true_iff. split; [|intros H; destruct (H a c); [done|done|congruence|done]]. intros H a' b' Ha' Hb'. simplify_eq. by right.
    + split; [|done]. intros _ a' b' Ha' Hb'. simplify_eq. by left.
Qed.

(** Boundaries of the rest of a text, from where a word starts. *)
Lemma boundary_drop s n k :
  (∀ a, find_prev_char s n = Some a → is_word_char a = false) → boundary (drop n s) k ↔ boundary s (n + k).
Proof.
  intros Hn. destruct k as [|k]; cbn.
  - rewrite Nat.add_0_r. split; [|done]. intros _. destruct n as [|n]; cbn in *; [done|]. intros a b Ha Hb. left. by apply Hn.
  - rewrite Nat.add_succ_r. cbn. rewrite !lookup_drop, Nat.add_succ_r. done.
Qed.

Lemma word_at_drop s p n k :
  (∀ a, find_prev_char s n = Some a → is_word_char a = false) → word_at (drop n s) p k ↔ word_at s p (n + k).
Proof. intros Hn. unfold word_at. by rewrite drop_drop, !boundary_drop, Nat.add_assoc. Qed.

Lemma find_char_least f s i c : s !! i = Some c → f c = true → ∃ j, find_char f s = Some j ∧ j ≤ i.
Proof.
  intros Hi Hf. destruct (find_char f s) as [j|] eqn:Hj; [|by rewrite (find_char_None _ _ _ _ Hj Hi) in Hf].
  exists j. split; [done|]. apply find_char_Some in Hj as [_ Hmin]. destruct (decide (j ≤ i)) as [|Hlt]; [done|].
  by rewrite (Hmin i c) in Hf by (done || lia).
Qed.

(** An occurrence that starts with a word character and is a word comes after a
    character that is not one. *)
Lemma next_word_from_word s p start k c :
  p !! 0 = Some c → is_word_char c = true → start < k → word_at s p k →
  ∃ non_word word, find_char (λ c, negb (is_word_char c)) (drop start s) = Some non_word ∧
    find_char is_word_char (drop non_word (drop start s)) = Some word ∧ start + non_word + word ≤ k.
Proof.
  intros Hp Hc Hk (Hpre & Hb & _). assert (s !! k = Some c) as Hsk by (rewrite <- (Nat.add_0_r k); by eapply prefix_lookup).
  destruct k as [|k]; [lia|]. destruct (lookup_lt_is_Some_2 s k) as [a Ha]; [apply lookup_lt_Some in Hsk; lia|].
  assert (is_word_char a = false) as Hwa by (destruct (Hb a c Ha Hsk); congruence).
  destruct (find_char_least (λ c, negb (is_word_char c)) (drop start s) (k - start) a) as (nw & Hnw & Hle).
  - rewrite lookup_drop. by replace (start + (k - start)) with k by lia.
  - by rewrite Hwa.
  - destruct (find_char_least is_word_char (drop nw (drop start s)) (S k - start - nw) c) as (wd & Hwd & Hle'); [|done|].
    + rewrite !lookup_drop. by replace (start + (nw + (S k - start - nw))) with (S k) by lia.
    + exists nw, wd. split_and!; [done..|lia].
Qed.

(** An occurrence that starts with another character and is not a word ends in a word
    character; the next occurrence cannot start before the first one of them. *)
Lemma next_word_from_other s p start k c :
  p `prefix_of` drop start s → p !! 0 = Some c → is_word_char c = false → ¬ word_at s p start → start < k → word_at s p k →
  ∃ non_word word, find_char (λ c, negb (is_word_char c)) (drop start s) = Some non_word ∧
    find_char is_word_char (drop non_word (drop start s)) = Some word ∧ start + non_word + word ≤ k.
Proof.
  intros Hpre Hp Hc Hnot Hk (Hpre' & _). assert (s !! start = Some c) as Hs by (rewrite <- (Nat.add_0_r start); by eapply prefix_lookup).
  destruct (length p) as [|m] eqn:Hlen; [apply lookup_lt_Some in Hp; lia|].
  destruct (lookup_lt_is_Some_2 p m) as [z Hz]; [lia|]. assert (is_word_char z = true) as Hwz.
  { destruct (is_word_char z) eqn:Hwz; [done|]. exfalso. apply Hnot. split_and!; [done|..].
    - destruct start; cbn; [done|]. intros a b _ Hb. right. congruence.
    - rewrite Hlen, Nat.add_succ_r. intros a b Ha _. left. rewrite (prefix_lookup p s start m z) in Ha by done. congruence. }
  destruct (find_char_least is_word_char p m z Hz Hwz) as (q & Hq & Hqm).
  pose proof Hq as [(d & Hd & Hwd) Hmin]%find_char_Some. exists 0, q. split_and!.
  - apply find_char_Some. split; [|intros; lia]. exists c. rewrite lookup_drop, Nat.add_0_r. by rewrite Hc.
  - apply find_char_Some. rewrite drop_0. split.
    + exists d. split; [|done]. rewrite lookup_drop. by eapply prefix_lookup.
    + intros j e Hj He. destruct (lookup_lt_is_Some_2 p j) as [e' He']; [lia|]. rewrite lookup_drop in He.
      rewrite (prefix_lookup p s start j e') in He by done. simplify_eq. by eapply Hmin.
  - destruct (decide (start + 0 + q ≤ k)) as [|Hlt]; [done|exfalso]. destruct (lookup_lt_is_Some_2 p (start + q - k)) as [e He]; [lia|].
    pose proof (prefix_lookup p s k _ e Hpre' He) as H1. pose proof (prefix_lookup p s start q d Hpre Hd) as H2.
    replace (k + (start + q - k)) with (start + q) in H1 by lia.
    assert (e = d) as -> by congruence. by rewrite (Hmin (start + q - k) d) in Hwd by (done || lia).
Qed.

(** The jump is sound: it goes to the start of a word. *)
Lemma next_word_start s start nw wd :
  find_char (λ c, negb (is_word_char c)) (drop start s) = Some nw → find_char is_word_char (drop nw (drop start s)) = Some wd →
  0 < nw + wd ∧ ∀ a, find_prev_char s (start + nw + wd) = Some a → is_word_char a = false.
Proof.
  intros [(c & Hc & Hnc) _]%find_char_Some [(d & Hd & Hwd) Hmin]%find_char_Some. rewrite lookup_drop in Hc. rewrite !lookup_drop in Hd.
  destruct wd as [|wd]; [rewrite Nat.add_0_r in Hd; simplify_eq; by rewrite Hwd in Hnc|]. split; [lia|].
  intros a. rewrite Nat.add_succ_r. cbn. intros Ha. apply (Hmin wd a); [lia|]. rewrite !lookup_drop, Nat.add_assoc. done.
Qed.

Section correctness.
Context `{!Regex}.

Lemma matches_word_loop_spec fuel s p :
  existsb is_wildcard p = false → p ≠ [] → length s < fuel →
  ∃ b, matches_word_loop fuel s p = Ret b ∧ (b = true ↔ ∃ k, word_at s p k).
Proof.
  revert s. induction fuel as [|fuel IH]; intros s Hwild Hp Hlen; [lia|]. cbn [matches_word_loop].
  case_bool_decide as Heq.
  { subst s. exists true. split; [done|]. split; [|done]. intros _. exists 0. split_and!; [done..|].
    destruct p as [|c p]; [done|]. intros a b _ Hb. apply lookup_lt_Some in Hb. cbn in Hb. lia. }
  rewrite bool_decide_eq_false_2, Hwild by done. destruct (find_text p s) as [start|] eqn:Hfind.
  2:{ exists false. split; [done|]. split; [done|]. intros (k & Hk & _). by eapply find_text_None in Hfind. }
  destruct (find_text_Some p s start Hfind) as [Hpre Hfirst].
  destruct p as [|c p'] eqn:Hpc; [done|]. rewrite <- Hpc in *. assert (p !! 0 = Some c) as H0 by by rewrite Hpc.
  assert (0 < length p) as Hlp by (rewrite Hpc; cbn; lia).
  assert (start + length p ≤ length s) as Hend by (pose proof (prefix_length _ _ Hpre) as Hle; rewrite length_drop in Hle; lia).
  destruct (boundary_start_spec s start) as (bs & -> & Hbs); [lia|].
  destruct (boundary_end_spec s (start + length p)) as (be & Hbe & Hbe'); [lia|lia|].
  assert ((if bs then word_boundary_end s (start + length p) else Ret false) = Ret (bs && be)) as -> by by destruct bs.
  destruct (bs && be) eqn:Hb.
  { apply andb_true_iff in Hb as [-> ->]. exists true. split; [done|]. split; [|done]. intros _. exists start. split_and!; tauto. }
  assert (¬ word_at s p start) as Hnot.
  { intros (_ & H1 & H2). apply Hbs in H1. apply Hbe' in H2. by subst. }
  assert (∀ k, word_at s p k → start < k) as Hafter.
  { intros k Hk. destruct (decide (k < start)) as [Hlt|?]; [by destruct (Hfirst k Hlt); apply Hk|].
    destruct (decide (k = start)) as [->|?]; [done|lia]. }
  assert (∀ k, word_at s p k → ∃ nw wd, find_char (λ c, negb (is_word_char c)) (drop start s) = Some nw ∧
    find_char is_word_char (drop nw (drop start s)) = Some wd ∧ start + nw + wd ≤ k) as Hnext.
  { intros k Hk. destruct (is_word_char c) eqn:Hc; [by eapply next_word_from_word; eauto|by eapply next_word_from_other; eauto]. }
  destruct (find_char _ (drop start s)) as [nw|] eqn:Hnw.
  2:{ exists false. split; [done|]. split; [done|]. intros [k Hk]. by destruct (Hnext k Hk) as (? & ? & ? & _). }
  destruct (find_char is_word_char _) as [wd|] eqn:Hwd.
  2:{ exists false. split; [done|]. split; [done|]. intros [k Hk]. destruct (Hnext k Hk) as (? & ? & ? & ? & _). congruence. }
  destruct (next_word_start s start nw wd Hnw Hwd) as [Hpos Hprev]. rewrite !drop_drop.
  destruct (IH (drop (start + nw + wd) s)) as (b & Hrun & Hiff); [done|done|rewrite length_drop; lia|].
  exists b. split; [by rewrite Nat.add_assoc|]. rewrite Hiff. split.
  - intros [k Hk]. exists (start + nw + wd + k). by apply word_at_drop.
  - intros [k Hk]. destruct (Hnext k Hk) as (nw' & wd' & [= <-] & Hw & Hle).
    rewrite Hwd in Hw. injection Hw as <-. exists (k - (start + nw + wd)).
    apply word_at_drop; [done|]. by replace (start + nw + wd + (k - (start + nw + wd))) with k by lia.
Qed.

(** Matching a pattern without wildcards: [matches_word] returns for every text,
    and it returns [true] exactly if the pattern occurs somewhere in the text with a
    word boundary at each of its ends. The search, which jumps from an occurrence that
    is not a word to the start of the next word, misses no occurrence and finds no
    wrong one; an empty pattern matches the empty text only. *)
Theorem matches_word_spec s p :
  existsb is_wildcard p = false →
  ∃ b, matches_word s p = Ret b ∧ (b = true ↔ if decide (p = []) then s = [] else ∃ k, word_at s p k).
Proof.
  intros Hwild. destruct (decide (p = [])) as [->|Hp]; [|by apply matches_word_loop_spec; [..|lia]].
  unfold matches_word. cbn. case_bool_decide; by eexists.
Qed.

End correctness.

(** ** Examples *)

(** A regex engine that accepts nothing: the patterns below have no wildcards. *)
Definition no_regex : Regex := {| escape t := t; regex_is_match _ _ := None |}.

Example matches_word_spec_witness :
  let s := bytes_of "foobar bar bar" in
  let p := bytes_of "bar bar" in
  @matches_word no_regex s p = Ret true ∧ ∃ k, word_at s p k.
Proof.
  intros s p. assert (@matches_word no_regex s p = Ret true) as Hm by by_vm. split; [done|].
  destruct (@matches_word_spec no_regex s p) as (b & Hb & Hiff); [done|]. rewrite Hm in Hb. injection Hb as <-.
  by apply Hiff.
Defined.

(** Of two wildcards in a row the second one is escaped and matched literally, where
    the comment in [wildcards_to_regex] takes runs of wildcards to be one chunk. *)
Lemma adjacent_wildcards_escaped `{!Regex} :
  regex_chunks (bytes_of "a??") = [escape (bytes_of "a"); bytes_of ".{1}"; escape (bytes_of "?")] ∧
  regex_chunks (bytes_of "a**b") = [escape (bytes_of "a"); bytes_of ".{0,}"; escape (bytes_of "*b")].
Proof. split; reflexivity. Qed.
