(* ===== verification/FlatJson.v ===== *)
(** * Flattened events

    [crates/common-types/src/push/condition/flattened_json.rs]: the properties of an
    event by their dot-separated paths, as push conditions name them. An object of
    serde_json is a map; here it is the list of its fields in the order of their keys. *)

From S2P Require Import Prelude.

(** [serde_json::Value]; a number is what [as_i64] makes of it. *)
Inductive JsonValue :=
| JNull
| JBool (b : bool)
| JNumber (as_i64 : option Z)
| JString (s : string)
| JArray (vec : list JsonValue)
| JObject (fields : list (string * JsonValue)).

Inductive ScalarJsonValue := SNull | SBool (b : bool) | SInteger (i : Z) | SString (s : string).

#[export] Instance ScalarJsonValue_eq_dec : EqDecision ScalarJsonValue.
Proof. solve_decision. Defined.

Inductive FlattenedJsonValue :=
| FNull
| FBool (b : bool)
| FInteger (i : Z)
| FString (s : string)
| FArray (values : list ScalarJsonValue)
| FEmptyObject.

(** [Int::try_from] of js_int, the integers that a double holds exactly *)
Definition int_try_from (i : Z) : option Z := if (Z.abs i <=? 2 ^ 53 - 1)%Z then Some i else None.

(** [ScalarJsonValue::try_from_json_value]; [None]: an error *)
Definition scalar_try_from (val : JsonValue) : option ScalarJsonValue :=
  match val with
  | JBool b => Some (SBool b)
  | JNumber num => i ← num; SInteger <$> int_try_from i
  | JString s => Some (SString s)
  | JNull => Some SNull
  | JArray _ | JObject _ => None
  end.

Definition from_json_value (val : JsonValue) : option FlattenedJsonValue :=
  match val with
  | JBool b => Some (FBool b)
  | JNumber num => i ← num; FInteger <$> int_try_from i
  | JString s => Some (FString s)
  | JNull => Some FNull
  | JArray vec => Some (FArray (omap scalar_try_from vec))
  | JObject _ => None
  end.

Definition flat_as_bool (v : FlattenedJsonValue) : option bool := match v with FBool b => Some b | _ => None end.
Definition flat_as_integer (v : FlattenedJsonValue) : option Z := match v with FInteger i => Some i | _ => None end.
Definition flat_as_str (v : FlattenedJsonValue) : option string := match v with FString s => Some s | _ => None end.
Definition flat_as_array (v : FlattenedJsonValue) : option (list ScalarJsonValue) := match v with FArray a => Some a | _ => None end.

(** [PartialEq<ScalarJsonValue> for FlattenedJsonValue] *)
Definition flat_eq_scalar (v : FlattenedJsonValue) (other : ScalarJsonValue) : bool :=
  match v with
  | FNull => bool_decide (other = SNull)
  | FBool b => bool_decide (other = SBool b)
  | FInteger i => bool_decide (other = SInteger i)
  | FString s => bool_decide (other = SString s)
  | FArray _ | FEmptyObject => false
  end.

(** [str::replace] of one character by a string *)
Fixpoint str_replace (from : ascii) (to : string) (s : string) : string :=
  match s with
  | EmptyString => EmptyString
  | String c s => if Ascii.eqb c from then to +:+ str_replace from to s else String c (str_replace from to s)
  end.

Definition escape_key (key : string) : string := str_replace "." "\." (str_replace "\" "\\" key).

(** [flatten_value], and the path of a field below a path *)
Definition field_path (path key : string) : string :=
  let key := escape_key key in
  if bool_decide (path = "") then key else path +:+ "." +:+ key.

Fixpoint flatten_value (value : JsonValue) (path : string) (map : gmap string FlattenedJsonValue) : gmap string FlattenedJsonValue :=
  match value with
  | JObject [] => <[path := FEmptyObject]> map
  | JObject fields =>
      (fix flatten_fields (fields : list (string * JsonValue)) (map : gmap string FlattenedJsonValue) :=
         match fields with
         | [] => map
         | (key, value) :: fields => flatten_fields fields (flatten_value value (field_path path key) map)
         end) fields map
  | value => match from_json_value value with Some v => <[path := v]> map | None => map end
  end.

Abbreviation FlattenedJson := (gmap string FlattenedJsonValue).

Definition flatten (v : JsonValue) : FlattenedJson := flatten_value v "" ∅.

Definition get_str (path : string) (event : FlattenedJson) : option string := event !! path ≫= flat_as_str.

Definition contains_mentions (event : FlattenedJson) : bool :=
  existsb (λ '(s, _), String.eqb s "content.m\.mentions" || String.prefix "content.m\.mentions." s) (map_to_list event).

(** ** Paths *)

(** The path of a property: its keys, escaped and joined. *)
Definition path_of (keys : list string) : string := foldl field_path "" keys.

(** Reading a path back. *)
Definition cons_char (c : ascii) (keys : list string) : list string :=
  match keys with [] => [String c ""] | key :: keys => String c key :: keys end.

Fixpoint split_path (s : string) : list string :=
  match s with
  | EmptyString => [""]
  | String c rest =>
      if Ascii.eqb c "\" then match rest with String d rest => cons_char d (split_path rest) | EmptyString => [""] end
      else if Ascii.eqb c "." then "" :: split_path rest
      else cons_char c (split_path rest)
  end.

Definition escape_char (c : ascii) : string :=
  if Ascii.eqb c "\" then "\\" else if Ascii.eqb c "." then "\." else String c "".

Lemma app_empty s : "" +:+ s = s.
Proof. done. Qed.

Lemma app_char c s s' : String c s +:+ s' = String c (s +:+ s').
Proof. done. Qed.

Lemma escape_key_cons c key : escape_key (String c key) = escape_char c +:+ escape_key key.
Proof.
  unfold escape_key, escape_char. cbn. destruct (Ascii.eqb_spec c "\") as [->|Hb]; [done|]. cbn. by destruct (Ascii.eqb c ".").
Qed.

Lemma split_path_not_nil s : split_path s ≠ [].
Proof.
  assert (∀ c keys, cons_char c keys ≠ []) as Hc by (by intros c []).
  induction s as [s IH] using (induction_ltof1 _ String.length). destruct s as [|c s]; [done|]. cbn.
  destruct (Ascii.eqb c "\"); [destruct s; [done|apply Hc]|]. destruct (Ascii.eqb c "."); [done|apply Hc].
Qed.

Lemma split_escaped key rest : split_path (escape_key key +:+ rest) =
  match split_path rest with k :: ks => (key +:+ k) :: ks | [] => [] end.
Proof.
  induction key as [|c key IH]; [rewrite !app_empty; by destruct (split_path rest)|]. rewrite escape_key_cons. unfold escape_char.
  destruct (Ascii.eqb_spec c "\") as [->|Hb]; [|destruct (Ascii.eqb_spec c ".") as [->|Hd]]; rewrite !app_char, !app_empty; cbn.
  all: pose proof (split_path_not_nil rest); rewrite ?(proj2 (Ascii.eqb_neq _ _) Hb), ?(proj2 (Ascii.eqb_neq _ _) Hd), IH.
  all: by destruct (split_path rest).
Qed.


(** The keys below a path that is not empty. *)
Fixpoint path_tail (keys : list string) : string :=
  match keys with [] => "" | key :: keys => "." +:+ escape_key key +:+ path_tail keys end.

Lemma str_app_nil s : s +:+ "" = s.
Proof. induction s as [|c s IH]; [done|]. by rewrite app_char, IH. Qed.

Lemma path_below path keys : path ≠ "" → foldl field_path path keys = path +:+ path_tail keys.
Proof.
  revert path. induction keys as [|key keys IH]; intros path Hp; cbn; [by rewrite str_app_nil|].
  unfold field_path. rewrite bool_decide_eq_false_2 by done. rewrite IH by by destruct path. by rewrite !str_app_assoc.
Qed.

Lemma split_tail keys : split_path (path_tail keys) = "" :: keys.
Proof.
  induction keys as [|key keys IH]; [done|]. cbn [path_tail]. rewrite app_char, app_empty. cbn.
  by rewrite split_escaped, IH, str_app_nil.
Qed.

Lemma escape_key_empty key : key ≠ "" → escape_key key ≠ "".
Proof. destruct key as [|c key]; [done|]. rewrite escape_key_cons. unfold escape_char. by repeat case_match. Qed.

(** The keys of a property, when the first one is not empty, are read back from its
    path; the path of the whole event is empty. *)
Definition proper (keys : list string) : Prop := match keys with [] => True | key :: _ => key ≠ "" end.

Lemma path_of_cons key keys : key ≠ "" → path_of (key :: keys) = escape_key key +:+ path_tail keys.
Proof. intros Hk. unfold path_of. cbn. by apply path_below, escape_key_empty. Qed.

Lemma path_of_inj keys keys' : proper keys → proper keys' → path_of keys = path_of keys' → keys = keys'.
Proof.
  assert (∀ key keys, key ≠ "" → split_path (path_of (key :: keys)) = key :: keys) as Hsplit.
  { intros key ks Hk. by rewrite path_of_cons, split_escaped, split_tail, str_app_nil. }
  assert (∀ key keys, key ≠ "" → path_of (key :: keys) ≠ "") as Hne.
  { intros key ks Hk. rewrite path_of_cons by done. apply escape_key_empty in Hk. by destruct (escape_key key). }
  destruct keys as [|k ks], keys' as [|k' ks']; intros Hk Hk' Heq; [done|by destruct (Hne k' ks')|by destruct (Hne k ks)|].
  by rewrite <- (Hsplit k ks Hk), <- (Hsplit k' ks' Hk'), Heq.
Qed.

(** ** Properties by their path *)

(** Walking down the objects of a value. *)
Fixpoint property_at (v : JsonValue) (keys : list string) : option JsonValue :=
  match keys with
  | [] => Some v
  | key :: keys =>
      match v with
      | JObject fields => '(_, (_, v)) ← list_find (λ '(k, _), k = key) fields; property_at v keys
      | _ => None
      end
  end.

(** What a property is flattened to: nothing, if it is an object with fields. *)
Definition leaf_value (v : JsonValue) : option FlattenedJsonValue :=
  match v with JObject [] => Some FEmptyObject | JObject _ => None | v => from_json_value v end.

(** The keys of each object are distinct. *)
Inductive well_formed : JsonValue → Prop :=
| wf_other v : (∀ fields, v ≠ JObject fields) → well_formed v
| wf_object fields : NoDup fields.*1 → Forall well_formed fields.*2 → well_formed (JObject fields).

Definition leaves_of (leaves : JsonValue → list (list string * FlattenedJsonValue)) : list (string * JsonValue) → list (list string * FlattenedJsonValue) :=
  fix go fields := match fields with [] => [] | (key, v) :: fields => (prod_map (cons key) id <$> leaves v) ++ go fields end.

Fixpoint leaves (v : JsonValue) : list (list string * FlattenedJsonValue) :=
  match v with
  | JObject [] => [([], FEmptyObject)]
  | JObject fields => leaves_of leaves fields
  | v => match from_json_value v with Some f => [([], f)] | None => [] end
  end.

Definition put_leaf (keys : list string) (m : FlattenedJson) (leaf : list string * FlattenedJsonValue) : FlattenedJson :=
  <[path_of (keys ++ leaf.1) := leaf.2]> m.

Lemma JsonValue_nested_ind (P : JsonValue → Prop) :
  (∀ v, (∀ fields, v ≠ JObject fields) → P v) → (∀ fields, Forall P fields.*2 → P (JObject fields)) → ∀ v, P v.
Proof.
  intros Hother Hobject. fix IH 1. intros [| | | | |fields]; [by apply Hother..|]. apply Hobject.
  induction fields as [|[key v] fields IHf]; constructor; [apply IH|exact IHf].
Qed.

Lemma path_of_snoc keys key : path_of (keys ++ [key]) = field_path (path_of keys) key.
Proof. unfold path_of. by rewrite foldl_app. Qed.

Lemma put_leaves_below keys key m ls :
  foldl (put_leaf (keys ++ [key])) m ls = foldl (put_leaf keys) m (prod_map (cons key) id <$> ls).
Proof.
  revert m. induction ls as [|leaf ls IH]; intros m; [done|]. cbn. rewrite IH. unfold put_leaf. cbn. by rewrite <- app_assoc.
Qed.

Lemma flatten_leaves v keys m : flatten_value v (path_of keys) m = foldl (put_leaf keys) m (leaves v).
Proof.
  revert keys m. induction v as [v Hv|fields IH] using JsonValue_nested_ind; intros keys m.
  - destruct v; cbn -[from_json_value]; try (by destruct (Hv fields)); destruct (from_json_value _); cbn; unfold put_leaf; cbn; by rewrite ?app_nil_r.
  - destruct fields as [|[k0 v0] fields0] eqn:Hf; [cbn; unfold put_leaf; by rewrite app_nil_r|]. rewrite <- Hf in *.
    assert (∀ m, (fix flatten_fields (fields : list (string * JsonValue)) (map : gmap string FlattenedJsonValue) :=
         match fields with
         | [] => map
         | (key, value) :: fields => flatten_fields fields (flatten_value value (field_path (path_of keys) key) map)
         end) fields m = foldl (put_leaf keys) m (leaves_of leaves fields)) as Hfields.
    { clear Hf. induction fields as [|[key v] fields IHf]; intros m'; [done|]. apply Forall_cons in IH as [IHv IH]. cbn.
      by rewrite foldl_app, <- (IHf IH), <- path_of_snoc, IHv, put_leaves_below. }
    specialize (Hfields m). rewrite Hf in Hfields |- *. exact Hfields.
Qed.

Lemma elem_of_leaves_of fields keys f :
  (keys, f) ∈ leaves_of leaves fields ↔ ∃ key v ks, keys = key :: ks ∧ (key, v) ∈ fields ∧ (ks, f) ∈ leaves v.
Proof.
  induction fields as [|[key v] fields IH]; cbn; [set_solver|]. rewrite elem_of_app, IH, list_elem_of_fmap. split.
  - intros [([ks f'] & [= -> ->] & Hin)|(key' & v' & ks & -> & Hin & Hl)]; [by exists key, v, ks; split_and!; [|left|]|].
    exists key', v', ks. split_and!; [done|by right|done].
  - intros (key' & v' & ks & -> & [[= -> ->]|Hin]%elem_of_cons & Hl); [left; by exists (ks, f)|right; by exists key', v', ks].
Qed.

Lemma find_field (fields : list (string * JsonValue)) key :
  NoDup fields.*1 → ∀ v, (key, v) ∈ fields ↔ ∃ i, list_find (λ '(k, _), k = key) fields = Some (i, (key, v)).
Proof.
  intros Hnd v. split.
  - intros [i Hi]%list_elem_of_lookup. exists i. apply list_find_Some. split_and!; [done..|]. intros j [k' v'] Hj Hlt ->.
    assert (j = i); [|lia]. eapply NoDup_lookup; [done|by rewrite list_lookup_fmap, Hj|by rewrite list_lookup_fmap, Hi].
  - intros [i (Hi & _)%list_find_Some]. by eapply list_elem_of_lookup_2.
Qed.

Lemma leaves_lookup v keys f : well_formed v → (keys, f) ∈ leaves v ↔ property_at v keys ≫= leaf_value = Some f.
Proof.
  revert keys. induction v as [v Hv|fields IH] using JsonValue_nested_ind; intros keys Hwf.
  - assert (leaf_value v = from_json_value v ∧ leaves v = match from_json_value v with Some f => [([], f)] | None => [] end) as [Hl ->]
      by (destruct v; try done; by destruct (Hv fields)).
    destruct keys as [|key keys]; cbn.
    + rewrite Hl. destruct (from_json_value v); [|set_solver]. rewrite list_elem_of_singleton. naive_solver.
    + destruct v; try (by destruct (Hv fields)); cbn -[from_json_value]; destruct (from_json_value _); set_solver.
  - inv Hwf as [? Hne|? Hnd Hall]; [by destruct (Hne fields)|]. destruct (decide (fields = [])) as [->|Hne].
    { destruct keys as [|key keys]; cbn; rewrite list_elem_of_singleton; naive_solver. }
    assert (leaves (JObject fields) = leaves_of leaves fields) as -> by by destruct fields.
    rewrite elem_of_leaves_of. destruct keys as [|key keys]; [cbn; destruct fields; naive_solver|]. cbn. rewrite Forall_fmap in IH, Hall.
    rewrite Forall_forall in IH, Hall. split.
    + intros (k & v & ks & [= <- <-] & Hin & Hl). pose proof Hin as [i ->]%find_field; [|done]. cbn. apply (IH _ Hin); [|done]. by apply (Hall _ Hin).
    + destruct (list_find _ fields) as [[i [k v]]|] eqn:Hf; [|done]. cbn. intros Hp.
      assert (k = key) as -> by by apply list_find_Some in Hf as (_ & ? & _).
      assert ((key, v) ∈ fields) as Hin by (apply find_field; eauto). exists key, v, keys. split_and!; [done..|].
      apply (IH _ Hin); [|done]. by apply (Hall _ Hin).
Qed.

(** The first keys of the properties of an event. *)
Definition keys_ok (v : JsonValue) : Prop := match v with JObject fields => "" ∉ fields.*1 | _ => True end.

Lemma leaves_proper v keys f : keys_ok v → (keys, f) ∈ leaves v → proper keys.
Proof.
  destruct v as [| | | | |fields]; intros Hok; try (cbn; repeat case_match; set_solver).
  intros Hin. destruct (decide (fields = [])) as [->|Hne]; [cbn in Hin; set_solver|].
  assert (leaves (JObject fields) = leaves_of leaves fields) as Hl by by destruct fields.
  rewrite Hl in Hin. apply elem_of_leaves_of in Hin as (key & v & ks & -> & Hin & _). intros ->. apply Hok. apply list_elem_of_fmap. by exists ("", v).
Qed.

(** Leaves with different paths, put into a map. *)
Lemma put_leaves_lookup ls q f :
  (∀ x y, x ∈ ls → y ∈ ls → path_of x.1 = path_of y.1 → x = y) →
  foldl (put_leaf []) ∅ ls !! q = Some f ↔ ∃ keys, q = path_of keys ∧ (keys, f) ∈ ls.
Proof.
  induction ls as [|[ks g] ls IH] using rev_ind; intros Hinj; [set_solver|]. rewrite foldl_app. cbn. unfold put_leaf at 1. cbn.
  destruct (decide (path_of ks = q)) as [<-|Hne].
  - rewrite lookup_insert_eq. split; [intros [= <-]; exists ks; set_solver|]. intros (keys & Heq & Hin). f_equal.
    assert ((ks, g) = (keys, f)) as [= _ ->]; [|done]. apply Hinj; [set_solver|done|done].
  - rewrite lookup_insert_ne, IH by (done || set_solver). split; [set_solver|]. intros (keys & -> & [Hin|Hin]%elem_of_app); [eauto|].
    apply list_elem_of_singleton in Hin. by simplify_eq.
Qed.

(** Flattening keeps every property of an event under its path and adds nothing:
    for an event whose objects have distinct keys and whose own keys are not empty,
    looking up the path of a list of keys, in which dots and backslashes are escaped,
    gives what walking down the objects along the keys finds. No two properties share
    a path, whatever characters their keys have. *)
Theorem flatten_lookup v keys :
  well_formed v → keys_ok v → proper keys → flatten v !! path_of keys = property_at v keys ≫= leaf_value.
Proof.
  intros Hwf Hok Hp. apply option_eq. intros f. rewrite <- leaves_lookup by done. unfold flatten.
  change "" with (path_of []). rewrite flatten_leaves, put_leaves_lookup.
  - split; [|eauto]. intros (keys' & Heq & Hin). apply path_of_inj in Heq as ->; [done|done|]. by eapply leaves_proper.
  - intros [ks1 f1] [ks2 f2] H1 H2 Heq. cbn in Heq. apply path_of_inj in Heq as ->; [|by eapply leaves_proper..]. f_equal.
    apply leaves_lookup in H1, H2; [|done..]. congruence.
Qed.

(** ** Examples *)

Definition sample_message : JsonValue :=
  JObject [("content", JObject [("body", JString "hi"); ("m.mentions", JObject [])]); ("sender", JString "@a:b")].

Lemma sample_message_wf : well_formed sample_message.
Proof.
  apply wf_object; [by_decide|]. constructor; [|constructor; [by apply wf_other|constructor]].
  apply wf_object; [by_decide|]. constructor; [by apply wf_other|]. constructor; [|constructor]. apply wf_object; constructor.
Qed.

Lemma sample_message_keys : keys_ok sample_message.
Proof. cbn. by_decide. Qed.

Example flatten_lookup_witness :
  flatten sample_message !! "content.m\.mentions" = Some FEmptyObject ∧
  flatten sample_message !! path_of ["content"; "body"] = Some (FString "hi").
Proof.
  split.
  - change "content.m\.mentions" with (path_of ["content"; "m.mentions"]).
    by rewrite (flatten_lookup sample_message ["content"; "m.mentions"] sample_message_wf sample_message_keys).
  - by rewrite (flatten_lookup sample_message ["content"; "body"] sample_message_wf sample_message_keys).
Defined.

(** Below an empty key at the top, a property gets the path of a property of the event. *)
Lemma empty_key_collides :
  flatten (JObject [("", JObject [("sender", JString "@a:b")])]) !! path_of ["sender"] = Some (FString "@a:b").
Proof. by_vm. Qed.
