(* ===== verification/Push.v ===== *)
(** * Push rules

    [crates/common-types/src/push.rs], [push/iter.rs], [push/condition.rs] and
    [push/predefined.rs]: conditions, rules, rule sets and the operations on them, and
    the choice of the rule that applies to an event. The unstable features are off, as
    they are by default.

    A rule set keeps the rules of each kind in an [IndexSet] of the indexmap crate, a
    parameter here; its documented behaviour is said by the list of its elements, in
    their order. An operation that changes a rule set returns the new one, also with an
    error. *)

From S2P Require Import Prelude Identifiers WordMatch FlatJson.

(** ** Rules *)

Inductive Tweak := Sound (value : string) | Highlight (value : bool) | CustomTweak (set_tweak : string).

Inductive Action := Notify | SetTweak (t : Tweak) | CustomAction (data : string).

Definition is_highlight (a : Action) : bool := match a with SetTweak (Highlight true) => true | _ => false end.
Definition should_notify (a : Action) : bool := match a with Notify => true | _ => false end.
Definition sound (a : Action) : option string := match a with SetTweak (Sound s) => Some s | _ => None end.

Inductive ComparisonOperator := OpEq | OpLt | OpGt | OpGe | OpLe.

Record RoomMemberCountIs := { prefix : ComparisonOperator; count : Z }.

Inductive NotificationPowerLevelsKey := KeyRoom | KeyCustom (key : string).

Inductive PushCondition :=
| EventMatch (key pattern : string)
| ContainsDisplayName
| RoomMemberCount (is_ : RoomMemberCountIs)
| SenderNotificationPermission (key : NotificationPowerLevelsKey)
| EventPropertyIs (key : string) (value : ScalarJsonValue)
| EventPropertyContains (key : string) (value : ScalarJsonValue)
| CustomCondition (kind : string).

Record SimplePushRule := { s_actions : list Action; s_default : bool; s_enabled : bool; s_rule_id : string }.
Record ConditionalPushRule :=
  { c_actions : list Action; c_default : bool; c_enabled : bool; c_rule_id : string; c_conditions : list PushCondition }.
Record PatternedPushRule := { p_actions : list Action; p_default : bool; p_enabled : bool; p_rule_id : string; p_pattern : string }.

(** What the three kinds of rules have in common. *)
Class Rule (T : Type) : Type := {
  rule_id : T → string;
  actions : T → list Action;
  enabled : T → bool;
  default_ : T → bool;
  with_enabled : bool → T → T;
  with_actions : list Action → T → T;
  with_enabled_id b r : rule_id (with_enabled b r) = rule_id r;
  with_enabled_default b r : default_ (with_enabled b r) = default_ r;
  with_actions_id a r : rule_id (with_actions a r) = rule_id r;
  with_actions_default a r : default_ (with_actions a r) = default_ r
}.

#[export] Program Instance simple_rule : Rule SimplePushRule := {|
  rule_id := s_rule_id; actions := s_actions; enabled := s_enabled; default_ := s_default;
  with_enabled b r := {| s_actions := s_actions r; s_default := s_default r; s_enabled := b; s_rule_id := s_rule_id r |};
  with_actions a r := {| s_actions := a; s_default := s_default r; s_enabled := s_enabled r; s_rule_id := s_rule_id r |}
|}.
Solve Obligations with done.

#[export] Program Instance conditional_rule : Rule ConditionalPushRule := {|
  rule_id := c_rule_id; actions := c_actions; enabled := c_enabled; default_ := c_default;
  with_enabled b r := {| c_actions := c_actions r; c_default := c_default r; c_enabled := b; c_rule_id := c_rule_id r; c_conditions := c_conditions r |};
  with_actions a r := {| c_actions := a; c_default := c_default r; c_enabled := c_enabled r; c_rule_id := c_rule_id r; c_conditions := c_conditions r |}
|}.
Solve Obligations with done.

#[export] Program Instance patterned_rule : Rule PatternedPushRule := {|
  rule_id := p_rule_id; actions := p_actions; enabled := p_enabled; default_ := p_default;
  with_enabled b r := {| p_actions := p_actions r; p_default := p_default r; p_enabled := b; p_rule_id := p_rule_id r; p_pattern := p_pattern r |};
  with_actions a r := {| p_actions := a; p_default := p_default r; p_enabled := p_enabled r; p_rule_id := p_rule_id r; p_pattern := p_pattern r |}
|}.
Solve Obligations with done.

(** ** Ordered sets *)

(** What the operations of an [IndexSet] do to its elements, which are equal when
    their rule identifiers are. *)
Section lists.
Context {T : Type} `{!Rule T}.
Implicit Types (l : list T) (x : T) (id : string).

Definition find_rule id l : option (nat * T) := list_find (λ x, rule_id x = id) l.

Definition list_replace_full x l : nat * option T * list T :=
  match find_rule (rule_id x) l with
  | Some (i, old) => (i, Some old, <[i := x]> l)
  | None => (length l, None, l ++ [x])
  end.

Definition insert_at (k : nat) x l : list T := take k l ++ x :: drop k l.

(** Panics if one of the indices is out of bounds. *)
Definition list_move_index (from to : nat) l : outcome Empty_set (list T) :=
  match l !! from with
  | Some x => if to <? length l then Ret (insert_at to x (delete from l)) else Panic
  | None => Panic
  end.

Definition list_shift_remove id l : list T :=
  match find_rule id l with Some (i, _) => delete i l | None => l end.

End lists.

Class IndexSets : Type := {
  IndexSet : Type → Type;
  items {T} : IndexSet T → list T;
  from_items {T} `{!Rule T} : list T → IndexSet T;
  get {T} `{!Rule T} : string → IndexSet T → option T;
  get_index_of {T} `{!Rule T} : string → IndexSet T → option nat;
  replace_full {T} `{!Rule T} : T → IndexSet T → nat * option T * IndexSet T;
  move_index {T} `{!Rule T} : nat → nat → IndexSet T → outcome Empty_set (IndexSet T);
  shift_remove {T} `{!Rule T} : string → IndexSet T → IndexSet T;
  items_from_items {T} `{!Rule T} (l : list T) : NoDup (rule_id <$> l) → items (from_items l) = l;
  get_spec {T} `{!Rule T} id (s : IndexSet T) : get id s = snd <$> find_rule id (items s);
  get_index_of_spec {T} `{!Rule T} id (s : IndexSet T) : get_index_of id s = fst <$> find_rule id (items s);
  replace_full_spec {T} `{!Rule T} x (s : IndexSet T) :
    (let '(i, old, s') := replace_full x s in (i, old, items s')) = list_replace_full x (items s);
  move_index_spec {T} `{!Rule T} from to (s : IndexSet T) :
    (let! s' := move_index from to s in Ret (items s')) = list_move_index from to (items s);
  shift_remove_spec {T} `{!Rule T} id (s : IndexSet T) : items (shift_remove id s) = list_shift_remove id (items s)
}.

(** ** Inserting a rule *)

Inductive InsertPushRuleError := ServerDefaultRuleId | InvalidRuleId | RelativeToServerDefaultRule | UnknownRuleId | BeforeHigherThanAfter.

Inductive RemovePushRuleError := ServerDefault | NotFound.

Inductive RuleKind := KOverride | KUnderride | KSender | KRoom | KContent | KCustom (kind : string).

Section sets.
Context {sets : IndexSets}.

Definition insert_and_move_rule {T} `{!Rule T} (set : IndexSet T) (rule : T) (default_position : nat) (after before : option string) :
    outcome Empty_set (result InsertPushRuleError () * IndexSet T) :=
  let '(from, replaced, set) := replace_full rule set in
  let after_ :=
    match after with
    | Some rule_id => match get_index_of rule_id set with Some idx => Ok (idx + 1) | None => Err UnknownRuleId end
    | None => Ok default_position
    end in
  match after_ with
  | Err e => Ret (Err e, set)
  | Ok to =>
      let before_ :=
        match before with
        | Some rule_id =>
            match get_index_of rule_id set with
            | Some idx => if idx <? to then Err BeforeHigherThanAfter else Ok idx
            | None => Err UnknownRuleId
            end
        | None => Ok to
        end in
      match before_ with
      | Err e => Ret (Err e, set)
      | Ok to =>
          if negb (bool_decide (is_Some replaced)) || bool_decide (is_Some after) || bool_decide (is_Some before) then
            let! set := move_index from to set in Ret (Ok (), set)
          else Ret (Ok (), set)
      end
  end.

(** ** Rule sets *)

Record Ruleset := {
  content : IndexSet PatternedPushRule;
  override_ : IndexSet ConditionalPushRule;
  room : IndexSet SimplePushRule;
  sender : IndexSet SimplePushRule;
  underride : IndexSet ConditionalPushRule
}.

Definition set_override s (r : Ruleset) : Ruleset :=
  {| content := content r; override_ := s; room := room r; sender := sender r; underride := underride r |}.
Definition set_underride s (r : Ruleset) : Ruleset :=
  {| content := content r; override_ := override_ r; room := room r; sender := sender r; underride := s |}.
Definition set_content s (r : Ruleset) : Ruleset :=
  {| content := s; override_ := override_ r; room := room r; sender := sender r; underride := underride r |}.
Definition set_room s (r : Ruleset) : Ruleset :=
  {| content := content r; override_ := override_ r; room := s; sender := sender r; underride := underride r |}.
Definition set_sender s (r : Ruleset) : Ruleset :=
  {| content := content r; override_ := override_ r; room := room r; sender := s; underride := underride r |}.

(** A rule to update or create, with the kind of the rule. *)
Inductive NewPushRule :=
| NewOverride (rule_id : string) (conditions : list PushCondition) (actions : list Action)
| NewContent (rule_id pattern : string) (actions : list Action)
| NewRoom (rule_id : string) (actions : list Action)
| NewSender (rule_id : string) (actions : list Action)
| NewUnderride (rule_id : string) (conditions : list PushCondition) (actions : list Action).

Definition new_rule_id (r : NewPushRule) : string :=
  match r with NewOverride id _ _ | NewContent id _ _ | NewRoom id _ | NewSender id _ | NewUnderride id _ _ => id end.

(** [From<NewConditionalPushRule>], [From<NewPatternedPushRule>] and [From<NewSimplePushRule>] *)
Definition new_conditional (id : string) (conditions : list PushCondition) (acts : list Action) : ConditionalPushRule :=
  {| c_actions := acts; c_default := false; c_enabled := true; c_rule_id := id; c_conditions := conditions |}.
Definition new_patterned (id pattern : string) (acts : list Action) : PatternedPushRule :=
  {| p_actions := acts; p_default := false; p_enabled := true; p_rule_id := id; p_pattern := pattern |}.
Definition new_simple (id : string) (acts : list Action) : SimplePushRule :=
  {| s_actions := acts; s_default := false; s_enabled := true; s_rule_id := id |}.

(** A rule that replaces another one keeps its state. *)
Definition keep_enabled {T} `{!Rule T} (set : IndexSet T) (rule : T) : T :=
  match get (rule_id rule) set with Some prev_rule => with_enabled (enabled prev_rule) rule | None => rule end.

Definition opt_starts_with (c : ascii) (s : option string) : bool := match s with Some s => str_starts_with c s | None => false end.

Definition insert (rule : NewPushRule) (after before : option string) (r : Ruleset) :
    outcome Empty_set (result InsertPushRuleError () * Ruleset) :=
  let id := new_rule_id rule in
  if str_starts_with "." id then Ret (Err ServerDefaultRuleId, r)
  else if str_contains "/" id then Ret (Err InvalidRuleId, r)
  else if str_contains "\" id then Ret (Err InvalidRuleId, r)
  else if opt_starts_with "." after then Ret (Err RelativeToServerDefaultRule, r)
  else if opt_starts_with "." before then Ret (Err RelativeToServerDefaultRule, r)
  else
    match rule with
    | NewOverride id conditions acts =>
        let rule := keep_enabled (override_ r) (new_conditional id conditions acts) in
        let! (res, s) := insert_and_move_rule (override_ r) rule 1 after before in Ret (res, set_override s r)
    | NewUnderride id conditions acts =>
        let rule := keep_enabled (underride r) (new_conditional id conditions acts) in
        let! (res, s) := insert_and_move_rule (underride r) rule 0 after before in Ret (res, set_underride s r)
    | NewContent id pattern acts =>
        let rule := keep_enabled (content r) (new_patterned id pattern acts) in
        let! (res, s) := insert_and_move_rule (content r) rule 0 after before in Ret (res, set_content s r)
    | NewRoom id acts =>
        let rule := keep_enabled (room r) (new_simple id acts) in
        let! (res, s) := insert_and_move_rule (room r) rule 0 after before in Ret (res, set_room s r)
    | NewSender id acts =>
        let rule := keep_enabled (sender r) (new_simple id acts) in
        let! (res, s) := insert_and_move_rule (sender r) rule 0 after before in Ret (res, set_sender s r)
    end.

(** [AnyPushRuleRef] *)
Inductive AnyPushRule :=
| Override (rule : ConditionalPushRule)
| Content (rule : PatternedPushRule)
| Room (rule : SimplePushRule)
| Sender (rule : SimplePushRule)
| Underride (rule : ConditionalPushRule).

Definition any_actions (r : AnyPushRule) : list Action :=
  match r with Override r | Underride r => c_actions r | Content r => p_actions r | Room r | Sender r => s_actions r end.

Definition triggers_highlight (r : AnyPushRule) : bool := existsb is_highlight (any_actions r).
Definition triggers_notification (r : AnyPushRule) : bool := existsb should_notify (any_actions r).
Definition triggers_sound (r : AnyPushRule) : option string := head (omap sound (any_actions r)).

Definition is_server_default (r : AnyPushRule) : bool :=
  match r with Override r | Underride r => c_default r | Content r => p_default r | Room r | Sender r => s_default r end.

Definition get_rule (kind : RuleKind) (id : string) (r : Ruleset) : option AnyPushRule :=
  match kind with
  | KOverride => Override <$> get id (override_ r)
  | KUnderride => Underride <$> get id (underride r)
  | KSender => Sender <$> get id (sender r)
  | KRoom => Room <$> get id (room r)
  | KContent => Content <$> get id (content r)
  | KCustom _ => None
  end.

(** [set_enabled] and [set_actions] replace a rule by a changed copy; [None]: [RuleNotFoundError] *)
Definition change_rule {T} `{!Rule T} (f : T → T) (id : string) (set : IndexSet T) : option (IndexSet T) :=
  rule ← get id set; let '(_, _, set) := replace_full (f rule) set in Some set.

Definition set_enabled (kind : RuleKind) (id : string) (b : bool) (r : Ruleset) : option Ruleset :=
  match kind with
  | KOverride => s ← change_rule (with_enabled b) id (override_ r); Some (set_override s r)
  | KUnderride => s ← change_rule (with_enabled b) id (underride r); Some (set_underride s r)
  | KSender => s ← change_rule (with_enabled b) id (sender r); Some (set_sender s r)
  | KRoom => s ← change_rule (with_enabled b) id (room r); Some (set_room s r)
  | KContent => s ← change_rule (with_enabled b) id (content r); Some (set_content s r)
  | KCustom _ => None
  end.

Definition set_actions (kind : RuleKind) (id : string) (a : list Action) (r : Ruleset) : option Ruleset :=
  match kind with
  | KOverride => s ← change_rule (with_actions a) id (override_ r); Some (set_override s r)
  | KUnderride => s ← change_rule (with_actions a) id (underride r); Some (set_underride s r)
  | KSender => s ← change_rule (with_actions a) id (sender r); Some (set_sender s r)
  | KRoom => s ← change_rule (with_actions a) id (room r); Some (set_room s r)
  | KContent => s ← change_rule (with_actions a) id (content r); Some (set_content s r)
  | KCustom _ => None
  end.

Definition remove (kind : RuleKind) (id : string) (r : Ruleset) : result RemovePushRuleError Ruleset :=
  match get_rule kind id r with
  | None => Err NotFound
  | Some rule =>
      if is_server_default rule then Err ServerDefault
      else
        Ok (match kind with
            | KOverride => set_override (shift_remove id (override_ r)) r
            | KUnderride => set_underride (shift_remove id (underride r)) r
            | KSender => set_sender (shift_remove id (sender r)) r
            | KRoom => set_room (shift_remove id (room r)) r
            | KContent => set_content (shift_remove id (content r)) r
            | KCustom _ => r
            end)
  end.

(** [RulesetIter] *)
Definition iter (r : Ruleset) : list AnyPushRule :=
  (Override <$> items (override_ r)) ++ (Content <$> items (content r)) ++ (Room <$> items (room r)) ++
  (Sender <$> items (sender r)) ++ (Underride <$> items (underride r)).

(** [update_with_server_default]. The new rules are a rule set of default rules; it is
    consumed. A rule of the old set that has the identifier of a new one is taken out of
    the old set and gives the new one its state. *)
Definition MASTER : string := ".m.rule.master".

Fixpoint copy_rules_state {T} `{!Rule T} (new_rules : list T) (old : IndexSet T) : list T * IndexSet T :=
  match new_rules with
  | [] => ([], old)
  | new_rule :: new_rules =>
      let '(new_rule, old) :=
        match get (rule_id new_rule) old with
        | Some old_rule => (with_actions (actions old_rule) (with_enabled (enabled old_rule) new_rule), shift_remove (rule_id new_rule) old)
        | None => (new_rule, old)
        end in
      let '(new_rules, old) := copy_rules_state new_rules old in
      (new_rule :: new_rules, old)
  end.

Definition remove_default_rules {T} `{!Rule T} (old : IndexSet T) : IndexSet T :=
  from_items (List.filter (λ r, negb (default_ r)) (items old)).

(** [insert_full] and [extend]: an element that is there already stays. *)
Definition insert_full {T} `{!Rule T} (rule : T) (s : IndexSet T) : nat * IndexSet T :=
  match get_index_of (rule_id rule) s with
  | Some pos => (pos, s)
  | None => let '(pos, _, s) := replace_full rule s in (pos, s)
  end.

Fixpoint extend {T} `{!Rule T} (old : IndexSet T) (new_rules : list T) : IndexSet T :=
  match new_rules with
  | [] => old
  | rule :: new_rules =>
      let '(_, old) := insert_full rule old in extend old new_rules
  end.

Definition update_rules {T} `{!Rule T} (old new_server_default : IndexSet T) : list T * IndexSet T :=
  let '(new_rules, old) := copy_rules_state (items new_server_default) old in
  (new_rules, remove_default_rules old).

Definition update_with_server_default (new_server_default r : Ruleset) : outcome Empty_set Ruleset :=
  let '(new_override, old_override) := update_rules (override_ r) (override_ new_server_default) in
  let '(new_content, old_content) := update_rules (content r) (content new_server_default) in
  let '(new_room, old_room) := update_rules (room r) (room new_server_default) in
  let '(new_sender, old_sender) := update_rules (sender r) (sender new_server_default) in
  let '(new_underride, old_underride) := update_rules (underride r) (underride new_server_default) in
  let! (new_override, old_override) :=
    match find_rule MASTER new_override with
    | Some (i, master_rule) =>
        let '(pos, s) := insert_full master_rule old_override in
        let! s := move_index pos 0 s in Ret (delete i new_override, s)
    | None => Ret (new_override, old_override)
    end in
  Ret {| override_ := extend old_override new_override; content := extend old_content new_content; room := extend old_room new_room;
         sender := extend old_sender new_sender; underride := extend old_underride new_underride |}.

(** ** Conditions *)

Record PushConditionPowerLevelsCtx := {
  users : gmap string Z; users_default : Z; notifications_room : Z; privileged_creators : option (gset string)
}.

Record PushConditionRoomCtx := {
  room_id : string; member_count : Z; user_id : string; user_display_name : string;
  power_levels : option PushConditionPowerLevelsCtx
}.

(** [RangeBounds::contains] with the bounds of the condition *)
Definition count_contains (is_ : RoomMemberCountIs) (n : Z) : bool :=
  match prefix is_ with
  | OpEq => (n =? count is_)%Z
  | OpLt => (n <? count is_)%Z
  | OpGt => (count is_ <? n)%Z
  | OpGe => (count is_ <=? n)%Z
  | OpLe => (n <=? count is_)%Z
  end.

Definition has_sender_notification_permission (c : PushConditionPowerLevelsCtx) (user : string) (key : NotificationPowerLevelsKey) : bool :=
  match key with
  | KeyCustom _ => false
  | KeyRoom =>
      if match privileged_creators c with Some creators => bool_decide (user ∈ creators) | None => false end then true
      else (notifications_room c <=? default (users_default c) (users c !! user))%Z
  end.

Section conditions.
(** The lower case of a string, and the wildmatch crate. *)
Context {re : Regex} (to_lowercase : text → text) (wild_match : text → text → bool).

Definition matches_pattern (value pattern : string) (match_words : bool) : outcome Empty_set bool :=
  let value := to_lowercase (bytes_of value) in
  let pattern := to_lowercase (bytes_of pattern) in
  if match_words then matches_word value pattern else Ret (wild_match pattern value).

Definition check_event_match (event : FlattenedJson) (key pattern : string) (context : PushConditionRoomCtx) : outcome Empty_set bool :=
  match (if String.eqb key "room_id" then Some (room_id context) else get_str key event) with
  | Some value => matches_pattern value pattern (String.eqb key "content.body")
  | None => Ret false
  end.

Definition is_own (event : FlattenedJson) (context : PushConditionRoomCtx) : bool :=
  bool_decide (get_str "sender" event = Some (user_id context)).

Definition condition_applies (event : FlattenedJson) (context : PushConditionRoomCtx) (c : PushCondition) : outcome Empty_set bool :=
  if is_own event context then Ret false
  else
    match c with
    | EventMatch key pattern => check_event_match event key pattern context
    | ContainsDisplayName =>
        match get_str "content.body" event with
        | Some value => matches_pattern value (user_display_name context) true
        | None => Ret false
        end
    | RoomMemberCount is_ => Ret (count_contains is_ (member_count context))
    | SenderNotificationPermission key =>
        match power_levels context, get_str "sender" event with
        | Some levels, Some sender_id =>
            match user_id_validate sender_id with
            | Ret _ => Ret (has_sender_notification_permission levels sender_id key)
            | Throw _ => Ret false
            | Panic => Panic
            | OutOfFuel => OutOfFuel
            end
        | _, _ => Ret false
        end
    | EventPropertyIs key value => Ret (match event !! key with Some v => flat_eq_scalar v value | None => false end)
    | EventPropertyContains key value =>
        Ret (match event !! key ≫= flat_as_array with Some a => bool_decide (value ∈ a) | None => false end)
    | CustomCondition _ => Ret false
    end.

Fixpoint all_apply (event : FlattenedJson) (context : PushConditionRoomCtx) (conditions : list PushCondition) : outcome Empty_set bool :=
  match conditions with
  | [] => Ret true
  | c :: conditions =>
      let! b := condition_applies event context c in
      if b : bool then all_apply event context conditions else Ret false
  end.

Definition conditional_applies (event : FlattenedJson) (context : PushConditionRoomCtx) (r : ConditionalPushRule) : outcome Empty_set bool :=
  if negb (c_enabled r) then Ret false
  else if (String.eqb (c_rule_id r) ".m.rule.roomnotif" || String.eqb (c_rule_id r) ".m.rule.contains_display_name")
          && contains_mentions event then Ret false
  else all_apply event context (c_conditions r).

Definition patterned_applies_to (key : string) (event : FlattenedJson) (context : PushConditionRoomCtx) (r : PatternedPushRule) :
    outcome Empty_set bool :=
  if String.eqb (p_rule_id r) ".m.rule.contains_user_name" && contains_mentions event then Ret false
  else if is_own event context then Ret false
  else if p_enabled r then check_event_match event key (p_pattern r) context
  else Ret false.

Definition rule_applies (event : FlattenedJson) (context : PushConditionRoomCtx) (r : AnyPushRule) : outcome Empty_set bool :=
  if is_own event context then Ret false
  else
    match r with
    | Override r | Underride r => conditional_applies event context r
    | Content r => patterned_applies_to "content.body" event context r
    | Room r => if s_enabled r then check_event_match event "room_id" (s_rule_id r) context else Ret false
    | Sender r => if s_enabled r then check_event_match event "sender" (s_rule_id r) context else Ret false
    end.

Fixpoint first_match (event : FlattenedJson) (context : PushConditionRoomCtx) (rules : list AnyPushRule) : outcome Empty_set (option AnyPushRule) :=
  match rules with
  | [] => Ret None
  | r :: rules =>
      let! b := rule_applies event context r in
      if b : bool then Ret (Some r) else first_match event context rules
  end.

Definition get_match (event : JsonValue) (context : PushConditionRoomCtx) (r : Ruleset) : outcome Empty_set (option AnyPushRule) :=
  let event := flatten event in
  if is_own event context then Ret None else first_match event context (iter r).

Definition get_actions (event : JsonValue) (context : PushConditionRoomCtx) (r : Ruleset) : outcome Empty_set (list Action) :=
  let! rule := get_match event context r in
  Ret (match rule with Some rule => any_actions rule | None => [] end).

End conditions.

End sets.
