(* ===== verification/PushSpec.v ===== *)
(** * What push rules promise

    Where a new rule goes ([insert_new_rule]), what no sequence of changes by the user
    does to the rules of the server ([default_rules_are_kept], [master_rule_silences]),
    what the rule set is after an update of the rules of the server
    ([update_with_server_default_spec]), and where a rule that is inserted again goes
    ([insert_existing_misplaced]). *)

From Stdlib Require Import ssreflect.
From S2P Require Import Prelude Identifiers WordMatch FlatJson Push.

Create HintDb push.

(** ** Lists of rules *)

Section lists.
Context {T : Type} {R : Rule T}.
Implicit Types (l : list T) (x : T) (id : string).

Lemma find_rule_app id l1 l2 :
  find_rule id (l1 ++ l2) =
  match find_rule id l1 with
  | Some r => Some r
  | None => prod_map (λ n, n + length l1) (λ x, x) <$> find_rule id l2
  end.
Proof.
  rewrite /find_rule. destruct (list_find _ l1) as [[i x]|] eqn:E.
  - by apply list_find_app_l.
  - by apply list_find_app_r.
Qed.

Lemma find_rule_Some id l i x : find_rule id l = Some (i, x) → l !! i = Some x ∧ rule_id x = id.
Proof. intros (? & ? & _)%list_find_Some. done. Qed.

Lemma find_rule_None id l : find_rule id l = None ↔ id ∉ (rule_id <$> l).
Proof.
  rewrite /find_rule list_find_None Forall_forall list_elem_of_fmap.
  split; [intros H (x & -> & Hx); by eapply H|intros H x Hx Heq; apply H; eauto].
Qed.

Lemma find_rule_is id l i x : NoDup (rule_id <$> l) → l !! i = Some x → rule_id x = id → find_rule id l = Some (i, x).
Proof.
  intros Hnd Hi Hid. apply list_find_Some. split_and!; [done..|].
  intros j y Hj Hlt Hy. assert (i = j); [|lia].
  eapply (NoDup_lookup _ _ _ id Hnd); by rewrite list_lookup_fmap ?Hi ?Hj /= ?Hid ?Hy.
Qed.

Lemma lookup_insert_at_lt k x l j : j < k → k ≤ length l → insert_at k x l !! j = l !! j.
Proof. intros Hj Hk. rewrite /insert_at lookup_app_l; [rewrite length_take; lia|by rewrite lookup_take_lt]. Qed.

Lemma insert_at_perm k x l : insert_at k x l ≡ₚ x :: l.
Proof. rewrite /insert_at -Permutation_middle take_drop. done. Qed.

(** *** Rules of the server *)

(** The identifiers are distinct, and those of the rules of the server start with a dot. *)
Definition rules_ok l : Prop :=
  NoDup (rule_id <$> l) ∧ ∀ x, x ∈ l → default_ x = true → str_starts_with "." (rule_id x) = true.

Definition default_ids l : list string := rule_id <$> List.filter default_ l.

Lemma default_ids_app l1 l2 : default_ids (l1 ++ l2) = default_ids l1 ++ default_ids l2.
Proof. by rewrite /default_ids List.filter_app fmap_app. Qed.

Lemma default_ids_insert_at k x l : default_ x = false → default_ids (insert_at k x l) = default_ids l.
Proof.
  intros Hx. rewrite /insert_at default_ids_app /default_ids /= Hx -fmap_app -List.filter_app take_drop. done.
Qed.

Lemma delete_split l i x : l !! i = Some x → l = take i l ++ x :: drop (S i) l ∧ delete i l = take i l ++ drop (S i) l.
Proof. intros Hi. split; [by rewrite take_drop_middle|apply delete_take_drop]. Qed.

Lemma default_ids_delete i x l : l !! i = Some x → default_ x = false → default_ids (delete i l) = default_ids l.
Proof.
  intros [E ->]%delete_split Hx. rewrite {3}E !default_ids_app. f_equal. by rewrite /default_ids /= Hx.
Qed.

Lemma default_ids_insert i x y l :
  l !! i = Some x → default_ y = default_ x → rule_id y = rule_id x → default_ids (<[i := y]> l) = default_ids l.
Proof.
  intros Hi Hd Hid. pose proof (lookup_lt_Some _ _ _ Hi) as Hlt.
  rewrite insert_take_drop // -{3}(take_drop_middle l i x Hi) !default_ids_app /default_ids /= Hd.
  by destruct (default_ x); rewrite /= ?Hid.
Qed.

Lemma rules_ok_perm l l' : l ≡ₚ l' → rules_ok l → rules_ok l'.
Proof. intros Hp [H1 H2]. split; [by rewrite -Hp|]. intros x. rewrite -Hp. apply H2. Qed.

Lemma rules_ok_delete i x l : l !! i = Some x → rules_ok l → rules_ok (delete i l).
Proof.
  intros Hi [H1 H2]. apply delete_Permutation in Hi. split.
  - rewrite Hi /= in H1. by apply NoDup_cons in H1 as [_ H1].
  - intros y Hy. apply H2. rewrite Hi. by apply list_elem_of_further.
Qed.

Lemma rules_ok_insert i x y l :
  rules_ok l → l !! i = Some x → default_ y = default_ x → rule_id y = rule_id x → rules_ok (<[i := y]> l).
Proof.
  intros [H1 H2] Hi Hd Hid. split.
  - rewrite list_fmap_insert list_insert_id // list_lookup_fmap Hi /= Hid //.
  - intros z [j Hj]%list_elem_of_lookup. destruct (decide (i = j)) as [<-|Hne].
    + rewrite list_lookup_insert_eq in Hj; [by eapply lookup_lt_Some|]. simplify_eq.
      rewrite Hd Hid. apply H2. by eapply list_elem_of_lookup_2.
    + rewrite list_lookup_insert_ne // in Hj. apply H2. by eapply list_elem_of_lookup_2.
Qed.

Lemma user_rule l x i y :
  rules_ok l → str_starts_with "." (rule_id x) = false → l !! i = Some y → rule_id y = rule_id x → default_ y = false.
Proof.
  intros [_ H] Hx Hi Hid. destruct (default_ y) eqn:E; [|done].
  rewrite -Hid in Hx. apply list_elem_of_lookup_2 in Hi. by rewrite (H y Hi E) in Hx.
Qed.

End lists.

(** ** Changes by the user *)

Section changes.
Context {sets : IndexSets}.

(** *** A new rule *)

Section rule.
Context {T : Type} {R : Rule T}.
Implicit Types (s : IndexSet T) (x : T) (l : list T).

Lemma replace_full_items x s i old s' : replace_full x s = (i, old, s') → list_replace_full x (items s) = (i, old, items s').
Proof. intros E. pose proof (replace_full_spec x s) as H. by rewrite E in H. Qed.

Lemma move_index_items from to s s' : move_index from to s = Ret s' → list_move_index from to (items s) = Ret (items s').
Proof. intros E. pose proof (move_index_spec from to s) as H. by rewrite E in H. Qed.

(** The position asked for: right after the rule [after], at the one of the rule
    [before], which must not come before that, or else the default one. *)
Definition requested l (default_position : nat) (after before : option string) : result InsertPushRuleError nat :=
  let index id := fst <$> find_rule id l in
  match match after with Some id => S <$> index id | None => Some default_position end with
  | None => Err UnknownRuleId
  | Some to =>
      match before with
      | None => Ok to
      | Some id =>
          match index id with
          | None => Err UnknownRuleId
          | Some i => if i <? to then Err BeforeHigherThanAfter else Ok i
          end
      end
  end.

Lemma index_in_appended l x id : id ≠ rule_id x → fst <$> find_rule id (l ++ [x]) = fst <$> find_rule id l.
Proof.
  intros Hne. rewrite find_rule_app. destruct (find_rule id l); [done|].
  rewrite (proj2 (find_rule_None id [x])) //=. by rewrite list_elem_of_singleton.
Qed.

Lemma move_appended l x p :
  list_move_index (length l) p (l ++ [x]) = if p <=? length l then Ret (insert_at p x l) else Panic.
Proof.
  rewrite /list_move_index list_lookup_middle // length_app /= Nat.add_1_r.
  rewrite delete_middle app_nil_r. done.
Qed.

(** A new rule goes where it is asked for. Between the rules before and after the
    requested position, the other rules keeping their order, when there is such a
    position. When a rule it is to be placed next to is not known, or the two are in the
    wrong order, the answer is that error; the rule has been added, as the last one.
    When there are fewer rules than the default position, the program panics. *)
Theorem insert_new_rule s x default_position after before :
  find_rule (rule_id x) (items s) = None → after ≠ Some (rule_id x) → before ≠ Some (rule_id x) →
  (let! (res, s') := insert_and_move_rule s x default_position after before in Ret (res, items s')) =
  match requested (items s) default_position after before with
  | Err e => Ret (Err e, items s ++ [x])
  | Ok p => if p <=? length (items s) then Ret (Ok (), insert_at p x (items s)) else Panic
  end.
Proof.
  intros Hnew Ha Hb. rewrite /insert_and_move_rule /requested.
  destruct (replace_full x s) as [[from replaced] s'] eqn:E.
  apply replace_full_items in E. rewrite /list_replace_full Hnew in E. injection E as <- <- E'.
  assert (∀ id, id ≠ rule_id x → get_index_of id s' = fst <$> find_rule id (items s)) as Hidx.
  { intros id Hid. by rewrite get_index_of_spec -E' index_in_appended. }
  assert (∀ to, (let! (res, s'0) := (let! set := move_index (length (items s)) to s' in Ret (Ok (), set)) in Ret (res, items s'0)) =
    if to <=? length (items s) then Ret (@Ok InsertPushRuleError _ (), insert_at to x (items s)) else Panic) as Hmove.
  { intros to. pose proof (move_index_spec (length (items s)) to s') as Hm. rewrite -E' move_appended in Hm.
    destruct (move_index _ _ s'); case_match; simplify_eq/=; congruence. }
  destruct after as [a|]; [rewrite Hidx; [congruence|destruct (find_rule a _) as [[ia ?]|]; [|by rewrite /= E']]|];
    (destruct before as [b|]; [rewrite Hidx; [congruence|destruct (find_rule b _) as [[ib ?]|]; [|by rewrite /= E']]|]);
    rewrite /= ?Nat.add_1_r; try destruct (ib <? _); rewrite /= ?E' //; apply Hmove.
Qed.

(** *** A rule that is there already *)

Lemma find_after_replace l x i o id j y :
  find_rule (rule_id x) l = Some (i, o) → find_rule id l = Some (j, y) → i < j → find_rule id (<[i := x]> l) = Some (j, y).
Proof.
  intros (Hi & Hid & _)%list_find_Some (Hj & Hjd & Hmin)%list_find_Some Hlt. apply list_find_Some. split_and!; [|done|].
  - rewrite list_lookup_insert_ne //. lia.
  - intros k z Hk Hkj. destruct (decide (i = k)) as [<-|Hne].
    + rewrite list_lookup_insert_eq in Hk; [by eapply lookup_lt_Some|]. injection Hk as <-. rewrite -Hid. by eapply Hmin.
    + rewrite list_lookup_insert_ne // in Hk. by eapply Hmin.
Qed.

Lemma replace_existing x s i o :
  find_rule (rule_id x) (items s) = Some (i, o) → ∃ s', replace_full x s = (i, Some o, s') ∧ items s' = <[i := x]> (items s).
Proof.
  intros Hf. destruct (replace_full x s) as [[k old] s'] eqn:E. apply replace_full_items in E.
  rewrite /list_replace_full Hf in E. injection E as <- <- E. eauto.
Qed.

Lemma move_forward l from to x y :
  l !! from = Some x → l !! to = Some y → from < to →
  ∃ l', list_move_index from to l = Ret l' ∧ l' !! to = Some x ∧ l' !! pred to = Some y.
Proof.
  intros Hx Hy Hlt. pose proof (lookup_lt_Some _ _ _ Hy). rewrite /list_move_index Hx (proj2 (Nat.ltb_lt to _)) //.
  eexists. split; [done|]. rewrite /insert_at. assert (length (take to (delete from l)) = to) as Hlen.
  { rewrite length_take length_delete; [by eexists|lia]. }
  split.
  - by rewrite list_lookup_middle.
  - rewrite lookup_app_l ?lookup_take_lt; [lia..|]. rewrite list_lookup_delete_ge; [lia|]. by replace (S (pred to)) with to by lia.
Qed.

(** A rule that is inserted again, to be placed relative to a rule that comes later:
    asked to come before that rule, it comes right after it; asked to come after it, when
    it is the last one, the program panics. *)
Theorem insert_existing_misplaced s x d i o id j y :
  find_rule (rule_id x) (items s) = Some (i, o) → find_rule id (items s) = Some (j, y) → i < j → d ≤ j →
  (∃ s', insert_and_move_rule s x d None (Some id) = Ret (Ok (), s') ∧ items s' !! j = Some x ∧ items s' !! pred j = Some y) ∧
  (S j = length (items s) → insert_and_move_rule s x d (Some id) None = Panic).
Proof.
  intros Hi Hj Hlt Hd. rewrite /insert_and_move_rule. destruct (replace_existing _ _ _ _ Hi) as (s1 & -> & Hs1).
  rewrite !get_index_of_spec Hs1 (find_after_replace _ _ _ _ _ _ _ Hi Hj Hlt) /=.
  apply find_rule_Some in Hi as [Hi _]. apply find_rule_Some in Hj as [Hj _]. pose proof (lookup_lt_Some _ _ _ Hi).
  split.
  - rewrite (proj2 (Nat.ltb_ge j d)) //=. destruct (move_forward (<[i := x]> (items s)) i j x y) as (l' & Hl' & Hx & Hy).
    + by apply list_lookup_insert_eq.
    + rewrite list_lookup_insert_ne //. lia.
    + done.
    + rewrite -Hs1 -move_index_spec in Hl'. destruct (move_index i j s1) as [s2| | |] eqn:E; try done. injection Hl' as <-. eauto.
  - intros Hlen. rewrite /= Nat.add_1_r Hlen. pose proof (move_index_spec i (length (items s)) s1) as Hm.
    rewrite Hs1 /list_move_index list_lookup_insert_eq // length_insert Nat.ltb_irrefl in Hm. by destruct (move_index _ _ s1).
Qed.

(** *** What stays *)

(** The list is still one of distinct rules with the same rules of the server, in the
    same order. *)
Definition keeps l l' : Prop := rules_ok l' ∧ default_ids l' = default_ids l.

Lemma replace_user_rule l x i old l' :
  rules_ok l → default_ x = false → str_starts_with "." (rule_id x) = false → list_replace_full x l = (i, old, l') →
  keeps l l' ∧ l' !! i = Some x ∧ ∀ m, l !! 0 = Some m → str_starts_with "." (rule_id m) = true → l' !! 0 = Some m ∧ 0 < i.
Proof.
  intros Hok Hd Hdot. rewrite /list_replace_full. destruct (find_rule _ l) as [[j y]|] eqn:E; intros [= <- <- <-].
  - apply find_rule_Some in E as [Hj Hid]. pose proof (user_rule _ _ _ _ Hok Hdot Hj Hid) as Hy.
    pose proof (lookup_lt_Some _ _ _ Hj). split_and!.
    + split; [apply (rules_ok_insert _ y)|apply (default_ids_insert _ y)]; congruence.
    + by apply list_lookup_insert_eq.
    + intros m Hm Hmd. destruct j; [simplify_eq; congruence|]. rewrite list_lookup_insert_ne //. split; [done|lia].
  - apply find_rule_None in E. split_and!.
    + split; [|by rewrite default_ids_app /default_ids /= Hd app_nil_r].
      apply (rules_ok_perm (x :: l)); [by rewrite Permutation_app_comm|]. destruct Hok as [Hnd Hdef]. split.
      * by apply NoDup_cons.
      * intros z [->|Hz]%elem_of_cons; [congruence|by apply Hdef].
    + by apply list_lookup_middle.
    + intros m Hm _. pose proof (lookup_lt_Some _ _ _ Hm). split; [by rewrite lookup_app_l|done].
Qed.

Lemma move_user_rule l from to x l' :
  rules_ok l → l !! from = Some x → default_ x = false → list_move_index from to l = Ret l' →
  keeps l l' ∧ ∀ m, 0 < from → 0 < to → l !! 0 = Some m → l' !! 0 = Some m.
Proof.
  intros Hok Hx Hd. rewrite /list_move_index Hx. destruct (Nat.ltb_spec to (length l)) as [Hto|]; intros [= <-].
  split.
  - split; [|by rewrite default_ids_insert_at // (default_ids_delete _ x)].
    apply (rules_ok_perm l); [|done]. by rewrite insert_at_perm -delete_Permutation.
  - intros m Hf Ht Hm. rewrite lookup_insert_at_lt //; [rewrite length_delete //; lia|].
    destruct from; [lia|]. by destruct l.
Qed.

Lemma keeps_trans l1 l2 l3 : keeps l1 l2 → keeps l2 l3 → keeps l1 l3.
Proof. intros [? ?] [? ?]. split; congruence. Qed.

Lemma insert_and_move_keeps s x d after before res s' :
  rules_ok (items s) → default_ x = false → str_starts_with "." (rule_id x) = false →
  insert_and_move_rule s x d after before = Ret (res, s') →
  keeps (items s) (items s') ∧
  ∀ m, 0 < d → items s !! 0 = Some m → str_starts_with "." (rule_id m) = true → items s' !! 0 = Some m.
Proof.
  intros Hok Hd Hdot. rewrite /insert_and_move_rule.
  destruct (replace_full x s) as [[from replaced] s1] eqn:E. apply replace_full_items in E.
  destruct (replace_user_rule _ _ _ _ _ Hok Hd Hdot E) as (Hk & Hx & Hm).
  assert (∀ to s2, move_index from to s1 = Ret s2 → keeps (items s) (items s2) ∧
    ∀ m, 0 < to → items s !! 0 = Some m → str_starts_with "." (rule_id m) = true → items s2 !! 0 = Some m) as Hmove.
  { intros to s2 Hs2%move_index_items. destruct (move_user_rule _ _ _ _ _ (proj1 Hk) Hx Hd Hs2) as [Hk' Hm'].
    split; [by eapply keeps_trans|]. intros m Ht H1 H2. destruct (Hm m H1 H2). by apply Hm'. }
  assert (keeps (items s) (items s1) ∧
    ∀ m, 0 < d → items s !! 0 = Some m → str_starts_with "." (rule_id m) = true → items s1 !! 0 = Some m) as Hstay.
  { split; [done|]. intros m _ H1 H2. by destruct (Hm m H1 H2). }
  destruct (match after with Some _ => _ | None => Ok d end) as [to|e] eqn:Ea; [|by intros [= _ <-]].
  assert (0 < d → 0 < to) as Hto by (destruct after; repeat case_match; simplify_eq; lia).
  destruct (match before with Some _ => _ | None => Ok to end) as [to'|e] eqn:Eb; [|by intros [= _ <-]].
  assert (0 < d → 0 < to') as Hto' by (destruct before; repeat case_match; simplify_eq; rewrite ->?Nat.ltb_ge in *; lia).
  destruct (_ || _); [|by intros [= _ <-]].
  destruct (move_index from to' s1) as [s2| | |] eqn:E2; try done. intros [= _ <-].
  destruct (Hmove _ _ E2) as [? H]. split; [done|]. intros m Hd0. apply H. auto.
Qed.

Lemma change_rule_keeps (f : T → T) id s s' :
  rules_ok (items s) → (∀ x, rule_id (f x) = rule_id x ∧ default_ (f x) = default_ x) → change_rule f id s = Some s' →
  keeps (items s) (items s') ∧
  ∀ m, items s !! 0 = Some m → items s' !! 0 = Some (if bool_decide (rule_id m = id) then f m else m).
Proof.
  intros Hok Hf. rewrite /change_rule get_spec. destruct (find_rule id (items s)) as [[i x]|] eqn:E; [simpl|done].
  pose proof (find_rule_Some _ _ _ _ E) as [Hi Hid]. destruct (Hf x) as [Hfid Hfd].
  destruct (replace_full (f x) s) as [[j old] s1] eqn:E1. intros [= <-]. apply replace_full_items in E1.
  rewrite /list_replace_full Hfid Hid E in E1. injection E1 as <- <- <-. split.
  - split; [by eapply rules_ok_insert|by eapply default_ids_insert].
  - intros m Hm. destruct i as [|i].
    + simplify_eq. rewrite bool_decide_true // list_lookup_insert_eq //. by eapply lookup_lt_Some.
    + rewrite list_lookup_insert_ne // Hm. rewrite bool_decide_false //. intros Hmid.
      pose proof (find_rule_is _ _ _ _ (proj1 Hok) Hm Hmid). congruence.
Qed.

Lemma shift_remove_keeps id s x :
  rules_ok (items s) → get id s = Some x → default_ x = false →
  keeps (items s) (items (shift_remove id s)) ∧
  ∀ m, items s !! 0 = Some m → default_ m = true → items (shift_remove id s) !! 0 = Some m.
Proof.
  intros Hok Hget Hd. rewrite get_spec in Hget. rewrite shift_remove_spec /list_shift_remove.
  destruct (find_rule id (items s)) as [[i y]|] eqn:E; [|done]. injection Hget as ->.
  apply find_rule_Some in E as [Hi _]. split.
  - split; [by eapply rules_ok_delete|by eapply default_ids_delete].
  - intros m Hm Hmd. destruct i; [congruence|]. by destruct (items s).
Qed.

End rule.

(** *** Sequences of changes *)

Inductive Operation :=
| Insert (rule : NewPushRule) (after before : option string)
| Remove (kind : RuleKind) (id : string)
| SetEnabled (kind : RuleKind) (id : string) (b : bool)
| SetActions (kind : RuleKind) (id : string) (a : list Action).

(** The rule set after the operation, also when it returns an error. *)
Definition perform (op : Operation) (r : Ruleset) : outcome Empty_set Ruleset :=
  match op with
  | Insert rule after before => let! (_, r') := insert rule after before r in Ret r'
  | Remove kind id => Ret (match remove kind id r with Ok r' => r' | Err _ => r end)
  | SetEnabled kind id b => Ret (default r (set_enabled kind id b r))
  | SetActions kind id a => Ret (default r (set_actions kind id a r))
  end.

Fixpoint performs (ops : list Operation) (r : Ruleset) : outcome Empty_set Ruleset :=
  match ops with [] => Ret r | op :: ops => let! r := perform op r in performs ops r end.

Definition ruleset_ok (r : Ruleset) : Prop :=
  rules_ok (items (override_ r)) ∧ rules_ok (items (content r)) ∧ rules_ok (items (room r)) ∧
  rules_ok (items (sender r)) ∧ rules_ok (items (underride r)).

(** The rules of the server, by kind. *)
Definition server_rules (r : Ruleset) : list (list string) :=
  [default_ids (items (override_ r)); default_ids (items (content r)); default_ids (items (room r));
   default_ids (items (sender r)); default_ids (items (underride r))].

Definition ruleset_keeps (r r' : Ruleset) : Prop := ruleset_ok r' ∧ server_rules r' = server_rules r.

(** The first rule is the master rule of the server. *)
Definition master_first (r : Ruleset) (m : ConditionalPushRule) : Prop :=
  items (override_ r) !! 0 = Some m ∧ c_rule_id m = MASTER ∧ c_default m = true.

Definition touches_master (op : Operation) : bool :=
  match op with SetEnabled KOverride id _ | SetActions KOverride id _ => String.eqb id MASTER | _ => false end.

Definition step_ok (op : Operation) (r r' : Ruleset) : Prop :=
  ruleset_keeps r r' ∧
  ∀ m, master_first r m → ∃ m', master_first r' m' ∧ (touches_master op = false → m' = m).

Lemma keeps_ruleset_override r s : ruleset_ok r → keeps (items (override_ r)) (items s) → ruleset_keeps r (set_override s r).
Proof. intros (? & ? & ? & ? & ?) [? Hs]. split; [done|]. by rewrite /server_rules /= Hs. Qed.
Lemma keeps_ruleset_content r s : ruleset_ok r → keeps (items (content r)) (items s) → ruleset_keeps r (set_content s r).
Proof. intros (? & ? & ? & ? & ?) [? Hs]. split; [done|]. by rewrite /server_rules /= Hs. Qed.
Lemma keeps_ruleset_room r s : ruleset_ok r → keeps (items (room r)) (items s) → ruleset_keeps r (set_room s r).
Proof. intros (? & ? & ? & ? & ?) [? Hs]. split; [done|]. by rewrite /server_rules /= Hs. Qed.
Lemma keeps_ruleset_sender r s : ruleset_ok r → keeps (items (sender r)) (items s) → ruleset_keeps r (set_sender s r).
Proof. intros (? & ? & ? & ? & ?) [? Hs]. split; [done|]. by rewrite /server_rules /= Hs. Qed.
Lemma keeps_ruleset_underride r s : ruleset_ok r → keeps (items (underride r)) (items s) → ruleset_keeps r (set_underride s r).
Proof. intros (? & ? & ? & ? & ?) [? Hs]. split; [done|]. by rewrite /server_rules /= Hs. Qed.

Hint Resolve keeps_ruleset_override keeps_ruleset_content keeps_ruleset_room keeps_ruleset_sender keeps_ruleset_underride : push.

Lemma step_ok_refl op r : ruleset_ok r → step_ok op r r.
Proof. intros H. split; [done|]. eauto. Qed.

Lemma keep_enabled_id {T} `{!Rule T} (s : IndexSet T) x :
  rule_id (keep_enabled s x) = rule_id x ∧ default_ (keep_enabled s x) = default_ x.
Proof. rewrite /keep_enabled. case_match; [|done]. by rewrite with_enabled_id with_enabled_default. Qed.

Lemma insert_new_keeps {T} `{!Rule T} (s : IndexSet T) x d after before res s' :
  rules_ok (items s) → default_ x = false → str_starts_with "." (rule_id x) = false →
  insert_and_move_rule s (keep_enabled s x) d after before = Ret (res, s') →
  keeps (items s) (items s') ∧
  ∀ m, 0 < d → items s !! 0 = Some m → str_starts_with "." (rule_id m) = true → items s' !! 0 = Some m.
Proof. destruct (keep_enabled_id s x) as [Hid Hd]. intros Hok Hx Hdot. apply insert_and_move_keeps; [done|by rewrite Hd|by rewrite Hid]. Qed.

Lemma insert_step rule after before r r' : ruleset_ok r → perform (Insert rule after before) r = Ret r' → step_ok (Insert rule after before) r r'.
Proof.
  intros Hok. pose proof Hok as (? & ? & ? & ? & ?). rewrite /perform /insert. destruct (str_starts_with "." (new_rule_id rule)) eqn:Hdot.
  { move=> /= [= <-]. by apply step_ok_refl. }
  do 4 (match goal with |- context [if ?b then _ else _] => destruct b end; [move=> /= [= <-]; by apply step_ok_refl|]).
  destruct rule as [id conds acts|id pat acts|id acts|id acts|id conds acts];
    (destruct (insert_and_move_rule _ _ _ _ _) as [[res s]| | |] eqn:E; try done; move=> /= [= <-]; apply insert_new_keeps in E as [Hk Hm]; [|done..]);
    (split; [by auto with push|]; intros m Hmf; exists m; split; [|done]; try done).
  destruct Hmf as (Hm0 & Hid & Hd). split_and!; [|done..]. apply Hm; [lia|done|]. by rewrite /= Hid.
Qed.

Lemma remove_step kind id r r' : ruleset_ok r → perform (Remove kind id) r = Ret r' → step_ok (Remove kind id) r r'.
Proof.
  intros Hok. pose proof Hok as (? & ? & ? & ? & ?). rewrite /perform /remove. intros [= <-].
  destruct (get_rule kind id r) as [rule|] eqn:E; [|by apply step_ok_refl].
  destruct (is_server_default rule) eqn:Hd; [by apply step_ok_refl|].
  destruct kind; simpl in E; try done; apply fmap_Some in E as (x & E & ->);
    (apply shift_remove_keeps in E as [Hk Hm]; [|done..]);
    (split; [by auto with push|]; intros m Hmf; exists m; split; [|done]; try done).
  destruct Hmf as (Hm0 & Hid & Hmd). by split_and!; [apply Hm|..].
Qed.

Lemma change_override_step op f id r s :
  ruleset_ok r → (∀ x, rule_id (f x) = rule_id x ∧ default_ (f x) = default_ x) → change_rule f id (override_ r) = Some s →
  (touches_master op = String.eqb id MASTER) → step_ok op r (set_override s r).
Proof.
  intros Hok Hf Hs Ht. pose proof (change_rule_keeps _ _ _ _ (proj1 Hok) Hf Hs) as [Hk Hm].
  split; [by auto with push|]. intros m (Hm0 & Hid & Hd). eexists. split; [split; [by apply Hm|]|].
  - destruct (Hf m) as [Hfid Hfd]. simpl in Hfid, Hfd. case_bool_decide; split; congruence.
  - rewrite Ht /= Hid. intros Hne%String.eqb_neq. by rewrite bool_decide_false.
Qed.

Lemma with_enabled_keeps {T} `{!Rule T} b x : rule_id (with_enabled b x) = rule_id x ∧ default_ (with_enabled b x) = default_ x.
Proof. by rewrite with_enabled_id with_enabled_default. Qed.

Lemma with_actions_keeps {T} `{!Rule T} a x : rule_id (with_actions a x) = rule_id x ∧ default_ (with_actions a x) = default_ x.
Proof. by rewrite with_actions_id with_actions_default. Qed.

Hint Resolve with_enabled_keeps with_actions_keeps : push.

Ltac change_step :=
  match goal with
  | |- context [change_rule ?f ?id ?s] => destruct (change_rule f id s) eqn:?; simpl; [|by apply step_ok_refl]
  | _ => by apply step_ok_refl
  end;
  match goal with
  | Hok : ruleset_ok _, E : change_rule _ _ _ = Some _ |- _ =>
      first
        [ eapply change_override_step; [exact Hok| |exact E|done]; by auto with push
        | apply change_rule_keeps in E as [? _]; [|done|by auto with push]; split; [by auto with push|intros m ?; by exists m] ]
  end.

Lemma set_enabled_step kind id b r : ruleset_ok r → step_ok (SetEnabled kind id b) r (default r (set_enabled kind id b r)).
Proof. intros Hok. pose proof Hok as (? & ? & ? & ? & ?). destruct kind; rewrite /set_enabled; change_step. Qed.

Lemma set_actions_step kind id a r : ruleset_ok r → step_ok (SetActions kind id a) r (default r (set_actions kind id a r)).
Proof. intros Hok. pose proof Hok as (? & ? & ? & ? & ?). destruct kind; rewrite /set_actions; change_step. Qed.

Lemma perform_step op r r' : ruleset_ok r → perform op r = Ret r' → step_ok op r r'.
Proof.
  destruct op; [apply insert_step|apply remove_step|..]; intros Hok [= <-]; [by apply set_enabled_step|by apply set_actions_step].
Qed.

Lemma performs_keep ops r r' :
  ruleset_ok r → performs ops r = Ret r' →
  ruleset_keeps r r' ∧
  ∀ m, master_first r m → ∃ m', master_first r' m' ∧ (forallb (λ op, negb (touches_master op)) ops = true → m' = m).
Proof.
  revert r. induction ops as [|op ops IH]; intros r Hok; simpl.
  { intros [= <-]. split; [done|]. eauto. }
  destruct (perform op r) as [r1| | |] eqn:E1; try done. simpl. intros E2.
  destruct (perform_step _ _ _ Hok E1) as [[Hok1 Hs1] Hm1]. destruct (IH _ Hok1 E2) as [[Hok2 Hs2] Hm2].
  split; [split; [done|congruence]|]. intros m Hm.
  destruct (Hm1 _ Hm) as (m1 & Hf1 & Ht1). destruct (Hm2 _ Hf1) as (m2 & Hf2 & Ht2). exists m2. split; [done|].
  intros [Hop Hops]%andb_prop. rewrite (Ht2 Hops). apply Ht1. by destruct (touches_master op).
Qed.

(** C15. Whatever rules the user inserts, removes, enables, disables or changes, with or
    without success, the rules of a kind keep distinct identifiers, the rules of the
    server are the same as before and in the same order, and the master rule, if it was
    the first one, still is. *)
Theorem default_rules_are_kept ops r r' :
  ruleset_ok r → performs ops r = Ret r' →
  ruleset_ok r' ∧ server_rules r' = server_rules r ∧ ∀ m, master_first r m → ∃ m', master_first r' m'.
Proof.
  intros Hok E. destruct (performs_keep _ _ _ Hok E) as [[? ?] Hm]. split_and!; [done..|].
  intros m [m' [? _]]%Hm. eauto.
Qed.

Lemma enable_master r m :
  ruleset_ok r → master_first r m →
  ∃ r', set_enabled KOverride MASTER true r = Some r' ∧ ruleset_ok r' ∧ master_first r' (with_enabled true m).
Proof.
  intros Hok (Hm & Hid & Hd). rewrite /set_enabled /=.
  assert (∃ s, change_rule (with_enabled true) MASTER (override_ r) = Some s) as [s Hs].
  { rewrite /change_rule get_spec (find_rule_is MASTER _ 0 m (proj1 (proj1 Hok)) Hm Hid) /=.
    destruct (replace_full _ _) as [[? ?] s]. by exists s. }
  rewrite Hs. eexists. split; [done|].
  apply change_rule_keeps in Hs as [Hk Hm']; [|apply Hok|by auto with push]. split; [by apply keeps_ruleset_override|].
  split; [|done]. apply Hm' in Hm. by rewrite bool_decide_true in Hm.
Qed.

Section silence.
Context {re : Regex} (to_lowercase : text → text) (wild_match : text → text → bool).

Lemma master_first_silences r m event context :
  items (override_ r) !! 0 = Some m → c_rule_id m = MASTER → c_enabled m = true → c_conditions m = [] → c_actions m = [] →
  get_actions to_lowercase wild_match event context r = Ret [].
Proof.
  intros Hm Hid He Hc Ha. rewrite /get_actions /get_match /iter.
  destruct (items (override_ r)) as [|m0 l]; simplify_eq/=. destruct (is_own _ _) eqn:Hown; [done|].
  by rewrite /rule_applies Hown /conditional_applies He Hid Hc /= Ha.
Qed.

(** Once the user has enabled the master rule, no event has any action, whatever
    changes the user makes to the other rules. *)
Theorem master_rule_silences ops r r' m event context :
  ruleset_ok r → master_first r m → c_conditions m = [] → c_actions m = [] →
  forallb (λ op, negb (touches_master op)) ops = true →
  performs (SetEnabled KOverride MASTER true :: ops) r = Ret r' →
  get_actions to_lowercase wild_match event context r' = Ret [].
Proof.
  intros Hok Hm Hc Ha Hops. cbn -[set_enabled].
  destruct (enable_master _ _ Hok Hm) as (r1 & -> & Hok1 & Hm1). simpl. intros E.
  destruct (performs_keep _ _ _ Hok1 E) as [_ Hf]. destruct (Hf _ Hm1) as (m' & (Hm' & _) & Heq).
  rewrite (Heq Hops) in Hm'. destruct Hm as (_ & Hid & _). by apply (master_first_silences _ (with_enabled true m)).
Qed.

End silence.

(** ** New rules of the server *)

Section update.
Context {T : Type} {R : Rule T}.
Implicit Types (s : IndexSet T) (x : T) (l old new : list T).

(** A new rule of the server, with the state of the old rule that has its identifier. *)
Definition inherit old x : T :=
  match find_rule (rule_id x) old with
  | Some (_, o) => with_actions (actions o) (with_enabled (enabled o) x)
  | None => x
  end.

(** The rules that stay: those of the user. *)
Definition user_rules old new : list T :=
  filter (λ x, default_ x = false ∧ rule_id x ∉ (rule_id <$> new)) old.

Lemma inherit_id old x : rule_id (inherit old x) = rule_id x.
Proof. rewrite /inherit. destruct (find_rule _ _) as [[? ?]|]; [|done]. by rewrite with_actions_id with_enabled_id. Qed.

Lemma inherit_ids old new : rule_id <$> (inherit old <$> new) = rule_id <$> new.
Proof. rewrite -list_fmap_compose. apply list_fmap_ext. intros ? x _. apply inherit_id. Qed.

Lemma filter_ids (P : T → Prop) `{!∀ x, Decision (P x)} l : NoDup (rule_id <$> l) → NoDup (rule_id <$> filter P l).
Proof.
  induction l as [|x l IH]; [done|]. rewrite filter_cons fmap_cons NoDup_cons. intros [Hx Hnd]. case_decide; [|by apply IH].
  rewrite fmap_cons NoDup_cons. split; [|by apply IH].
  intros (y & Hy & [_ ?]%list_elem_of_filter)%list_elem_of_fmap. apply Hx. rewrite Hy. by apply list_elem_of_fmap_2.
Qed.

Lemma remove_is_filter id l : NoDup (rule_id <$> l) → list_shift_remove id l = filter (λ x, rule_id x ≠ id) l.
Proof.
  rewrite /list_shift_remove. induction l as [|x l IH]; [done|]. rewrite fmap_cons NoDup_cons. intros [Hx Hnd].
  rewrite filter_cons /find_rule /=. destruct (decide (rule_id x = id)) as [<-|Hne]; simpl.
  - rewrite decide_False; [naive_solver|]. rewrite filter_all //. intros y Hy Heq.
    apply Hx. rewrite -Heq. by apply list_elem_of_fmap_2.
  - rewrite decide_True //. rewrite -IH // /find_rule. by destruct (list_find _ l) as [[? ?]|].
Qed.

Lemma inherit_filter x y l : rule_id y ≠ rule_id x → inherit (filter (λ z, rule_id z ≠ rule_id x) l) y = inherit l y.
Proof.
  intros Hne. rewrite /inherit. assert (snd <$> find_rule (rule_id y) (filter (λ z, rule_id z ≠ rule_id x) l) = snd <$> find_rule (rule_id y) l) as E.
  { induction l as [|z l IH]; [done|]. rewrite filter_cons. rewrite /find_rule in IH |- *.
    destruct (decide (rule_id z ≠ rule_id x)) as [Hz|Hz]; simpl; destruct (decide (rule_id z = rule_id y)); try done; simpl.
    - by rewrite -!option_fmap_compose.
    - exfalso. apply Hz. congruence.
    - rewrite IH -option_fmap_compose. done. }
  by destruct (find_rule _ (filter _ _)) as [[? ?]|], (find_rule _ l) as [[? ?]|]; simplify_eq/=.
Qed.

Lemma copy_rules_state_spec new s :
  NoDup (rule_id <$> new) → NoDup (rule_id <$> items s) →
  let '(new', s') := copy_rules_state new s in
  new' = inherit (items s) <$> new ∧ items s' = filter (λ x, rule_id x ∉ (rule_id <$> new)) (items s).
Proof.
  revert s. induction new as [|x new IH]; intros s; simpl.
  { intros _ _. split; [done|]. rewrite filter_all //. intros y _. apply not_elem_of_nil. }
  rewrite NoDup_cons. intros [Hx Hnew] Hs.
  set (s1 := match get (rule_id x) s with Some _ => shift_remove (rule_id x) s | None => s end).
  assert (items s1 = filter (λ y, rule_id y ≠ rule_id x) (items s)) as Hs1.
  { rewrite -remove_is_filter // /s1 get_spec. destruct (find_rule _ _) as [[? ?]|] eqn:E; simpl; [apply shift_remove_spec|].
    by rewrite /list_shift_remove E. }
  assert (match get (rule_id x) s with
    | Some o => (with_actions (actions o) (with_enabled (enabled o) x), shift_remove (rule_id x) s)
    | None => (x, s) end = (inherit (items s) x, s1)) as ->.
  { rewrite /s1 /inherit get_spec. by destruct (find_rule _ _) as [[? ?]|]. }
  specialize (IH s1 Hnew). rewrite Hs1 in IH. destruct (copy_rules_state new s1) as [new' s'].
  destruct IH as [-> ->]; [by apply filter_ids|]. split.
  - f_equal. apply list_fmap_ext. intros ? y Hy%list_elem_of_lookup_2. apply inherit_filter.
    intros Heq. apply Hx. rewrite -Heq. by apply list_elem_of_fmap_2.
  - rewrite list_filter_filter. apply list_filter_iff. intros y. rewrite not_elem_of_cons. naive_solver.
Qed.

Lemma remove_default_rules_spec s :
  NoDup (rule_id <$> items s) → items (remove_default_rules s) = filter (λ x, default_ x = false) (items s).
Proof.
  intros Hnd. rewrite /remove_default_rules.
  assert (List.filter (λ r, negb (default_ r)) (items s) = filter (λ x, default_ x = false) (items s)) as ->.
  { induction (items s) as [|x l IH]; [done|]. rewrite filter_cons /= IH; [by apply NoDup_cons in Hnd as [_ ?]|].
    by destruct (default_ x). }
  apply items_from_items. by apply filter_ids.
Qed.

Lemma update_rules_spec s snew :
  NoDup (rule_id <$> items s) → NoDup (rule_id <$> items snew) →
  ∃ s', update_rules s snew = (inherit (items s) <$> items snew, s') ∧ items s' = user_rules (items s) (items snew).
Proof.
  intros Hs Hnew. rewrite /update_rules. pose proof (copy_rules_state_spec _ _ Hnew Hs) as Hc.
  destruct (copy_rules_state _ _) as [new' s1]. destruct Hc as [-> Hs1]. eexists. split; [done|].
  rewrite remove_default_rules_spec Hs1; [by apply filter_ids|]. by rewrite list_filter_filter.
Qed.

Lemma insert_full_new x s :
  rule_id x ∉ (rule_id <$> items s) → ∃ s', insert_full x s = (length (items s), s') ∧ items s' = items s ++ [x].
Proof.
  intros Hx%find_rule_None. rewrite /insert_full get_index_of_spec Hx /=.
  destruct (replace_full x s) as [[i o] s'] eqn:E. apply replace_full_items in E. rewrite /list_replace_full Hx in E.
  injection E as <- _ E. eauto.
Qed.

Lemma extend_new s new :
  NoDup (rule_id <$> items s ++ new) → items (extend s new) = items s ++ new.
Proof.
  revert s. induction new as [|x new IH]; intros s Hnd; simpl; [by rewrite app_nil_r|].
  destruct (insert_full_new x s) as (s' & -> & Hs').
  { rewrite fmap_app fmap_cons in Hnd. apply NoDup_app in Hnd as (_ & Hd & _). intros Hx. apply (Hd _ Hx). by left. }
  rewrite IH Hs' -assoc //.
Qed.

(** The rules of a kind after an update. *)
Definition updated old new : list T := user_rules old new ++ (inherit old <$> new).

Lemma updated_ids old new :
  NoDup (rule_id <$> old) → NoDup (rule_id <$> new) → NoDup (rule_id <$> updated old new).
Proof.
  intros Hold Hnew. rewrite /updated fmap_app inherit_ids. apply NoDup_app. split_and!; [by apply filter_ids| |done].
  intros id (x & -> & [[_ Hx] _]%list_elem_of_filter)%list_elem_of_fmap. done.
Qed.

Lemma find_inherited id old new : find_rule id (inherit old <$> new) = prod_map (λ i, i) (inherit old) <$> find_rule id new.
Proof.
  rewrite /find_rule. induction new as [|x new IH]; [done|]. simpl. rewrite inherit_id.
  destruct (decide (rule_id x = id)); [done|]. rewrite IH -!option_fmap_compose. by destruct (list_find _ new) as [[? ?]|].
Qed.

End update.

(** The master rule comes first, the rules of the user after it, the other rules of the
    server last. *)
Definition updated_override (old new : list ConditionalPushRule) : list ConditionalPushRule :=
  match find_rule MASTER new with
  | Some (i, master) => inherit old master :: user_rules old new ++ (inherit old <$> delete i new)
  | None => updated old new
  end.

Definition listing (r : Ruleset) :=
  (items (override_ r), items (content r), items (room r), items (sender r), items (underride r)).

Definition ids_unique (r : Ruleset) : Prop :=
  NoDup (rule_id <$> items (override_ r)) ∧ NoDup (rule_id <$> items (content r)) ∧ NoDup (rule_id <$> items (room r)) ∧
  NoDup (rule_id <$> items (sender r)) ∧ NoDup (rule_id <$> items (underride r)).

Lemma updated_override_perm old new : updated_override old new ≡ₚ updated old new.
Proof.
  rewrite /updated_override /updated. destruct (find_rule MASTER new) as [[i x]|] eqn:E; [|done].
  apply find_rule_Some in E as [Hi%delete_Permutation _]. apply (fmap_Permutation (inherit old)) in Hi. rewrite Permutation_middle.
  by apply Permutation_app_head.
Qed.

Lemma extend_updated {T} `{!Rule T} (s : IndexSet T) old new :
  NoDup (rule_id <$> old) → NoDup (rule_id <$> new) → items s = user_rules old new →
  items (extend s (inherit old <$> new)) = updated old new.
Proof. intros Ho Hn Hs. rewrite extend_new Hs //. by apply updated_ids. Qed.

Lemma update_override_spec (s : IndexSet ConditionalPushRule) old new :
  NoDup (rule_id <$> old) → NoDup (rule_id <$> new) → items s = user_rules old new →
  ∃ new' s',
    match find_rule MASTER (inherit old <$> new) with
    | Some (i, master_rule) =>
        let '(pos, s) := insert_full master_rule s in
        let! s := move_index pos 0 s in Ret (delete i (inherit old <$> new), s)
    | None => Ret (inherit old <$> new, s)
    end = Ret (E := Empty_set) (new', s') ∧ items (extend s' new') = updated_override old new.
Proof.
  intros Ho Hn Hs. pose proof (updated_ids _ _ Ho Hn) as Hu. rewrite -updated_override_perm in Hu.
  rewrite find_inherited /updated_override in Hu |- *. destruct (find_rule MASTER new) as [[i x]|] eqn:E; simpl.
  2: { eexists _, _. split; [done|]. by apply extend_updated. }
  apply find_rule_Some in E as [Hi _].
  destruct (insert_full_new (inherit old x) s) as (s1 & -> & Hs1).
  { rewrite Hs inherit_id. intros (y & Hy & [[_ Hny] _]%list_elem_of_filter)%list_elem_of_fmap. apply Hny.
    rewrite -Hy. apply list_elem_of_fmap_2. by eapply list_elem_of_lookup_2. }
  pose proof (move_index_spec (length (items s)) 0 s1) as Hm. rewrite Hs1 move_appended /= in Hm.
  destruct (move_index _ _ s1) as [s2| | |] eqn:E2; try done. injection Hm as Hm. eexists _, _. split; [done|].
  rewrite extend_new Hm /insert_at /= Hs -list_fmap_delete //.
Qed.

(** C29. Taking over new rules of the server never panics, and says what the rules of
    each kind are afterwards. The master rule comes first. The rules of the user follow,
    in their order, without those that have the identifier of a new rule. The new rules
    of the server come last, in their order, and each one is enabled and acts as the rule
    it replaces. No other rule of the server is left. *)
Theorem update_with_server_default_spec new r :
  ids_unique r → ids_unique new →
  (let! r' := update_with_server_default new r in Ret (listing r')) =
  Ret (updated_override (items (override_ r)) (items (override_ new)), updated (items (content r)) (items (content new)),
       updated (items (room r)) (items (room new)), updated (items (sender r)) (items (sender new)),
       updated (items (underride r)) (items (underride new))).
Proof.
  intros (Ho & Hc & Hr & Hs & Hu) (Ho' & Hc' & Hr' & Hs' & Hu'). rewrite /update_with_server_default.
  destruct (update_rules_spec _ _ Ho Ho') as (so & -> & Eo), (update_rules_spec _ _ Hc Hc') as (sc & -> & Ec),
    (update_rules_spec _ _ Hr Hr') as (sr & -> & Er), (update_rules_spec _ _ Hs Hs') as (ss & -> & Es),
    (update_rules_spec _ _ Hu Hu') as (su & -> & Eu).
  destruct (update_override_spec _ _ _ Ho Ho' Eo) as (new' & s' & -> & Hov). rewrite /= /listing /= Hov.
  by rewrite !extend_updated.
Qed.

End changes.

(** ** Examples *)

(** The sets as lists. *)
#[export] Program Instance list_index_sets : IndexSets := {|
  IndexSet := list;
  items _ l := l;
  from_items _ _ l := l;
  get _ _ id l := snd <$> find_rule id l;
  get_index_of _ _ id l := fst <$> find_rule id l;
  replace_full _ _ x l := list_replace_full x l;
  move_index _ _ from to l := list_move_index from to l;
  shift_remove _ _ id l := list_shift_remove id l
|}.
Next Obligation. done. Qed.
Next Obligation. done. Qed.
Next Obligation. done. Qed.
Next Obligation. intros T R x s. by destruct (list_replace_full x s) as [[? ?] ?]. Qed.
Next Obligation. intros T R from to s. by destruct (list_move_index from to s). Qed.
Next Obligation. done. Qed.

Definition sample_rooms : IndexSet SimplePushRule := [new_simple "!a:x" []; new_simple "!b:x" [Notify]; new_simple "!c:x" []].

Lemma insert_new_rule_witness :
  (let! (res, s) := insert_and_move_rule sample_rooms (new_simple "!d:x" [Notify]) 0 (Some "!a:x") (Some "!c:x") in
   Ret (res, rule_id <$> items s)) = Ret (Ok (), ["!a:x"; "!b:x"; "!d:x"; "!c:x"]).
Proof.
  pose proof (insert_new_rule sample_rooms (new_simple "!d:x" [Notify]) 0 (Some "!a:x") (Some "!c:x")) as E.
  destruct (insert_and_move_rule _ _ _ _ _) as [[res s]| | |]; specialize (E ltac:(by_vm) ltac:(by_decide) ltac:(by_decide));
    [|discriminate E..].
  injection E as -> ->. by_vm.
Defined.

Lemma insert_existing_misplaced_witness :
  insert_and_move_rule sample_rooms (new_simple "!a:x" [Notify]) 0 (Some "!c:x") None = Panic.
Proof.
  apply (insert_existing_misplaced sample_rooms (new_simple "!a:x" [Notify]) 0 0 (new_simple "!a:x" []) "!c:x" 2 (new_simple "!c:x" []));
    [by_vm..|lia|lia|done].
Defined.

Definition server_rule (id : string) (conditions : list PushCondition) (acts : list Action) (b : bool) : ConditionalPushRule :=
  {| c_actions := acts; c_default := true; c_enabled := b; c_rule_id := id; c_conditions := conditions |}.

Definition sample_ruleset : Ruleset := {|
  override_ := [server_rule MASTER [] [] false; new_conditional "mine" [EventMatch "type" "m.room.message"] [Notify];
                server_rule ".m.rule.suppress_notices" [EventMatch "content.msgtype" "m.notice"] [] true];
  content := []; room := sample_rooms; sender := []; underride := []
|}.

Lemma sample_ruleset_ok : ruleset_ok sample_ruleset.
Proof.
  split_and!; (split; [by_decide|refine (proj1 (Forall_forall _ _) _); repeat constructor; done]).
Qed.

Definition sample_changes : list Operation :=
  [Insert (NewOverride "other" [] [Notify]) None None; Remove KOverride MASTER; Insert (NewOverride ".x" [] [Notify]) None None;
   SetEnabled KRoom "!a:x" false; SetActions KOverride "mine" []; Remove KOverride "mine"].

Lemma default_rules_are_kept_witness :
  ∃ r', performs sample_changes sample_ruleset = Ret r' ∧ server_rules r' = server_rules sample_ruleset.
Proof.
  destruct (performs sample_changes sample_ruleset) as [r'| | |] eqn:E; [|by vm_compute in E..].
  exists r'. split; [done|]. apply (default_rules_are_kept sample_changes sample_ruleset r' sample_ruleset_ok E).
Defined.

Definition sample_context : PushConditionRoomCtx :=
  {| room_id := "!b:x"; member_count := 2; user_id := "@me:x"; user_display_name := "me"; power_levels := None |}.

Definition sample_event : JsonValue :=
  JObject [("type", JString "m.room.message"); ("sender", JString "@you:x"); ("content", JObject [("body", JString "hello")])].

Lemma master_rule_silences_witness :
  ∃ r', performs (SetEnabled KOverride MASTER true :: sample_changes) sample_ruleset = Ret r' ∧
    get_actions (re := no_regex) (λ t, t) (λ p v, bool_decide (p = v)) sample_event sample_context sample_ruleset = Ret [Notify] ∧
    get_actions (re := no_regex) (λ t, t) (λ p v, bool_decide (p = v)) sample_event sample_context r' = Ret [].
Proof.
  destruct (performs (SetEnabled KOverride MASTER true :: sample_changes) sample_ruleset) as [r'| | |] eqn:E; [|by vm_compute in E..].
  exists r'. split_and!; [done|by_vm|].
  apply (master_rule_silences (re := no_regex) (λ t, t) (λ p v, bool_decide (p = v)) sample_changes sample_ruleset r'
    (server_rule MASTER [] [] false) sample_event sample_context sample_ruleset_ok); done.
Defined.

Definition sample_server_default : Ruleset := {|
  override_ := [server_rule ".m.rule.suppress_notices" [EventMatch "content.msgtype" "m.notice"] [Notify] false;
                server_rule MASTER [] [] true; server_rule ".m.rule.tombstone" [] [Notify] true];
  content := []; room := []; sender := []; underride := []
|}.

Lemma update_with_server_default_spec_witness :
  (let! r' := update_with_server_default sample_server_default sample_ruleset in Ret ((λ x, (c_rule_id x, c_enabled x)) <$> items (override_ r'))) =
  Ret [(MASTER, false); ("mine", true); (".m.rule.suppress_notices", true); (".m.rule.tombstone", true)].
Proof.
  pose proof (update_with_server_default_spec sample_server_default sample_ruleset) as E.
  destruct (update_with_server_default _ _) as [r'| | |]; specialize (E ltac:(split_and!; by_decide) ltac:(split_and!; by_decide));
    [|discriminate E..].
  injection E as E _ _ _ _. simpl. rewrite E. by_vm.
Defined.
