(* ===== verification/CrossProcessLock.v ===== *)
(** * Leases and the cross-process lock

    A store keeps, for each key of a lock, who holds the lease, until when, and how
    many times it has changed hands.  The class [LeaseStore] states what the trait
    [TryLock] of [crates/client-common/src/cross_process_lock.rs] documents; the
    instances are the memory stores ([memory_store_helper]), the IndexedDB stores and
    the SQLite stores.  Instants are milliseconds.  The lock itself, with its attempts,
    guards and renewal task, is the second half. *)

From S2P Require Import Prelude.

(** [FIRST_CROSS_PROCESS_LOCK_GENERATION] *)
Definition FIRST_GENERATION : Z := 1.

Record Lease := { lease_holder : string; expiration : Z; lease_generation : Z }.

#[export] Instance Lease_eq_dec : EqDecision Lease.
Proof. solve_decision. Defined.

(** [u64] addition in a release build; a debug build panics where this wraps around. *)
Definition u64_succ (z : Z) : Z := ((z + 1) mod 2 ^ 64)%Z.

(** ** The contract *)

(** What the documentation of [TryLock::try_lock] says: the lease is extended if we
    had it, obtained if there is none or the previous one has expired, and otherwise
    refused; the generation counts how often the lease went to a different holder. *)
Definition grant (now lease_duration_ms : Z) (holder : string) (current : option Lease) : option Lease :=
  let lease generation := {| lease_holder := holder; expiration := now + lease_duration_ms; lease_generation := generation |} in
  match current with
  | None => Some (lease FIRST_GENERATION)
  | Some current =>
      if bool_decide (lease_holder current = holder) then Some (lease (lease_generation current))
      else if (expiration current <? now)%Z then Some (lease (lease_generation current + 1))%Z
      else None
  end.

(** The generation still fits the integers of every store. *)
Definition fits (current : option Lease) : Prop :=
  match current with Some lease => (1 <= lease_generation lease < 2 ^ 63 - 1)%Z | None => True end.

Class LeaseStore (Store : Type) := {
  store_ok : Store → Prop;
  lease_of : Store → string → option Lease;
  try_lock : Z → Z → string → string → Store → option Z * Store;
  try_lock_ok now ms key holder s : store_ok s → store_ok (snd (try_lock now ms key holder s));
  try_lock_answer now ms key holder s :
    store_ok s → fits (lease_of s key) →
    fst (try_lock now ms key holder s) = lease_generation <$> grant now ms holder (lease_of s key);
  try_lock_lease now ms key holder s :
    store_ok s → fits (lease_of s key) →
    lease_of (snd (try_lock now ms key holder s)) key =
      match grant now ms holder (lease_of s key) with Some lease => Some lease | None => lease_of s key end;
  try_lock_other now ms key holder s key' :
    store_ok s → key ≠ key' → lease_of (snd (try_lock now ms key holder s)) key' = lease_of s key'
}.

(** ** The memory stores *)

Definition try_take_leased_lock (now lease_duration_ms : Z) (key holder : string) (leases : gmap string Lease) :
    option Z * gmap string Lease :=
  let expiration_ := (now + lease_duration_ms)%Z in
  match leases !! key with
  | Some lease =>
      if bool_decide (lease_holder lease = holder) then
        (Some (lease_generation lease),
         <[key := {| lease_holder := lease_holder lease; expiration := expiration_; lease_generation := lease_generation lease |}]> leases)
      else if (expiration lease <? now)%Z then
        let generation := u64_succ (lease_generation lease) in
        (Some generation,
         <[key := {| lease_holder := holder; expiration := expiration_; lease_generation := generation |}]> leases)
      else (None, leases)
  | None =>
      (Some FIRST_GENERATION,
       <[key := {| lease_holder := holder; expiration := now + lease_duration_ms; lease_generation := FIRST_GENERATION |}]> leases)
  end.

(** ** The IndexedDB stores *)

Record IdbLease := { idb_key : string; idb_lease : Lease }.

(** An object store holds its objects under their keys. A transaction that is not
    committed changes nothing. *)
Definition idb_try_take_leased_lock (now lease_duration_ms : Z) (key holder : string) (objects : gmap string IdbLease) :
    option Z * gmap string IdbLease :=
  let expiration_ := (now + lease_duration_ms)%Z in
  let lease :=
    match objects !! key with
    | Some lease =>
        if bool_decide (lease_holder (idb_lease lease) = holder) then
          Some {| idb_key := idb_key lease;
                  idb_lease := {| lease_holder := lease_holder (idb_lease lease); expiration := expiration_;
                                  lease_generation := lease_generation (idb_lease lease) |} |}
        else if (expiration (idb_lease lease) <? now)%Z then
          Some {| idb_key := idb_key lease;
                  idb_lease := {| lease_holder := holder; expiration := expiration_;
                                  lease_generation := u64_succ (lease_generation (idb_lease lease)) |} |}
        else None
    | None =>
        Some {| idb_key := key;
                idb_lease := {| lease_holder := holder; expiration := expiration_; lease_generation := FIRST_GENERATION |} |}
    end in
  match lease with
  | Some lease => (Some (lease_generation (idb_lease lease)), <[idb_key lease := lease]> objects)
  | None => (None, objects)
  end.

(** ** The SQLite stores *)

(** The columns of the table [lease_locks] besides its primary key, [key]. The column
    [generation] is 1 by default; its integers have 63 bits and a sign. *)
Record LeaseRow := { row_holder : string; row_expiration : Z; row_generation : Z }.

(** [INSERT ... ON CONFLICT (key) DO UPDATE ... WHERE ... RETURNING generation]: the
    assignments read the row as it was, and a row that the condition excludes is
    neither changed nor returned. *)
Definition sqlite_try_take_leased_lock (now lease_duration_ms : Z) (key holder : string) (lease_locks : gmap string LeaseRow) :
    option Z * gmap string LeaseRow :=
  let excluded := {| row_holder := holder; row_expiration := now + lease_duration_ms; row_generation := 1 |} in
  match lease_locks !! key with
  | None => (Some (row_generation excluded), <[key := excluded]> lease_locks)
  | Some row =>
      if bool_decide (row_holder row = row_holder excluded) || (row_expiration row <? now)%Z then
        let generation :=
          if bool_decide (row_holder row = row_holder excluded) then row_generation row else (row_generation row + 1)%Z in
        (Some generation,
         <[key := {| row_holder := row_holder excluded; row_expiration := row_expiration excluded; row_generation := generation |}]>
           lease_locks)
      else (None, lease_locks)
  end.

(** ** The stores keep the contract *)

#[export] Program Instance memory_leases : LeaseStore (gmap string Lease) := {|
  store_ok _ := True; lease_of leases key := leases !! key; try_lock := try_take_leased_lock
|}.
Next Obligation. done. Qed.
Next Obligation.
  intros now ms key holder leases _ Hfits. unfold try_take_leased_lock, grant, u64_succ in *.
  destruct (leases !! key) as [lease|]; [|done]. cbn in Hfits. repeat case_match; try done. cbn. by rewrite Z.mod_small by lia.
Qed.
Next Obligation.
  intros now ms key holder leases _ Hfits. unfold try_take_leased_lock, grant, u64_succ in *.
  destruct (leases !! key) as [lease|] eqn:Hk; [|by simplify_map_eq]. cbn in Hfits.
  case_bool_decide; [by simplify_map_eq|]. case_match; cbn; [|done]. rewrite Z.mod_small by lia. by simplify_map_eq.
Qed.
Next Obligation. intros now ms key holder leases key' _ Hne. unfold try_take_leased_lock. repeat case_match; cbn; by simplify_map_eq. Qed.

#[export] Program Instance idb_leases : LeaseStore (gmap string IdbLease) := {|
  store_ok objects := map_Forall (λ key lease, idb_key lease = key) objects;
  lease_of objects key := idb_lease <$> objects !! key;
  try_lock := idb_try_take_leased_lock
|}.
Next Obligation.
  intros now ms key holder objects Hok. unfold idb_try_take_leased_lock.
  destruct (objects !! key) as [lease|] eqn:Hk; [pose proof (Hok _ _ Hk)|]; subst; repeat case_match; simplify_eq; cbn;
    try done; by apply map_Forall_insert_2.
Qed.
Next Obligation.
  intros now ms key holder objects _ Hfits. unfold idb_try_take_leased_lock, grant, u64_succ in *.
  destruct (objects !! key) as [lease|]; [|done]. cbn in *.
  case_bool_decide; [done|]. destruct (_ <? _)%Z; cbn; [by rewrite Z.mod_small by lia|done].
Qed.
Next Obligation.
  intros now ms key holder objects Hok Hfits. unfold idb_try_take_leased_lock, grant, u64_succ in *.
  destruct (objects !! key) as [lease|] eqn:Hk; [|by simplify_map_eq]. pose proof (Hok _ _ Hk) as <-. cbn in *.
  case_bool_decide; cbn; [by simplify_map_eq|]. destruct (_ <? _)%Z; cbn; [|by simplify_map_eq]. rewrite Z.mod_small by lia. by simplify_map_eq.
Qed.
Next Obligation.
  intros now ms key holder objects key' Hok Hne. unfold idb_try_take_leased_lock.
  destruct (objects !! key) as [lease|] eqn:Hk; [pose proof (Hok _ _ Hk)|]; subst; repeat case_match; simplify_eq; cbn; by simplify_map_eq.
Qed.

Definition row_lease (r : LeaseRow) : Lease :=
  {| lease_holder := row_holder r; expiration := row_expiration r; lease_generation := row_generation r |}.

#[export] Program Instance sqlite_leases : LeaseStore (gmap string LeaseRow) := {|
  store_ok _ := True; lease_of rows key := row_lease <$> rows !! key; try_lock := sqlite_try_take_leased_lock
|}.
Next Obligation. done. Qed.
Next Obligation.
  intros now ms key holder rows _ _. unfold sqlite_try_take_leased_lock, grant.
  destruct (rows !! key) as [row|]; [|done]. cbn. by repeat case_match.
Qed.
Next Obligation.
  intros now ms key holder rows _ _. unfold sqlite_try_take_leased_lock, grant.
  destruct (rows !! key) as [row|] eqn:Hk; cbn; [|by simplify_map_eq].
  case_bool_decide; cbn; [by simplify_map_eq|]. case_match; cbn; by simplify_map_eq.
Qed.
Next Obligation. intros now ms key holder rows key' _ Hne. unfold sqlite_try_take_leased_lock. repeat case_match; cbn; by simplify_map_eq. Qed.

(** ** Any two stores agree *)

Lemma grant_spec now ms holder current lease :
  grant now ms holder current = Some lease →
  lease_holder lease = holder ∧ expiration lease = (now + ms)%Z ∧
  match current with
  | None => lease_generation lease = FIRST_GENERATION
  | Some c =>
      lease_holder c = holder ∧ lease_generation lease = lease_generation c ∨
      lease_holder c ≠ holder ∧ (expiration c < now)%Z ∧ lease_generation lease = (lease_generation c + 1)%Z
  end.
Proof.
  unfold grant. destruct current as [c|]; [|by intros; simplify_eq]. case_bool_decide; [intros; simplify_eq; auto|].
  destruct (Z.ltb_spec (expiration c) now); intros; simplify_eq/=. split_and!; [done..|by right].
Qed.

(** A lease that has not expired is renewed for its holder and refused to others. *)
Lemma grant_own now ms c : ∃ lease, grant now ms (lease_holder c) (Some c) = Some lease.
Proof. unfold grant. rewrite bool_decide_eq_true_2 by done. eauto. Qed.

Lemma grant_refused now ms holder c : lease_holder c ≠ holder → (now <= expiration c)%Z → grant now ms holder (Some c) = None.
Proof. intros Hne Hle. unfold grant. rewrite bool_decide_eq_false_2 by done. by destruct (Z.ltb_spec (expiration c) now); [lia|]. Qed.

Lemma try_lock_spec {Store} `{!LeaseStore Store} now ms key holder (s : Store) a s' :
  try_lock now ms key holder s = (a, s') → store_ok s → fits (lease_of s key) →
  store_ok s' ∧ a = lease_generation <$> grant now ms holder (lease_of s key) ∧
  lease_of s' key = match grant now ms holder (lease_of s key) with Some lease => Some lease | None => lease_of s key end ∧
  ∀ key', key ≠ key' → lease_of s' key' = lease_of s key'.
Proof.
  intros Heq Hok Hf. replace a with (fst (try_lock now ms key holder s)) by by rewrite Heq.
  replace s' with (snd (try_lock now ms key holder s)) by by rewrite Heq.
  split_and!; [by apply try_lock_ok|by apply try_lock_answer|by apply try_lock_lease|]. intros. by apply try_lock_other.
Qed.

(** The generations that a store can have reached after [n] requests. *)
Definition within (n : Z) (current : option Lease) : Prop :=
  match current with Some lease => (1 <= lease_generation lease <= n)%Z | None => True end.

Lemma within_fits n current : within n current → (n < 2 ^ 63 - 1)%Z → fits current.
Proof. destruct current; cbn; lia. Qed.

Lemma within_le n m current : within n current → (n <= m)%Z → within m current.
Proof. destruct current; cbn; lia. Qed.

Lemma grant_within n now ms holder current lease :
  (0 <= n)%Z → within n current → grant now ms holder current = Some lease → within (n + 1) (Some lease).
Proof. intros Hn Hw (_ & _ & Hg)%grant_spec. destruct current; cbn in *; unfold FIRST_GENERATION in *; lia. Qed.

Record Request := { at_ : Z; lease_ms : Z; request_key : string; request_holder : string }.

Section agreement.
Context {Store Store' : Type} `{!LeaseStore Store, !LeaseStore Store'}.

(** The answers to requests that are made one after the other. *)
Fixpoint answers {Store} `{!LeaseStore Store} (requests : list Request) (s : Store) : list (option Z) :=
  match requests with
  | [] => []
  | r :: requests =>
      let '(answer, s) := try_lock (at_ r) (lease_ms r) (request_key r) (request_holder r) s in answer :: answers requests s
  end.

Lemma try_lock_within n now ms key holder (s : Store) key' :
  store_ok s → (0 <= n < 2 ^ 63 - 1)%Z → (∀ k, within n (lease_of s k)) →
  within (n + 1) (lease_of (snd (try_lock now ms key holder s)) key').
Proof.
  intros Hok Hn Hw. pose proof (within_fits _ _ (Hw key)) as Hf. destruct (decide (key = key')) as [<-|Hne].
  - rewrite try_lock_lease by (done || apply Hf; lia). destruct (grant _ _ _ _) as [lease|] eqn:Hg.
    + eapply grant_within; [lia|apply Hw|done].
    + eapply within_le; [apply Hw|lia].
  - rewrite try_lock_other by done. eapply within_le; [apply Hw|lia].
Qed.

Lemma answers_agree requests n (s : Store) (s' : Store') :
  store_ok s → store_ok s' → (∀ k, lease_of s k = lease_of s' k) → (∀ k, within n (lease_of s k)) →
  (0 <= n)%Z → (n + Z.of_nat (length requests) < 2 ^ 63 - 1)%Z → answers requests s = answers requests s'.
Proof.
  revert n s s'. induction requests as [|r rs IH]; intros n s s' Hok Hok' Heq Hw Hn Hlen; [done|]. cbn in Hlen |- *.
  assert (fits (lease_of s (request_key r))) as Hf by (eapply within_fits; [apply Hw|lia]).
  pose proof (λ k, try_lock_within n (at_ r) (lease_ms r) (request_key r) (request_holder r) s k Hok) as Hw'.
  assert (fits (lease_of s' (request_key r))) as Hf' by by rewrite <- Heq.
  destruct (try_lock _ _ _ _ s) as [a t] eqn:Ht, (try_lock _ _ _ _ s') as [a' t'] eqn:Ht'. cbn in Hw'.
  apply try_lock_spec in Ht as (Hok1 & -> & Hl & Ho); [|done..]. apply try_lock_spec in Ht' as (Hok1' & -> & Hl' & Ho'); [|done..].
  rewrite <- Heq in Hl' |- *. f_equal.
  apply (IH (n + 1)%Z); [done|done| |intros k; apply Hw'; [lia|done]|lia|lia].
  intros k. destruct (decide (request_key r = k)) as [<-|Hne]; [congruence|]. by rewrite Ho, Ho', Heq.
Qed.

End agreement.

(** The three kinds of stores implement one lock: for every sequence of requests,
    made at any times by any holders for any keys, the memory stores, the IndexedDB
    stores and the SQLite stores grant and refuse the same leases with the same
    generations. *)
Theorem stores_agree requests :
  (Z.of_nat (length requests) < 2 ^ 63 - 1)%Z →
  answers requests (∅ : gmap string Lease) = answers requests (∅ : gmap string IdbLease) ∧
  answers requests (∅ : gmap string Lease) = answers requests (∅ : gmap string LeaseRow).
Proof.
  intros Hlen. split; apply (answers_agree _ 0); try done; try (intros k; cbn; by rewrite !lookup_empty); apply map_Forall_empty.
Qed.

(** Alice takes a lease, Bob is refused, Alice extends it and gives it back with a
    lease of zero milliseconds, and Bob gets it as the second holder. *)
Example stores_agree_witness :
  let r at_ ms who := {| at_ := at_; lease_ms := ms; request_key := "k"; request_holder := who |} in
  let requests := [r 0 500 "alice"; r 100 500 "bob"; r 200 500 "alice"; r 300 0 "alice"; r 301 500 "bob"; r 302 500 "alice"]%Z in
  answers requests (∅ : gmap string Lease) = [Some 1; None; Some 1; Some 1; Some 2; None]%Z ∧
  answers requests (∅ : gmap string IdbLease) = [Some 1; None; Some 1; Some 1; Some 2; None]%Z ∧
  answers requests (∅ : gmap string LeaseRow) = [Some 1; None; Some 1; Some 1; Some 2; None]%Z.
Proof.
  intros r requests. assert (answers requests (∅ : gmap string Lease) = [Some 1; None; Some 1; Some 1; Some 2; None]%Z) as He by by_vm.
  destruct (stores_agree requests) as [<- <-]; [done|]. done.
Defined.

(** ** The cross-process lock

    [crates/client-common/src/cross_process_lock.rs]: processes that share a store
    exclude each other by a lease in the store, which a background task renews while
    the process holds guards of the lock.

    The processes, their tasks and the clock interleave: a [World] has the time, the
    store and the locks, and an [Event] is the next atomic action of one of them. An
    attempt to lock and the renewal task are programs; [Attempt] and [RenewTask] are
    the points at which they can be interrupted, between two accesses to something
    shared. The mutex [locking_attempt] is taken while there is an attempt and while
    the task gives the lease back. *)

(** ** Data *)

Definition LEASE_DURATION_MS : Z := 500.
Definition EXTEND_LEASE_EVERY_MS : Z := 50.
Definition INITIAL_BACKOFF_MS : Z := 10.
Definition MAX_BACKOFF_MS : Z := 1000.
Definition NO_GENERATION : Z := 0.

Inductive CrossProcessLockConfig := MultiProcess (holder_name : string) | SingleProcess.

(** Each of the two comes with a guard. *)
Inductive CrossProcessLockState := Clean | Dirty.

Inductive CrossProcessLockUnobtained := Busy | TimedOut.

(** [AcquireCrossProcessLockResult]; an error of the store is its text. *)
Definition Answer : Type := result string (result CrossProcessLockUnobtained CrossProcessLockState).

#[export] Instance CrossProcessLockState_eq_dec : EqDecision CrossProcessLockState.
Proof. solve_decision. Defined.
#[export] Instance CrossProcessLockUnobtained_eq_dec : EqDecision CrossProcessLockUnobtained.
Proof. solve_decision. Defined.

(** The points of [try_lock_once], once it has the mutex: the holders are counted, a
    guard is added to those there are; or the store is asked for the lease, the new
    generation is stored and compared, the dirty flag is set, the renewal task is
    replaced, the guard is made, and the dirty flag is read for the answer. *)
Inductive Attempt := Counting | Joining | Asking | Swapping (new_generation : Z) | Dirtying | Spawning | Guarding | Reporting.

(** The points of the renewal task: the holders are checked under the mutex, the
    lease is given back under the mutex, and the sleep before the next renewal. *)
Inductive RenewTask := Checking | Cancelling | Sleeping (wake : Z).

#[export] Instance Attempt_eq_dec : EqDecision Attempt.
Proof. solve_decision. Defined.
#[export] Instance RenewTask_eq_dec : EqDecision RenewTask.
Proof. solve_decision. Defined.

(** [holders] counts the guards (the weak pointers to the inner data); [aborted]
    counts the tasks that were cancelled while they were about to renew the lease. *)
Record CrossProcessLock := {
  lock_key : string; config : CrossProcessLockConfig;
  generation : Z; is_dirty : bool; holders : nat;
  renew_task : option RenewTask; aborted : nat; attempt : option Attempt
}.

Definition new_lock (key : string) (cfg : CrossProcessLockConfig) : CrossProcessLock :=
  {| lock_key := key; config := cfg; generation := NO_GENERATION; is_dirty := false; holders := 0;
     renew_task := None; aborted := 0; attempt := None |}.

Definition set_attempt (a : option Attempt) (l : CrossProcessLock) : CrossProcessLock :=
  {| lock_key := lock_key l; config := config l; generation := generation l; is_dirty := is_dirty l; holders := holders l;
     renew_task := renew_task l; aborted := aborted l; attempt := a |}.

Definition set_generation (g : Z) (l : CrossProcessLock) : CrossProcessLock :=
  {| lock_key := lock_key l; config := config l; generation := g; is_dirty := is_dirty l; holders := holders l;
     renew_task := renew_task l; aborted := aborted l; attempt := attempt l |}.

Definition set_dirty (d : bool) (l : CrossProcessLock) : CrossProcessLock :=
  {| lock_key := lock_key l; config := config l; generation := generation l; is_dirty := d; holders := holders l;
     renew_task := renew_task l; aborted := aborted l; attempt := attempt l |}.

Definition set_holders (n : nat) (l : CrossProcessLock) : CrossProcessLock :=
  {| lock_key := lock_key l; config := config l; generation := generation l; is_dirty := is_dirty l; holders := n;
     renew_task := renew_task l; aborted := aborted l; attempt := attempt l |}.

Definition set_tasks (task : option RenewTask) (n : nat) (l : CrossProcessLock) : CrossProcessLock :=
  {| lock_key := lock_key l; config := config l; generation := generation l; is_dirty := is_dirty l; holders := holders l;
     renew_task := task; aborted := n; attempt := attempt l |}.

(** What can be seen of an action, for the lock with the given number: the store has
    granted it a lease, to an attempt or to a task; an attempt has compared the
    generations; the dirty flag has been cleared; an attempt has answered, after asking
    the store or by joining the holders there were. *)
Inductive Note :=
| Granted (i : nat) (to_attempt : bool)
| Compared (i : nat)
| Cleared (i : nat)
| Answered (i : nat) (asked : bool) (answer : Answer).

(** ** Spinning *)

Inductive WaitingTime := Waiting (ms : Z) | Stop.

Definition u32_max : Z := 2 ^ 32 - 1.

(** [spin_lock] with the answers of its calls of [try_lock_once], the backoff that it
    finds, the one that it leaves, and the times that it sleeps between the calls. *)
Fixpoint spin_lock (fuel : nat) (cfg : CrossProcessLockConfig) (max_backoff : option Z) (answers : nat → Answer)
    (backoff : WaitingTime) : outcome Empty_set (Answer * WaitingTime * list Z) :=
  match fuel with
  | 0 => OutOfFuel
  | S fuel =>
      match answers 0 with
      | Err e => Ret (Err e, backoff, [])
      | Ok (Ok state) =>
          Ret (Ok (Ok state), match cfg with MultiProcess _ => Waiting INITIAL_BACKOFF_MS | SingleProcess => backoff end, [])
      | Ok (Err _) =>
          match backoff with
          | Waiting val =>
              let val' := Z.min (val * 2) u32_max in
              let backoff := if (default MAX_BACKOFF_MS max_backoff <=? val')%Z then Stop else Waiting val' in
              let! (answer, backoff, waits) := spin_lock fuel cfg max_backoff (λ k, answers (S k)) backoff in
              Ret (answer, backoff, val :: waits)
          | Stop => Ret (Ok (Err TimedOut), Stop, [])
          end
      end
  end.

Section lock.
Context {Store : Type} `{!LeaseStore Store}.

Record World := { now : Z; store : Store; locks : list CrossProcessLock }.

(** ** The lock *)

(** Nobody has the mutex [locking_attempt]. *)
Definition mutex_free (l : CrossProcessLock) : bool :=
  bool_decide (attempt l = None) && bool_decide (renew_task l ≠ Some Cancelling).

(** The beginning of [try_lock_once], up to the mutex. *)
Definition begin_attempt (i : nat) (l : CrossProcessLock) : option (CrossProcessLock * list Note) :=
  match config l with
  | SingleProcess => Some (set_holders (S (holders l)) l, [Answered i false (Ok (Ok Clean))])
  | MultiProcess _ => if mutex_free l then Some (set_attempt (Some Counting) l, []) else None
  end.

(** Cancelling the previous task. A task that is awake and about to renew the lease
    may still do so. *)
Definition abort_task (now : Z) (l : CrossProcessLock) : nat :=
  match renew_task l with
  | Some (Sleeping wake) => if (wake <=? now)%Z then S (aborted l) else aborted l
  | _ => aborted l
  end.

(** The rest of [try_lock_once]; [failure] is an error of the store. *)
Definition attempt_step (failure : option string) (now : Z) (holder : string) (i : nat) (l : CrossProcessLock) (s : Store) :
    option (CrossProcessLock * Store * list Note) :=
  let answer l s asked a := Some (set_attempt None l, s, [Answered i asked a]) in
  match attempt l with
  | None => None
  | Some Counting => Some (set_attempt (Some (if 0 <? holders l then Joining else Asking)) l, s, [])
  | Some Joining => answer (set_holders (S (holders l)) l) s false (Ok (Ok Clean))
  | Some Asking =>
      match failure with
      | Some e => answer l s true (Err e)
      | None =>
          let '(obtained, s) := try_lock now LEASE_DURATION_MS (lock_key l) holder s in
          match obtained with
          | Some new_generation => Some (set_attempt (Some (Swapping new_generation)) l, s, [Granted i true])
          | None => answer l s true (Ok (Err Busy))
          end
      end
  | Some (Swapping new_generation) =>
      let previous_generation := generation l in
      let l := set_generation new_generation l in
      if (previous_generation =? NO_GENERATION)%Z then Some (set_attempt (Some Spawning) l, s, [Compared i])
      else if negb (previous_generation =? new_generation)%Z then Some (set_attempt (Some Dirtying) l, s, [])
      else Some (set_attempt (Some Spawning) l, s, [Compared i])
  | Some Dirtying => Some (set_attempt (Some Spawning) (set_dirty true l), s, [Compared i])
  | Some Spawning => Some (set_attempt (Some Guarding) (set_tasks (Some Checking) (abort_task now l) l), s, [])
  | Some Guarding => Some (set_attempt (Some Reporting) (set_holders (S (holders l)) l), s, [])
  | Some Reporting => answer l s true (Ok (Ok (if is_dirty l then Dirty else Clean)))
  end.

Definition granted (i : nat) (obtained : option Z) : list Note :=
  match obtained with Some _ => [Granted i false] | None => [] end.

(** The loop of the renewal task. *)
Definition task_step (failure : option string) (now : Z) (holder : string) (i : nat) (l : CrossProcessLock) (s : Store) :
    option (CrossProcessLock * Store * list Note) :=
  let become task := set_tasks task (aborted l) l in
  match renew_task l with
  | None => None
  | Some Checking =>
      if bool_decide (attempt l = None) then
        Some (become (Some (if holders l =? 0 then Cancelling else Sleeping (now + EXTEND_LEASE_EVERY_MS))), s, [])
      else None
  | Some Cancelling =>
      match failure with
      | Some _ => Some (become None, s, [])
      | None =>
          let '(obtained, s) := try_lock now 0 (lock_key l) holder s in
          Some (become None, s, granted i obtained)
      end
  | Some (Sleeping wake) =>
      if (now <? wake)%Z then None
      else
        match failure with
        | Some _ => Some (become None, s, [])
        | None =>
            let '(obtained, s) := try_lock now LEASE_DURATION_MS (lock_key l) holder s in
            match obtained with
            | Some _ => Some (become (Some Checking), s, granted i obtained)
            | None => Some (become None, s, [])
            end
        end
  end.

(** The last action of a cancelled task. *)
Definition aborted_step (now : Z) (holder : string) (i : nat) (l : CrossProcessLock) (s : Store) :
    option (CrossProcessLock * Store * list Note) :=
  match aborted l with
  | 0 => None
  | S n =>
      let '(obtained, s) := try_lock now LEASE_DURATION_MS (lock_key l) holder s in
      Some (set_tasks (renew_task l) n l, s, granted i obtained)
  end.

(** [Clone] and [Drop] of a guard, and [clear_dirty]. *)
Definition clone_guard (l : CrossProcessLock) : option CrossProcessLock :=
  match holders l with 0 => None | S n => Some (set_holders (S (S n)) l) end.

Definition drop_guard (l : CrossProcessLock) : option CrossProcessLock :=
  match holders l with 0 => None | S n => Some (set_holders n l) end.

Definition clear_dirty (l : CrossProcessLock) : CrossProcessLock := set_dirty false l.

(** ** The processes together *)

Inductive Event :=
| Tick (ms : nat)
| TryLockOnce (i : nat)
| AttemptStep (i : nat) (failure : option string)
| TaskStep (i : nat) (failure : option string)
| AbortedStep (i : nat)
| CloneGuard (i : nat)
| DropGuard (i : nat)
| ClearDirty (i : nat).

Definition put (i : nat) (l : CrossProcessLock) (s : Store) (w : World) : World :=
  {| now := now w; store := s; locks := <[i := l]> (locks w) |}.

(** A step of a program of lock [i] that may use the store. *)
Definition with_holder (i : nat) (w : World)
    (f : string → CrossProcessLock → Store → option (CrossProcessLock * Store * list Note)) : option (World * list Note) :=
  l ← locks w !! i;
  match config l with
  | SingleProcess => None
  | MultiProcess holder => '(l, s, notes) ← f holder l (store w); Some (put i l s w, notes)
  end.

(** [None]: the event cannot happen in this world. *)
Definition step (e : Event) (w : World) : option (World * list Note) :=
  match e with
  | Tick ms => Some ({| now := now w + Z.of_nat ms; store := store w; locks := locks w |}, [])
  | TryLockOnce i => l ← locks w !! i; '(l, notes) ← begin_attempt i l; Some (put i l (store w) w, notes)
  | AttemptStep i failure => with_holder i w (λ holder, attempt_step failure (now w) holder i)
  | TaskStep i failure => with_holder i w (λ holder, task_step failure (now w) holder i)
  | AbortedStep i => with_holder i w (λ holder, aborted_step (now w) holder i)
  | CloneGuard i => l ← locks w !! i; l ← clone_guard l; Some (put i l (store w) w, [])
  | DropGuard i => l ← locks w !! i; l ← drop_guard l; Some (put i l (store w) w, [])
  | ClearDirty i => l ← locks w !! i; Some (put i (clear_dirty l) (store w) w, [Cleared i])
  end.

Fixpoint run (events : list Event) (w : World) : option (World * list Note) :=
  match events with
  | [] => Some (w, [])
  | e :: events => '(w, notes) ← step e w; '(w, later) ← run events w; Some (w, notes ++ later)
  end.

End lock.

Arguments World : clear implicits.
