(* ===== verification/CrossProcessLockSpec.v ===== *)
(** * The cross-process lock excludes and tells when it was taken over

    Mutual exclusion when the renewal tasks run in time, the dirty flag against what
    has happened, and the bound on spinning. *)

From S2P Require Import Prelude CrossProcessLock.

(** ** Spinning *)

Definition is_busy (a : Answer) : bool := match a with Ok (Err _) => true | _ => false end.

(** Waiting times that double. *)
Fixpoint doubling (val : Z) (n : nat) : list Z := match n with 0 => [] | S n => val :: doubling (val * 2) n end.

Definition sum (waits : list Z) : Z := foldr Z.add 0%Z waits.

Lemma sum_doubling n val : sum (doubling val n) = (val * (2 ^ Z.of_nat n - 1))%Z.
Proof.
  revert val. induction n as [|n IH]; intros val; [cbn; lia|]. cbn -[Z.pow Z.of_nat]. unfold sum in IH. rewrite IH.
  rewrite Nat2Z.inj_succ, Z.pow_succ_r by lia. lia.
Qed.

(** What a spinning caller does from a waiting time that [f] doublings bring to the
    greatest one: the lock was busy [n] times, and either it is not the next time, or
    the waiting time has reached the greatest one. *)
Lemma spin_lock_from f cfg max answers val :
  (1 <= val)%Z → (default MAX_BACKOFF_MS max <= u32_max)%Z → 1 ≤ f → (default MAX_BACKOFF_MS max <= val * 2 ^ Z.of_nat f)%Z →
  ∃ a b n, spin_lock (S f) cfg max answers (Waiting val) = Ret (a, b, doubling val n) ∧ n ≤ f ∧
    (∀ k, k < n → is_busy (answers k) = true) ∧
    (is_busy (answers n) = false ∧ a = answers n ∨ is_busy (answers n) = true ∧ a = Ok (Err TimedOut) ∧ b = Stop) ∧
    (n ≤ 1 ∨ (val * 2 ^ (Z.of_nat n - 1) < default MAX_BACKOFF_MS max)%Z).
Proof.
  revert answers val. induction f as [|f IH]; intros answers val Hval Hmax Hf Hpow; [lia|].
  remember (S f) as f' eqn:Hf'. cbn [spin_lock]. destruct (answers 0) as [[st|u]|e] eqn:H0.
  - eexists _, _, 0. split; [done|]. rewrite H0. split_and!; [lia|intros; lia|by left|by left; lia].
  - destruct (Z.leb_spec (default MAX_BACKOFF_MS max) (Z.min (val * 2) u32_max)) as [Hle|Hlt].
    + subst f'. cbn [spin_lock].
      assert (∀ k, k < 1 → is_busy (answers k) = true) as Hbusy by (intros [|k] Hk; [by rewrite H0|lia]).
      destruct (answers 1) as [[st|u']|e] eqn:H1; eexists _, _, 1; (split; [done|]); rewrite H1; split_and!; try done; try lia;
        [by left|by right|by left].
    + assert (val * 2 < default MAX_BACKOFF_MS max)%Z as Hlt' by lia. rewrite Z.min_l by lia.
      destruct f as [|f]; [subst f'; cbn in Hpow; lia|]. rewrite Hf', Nat2Z.inj_succ, Z.pow_succ_r in Hpow by lia.
      destruct (IH (λ k, answers (S k)) (val * 2)%Z) as (a & b & n & Heq & Hn & Hbusy & Hcase & Hw); [lia|done|lia|lia|].
      subst f'. rewrite Heq. exists a, b, (S n). split; [done|]. split; [lia|]. split; [|split; [done|]].
      * intros [|k] Hk; [by rewrite H0|]. apply Hbusy. lia.
      * destruct n as [|n]; [by left; lia|]. right. destruct Hw as [Hw|Hw].
        -- replace n with 0 by lia. cbn. lia.
        -- replace (Z.of_nat (S (S n)) - 1)%Z with (Z.succ (Z.of_nat (S n) - 1)) by lia. rewrite Z.pow_succ_r by lia. lia.
  - eexists _, _, 0. split; [done|]. rewrite H0. split_and!; [lia|intros; lia|by left|by left; lia].
Qed.

(** [spin_lock] comes to an end: whatever the attempts answer and whatever the
    greatest waiting time, it makes at most 30 attempts and sleeps less than twice the
    greatest waiting time (or 10 milliseconds) in all, for times that double. It
    returns the first answer that is not that the lock is busy, and otherwise that it
    has timed out. After a timeout the backoff is left as it is: the next call gives
    up after a single attempt, without waiting. *)
Theorem spin_lock_bounded cfg max answers :
  (0 <= default MAX_BACKOFF_MS max <= u32_max)%Z →
  ∃ a b n, spin_lock 30 cfg max answers (Waiting INITIAL_BACKOFF_MS) = Ret (a, b, doubling INITIAL_BACKOFF_MS n) ∧
    n < 30 ∧ (sum (doubling INITIAL_BACKOFF_MS n) <= Z.max INITIAL_BACKOFF_MS (2 * default MAX_BACKOFF_MS max))%Z ∧
    (∀ k, k < n → is_busy (answers k) = true) ∧
    (is_busy (answers n) = false ∧ a = answers n ∨
     is_busy (answers n) = true ∧ a = Ok (Err TimedOut) ∧
     ∀ answers', is_busy (answers' 0) = true → spin_lock 1 cfg max answers' b = Ret (Ok (Err TimedOut), b, [])).
Proof.
  intros [_ Hmax]. destruct (spin_lock_from 29 cfg max answers INITIAL_BACKOFF_MS) as (a & b & n & Heq & Hn & Hbusy & Hcase & Hw);
    [done|done|lia|unfold INITIAL_BACKOFF_MS, u32_max in *; lia|].
  exists a, b, n. split; [done|]. split; [lia|]. split; [|split; [done|]].
  - rewrite sum_doubling. destruct n as [|n]; [unfold INITIAL_BACKOFF_MS; lia|]. destruct Hw as [Hw|Hw].
    + replace n with 0 by lia. cbn. unfold INITIAL_BACKOFF_MS. lia.
    + rewrite Nat2Z.inj_succ in *. replace (Z.succ (Z.of_nat n) - 1)%Z with (Z.of_nat n) in Hw by lia.
      rewrite Z.pow_succ_r by lia. unfold INITIAL_BACKOFF_MS in *. lia.
  - destruct Hcase as [?|(Hb & -> & ->)]; [by left|right]. split_and!; [done..|]. intros answers'. cbn.
    by destruct (answers' 0) as [[?|?]|?].
Qed.

(** The lock is busy three times and then free; the waits are 10, 20 and 40 ms. *)
Example spin_lock_bounded_witness :
  let answers k := if decide (k < 3) then Ok (Err Busy) else Ok (Ok Clean) in
  spin_lock 30 (MultiProcess "me") None answers (Waiting INITIAL_BACKOFF_MS)
  = Ret (Ok (Ok Clean), Waiting INITIAL_BACKOFF_MS, [10; 20; 40]%Z) ∧
  ∃ a b n, spin_lock 30 (MultiProcess "me") None answers (Waiting INITIAL_BACKOFF_MS) = Ret (a, b, doubling INITIAL_BACKOFF_MS n) ∧ n < 30.
Proof.
  intros answers. split; [reflexivity|].
  destruct (spin_lock_bounded (MultiProcess "me") None answers) as (a & b & n & Heq & Hn & _); [by split|]. by exists a, b, n.
Defined.

(** ** What an action does *)

#[export] Instance CrossProcessLockConfig_eq_dec : EqDecision CrossProcessLockConfig.
Proof. solve_decision. Defined.

Definition is_grant (n : Note) : bool := match n with Granted _ _ => true | _ => false end.

Definition note_lock (n : Note) : nat := match n with Granted i _ | Compared i | Cleared i | Answered i _ _ => i end.

Section proofs.
Context {Store : Type} `{!LeaseStore Store}.
Implicit Types (l : CrossProcessLock) (s : Store) (w : World Store) (ns : list Note).

(** The actions of lock [i], on the lock and the store. *)
Inductive acts (t : Z) (i : nat) (l : CrossProcessLock) (s : Store) : Event → CrossProcessLock → Store → list Note → Prop :=
| acts_begin l' ns : begin_attempt i l = Some (l', ns) → acts t i l s (TryLockOnce i) l' s ns
| acts_attempt failure holder l' s' ns :
    config l = MultiProcess holder → attempt_step failure t holder i l s = Some (l', s', ns) →
    acts t i l s (AttemptStep i failure) l' s' ns
| acts_task failure holder l' s' ns :
    config l = MultiProcess holder → task_step failure t holder i l s = Some (l', s', ns) →
    acts t i l s (TaskStep i failure) l' s' ns
| acts_aborted holder l' s' ns :
    config l = MultiProcess holder → aborted_step t holder i l s = Some (l', s', ns) → acts t i l s (AbortedStep i) l' s' ns
| acts_clone l' : clone_guard l = Some l' → acts t i l s (CloneGuard i) l' s []
| acts_drop l' : drop_guard l = Some l' → acts t i l s (DropGuard i) l' s []
| acts_clear : acts t i l s (ClearDirty i) (clear_dirty l) s [Cleared i].

(** An event is a tick of the clock or an action of a lock. *)
Lemma step_acts e w w' ns :
  step e w = Some (w', ns) →
  (∃ ms, e = Tick ms ∧ w' = {| now := now w + Z.of_nat ms; store := store w; locks := locks w |} ∧ ns = []) ∨
  ∃ i l l' s', locks w !! i = Some l ∧ acts (now w) i l (store w) e l' s' ns ∧ w' = put i l' s' w.
Proof.
  destruct e; cbn; unfold with_holder; intros H; simplify_option_eq; [by left; eexists|right..].
  - destruct (begin_attempt i _) as [[l' ns']|] eqn:Hb; simplify_eq/=. by repeat econstructor.
  - destruct (config _) eqn:Hc; [|done]. destruct (attempt_step _ _ _ _ _ _) as [[[l' s'] ns']|] eqn:Hb; simplify_eq/=. by repeat econstructor.
  - destruct (config _) eqn:Hc; [|done]. destruct (task_step _ _ _ _ _ _) as [[[l' s'] ns']|] eqn:Hb; simplify_eq/=. by repeat econstructor.
  - destruct (config _) eqn:Hc; [|done]. destruct (aborted_step _ _ _ _ _) as [[[l' s'] ns']|] eqn:Hb; simplify_eq/=. by repeat econstructor.
  - by repeat econstructor.
  - by repeat econstructor.
  - by repeat econstructor.
Qed.

(** What the other locks notice of an action: the store stays, or it was asked for a
    lease, and a lease that it granted is noted. *)
Inductive effect (t : Z) (i : nat) (l : CrossProcessLock) (s : Store) : Store → list Note → Prop :=
| effect_none ns : Forall (λ n, is_grant n = false) ns → effect t i l s s ns
| effect_refused holder ms s' ns :
    config l = MultiProcess holder → try_lock t ms (lock_key l) holder s = (None, s') →
    Forall (λ n, is_grant n = false) ns → effect t i l s s' ns
| effect_granted holder ms g s' b :
    config l = MultiProcess holder → try_lock t ms (lock_key l) holder s = (Some g, s') → effect t i l s s' [Granted i b].

Ltac solve_effect :=
  repeat case_match; simplify_eq/=; split_and!; try done;
  try first [ solve [repeat constructor] | by eapply effect_granted | by eapply effect_refused; [..|repeat constructor]
            | by apply effect_none; repeat constructor ].

Lemma acts_effect t i l s e l' s' ns :
  acts t i l s e l' s' ns →
  lock_key l' = lock_key l ∧ config l' = config l ∧ Forall (λ n, note_lock n = i) ns ∧ effect t i l s s' ns.
Proof.
  intros [l1 ns1 Hb|failure holder l1 s1 ns1 Hc Hb|failure holder l1 s1 ns1 Hc Hb|holder l1 s1 ns1 Hc Hb|l1 Hb|l1 Hb|].
  - unfold begin_attempt in Hb. solve_effect.
  - unfold attempt_step in Hb. destruct (attempt l) as [[]|]; [..|done]; solve_effect.
  - unfold task_step, granted in Hb. destruct (renew_task l) as [[]|]; [..|done]; solve_effect.
  - unfold aborted_step, granted in Hb. destruct (aborted l); [done|]. solve_effect.
  - unfold clone_guard in Hb. solve_effect.
  - unfold drop_guard in Hb. solve_effect.
  - solve_effect.
Qed.

(** A store whose generations have been raised at most [n] times. *)
Definition store_within (n : Z) (s : Store) : Prop := store_ok s ∧ ∀ k, within n (lease_of s k).

Lemma store_within_try n t ms key holder s a s' :
  (0 <= n < 2 ^ 63 - 1)%Z → store_within n s → try_lock t ms key holder s = (a, s') → store_within (n + 1) s'.
Proof.
  intros Hn [Hok Hw] Ht. replace s' with (snd (try_lock t ms key holder s)) by by rewrite Ht.
  split; [by apply try_lock_ok|]. intros k. by apply try_lock_within.
Qed.

Lemma effect_within n t i l s s' ns :
  (0 <= n < 2 ^ 63 - 1)%Z → store_within n s → effect t i l s s' ns → store_within (n + 1) s'.
Proof.
  intros Hn Hs [| |]; [|by eapply store_within_try..]. destruct Hs as [Hok Hw]. split; [done|]. intros k.
  eapply within_le; [apply Hw|lia].
Qed.

(** The lease of a key after an action: as before, or the one that was granted. *)
Lemma effect_lease n t i l s s' ns k :
  (0 <= n < 2 ^ 63 - 1)%Z → store_within n s → effect t i l s s' ns →
  (lease_of s' k = lease_of s k ∧ (lock_key l ≠ k ∨ Forall (λ n, is_grant n = false) ns)) ∨
  ∃ b holder ms lease, lock_key l = k ∧ ns = [Granted i b] ∧ config l = MultiProcess holder ∧
    grant t ms holder (lease_of s k) = Some lease ∧ lease_of s' k = Some lease.
Proof.
  intros Hn [Hok Hw] [ns' Hns|holder ms s1 ns' Hc Ht Hns|holder ms g s1 b Hc Ht].
  - left. by split; [|right].
  - left. split; [|by right]. apply try_lock_spec in Ht as (_ & Hg & Hl & Ho); [|done|eapply within_fits; [apply Hw|lia]].
    destruct (decide (lock_key l = k)) as [<-|Hne]; [|by apply Ho]. rewrite Hl. by destruct (grant _ _ _ _).
  - apply try_lock_spec in Ht as (_ & Hg & Hl & Ho); [|done|eapply within_fits; [apply Hw|lia]].
    destruct (decide (lock_key l = k)) as [<-|Hne]; [right|left; split; [by apply Ho|by left]].
    destruct (grant _ _ _ _) as [lease|] eqn:Hgr; [|done]. by eexists b, holder, ms, lease.
Qed.

(** ** The dirty flag *)

(** What a lock should know, from the notes alone: whether it has ever obtained the
    lease, whether since then the lease has been granted to another holder, whether it
    had been when the lock obtained it again and this is yet to be recorded, and
    whether it is dirty. *)
Record View := { obtained : bool; stale : bool; pending : bool; dirty : bool }.

(** Locks on the same key by different holders. *)
Definition competes (ls : list CrossProcessLock) (i j : nat) : bool :=
  match ls !! i, ls !! j with
  | Some l, Some l' => bool_decide (lock_key l = lock_key l') && negb (bool_decide (config l = config l'))
  | _, _ => false
  end.

Definition see (ls : list CrossProcessLock) (i : nat) (v : View) (n : Note) : View :=
  match n with
  | Granted j to_attempt =>
      if bool_decide (i = j) && to_attempt then
        {| obtained := true; stale := false; pending := obtained v && stale v; dirty := dirty v |}
      else if competes ls i j then {| obtained := obtained v; stale := true; pending := pending v; dirty := dirty v |}
      else v
  | Compared j =>
      if bool_decide (i = j) then {| obtained := obtained v; stale := stale v; pending := false; dirty := dirty v || pending v |}
      else v
  | Cleared j =>
      if bool_decide (i = j) then {| obtained := obtained v; stale := stale v; pending := pending v; dirty := false |} else v
  | Answered _ _ _ => v
  end.

Definition view (ls : list CrossProcessLock) (i : nat) (ns : list Note) : View :=
  foldl (see ls i) {| obtained := false; stale := false; pending := false; dirty := false |} ns.

(** The generation that the lock obtained last. *)
Definition last_generation (l : CrossProcessLock) : Z :=
  match attempt l with Some (Swapping g) => g | _ => generation l end.

Definition pending_of (l : CrossProcessLock) : bool :=
  match attempt l with
  | Some (Swapping g) => negb (generation l =? NO_GENERATION)%Z && negb (generation l =? g)%Z
  | Some Dirtying => true
  | _ => false
  end.

(** The lock and the store against the view: the generation has moved on exactly when
    another holder has had the lease. *)
Definition tracks (s : Store) (l : CrossProcessLock) (v : View) : Prop :=
  is_dirty l = dirty v ∧ pending v = pending_of l ∧ (0 <= generation l)%Z ∧
  if obtained v then
    (1 <= last_generation l)%Z ∧
    ∃ lease, lease_of s (lock_key l) = Some lease ∧
      if stale v then (last_generation l < lease_generation lease)%Z
      else MultiProcess (lease_holder lease) = config l ∧ lease_generation lease = last_generation l
  else last_generation l = NO_GENERATION.

Definition mark_stale (v : View) : View := {| obtained := obtained v; stale := true; pending := pending v; dirty := dirty v |}.

Lemma tracks_same_lease s s' l v : lease_of s' (lock_key l) = lease_of s (lock_key l) → tracks s l v → tracks s' l v.
Proof. unfold tracks. by intros ->. Qed.

Lemma tracks_grant t ms holder s s' l v lease :
  tracks s l v → grant t ms holder (lease_of s (lock_key l)) = Some lease → lease_of s' (lock_key l) = Some lease →
  tracks s' l (if bool_decide (config l = MultiProcess holder) then v else mark_stale v).
Proof.
  unfold tracks. intros (Hd & Hp & Hg & Hv) (Hh & _ & Hgr)%grant_spec Hl. destruct (obtained v) eqn:Ho.
  - destruct Hv as (Hge & cur & Hcur & Hst). rewrite Hcur in Hgr. rewrite Hl.
    destruct (decide (config l = MultiProcess holder)) as [Hc|Hc].
    + rewrite bool_decide_eq_true_2, Ho by done. split_and!; [done..|]. eexists. split; [done|].
      destruct (stale v); [lia|]. destruct Hst as [Heq <-]. rewrite Hc in Heq. simplify_eq. by destruct Hgr as [[_ ?]|[? _]].
    + rewrite bool_decide_eq_false_2 by done. cbn. rewrite Ho. split_and!; [done..|]. eexists. split; [done|].
      destruct (stale v); [lia|]. destruct Hst as [Heq <-]. destruct Hgr as [[<- _]|(_ & _ & ->)]; [congruence|lia].
  - destruct (bool_decide (config l = MultiProcess holder)); cbn; by rewrite Ho.
Qed.

Lemma foldl_see ls j v ns : (∀ m v, m ∈ ns → see ls j v m = v) → foldl (see ls j) v ns = v.
Proof.
  revert v. induction ns as [|m ns IH]; intros v H; [done|]. cbn. rewrite H by left. apply IH. intros. apply H. by right.
Qed.

(** The identity of a lock, which no action changes. *)
Definition same_lock (l l' : CrossProcessLock) : Prop := lock_key l = lock_key l' ∧ config l = config l'.

Lemma see_other ls j v m : note_lock m ≠ j → (is_grant m = true → competes ls j (note_lock m) = false) → see ls j v m = v.
Proof. destruct m; cbn; intros Hne Hg; rewrite ?bool_decide_eq_false_2 by done; cbn; [by rewrite Hg|done..]. Qed.

(** What another lock does keeps a lock in step with its view. *)
Lemma tracks_other n ls t i j l l0 lj lj0 s s' ns v :
  (0 <= n < 2 ^ 63 - 1)%Z → store_within n s → i ≠ j →
  ls !! i = Some l0 → same_lock l0 l → ls !! j = Some lj0 → same_lock lj0 lj →
  effect t i l s s' ns → Forall (λ n, note_lock n = i) ns → tracks s lj v → tracks s' lj (foldl (see ls j) v ns).
Proof.
  intros Hn Hs Hij Hi [Hk Hc] Hj [Hkj Hcj] He Hns Htr. rewrite Forall_forall in Hns.
  destruct (effect_lease n t i l s s' ns (lock_key lj) Hn Hs He) as [[Hl Hcase]|(b & holder & ms & lease & Hkey & -> & Hconf & Hgr & Hl)].
  - rewrite foldl_see; [by eapply tracks_same_lease|]. intros m v' Hm. apply see_other; rewrite (Hns m Hm); [done|]. intros Hg.
    destruct Hcase as [Hne|Hng]; [|rewrite Forall_forall in Hng; by rewrite (Hng m Hm) in Hg].
    unfold competes. rewrite Hi, Hj, Hk, Hkj. by rewrite bool_decide_eq_false_2.
  - cbn. rewrite bool_decide_eq_false_2 by done. cbn. unfold competes. rewrite Hi, Hj, Hk, Hc, Hkj, Hcj, Hkey.
    rewrite bool_decide_eq_true_2 by done. rewrite Hconf. eapply tracks_grant in Htr; [|done..].
    by destruct (bool_decide (config lj = MultiProcess holder)).
Qed.

Lemma competes_self ls i : competes ls i i = false.
Proof. unfold competes. destruct (ls !! i); [|done]. by rewrite !bool_decide_eq_true_2. Qed.

(** A lease that the lock's own task gets changes nothing. *)
Lemma tracks_renewal n ls t ms i l s holder a s' v :
  (0 <= n < 2 ^ 63 - 1)%Z → store_within n s → config l = MultiProcess holder →
  try_lock t ms (lock_key l) holder s = (a, s') → tracks s l v → tracks s' l (foldl (see ls i) v (granted i a)).
Proof.
  intros Hn [Hok Hw] Hc Ht Htr. apply try_lock_spec in Ht as (_ & -> & Hl & _); [|done|eapply within_fits; [apply Hw|lia]].
  destruct (grant _ _ _ _) as [lease|] eqn:Hg; [|by eapply tracks_same_lease]. cbn. rewrite andb_false_r, competes_self.
  pose proof (tracks_grant _ _ _ _ _ _ _ _ Htr Hg Hl) as H. by rewrite bool_decide_eq_true_2 in H by done.
Qed.

Lemma tracks_attempt n ls failure t holder i l l' s s' ns v :
  (0 <= n < 2 ^ 63 - 1)%Z → store_within n s → config l = MultiProcess holder →
  attempt_step failure t holder i l s = Some (l', s', ns) → tracks s l v → tracks s' l' (foldl (see ls i) v ns).
Proof.
  intros Hn [Hok Hw] Hc H (Hd & Hp & Hg & Hv). unfold attempt_step, pending_of, last_generation in *.
  destruct (attempt l) as [[| | |g| | | |]|] eqn:Hat; [..|done].
  - simplify_eq/=. unfold tracks, last_generation, pending_of. by destruct (0 <? holders l).
  - by simplify_eq/=.
  - destruct failure as [e|]; [by simplify_eq/=|].
    destruct (try_lock _ _ _ _ s) as [a s1] eqn:Ht. apply try_lock_spec in Ht as (_ & -> & Hl & _); [|done|eapply within_fits; [apply Hw|lia]].
    destruct (grant _ _ _ _) as [lease|] eqn:Hgr; simplify_eq/=; [|by rewrite <- Hl in Hv].
    rewrite bool_decide_eq_true_2 by done. cbn. pose proof (grant_within n _ _ _ _ _ (proj1 Hn) (Hw _) Hgr) as Hle. cbn in Hle.
    split_and!; [done| |done|]; cbn.
    + destruct (obtained v); cbn; [|by rewrite Hv]. destruct Hv as (Hge & c & Hcur & Hst). rewrite Hcur in Hgr.
      apply grant_spec in Hgr as (_ & _ & Hgr). rewrite (proj2 (Z.eqb_neq _ _)) by (unfold NO_GENERATION; lia).
      destruct (stale v).
      * by rewrite (proj2 (Z.eqb_neq _ _)) by lia.
      * destruct Hst as [Heq Hgen]. rewrite Hc in Heq. simplify_eq. destruct Hgr as [[_ Hgr]|[? _]]; [|done]. by rewrite Hgr, Hgen, Z.eqb_refl.
    + apply grant_spec in Hgr as (<- & _). split; [lia|]. by exists lease.
  - assert (0 <= g)%Z as Hge by (destruct (obtained v); [|unfold NO_GENERATION in Hv]; lia).
    destruct (generation l =? NO_GENERATION)%Z; [|destruct (generation l =? g)%Z]; simplify_eq/=;
      rewrite ?bool_decide_eq_true_2 by done; (split_and!; cbn; [|done..]); by rewrite ?Hp, ?orb_false_r.
  - simplify_eq/=. rewrite bool_decide_eq_true_2 by done. split_and!; cbn; try done. by rewrite Hp, orb_true_r.
  - by simplify_eq/=.
  - by simplify_eq/=.
  - by simplify_eq/=.
Qed.

(** The actions of a lock keep it in step with its own view. *)
Lemma tracks_own n ls t i l l' s s' e ns v :
  (0 <= n < 2 ^ 63 - 1)%Z → store_within n s → acts t i l s e l' s' ns → tracks s l v → tracks s' l' (foldl (see ls i) v ns).
Proof.
  intros Hn Hs [l1 ns1 Hb|failure holder l1 s1 ns1 Hc Hb|failure holder l1 s1 ns1 Hc Hb|holder l1 s1 ns1 Hc Hb|l1 Hb|l1 Hb|] Htr.
  - unfold begin_attempt, mutex_free in Hb. destruct (config l); [|by simplify_eq/=].
    case_bool_decide as Hat; [|done]. case_bool_decide; [|done]. simplify_eq/=.
    unfold tracks, pending_of, last_generation in *. cbn. by rewrite Hat in Htr.
  - by eapply tracks_attempt.
  - unfold task_step in Hb. destruct (renew_task l) as [[]|]; [..|done].
    + by case_match; simplify_eq/=.
    + destruct failure; [by simplify_eq/=|]. destruct (try_lock _ _ _ _ s) as [a s2] eqn:Ht. simplify_eq.
      by apply (tracks_renewal n ls t 0 i l s holder a s1).
    + case_match; [done|]. destruct failure; [by simplify_eq/=|]. destruct (try_lock _ _ _ _ s) as [a s2] eqn:Ht.
      pose proof (tracks_renewal n ls t _ i l s holder a s2 v Hn Hs Hc Ht Htr) as H1. by destruct a; simplify_eq.
  - unfold aborted_step in Hb. destruct (aborted l); [done|]. destruct (try_lock _ _ _ _ s) as [a s2] eqn:Ht. simplify_eq.
    by eapply (tracks_renewal n ls t _ i l s holder a s1).
  - unfold clone_guard in Hb. by case_match; simplify_eq/=.
  - unfold drop_guard in Hb. by case_match; simplify_eq/=.
  - cbn. rewrite bool_decide_eq_true_2 by done. by destruct Htr as (_ & ? & ? & ?).
Qed.

(** All locks are in step with their views. *)
Definition in_step (ls : list CrossProcessLock) (ns : list Note) (w : World Store) : Prop :=
  Forall2 same_lock ls (locks w) ∧ ∀ i l, locks w !! i = Some l → tracks (store w) l (view ls i ns).

Lemma view_app ls i ns ns' : view ls i (ns ++ ns') = foldl (see ls i) (view ls i ns) ns'.
Proof. apply foldl_app. Qed.

Lemma step_in_step n ls ns e w w' ns' :
  (0 <= n < 2 ^ 63 - 1)%Z → store_within n (store w) → in_step ls ns w → step e w = Some (w', ns') →
  in_step ls (ns ++ ns') w' ∧ store_within (n + 1) (store w').
Proof.
  intros Hn Hs [Hls Htr] [(ms & -> & -> & ->)|(i & l & l' & s' & Hi & Hacts & ->)]%step_acts; cbn.
  - rewrite app_nil_r. split; [done|]. by eapply (effect_within n 0 0 (new_lock "" SingleProcess)), effect_none.
  - pose proof Hacts as (Hk & Hc & Hns & He)%acts_effect. split; [|by eapply effect_within].
    destruct (Forall2_lookup_r _ _ _ _ _ Hls Hi) as (l0 & Hi0 & Hl0). split.
    + cbn. rewrite <- (list_insert_id ls i l0 Hi0). apply Forall2_insert; [done|]. destruct Hl0. split; congruence.
    + intros j lj Hj. cbn in Hj |- *. rewrite view_app. destruct (decide (i = j)) as [<-|Hne].
      * rewrite list_lookup_insert_eq in Hj by by eapply lookup_lt_Some. simplify_eq. eapply tracks_own; [done..|]. by apply Htr.
      * rewrite list_lookup_insert_ne in Hj by done. destruct (Forall2_lookup_r _ _ _ _ _ Hls Hj) as (lj0 & Hj0 & Hlj).
        eapply (tracks_other n ls (now w) i j l); eauto.
Qed.

Ltac note_cases Hin :=
  rewrite ?list_elem_of_singleton, ?elem_of_nil in Hin; try done; simplify_eq.

(** An attempt that has asked the store reports the dirty flag. *)
Lemma step_answer e w w' ns i st :
  step e w = Some (w', ns) → Answered i true (Ok (Ok st)) ∈ ns →
  ns = [Answered i true (Ok (Ok st))] ∧ ∃ l, locks w !! i = Some l ∧ st = if is_dirty l then Dirty else Clean.
Proof.
  intros [(ms & -> & -> & ->)|(j & l & l' & s' & Hj & Hacts & ->)]%step_acts Hin; [by apply elem_of_nil in Hin|].
  destruct Hacts as [l1 ns1 Hb|failure holder l1 s1 ns1 Hc Hb|failure holder l1 s1 ns1 Hc Hb|holder l1 s1 ns1 Hc Hb|l1 Hb|l1 Hb|].
  - unfold begin_attempt in Hb. repeat case_match; simplify_eq/=; note_cases Hin.
  - unfold attempt_step in Hb. destruct (attempt l) as [[]|]; [..|done]; repeat case_match; simplify_eq/=; note_cases Hin;
      (split; [done|]; exists l; split; [done|]; by repeat case_match).
  - unfold task_step, granted in Hb. destruct (renew_task l) as [[]|]; [..|done]; repeat case_match; simplify_eq/=; note_cases Hin.
  - unfold aborted_step, granted in Hb. repeat case_match; simplify_eq/=; note_cases Hin.
  - note_cases Hin.
  - note_cases Hin.
  - note_cases Hin.
Qed.

(** A run and the answers of its attempts, for a prefix of notes. *)
Lemma run_in_step events n ls ns w w' ns' :
  (0 <= n)%Z → (n + Z.of_nat (length events) < 2 ^ 63 - 1)%Z → store_within n (store w) → in_step ls ns w → run events w = Some (w', ns') →
  in_step ls (ns ++ ns') w' ∧
  ∀ pre post i st, ns' = pre ++ Answered i true (Ok (Ok st)) :: post → st = if dirty (view ls i (ns ++ pre)) then Dirty else Clean.
Proof.
  revert n ns w ns'. induction events as [|e events IH]; intros n ns w ns' Hn Hlen Hs Hin Hrun; cbn in Hlen, Hrun.
  - simplify_eq. rewrite app_nil_r. split; [done|]. intros [|? ?] ? ? ? ?; by simplify_eq.
  - destruct (step e w) as [[w1 ns1]|] eqn:Hstep; [|done]. cbn in Hrun.
    destruct (run events w1) as [[w2 ns2]|] eqn:Hrest; [|done]. simplify_eq/=.
    pose proof (step_in_step n ls ns e w w1 ns1 ltac:(lia) Hs Hin Hstep) as [Hin1 Hs1].
    destruct (IH (n + 1)%Z _ _ _ ltac:(lia) ltac:(lia) Hs1 Hin1 Hrest) as [Hin2 Hans]. rewrite <- app_assoc in Hin2. split; [done|].
    intros pre post i st Heq. apply app_eq_inv in Heq as [(k & -> & Heq)|(k & -> & Heq)].
    + destruct k as [|a k]; [|].
      * specialize (Hans [] post i st (eq_sym Heq)). by rewrite !app_nil_r in Hans.
      * cbn in Heq. simplify_eq. destruct (step_answer _ _ _ _ i st Hstep) as [Hsing (l & Hl & ->)]; [set_solver|].
        destruct pre as [|? pre]; [|by destruct pre]. rewrite app_nil_r. by rewrite (proj1 (proj2 Hin _ _ Hl)).
    + rewrite app_assoc. by apply (Hans k post).
Qed.

(** New locks on a store. *)
Definition start (t : Z) (s : Store) (specs : list (string * CrossProcessLockConfig)) : World Store :=
  {| now := t; store := s; locks := (λ '(key, cfg), new_lock key cfg) <$> specs |}.

Lemma start_in_step t s specs : in_step (locks (start t s specs)) [] (start t s specs).
Proof.
  split; [apply Forall2_same_length_lookup; split; [done|]; intros i l l' ? ?; by simplify_eq|].
  intros i l (x & -> & Hx)%list_lookup_fmap_Some. destruct x. done.
Qed.

(** C30. The dirty flag says exactly what it is documented to say, although it is
    computed from the generation of the lease alone. In every run of any number of
    locks, attempts, renewal tasks, guards and clearings over any store, in any
    interleaving, with failures of the store and with late tasks: the flag of a lock is
    set when and only when, at some acquisition since the flag was last cleared, the
    lease had been granted to another holder after the acquisition before; and an
    attempt that has asked the store answers [Dirty] exactly if the flag is set. *)
Theorem dirty_iff_taken_over n t s specs events w ns :
  store_within n s → (0 <= n)%Z → (n + Z.of_nat (length events) < 2 ^ 63 - 1)%Z →
  run events (start t s specs) = Some (w, ns) →
  let ls := locks (start t s specs) in
  (∀ i l, locks w !! i = Some l → is_dirty l = dirty (view ls i ns)) ∧
  (∀ pre post i state, ns = pre ++ Answered i true (Ok (Ok state)) :: post →
     state = if dirty (view ls i pre) then Dirty else Clean).
Proof.
  intros Hs Hn Hlen Hrun ls. destruct (run_in_step events n ls [] (start t s specs) _ _ Hn Hlen Hs (start_in_step t s specs) Hrun) as [[_ Htr] Hans].
  split; [|done]. intros i l Hl. by destruct (Htr i l Hl).
Qed.

(** ** Mutual exclusion *)

(** The renewal task runs and has not seen that there are no guards. *)
Definition renewing (l : CrossProcessLock) : bool :=
  match renew_task l with Some Checking | Some (Sleeping _) => true | _ => false end.

(** The lock relies on its lease: it is being renewed, or an attempt has got the lease
    and has not answered yet. *)
Definition leasing (l : CrossProcessLock) : bool :=
  renewing l ||
  match attempt l with Some (Swapping _) | Some Dirtying | Some Spawning | Some Guarding | Some Reporting => true | _ => false end.

(** When the store last granted a lease to each lock. *)
Definition stamp (t : Z) (ns : list Note) (last : nat → Z) : nat → Z :=
  foldl (λ last n, match n with Granted i _ => λ j, if decide (i = j) then t else last j | _ => last end) last ns.

(** What the scheduler and the store have to do: while a lock relies on its lease, no
    more than [LEASE_DURATION_MS] pass between two grants to it, that is, renewal tasks
    run in time; and the store answers them without an error. *)
Definition in_time (last : nat → Z) (e : Event) (w : World Store) : Prop :=
  match e with
  | Tick ms =>
      Forall (λ '(i, l), leasing l = true → (now w + Z.of_nat ms <= last i + LEASE_DURATION_MS)%Z) (imap pair (locks w))
  | TaskStep i (Some _) => locks w !! i ≫= renew_task = Some Cancelling
  | _ => True
  end.

#[export] Instance in_time_dec last e w : Decision (in_time last e w).
Proof. destruct e as [| | |? []| | | |]; cbn; apply _. Defined.

Fixpoint timely (last : nat → Z) (events : list Event) (w : World Store) : Prop :=
  match events with
  | [] => True
  | e :: events =>
      in_time last e w ∧
      match step e w with Some (w', ns) => timely (stamp (now w) ns last) events w' | None => True end
  end.

#[export] Instance timely_dec last events w : Decision (timely last events w).
Proof.
  revert last w. induction events as [|e events IH]; intros last w; cbn; [apply _|]. apply and_dec; [apply _|].
  destruct (step e w) as [[w' ns]|]; apply _.
Defined.

(** A lock has its lease until [last + LEASE_DURATION_MS]. *)
Definition leased (t : Z) (s : Store) (last : Z) (holder : string) (l : CrossProcessLock) : Prop :=
  ∃ lease, lease_of s (lock_key l) = Some lease ∧ lease_holder lease = holder ∧
    expiration lease = (last + LEASE_DURATION_MS)%Z ∧ (t <= expiration lease)%Z.

(** What has to be there for the guards that there are or that an attempt is about to
    make: the renewal task. *)
Definition attended (l : CrossProcessLock) : Prop :=
  match attempt l with
  | Some Joining | Some Guarding => renewing l = true
  | _ => 0 < holders l → renewing l = true
  end.

(** A lock that relies on its lease has it, and its guards are attended. *)
Definition guarded (t : Z) (s : Store) (last : Z) (l : CrossProcessLock) : Prop :=
  (∃ holder, config l = MultiProcess holder ∧ (leasing l = true → leased t s last holder l)) ∧
  attended l ∧ (renew_task l = Some Cancelling → attempt l = None ∧ holders l = 0).

Lemma stamp_other t ns last i j : Forall (λ n, note_lock n = i) ns → i ≠ j → stamp t ns last j = last j.
Proof.
  unfold stamp. revert last. induction ns as [|m ns IH]; intros last; [done|]. intros [Hm Hns]%Forall_cons Hne. cbn.
  rewrite IH by done. destruct m; [|done..]. cbn in Hm. subst. by destruct (decide _).
Qed.

(** The lease of a lock is safe from the other holders. *)
Lemma leased_other n t i l s s' ns last holder lj :
  (0 <= n < 2 ^ 63 - 1)%Z → store_within n s → effect t i l s s' ns →
  config lj = MultiProcess holder → (lock_key l, config l) ≠ (lock_key lj, config lj) →
  leased t s last holder lj → leased t s' last holder lj.
Proof.
  intros Hn Hs He Hc Hne (lease & Hl & Hh & Hexp & Ht). exists lease. split_and!; [|done..].
  destruct (effect_lease n t i l s s' ns (lock_key lj) Hn Hs He) as [[-> _]|(b & h & ms & lease' & Hkey & _ & Hc' & Hgr & _)]; [done|].
  rewrite Hl, grant_refused in Hgr; [done| |done]. intros Heq. apply Hne. rewrite Hkey, Hc, Hc'. congruence.
Qed.

(** A request of the lock itself: refused only when it did not have the lease. *)
Lemma own_request n t s s' last i l holder ms a b :
  (0 <= n < 2 ^ 63 - 1)%Z → store_within n s → config l = MultiProcess holder →
  try_lock t ms (lock_key l) holder s = (a, s') →
  match a with
  | Some _ =>
      stamp t [Granted i b] last i = t ∧
      ∃ lease, lease_of s' (lock_key l) = Some lease ∧ lease_holder lease = holder ∧ expiration lease = (t + ms)%Z
  | None => ¬ leased t s (last i) holder l
  end.
Proof.
  intros Hn [Hok Hw] Hc Ht. apply try_lock_spec in Ht as (_ & -> & Hl & _); [|done|eapply within_fits; [apply Hw|lia]].
  destruct (grant _ _ _ _) as [lease|] eqn:Hg; cbn.
  - split; [by rewrite decide_True|]. apply grant_spec in Hg as (? & ? & _). eauto.
  - intros (c & Hc' & <- & _). rewrite Hc' in Hg. destruct (grant_own t ms c) as [? Heq]. congruence.
Qed.

(** A change of a lock that leaves the store alone. *)
Lemma guarded_same t s last l l' :
  guarded t s last l → same_lock l l' → (leasing l' = true → leasing l = true) → attended l' →
  (renew_task l' = Some Cancelling → attempt l' = None ∧ holders l' = 0) → guarded t s last l'.
Proof.
  intros ((h & Hc & Hl) & _ & _) [Hk Hc'] Hle Ha Hcan. split; [|done]. exists h. rewrite <- Hc'. split; [done|].
  intros Hle'. unfold leased in *. rewrite <- Hk. by apply Hl, Hle.
Qed.

Lemma guarded_attempt n failure t holder i l l' s s' ns last :
  (0 <= n < 2 ^ 63 - 1)%Z → store_within n s → config l = MultiProcess holder →
  attempt_step failure t holder i l s = Some (l', s', ns) → guarded t s (last i) l → guarded t s' (stamp t ns last i) l'.
Proof.
  intros Hn Hs Hc H Hg. pose proof Hg as ((h & Hc' & Hl) & Ha & Hcan). rewrite Hc in Hc'. simplify_eq.
  unfold attempt_step, attended in *. destruct (attempt l) as [[| | |g| | | |]|] eqn:Hat; [..|done].
  - simplify_eq/=. apply (guarded_same t s' _ l); [done|done|..]; unfold leasing, attended; cbn; rewrite ?Hat; [| |by intros [? _]%Hcan].
    + by destruct (holders l).
    + destruct (holders l); [by intros ?%Nat.lt_irrefl|apply Ha; lia].
  - simplify_eq/=. apply (guarded_same t s' _ l); [done|done|..]; unfold leasing, attended; cbn; rewrite ?Hat; [done|done|by intros [? _]%Hcan].
  - assert (∀ P : Prop, renew_task l = Some Cancelling → P) as Hno by (by intros P [? _]%Hcan).
    destruct failure as [e|].
    { simplify_eq/=. apply (guarded_same t s' _ l); [done|done|..]; unfold leasing, attended; cbn; rewrite ?Hat; [done|done|apply Hno]. }
    destruct (try_lock _ _ _ _ s) as [a s1] eqn:Ht. pose proof (own_request n t s s1 last i l h _ a true Hn Hs Hc Ht) as Hreq.
    destruct a as [g|]; simplify_eq.
    + destruct Hreq as (-> & lease & Hlease & Hh & Hexp). split; [|split; [done|apply Hno]]. exists h. split; [done|]. intros _.
      exists lease. split_and!; [done..|]. unfold LEASE_DURATION_MS in *. lia.
    + split; [|split; [done|apply Hno]]. exists h. split; [done|]. unfold leasing in *. rewrite Hat in Hl. cbn. intros Hr. by apply Hl in Hr.
  - assert (∀ P : Prop, renew_task l = Some Cancelling → P) as Hno by (by intros P [? _]%Hcan).
    destruct (_ =? _)%Z; [|destruct (_ =? _)%Z]; simplify_eq/=; (apply (guarded_same t s' _ l); [done|done|..]);
      unfold leasing, attended; cbn; rewrite ?Hat, ?orb_true_r; try done; apply Hno.
  - simplify_eq/=. apply (guarded_same t s' _ l); [done|done|..]; unfold leasing, attended; cbn; rewrite ?Hat, ?orb_true_r;
      [done|done|by intros [? _]%Hcan].
  - simplify_eq/=. apply (guarded_same t s' _ l); [done|done|..]; unfold leasing, attended; cbn; by rewrite ?Hat, ?orb_true_r.
  - simplify_eq/=. apply (guarded_same t s' _ l); [done|done|..]; unfold leasing, attended; cbn; rewrite ?Hat, ?orb_true_r;
      [done|done|by intros [? _]%Hcan].
  - simplify_eq/=. apply (guarded_same t s' _ l); [done|done|..]; unfold leasing, attended; cbn; rewrite ?Hat, ?orb_true_r;
      [done|done|by intros [? _]%Hcan].
Qed.

Lemma guarded_task n failure t holder i l l' s s' ns last :
  (0 <= n < 2 ^ 63 - 1)%Z → store_within n s → config l = MultiProcess holder → (is_Some failure → renew_task l = Some Cancelling) →
  task_step failure t holder i l s = Some (l', s', ns) → guarded t s (last i) l → guarded t s' (stamp t ns last i) l'.
Proof.
  intros Hn Hs Hc Hf H Hg. pose proof Hg as ((h & Hc' & Hl) & Ha & Hcan). rewrite Hc in Hc'. simplify_eq.
  unfold task_step in H. destruct (renew_task l) as [[| |wake]|] eqn:Htask; [..|done].
  - case_bool_decide as Hat; [|done]. simplify_eq. unfold attended in Ha. rewrite Hat in Ha.
    apply (guarded_same t s' _ l); [done|done|..]; unfold leasing, attended, renewing; cbn; rewrite ?Htask, ?Hat; [done| |].
    + by destruct (holders l); [intros ?%Nat.lt_irrefl|].
    + by destruct (holders l).
  - destruct (Hcan eq_refl) as [Hat Hh].
    assert (∀ last, guarded t s' last (set_tasks None (aborted l) l)) as Hnone.
    { intros last'. split; [exists h; split; [done|]|split; [|done]]; unfold leasing, attended; cbn; rewrite Hat; [done|lia]. }
    destruct failure; [by simplify_eq/=|]. destruct (try_lock _ _ _ _ s) as [a s1]. by simplify_eq/=.
  - destruct (t <? wake)%Z; [done|]. destruct failure as [e|]; [by specialize (Hf (mk_is_Some _ _ eq_refl))|].
    destruct (try_lock _ _ _ _ s) as [a s1] eqn:Ht. pose proof (own_request n t s s1 last i l h _ a false Hn Hs Hc Ht) as Hreq.
    assert (leasing l = true) as Hle by (unfold leasing, renewing; by rewrite Htask). unfold attended, renewing in Ha. rewrite Htask in Ha.
    destruct a as [g|]; simplify_eq; [|by apply Hl in Hle]. cbn [granted].
    destruct Hreq as (-> & lease & Hlease & Hh & Hexp). split; [|split; [by unfold attended, renewing; cbn; destruct (attempt l) as [[]|]|done]].
    exists h. split; [done|]. intros _. exists lease. split_and!; [done..|]. unfold LEASE_DURATION_MS in *. lia.
Qed.

Lemma guarded_own n e t i l l' s s' ns last w :
  (0 <= n < 2 ^ 63 - 1)%Z → store_within n s → locks w !! i = Some l → in_time last e w →
  acts t i l s e l' s' ns → guarded t s (last i) l → guarded t s' (stamp t ns last i) l'.
Proof.
  intros Hn Hs Hi Htime Hacts Hg. pose proof Hg as ((h & Hc' & Hl) & Ha & Hcan). unfold attended in Ha.
  destruct Hacts as [l1 ns1 Hb|failure holder l1 s1 ns1 Hc Hb|failure holder l1 s1 ns1 Hc Hb|holder l1 s1 ns1 Hc Hb|l1 Hb|l1 Hb|].
  - unfold begin_attempt, mutex_free in Hb. rewrite Hc' in Hb. case_bool_decide as Hat; [|done]. case_bool_decide; [|done].
    simplify_eq/=. rewrite Hat in Ha. apply (guarded_same t s _ l); [done|done|..]; unfold leasing, attended; cbn; by rewrite ?Hat.
  - by apply (guarded_attempt n failure t holder i l _ s _ _ last).
  - apply (guarded_task n failure t holder i l _ s _ _ last); [done..| |done|done]. intros [e ->]. cbn in Htime. by rewrite Hi in Htime.
  - unfold aborted_step in Hb. destruct (aborted l); [done|]. destruct (try_lock _ _ _ _ s) as [a s2] eqn:Ht.
    pose proof (own_request n t s s2 last i l _ _ a false Hn Hs Hc Ht) as Hreq. rewrite Hc in Hc'. simplify_eq.
    split; [exists h; split; [done|]|exact (conj Ha Hcan)]. change (leasing (set_tasks (renew_task l) n0 l)) with (leasing l).
    destruct a as [g|]; [|intros Hle; by apply Hl in Hle]. intros _. destruct Hreq as (Hst & lease & Hlease & Hh & Hexp). cbn [granted].
    rewrite Hst. exists lease. split_and!; [done..|]. unfold LEASE_DURATION_MS in *. lia.
  - unfold clone_guard in Hb. destruct (holders l) as [|m] eqn:Hh; [done|]. simplify_eq.
    apply (guarded_same t s _ l); [done|done|done|..]; unfold attended; cbn.
    + destruct (attempt l) as [[]|]; try done; intros _; apply Ha; lia.
    + intros [_ ?]%Hcan. lia.
  - unfold drop_guard in Hb. destruct (holders l) as [|m] eqn:Hh; [done|]. simplify_eq.
    apply (guarded_same t s _ l); [done|done|done|..]; unfold attended; cbn.
    + destruct (attempt l) as [[]|]; try done; intros _; apply Ha; lia.
    + intros [_ ?]%Hcan. lia.
  - done.
Qed.

(** Every lock has its lease and its guards are attended. *)
Definition safe (last : nat → Z) (w : World Store) : Prop :=
  ∀ i l, locks w !! i = Some l → guarded (now w) (store w) (last i) l.

(** No two locks have the same key and the same holder. *)
Definition distinct (w : World Store) : Prop := NoDup ((λ l, (lock_key l, config l)) <$> locks w).

Lemma step_safe n last e w w' ns :
  (0 <= n < 2 ^ 63 - 1)%Z → store_within n (store w) → distinct w → safe last w → in_time last e w → step e w = Some (w', ns) →
  safe (stamp (now w) ns last) w' ∧ distinct w' ∧ store_within (n + 1) (store w').
Proof.
  intros Hn Hs Hd Hsafe Htime [(ms & -> & -> & ->)|(i & l & l' & s' & Hi & Hacts & ->)]%step_acts.
  - split_and!; [|done|by eapply (effect_within n 0 0 (new_lock "" SingleProcess)), effect_none].
    intros j lj Hj. cbn in Hj |- *. destruct (Hsafe j lj Hj) as ((h & Hc & Hl) & Hrest). split; [|done]. exists h. split; [done|].
    intros Hle. destruct (Hl Hle) as (lease & Hlease & Hh & Hexp & _). exists lease. split_and!; [done..|]. rewrite Hexp.
    cbn in Htime. rewrite Forall_forall in Htime. apply (Htime (j, lj)); [|done]. apply list_elem_of_lookup. exists j. by rewrite list_lookup_imap, Hj.
  - pose proof Hacts as (Hk & Hc & Hns & He)%acts_effect. split_and!; [| |by eapply effect_within].
    + intros j lj Hj. cbn in Hj |- *. destruct (decide (i = j)) as [<-|Hne].
      * rewrite list_lookup_insert_eq in Hj by by eapply lookup_lt_Some. simplify_eq. eapply guarded_own; [done..|]. by apply Hsafe.
      * rewrite list_lookup_insert_ne in Hj by done. rewrite (stamp_other _ _ _ i) by done.
        destruct (Hsafe j lj Hj) as ((h & Hcj & Hl) & Hrest). split; [|done]. exists h. split; [done|]. intros Hle.
        eapply (leased_other n (now w) i l); [done..| |by apply Hl]. intros Heq. apply Hne.
        eapply NoDup_lookup; [exact Hd|rewrite list_lookup_fmap, Hi; done|]. by rewrite list_lookup_fmap, Hj, Heq.
    + unfold distinct. cbn. rewrite list_fmap_insert, list_insert_id; [done|]. rewrite list_lookup_fmap, Hi. cbn. by rewrite Hk, Hc.
Qed.

Lemma run_safe events n last w w' ns :
  (0 <= n)%Z → (n + Z.of_nat (length events) < 2 ^ 63 - 1)%Z → store_within n (store w) → distinct w → safe last w →
  timely last events w → run events w = Some (w', ns) → ∃ last', safe last' w' ∧ distinct w'.
Proof.
  revert n last w ns. induction events as [|e events IH]; intros n last w ns Hn Hlen Hs Hd Hsafe Ht Hrun; cbn in Hlen, Ht, Hrun.
  - simplify_eq. eauto.
  - destruct Ht as [Htime Ht]. destruct (step e w) as [[w1 ns1]|] eqn:Hstep; [|done]. cbn in Hrun.
    destruct (run events w1) as [[w2 ns2]|] eqn:Hrest; [|done]. simplify_eq/=.
    destruct (step_safe n last e w w1 ns1) as (Hsafe1 & Hd1 & Hs1); [lia|done..|]. eapply (IH (n + 1)%Z); [lia|lia|done..].
Qed.

Lemma guarded_lease t s last l :
  guarded t s last l → 0 < holders l →
  ∃ holder lease, config l = MultiProcess holder ∧ lease_of s (lock_key l) = Some lease ∧
    lease_holder lease = holder ∧ (t <= expiration lease)%Z.
Proof.
  intros ((h & Hc & Hl) & Ha & _) Hh. assert (renewing l = true) as Hr by (unfold attended in Ha; destruct (attempt l) as [[]|]; auto).
  destruct Hl as (lease & ? & ? & _ & ?); [unfold leasing; by rewrite Hr|]. by exists h, lease.
Qed.

Lemma start_safe t s (specs : list (string * string)) : safe (λ _, t) (start t s (prod_map id MultiProcess <$> specs)).
Proof.
  intros i l Hl. cbn in Hl. rewrite <- list_fmap_compose in Hl. apply list_lookup_fmap_Some in Hl as ([k h] & -> & _).
  split; [by exists h|]. split; [|done]. intros Hh. by apply Nat.lt_irrefl in Hh.
Qed.

Lemma start_distinct t s (specs : list (string * string)) :
  NoDup specs → distinct (start t s (prod_map id MultiProcess <$> specs)).
Proof.
  intros Hnd. unfold distinct. cbn. rewrite <- !list_fmap_compose. apply NoDup_fmap_2; [|done].
  intros [k h] [k' h'] Heq. by simplify_eq/=.
Qed.

(** C6. Mutual exclusion. In every run of locks with different holder names over a
    store, in any interleaving of attempts, renewal tasks, cancelled tasks, guards and
    the clock, in which the renewal tasks run in time and are answered by the store: a
    lock that has guards has an unexpired lease in the store, and no two locks on the
    same key have guards at the same time. *)
Theorem lock_mutual_exclusion n t s specs events w ns :
  store_within n s → (0 <= n)%Z → (n + Z.of_nat (length events) < 2 ^ 63 - 1)%Z → NoDup specs →
  let w0 := start t s (prod_map id MultiProcess <$> specs) in
  timely (λ _, t) events w0 → run events w0 = Some (w, ns) →
  (∀ i l, locks w !! i = Some l → 0 < holders l →
     ∃ holder lease, config l = MultiProcess holder ∧ lease_of (store w) (lock_key l) = Some lease ∧
       lease_holder lease = holder ∧ (now w <= expiration lease)%Z) ∧
  (∀ i j l l', locks w !! i = Some l → locks w !! j = Some l' → lock_key l = lock_key l' → 0 < holders l → 0 < holders l' → i = j).
Proof.
  intros Hs Hn Hlen Hnd w0 Htimely Hrun.
  destruct (run_safe events n (λ _, t) w0 w ns Hn Hlen Hs) as (last & Hsafe & Hd);
    [by apply start_distinct|apply start_safe|done|done|].
  split; [intros i l Hi Hh; by eapply guarded_lease; [apply Hsafe|]|]. intros i j l l' Hi Hj Hk Hh Hh'.
  destruct (guarded_lease _ _ _ _ (Hsafe i l Hi) Hh) as (h & lease & Hc & Hl & Heq & _).
  destruct (guarded_lease _ _ _ _ (Hsafe j l' Hj) Hh') as (h' & lease' & Hc' & Hl' & Heq' & _).
  eapply NoDup_lookup; [exact Hd|by rewrite list_lookup_fmap, Hi|]. rewrite list_lookup_fmap, Hj. cbn. congruence.
Qed.

End proofs.

(** ** Examples *)

(** An attempt of lock [i] in which the store is asked; it takes one step more when
    the lock has been taken over. *)
Definition acquire (i : nat) (taken_over : bool) : list Event :=
  TryLockOnce i :: replicate (if taken_over then 7 else 6) (AttemptStep i None).

(** The last guard is dropped, the task notices and gives the lease back. *)
Definition release (i : nat) : list Event := [DropGuard i; TaskStep i None; TaskStep i None].

Definition two_locks : World (gmap string Lease) := start 0 ∅ [("key", MultiProcess "first"); ("key", MultiProcess "second")].

Lemma empty_within : store_within 1 (∅ : gmap string Lease).
Proof. split; [done|]. intros k. cbn. by rewrite lookup_empty. Qed.

(** The second process takes the lock between two acquisitions of the first. *)
Example dirty_iff_taken_over_witness :
  let events := acquire 0 false ++ release 0 ++ [Tick 1] ++ acquire 1 false ++ release 1 ++ [Tick 1] ++ acquire 0 true in
  ∃ w ns, run events two_locks = Some (w, ns) ∧ last ns = Some (Answered 0 true (Ok (Ok Dirty))) ∧
    (∀ i l, locks w !! i = Some l → is_dirty l = dirty (view (locks two_locks) i ns)).
Proof.
  intros events. assert (run events two_locks ≫= last ∘ snd = Some (Answered 0 true (Ok (Ok Dirty)))) as Hlast by by_vm.
  destruct (run events two_locks) as [[w ns]|] eqn:Hrun; [|done]. exists w, ns. split_and!; [done|done|].
  by apply (dirty_iff_taken_over 1 0 (∅ : gmap string Lease) [("key", MultiProcess "first"); ("key", MultiProcess "second")] events w ns);
    [apply empty_within|..].
Defined.

(** Two processes in turn, the first with a renewal while it has its guard. *)
Example lock_mutual_exclusion_witness :
  let specs := [("key", "first"); ("key", "second")] in
  let w0 := start 0 (∅ : gmap string Lease) (prod_map id MultiProcess <$> specs) in
  let events := acquire 0 false ++ [TaskStep 0 None; Tick 60; TaskStep 0 None; TryLockOnce 1; AttemptStep 1 None; AttemptStep 1 None]
                ++ release 0 ++ [Tick 1] ++ acquire 1 false in
  ∃ w ns, run events w0 = Some (w, ns) ∧ (holders <$> locks w) = [0; 1] ∧
    ∀ i j l l', locks w !! i = Some l → locks w !! j = Some l' → lock_key l = lock_key l' → 0 < holders l → 0 < holders l' → i = j.
Proof.
  intros specs w0 events. assert ((λ '(w, _), holders <$> locks w) <$> run events w0 = Some [0; 1]) as Hholders by by_vm.
  destruct (run events w0) as [[w ns]|] eqn:Hrun; [|done]. exists w, ns. split; [done|]. split; [by injection Hholders|].
  apply (lock_mutual_exclusion 1 0 (∅ : gmap string Lease) specs events w ns); [apply empty_within|done|done|by_decide|by_decide|done].
Defined.

(** ** Where the flag is not reported *)

(** The first lock is dirty and has a guard; another attempt joins it. *)
Definition joining_dirty : list Event :=
  acquire 0 false ++ release 0 ++ [Tick 1] ++ acquire 1 false ++ release 1 ++ [Tick 1] ++ acquire 0 true ++
  [TryLockOnce 0; AttemptStep 0 None; AttemptStep 0 None].

(** The renewal task of the first lock is late, the second lock is taken and given
    back meanwhile, the task renews the lease, and an attempt joins. *)
Definition late_renewal : list Event :=
  acquire 0 false ++ [TaskStep 0 None; Tick 501] ++ acquire 1 false ++ release 1 ++
  [Tick 1; TaskStep 0 None; TryLockOnce 0; AttemptStep 0 None; AttemptStep 0 None].

(** An attempt that joins the guards of its own process answers [Clean] also when
    the lock is dirty and has not been cleared, and when the lease has gone to another
    holder and back under the guards: the renewal task does not look at the generation
    that it gets. *)
Theorem dirty_not_reported :
  (∃ w ns l, run joining_dirty two_locks = Some (w, ns) ∧ locks w !! 0 = Some l ∧ is_dirty l = true ∧
     last ns = Some (Answered 0 false (Ok (Ok Clean)))) ∧
  (∃ w ns l lease, run late_renewal two_locks = Some (w, ns) ∧ locks w !! 0 = Some l ∧ is_dirty l = false ∧ 0 < holders l ∧
     stale (view (locks two_locks) 0 ns) = true ∧ lease_of (store w) "key" = Some lease ∧
     lease_generation lease ≠ generation l ∧ last ns = Some (Answered 0 false (Ok (Ok Clean)))).
Proof.
  split.
  - assert ((λ '(w, ns), (is_dirty <$> locks w !! 0, last ns)) <$> run joining_dirty two_locks
            = Some (Some true, Some (Answered 0 false (Ok (Ok Clean))))) as H by by_vm.
    destruct (run _ _) as [[w ns]|]; [|done]. injection H as Hl Hlast. apply fmap_Some in Hl as (l & Hl & ?). by exists w, ns, l.
  - assert ((λ '(w, ns), (locks w !! 0 ≫= λ l, Some (is_dirty l, holders l, generation l),
                          lease_generation <$> lease_of (store w) "key", stale (view (locks two_locks) 0 ns), last ns))
            <$> run late_renewal two_locks = Some (Some (false, 2, 1%Z), Some 3%Z, true, Some (Answered 0 false (Ok (Ok Clean))))) as H by by_vm.
    destruct (run _ _) as [[w ns]|]; [|done]. injection H as Hl Hlease Hst Hlast.
    destruct (locks w !! 0) as [l|] eqn:Hl0; [|done]. simplify_eq/=. apply fmap_Some in Hlease as (lease & Hlease & Hg).
    exists w, ns, l, lease. split_and!; try done; lia.
Qed.
