(* ===== verification/MutexMap.v ===== *)
(** * Mutexes by key

    [crates/client-common/src/mutex_map.rs] and [single_flight.rs]: asynchronous mutexes
    that exist while somebody wants them, and the coalescing of concurrent work that is
    built on them.

    An [Arc] is an index into a heap of reference-counted mutexes. Callers run
    concurrently; a step of a caller is what it does up to the next point at which
    another one can see it. The map is locked by a mutex of the standard library, and
    what happens under that lock is one step. The asynchronous mutex is the one of the
    futures crate, a parameter.

    The second half shows what mutexes by key promise. *)

From S2P Require Import Prelude.
From stdpp Require Import ssreflect.

(** The asynchronous mutex: [try_lock_owned] is [None] while the mutex is locked, and a
    [lock_owned] that is polled then stays pending. *)
Class FuturesMutex : Type := {
  Mutex : Type → Type;
  mutex_new {A} : A → Mutex A;
  try_lock_owned {A} : Mutex A → option (Mutex A);
  unlock {A} : Mutex A → Mutex A;
  contents {A} : Mutex A → A;
  set_contents {A} : A → Mutex A → Mutex A;
  locked {A} : Mutex A → bool;
  locked_new {A} (a : A) : locked (mutex_new a) = false;
  contents_new {A} (a : A) : contents (mutex_new a) = a;
  try_lock_locked {A} (m : Mutex A) : locked m = true → try_lock_owned m = None;
  try_lock_free {A} (m : Mutex A) :
    locked m = false → ∃ m', try_lock_owned m = Some m' ∧ locked m' = true ∧ contents m' = contents m;
  locked_unlock {A} (m : Mutex A) : locked (unlock m) = false;
  contents_unlock {A} (m : Mutex A) : contents (unlock m) = contents m;
  locked_set {A} (a : A) (m : Mutex A) : locked (set_contents a m) = locked m;
  contents_set {A} (a : A) (m : Mutex A) : contents (set_contents a m) = a
}.

Section mutex_map.
Context {futures : FuturesMutex} {Key : Type} `{Countable Key} {Val : Type} (val_default : Val).

(** ** The map *)

Record ArcInner := { strong : nat; mutex : Mutex Val }.

Record MutexMap := { map : gmap Key nat; heap : gmap nat ArcInner; next_arc : nat }.

Definition new_map : MutexMap := {| map := ∅; heap := ∅; next_arc := 0 |}.

Definition set_heap h (m : MutexMap) : MutexMap := {| map := map m; heap := h; next_arc := next_arc m |}.

Definition set_strong (n : nat) (a : ArcInner) : ArcInner := {| strong := n; mutex := mutex a |}.
Definition set_mutex (x : Mutex Val) (a : ArcInner) : ArcInner := {| strong := strong a; mutex := x |}.

(** [Arc::clone], [Arc::strong_count] and the drop of an [Arc], which frees the mutex
    with the last one *)
Definition arc_clone (e : nat) (m : MutexMap) : MutexMap :=
  set_heap (alter (λ a, set_strong (S (strong a)) a) e (heap m)) m.

Definition strong_count (e : nat) (m : MutexMap) : nat := from_option strong 0 (heap m !! e).

Definition arc_drop (e : nat) (m : MutexMap) : MutexMap :=
  match heap m !! e with
  | Some a => set_heap (if strong a <=? 1 then delete e (heap m) else <[e := set_strong (pred (strong a)) a]> (heap m)) m
  | None => m
  end.

(** [entry]: the mutex of the key, created if there is none *)
Definition entry (k : Key) (m : MutexMap) : nat * MutexMap :=
  match map m !! k with
  | Some e => (e, arc_clone e m)
  | None =>
      let e := next_arc m in
      (e, {| map := <[k := e]> (map m); heap := <[e := {| strong := 2; mutex := mutex_new val_default |}]> (heap m); next_arc := S e |})
  end.

(** The poll of [lock_owned], and [try_lock_owned]; [None]: the mutex is locked. *)
Definition poll_lock (e : nat) (m : MutexMap) : option MutexMap :=
  a ← heap m !! e; x ← try_lock_owned (mutex a); Some (set_heap (<[e := set_mutex x a]> (heap m)) m).

(** The first half of the drop of an [OwnedMutexGuard]; the drop of its [Arc] follows. *)
Definition release (e : nat) (m : MutexMap) : MutexMap :=
  set_heap (alter (λ a, set_mutex (unlock (mutex a)) a) e (heap m)) m.

(** [map.retain(|_, val| Arc::strong_count(val) > 1)] *)
Definition retain_referenced (m : MutexMap) : MutexMap :=
  foldr arc_drop
    {| map := filter (λ '(_, e), 1 < strong_count e m) (map m); heap := heap m; next_arc := next_arc m |}
    (snd <$> map_to_list (filter (λ '(_, e), strong_count e m ≤ 1) (map m))).

(** The second half of [Drop::drop], under the lock of the map. *)
Definition drop_entry (e : nat) (m : MutexMap) : MutexMap :=
  let last := strong_count e m <=? 2 in
  let m := arc_drop e m in
  if last then retain_referenced m else m.

Definition contains (k : Key) (m : MutexMap) : bool := bool_decide (is_Some (map m !! k)).
Definition is_empty (m : MutexMap) : bool := bool_decide (map m = ∅).
Definition len (m : MutexMap) : nat := size (map m).

(** ** Callers *)

(** Where a caller is: its guard has its entry, then [lock] or [try_lock] has cloned it
    for the mutex, then the guard holds the mutex; in its drop the mutex is released, then
    the clone, then the entry. *)
Inductive Phase := Claimed (blocking : bool) | Waiting | Trying | Holding | Dropping | Releasing | Gone.

#[global] Instance Phase_eq_dec : EqDecision Phase.
Proof. solve_decision. Defined.

Record Caller := { key : Key; arc : nat; phase : Phase }.

Definition set_phase (p : Phase) (c : Caller) : Caller := {| key := key c; arc := arc c; phase := p |}.

Record System := { mutexes : MutexMap; callers : list Caller }.

Definition caller_step (i : nat) (p : Phase) (m : MutexMap) (s : System) : System :=
  {| mutexes := m; callers := alter (set_phase p) i (callers s) |}.

(** [lock] and [try_lock] of the map: the entry is made. *)
Definition enter (k : Key) (blocking : bool) (s : System) : System :=
  let '(e, m) := entry k (mutexes s) in
  {| mutexes := m; callers := callers s ++ [{| key := k; arc := e; phase := Claimed blocking |}] |}.

(** What the caller does next on its own; [None]: it has to wait. *)
Definition guard_advance (i : nat) (s : System) : option System :=
  c ← callers s !! i;
  match phase c with
  | Claimed blocking => Some (caller_step i (if blocking : bool then Waiting else Trying) (arc_clone (arc c) (mutexes s)) s)
  | Waiting => m ← poll_lock (arc c) (mutexes s); Some (caller_step i Holding m s)
  | Trying =>
      match poll_lock (arc c) (mutexes s) with
      | Some m => Some (caller_step i Holding m s)
      | None => Some (caller_step i Dropping (mutexes s) s)
      end
  | Holding => None
  | Dropping => Some (caller_step i Releasing (arc_drop (arc c) (mutexes s)) s)
  | Releasing => Some (caller_step i Gone (drop_entry (arc c) (mutexes s)) s)
  | Gone => None
  end.

(** The guard is dropped, or the future that waits for it. *)
Definition guard_drop (i : nat) (s : System) : option System :=
  c ← callers s !! i;
  match phase c with
  | Waiting => Some (caller_step i Dropping (mutexes s) s)
  | Holding => Some (caller_step i Dropping (release (arc c) (mutexes s)) s)
  | _ => None
  end.

(** [Deref] and [DerefMut] of a guard *)
Definition guard_deref (i : nat) (s : System) : option Val :=
  c ← callers s !! i; a ← heap (mutexes s) !! arc c; Some (contents (mutex a)).

Definition guard_deref_mut (i : nat) (v : Val) (s : System) : System :=
  match callers s !! i with
  | Some c =>
      {| mutexes := set_heap (alter (λ a, set_mutex (set_contents v (mutex a)) a) (arc c) (heap (mutexes s))) (mutexes s);
         callers := callers s |}
  | None => s
  end.

Inductive Event := Enter (k : Key) (blocking : bool) | Advance (i : nat) | DropGuard (i : nat) | Write (i : nat) (v : Val).

Definition step (ev : Event) (s : System) : option System :=
  match ev with
  | Enter k blocking => Some (enter k blocking s)
  | Advance i => guard_advance i s
  | DropGuard i => guard_drop i s
  | Write i v => if bool_decide ((phase <$> callers s !! i) = Some Holding) then Some (guard_deref_mut i v s) else None
  end.

Definition no_callers : System := {| mutexes := new_map; callers := [] |}.

Fixpoint run (events : list Event) (s : System) : option System :=
  match events with [] => Some s | ev :: events => s ← step ev s; run events s end.

End mutex_map.

(** ** What mutexes by key promise

    The references to a mutex are counted exactly: one of the map and those of the
    callers. From that it follows that callers of a key exclude each other, that a key has
    an entry exactly as long as somebody wants it, and that no mutex is leaked. *)

Section spec.
Context {futures : FuturesMutex} {Key : Type} `{Countable Key} {Val : Type} (val_default : Val).
Implicit Types (s : @System futures Key _ _ Val) (c : @Caller Key) (cs : list (@Caller Key)) (a : @ArcInner futures Val) (e : nat) (m : @MutexMap futures Key _ _ Val).

(** The references a caller has in each phase. *)
Definition weight (p : Phase) : nat :=
  match p with Claimed _ | Releasing => 1 | Waiting | Trying | Holding | Dropping => 2 | Gone => 0 end.

Definition refs_of e c : nat := if decide (arc c = e) then weight (phase c) else 0.
Definition refs e cs : nat := sum_list_with (refs_of e) cs.

Record inv s : Prop := {
  map_counts k e : map (mutexes s) !! k = Some e → ∃ a, heap (mutexes s) !! e = Some a ∧ strong a = S (refs e (callers s)) ∧ 0 < refs e (callers s);
  map_inj k k' e : map (mutexes s) !! k = Some e → map (mutexes s) !! k' = Some e → k = k';
  heap_in_map e a : heap (mutexes s) !! e = Some a → ∃ k, map (mutexes s) !! k = Some e;
  heap_fresh e a : heap (mutexes s) !! e = Some a → e < next_arc (mutexes s);
  callers_fresh c : c ∈ callers s → arc c < next_arc (mutexes s);
  callers_in_map c : c ∈ callers s → phase c ≠ Gone → map (mutexes s) !! key c = Some (arc c);
  locked_held e a : heap (mutexes s) !! e = Some a → locked (mutex a) = true → ∃ i c, callers s !! i = Some c ∧ arc c = e ∧ phase c = Holding;
  held_locked i c a : callers s !! i = Some c → phase c = Holding → heap (mutexes s) !! arc c = Some a → locked (mutex a) = true;
  held_once i j c c' : callers s !! i = Some c → callers s !! j = Some c' → phase c = Holding → phase c' = Holding → arc c = arc c' → i = j
}.

(** ** Counting *)

Lemma refs_app e cs c : refs e (cs ++ [c]) = refs e cs + refs_of e c.
Proof. rewrite /refs sum_list_with_app /=. lia. Qed.

Lemma refs_insert e cs i c c' : cs !! i = Some c → refs e (<[i := c']> cs) + refs_of e c = refs e cs + refs_of e c'.
Proof.
  intros Hi. rewrite /refs (insert_take_drop cs i); [|by eapply lookup_lt_Some]. rewrite -{3}(take_drop_middle cs i c Hi) !sum_list_with_app /=. lia.
Qed.

Lemma refs_at_least e cs i c : cs !! i = Some c → refs_of e c ≤ refs e cs.
Proof. intros Hi. pose proof (refs_insert e cs i c {| key := key c; arc := arc c; phase := Gone |} Hi) as Hr. rewrite {2}/refs_of /= in Hr. case_decide; lia. Qed.

Lemma refs_none e cs : (∀ c, c ∈ cs → arc c ≠ e) → refs e cs = 0.
Proof.
  intros Hne. rewrite /refs. induction cs as [|c cs IH]; simpl; [done|]. rewrite IH.
  - rewrite /refs_of decide_False //. apply Hne. by left.
  - intros c' Hc'. apply Hne. by right.
Qed.

Lemma refs_some e cs : 0 < refs e cs → ∃ c, c ∈ cs ∧ arc c = e ∧ phase c ≠ Gone.
Proof.
  rewrite /refs. induction cs as [|c cs IH]; simpl; [lia|]. intros Hpos. destruct (decide (refs_of e c = 0)) as [Hz|Hz].
  - destruct IH as (c' & ? & ?); [lia|]. exists c'. split; [by right|done].
  - exists c. split; [by left|]. rewrite /refs_of in Hz. case_decide; [|done]. split; [done|]. intros Hg. by rewrite Hg in Hz.
Qed.

Lemma alter_is_insert {A} (f : A → A) i (l : list A) x : l !! i = Some x → alter f i l = <[i := f x]> l.
Proof.
  intros Hi. apply list_eq. intros j. destruct (decide (i = j)) as [<-|Hne].
  - rewrite list_lookup_alter_eq list_lookup_insert_eq; [by rewrite Hi|by eapply lookup_lt_Some].
  - by rewrite list_lookup_alter_ne // list_lookup_insert_ne.
Qed.

(** ** A step within a key *)

(** The caller [i] goes on to the phase [p], and its mutex becomes [a']. *)
Definition moved i c p a' s : System :=
  caller_step i p (set_heap (<[arc c := a']> (heap (mutexes s))) (mutexes s)) s.

Definition held_after c p a a' : Prop :=
  match bool_decide (phase c = Holding), bool_decide (p = Holding) with
  | true, false => locked (mutex a') = false
  | false, true => locked (mutex a) = false ∧ locked (mutex a') = true
  | _, _ => locked (mutex a') = locked (mutex a)
  end.

Lemma moved_callers i c p a' s :
  callers s !! i = Some c → callers (moved i c p a' s) = <[i := set_phase p c]> (callers s).
Proof. intros Hi. by rewrite /moved /= (alter_is_insert _ _ _ c Hi). Qed.

Lemma moved_refs i c p a' s e :
  callers s !! i = Some c → refs e (callers (moved i c p a' s)) + refs_of e c = refs e (callers s) + refs_of e (set_phase p c).
Proof. intros Hi. rewrite (moved_callers _ c) //. by apply refs_insert. Qed.

Lemma moved_lookup i c p a' s j c' :
  callers s !! i = Some c → callers (moved i c p a' s) !! j = Some c' →
  (j = i ∧ c' = set_phase p c) ∨ (j ≠ i ∧ callers s !! j = Some c').
Proof.
  intros Hi. rewrite (moved_callers _ c) //. destruct (decide (j = i)) as [->|Hne].
  - rewrite list_lookup_insert_eq; [|by eapply lookup_lt_Some]. intros [= <-]. by left.
  - rewrite list_lookup_insert_ne //. by right.
Qed.

Lemma moved_elem i c p a' s c' :
  callers s !! i = Some c → c' ∈ callers (moved i c p a' s) → c' = set_phase p c ∨ c' ∈ callers s.
Proof.
  intros Hi [j Hj]%list_elem_of_lookup. apply moved_lookup in Hj as [[_ ->]|[_ Hj]]; [by left| |done].
  right. by eapply list_elem_of_lookup_2.
Qed.

Lemma moved_other i c p a' s j c' :
  callers s !! i = Some c → j ≠ i → callers s !! j = Some c' → callers (moved i c p a' s) !! j = Some c'.
Proof. intros Hi Hne Hj. rewrite (moved_callers _ c) // list_lookup_insert_ne //. Qed.

Lemma moved_same i c p a' s : callers s !! i = Some c → callers (moved i c p a' s) !! i = Some (set_phase p c).
Proof. intros Hi. rewrite (moved_callers _ c) // list_lookup_insert_eq //. by eapply lookup_lt_Some. Qed.

(** If another caller holds the mutex, the caller neither held it nor does it now. *)
Lemma moved_not_holding s i c p a a' j c' :
  inv s → callers s !! i = Some c → heap (mutexes s) !! arc c = Some a → held_after c p a a' →
  j ≠ i → callers s !! j = Some c' → phase c' = Holding → arc c' = arc c → phase c ≠ Holding ∧ p ≠ Holding.
Proof.
  intros Hinv Hi Ha Hheld Hne Hj Hc' Harc. rewrite /held_after in Hheld. destruct (decide (phase c = Holding)) as [Hc|Hc].
  { destruct Hne. by eapply (held_once _ Hinv). }
  split; [done|]. intros ->. rewrite bool_decide_false // bool_decide_true // in Hheld. destruct Hheld as [Hf _].
  rewrite -Harc in Ha. by rewrite (held_locked _ Hinv _ _ _ Hj Hc' Ha) in Hf.
Qed.

Lemma moved_locked_held s i c p a a' :
  inv s → callers s !! i = Some c → heap (mutexes s) !! arc c = Some a → held_after c p a a' →
  ∀ e b, <[arc c := a']> (heap (mutexes s)) !! e = Some b → locked (mutex b) = true →
  ∃ j c', callers (moved i c p a' s) !! j = Some c' ∧ arc c' = e ∧ phase c' = Holding.
Proof.
  intros Hinv Hi Ha Hheld e b Hb Hl. destruct (decide (arc c = e)) as [<-|Hne].
  - rewrite lookup_insert_eq in Hb. injection Hb as <-. rewrite /held_after in Hheld.
    destruct (decide (p = Holding)) as [->|Hp]; [exists i, (set_phase Holding c); by rewrite moved_same|].
    rewrite (bool_decide_false (p = _)) // in Hheld. case_bool_decide; [congruence|]. rewrite Hheld in Hl.
    destruct (locked_held _ Hinv _ _ Ha Hl) as (j & c' & Hj & Harc & Hc'). exists j, c'. split; [|done].
    apply moved_other; [done| |done]. intros ->. congruence.
  - rewrite lookup_insert_ne // in Hb. destruct (locked_held _ Hinv _ _ Hb Hl) as (j & c' & Hj & Harc & Hc'). exists j, c'.
    split; [|done]. apply moved_other; [done| |done]. intros ->. congruence.
Qed.

Lemma moved_held_locked s i c p a a' :
  inv s → callers s !! i = Some c → heap (mutexes s) !! arc c = Some a → held_after c p a a' →
  ∀ j c' b, callers (moved i c p a' s) !! j = Some c' → phase c' = Holding →
  <[arc c := a']> (heap (mutexes s)) !! arc c' = Some b → locked (mutex b) = true.
Proof.
  intros Hinv Hi Ha Hheld j c' b [[-> ->]|[Hne Hj]]%(moved_lookup _ c) Hc' Hb; [| |done].
  - rewrite lookup_insert_eq in Hb. injection Hb as <-. simpl in Hc'. subst p. rewrite /held_after in Hheld.
    rewrite (bool_decide_true (Holding = _)) // in Hheld. case_bool_decide; [|by destruct Hheld]. rewrite Hheld. by eapply held_locked.
  - destruct (decide (arc c' = arc c)) as [Harc|Harc].
    + destruct (moved_not_holding s i c p a a' j c') as [H1 H2]; [done..|]. rewrite Harc lookup_insert_eq in Hb. injection Hb as <-.
      rewrite /held_after !bool_decide_false // in Hheld. rewrite Hheld. eapply held_locked; [done..|congruence].
    + rewrite lookup_insert_ne // in Hb. by eapply held_locked.
Qed.

Lemma moved_inv_counted s i c p a a' :
  inv s → callers s !! i = Some c → phase c ≠ Gone → weight (phase c) < refs (arc c) (callers s) + weight p → heap (mutexes s) !! arc c = Some a →
  strong a' + weight (phase c) = strong a + weight p → held_after c p a a' → inv (moved i c p a' s).
Proof.
  intros Hinv Hi Hc Hp Ha Hstrong Hheld. pose proof (list_elem_of_lookup_2 _ _ _ Hi) as Hin.
  assert (∀ e, refs e (callers (moved i c p a' s)) + refs_of e c = refs e (callers s) + refs_of e (set_phase p c)) as Hrefs
    by (intros; by apply moved_refs).
  split; cbn [moved caller_step mutexes map heap next_arc set_heap].
  - intros k e Hk. destruct (map_counts _ Hinv k e Hk) as (b & Hb & Hs & Hpos). move: (Hrefs e). rewrite /refs_of /=.
    destruct (decide (arc c = e)) as [<-|Hne] => Hr.
    + exists a'. rewrite lookup_insert_eq. simplify_eq. split; [done|].
      lia.
    + exists b. rewrite lookup_insert_ne //. split; [done|]. lia.
  - apply (map_inj _ Hinv).
  - intros e b Hb. destruct (decide (arc c = e)) as [<-|Hne]; [by eapply heap_in_map|].
    rewrite lookup_insert_ne // in Hb. by eapply heap_in_map.
  - intros e b Hb. destruct (decide (arc c = e)) as [<-|Hne]; [by eapply heap_fresh|].
    rewrite lookup_insert_ne // in Hb. by eapply heap_fresh.
  - intros c' [->|Hc']%(moved_elem _ c); [by apply (callers_fresh _ Hinv c)|by apply (callers_fresh _ Hinv)|done].
  - intros c' [->|Hc']%(moved_elem _ c) Hg; [by apply (callers_in_map _ Hinv c)|by apply (callers_in_map _ Hinv)|done].
  - by eapply moved_locked_held.
  - by eapply moved_held_locked.
  - intros j1 j2 c1 c2 [[-> ->]|[Hn1 H1]]%(moved_lookup _ c) [[-> ->]|[Hn2 H2]]%(moved_lookup _ c) Hh1 Hh2 Harc; try done.
    + destruct (moved_not_holding s i c p a a' j2 c2); done.
    + destruct (moved_not_holding s i c p a a' j1 c1); done.
    + by eapply (held_once _ Hinv).
Qed.

Lemma moved_inv s i c p a a' :
  inv s → callers s !! i = Some c → phase c ≠ Gone → 0 < weight p → heap (mutexes s) !! arc c = Some a →
  strong a' + weight (phase c) = strong a + weight p → held_after c p a a' → inv (moved i c p a' s).
Proof.
  intros Hinv Hi Hc Hp. apply moved_inv_counted; [done..|].
  pose proof (refs_at_least (arc c) _ _ _ Hi) as Hle. rewrite /refs_of decide_True // in Hle. lia.
Qed.

(** ** The steps *)

Lemma caller_arc s i c :
  inv s → callers s !! i = Some c → phase c ≠ Gone →
  ∃ a, heap (mutexes s) !! arc c = Some a ∧ strong a = S (refs (arc c) (callers s)) ∧ weight (phase c) ≤ refs (arc c) (callers s).
Proof.
  intros Hinv Hi Hc. pose proof (callers_in_map _ Hinv c (list_elem_of_lookup_2 _ _ _ Hi) Hc) as Hk.
  destruct (map_counts _ Hinv _ _ Hk) as (a & Ha & Hs & _). exists a. split_and!; [done..|].
  pose proof (refs_at_least (arc c) _ _ _ Hi) as Hle. by rewrite /refs_of decide_True in Hle.
Qed.

Lemma set_heap_alter (f : ArcInner → ArcInner) e a m :
  heap m !! e = Some a → set_heap (alter f e (heap m)) m = set_heap (<[e := f a]> (heap m)) m.
Proof. intros Ha. f_equal. apply map_eq. intros j. destruct (decide (e = j)) as [<-|Hne].
  - by rewrite lookup_alter_eq lookup_insert_eq Ha.
  - by rewrite lookup_alter_ne // lookup_insert_ne.
Qed.

Lemma set_heap_same e a m : heap m !! e = Some a → set_heap (<[e := a]> (heap m)) m = m.
Proof. intros Ha. rewrite insert_id //. by destruct m. Qed.

Lemma poll_lock_Some e m m' : poll_lock e m = Some m' →
  ∃ a x, heap m !! e = Some a ∧ m' = set_heap (<[e := set_mutex x a]> (heap m)) m ∧ locked (mutex a) = false ∧ locked x = true ∧
    contents x = contents (mutex a).
Proof.
  rewrite /poll_lock. intros (a & Ha & (x & Hx & [= <-])%bind_Some)%bind_Some. exists a, x. split_and!; [done..| | |].
  all: destruct (locked (mutex a)) eqn:El; [by rewrite try_lock_locked in Hx|]; destruct (try_lock_free _ El) as (x' & Hx' & ? & ?); congruence.
Qed.

Lemma arc_drop_many e a m : heap m !! e = Some a → 1 < strong a → arc_drop e m = set_heap (<[e := set_strong (pred (strong a)) a]> (heap m)) m.
Proof. intros Ha Hs. rewrite /arc_drop Ha. by destruct (Nat.leb_spec (strong a) 1); [lia|]. Qed.

Lemma holds_same c p a a' : phase c ≠ Holding → p ≠ Holding → mutex a' = mutex a → held_after c p a a'.
Proof. intros ? ? Hm. by rewrite /held_after !bool_decide_false // Hm. Qed.

Lemma acquire_inv s i c m :
  inv s → callers s !! i = Some c → phase c = Waiting ∨ phase c = Trying → poll_lock (arc c) (mutexes s) = Some m →
  inv (caller_step i Holding m s).
Proof.
  intros Hinv Hi Hc (a & x & Ha & -> & Hf & Hx & _)%poll_lock_Some.
  assert (phase c ≠ Holding) by (intros E; rewrite E in Hc; naive_solver).
  apply (moved_inv s i c Holding a); [done|done|destruct Hc; congruence|simpl; lia|done| |].
  - destruct Hc as [-> | ->]; done.
  - by rewrite /held_after bool_decide_false // bool_decide_true.
Qed.

Lemma advance_live_inv s s' i c :
  inv s → callers s !! i = Some c → phase c ≠ Releasing → guard_advance i s = Some s' → inv s'.
Proof.
  intros Hinv Hi Hrel. rewrite /guard_advance Hi /=. destruct (decide (phase c = Gone)) as [Hg|Hg]; [by rewrite Hg|].
  destruct (caller_arc _ _ _ Hinv Hi Hg) as (a & Ha & Hs & Hw). destruct (phase c) as [b| | | | | |] eqn:Hc; try done.
  - intros [= <-]. rewrite /arc_clone (set_heap_alter _ _ a) //.
    apply (moved_inv s i c _ a); rewrite ?Hc; [done..|destruct b; simpl; lia|done|destruct b; simpl; lia|].
    apply holds_same; [congruence|by destruct b|done].
  - destruct (poll_lock _ _) as [m|] eqn:Hp; [|done]. intros [= <-]. eapply acquire_inv; eauto.
  - destruct (poll_lock _ _) as [m|] eqn:Hp; intros [= <-]; [eapply acquire_inv; eauto|].
    rewrite -{1}(set_heap_same _ _ _ Ha). apply (moved_inv s i c _ a); rewrite ?Hc; [done..|simpl; lia|done|done|].
    apply holds_same; [congruence|done..].
  - intros [= <-]. simpl in Hw. rewrite (arc_drop_many _ a) //; [|lia].
    apply (moved_inv s i c _ a); rewrite ?Hc; [done..|simpl; lia|done|simpl; lia|]. apply holds_same; [congruence|done..].
Qed.

Lemma drop_guard_inv s s' i : inv s → guard_drop i s = Some s' → inv s'.
Proof.
  intros Hinv. rewrite /guard_drop. destruct (callers s !! i) as [c|] eqn:Hi; [simpl|done].
  destruct (decide (phase c = Gone)) as [Hg|Hg]; [by rewrite Hg|].
  destruct (caller_arc _ _ _ Hinv Hi Hg) as (a & Ha & Hs & Hw). destruct (phase c) eqn:Hc; try done; intros [= <-].
  - rewrite -{1}(set_heap_same _ _ _ Ha). apply (moved_inv s i c _ a); rewrite ?Hc; [done..|simpl; lia|done|done|].
    apply holds_same; [congruence|done..].
  - rewrite /release (set_heap_alter _ _ a) //. apply (moved_inv s i c _ a); rewrite ?Hc; [done..|simpl; lia|done|done|].
    rewrite /held_after Hc /=. apply locked_unlock.
Qed.

(** *** The last one out *)

Lemma filter_but (P : Key * nat → Prop) `{!∀ x, Decision (P x)} (g : gmap Key nat) k :
  (∀ k' e, g !! k' = Some e → P (k', e) ↔ k' ≠ k) → filter P g = delete k g.
Proof.
  intros HP. apply map_eq. intros k'. apply option_eq. intros e. rewrite map_lookup_filter_Some lookup_delete_Some. naive_solver.
Qed.

Lemma filter_only (P : Key * nat → Prop) `{!∀ x, Decision (P x)} (g : gmap Key nat) k e :
  g !! k = Some e → (∀ k' e', g !! k' = Some e' → P (k', e') ↔ k' = k) → filter P g = {[k := e]}.
Proof.
  intros Hk HP. apply map_eq. intros k'. apply option_eq. intros e'. rewrite map_lookup_filter_Some lookup_singleton_Some. naive_solver.
Qed.

Definition without (k : Key) e m : MutexMap := {| map := delete k (map m); heap := delete e (heap m); next_arc := next_arc m |}.

Lemma drop_last s i c a :
  inv s → callers s !! i = Some c → phase c = Releasing → heap (mutexes s) !! arc c = Some a → strong a = 2 →
  drop_entry (arc c) (mutexes s) = without (key c) (arc c) (mutexes s).
Proof.
  intros Hinv Hi Hc Ha Hs. assert (map (mutexes s) !! key c = Some (arc c)) as Hk.
  { apply callers_in_map; [done|by eapply list_elem_of_lookup_2|congruence]. }
  rewrite /drop_entry {1}/strong_count Ha /= Hs /= (arc_drop_many _ a) //; [|lia]. rewrite Hs /=.
  set (m := set_heap _ _). assert (∀ k' e, map (mutexes s) !! k' = Some e → strong_count e m ≤ 1 ↔ k' = key c) as Hcount.
  { intros k' e Hk'. rewrite /strong_count /m /=. destruct (decide (e = arc c)) as [->|Hne].
    - rewrite lookup_insert_eq /=. split; [intros _; by eapply map_inj|done].
    - rewrite lookup_insert_ne //. destruct (map_counts _ Hinv _ _ Hk') as (b & -> & Hb & ?). simpl. split; [lia|].
      intros ->. congruence. }
  rewrite /retain_referenced. rewrite (filter_but _ _ (key c)); [|intros k' e Hk'; rewrite -(Hcount k' e) //; lia].
  rewrite (filter_only _ _ (key c) (arc c)) // map_to_list_singleton /= /arc_drop /= lookup_insert_eq /=.
  rewrite /set_heap /without /=. f_equal. apply delete_insert_eq.
Qed.

Lemma without_inv s i c a :
  inv s → callers s !! i = Some c → phase c = Releasing → heap (mutexes s) !! arc c = Some a → refs (arc c) (callers s) = 1 →
  inv (caller_step i Gone (without (key c) (arc c) (mutexes s)) s).
Proof.
  intros Hinv Hi Hc Ha Hr. pose proof (list_elem_of_lookup_2 _ _ _ Hi) as Hin.
  assert (map (mutexes s) !! key c = Some (arc c)) as Hk by (apply callers_in_map; [done..|congruence]).
  assert (callers (caller_step i Gone (without (key c) (arc c) (mutexes s)) s) = callers (moved i c Gone a s)) as Hcs by done.
  assert (∀ e, refs e (callers (moved i c Gone a s)) + refs_of e c = refs e (callers s)) as Hrefs.
  { intros e. rewrite moved_refs // /refs_of /=. case_decide; lia. }
  assert (∀ c', c' ∈ callers (moved i c Gone a s) → phase c' ≠ Gone → c' ∈ callers s ∧ arc c' ≠ arc c) as Hother.
  { intros c' Hc' Hg. split; [apply (moved_elem _ c) in Hc' as [->|?]; done|]. intros Harc.
    apply list_elem_of_lookup in Hc' as [j Hj]. pose proof (refs_at_least (arc c) _ _ _ Hj) as Hle. specialize (Hrefs (arc c)).
    rewrite /refs_of Harc !decide_True // Hc /= in Hrefs Hle. destruct (phase c'); simpl in *; try done; lia. }
  split; rewrite ?Hcs; cbn [caller_step mutexes without map heap next_arc].
  - intros k e [Hne Hk']%lookup_delete_Some. destruct (map_counts _ Hinv _ _ Hk') as (b & Hb & Hs & Hpos).
    assert (arc c ≠ e) as Hne' by (intros <-; destruct Hne; by eapply map_inj).
    exists b. rewrite lookup_delete_ne //. specialize (Hrefs e). rewrite /refs_of decide_False // in Hrefs. split; [done|]. lia.
  - intros k k' e [_ H1]%lookup_delete_Some [_ H2]%lookup_delete_Some. by eapply map_inj.
  - intros e b [Hne Hb]%lookup_delete_Some. destruct (heap_in_map _ Hinv _ _ Hb) as [k Hk']. exists k.
    apply lookup_delete_Some. split; [|done]. intros <-. congruence.
  - intros e b [_ Hb]%lookup_delete_Some. by eapply heap_fresh.
  - intros c' [->|Hc']%(moved_elem _ c); [by apply (callers_fresh _ Hinv c)|by apply (callers_fresh _ Hinv)|done].
  - intros c' Hc' Hg. destruct (Hother _ Hc' Hg) as [Hc'' Hne]. pose proof (callers_in_map _ Hinv _ Hc'' Hg) as Hk'.
    apply lookup_delete_Some. split; [|done]. intros Heq. congruence.
  - intros e b [Hne Hb]%lookup_delete_Some Hl. destruct (locked_held _ Hinv _ _ Hb Hl) as (j & c' & Hj & Harc & Hh).
    exists j, c'. split; [|done]. apply moved_other; [done| |done]. intros ->. congruence.
  - intros j c' b [[-> ->]|[_ Hj]]%(moved_lookup _ c) Hh [_ Hb]%lookup_delete_Some; [done|by eapply held_locked|done].
  - intros j1 j2 c1 c2 [[-> ->]|[_ H1]]%(moved_lookup _ c) [[-> ->]|[_ H2]]%(moved_lookup _ c) Hh1 Hh2 Harc; try done.
    by eapply (held_once _ Hinv).
Qed.

Lemma advance_inv s s' i : inv s → guard_advance i s = Some s' → inv s'.
Proof.
  intros Hinv. destruct (callers s !! i) as [c|] eqn:Hi; [|by rewrite /guard_advance Hi].
  destruct (decide (phase c = Releasing)) as [Hc|Hc]; [|by apply (advance_live_inv _ _ _ c)].
  rewrite /guard_advance Hi /= Hc. intros [= <-].
  destruct (caller_arc _ _ _ Hinv Hi) as (a & Ha & Hs & Hw); [congruence|]. rewrite Hc /= in Hw.
  destruct (decide (strong a = 2)) as [H2|H2].
  - rewrite (drop_last _ i c a) //. apply (without_inv _ _ _ a); [done..|lia].
  - rewrite /drop_entry /strong_count Ha /= (proj2 (Nat.leb_gt _ _)); [|lia]. rewrite (arc_drop_many _ a) //; [|lia].
    apply (moved_inv_counted s i c _ a); rewrite ?Hc; [done|done|done|simpl; lia|done|simpl; lia|]. apply holds_same; [congruence|done..].
Qed.

(** *** A new caller *)

Lemma refs_entered s k b : inv s → ∀ e, refs e (callers (enter val_default k b s)) = refs e (callers s) + (if decide ((entry val_default k (mutexes s)).1 = e) then 1 else 0).
Proof. intros Hinv e. rewrite /enter. destruct (entry _ _ _) as [e' m]. by rewrite /= refs_app. Qed.

Lemma enter_known_inv s k b e :
  inv s → map (mutexes s) !! k = Some e → inv (enter val_default k b s).
Proof.
  intros Hinv Hk. pose proof (refs_entered s k b Hinv) as Hrefs. destruct (map_counts _ Hinv _ _ Hk) as (a & Ha & Hs & Hpos).
  rewrite /enter /entry Hk /= in Hrefs |- *. rewrite /arc_clone (set_heap_alter _ _ a) //.
  assert (∀ e' b', <[e := set_strong (S (strong a)) a]> (heap (mutexes s)) !! e' = Some b' →
    ∃ b0, heap (mutexes s) !! e' = Some b0 ∧ mutex b' = mutex b0) as Hheap.
  { intros e' b' [[<- <-]|[_ ?]]%lookup_insert_Some; eauto. }
  split; cbn [mutexes callers map heap next_arc set_heap].
  - intros k' e' Hk'. destruct (map_counts _ Hinv _ _ Hk') as (a' & Ha' & Hs' & Hpos'). rewrite Hrefs.
    destruct (decide (e = e')) as [<-|Hne].
    + eexists. rewrite lookup_insert_eq. split; [done|]. simpl. simplify_eq. lia.
    + exists a'. rewrite lookup_insert_ne //. split; [done|]. lia.
  - apply (map_inj _ Hinv).
  - intros e' b' (b0 & Hb0 & _)%Hheap. by eapply heap_in_map.
  - intros e' b' (b0 & Hb0 & _)%Hheap. by eapply heap_fresh.
  - intros c [Hc| ->%list_elem_of_singleton]%elem_of_app; [by apply (callers_fresh _ Hinv)|by apply (heap_fresh _ Hinv _ a)].
  - intros c [Hc| ->%list_elem_of_singleton]%elem_of_app Hg; [by apply (callers_in_map _ Hinv)|done].
  - intros e' b' (b0 & Hb0 & ->)%Hheap Hl. destruct (locked_held _ Hinv _ _ Hb0 Hl) as (j & c & Hj & ?). exists j, c.
    split; [|done]. by apply lookup_app_l_Some.
  - intros j c b' [Hj|[_ Hj]]%lookup_app_Some Hh (b0 & Hb0 & ->)%Hheap; [by eapply held_locked|].
    apply list_lookup_singleton_Some in Hj as [_ <-]. done.
  - intros j1 j2 c1 c2 [H1|[_ [_ <-]%list_lookup_singleton_Some]]%lookup_app_Some [H2|[_ [_ <-]%list_lookup_singleton_Some]]%lookup_app_Some Hh1 Hh2 Harc;
      try done. by eapply (held_once _ Hinv).
Qed.

Lemma enter_new_inv s k b : inv s → map (mutexes s) !! k = None → inv (enter val_default k b s).
Proof.
  intros Hinv Hk. pose proof (refs_entered s k b Hinv) as Hrefs. rewrite /enter /entry Hk /= in Hrefs |- *.
  set (e := next_arc (mutexes s)) in *.
  assert (∀ k' e', map (mutexes s) !! k' = Some e' → e' ≠ e) as Hfresh.
  { intros k' e' Hk' ->. destruct (map_counts _ Hinv _ _ Hk') as (a & Ha & _). pose proof (heap_fresh _ Hinv _ _ Ha). unfold e in *. lia. }
  assert (refs e (callers s) = 0) as H0.
  { apply refs_none. intros c Hc. pose proof (callers_fresh _ Hinv _ Hc). unfold e. lia. }
  split; cbn [mutexes callers map heap next_arc].
  - intros k' e' [[<- <-]|[Hne Hk']]%lookup_insert_Some; rewrite Hrefs.
    + eexists. rewrite lookup_insert_eq decide_True //. split; [done|]. simpl. lia.
    + pose proof (Hfresh _ _ Hk'). rewrite decide_False // lookup_insert_ne //. destruct (map_counts _ Hinv _ _ Hk') as (a & Ha & Hs & Hpos).
      exists a. split; [done|]. lia.
  - intros k1 k2 e' [[<- <-]|[H1 H1']]%lookup_insert_Some [[<- Heq]|[H2 H2']]%lookup_insert_Some; [done| | |by eapply map_inj].
    + by destruct (Hfresh _ _ H2').
    + subst e'. by destruct (Hfresh _ _ H1').
  - intros e' a [[<- <-]|[Hne Ha]]%lookup_insert_Some; [exists k; by rewrite lookup_insert_eq|].
    destruct (heap_in_map _ Hinv _ _ Ha) as [k' Hk']. exists k'. rewrite lookup_insert_ne //. congruence.
  - intros e' a [[<- <-]|[Hne Ha]]%lookup_insert_Some; [lia|]. pose proof (heap_fresh _ Hinv _ _ Ha). unfold e. lia.
  - intros c [Hc| ->%list_elem_of_singleton]%elem_of_app; [pose proof (callers_fresh _ Hinv _ Hc)|]; simpl; unfold e; lia.
  - intros c [Hc| ->%list_elem_of_singleton]%elem_of_app Hg; [|by rewrite lookup_insert_eq].
    pose proof (callers_in_map _ Hinv _ Hc Hg). rewrite lookup_insert_ne //. congruence.
  - intros e' a [[<- <-]|[Hne Ha]]%lookup_insert_Some Hl; [by rewrite /= locked_new in Hl|].
    destruct (locked_held _ Hinv _ _ Ha Hl) as (j & c & Hj & ?). exists j, c. split; [|done]. by apply lookup_app_l_Some.
  - intros j c a [Hj|[_ [_ <-]%list_lookup_singleton_Some]]%lookup_app_Some Hh; [|done]. intros Ha. eapply held_locked; [done..|].
    rewrite lookup_insert_ne in Ha; [done|]. pose proof (callers_fresh _ Hinv _ (list_elem_of_lookup_2 _ _ _ Hj)). unfold e. lia.
  - intros j1 j2 c1 c2 [H1|[_ [_ <-]%list_lookup_singleton_Some]]%lookup_app_Some [H2|[_ [_ <-]%list_lookup_singleton_Some]]%lookup_app_Some Hh1 Hh2 Harc;
      try done. by eapply (held_once _ Hinv).
Qed.

Lemma write_inv s i v : inv s → inv (guard_deref_mut i v s).
Proof.
  intros Hinv. rewrite /guard_deref_mut. destruct (callers s !! i) as [c|]; [|done].
  set (f := λ a : @ArcInner futures Val, set_mutex (set_contents v (mutex a)) a).
  assert (∀ e b, alter f (arc c) (heap (mutexes s)) !! e = Some b →
    ∃ a, heap (mutexes s) !! e = Some a ∧ strong b = strong a ∧ locked (mutex b) = locked (mutex a)) as Hheap.
  { intros e b. destruct (decide (arc c = e)) as [<-|Hne]; [|rewrite lookup_alter_ne //; eauto].
    rewrite lookup_alter_eq. intros (a & Ha & ->)%fmap_Some. exists a. split_and!; [done..|]. apply locked_set. }
  split; cbn [mutexes callers map heap next_arc set_heap].
  - intros k e Hk. destruct (map_counts _ Hinv _ _ Hk) as (a & Ha & Hs).
    destruct (alter f (arc c) (heap (mutexes s)) !! e) as [b|] eqn:Hb.
    + destruct (Hheap _ _ Hb) as (a' & Ha' & Hst & _). simplify_eq. exists b. split; [done|]. by rewrite Hst.
    + apply lookup_alter_None in Hb. congruence.
  - apply (map_inj _ Hinv).
  - intros e b (a & Ha & _)%Hheap. by eapply heap_in_map.
  - intros e b (a & Ha & _)%Hheap. by eapply heap_fresh.
  - apply (callers_fresh _ Hinv).
  - apply (callers_in_map _ Hinv).
  - intros e b (a & Ha & _ & ->)%Hheap. by eapply locked_held.
  - intros j c' b Hj Hh (a & Ha & _ & ->)%Hheap. by eapply held_locked.
  - apply (held_once _ Hinv).
Qed.

Lemma step_inv ev s s' : inv s → step val_default ev s = Some s' → inv s'.
Proof.
  intros Hinv. destruct ev as [k b|i|i|i v]; simpl.
  - intros [= <-]. destruct (map (mutexes s) !! k) eqn:Hk; [by eapply enter_known_inv|by apply enter_new_inv].
  - by apply advance_inv.
  - by apply drop_guard_inv.
  - case_bool_decide; [|done]. intros [= <-]. by apply write_inv.
Qed.

Lemma no_callers_inv : inv no_callers.
Proof. split; simpl; intros *; rewrite ?lookup_empty ?lookup_nil; try done; by intros ?%elem_of_nil. Qed.

Lemma run_inv events s s' : inv s → run val_default events s = Some s' → inv s'.
Proof.
  revert s. induction events as [|ev events IH]; intros s Hinv; simpl; [by intros [= <-]|].
  intros (s1 & H1 & H2)%bind_Some. eapply IH; [|done]. by eapply step_inv.
Qed.

Definition holds s i k : Prop := ∃ c, callers s !! i = Some c ∧ key c = k ∧ phase c = Holding.

(** C31. Mutexes by key, in every run of any callers, whatever they do in whatever order
    and wherever they are cancelled. At most one caller holds the mutex of a key. The map
    has an entry for a key exactly as long as some caller holds it or wants it, so that it
    is empty when nobody does, and no other mutex is kept allocated. A caller that waits
    for a key gets it in its next step unless another caller holds that key. *)
Theorem mutex_map_exact events s :
  run val_default events no_callers = Some s →
  (∀ i j k, holds s i k → holds s j k → i = j) ∧
  (∀ k, contains k (mutexes s) = true ↔ ∃ c, c ∈ callers s ∧ key c = k ∧ phase c ≠ Gone) ∧
  (∀ e, is_Some (heap (mutexes s) !! e) ↔ ∃ k, map (mutexes s) !! k = Some e) ∧
  (∀ i c, callers s !! i = Some c → phase c = Waiting →
     (∃ s', guard_advance i s = Some s' ∧ holds s' i (key c)) ∨ ∃ j, j ≠ i ∧ holds s j (key c)).
Proof.
  intros Hrun. pose proof (run_inv _ _ _ no_callers_inv Hrun) as Hinv.
  assert (∀ i c, callers s !! i = Some c → phase c ≠ Gone → map (mutexes s) !! key c = Some (arc c)) as Hmap.
  { intros i c Hi. apply (callers_in_map _ Hinv). by eapply list_elem_of_lookup_2. }
  split_and!.
  - intros i j k (c & Hi & Hk & Hc) (c' & Hj & <- & Hc'). eapply (held_once _ Hinv _ _ _ _ Hi Hj Hc Hc').
    pose proof (Hmap _ _ Hi ltac:(congruence)). pose proof (Hmap _ _ Hj ltac:(congruence)). congruence.
  - intros k. rewrite /contains bool_decide_eq_true. split.
    + intros [e Hk]. destruct (map_counts _ Hinv _ _ Hk) as (a & Ha & Hs & Hpos). destruct (refs_some e (callers s)) as (c & Hc & Harc & Hg); [lia|].
      exists c. split_and!; [done| |done]. eapply (map_inj _ Hinv); [|done]. rewrite -Harc. by apply (callers_in_map _ Hinv).
    + intros (c & Hc & <- & Hg). eexists. by apply (callers_in_map _ Hinv).
  - intros e. split; [intros [a Ha]; by eapply heap_in_map|]. intros [k Hk]. destruct (map_counts _ Hinv _ _ Hk) as (a & -> & _). done.
  - intros i c Hi Hc. destruct (caller_arc _ _ _ Hinv Hi) as (a & Ha & _ & _); [congruence|].
    destruct (locked (mutex a)) eqn:El.
    + right. destruct (locked_held _ Hinv _ _ Ha El) as (j & c' & Hj & Harc & Hc'). exists j. split; [intros ->; congruence|].
      exists c'. split_and!; [done| |done]. eapply (map_inj _ Hinv); [by eapply Hmap; [|congruence]|]. rewrite Harc. eapply Hmap; [done|congruence].
    + left. destruct (try_lock_free _ El) as (x & Hx & _). rewrite /guard_advance Hi /= Hc /poll_lock Ha /= Hx /=. eexists. split; [done|].
      exists (set_phase Holding c). split; [|done]. simpl. rewrite (alter_is_insert _ _ _ c) // list_lookup_insert_eq //. by eapply lookup_lt_Some.
Qed.

End spec.

(** ** An example *)

(** A mutex is whether it is locked, and its contents. *)
#[export] Program Instance plain_mutex : FuturesMutex := {|
  Mutex A := (bool * A)%type;
  mutex_new _ a := (false, a);
  try_lock_owned _ m := if m.1 : bool then None else Some (true, m.2);
  unlock _ m := (false, m.2);
  contents _ m := m.2;
  set_contents _ a m := (m.1, a);
  locked _ m := m.1
|}.
Solve Obligations with done.
Next Obligation. by intros A [[] a]. Qed.
Next Obligation. intros A [[] a]; [done|]. intros _. by eexists. Qed.

(** Two callers of one key and one of another; the second caller gives up, the first one
    leaves. *)
Definition sample_run : list (@Event string nat) :=
  [Enter "k" true; Advance 0; Advance 0; Enter "k" true; Advance 1; Enter "l" false; Advance 2; DropGuard 1; DropGuard 0; Advance 0; Advance 1;
   Advance 0; Advance 1; Advance 2].

Lemma mutex_map_exact_witness :
  ∃ s, run 0 sample_run no_callers = Some s ∧ contains "k" (mutexes s) = false ∧ ∀ i j k, holds s i k → holds s j k → i = j.
Proof.
  destruct (run 0 sample_run no_callers) as [s|] eqn:E; [|by vm_compute in E]. exists s.
  destruct (mutex_map_exact 0 sample_run s E) as (Hex & _). split_and!; [done| |done].
  assert ((λ s, contains "k" (mutexes s)) <$> run 0 sample_run no_callers = Some false) as Hc by by_vm. rewrite E in Hc. by injection Hc.
Defined.
