(* ===== verification/SingleFlight.v ===== *)
(** * One flight per key

    [crates/client-common/src/single_flight.rs]: callers that ask for the same work at the
    same time share one execution of it. The mutexes of the keys are those of
    [MutexMap.v]; the contents of a mutex is the result, once there is one. Here it is shown
    that callers who are there together share one completed execution and get its
    result, and that nothing stays when they are gone. *)

From stdpp Require Import ssreflect.
From S2P Require Import Prelude MutexMap.

Section single_flight.
Context {futures : FuturesMutex} {Key : Type} `{Countable Key} {V : Type}.

(** ** Model *)

(** Where a call of [run] is: it waits for the key, it runs the work, it returns a value,
    which it has made itself or not, or its future has been dropped. *)
Inductive Call := Locking | Running | Returning (v : V) (own : bool) | Cancelled.

Record SingleFlight := { inflight : @System futures Key _ _ (option V); calls : list Call }.

Definition new_flight : SingleFlight := {| inflight := no_callers; calls := [] |}.

Definition start (k : Key) (f : SingleFlight) : SingleFlight :=
  {| inflight := enter None k true (inflight f); calls := calls f ++ [Locking] |}.

Definition become (i : nat) (c : Call) (s : System) (f : SingleFlight) : SingleFlight := {| inflight := s; calls := <[i := c]> (calls f) |}.

(** The look at the value when the guard is there: another caller may have set it. *)
Definition check_value (guard : option V) : Call := match guard with Some value => Returning value false | None => Running end.

(** What call [i] does next on its own: the steps of [lock], the look at the value when it
    has the guard, and the drop of the guard when it has the value. *)
Definition proceed (i : nat) (f : SingleFlight) : option SingleFlight :=
  call ← calls f !! i;
  c ← callers (inflight f) !! i;
  match call, phase c with
  | Locking, Holding =>
      guard ← guard_deref i (inflight f);
      Some (become i (check_value guard) (inflight f) f)
  | Running, _ => None
  | Returning _ _, Holding => s ← guard_drop i (inflight f); Some (become i call s f)
  | _, _ => s ← guard_advance i (inflight f); Some (become i call s f)
  end.

(** The work of call [i] is done. *)
Definition finish (i : nat) (v : V) (f : SingleFlight) : option SingleFlight :=
  match calls f !! i with
  | Some Running => Some (become i (Returning v true) (guard_deref_mut i (Some v) (inflight f)) f)
  | _ => None
  end.

(** The future of call [i] is dropped while it waits for the key or for the work. *)
Definition cancel (i : nat) (f : SingleFlight) : option SingleFlight :=
  match calls f !! i with
  | Some Locking | Some Running => s ← guard_drop i (inflight f); Some (become i Cancelled s f)
  | _ => None
  end.

Inductive Act := Start (k : Key) | Proceed (i : nat) | Finish (i : nat) (v : V) | Cancel (i : nat).

Definition act (a : Act) (f : SingleFlight) : option SingleFlight :=
  match a with Start k => Some (start k f) | Proceed i => proceed i f | Finish i v => finish i v f | Cancel i => cancel i f end.

Fixpoint fly (actions : list Act) (f : SingleFlight) : option SingleFlight :=
  match actions with [] => Some f | a :: actions => f ← act a f; fly actions f end.

(** ** Contents of the mutexes *)

Implicit Types (s : @System futures Key _ _ (option V)) (m : @MutexMap futures Key _ _ (option V)).

(** Every mutex that is left has the contents it had. *)
Definition keeps_contents m m' : Prop :=
  ∀ e a', heap m' !! e = Some a' → ∃ a, heap m !! e = Some a ∧ contents (mutex a') = contents (mutex a).

Lemma keeps_refl m : keeps_contents m m.
Proof. intros e a' ?. eauto. Qed.

Lemma contents_trans m1 m2 m3 : keeps_contents m1 m2 → keeps_contents m2 m3 → keeps_contents m1 m3.
Proof. intros H1 H2 e a3 (a2 & (a1 & ? & ?)%H1 & ?)%H2. exists a1. split; [done|congruence]. Qed.

Lemma keeps_alter (g : ArcInner → ArcInner) e m :
  (∀ a, contents (mutex (g a)) = contents (mutex a)) → keeps_contents m (set_heap (alter g e (heap m)) m).
Proof.
  intros Hg e' a'. simpl. destruct (decide (e = e')) as [<-|Hne]; [|rewrite lookup_alter_ne //; eauto].
  rewrite lookup_alter_eq. intros (a & Ha & ->)%fmap_Some. eauto.
Qed.

Lemma keeps_arc_drop e m : keeps_contents m (arc_drop e m).
Proof.
  rewrite /arc_drop. destruct (heap m !! e) as [a|] eqn:Ha; [|apply keeps_refl]. intros e' a'. simpl. case_match.
  - intros [_ ?]%lookup_delete_Some. eauto.
  - intros [[<- <-]|[_ ?]]%lookup_insert_Some; eauto.
Qed.

Lemma keeps_drop_entry e m : keeps_contents m (drop_entry e m).
Proof.
  rewrite /drop_entry. case_match; [|apply keeps_arc_drop]. eapply contents_trans; [apply keeps_arc_drop|].
  rewrite /retain_referenced. induction (snd <$> _) as [|e' l IH]; simpl; [intros e' a' ?; eauto|].
  eapply contents_trans; [done|apply keeps_arc_drop].
Qed.

Lemma keeps_poll e m m' : poll_lock e m = Some m' → keeps_contents m m'.
Proof.
  intros (a & x & Ha & -> & _ & _ & Hx)%poll_lock_Some e' a'. simpl.
  intros [[<- <-]|[_ ?]]%lookup_insert_Some; eauto.
Qed.

Lemma guard_advance_keeps i s s' : guard_advance i s = Some s' →
  keeps_contents (mutexes s) (mutexes s') ∧ ∃ p, callers s' = alter (set_phase p) i (callers s).
Proof.
  rewrite /guard_advance. intros (c & _ & Hs)%bind_Some. destruct (phase c) as [b| | | | | |]; simpl in Hs; try done.
  - injection Hs as <-. split; [by apply keeps_alter|by eexists].
  - apply bind_Some in Hs as (m & Hm & [= <-]). split; [by eapply keeps_poll|by eexists].
  - destruct (poll_lock _ _) as [m|] eqn:Hm; injection Hs as <-; (split; [|by eexists]); [by eapply keeps_poll|apply keeps_refl].
  - injection Hs as <-. split; [apply keeps_arc_drop|by eexists].
  - injection Hs as <-. split; [apply keeps_drop_entry|by eexists].
Qed.

Lemma drop_guard_keeps i s s' : guard_drop i s = Some s' →
  keeps_contents (mutexes s) (mutexes s') ∧ ∃ p, callers s' = alter (set_phase p) i (callers s).
Proof.
  rewrite /guard_drop. intros (c & _ & Hs)%bind_Some. destruct (phase c); simpl in Hs; try done; injection Hs as <-; (split; [|by eexists]).
  - apply keeps_refl.
  - apply keeps_alter. intros a. apply contents_unlock.
Qed.

(** ** Flights *)

Implicit Types (f : SingleFlight) (i j e : nat).

(** The mutex of a call, which stands for the time during which there are calls for the key. *)
Definition flight_of f i : option nat := arc <$> callers (inflight f) !! i.

Definition returns f i v own : Prop := calls f !! i = Some (Returning v own).

Record flies f : Prop := {
  f_inv : inv (inflight f);
  f_len : length (calls f) = length (callers (inflight f));
  f_running i : calls f !! i = Some Running → ∃ c a, callers (inflight f) !! i = Some c ∧ phase c = Holding ∧
    heap (mutexes (inflight f)) !! arc c = Some a ∧ contents (mutex a) = None;
  f_live i v own e a : returns f i v own → flight_of f i = Some e → heap (mutexes (inflight f)) !! e = Some a → contents (mutex a) = Some v;
  f_made e a v : heap (mutexes (inflight f)) !! e = Some a → contents (mutex a) = Some v → ∃ j, returns f j v true ∧ flight_of f j = Some e;
  f_once i j v v' e : returns f i v true → returns f j v' true → flight_of f i = Some e → flight_of f j = Some e → i = j;
  f_from i v own e : returns f i v own → flight_of f i = Some e → ∃ j, returns f j v true ∧ flight_of f j = Some e
}.

Lemma held_arc s i c : inv s → callers s !! i = Some c → phase c = Holding → ∃ a, heap (mutexes s) !! arc c = Some a.
Proof. intros Hinv Hi Hc. destruct (caller_arc _ _ _ Hinv Hi) as (a & Ha & _); [congruence|eauto]. Qed.

(** A step of the mutexes by call [i], which does not start or end the work. *)
Lemma system_step_flies f i call call' s' p :
  flies f → calls f !! i = Some call → inv s' → keeps_contents (mutexes (inflight f)) (mutexes s') →
  callers s' = alter (set_phase p) i (callers (inflight f)) →
  (call' = call ∧ call ≠ Running ∨ call' = Cancelled ∧ (call = Locking ∨ call = Running)) →
  flies (become i call' s' f).
Proof.
  intros Hf Hi Hs' Hk Hcs Hcall. pose proof (lookup_lt_Some _ _ _ Hi) as Hlt.
  assert (∀ j v own, returns (become i call' s' f) j v own ↔ returns f j v own) as Hret.
  { intros j v own. rewrite /returns /=. destruct (decide (i = j)) as [<-|Hne]; [|by rewrite list_lookup_insert_ne].
    rewrite list_lookup_insert_eq // Hi. naive_solver. }
  assert (∀ j, flight_of (become i call' s' f) j = flight_of f j) as Hfl.
  { intros j. rewrite /flight_of /= Hcs. destruct (decide (i = j)) as [<-|Hne]; [|by rewrite list_lookup_alter_ne].
    rewrite list_lookup_alter_eq. by destruct (callers _ !! i). }
  split; cbn [become inflight calls]; [done|by rewrite length_insert Hcs length_alter (f_len _ Hf)|..].
  - intros j Hj. destruct (decide (i = j)) as [<-|Hne].
    { rewrite list_lookup_insert_eq // in Hj. naive_solver. }
    rewrite list_lookup_insert_ne // in Hj. destruct (f_running _ Hf j Hj) as (c & a & Hc & Hp & Ha & Hn). exists c.
    assert (callers s' !! j = Some c) as Hc' by by rewrite Hcs list_lookup_alter_ne.
    destruct (held_arc _ _ _ Hs' Hc' Hp) as [a' Ha']. exists a'. split_and!; [done..|].
    destruct (Hk _ _ Ha') as (a0 & ? & ->). congruence.
  - intros j v own e a' Hr%Hret. rewrite Hfl. intros He (a & Ha & ->)%Hk. by eapply f_live.
  - intros e a' v (a & Ha & ->)%Hk Hv. destruct (f_made _ Hf _ _ _ Ha Hv) as (j & Hj & He). exists j. by rewrite Hret Hfl.
  - intros j1 j2 v v' e H1%Hret H2%Hret. rewrite !Hfl. by eapply (f_once _ Hf).
  - intros j v own e Hr%Hret. rewrite Hfl. intros He. destruct (f_from _ Hf _ _ _ _ Hr He) as (j' & Hj & He'). exists j'. by rewrite Hret Hfl.
Qed.

(** The look at the contents of the mutex: nobody else can change them. *)
Lemma check_flies f i c a :
  flies f → calls f !! i = Some Locking → callers (inflight f) !! i = Some c → phase c = Holding →
  heap (mutexes (inflight f)) !! arc c = Some a →
  flies (become i (check_value (contents (mutex a))) (inflight f) f).
Proof.
  intros Hf Hi Hc Hp Ha. pose proof (lookup_lt_Some _ _ _ Hi) as Hlt. set (call' := check_value (contents (mutex a))).
  assert (flight_of f i = Some (arc c)) as Hfi by by rewrite /flight_of Hc.
  assert (∀ j v, returns (become i call' (inflight f) f) j v true ↔ returns f j v true) as Hown.
  { intros j v. rewrite /returns /=. destruct (decide (i = j)) as [<-|Hne]; [|by rewrite list_lookup_insert_ne].
    rewrite list_lookup_insert_eq // Hi /call' /check_value. by destruct (contents _). }
  assert (∀ j v own, returns (become i call' (inflight f) f) j v own → returns f j v own ∨ j = i ∧ contents (mutex a) = Some v) as Hret.
  { intros j v own. rewrite /returns /=. destruct (decide (i = j)) as [<-|Hne]; [|rewrite list_lookup_insert_ne //; by left].
    rewrite list_lookup_insert_eq // /call' /check_value. destruct (contents _); [|done]. intros [= <- _]. by right. }
  split; cbn [become inflight calls]; [apply Hf|by rewrite length_insert (f_len _ Hf)|..].
  - intros j Hj. destruct (decide (i = j)) as [<-|Hne]; [|rewrite list_lookup_insert_ne // in Hj; by apply (f_running _ Hf)].
    rewrite list_lookup_insert_eq // in Hj. exists c, a. split_and!; [done..|]. unfold call', check_value in Hj. by destruct (contents _).
  - intros j v own e a' [Hr|[-> Hv]]%Hret He Ha'; [by eapply (f_live _ Hf)|]. rewrite /flight_of /= Hc in He. simpl in *. congruence.
  - intros e a' v Ha' Hv. destruct (f_made _ Hf _ _ _ Ha' Hv) as (j & Hj & He). exists j. by rewrite Hown.
  - intros j1 j2 v v' e H1%Hown H2%Hown. by eapply (f_once _ Hf).
  - intros j v own e [Hr|[-> Hv]]%Hret He.
    + destruct (f_from _ Hf _ _ _ _ Hr He) as (j' & Hj & He'). exists j'. by rewrite Hown.
    + destruct (f_made _ Hf _ _ _ Ha Hv) as (j & Hj & He'). exists j. rewrite Hown. rewrite /flight_of /= Hc in He. split; [done|].
      rewrite /flight_of /= in He'. rewrite /flight_of /=. simpl in He. congruence.
Qed.

Lemma proceed_flies f f' i : flies f → proceed i f = Some f' → flies f'.
Proof.
  intros Hf. rewrite /proceed. intros (call & Hi & (c & Hc & Hs)%bind_Some)%bind_Some.
  assert ((call = Locking ∧ phase c = Holding) ∨ ¬ (call = Locking ∧ phase c = Holding)) as [[-> Hp]|Hn].
  { destruct call; try (right; by intros [? ?]). destruct (decide (phase c = Holding)); [by left|right; by intros []]. }
  - rewrite Hp /guard_deref Hc /= in Hs. destruct (held_arc _ _ _ (f_inv _ Hf) Hc Hp) as [a Ha]. rewrite Ha /= in Hs. injection Hs as <-.
    by apply (check_flies _ _ c).
  - assert (∃ s' p, inv s' ∧ keeps_contents (mutexes (inflight f)) (mutexes s') ∧ callers s' = alter (set_phase p) i (callers (inflight f)) ∧
      call ≠ Running ∧ f' = become i call s' f) as (s' & p & Hs' & Hk & Hcs & Hr & ->).
    { destruct call as [| |v own|], (phase c) as [b| | | | | |]; try (by destruct Hn); try done; apply bind_Some in Hs as (s' & Hs & [= <-]);
        first [pose proof (guard_advance_keeps _ _ _ Hs) as [? [p ?]]; exists s', p; split_and!; try done; by apply (advance_inv _ _ i (f_inv _ Hf))
              |pose proof (drop_guard_keeps _ _ _ Hs) as [? [p ?]]; exists s', p; split_and!; try done; by apply (drop_guard_inv _ _ i (f_inv _ Hf))]. }
    eapply system_step_flies; eauto.
Qed.

Lemma cancel_flies f f' i : flies f → cancel i f = Some f' → flies f'.
Proof.
  intros Hf. rewrite /cancel. destruct (calls f !! i) as [call|] eqn:Hi; [|done].
  assert (∀ s', guard_drop i (inflight f) = Some s' → (call = Locking ∨ call = Running) → flies (become i Cancelled s' f)) as Hd.
  { intros s' Hs Hcall. pose proof (drop_guard_keeps _ _ _ Hs) as [? [p ?]].
    eapply system_step_flies; eauto. by apply (drop_guard_inv _ _ i (f_inv _ Hf)). }
  destruct call; try done; intros (s' & Hs & [= <-])%bind_Some; apply Hd; auto.
Qed.

Lemma finish_flies f f' i v : flies f → finish i v f = Some f' → flies f'.
Proof.
  intros Hf. rewrite /finish. destruct (calls f !! i) as [call|] eqn:Hi; [|done]. destruct call; try done. intros [= <-].
  destruct (f_running _ Hf _ Hi) as (c & a & Hc & Hp & Ha & Hn). pose proof (lookup_lt_Some _ _ _ Hi) as Hlt.
  pose proof (write_inv _ i (Some v) (f_inv _ Hf)) as Hinv. rewrite /guard_deref_mut Hc (set_heap_alter _ _ a) // in Hinv |- *.
  set (a' := set_mutex _ a) in *. assert (contents (mutex a') = Some v) as Hv by apply contents_set.
  assert (∀ j v own, returns f j v own → flight_of f j ≠ Some (arc c)) as Hnone.
  { intros j w own Hr He. pose proof (f_live _ Hf _ _ _ _ _ Hr He Ha). congruence. }
  assert (flight_of f i = Some (arc c)) as Hfi by by rewrite /flight_of Hc.
  set (f' := become _ _ _ _). assert (∀ j w own, returns f' j w own → returns f j w own ∨ j = i ∧ w = v) as Hret.
  { intros j w own. rewrite /returns /=. destruct (decide (i = j)) as [<-|Hne]; [|rewrite list_lookup_insert_ne //; by left].
    rewrite list_lookup_insert_eq //. intros [= <- _]. by right. }
  assert (∀ j w own, returns f j w own → returns f' j w own) as Hret'.
  { intros j w own Hr. rewrite /returns /= list_lookup_insert_ne //. intros <-. rewrite /returns Hi in Hr. done. }
  assert (returns f' i v true) as Hri by by rewrite /returns /= list_lookup_insert_eq.
  split; [done|by rewrite length_insert (f_len _ Hf)|..]; cbn [f' become inflight calls mutexes heap set_heap].
  - intros j Hj. destruct (decide (i = j)) as [<-|Hne]; [by rewrite list_lookup_insert_eq in Hj|]. rewrite list_lookup_insert_ne // in Hj.
    destruct (f_running _ Hf _ Hj) as (c' & b & Hc' & Hp' & Hb & Hnb). exists c', b. split_and!; [done..| |done].
    rewrite lookup_insert_ne //. intros Harc. destruct Hne. by eapply (held_once _ (f_inv _ Hf)).
  - intros j w own e b [Hr|[-> ->]]%Hret He Hb; change (flight_of f j = Some e) in He || change (flight_of f i = Some e) in He.
    + rewrite lookup_insert_ne in Hb; [by eapply (f_live _ Hf)|]. intros <-. by eapply Hnone.
    + assert (e = arc c) as -> by congruence. rewrite lookup_insert_eq in Hb. congruence.
  - intros e b w [[<- <-]|[Hne Hb]]%lookup_insert_Some Hw.
    + exists i. split; [|done]. congruence.
    + destruct (f_made _ Hf _ _ _ Hb Hw) as (j & Hj & He). exists j. split; [by apply Hret'|done].
  - intros j1 j2 w w' e [H1|[-> ->]]%Hret [H2|[-> ->]]%Hret H1' H2'; [by eapply (f_once _ Hf)| | |done].
    + destruct (Hnone _ _ _ H1). change (flight_of f i = Some e) in H2'. change (flight_of f j1 = Some e) in H1'. congruence.
    + destruct (Hnone _ _ _ H2). change (flight_of f i = Some e) in H1'. change (flight_of f j2 = Some e) in H2'. congruence.
  - intros j w own e [Hr|[-> ->]]%Hret He.
    + destruct (f_from _ Hf _ _ _ _ Hr He) as (j' & Hj & He'). exists j'. split; [by apply Hret'|done].
    + by exists i.
Qed.

Lemma enter_contents k s e a' :
  heap (mutexes (enter None k true s)) !! e = Some a' →
  (∃ a, heap (mutexes s) !! e = Some a ∧ contents (mutex a') = contents (mutex a)) ∨ e = next_arc (mutexes s) ∧ contents (mutex a') = None.
Proof.
  rewrite /enter /entry. destruct (map (mutexes s) !! k) as [e'|]; simpl.
  - intros Ha. left. by apply (keeps_alter (λ a, set_strong (S (strong a)) a) e' (mutexes s) (λ _, eq_refl)).
  - intros [[<- <-]|[_ Ha]]%lookup_insert_Some; [right|eauto]. split; [done|apply contents_new].
Qed.

Lemma start_flies f k : flies f → flies (start k f).
Proof.
  intros Hf. pose proof (step_inv None (Enter k true) _ _ (f_inv _ Hf) eq_refl) as Hinv. simpl in Hinv.
  assert (∃ c, callers (enter None k true (inflight f)) = callers (inflight f) ++ [c]) as [c Hcs].
  { rewrite /enter. destruct (entry _ _ _). by eexists. }
  assert (∀ j v own, returns (start k f) j v own ↔ returns f j v own) as Hret.
  { intros j v own. rewrite /returns /= lookup_app_Some list_lookup_singleton_Some. naive_solver. }
  assert (∀ j v own, returns f j v own → flight_of (start k f) j = flight_of f j) as Hfl.
  { intros j v own Hr. rewrite /flight_of /= Hcs lookup_app_l // -(f_len _ Hf). by eapply lookup_lt_Some. }
  assert (∀ j e, flight_of f j = Some e → e < next_arc (mutexes (inflight f))) as Hnext.
  { intros j e (c' & Hj & ->)%fmap_Some. apply (callers_fresh _ (f_inv _ Hf)). by eapply list_elem_of_lookup_2. }
  split; cbn [start inflight calls]; [done|by rewrite Hcs !length_app (f_len _ Hf)|..].
  - intros j [Hj|[_ [_ ?]%list_lookup_singleton_Some]]%lookup_app_Some; [|done].
    destruct (f_running _ Hf _ Hj) as (c' & a & Hc' & Hp & Ha & Hn). exists c'.
    assert (callers (enter None k true (inflight f)) !! j = Some c') as Hc'' by (rewrite Hcs; by apply lookup_app_l_Some).
    destruct (held_arc _ _ _ Hinv Hc'' Hp) as [a' Ha']. exists a'. split_and!; [done..|].
    destruct (enter_contents _ _ _ _ Ha') as [(a0 & Ha0 & ->)|[_ ?]]; congruence.
  - intros j v own e a' Hr%Hret He Ha'. rewrite (Hfl _ _ _ Hr) in He.
    destruct (enter_contents _ _ _ _ Ha') as [(a0 & Ha0 & ->)|[-> _]]; [by eapply (f_live _ Hf)|]. apply Hnext in He. lia.
  - intros e a' v Ha' Hv. destruct (enter_contents _ _ _ _ Ha') as [(a0 & Ha0 & Heq)|[_ ?]]; [|congruence].
    destruct (f_made _ Hf e a0 v) as (j & Hj & He); [done|congruence|]. exists j. by rewrite Hret (Hfl _ _ _ Hj).
  - intros j1 j2 v v' e H1%Hret H2%Hret. rewrite (Hfl _ _ _ H1) (Hfl _ _ _ H2). by eapply (f_once _ Hf).
  - intros j v own e Hr%Hret. rewrite (Hfl _ _ _ Hr). intros He. destruct (f_from _ Hf _ _ _ _ Hr He) as (j' & Hj & He').
    exists j'. by rewrite Hret (Hfl _ _ _ Hj).
Qed.

Lemma new_flight_flies : flies new_flight.
Proof. split; [apply no_callers_inv|done|..]; intros *; rewrite /returns /= ?lookup_nil ?lookup_empty; done. Qed.

Lemma fly_flies actions f f' : flies f → fly actions f = Some f' → flies f'.
Proof.
  revert f. induction actions as [|a actions IH]; intros f Hf; simpl; [by intros [= <-]|].
  intros (f1 & H1 & H2)%bind_Some. eapply IH; [|done].
  destruct a; simpl in H1; [injection H1 as <-; by apply start_flies|by eapply proceed_flies|by eapply finish_flies|by eapply cancel_flies].
Qed.

(** C13. One flight per key, in every run of any calls, finishing and being dropped in any
    order. At most one call runs the work of a key at any time. Calls for a key that are
    there at the same time belong to the same flight. In a flight at most one execution
    completes, and every call of the flight that returns gets the value of that one. When
    all calls have gone nothing is kept, so that the next call does the work again. *)
Theorem single_flight_shares actions f :
  fly actions new_flight = Some f →
  (∀ i j c c', calls f !! i = Some Running → calls f !! j = Some Running →
     callers (inflight f) !! i = Some c → callers (inflight f) !! j = Some c' → key c = key c' → i = j) ∧
  (∀ i j c c', callers (inflight f) !! i = Some c → callers (inflight f) !! j = Some c' → key c = key c' →
     phase c ≠ Gone → phase c' ≠ Gone → flight_of f i = flight_of f j) ∧
  (∀ i v own e, returns f i v own → flight_of f i = Some e →
     ∃ j, returns f j v true ∧ flight_of f j = Some e ∧ ∀ j' v', returns f j' v' true → flight_of f j' = Some e → j' = j) ∧
  ((∀ c, c ∈ callers (inflight f) → phase c = Gone) → is_empty (mutexes (inflight f)) = true).
Proof.
  intros Hfly. pose proof (fly_flies _ _ _ new_flight_flies Hfly) as Hf. pose proof (f_inv _ Hf) as Hinv.
  assert (∀ i j c c', callers (inflight f) !! i = Some c → callers (inflight f) !! j = Some c' → key c = key c' →
     phase c ≠ Gone → phase c' ≠ Gone → arc c = arc c') as Harc.
  { intros i j c c' Hi Hj Hk Hg Hg'. pose proof (callers_in_map _ Hinv _ (list_elem_of_lookup_2 _ _ _ Hi) Hg).
    pose proof (callers_in_map _ Hinv _ (list_elem_of_lookup_2 _ _ _ Hj) Hg'). congruence. }
  split_and!.
  - intros i j c c' Hi Hj Hc Hc' Hk. destruct (f_running _ Hf _ Hi) as (c1 & _ & ? & Hp & _). destruct (f_running _ Hf _ Hj) as (c2 & _ & ? & Hp' & _).
    simplify_eq. eapply (held_once _ Hinv); [done..|]. eapply Harc; [done..|congruence|congruence].
  - intros i j c c' Hi Hj Hk Hg Hg'. rewrite /flight_of Hi Hj /=. f_equal. by eapply Harc.
  - intros i v own e Hr He. destruct (f_from _ Hf _ _ _ _ Hr He) as (j & Hj & He'). exists j. split_and!; [done..|].
    intros j' v' Hj' He''. by eapply (f_once _ Hf).
  - intros Hgone. rewrite /is_empty bool_decide_eq_true. apply map_empty. intros k. destruct (map _ !! k) as [e|] eqn:Hk; [|done].
    destruct (map_counts _ Hinv _ _ Hk) as (a & _ & _ & (c & Hc & _ & Hg)%refs_some). by destruct Hg; apply Hgone.
Qed.

End single_flight.

(** ** An example *)

(** The second call waits while the first one works; the third one comes when the first
    one has gone, and gets its value before the second one does. *)
Definition sample_calls : list (@Act string nat) :=
  [Start "k"; Proceed 0; Proceed 0; Proceed 0; Start "k"; Proceed 1; Finish 0 7; Proceed 0; Proceed 0; Proceed 0;
   Start "k"; Proceed 2; Proceed 2; Proceed 2].

Lemma single_flight_shares_witness :
  ∃ f, fly (V := nat) sample_calls new_flight = Some f ∧ returns f 2 7 false ∧
    ∃ j, returns f j 7 true ∧ flight_of f j = flight_of f 2.
Proof.
  destruct (fly (V := nat) sample_calls new_flight) as [f|] eqn:E; [|by vm_compute in E]. exists f.
  assert ((λ f, (calls f !! 2, flight_of f 2)) <$> fly (V := nat) sample_calls new_flight = Some (Some (Returning 7 false), Some 0)) as Hc by by_vm.
  rewrite E in Hc. injection Hc as Hr He. destruct (single_flight_shares sample_calls f E) as (_ & _ & Hfrom & _).
  destruct (Hfrom 2 7 false 0 Hr He) as (j & Hj & Hej & _). split_and!; [done..|]. exists j. exact (conj Hj (eq_trans Hej (eq_sym He))).
Defined.

(** A call that starts when the work is done may still get the old value, as long as
    another call has not left: the first call has gone when the third one starts. *)
Lemma late_call_gets_old_value :
  (λ f, phase <$> callers (inflight f) !! 0) <$> fly (V := nat) (take 10 sample_calls) new_flight = Some (Some Gone) ∧
  (λ f, calls f !! 2) <$> fly (V := nat) sample_calls new_flight = Some (Some (Returning 7 false)).
Proof. split; by_vm. Qed.
