(* ===== verification/RingBuffer.v ===== *)
(** * Ring buffers

    [crates/client-common/src/ring_buffer.rs]: a queue that drops its oldest element when
    it is full. The queue is a [VecDeque], which is said to be full when its elements fill
    what it has allocated. How much that is, when at least [n] elements must fit, is up to
    the allocator, a parameter. *)

From S2P Require Import Prelude.

Class Allocator : Type := { granted : nat → nat; granted_enough n : n ≤ granted n }.

Section ring_buffer.
Context {alloc : Allocator} {T : Type}.

Record VecDeque := { elements : list T; allocated : nat }.

Definition with_capacity (n : nat) : VecDeque := {| elements := []; allocated := granted n |}.
Definition pop_front (d : VecDeque) : VecDeque := {| elements := drop 1 (elements d); allocated := allocated d |}.
Definition set_elements (l : list T) (d : VecDeque) : VecDeque := {| elements := l; allocated := allocated d |}.

Definition reserve_exact (additional : nat) (d : VecDeque) : VecDeque :=
  if length (elements d) + additional <=? allocated d then d
  else {| elements := elements d; allocated := granted (length (elements d) + additional) |}.

Definition push_back (x : T) (d : VecDeque) : VecDeque :=
  {| elements := elements d ++ [x];
     allocated := if length (elements d) <? allocated d then allocated d else granted (S (length (elements d))) |}.

Record RingBuffer := { inner : VecDeque; logical_capacity : nat }.

(** The elements beyond the capacity are popped off the front. *)
Definition ring_from_parts (d : VecDeque) (capacity : nat) : RingBuffer :=
  let d := Nat.iter (length (elements d) - capacity) pop_front d in
  let d := if capacity <? length (elements d) then d else reserve_exact (capacity - length (elements d)) d in
  {| inner := d; logical_capacity := capacity |}.

Definition new_buffer (size : nat) : RingBuffer := ring_from_parts (with_capacity size) size.

Definition buffer_capacity (b : RingBuffer) : nat := allocated (inner b).

Definition ring_push (x : T) (b : RingBuffer) : RingBuffer :=
  let d := if length (elements (inner b)) =? allocated (inner b) then pop_front (inner b) else inner b in
  {| inner := push_back x d; logical_capacity := logical_capacity b |}.

Definition pop (b : RingBuffer) : option T * RingBuffer :=
  (head (elements (inner b)), {| inner := pop_front (inner b); logical_capacity := logical_capacity b |}).

Definition remove (i : nat) (b : RingBuffer) : option T * RingBuffer :=
  (elements (inner b) !! i, {| inner := set_elements (delete i (elements (inner b))) (inner b); logical_capacity := logical_capacity b |}).

Definition retain (p : T → bool) (b : RingBuffer) : RingBuffer :=
  {| inner := set_elements (List.filter p (elements (inner b))) (inner b); logical_capacity := logical_capacity b |}.

Definition extend (l : list T) (b : RingBuffer) : RingBuffer := foldl (λ b x, ring_push x b) b l.

(** The two serialized forms; a deserialized deque may have allocated more than it holds. *)
Inductive SerializedRingBuffer := WithCapacity (items : VecDeque) (capacity : nat) | Legacy (items : VecDeque).

Definition LEGACY_DEFAULT_CAPACITY : nat := 10.

Definition ring_deserialize (s : SerializedRingBuffer) : RingBuffer :=
  match s with
  | WithCapacity items capacity => ring_from_parts items capacity
  | Legacy items => ring_from_parts items (length (elements items) `max` LEGACY_DEFAULT_CAPACITY)
  end.

(** ** What a buffer holds *)

(** The last [n] elements *)
Definition lastn (n : nat) (l : list T) : list T := drop (length l - n) l.

Lemma lastn_all n l : length l ≤ n → lastn n l = l.
Proof. intros Hl. unfold lastn. by replace (length l - n) with 0 by lia. Qed.

Lemma length_lastn n l : length (lastn n l) = n `min` length l.
Proof. unfold lastn. rewrite length_drop. lia. Qed.

Lemma lastn_snoc n l x : 0 < n → lastn n (lastn n l ++ [x]) = lastn n (l ++ [x]).
Proof.
  intros Hn. unfold lastn. rewrite !length_app, length_drop. cbn [length]. destruct (decide (length l ≤ n)).
  { replace (length l - n) with 0 by lia. by rewrite Nat.sub_0_r. }
  rewrite !drop_app_le by (rewrite ?length_drop; lia). rewrite drop_drop. do 2 f_equal. lia.
Qed.

Lemma lastn_app n q l : 0 < n → lastn n (lastn n q ++ l) = lastn n (q ++ l).
Proof.
  intros Hn. induction l as [|y l IH] using rev_ind.
  - rewrite !app_nil_r. apply lastn_all. rewrite length_lastn. lia.
  - rewrite !(assoc_L (++)), <- (lastn_snoc _ (_ ++ l)), IH by done. by rewrite lastn_snoc.
Qed.

Lemma push_elements x b :
  0 < allocated (inner b) → length (elements (inner b)) ≤ allocated (inner b) →
  elements (inner (ring_push x b)) = lastn (allocated (inner b)) (elements (inner b) ++ [x]) ∧
  allocated (inner (ring_push x b)) = allocated (inner b).
Proof.
  intros Hpos Hle. unfold ring_push. destruct (Nat.eqb_spec (length (elements (inner b))) (allocated (inner b))) as [Heq|Hne];
    cbn [inner elements allocated push_back pop_front].
  - rewrite length_drop. destruct (Nat.ltb_spec (length (elements (inner b)) - 1) (allocated (inner b))); [|lia]. split; [|done].
    unfold lastn. rewrite length_app. cbn. rewrite drop_app_le by lia. f_equal. f_equal. lia.
  - destruct (Nat.ltb_spec (length (elements (inner b))) (allocated (inner b))); [|lia]. split; [|done].
    rewrite lastn_all; [done|]. rewrite length_app. cbn. lia.
Qed.

Lemma extend_elements l b :
  0 < allocated (inner b) → length (elements (inner b)) ≤ allocated (inner b) →
  elements (inner (extend l b)) = lastn (allocated (inner b)) (elements (inner b) ++ l) ∧
  allocated (inner (extend l b)) = allocated (inner b).
Proof.
  intros Hpos. revert b Hpos. induction l as [|x l IH]; intros b Hpos Hle.
  { cbn. rewrite app_nil_r, lastn_all by done. done. }
  change (extend (x :: l) b) with (extend l (ring_push x b)).
  destruct (push_elements x b Hpos Hle) as [He Ha]. destruct (IH (ring_push x b)) as [He' Ha'].
  { by rewrite Ha. }
  { rewrite He, Ha, length_lastn. lia. }
  rewrite Ha in *. split; [|done]. by rewrite He', He, lastn_app, <- (assoc_L (++)) by done.
Qed.

(** The buffer keeps the last elements, as many as have been allocated: with an allocator
    that grants no more than it is asked for, as many as the buffer was made for. *)
Theorem ring_buffer_keeps_last n l :
  0 < n → granted n = n → elements (inner (extend l (new_buffer n))) = lastn n l ∧ logical_capacity (extend l (new_buffer n)) = n.
Proof.
  intros Hn Hg. assert (inner (new_buffer n) = with_capacity n) as Hnew.
  { unfold new_buffer, ring_from_parts. change (length (elements (with_capacity n))) with 0.
    change (Nat.iter (0 - n) pop_front (with_capacity n)) with (with_capacity n). change (length (elements (with_capacity n))) with 0.
    change (n <? 0) with false. unfold reserve_exact. cbn. by rewrite Nat.sub_0_r, Hg, Nat.leb_refl. }
  destruct (extend_elements l (new_buffer n)) as [He _]; rewrite Hnew in *; cbn in *; rewrite ?Hg in *; [lia..|]. split; [done|].
  clear. generalize (new_buffer n) as b, (eq_refl : logical_capacity (new_buffer n) = n). induction l; cbn; intros b Hb; [done|]. by apply IHl.
Qed.

(** A buffer that was deserialized counts what its deque has allocated, not its capacity:
    of a buffer for [capacity] elements, with [d] more allocated, pushing [d] elements onto
    a full one drops none. *)
Theorem deserialized_exceeds_capacity items capacity l :
  0 < capacity → capacity ≤ length (elements items) → length (elements items) ≤ allocated items → capacity + length l ≤ allocated items →
  length (elements (inner (extend l (ring_deserialize (WithCapacity items capacity))))) = capacity + length l.
Proof.
  intros Hc Hle Hal Hl. assert (∀ k, elements (Nat.iter k pop_front items) = drop k (elements items) ∧ allocated (Nat.iter k pop_front items) = allocated items) as Hpop.
  { intros k. induction k as [|k [IH1 IH2]]; [by rewrite drop_0|].
    change (Nat.iter (S k) pop_front items) with (pop_front (Nat.iter k pop_front items)). cbn [elements allocated pop_front].
    rewrite IH1, drop_drop, IH2. split; [f_equal; lia|done]. }
  assert (elements (inner (ring_deserialize (WithCapacity items capacity))) = lastn capacity (elements items) ∧
    allocated (inner (ring_deserialize (WithCapacity items capacity))) = allocated items) as [He Ha].
  { unfold ring_deserialize, ring_from_parts. destruct (Hpop (length (elements items) - capacity)) as [-> Hp]. rewrite length_drop.
    destruct (Nat.ltb_spec capacity (length (elements items) - (length (elements items) - capacity))); [lia|]. unfold reserve_exact.
    destruct (Hpop (length (elements items) - capacity)) as [E _]. rewrite E, length_drop, Hp.
    destruct (Nat.leb_spec (length (elements items) - (length (elements items) - capacity) + (capacity - (length (elements items) - (length (elements items) - capacity)))) (allocated items)); [|lia].
    cbn. done. }
  destruct (extend_elements l (ring_deserialize (WithCapacity items capacity))) as [Hx _]; rewrite ?He, ?Ha in *; [lia|rewrite length_lastn; lia|].
  rewrite Hx, length_lastn, length_app, length_lastn. lia.
Qed.

End ring_buffer.

(** ** Examples *)

#[export] Program Instance exact_allocator : Allocator := {| granted n := n |}.
Next Obligation. done. Qed.

Lemma ring_buffer_keeps_last_witness : elements (inner (extend [1; 2; 3; 4] (new_buffer 3))) = [2; 3; 4].
Proof. exact (proj1 (ring_buffer_keeps_last 3 [1; 2; 3; 4] ltac:(lia) eq_refl)). Defined.

(** Three elements for a buffer of two, in a deque that has place for four. *)
Lemma deserialized_exceeds_capacity_witness :
  length (elements (inner (extend [4; 5] (ring_deserialize (WithCapacity {| elements := [1; 2; 3]; allocated := 4 |} 2))))) = 4.
Proof. apply (deserialized_exceeds_capacity {| elements := [1; 2; 3]; allocated := 4 |} 2 [4; 5]); cbn; lia. Defined.
