(* ===== verification/Backoff.v ===== *)
(** * Waiting after failures

    [crates/client-common/src/backoff.rs] and [failures_cache.rs]: how long an operation
    that has failed is not tried again. A [Duration] is its number of nanoseconds. *)

From Stdlib Require Import ZArith.
From S2P Require Import Prelude.
#[local] Open Scope Z_scope.

Definition SECOND : Z := 1000000000.
Definition DURATION_MAX : Z := 2 ^ 64 * SECOND - 1.
Definition u32_max : Z := 2 ^ 32 - 1.
Definition u64_max : Z := 2 ^ 64 - 1.

(** [Duration::as_secs] and [Duration::saturating_mul] *)
Definition as_secs (d : Z) : Z := d / SECOND.
Definition saturating_mul (d n : Z) : Z := Z.min (d * n) DURATION_MAX.

(** ** Quadratic back-off *)

Definition exponential_backoff_remaining (min max elapsed tries : Z) : option Z :=
  let window := Z.min (saturating_mul (saturating_mul min tries) tries) max in
  if elapsed <? window then Some (window - elapsed) else None.

Definition exponential_backoff_remaining_secs (min max elapsed tries : Z) : option Z :=
  exponential_backoff_remaining (min * SECOND) (max * SECOND) elapsed tries.

Definition continue_exponential_backoff (min max elapsed tries : Z) : bool :=
  bool_decide (is_Some (exponential_backoff_remaining min max elapsed tries)).

Definition exponential_backoff_streak_cap (min max : Z) : Z :=
  let min_secs := Z.max (as_secs min) 1 in
  let ratio := as_secs max / min_secs in
  let floor := Z.sqrt ratio in
  let ceil := if Z.min (floor * floor) u64_max <? ratio then Z.min (floor + 1) u64_max else floor in
  Z.max (if ceil <=? u32_max then ceil else u32_max) 1.

Definition duration (d : Z) : Prop := 0 <= d <= DURATION_MAX.

Lemma window_spec min max tries :
  duration min → duration max → 0 <= tries → Z.min (saturating_mul (saturating_mul min tries) tries) max = Z.min (min * tries * tries) max.
Proof.
  unfold duration, saturating_mul. intros Hmin Hmax Ht. destruct (Z.le_gt_cases (min * tries) DURATION_MAX) as [Hle|Hgt].
  - rewrite (Z.min_l (min * tries)) by done. lia.
  - assert (0 < DURATION_MAX) by done. assert (1 <= tries) by nia. set (p := min * tries) in *.
    pose proof (Z.mul_le_mono_nonneg_l 1 tries DURATION_MAX). pose proof (Z.mul_le_mono_nonneg_l 1 tries p).
    rewrite (Z.min_r p) by lia. rewrite (Z.min_r (DURATION_MAX * tries)) by lia. rewrite !Z.min_r by lia. done.
Qed.

(** The cap is enough: with more tries than the cap the window is the greatest one, when
    the smallest one is at least a second. *)
Theorem streak_cap_pins min max tries :
  SECOND <= min → duration min → duration max → exponential_backoff_streak_cap min max < tries → tries <= u32_max →
  exponential_backoff_remaining min max 0 tries = exponential_backoff_remaining max max 0 1.
Proof.
  intros Hs Hmin Hmax Hcap Ht. unfold exponential_backoff_streak_cap in Hcap.
  assert (1 <= as_secs min) as Hms by (apply Z.div_le_lower_bound; unfold SECOND in *; lia). rewrite (Z.max_l (as_secs min)) in Hcap by lia.
  set (r := as_secs max / as_secs min) in *. assert (0 <= as_secs max) by (apply Z.div_pos; unfold duration, SECOND in *; lia).
  assert (as_secs max <= u64_max).
  { apply Z.lt_succ_r. apply Z.div_lt_upper_bound; [done|]. unfold duration, DURATION_MAX, u64_max, SECOND in *. lia. }
  assert (0 <= r <= u64_max) as Hr by (split; [apply Z.div_pos; lia|]; apply Z.div_le_upper_bound; nia).
  pose proof (Z.sqrt_spec r ltac:(lia)) as [Hlo Hhi]. pose proof (Z.sqrt_nonneg r).
  assert (r < tries * tries) as Hrt.
  { rewrite Z.min_l in Hcap by lia. destruct (Z.ltb_spec (Z.sqrt r * Z.sqrt r) r); destruct (Z.leb_spec (Z.sqrt r) u32_max); repeat case_match;
      rewrite ?Z.leb_gt in *; unfold u32_max, u64_max in *; nia. }
  assert (max < min * (tries * tries)) as Hbig.
  { pose proof (Z.mul_succ_div_gt max SECOND ltac:(done)) as Ha. fold (as_secs max) in Ha.
    pose proof (Z.mul_succ_div_gt (as_secs max) (as_secs min) ltac:(lia)) as Hb. fold r in Hb.
    pose proof (Z.mul_div_le min SECOND ltac:(done)) as Hc. fold (as_secs min) in Hc.
    assert (as_secs max + 1 <= as_secs min * (tries * tries)) by nia. unfold SECOND in *. nia. }
  unfold exponential_backoff_remaining. rewrite !window_spec by (done || lia).
  assert (0 <= tries) by lia. replace (Z.min (min * tries * tries) max) with max by lia. by replace (Z.min (max * 1 * 1) max) with max by lia.
Qed.

(** With a smallest window below a second the cap is too small: of half a second and at
    most a hundred, the window after eleven tries, one more than the cap, is about sixty. *)
Lemma streak_cap_subsecond :
  exponential_backoff_streak_cap (SECOND / 2) (100 * SECOND) = 10 ∧
  exponential_backoff_remaining (SECOND / 2) (100 * SECOND) 0 11 = Some (60 * SECOND + SECOND / 2).
Proof. split; by_vm. Qed.

(** ** The cache of failures *)

Record FailuresItem := { insertion_time : Z; item_duration : Z; failure_count : Z }.

Section cache.
Context {Key : Type} `{Countable Key}.

Record FailuresCache := { max_delay : Z; backoff_multiplier : Z; failures : gmap Key FailuresItem }.

Definition set_failures f (c : FailuresCache) : FailuresCache :=
  {| max_delay := max_delay c; backoff_multiplier := backoff_multiplier c; failures := f |}.

Definition new_cache : FailuresCache := {| max_delay := 15 * 60 * SECOND; backoff_multiplier := 15; failures := ∅ |}.

Definition expired (now : Z) (i : FailuresItem) : bool := item_duration i <=? now - insertion_time i.

Definition cache_contains (now : Z) (k : Key) (c : FailuresCache) : bool :=
  match failures c !! k with Some i => negb (expired now i) | None => false end.

(** [clamp] panics if the smallest value is greater than the greatest one. *)
Definition calculate_delay (c : FailuresCache) (count : Z) : outcome Empty_set Z :=
  let exponential_backoff := Z.min (2 ^ count) u64_max in
  let delay := Z.min (exponential_backoff * backoff_multiplier c) u64_max in
  if max_delay c <? SECOND then Panic else Ret (Z.min (Z.max (delay * SECOND) SECOND) (max_delay c)).

Fixpoint cache_extend (now : Z) (keys : list Key) (c : FailuresCache) : outcome Empty_set FailuresCache :=
  match keys with
  | [] => Ret c
  | k :: keys =>
      let count := match failures c !! k with Some value => Z.min (failure_count value + 1) 255 | None => 0 end in
      let! delay := calculate_delay c count in
      cache_extend now keys (set_failures (<[k := {| insertion_time := now; item_duration := delay; failure_count := count |}]> (failures c)) c)
  end.

Definition cache_remove (keys : list Key) (c : FailuresCache) : FailuresCache :=
  set_failures (foldl (λ m k, delete k m) (failures c) keys) c.

Definition cache_expire (k : Key) (c : FailuresCache) : FailuresCache :=
  set_failures (alter (λ i, {| insertion_time := insertion_time i; item_duration := 0; failure_count := failure_count i |}) k (failures c)) c.

(** Failures at the given times *)
Fixpoint fail_at (events : list (Z * list Key)) (c : FailuresCache) : outcome Empty_set FailuresCache :=
  match events with [] => Ret c | (now, keys) :: events => let! c := cache_extend now keys c in fail_at events c end.

Definition occurrences (k : Key) (keys : list Key) : Z := Z.of_nat (length (filter (λ k', k' = k) keys)).

(** The failures of a key that the cache counts, the first one included. *)
Definition failures_of (k : Key) (c : FailuresCache) : Z := match failures c !! k with Some i => failure_count i + 1 | None => 0 end.

Definition delay_after (c : FailuresCache) (count : Z) : Z := Z.min (Z.max (Z.min (Z.min (2 ^ count) u64_max * backoff_multiplier c) u64_max * SECOND) SECOND) (max_delay c).

Definition same_settings (c c' : FailuresCache) : Prop := max_delay c' = max_delay c ∧ backoff_multiplier c' = backoff_multiplier c.

Definition counted (c : FailuresCache) : Prop :=
  map_Forall (λ _ i, 0 <= failure_count i <= 255 ∧ item_duration i = delay_after c (failure_count i)) (failures c).

Lemma extend_counts now keys c :
  SECOND <= max_delay c → counted c →
  ∃ c', cache_extend now keys c = Ret c' ∧ same_settings c c' ∧ counted c' ∧
    ∀ k, failures_of k c' = Z.min (failures_of k c + occurrences k keys) 256.
Proof.
  revert c. induction keys as [|k keys IH]; intros c Hmax Hc; cbn [cache_extend].
  { exists c. split_and!; [done..|]. intros k. unfold occurrences, failures_of. cbn.
    destruct (failures c !! k) as [i|] eqn:Hi; [|lia]. destruct (Hc _ _ Hi). lia. }
  set (count := match failures c !! k with Some _ => _ | None => _ end). unfold calculate_delay. destruct (Z.ltb_spec (max_delay c) SECOND); [lia|].
  set (i := {| insertion_time := now; item_duration := _; failure_count := count |}). set (c1 := set_failures _ _).
  assert (0 <= count <= 255 ∧ count + 1 = Z.min (failures_of k c + 1) 256) as [Hcount Hcount'].
  { unfold count, failures_of. destruct (failures c !! k) as [o|] eqn:Ho; [destruct (Hc _ _ Ho)|]; lia. }
  destruct (IH c1) as (c' & Hc' & Hset & Hok & Hall); [done| |].
  { intros k' o. cbn. intros [[<- <-]|[_ Ho]]%lookup_insert_Some; [done|]. by apply (Hc k'). }
  exists c'. split_and!; [done..|]. intros k'. rewrite (Hall k'). unfold occurrences. rewrite filter_cons. destruct (decide (k = k')) as [<-|Hne].
  - assert (failures_of k c1 = count + 1) as -> by (unfold failures_of, c1; cbn; by rewrite lookup_insert_eq). cbn [length]. lia.
  - by assert (failures_of k' c1 = failures_of k' c) as -> by (unfold failures_of, c1; cbn; by rewrite lookup_insert_ne).
Qed.

(** Failures back off: a key that has failed [n] times since it was last removed, at any
    times and among any others, is held off from its last failure on for the multiplier
    times [2 ^ (n - 1)] seconds, at least one second and at most the greatest delay; the
    count stops at 256 failures. Nothing panics if the greatest delay is a second or more. *)
Theorem failures_back_off events c k :
  SECOND <= max_delay c → failures c = ∅ → 0 < occurrences k (concat events.*2) →
  ∃ c' i, fail_at events c = Ret c' ∧ failures c' !! k = Some i ∧
    failure_count i = Z.min (occurrences k (concat events.*2) - 1) 255 ∧ item_duration i = delay_after c (failure_count i).
Proof.
  intros Hmax Hc Hocc.
  assert (∃ c', fail_at events c = Ret c' ∧ same_settings c c' ∧ counted c' ∧
    failures_of k c' = Z.min (failures_of k c + occurrences k (concat events.*2)) 256) as (c' & Hc' & [Hs1 Hs2] & Hok & Hf).
  { assert (counted c) as Hok by (unfold counted; rewrite Hc; apply map_Forall_empty). clear Hc Hocc. revert c Hmax Hok.
    induction events as [|[now keys] events IH]; intros c Hmax Hok; cbn [fail_at fmap list_fmap concat snd].
    - exists c. split_and!; [done..|]. unfold occurrences, failures_of. cbn. destruct (failures c !! k) as [i|] eqn:Hi; [|lia]. destruct (Hok _ _ Hi). lia.
    - destruct (extend_counts now keys c Hmax Hok) as (c1 & -> & [Hm1 Hm2] & Hok1 & Hf1).
      destruct (IH c1) as (c2 & -> & [Hm1' Hm2'] & Hok2 & Hf2); [congruence|done|]. exists c2. split_and!; [done|split; congruence|done|].
      rewrite Hf2, Hf1. unfold occurrences. cbn. rewrite filter_app, length_app. unfold failures_of. destruct (failures c !! k) as [i|] eqn:Hi; [destruct (Hok _ _ Hi)|]; lia. }
  unfold failures_of in Hf. rewrite Hc, lookup_empty in Hf. destruct (failures c' !! k) as [i|] eqn:Hi; [|lia].
  exists c', i. destruct (Hok _ _ Hi) as [Hr Hd]. split_and!; [done..|lia|]. rewrite Hd. unfold delay_after. congruence.
Qed.

End cache.
