(* ===== verification/Bloom.v ===== *)
(** * Growable Bloom filters

    [crates/client-common/src/bloom_filter.rs]: a set of hashes that may say yes wrongly,
    but never no. A filter is a list of byte buffers that get larger; the items go to the
    last one. The hash function is the xxh3 of its crate, a parameter. The sizes are
    computed with floating-point logarithms: these are parameters too, with the facts
    about their results that the code relies on. Integers are kept at 64 bits; [debug]
    says whether the build checks arithmetic.

    The second half shows that a filter never forgets. *)

From Stdlib Require Import ZArith.
From S2P Require Import Prelude.
From stdpp Require Import ssreflect.

#[local] Open Scope Z_scope.

(** Floating-point numbers: whether a number is strictly between 0 and 1, the number of
    slices for an error ratio, [((1.0 / e).log2()).ceil() as u64], the bits of a slice for
    a capacity, [(capacity as f64 / 2f64.ln()).ceil() as u64], and the error ratio of the
    filter with a number, [e * tightening_ratio.powi(n)]. *)
Class Floats : Type := {
  f64 : Type;
  in_unit : f64 → bool;
  slices_of : f64 → Z;
  slice_bits_of : Z → Z;
  tightened : f64 → f64 → nat → f64;
  slices_of_unit e : in_unit e = true → 1 <= slices_of e < 2 ^ 64;
  slice_bits_of_positive c : 1 <= c → 1 <= slice_bits_of c < 2 ^ 64
}.

Definition u64 (x : Z) : Prop := 0 <= x < 2 ^ 64.
Definition wrap (x : Z) : Z := x mod 2 ^ 64.

(** An operation on 64 bits *)
Definition checked (debug : bool) (x : Z) : outcome Empty_set Z :=
  if (0 <=? x) && (x <? 2 ^ 64) then Ret x else if debug then Panic else Ret (wrap x).

(** ** One filter *)

Record Bloom := { buffer : list Z; num_slices : Z }.

Section bloom.
Context {floats : Floats} (debug : bool).

Definition bloom_new (capacity : Z) (error_ratio : f64) : outcome Empty_set Bloom :=
  if debug && negb ((1 <=? capacity) && in_unit error_ratio) then Panic
  else
    let num_slices := slices_of error_ratio in
    let slice_len_bits := slice_bits_of capacity in
    let! total_bits := checked debug (num_slices * slice_len_bits) in
    let buffer_bytes := (total_bits + 7) / 8 in
    if num_slices =? 0 then Panic else Ret {| buffer := replicate (Z.to_nat buffer_bytes) 0; num_slices := num_slices |}.

(** The positions of the bits of an item, as pairs of a byte and a mask. The arithmetic
    of [hi] does not overflow: it is smaller than the number of bits ([index_in_slice]). *)
Fixpoint indices (n : nat) (i h1 h2 slice_len : Z) : list (nat * Z) :=
  match n with
  | O => []
  | S n =>
      let hi := wrap (h1 mod slice_len + wrap (i * slice_len)) in
      (Z.to_nat (hi / 8), Z.shiftl 1 (hi mod 8)) :: indices n (i + 1) (wrap (h1 + h2)) (wrap (h2 + i)) slice_len
  end.

Definition index_iterator (b : Bloom) (h1 h2 : Z) : outcome Empty_set (list (nat * Z)) :=
  let! bits := checked debug (Z.of_nat (length (buffer b)) * 8) in
  let slice_len := bits / num_slices b in
  if slice_len =? 0 then Panic
  else if debug && (h2 =? 0) then Panic
  else Ret (indices (Z.to_nat (num_slices b)) 0 h1 h2 slice_len).

Fixpoint set_bits (positions : list (nat * Z)) (buf : list Z) : outcome Empty_set (list Z) :=
  match positions with
  | [] => Ret buf
  | (byte, mask) :: positions =>
      match buf !! byte with
      | Some x => set_bits positions (<[byte := Z.lor x mask]> buf)
      | None => Panic
      end
  end.

Definition bloom_insert (b : Bloom) (h1 h2 : Z) : outcome Empty_set Bloom :=
  let! positions := index_iterator b h1 h2 in
  let! buf := set_bits positions (buffer b) in
  Ret {| buffer := buf; num_slices := num_slices b |}.

Fixpoint all_set (positions : list (nat * Z)) (buf : list Z) : outcome Empty_set bool :=
  match positions with
  | [] => Ret true
  | (byte, mask) :: positions =>
      match buf !! byte with
      | Some x => if Z.land x mask =? 0 then Ret false else all_set positions buf
      | None => Panic
      end
  end.

Definition bloom_contains (b : Bloom) (h1 h2 : Z) : outcome Empty_set bool :=
  let! positions := index_iterator b h1 h2 in all_set positions (buffer b).

(** ** The growable filter *)

(** An item is what is fed to the hasher; [digest2] is its digest after one more byte. *)
Context {Item : Type} (digest digest2 : Item → Z).

Definition double_hashing_hashes (item : Item) : Z * Z := (digest item, Z.max (digest2 item) 1).

Record GrowableBloom := {
  blooms : list Bloom; desired_error_prob : f64; est_insertions : Z; inserts : Z; capacity : Z; growth_factor : Z; tightening_ratio : f64
}.

Definition new_with_internals (desired_error_prob : f64) (est_insertions growth_factor : Z) (tightening_ratio : f64) : outcome Empty_set GrowableBloom :=
  if negb (in_unit desired_error_prob) then Panic
  else if negb (1 <? growth_factor) then Panic
  else Ret {| blooms := []; desired_error_prob := desired_error_prob; est_insertions := est_insertions; inserts := 0; capacity := 0;
              growth_factor := growth_factor; tightening_ratio := tightening_ratio |}.

(** [any] stops at the first filter that has the item. *)
Fixpoint any_contains (bs : list Bloom) (h1 h2 : Z) : outcome Empty_set bool :=
  match bs with
  | [] => Ret false
  | b :: bs => let! found := bloom_contains b h1 h2 in if found : bool then Ret true else any_contains bs h1 h2
  end.

Definition contains (item : Item) (f : GrowableBloom) : outcome Empty_set bool :=
  let '(h1, h2) := double_hashing_hashes item in any_contains (blooms f) h1 h2.

(** [usize::pow] *)
Definition pow (base : Z) (n : nat) : outcome Empty_set Z := checked debug (base ^ Z.of_nat n).

Definition grow (f : GrowableBloom) : outcome Empty_set GrowableBloom :=
  let error_ratio := tightened (desired_error_prob f) (tightening_ratio f) (length (blooms f)) in
  let! factor := pow (growth_factor f) (length (blooms f)) in
  let! new_capacity := checked debug (est_insertions f * factor) in
  let! new_bloom := bloom_new new_capacity error_ratio in
  let! total := checked debug (capacity f + new_capacity) in
  Ret {| blooms := blooms f ++ [new_bloom]; desired_error_prob := desired_error_prob f; est_insertions := est_insertions f; inserts := inserts f;
         capacity := total; growth_factor := growth_factor f; tightening_ratio := tightening_ratio f |}.

Definition set_last (b : Bloom) (n : Z) (f : GrowableBloom) : GrowableBloom :=
  {| blooms := <[pred (length (blooms f)) := b]> (blooms f); desired_error_prob := desired_error_prob f; est_insertions := est_insertions f; inserts := n;
     capacity := capacity f; growth_factor := growth_factor f; tightening_ratio := tightening_ratio f |}.

Definition insert (item : Item) (f : GrowableBloom) : outcome Empty_set (bool * GrowableBloom) :=
  let '(h1, h2) := double_hashing_hashes item in
  let! found := any_contains (blooms f) h1 h2 in
  if found : bool then Ret (false, f)
  else
    let! f := if capacity f <=? inserts f then grow f else Ret f in
    let! n := checked debug (inserts f + 1) in
    match last (blooms f) with
    | Some curr_bloom => let! b := bloom_insert curr_bloom h1 h2 in Ret (true, set_last b n f)
    | None => Panic
    end.

Definition check_and_set (item : Item) (f : GrowableBloom) : outcome Empty_set (bool * GrowableBloom) :=
  let! (inserted, f) := insert item f in Ret (negb inserted, f).

Definition bloom_clear (f : GrowableBloom) : GrowableBloom :=
  {| blooms := []; desired_error_prob := desired_error_prob f; est_insertions := est_insertions f; inserts := 0; capacity := 0;
     growth_factor := growth_factor f; tightening_ratio := tightening_ratio f |}.

End bloom.

(** ** A growable Bloom filter never forgets

    An item that was inserted is found, in every filter that is not cleared, however often
    it has grown; no access is out of bounds, and the answer of [insert] is whether the
    item was not found before. *)

#[local] Open Scope Z_scope.

Section spec.
Context {floats : Floats} (debug : bool).

(** ** Bits *)

Lemma land_lor_same x m : Z.land (Z.lor x m) m = m.
Proof. apply Z.bits_inj'. intros n _. rewrite Z.land_spec Z.lor_spec. by destruct (Z.testbit x n), (Z.testbit m n). Qed.

Lemma land_lor_mono x m m' : Z.land x m ≠ 0 → Z.land (Z.lor x m') m ≠ 0.
Proof. intros Hx. rewrite Z.land_lor_distr_l. intros [? _]%Z.lor_eq_0_iff. done. Qed.

(** The positions are bytes of the buffer, and each mask is one bit. *)
Definition in_buffer (positions : list (nat * Z)) (buf : list Z) : Prop :=
  Forall (λ '(byte, mask), (byte < length buf)%nat ∧ mask ≠ 0) positions.

Definition has (positions : list (nat * Z)) (buf : list Z) : Prop :=
  Forall (λ '(byte, mask), ∃ x, buf !! byte = Some x ∧ Z.land x mask ≠ 0) positions.

Lemma all_set_spec positions buf :
  in_buffer positions buf → ∃ b, all_set positions buf = Ret b ∧ (b = true ↔ has positions buf).
Proof.
  induction 1 as [|[byte mask] positions [Hb _] _ (b & IH & Hiff)]; simpl.
  { exists true. split; [done|]. split; [constructor|done]. }
  destruct (lookup_lt_is_Some_2 buf byte Hb) as [x Hx]. rewrite Hx. destruct (Z.eqb_spec (Z.land x mask) 0) as [Hz|Hz].
  - exists false. split; [done|]. split; [done|]. intros [(x' & ? & ?) _]%Forall_cons_1. congruence.
  - exists b. split; [done|]. rewrite Hiff /has Forall_cons. naive_solver.
Qed.

Lemma set_bits_spec positions buf :
  in_buffer positions buf →
  ∃ buf', set_bits positions buf = Ret buf' ∧ length buf' = length buf ∧ has positions buf' ∧
    ∀ positions', has positions' buf → has positions' buf'.
Proof.
  revert buf. induction positions as [|[byte mask] positions IH]; intros buf; simpl.
  { intros _. exists buf. split_and!; [done..|constructor|done]. }
  rewrite /in_buffer Forall_cons. intros [[Hb Hm] Hin]. destruct (lookup_lt_is_Some_2 buf byte Hb) as [x Hx]. rewrite Hx.
  destruct (IH (<[byte := Z.lor x mask]> buf)) as (buf' & -> & Hlen & Hhas & Hmono).
  { eapply Forall_impl; [done|]. intros [byte' mask'] [? ?]. by rewrite length_insert. }
  assert (has [(byte, mask)] (<[byte := Z.lor x mask]> buf)) as Hnew.
  { constructor; [|constructor]. exists (Z.lor x mask). split; [by apply list_lookup_insert_eq|]. by rewrite land_lor_same. }
  assert (∀ positions', has positions' buf → has positions' (<[byte := Z.lor x mask]> buf)) as Hstep.
  { intros positions' Hp. eapply Forall_impl; [done|]. intros [byte' mask'] (y & Hy & Hland). destruct (decide (byte = byte')) as [<-|Hne].
    - exists (Z.lor x mask). split; [by apply list_lookup_insert_eq|]. simplify_eq. by apply land_lor_mono.
    - exists y. by rewrite list_lookup_insert_ne. }
  exists buf'. split_and!; [done|by rewrite Hlen length_insert| |by auto].
  constructor; [|done]. apply Hmono in Hnew. by apply Forall_cons_1 in Hnew as [? _].
Qed.

(** ** One filter *)

Definition bits_of (b : Bloom) : Z := Z.of_nat (length (buffer b)) * 8.

Definition bloom_ok (b : Bloom) : Prop := 1 <= num_slices b <= bits_of b ∧ bits_of b < 2 ^ 64.

(** The bit of slice [i] is one of the bits of the slice. *)
Lemma index_in_slice h slice_len i n :
  0 < slice_len → 0 <= i < n → n * slice_len < 2 ^ 64 → 0 <= h →
  0 <= wrap (h mod slice_len + wrap (i * slice_len)) < n * slice_len.
Proof.
  intros Hl Hi Hn Hh. pose proof (Z.mod_pos_bound h slice_len Hl). assert (0 <= i * slice_len) by nia.
  assert (i * slice_len + slice_len <= n * slice_len) by nia. rewrite /wrap (Z.mod_small (i * slice_len)); [|lia].
  rewrite Z.mod_small; lia.
Qed.

Lemma indices_in_buffer n i h1 h2 slice_len buf total :
  0 < slice_len → 0 <= i → i + Z.of_nat n <= total → total * slice_len <= Z.of_nat (length buf) * 8 → Z.of_nat (length buf) * 8 < 2 ^ 64 → 0 <= h1 →
  in_buffer (indices n i h1 h2 slice_len) buf.
Proof.
  intros Hl. revert i h1 h2. induction n as [|n IH]; intros i h1 h2 Hi Hn Htot Hlen Hh1; simpl; constructor.
  - pose proof (index_in_slice h1 slice_len i total Hl ltac:(lia) ltac:(lia) Hh1) as Hidx.
    set (hi := wrap _) in *. split.
    + apply Nat2Z.inj_lt. rewrite Z2Nat.id; [|apply Z.div_pos; lia]. apply Z.div_lt_upper_bound; lia.
    + rewrite Z.shiftl_eq_0_iff; [|apply Z.mod_pos_bound; lia]. lia.
  - apply IH; try lia. apply Z.mod_pos_bound. lia.
Qed.

Lemma index_iterator_spec b h1 h2 :
  bloom_ok b → 0 <= h1 → h2 ≠ 0 → ∃ positions, index_iterator debug b h1 h2 = Ret positions ∧ in_buffer positions (buffer b) ∧
    ∀ b', length (buffer b') = length (buffer b) → num_slices b' = num_slices b → index_iterator debug b' h1 h2 = Ret positions.
Proof.
  intros [Hs Hb] Hh1 Hh2. rewrite /index_iterator. fold (bits_of b).
  assert (checked debug (bits_of b) = Ret (bits_of b)) as Hc.
  { rewrite /checked. by destruct (Z.leb_spec 0 (bits_of b)), (Z.ltb_spec (bits_of b) (2 ^ 64)); [|lia..]. }
  assert (1 <= bits_of b / num_slices b) as Hl by (apply Z.div_le_lower_bound; lia).
  assert (num_slices b * (bits_of b / num_slices b) <= bits_of b) as Hle by (apply Z.mul_div_le; lia).
  eexists. rewrite Hc /=. destruct (Z.eqb_spec (bits_of b / num_slices b) 0); [lia|]. destruct (Z.eqb_spec h2 0); [done|].
  rewrite andb_false_r. split_and!; [done| |].
  - apply (indices_in_buffer _ _ _ _ _ _ (num_slices b)); try done; unfold bits_of in *; lia.
  - intros b' Hlen Hn. rewrite Hlen Hn. fold (bits_of b). rewrite Hc /=. destruct (Z.eqb_spec (bits_of b / num_slices b) 0); [lia|].
    by rewrite ?andb_false_r.
Qed.

Definition finds (b : Bloom) (h1 h2 : Z) : Prop := bloom_contains debug b h1 h2 = Ret true.

Lemma bloom_contains_spec b h1 h2 : bloom_ok b → 0 <= h1 → h2 ≠ 0 → ∃ r, bloom_contains debug b h1 h2 = Ret r.
Proof.
  intros Hb H1 H2. rewrite /bloom_contains. destruct (index_iterator_spec b h1 h2 Hb H1 H2) as (ps & -> & Hin & _).
  destruct (all_set_spec _ _ Hin) as (r & ? & _). eauto.
Qed.

Lemma bloom_insert_spec b h1 h2 :
  bloom_ok b → 0 <= h1 → h2 ≠ 0 →
  ∃ b', bloom_insert debug b h1 h2 = Ret b' ∧ bloom_ok b' ∧ finds b' h1 h2 ∧
    ∀ k1 k2, 0 <= k1 → k2 ≠ 0 → finds b k1 k2 → finds b' k1 k2.
Proof.
  intros Hb H1 H2. rewrite /bloom_insert. destruct (index_iterator_spec b h1 h2 Hb H1 H2) as (ps & -> & Hin & Hsame).
  destruct (set_bits_spec _ _ Hin) as (buf & Hbuf & Hlen & Hhas & Hmono). rewrite /= Hbuf /=. eexists. split; [done|].
  set (b' := {| buffer := buf; num_slices := num_slices b |}). assert (∀ ps', in_buffer ps' (buffer b) → in_buffer ps' buf) as Hbuf'.
  { intros ps' Hps. eapply Forall_impl; [done|]. intros [? ?]. by rewrite Hlen. }
  split_and!.
  - by rewrite /bloom_ok /bits_of /= Hlen.
  - rewrite /finds /bloom_contains (Hsame b') //=. destruct (all_set_spec ps buf) as (r & -> & Hr); [by apply Hbuf'|]. f_equal. by apply Hr.
  - intros k1 k2 Hk1 Hk2. rewrite /finds /bloom_contains. destruct (index_iterator_spec b k1 k2 Hb Hk1 Hk2) as (qs & Hqs & Hin' & Hsame').
    rewrite Hqs (Hsame' b') //=. destruct (all_set_spec qs _ Hin') as (r & -> & Hr). destruct (all_set_spec qs buf) as (r' & -> & Hr'); [by apply Hbuf'|].
    intros [= ->]. f_equal. apply Hr', Hmono. by apply Hr.
Qed.

Lemma any_contains_spec bs h1 h2 :
  Forall bloom_ok bs → 0 <= h1 → h2 ≠ 0 → ∃ r, any_contains debug bs h1 h2 = Ret r ∧ (r = true ↔ Exists (λ b, finds b h1 h2) bs).
Proof.
  intros Hbs H1 H2. induction Hbs as [|b bs Hb _ (r & IH & Hr)]; simpl.
  { exists false. split; [done|]. rewrite Exists_nil. naive_solver. }
  destruct (bloom_contains_spec b h1 h2 Hb H1 H2) as [[] Hc]; rewrite Hc /=.
  - exists true. split; [done|]. rewrite Exists_cons. naive_solver.
  - exists r. split; [done|]. rewrite Hr Exists_cons {2}/finds Hc. split; [by right|]. by intros [?|?].
Qed.

Lemma bloom_new_spec c e :
  1 <= c → in_unit e = true → slices_of e * slice_bits_of c + 7 < 2 ^ 64 → ∃ b, bloom_new debug c e = Ret b ∧ bloom_ok b.
Proof.
  intros Hc He Hfit. rewrite /bloom_new. destruct (Z.leb_spec 1 c); [|lia]. rewrite He andb_false_r.
  pose proof (slices_of_unit e He). pose proof (slice_bits_of_positive c Hc).
  assert (slices_of e <= slices_of e * slice_bits_of c) by nia.
  assert (checked debug (slices_of e * slice_bits_of c) = Ret (slices_of e * slice_bits_of c)) as ->.
  { rewrite /checked. by destruct (Z.leb_spec 0 (slices_of e * slice_bits_of c)), (Z.ltb_spec (slices_of e * slice_bits_of c) (2 ^ 64)); [|lia..]. }
  simpl. destruct (Z.eqb_spec (slices_of e) 0); [lia|]. eexists. split; [done|].
  set (total := slices_of e * slice_bits_of c) in *. pose proof (Z.mul_div_le (total + 7) 8 ltac:(lia)).
  pose proof (Z.mul_succ_div_gt (total + 7) 8 ltac:(lia)).
  rewrite /bloom_ok /bits_of /= length_replicate Z2Nat.id; [lia|]. apply Z.div_pos; lia.
Qed.

(** ** The growable filter *)

Context {Item : Type} (digest digest2 : Item → Z) (digest_u64 : ∀ x, 0 <= digest x).
Context (e t : f64) (est g : Z).

(** The items that the first [k] filters are made for. *)
Fixpoint total_capacity (k : nat) : Z := match k with O => 0 | S k => total_capacity k + est * g ^ Z.of_nat k end.

(** The sizes of filter [k] fit 64 bits. *)
Definition fits (k : nat) : Prop :=
  in_unit (tightened e t k) = true ∧ slices_of (tightened e t k) * slice_bits_of (est * g ^ Z.of_nat k) + 7 < 2 ^ 64 ∧ total_capacity (S k) < 2 ^ 64.

Record filter_ok (n : Z) (f : GrowableBloom) : Prop := {
  blooms_ok : Forall bloom_ok (blooms f);
  same_parameters : desired_error_prob f = e ∧ tightening_ratio f = t ∧ est_insertions f = est ∧ growth_factor f = g;
  capacity_total : capacity f = total_capacity (length (blooms f));
  inserts_counted : 0 <= inserts f <= n
}.

Context (Hest : 1 <= est) (Hg : 1 < g).

Lemma power_positive k : 1 <= g ^ Z.of_nat k.
Proof. pose proof (Z.pow_pos_nonneg g (Z.of_nat k)). lia. Qed.

Lemma total_nonneg k : 0 <= total_capacity k.
Proof. induction k; simpl; [lia|]. pose proof (power_positive k). nia. Qed.

Lemma checked_ok x : 0 <= x < 2 ^ 64 → checked debug x = Ret x.
Proof. intros Hx. rewrite /checked. by destruct (Z.leb_spec 0 x), (Z.ltb_spec x (2 ^ 64)); [|lia..]. Qed.

Lemma grow_spec n f :
  filter_ok n f → fits (length (blooms f)) →
  ∃ f' b, grow debug f = Ret f' ∧ filter_ok n f' ∧ blooms f' = blooms f ++ [b] ∧ inserts f' = inserts f.
Proof.
  intros Hf (Hunit & Hbits & Htot). destruct (same_parameters _ _ Hf) as (He & Ht & Hes & Hgr). rewrite /grow He Ht Hes Hgr /pow.
  set (k := length (blooms f)) in *. pose proof (power_positive k). pose proof (total_nonneg k). simpl in Htot.
  assert (g ^ Z.of_nat k <= est * g ^ Z.of_nat k) by nia. rewrite checked_ok; [|lia]. simpl. rewrite checked_ok; [|lia]. simpl.
  destruct (bloom_new_spec (est * g ^ Z.of_nat k) (tightened e t k)) as (b & -> & Hb); [lia|done..|]. simpl.
  rewrite (capacity_total _ _ Hf). fold k. rewrite checked_ok; [|lia]. eexists _, b. split; [done|]. split_and!; [|done..].
  split; simpl; [|done| |apply Hf].
  - apply Forall_app. split; [apply Hf|by constructor].
  - rewrite length_app /= Nat.add_1_r. done.
Qed.

Lemma set_last_spec bs (b b' : Bloom) : last bs = Some b → ∃ l, bs = l ++ [b] ∧ <[pred (length bs) := b']> bs = l ++ [b'].
Proof.
  intros (l & ->)%last_Some. exists l. split; [done|]. rewrite length_app Nat.add_1_r /=. rewrite insert_app_r_alt // Nat.sub_diag. done.
Qed.

Definition found (x : Item) (bs : list Bloom) : Prop := Exists (λ b, finds b (digest x) (Z.max (digest2 x) 1)) bs.

Lemma contains_spec x bs :
  Forall bloom_ok bs → ∃ r, any_contains debug bs (digest x) (Z.max (digest2 x) 1) = Ret r ∧ (r = true ↔ found x bs).
Proof using digest_u64. intros Hbs. apply any_contains_spec; [done|done|lia]. Qed.

(** The item goes to the last of the filters. *)
Lemma insert_last n f x :
  filter_ok n f → blooms f ≠ [] → 0 <= inserts f + 1 < 2 ^ 64 → inserts f + 1 <= n →
  ∃ b f', last (blooms f) = Some b ∧
    (let! m := checked debug (inserts f + 1) in let! b' := bloom_insert debug b (digest x) (Z.max (digest2 x) 1) in Ret (true, set_last b' m f)) = Ret (true, f') ∧
    filter_ok n f' ∧ found x (blooms f') ∧ ∀ y, found y (blooms f) → found y (blooms f').
Proof using digest_u64.
  intros Hf Hne Hi Hn. destruct (last (blooms f)) as [b|] eqn:Hlast; [|by apply last_None in Hlast]. exists b.
  assert (bloom_ok b) as Hb.
  { apply last_Some in Hlast as [l Hl]. pose proof (blooms_ok _ _ Hf) as Hok. rewrite Hl in Hok. apply Forall_app in Hok as [_ Hb]. by apply Forall_cons_1 in Hb as [? _]. }
  rewrite checked_ok //=. destruct (bloom_insert_spec b (digest x) (Z.max (digest2 x) 1) Hb) as (b' & -> & Hb' & Hx & Hmono); [done|lia|].
  eexists. split_and!; [done..| | |].
  all: destruct (set_last_spec _ _ b' Hlast) as (l & Hl & Hl'); rewrite /set_last Hl' /=.
  - pose proof (blooms_ok _ _ Hf) as Hok. pose proof (capacity_total _ _ Hf) as Hcap. rewrite Hl in Hok, Hcap.
    apply Forall_app in Hok as [Hok _]. split; simpl; [|apply Hf| |lia].
    + apply Forall_app. split; [done|by constructor].
    + rewrite Hcap !length_app. done.
  - apply Exists_app. right. by constructor.
  - intros y. rewrite Hl /found !Exists_app !Exists_cons !Exists_nil. intros [?|[Hy|[]]]; [by left|right; left].
    apply Hmono; [done|lia|done].
Qed.

Lemma insert_spec n f x :
  filter_ok n f → (∀ k, total_capacity k <= n → fits k) → n + 1 < 2 ^ 64 →
  ∃ new f', insert debug digest digest2 x f = Ret (new, f') ∧ filter_ok (n + 1) f' ∧ found x (blooms f') ∧
    (new = true ↔ ¬ found x (blooms f)) ∧ ∀ y, found y (blooms f) → found y (blooms f').
Proof using digest_u64 Hest Hg.
  intros Hf Hfits Hn. pose proof (inserts_counted _ _ Hf) as Hi.
  assert (∀ f, filter_ok n f → filter_ok (n + 1) f) as Hup by (intros f0 Hf0; destruct Hf0; split; [done..|lia]).
  rewrite /insert /=. destruct (contains_spec x (blooms f) (blooms_ok _ _ Hf)) as (r & -> & Hr). simpl.
  destruct r; [exists false, f; split_and!; [done|by apply Hup|by apply Hr|naive_solver|done]|].
  assert (∃ f1 bs, (if capacity f <=? inserts f then grow debug f else Ret f) = Ret f1 ∧ filter_ok n f1 ∧ blooms f1 = blooms f ++ bs ∧
    blooms f1 ≠ [] ∧ inserts f1 = inserts f) as (f1 & bs & -> & Hf1 & Hbs & Hne & Hi1).
  { destruct (Z.leb_spec (capacity f) (inserts f)) as [Hle|Hlt].
    - destruct (grow_spec n f Hf) as (f1 & b & ? & ? & Hb & ?); [apply Hfits; rewrite -(capacity_total _ _ Hf); lia|].
      exists f1, [b]. split_and!; [done..|by rewrite Hb; destruct (blooms f)|done].
    - exists f, []. rewrite app_nil_r. split_and!; [done..| |done]. intros Hnil. rewrite (capacity_total _ _ Hf) Hnil /= in Hlt. lia. }
  simpl. destruct (insert_last (n + 1) f1 x) as (b & f' & Hlast & Hins & Hf' & Hx & Hmono); [by apply Hup|done|lia|lia|].
  rewrite Hlast. exists true, f'. split_and!; [|done|done|naive_solver|].
  - destruct (checked debug (inserts f1 + 1)); simpl in *; done.
  - intros y Hy. apply Hmono. rewrite Hbs. apply Exists_app. by left.
Qed.

Fixpoint insert_all (items : list Item) (f : GrowableBloom) : outcome Empty_set GrowableBloom :=
  match items with [] => Ret f | x :: items => let! (_, f) := insert debug digest digest2 x f in insert_all items f end.

Lemma insert_all_spec items n f :
  filter_ok n f → 0 <= n → n + Z.of_nat (length items) < 2 ^ 64 → (∀ k, total_capacity k <= n + Z.of_nat (length items) → fits k) →
  ∃ f', insert_all items f = Ret f' ∧ filter_ok (n + Z.of_nat (length items)) f' ∧
    ∀ y, y ∈ items ∨ found y (blooms f) → found y (blooms f').
Proof using digest_u64 Hest Hg.
  revert n f. induction items as [|x items IH]; intros n f Hf Hn Hlen Hfits; cbn [insert_all length].
  { exists f. rewrite Z.add_0_r. split_and!; [done..|]. intros y [?%elem_of_nil|?]; done. }
  destruct (insert_spec n f x) as (new & f1 & -> & Hf1 & Hx & _ & Hmono); [done|intros; apply Hfits; lia|cbn [length] in Hlen; lia|]. simpl.
  cbn [length] in Hlen, Hfits. destruct (IH (n + 1) f1) as (f' & -> & Hf' & Hall); [done|lia|lia|intros; apply Hfits; lia|].
  exists f'. split_and!; [done| |].
  - by replace (n + Z.of_nat (S (length items))) with (n + 1 + Z.of_nat (length items)) by lia.
  - intros y [[->|?]%elem_of_cons|?]; apply Hall; auto.
Qed.

(** A filter never forgets: after any items have been inserted into a new filter,
    whose sizes fit 64 bits as far as it grows for that many items, every one of them is
    found, and every look-up returns. Nothing panics on the way: no byte is looked up
    outside its buffer and no arithmetic overflows. *)
Theorem bloom_never_forgets items f :
  new_with_internals e est g t = Ret f → Z.of_nat (length items) < 2 ^ 64 → (∀ k, total_capacity k <= Z.of_nat (length items) → fits k) →
  ∃ f', insert_all items f = Ret f' ∧
    (∀ x, x ∈ items → contains debug digest digest2 x f' = Ret true) ∧ (∀ y, ∃ r, contains debug digest digest2 y f' = Ret r).
Proof using digest_u64 Hest Hg.
  rewrite /new_with_internals. do 2 (case_match; [done|]). intros [= <-] Hlen Hfits.
  destruct (insert_all_spec items 0 {| blooms := []; desired_error_prob := e; est_insertions := est; inserts := 0; capacity := 0;
    growth_factor := g; tightening_ratio := t |}) as (f' & -> & Hf' & Hall); [by split|lia|lia|intros; apply Hfits; lia|].
  exists f'. split_and!; [done| |]; intros y *; rewrite /contains /=; destruct (contains_spec y (blooms f') (blooms_ok _ _ Hf')) as (r & -> & Hr); [|eauto].
  intros Hy. f_equal. apply Hr, Hall. by left.
Qed.

End spec.

(** ** An example *)

(** Sizes without logarithms. *)
#[export] Program Instance plain_floats : Floats := {|
  f64 := unit; in_unit _ := true; slices_of _ := 3; slice_bits_of c := Z.min (2 * c) (2 ^ 64 - 1); tightened _ _ _ := ()
|}.
Next Obligation. intros ? _. lia. Qed.
Next Obligation. intros c Hc. cbn -[Z.pow]. lia. Qed.

Definition no_ratio : f64 := ().

Lemma sample_fits k : total_capacity 1 2 k <= 5 → fits no_ratio no_ratio 1 2 k.
Proof.
  destruct k as [|[|[|k]]]; [intros _; split_and!; [done|by vm_compute..]..|]. intros Hle. exfalso. revert Hle. cbn [total_capacity].
  pose proof (total_nonneg 1 2 ltac:(lia) ltac:(lia) k). pose proof (power_positive 2 ltac:(lia) k).
  rewrite !Nat2Z.inj_succ !Z.pow_succ_r; lia.
Qed.

Lemma bloom_never_forgets_witness :
  ∃ f f', new_with_internals no_ratio 1 2 no_ratio = Ret f ∧ insert_all true (λ x, Z.abs (7 * x)) (λ x, x) [1; 2; 3; 2; 5] f = Ret f' ∧
    contains true (λ x, Z.abs (7 * x)) (λ x, x) 2 f' = Ret true.
Proof.
  destruct (new_with_internals no_ratio 1 2 no_ratio) as [f| | |] eqn:E; [|done..].
  destruct (bloom_never_forgets true (λ x, Z.abs (7 * x)) (λ x, x) (λ x, Z.abs_nonneg (7 * x)) no_ratio no_ratio 1 2 ltac:(lia) ltac:(lia) [1; 2; 3; 2; 5] f E ltac:(by vm_compute) sample_fits)
    as (f' & Hf' & Hin & _).
  exists f, f'. split_and!; [done..|]. apply Hin. set_solver.
Defined.
