(* ===== verification/Cipher.v ===== *)
(** * The cipher of Olm and Megolm

    [crates/common-olm/src/cipher] and the byte helpers of [utilities/mod.rs]: the
    expansion of a message key, encryption, authentication codes, encrypted pickles
    and variable-length integers. HMAC, HKDF, AES, Ed25519, base64 and serde_json
    are parameters, with the documented laws the code relies on. The feature
    [experimental-session-config], which adds untruncated codes, is enabled. *)

From S2P Require Import Prelude Bytes.

(** ** The primitives *)

Class Primitives : Type := {
  (** [Hmac<Sha256>], of a key and a message *)
  hmac_sha256 : bytes → bytes → bytes;
  length_hmac key message : length (hmac_sha256 key message) = 32;
  (** [Hkdf<Sha256>]: salt, input key, info and length *)
  hkdf_sha256 : bytes → bytes → bytes → nat → bytes;
  length_hkdf salt ikm info n : n <= 255 * 32 → length (hkdf_sha256 salt ikm info n) = n;
  (** AES-256 in CBC mode with PKCS#7 padding: key, initialization vector *)
  aes_encrypt : bytes → bytes → bytes → bytes;
  aes_decrypt : bytes → bytes → bytes → option bytes;
  length_aes_encrypt key iv plaintext : length (aes_encrypt key iv plaintext) = 16 * (length plaintext / 16 + 1);
  aes_inverse key iv plaintext :
    length key = 32 → length iv = 16 → aes_decrypt key iv (aes_encrypt key iv plaintext) = Some plaintext
}.

(** [ed25519_dalek]: signing keys, verifying keys and signatures *)
Class Ed25519 : Type := {
  SigningKey : Type;
  VerifyingKey : Type;
  Signature : Type;
  VerifyingKey_eq_dec :: EqDecision VerifyingKey;
  verifying_key : SigningKey → VerifyingKey;
  ed_sign : SigningKey → bytes → Signature;
  ed_verify : VerifyingKey → bytes → Signature → bool;
  ed_verify_sign key message : ed_verify (verifying_key key) message (ed_sign key message) = true;
  key_bytes : VerifyingKey → bytes;
  key_from_bytes : bytes → option VerifyingKey;
  length_key_bytes key : length (key_bytes key) = 32;
  key_from_to_bytes key : key_from_bytes (key_bytes key) = Some key;
  signature_bytes : Signature → bytes;
  signature_from_slice : bytes → option Signature;
  length_signature_bytes sig : length (signature_bytes sig) = 64;
  signature_from_to_bytes sig : signature_from_slice (signature_bytes sig) = Some sig;
  signature_of_length bs : length bs = 64 → is_Some (signature_from_slice bs)
}.

(** The base64 engine of [utilities/mod.rs], and [Base64Unpadded] *)
Class Base64 : Type := {
  base64_encode : bytes → string;
  base64_decode : string → option bytes;
  base64_round_trip bs : base64_decode (base64_encode bs) = Some bs
}.

(** ** Authentication codes *)

Definition MAC_LENGTH : nat := 32.
Definition TRUNCATED_LEN : nat := 8.

Definition truncate (mac : bytes) : bytes := take TRUNCATED_LEN mac.

Inductive MessageMac :=
| Truncated (mac : bytes)
| Full (mac : bytes).

Definition mac_bytes (m : MessageMac) : bytes := match m with Truncated m | Full m => m end.

(** [extract_mac]; [slice] has at least the bytes of the code *)
Definition extract_mac (slice : bytes) (truncated : bool) : MessageMac :=
  if truncated then Truncated (take TRUNCATED_LEN slice) else Full (take MAC_LENGTH slice).

Inductive CipherError := CipherInvalidPadding | CipherInvalidMac | MacMissing.

(** ** Keys *)

Record CipherKeys := { aes_key : bytes; aes_iv : bytes; mac_key : bytes }.

Section cipher.
Context `{!Primitives}.

(** The bytes of an ASCII literal. *)
Definition literal (s : string) : bytes := (λ a, byte_of (Z.of_nat (nat_of_ascii a))) <$> String.list_ascii_of_string s.

(** [ExpandedKeys::new_helper] *)
Definition expanded_keys (message_key info : bytes) : bytes := hkdf_sha256 [x00] message_key info 80.

Definition from_expanded_keys (expanded : bytes) : CipherKeys :=
  {| aes_key := take 32 expanded; mac_key := take 32 (drop 32 expanded); aes_iv := take 16 (drop 64 expanded) |}.

Definition new_cipher (key : bytes) : CipherKeys := from_expanded_keys (expanded_keys key (literal "OLM_KEYS")).
Definition new_megolm (key : bytes) : CipherKeys := from_expanded_keys (expanded_keys key (literal "MEGOLM_KEYS")).
Definition new_pickle (key : bytes) : CipherKeys := from_expanded_keys (expanded_keys key (literal "Pickle")).

(** ** Operations *)

Definition encrypt (c : CipherKeys) (plaintext : bytes) : bytes := aes_encrypt (aes_key c) (aes_iv c) plaintext.

Definition mac (c : CipherKeys) (message : bytes) : bytes := hmac_sha256 (mac_key c) message.

(** [None]: the padding is invalid *)
Definition decrypt (c : CipherKeys) (ciphertext : bytes) : option bytes := aes_decrypt (aes_key c) (aes_iv c) ciphertext.

Definition verify_mac (c : CipherKeys) (message tag : bytes) : bool := bool_decide (mac c message = tag).

(** [verify_truncated_left]: an empty or overlong tag is refused *)
Definition verify_truncated_mac (c : CipherKeys) (message tag : bytes) : bool :=
  bool_decide (tag ≠ []) && (length tag <=? MAC_LENGTH) && bool_decide (take (length tag) (mac c message) = tag).

Definition encrypt_pickle (c : CipherKeys) (plaintext : bytes) : bytes :=
  let ciphertext := encrypt c plaintext in
  ciphertext ++ truncate (mac c ciphertext).

Definition decrypt_pickle (c : CipherKeys) (ciphertext : bytes) : result CipherError bytes :=
  if length ciphertext <? TRUNCATED_LEN + 1 then Err MacMissing
  else
    let n := length ciphertext - TRUNCATED_LEN in
    if verify_truncated_mac c (take n ciphertext) (drop n ciphertext) then
      match decrypt c (take n ciphertext) with Some plaintext => Ok plaintext | None => Err CipherInvalidPadding end
    else Err CipherInvalidMac.

End cipher.

(** ** Pickles *)

(** serde_json on a pickled type, whose values are those of [A] that are [ok] *)
Class Pickled (A : Type) (ok : A → Prop) : Type := {
  to_json : A → bytes;
  from_json : bytes → option A;
  json_round_trip x : ok x → from_json (to_json x) = Some x
}.

Inductive PickleError :=
| PickleBase64
| PickleDecryption (e : CipherError)
| PickleSerialization.

Definition pickle `{!Primitives, !Base64, !Pickled A ok} (thing : A) (pickle_key : bytes) : string :=
  base64_encode (encrypt_pickle (new_pickle pickle_key) (to_json thing)).

Definition unpickle `{!Primitives, !Base64, !Pickled A ok} (ciphertext : string) (pickle_key : bytes) : result PickleError A :=
  match base64_decode ciphertext with
  | None => Err PickleBase64
  | Some decoded =>
      match decrypt_pickle (new_pickle pickle_key) decoded with
      | Err e => Err (PickleDecryption e)
      | Ok plaintext => match from_json plaintext with Some thing => Ok thing | None => Err PickleSerialization end
      end
  end.

(** ** Variable-length integers *)

Definition MSB : Z := 0x80.

(** The loop of [required_encoded_space_unsigned]; a turn drops seven bits, so ten
    turns are enough for 64 bits. *)
Fixpoint encoded_space_from (turns : nat) (v : Z) : nat :=
  match turns with
  | 0 => 0
  | S turns => if (0 <? v)%Z then S (encoded_space_from turns (Z.shiftr v 7)) else 0
  end.

Definition required_encoded_space_unsigned (v : Z) : nat :=
  if (v =? 0)%Z then 1 else encoded_space_from 10 v.

(** [v[i] = b], with its panic *)
Definition write_byte (v : bytes) (i : nat) (b : Byte.byte) : outcome Empty_set bytes :=
  if i <? length v then Ret (<[i := b]> v) else Panic.

(** The loop of [to_var_int] *)
Fixpoint write_var_int (turns : nat) (v : bytes) (i : nat) (n : Z) : outcome Empty_set bytes :=
  match turns with
  | 0 => OutOfFuel
  | S turns =>
      if (0x80 <=? n)%Z then
        let! v := write_byte v i (byte_of (Z.lor MSB (n mod 256))) in write_var_int turns v (S i) (Z.shiftr n 7)
      else write_byte v i (byte_of n)
  end.

Definition to_var_int_buffer (n : Z) : outcome Empty_set bytes :=
  write_var_int 10 (replicate (required_encoded_space_unsigned n) x00) 0 n.

(** What the buffer holds in the end; [var_int_fills_buffer] below *)
Fixpoint var_int_from (turns : nat) (n : Z) : bytes :=
  match turns with
  | 0 => []
  | S turns =>
      if (0x80 <=? n)%Z then byte_of (Z.lor MSB (n mod 256)) :: var_int_from turns (Z.shiftr n 7)
      else [byte_of n]
  end.

Definition to_var_int (n : Z) : bytes := var_int_from 10 n.

(** ** Lemmas *)

Lemma write_var_int_spec turns n pre todo :
  (0 <= n < 2 ^ (7 * Z.of_nat turns))%Z → 0 < turns → length todo = length (var_int_from turns n) →
  write_var_int turns (pre ++ todo) (length pre) n = Ret (pre ++ var_int_from turns n).
Proof.
  revert n pre todo. induction turns as [|turns IH]; intros n pre todo Hn Ht Hl; [lia|]. cbn [write_var_int var_int_from] in *.
  destruct todo as [|b todo]; [destruct (0x80 <=? n)%Z; done|].
  unfold write_byte. rewrite length_app, (proj2 (Nat.ltb_lt _ _)) by (cbn; lia).
  assert (∀ c, <[length pre := c]> (pre ++ b :: todo) = pre ++ c :: todo) as Hins.
  { intros c. by rewrite insert_app_r_alt, Nat.sub_diag by lia. }
  rewrite !Hins. clear Hins.
  destruct (Z.leb_spec 0x80 n) as [Hge|Hlt].
  - set (c := byte_of _). cbn [length] in Hl. pose proof (IH (Z.shiftr n 7) (pre ++ [c]) todo) as IHn.
    rewrite length_app, <- !app_assoc in IHn. cbn [length app] in IHn. rewrite Nat.add_1_r in IHn.
    apply IHn; [|destruct turns; [cbn in Hn; lia|lia]|lia]. rewrite Z.shiftr_div_pow2 by lia.
    split; [apply Z.div_pos; lia|]. apply Z.div_lt_upper_bound; [lia|]. rewrite <- Z.pow_add_r by lia.
    replace (7 + 7 * Z.of_nat turns)%Z with (7 * Z.of_nat (S turns))%Z by lia. lia.
  - destruct todo; [done|by cbn in Hl].
Qed.

Lemma encoded_space_length turns n :
  (0 < n)%Z → (n < 2 ^ (7 * Z.of_nat turns))%Z → encoded_space_from turns n = length (var_int_from turns n).
Proof.
  revert n. induction turns as [|turns IH]; intros n H0 Hn; [cbn in Hn; lia|]. cbn [encoded_space_from var_int_from].
  rewrite (proj2 (Z.ltb_lt _ _)) by lia. destruct (Z.leb_spec 0x80 n) as [Hge|Hlt]; cbn [length]; f_equal.
  - apply IH; rewrite Z.shiftr_div_pow2 by lia; [apply Z.div_str_pos; lia|]. apply Z.div_lt_upper_bound; [lia|].
    rewrite <- Z.pow_add_r by lia. replace (7 + 7 * Z.of_nat turns)%Z with (7 * Z.of_nat (S turns))%Z by lia. lia.
  - assert (Z.shiftr n 7 = 0)%Z as -> by (rewrite Z.shiftr_div_pow2 by lia; apply Z.div_small; lia). by destruct turns.
Qed.

(** The buffer is exactly as long as the encoding: no index is out of range and no
    byte is left unwritten. *)
Lemma var_int_fills_buffer n : (0 <= n < 2 ^ 64)%Z → to_var_int_buffer n = Ret (to_var_int n).
Proof.
  intros Hn. unfold to_var_int_buffer, to_var_int. apply (write_var_int_spec 10 n []); [|lia|].
  - change (2 ^ (7 * Z.of_nat 10))%Z with (2 ^ 70)%Z. lia.
  - rewrite length_replicate. unfold required_encoded_space_unsigned. destruct (Z.eqb_spec n 0) as [->|]; [done|].
    apply encoded_space_length; [lia|]. change (2 ^ (7 * Z.of_nat 10))%Z with (2 ^ 70)%Z. lia.
Qed.

Section lemmas.
Context `{!Primitives}.

Lemma from_expanded_lengths key info :
  let c := from_expanded_keys (expanded_keys key info) in
  length (aes_key c) = 32 ∧ length (mac_key c) = 32 ∧ length (aes_iv c) = 16.
Proof.
  unfold expanded_keys. set (k := hkdf_sha256 _ _ _ _). assert (length k = 80) as Hk by (apply length_hkdf; lia).
  cbn. rewrite !length_take, !length_drop, Hk. done.
Qed.

Lemma decrypt_encrypt key info plaintext :
  let c := from_expanded_keys (expanded_keys key info) in decrypt c (encrypt c plaintext) = Some plaintext.
Proof. cbn. apply aes_inverse; apply from_expanded_lengths. Qed.

Lemma verify_truncate c message : verify_truncated_mac c message (truncate (mac c message)) = true.
Proof.
  unfold verify_truncated_mac, truncate, mac. pose proof (length_hmac (mac_key c) message) as Hl.
  assert (length (take TRUNCATED_LEN (hmac_sha256 (mac_key c) message)) = 8) as Ht by (by rewrite length_take, Hl).
  rewrite Ht, !bool_decide_eq_true_2; [done..|]. by intros Heq; rewrite Heq in Ht.
Qed.

Lemma decrypt_encrypt_pickle key plaintext :
  let c := new_pickle key in decrypt_pickle c (encrypt_pickle c plaintext) = Ok plaintext.
Proof.
  cbn. unfold decrypt_pickle, encrypt_pickle. set (c := new_pickle key). set (ct := encrypt c plaintext).
  assert (length (truncate (mac c ct)) = TRUNCATED_LEN) as Ht by (unfold truncate, mac; by rewrite length_take, length_hmac).
  assert (ct ≠ []) as Hne by (intros Hct; pose proof (length_aes_encrypt (aes_key c) (aes_iv c) plaintext) as Hl; unfold ct, encrypt in Hct; rewrite Hct in Hl; cbn in Hl; lia). rewrite length_app, Ht.
  destruct (Nat.ltb_spec (length ct + TRUNCATED_LEN) (TRUNCATED_LEN + 1)) as [Hlt|_]; [destruct ct; [done|unfold TRUNCATED_LEN in Hlt; cbn in Hlt; lia]|].
  rewrite Nat.add_sub, take_app_length, drop_app_length, verify_truncate. subst ct c. unfold new_pickle. by rewrite decrypt_encrypt.
Qed.

Lemma unpickle_pickle `{!Base64, !Pickled A ok} (thing : A) key : ok thing → unpickle (pickle thing key) key = Ok thing.
Proof. intros Hok. unfold unpickle, pickle. by rewrite base64_round_trip, decrypt_encrypt_pickle, json_round_trip. Qed.

End lemmas.
