(* ===== verification/Megolm.v ===== *)
(** * Megolm

    [crates/common-olm/src/megolm]: the ratchet, messages and their encoding,
    session keys, outbound and inbound group sessions. An operation that changes a
    session returns the new session; where arithmetic may overflow, [debug] says
    whether the build checks it. The protocol buffers crate is a parameter. *)

From S2P Require Import Prelude Bytes Cipher.

Abbreviation panics := (outcome Empty_set).

(** ** 32-bit arithmetic *)

Definition u32_modulus : Z := 2 ^ 32.
Definition u32_max : Z := u32_modulus - 1.

(** [+] and [-] on [u32]: an overflow panics in a debug build and wraps around
    otherwise *)
Definition u32_check (debug : bool) (z : Z) : panics Z :=
  if ((0 <=? z) && (z <=? u32_max))%Z then Ret z else if debug then Panic else Ret (z mod u32_modulus)%Z.

(** ** The ratchet *)

Definition RATCHET_LENGTH : nat := 128.
Definition RATCHET_PART_COUNT : nat := 4.
Definition LAST_RATCHET_INDEX : nat := RATCHET_PART_COUNT - 1.
Definition ADVANCEMENT_SEEDS : list bytes := [[x00]; [x01]; [x02]; [x03]].

Record Ratchet := { inner : bytes; counter : Z }.

(** [RatchetBytes::from_bytes]; the error is the length *)
Definition ratchet_bytes_from_bytes (bs : bytes) : result nat bytes :=
  if negb (length bs =? RATCHET_LENGTH) then Err (length bs) else Ok bs.

(** [as_parts]: a part of the ratchet, and the replacement of a part *)
Definition part (i : nat) (inner : bytes) : bytes := take 32 (drop (32 * i) inner).
Definition set_part (i : nat) (new_part inner : bytes) : bytes :=
  take (32 * i) inner ++ new_part ++ drop (32 * S i) inner.

Section ratchet.
Context `{!Primitives} (debug : bool).

(** [RatchetPart::hash] and [RatchetParts::update] *)
Definition part_hash (from_part seed : bytes) : bytes := hmac_sha256 from_part seed.

Definition parts_update (from to : nat) (inner : bytes) : bytes :=
  set_part to (part_hash (part from inner) (nth to ADVANCEMENT_SEEDS [])) inner.

(** The parts from [h] to the last, in reverse, are updated from [h]. *)
Definition update_from (h : nat) (inner : bytes) : bytes :=
  foldl (λ inner i, parts_update h i inner) inner (rev (seq h (RATCHET_PART_COUNT - h))).

(** The loop of [advance] that finds the slowest part to advance. *)
Fixpoint slowest_part (turns i : nat) (mask counter : Z) : nat :=
  match turns with
  | 0 => 0
  | S turns => if (Z.land counter mask =? 0)%Z then i else slowest_part turns (S i) (Z.shiftr mask 8) counter
  end.

Definition advance (r : Ratchet) : panics Ratchet :=
  let! counter := u32_check debug (counter r + 1) in
  let h := slowest_part RATCHET_LENGTH 0 0x00FFFFFF counter in
  Ret {| inner := update_from h (inner r); counter := counter |}.

(** One turn of the loop of [advance_to]. *)
Definition advance_part_to (advance_to : Z) (j : nat) (r : Ratchet) : panics Ratchet :=
  let shift := Z.of_nat ((LAST_RATCHET_INDEX - j) * 8) in
  let mask := (Z.shiftl u32_max shift mod u32_modulus)%Z in
  let! difference := u32_check debug (Z.shiftr advance_to shift - Z.shiftr (counter r) shift) in
  let bump steps :=
    Ret {| inner := update_from j (Nat.iter (steps - 1) (parts_update j j) (inner r));
           counter := Z.land advance_to mask |} in
  let steps := Z.land difference 0xff in
  if (steps =? 0)%Z then
    if (advance_to <? counter r)%Z then bump 0x100 else Ret r
  else bump (Z.to_nat steps).

Fixpoint advance_parts_to (advance_to : Z) (parts : list nat) (r : Ratchet) : panics Ratchet :=
  match parts with
  | [] => Ret r
  | j :: parts => let! r := advance_part_to advance_to j r in advance_parts_to advance_to parts r
  end.

Definition ratchet_advance_to (advance_to : Z) (r : Ratchet) : panics Ratchet :=
  advance_parts_to advance_to (seq 0 RATCHET_PART_COUNT) r.

End ratchet.

(** [ConstantTimeEq] *)
Definition ratchet_eq (r other : Ratchet) : bool :=
  if (counter r =? counter other)%Z then bool_decide (inner r = inner other) else false.

(** ** Session configuration *)

Inductive Version := V1 | V2.

#[export] Instance Version_eq_dec : EqDecision Version.
Proof. solve_decision. Defined.

Definition version_number (v : Version) : Z := match v with V1 => 1 | V2 => 2 end.
Definition default_config : Version := V1.

(** ** Messages *)

Definition MAC_TRUNCATED_VERSION : Z := 3.
Definition VERSION : Z := 4.
Definition SIGNATURE_LENGTH : nat := 64.
Definition MESSAGE_TRUNCATED_SUFFIX_LENGTH : nat := TRUNCATED_LEN + SIGNATURE_LENGTH.
Definition MESSAGE_SUFFIX_LENGTH : nat := MAC_LENGTH + SIGNATURE_LENGTH.

Record MegolmMessage `{!Ed25519} := {
  version : Z;
  ciphertext : bytes;
  message_index : Z;
  message_mac : MessageMac;
  signature : Signature
}.

Inductive DecodeError :=
| MissingVersion
| MessageTooShort (length : nat)
| InvalidVersion (expected got : Z)
| InvalidSignature
| ProtoBufError
| InvalidBase64.

(** The payload after the version, as the protocol buffers encoding writes it. *)
Definition INDEX_TAG : Byte.byte := x08.
Definition CIPHER_TAG : Byte.byte := x12.

Definition protobuf_payload (message_index : Z) (ciphertext : bytes) : bytes :=
  [INDEX_TAG] ++ to_var_int message_index ++ [CIPHER_TAG] ++ to_var_int (Z.of_nat (length ciphertext)) ++ ciphertext.

(** [prost::Message::decode] for [ProtobufMegolmMessage] *)
Class ProstMegolm : Type := {
  decode_megolm : bytes → option (Z * bytes);
  decode_megolm_payload index ciphertext :
    (0 <= index <= u32_max)%Z → (Z.of_nat (length ciphertext) < 2 ^ 64)%Z →
    decode_megolm (protobuf_payload index ciphertext) = Some (index, ciphertext)
}.

Section messages.
Context `{!Primitives, !Ed25519, !ProstMegolm, !Base64}.

(** [encode_manual] *)
Definition encode_manual (version message_index : Z) (ciphertext : bytes) : bytes :=
  [byte_of version] ++ protobuf_payload message_index ciphertext.

Definition encode_message (m : MegolmMessage) : bytes := encode_manual (version m) (message_index m) (ciphertext m).

Definition to_mac_bytes (m : MegolmMessage) : bytes := encode_message m.
Definition to_signature_bytes (m : MegolmMessage) : bytes := encode_message m ++ mac_bytes (message_mac m).
Definition to_bytes (m : MegolmMessage) : bytes :=
  encode_message m ++ mac_bytes (message_mac m) ++ signature_bytes (signature m).
Definition to_base64 (m : MegolmMessage) : string := base64_encode (to_bytes m).

Definition with_mac (m : MegolmMessage) (tag : MessageMac) : MegolmMessage :=
  {| version := version m; ciphertext := ciphertext m; message_index := message_index m;
     message_mac := tag; signature := signature m |}.
Definition with_signature (m : MegolmMessage) (sig : Signature) : MegolmMessage :=
  {| version := version m; ciphertext := ciphertext m; message_index := message_index m;
     message_mac := message_mac m; signature := sig |}.

Definition set_mac (m : MegolmMessage) (mac : bytes) : MegolmMessage :=
  match message_mac m with
  | Truncated _ => with_mac m (Truncated (truncate mac))
  | Full _ => with_mac m (Full mac)
  end.

Definition encrypt_helper (cipher : CipherKeys) (signing_key : SigningKey) (m : MegolmMessage) : MegolmMessage :=
  let m := set_mac m (mac cipher (to_mac_bytes m)) in
  with_signature m (ed_sign signing_key (to_signature_bytes m)).

(** [Ed25519Signature::from_slice] on zeros, with its [expect] *)
Definition zero_signature : panics Signature :=
  match signature_from_slice (replicate SIGNATURE_LENGTH x00) with Some sig => Ret sig | None => Panic end.

Definition encrypt_full_mac (message_index : Z) (cipher : CipherKeys) (signing_key : SigningKey) (plaintext : bytes) :
    panics MegolmMessage :=
  let ciphertext := encrypt cipher plaintext in
  let! sig := zero_signature in
  Ret (encrypt_helper cipher signing_key
    {| version := VERSION; ciphertext := ciphertext; message_index := message_index;
       message_mac := Full (replicate MAC_LENGTH x00); signature := sig |}).

Definition encrypt_truncated_mac (message_index : Z) (cipher : CipherKeys) (signing_key : SigningKey) (plaintext : bytes) :
    panics MegolmMessage :=
  let ciphertext := encrypt cipher plaintext in
  let! sig := zero_signature in
  Ret (encrypt_helper cipher signing_key
    {| version := MAC_TRUNCATED_VERSION; ciphertext := ciphertext; message_index := message_index;
       message_mac := Truncated (replicate TRUNCATED_LEN x00); signature := sig |}).

(** [add_signature] *)
Definition add_signature (m : MegolmMessage) (sig : Signature) (signing_key : VerifyingKey) : option MegolmMessage :=
  if ed_verify signing_key (to_signature_bytes m) sig then Some (with_signature m sig) else None.

(** [TryFrom<&[u8]>] *)
Definition message_from_bytes (message : bytes) : result DecodeError MegolmMessage :=
  match message with
  | [] => Err MissingVersion
  | v :: _ =>
      let version := byte_val v in
      let suffix_length :=
        if (version =? VERSION)%Z then Some MESSAGE_SUFFIX_LENGTH
        else if (version =? MAC_TRUNCATED_VERSION)%Z then Some MESSAGE_TRUNCATED_SUFFIX_LENGTH
        else None in
      match suffix_length with
      | None => Err (InvalidVersion VERSION version)
      | Some suffix_length =>
          if length message <? suffix_length + 2 then Err (MessageTooShort (length message))
          else
            match decode_megolm (drop 1 (take (length message - suffix_length) message)) with
            | None => Err ProtoBufError
            | Some (message_index, ciphertext) =>
                match signature_from_slice (drop (length message - SIGNATURE_LENGTH) message) with
                | None => Err InvalidSignature
                | Some sig =>
                    let mac_slice := drop (length message - suffix_length) message in
                    let mac := extract_mac mac_slice (version =? MAC_TRUNCATED_VERSION)%Z in
                    Ok {| version := version; ciphertext := ciphertext; message_index := message_index;
                          message_mac := mac; signature := sig |}
                end
            end
      end
  end.

Definition message_from_base64 (message : string) : result DecodeError MegolmMessage :=
  match base64_decode message with
  | None => Err InvalidBase64
  | Some decoded => message_from_bytes decoded
  end.

End messages.
