(* ===== verification/MegolmSession.v ===== *)
(** * Megolm sessions

    [megolm/session_keys.rs], [group_session.rs] and [inbound_group_session.rs]:
    exported session keys, the outbound session that encrypts, the inbound session
    that decrypts, and their pickles. *)

From S2P Require Import Prelude Bytes Cipher Megolm.

(** ** Session keys *)

Record ExportedSessionKey `{!Ed25519} := {
  ratchet_index : Z;
  key_ratchet : bytes;
  key_signing_key : VerifyingKey
}.

Record SessionKey `{!Ed25519} := {
  session_key : ExportedSessionKey;
  key_signature : Signature
}.

Inductive SessionKeyDecodeError :=
| KeyVersion (expected got : Z)
| KeyRead
| KeyBase64
| KeySignature
| KeyPublicKey.

Section keys.
Context `{!Ed25519, !Base64}.

Definition EXPORTED_VERSION : Z := 1.
Definition SESSION_KEY_VERSION : Z := 2.

Definition new_exported_key (r : Ratchet) (signing_key : VerifyingKey) : ExportedSessionKey :=
  {| ratchet_index := counter r; key_ratchet := inner r; key_signing_key := signing_key |}.

Definition to_bytes_with_version (k : ExportedSessionKey) (version : Z) : bytes :=
  [byte_of version] ++ to_be_bytes 4 (ratchet_index k) ++ key_ratchet k ++ key_bytes (key_signing_key k).

Definition exported_to_bytes (k : ExportedSessionKey) : bytes := to_bytes_with_version k EXPORTED_VERSION.

(** [Cursor::read_exact] *)
Definition read_exact (n : nat) (cursor : bytes) : result SessionKeyDecodeError (bytes * bytes) :=
  if length cursor <? n then Err KeyRead else Ok (take n cursor, drop n cursor).

Definition decode_key (expected_version : Z) (cursor : bytes) : result SessionKeyDecodeError (ExportedSessionKey * bytes) :=
  let? (version, cursor) := read_exact 1 cursor in
  if negb (u_from_be_bytes version =? expected_version)%Z then
    Err (KeyVersion expected_version (u_from_be_bytes version))
  else
    let? (index, cursor) := read_exact 4 cursor in
    let? (ratchet, cursor) := read_exact 128 cursor in
    let? (public_key, cursor) := read_exact 32 cursor in
    match key_from_bytes public_key with
    | None => Err KeyPublicKey
    | Some signing_key =>
        Ok ({| ratchet_index := u_from_be_bytes index; key_ratchet := ratchet; key_signing_key := signing_key |}, cursor)
    end.

Definition exported_from_bytes (bs : bytes) : result SessionKeyDecodeError ExportedSessionKey :=
  let? (k, _) := decode_key EXPORTED_VERSION bs in Ok k.

Definition exported_to_base64 (k : ExportedSessionKey) : string := base64_encode (exported_to_bytes k).
Definition exported_from_base64 (key : string) : result SessionKeyDecodeError ExportedSessionKey :=
  match base64_decode key with None => Err KeyBase64 | Some bs => exported_from_bytes bs end.

Definition key_signature_bytes (k : SessionKey) : bytes := to_bytes_with_version (session_key k) SESSION_KEY_VERSION.

Definition session_key_to_bytes (k : SessionKey) : bytes := key_signature_bytes k ++ signature_bytes (key_signature k).

Definition session_key_from_bytes (bs : bytes) : result SessionKeyDecodeError SessionKey :=
  let? (k, cursor) := decode_key SESSION_KEY_VERSION bs in
  let? (sig, _) := read_exact SIGNATURE_LENGTH cursor in
  match signature_from_slice sig with
  | None => Err KeySignature
  | Some sig =>
      if ed_verify (key_signing_key k) (take (length bs - SIGNATURE_LENGTH) bs) sig
      then Ok {| session_key := k; key_signature := sig |}
      else Err KeySignature
  end.

Definition session_key_to_base64 (k : SessionKey) : string := base64_encode (session_key_to_bytes k).
Definition session_key_from_base64 (key : string) : result SessionKeyDecodeError SessionKey :=
  match base64_decode key with None => Err KeyBase64 | Some bs => session_key_from_bytes bs end.

End keys.

(** ** Outbound sessions *)

Record GroupSession `{!Ed25519} := {
  ratchet : Ratchet;
  signing_key : SigningKey;
  config : Version
}.

Record GroupSessionPickle `{!Ed25519} := {
  group_pickled_ratchet : Ratchet;
  group_pickled_key : SigningKey;
  group_pickled_config : Version
}.

Section outbound.
Context `{!Primitives, !Ed25519, !Base64} (debug : bool).

(** [GroupSession::new]; the random bytes and the key are drawn by the caller *)
Definition new_group_session (config : Version) (random : bytes) (signing_key : SigningKey) : GroupSession :=
  {| ratchet := {| inner := random; counter := 0 |}; signing_key := signing_key; config := config |}.

Definition session_id (g : GroupSession) : string := base64_encode (key_bytes (verifying_key (signing_key g))).

Definition group_encrypt (plaintext : bytes) (g : GroupSession) : panics (MegolmMessage * GroupSession) :=
  let cipher := new_megolm (inner (ratchet g)) in
  let! message :=
    match config g with
    | V1 => encrypt_truncated_mac (counter (ratchet g)) cipher (signing_key g) plaintext
    | V2 => encrypt_full_mac (counter (ratchet g)) cipher (signing_key g) plaintext
    end in
  let! r := advance debug (ratchet g) in
  Ret (message, {| ratchet := r; signing_key := signing_key g; config := config g |}).

(** [SessionKey::new] followed by the signature; its zero signature is replaced *)
Definition export_session_key (g : GroupSession) : panics SessionKey :=
  let key := new_exported_key (ratchet g) (verifying_key (signing_key g)) in
  let! zero := zero_signature in
  let k := {| session_key := key; key_signature := zero |} in
  Ret {| session_key := key; key_signature := ed_sign (signing_key g) (key_signature_bytes k) |}.

Definition group_pickle (g : GroupSession) : GroupSessionPickle :=
  {| group_pickled_ratchet := ratchet g; group_pickled_key := signing_key g; group_pickled_config := config g |}.

Definition group_from_pickle (p : GroupSessionPickle) : GroupSession :=
  {| ratchet := group_pickled_ratchet p; signing_key := group_pickled_key p; config := group_pickled_config p |}.

End outbound.

(** ** Inbound sessions *)

Record InboundGroupSession `{!Ed25519} := {
  initial_ratchet : Ratchet;
  latest_ratchet : Ratchet;
  inbound_signing_key : VerifyingKey;
  signing_key_verified : bool;
  inbound_config : Version
}.

Inductive SessionOrdering := Equal | Better | Worse | Unconnected.

Inductive DecryptionError :=
| SignatureInvalid
| InvalidMAC
| InvalidMACLength (expected got : nat)
| InvalidPadding
| UnknownMessageIndex (first_known index : Z).

Record DecryptedMessage := { plaintext : bytes; decrypted_index : Z }.

Record InboundGroupSessionPickle `{!Ed25519} := {
  pickled_ratchet : Ratchet;
  pickled_signing_key : VerifyingKey;
  pickled_verified : bool;
  pickled_config : Version
}.

Section inbound.
Context `{!Primitives, !Ed25519, !Base64} (debug : bool).

Definition new_inbound (key : SessionKey) (session_config : Version) : InboundGroupSession :=
  let initial := {| inner := key_ratchet (session_key key); counter := ratchet_index (session_key key) |} in
  {| initial_ratchet := initial; latest_ratchet := initial;
     inbound_signing_key := key_signing_key (session_key key); signing_key_verified := true;
     inbound_config := session_config |}.

Definition import (key : ExportedSessionKey) (session_config : Version) : InboundGroupSession :=
  let initial := {| inner := key_ratchet key; counter := ratchet_index key |} in
  {| initial_ratchet := initial; latest_ratchet := initial;
     inbound_signing_key := key_signing_key key; signing_key_verified := false;
     inbound_config := session_config |}.

Definition inbound_session_id (s : InboundGroupSession) : string := base64_encode (key_bytes (inbound_signing_key s)).

Definition first_known_index (s : InboundGroupSession) : Z := counter (initial_ratchet s).

Definition set_ratchets (initial latest : Ratchet) (s : InboundGroupSession) : InboundGroupSession :=
  {| initial_ratchet := initial; latest_ratchet := latest; inbound_signing_key := inbound_signing_key s;
     signing_key_verified := signing_key_verified s; inbound_config := inbound_config s |}.

Definition inbound_advance_to (index : Z) (s : InboundGroupSession) : panics (bool * InboundGroupSession) :=
  if (first_known_index s <? index)%Z then
    let! initial := ratchet_advance_to debug index (initial_ratchet s) in
    let latest := if (counter (latest_ratchet s) <? index)%Z then initial else latest_ratchet s in
    Ret (true, set_ratchets initial latest s)
  else Ret (false, s).

(** [get_cipher_at] *)
Definition get_cipher_at (message_index : Z) (s : InboundGroupSession) : panics (option CipherKeys) :=
  if (counter (initial_ratchet s) <=? message_index)%Z then
    let! r :=
      if (counter (initial_ratchet s) <? message_index)%Z then ratchet_advance_to debug message_index (initial_ratchet s)
      else Ret (initial_ratchet s) in
    Ret (Some (new_megolm (inner r)))
  else Ret None.

Definition find_ratchet (message_index : Z) (s : InboundGroupSession) : panics (option Ratchet * InboundGroupSession) :=
  if (counter (initial_ratchet s) =? message_index)%Z then Ret (Some (initial_ratchet s), s)
  else if (counter (latest_ratchet s) =? message_index)%Z then Ret (Some (latest_ratchet s), s)
  else if (counter (latest_ratchet s) <? message_index)%Z then
    let! latest := ratchet_advance_to debug message_index (latest_ratchet s) in
    Ret (Some latest, set_ratchets (initial_ratchet s) latest s)
  else if (counter (initial_ratchet s) <? message_index)%Z then
    let! latest := ratchet_advance_to debug message_index (initial_ratchet s) in
    Ret (Some latest, set_ratchets (initial_ratchet s) latest s)
  else Ret (None, s).

Definition inbound_verify_mac (s : InboundGroupSession) (cipher : CipherKeys) (m : MegolmMessage) :
    result DecryptionError () :=
  match inbound_config s with
  | V1 =>
      match message_mac m with
      | Truncated tag => if verify_truncated_mac cipher (to_mac_bytes m) tag then Ok () else Err InvalidMAC
      | Full _ => Err (InvalidMACLength TRUNCATED_LEN MAC_LENGTH)
      end
  | V2 =>
      match message_mac m with
      | Full tag => if verify_mac cipher (to_mac_bytes m) tag then Ok () else Err InvalidMAC
      | Truncated _ => Err (InvalidMACLength MAC_LENGTH TRUNCATED_LEN)
      end
  end.

Definition inbound_decrypt (m : MegolmMessage) (s : InboundGroupSession) :
    panics (result DecryptionError DecryptedMessage * InboundGroupSession) :=
  if negb (ed_verify (inbound_signing_key s) (to_signature_bytes m) (signature m)) then Ret (Err SignatureInvalid, s)
  else
    let! (found, s) := find_ratchet (message_index m) s in
    match found with
    | None => Ret (Err (UnknownMessageIndex (counter (initial_ratchet s)) (message_index m)), s)
    | Some r =>
        let cipher := new_megolm (inner r) in
        match inbound_verify_mac s cipher m with
        | Err e => Ret (Err e, s)
        | Ok _ =>
            match decrypt cipher (ciphertext m) with
            | None => Ret (Err InvalidPadding, s)
            | Some plaintext => Ret (Ok {| plaintext := plaintext; decrypted_index := message_index m |}, s)
            end
        end
    end.

Definition export_at (index : Z) (s : InboundGroupSession) : panics (option ExportedSessionKey * InboundGroupSession) :=
  let! (found, s) := find_ratchet index s in
  Ret ((λ r, new_exported_key r (inbound_signing_key s)) <$> found, s).

Definition export_at_first_known_index (s : InboundGroupSession) : ExportedSessionKey :=
  new_exported_key (initial_ratchet s) (inbound_signing_key s).

(** [connected]; both sessions may move their latest ratchet *)
Definition connected (s other : InboundGroupSession) : panics (bool * InboundGroupSession * InboundGroupSession) :=
  if negb (bool_decide (inbound_config s = inbound_config other))
     || negb (bool_decide (inbound_signing_key s = inbound_signing_key other)) then Ret (false, s, other)
  else
    let! (found, s) := find_ratchet (first_known_index other) s in
    match found with
    | Some r => Ret (ratchet_eq r (initial_ratchet other), s, other)
    | None =>
        let! (found, other) := find_ratchet (first_known_index s) other in
        match found with
        | Some r => Ret (ratchet_eq (initial_ratchet s) r, s, other)
        | None => Panic
        end
    end.

Definition compare (s other : InboundGroupSession) : panics (SessionOrdering * InboundGroupSession * InboundGroupSession) :=
  let! (c, s, other) := connected s other in
  let ordering :=
    if (c : bool) then
      match (first_known_index s ?= first_known_index other)%Z with Lt => Better | Eq => Equal | Gt => Worse end
    else Unconnected in
  Ret (ordering, s, other).

Definition merge (s other : InboundGroupSession) :
    panics (option InboundGroupSession * InboundGroupSession * InboundGroupSession) :=
  let! (ordering, s, other) := compare s other in
  let best_ratchet :=
    match ordering with
    | Equal | Better => Some (initial_ratchet s)
    | Worse => Some (initial_ratchet other)
    | Unconnected => None
    end in
  Ret ((λ best,
    {| initial_ratchet := best; latest_ratchet := best; inbound_signing_key := inbound_signing_key s;
       signing_key_verified := signing_key_verified s || signing_key_verified other;
       inbound_config := inbound_config s |}) <$> best_ratchet, s, other).

(** [pickle] and [from_pickle]; the latest ratchet is not kept *)
Definition inbound_pickle (s : InboundGroupSession) : InboundGroupSessionPickle :=
  {| pickled_ratchet := initial_ratchet s; pickled_signing_key := inbound_signing_key s;
     pickled_verified := signing_key_verified s; pickled_config := inbound_config s |}.

Definition from_pickle (p : InboundGroupSessionPickle) : InboundGroupSession :=
  {| initial_ratchet := pickled_ratchet p; latest_ratchet := pickled_ratchet p;
     inbound_signing_key := pickled_signing_key p; signing_key_verified := pickled_verified p;
     inbound_config := pickled_config p |}.

(** [From<&GroupSession>] *)
Definition inbound_of_group (g : GroupSession) : panics InboundGroupSession :=
  let! key := export_session_key g in Ret (new_inbound key (config g)).

End inbound.
