(* ===== verification/SampleCrypto.v ===== *)
(** * Sample primitives

    Concrete functions with the laws that the cryptographic parameters state, for
    evaluating the sessions on examples: padding without encryption, truncation in
    the place of hashes, and a reader of the protocol buffers payload. *)

From S2P Require Import Prelude Bytes Cipher Megolm MegolmSession.
From stdpp Require Import countable.

(** Exactly [n] bytes: a prefix, filled up with zeros. *)
Definition fit (n : nat) (bs : bytes) : bytes := take n (bs ++ replicate n x00).

Lemma length_fit n bs : length (fit n bs) = n.
Proof. unfold fit. rewrite length_take, length_app, length_replicate. lia. Qed.

(** PKCS#7 padding *)
Definition pad_length (bs : bytes) : nat := 16 - length bs mod 16.
Definition pad (bs : bytes) : bytes := bs ++ replicate (pad_length bs) (byte_of (Z.of_nat (pad_length bs))).
Definition unpad (bs : bytes) : option bytes :=
  Some (take (length bs - Z.to_nat (byte_val (List.last bs x00))) bs).

Lemma pad_length_bound bs : 1 <= pad_length bs <= 16.
Proof. unfold pad_length. pose proof (Nat.mod_upper_bound (length bs) 16). lia. Qed.

Lemma length_pad_bytes bs : length (pad bs) = 16 * (length bs / 16 + 1).
Proof.
  unfold pad. rewrite length_app, length_replicate. unfold pad_length. pose proof (Nat.div_mod_eq (length bs) 16).
  pose proof (Nat.mod_upper_bound (length bs) 16). lia.
Qed.

Lemma unpad_pad bs : unpad (pad bs) = Some bs.
Proof.
  unfold unpad, pad. pose proof (pad_length_bound bs) as Hb. set (b := byte_of _).
  assert (List.last (bs ++ replicate (pad_length bs) b) x00 = b) as ->.
  { destruct (pad_length bs) as [|n]; [lia|]. replace (S n) with (n + 1) by lia.
    rewrite replicate_add, app_assoc. apply last_last. }
  f_equal. subst b. rewrite byte_val_of, Z.mod_small, Nat2Z.id by lia.
  rewrite length_app, length_replicate, Nat.add_sub. apply take_app_length.
Qed.

#[export, refine] Instance sample_primitives : Primitives := {|
  hmac_sha256 key message := fit 32 (key ++ message);
  hkdf_sha256 salt ikm info n := fit n (ikm ++ info ++ salt);
  aes_encrypt _ _ plaintext := pad plaintext;
  aes_decrypt _ _ ciphertext := unpad ciphertext
|}.
Proof.
  - intros. apply length_fit.
  - intros. apply length_fit.
  - intros. apply length_pad_bytes.
  - intros. apply unpad_pad.
Defined.

(** ** Signatures *)

Definition sample_signature : Type := dsig (λ bs : bytes, length bs = 64).

Definition sample_sign (key : Byte.byte) (message : bytes) : sample_signature :=
  dexist (fit 64 (key :: message)) (length_fit 64 _).

Definition sample_signature_of (bs : bytes) : option sample_signature :=
  match decide (length bs = 64) with left H => Some (dexist bs H) | right _ => None end.

#[export, refine] Instance sample_ed25519 : Ed25519 := {|
  SigningKey := Byte.byte;
  VerifyingKey := Byte.byte;
  Signature := sample_signature;
  verifying_key key := key;
  ed_sign := sample_sign;
  ed_verify key message sig := bool_decide (proj1_sig sig = proj1_sig (sample_sign key message));
  key_bytes key := replicate 32 key;
  key_from_bytes bs := head bs;
  signature_bytes sig := proj1_sig sig;
  signature_from_slice := sample_signature_of
|}.
Proof.
  - intros. by apply bool_decide_eq_true_2.
  - intros. apply length_replicate.
  - done.
  - intros [bs Hbs]. exact (bool_decide_unpack _ Hbs).
  - intros [bs Hbs]. unfold sample_signature_of. pose proof Hbs as Hl%bool_decide_unpack. cbn [proj1_sig].
    destruct (decide _); [|done]. f_equal. by apply dsig_eq.
  - intros bs Hl. unfold sample_signature_of. by destruct (decide _).
Defined.

(** ** Encodings *)

#[export, refine] Instance sample_base64 : Base64 := {|
  base64_encode := String.string_of_list_byte;
  base64_decode s := Some (String.list_byte_of_string s)
|}.
Proof. intros. by rewrite String.list_byte_of_string_of_list_byte. Defined.

Fixpoint read_var_int (fuel : nat) (bs : bytes) : option (Z * bytes) :=
  match fuel, bs with
  | S fuel, b :: bs =>
      if (byte_val b <? 128)%Z then Some (byte_val b, bs)
      else '(high, rest) ← read_var_int fuel bs; Some (byte_val b - 128 + 128 * high, rest)%Z
  | _, _ => None
  end.

Lemma lor_continuation n : (0 <= n)%Z → (Z.lor 0x80 (n mod 256) mod 256 = 128 + n mod 128)%Z.
Proof.
  intros Hn. assert (n mod 128 = (n mod 256) mod 128)%Z as ->.
  { apply Znumtheory.Zmod_div_mod; [lia..|]. by exists 2%Z. }
  pose proof (Z.mod_pos_bound n 256 ltac:(lia)) as Hb. generalize dependent (n mod 256)%Z. intros x Hx.
  assert (forallb (λ k, let x := Z.of_nat k in Z.lor 0x80 x mod 256 =? 128 + x mod 128)%Z (seq 0 256) = true) as Hall by by_vm.
  rewrite forallb_forall in Hall. specialize (Hall (Z.to_nat x)). rewrite Z2Nat.id in Hall by lia.
  apply Z.eqb_eq, Hall, in_seq. lia.
Qed.

Lemma read_var_int_from fuel n rest :
  0 < fuel → (0 <= n < 2 ^ (7 * Z.of_nat fuel))%Z → read_var_int fuel (var_int_from fuel n ++ rest) = Some (n, rest).
Proof.
  revert n. induction fuel as [|fuel IH]; intros n Hfuel Hn; [lia|]. cbn [var_int_from].
  destruct (Z.leb_spec 0x80 n) as [Hge|Hlt]; cbn [app read_var_int]; rewrite byte_val_of.
  - rewrite lor_continuation by lia. pose proof (Z.mod_pos_bound n 128 ltac:(lia)).
    rewrite (proj2 (Z.ltb_ge _ _)) by lia. rewrite Z.shiftr_div_pow2 by lia. change (2 ^ 7)%Z with 128%Z.
    rewrite IH; [|destruct fuel; [cbn in Hn; lia|lia]|split; [apply Z.div_pos; lia|apply Z.div_lt_upper_bound; [lia|]; rewrite <- (Z.pow_add_r 2 7) by lia; replace (7 + 7 * Z.of_nat fuel)%Z with (7 * Z.of_nat (S fuel))%Z by lia; lia]].
    cbn [mbind option_bind]. do 2 f_equal. pose proof (Z.div_mod n 128 ltac:(lia)). lia.
  - rewrite Z.mod_small, (proj2 (Z.ltb_lt _ _)) by lia. done.
Qed.

Lemma read_to_var_int n rest : (0 <= n < 2 ^ 64)%Z → read_var_int 10 (to_var_int n ++ rest) = Some (n, rest).
Proof. intros Hn. apply read_var_int_from; [lia|]. change (2 ^ (7 * Z.of_nat 10))%Z with (2 ^ 70)%Z. lia. Qed.

(** Expects a byte. *)
Definition expect_byte (b : Byte.byte) (bs : bytes) : option bytes :=
  match bs with b' :: bs => if Byte.eqb b' b then Some bs else None | [] => None end.

Lemma expect_byte_app b bs : expect_byte b ([b] ++ bs) = Some bs.
Proof. cbn. by rewrite (Byte.byte_dec_lb eq_refl). Qed.

Definition sample_decode_megolm (bs : bytes) : option (Z * bytes) :=
  bs ← expect_byte INDEX_TAG bs; '(index, bs) ← read_var_int 10 bs;
  bs ← expect_byte CIPHER_TAG bs; '(n, bs) ← read_var_int 10 bs;
  if decide (n = Z.of_nat (length bs)) then Some (index, bs) else None.

#[export, refine] Instance sample_prost : ProstMegolm := {| decode_megolm := sample_decode_megolm |}.
Proof.
  intros index ct Hi Hl. unfold sample_decode_megolm, protobuf_payload. unfold u32_max, u32_modulus in Hi.
  rewrite expect_byte_app. cbn [mbind option_bind]. rewrite read_to_var_int by lia. cbn [mbind option_bind].
  rewrite expect_byte_app. cbn [mbind option_bind]. rewrite read_to_var_int by lia. cbn [mbind option_bind].
  by rewrite decide_True.
Defined.

(** ** Pickles: any countable type, as bits *)

#[export, refine] Instance byte_countable : Countable Byte.byte := inj_countable byte_val (λ z, Some (byte_of z)) _.
Proof. intros b. f_equal. apply (inj byte_val). rewrite byte_val_of. apply Z.mod_small, byte_val_bound. Defined.

Fixpoint bits_of (p : positive) : bytes :=
  match p with xH => [] | xO p => x00 :: bits_of p | xI p => x01 :: bits_of p end.
Fixpoint of_bits (bs : bytes) : positive :=
  match bs with [] => xH | x00 :: bs => xO (of_bits bs) | _ :: bs => xI (of_bits bs) end.

Lemma of_bits_of p : of_bits (bits_of p) = p.
Proof. induction p; cbn; congruence. Qed.

#[export, refine] Instance pickled_countable `{Countable A} ok : Pickled A ok := {|
  to_json x := bits_of (encode x);
  from_json bs := decode (of_bits bs)
|}.
Proof. intros x _. by rewrite of_bits_of, decode_encode. Defined.

#[export] Instance ratchet_eq_dec : EqDecision Ratchet.
Proof. solve_decision. Defined.

#[export, refine] Instance ratchet_countable : Countable Ratchet :=
  inj_countable' (λ r, (inner r, counter r)) (λ '(bs, c), {| inner := bs; counter := c |}) _.
Proof. by intros []. Defined.

#[export, refine] Instance version_countable : Countable Version :=
  inj_countable' (λ v, match v with V1 => false | V2 => true end) (λ b : bool, if b then V2 else V1) _.
Proof. by intros []. Defined.

#[export] Instance inbound_pickle_eq_dec : EqDecision InboundGroupSessionPickle.
Proof. intros [] []. unfold Decision. decide equality; first [apply ratchet_eq_dec|apply VerifyingKey_eq_dec|apply bool_eq_dec|apply Version_eq_dec]. Defined.

#[export, refine] Instance inbound_pickle_countable : Countable InboundGroupSessionPickle :=
  inj_countable' (λ p, (pickled_ratchet p, (pickled_signing_key p : Byte.byte), pickled_verified p, pickled_config p))
    (λ '(r, vk, b, v), {| pickled_ratchet := r; pickled_signing_key := (vk : VerifyingKey); pickled_verified := b; pickled_config := v |}) _.
Proof. by intros []. Defined.

#[export] Instance group_pickle_eq_dec : EqDecision GroupSessionPickle.
Proof. intros [] []. unfold Decision. decide equality; first [apply ratchet_eq_dec|apply Byte.byte_eq_dec|apply Version_eq_dec]. Defined.

#[export, refine] Instance group_pickle_countable : Countable GroupSessionPickle :=
  inj_countable' (λ p, (group_pickled_ratchet p, (group_pickled_key p : Byte.byte), group_pickled_config p))
    (λ '(r, key, v), {| group_pickled_ratchet := r; group_pickled_key := (key : SigningKey); group_pickled_config := v |}) _.
Proof. by intros []. Defined.

(** ** Sample sessions *)

Definition sample_ratchet (counter : Z) : Ratchet := {| inner := replicate 128 x61; counter := counter |}.

Definition sample_group : GroupSession := {| ratchet := sample_ratchet 7; signing_key := x62; config := V1 |}.

Definition sample_inbound (counter : Z) (verified : bool) : InboundGroupSession :=
  {| initial_ratchet := sample_ratchet counter; latest_ratchet := sample_ratchet counter; inbound_signing_key := x62;
     signing_key_verified := verified; inbound_config := V1 |}.
