(* ===== verification/MegolmRatchet.v ===== *)
(** * The Megolm ratchet

    [advance_to] jumps over up to 2^32 indices by hashing each part at most 256
    times; here it is shown to be [advance] repeated, wrap-around included. *)

From S2P Require Import Prelude Bytes Cipher Megolm MegolmSession SampleCrypto.

(** ** Parts *)

Lemma length_part i bs : length bs = RATCHET_LENGTH → i < RATCHET_PART_COUNT → length (part i bs) = 32.
Proof. unfold part, RATCHET_LENGTH, RATCHET_PART_COUNT. intros Hl Hi. rewrite length_take, length_drop. lia. Qed.

Lemma length_set_part i p bs :
  length bs = RATCHET_LENGTH → i < RATCHET_PART_COUNT → length p = 32 → length (set_part i p bs) = RATCHET_LENGTH.
Proof.
  unfold set_part, RATCHET_LENGTH, RATCHET_PART_COUNT. intros. rewrite !length_app, length_take, length_drop. lia.
Qed.

Lemma part_set_same i p bs :
  length bs = RATCHET_LENGTH → i < RATCHET_PART_COUNT → length p = 32 → part i (set_part i p bs) = p.
Proof.
  unfold part, set_part, RATCHET_LENGTH, RATCHET_PART_COUNT. intros Hl Hi Hp.
  rewrite drop_app_length' by (rewrite length_take; lia). by rewrite take_app_length' by lia.
Qed.

Lemma part_set_other i j p bs :
  length bs = RATCHET_LENGTH → i < RATCHET_PART_COUNT → j < RATCHET_PART_COUNT → length p = 32 → i ≠ j →
  part j (set_part i p bs) = part j bs.
Proof.
  unfold part, set_part, RATCHET_LENGTH, RATCHET_PART_COUNT. intros Hl Hi Hj Hp Hne.
  destruct (decide (j < i)).
  - rewrite drop_app_le by (rewrite length_take; lia). rewrite take_app_le by (rewrite length_drop, length_take; lia).
    rewrite skipn_firstn_comm. rewrite take_take. f_equal. lia.
  - rewrite app_assoc, drop_app_ge by (rewrite length_app, length_take; lia).
    rewrite length_app, length_take, drop_drop. do 2 f_equal. lia.
Qed.

(** A ratchet is its four parts. *)
Lemma parts_ext bs bs' :
  length bs = RATCHET_LENGTH → length bs' = RATCHET_LENGTH →
  (∀ i, i < RATCHET_PART_COUNT → part i bs = part i bs') → bs = bs'.
Proof.
  assert (∀ l : bytes, length l = RATCHET_LENGTH → l = part 0 l ++ part 1 l ++ part 2 l ++ part 3 l) as Hsplit.
  { intros l Hl. unfold part. cbn [Nat.mul Nat.add]. rewrite <- (take_drop 32 l) at 1. f_equal.
    rewrite <- (take_drop 32 (drop 32 l)) at 1. f_equal. rewrite drop_drop. cbn [Nat.add].
    rewrite <- (take_drop 32 (drop 64 l)) at 1. f_equal. rewrite drop_drop. cbn [Nat.add].
    rewrite take_ge; [done|]. rewrite length_drop, Hl. unfold RATCHET_LENGTH. lia. }
  intros Hl Hl' Hp. rewrite (Hsplit bs Hl), (Hsplit bs' Hl'). unfold RATCHET_PART_COUNT in Hp.
  rewrite !Hp by lia. done.
Qed.

Section ratchet.
Context `{!Primitives}.
Implicit Types (bs : bytes) (c : Z) (r : Ratchet).

Lemma length_update from to bs :
  length bs = RATCHET_LENGTH → to < RATCHET_PART_COUNT → length (parts_update from to bs) = RATCHET_LENGTH.
Proof. intros Hl Hto. by apply length_set_part; [..|apply length_hmac]. Qed.

Lemma part_update from to i bs :
  length bs = RATCHET_LENGTH → to < RATCHET_PART_COUNT → i < RATCHET_PART_COUNT →
  part i (parts_update from to bs) = if decide (i = to) then part_hash (part from bs) (nth to ADVANCEMENT_SEEDS []) else part i bs.
Proof.
  intros Hl Hto Hi. unfold parts_update. case_decide as Heq.
  - subst. by apply part_set_same; [..|apply length_hmac].
  - by apply part_set_other; [..|apply length_hmac|].
Qed.

(** The parts of the ratchet after the parts from [h] on have been updated. *)
Lemma update_from_spec h bs :
  length bs = RATCHET_LENGTH → h < RATCHET_PART_COUNT →
  length (update_from h bs) = RATCHET_LENGTH
  ∧ ∀ i, i < RATCHET_PART_COUNT →
      part i (update_from h bs) = if decide (h <= i) then part_hash (part h bs) (nth i ADVANCEMENT_SEEDS []) else part i bs.
Proof.
  intros Hl Hh. unfold update_from. unfold RATCHET_PART_COUNT in *.
  assert (∀ n, n <= 4 - h →
    let upd := foldl (λ inner i, parts_update h i inner) bs (rev (seq (4 - n) n)) in
    length upd = RATCHET_LENGTH ∧ ∀ i, i < 4 →
      part i upd = if decide (4 - n <= i) then part_hash (part h bs) (nth i ADVANCEMENT_SEEDS []) else part i bs) as Hn.
  { induction n as [|n IH]; intros Hle; cbn [seq rev foldl].
    - split; [done|]. intros i Hi. by rewrite decide_False by lia.
    - destruct (IH ltac:(lia)) as [HlI HpI]. replace (S (4 - S n)) with (4 - n) by lia. rewrite foldl_app. cbn [foldl].
      split; [apply length_update; unfold RATCHET_PART_COUNT; lia|]. intros i Hi.
      rewrite part_update by (done || unfold RATCHET_PART_COUNT; lia). rewrite !HpI by lia.
      destruct (decide (i = 4 - S n)) as [->|]; [|by destruct (decide (4 - n <= i)), (decide (4 - S n <= i)); lia || done].
      rewrite (decide_False (P := 4 - n <= h)) by lia. by rewrite decide_True by lia. }
  replace (seq h (4 - h)) with (seq (4 - (4 - h)) (4 - h)) by (f_equal; lia).
  destruct (Hn (4 - h) ltac:(lia)) as [HL HP]. split; [done|]. intros i Hi. rewrite HP by done.
  replace (4 - (4 - h)) with h by lia. done.
Qed.

Lemma length_update_from h bs : length bs = RATCHET_LENGTH → h < RATCHET_PART_COUNT → length (update_from h bs) = RATCHET_LENGTH.
Proof. intros. by apply update_from_spec. Qed.

(** ** The parts up to one *)

(** The parts up to [j] are the same. *)
Record agree (j : nat) bs bs' : Prop := {
  agree_length : length bs = RATCHET_LENGTH;
  agree_length' : length bs' = RATCHET_LENGTH;
  agree_parts : ∀ i, i <= j → part i bs = part i bs'
}.

Lemma agree_refl j bs : length bs = RATCHET_LENGTH → agree j bs bs.
Proof. by split. Qed.

Lemma agree_trans j x y z : agree j x y → agree j y z → agree j x z.
Proof. intros [? ? Hxy] [? ? Hyz]. split; try done. intros i Hi. by rewrite Hxy, Hyz. Qed.

(** What is updated from [j] is determined by the parts up to [j]. *)
Lemma update_from_agree j x y : j < RATCHET_PART_COUNT → agree j x y → update_from j x = update_from j y.
Proof.
  intros Hj [Hx Hy Hp]. destruct (update_from_spec j x Hx Hj) as [Hlx Hpx], (update_from_spec j y Hy Hj) as [Hly Hpy].
  apply parts_ext; [done..|]. intros i Hi. rewrite Hpx, Hpy, (Hp j) by done. case_decide; [done|]. apply Hp. lia.
Qed.

Lemma update_from_below j h x : j < h → h < RATCHET_PART_COUNT → length x = RATCHET_LENGTH → agree j (update_from h x) x.
Proof.
  intros Hj Hh Hx. destruct (update_from_spec h x Hx Hh) as [Hl Hp]. split; [done..|]. intros i Hi.
  rewrite Hp by lia. by rewrite decide_False by lia.
Qed.

Lemma update_from_own j x : j < RATCHET_PART_COUNT → length x = RATCHET_LENGTH → agree j (update_from j x) (parts_update j j x).
Proof.
  intros Hj Hx. destruct (update_from_spec j x Hx Hj) as [Hl Hp]. split; [done|by apply length_update|]. intros i Hi.
  rewrite Hp, part_update by (done || lia). destruct (decide (i = j)) as [->|]; [by rewrite decide_True|].
  by rewrite decide_False by lia.
Qed.

(** ** The slowest part *)

(** How far apart the indices are that advance a part. *)
Definition stride (j : nat) : Z := 2 ^ (8 * (3 - Z.of_nat j)).

Definition level c : nat := slowest_part RATCHET_LENGTH 0 0x00FFFFFF c.

Lemma slowest_part_step turns i mask c :
  slowest_part (S turns) i mask c = if (Z.land c mask =? 0)%Z then i else slowest_part turns (S i) (Z.shiftr mask 8) c.
Proof. done. Qed.

Lemma level_eq c :
  level c = if (c mod 2 ^ 24 =? 0)%Z then 0 else if (c mod 2 ^ 16 =? 0)%Z then 1 else if (c mod 2 ^ 8 =? 0)%Z then 2 else 3.
Proof.
  unfold level. change RATCHET_LENGTH with (4 + 124). generalize 124. intros turns. cbn [Nat.add].
  rewrite !slowest_part_step. change (Z.shiftr (Z.shiftr (Z.shiftr 0x00FFFFFF 8) 8) 8) with 0%Z. rewrite Z.land_0_r.
  change 0x00FFFFFF%Z with (Z.ones 24). change (Z.shiftr (Z.ones 24) 8) with (Z.ones 16). change (Z.shiftr (Z.ones 16) 8) with (Z.ones 8).
  by rewrite !Z.land_ones by lia.
Qed.

Lemma level_bound c : level c < RATCHET_PART_COUNT.
Proof. rewrite level_eq. unfold RATCHET_PART_COUNT. repeat case_match; lia. Qed.

Lemma part_cases j : j < RATCHET_PART_COUNT → j = 0 ∨ j = 1 ∨ j = 2 ∨ j = 3.
Proof. unfold RATCHET_PART_COUNT. lia. Qed.

Lemma level_le j c : j < RATCHET_PART_COUNT → level c <= j ↔ (c mod stride j = 0)%Z.
Proof.
  intros Hj. rewrite level_eq. unfold stride.
  destruct (part_cases j Hj) as [-> | [-> | [-> | ->]]]; cbn -[Z.modulo Z.pow]; 
    destruct (Z.eqb_spec (c mod 2 ^ 24) 0), (Z.eqb_spec (c mod 2 ^ 16) 0), (Z.eqb_spec (c mod 2 ^ 8) 0);
    cbn -[Z.modulo] in *; split; intros; Z.div_mod_to_equations; lia.
Qed.

Lemma level_mod c : level (c mod u32_modulus) = level c.
Proof.
  rewrite !level_eq. unfold u32_modulus.
  rewrite <- !(Znumtheory.Zmod_div_mod _ (2 ^ 32) c) by (lia || by apply Z.mod_divide).
  done.
Qed.

(** ** Runs of the ratchet *)

(** The ratchet at index [c], advanced [n] times; indices are not cut to 32 bits. *)
Fixpoint run c (n : nat) bs : bytes :=
  match n with
  | 0 => bs
  | S n => update_from (level (c + Z.of_nat n + 1)) (run c n bs)
  end.

Lemma length_run c n bs : length bs = RATCHET_LENGTH → length (run c n bs) = RATCHET_LENGTH.
Proof. intros Hl. induction n as [|n IH]; [done|]. apply length_update_from; [done|apply level_bound]. Qed.

Lemma run_add c n m bs : run c (n + m) bs = run (c + Z.of_nat n) m (run c n bs).
Proof.
  induction m as [|m IH]; [by rewrite Nat.add_0_r|]. rewrite Nat.add_succ_r. cbn [run]. rewrite IH. do 2 f_equal. lia.
Qed.

(** Between two indices that advance the part [j], the parts up to [j] stay. *)
Lemma run_within j c n bs :
  length bs = RATCHET_LENGTH → (∀ k, 0 < k <= n → j < level (c + Z.of_nat k)) → agree j (run c n bs) bs.
Proof.
  intros Hl. induction n as [|n IH]; intros Hk; [by apply agree_refl|]. cbn [run].
  eapply agree_trans; [|apply IH; intros k ?; apply Hk; lia].
  apply update_from_below; [|apply level_bound|by apply length_run]. replace (c + Z.of_nat n + 1)%Z with (c + Z.of_nat (S n))%Z by lia. apply Hk. lia.
Qed.

Lemma stride_pos j : (0 < stride j)%Z ∨ j > 3.
Proof. unfold stride. destruct (decide (j <= 3)); [left|right; lia]. apply Z.pow_pos_nonneg; lia. Qed.

(** A run to the [k]-th index that advances [j] and no slower part: [j] is hashed
    [k] times, and the faster parts follow from it. *)
Lemma run_block j c (k : nat) bs :
  j < RATCHET_PART_COUNT → length bs = RATCHET_LENGTH → (0 <= c)%Z → 0 < k →
  let m := ((c / stride j + Z.of_nat k) * stride j)%Z in
  (∀ x, (c < x <= m)%Z → j <= level x) →
  run c (Z.to_nat (m - c)) bs = update_from j (Nat.iter (k - 1) (parts_update j j) bs).
Proof.
  intros Hj Hl Hc Hk. assert (0 < stride j)%Z as Hst by (destruct (stride_pos j); [done|unfold RATCHET_PART_COUNT in *; lia]).
  assert (∀ y n : Z, (0 <= n)%Z → (y < n * stride j)%Z → ((n - 1) * stride j <= y)%Z → (∀ x, (y < x <= n * stride j)%Z → j <= level x) →
    ∀ z, length z = RATCHET_LENGTH → ∃ w, run y (Z.to_nat (n * stride j - y)) z = update_from j w ∧ agree j w z) as Hstep.
  { intros y n Hn Hlt Hle Hlev z Hz. exists (run y (Z.to_nat (n * stride j - y) - 1) z). split.
    - destruct (Z.to_nat (n * stride j - y)) as [|q] eqn:Hq; [lia|]. cbn [run]. rewrite Nat.sub_succ, Nat.sub_0_r. f_equal.
      replace (y + Z.of_nat q + 1)%Z with (n * stride j)%Z by lia.
      assert (level (n * stride j) <= j) by (apply level_le; [done|]; apply Z.mod_mul; lia).
      specialize (Hlev (n * stride j)%Z ltac:(lia)). lia.
    - apply run_within; [done|]. intros q Hq. specialize (Hlev (y + Z.of_nat q)%Z ltac:(lia)).
      destruct (decide (level (y + Z.of_nat q) = j)) as [Heq|]; [|lia]. exfalso.
      assert ((y + Z.of_nat q) mod stride j = 0)%Z as Hmod by (apply level_le; [done|lia]).
      apply Z.mod_divide in Hmod as [u Hu]; [|lia]. assert (y + Z.of_nat q < n * stride j)%Z by lia.
      assert (n - 1 < u)%Z by nia. assert (u < n)%Z by nia. lia. }
  induction k as [|k IH]; [lia|]. intros m Hlev. destruct (decide (k = 0)) as [->|Hk0].
  - destruct (Hstep c (c / stride j + 1)%Z) with (z := bs) as (w & Hw & Hag); try done; try (Z.div_mod_to_equations; nia).
    subst m. change (Z.of_nat 1) with 1%Z. rewrite Hw. by apply update_from_agree.
  - set (m0 := ((c / stride j + Z.of_nat k) * stride j)%Z). assert (m = m0 + stride j)%Z as Hm by (subst m m0; lia).
    assert (c < m0)%Z as Hcm by (subst m0; Z.div_mod_to_equations; nia).
    replace (Z.to_nat (m - c)) with (Z.to_nat (m0 - c) + Z.to_nat (m - m0)) by lia.
    rewrite run_add. assert (run c (Z.to_nat (m0 - c)) bs = update_from j (Nat.iter (k - 1) (parts_update j j) bs)) as ->.
    { apply IH; [lia|]. intros x Hx. fold m0 in Hx. apply Hlev. lia. }
    replace (c + Z.of_nat (Z.to_nat (m0 - c)))%Z with m0 by lia.
    set (z := Nat.iter (k - 1) (parts_update j j) bs).
    assert (length z = RATCHET_LENGTH) as Hz by (apply Nat.iter_invariant; [intros ? ?; by apply length_update|done]).
    destruct (Hstep m0 (c / stride j + Z.of_nat (S k))%Z) with (z := update_from j z) as (w & Hw & Hag);
      [Z.div_mod_to_equations; nia|subst m0; lia|subst m0; lia|intros x Hx; apply Hlev; lia|by apply length_update_from|].
    fold m in Hw. rewrite Hw. replace (S k - 1) with (S (k - 1)) by lia. rewrite Nat.iter_succ. fold z.
    apply update_from_agree; [done|]. eapply agree_trans; [exact Hag|]. by apply update_from_own.
Qed.

(** ** Jumping *)

Definition ratchet_ok r : Prop := length (inner r) = RATCHET_LENGTH ∧ (0 <= counter r <= u32_max)%Z.

(** [advance], repeated. *)
Fixpoint advance_times (debug : bool) (n : nat) r : panics Ratchet :=
  match n with
  | 0 => Ret r
  | S n => let! next := advance debug r in advance_times debug n next
  end.

Lemma u32_check_ok debug z : (0 <= z <= u32_max)%Z → u32_check debug z = Ret z.
Proof. intros Hz. unfold u32_check. by rewrite (proj2 (Z.leb_le _ _)), (proj2 (Z.leb_le _ _)) by lia. Qed.

(** In a release build, or where it makes no difference, a result is taken modulo
    the size of the type. *)
Lemma u32_check_mod debug z : debug = false ∨ (0 <= z <= u32_max)%Z → u32_check debug z = Ret (z mod u32_modulus)%Z.
Proof.
  assert ((0 <= z <= u32_max)%Z → u32_check debug z = Ret (z mod u32_modulus)%Z) as Hok.
  { intros Hz. rewrite u32_check_ok by done. rewrite Z.mod_small; [done|]. unfold u32_max in Hz. lia. }
  intros [->|Hz]; [|by apply Hok]. unfold u32_check in *. by destruct ((0 <=? z) && (z <=? u32_max))%Z eqn:Hc; [apply andb_true_iff in Hc as [?%Z.leb_le ?%Z.leb_le]; apply Hok|].
Qed.

Lemma advance_run debug c n bs :
  (0 <= c)%Z → debug = false ∨ (c + Z.of_nat n <= u32_max)%Z →
  advance_times debug n {| inner := bs; counter := c mod u32_modulus |}
  = Ret {| inner := run c n bs; counter := ((c + Z.of_nat n) mod u32_modulus)%Z |}.
Proof.
  revert c bs. induction n as [|n IH]; intros c bs Hc Hd; [by rewrite Z.add_0_r|]. cbn [advance_times]. unfold advance. cbn [counter inner].
  assert (0 < u32_modulus)%Z as Hpos by done.
  assert (u32_check debug (c mod u32_modulus + 1) = Ret ((c + 1) mod u32_modulus)%Z) as ->.
  { rewrite u32_check_mod; [by rewrite Zplus_mod_idemp_l|]. destruct Hd as [?|Hd]; [by left|right].
    unfold u32_max in *. rewrite Z.mod_small; lia. }
  fold (level ((c + 1) mod u32_modulus)). rewrite level_mod, IH by first [lia|destruct Hd; [by left|right; lia]].
  f_equal. f_equal; [|f_equal; lia]. change (S n) with (1 + n). rewrite run_add. cbn [run]. by rewrite Z.add_0_r.
Qed.

Lemma mask_spec to s : (0 <= to <= u32_max)%Z → (0 <= s <= 32)%Z → Z.land to (Z.shiftl u32_max s mod u32_modulus) = (to / 2 ^ s * 2 ^ s)%Z.
Proof.
  intros Hto Hs. rewrite <- Z.shiftr_div_pow2, <- Z.shiftl_mul_pow2 by lia. apply Z.bits_inj'. intros n Hn.
  change u32_max with (Z.ones 32). change u32_modulus with (2 ^ 32)%Z.
  rewrite Z.land_spec.
  destruct (decide (n < 32)%Z).
  - rewrite Z.mod_pow2_bits_low, Z.shiftl_spec by lia. rewrite Z.shiftl_spec by lia. destruct (decide (s <= n)%Z).
    + rewrite Z.shiftr_spec, Z.ones_spec_low by lia. rewrite andb_true_r. f_equal. lia.
    + rewrite !(Z.testbit_neg_r _ (n - s)) by lia. by rewrite andb_false_r.
  - rewrite Z.mod_pow2_bits_high by lia. rewrite andb_false_r, Z.shiftl_spec, Z.shiftr_spec by lia.
    replace (n - s + s)%Z with n by lia. symmetry. rewrite <- (Z.mod_small to (2 ^ 32)); [|unfold u32_max, u32_modulus in Hto; lia].
    apply Z.mod_pow2_bits_high. lia.
Qed.

(** The indices of the counter, unlimited and cut to 32 bits, in units of a stride. *)
Lemma div_stride_mod j x :
  j < RATCHET_PART_COUNT → (0 <= x)%Z →
  ((x mod u32_modulus) / stride j = x / stride j - 256 ^ (Z.of_nat j + 1) * (x / u32_modulus))%Z.
Proof.
  intros Hj Hx. unfold u32_modulus, stride. destruct (part_cases j Hj) as [-> | [-> | [-> | ->]]];
    match goal with |- context [(256 ^ ?e)%Z] => let v := eval vm_compute in (256 ^ e)%Z in change (256 ^ e)%Z with v end;
    match goal with |- context [(x / 2 ^ (8 * ?e))%Z] => let v := eval vm_compute in (2 ^ (8 * e))%Z in change (2 ^ (8 * e))%Z with v end;
    change (2 ^ 32)%Z with 4294967296%Z; Z.div_mod_to_equations; lia.
Qed.

Lemma stride_modulus j : j < RATCHET_PART_COUNT → (256 ^ (Z.of_nat j + 1) * stride j = u32_modulus)%Z.
Proof. intros Hj. unfold stride. by destruct (part_cases j Hj) as [-> | [-> | [-> | ->]]]. Qed.

(** The counter that a turn of the loop leaves. *)
Lemma masked_counter j T :
  j < RATCHET_PART_COUNT → (0 <= T)%Z →
  Z.land (T mod u32_modulus) (Z.shiftl u32_max (Z.of_nat ((LAST_RATCHET_INDEX - j) * 8)) mod u32_modulus)
  = ((T / stride j * stride j) mod u32_modulus)%Z.
Proof.
  intros Hj HT. assert (0 < u32_modulus)%Z as HM by done. pose proof (Z.mod_pos_bound T _ HM) as Hto.
  assert (2 ^ Z.of_nat ((LAST_RATCHET_INDEX - j) * 8) = stride j)%Z as Hshift.
  { unfold stride. f_equal. unfold LAST_RATCHET_INDEX, RATCHET_PART_COUNT in *. lia. }
  rewrite mask_spec, Hshift, div_stride_mod; [|done|done|unfold u32_max; lia|unfold LAST_RATCHET_INDEX, RATCHET_PART_COUNT in *; lia].
  pose proof (stride_modulus j Hj) as Hqs. set (q := (256 ^ (Z.of_nat j + 1))%Z) in *.
  assert (0 < q)%Z by (apply Z.pow_pos_nonneg; lia). assert (0 < stride j)%Z by nia.
  apply (Z.mod_unique_pos _ _ (T / u32_modulus)); [|nia].
  pose proof (Z.div_mod T (stride j)) as Hd. pose proof (Z.mod_pos_bound T (stride j)) as Hb.
  pose proof (Z.div_mod T u32_modulus) as HD. pose proof (Z.mod_pos_bound T u32_modulus) as HB.
  assert (q * (T / u32_modulus) <= T / stride j)%Z by (apply Z.div_le_lower_bound; nia). nia.
Qed.

(** One turn of the loop of [advance_to], from the index [c] towards [T]: a run to
    the last index not after [T] that advances the part. *)
Lemma advance_part_run debug j c T bs :
  j < RATCHET_PART_COUNT → length bs = RATCHET_LENGTH → (0 <= c <= T)%Z →
  (∀ x, (c < x <= T)%Z → j <= level x) →
  let k := (T / stride j - c / stride j)%Z in
  (T / u32_modulus = c / u32_modulus ∧ k < 256
   ∨ j = 0%nat ∧ debug = false ∧ T / u32_modulus = c / u32_modulus + 1 ∧ T < c + u32_modulus)%Z →
  let m := Z.max c (T / stride j * stride j) in
  advance_part_to debug (T mod u32_modulus) j {| inner := bs; counter := c mod u32_modulus |}
  = Ret {| inner := run c (Z.to_nat (m - c)) bs; counter := m mod u32_modulus |}.
Proof.
  intros Hj Hl Hc Hlev k Hcase m.
  assert (0 < stride j)%Z as Hst by (destruct (stride_pos j); [done|unfold RATCHET_PART_COUNT in *; lia]).
  assert (0 <= k)%Z as Hk by (subst k; apply Z.le_0_sub, Z.div_le_mono; lia).
  assert (0 < k → run c (Z.to_nat (m - c)) bs = update_from j (Nat.iter (Z.to_nat k - 1) (parts_update j j) bs) ∧ m = T / stride j * stride j)%Z as Hbump.
  { intros Hk0. assert (m = (c / stride j + Z.of_nat (Z.to_nat k)) * stride j)%Z as Hm.
    { subst m k. rewrite Z2Nat.id by lia. rewrite Z.max_r; [lia|]. Z.div_mod_to_equations; nia. }
    split; [|subst m; rewrite Z.max_r; [done|Z.div_mod_to_equations; nia]].
    rewrite Hm. apply run_block; [done|done|lia|lia|]. intros x Hx. apply Hlev. rewrite <- Hm in Hx.
    assert (T / stride j * stride j <= T)%Z by (Z.div_mod_to_equations; nia). lia. }
  unfold advance_part_to. cbn [counter inner]. rewrite masked_counter by (done || lia). rewrite !Z.shiftr_div_pow2 by lia.
  assert (2 ^ Z.of_nat ((LAST_RATCHET_INDEX - j) * 8) = stride j)%Z as ->.
  { unfold stride. f_equal. unfold LAST_RATCHET_INDEX, RATCHET_PART_COUNT in *. lia. }
  rewrite !(div_stride_mod j) by (done || lia). change 255%Z with (Z.ones 8).
  destruct Hcase as [[HTM Hk256]|(-> & -> & HTM & HT)].
  - rewrite HTM. replace (_ - _ - (_ - _))%Z with k by (subst k; lia). rewrite u32_check_ok by (unfold u32_max, u32_modulus; lia).
    rewrite Z.land_ones, Z.mod_small by (change (2 ^ 8)%Z with 256%Z; lia). destruct (Z.eqb_spec k 0) as [Hk0|Hk0].
    + assert (m = c) as ->. { subst m k. rewrite Z.max_l; [done|]. Z.div_mod_to_equations; nia. }
      rewrite Z.sub_diag. cbn [Z.to_nat run].
      destruct (Z.ltb_spec (T mod u32_modulus) (c mod u32_modulus)) as [Hlt|]; [|done]. exfalso. revert Hlt HTM Hc. clear.
      assert (0 < u32_modulus)%Z by done. intros. Z.div_mod_to_equations; nia.
    + destruct (Hbump ltac:(lia)) as [-> ->]. done.
  - rewrite HTM. set (q := (256 ^ (Z.of_nat 0 + 1))%Z). change q with 256%Z.
    replace (_ - _ - (_ - _))%Z with (k - 256)%Z by (subst k; lia). rewrite u32_check_mod by (by left).
    rewrite Z.land_ones by lia. change (2 ^ 8)%Z with 256%Z.
    rewrite <- Znumtheory.Zmod_div_mod by (done || by apply Z.mod_divide). rewrite <- (Z_mod_plus_full _ 1), Z.mul_1_l.
    replace (k - 256 + 256)%Z with k by lia.
    assert (0 < k <= 256)%Z as Hk1.
    { subst k. unfold u32_modulus, stride in *. revert HTM HT Hc. clear. cbn -[Z.div]. intros. Z.div_mod_to_equations; lia. }
    destruct (Hbump ltac:(lia)) as [-> ->]. destruct (Z.eqb_spec (k mod 256) 0) as [Hk0|Hk0].
    + assert (k = 256%Z) as -> by (Z.div_mod_to_equations; lia).
      rewrite (proj2 (Z.ltb_lt _ _)); [done|]. revert HTM HT Hc. clear. unfold u32_modulus. intros. Z.div_mod_to_equations; lia.
    + assert (k mod 256 = k)%Z as ->; [|done]. apply Z.mod_small.
      destruct (decide (k = 256%Z)) as [Hk2|]; [|lia]. rewrite Hk2 in Hk0. by destruct Hk0.
Qed.

(** What the loop maintains on its way to [T], before the part [j]. *)
Definition towards (debug : bool) (T : Z) (j : nat) c : Prop :=
  (0 <= c <= T)%Z ∧ (∀ x, (c < x <= T)%Z → j <= level x) ∧
  (T / u32_modulus = c / u32_modulus ∧ ((j < RATCHET_PART_COUNT)%nat → T / stride j - c / stride j < 256)
   ∨ j = 0%nat ∧ debug = false ∧ T / u32_modulus = c / u32_modulus + 1 ∧ T < c + u32_modulus)%Z.

Lemma towards_next debug T j c :
  j < RATCHET_PART_COUNT → towards debug T j c → towards debug T (S j) (Z.max c (T / stride j * stride j)).
Proof.
  intros Hj (Hc & Hlev & Hcase). set (m := Z.max c _).
  assert (0 < stride j)%Z as Hst by (destruct (stride_pos j); [done|unfold RATCHET_PART_COUNT in *; lia]).
  assert (T / stride j * stride j <= T < T / stride j * stride j + stride j)%Z as HT by (Z.div_mod_to_equations; nia).
  assert (c <= m <= T)%Z as Hm by lia. split; [lia|]. split; [|left; split].
  - intros x Hx. destruct (decide (level x <= j)) as [Hle|]; [|lia]. exfalso. apply (level_le j x Hj) in Hle.
    pose proof (Z.div_mod x (stride j)) as Hd. assert (T / stride j < x / stride j)%Z by (subst m; nia).
    assert (x / stride j <= T / stride j)%Z by (apply Z.div_le_mono; lia). lia.
  - pose proof (stride_modulus j Hj) as Hqs. set (q := (256 ^ (Z.of_nat j + 1))%Z) in *. assert (0 < u32_modulus)%Z as HM by done.
    assert (T / u32_modulus * u32_modulus <= T)%Z as HTM by (Z.div_mod_to_equations; nia).
    assert (T / u32_modulus * q <= T / stride j)%Z by (apply Z.div_le_lower_bound; nia).
    apply Z.le_antisymm; [apply Z.div_le_lower_bound; subst m; nia|apply Z.div_le_mono; lia].
  - intros HSj. assert (stride j = 256 * stride (S j))%Z as Hss.
    { unfold stride. unfold RATCHET_PART_COUNT in HSj. change 256%Z with (2 ^ 8)%Z. rewrite <- Z.pow_add_r by lia. f_equal. lia. }
    assert (T / stride (S j) < T / stride j * 256 + 256)%Z by (apply Z.div_lt_upper_bound; lia).
    assert (T / stride j * 256 <= m / stride (S j))%Z by (apply Z.div_le_lower_bound; lia). lia.
Qed.

Lemma advance_parts_run debug T n j c bs :
  j + n = RATCHET_PART_COUNT → length bs = RATCHET_LENGTH → towards debug T j c →
  advance_parts_to debug (T mod u32_modulus) (seq j n) {| inner := bs; counter := c mod u32_modulus |}
  = Ret {| inner := run c (Z.to_nat (T - c)) bs; counter := T mod u32_modulus |}.
Proof.
  revert j c bs. induction n as [|n IH]; intros j c bs Hjn Hl Ht.
  - destruct Ht as (Hc & Hlev & _). destruct (decide (c = T)) as [->|]; [by rewrite Z.sub_diag|].
    pose proof (Hlev T ltac:(lia)) as HT. pose proof (level_bound T). lia.
  - cbn [seq advance_parts_to]. assert (j < RATCHET_PART_COUNT) as Hj by lia.
    pose proof (towards_next _ _ _ _ Hj Ht) as Hnext. destruct Ht as (Hc & Hlev & Hcase).
    rewrite advance_part_run; [|done..|]; cycle 1.
    { destruct Hcase as [[??]|Hcase]; [left; auto|by right]. }
    set (m := Z.max c _) in *. cbn beta iota. rewrite IH; [|lia|by apply length_run|done].
    do 2 f_equal. assert (c <= m <= T)%Z as Hm by (destruct Hnext as [? _]; lia).
    replace (Z.to_nat (T - c)) with (Z.to_nat (m - c) + Z.to_nat (T - m)) by lia.
    rewrite run_add. f_equal. lia.
Qed.

(** The number of steps from an index to another, around the wrap-around. *)
Definition distance (from to : Z) : Z := (to - from) mod u32_modulus.

Lemma advance_to_run debug to r :
  ratchet_ok r → (0 <= to <= u32_max)%Z → debug = false ∨ (counter r <= to)%Z →
  ratchet_advance_to debug to r
  = Ret {| inner := run (counter r) (Z.to_nat (distance (counter r) to)) (inner r); counter := to |}.
Proof.
  destruct r as [bs c]. intros [Hl Hc] Hto Hd. cbn [inner counter] in *. unfold distance.
  set (d := ((to - c) mod u32_modulus)%Z). unfold u32_max in *. assert (0 < u32_modulus)%Z as HM by done.
  assert (d = to - c ∧ c <= to ∨ d = to - c + u32_modulus ∧ to < c)%Z as Hdist.
  { subst d. destruct (decide (c <= to)%Z); [left|right]; (split; [|lia]).
    - apply Z.mod_small. lia.
    - symmetry. apply (Z.mod_unique_pos _ _ (-1)); lia. }
  assert (to = (c + d) mod u32_modulus)%Z as Hto'.
  { destruct Hdist as [[-> _]|[-> _]]; [apply (Z.mod_unique_pos _ _ 0)|apply (Z.mod_unique_pos _ _ 1)]; lia. }
  pose proof (advance_parts_run debug (c + d) RATCHET_PART_COUNT 0 c bs eq_refl Hl) as Hrun.
  rewrite (Z.mod_small c), <- Hto' in Hrun by lia. unfold ratchet_advance_to. rewrite Hrun.
  - do 3 f_equal. lia.
  - split; [lia|]. split; [intros; lia|]. rewrite (Z.div_small c) by lia. destruct Hdist as [[-> ?]|[-> ?]].
    + left. replace (c + (to - c))%Z with to by lia. rewrite Z.div_small by lia. split; [done|]. intros _.
      unfold stride, u32_modulus in *. cbn -[Z.div]. Z.div_mod_to_equations; lia.
    + right. destruct Hd as [->|]; [|lia]. split_and!; [done..| |lia]. symmetry. apply (Z.div_unique_pos _ _ _ to); lia.
Qed.

Lemma advance_to_ok debug to r r' :
  ratchet_ok r → (0 <= to <= u32_max)%Z → debug = false ∨ (counter r <= to)%Z →
  ratchet_advance_to debug to r = Ret r' → ratchet_ok r' ∧ counter r' = to.
Proof.
  intros [Hl Hc] Hto Hd. rewrite advance_to_run by done. intros [= <-]. split; [|done]. split; [|done]. by apply length_run.
Qed.

(** C17. [Ratchet::advance_to] jumps to an index by hashing each of the four parts at
    most 256 times. From every well-formed ratchet and for every 32-bit target it
    returns what [advance] returns when it is called once per index in between. In a
    release build this includes targets before the counter, which are reached by
    wrapping around at 2^32; in a debug build the target is at or after the counter. *)
Theorem advance_to_is_advance debug to r :
  ratchet_ok r → (0 <= to <= u32_max)%Z → debug = false ∨ (counter r <= to)%Z →
  ratchet_advance_to debug to r = advance_times debug (Z.to_nat (distance (counter r) to)) r ∧
  ∃ r', ratchet_advance_to debug to r = Ret r' ∧ ratchet_ok r' ∧ counter r' = to.
Proof.
  intros Hr Hto Hd. destruct r as [bs c]. pose proof Hr as [Hl Hc]. cbn [inner counter] in *.
  rewrite advance_to_run by done. split.
  - assert (0 <= distance c to < u32_modulus)%Z as Hdist by (by apply Z.mod_pos_bound).
    pose proof (advance_run debug c (Z.to_nat (distance c to)) bs) as Hrun.
    rewrite (Z.mod_small c) in Hrun by (unfold u32_max in *; lia). cbn [inner counter]. rewrite Hrun; [|lia|].
    + do 2 f_equal. rewrite Z2Nat.id by lia. unfold distance. rewrite Zplus_mod_idemp_r. symmetry.
      replace (c + (to - c))%Z with to by lia. apply Z.mod_small. unfold u32_max in *. lia.
    + destruct Hd as [->|Hle]; [by left|right]. rewrite Z2Nat.id by lia. unfold distance, u32_max in *. rewrite Z.mod_small by lia. lia.
  - eexists. split; [done|]. split; [|done]. split; [by apply length_run|done].
Qed.

End ratchet.

(** A release build, around the wrap-around. *)
Lemma advance_to_is_advance_witness :
  let r := sample_ratchet (u32_max - 1) in
  distance (counter r) 1 = 3%Z ∧
  ratchet_advance_to false 1 r = advance_times false (Z.to_nat (distance (counter r) 1)) r ∧
  ∃ r', ratchet_advance_to false 1 r = Ret r' ∧ ratchet_ok r' ∧ counter r' = 1%Z.
Proof.
  split; [reflexivity|]. apply (advance_to_is_advance false 1 (sample_ratchet (u32_max - 1))); [done|done|by left].
Defined.
