(* ===== verification/MegolmSpec.v ===== *)
(** * Megolm sessions decrypt what they are sent

    The specification of a receiving session is the first index it knows. Messages
    and session keys survive their encodings, the invariant of an inbound session
    says that its latest ratchet is its initial one advanced, and the session behaves
    as its specification for messages that come in any order. *)

From S2P Require Import Prelude Bytes Cipher Megolm MegolmSession SampleCrypto MegolmRatchet.

(** ** Ratchets at an index *)

Section at_index.
Context `{!Primitives}.
Implicit Types r : Ratchet.

(** The ratchet [r], advanced to an index that is not before its own. *)
Definition ratchet_at r (index : Z) : Ratchet :=
  {| inner := run (counter r) (Z.to_nat (index - counter r)) (inner r); counter := index |}.

Lemma ratchet_at_self r : ratchet_at r (counter r) = r.
Proof. destruct r. unfold ratchet_at. cbn. by rewrite Z.sub_diag. Qed.

Lemma ratchet_at_at r i j : (counter r <= i <= j)%Z → ratchet_at (ratchet_at r i) j = ratchet_at r j.
Proof.
  intros Hij. unfold ratchet_at. cbn [inner counter]. f_equal.
  replace (Z.to_nat (j - counter r)) with (Z.to_nat (i - counter r) + Z.to_nat (j - i)) by lia.
  rewrite run_add. f_equal. lia.
Qed.

Lemma ratchet_at_ok r i : ratchet_ok r → (0 <= i <= u32_max)%Z → ratchet_ok (ratchet_at r i).
Proof. intros [Hl Hc] Hi. split; [by apply length_run|done]. Qed.

Lemma advance_to_at debug r to :
  ratchet_ok r → (counter r <= to <= u32_max)%Z → ratchet_advance_to debug to r = Ret (ratchet_at r to).
Proof.
  intros Hr Hto. pose proof Hr as [_ Hc]. rewrite advance_to_run; [|done|lia|right; lia].
  unfold ratchet_at, distance. unfold u32_max in *. by rewrite Z.mod_small by lia.
Qed.

Lemma advance_at debug r :
  ratchet_ok r → (counter r < u32_max)%Z → advance debug r = Ret (ratchet_at r (counter r + 1)).
Proof.
  intros [Hl Hc] Hlt. unfold advance. rewrite u32_check_ok by lia. unfold ratchet_at. do 2 f_equal.
  replace (counter r + 1 - counter r)%Z with 1%Z by lia. change (Z.to_nat 1) with 1. cbn [run].
  by rewrite Z.add_0_r.
Qed.

End at_index.

(** ** Encodings *)

Section wire.
Context `{!Primitives, !Ed25519, !ProstMegolm, !Base64}.
Implicit Types (m : MegolmMessage).

(** What a message of the current protocol looks like. *)
Definition message_ok m : Prop :=
  (0 <= message_index m <= u32_max)%Z ∧ (Z.of_nat (length (ciphertext m)) < 2 ^ 64)%Z ∧
  match message_mac m with
  | Truncated tag => version m = MAC_TRUNCATED_VERSION ∧ length tag = TRUNCATED_LEN
  | Full tag => version m = VERSION ∧ length tag = MAC_LENGTH
  end.

Lemma message_round_trip m : message_ok m → message_from_bytes (to_bytes m) = Ok m.
Proof.
  destruct m as [v ct idx tag sig]. intros (Hidx & Hct & Htag). unfold to_bytes, encode_message, encode_manual. cbn [version ciphertext message_index message_mac signature] in *.
  assert (∃ suffix, length (mac_bytes tag) + 64 = suffix ∧ byte_val (byte_of v) = v ∧
    (if (v =? VERSION)%Z then Some MESSAGE_SUFFIX_LENGTH
     else if (v =? MAC_TRUNCATED_VERSION)%Z then Some MESSAGE_TRUNCATED_SUFFIX_LENGTH else None) = Some suffix ∧
    ∀ rest, extract_mac (mac_bytes tag ++ rest) (v =? MAC_TRUNCATED_VERSION)%Z = tag) as (suffix & Hs & Hv & Hlen & Hmac).
  { destruct tag as [tag|tag]; destruct Htag as [-> Htag]; cbn [mac_bytes]; rewrite Htag.
    - exists MESSAGE_TRUNCATED_SUFFIX_LENGTH. split_and!; [done..|]. intros rest. cbn. by rewrite take_app_length'.
    - exists MESSAGE_SUFFIX_LENGTH. split_and!; [done..|]. intros rest. cbn -[MAC_LENGTH take]. by rewrite take_app_length'. }
  set (payload := protobuf_payload idx ct). assert (length payload >= 2) as Hp by (subst payload; cbn; rewrite !length_app; cbn; lia).
  unfold message_from_bytes. cbn [app]. rewrite Hv, Hlen. rewrite <- Hs in *. clear suffix Hs.
  assert (length (byte_of v :: payload ++ mac_bytes tag ++ signature_bytes sig) = S (length payload) + (length (mac_bytes tag) + 64)) as Hl.
  { cbn [length]. rewrite !length_app, length_signature_bytes. lia. }
  rewrite Hl. rewrite (proj2 (Nat.ltb_ge _ _)) by lia.
  rewrite Nat.add_sub. cbn [take drop]. rewrite take_app_length. rewrite drop_0. unfold payload at 1. rewrite decode_megolm_payload by done.
  assert (drop (S (length payload) + (length (mac_bytes tag) + 64) - SIGNATURE_LENGTH) (byte_of v :: payload ++ mac_bytes tag ++ signature_bytes sig) = signature_bytes sig) as ->.
  { rewrite app_assoc, app_comm_cons. apply drop_app_length'. unfold SIGNATURE_LENGTH. cbn [length]. rewrite length_app. lia. }
  rewrite signature_from_to_bytes. rewrite drop_app_length, Hmac. done.
Qed.

Lemma message_base64_round_trip m : message_ok m → message_from_base64 (to_base64 m) = Ok m.
Proof. intros Hm. unfold message_from_base64, to_base64. rewrite base64_round_trip. by apply message_round_trip. Qed.

Lemma read_exact_app n a b : length a = n → read_exact n (a ++ b) = Ok (a, b).
Proof.
  intros <-. unfold read_exact. rewrite length_app, (proj2 (Nat.ltb_ge _ _)) by lia.
  by rewrite take_app_length, drop_app_length.
Qed.

Definition key_ok (k : ExportedSessionKey) : Prop :=
  (0 <= ratchet_index k <= u32_max)%Z ∧ length (key_ratchet k) = RATCHET_LENGTH.

Lemma decode_key_to_bytes k v rest :
  key_ok k → (0 <= v < 256)%Z → decode_key v (to_bytes_with_version k v ++ rest) = Ok (k, rest).
Proof.
  destruct k as [idx bs vk]. intros [Hi Hl] Hv. unfold decode_key, to_bytes_with_version. cbn [ratchet_index key_ratchet key_signing_key] in *.
  rewrite <- !app_assoc. rewrite read_exact_app by done.
  assert (u_from_be_bytes [byte_of v] = v) as ->.
  { unfold u_from_be_bytes. cbn -[Z.mul Z.add byte_of]. rewrite byte_val_of, Z.mod_small; lia. }
  rewrite Z.eqb_refl. cbn [negb]. rewrite read_exact_app by apply length_to_be_bytes. rewrite read_exact_app by done.
  rewrite read_exact_app by apply length_key_bytes. rewrite key_from_to_bytes, u_from_to_be_bytes, Z.mod_small; [done|].
  unfold u32_max, u32_modulus in Hi. change (256 ^ Z.of_nat 4)%Z with (2 ^ 32)%Z. lia.
Qed.

(** An exported key survives its encoding. *)
Lemma exported_round_trip k : key_ok k → exported_from_bytes (exported_to_bytes k) = Ok k.
Proof.
  intros Hk. unfold exported_from_bytes, exported_to_bytes. rewrite <- (app_nil_r (to_bytes_with_version _ _)).
  by rewrite decode_key_to_bytes.
Qed.

(** So does a session key with a valid signature. *)
Lemma session_key_round_trip (k : SessionKey) :
  key_ok (session_key k) → ed_verify (key_signing_key (session_key k)) (key_signature_bytes k) (key_signature k) = true →
  session_key_from_base64 (session_key_to_base64 k) = Ok k.
Proof.
  intros Hk Hsig. unfold session_key_from_base64, session_key_to_base64. rewrite base64_round_trip.
  unfold session_key_from_bytes, session_key_to_bytes, key_signature_bytes in *. rewrite decode_key_to_bytes by done.
  rewrite <- (app_nil_r (signature_bytes _)) at 1. rewrite read_exact_app by apply length_signature_bytes.
  rewrite signature_from_to_bytes. rewrite take_app_length' by (rewrite length_app, length_signature_bytes; unfold SIGNATURE_LENGTH; lia).
  rewrite Hsig. by destruct k.
Qed.

End wire.

(** ** Inbound sessions *)

Section inbound.
Context `{!Primitives, !Ed25519, !Base64} (debug : bool).
Implicit Types (s other : InboundGroupSession) (index : Z).

(** The latest ratchet is the initial one, advanced. *)
Definition inbound_ok s : Prop :=
  ratchet_ok (initial_ratchet s) ∧ (counter (initial_ratchet s) <= counter (latest_ratchet s) <= u32_max)%Z ∧
  latest_ratchet s = ratchet_at (initial_ratchet s) (counter (latest_ratchet s)).

(** Sessions that differ at most in their latest ratchets. *)
Definition same_session s other : Prop :=
  initial_ratchet s = initial_ratchet other ∧ inbound_signing_key s = inbound_signing_key other ∧
  signing_key_verified s = signing_key_verified other ∧ inbound_config s = inbound_config other.

#[local] Instance same_session_equivalence : Equivalence same_session.
Proof. unfold same_session. split; red; intros; intuition congruence. Qed.

Lemma fresh_ok r vk verified cfg :
  ratchet_ok r →
  inbound_ok {| initial_ratchet := r; latest_ratchet := r; inbound_signing_key := vk; signing_key_verified := verified;
                inbound_config := cfg |}.
Proof. intros Hr. pose proof Hr as [_ ?]. split; [done|]. cbn. split; [lia|]. by rewrite ratchet_at_self. Qed.

Lemma set_latest_ok s index :
  inbound_ok s → (counter (initial_ratchet s) <= index <= u32_max)%Z →
  let s' := set_ratchets (initial_ratchet s) (ratchet_at (initial_ratchet s) index) s in
  inbound_ok s' ∧ same_session s s'.
Proof. intros (Hr & _ & _) Hi. split; [|done]. split; [done|]. by split. Qed.

(** [find_ratchet] finds the ratchet at every index from the first known one on. *)
Lemma find_ratchet_spec s index :
  inbound_ok s → (0 <= index <= u32_max)%Z →
  ∃ s', find_ratchet debug index s
        = Ret (if (first_known_index s <=? index)%Z then Some (ratchet_at (initial_ratchet s) index) else None, s') ∧
        inbound_ok s' ∧ same_session s s'.
Proof.
  intros Hs Hi. pose proof Hs as (Hr & Hl & Hlatest). pose proof Hr as [_ Hc]. unfold find_ratchet, first_known_index.
  destruct (Z.eqb_spec (counter (initial_ratchet s)) index) as [<-|Hne].
  { exists s. rewrite Z.leb_refl, ratchet_at_self. done. }
  destruct (Z.eqb_spec (counter (latest_ratchet s)) index) as [<-|Hne'].
  { exists s. rewrite (proj2 (Z.leb_le _ _)) by lia. by rewrite <- Hlatest. }
  destruct (Z.ltb_spec (counter (latest_ratchet s)) index) as [Hlt|Hge].
  - rewrite Hlatest, advance_to_at, ratchet_at_at by (first [apply ratchet_at_ok; [done|lia] | cbn; lia]).
    rewrite (proj2 (Z.leb_le _ _)) by lia. eexists. split; [done|]. apply set_latest_ok; [done|lia].
  - destruct (Z.ltb_spec (counter (initial_ratchet s)) index) as [Hlt|Hge'].
    + rewrite advance_to_at by (done || lia). rewrite (proj2 (Z.leb_le _ _)) by lia.
      eexists. split; [done|]. apply set_latest_ok; [done|lia].
    + rewrite (proj2 (Z.leb_gt _ _)) by lia. by exists s.
Qed.

(** [advance_to] moves the first known index forward. *)
Lemma inbound_advance_to_spec s index :
  inbound_ok s → (0 <= index <= u32_max)%Z →
  ∃ s', inbound_advance_to debug index s = Ret ((first_known_index s <? index)%Z, s') ∧ inbound_ok s' ∧
        initial_ratchet s' = ratchet_at (initial_ratchet s) (Z.max (first_known_index s) index) ∧
        inbound_signing_key s' = inbound_signing_key s ∧ signing_key_verified s' = signing_key_verified s ∧
        inbound_config s' = inbound_config s.
Proof.
  intros Hs Hi. pose proof Hs as (Hr & Hl & Hlatest). pose proof Hr as [_ Hc]. unfold inbound_advance_to, first_known_index.
  destruct (Z.ltb_spec (counter (initial_ratchet s)) index) as [Hlt|Hge].
  - rewrite advance_to_at by (done || lia). eexists. split; [done|]. rewrite Z.max_r by lia.
    split; [|done]. assert (ratchet_ok (ratchet_at (initial_ratchet s) index)) by (apply ratchet_at_ok; [done|lia]).
    destruct (Z.ltb_spec (counter (latest_ratchet s)) index); [by apply fresh_ok|].
    split; [done|]. cbn. split; [lia|]. by rewrite ratchet_at_at, <- Hlatest by lia.
  - exists s. rewrite Z.max_l, ratchet_at_self by lia. done.
Qed.

(** [get_cipher_at] and [export_at] are about the ratchet at the index. *)
Lemma get_cipher_at_spec s index :
  inbound_ok s → (0 <= index <= u32_max)%Z →
  get_cipher_at debug index s
  = Ret (if (first_known_index s <=? index)%Z then Some (new_megolm (inner (ratchet_at (initial_ratchet s) index))) else None).
Proof.
  intros Hs Hi. pose proof Hs as (Hr & _ & _). unfold get_cipher_at, first_known_index.
  destruct (Z.leb_spec (counter (initial_ratchet s)) index); [|done].
  destruct (Z.ltb_spec (counter (initial_ratchet s)) index); [by rewrite advance_to_at by (done || lia)|].
  assert (index = counter (initial_ratchet s)) as -> by lia. by rewrite ratchet_at_self.
Qed.

Lemma export_at_spec s index :
  inbound_ok s → (0 <= index <= u32_max)%Z →
  ∃ s', export_at debug index s
        = Ret (if (first_known_index s <=? index)%Z
               then Some (new_exported_key (ratchet_at (initial_ratchet s) index) (inbound_signing_key s)) else None, s') ∧
        inbound_ok s' ∧ same_session s s'.
Proof.
  intros Hs Hi. destruct (find_ratchet_spec s index Hs Hi) as (s' & Hf & Hok & Hsame). exists s'. unfold export_at.
  rewrite Hf. pose proof Hsame as (_ & Hk & _). rewrite Hk. by destruct (first_known_index s <=? index)%Z.
Qed.

(** [decrypt] leaves the session as it was, but for its latest ratchet. *)
Lemma inbound_decrypt_ok s m :
  inbound_ok s → (0 <= message_index m <= u32_max)%Z →
  ∃ res s', inbound_decrypt debug m s = Ret (res, s') ∧ inbound_ok s' ∧ same_session s s'.
Proof.
  intros Hs Hi. unfold inbound_decrypt. destruct (negb _); [by exists (Err SignatureInvalid), s|].
  destruct (find_ratchet_spec s _ Hs Hi) as (s' & -> & Hok & Hsame).
  destruct (first_known_index s <=? message_index m)%Z; [|by eexists _, s'].
  destruct (inbound_verify_mac s' _ m); [|by eexists _, s']. destruct (decrypt _ _); by eexists _, s'.
Qed.

(** ** Comparing and merging *)

Lemma ratchet_eq_spec r r' : ratchet_eq r r' = true ↔ r = r'.
Proof.
  unfold ratchet_eq. destruct r as [bs c], r' as [bs' c']. cbn. destruct (Z.eqb_spec c c') as [->|].
  - rewrite bool_decide_eq_true. split; [by intros ->|by intros [= ->]].
  - by split; [|intros [= _ ?]].
Qed.

(** Two sessions hold the same ratchet: from the later of their first indices on they
    agree. *)
Definition linked s other : Prop :=
  let index := Z.max (first_known_index s) (first_known_index other) in
  inbound_config s = inbound_config other ∧ inbound_signing_key s = inbound_signing_key other ∧
  ratchet_at (initial_ratchet s) index = ratchet_at (initial_ratchet other) index.

Lemma connected_spec s other :
  inbound_ok s → inbound_ok other →
  ∃ b s' other', connected debug s other = Ret (b, s', other') ∧ (b = true ↔ linked s other) ∧
    (inbound_ok s' ∧ same_session s s') ∧ (inbound_ok other' ∧ same_session other other').
Proof.
  intros Hs Ho. unfold connected. assert (same_session s s) as Hss by reflexivity. assert (same_session other other) as Hoo by reflexivity.
  destruct (decide (inbound_config s = inbound_config other)) as [Hc|Hc];
    [|rewrite (bool_decide_eq_false_2 (inbound_config _ = _)) by done; exists false, s, other; by split_and!; [|split; [|intros (? & ? & ?)]|..]].
  destruct (decide (inbound_signing_key s = inbound_signing_key other)) as [Hk|Hk];
    [|rewrite (bool_decide_eq_false_2 (inbound_signing_key _ = _)), orb_true_r by done; exists false, s, other; by split_and!; [|split; [|intros (? & ? & ?)]|..]].
  rewrite !bool_decide_eq_true_2 by done. cbn [negb orb].
  pose proof Hs as ([_ Hsc] & _). pose proof Ho as ([_ Hoc] & _). unfold linked, first_known_index in *.
  destruct (find_ratchet_spec s (counter (initial_ratchet other)) Hs Hoc) as (s' & -> & Hs' & Hss'). unfold first_known_index.
  destruct (Z.leb_spec (counter (initial_ratchet s)) (counter (initial_ratchet other))) as [Hle|Hgt].
  - eexists _, s', other. split; [done|]. split; [|done]. rewrite ratchet_eq_spec, Z.max_r, (ratchet_at_self (initial_ratchet other)) by lia. tauto.
  - pose proof Hss' as (<- & _ & _ & _).
    destruct (find_ratchet_spec other (counter (initial_ratchet s)) Ho Hsc) as (o' & -> & Ho' & Hoo'). unfold first_known_index.
    rewrite (proj2 (Z.leb_le _ _)) by lia. eexists _, s', o'. split; [done|]. split; [|done].
    rewrite ratchet_eq_spec, Z.max_l, (ratchet_at_self (initial_ratchet s)) by lia. tauto.
Qed.

Lemma compare_spec s other :
  inbound_ok s → inbound_ok other →
  ∃ ordering s' other', compare debug s other = Ret (ordering, s', other') ∧
    (linked s other ∧ ordering = match (first_known_index s ?= first_known_index other)%Z with Lt => Better | Eq => Equal | Gt => Worse end
     ∨ ¬ linked s other ∧ ordering = Unconnected) ∧
    (inbound_ok s' ∧ same_session s s') ∧ (inbound_ok other' ∧ same_session other other').
Proof.
  intros Hs Ho. destruct (connected_spec s other Hs Ho) as (b & s' & o' & Hc & Hb & [Hs' Hss] & [Ho' Hoo]).
  unfold compare. rewrite Hc. pose proof Hss as (Hi & _). pose proof Hoo as (Hi' & _). unfold first_known_index.
  rewrite <- Hi, <- Hi'. destruct b; eexists _, s', o'; (split; [done|]; split; [|done]).
  - left. split; [by apply Hb|done].
  - right. split; [by intros ?%Hb|done].
Qed.

(** [merged] knows the ratchet of [s] at every index that [s] knows. *)
Definition covers (merged s : InboundGroupSession) : Prop :=
  (first_known_index merged <= first_known_index s)%Z ∧
  ∀ index, (first_known_index s <= index)%Z →
    ratchet_at (initial_ratchet merged) index = ratchet_at (initial_ratchet s) index.

Lemma covers_self s : covers s s.
Proof. by split. Qed.

Lemma linked_covers s other :
  linked s other → (first_known_index s <= first_known_index other)%Z → covers s other.
Proof.
  unfold linked, first_known_index. intros (_ & _ & Heq) Hle. split; [done|]. unfold first_known_index. intros index Hi.
  rewrite Z.max_r, (ratchet_at_self (initial_ratchet other)) in Heq by lia. rewrite <- Heq.
  symmetry. apply ratchet_at_at. lia.
Qed.

Lemma linked_sym s other : linked s other → linked other s.
Proof. unfold linked. rewrite Z.max_comm. intros (? & ? & ?). done. Qed.

Lemma covers_same m s s' : initial_ratchet m = initial_ratchet s → covers s s' → covers m s'.
Proof. unfold covers, first_known_index. by intros ->. Qed.

Lemma merge_ok s other :
  inbound_ok s → inbound_ok other →
  ∃ merged s' other', merge debug s other = Ret (merged, s', other') ∧ ∀ m, merged = Some m → inbound_ok m.
Proof.
  intros Hs Ho. destruct (compare_spec s other Hs Ho) as (ord & s' & o' & Hc & _ & [(Hr & _) _] & [(Hr' & _) _]).
  unfold merge. rewrite Hc. eexists _, s', o'. split; [done|]. by destruct ord; intros m [= <-]; apply fresh_ok.
Qed.

(** Two inbound sessions merge exactly when they have the same configuration and
    signing key and their ratchets agree from the later of their first indices on. The
    merged session knows, at every index that one of the two knows, the ratchet that
    one has; its first index is the lower of the two and its signing key is verified
    as soon as one of them says so. The merge never panics and leaves both sessions as
    they were, but for their latest ratchets. *)
Theorem merge_covers_both s other :
  inbound_ok s → inbound_ok other →
  ∃ merged s' other', merge debug s other = Ret (merged, s', other') ∧
    inbound_ok s' ∧ same_session s s' ∧ inbound_ok other' ∧ same_session other other' ∧
    (is_Some merged ↔ linked s other) ∧
    ∀ m, merged = Some m →
      inbound_ok m ∧ covers m s ∧ covers m other ∧
      first_known_index m = Z.min (first_known_index s) (first_known_index other) ∧
      inbound_signing_key m = inbound_signing_key s ∧ inbound_config m = inbound_config s ∧
      signing_key_verified m = signing_key_verified s || signing_key_verified other.
Proof.
  intros Hs Ho. destruct (compare_spec s other Hs Ho) as (ord & s' & o' & Hc & Hord & [Hs' Hss] & [Ho' Hoo]).
  unfold merge. rewrite Hc. eexists _, s', o'. split; [done|]. do 4 (split; [done|]).
  pose proof Hss as (<- & <- & <- & <-). pose proof Hoo as (<- & _ & <- & _).
  destruct Hord as [[Hl ->]|[Hnl ->]]; [|split; [by split; [intros [? ?]|]|done]].
  pose proof (linked_sym _ _ Hl) as Hl'. pose proof Hs as (Hr & _). pose proof Ho as (Hr' & _).
  destruct (Z.compare_spec (first_known_index s) (first_known_index other)) as [Heq|Hlt|Hgt]; (split; [done|]; intros m [= <-]);
    (split; [by apply fresh_ok|]); unfold first_known_index at 1; cbn [initial_ratchet inbound_signing_key inbound_config signing_key_verified].
  - split; [by apply (covers_same _ s), covers_self|]. split; [apply (covers_same _ s); [done|]; apply linked_covers; [done|lia]|].
    split_and!; [unfold first_known_index in *; lia|done..].
  - split; [by apply (covers_same _ s), covers_self|]. split; [apply (covers_same _ s); [done|]; apply linked_covers; [done|lia]|].
    split_and!; [unfold first_known_index in *; lia|done..].
  - split; [apply (covers_same _ other); [done|]; apply linked_covers; [done|lia]|]. split; [by apply (covers_same _ other), covers_self|].
    split_and!; [unfold first_known_index in *; lia|done..].
Qed.

(** ** Reachable sessions *)

Lemma decode_key_ok v bs k rest : decode_key v bs = Ok (k, rest) → key_ok k.
Proof.
  unfold decode_key, read_exact. intros Hd. repeat (case_match; simplify_eq/=). split; cbn [ratchet_index key_ratchet].
  - pose proof (u_from_be_bytes_bound (take 4 (drop 1 bs))) as Hb.
    rewrite length_take_le in Hb; [|by apply Nat.ltb_ge]. unfold u32_max, u32_modulus. change (256 ^ Z.of_nat 4)%Z with (2 ^ 32)%Z in Hb. lia.
  - rewrite length_take_le; [done|]. by apply Nat.ltb_ge.
Qed.

(** The sessions that keys and pickles read from bytes and the operations of the
    session give. *)
Inductive reachable : InboundGroupSession → Prop :=
| reach_new bs key cfg : session_key_from_bytes bs = Ok key → reachable (new_inbound key cfg)
| reach_import bs key cfg : exported_from_bytes bs = Ok key → reachable (import key cfg)
| reach_decrypt m res s s' :
    (0 <= message_index m <= u32_max)%Z → reachable s → inbound_decrypt debug m s = Ret (res, s') → reachable s'
| reach_advance_to index b s s' :
    (0 <= index <= u32_max)%Z → reachable s → inbound_advance_to debug index s = Ret (b, s') → reachable s'
| reach_export_at index key s s' :
    (0 <= index <= u32_max)%Z → reachable s → export_at debug index s = Ret (key, s') → reachable s'
| reach_compare ordering s other s' other' :
    reachable s → reachable other → compare debug s other = Ret (ordering, s', other') → reachable s'
| reach_compare_other ordering s other s' other' :
    reachable s → reachable other → compare debug s other = Ret (ordering, s', other') → reachable other'
| reach_merge m s other s' other' :
    reachable s → reachable other → merge debug s other = Ret (Some m, s', other') → reachable m
| reach_pickle bs ratchet_bytes c vk verified cfg :
    ratchet_bytes_from_bytes bs = Ok ratchet_bytes → (0 <= c <= u32_max)%Z →
    reachable (from_pickle {| pickled_ratchet := {| inner := ratchet_bytes; counter := c |}; pickled_signing_key := vk;
                              pickled_verified := verified; pickled_config := cfg |}).

Lemma key_ratchet_ok k : key_ok k → ratchet_ok {| inner := key_ratchet k; counter := ratchet_index k |}.
Proof. by intros [? ?]. Qed.

(** Every session that can be reached has ratchets of 128 bytes with 32-bit
    counters, and its latest ratchet is the initial one advanced. On such a session
    every operation returns: no subtraction or addition overflows, also in a debug
    build, and the unreachable branch of [connected] is not reached. *)
Theorem reachable_session_typed s :
  reachable s →
  inbound_ok s ∧
  (∀ m, (0 <= message_index m <= u32_max)%Z → ∃ out, inbound_decrypt debug m s = Ret out) ∧
  (∀ index, (0 <= index <= u32_max)%Z →
     (∃ out, inbound_advance_to debug index s = Ret out) ∧ (∃ out, export_at debug index s = Ret out) ∧
     (∃ out, get_cipher_at debug index s = Ret out)) ∧
  (∀ other, reachable other → ∃ out, merge debug s other = Ret out).
Proof.
  assert (∀ s, reachable s → inbound_ok s) as Hok.
  { clear s. induction 1 as [bs k cfg Hk|bs k cfg Hk|m res s s' Hm _ IH Hd|i b s s' Hi _ IH Hd|i k s s' Hi _ IH Hd
      |ord s o s' o' _ IH _ IHo Hd|ord s o s' o' _ IH _ IHo Hd|m s o s' o' _ IH _ IHo Hd|bs rb c vk b cfg Hb Hc].
    - apply fresh_ok, key_ratchet_ok. unfold session_key_from_bytes in Hk.
      destruct (decode_key _ bs) as [[k' rest]|] eqn:Hd; [|done]. apply decode_key_ok in Hd. by repeat (case_match; simplify_eq/=).
    - apply fresh_ok, key_ratchet_ok. unfold exported_from_bytes in Hk.
      destruct (decode_key _ bs) as [[k' rest]|] eqn:Hd; [|done]. apply decode_key_ok in Hd. by simplify_eq.
    - destruct (inbound_decrypt_ok s m IH Hm) as (? & ? & Heq & ? & _). by same_result.
    - destruct (inbound_advance_to_spec s i IH Hi) as (? & Heq & ? & _). by same_result.
    - destruct (export_at_spec s i IH Hi) as (? & Heq & ? & _). by same_result.
    - destruct (compare_spec s o IH IHo) as (? & ? & ? & Heq & _ & [? _] & _). by same_result.
    - destruct (compare_spec s o IH IHo) as (? & ? & ? & Heq & _ & _ & [? _]). by same_result.
    - destruct (merge_ok s o IH IHo) as (? & ? & ? & Heq & Hm). same_result. by apply Hm.
    - apply fresh_ok. unfold ratchet_bytes_from_bytes in Hb. destruct (Nat.eqb_spec (length bs) RATCHET_LENGTH); [|done]. by simplify_eq/=. }
  intros Hs. apply Hok in Hs. split; [done|]. split; [|split].
  - intros m Hm. destruct (inbound_decrypt_ok s m Hs Hm) as (? & ? & -> & _). by eexists.
  - intros i Hi. destruct (inbound_advance_to_spec s i Hs Hi) as (? & -> & _), (export_at_spec s i Hs Hi) as (? & -> & _).
    rewrite get_cipher_at_spec by done. by split_and!; eexists.
  - intros o Ho. destruct (merge_ok s o Hs (Hok _ Ho)) as (? & ? & ? & -> & _). by eexists.
Qed.

End inbound.

(** ** Delivery *)

Section delivery.
Context `{!Primitives, !Ed25519, !Base64, !ProstMegolm} (debug : bool).
Context `{!Pickled InboundGroupSessionPickle (λ p, ratchet_ok (pickled_ratchet p))}.
Context `{!Pickled GroupSessionPickle (λ p, ratchet_ok (group_pickled_ratchet p))}.

(** The sender: the messages of a list of plaintexts. *)
Fixpoint encrypt_all (plaintexts : list bytes) (g : GroupSession) : panics (list MegolmMessage * GroupSession) :=
  match plaintexts with
  | [] => Ret ([], g)
  | plaintext :: plaintexts =>
      let! (m, g) := group_encrypt debug plaintext g in
      let! (ms, g) := encrypt_all plaintexts g in
      Ret (m :: ms, g)
  end.

(** What is asked of the receiver: to read the [i]-th message sent, to be written to
    an encrypted pickle and read back, to forget the messages before an index. *)
Inductive request :=
| Read (i : nat)
| Reload (pickle_key : bytes)
| Forget (index : Z).

Inductive reply :=
| NotSent
| Undecodable (e : DecodeError)
| Decrypted (r : result DecryptionError DecryptedMessage)
| Reloaded (r : result PickleError ())
| Forgotten (advanced : bool).

(** The receiver, which gets the messages as base64. *)
Definition receiver_step (wire : list string) (rq : request) (s : InboundGroupSession) :
    panics (reply * InboundGroupSession) :=
  match rq with
  | Read i =>
      match wire !! i with
      | None => Ret (NotSent, s)
      | Some text =>
          match message_from_base64 text with
          | Err e => Ret (Undecodable e, s)
          | Ok m => let! (r, s) := inbound_decrypt debug m s in Ret (Decrypted r, s)
          end
      end
  | Reload key =>
      match unpickle (pickle (inbound_pickle s) key) key with
      | Err e => Ret (Reloaded (Err e), s)
      | Ok p => Ret (Reloaded (Ok ()), from_pickle p)
      end
  | Forget index => let! (b, s) := inbound_advance_to debug index s in Ret (Forgotten b, s)
  end.

Fixpoint receiver_run (wire : list string) (rqs : list request) (s : InboundGroupSession) :
    panics (list reply * InboundGroupSession) :=
  match rqs with
  | [] => Ret ([], s)
  | rq :: rqs =>
      let! (a, s) := receiver_step wire rq s in
      let! (rest, s) := receiver_run wire rqs s in
      Ret (a :: rest, s)
  end.

(** The specification: a receiver is the first index it knows. *)
Definition spec_step (plaintexts : list bytes) (base : Z) (rq : request) (first : Z) : reply * Z :=
  match rq with
  | Read i =>
      match plaintexts !! i with
      | None => (NotSent, first)
      | Some p =>
          let index := (base + Z.of_nat i)%Z in
          (Decrypted (if (first <=? index)%Z then Ok {| plaintext := p; decrypted_index := index |}
                      else Err (UnknownMessageIndex first index)), first)
      end
  | Reload _ => (Reloaded (Ok ()), first)
  | Forget index => (Forgotten (first <? index)%Z, Z.max first index)
  end.

Fixpoint spec_run (plaintexts : list bytes) (base : Z) (rqs : list request) (first : Z) : list reply :=
  match rqs with
  | [] => []
  | rq :: rqs => let '(a, first) := spec_step plaintexts base rq first in a :: spec_run plaintexts base rqs first
  end.

Definition request_ok (rq : request) : Prop := match rq with Forget index => (0 <= index <= u32_max)%Z | _ => True end.

(** The message of a plaintext under a ratchet. *)
Definition sealed (r : Ratchet) (key : SigningKey) (cfg : Version) (p : bytes) (m : MegolmMessage) : Prop :=
  let cipher := new_megolm (inner r) in
  ciphertext m = encrypt cipher p ∧ message_index m = counter r ∧
  (match cfg with
   | V1 => version m = MAC_TRUNCATED_VERSION ∧ message_mac m = Truncated (truncate (mac cipher (to_mac_bytes m)))
   | V2 => version m = VERSION ∧ message_mac m = Full (mac cipher (to_mac_bytes m))
   end) ∧ signature m = ed_sign key (to_signature_bytes m).

Lemma zero_signature_returns : ∃ sig, zero_signature = Ret sig.
Proof. unfold zero_signature. destruct (signature_of_length (replicate SIGNATURE_LENGTH x00)) as [sig ->]; [done|]. by exists sig. Qed.

Lemma group_encrypt_spec p g :
  ratchet_ok (ratchet g) → (counter (ratchet g) < u32_max)%Z →
  ∃ m, group_encrypt debug p g
       = Ret (m, {| ratchet := ratchet_at (ratchet g) (counter (ratchet g) + 1); signing_key := signing_key g; config := config g |}) ∧
       sealed (ratchet g) (signing_key g) (config g) p m.
Proof.
  intros Hr Hc. unfold group_encrypt, encrypt_truncated_mac, encrypt_full_mac. destruct zero_signature_returns as [sig ->].
  rewrite advance_at by done. destruct (config g) eqn:Hcfg; (eexists; split; [done|]); done.
Qed.

Lemma sealed_ok r key cfg p m :
  ratchet_ok r → (Z.of_nat (length p) < 2 ^ 63)%Z → sealed r key cfg p m → message_ok m.
Proof.
  intros [_ Hc] Hp (Hct & Hi & Hm & _). unfold message_ok. rewrite Hct, Hi. split; [done|]. split.
  - unfold encrypt. rewrite length_aes_encrypt. rewrite Nat2Z.inj_mul, Nat2Z.inj_add, Nat2Z.inj_div. Z.div_mod_to_equations; lia.
  - destruct cfg; destruct Hm as [Hv ->]; (split; [done|]); unfold truncate, mac; rewrite ?length_take, length_hmac; done.
Qed.

(** A receiver that holds the ratchet [r] from the index [first] on. *)
Definition tracks (r : Ratchet) (key : SigningKey) (cfg : Version) (first : Z) (s : InboundGroupSession) : Prop :=
  inbound_ok s ∧ (0 <= counter r <= first)%Z ∧ initial_ratchet s = ratchet_at r first ∧
  inbound_signing_key s = verifying_key key ∧ inbound_config s = cfg.

Lemma tracks_same r key cfg first s s' :
  tracks r key cfg first s → inbound_ok s' → same_session s s' → tracks r key cfg first s'.
Proof. unfold tracks, same_session. intuition congruence. Qed.

Lemma sealed_mac_verifies s r key cfg p m :
  sealed r key cfg p m → inbound_config s = cfg → inbound_verify_mac s (new_megolm (inner r)) m = Ok ().
Proof.
  intros (_ & _ & Hm & _) <-. unfold inbound_verify_mac. destruct (inbound_config s); destruct Hm as [_ ->].
  - by rewrite verify_truncate.
  - unfold verify_mac. by rewrite bool_decide_eq_true_2.
Qed.

(** One message: it is decrypted when its index is known. *)
Lemma decrypt_sealed r key cfg first s p m :
  tracks r key cfg first s → (counter r <= message_index m <= u32_max)%Z →
  sealed (ratchet_at r (message_index m)) key cfg p m →
  ∃ s', inbound_decrypt debug m s
        = Ret (if (first <=? message_index m)%Z then Ok {| plaintext := p; decrypted_index := message_index m |}
               else Err (UnknownMessageIndex first (message_index m)), s') ∧ tracks r key cfg first s'.
Proof.
  intros Ht Hi Hsealed. pose proof Ht as (Hs & Hf & Hinit & Hk & Hcfg). pose proof Hsealed as (Hct & _ & _ & Hsig).
  unfold inbound_decrypt. rewrite Hk, Hsig, ed_verify_sign. cbn [negb].
  assert (first_known_index s = first) as Hfirst by (unfold first_known_index; by rewrite Hinit).
  destruct (find_ratchet_spec debug s (message_index m) Hs ltac:(lia)) as (s' & -> & Hs' & Hss).
  pose proof (tracks_same _ _ _ _ _ _ Ht Hs' Hss) as Ht'. rewrite Hfirst.
  destruct (Z.leb_spec first (message_index m)) as [Hle|Hgt].
  - rewrite Hinit, ratchet_at_at by lia. destruct Ht' as (_ & _ & _ & _ & Hcfg').
    rewrite (sealed_mac_verifies s' _ _ _ _ _ Hsealed Hcfg'), Hct. unfold new_megolm. rewrite decrypt_encrypt. eexists. split; [done|]. by eapply tracks_same.
  - pose proof Hss as (<- & _). unfold first_known_index in Hfirst. rewrite Hfirst. by exists s'.
Qed.

Lemma encrypt_all_spec ps g :
  ratchet_ok (ratchet g) → (counter (ratchet g) + Z.of_nat (length ps) <= u32_max)%Z →
  ∃ ms, encrypt_all ps g
        = Ret (ms, {| ratchet := ratchet_at (ratchet g) (counter (ratchet g) + Z.of_nat (length ps));
                      signing_key := signing_key g; config := config g |}) ∧
        length ms = length ps ∧
        ∀ i p m, ps !! i = Some p → ms !! i = Some m →
          sealed (ratchet_at (ratchet g) (counter (ratchet g) + Z.of_nat i)) (signing_key g) (config g) p m.
Proof.
  revert g. induction ps as [|p ps IH]; intros g Hr Hl; cbn [encrypt_all].
  - exists []. cbn [length]. rewrite Z.add_0_r, ratchet_at_self. by destruct g.
  - pose proof Hr as [_ Hc]. cbn [length] in *. destruct (group_encrypt_spec p g Hr ltac:(lia)) as (m & -> & Hm).
    edestruct IH as (ms & -> & Hms & Hsealed); [|cbn; lia|]; [apply ratchet_at_ok; [done|lia]|].
    cbn [ratchet signing_key config counter ratchet_at] in *. exists (m :: ms). split_and!.
    + do 3 f_equal. change (ratchet_at (ratchet_at (ratchet g) (counter (ratchet g) + 1)) (counter (ratchet g) + 1 + Z.of_nat (length ps))
        = ratchet_at (ratchet g) (counter (ratchet g) + Z.of_nat (S (length ps)))). rewrite ratchet_at_at by lia. f_equal. lia.
    + cbn. by rewrite Hms.
    + intros [|i] q n Hq Hn; cbn in Hq, Hn.
      * simplify_eq. rewrite Z.add_0_r. by rewrite ratchet_at_self.
      * specialize (Hsealed i q n Hq Hn). fold (ratchet_at (ratchet g) (counter (ratchet g) + 1)) in Hsealed.
        rewrite ratchet_at_at in Hsealed by lia. replace (counter (ratchet g) + Z.of_nat (S i))%Z with (counter (ratchet g) + 1 + Z.of_nat i)%Z by lia. done.
Qed.

Lemma encrypt_all_app ps qs g ms g1 ns g2 all g3 :
  encrypt_all ps g = Ret (ms, g1) → encrypt_all qs g1 = Ret (ns, g2) → encrypt_all (ps ++ qs) g = Ret (all, g3) → all = ms ++ ns.
Proof.
  revert g ms all. induction ps as [|p ps IH]; intros g ms all; cbn [encrypt_all app].
  - intros [= <- <-] Hq Ha. by same_result.
  - intros Hp Hq Ha. destruct (group_encrypt debug p g) as [[m g']| | |]; [|done..].
    destruct (encrypt_all ps g') as [[ms' g'']| | |] eqn:Hps; [|done..]. injection Hp as <- <-.
    destruct (encrypt_all (ps ++ qs) g') as [[all' g3']| | |] eqn:Hall; [|done..]. injection Ha as <- <-.
    cbn. f_equal. by eapply IH.
Qed.

Lemma export_session_key_spec g :
  ratchet_ok (ratchet g) →
  ∃ key, export_session_key g = Ret key ∧ session_key key = new_exported_key (ratchet g) (verifying_key (signing_key g)) ∧
         session_key_from_base64 (session_key_to_base64 key) = Ok key.
Proof.
  intros [Hl Hc]. unfold export_session_key. destruct zero_signature_returns as [sig ->]. eexists. split; [done|]. split; [done|].
  apply session_key_round_trip; [done|]. cbn. apply ed_verify_sign.
Qed.

(** The sender, written to an encrypted pickle and read back, is the same. *)
Lemma group_reloads g key :
  ratchet_ok (ratchet g) →
  ∃ p, unpickle (pickle (group_pickle g) key) key = Ok p ∧ group_from_pickle p = g.
Proof. intros Hr. exists (group_pickle g). rewrite unpickle_pickle by done. split; [done|]. by destruct g. Qed.

(** One request, against the specification. *)
Lemma receiver_step_spec r key cfg first s ps ms rq :
  tracks r key cfg first s → length ms = length ps → (counter r + Z.of_nat (length ps) <= u32_max)%Z →
  (∀ i p m, ps !! i = Some p → ms !! i = Some m →
     message_ok m ∧ sealed (ratchet_at r (counter r + Z.of_nat i)) key cfg p m) → request_ok rq →
  ∃ s', receiver_step (to_base64 <$> ms) rq s = Ret ((spec_step ps (counter r) rq first).1, s') ∧
        tracks r key cfg (spec_step ps (counter r) rq first).2 s'.
Proof.
  intros Ht Hlen Hmax Hms Hrq. destruct rq as [i|pk|index]; cbn [receiver_step spec_step].
  - rewrite list_lookup_fmap. destruct (ps !! i) as [p|] eqn:Hp.
    + assert (i < length ps) as Hi by (by eapply lookup_lt_Some). destruct (lookup_lt_is_Some_2 ms i ltac:(lia)) as [m Hm].
      destruct (Hms i p m Hp Hm) as [Hok Hsealed]. rewrite Hm. cbn [fmap option_fmap option_map]. rewrite message_base64_round_trip by done.
      assert (message_index m = counter r + Z.of_nat i)%Z as Hidx by (by destruct Hsealed as (_ & ? & _)).
      destruct (decrypt_sealed r key cfg first s p m Ht) as (s' & -> & Ht'); [lia|by rewrite Hidx|]. rewrite Hidx. by exists s'.
    + apply lookup_ge_None in Hp. rewrite (lookup_ge_None_2 ms) by lia. by exists s.
  - destruct Ht as ((Hr & _) & ? & ? & ? & ?). rewrite unpickle_pickle by done. eexists. split; [done|]. split; [by apply fresh_ok|done].
  - destruct Ht as (Hs & Hf & Hinit & Hk & Hcfg). assert (first_known_index s = first) as Hfirst by (unfold first_known_index; by rewrite Hinit).
    destruct (inbound_advance_to_spec debug s index Hs Hrq) as (s' & -> & Hs' & Hinit' & Hk' & _ & Hcfg').
    rewrite Hfirst in *. exists s'. split; [done|]. cbn [fst snd]. split_and!; [done|lia|lia| |congruence..].
    rewrite Hinit', Hinit. apply ratchet_at_at. lia.
Qed.

(** Any number of requests. *)
Lemma receiver_run_spec r key cfg ps ms rqs first s :
  tracks r key cfg first s → length ms = length ps → (counter r + Z.of_nat (length ps) <= u32_max)%Z →
  (∀ i p m, ps !! i = Some p → ms !! i = Some m →
     message_ok m ∧ sealed (ratchet_at r (counter r + Z.of_nat i)) key cfg p m) → Forall request_ok rqs →
  ∃ s', receiver_run (to_base64 <$> ms) rqs s = Ret (spec_run ps (counter r) rqs first, s').
Proof.
  intros Ht Hlen Hmax Hms Hrqs. revert first s Ht. induction Hrqs as [|rq rqs Hrq _ IH]; intros first s Ht; [by exists s|].
  cbn [receiver_run spec_run]. edestruct receiver_step_spec as (s' & -> & Ht'); [done..|].
  destruct (spec_step ps (counter r) rq first) as [a first']. destruct (IH first' s' Ht') as (s'' & ->). by exists s''.
Qed.

(** C7. A group session sends [before], its session key is exported, and it sends
    [after]. The key survives its base64 encoding, and a receiver made from it then
    answers every sequence of requests as its specification, the first index it
    knows: it decrypts every message from that index on to its plaintext and index, in
    any order and any number of times, refuses the messages before it with the error
    for an unknown index, is not changed by being pickled under any key and read back,
    and forgets exactly the messages before an index it is advanced to. The messages
    travel as base64. Neither side panics, in debug and in release builds, as long as
    the counter does not pass 2^32 - 1. *)
Theorem megolm_delivery before after rqs (g : GroupSession) :
  ratchet_ok (ratchet g) →
  (counter (ratchet g) + Z.of_nat (length (before ++ after)) <= u32_max)%Z →
  Forall (λ p, Z.of_nat (length p) < 2 ^ 63)%Z (before ++ after) →
  Forall request_ok rqs →
  ∃ sent g1 key sent' g2 s',
    encrypt_all before g = Ret (sent, g1) ∧
    export_session_key g1 = Ret key ∧
    encrypt_all after g1 = Ret (sent', g2) ∧
    session_key_from_base64 (session_key_to_base64 key) = Ok key ∧
    receiver_run (to_base64 <$> sent ++ sent') rqs (new_inbound key (config g))
    = Ret (spec_run (before ++ after) (counter (ratchet g)) rqs (counter (ratchet g) + Z.of_nat (length before)), s').
Proof.
  intros Hr Hmax Hps Hrqs. pose proof Hr as [_ Hc]. rewrite length_app in Hmax.
  destruct (encrypt_all_spec (before ++ after) g Hr) as (all & Hall & Hlen & Hsealed); [rewrite length_app; lia|].
  destruct (encrypt_all_spec before g Hr) as (sent & Hsent & Hlen1 & _); [lia|].
  set (g1 := {| ratchet := _; signing_key := _; config := _ |}) in Hsent.
  assert (ratchet_ok (ratchet g1)) as Hr1 by (apply ratchet_at_ok; [done|lia]).
  destruct (encrypt_all_spec after g1 Hr1) as (sent' & Hsent' & Hlen2 & _); [cbn; lia|].
  destruct (export_session_key_spec g1 Hr1) as (key & Hkey & Hexp & Hdec).
  assert (all = sent ++ sent') as -> by (eapply encrypt_all_app; eauto).
  eexists sent, g1, key, sent', _.
  edestruct (receiver_run_spec (ratchet g) (signing_key g) (config g) (before ++ after) (sent ++ sent') rqs
    (counter (ratchet g) + Z.of_nat (length before)) (new_inbound key (config g))) as (s' & Hrun); [| | | |done|].
  - unfold tracks, new_inbound. cbn. rewrite Hexp. split; [by apply fresh_ok|]. by split_and!; [lia|lia|..].
  - done.
  - rewrite length_app. lia.
  - intros i p m Hp Hm. pose proof (Hsealed i p m Hp Hm) as Hs. split; [|done].
    assert (i < length (before ++ after)) as Hi by (by eapply lookup_lt_Some). rewrite length_app in Hi.
    eapply sealed_ok; [|by eapply (Forall_lookup_1 _ _ _ _ Hps)|done]. apply ratchet_at_ok; [done|lia].
  - by exists s'.
Qed.

End delivery.

(** ** Examples *)

Lemma sample_ratchet_ok c : (0 <= c <= u32_max)%Z → ratchet_ok (sample_ratchet c).
Proof. done. Qed.

Lemma merge_covers_both_witness :
  ∃ merged s' other', merge true (sample_inbound 9 true) (sample_inbound 9 false) = Ret (merged, s', other') ∧
    inbound_ok s' ∧ same_session (sample_inbound 9 true) s' ∧ inbound_ok other' ∧ same_session (sample_inbound 9 false) other' ∧
    (is_Some merged ↔ linked (sample_inbound 9 true) (sample_inbound 9 false)) ∧
    ∀ m, merged = Some m →
      inbound_ok m ∧ covers m (sample_inbound 9 true) ∧ covers m (sample_inbound 9 false) ∧
      first_known_index m = Z.min (first_known_index (sample_inbound 9 true)) (first_known_index (sample_inbound 9 false)) ∧
      inbound_signing_key m = inbound_signing_key (sample_inbound 9 true) ∧
      inbound_config m = inbound_config (sample_inbound 9 true) ∧
      signing_key_verified m = signing_key_verified (sample_inbound 9 true) || signing_key_verified (sample_inbound 9 false).
Proof. apply (merge_covers_both true (sample_inbound 9 true) (sample_inbound 9 false)); by apply fresh_ok, sample_ratchet_ok. Defined.

(** The bytes of an exported key, read back. *)
Definition sample_key_bytes : bytes := exported_to_bytes (new_exported_key (sample_ratchet 7) x62).

Lemma sample_key_read : exported_from_bytes sample_key_bytes = Ok (new_exported_key (sample_ratchet 7) x62).
Proof. apply exported_round_trip. by split. Qed.

Lemma reachable_session_typed_witness :
  let s := import (new_exported_key (sample_ratchet 7) x62) V1 in
  reachable true s ∧ inbound_ok s ∧
  (∀ m, (0 <= message_index m <= u32_max)%Z → ∃ out, inbound_decrypt true m s = Ret out) ∧
  (∀ index, (0 <= index <= u32_max)%Z →
     (∃ out, inbound_advance_to true index s = Ret out) ∧ (∃ out, export_at true index s = Ret out) ∧
     (∃ out, get_cipher_at true index s = Ret out)) ∧
  (∀ other, reachable true other → ∃ out, merge true s other = Ret out).
Proof.
  assert (reachable true (import (new_exported_key (sample_ratchet 7) x62) V1)) as Hr by (eapply reach_import, sample_key_read).
  split; [exact Hr|]. apply (reachable_session_typed true _ Hr).
Defined.

Lemma megolm_delivery_witness :
  let rqs := [Read 2; Read 0; Reload [x01]; Read 1; Forget 9; Read 1; Read 2] in
  spec_run ([[x61]] ++ [[x62]; [x63]]) 7 rqs 8
  = [Decrypted (Ok {| plaintext := [x63]; decrypted_index := 9 |}); Decrypted (Err (UnknownMessageIndex 8 7)); Reloaded (Ok ());
     Decrypted (Ok {| plaintext := [x62]; decrypted_index := 8 |}); Forgotten true; Decrypted (Err (UnknownMessageIndex 9 8));
     Decrypted (Ok {| plaintext := [x63]; decrypted_index := 9 |})] ∧
  ∃ sent g1 key sent' g2 s',
    encrypt_all true [[x61]] sample_group = Ret (sent, g1) ∧
    export_session_key g1 = Ret key ∧
    encrypt_all true [[x62]; [x63]] g1 = Ret (sent', g2) ∧
    session_key_from_base64 (session_key_to_base64 key) = Ok key ∧
    receiver_run true (to_base64 <$> sent ++ sent') rqs (new_inbound key (config sample_group))
    = Ret (spec_run ([[x61]] ++ [[x62]; [x63]]) 7 rqs (7 + Z.of_nat (length [[x61]])), s').
Proof.
  split; [reflexivity|]. apply (megolm_delivery true [[x61]] [[x62]; [x63]] _ sample_group).
  - by apply sample_ratchet_ok.
  - done.
  - by repeat constructor.
  - repeat constructor; done.
Defined.
