(* ===== verification/Olm.v ===== *)
(** * Olm

    [crates/common-olm/src/olm]: the keys of the double ratchet, messages, receiver
    chains, the sending ratchet and sessions. A secret key that the code draws at
    random is an argument, [fresh]; an operation that changes a session returns the
    new session, also with an error. X25519 and the protocol buffers crate are
    parameters.

    A concrete key exchange for the examples comes last. *)

From S2P Require Import Prelude Bytes Cipher Megolm SampleCrypto.

(** ** Curve25519 *)

(** [x25519_dalek]. [diffie_hellman] is [None] when the shared secret is all zero,
    which does not happen for public keys made from secret keys. *)
Class Curve25519 : Type := {
  SecretKey : Type;
  PublicKey : Type;
  PublicKey_eq_dec :: EqDecision PublicKey;
  PublicKey_countable :: Countable PublicKey;
  public_of : SecretKey → PublicKey;
  diffie_hellman : SecretKey → PublicKey → option bytes;
  diffie_hellman_comm a b : diffie_hellman a (public_of b) = diffie_hellman b (public_of a);
  diffie_hellman_contributory a b : is_Some (diffie_hellman a (public_of b));
  public_bytes : PublicKey → bytes;
  public_from_slice : bytes → option PublicKey;
  length_public_bytes key : length (public_bytes key) = 32;
  public_from_to_bytes key : public_from_slice (public_bytes key) = Some key
}.

(** ** 64-bit counters *)

Definition u64_max : Z := 2 ^ 64 - 1.

Definition u64_check (debug : bool) (z : Z) : panics Z :=
  if ((0 <=? z) && (z <=? u64_max))%Z then Ret z else if debug then Panic else Ret (z mod 2 ^ 64)%Z.

(** [ArrayVec::push] *)
Definition array_push {A} (capacity : nat) (v : list A) (x : A) : panics (list A) :=
  if length v <? capacity then Ret (v ++ [x]) else Panic.

(** The stores of message keys and of chains make room first. *)
Definition store_push {A} (capacity : nat) (v : list A) (x : A) : panics (list A) :=
  array_push capacity (if length v =? capacity then drop 1 v else v) x.

(** ** Chain keys *)

Definition MESSAGE_KEY_SEED : bytes := [x01].
Definition ADVANCEMENT_SEED : bytes := [x02].

(** [ChainKey] and [RemoteChainKey] have the same fields. *)
Record ChainKey := { chain_key : bytes; index : Z }.

Record RemoteMessageKey := { remote_key : bytes; remote_index : Z }.

Record MessageKey `{!Curve25519} := { message_key : bytes; message_ratchet_key : PublicKey; message_chain_index : Z }.

Section chain_key.
Context `{!Primitives, !Curve25519} (debug : bool).

Definition expand_chain_key (key : bytes) : bytes := hmac_sha256 key MESSAGE_KEY_SEED.
Definition advance_chain_key (key : bytes) : bytes := hmac_sha256 key ADVANCEMENT_SEED.

Definition chain_advance (c : ChainKey) : panics ChainKey :=
  let! next := u64_check debug (index c + 1) in
  Ret {| chain_key := advance_chain_key (chain_key c); index := next |}.

Definition create_remote_message_key (c : ChainKey) : panics (RemoteMessageKey * ChainKey) :=
  let key := {| remote_key := expand_chain_key (chain_key c); remote_index := index c |} in
  let! c := chain_advance c in
  Ret (key, c).

Definition create_message_key (ratchet_key : PublicKey) (c : ChainKey) : panics (MessageKey * ChainKey) :=
  let key := {| message_key := expand_chain_key (chain_key c); message_ratchet_key := ratchet_key; message_chain_index := index c |} in
  let! c := chain_advance c in
  Ret (key, c).

End chain_key.

(** ** Root keys *)

Section root_key.
Context `{!Primitives, !Curve25519}.

Definition kdf (root_key : bytes) (ratchet_key : SecretKey) (remote_ratchet_key : PublicKey) : option bytes :=
  shared_secret ← diffie_hellman ratchet_key remote_ratchet_key;
  Some (hkdf_sha256 root_key shared_secret (literal "OLM_RATCHET") 64).

(** [RemoteRootKey::advance] *)
Definition remote_root_advance (fresh : SecretKey) (root_key : bytes) (remote_ratchet_key : PublicKey) :
    option (bytes * ChainKey * SecretKey) :=
  output ← kdf root_key fresh remote_ratchet_key;
  Some (take 32 output, {| chain_key := drop 32 output; index := 0 |}, fresh).

(** [RootKey::advance] *)
Definition root_advance (root_key : bytes) (old_ratchet_key : SecretKey) (remote_ratchet_key : PublicKey) :
    option (bytes * ChainKey) :=
  output ← kdf root_key old_ratchet_key remote_ratchet_key;
  Some (take 32 output, {| chain_key := drop 32 output; index := 0 |}).

End root_key.

(** ** Messages *)

Record Message `{!Curve25519} := {
  olm_version : Z;
  ratchet_key : PublicKey;
  chain_index : Z;
  olm_ciphertext : bytes;
  olm_mac : MessageMac
}.

Record SessionKeys `{!Curve25519} := { identity_key : PublicKey; base_key : PublicKey; one_time_key : PublicKey }.

Record PreKeyMessage `{!Curve25519} := { session_keys : SessionKeys; pre_key_inner : Message }.

Inductive OlmMessage `{!Curve25519} :=
| Normal (m : Message)
| PreKey (m : PreKeyMessage).

Inductive OlmDecodeError :=
| OlmMissingVersion
| OlmMessageTooShort (length : nat)
| OlmInvalidVersion (expected got : Z)
| OlmInvalidKey
| OlmProtoBufError
| OlmMessageType (m : Z).

Definition RATCHET_TAG : Byte.byte := x0a.
Definition OLM_INDEX_TAG : Byte.byte := x10.
Definition OLM_CIPHER_TAG : Byte.byte := x22.

(** The payload after the version, as the protocol buffers encoding writes it. *)
Definition olm_payload (ratchet_key : bytes) (chain_index : Z) (ciphertext : bytes) : bytes :=
  [RATCHET_TAG] ++ to_var_int (Z.of_nat (length ratchet_key)) ++ ratchet_key ++
  [OLM_INDEX_TAG] ++ to_var_int chain_index ++
  [OLM_CIPHER_TAG] ++ to_var_int (Z.of_nat (length ciphertext)) ++ ciphertext.

(** [prost::Message] for [ProtoBufMessage] and [ProtoBufPreKeyMessage]; the fields of
    the latter are the one-time key, the base key, the identity key and the message *)
Class ProstOlm : Type := {
  decode_olm : bytes → option (bytes * Z * bytes);
  decode_olm_payload key index ciphertext :
    length key = 32 → (0 <= index <= u64_max)%Z → (Z.of_nat (length ciphertext) < 2 ^ 64)%Z →
    decode_olm (olm_payload key index ciphertext) = Some (key, index, ciphertext);
  encode_pre_key : bytes * bytes * bytes * bytes → bytes;
  decode_pre_key : bytes → option (bytes * bytes * bytes * bytes);
  decode_encode_pre_key fields : decode_pre_key (encode_pre_key fields) = Some fields
}.

Definition PRE_KEY_VERSION : Z := 3.

Section messages.
Context `{!Primitives, !Curve25519, !ProstOlm, !Base64}.

(** [Message::new] and [Message::new_truncated_mac] *)
Definition new_message (ratchet_key : PublicKey) (chain_index : Z) (ciphertext : bytes) : Message :=
  {| olm_version := VERSION; ratchet_key := ratchet_key; chain_index := chain_index; olm_ciphertext := ciphertext;
     olm_mac := Full (replicate MAC_LENGTH x00) |}.

Definition new_truncated_mac (ratchet_key : PublicKey) (chain_index : Z) (ciphertext : bytes) : Message :=
  {| olm_version := MAC_TRUNCATED_VERSION; ratchet_key := ratchet_key; chain_index := chain_index;
     olm_ciphertext := ciphertext; olm_mac := Truncated (replicate TRUNCATED_LEN x00) |}.

(** [encode], which is also [to_mac_bytes] *)
Definition olm_encode (m : Message) : bytes :=
  [byte_of (olm_version m)] ++ olm_payload (public_bytes (ratchet_key m)) (chain_index m) (olm_ciphertext m).

Definition olm_to_bytes (m : Message) : bytes := olm_encode m ++ mac_bytes (olm_mac m).

Definition olm_set_mac (m : Message) (mac : bytes) : Message :=
  {| olm_version := olm_version m; ratchet_key := ratchet_key m; chain_index := chain_index m;
     olm_ciphertext := olm_ciphertext m;
     olm_mac := match olm_mac m with Truncated _ => Truncated (truncate mac) | Full _ => Full mac end |}.

(** [TryFrom<&[u8]> for Message] *)
Definition olm_from_bytes (value : bytes) : result OlmDecodeError Message :=
  match value with
  | [] => Err OlmMissingVersion
  | v :: _ =>
      let version := byte_val v in
      let mac_length :=
        if (version =? VERSION)%Z then Some MAC_LENGTH
        else if (version =? MAC_TRUNCATED_VERSION)%Z then Some TRUNCATED_LEN else None in
      match mac_length with
      | None => Err (OlmInvalidVersion VERSION version)
      | Some mac_length =>
          if length value <? mac_length + 2 then Err (OlmMessageTooShort (length value))
          else
            match decode_olm (drop 1 (take (length value - mac_length) value)) with
            | None => Err OlmProtoBufError
            | Some (key, chain_index, ciphertext) =>
                let mac := extract_mac (drop (length value - mac_length) value) (version =? MAC_TRUNCATED_VERSION)%Z in
                match public_from_slice key with
                | None => Err OlmInvalidKey
                | Some ratchet_key =>
                    Ok {| olm_version := version; ratchet_key := ratchet_key; chain_index := chain_index;
                          olm_ciphertext := ciphertext; olm_mac := mac |}
                end
            end
      end
  end.

Definition pre_key_to_bytes (m : PreKeyMessage) : bytes :=
  let keys := session_keys m in
  [byte_of PRE_KEY_VERSION] ++
  encode_pre_key (public_bytes (one_time_key keys), public_bytes (base_key keys), public_bytes (identity_key keys),
                  olm_to_bytes (pre_key_inner m)).

(** [TryFrom<&[u8]> for PreKeyMessage] *)
Definition pre_key_from_bytes (value : bytes) : result OlmDecodeError PreKeyMessage :=
  match value with
  | [] => Err OlmMissingVersion
  | v :: rest =>
      if negb (byte_val v =? PRE_KEY_VERSION)%Z then Err (OlmInvalidVersion PRE_KEY_VERSION (byte_val v))
      else
        match decode_pre_key rest with
        | None => Err OlmProtoBufError
        | Some (otk, base, identity, message) =>
            let? otk := ok_or (public_from_slice otk) OlmInvalidKey in
            let? base := ok_or (public_from_slice base) OlmInvalidKey in
            let? identity := ok_or (public_from_slice identity) OlmInvalidKey in
            let? message := olm_from_bytes message in
            Ok {| session_keys := {| one_time_key := otk; identity_key := identity; base_key := base |};
                  pre_key_inner := message |}
        end
  end.

(** [to_parts] and [from_parts] *)
Definition to_parts (m : OlmMessage) : Z * bytes :=
  match m with Normal m => (1%Z, olm_to_bytes m) | PreKey m => (0%Z, pre_key_to_bytes m) end.

Definition from_parts (message_type : Z) (ciphertext : bytes) : result OlmDecodeError OlmMessage :=
  if (message_type =? 0)%Z then let? m := pre_key_from_bytes ciphertext in Ok (PreKey m)
  else if (message_type =? 1)%Z then let? m := olm_from_bytes ciphertext in Ok (Normal m)
  else Err (OlmMessageType message_type).

End messages.

(** ** A sample key exchange

    Concrete functions with the laws that the Olm parameters state, for evaluating
    sessions on examples: one-byte keys whose shared secret is their sum, and a reader
    of the protocol buffers payload. *)

#[export, refine] Instance sample_curve : Curve25519 := {|
  SecretKey := Byte.byte;
  PublicKey := Byte.byte;
  public_of key := key;
  diffie_hellman a b := Some (to_be_bytes 32 (byte_val a + byte_val b));
  public_bytes key := replicate 32 key;
  public_from_slice bs := head bs
|}.
Proof.
  - intros a b. by rewrite Z.add_comm.
  - done.
  - intros. apply length_replicate.
  - done.
Defined.

Definition pub (b : Byte.byte) : @PublicKey sample_curve := b.
Definition sec (b : Byte.byte) : @SecretKey sample_curve := b.

(** Reads a field of bytes with its length. *)
Definition read_bytes (bs : bytes) : option (bytes * bytes) :=
  '(n, bs) ← read_var_int 10 bs;
  if decide (n <= Z.of_nat (length bs))%Z then Some (take (Z.to_nat n) bs, drop (Z.to_nat n) bs) else None.

Lemma read_bytes_app field rest :
  (Z.of_nat (length field) < 2 ^ 64)%Z →
  read_bytes (to_var_int (Z.of_nat (length field)) ++ field ++ rest) = Some (field, rest).
Proof.
  intros Hl. unfold read_bytes. rewrite read_to_var_int by lia. cbn [mbind option_bind]. rewrite decide_True by (rewrite length_app; lia).
  by rewrite Nat2Z.id, take_app_length, drop_app_length.
Qed.

Definition sample_decode_olm (bs : bytes) : option (bytes * Z * bytes) :=
  bs ← expect_byte RATCHET_TAG bs; '(key, bs) ← read_bytes bs;
  bs ← expect_byte OLM_INDEX_TAG bs; '(index, bs) ← read_var_int 10 bs;
  bs ← expect_byte OLM_CIPHER_TAG bs; '(ciphertext, _) ← read_bytes bs;
  Some (key, index, ciphertext).

#[export, refine] Instance sample_prost_olm : ProstOlm := {|
  decode_olm := sample_decode_olm;
  encode_pre_key fields := bits_of (countable.encode fields);
  decode_pre_key bs := countable.decode (of_bits bs)
|}.
Proof.
  - intros key index ct Hk Hi Hl. unfold sample_decode_olm, olm_payload. unfold u64_max in Hi.
    rewrite expect_byte_app. cbn [mbind option_bind]. rewrite read_bytes_app by (rewrite Hk; done). cbn [mbind option_bind].
    rewrite expect_byte_app. cbn [mbind option_bind]. rewrite read_to_var_int by lia. cbn [mbind option_bind].
    rewrite expect_byte_app. cbn [mbind option_bind]. rewrite <- (app_nil_r ct) at 2. by rewrite read_bytes_app.
  - intros fields. by rewrite of_bits_of, countable.decode_encode.
Defined.
