(* ===== verification/OlmSession.v ===== *)
(** * Olm sessions

    [olm/session]: message keys, the receiver chain with its store of skipped keys,
    the sending side of the double ratchet, and the session that joins them. *)

From S2P Require Import Prelude Bytes Cipher Megolm Olm.

Definition MAX_MESSAGE_GAP : Z := 2000.
Definition MAX_MESSAGE_KEYS : nat := 40.
Definition MAX_RECEIVING_CHAINS : nat := 5.

Inductive OlmDecryptionError :=
| OlmInvalidMAC
| OlmInvalidMACLength (expected got : nat)
| OlmInvalidPadding
| NonContributoryKey
| MissingMessageKey (index : Z)
| TooBigMessageGap (gap max : Z).

(** ** Message keys *)

Section message_key.
Context `{!Primitives, !Curve25519}.

(** [MessageKey::encrypt] and [MessageKey::encrypt_truncated_mac] *)
Definition key_encrypt (k : MessageKey) (plaintext : bytes) : Message :=
  let cipher := new_cipher (message_key k) in
  let m := new_message (message_ratchet_key k) (message_chain_index k) (encrypt cipher plaintext) in
  olm_set_mac m (mac cipher (olm_encode m)).

Definition key_encrypt_truncated_mac (k : MessageKey) (plaintext : bytes) : Message :=
  let cipher := new_cipher (message_key k) in
  let m := new_truncated_mac (message_ratchet_key k) (message_chain_index k) (encrypt cipher plaintext) in
  olm_set_mac m (mac cipher (olm_encode m)).

(** The end of both decryptions. *)
Definition open_ciphertext (cipher : CipherKeys) (m : Message) : result OlmDecryptionError bytes :=
  match decrypt cipher (olm_ciphertext m) with Some plaintext => Ok plaintext | None => Err OlmInvalidPadding end.

Definition key_decrypt_truncated_mac (k : RemoteMessageKey) (m : Message) : result OlmDecryptionError bytes :=
  let cipher := new_cipher (remote_key k) in
  match olm_mac m with
  | Truncated tag => if verify_truncated_mac cipher (olm_encode m) tag then open_ciphertext cipher m else Err OlmInvalidMAC
  | Full _ => Err (OlmInvalidMACLength TRUNCATED_LEN MAC_LENGTH)
  end.

Definition key_decrypt (k : RemoteMessageKey) (m : Message) : result OlmDecryptionError bytes :=
  let cipher := new_cipher (remote_key k) in
  match olm_mac m with
  | Full tag => if verify_mac cipher (olm_encode m) tag then open_ciphertext cipher m else Err OlmInvalidMAC
  | Truncated _ => Err (OlmInvalidMACLength MAC_LENGTH TRUNCATED_LEN)
  end.

End message_key.

(** ** Receiver chains *)

Inductive RatchetCount := Known (count : Z) | Unknown.

Definition count_advance (debug : bool) (c : RatchetCount) : panics RatchetCount :=
  match c with
  | Known count => let! next := u64_check debug (count + 1) in Ret (Known next)
  | Unknown => Ret Unknown
  end.

Record ReceiverChain `{!Curve25519} := {
  chain_ratchet_key : PublicKey;
  hkdf_ratchet : ChainKey;
  skipped_message_keys : list RemoteMessageKey;
  chain_ratchet_count : RatchetCount
}.

Inductive FoundMessageKey :=
| Existing (k : RemoteMessageKey)
| New (ratchet : ChainKey) (skipped : list RemoteMessageKey) (k : RemoteMessageKey).

Section receiver_chain.
Context `{!Primitives, !Curve25519} (debug : bool).

(** [MessageKeyStore] *)
Definition keys_push (store : list RemoteMessageKey) (k : RemoteMessageKey) : panics (list RemoteMessageKey) :=
  store_push MAX_MESSAGE_KEYS store k.

Fixpoint keys_merge (store : list RemoteMessageKey) (keys : list RemoteMessageKey) : panics (list RemoteMessageKey) :=
  match keys with
  | [] => Ret store
  | k :: keys => let! store := keys_push store k in keys_merge store keys
  end.

Definition get_message_key (store : list RemoteMessageKey) (chain_index : Z) : option RemoteMessageKey :=
  List.find (λ k, remote_index k =? chain_index)%Z store.

Definition remove_message_key (store : list RemoteMessageKey) (chain_index : Z) : list RemoteMessageKey :=
  List.filter (λ k, negb (remote_index k =? chain_index)%Z) store.

Definition new_receiver_chain (ratchet_key : PublicKey) (chain_key : ChainKey) (count : RatchetCount) : ReceiverChain :=
  {| chain_ratchet_key := ratchet_key; hkdf_ratchet := chain_key; skipped_message_keys := []; chain_ratchet_count := count |}.

(** The loop of [find_message_key]; its fuel is the number of indices to skip. *)
Fixpoint skip_to (fuel : nat) (chain_index : Z) (ratchet : ChainKey) (skipped : list RemoteMessageKey) :
    panics (ChainKey * list RemoteMessageKey) :=
  if (index ratchet <? chain_index)%Z then
    match fuel with
    | 0 => OutOfFuel
    | S fuel =>
        if (Z.of_nat MAX_MESSAGE_KEYS <? chain_index - index ratchet)%Z then
          let! ratchet := chain_advance debug ratchet in
          skip_to fuel chain_index ratchet skipped
        else
          let! (key, ratchet) := create_remote_message_key debug ratchet in
          let! skipped := keys_push skipped key in
          skip_to fuel chain_index ratchet skipped
    end
  else Ret (ratchet, skipped).

Definition find_message_key (c : ReceiverChain) (chain_index : Z) : panics (result OlmDecryptionError FoundMessageKey) :=
  let current := index (hkdf_ratchet c) in
  let message_gap := Z.max 0 (chain_index - current) in
  if (MAX_MESSAGE_GAP <? message_gap)%Z then Ret (Err (TooBigMessageGap message_gap MAX_MESSAGE_GAP))
  else if (chain_index <? current)%Z then
    match get_message_key (skipped_message_keys c) chain_index with
    | Some k => Ret (Ok (Existing k))
    | None => Ret (Err (MissingMessageKey chain_index))
    end
  else
    let! (ratchet, skipped) := skip_to (Z.to_nat (chain_index - current)) chain_index (hkdf_ratchet c) [] in
    let! (message_key, ratchet) := create_remote_message_key debug ratchet in
    Ret (Ok (New ratchet skipped message_key)).

Definition found_decrypt (f : FoundMessageKey) (m : Message) (config : Version) : result OlmDecryptionError bytes :=
  let k := match f with Existing k => k | New _ _ k => k end in
  match config with V1 => key_decrypt_truncated_mac k m | V2 => key_decrypt k m end.

Definition set_chain (c : ReceiverChain) (ratchet : ChainKey) (skipped : list RemoteMessageKey) : ReceiverChain :=
  {| chain_ratchet_key := chain_ratchet_key c; hkdf_ratchet := ratchet; skipped_message_keys := skipped;
     chain_ratchet_count := chain_ratchet_count c |}.

(** [ReceiverChain::decrypt] *)
Definition chain_decrypt (m : Message) (config : Version) (c : ReceiverChain) :
    panics (result OlmDecryptionError bytes * ReceiverChain) :=
  let! found := find_message_key c (chain_index m) in
  match found with
  | Err e => Ret (Err e, c)
  | Ok found =>
      match found_decrypt found m config with
      | Err e => Ret (Err e, c)
      | Ok plaintext =>
          match found with
          | Existing k => Ret (Ok plaintext, set_chain c (hkdf_ratchet c) (remove_message_key (skipped_message_keys c) (remote_index k)))
          | New ratchet skipped _ =>
              let! store := keys_merge (skipped_message_keys c) skipped in
              Ret (Ok plaintext, set_chain c ratchet store)
          end
      end
  end.

End receiver_chain.

(** ** The sending ratchet *)

Record InactiveDoubleRatchet `{!Curve25519} := {
  inactive_root_key : bytes;
  inactive_ratchet_key : PublicKey;
  inactive_count : RatchetCount
}.

Record ActiveDoubleRatchet `{!Curve25519} := {
  parent_ratchet_key : option PublicKey;
  active_count : RatchetCount;
  active_root_key : bytes;
  active_ratchet_key : SecretKey;
  symmetric_key_ratchet : ChainKey
}.

Inductive DoubleRatchet `{!Curve25519} :=
| Inactive (r : InactiveDoubleRatchet)
| Active (r : ActiveDoubleRatchet).

Section double_ratchet.
Context `{!Primitives, !Curve25519} (debug : bool).

(** [InactiveDoubleRatchet::activate] *)
Definition activate (fresh : SecretKey) (r : InactiveDoubleRatchet) : panics (option ActiveDoubleRatchet) :=
  match remote_root_advance fresh (inactive_root_key r) (inactive_ratchet_key r) with
  | None => Ret None
  | Some (root_key, chain_key, ratchet_key) =>
      let! count := count_advance debug (inactive_count r) in
      Ret (Some {| parent_ratchet_key := Some (inactive_ratchet_key r); active_count := count; active_root_key := root_key;
                   active_ratchet_key := ratchet_key; symmetric_key_ratchet := chain_key |})
  end.

(** [ActiveDoubleRatchet::advance] *)
Definition active_advance (ratchet_key : PublicKey) (r : ActiveDoubleRatchet) :
    panics (option (InactiveDoubleRatchet * ReceiverChain)) :=
  match root_advance (active_root_key r) (active_ratchet_key r) ratchet_key with
  | None => Ret None
  | Some (root_key, remote_chain) =>
      let! count := count_advance debug (active_count r) in
      Ret (Some ({| inactive_root_key := root_key; inactive_ratchet_key := ratchet_key; inactive_count := count |},
                 new_receiver_chain ratchet_key remote_chain count))
  end.

(** [ActiveDoubleRatchet::next_message_key] *)
Definition active_next_message_key (r : ActiveDoubleRatchet) : panics (MessageKey * ActiveDoubleRatchet) :=
  let! (key, chain) := create_message_key debug (public_of (active_ratchet_key r)) (symmetric_key_ratchet r) in
  Ret (key, {| parent_ratchet_key := parent_ratchet_key r; active_count := active_count r;
               active_root_key := active_root_key r; active_ratchet_key := active_ratchet_key r;
               symmetric_key_ratchet := chain |}).

Definition next_message_key (fresh : SecretKey) (d : DoubleRatchet) : panics (option MessageKey * DoubleRatchet) :=
  match d with
  | Inactive r =>
      let! activated := activate fresh r in
      match activated with
      | None => Ret (None, d)
      | Some r => let! (key, r) := active_next_message_key r in Ret (Some key, Active r)
      end
  | Active r => let! (key, r) := active_next_message_key r in Ret (Some key, Active r)
  end.

(** [DoubleRatchet::active], [inactive_from_prekey_data] *)
Definition double_ratchet_active (fresh : SecretKey) (expanded : bytes * bytes) : DoubleRatchet :=
  Active {| parent_ratchet_key := None; active_count := Known 0; active_root_key := fst expanded;
            active_ratchet_key := fresh; symmetric_key_ratchet := {| chain_key := snd expanded; index := 0 |} |}.

Definition inactive_from_prekey_data (root_key : bytes) (ratchet_key : PublicKey) : DoubleRatchet :=
  Inactive {| inactive_root_key := root_key; inactive_ratchet_key := ratchet_key; inactive_count := Known 0 |}.

(** [DoubleRatchet::advance]; an inactive ratchet is activated and stays so *)
Definition double_ratchet_advance (fresh : SecretKey) (ratchet_key : PublicKey) (d : DoubleRatchet) :
    panics (option (DoubleRatchet * ReceiverChain) * DoubleRatchet) :=
  match d with
  | Active r =>
      let! advanced := active_advance ratchet_key r in
      Ret ((λ '(ratchet, chain), (Inactive ratchet, chain)) <$> advanced, d)
  | Inactive r =>
      let! activated := activate fresh r in
      match activated with
      | None => Ret (None, d)
      | Some r =>
          let! advanced := active_advance ratchet_key r in
          match advanced with
          | None => Ret (None, d)
          | Some (ratchet, chain) => Ret (Some (Inactive ratchet, chain), Active r)
          end
      end
  end.

End double_ratchet.

(** ** Sessions *)

Record Session `{!Curve25519} := {
  own_session_keys : SessionKeys;
  sending_ratchet : DoubleRatchet;
  receiving_chains : list ReceiverChain;
  session_config : Version
}.

Section session.
Context `{!Primitives, !Curve25519} (debug : bool).

(** [ChainStore] *)
Definition chains_push (chains : list ReceiverChain) (c : ReceiverChain) : panics (list ReceiverChain) :=
  store_push MAX_RECEIVING_CHAINS chains c.

Definition belongs_to (ratchet_key : PublicKey) (c : ReceiverChain) : bool :=
  bool_decide (chain_ratchet_key c = ratchet_key).

(** [ChainStore::find_ratchet], as the position of the chain *)
Fixpoint find_chain (ratchet_key : PublicKey) (chains : list ReceiverChain) : option (nat * ReceiverChain) :=
  match chains with
  | [] => None
  | c :: chains =>
      if belongs_to ratchet_key c then Some (0, c)
      else (λ '(i, c), (S i, c)) <$> find_chain ratchet_key chains
  end.

Definition new_session (fresh : SecretKey) (config : Version) (expanded : bytes * bytes) (keys : SessionKeys) : Session :=
  {| own_session_keys := keys; sending_ratchet := double_ratchet_active fresh expanded; receiving_chains := [];
     session_config := config |}.

Definition new_remote (config : Version) (expanded : bytes * bytes) (remote_ratchet_key : PublicKey) (keys : SessionKeys) :
    panics Session :=
  let chain := new_receiver_chain remote_ratchet_key {| chain_key := snd expanded; index := 0 |} (Known 0) in
  let! store := chains_push [] chain in
  Ret {| own_session_keys := keys; sending_ratchet := inactive_from_prekey_data (fst expanded) remote_ratchet_key;
         receiving_chains := store; session_config := config |}.

Definition has_received_message (s : Session) : bool := negb (bool_decide (receiving_chains s = [])).

Definition set_sending (d : DoubleRatchet) (s : Session) : Session :=
  {| own_session_keys := own_session_keys s; sending_ratchet := d; receiving_chains := receiving_chains s;
     session_config := session_config s |}.
Definition set_receiving (chains : list ReceiverChain) (s : Session) : Session :=
  {| own_session_keys := own_session_keys s; sending_ratchet := sending_ratchet s; receiving_chains := chains;
     session_config := session_config s |}.

(** [Session::encrypt]; [None] is the error for a key that does not contribute *)
Definition session_encrypt (fresh : SecretKey) (plaintext : bytes) (s : Session) : panics (option OlmMessage * Session) :=
  let! (key, d) := next_message_key debug fresh (sending_ratchet s) in
  let s := set_sending d s in
  match key with
  | None => Ret (None, s)
  | Some key =>
      let message :=
        match session_config s with
        | V1 => key_encrypt_truncated_mac key plaintext
        | V2 => key_encrypt key plaintext
        end in
      Ret (Some (if has_received_message s then Normal message
                 else PreKey {| session_keys := own_session_keys s; pre_key_inner := message |}), s)
  end.

(** [Session::decrypt_decoded] *)
Definition decrypt_decoded (fresh : SecretKey) (m : Message) (s : Session) :
    panics (result OlmDecryptionError bytes * Session) :=
  match find_chain (ratchet_key m) (receiving_chains s) with
  | Some (i, c) =>
      let! (r, c) := chain_decrypt debug m (session_config s) c in
      Ret (r, set_receiving (<[i := c]> (receiving_chains s)) s)
  | None =>
      let! (advanced, d) := double_ratchet_advance debug fresh (ratchet_key m) (sending_ratchet s) in
      let s := set_sending d s in
      match advanced with
      | None => Ret (Err NonContributoryKey, s)
      | Some (sending, remote) =>
          let! (r, remote) := chain_decrypt debug m (session_config s) remote in
          match r with
          | Err e => Ret (Err e, s)
          | Ok plaintext =>
              let! chains := chains_push (receiving_chains s) remote in
              Ret (Ok plaintext, set_receiving chains (set_sending sending s))
          end
      end
  end.

(** [Session::decrypt] *)
Definition session_decrypt (fresh : SecretKey) (m : OlmMessage) (s : Session) :
    panics (result OlmDecryptionError bytes * Session) :=
  match m with
  | Normal m => decrypt_decoded fresh m s
  | PreKey m => decrypt_decoded fresh (pre_key_inner m) s
  end.

End session.
