(* ===== verification/OlmChain.v ===== *)
(** * Receiver chains of Olm

    What a receiver chain still can decrypt is the next index and a bounded list of
    skipped ones. Here the code is shown to do exactly that, for every message, and
    no index is used twice. *)

From S2P Require Import Prelude Bytes Cipher Megolm SampleCrypto Olm OlmSession.

(** ** The specification *)

Record avail := { next : nat; kept : list nat }.

Definition keep_last {A} (n : nat) (l : list A) : list A := drop (length l - n) l.

(** The indices whose keys are kept when the index [k] is read. *)
Definition skipped_range (next k : nat) : list nat := seq (next `max` (k - MAX_MESSAGE_KEYS)) (k - next `max` (k - MAX_MESSAGE_KEYS)).

(** Reading the index [k]. *)
Definition spec_read (k : nat) (a : avail) : result OlmDecryptionError avail :=
  if decide (next a + Z.to_nat MAX_MESSAGE_GAP < k) then
    Err (TooBigMessageGap (Z.of_nat k - Z.of_nat (next a)) MAX_MESSAGE_GAP)
  else if decide (k < next a) then
    if decide (k ∈ kept a) then Ok {| next := next a; kept := List.filter (λ i, negb (i =? k)) (kept a) |}
    else Err (MissingMessageKey (Z.of_nat k))
  else Ok {| next := S k; kept := keep_last MAX_MESSAGE_KEYS (kept a ++ skipped_range (next a) k) |}.

Definition avail_ok (a : avail) : Prop :=
  length (kept a) <= MAX_MESSAGE_KEYS ∧ Forall (λ i, i < next a) (kept a).

(** ** Stores *)

Lemma length_keep_last {A} n (l : list A) : length (keep_last n l) = n `min` length l.
Proof. unfold keep_last. rewrite length_drop. lia. Qed.

Lemma keep_last_short {A} n (l : list A) : length l <= n → keep_last n l = l.
Proof. intros Hl. unfold keep_last. replace (length l - n) with 0 by lia. done. Qed.

Lemma keep_last_fmap {A B} (f : A → B) n l : keep_last n (f <$> l) = f <$> keep_last n l.
Proof. unfold keep_last. by rewrite length_fmap, fmap_drop. Qed.

Lemma store_push_spec {A} n (v : list A) x :
  0 < n → length v <= n → store_push n v x = Ret (keep_last n (v ++ [x])).
Proof.
  intros Hn Hl. unfold store_push, array_push, keep_last. rewrite length_app. cbn [length].
  destruct (Nat.eqb_spec (length v) n) as [Heq|Hne].
  - rewrite length_drop, (proj2 (Nat.ltb_lt _ _)) by lia. replace (length v + 1 - n) with 1 by lia.
    by rewrite drop_app_le by lia.
  - rewrite (proj2 (Nat.ltb_lt _ _)) by lia. by replace (length v + 1 - n) with 0 by lia.
Qed.

Lemma keep_last_suffix {A} n (l r : list A) : n <= length r → keep_last n (l ++ r) = keep_last n r.
Proof.
  intros Hn. unfold keep_last. rewrite length_app. replace (length l + length r - n) with (length l + (length r - n)) by lia.
  apply drop_app_add.
Qed.

Lemma keep_last_app {A} n (l r : list A) : keep_last n (keep_last n l ++ r) = keep_last n (l ++ r).
Proof.
  destruct (decide (length l <= n)) as [Hle|Hgt]; [by rewrite (keep_last_short n l)|].
  rewrite <- (take_drop (length l - n) l) at 2. rewrite <- app_assoc. symmetry. apply keep_last_suffix.
  rewrite length_app; unfold keep_last; rewrite length_drop. lia.
Qed.

Lemma keys_merge_spec store keys :
  length store <= MAX_MESSAGE_KEYS → keys_merge store keys = Ret (keep_last MAX_MESSAGE_KEYS (store ++ keys)).
Proof.
  revert store. induction keys as [|k keys IH]; intros store Hl; cbn [keys_merge].
  - by rewrite app_nil_r, keep_last_short.
  - unfold keys_push. rewrite store_push_spec by (done || unfold MAX_MESSAGE_KEYS; lia).
    rewrite IH by (rewrite length_keep_last; lia). rewrite keep_last_app, <- app_assoc. done.
Qed.

(** ** Keys of a chain *)

Section chain.
Context `{!Primitives, !Curve25519} (debug : bool).
Implicit Types (seed : bytes) (k n : nat).

Definition seed_at seed n : bytes := Nat.iter n advance_chain_key seed.
Definition chain_at seed n : ChainKey := {| chain_key := seed_at seed n; index := Z.of_nat n |}.
Definition key_at seed n : RemoteMessageKey := {| remote_key := expand_chain_key (seed_at seed n); remote_index := Z.of_nat n |}.

Lemma u64_check_ok z : (0 <= z <= u64_max)%Z → u64_check debug z = Ret z.
Proof. intros Hz. unfold u64_check. by rewrite (proj2 (Z.leb_le _ _)), (proj2 (Z.leb_le _ _)) by lia. Qed.

Lemma chain_advance_at seed n : (Z.of_nat n < u64_max)%Z → chain_advance debug (chain_at seed n) = Ret (chain_at seed (S n)).
Proof.
  intros Hn. unfold chain_advance, chain_at. cbn [index chain_key]. rewrite u64_check_ok by lia. do 2 f_equal. lia.
Qed.

Lemma create_key_at seed n :
  (Z.of_nat n < u64_max)%Z → create_remote_message_key debug (chain_at seed n) = Ret (key_at seed n, chain_at seed (S n)).
Proof. intros Hn. unfold create_remote_message_key. by rewrite chain_advance_at. Qed.

Lemma skipped_range_step n k :
  n < k → skipped_range n k = if decide (MAX_MESSAGE_KEYS < k - n) then skipped_range (S n) k else n :: skipped_range (S n) k.
Proof.
  intros Hnk. unfold skipped_range, MAX_MESSAGE_KEYS. case_decide.
  - f_equal; lia.
  - replace (n `max` (k - 40)) with n by lia. replace (S n `max` (k - 40)) with (S n) by lia.
    replace (k - n) with (S (k - S n)) by lia. done.
Qed.

Lemma skip_to_spec seed n k l :
  n <= k → (Z.of_nat k <= u64_max)%Z → length l + (k - n) `min` MAX_MESSAGE_KEYS <= MAX_MESSAGE_KEYS →
  skip_to debug (k - n) (Z.of_nat k) (chain_at seed n) (key_at seed <$> l)
  = Ret (chain_at seed k, key_at seed <$> l ++ skipped_range n k).
Proof.
  remember (k - n) as d eqn:Hd. revert n l Hd. induction d as [|d IH]; intros n l Hd Hnk Hk Hl.
  - assert (n = k) as -> by lia. cbn. rewrite Z.ltb_irrefl. unfold skipped_range. by rewrite Nat.max_l, Nat.sub_diag, app_nil_r by lia.
  - cbn [skip_to]. change (index (chain_at seed n)) with (Z.of_nat n). rewrite (proj2 (Z.ltb_lt _ _)) by lia.
    rewrite skipped_range_step by lia. destruct (Z.ltb_spec (Z.of_nat MAX_MESSAGE_KEYS) (Z.of_nat k - Z.of_nat n)) as [Hfar|Hnear].
    + rewrite decide_True by lia. rewrite chain_advance_at by lia. apply IH; lia.
    + rewrite decide_False by lia. rewrite create_key_at by lia. unfold keys_push.
      rewrite store_push_spec by (rewrite ?length_fmap; unfold MAX_MESSAGE_KEYS in *; lia).
      rewrite keep_last_short by (rewrite length_app, length_fmap; cbn; lia).
      change [key_at seed n] with (key_at seed <$> [n]). rewrite <- fmap_app, IH by (rewrite ?length_app; cbn; lia).
      by rewrite <- app_assoc.
Qed.

(** ** The chain against its specification *)

(** The chain of [seed] in the state [a]. *)
Definition chain_state seed (pk : PublicKey) (count : RatchetCount) (a : avail) : ReceiverChain :=
  {| chain_ratchet_key := pk; hkdf_ratchet := chain_at seed (next a); skipped_message_keys := key_at seed <$> kept a;
     chain_ratchet_count := count |}.

Lemma get_message_key_at seed l k :
  get_message_key (key_at seed <$> l) (Z.of_nat k) = if decide (k ∈ l) then Some (key_at seed k) else None.
Proof.
  induction l as [|i l IH]; [by rewrite decide_False by apply not_elem_of_nil|]. cbn -[Z.eqb].
  change (remote_index (key_at seed i)) with (Z.of_nat i). destruct (Z.eqb_spec (Z.of_nat i) (Z.of_nat k)) as [Heq|Hne].
  - apply Nat2Z.inj in Heq as ->. by rewrite decide_True by left.
  - unfold get_message_key in IH. rewrite IH. destruct (decide (k ∈ l)); [by rewrite decide_True by (by right)|].
    rewrite decide_False; [done|]. rewrite elem_of_cons. intros [->|?]; done.
Qed.

Lemma remove_message_key_at seed l k :
  remove_message_key (key_at seed <$> l) (Z.of_nat k) = key_at seed <$> List.filter (λ i, negb (i =? k)) l.
Proof.
  induction l as [|i l IH]; [done|]. cbn -[Z.eqb Nat.eqb]. change (remote_index (key_at seed i)) with (Z.of_nat i).
  assert ((Z.of_nat i =? Z.of_nat k)%Z = (i =? k)) as ->.
  { destruct (Z.eqb_spec (Z.of_nat i) (Z.of_nat k)), (Nat.eqb_spec i k); lia. }
  unfold remove_message_key in IH. destruct (i =? k); cbn; [done|]. by rewrite IH.
Qed.

(** The outcome of decrypting [m] with the key of its index. *)
Definition opened seed (config : Version) (m : Message) (k : nat) : result OlmDecryptionError bytes :=
  found_decrypt (Existing (key_at seed k)) m config.

(** Every message: refused when its index cannot be read, and otherwise decrypted with
    the key of the index; the chain changes only with a message that decrypts. *)
Lemma chain_decrypt_spec seed pk count a m config k :
  avail_ok a → chain_index m = Z.of_nat k → (Z.of_nat (next a) + MAX_MESSAGE_GAP < u64_max)%Z →
  chain_decrypt debug m config (chain_state seed pk count a)
  = Ret (match spec_read k a with
         | Err e => (Err e, chain_state seed pk count a)
         | Ok a' =>
             match opened seed config m k with
             | Err e => (Err e, chain_state seed pk count a)
             | Ok p => (Ok p, chain_state seed pk count a')
             end
         end).
Proof.
  intros [Hlen Hlt] Hk Hmax. unfold chain_decrypt, find_message_key. rewrite Hk. cbn [chain_state hkdf_ratchet skipped_message_keys].
  change (index (chain_at seed (next a))) with (Z.of_nat (next a)). unfold spec_read, MAX_MESSAGE_GAP in *.
  destruct (Z.ltb_spec 2000 (Z.max 0 (Z.of_nat k - Z.of_nat (next a)))) as [Hgap|Hgap].
  { rewrite decide_True by lia. do 4 f_equal. lia. }
  rewrite decide_False by lia. destruct (Z.ltb_spec (Z.of_nat k) (Z.of_nat (next a))) as [Hold|Hnew].
  - rewrite (decide_True (P := k < next a)) by lia. rewrite get_message_key_at. destruct (decide (k ∈ kept a)) as [Hin|]; [|done].
    unfold opened. destruct (found_decrypt _ m config) as [p|e]; [|done]. cbn [remote_index key_at].
    rewrite remove_message_key_at. done.
  - rewrite (decide_False (P := k < next a)) by lia. rewrite <- Nat2Z.inj_sub, Nat2Z.id by lia.
    pose proof (skip_to_spec seed (next a) k []) as Hskip. change (key_at seed <$> []) with (@nil RemoteMessageKey) in Hskip.
    rewrite Hskip by (cbn; lia). rewrite create_key_at by lia.
    change (found_decrypt (New _ _ (key_at seed k)) m config) with (opened seed config m k).
    destruct (opened seed config m k) as [p|e]; [|done]. rewrite keys_merge_spec by (by rewrite length_fmap).
    cbn [app]. rewrite <- fmap_app, keep_last_fmap. done.
Qed.

Lemma spec_read_ok k a a' : avail_ok a → spec_read k a = Ok a' → avail_ok a'.
Proof.
  intros [Hlen Hlt]. unfold spec_read. repeat case_decide; try done; intros [= <-]; split; cbn [kept next].
  - etrans; [apply filter_length_le|done].
  - rewrite Forall_forall in *. intros i [Hi _]%list_elem_of_In%filter_In. by apply Hlt, list_elem_of_In.
  - rewrite length_keep_last. lia.
  - unfold keep_last. apply Forall_drop, Forall_app. split.
    + eapply Forall_impl; [done|]. cbn. intros; lia.
    + apply Forall_forall. intros i Hi%elem_of_seq. lia.
Qed.

(** ** No index is used twice *)

Definition spent k a : Prop := k < next a ∧ k ∉ kept a.

Lemma spent_refused k a : spent k a → spec_read k a = Err (MissingMessageKey (Z.of_nat k)).
Proof.
  intros [Hlt Hin]. unfold spec_read. rewrite decide_False by (unfold MAX_MESSAGE_GAP; lia). by rewrite decide_True, decide_False.
Qed.

Lemma spec_read_next k a a' : spec_read k a = Ok a' → next a <= next a' <= next a + Z.to_nat MAX_MESSAGE_GAP + 1.
Proof. unfold spec_read. repeat case_decide; try done; intros [= <-]; cbn; lia. Qed.

Lemma keep_last_elem {A} n (l : list A) x : x ∈ keep_last n l → x ∈ l.
Proof.
  intros Hx. assert (x ∈ take (length l - n) l ++ keep_last n l) as Hin by (apply elem_of_app; by right).
  unfold keep_last in Hin. by rewrite take_drop in Hin.
Qed.

Lemma spec_read_spends k a a' : avail_ok a → spec_read k a = Ok a' → spent k a'.
Proof.
  intros [_ Hlt]. unfold spec_read. repeat case_decide; try done; intros [= <-]; split; cbn [kept next]; [done| |lia|].
  - intros [_ Hk]%list_elem_of_In%filter_In. by rewrite Nat.eqb_refl in Hk.
  - intros Hk%keep_last_elem%elem_of_app. destruct Hk as [Hk|[? ?]%elem_of_seq]; [|lia].
    rewrite Forall_forall in Hlt. apply Hlt in Hk. lia.
Qed.

Lemma spent_read k j a a' : spent k a → spec_read j a = Ok a' → spent k a'.
Proof.
  intros [Hlt Hin] Hr. split; [apply spec_read_next in Hr; lia|]. revert Hr. unfold spec_read. repeat case_decide; try done; intros [= <-]; cbn [kept].
  - intros [Hk _]%list_elem_of_In%filter_In. by apply Hin, list_elem_of_In.
  - intros Hk%keep_last_elem%elem_of_app. destruct Hk as [?|[? ?]%elem_of_seq]; [done|lia].
Qed.

(** The results of a list of messages. *)
Fixpoint chain_run (config : Version) (ms : list Message) (c : ReceiverChain) :
    panics (list (result OlmDecryptionError bytes) * ReceiverChain) :=
  match ms with
  | [] => Ret ([], c)
  | m :: ms =>
      let! (r, c) := chain_decrypt debug m config c in
      let! (rs, c) := chain_run config ms c in
      Ret (r :: rs, c)
  end.

Definition u64_message (m : Message) : Prop := (0 <= chain_index m <= u64_max)%Z.

(** The state that a message leaves, and its result. *)
Lemma chain_step seed pk count a m config :
  avail_ok a → u64_message m → (Z.of_nat (next a) + MAX_MESSAGE_GAP < u64_max)%Z →
  ∃ r a', chain_decrypt debug m config (chain_state seed pk count a) = Ret (r, chain_state seed pk count a') ∧ avail_ok a' ∧
    next a <= next a' <= next a + Z.to_nat MAX_MESSAGE_GAP + 1 ∧
    (∀ k, spent k a → spent k a') ∧
    (spent (Z.to_nat (chain_index m)) a → r = Err (MissingMessageKey (chain_index m))) ∧
    (is_ok r = true → spent (Z.to_nat (chain_index m)) a').
Proof.
  intros Ha [Hm0 Hm1] Hmax. set (k := Z.to_nat (chain_index m)). assert (chain_index m = Z.of_nat k) as Hk by lia.
  rewrite (chain_decrypt_spec _ _ _ _ _ _ k) by done.
  destruct (spec_read k a) as [a'|e] eqn:Hr; [destruct (opened seed config m k) as [p|e] eqn:Ho|].
  - eexists _, a'. split; [done|]. split_and!; [by eapply spec_read_ok|by apply spec_read_next in Hr; lia..| | |].
    + intros j Hj. by eapply spent_read.
    + intros Hs%spent_refused. by rewrite Hs in Hr.
    + intros _. by eapply spec_read_spends.
  - eexists _, a. split; [done|]. split_and!; [done|lia|lia|done| |done]. intros Hs%spent_refused. by rewrite Hs in Hr.
  - eexists _, a. split; [done|]. split_and!; [done|lia|lia|done| |done]. intros Hs%spent_refused. rewrite Hr in Hs. rewrite Hk. congruence.
Qed.

Lemma chain_run_spec seed pk count config ms a :
  avail_ok a → Forall u64_message ms →
  (Z.of_nat (next a) + (MAX_MESSAGE_GAP + 1) * Z.of_nat (length ms) <= u64_max)%Z →
  ∃ rs a', chain_run config ms (chain_state seed pk count a) = Ret (rs, chain_state seed pk count a') ∧
    length rs = length ms ∧
    (∀ i m, ms !! i = Some m → spent (Z.to_nat (chain_index m)) a → rs !! i = Some (Err (MissingMessageKey (chain_index m)))) ∧
    (∀ i j m m' p, i < j → ms !! i = Some m → ms !! j = Some m' → chain_index m = chain_index m' →
       rs !! i = Some (Ok p) → rs !! j = Some (Err (MissingMessageKey (chain_index m)))).
Proof.
  intros Ha Hms. revert a Ha. induction Hms as [|m ms Hm Hms IH]; intros a Ha Hmax; cbn [chain_run].
  - exists [], a. by split_and!.
  - cbn [length] in Hmax. unfold MAX_MESSAGE_GAP in Hmax.
    destruct (chain_step seed pk count a m config Ha Hm) as (r & a' & -> & Ha' & Hn & Hkeep & Href & Hok); [unfold MAX_MESSAGE_GAP; lia|].
    destruct (IH a' Ha') as (rs & a'' & -> & Hl & Hspent & Hpair); [unfold MAX_MESSAGE_GAP in *; lia|].
    exists (r :: rs), a''. split; [done|]. split; [cbn; lia|]. split.
    + intros [|i] m' Hi Hs; cbn in Hi |- *; [simplify_eq; by rewrite Href|]. apply Hspent; [done|]. by apply Hkeep.
    + intros [|i] [|j] m1 m2 p Hij Hi Hj Heq Hr; [lia| |lia|]; cbn in Hi, Hj, Hr |- *.
      * simplify_eq. rewrite Heq. apply Hspent; [done|]. rewrite <- Heq. by apply Hok.
      * eapply Hpair; [|done..]. lia.
Qed.

(** C18. A receiver chain never decrypts two messages of the same index. From a fresh
    chain, for every list of messages, genuine or forged, and in debug and release
    builds: each of them is answered without a panic, and after one has been decrypted
    every later message with its index is refused with the error for a missing key. *)
Theorem olm_no_replay seed pk count config ms :
  Forall u64_message ms → ((MAX_MESSAGE_GAP + 1) * Z.of_nat (length ms) <= u64_max)%Z →
  ∃ rs c, chain_run config ms (new_receiver_chain pk {| chain_key := seed; index := 0 |} count) = Ret (rs, c) ∧
    length rs = length ms ∧
    ∀ i j m m' p, i < j → ms !! i = Some m → ms !! j = Some m' → chain_index m = chain_index m' →
      rs !! i = Some (Ok p) → rs !! j = Some (Err (MissingMessageKey (chain_index m))).
Proof.
  intros Hms Hmax. set (a := {| next := 0; kept := [] |}).
  destruct (chain_run_spec seed pk count config ms a) as (rs & a' & Hrun & Hl & _ & Hpair); [|done|cbn; lia|].
  - split; cbn; [lia|by constructor].
  - exists rs, (chain_state seed pk count a'). done.
Qed.

End chain.

(** ** Examples *)

(** The first message of a chain, and a message of the same index by somebody else. *)
Definition sample_message : Message :=
  key_encrypt_truncated_mac {| message_key := expand_chain_key [x61]; message_ratchet_key := pub x62; message_chain_index := 0 |} [x63].

Definition sample_forgery : Message := new_truncated_mac (pub x62) 0 [x64].

Lemma olm_no_replay_witness :
  (∀ c rs, chain_run true V1 [sample_forgery; sample_message; sample_message]
             (new_receiver_chain (pub x62) {| chain_key := [x61]; index := 0 |} (Known 0)) = Ret (rs, c) →
     rs = [Err OlmInvalidMAC; Ok [x63]; Err (MissingMessageKey 0)]) ∧
  ∃ rs c, chain_run true V1 [sample_forgery; sample_message; sample_message]
            (new_receiver_chain (pub x62) {| chain_key := [x61]; index := 0 |} (Known 0)) = Ret (rs, c) ∧
    length rs = length [sample_forgery; sample_message; sample_message] ∧
    ∀ i j m m' p, i < j → [sample_forgery; sample_message; sample_message] !! i = Some m →
      [sample_forgery; sample_message; sample_message] !! j = Some m' → chain_index m = chain_index m' →
      rs !! i = Some (Ok p) → rs !! j = Some (Err (MissingMessageKey (chain_index m))).
Proof.
  split.
  - intros c rs Hrun. assert (returned (chain_run true V1 [sample_forgery; sample_message; sample_message]
      (new_receiver_chain (pub x62) {| chain_key := [x61]; index := 0 |} (Known 0))) = Some [Err OlmInvalidMAC; Ok [x63]; Err (MissingMessageKey 0)]) as Hr by by_vm.
    rewrite Hrun in Hr. by injection Hr.
  - apply (olm_no_replay true [x61] (pub x62) (Known 0) V1 [sample_forgery; sample_message; sample_message]).
    + repeat constructor; done.
    + done.
Defined.
