(* ===== verification/OlmPair.v ===== *)
(** * Two Olm sessions follow their conversation

    Two sessions exchange messages over chains that the two parties own in turn: the
    initiator owns the even chains, the other party the odd ones.  The specification
    of a conversation is the plaintexts of each chain and what each side can still
    read of the other side's chains.  The state of both sessions is a function of it
    and of the secret keys drawn so far, and every step of the code keeps it so. *)

From S2P Require Import Prelude Bytes Cipher Megolm Olm OlmSession OlmChain.

(** ** Messages survive their encodings *)

Section wire.
Context `{!Primitives, !Curve25519, !ProstOlm}.

Definition olm_message_ok (m : Message) : Prop :=
  (0 <= chain_index m <= u64_max)%Z ∧ (Z.of_nat (length (olm_ciphertext m)) < 2 ^ 64)%Z ∧
  match olm_mac m with
  | Truncated tag => olm_version m = MAC_TRUNCATED_VERSION ∧ length tag = TRUNCATED_LEN
  | Full tag => olm_version m = VERSION ∧ length tag = MAC_LENGTH
  end.

Lemma olm_round_trip m : olm_message_ok m → olm_from_bytes (olm_to_bytes m) = Ok m.
Proof.
  destruct m as [v key idx ct tag]. intros (Hidx & Hct & Htag). unfold olm_to_bytes, olm_encode.
  cbn [olm_version ratchet_key chain_index olm_ciphertext olm_mac] in *.
  assert (∃ n, length (mac_bytes tag) = n ∧ byte_val (byte_of v) = v ∧
    (if (v =? VERSION)%Z then Some MAC_LENGTH else if (v =? MAC_TRUNCATED_VERSION)%Z then Some TRUNCATED_LEN else None) = Some n ∧
    extract_mac (mac_bytes tag) (v =? MAC_TRUNCATED_VERSION)%Z = tag) as (n & Hn & Hv & Hlen & Hmac).
  { destruct tag as [tag|tag]; destruct Htag as [-> Htag]; cbn [mac_bytes]; rewrite Htag.
    - exists TRUNCATED_LEN. split_and!; [done..|]. cbn. by rewrite take_ge by (unfold TRUNCATED_LEN in *; lia).
    - exists MAC_LENGTH. split_and!; [done..|]. cbn -[take MAC_LENGTH]. by rewrite take_ge by lia. }
  set (payload := olm_payload (public_bytes key) idx ct). assert (length payload >= 1) as Hp by (subst payload; cbn; lia).
  unfold olm_from_bytes. cbn [app]. rewrite Hv, Hlen. rewrite <- Hn in *.
  assert (length (byte_of v :: payload ++ mac_bytes tag) = S (length payload) + length (mac_bytes tag)) as Hl by (cbn; rewrite length_app; lia).
  rewrite Hl, (proj2 (Nat.ltb_ge _ _)), Nat.add_sub by lia. cbn [take drop]. rewrite take_app_length, drop_0. unfold payload at 1.
  rewrite decode_olm_payload by (done || apply length_public_bytes). by rewrite drop_app_length, Hmac, public_from_to_bytes.
Qed.

Definition inner_message (m : OlmMessage) : Message := match m with Normal m => m | PreKey m => pre_key_inner m end.

Lemma pre_key_round_trip m : olm_message_ok (pre_key_inner m) → pre_key_from_bytes (pre_key_to_bytes m) = Ok m.
Proof.
  intros Hm. destruct m as [[idk base otk] m]. cbn [pre_key_inner] in Hm. unfold pre_key_to_bytes, pre_key_from_bytes.
  cbn [app session_keys one_time_key base_key identity_key pre_key_inner].
  change (byte_val (byte_of PRE_KEY_VERSION) =? PRE_KEY_VERSION)%Z with true. cbn [negb].
  rewrite decode_encode_pre_key, !public_from_to_bytes. cbn [ok_or]. by rewrite olm_round_trip.
Qed.

Lemma parts_round_trip m : olm_message_ok (inner_message m) → from_parts (fst (to_parts m)) (snd (to_parts m)) = Ok m.
Proof.
  destruct m as [m|m]; intros Hm; cbn [to_parts fst snd]; unfold from_parts; simpl Z.eqb; cbv iota.
  - by rewrite olm_round_trip.
  - by rewrite pre_key_round_trip.
Qed.

End wire.

(** ** The specification *)

(** [true] is the party that starts the conversation. *)
Definition owner (i : nat) : bool := Nat.even i.

Record talk := {
  logs : list (list bytes);             (** the plaintexts of each chain *)
  sent : list (nat * nat);              (** chain and index of each message, in the order of sending *)
  got : bool → list (nat * avail)       (** what a party can read of the chains it has received *)
}.

Definition log (i : nat) (s : talk) : list bytes := nth i (logs s) [].

(** The state of a chain, if the party has it. *)
Fixpoint find_got (i : nat) (l : list (nat * avail)) : option (nat * avail) :=
  match l with
  | [] => None
  | (j, a) :: l => if j =? i then Some (0, a) else (λ '(pos, a), (S pos, a)) <$> find_got i l
  end.

(** The chain a party sends on: its own ([inl]), or one it has yet to answer ([inr]). *)
Definition turn (p : bool) (s : talk) : nat + nat :=
  let last := length (logs s) - 1 in
  if Bool.eqb (owner last) p then inl last
  else if bool_decide (is_Some (find_got last (got s p))) then inr last
  else inl (last - 1).

Definition set_got (p : bool) (l : list (nat * avail)) (s : talk) : talk :=
  {| logs := logs s; sent := sent s; got := λ q, if Bool.eqb q p then l else got s q |}.

(** A party that has yet to answer starts a chain of its own. *)
Definition start_chain (s : talk) : talk := {| logs := logs s ++ [[]]; sent := sent s; got := got s |}.

(** Sending on a chain. *)
Definition append (i : nat) (plaintext : bytes) (s : talk) : talk :=
  {| logs := <[i := log i s ++ [plaintext]]> (logs s); sent := sent s ++ [(i, length (log i s))]; got := got s |}.

Definition spec_send (p : bool) (plaintext : bytes) (s : talk) : talk :=
  match turn p s with
  | inl i => append i plaintext s
  | inr i => append (S i) plaintext (start_chain s)
  end.

Definition fresh_chain : avail := {| next := 0; kept := [] |}.

(** Receiving the message [k] of the chain [i]. *)
Definition spec_receive (i k : nat) (s : talk) : result OlmDecryptionError bytes * talk :=
  let p := negb (owner i) in
  match find_got i (got s p) with
  | Some (pos, a) =>
      match spec_read k a with
      | Err e => (Err e, s)
      | Ok a => (Ok (nth k (log i s) []), set_got p (<[pos := (i, a)]> (got s p)) s)
      end
  | None =>
      match spec_read k fresh_chain with
      | Err e => (Err e, s)
      | Ok a => (Ok (nth k (log i s) []), set_got p (keep_last MAX_RECEIVING_CHAINS (got s p ++ [(i, a)])) s)
      end
  end.

(** The receiver has the chain, or it is the latest one. *)
Definition readable (i : nat) (s : talk) : Prop :=
  is_Some (find_got i (got s (negb (owner i)))) ∨ i = length (logs s) - 1.

(** ** The code *)

Section code.
Context `{!Primitives, !Curve25519, !ProstOlm} (debug : bool).

(** Two sessions and the messages under way, each with its sender. *)
Record world := { party : bool → Session; wire : list (bool * (Z * bytes)) }.

Definition set_party (p : bool) (s : Session) (w : world) : world :=
  {| party := λ q, if Bool.eqb q p then s else party w q; wire := wire w |}.

(** A party sends; the [n]-th message reaches the other party; somebody hands a party a
    message of their own making. The keys are what the code would draw. *)
Inductive event :=
| Send (p : bool) (plaintext : bytes) (fresh : SecretKey)
| Deliver (n : nat) (fresh : SecretKey)
| Forge (p : bool) (m : OlmMessage) (fresh : SecretKey).

Inductive reply :=
| Sent (pre_key : bool)
| EncryptionFailed
| NotSent
| Undecodable (e : OlmDecodeError)
| Received (r : result OlmDecryptionError bytes).

Definition step (e : event) (w : world) : panics (reply * world) :=
  match e with
  | Send p plaintext fresh =>
      let! (m, s) := session_encrypt debug fresh plaintext (party w p) in
      match m with
      | None => Ret (EncryptionFailed, set_party p s w)
      | Some m =>
          Ret (Sent (match m with PreKey _ => true | Normal _ => false end),
               {| party := party (set_party p s w); wire := wire w ++ [(p, to_parts m)] |})
      end
  | Deliver n fresh =>
      match wire w !! n with
      | None => Ret (NotSent, w)
      | Some (p, (message_type, ciphertext)) =>
          match from_parts message_type ciphertext with
          | Err e => Ret (Undecodable e, w)
          | Ok m =>
              let! (r, s) := session_decrypt debug fresh m (party w (negb p)) in
              Ret (Received r, set_party (negb p) s w)
          end
      end
  | Forge p m fresh =>
      let! (r, s) := session_decrypt debug fresh m (party w p) in
      Ret (Received r, set_party p s w)
  end.

(** A message that the party [p] is not to read: made by somebody else, or of a chain
    that has been dropped. *)
Inductive foreign : event → bool → talk → Prop :=
| foreign_forged p m fresh s : foreign (Forge p m fresh) p s
| foreign_dropped n fresh s i k :
    sent s !! n = Some (i, k) → ¬ readable i s → foreign (Deliver n fresh) (negb (owner i)) s.

(** What the specification allows. A foreign message that is refused changes nothing,
    except that it may start the chain of a party that has yet to answer. *)
Inductive spec_step : event → talk → reply → talk → Prop :=
| spec_sends p plaintext fresh s :
    spec_step (Send p plaintext fresh) s (Sent (bool_decide (got s p = []))) (spec_send p plaintext s)
| spec_receives n fresh s i k :
    sent s !! n = Some (i, k) → readable i s →
    spec_step (Deliver n fresh) s (Received (fst (spec_receive i k s))) (snd (spec_receive i k s))
| spec_not_sent n fresh s : sent s !! n = None → spec_step (Deliver n fresh) s NotSent s
| spec_refuses e p s err : foreign e p s → spec_step e s (Received (Err err)) s
| spec_refuses_started e p s err i :
    foreign e p s → turn p s = inr i → spec_step e s (Received (Err err)) (start_chain s).

(** The code follows the specification, until somebody's message passes its
    authentication. *)
Inductive follows : list event → world → talk → Prop :=
| follows_nil w s : follows [] w s
| follows_step e events w s a w' s' :
    step e w = Ret (a, w') → spec_step e s a s' → follows events w' s' → follows (e :: events) w s
| follows_forged e events w s p plaintext w' :
    step e w = Ret (Received (Ok plaintext), w') → foreign e p s → follows (e :: events) w s.

End code.

(** ** Two Olm sessions follow their conversation

    The states of the two sessions as functions of the conversation, and the proof
    that every step of the code keeps them so. *)

Section pair.
Context `{!Primitives, !Curve25519, !ProstOlm} (debug : bool).
Context (cfg : Version) (root0 seed0 : bytes) (t0 : SecretKey) (keys : bool → SessionKeys).
Implicit Types (ts : list SecretKey) (i k n : nat) (p q : bool) (s : talk).

(** ** The keys of the chains *)

(** The secret key of each chain; [ts] are those drawn after the first. *)
Definition secret ts i : SecretKey := nth i (t0 :: ts) t0.

Fixpoint chain_keys ts i : bytes * bytes :=
  match i with
  | 0 => (root0, seed0)
  | S j =>
      let output := default [] (kdf (fst (chain_keys ts j)) (secret ts (S j)) (public_of (secret ts j))) in
      (take 32 output, drop 32 output)
  end.

Definition seed ts i : bytes := snd (chain_keys ts i).

Lemma secret_app ts t i : i <= length ts → secret (ts ++ [t]) i = secret ts i.
Proof. intros Hi. unfold secret. rewrite app_comm_cons. apply app_nth1. cbn. lia. Qed.

Lemma secret_last ts t : secret (ts ++ [t]) (S (length ts)) = t.
Proof. unfold secret. cbn. by rewrite app_nth2, Nat.sub_diag by lia. Qed.

Lemma chain_keys_app ts t i : i <= length ts → chain_keys (ts ++ [t]) i = chain_keys ts i.
Proof.
  induction i as [|i IH]; intros Hi; [done|]. cbn [chain_keys]. by rewrite IH, !secret_app by lia.
Qed.

(** ** The states of the sending ratchet *)

Definition active_at ts i n : ActiveDoubleRatchet :=
  {| parent_ratchet_key := match i with 0 => None | S j => Some (public_of (secret ts j)) end;
     active_count := Known (Z.of_nat i); active_root_key := fst (chain_keys ts i); active_ratchet_key := secret ts i;
     symmetric_key_ratchet := chain_at (seed ts i) n |}.

Definition inactive_at ts i : InactiveDoubleRatchet :=
  {| inactive_root_key := fst (chain_keys ts i); inactive_ratchet_key := public_of (secret ts i);
     inactive_count := Known (Z.of_nat i) |}.

Definition chain_of ts (x : nat * avail) : ReceiverChain :=
  chain_state (seed ts (fst x)) (public_of (secret ts (fst x))) (Known (Z.of_nat (fst x))) (snd x).

Lemma active_at_app ts t i n : i <= length ts → active_at (ts ++ [t]) i n = active_at ts i n.
Proof.
  intros Hi. unfold active_at, seed. rewrite chain_keys_app, secret_app by done. destruct i as [|i]; [done|]. by rewrite secret_app by lia.
Qed.

Lemma chain_of_app ts t x : fst x <= length ts → chain_of (ts ++ [t]) x = chain_of ts x.
Proof. intros Hi. unfold chain_of, seed. by rewrite chain_keys_app, secret_app. Qed.

Lemma count_advance_known i :
  (Z.of_nat (S i) <= u64_max)%Z → count_advance debug (Known (Z.of_nat i)) = Ret (Known (Z.of_nat (S i))).
Proof. intros Hi. unfold count_advance. rewrite u64_check_ok by lia. do 2 f_equal. lia. Qed.

Lemma kdf_some root a b : ∃ out, kdf root a (public_of b) = Some out.
Proof. unfold kdf. destruct (diffie_hellman_contributory a b) as [x ->]. by eexists. Qed.

Lemma activate_at ts fresh :
  (Z.of_nat (S (length ts)) <= u64_max)%Z →
  activate debug fresh (inactive_at ts (length ts)) = Ret (Some (active_at (ts ++ [fresh]) (S (length ts)) 0)).
Proof.
  intros Hi. unfold activate, remote_root_advance. cbn [inactive_root_key inactive_ratchet_key inactive_at inactive_count].
  unfold active_at, seed. cbn [chain_keys]. rewrite secret_last, chain_keys_app, secret_app by lia.
  destruct (kdf_some (fst (chain_keys ts (length ts))) fresh (secret ts (length ts))) as [out ->].
  cbn [mbind option_bind]. by rewrite count_advance_known.
Qed.

Lemma active_advance_at ts i n :
  (Z.of_nat (S i) <= u64_max)%Z →
  active_advance debug (public_of (secret ts (S i))) (active_at ts i n)
  = Ret (Some (inactive_at ts (S i), chain_of ts (S i, fresh_chain))).
Proof.
  intros Hi. unfold active_advance, root_advance. cbn [active_root_key active_ratchet_key active_at active_count].
  unfold inactive_at, chain_of, seed. cbn [chain_keys fst snd].
  assert (kdf (fst (chain_keys ts i)) (secret ts i) (public_of (secret ts (S i)))
    = kdf (fst (chain_keys ts i)) (secret ts (S i)) (public_of (secret ts i))) as ->
    by (unfold kdf; by rewrite diffie_hellman_comm).
  destruct (kdf_some (fst (chain_keys ts i)) (secret ts (S i)) (secret ts i)) as [out ->].
  cbn [mbind option_bind]. by rewrite count_advance_known.
Qed.

(** ** Messages *)

Definition message_key_at ts i k : MessageKey :=
  {| message_key := expand_chain_key (seed_at (seed ts i) k); message_ratchet_key := public_of (secret ts i);
     message_chain_index := Z.of_nat k |}.

Definition sealed_at ts i k (plaintext : bytes) : Message :=
  match cfg with
  | V1 => key_encrypt_truncated_mac (message_key_at ts i k) plaintext
  | V2 => key_encrypt (message_key_at ts i k) plaintext
  end.

Lemma sealed_at_app ts t i k (p : bytes) : i <= length ts → sealed_at (ts ++ [t]) i k p = sealed_at ts i k p.
Proof. intros Hi. unfold sealed_at, message_key_at, seed. by rewrite chain_keys_app, secret_app. Qed.

Lemma sealed_ratchet_key ts i k (p : bytes) : ratchet_key (sealed_at ts i k p) = public_of (secret ts i).
Proof. unfold sealed_at. by destruct cfg. Qed.

Lemma sealed_chain_index ts i k (p : bytes) : chain_index (sealed_at ts i k p) = Z.of_nat k.
Proof. unfold sealed_at. by destruct cfg. Qed.

Lemma opened_sealed ts i k (p : bytes) : opened (seed ts i) cfg (sealed_at ts i k p) k = Ok p.
Proof.
  unfold opened, found_decrypt, sealed_at. destruct cfg.
  - unfold key_decrypt_truncated_mac, key_encrypt_truncated_mac. cbn [olm_mac olm_set_mac new_truncated_mac remote_key key_at message_key message_key_at].
    rewrite verify_truncate. unfold open_ciphertext, new_cipher. cbn [olm_ciphertext olm_set_mac new_truncated_mac]. by rewrite decrypt_encrypt.
  - unfold key_decrypt, key_encrypt. cbn [olm_mac olm_set_mac new_message remote_key key_at message_key message_key_at].
    unfold verify_mac. rewrite bool_decide_eq_true_2 by done. unfold open_ciphertext, new_cipher. cbn [olm_ciphertext olm_set_mac new_message]. by rewrite decrypt_encrypt.
Qed.

Lemma sealed_message_ok ts i k (p : bytes) :
  (Z.of_nat k <= u64_max)%Z → (Z.of_nat (length p) < 2 ^ 63)%Z → olm_message_ok (sealed_at ts i k p).
Proof.
  intros Hk Hp. unfold olm_message_ok. rewrite sealed_chain_index. split; [lia|]. unfold sealed_at. split.
  - assert (∀ c, Z.of_nat (length (encrypt c p)) < 2 ^ 64)%Z as Henc.
    { intros c. unfold encrypt. rewrite length_aes_encrypt. rewrite Nat2Z.inj_mul, Nat2Z.inj_add, Nat2Z.inj_div. Z.div_mod_to_equations; lia. }
    destruct cfg; apply Henc.
  - destruct cfg; cbn; (split; [done|]); unfold truncate, mac; rewrite ?length_take, length_hmac; done.
Qed.

Lemma next_key_at ts i n :
  (Z.of_nat n < u64_max)%Z →
  active_next_message_key debug (active_at ts i n) = Ret (message_key_at ts i n, active_at ts i (S n)).
Proof.
  intros Hn. unfold active_next_message_key, create_message_key. cbn [symmetric_key_ratchet active_at]. by rewrite chain_advance_at.
Qed.

(** ** The states of the sessions *)

Definition sending_of ts p s : DoubleRatchet :=
  match turn p s with
  | inl i => Active (active_at ts i (length (log i s)))
  | inr i => Inactive (inactive_at ts i)
  end.

Definition session_of ts p s : Session :=
  {| own_session_keys := keys p; sending_ratchet := sending_of ts p s; receiving_chains := chain_of ts <$> got s p;
     session_config := cfg |}.

(** What a party has of the other side's chains. *)
Definition got_ok s p : Prop :=
  length (got s p) <= MAX_RECEIVING_CHAINS ∧
  Forall (λ x, fst x < length (logs s) ∧ owner (fst x) = negb p ∧ next (snd x) <= length (log (fst x) s) ∧ avail_ok (snd x)) (got s p).

Record talk_ok ts s : Prop := {
  talk_chains : length (logs s) = S (length ts);
  talk_keys : NoDup (public_of <$> t0 :: ts);
  talk_got p : got_ok s p;
  talk_first : length (logs s) = 1 → is_Some (find_got 0 (got s false));
  talk_sent : Forall (λ x, fst x < length (logs s) ∧ snd x < length (log (fst x) s)) (sent s)
}.

Lemma find_got_lookup i l pos a : find_got i l = Some (pos, a) → l !! pos = Some (i, a).
Proof.
  revert pos. induction l as [|[j b] l IH]; intros pos; [done|]. cbn. destruct (Nat.eqb_spec j i) as [->|].
  - by intros [= <- <-].
  - destruct (find_got i l) as [[pos' a']|]; [|done]. intros [= <- <-]. by apply IH.
Qed.

Lemma find_got_None i l : find_got i l = None → i ∉ l.*1.
Proof.
  induction l as [|[j b] l IH]; [intros _; apply not_elem_of_nil|]. cbn. destruct (Nat.eqb_spec j i) as [->|Hne]; [done|].
  destruct (find_got i l) as [[? ?]|]; [done|]. intros _. rewrite not_elem_of_cons. auto.
Qed.

Lemma find_got_bound i l n : Forall (λ x : nat * avail, fst x < n) l → n <= i → find_got i l = None.
Proof.
  induction 1 as [|[j b] l Hj _ IH]; [done|]. intros Hi. cbn in *. destruct (Nat.eqb_spec j i); [lia|]. by rewrite IH.
Qed.

(** The public keys of chains tell them apart. *)
Lemma secret_inj ts i j :
  NoDup (public_of <$> t0 :: ts) → i <= length ts → j <= length ts → public_of (secret ts i) = public_of (secret ts j) → i = j.
Proof.
  intros Hnd Hi Hj Heq. assert (∀ x, x <= length ts → (public_of <$> t0 :: ts) !! x = Some (public_of (secret ts x))) as Hlook.
  { intros x Hx. rewrite list_lookup_fmap. unfold secret. destruct ((t0 :: ts) !! x) as [t|] eqn:Ht.
    - apply nth_lookup_Some with (d := t0) in Ht. by rewrite Ht.
    - apply lookup_ge_None in Ht. cbn in Ht. lia. }
  eapply NoDup_lookup; [done|by apply Hlook|]. rewrite Heq. by apply Hlook.
Qed.

Lemma find_chain_of ts i l :
  NoDup (public_of <$> t0 :: ts) → i <= length ts → Forall (λ x : nat * avail, fst x <= length ts) l →
  find_chain (public_of (secret ts i)) (chain_of ts <$> l) = (λ x, (fst x, chain_of ts (i, snd x))) <$> find_got i l.
Proof.
  intros Hnd Hi. induction 1 as [|[j a] l Hj _ IH]; [done|]. cbn. unfold belongs_to. cbn [chain_ratchet_key chain_of chain_state fst snd] in *.
  destruct (Nat.eqb_spec j i) as [->|Hne].
  - by rewrite bool_decide_eq_true_2.
  - rewrite bool_decide_eq_false_2; [|intros Heq; apply Hne; by eapply secret_inj].
    cbn in IH. rewrite IH. by destruct (find_got i l) as [[pos b]|].
Qed.

(** Where a party sends. *)
Lemma owner_S i : owner (S i) = negb (owner i).
Proof. unfold owner. by rewrite Nat.even_succ, <- Nat.negb_even. Qed.

Lemma turn_spec ts s p :
  talk_ok ts s →
  match turn p s with
  | inl i => owner i = p ∧ (i = length ts ∨ S i = length ts ∧ find_got (S i) (got s p) = None)
  | inr i => owner i = negb p ∧ i = length ts ∧ is_Some (find_got i (got s p))
  end.
Proof.
  intros Hok. unfold turn. rewrite (talk_chains _ _ Hok), Nat.sub_1_r. cbn [Nat.pred].
  destruct (eqb_spec (owner (length ts)) p) as [Ho|Ho]; [by auto|].
  case_bool_decide as Hc; [split_and!; [by destruct p, (owner (length ts))|done..]|].
  rewrite <- eq_None_not_Some in Hc. destruct (length ts) as [|l] eqn:Hl.
  - destruct p; [done|]. destruct (talk_first _ _ Hok) as [x Hx]; [by rewrite (talk_chains _ _ Hok), Hl|]. by rewrite Hc in Hx.
  - rewrite Nat.sub_1_r. cbn [Nat.pred]. split; [|by right]. rewrite owner_S in Ho. by destruct (owner l), p.
Qed.

Lemma got_bound ts s p : talk_ok ts s → Forall (λ x, fst x <= length ts) (got s p).
Proof.
  intros Hok. destruct (talk_got _ _ Hok p) as [_ Hf]. eapply Forall_impl; [done|]. cbn. rewrite (talk_chains _ _ Hok). intros x (? & _). lia.
Qed.

(** A new chain changes nothing for the party that does not start it. *)
Lemma chains_start ts t s p :
  talk_ok ts s → chain_of (ts ++ [t]) <$> got s p = chain_of ts <$> got s p.
Proof.
  intros Hok. apply list_fmap_ext. intros n x Hx. apply chain_of_app.
  pose proof (got_bound ts s p Hok) as Hf. by eapply (Forall_lookup_1 _ _ _ _ Hf).
Qed.

Lemma turn_start ts s p :
  talk_ok ts s → owner (length ts) = negb p → turn p (start_chain s) = inl (S (length ts)) ∧ turn (negb p) (start_chain s) = inl (length ts).
Proof.
  intros Hok Ho. unfold turn. cbn [logs start_chain]. rewrite length_app, (talk_chains _ _ Hok). cbn [length].
  replace (S (length ts) + 1 - 1) with (S (length ts)) by lia. rewrite owner_S, Ho, negb_involutive, eqb_reflx. split; [done|].
  rewrite eqb_negb2. rewrite bool_decide_eq_false_2; [f_equal; lia|]. cbn [got start_chain].
  rewrite (find_got_bound _ _ (S (length ts))); [by intros [? ?]| |lia].
  eapply Forall_impl; [by apply (got_bound ts)|]. cbn. lia.
Qed.

Lemma log_start i s : i < length (logs s) → log i (start_chain s) = log i s.
Proof. intros Hi. unfold log. cbn. by rewrite app_nth1. Qed.

Lemma log_start_last s : log (length (logs s)) (start_chain s) = [].
Proof. unfold log. cbn. by rewrite app_nth2, Nat.sub_diag by lia. Qed.

Lemma session_of_start ts t s p :
  talk_ok ts s → turn p s = inr (length ts) →
  session_of (ts ++ [t]) p (start_chain s) = set_sending (Active (active_at (ts ++ [t]) (S (length ts)) 0)) (session_of ts p s) ∧
  session_of (ts ++ [t]) (negb p) (start_chain s) = session_of ts (negb p) s.
Proof.
  intros Hok Ht. pose proof (turn_spec ts s p Hok) as Hp. rewrite Ht in Hp. destruct Hp as (Ho & _ & _).
  destruct (turn_start ts s p Hok Ho) as [Ht1 Ht2]. pose proof (talk_chains _ _ Hok) as Hl. unfold session_of, sending_of, set_sending.
  cbn [got start_chain own_session_keys receiving_chains session_config]. rewrite Ht1, Ht2, !chains_start by done. split.
  - do 3 f_equal. rewrite <- Hl. by rewrite log_start_last.
  - f_equal. rewrite log_start by lia. rewrite active_at_app by done.
    unfold turn. rewrite Hl, Nat.sub_1_r. cbn [Nat.pred]. by rewrite Ho, eqb_reflx.
Qed.

(** ** Sending *)

Definition bounded n s : Prop := length (logs s) <= n ∧ ∀ i, length (log i s) <= n.

Lemma log_append i j pt s :
  i < length (logs s) → log j (append i pt s) = if decide (j = i) then log i s ++ [pt] else log j s.
Proof.
  intros Hi. unfold log, append. cbn. case_decide as Hj; [subst j|].
  - apply nth_lookup_Some. by apply list_lookup_insert_eq.
  - destruct (logs s !! j) as [x|] eqn:Hx.
    + rewrite (nth_lookup_Some (logs s) j [] x Hx). apply nth_lookup_Some. by rewrite list_lookup_insert_ne by done.
    + pose proof Hx as Hx'. apply lookup_ge_None in Hx'. rewrite !nth_overflow; [done|done|by rewrite length_insert].
Qed.

Lemma log_append_length i j pt s : i < length (logs s) → length (log j s) <= length (log j (append i pt s)).
Proof. intros Hi. rewrite log_append by done. case_decide; [subst; rewrite length_app; lia|done]. Qed.

Lemma turn_append i pt s p : turn p (append i pt s) = turn p s.
Proof. unfold turn, append. cbn. by rewrite length_insert. Qed.

Lemma session_of_append ts i pt s q :
  talk_ok ts s → i < length (logs s) → owner i ≠ q → session_of ts q (append i pt s) = session_of ts q s.
Proof.
  intros Hok Hi Ho. unfold session_of, sending_of. rewrite turn_append. f_equal.
  pose proof (turn_spec ts s q Hok) as Ht. destruct (turn q s) as [j|j]; [|done]. do 2 f_equal. rewrite log_append by done.
  rewrite decide_False; [done|]. intros ->. by destruct Ht as [? _].
Qed.

Lemma append_ok ts i pt s : talk_ok ts s → i < length (logs s) → talk_ok ts (append i pt s).
Proof.
  intros [Hl Hk Hg Hf Hs] Hi. split; [by cbn; rewrite length_insert|done| | |].
  - intros p. destruct (Hg p) as [Hlen Hall]. split; [done|]. cbn [got append]. eapply Forall_impl; [done|]. cbn beta.
    intros x (? & ? & Hn & ?). cbn [logs append]. rewrite length_insert. split_and!; [done..| |done].
    etrans; [done|by apply log_append_length].
  - cbn. by rewrite length_insert.
  - cbn [sent append]. apply Forall_app. split.
    + eapply Forall_impl; [done|]. cbn beta. intros x [? Hx]. cbn [logs append]. rewrite length_insert. split; [done|].
      eapply Nat.lt_le_trans; [done|by apply log_append_length].
    + repeat constructor; cbn [fst snd logs append]; [by rewrite length_insert|]. rewrite log_append, decide_True, length_app by done. cbn; lia.
Qed.

Lemma start_ok ts t s : talk_ok ts s → public_of t ∉ public_of <$> t0 :: ts → talk_ok (ts ++ [t]) (start_chain s).
Proof.
  intros [Hl Hk Hg Hf Hs] Ht. assert (∀ i, i < length (logs s) → log i (start_chain s) = log i s) as Hlog by (intros; by apply log_start).
  split.
  - cbn. rewrite !length_app. cbn. lia.
  - rewrite app_comm_cons, fmap_app, NoDup_app. split; [done|]. split; [|apply NoDup_singleton].
    intros x Hx Hx'%list_elem_of_singleton. by subst x.
  - intros p. destruct (Hg p) as [Hlen Hall]. split; [done|]. cbn [got start_chain]. eapply Forall_impl; [done|]. cbn beta.
    intros x (? & ? & ? & ?). rewrite Hlog by done. cbn [logs start_chain]. rewrite length_app. split_and!; [cbn; lia|done..].
  - cbn. rewrite length_app. cbn. lia.
  - cbn [sent start_chain]. eapply Forall_impl; [done|]. cbn beta. intros x [? ?]. rewrite Hlog by done. cbn [logs start_chain].
    rewrite length_app. split; [cbn; lia|done].
Qed.

Lemma find_got_is_Some i l : is_Some (find_got i l) ↔ i ∈ l.*1.
Proof.
  induction l as [|[j b] l IH]; cbn; [split; [by intros [? ?]|by intros ?%not_elem_of_nil]|].
  rewrite elem_of_cons. destruct (Nat.eqb_spec j i) as [->|Hne]; [split; [by left|by eexists]|].
  rewrite fmap_is_Some, IH. split; [by right|]. by intros [?|?].
Qed.

(** A pre-key message carries the keys of its sender's session. *)
Definition carries_keys p (m : OlmMessage) : Prop :=
  match m with PreKey m => session_keys m = keys p | Normal _ => True end.

(** The secret keys after a party has sent. *)
Definition keys_after p (fresh : SecretKey) ts s : list SecretKey :=
  match turn p s with inl _ => ts | inr _ => ts ++ [fresh] end.

Lemma pre_key_flag ts p s d :
  has_received_message (set_sending d (session_of ts p s)) = negb (bool_decide (got s p = [])).
Proof.
  unfold has_received_message. cbn. f_equal. apply bool_decide_ext. split; [apply fmap_nil_inv|by intros ->].
Qed.

(** A party that sends: its session, the message, and the other party's session. *)
Lemma encrypt_spec ts p pt fresh s n :
  talk_ok ts s → bounded n s → (Z.of_nat n < u64_max)%Z → public_of fresh ∉ public_of <$> t0 :: ts →
  let ts' := keys_after p fresh ts s in let s' := spec_send p pt s in
  ∃ i k m, session_encrypt debug fresh pt (session_of ts p s) = Ret (Some m, session_of ts' p s') ∧
    talk_ok ts' s' ∧ session_of ts' (negb p) s' = session_of ts (negb p) s ∧
    sent s' = sent s ++ [(i, k)] ∧ owner i = p ∧ (Z.of_nat k < u64_max)%Z ∧
    inner_message m = sealed_at ts' i k pt ∧ nth k (log i s') [] = pt ∧
    match m with PreKey _ => true | Normal _ => false end = bool_decide (got s p = []) ∧ carries_keys p m.
Proof.
  intros Hok [Hb1 Hb2] Hn Hfresh. unfold keys_after, spec_send, session_encrypt, next_message_key.
  pose proof (turn_spec ts s p Hok) as Ht. pose proof (talk_chains _ _ Hok) as Hl.
  cbn [sending_ratchet session_of]. unfold sending_of. destruct (turn p s) as [i|i] eqn:Hturn.
  - destruct Ht as [Ho Hi]. assert (i < length (logs s)) as Hil by lia. exists i, (length (log i s)).
    rewrite next_key_at by (specialize (Hb2 i); lia). rewrite pre_key_flag. eexists. split; [|split_and!].
    + do 3 f_equal. unfold session_of, set_sending, sending_of. cbn [own_session_keys receiving_chains session_config].
      rewrite turn_append, Hturn, log_append, decide_True, length_app, Nat.add_1_r by done. done.
    + by apply append_ok.
    + apply session_of_append; [done..|]. rewrite Ho. by destruct p.
    + done.
    + done.
    + specialize (Hb2 i). lia.
    + unfold sealed_at. cbn [session_config set_sending session_of]. by destruct cfg, (bool_decide _).
    + rewrite log_append, decide_True by done. apply nth_middle.
    + by destruct (bool_decide _).
    + by destruct (bool_decide _).
  - destruct Ht as (Ho & -> & _). rewrite activate_at by lia. pose proof (start_ok ts fresh s Hok Hfresh) as Hok'.
    destruct (session_of_start ts fresh s p Hok Hturn) as [Hp Hq]. destruct (turn_start ts s p Hok Ho) as [Ht1 Ht2].
    rewrite next_key_at by (unfold u64_max; lia). rewrite pre_key_flag.
    assert (log (S (length ts)) (start_chain s) = []) as Hlog by (rewrite <- Hl; apply log_start_last).
    assert (S (length ts) < length (logs (start_chain s))) as Hil by (cbn; rewrite length_app; cbn; lia).
    exists (S (length ts)), 0. eexists. split; [|split_and!].
    + do 3 f_equal. pose proof Hp as Hp'. unfold session_of, sending_of in Hp' |- *. rewrite turn_append, Ht1, log_append, decide_True, Hlog by done.
      cbn [app length]. unfold set_sending. cbn [own_session_keys receiving_chains session_config got append start_chain]. f_equal. symmetry. by apply chains_start.
    + by apply append_ok.
    + rewrite session_of_append; [done..|]. rewrite owner_S, Ho, negb_involutive. by destruct p.
    + cbn [sent append]. by rewrite Hlog.
    + by rewrite owner_S, Ho, negb_involutive.
    + done.
    + unfold sealed_at. cbn [session_config set_sending session_of]. by destruct cfg, (bool_decide _).
    + by rewrite log_append, decide_True, Hlog by done.
    + by destruct (bool_decide _).
    + by destruct (bool_decide _).
Qed.

(** ** Receiving *)

Lemma set_got_same p l s : got (set_got p l s) p = l.
Proof. cbn. by rewrite eqb_reflx. Qed.

Lemma set_got_other p l s : got (set_got p l s) (negb p) = got s (negb p).
Proof. cbn. by rewrite eqb_negb1. Qed.

(** The other party does not notice. *)
Lemma session_of_set_got ts p l s : session_of ts (negb p) (set_got p l s) = session_of ts (negb p) s.
Proof. unfold session_of, sending_of, turn. by rewrite set_got_other. Qed.

Lemma set_got_ok ts p l s :
  talk_ok ts s → length l <= MAX_RECEIVING_CHAINS →
  Forall (λ x, fst x < length (logs s) ∧ owner (fst x) = negb p ∧ next (snd x) <= length (log (fst x) s) ∧ avail_ok (snd x)) l →
  (∀ i, is_Some (find_got i (got s p)) → length (logs s) = 1 → is_Some (find_got i l)) →
  talk_ok ts (set_got p l s).
Proof.
  intros [Hl Hk Hg Hf Hs] Hlen Hall Hkeep. split; [done|done| | |done].
  - intros q. unfold got_ok. cbn [got set_got]. destruct (eqb_spec q p) as [->|]; [done|apply Hg].
  - cbn [logs set_got]. intros Hone. cbn [got set_got]. destruct (eqb_spec false p) as [<-|]; [|by apply Hf]. apply Hkeep; [by apply Hf|done].
Qed.

Lemma keep_last_in {A} n (l : list A) x : 0 < n → x ∈ keep_last n (l ++ [x]).
Proof.
  intros Hn. unfold keep_last. rewrite length_app. cbn [length]. destruct (decide (length l + 1 <= n)).
  - replace (length l + 1 - n) with 0 by lia. rewrite drop_0, elem_of_app. right. by left.
  - rewrite drop_app_le by lia. rewrite elem_of_app. right. by left.
Qed.

Lemma Forall_keep_last {A} (P : A → Prop) n l : Forall P l → Forall P (keep_last n l).
Proof. intros Hl. by apply Forall_drop. Qed.

(** Reading an index that has been sent stays within what has been sent. *)
Lemma spec_read_bound k a a' n : spec_read k a = Ok a' → next a <= n → k < n → next a' <= n.
Proof. unfold spec_read. repeat case_decide; try done; intros [= <-]; cbn; lia. Qed.

Lemma fresh_chain_ok : avail_ok fresh_chain.
Proof. split; cbn; [lia|by constructor]. Qed.

(** A message of a chain that the receiver has. *)
Lemma receive_known ts fresh s n i k pos a :
  let p := negb (owner i) in
  talk_ok ts s → bounded n s → (Z.of_nat n + MAX_MESSAGE_GAP < u64_max)%Z → i < length (logs s) → k < length (log i s) →
  find_got i (got s p) = Some (pos, a) →
  decrypt_decoded debug fresh (sealed_at ts i k (nth k (log i s) [])) (session_of ts p s)
  = Ret (fst (spec_receive i k s), session_of ts p (snd (spec_receive i k s))) ∧
  talk_ok ts (snd (spec_receive i k s)).
Proof.
  intros p Hok [_ Hb] Hn Hi Hk Hfind. pose proof (talk_chains _ _ Hok) as Hl.
  unfold decrypt_decoded. rewrite sealed_ratchet_key. cbn [receiving_chains session_of session_config].
  rewrite find_chain_of; [|apply Hok|lia|by apply got_bound]. rewrite Hfind. cbn [fmap option_fmap option_map fst snd].
  pose proof (find_got_lookup _ _ _ _ Hfind) as Hpos. destruct (talk_got _ _ Hok p) as [Hlen Hall].
  pose proof (Forall_lookup_1 _ _ _ _ Hall Hpos) as (_ & Ho & Hnext & Ha). cbn [fst snd] in *.
  unfold chain_of at 1. rewrite (chain_decrypt_spec _ _ _ _ _ _ _ k); [|done|apply sealed_chain_index|specialize (Hb i); cbn; lia].
  cbn [fst snd]. rewrite opened_sealed. unfold spec_receive. fold p. rewrite Hfind. cbn beta iota.
  destruct (spec_read k a) as [a'|e] eqn:Hr; cbn [fst snd].
  - split.
    + do 3 f_equal. unfold set_receiving, session_of. cbn [own_session_keys sending_ratchet session_config receiving_chains].
      rewrite set_got_same, list_fmap_insert. unfold sending_of, turn. rewrite set_got_same. cbn [logs set_got].
      assert (∀ j, bool_decide (is_Some (find_got j (<[pos:=(i, a')]> (got s p)))) = bool_decide (is_Some (find_got j (got s p)))) as Hsame; [|by rewrite Hsame].
      intros j. apply bool_decide_ext. rewrite !find_got_is_Some, list_fmap_insert. cbn [fst]. rewrite list_insert_id; [done|].
      rewrite list_lookup_fmap, Hpos. done.
    + apply set_got_ok; [done|by rewrite length_insert| |].
      * apply Forall_insert; [done|]. cbn [fst snd]. split_and!; [done..| |by eapply spec_read_ok]. by eapply spec_read_bound.
      * intros j. rewrite !find_got_is_Some, list_fmap_insert. cbn [fst]. rewrite list_insert_id; [done|]. by rewrite list_lookup_fmap, Hpos.
  - split; [|done]. do 2 f_equal. unfold set_receiving, session_of. cbn [own_session_keys sending_ratchet receiving_chains session_config].
    f_equal. apply list_insert_id. by rewrite list_lookup_fmap, Hpos.
Qed.

(** The party that has not received the latest chain sends on the one before. *)
Lemma turn_behind ts s p :
  talk_ok ts s → owner (length ts) = negb p → find_got (length ts) (got s p) = None →
  ∃ j, length ts = S j ∧ turn p s = inl j.
Proof.
  intros Hok Ho Hf. pose proof (turn_spec ts s p Hok) as Ht. destruct (turn p s) as [j|j] eqn:Hturn.
  - destruct Ht as [Hj [->|[<- _]]]; [|by exists j]. rewrite Ho in Hj. by destruct p.
  - destruct Ht as (_ & -> & [x Hx]). by rewrite Hf in Hx.
Qed.

Lemma turn_caught_up ts s p l a :
  talk_ok ts s → owner (length ts) = negb p → (length ts, a) ∈ l → turn p (set_got p l s) = inr (length ts).
Proof.
  intros Hok Ho Hin. unfold turn. cbn [logs set_got]. rewrite (talk_chains _ _ Hok), Nat.sub_1_r. cbn [Nat.pred].
  rewrite Ho, eqb_negb1. change (got (set_got p l s) p) with (if Bool.eqb p p then l else got s p). rewrite eqb_reflx.
  rewrite bool_decide_eq_true_2; [done|]. apply find_got_is_Some, list_elem_of_fmap. by exists (length ts, a).
Qed.

(** A message of the latest chain, when the receiver has none of it. *)
Lemma receive_new ts fresh s n k :
  let i := length ts in let p := negb (owner i) in
  talk_ok ts s → bounded n s → (Z.of_nat n + MAX_MESSAGE_GAP < u64_max)%Z → k < length (log i s) →
  find_got i (got s p) = None →
  decrypt_decoded debug fresh (sealed_at ts i k (nth k (log i s) [])) (session_of ts p s)
  = Ret (fst (spec_receive i k s), session_of ts p (snd (spec_receive i k s))) ∧
  talk_ok ts (snd (spec_receive i k s)).
Proof.
  intros i p Hok [Hb1 Hb2] Hn Hk Hfind. pose proof (talk_chains _ _ Hok) as Hl. unfold MAX_MESSAGE_GAP in Hn.
  assert (owner i = negb p) as Ho by (subst p; by rewrite negb_involutive).
  destruct (turn_behind ts s p Hok Ho Hfind) as (j & Hj & Hturn). unfold decrypt_decoded. rewrite sealed_ratchet_key.
  cbn [receiving_chains session_of session_config]. rewrite find_chain_of; [|apply Hok|done|by apply got_bound]. rewrite Hfind.
  cbn [fmap option_fmap option_map]. unfold double_ratchet_advance. cbn [sending_ratchet session_of]. unfold sending_of. rewrite Hturn.
  unfold i at 1. rewrite Hj, active_advance_at, <- Hj by lia. cbn [fmap option_fmap option_map].
  fold i. unfold chain_of at 1. cbn [fst snd session_config set_sending session_of].
  rewrite (chain_decrypt_spec _ _ _ _ _ _ _ k); [|apply fresh_chain_ok|apply sealed_chain_index|cbn; unfold MAX_MESSAGE_GAP; lia].
  rewrite opened_sealed. unfold spec_receive. fold p. rewrite Hfind.
  destruct (spec_read k fresh_chain) as [a'|e] eqn:Hr; cbn [fst snd].
  - cbn [receiving_chains set_sending session_of]. destruct (talk_got _ _ Hok p) as [Hlen Hall]. unfold chains_push.
    rewrite store_push_spec by (rewrite ?length_fmap; done || unfold MAX_RECEIVING_CHAINS; lia).
    change [chain_state _ _ _ a'] with (chain_of ts <$> [(i, a')]). rewrite <- fmap_app, keep_last_fmap.
    pose proof (keep_last_in MAX_RECEIVING_CHAINS (got s p) (i, a') ltac:(unfold MAX_RECEIVING_CHAINS; lia)) as Hin.
    split.
    + do 3 f_equal. unfold session_of, set_receiving, set_sending, sending_of. cbn [own_session_keys sending_ratchet session_config].
      rewrite (turn_caught_up ts s p _ a') by done. by rewrite set_got_same.
    + apply set_got_ok; [done|rewrite length_keep_last; lia| |].
      * apply Forall_keep_last, Forall_app. split; [done|]. apply Forall_singleton. cbn [fst snd]. split_and!; [lia|done| |by eapply spec_read_ok; [apply fresh_chain_ok|]].
        eapply spec_read_bound; [done|cbn; lia|done].
      * intros x _ Hone. rewrite Hl, Hj in Hone. lia.
  - split; [|done]. do 2 f_equal. unfold set_sending, session_of, sending_of. by rewrite Hturn.
Qed.

Lemma find_chain_lookup pk l pos c : find_chain pk l = Some (pos, c) → l !! pos = Some c.
Proof.
  revert pos. induction l as [|d l IH]; intros pos; [done|]. cbn. destruct (belongs_to pk d); [by intros [= <- <-]|].
  destruct (find_chain pk l) as [[pos' c']|]; [|done]. intros [= <- <-]. by apply IH.
Qed.

(** Advancing with any key at all gives a chain without a message. *)
Lemma active_advance_any ts i n pk :
  (Z.of_nat (S i) <= u64_max)%Z →
  ∃ o, active_advance debug pk (active_at ts i n) = Ret o ∧
       ∀ d c, o = Some (d, c) → ∃ sd count, c = chain_state sd pk count fresh_chain.
Proof.
  intros Hi. unfold active_advance, root_advance. cbn [active_root_key active_ratchet_key active_at active_count].
  destruct (kdf _ _ pk) as [out|]; cbn [mbind option_bind]; [|by exists None]. rewrite count_advance_known by done.
  eexists. split; [done|]. intros d c [= _ <-]. by eexists _, _.
Qed.

(** Any message at all: it is accepted, or nothing changes but for the chain of a party
    that has yet to answer. *)
Lemma receive_any ts p fresh s n m :
  talk_ok ts s → bounded n s → (Z.of_nat n + MAX_MESSAGE_GAP < u64_max)%Z → u64_message m →
  ∃ r S', decrypt_decoded debug fresh m (session_of ts p s) = Ret (r, S') ∧
    (is_ok r = true ∨ S' = session_of ts p s ∨
     turn p s = inr (length ts) ∧ S' = session_of (ts ++ [fresh]) p (start_chain s)).
Proof.
  intros Hok [Hb1 Hb2] Hn Hm. pose proof (talk_chains _ _ Hok) as Hl. unfold MAX_MESSAGE_GAP in Hn.
  pose proof Hm as [Hm0 Hm1]. assert (chain_index m = Z.of_nat (Z.to_nat (chain_index m))) as Hidx by lia.
  assert (∀ seed pk count a, avail_ok a → next a <= n → ∃ r c,
    chain_decrypt debug m cfg (chain_state seed pk count a) = Ret (r, c) ∧ (is_ok r = true ∨ c = chain_state seed pk count a)) as Hchain.
  { intros sd pk count a Ha Hna. rewrite (chain_decrypt_spec _ _ _ _ _ _ _ _ Ha Hidx) by (unfold MAX_MESSAGE_GAP; lia).
    destruct (spec_read _ a); [destruct (opened sd cfg m _)|]; eexists _, _; (split; [done|]); auto. }
  unfold decrypt_decoded. cbn [receiving_chains session_of session_config].
  destruct (find_chain (ratchet_key m) (chain_of ts <$> got s p)) as [[pos c]|] eqn:Hfind.
  - apply find_chain_lookup in Hfind as Hpos. rewrite list_lookup_fmap in Hpos. destruct (got s p !! pos) as [[i a]|] eqn:Hga; [|done].
    injection Hpos as <-. destruct (talk_got _ _ Hok p) as [_ Hall]. pose proof (Forall_lookup_1 _ _ _ _ Hall Hga) as (_ & _ & Hna & Ha).
    cbn [fst snd] in *. destruct (Hchain (seed ts i) (public_of (secret ts i)) (Known (Z.of_nat i)) a Ha) as (r & c & Hc & Hrc); [specialize (Hb2 i); lia|].
    unfold chain_of at 1. cbn [fst snd]. rewrite Hc. eexists _, _. split; [done|]. destruct Hrc as [?| ->]; [by left|right; left].
    unfold set_receiving, session_of. cbn [own_session_keys sending_ratchet receiving_chains session_config]. f_equal. apply list_insert_id.
    by rewrite list_lookup_fmap, Hga.
  - unfold double_ratchet_advance. cbn [sending_ratchet session_of]. pose proof (turn_spec ts s p Hok) as Ht.
    assert (set_sending (sending_of ts p s) (session_of ts p s) = session_of ts p s) as Hsame by done.
    unfold sending_of at 1. destruct (turn p s) as [i|i] eqn:Hturn.
    + destruct (active_advance_any ts i (length (log i s)) (ratchet_key m)) as (o & -> & Ho); [lia|].
      destruct o as [[d c]|]; cbn [fmap option_fmap option_map]; rewrite Hsame; [|by eexists _, _; split; [done|right; left]].
      destruct (Ho d c eq_refl) as (sd & count & ->). cbn [session_config session_of].
      destruct (Hchain sd (ratchet_key m) count fresh_chain fresh_chain_ok) as (r & c & -> & _); [cbn; lia|]. destruct r as [pt|e].
      * unfold chains_push. rewrite store_push_spec; [by eexists _, _; split; [done|left]|unfold MAX_RECEIVING_CHAINS; lia|]. cbn. rewrite length_fmap. apply (talk_got _ _ Hok).
      * by eexists _, _; split; [done|right; left].
    + destruct Ht as (Ho & -> & _). rewrite activate_at by lia. destruct (session_of_start ts fresh s p Hok Hturn) as [Hstart _].
      destruct (active_advance_any (ts ++ [fresh]) (S (length ts)) 0 (ratchet_key m)) as (o & -> & Hc); [lia|].
      destruct o as [[d c]|]; cbn [fmap option_fmap option_map]; [|rewrite Hsame; by eexists _, _; split; [done|right; left]].
      destruct (Hc d c eq_refl) as (sd & count & ->). rewrite <- Hstart. cbn [session_config session_of].
      destruct (Hchain sd (ratchet_key m) count fresh_chain fresh_chain_ok) as (r & c & -> & _); [cbn; lia|]. destruct r as [pt|e].
      * unfold chains_push. rewrite store_push_spec; [by eexists _, _; split; [done|left]|unfold MAX_RECEIVING_CHAINS; lia|]. cbn. rewrite length_fmap. apply (talk_got _ _ Hok).
      * by eexists _, _; split; [done|right; right].
Qed.

(** ** The simulation *)

Definition wire_ok ts s (wr : list (bool * (Z * bytes))) : Prop :=
  length wr = length (sent s) ∧
  ∀ n i k, sent s !! n = Some (i, k) →
    ∃ m, wr !! n = Some (owner i, to_parts m) ∧ inner_message m = sealed_at ts i k (nth k (log i s) []) ∧
         olm_message_ok (inner_message m) ∧ carries_keys (owner i) m.

Record related ts w s : Prop := {
  related_party p : party w p = session_of ts p s;
  related_talk : talk_ok ts s;
  related_wire : wire_ok ts s (wire w)
}.

Lemma sent_bound ts s n i k : talk_ok ts s → sent s !! n = Some (i, k) → i < length (logs s) ∧ k < length (log i s).
Proof. intros Hok Hn. apply (Forall_lookup_1 _ _ _ _ (talk_sent _ _ Hok) Hn). Qed.

(** Messages on the wire stay what they are. *)
Lemma wire_ok_later ts ts' s s' wr :
  talk_ok ts s → wire_ok ts s wr → ts' = ts ∨ (∃ t, ts' = ts ++ [t]) → sent s' = sent s →
  (∀ i k, i < length (logs s) → k < length (log i s) → nth k (log i s') [] = nth k (log i s) []) → wire_ok ts' s' wr.
Proof.
  intros Hok [Hl Hw] Hts Hsent Hlog. split; [by rewrite Hsent|]. rewrite Hsent. intros n i k Hn.
  destruct (Hw n i k Hn) as (m & Hm & Hinner & Hmok & Hkeys). destruct (sent_bound ts s n i k Hok Hn) as [Hi Hk].
  exists m. split_and!; [done| |done|done]. rewrite Hlog, Hinner by done. destruct Hts as [->|[t ->]]; [done|].
  rewrite sealed_at_app; [done|]. rewrite (talk_chains _ _ Hok) in Hi. lia.
Qed.

Lemma nth_log_send p pt s i k ts :
  talk_ok ts s → i < length (logs s) → k < length (log i s) → nth k (log i (spec_send p pt s)) [] = nth k (log i s) [].
Proof.
  intros Hok Hi Hk. unfold spec_send. pose proof (turn_spec ts s p Hok) as Ht. pose proof (talk_chains _ _ Hok) as Hl.
  assert (∀ j x, j < length (logs x) → k < length (log i x) → nth k (log i (append j pt x)) [] = nth k (log i x) []) as Happ.
  { intros j x Hj Hkx. rewrite log_append by done. case_decide; [subst; by apply app_nth1|done]. }
  destruct (turn p s) as [j|j].
  - apply Happ; [|done]. destruct Ht as [_ ?]. lia.
  - destruct Ht as (_ & -> & _). rewrite Happ, log_start; [done|done| |by rewrite log_start].
    cbn. rewrite length_app. cbn. lia.
Qed.

Lemma bounded_send p pt s n ts : talk_ok ts s → bounded n s → bounded (S n) (spec_send p pt s).
Proof.
  intros Hok [Hb1 Hb2]. unfold spec_send. pose proof (turn_spec ts s p Hok) as Ht. pose proof (talk_chains _ _ Hok) as Hl.
  assert (∀ j x, j < length (logs x) → length (logs x) <= S n → (∀ i, length (log i x) <= n) → bounded (S n) (append j pt x)) as Happ.
  { intros j x Hj Hx Hlog. split; [cbn; by rewrite length_insert|]. intros i. rewrite log_append by done.
    specialize (Hlog i) as Hi. case_decide; [subst; rewrite length_app; cbn; lia|lia]. }
  destruct (turn p s) as [j|j].
  - apply Happ; [|lia|done]. destruct Ht as [_ ?]. lia.
  - destruct Ht as (_ & -> & _). apply Happ; [cbn; rewrite length_app; cbn; lia..|]. intros i.
    destruct (decide (i < length (logs s))); [by rewrite log_start|]. unfold log. cbn.
    rewrite app_nth2 by lia. destruct (i - length (logs s)) as [|[|x]]; cbn; lia.
Qed.

Lemma bounded_start s n : bounded n s → bounded (S n) (start_chain s).
Proof.
  intros [Hb1 Hb2]. split; [cbn; rewrite length_app; cbn; lia|]. intros i. specialize (Hb2 i).
  destruct (decide (i < length (logs s))); [by rewrite log_start by done; lia|]. unfold log. cbn.
  rewrite app_nth2 by lia. destruct (i - length (logs s)) as [|[|x]]; cbn; lia.
Qed.

(** The conditions on an event. *)
Definition event_ok (e : event) : Prop :=
  match e with
  | Send _ plaintext _ => (Z.of_nat (length plaintext) < 2 ^ 63)%Z
  | Deliver _ _ => True
  | Forge _ m _ => u64_message (inner_message m)
  end.

Definition fresh_of (e : event) : SecretKey := match e with Send _ _ t | Deliver _ t | Forge _ _ t => t end.

(** One step: the specification makes it too, or a foreign message has been accepted. *)
Definition step_result (e : event) ts w s n : Prop :=
  ∃ a w', step debug e w = Ret (a, w') ∧
    ((∃ ts' s', spec_step e s a s' ∧ related ts' w' s' ∧ bounded (S n) s' ∧ (ts' = ts ∨ ts' = ts ++ [fresh_of e])) ∨
     ∃ p pt, a = Received (Ok pt) ∧ foreign e p s).

Lemma bounded_mono s n m : n <= m → bounded n s → bounded m s.
Proof. intros Hnm [Hb1 Hb2]. split; [lia|]. intros i. specialize (Hb2 i). lia. Qed.

(** What sending does to both sessions and the wire. *)
Lemma send_related ts w s n p pt fresh :
  related ts w s → bounded n s → (Z.of_nat n + MAX_MESSAGE_GAP < u64_max)%Z →
  (Z.of_nat (length pt) < 2 ^ 63)%Z → public_of fresh ∉ public_of <$> t0 :: ts →
  let ts' := keys_after p fresh ts s in let s' := spec_send p pt s in
  ∃ m, session_encrypt debug fresh pt (session_of ts p s) = Ret (Some m, session_of ts' p s') ∧
    match m with PreKey _ => true | Normal _ => false end = bool_decide (got s p = []) ∧
    related ts' {| party := party (set_party p (session_of ts' p s') w); wire := wire w ++ [(p, to_parts m)] |} s'.
Proof.
  intros [Hparty Hok Hwire] Hb Hn Hpt Hfresh ts' s'.
  destruct (encrypt_spec ts p pt fresh s n) as (i & k & m & Henc & Hok' & Hother & Hsent & Ho & Hk & Hm & Hlog & Hpre & Hkeys); [done..|unfold MAX_MESSAGE_GAP in Hn; lia|done|].
  exists m. split; [done|]. split; [done|]. fold ts' s' in Hok', Hother, Hsent, Hm, Hlog. split; [|done|].
  - intros q. cbn. destruct (eqb_spec q p) as [->|Hq]; [done|]. assert (q = negb p) as -> by (by destruct q, p).
    by rewrite Hparty, Hother.
  - cbn [wire]. destruct (wire_ok_later ts ts' s {| logs := logs s'; sent := sent s; got := got s' |} (wire w)) as [Hl Hw]; [done..| |done| |].
    + subst ts'. unfold keys_after. destruct (turn p s); [by left|right; by exists fresh].
    + intros j x Hj Hx. by apply (nth_log_send p pt s j x ts).
    + split; [rewrite Hsent, !length_app, Hl; done|]. rewrite Hsent. intros x j l [Hx|[Hx Hx']]%lookup_app_Some.
      * destruct (Hw x j l Hx) as (m' & Hm' & ?). exists m'. split; [by apply lookup_app_l_Some|done].
      * apply list_lookup_singleton_Some in Hx' as [Hx0 [= -> ->]]. exists m. rewrite Ho. split_and!.
        -- rewrite lookup_app_r, Hl by (rewrite Hl; cbn; lia). cbn in Hx0 |- *. by rewrite Hx0.
        -- by rewrite Hlog.
        -- rewrite Hm. apply sealed_message_ok; [lia|done].
        -- done.
Qed.

Lemma step_send ts w s n p pt fresh :
  related ts w s → bounded n s → (Z.of_nat n + MAX_MESSAGE_GAP < u64_max)%Z →
  (Z.of_nat (length pt) < 2 ^ 63)%Z → public_of fresh ∉ public_of <$> t0 :: ts → step_result (Send p pt fresh) ts w s n.
Proof.
  intros Hrel Hb Hn Hpt Hfresh. unfold step_result, step. rewrite (related_party _ _ _ Hrel).
  destruct (send_related ts w s n p pt fresh) as (m & -> & Hpre & Hrel'); [done..|].
  eexists _, _. split; [done|]. left. rewrite Hpre. exists (keys_after p fresh ts s), (spec_send p pt s).
  split; [constructor|]. split; [done|]. split; [eapply bounded_send; [apply Hrel|done]|].
  unfold keys_after. destruct (turn p s); auto.
Qed.

Lemma session_decrypt_inner fresh m S' : session_decrypt debug fresh m S' = decrypt_decoded debug fresh (inner_message m) S'.
Proof. by destruct m. Qed.

Lemma start_related ts t w s p :
  related ts w s → turn p s = inr (length ts) → public_of t ∉ public_of <$> t0 :: ts →
  related (ts ++ [t]) (set_party p (session_of (ts ++ [t]) p (start_chain s)) w) (start_chain s).
Proof.
  intros [Hparty Hok Hwire] Hturn Ht. destruct (session_of_start ts t s p Hok Hturn) as [_ Hother]. split.
  - intros q. cbn. destruct (eqb_spec q p) as [->|Hq]; [done|]. assert (q = negb p) as -> by (by destruct q, p). by rewrite Hother, Hparty.
  - by apply start_ok.
  - eapply wire_ok_later; [done..|by right; eexists|done|]. intros i k Hi _. by rewrite log_start.
Qed.

(** A foreign message. *)
Lemma step_foreign e p m ts w s n :
  related ts w s → bounded n s → (Z.of_nat n + MAX_MESSAGE_GAP < u64_max)%Z → public_of (fresh_of e) ∉ public_of <$> t0 :: ts →
  foreign e p s → u64_message m →
  step debug e w = (let! (r, S') := decrypt_decoded debug (fresh_of e) m (party w p) in Ret (Received r, set_party p S' w)) →
  step_result e ts w s n.
Proof.
  intros Hrel Hb Hn Hfresh Hforeign Hm Hstep. pose proof Hrel as [Hparty Hok Hwire]. unfold step_result. rewrite Hstep, Hparty.
  destruct (receive_any ts p (fresh_of e) s n m Hok Hb Hn Hm) as (r & S' & -> & Hcase). eexists _, _. split; [done|].
  destruct r as [pt|err]; [by right; exists p, pt|]. destruct Hcase as [?|[->|[Hturn ->]]]; [done|left..].
  - exists ts, s. split; [by eapply spec_refuses|]. split; [|split; [eapply bounded_mono; [|done]; lia|by left]]. split; [|done|done].
    intros q. cbn. by destruct (eqb_spec q p) as [->|].
  - exists (ts ++ [fresh_of e]), (start_chain s). split; [by eapply spec_refuses_started|]. split; [by apply start_related|].
    split; [by apply bounded_start|by right].
Qed.

(** A message that the receiver is to read. *)
Lemma receive_readable ts fresh s n i k :
  let p := negb (owner i) in
  talk_ok ts s → bounded n s → (Z.of_nat n + MAX_MESSAGE_GAP < u64_max)%Z → i < length (logs s) → k < length (log i s) → readable i s →
  decrypt_decoded debug fresh (sealed_at ts i k (nth k (log i s) [])) (session_of ts p s)
  = Ret (fst (spec_receive i k s), session_of ts p (snd (spec_receive i k s))) ∧
  talk_ok ts (snd (spec_receive i k s)).
Proof.
  intros p Hok Hb Hn Hi Hk Hread. destruct (find_got i (got s p)) as [[pos a]|] eqn:Hfind.
  - by eapply receive_known.
  - destruct Hread as [[? Hsome]|Hlast]; [by subst p; rewrite Hfind in Hsome|].
    assert (i = length ts) as -> by (rewrite Hlast, (talk_chains _ _ Hok); lia). by eapply receive_new.
Qed.

Lemma spec_receive_frame i k s :
  logs (snd (spec_receive i k s)) = logs s ∧ sent (snd (spec_receive i k s)) = sent s ∧
  got (snd (spec_receive i k s)) (owner i) = got s (owner i).
Proof.
  unfold spec_receive. set (p := negb (owner i)). assert (owner i = negb p) as -> by (subst p; by rewrite negb_involutive).
  destruct (find_got _ _) as [[pos a]|]; destruct (spec_read _ _); cbn [snd]; try done; (split_and!; [done..|apply set_got_other]).
Qed.

#[local] Instance readable_dec i s : Decision (readable i s).
Proof. unfold readable. apply _. Defined.

Lemma step_deliver ts w s n x fresh :
  related ts w s → bounded n s → (Z.of_nat n + MAX_MESSAGE_GAP < u64_max)%Z → public_of fresh ∉ public_of <$> t0 :: ts →
  step_result (Deliver x fresh) ts w s n.
Proof.
  intros Hrel Hb Hn Hfresh. pose proof Hrel as [Hparty Hok [Hlen Hwire]]. destruct (sent s !! x) as [[i k]|] eqn:Hx.
  - destruct (Hwire x i k Hx) as (m & Hm & Hinner & Hmok & _). destruct (sent_bound ts s x i k Hok Hx) as [Hi Hk].
    assert (step debug (Deliver x fresh) w = let! (r, S') := decrypt_decoded debug fresh (inner_message m) (party w (negb (owner i))) in
      Ret (Received r, set_party (negb (owner i)) S' w)) as Hstep.
    { cbn [step]. rewrite Hm. pose proof (parts_round_trip m Hmok) as Hparts. destruct (to_parts m) as [ty bs]. cbn [fst snd] in Hparts.
      by rewrite Hparts, session_decrypt_inner. }
    destruct (decide (readable i s)) as [Hread|Hread].
    + unfold step_result. rewrite Hstep, Hparty, Hinner. destruct (receive_readable ts fresh s n i k) as [-> Hok']; [done..|].
      destruct (spec_receive_frame i k s) as (Hlogs & Hsent & Hgot). eexists _, _. split; [done|]. left.
      exists ts, (snd (spec_receive i k s)). split; [by constructor|]. split; [|split; [|by left]].
      * split; [|done|].
        -- intros q. cbn. destruct (eqb_spec q (negb (owner i))) as [->|Hq]; [done|].
           assert (q = owner i) as -> by (by destruct q, (owner i)). rewrite Hparty. unfold session_of, sending_of, turn, log. by rewrite Hlogs, Hgot.
        -- apply (wire_ok_later ts ts s); [done|by split|by left|done|]. intros. unfold log. by rewrite Hlogs.
      * apply (bounded_mono _ n); [lia|]. destruct Hb as [Hb1 Hb2]. split; [by rewrite Hlogs|]. intros j. unfold log. rewrite Hlogs. apply Hb2.
    + eapply (step_foreign _ (negb (owner i)) (inner_message m)); [done..|by econstructor| |done].
      rewrite Hinner. unfold u64_message. rewrite sealed_chain_index. destruct Hb as [_ Hb]. specialize (Hb i). unfold MAX_MESSAGE_GAP in Hn. lia.
  - unfold step_result. cbn [step]. rewrite (lookup_ge_None_2 (wire w)) by (rewrite Hlen; by apply lookup_ge_None).
    eexists _, _. split; [done|]. left. exists ts, s. split; [by constructor|]. split; [done|]. split; [|by left].
    eapply bounded_mono; [|done]. lia.
Qed.

Lemma step_forge ts w s n p m fresh :
  related ts w s → bounded n s → (Z.of_nat n + MAX_MESSAGE_GAP < u64_max)%Z → public_of fresh ∉ public_of <$> t0 :: ts →
  u64_message (inner_message m) → step_result (Forge p m fresh) ts w s n.
Proof.
  intros Hrel Hb Hn Hfresh Hm. eapply (step_foreign _ p (inner_message m)); [done..|by constructor|done|].
  cbn [step fresh_of]. by rewrite session_decrypt_inner.
Qed.

Lemma step_simulates e ts w s n :
  related ts w s → bounded n s → (Z.of_nat n + MAX_MESSAGE_GAP < u64_max)%Z → event_ok e →
  public_of (fresh_of e) ∉ public_of <$> t0 :: ts → step_result e ts w s n.
Proof.
  intros Hrel Hb Hn He Hfresh. destruct e; [by apply step_send|by apply step_deliver|by apply step_forge].
Qed.

(** Any number of steps, with keys that are all different. *)
Lemma conversation_follows events ts w s n :
  related ts w s → bounded n s → (Z.of_nat n + Z.of_nat (length events) + MAX_MESSAGE_GAP < u64_max)%Z →
  Forall event_ok events → NoDup (public_of <$> (t0 :: ts) ++ (fresh_of <$> events)) →
  follows debug events w s.
Proof.
  intros Hrel Hb Hn He. revert ts w s n Hrel Hb Hn. induction He as [|e events He Hes IH]; intros ts w s n Hrel Hb Hn Hnd; [constructor|].
  cbn [length] in Hn. assert (public_of (fresh_of e) ∉ public_of <$> t0 :: ts) as Hfresh.
  { rewrite fmap_app, NoDup_app in Hnd. destruct Hnd as (_ & Hdis & _). intros Hin. apply (Hdis _ Hin). cbn. by left. }
  destruct (step_simulates e ts w s n) as (a & w' & Hstep & [(ts' & s' & Hspec & Hrel' & Hb' & Hts)|(p & pt & -> & Hf)]); [done..|lia|done|done| |].
  - eapply follows_step; [done..|]. eapply (IH ts' w' s' (S n)); [done..|lia|]. destruct Hts as [->| ->].
    + rewrite fmap_app in Hnd |- *. apply NoDup_app in Hnd as (Hnd1 & Hdis & Hnd2). apply NoDup_app. split; [done|].
      apply NoDup_cons in Hnd2 as [_ Hnd2]. split; [|done]. intros x Hx Hx'. apply (Hdis x Hx). by right.
    + cbn in Hnd |- *. by rewrite <- app_assoc.
  - by eapply follows_forged.
Qed.

End pair.
