(* ===== verification/OlmAccount.v ===== *)
(** * Olm accounts

    [olm/account] and [olm/shared_secret.rs]: one-time keys, fallback keys, the triple
    Diffie-Hellman exchange, and the creation of sessions. A [BTreeMap] is a finite
    map that is iterated in the order of its keys; the secret keys that the code draws
    are arguments. *)

From S2P Require Import Prelude Bytes Cipher Megolm Olm OlmSession.
From stdpp Require Import sorting.

(** ** Ordered maps *)

Definition key_le {A} (x y : Z * A) : Prop := (fst x <= fst y)%Z.

#[export] Instance key_le_dec {A} (x y : Z * A) : Decision (key_le x y) := decide (fst x <= fst y)%Z.
#[export] Instance key_le_total {A} : Total (@key_le A).
Proof. intros x y. unfold key_le. lia. Qed.
#[export] Instance key_le_trans {A} : Transitive (@key_le A).
Proof. intros x y z. unfold key_le. lia. Qed.

Definition btree_iter {A} (m : gmap Z A) : list (Z * A) := merge_sort key_le (map_to_list m).

(** [keys().next()] *)
Definition first_key {A} (m : gmap Z A) : option Z := fst <$> head (btree_iter m).

(** ** One-time keys *)

Definition PUBLIC_MAX_ONE_TIME_KEYS : nat := 50.
Definition MAX_ONE_TIME_KEYS : nat := 100 * PUBLIC_MAX_ONE_TIME_KEYS.

Record OneTimeKeys `{!Curve25519} := {
  next_key_id : Z;
  unpublished_public_keys : gmap Z PublicKey;
  private_keys : gmap Z SecretKey;
  key_ids_by_key : gmap PublicKey Z
}.

Record OneTimeKeysPickle `{!Curve25519} := {
  pickled_next_key_id : Z;
  pickled_public_keys : gmap Z PublicKey;
  pickled_private_keys : gmap Z SecretKey
}.

Section one_time_keys.
Context `{!Curve25519}.

Definition no_one_time_keys : OneTimeKeys :=
  {| next_key_id := 0; unpublished_public_keys := ∅; private_keys := ∅; key_ids_by_key := ∅ |}.

Definition keys_mark_as_published (o : OneTimeKeys) : OneTimeKeys :=
  {| next_key_id := next_key_id o; unpublished_public_keys := ∅; private_keys := private_keys o;
     key_ids_by_key := key_ids_by_key o |}.

Definition get_secret_key (public_key : PublicKey) (o : OneTimeKeys) : option SecretKey :=
  key_id ← key_ids_by_key o !! public_key; private_keys o !! key_id.

Definition remove_secret_key (public_key : PublicKey) (o : OneTimeKeys) : option SecretKey * OneTimeKeys :=
  match key_ids_by_key o !! public_key with
  | None => (None, o)
  | Some key_id =>
      (private_keys o !! key_id,
       {| next_key_id := next_key_id o; unpublished_public_keys := delete key_id (unpublished_public_keys o);
          private_keys := delete key_id (private_keys o); key_ids_by_key := delete public_key (key_ids_by_key o) |})
  end.

(** The removal that makes room in [insert_secret_key]. *)
Definition make_room (o : OneTimeKeys) : option PublicKey * OneTimeKeys :=
  if MAX_ONE_TIME_KEYS <=? size (private_keys o) then
    match first_key (private_keys o) with
    | None => (None, o)
    | Some key_id =>
        match private_keys o !! key_id with
        | None =>
            (None, {| next_key_id := next_key_id o; unpublished_public_keys := delete key_id (unpublished_public_keys o);
                      private_keys := private_keys o; key_ids_by_key := key_ids_by_key o |})
        | Some private_key =>
            let public_key := public_of private_key in
            (Some public_key,
             {| next_key_id := next_key_id o; unpublished_public_keys := delete key_id (unpublished_public_keys o);
                private_keys := delete key_id (private_keys o); key_ids_by_key := delete public_key (key_ids_by_key o) |})
        end
    end
  else (None, o).

Definition insert_secret_key (key_id : Z) (key : SecretKey) (published : bool) (o : OneTimeKeys) :
    PublicKey * option PublicKey * OneTimeKeys :=
  let '(removed, o) := make_room o in
  let public_key := public_of key in
  (public_key, removed,
   {| next_key_id := next_key_id o;
      unpublished_public_keys :=
        if published then unpublished_public_keys o else <[key_id := public_key]> (unpublished_public_keys o);
      private_keys := <[key_id := key]> (private_keys o);
      key_ids_by_key := <[public_key := key_id]> (key_ids_by_key o) |}).

Definition generate_one_time_key (fresh : SecretKey) (o : OneTimeKeys) : PublicKey * option PublicKey * OneTimeKeys :=
  insert_secret_key (next_key_id o) fresh false o.

(** [generate]; the count is the number of keys drawn *)
Fixpoint generate (fresh : list SecretKey) (o : OneTimeKeys) : list PublicKey * list PublicKey * OneTimeKeys :=
  match fresh with
  | [] => ([], [], o)
  | key :: fresh =>
      let '(created, removed, o) := generate_one_time_key key o in
      let o := {| next_key_id := (next_key_id o + 1) mod 2 ^ 64; unpublished_public_keys := unpublished_public_keys o;
                  private_keys := private_keys o; key_ids_by_key := key_ids_by_key o |} in
      let '(created_keys, removed_keys, o) := generate fresh o in
      (created :: created_keys, option_list removed ++ removed_keys, o)
  end.

Definition keys_pickle (o : OneTimeKeys) : OneTimeKeysPickle :=
  {| pickled_next_key_id := next_key_id o; pickled_public_keys := unpublished_public_keys o;
     pickled_private_keys := private_keys o |}.

Definition keys_from_pickle (p : OneTimeKeysPickle) : OneTimeKeys :=
  {| next_key_id := pickled_next_key_id p; unpublished_public_keys := pickled_public_keys p;
     private_keys := pickled_private_keys p;
     key_ids_by_key :=
       foldl (λ ids x, <[public_of (snd x) := fst x]> ids) (∅ : gmap PublicKey Z) (btree_iter (pickled_private_keys p)) |}.

End one_time_keys.

(** ** Fallback keys *)

Record FallbackKey `{!Curve25519} := { fallback_key_id : Z; fallback_secret : SecretKey; fallback_published : bool }.

Record FallbackKeys `{!Curve25519} := {
  next_fallback_id : Z;
  fallback_key : option FallbackKey;
  previous_fallback_key : option FallbackKey
}.

Section fallback_keys.
Context `{!Curve25519} (debug : bool).

Definition no_fallback_keys : FallbackKeys := {| next_fallback_id := 0; fallback_key := None; previous_fallback_key := None |}.

Definition fallback_mark_as_published (f : FallbackKeys) : FallbackKeys :=
  {| next_fallback_id := next_fallback_id f;
     fallback_key := (λ k, {| fallback_key_id := fallback_key_id k; fallback_secret := fallback_secret k; fallback_published := true |}) <$> fallback_key f;
     previous_fallback_key := previous_fallback_key f |}.

Definition generate_fallback_key (fresh : SecretKey) (f : FallbackKeys) : panics (option PublicKey * FallbackKeys) :=
  let! next := u64_check debug (next_fallback_id f + 1) in
  Ret ((λ k, public_of (fallback_secret k)) <$> previous_fallback_key f,
       {| next_fallback_id := next;
          fallback_key := Some {| fallback_key_id := next_fallback_id f; fallback_secret := fresh; fallback_published := false |};
          previous_fallback_key := fallback_key f |}).

(** [Option::filter] with the public key *)
Definition matching (public_key : PublicKey) (k : option FallbackKey) : option FallbackKey :=
  k ← k; if bool_decide (public_of (fallback_secret k) = public_key) then Some k else None.

Definition fallback_get_secret_key (public_key : PublicKey) (f : FallbackKeys) : option SecretKey :=
  fallback_secret <$>
    match matching public_key (fallback_key f) with
    | Some k => Some k
    | None => matching public_key (previous_fallback_key f)
    end.

Definition forget_previous_fallback_key (f : FallbackKeys) : option FallbackKey * FallbackKeys :=
  (previous_fallback_key f,
   {| next_fallback_id := next_fallback_id f; fallback_key := fallback_key f; previous_fallback_key := None |}).

Definition unpublished_fallback_key (f : FallbackKeys) : option FallbackKey :=
  k ← fallback_key f; if fallback_published k then None else Some k.

End fallback_keys.

(** ** Shared secrets *)

Section shared_secret.
Context `{!Primitives, !Curve25519}.

Definition expand_shared_secret (shared_secret : bytes) : bytes * bytes :=
  let expanded := hkdf_sha256 [x00] shared_secret (literal "OLM_ROOT") 64 in
  (take 32 expanded, take 32 (drop 32 expanded)).

Definition merge_secrets (first_secret second_secret third_secret : bytes) : bytes :=
  first_secret ++ second_secret ++ third_secret.

(** [RemoteShared3DHSecret::new] and [Shared3DHSecret::new] *)
Definition remote_shared_3dh (identity one_time : SecretKey) (remote_identity remote_one_time : PublicKey) : option bytes :=
  first ← diffie_hellman one_time remote_identity;
  second ← diffie_hellman identity remote_one_time;
  third ← diffie_hellman one_time remote_one_time;
  Some (merge_secrets first second third).

Definition shared_3dh (identity one_time : SecretKey) (remote_identity remote_one_time : PublicKey) : option bytes :=
  first ← diffie_hellman identity remote_one_time;
  second ← diffie_hellman one_time remote_identity;
  third ← diffie_hellman one_time remote_one_time;
  Some (merge_secrets first second third).

End shared_secret.

(** ** Accounts *)

Record Account `{!Ed25519, !Curve25519} := {
  account_signing_key : SigningKey;
  diffie_hellman_key : SecretKey;
  one_time_keys : OneTimeKeys;
  fallback_keys : FallbackKeys
}.

Inductive SessionCreationError `{!Curve25519} :=
| MissingOneTimeKey (key : PublicKey)
| MismatchedIdentityKey (expected got : PublicKey)
| MismatchedSessionConfig (expected : Version) (got : option Version)
| CreationDecryption (e : OlmDecryptionError)
| CreationNonContributoryKey.

Section account.
Context `{!Primitives, !Ed25519, !Curve25519} (debug : bool).

Definition new_account (signing : SigningKey) (identity : SecretKey) : Account :=
  {| account_signing_key := signing; diffie_hellman_key := identity; one_time_keys := no_one_time_keys;
     fallback_keys := no_fallback_keys |}.

Definition curve25519_key (a : Account) : PublicKey := public_of (diffie_hellman_key a).

Definition set_one_time_keys (o : OneTimeKeys) (a : Account) : Account :=
  {| account_signing_key := account_signing_key a; diffie_hellman_key := diffie_hellman_key a; one_time_keys := o;
     fallback_keys := fallback_keys a |}.

Definition account_mark_keys_as_published (a : Account) : Account :=
  {| account_signing_key := account_signing_key a; diffie_hellman_key := diffie_hellman_key a;
     one_time_keys := keys_mark_as_published (one_time_keys a);
     fallback_keys := fallback_mark_as_published (fallback_keys a) |}.

(** [base] and [ratchet] are the keys that it draws *)
Definition create_outbound_session (config : Version) (identity_key one_time_key : PublicKey) (base ratchet : SecretKey)
    (a : Account) : result SessionCreationError Session :=
  match shared_3dh (diffie_hellman_key a) base identity_key one_time_key with
  | None => Err CreationNonContributoryKey
  | Some shared_secret =>
      let keys := {| identity_key := curve25519_key a; base_key := public_of base; one_time_key := one_time_key |} in
      Ok (new_session ratchet config (expand_shared_secret shared_secret) keys)
  end.

Definition find_one_time_key (public_key : PublicKey) (a : Account) : option SecretKey :=
  match get_secret_key public_key (one_time_keys a) with
  | Some key => Some key
  | None => fallback_get_secret_key public_key (fallback_keys a)
  end.

Definition remove_one_time_key_helper (public_key : PublicKey) (a : Account) : option SecretKey * Account :=
  let '(key, o) := remove_secret_key public_key (one_time_keys a) in (key, set_one_time_keys o a).

Definition create_inbound_session (expected_config : Version) (their_identity_key : PublicKey) (m : PreKeyMessage)
    (fresh : SecretKey) (a : Account) : panics (result SessionCreationError (Session * bytes) * Account) :=
  let keys := session_keys m in
  if negb (bool_decide (their_identity_key = identity_key keys)) then
    Ret (Err (MismatchedIdentityKey their_identity_key (identity_key keys)), a)
  else
    let version := olm_version (pre_key_inner m) in
    let config :=
      if (version =? MAC_TRUNCATED_VERSION)%Z then Some V1 else if (version =? VERSION)%Z then Some V2 else None in
    match config with
    | None => Ret (Err (MismatchedSessionConfig expected_config None), a)
    | Some config =>
        if negb (bool_decide (config = expected_config)) then Ret (Err (MismatchedSessionConfig expected_config (Some config)), a)
        else
          match find_one_time_key (one_time_key keys) a with
          | None => Ret (Err (MissingOneTimeKey (one_time_key keys)), a)
          | Some private_otk =>
              match remote_shared_3dh (diffie_hellman_key a) private_otk (identity_key keys) (base_key keys) with
              | None => Ret (Err CreationNonContributoryKey, a)
              | Some shared_secret =>
                  let! session := new_remote config (expand_shared_secret shared_secret) (ratchet_key (pre_key_inner m)) keys in
                  let! (r, session) := decrypt_decoded debug fresh (pre_key_inner m) session in
                  match r with
                  | Err e => Ret (Err (CreationDecryption e), a)
                  | Ok plaintext =>
                      let '(_, a) := remove_one_time_key_helper (one_time_key keys) a in
                      Ret (Ok (session, plaintext), a)
                  end
              end
          end
    end.

End account.
