(* ===== verification/OneTimeKeysSpec.v ===== *)
(** * The one-time key store

    The three maps of the store describe one set of key pairs; generating keys makes
    exactly the oldest ones go, and a pickle keeps the store. *)

From S2P Require Import Prelude Bytes Cipher Megolm Olm OlmSession OlmAccount.
From stdpp Require Import sorting.

(** ** Ordered maps *)

Lemma btree_iter_perm {A} (m : gmap Z A) : btree_iter m ≡ₚ map_to_list m.
Proof. apply merge_sort_Permutation. Qed.

Lemma elem_of_btree_iter {A} (m : gmap Z A) k x : (k, x) ∈ btree_iter m ↔ m !! k = Some x.
Proof. by rewrite btree_iter_perm, elem_of_map_to_list. Qed.

Lemma first_key_Some {A} (m : gmap Z A) k :
  first_key m = Some k → is_Some (m !! k) ∧ ∀ k', is_Some (m !! k') → (k <= k')%Z.
Proof.
  unfold first_key. pose proof (StronglySorted_merge_sort key_le (map_to_list m)) as Hs. fold (btree_iter m) in Hs.
  pose proof (elem_of_btree_iter m) as Hel. destruct (btree_iter m) as [|[j x] l]; [done|]. intros [= <-]. cbn.
  split; [exists x; apply Hel; by left|]. intros k' [y Hy]. apply Hel, elem_of_cons in Hy as [[= -> ->]|Hy]; [done|].
  apply StronglySorted_inv in Hs as [_ Hall]. rewrite Forall_forall in Hall. apply (Hall (k', y) Hy).
Qed.

Lemma first_key_None {A} (m : gmap Z A) : first_key m = None → m = ∅.
Proof.
  unfold first_key. pose proof (btree_iter_perm m) as Hp. destruct (btree_iter m) as [|x l]; [|done]. intros _.
  apply map_to_list_empty_iff. by apply Permutation_nil_l in Hp.
Qed.

(** The order of iteration is determined by the keys. *)
Lemma btree_iter_unique {A} (m : gmap Z A) l :
  StronglySorted key_le l → l ≡ₚ map_to_list m → btree_iter m = l.
Proof.
  intros Hs Hp. pose proof (StronglySorted_merge_sort key_le (map_to_list m)) as Hm.
  apply (StronglySorted_unique_strong key_le); [|done|done|by rewrite btree_iter_perm].
  intros [i x] [j y] Hx Hy. unfold key_le. cbn. intros ? ?. assert (i = j) as -> by lia. apply elem_of_btree_iter in Hx.
  rewrite Hp, elem_of_map_to_list in Hy. congruence.
Qed.

Lemma btree_iter_sorted {A} (m : gmap Z A) : StronglySorted key_le (btree_iter m).
Proof. apply (StronglySorted_merge_sort key_le). Qed.

(** A key after all others is iterated last. *)
Lemma btree_iter_snoc {A} (m : gmap Z A) k x :
  (∀ j, is_Some (m !! j) → (j < k)%Z) → btree_iter (<[k := x]> m) = btree_iter m ++ [(k, x)].
Proof.
  intros Hlt. assert (m !! k = None) as Hk by (apply eq_None_not_Some; intros ?%Hlt; lia). apply btree_iter_unique.
  - assert (∀ y, y ∈ btree_iter m → key_le y (k, x)) as Hall.
    { intros [j y] Hy%elem_of_btree_iter. unfold key_le. cbn. assert (j < k)%Z by (apply Hlt; by eexists). lia. }
    revert Hall. pose proof (btree_iter_sorted m) as Hs. induction Hs as [|y l Hs IH Hy]; intros Hall; cbn; [by repeat constructor|].
    constructor; [apply IH; intros; apply Hall; by right|]. apply Forall_app. split; [done|]. repeat constructor. apply Hall. by left.
  - rewrite map_to_list_insert, btree_iter_perm by done. by rewrite Permutation_app_comm.
Qed.

(** Without the first key, the iteration starts at the second. *)
Lemma btree_iter_tail {A} (m : gmap Z A) k x l : btree_iter m = (k, x) :: l → btree_iter (delete k m) = l.
Proof.
  intros Hm. pose proof (btree_iter_sorted m) as Hs. rewrite Hm in Hs. apply StronglySorted_inv in Hs as [Hs _].
  assert (m !! k = Some x) as Hk by (apply elem_of_btree_iter; rewrite Hm; by left).
  apply btree_iter_unique; [done|]. apply (Permutation_cons_inv (a := (k, x))).
  rewrite <- Hm, btree_iter_perm. by rewrite (map_to_list_delete m k x Hk).
Qed.

Lemma length_btree_iter {A} (m : gmap Z A) : length (btree_iter m) = size m.
Proof. rewrite btree_iter_perm. apply length_map_to_list. Qed.

Section one_time_keys.
Context `{!Curve25519}.
Implicit Types (o : OneTimeKeys) (pk : PublicKey) (sk : SecretKey) (id : Z).

(** ** The invariant *)

Record otk_ok o : Prop := {
  otk_ids pk id : key_ids_by_key o !! pk = Some id → ∃ sk, private_keys o !! id = Some sk ∧ public_of sk = pk;
  otk_keys id sk : private_keys o !! id = Some sk → key_ids_by_key o !! public_of sk = Some id;
  otk_unpublished id pk : unpublished_public_keys o !! id = Some pk → ∃ sk, private_keys o !! id = Some sk ∧ pk = public_of sk;
  otk_size : size (private_keys o) <= MAX_ONE_TIME_KEYS;
  otk_next id : is_Some (private_keys o !! id) → (id < next_key_id o)%Z;
  otk_u64 : (0 <= next_key_id o <= u64_max)%Z
}.

(** The store holds a key pair. *)
Definition holds o pk sk : Prop := get_secret_key pk o = Some sk.

Lemma get_secret_key_spec o pk sk : otk_ok o → holds o pk sk ↔ public_of sk = pk ∧ ∃ id, private_keys o !! id = Some sk.
Proof.
  intros Hok. unfold holds, get_secret_key. split.
  - destruct (key_ids_by_key o !! pk) as [id|] eqn:Hid; [|done]. cbn. intros Hsk. destruct (otk_ids _ Hok _ _ Hid) as (sk' & Hsk' & <-).
    simplify_eq. eauto.
  - intros [<- [id Hid]]. by rewrite (otk_keys _ Hok _ _ Hid).
Qed.

Lemma no_one_time_keys_ok : otk_ok no_one_time_keys.
Proof.
  split; cbn.
  - intros pk id Hid. simplify_map_eq.
  - intros id sk Hid. simplify_map_eq.
  - intros id pk Hid. simplify_map_eq.
  - rewrite map_size_empty. lia.
  - intros id [? Hid]. simplify_map_eq.
  - by unfold u64_max.
Qed.

Lemma mark_as_published_ok o : otk_ok o → otk_ok (keys_mark_as_published o).
Proof. intros [? ? ? ? ? ?]. by split. Qed.

(** Removing a key pair from the maps. *)
Definition drop_key id pk o : OneTimeKeys :=
  {| next_key_id := next_key_id o; unpublished_public_keys := delete id (unpublished_public_keys o);
     private_keys := delete id (private_keys o); key_ids_by_key := delete pk (key_ids_by_key o) |}.

Lemma drop_key_ok id sk o :
  otk_ok o → private_keys o !! id = Some sk → otk_ok (drop_key id (public_of sk) o).
Proof.
  intros Hok Hid. pose proof Hok as [Hids Hkeys Hun Hsize Hnext Hu]. split; cbn -[MAX_ONE_TIME_KEYS].
  - intros pk j [Hne Hj]%lookup_delete_Some. destruct (Hids pk j Hj) as (sk' & Hsk' & <-). exists sk'. split; [|done].
    rewrite lookup_delete_ne; [done|]. intros ->. by simplify_eq.
  - intros j sk' [Hne Hj]%lookup_delete_Some. rewrite lookup_delete_ne; [by apply Hkeys|]. intros Heq.
    apply Hkeys in Hj, Hid. rewrite <- Heq in Hj. congruence.
  - intros j pk [Hne Hj]%lookup_delete_Some. destruct (Hun j pk Hj) as (sk' & ? & ?). exists sk'. by rewrite lookup_delete_ne.
  - rewrite map_size_delete_Some by (by eexists). lia.
  - intros j [sk' [_ Hj]%lookup_delete_Some]. apply Hnext. by eexists.
  - done.
Qed.

Lemma drop_key_holds id sk o pk sk' :
  otk_ok o → private_keys o !! id = Some sk → holds (drop_key id (public_of sk) o) pk sk' ↔ pk ≠ public_of sk ∧ holds o pk sk'.
Proof.
  intros Hok Hid. rewrite (get_secret_key_spec o) by done. rewrite get_secret_key_spec by (by apply drop_key_ok). cbn. split.
  - intros [<- [j [Hne Hj]%lookup_delete_Some]]. split; [|eauto]. intros Heq. apply (otk_keys _ Hok) in Hj, Hid. rewrite Heq in Hj. congruence.
  - intros (Hne & <- & j & Hj). split; [done|]. exists j. rewrite lookup_delete_ne; [done|]. intros ->. simplify_eq.
Qed.

(** [remove_secret_key] takes exactly the key of the public key out. *)
Lemma remove_secret_key_spec pk o :
  otk_ok o →
  fst (remove_secret_key pk o) = get_secret_key pk o ∧ otk_ok (snd (remove_secret_key pk o)) ∧
  ∀ pk' sk, holds (snd (remove_secret_key pk o)) pk' sk ↔ pk' ≠ pk ∧ holds o pk' sk.
Proof.
  intros Hok. unfold remove_secret_key, get_secret_key. destruct (key_ids_by_key o !! pk) as [id|] eqn:Hid; cbn [fst snd].
  - destruct (otk_ids _ Hok _ _ Hid) as (sk & Hsk & <-). split; [done|]. fold (drop_key id (public_of sk) o).
    split; [by apply drop_key_ok|]. intros. by apply drop_key_holds.
  - split_and!; [done..|]. intros pk' sk. split; [|by intros [_ ?]]. intros Hh. split; [|done]. intros ->. unfold holds, get_secret_key in Hh.
    by rewrite Hid in Hh.
Qed.

(** Making room removes the oldest key of a full store. *)
Lemma make_room_spec o :
  otk_ok o →
  let '(removed, o') := make_room o in
  otk_ok o' ∧ next_key_id o' = next_key_id o ∧ size (private_keys o') < MAX_ONE_TIME_KEYS ∧
  size (private_keys o') = size (private_keys o) `min` (MAX_ONE_TIME_KEYS - 1) ∧
  (∀ pk sk, holds o' pk sk ↔ removed ≠ Some pk ∧ holds o pk sk) ∧
  (∀ pk, removed = Some pk → ∃ sk id, private_keys o !! id = Some sk ∧ public_of sk = pk ∧
     ∀ id', is_Some (private_keys o !! id') → (id <= id')%Z).
Proof.
  intros Hok. pose proof (otk_size _ Hok) as Hsize. unfold make_room. assert (MAX_ONE_TIME_KEYS = 5000) as Hmax by done.
  destruct (Nat.leb_spec MAX_ONE_TIME_KEYS (size (private_keys o))) as [Hfull|Hroom].
  - destruct (first_key (private_keys o)) as [id|] eqn:Hfirst.
    + apply first_key_Some in Hfirst as [[sk Hsk] Hmin]. rewrite Hsk. fold (drop_key id (public_of sk) o).
      split; [by apply drop_key_ok|]. cbn -[MAX_ONE_TIME_KEYS]. rewrite map_size_delete_Some by (by eexists). split_and!; [done|lia|lia| |].
      * intros pk sk'. rewrite drop_key_holds by done. split; intros [Hne ?]; (split; [|done]); congruence.
      * intros pk [= <-]. by exists sk, id.
    + apply first_key_None in Hfirst. rewrite Hfirst, map_size_empty in Hfull. lia.
  - split_and!; [done..|lia| |done]. intros pk sk. split; [by split|by intros [_ ?]].
Qed.

(** ** The store is a queue *)

Definition queue o : list SecretKey := (btree_iter (private_keys o)).*2.

Lemma length_queue o : length (queue o) = size (private_keys o).
Proof. unfold queue. rewrite length_fmap. apply length_btree_iter. Qed.

Lemma elem_of_queue o sk : sk ∈ queue o ↔ ∃ id, private_keys o !! id = Some sk.
Proof.
  unfold queue. rewrite list_elem_of_fmap. split.
  - intros ([id sk'] & -> & Hin%elem_of_btree_iter). eauto.
  - intros [id Hid]. exists (id, sk). split; [done|]. by apply elem_of_btree_iter.
Qed.

Lemma make_room_queue o :
  otk_ok o → let d := S (length (queue o)) - MAX_ONE_TIME_KEYS in
  option_list (fst (make_room o)) = public_of <$> take d (queue o) ∧ queue (snd (make_room o)) = drop d (queue o).
Proof.
  intros Hok d. pose proof (otk_size _ Hok) as Hsize. unfold make_room. subst d. rewrite length_queue.
  destruct (Nat.leb_spec MAX_ONE_TIME_KEYS (size (private_keys o))) as [Hfull|Hroom].
  - replace (S (size (private_keys o)) - MAX_ONE_TIME_KEYS) with 1 by lia. unfold first_key, queue.
    destruct (btree_iter (private_keys o)) as [|[id sk] l] eqn:Hiter.
    + pose proof (length_btree_iter (private_keys o)) as Hl. rewrite Hiter in Hl. unfold MAX_ONE_TIME_KEYS, PUBLIC_MAX_ONE_TIME_KEYS in Hfull. cbn in Hl. lia.
    + cbn [head fmap option_fmap option_map fst]. assert (private_keys o !! id = Some sk) as -> by (apply elem_of_btree_iter; rewrite Hiter; by left).
      cbn [fst snd private_keys]. by rewrite (btree_iter_tail _ _ _ _ Hiter).
  - by replace (S (size (private_keys o)) - MAX_ONE_TIME_KEYS) with 0 by lia.
Qed.

(** One key more. *)
Lemma generate_one_spec sk o created removed o' :
  otk_ok o → key_ids_by_key o !! public_of sk = None → (next_key_id o < u64_max)%Z →
  generate_one_time_key sk o = (created, removed, o') →
  let o'' := {| next_key_id := (next_key_id o' + 1) mod 2 ^ 64; unpublished_public_keys := unpublished_public_keys o';
                private_keys := private_keys o'; key_ids_by_key := key_ids_by_key o' |} in
  let d := S (length (queue o)) - MAX_ONE_TIME_KEYS in
  otk_ok o'' ∧ created = public_of sk ∧ option_list removed = public_of <$> take d (queue o) ∧
  queue o'' = drop d (queue o) ++ [sk] ∧ next_key_id o'' = (next_key_id o + 1)%Z ∧
  (∀ pk, pk ≠ public_of sk → key_ids_by_key o !! pk = None → key_ids_by_key o'' !! pk = None).
Proof.
  intros Hok Hfresh Hnext Hgen o'' d. unfold generate_one_time_key, insert_secret_key in Hgen. pose proof (make_room_spec o Hok) as Hroom.
  pose proof (make_room_queue o Hok) as [Hremoved Hqueue]. destruct (make_room o) as [rm o1] eqn:Hmr. cbn [fst snd] in Hremoved, Hqueue.
  destruct Hroom as (Hok1 & Hn1 & Hlt & _ & Hholds & _). injection Hgen as <- <- <-. pose proof Hok as [_ _ _ _ _ Hu].
  assert (∀ pk, key_ids_by_key o !! pk = None → key_ids_by_key o1 !! pk = None) as Hnone.
  { intros pk Hpk. apply eq_None_not_Some. intros [id Hid]. destruct (otk_ids _ Hok1 _ _ Hid) as (sk' & Hsk' & <-).
    assert (holds o1 (public_of sk') sk') as Hh by (apply get_secret_key_spec; eauto). apply Hholds in Hh as [_ Hh].
    unfold holds, get_secret_key in Hh. by rewrite Hpk in Hh. }
  assert (next_key_id o'' = (next_key_id o + 1)%Z) as Hnext'.
  { subst o''. cbn. rewrite Hn1. apply Z.mod_small. unfold u64_max in *. lia. }
  assert (private_keys o1 !! next_key_id o = None) as Hnew.
  { apply eq_None_not_Some. intros Hs. apply (otk_next _ Hok1) in Hs. lia. }
  pose proof Hok1 as [Hids1 Hkeys1 Hun1 Hsize1 Hlt1 _]. split_and!; [|done|done| |done|].
  - split.
    + intros pk id. subst o''. cbn. rewrite lookup_insert_Some. intros [[<- <-]|[Hne Hid]].
      * exists sk. by rewrite lookup_insert_eq.
      * destruct (Hids1 _ _ Hid) as (sk' & Hsk' & ?). exists sk'. rewrite lookup_insert_ne; [done|]. intros <-. congruence.
    + intros id sk'. subst o''. cbn. rewrite lookup_insert_Some. intros [[<- <-]|[Hne Hid]]; [by rewrite lookup_insert_eq|].
      rewrite lookup_insert_ne; [by apply Hkeys1|]. intros Heq. apply Hkeys1 in Hid. rewrite <- Heq, Hnone in Hid by done. done.
    + intros id pk. subst o''. cbn. rewrite lookup_insert_Some. intros [[<- <-]|[Hne Hid]]; [exists sk; by rewrite lookup_insert_eq|].
      destruct (Hun1 _ _ Hid) as (sk' & ? & ?). exists sk'. by rewrite lookup_insert_ne.
    + subst o''. cbn -[MAX_ONE_TIME_KEYS]. rewrite map_size_insert_None by done. lia.
    + intros id. rewrite Hnext'. subst o''. cbn. intros [sk' Hs]. apply lookup_insert_Some in Hs as [[<- _]|[_ Hs]]; [lia|].
      assert (id < next_key_id o1)%Z by (apply Hlt1; by eexists). lia.
    + rewrite Hnext'. unfold u64_max in *. lia.
  - subst o''. unfold queue at 1. cbn [private_keys]. rewrite btree_iter_snoc, fmap_app; [subst d; by rewrite <- Hqueue|].
    intros j Hj. rewrite <- Hn1. by apply Hlt1.
  - intros pk Hne Hpk. subst o''. cbn. rewrite lookup_insert_ne by done. by apply Hnone.
Qed.

Lemma generate_spec fresh o :
  otk_ok o → NoDup (public_of <$> fresh) → Forall (λ sk, key_ids_by_key o !! public_of sk = None) fresh →
  (next_key_id o + Z.of_nat (length fresh) <= u64_max)%Z →
  let '(created, removed, o') := generate fresh o in
  let d := length (queue o ++ fresh) - MAX_ONE_TIME_KEYS in
  otk_ok o' ∧ created = public_of <$> fresh ∧ removed = public_of <$> take d (queue o ++ fresh) ∧
  queue o' = drop d (queue o ++ fresh).
Proof.
  revert o. induction fresh as [|sk fresh IH]; intros o Hok Hnd Hnone Hnext; cbn [generate].
  - rewrite app_nil_r. pose proof (otk_size _ Hok) as Hsize. rewrite <- length_queue in Hsize.
    replace (length (queue o) - MAX_ONE_TIME_KEYS) with 0 by lia. done.
  - cbn [length] in Hnext. apply Forall_cons in Hnone as [Hsk Hnone]. cbn in Hnd. apply NoDup_cons in Hnd as [Hnin Hnd].
    destruct (generate_one_time_key sk o) as [[created removed] o1] eqn:Hgen.
    destruct (generate_one_spec sk o created removed o1 Hok Hsk ltac:(lia) Hgen) as (Hok' & -> & Hrm & Hq & Hn & Hkeep).
    set (o2 := Build_OneTimeKeys _ _ _ _ _) in *.
    assert (Forall (λ sk, key_ids_by_key o2 !! public_of sk = None) fresh) as Hnone2.
    { rewrite Forall_forall in Hnone |- *. intros sk' Hin. apply Hkeep; [|by apply Hnone]. intros Heq. apply Hnin. rewrite <- Heq.
      by apply list_elem_of_fmap_2. }
    specialize (IH o2 Hok' Hnd Hnone2 ltac:(lia)). destruct (generate fresh o2) as [[cs rs] o3]. destruct IH as (? & -> & -> & ->).
    split; [done|]. split; [done|]. rewrite Hrm, Hq. pose proof (otk_size _ Hok) as Hsize. rewrite <- length_queue in Hsize.
    assert (∀ (q : list SecretKey) d e, d <= length q → take d q ++ take e (drop d q ++ sk :: fresh) = take (d + e) (q ++ sk :: fresh) ∧
      drop e (drop d q ++ sk :: fresh) = drop (d + e) (q ++ sk :: fresh)) as Hsplit.
    { intros q d e Hd. rewrite <- drop_drop, <- (drop_app_le q) by done. split; [|done].
      rewrite <- (take_drop d (q ++ sk :: fresh)) at 2. rewrite take_app_add', take_app_le; [done..|]. rewrite length_take, length_app. lia. }
    rewrite <- !app_assoc. cbn [app]. rewrite !length_app, length_drop. cbn [length].
    assert (MAX_ONE_TIME_KEYS = 5000) as Hmax by done.
    set (d := S (length (queue o)) - MAX_ONE_TIME_KEYS). set (e := length (queue o) - d + _ - MAX_ONE_TIME_KEYS).
    destruct (Hsplit (queue o) d e) as [Ht Hdr]; [lia|].
    rewrite <- fmap_app, Ht, Hdr. replace (d + e) with (length (queue o) + S (length fresh) - MAX_ONE_TIME_KEYS) by (subst d e; lia). done.
Qed.

(** ** Pickles *)

Lemma ids_from_lookup (l : list (Z * SecretKey)) (ids : gmap PublicKey Z) pk id :
  (∀ i j x y, (i, x) ∈ l → (j, y) ∈ l → public_of x = public_of y → i = j) →
  foldl (λ ids x, <[public_of (snd x) := fst x]> ids) ids l !! pk = Some id ↔
  (∃ sk, (id, sk) ∈ l ∧ public_of sk = pk) ∨ (∀ i sk, (i, sk) ∈ l → public_of sk ≠ pk) ∧ ids !! pk = Some id.
Proof.
  revert ids. induction l as [|[j x] l IH]; intros ids Hinj; cbn [foldl fst snd].
  - split; [right; split; [by intros ? ? ?%not_elem_of_nil|done]|]. intros [(? & []%not_elem_of_nil & _)|[_ ?]]; done.
  - rewrite IH by (intros i k y z Hy Hz; apply Hinj; by right). setoid_rewrite elem_of_cons. split.
    + intros [(sk & Hin & Heq)|[Hno Hlook]]; [left; eauto|]. apply lookup_insert_Some in Hlook as [[<- <-]|[Hne Hlook]]; [left; eauto|].
      right. split; [|done]. intros i sk [[= -> ->]|Hin]; [done|by eapply Hno].
    + intros [(sk & [[= -> ->]|Hin] & <-)|[Hno Hlook]].
      * destruct (decide (public_of x ∈ (λ y, public_of (snd y)) <$> l)) as [Hex|Hex].
        -- apply list_elem_of_fmap in Hex as ([i sk] & Heq & Hin). cbn in Heq. left. exists sk. split; [|done].
           by rewrite (Hinj j i x sk) by first [by left|by right|done].
        -- right. split; [|by rewrite lookup_insert_eq]. intros i sk Hin Heq. apply Hex, list_elem_of_fmap. by exists (i, sk).
      * left. eauto.
      * right. split; [intros i sk Hin; apply (Hno i sk); by right|]. rewrite lookup_insert_ne; [done|]. apply (Hno j x). by left.
Qed.

Lemma keys_pickle_round_trip o : otk_ok o → keys_from_pickle (keys_pickle o) = o.
Proof.
  intros Hok. destruct o as [n un priv ids] eqn:Ho. unfold keys_from_pickle, keys_pickle. cbn. f_equal. apply map_eq. intros pk.
  apply option_eq. intros id. rewrite ids_from_lookup.
  - split.
    + intros [(sk & Hin%elem_of_btree_iter & <-)|[_ ?]]; [by apply (otk_keys _ Hok) in Hin|simplify_map_eq].
    + intros Hid. apply (otk_ids _ Hok) in Hid as (sk & Hsk & <-). left. exists sk. by rewrite elem_of_btree_iter.
  - intros i j x y Hx%elem_of_btree_iter Hy%elem_of_btree_iter Heq. apply (otk_keys _ Hok) in Hx, Hy. rewrite Heq in Hx. cbn in *. congruence.
Qed.

(** C24. The store of one-time keys is a queue of at most 5000 key pairs. Generating
    keys appends them and drops the oldest ones that no longer fit; the public keys it
    returns are exactly those of the new and of the dropped keys. Afterwards a public
    key finds a secret key exactly when the pair is in the queue, the three maps of the
    store agree, and the store survives its pickle, which leaves one of the maps out. *)
Theorem one_time_key_queue fresh o :
  otk_ok o → NoDup (public_of <$> fresh) → Forall (λ sk, key_ids_by_key o !! public_of sk = None) fresh →
  (next_key_id o + Z.of_nat (length fresh) <= u64_max)%Z →
  let '(created, removed, o') := generate fresh o in
  let d := length (queue o ++ fresh) - MAX_ONE_TIME_KEYS in
  created = public_of <$> fresh ∧ removed = public_of <$> take d (queue o ++ fresh) ∧
  queue o' = drop d (queue o ++ fresh) ∧ length (queue o') <= MAX_ONE_TIME_KEYS ∧
  (∀ pk sk, get_secret_key pk o' = Some sk ↔ public_of sk = pk ∧ sk ∈ queue o') ∧
  otk_ok o' ∧ keys_from_pickle (keys_pickle o') = o'.
Proof.
  intros Hok Hnd Hnone Hnext. pose proof (generate_spec fresh o Hok Hnd Hnone Hnext) as Hgen.
  destruct (generate fresh o) as [[created removed] o']. destruct Hgen as (Hok' & -> & -> & Hq).
  split_and!; [done..| | |done|by apply keys_pickle_round_trip].
  - rewrite length_queue. apply Hok'.
  - intros pk sk. rewrite elem_of_queue. by apply get_secret_key_spec.
Qed.

End one_time_keys.

Lemma one_time_key_queue_witness :
  let '(created, removed, o') := generate [sec x01; sec x02] no_one_time_keys in
  let d := length (queue no_one_time_keys ++ [sec x01; sec x02]) - MAX_ONE_TIME_KEYS in
  created = public_of <$> [sec x01; sec x02] ∧ removed = public_of <$> take d (queue no_one_time_keys ++ [sec x01; sec x02]) ∧
  queue o' = drop d (queue no_one_time_keys ++ [sec x01; sec x02]) ∧ length (queue o') <= MAX_ONE_TIME_KEYS ∧
  (∀ pk sk, get_secret_key pk o' = Some sk ↔ public_of sk = pk ∧ sk ∈ queue o') ∧
  otk_ok o' ∧ keys_from_pickle (keys_pickle o') = o'.
Proof.
  apply (one_time_key_queue [sec x01; sec x02] no_one_time_keys).
  - apply no_one_time_keys_ok.
  - by_decide.
  - by_decide.
  - by_decide.
Defined.
