(* ===== verification/OlmConversation.v ===== *)
(** * From accounts to conversations

    The one-time key store, the agreement of the two sides on their first keys, and
    the conversation that follows from two accounts. *)

From S2P Require Import Prelude Bytes Cipher Megolm SampleCrypto Olm OlmSession OlmChain OlmPair OlmAccount OneTimeKeysSpec.

Section conversation.
Context `{!Primitives, !Ed25519, !Curve25519, !ProstOlm} (debug : bool).

(** ** Agreement *)

(** Both sides of the exchange compute the same secret. *)
Lemma shared_3dh_agrees (alice base bob otk : SecretKey) :
  ∃ secret, shared_3dh alice base (public_of bob) (public_of otk) = Some secret ∧
            remote_shared_3dh bob otk (public_of alice) (public_of base) = Some secret.
Proof.
  unfold shared_3dh, remote_shared_3dh.
  rewrite (diffie_hellman_comm otk alice), (diffie_hellman_comm bob base), (diffie_hellman_comm otk base).
  destruct (diffie_hellman_contributory alice otk) as [x ->], (diffie_hellman_contributory base bob) as [y ->],
    (diffie_hellman_contributory base otk) as [z ->]. by eexists.
Qed.

(** ** The first messages *)

(** The initiator's first messages, as they go over the wire. *)
Fixpoint send_all (fresh : SecretKey) (plaintexts : list bytes) (s : Session) : panics (list (Z * bytes) * Session) :=
  match plaintexts with
  | [] => Ret ([], s)
  | plaintext :: plaintexts =>
      let! (m, s) := session_encrypt debug fresh plaintext s in
      let! (ms, s) := send_all fresh plaintexts s in
      Ret (option_list (to_parts <$> m) ++ ms, s)
  end.

(** The conversation when the receiver has a chain of which it has read nothing. *)
Definition prelude (plaintexts : list bytes) : talk :=
  {| logs := [plaintexts]; sent := (λ k, (0, k)) <$> seq 0 (length plaintexts);
     got := λ p, if p then [] else [(0, fresh_chain)] |}.

(** The conversation when it has read the message [k]. *)
Definition opening (plaintexts : list bytes) (k : nat) : talk := snd (spec_receive 0 k (prelude plaintexts)).

Section first_messages.
Context (cfg : Version) (root0 seed0 : bytes) (t0 : SecretKey) (keys : SessionKeys).

Abbreviation state := (session_of cfg root0 seed0 t0 (λ _, keys)).

Lemma prelude_send plaintexts pt :
  turn true (prelude plaintexts) = inl 0 ∧ spec_send true pt (prelude plaintexts) = prelude (plaintexts ++ [pt]).
Proof.
  split; [done|]. unfold spec_send. cbn. unfold append, prelude. cbn. unfold log. cbn.
  rewrite length_app. cbn [length]. by rewrite seq_app, fmap_app.
Qed.

Lemma prelude_bounded plaintexts : bounded (S (length plaintexts)) (prelude plaintexts).
Proof. split; [cbn; lia|]. intros [|[|i]]; cbn; lia. Qed.

Lemma prelude_related :
  related cfg root0 seed0 t0 (λ _, keys) [] {| party := λ p, state [] p (prelude []); wire := [] |} (prelude []).
Proof.
  split; [done| |].
  - split; [done|apply NoDup_singleton| |by eexists|by constructor].
    intros []; (split; [unfold MAX_RECEIVING_CHAINS; cbn; lia|]); [by constructor|]. apply Forall_singleton.
    split_and!; [cbn; lia|done|cbn; lia|apply fresh_chain_ok].
  - split; [done|]. intros n i k Hn. done.
Qed.

Lemma send_all_spec pts old w fresh :
  related cfg root0 seed0 t0 (λ _, keys) [] w (prelude old) →
  (Z.of_nat (length old + length pts) + 1 + MAX_MESSAGE_GAP < u64_max)%Z →
  Forall (λ p, Z.of_nat (length p) < 2 ^ 63)%Z pts → public_of fresh ≠ public_of t0 →
  ∃ ms, send_all fresh pts (state [] true (prelude old)) = Ret (ms, state [] true (prelude (old ++ pts))) ∧
    related cfg root0 seed0 t0 (λ _, keys) []
      {| party := λ p, state [] p (prelude (old ++ pts)); wire := wire w ++ ((λ m, (true, m)) <$> ms) |} (prelude (old ++ pts)) ∧
    Forall (λ m, fst m = 0%Z) ms ∧ length ms = length pts.
Proof.
  intros Hrel Hn Hpts Hfresh. revert old w Hrel Hn. induction Hpts as [|pt pts Hpt _ IH]; intros old w Hrel Hn; cbn [send_all].
  - exists []. rewrite app_nil_r. split; [done|]. split_and!; [|by constructor|done]. destruct Hrel as [Hp Hok Hw]. split; [done|done|].
    cbn [wire]. by rewrite app_nil_r.
  - destruct (prelude_send old pt) as [Hturn Hsend]. cbn [length] in Hn.
    destruct (send_related debug cfg root0 seed0 t0 (λ _, keys) [] w (prelude old) (S (length old)) true pt fresh) as (m & Henc & Hpre & Hrel');
      [done|apply prelude_bounded|unfold MAX_MESSAGE_GAP in *; lia|done|cbn; rewrite list_elem_of_singleton; done|].
    unfold keys_after in *. rewrite Hturn, Hsend in *. rewrite Henc.
    destruct (IH (old ++ [pt]) _ Hrel') as (ms & Hms & Hrel'' & Hall & Hlen); [rewrite length_app; cbn; lia|].
    rewrite <- app_assoc in *. cbn [app] in *. rewrite Hms. eexists. split; [done|]. cbn [option_list fmap option_fmap option_map].
    cbn [app wire fmap list_fmap] in *. rewrite <- app_assoc in Hrel''. split_and!; [done| |cbn; lia].
    constructor; [|done]. destruct m as [m|m]; [done|done].
Qed.

End first_messages.

(** ** Conversations *)

Lemma find_one_time_key_public pk (a : Account) otk :
  otk_ok (one_time_keys a) → find_one_time_key pk a = Some otk → public_of otk = pk.
Proof.
  intros Hok. unfold find_one_time_key. destruct (get_secret_key pk (one_time_keys a)) as [key|] eqn:Hget.
  - intros [= <-]. by apply get_secret_key_spec in Hget as [? _].
  - unfold fallback_get_secret_key, matching. intros Hf.
    destruct (fallback_key (fallback_keys a)), (previous_fallback_key (fallback_keys a)); cbn in Hf; repeat (case_bool_decide; simplify_eq/=); done.
Qed.

Lemma opening_read plaintexts k :
  (Z.of_nat k <= MAX_MESSAGE_GAP)%Z → fst (spec_receive 0 k (prelude plaintexts)) = Ok (nth k plaintexts []).
Proof.
  intros Hk. unfold spec_receive, prelude, MAX_MESSAGE_GAP in *. cbn -[spec_read]. unfold spec_read, MAX_MESSAGE_GAP. cbn [next fresh_chain].
  rewrite decide_False by lia. by rewrite decide_False by lia.
Qed.

Lemma opening_bounded plaintexts k : bounded (S (length plaintexts)) (opening plaintexts k).
Proof.
  unfold opening. destruct (spec_receive_frame 0 k (prelude plaintexts)) as (Hlogs & _ & _). destruct (prelude_bounded plaintexts) as [Hb1 Hb2].
  split; [by rewrite Hlogs|]. intros i. unfold log. rewrite Hlogs. apply Hb2.
Qed.

(** C4. Alice opens a session to Bob with one of his one-time or fallback keys and
    sends messages; Bob creates his session from the [k]-th of them, reads its
    plaintext, and no longer holds the one-time key. From then on the two sessions
    follow the specification of a conversation, for every sequence of sending,
    delivery in any order and any number of times, and messages made by others, with
    debug and with release arithmetic: every message is encrypted and encoded without
    error; every delivered message whose chain the receiver still has, or which is of
    the latest chain, is decrypted to what was sent, once, as long as its key has not
    been dropped, and is refused with the error that the specification says otherwise;
    a message of others that is refused disturbs nothing. The specification is followed
    up to the point where somebody else's message passes its authentication. *)
Theorem olm_conversation (alice bob : Account) cfg pk base t0 fresh pts k events :
  otk_ok (one_time_keys bob) → is_Some (find_one_time_key pk bob) →
  k < length pts → (Z.of_nat k <= MAX_MESSAGE_GAP)%Z →
  (Z.of_nat (length pts + length events) + 1 + MAX_MESSAGE_GAP < u64_max)%Z →
  Forall (λ p, Z.of_nat (length p) < 2 ^ 63)%Z pts → Forall event_ok events →
  NoDup (public_of <$> t0 :: fresh :: (fresh_of <$> events)) →
  ∃ s0 ms alice_session bs m bob_session bob',
    create_outbound_session cfg (curve25519_key bob) pk base t0 alice = Ok s0 ∧
    send_all fresh pts s0 = Ret (ms, alice_session) ∧
    ms !! k = Some (0%Z, bs) ∧ pre_key_from_bytes bs = Ok m ∧
    create_inbound_session debug cfg (curve25519_key alice) m fresh bob = Ret (Ok (bob_session, nth k pts []), bob') ∧
    get_secret_key pk (one_time_keys bob') = None ∧
    own_session_keys alice_session = own_session_keys bob_session ∧
    follows debug events
      {| party := λ p, if p then alice_session else bob_session; wire := (λ m, (true, m)) <$> ms |} (opening pts k).
Proof.
  intros Hotk [otk Hfind] Hk Hgap Hmax Hpts Hevents Hnd. pose proof (find_one_time_key_public _ _ _ Hotk Hfind) as <-.
  destruct (shared_3dh_agrees (diffie_hellman_key alice) base (diffie_hellman_key bob) otk) as (shared & Hs1 & Hs2).
  destruct (expand_shared_secret shared) as [root0 seed0] eqn:Hexp.
  set (keys := {| identity_key := curve25519_key alice; base_key := public_of base; one_time_key := public_of otk |}).
  set (st := session_of cfg root0 seed0 t0 (λ _, keys)).
  destruct (send_all_spec cfg root0 seed0 t0 keys pts [] _ fresh (prelude_related cfg root0 seed0 t0 keys)) as (ms & Hms & Hrel & Hpre & Hlen); [cbn; lia|done| |].
  { cbn in Hnd. apply NoDup_cons in Hnd as [Hnin _]. intros Heq. apply Hnin. rewrite Heq. by left. }
  cbn [app wire] in Hms, Hrel. pose proof Hrel as [_ Hok Hw]. pose proof Hw as [_ Hwire].
  destruct (Hwire k 0 k) as (m & Hm & Hinner & Hmok & Hcarry).
  { cbn. rewrite list_lookup_fmap, lookup_seq_lt by done. done. }
  cbn [wire] in Hm. rewrite list_lookup_fmap in Hm. destruct (ms !! k) as [part|] eqn:Hpart; [|done]. injection Hm as ->.
  pose proof (Forall_lookup_1 _ _ _ _ Hpre Hpart) as Hzero. destruct m as [m|m]; [done|]. cbn in Hcarry, Hinner, Hmok.
  destruct (receive_readable debug cfg root0 seed0 t0 (λ _, keys) [] fresh (prelude pts) (S (length pts)) 0 k) as [Hdec Hok'];
    [done|apply prelude_bounded|lia|cbn; lia|done|by right|].
  exists (st [] true (prelude [])), ms, (st [] true (prelude pts)), (pre_key_to_bytes m), m, (st [] false (opening pts k)),
    (snd (remove_one_time_key_helper (public_of otk) bob)).
  split_and!; [|done|done|by apply pre_key_round_trip| | |done|].
  - unfold create_outbound_session, curve25519_key. rewrite Hs1, Hexp. done.
  - unfold create_inbound_session. rewrite Hcarry. cbn [identity_key one_time_key base_key keys]. rewrite bool_decide_eq_true_2 by done. cbn [negb].
    assert ((if (olm_version (pre_key_inner m) =? MAC_TRUNCATED_VERSION)%Z then Some V1
      else if (olm_version (pre_key_inner m) =? VERSION)%Z then Some V2 else None) = Some cfg) as ->.
    { rewrite Hinner. unfold sealed_at. by destruct cfg. }
    rewrite bool_decide_eq_true_2, Hfind by done. cbn [negb]. unfold curve25519_key. rewrite Hs2, Hexp, Hinner, sealed_ratchet_key.
    change (new_remote cfg (root0, seed0) (public_of (secret t0 [] 0)) keys) with (Ret (E := Empty_set) (st [] false (prelude pts))).
    cbv beta iota. change (negb (owner 0)) with false in Hdec. change (log 0 (prelude pts)) with pts in *. unfold st. rewrite Hdec.
    rewrite opening_read by done. by destruct (remove_one_time_key_helper (public_of otk) bob).
  - destruct (remove_secret_key_spec (public_of otk) (one_time_keys bob) Hotk) as (_ & _ & Hholds). unfold remove_one_time_key_helper.
    destruct (remove_secret_key _ _) as [? o']. cbn in Hholds |- *. apply eq_None_not_Some. intros [sk Hsk]. by apply Hholds in Hsk as [? _].
  - apply (conversation_follows debug cfg root0 seed0 t0 (λ _, keys) events [] _ _ (S (length pts))); [|apply opening_bounded|lia|done|].
    + destruct (spec_receive_frame 0 k (prelude pts)) as (Hlogs & Hsent & Hgot).
      change (owner 0) with true in Hgot. split; [|done|].
      * intros []; [|done]. cbn [party]. unfold st, session_of, sending_of, turn, log, opening. by rewrite Hlogs, Hgot.
      * apply (wire_ok_later cfg root0 seed0 t0 (λ _, keys) [] [] (prelude pts)); [done|exact Hw|by left|done|].
        intros. unfold log, opening. by rewrite Hlogs.
    + cbn in Hnd |- *. apply NoDup_cons in Hnd as [Hnin Hnd]. apply NoDup_cons in Hnd as [_ Hnd]. apply NoDup_cons. split; [|done].
      intros Hin. apply Hnin. by right.
Qed.

End conversation.

(** ** An example *)

Definition sample_alice : Account := new_account (x10 : @SigningKey sample_ed25519) (sec x11).
Definition sample_bob : Account := set_one_time_keys (snd (generate [sec x20; sec x21] no_one_time_keys)) (new_account (x12 : @SigningKey sample_ed25519) (sec x13)).

Lemma sample_bob_ok : otk_ok (one_time_keys sample_bob).
Proof.
  pose proof (generate_spec [sec x20; sec x21] no_one_time_keys no_one_time_keys_ok ltac:(by_decide) ltac:(by_decide) ltac:(by_decide)) as Hgen.
  unfold sample_bob. destruct (generate [sec x20; sec x21] no_one_time_keys) as [[? ?] o']. by destruct Hgen as [? _].
Qed.

(** Bob answers, a forged message comes in between, and messages arrive out of order. *)
Definition sample_events : list event :=
  [Deliver 2 (sec x30); Send false [x64] (sec x31); Forge true (Normal (new_truncated_mac (pub x62) 0 [x64])) (sec x32); Deliver 3 (sec x33); Send true [x65] (sec x34);
   Deliver 0 (sec x35); Deliver 0 (sec x36); Deliver 4 (sec x37)].

Lemma olm_conversation_witness :
  ∃ s0 ms alice_session bs m bob_session bob',
    create_outbound_session V1 (curve25519_key sample_bob) (pub x21) (sec x40) (sec x41) sample_alice = Ok s0 ∧
    send_all true (sec x42) [[x61]; [x62]; [x63]] s0 = Ret (ms, alice_session) ∧
    ms !! 1 = Some (0%Z, bs) ∧ pre_key_from_bytes bs = Ok m ∧
    create_inbound_session true V1 (curve25519_key sample_alice) m (sec x42) sample_bob = Ret (Ok (bob_session, nth 1 [[x61]; [x62]; [x63]] []), bob') ∧
    get_secret_key (pub x21) (one_time_keys bob') = None ∧
    own_session_keys alice_session = own_session_keys bob_session ∧
    follows true sample_events
      {| party := λ p, if p then alice_session else bob_session; wire := (λ m, (true, m)) <$> ms |} (opening [[x61]; [x62]; [x63]] 1).
Proof.
  apply (olm_conversation true sample_alice sample_bob V1 (pub x21) (sec x40) (sec x41) (sec x42) [[x61]; [x62]; [x63]] 1 sample_events).
  - apply sample_bob_ok.
  - by_decide.
  - by_decide.
  - by_decide.
  - by_decide.
  - by repeat constructor.
  - repeat constructor; done.
  - by_decide.
Defined.
