(* ===== verification/Updates.v ===== *)
(** * The updates of a linked chunk and their readers

    [crates/client-common/src/linked_chunk/updates.rs]: the updates that a linked
    chunk emits, the log that keeps them until every reader has read them, and
    the stream of a subscriber.  Positions and identifiers of [mod.rs] are here
    too, since the updates name them.

    The theorems show that the log, with its per-reader indices and its garbage
    collection, is one queue per reader: a reader gets every update once and in
    order, whatever the other readers do, and a subscriber that waits is woken by
    the next update. *)

From S2P Require Import Prelude.

(** ** Positions *)

(** [ChunkIdentifier], a [u64]. *)
Abbreviation ChunkIdentifier := Z.

Record Position := { chunk_identifier : ChunkIdentifier; index : nat }.

#[export] Instance Position_eq_dec : EqDecision Position.
Proof. solve_decision. Defined.

(** [usize::MAX] *)
Definition usize_max : Z := 2 ^ 64 - 1.

Definition decrement_index (p : Position) : option Position :=
  match index p with
  | 0 => None
  | S i => Some {| chunk_identifier := chunk_identifier p; index := i |}
  end.

Definition increment_index (p : Position) : option Position :=
  if (Z.of_nat (index p) <? usize_max)%Z then
    Some {| chunk_identifier := chunk_identifier p; index := S (index p) |}
  else None.

(** ** Updates *)

Inductive Update (Item Gap : Type) :=
| NewItemsChunk (previous : option ChunkIdentifier) (new : ChunkIdentifier) (next : option ChunkIdentifier)
| NewGapChunk (previous : option ChunkIdentifier) (new : ChunkIdentifier) (next : option ChunkIdentifier)
    (gap : Gap)
| RemoveChunk (chunk : ChunkIdentifier)
| PushItems (at_ : Position) (items : list Item)
| ReplaceItem (at_ : Position) (item : Item)
| RemoveItem (at_ : Position)
| DetachLastItems (at_ : Position)
| StartReattachItems
| EndReattachItems
| Clear.

Arguments NewItemsChunk {Item Gap} previous new next.
Arguments NewGapChunk {Item Gap} previous new next gap.
Arguments RemoveChunk {Item Gap} chunk.
Arguments PushItems {Item Gap} at_ items.
Arguments ReplaceItem {Item Gap} at_ item.
Arguments RemoveItem {Item Gap} at_.
Arguments DetachLastItems {Item Gap} at_.
Arguments StartReattachItems {Item Gap}.
Arguments EndReattachItems {Item Gap}.
Arguments Clear {Item Gap}.

Definition into_items {Item Gap} (u : Update Item Gap) : list Item :=
  match u with
  | PushItems _ items => items
  | ReplaceItem _ item => [item]
  | _ => []
  end.

(** ** The log *)

Abbreviation ReaderToken := nat.
Abbreviation Waker := nat.

(** [UpdatesInner], over the type [U] of updates.  [woken] records the calls of
    [Waker::wake]. *)
Record UpdatesInner (U : Type) := {
  updates : list U;
  last_index_per_reader : gmap ReaderToken nat;
  last_token : ReaderToken;
  wakers : list Waker;
  woken : list Waker
}.

Arguments Build_UpdatesInner {U} _ _ _ _ _.
Arguments updates {U} _.
Arguments last_index_per_reader {U} _.
Arguments last_token {U} _.
Arguments wakers {U} _.
Arguments woken {U} _.

Inductive Poll (A : Type) := Ready (a : A) | Pending.
Arguments Ready {A} a.
Arguments Pending {A}.

Definition MAIN_READER_TOKEN : ReaderToken := 0.

Section log.
Context {U : Type}.
Implicit Types (u : UpdatesInner U) (token : ReaderToken).

Definition new_inner : UpdatesInner U :=
  {| updates := []; last_index_per_reader := {[ MAIN_READER_TOKEN := 0 ]};
     last_token := MAIN_READER_TOKEN; wakers := []; woken := [] |}.

Definition push (x : U) u : UpdatesInner U :=
  {| updates := updates u ++ [x]; last_index_per_reader := last_index_per_reader u;
     last_token := last_token u; wakers := []; woken := woken u ++ wakers u |}.

Definition clear_pending u : UpdatesInner U :=
  {| updates := []; last_index_per_reader := (λ _, 0) <$> last_index_per_reader u;
     last_token := last_token u; wakers := wakers u; woken := woken u |}.

(** [values().min().copied().unwrap_or(0)] *)
Definition min_index (m : gmap ReaderToken nat) : nat :=
  match (map_to_list m).*2 with
  | [] => 0
  | i :: js => foldr min i js
  end.

Definition garbage_collect u : UpdatesInner U :=
  let min_index := min_index (last_index_per_reader u) in
  if 0 <? min_index then
    {| updates := drop min_index (updates u);
       last_index_per_reader := (λ i, i - min_index) <$> last_index_per_reader u;
       last_token := last_token u; wakers := wakers u; woken := woken u |}
  else u.

(** [take_with_token]; an unknown token panics. *)
Definition take_with_token token u : option (list U * UpdatesInner U) :=
  let u := garbage_collect u in
  match last_index_per_reader u !! token with
  | None => None
  | Some index =>
      Some (drop index (updates u),
        {| updates := updates u;
           last_index_per_reader := <[token := length (updates u)]> (last_index_per_reader u);
           last_token := last_token u; wakers := wakers u; woken := woken u |})
  end.

(** [take] of the main reader. *)
Definition take_main u : option (list U * UpdatesInner U) := take_with_token MAIN_READER_TOKEN u.

Definition is_reader_up_to_date token u : option bool :=
  (λ i, bool_decide (i = length (updates u))) <$> last_index_per_reader u !! token.

Definition new_reader_token u : ReaderToken * UpdatesInner U :=
  let token := S (last_token u) in
  (token,
   {| updates := updates u; last_index_per_reader := <[token := 0]> (last_index_per_reader u);
      last_token := token; wakers := wakers u; woken := woken u |}).

(** [Drop] of a subscriber whose updates are still alive. *)
Definition drop_reader token u : UpdatesInner U :=
  {| updates := updates u; last_index_per_reader := delete token (last_index_per_reader u);
     last_token := last_token u; wakers := wakers u; woken := woken u |}.

(** [poll_next] of a subscriber; the weak reference is dead when the updates have
    been dropped. *)
Definition poll_next token (waker : Waker) (weak : option (UpdatesInner U)) :
    option (Poll (option (list U)) * option (UpdatesInner U)) :=
  match weak with
  | None => Some (Ready None, None)
  | Some u =>
      match take_with_token token u with
      | None => None
      | Some ([], u) =>
          Some (Pending,
            Some {| updates := updates u; last_index_per_reader := last_index_per_reader u;
                    last_token := last_token u; wakers := wakers u ++ [waker]; woken := woken u |})
      | Some (the_updates, u) => Some (Ready (Some the_updates), Some u)
      end
  end.

End log.

(** ** One queue per reader *)

Section readers.
Context {U : Type}.
Implicit Types (u : UpdatesInner U) (token : ReaderToken).

(** No index is past the end, and no token is used before it is given. *)
Record updates_ok u : Prop := {
  indices_ok : map_Forall (λ _ i, i <= length (updates u)) (last_index_per_reader u);
  tokens_ok : map_Forall (λ token _, token <= last_token u) (last_index_per_reader u)
}.

(** What a reader has not read yet. *)
Definition pending u token : option (list U) :=
  (λ i, drop i (updates u)) <$> last_index_per_reader u !! token.

Lemma min_index_le m token i : m !! token = Some i → min_index m <= i.
Proof.
  intros Hi. unfold min_index. apply elem_of_map_to_list in Hi.
  assert (i ∈ (map_to_list m).*2) as Hin by (apply list_elem_of_fmap; by exists (token, i)).
  destruct ((map_to_list m).*2) as [|j js]; [by apply elem_of_nil in Hin|].
  clear Hi. apply elem_of_cons in Hin as [->|Hin].
  - clear. induction js; simpl; lia.
  - induction Hin; simpl; lia.
Qed.

Lemma pending_garbage_collect u token : pending (garbage_collect u) token = pending u token.
Proof.
  unfold pending, garbage_collect. destruct (Nat.ltb_spec 0 (min_index (last_index_per_reader u))); [|done].
  simpl. rewrite lookup_fmap. destruct (last_index_per_reader u !! token) as [i|] eqn:Hi; [|done].
  simpl. apply min_index_le in Hi. f_equal. rewrite drop_drop. f_equal. lia.
Qed.

Lemma garbage_collect_ok u : updates_ok u → updates_ok (garbage_collect u).
Proof.
  intros [Hi Ht]. unfold garbage_collect. destruct (0 <? _); [|by split].
  split; simpl; [|by apply map_Forall_fmap].
  apply map_Forall_fmap. intros token i Hl. simpl. rewrite length_drop. specialize (Hi token i Hl). simpl in Hi. lia.
Qed.

(** Taking gives a reader its queue, leaves it empty, and changes no other. *)
Lemma take_with_token_spec token u :
  updates_ok u →
  match take_with_token token u with
  | Some (xs, u') =>
      updates_ok u' ∧ pending u token = Some xs
      ∧ (∀ r, pending u' r = if decide (r = token) then Some [] else pending u r)
      ∧ wakers u' = wakers u ∧ woken u' = woken u
  | None => pending u token = None
  end.
Proof.
  intros Hu%garbage_collect_ok. unfold take_with_token.
  assert (wakers (garbage_collect u) = wakers u ∧ woken (garbage_collect u) = woken u) as [<- <-].
  { unfold garbage_collect. by destruct (0 <? _). }
  pose proof (pending_garbage_collect u) as Hp. rewrite <- Hp.
  set (v := garbage_collect u) in *. clearbody v.
  destruct (last_index_per_reader v !! token) as [i|] eqn:Hi; [|unfold pending; by rewrite Hi].
  destruct Hu as [Hidx Htok]. split_and!; try done.
  - split; simpl; (apply map_Forall_insert_2; [|done]); [done|exact (Htok token i Hi)].
  - unfold pending. by rewrite Hi.
  - intros r. rewrite <- Hp. unfold pending. simpl. destruct (decide (r = token)) as [->|Hr].
    + rewrite lookup_insert_eq. simpl. by rewrite drop_all.
    + by rewrite lookup_insert_ne.
Qed.

Lemma pending_push x u token : updates_ok u → pending (push x u) token = (λ xs, xs ++ [x]) <$> pending u token.
Proof.
  intros [Hi _]. unfold pending. simpl. destruct (last_index_per_reader u !! token) as [i|] eqn:Hl; [|done].
  simpl. rewrite drop_app_le; [done|exact (Hi token i Hl)].
Qed.

Lemma push_ok x u : updates_ok u → updates_ok (push x u).
Proof.
  intros [Hi Ht]. split; [|done]. simpl. eapply map_Forall_impl; [exact Hi|]. simpl. intros.
  rewrite length_app. simpl. lia.
Qed.

Lemma new_inner_ok : updates_ok (new_inner (U := U)).
Proof. split; apply map_Forall_singleton; simpl; lia. Qed.

Lemma new_reader_ok u : updates_ok u → updates_ok (new_reader_token u).2.
Proof.
  intros [Hi Ht]. split; simpl; apply map_Forall_insert_2; try lia; try done.
  eapply map_Forall_impl; [exact Ht|]. simpl. lia.
Qed.

(** ** Interleavings of readers *)

Inductive step :=
| Push (x : U)
| Take (token : ReaderToken)
| NewReader
| DropReader (token : ReaderToken)
| Collect
| Subscribe (token : ReaderToken) (waker : Waker).

(** A step and what it hands to the reader [me]. *)
Definition run_step (me : ReaderToken) (st : step) u : option (list U * UpdatesInner U) :=
  match st with
  | Push x => Some ([], push x u)
  | Take token =>
      (λ '(xs, u), (if decide (token = me) then xs else [], u)) <$> take_with_token token u
  | NewReader => Some ([], (new_reader_token u).2)
  | DropReader token => Some ([], drop_reader token u)
  | Collect => Some ([], garbage_collect u)
  | Subscribe token waker =>
      match poll_next token waker (Some u) with
      | Some (Ready (Some xs), Some u) => Some (if decide (token = me) then xs else [], u)
      | Some (_, Some u) => Some ([], u)
      | _ => None
      end
  end.

Fixpoint run_steps (me : ReaderToken) (sts : list step) u : option (list U * UpdatesInner U) :=
  match sts with
  | [] => Some ([], u)
  | st :: sts =>
      match run_step me st u with
      | None => None
      | Some (xs, u) => (λ '(ys, u), (xs ++ ys, u)) <$> run_steps me sts u
      end
  end.

Definition pushed (st : step) : list U := match st with Push x => [x] | _ => [] end.

Definition drops (me : ReaderToken) (st : step) : Prop := st = DropReader me.

Lemma run_step_reader me st u u' xs queue :
  updates_ok u → pending u me = Some queue → st ≠ DropReader me →
  run_step me st u = Some (xs, u') →
  updates_ok u' ∧ ∃ queue', pending u' me = Some queue' ∧ xs ++ queue' = queue ++ pushed st.
Proof.
  intros Hu Hq Hne Hst. destruct st as [x|token| |token| |token waker]; simpl in Hst; simplify_eq/=.
  - split; [by apply push_ok|]. rewrite pending_push, Hq by done. eauto.
  - pose proof (take_with_token_spec token u Hu) as Ht.
    destruct (take_with_token token u) as [[ys v]|]; simplify_eq/=.
    destruct Ht as (Hok & Hp & Hr & _). split; [done|]. rewrite Hr.
    repeat case_decide; simplify_eq; eexists; split; eauto; by rewrite app_nil_r.
  - rewrite app_nil_r. split; [by apply new_reader_ok|]. destruct Hu as [_ Ht].
    + exists queue. split; [|done]. rewrite <- Hq. unfold pending. simpl.
      rewrite lookup_insert_ne; [done|]. intros <-.
      unfold pending in Hq. destruct (last_index_per_reader u !! _) eqn:Hl; [|done].
      specialize (Ht _ _ Hl). simpl in Ht. lia.
  - rewrite app_nil_r. destruct Hu as [Hi Ht]. split; [split; simpl; by apply map_Forall_delete|].
    exists queue. split; [|done]. rewrite <- Hq. unfold pending. simpl.
    rewrite lookup_delete_ne by congruence. done.
  - rewrite app_nil_r. split; [by apply garbage_collect_ok|]. rewrite pending_garbage_collect. eauto.
  - pose proof (take_with_token_spec token u Hu) as Ht.
    destruct (take_with_token token u) as [[[|y ys] v]|]; simplify_eq/=;
      destruct Ht as (Hok & Hp & Hr & _).
    + split; [by destruct Hok|]. exists queue. rewrite app_nil_r. split; [|done].
      unfold pending in Hr |- *. simpl. rewrite Hr. unfold pending in Hp, Hq. case_decide; congruence.
    + split; [done|]. rewrite Hr. repeat case_decide; simplify_eq; eexists; split; eauto; by rewrite app_nil_r.
Qed.

Lemma run_steps_reader me sts u u' xs queue :
  updates_ok u → pending u me = Some queue → DropReader me ∉ sts →
  run_steps me sts u = Some (xs, u') →
  updates_ok u' ∧ ∃ queue', pending u' me = Some queue' ∧ xs ++ queue' = queue ++ (sts ≫= pushed).
Proof.
  revert u xs queue. induction sts as [|st sts IH]; intros u xs queue Hu Hq Hd Hrun; simpl in Hrun.
  - simplify_eq. split; [done|]. exists queue. by rewrite app_nil_r.
  - apply not_elem_of_cons in Hd as [Hne Hd].
    destruct (run_step me st u) as [[ys v]|] eqn:Hst; [|done].
    destruct (run_step_reader _ _ _ _ _ _ Hu Hq ltac:(done) Hst) as (Hv & q & Hqv & Heq).
    destruct (run_steps me sts v) as [[zs w]|] eqn:Hsts; simplify_eq/=.
    destruct (IH _ _ _ Hv Hqv Hd Hsts) as (Hw & q' & Hq' & Heq').
    split; [done|]. exists q'. split; [done|]. by rewrite <- app_assoc, Heq', app_assoc, Heq, <- app_assoc.
Qed.

End readers.

(** Every reader gets every update once and in order: whatever the other readers
    and the garbage collector do in between, what a reader takes, followed by what
    it has not taken yet, is what was pending for it followed by what has been
    pushed. *)
Theorem reader_gets_every_update {U} me sts (u u' : UpdatesInner U) taken queue :
  updates_ok u → pending u me = Some queue → DropReader me ∉ sts →
  run_steps me sts u = Some (taken, u') →
  ∃ queue', pending u' me = Some queue' ∧ taken ++ queue' = queue ++ (sts ≫= pushed).
Proof. intros. by eapply run_steps_reader. Qed.

Lemma reader_gets_every_update_witness :
  let u := (new_reader_token (new_inner (U := nat))).2 in
  let sts := [Push 1; Take 0; Push 2; Take 1; Push 3; Collect; Take 1; Push 4] in
  ∃ u', run_steps 1 sts u = Some ([1; 2; 3], u')
    ∧ ∃ queue', pending u' 1 = Some queue' ∧ [1; 2; 3] ++ queue' = [] ++ (sts ≫= pushed).
Proof.
  intros u sts.
  exists (match run_steps 1 sts u with Some (_, u') => u' | None => u end). split; [by_vm|].
  apply (reader_gets_every_update 1 sts u _ [1; 2; 3] []).
  - apply new_reader_ok, new_inner_ok.
  - by_vm.
  - subst sts. set_solver.
  - by_vm.
Defined.

(** A subscriber that finds nothing waits with its waker registered; the next
    update wakes it, and its next poll is ready with that update. *)
Theorem waiting_subscriber_is_woken {U} token waker waker' (u u' : UpdatesInner U) x :
  updates_ok u → poll_next token waker (Some u) = Some (Pending, Some u') →
  waker ∈ woken (push x u')
  ∧ ∃ u'', poll_next token waker' (Some (push x u')) = Some (Ready (Some [x]), Some u'').
Proof.
  intros Hu Hpoll. unfold poll_next in Hpoll. pose proof (take_with_token_spec token u Hu) as Ht.
  destruct (take_with_token token u) as [[[|y ys] v]|]; simplify_eq/=.
  destruct Ht as (Hv & _ & Hr & _). split; [set_solver|].
  set (w := push x _). assert (updates_ok w) as Hw by (apply push_ok; by destruct Hv).
  assert (pending w token = Some [x]) as Hq.
  { subst w. rewrite pending_push by (by destruct Hv). specialize (Hr token).
    rewrite decide_True in Hr by done. unfold pending in *. simpl. by rewrite Hr. }
  pose proof (take_with_token_spec token w Hw) as Ht.
  destruct (take_with_token token w) as [[zs w']|]; [|by rewrite Hq in Ht].
  destruct Ht as (_ & Hzs & _). rewrite Hq in Hzs. injection Hzs as <-. by eexists.
Qed.

Lemma waiting_subscriber_is_woken_witness :
  let u := (new_reader_token (new_inner (U := nat))).2 in
  ∃ u', poll_next 1 7 (Some u) = Some (Pending, Some u')
    ∧ (7 ∈ woken (push 42 u')
       ∧ ∃ u'', poll_next 1 8 (Some (push 42 u')) = Some (Ready (Some [42]), Some u'')).
Proof.
  intros u. exists (match poll_next 1 7 (Some u) with Some (_, Some u') => u' | _ => u end).
  split; [by_vm|]. apply (waiting_subscriber_is_woken 1 7 8 u).
  - apply new_reader_ok, new_inner_ok.
  - by_vm.
Defined.
