(* ===== verification/LinkedChunk.v ===== *)
(** * The linked chunk

    [crates/client-common/src/linked_chunk/mod.rs] and [lazy_loader.rs]: a doubly
    linked list of chunks, each a gap or a vector of at most [CAP] items, held by
    raw pointers.

    The chunks live in a heap; a pointer is an address of it.  Dereferencing or
    freeing an address that is not allocated is a [Panic], so that a theorem that
    an operation returns is also a theorem that it is memory safe.  An operation
    threads the state through a small monad whose errors keep the state, as the
    [&mut self] methods do. *)

From S2P Require Import Prelude Updates.

Abbreviation ptr := positive.

(** [u64::MAX] *)
Definition u64_max : Z := 2 ^ 64 - 1.

Inductive Error :=
| InvalidChunkIdentifier (identifier : ChunkIdentifier)
| ChunkIsAGap (identifier : ChunkIdentifier)
| ChunkIsItems (identifier : ChunkIdentifier)
| RemovingNonEmptyItemsChunk (identifier : ChunkIdentifier)
| RemovingLastChunk
| InvalidItemIndex (index : nat).

Inductive LazyLoaderError :=
| ChunkIsNotLast (id : ChunkIdentifier)
| Cycle (new_chunk with_chunk : ChunkIdentifier)
| MissingNextChunk (id : ChunkIdentifier)
| CannotConnectTwoChunks (new_chunk with_chunk : ChunkIdentifier)
| ChunkTooLarge (id : ChunkIdentifier)
| MissingLastChunk
| ChunkIsNotFirst (id : ChunkIdentifier)
| MultipleConnectedComponents.

Inductive ChunkContent (Item Gap : Type) :=
| GapContent (gap : Gap)
| Items (items : list Item).

Arguments GapContent {Item Gap} gap.
Arguments Items {Item Gap} items.

Record Chunk (Item Gap : Type) := {
  previous : option ptr;
  lazy_previous : option ChunkIdentifier;
  next : option ptr;
  identifier : ChunkIdentifier;
  content : ChunkContent Item Gap
}.

Arguments Build_Chunk {Item Gap} _ _ _ _ _.
Arguments previous {Item Gap} _.
Arguments lazy_previous {Item Gap} _.
Arguments next {Item Gap} _.
Arguments identifier {Item Gap} _.
Arguments content {Item Gap} _.

(** [RawChunk], as a store gives it. *)
Record RawChunk (Item Gap : Type) := {
  raw_content : ChunkContent Item Gap;
  raw_previous : option ChunkIdentifier;
  raw_identifier : ChunkIdentifier;
  raw_next : option ChunkIdentifier
}.

Arguments Build_RawChunk {Item Gap} _ _ _ _.
Arguments raw_content {Item Gap} _.
Arguments raw_previous {Item Gap} _.
Arguments raw_identifier {Item Gap} _.
Arguments raw_next {Item Gap} _.

(** [LinkedChunk] with its [Ends] and the heap of its chunks.  [updates] is [None]
    when the history is disabled; the pusher of [Ends] shares it. *)
Record LinkedChunk (Item Gap : Type) := {
  heap : gmap ptr (Chunk Item Gap);
  first : option ptr;
  last : option ptr;
  generator : Z;
  history : option (UpdatesInner (Update Item Gap))
}.

Arguments Build_LinkedChunk {Item Gap} _ _ _ _ _.
Arguments heap {Item Gap} _.
Arguments first {Item Gap} _.
Arguments last {Item Gap} _.
Arguments generator {Item Gap} _.
Arguments history {Item Gap} _.

(** ** The monad of the operations *)

Section monad.
Context {S E : Type}.

Definition M (A : Type) : Type := S → outcome Empty_set (result E A * S).

#[export] Instance M_ret : MRet M := λ A a s, Ret (Ok a, s).

#[export] Instance M_bind : MBind M := λ A B k m s,
  match m s with
  | Ret (Ok a, s) => k a s
  | Ret (Err e, s) => Ret (Err e, s)
  | Throw e => Throw e
  | Panic => Panic
  | OutOfFuel => OutOfFuel
  end.

Definition throw {A} (e : E) : M A := λ s, Ret (Err e, s).
Definition crash {A} : M A := λ _, Panic.
Definition starve {A} : M A := λ _, OutOfFuel.
Definition gets {A} (f : S → A) : M A := λ s, Ret (Ok (f s), s).
Definition modify (f : S → S) : M () := λ s, Ret (Ok (), f s).

Lemma bind_step {A B} (m : M A) (k : A → M B) s a s' :
  m s = Ret (Ok a, s') → (m ≫= k) s = k a s'.
Proof. unfold mbind, M_bind. by intros ->. Qed.

Lemma bind_ret_step {A B} (a : A) (k : A → M B) s : (mret a ≫= k) s = k a s.
Proof. done. Qed.

Lemma bind_assoc {A B C} (m : M A) (f : A → M B) (g : B → M C) s :
  ((m ≫= f) ≫= g) s = (m ≫= (λ a, f a ≫= g)) s.
Proof. unfold mbind, M_bind. by destruct (m s) as [[[]]| | |]. Qed.

Lemma bind_ret_r {A} (m : M A) s : (m ≫= mret) s = m s.
Proof. unfold mbind, M_bind. by destruct (m s) as [[[]]| | |]. Qed.

Lemma bind_err {A B} (m : M A) (k : A → M B) s e s' :
  m s = Ret (Err e, s') → (m ≫= k) s = Ret (Err e, s').
Proof. unfold mbind, M_bind. by intros ->. Qed.

Lemma bind_panic {A B} (m : M A) (k : A → M B) s :
  m s = Panic → (m ≫= k) s = Panic.
Proof. unfold mbind, M_bind. by intros ->. Qed.

End monad.

Arguments M : clear implicits.

Section linked_chunk.
Context {Item Gap : Type} (CAP : nat).
Abbreviation Chunk := (Chunk Item Gap).
Abbreviation LinkedChunk := (LinkedChunk Item Gap).
Abbreviation Update := (Update Item Gap).

Section primitives.
Context {E : Type}.
Abbreviation M := (M LinkedChunk E).

Definition set_heap (f : gmap ptr Chunk → gmap ptr Chunk) (s : LinkedChunk) : LinkedChunk :=
  {| heap := f (heap s); first := first s; last := last s; generator := generator s; history := history s |}.
Definition set_first (p : option ptr) (s : LinkedChunk) : LinkedChunk :=
  {| heap := heap s; first := p; last := last s; generator := generator s; history := history s |}.
Definition set_last (p : option ptr) (s : LinkedChunk) : LinkedChunk :=
  {| heap := heap s; first := first s; last := p; generator := generator s; history := history s |}.
Definition set_generator (g : Z) (s : LinkedChunk) : LinkedChunk :=
  {| heap := heap s; first := first s; last := last s; generator := g; history := history s |}.
Definition set_history (h : option (UpdatesInner Update)) (s : LinkedChunk) : LinkedChunk :=
  {| heap := heap s; first := first s; last := last s; generator := generator s; history := h |}.

(** [as_ref] and [as_mut] of a pointer *)
Definition deref (p : ptr) : M Chunk := λ s,
  match heap s !! p with Some c => Ret (Ok c, s) | None => Panic end.

Definition store (p : ptr) (f : Chunk → Chunk) : M () :=
  c ← deref p; modify (set_heap <[p := f c]>).

(** [Box::leak] and [Box::from_raw] *)
Definition alloc (c : Chunk) : M ptr := λ s,
  let p := fresh (dom (heap s)) in Ret (Ok p, set_heap <[p := c]> s).

Definition free (p : ptr) : M () :=
  _ ← deref p; modify (set_heap (delete p)).

(** [if let Some(updates) = self.updates.as_mut() { updates.push(u) }] *)
Definition push_update (u : Update) : M () :=
  modify (λ s, set_history (push u <$> history s) s).

(** [if let Some(updates) = updates { … }] around more than a push *)
Definition with_updates (m : M ()) : M () :=
  h ← gets history;
  match h with Some _ => m | None => mret () end.

(** ** Chunks *)

Definition set_previous (p : option ptr) (c : Chunk) : Chunk :=
  {| previous := p; lazy_previous := lazy_previous c; next := next c;
     identifier := identifier c; content := content c |}.
Definition set_lazy_previous (p : option ChunkIdentifier) (c : Chunk) : Chunk :=
  {| previous := previous c; lazy_previous := p; next := next c;
     identifier := identifier c; content := content c |}.
Definition set_next (p : option ptr) (c : Chunk) : Chunk :=
  {| previous := previous c; lazy_previous := lazy_previous c; next := p;
     identifier := identifier c; content := content c |}.
Definition set_content (x : ChunkContent Item Gap) (c : Chunk) : Chunk :=
  {| previous := previous c; lazy_previous := lazy_previous c; next := next c;
     identifier := identifier c; content := x |}.

Definition new_chunk (identifier : ChunkIdentifier) (content : ChunkContent Item Gap) : Chunk :=
  {| previous := None; lazy_previous := None; next := None;
     identifier := identifier; content := content |}.

Definition new_leaked (identifier : ChunkIdentifier) (content : ChunkContent Item Gap) : M ptr :=
  alloc (new_chunk identifier content).

Definition new_items_leaked (identifier : ChunkIdentifier) : M ptr :=
  new_leaked identifier (Items []).

Definition new_gap_leaked (identifier : ChunkIdentifier) (gap : Gap) : M ptr :=
  new_leaked identifier (GapContent gap).

Definition is_gap (c : Chunk) : bool := match content c with GapContent _ => true | Items _ => false end.
Definition is_items (c : Chunk) : bool := negb (is_gap c).
Definition is_first_chunk (c : Chunk) : bool := bool_decide (previous c = None).
Definition is_last_chunk (c : Chunk) : bool := bool_decide (next c = None).
Definition is_definitive_head (c : Chunk) : bool :=
  bool_decide (previous c = None) && bool_decide (lazy_previous c = None).

Definition first_position (c : Chunk) : Position :=
  {| chunk_identifier := identifier c; index := 0 |}.

Definition last_position (c : Chunk) : Position :=
  {| chunk_identifier := identifier c;
     index := match content c with GapContent _ => 0 | Items items => length items - 1 end |}.

Definition num_items (c : Chunk) : nat :=
  match content c with GapContent _ => 0 | Items items => length items end.

(** [self.previous().map(Chunk::identifier)] and the same for [next] *)
Definition deref_identifier (p : option ptr) : M (option ChunkIdentifier) :=
  match p with
  | None => mret None
  | Some p => c ← deref p; mret (Some (identifier c))
  end.

(** ** [ChunkIdentifierGenerator] *)

Definition FIRST_IDENTIFIER : ChunkIdentifier := 0.

(** [next]: [fetch_add] wraps, and the last identifier is never given *)
Definition next_identifier : M ChunkIdentifier := λ s,
  let previous := generator s in
  if (previous =? u64_max)%Z then Panic
  else Ret (Ok (previous + 1)%Z, set_generator (previous + 1) s).

(** ** Linking *)

(** The update for a chunk that has been linked. *)
Definition new_chunk_update (c : Chunk) (previous next : option ChunkIdentifier) : Update :=
  match content c with
  | GapContent gap => NewGapChunk previous (identifier c) next gap
  | Items _ => NewItemsChunk previous (identifier c) next
  end.

(** [Option::or] *)
Definition option_or {A} (a b : option A) : option A :=
  match a with Some x => Some x | None => b end.

Definition insert_next (self new : ptr) : M ptr :=
  c ← deref self;
  match next c with
  | Some n => store n (set_previous (Some new));; store new (set_next (Some n))
  | None => mret ()
  end;;
  store self (set_next (Some new));;
  store new (set_previous (Some self));;
  with_updates (
    c ← deref new;
    previous ← deref_identifier (previous c);
    next ← deref_identifier (next c);
    push_update (new_chunk_update c previous next));;
  mret new.

Definition insert_before (self new : ptr) : M ptr :=
  c ← deref self;
  match previous c with
  | Some p => store p (set_next (Some new));; store new (set_previous (Some p))
  | None =>
      store new (set_lazy_previous (lazy_previous c));;
      store self (set_lazy_previous None)
  end;;
  store self (set_previous (Some new));;
  store new (set_next (Some self));;
  with_updates (
    c ← deref new;
    previous ← deref_identifier (previous c);
    next ← deref_identifier (next c);
    push_update (new_chunk_update c (option_or previous (lazy_previous c)) next));;
  mret new.

Definition unlink (self : ptr) : M () :=
  c ← deref self;
  store self (set_lazy_previous None);;
  match previous c with Some p => store p (set_next (next c)) | None => mret () end;;
  match next c with
  | Some n =>
      store n (set_previous (previous c));;
      store n (set_lazy_previous (lazy_previous c))
  | None => mret ()
  end;;
  push_update (RemoveChunk (identifier c)).

(** [push_items]; [fuel] bounds the chunks it goes through. *)
Fixpoint push_items (fuel : nat) (self : ptr) (new_items : list Item) : M ptr :=
  match new_items with
  | [] => mret self
  | _ =>
      match fuel with
      | 0 => starve
      | Datatypes.S fuel =>
          c ← deref self;
          match content c with
          | GapContent _ =>
              id ← next_identifier;
              new ← new_items_leaked id;
              self ← insert_next self new;
              push_items fuel self new_items
          | Items items =>
              let free_space := CAP - length items in
              let start := {| chunk_identifier := identifier c; index := length items |} in
              if length new_items <=? free_space then
                store self (set_content (Items (items ++ new_items)));;
                push_update (PushItems start new_items);;
                mret self
              else
                (if 0 <? free_space then
                   store self (set_content (Items (items ++ take free_space new_items)));;
                   push_update (PushItems start (take free_space new_items))
                 else mret ());;
                id ← next_identifier;
                new ← new_items_leaked id;
                self ← insert_next self new;
                push_items fuel self (drop free_space new_items)
          end
      end
  end.

(** One chunk per item, and one more when the first chunk is a gap. *)
Definition push_all (self : ptr) (new_items : list Item) : M ptr :=
  push_items (Datatypes.S (Datatypes.S (length new_items))) self new_items.

(** ** [Ends] *)

Definition first_chunk_ptr : M ptr :=
  f ← gets first;
  match f with
  | Some p => mret p
  | None =>
      push_update (NewItemsChunk None FIRST_IDENTIFIER None);;
      p ← new_items_leaked FIRST_IDENTIFIER;
      modify (set_first (Some p));;
      mret p
  end.

Definition latest_chunk_ptr : M ptr :=
  l ← gets last;
  match l with Some p => mret p | None => first_chunk_ptr end.

(** The loop of [chunk] and [chunk_mut]: backwards along [previous]. *)
Fixpoint find_backwards (fuel : nat) (id : ChunkIdentifier) (p : ptr) : M (option ptr) :=
  match fuel with
  | 0 => starve
  | Datatypes.S fuel =>
      c ← deref p;
      if (identifier c =? id)%Z then mret (Some p)
      else match previous c with
           | None => mret None
           | Some q => find_backwards fuel id q
           end
  end.

Definition chunk_ptr (id : ChunkIdentifier) : M (option ptr) :=
  p ← latest_chunk_ptr;
  n ← gets (λ s, size (heap s));
  find_backwards n id p.

(** The loop of [Ends::clear]. *)
Fixpoint free_backwards (fuel : nat) (p : option ptr) : M () :=
  match p with
  | None => mret ()
  | Some p =>
      match fuel with
      | 0 => starve
      | Datatypes.S fuel =>
          c ← deref p;
          free p;;
          free_backwards fuel (previous c)
      end
  end.

Definition ends_clear : M () :=
  l ← gets last;
  f ← gets first;
  n ← gets (λ s, size (heap s));
  free_backwards n (match l with Some p => Some p | None => f end);;
  modify (set_first None);;
  modify (set_last None).

(** [Ends::replace_with] *)
Definition ends_replace_with (first_chunk : ptr) : M () :=
  ends_clear;;
  modify (set_first (Some first_chunk)).

(** After a push: [links.last] is the chunk, unless it is the first or not the
    last. *)
Definition update_last (p : ptr) : M () :=
  c ← deref p;
  if negb (is_first_chunk c) && is_last_chunk c then modify (set_last (Some p)) else mret ().

(** ** Iteration *)

(** [IterBackward] and [Iter], to the end *)
Fixpoint walk (next : Chunk → option ptr) (fuel : nat) (p : ptr) : M (list Chunk) :=
  match fuel with
  | 0 => starve
  | Datatypes.S fuel =>
      c ← deref p;
      match next c with
      | None => mret [c]
      | Some q => cs ← walk next fuel q; mret (c :: cs)
      end
  end.

Definition chunks_from_ptr (p : ptr) : M (list Chunk) := n ← gets (λ s, size (heap s)); walk next n p.
Definition rchunks_from_ptr (p : ptr) : M (list Chunk) := n ← gets (λ s, size (heap s)); walk previous n p.

Definition chunks : M (list Chunk) := p ← first_chunk_ptr; chunks_from_ptr p.
Definition rchunks : M (list Chunk) := p ← latest_chunk_ptr; rchunks_from_ptr p.
End primitives.

(** ** The operations of [LinkedChunk] *)

Definition new_linked_chunk : LinkedChunk :=
  {| heap := ∅; first := None; last := None; generator := FIRST_IDENTIFIER; history := None |}.

Definition new_with_update_history : LinkedChunk :=
  {| heap := ∅; first := None; last := None; generator := FIRST_IDENTIFIER; history := Some new_inner |}.

(** [updates.clear_pending(); updates.push(Update::Clear)] *)
Definition push_clear {E} : M LinkedChunk E () :=
  modify (λ s, set_history (push Clear ∘ clear_pending <$> history s) s).

Definition clear {E} : M LinkedChunk E () :=
  ends_clear;;
  modify (set_generator FIRST_IDENTIFIER);;
  push_clear.

Section operations.
Abbreviation M := (M LinkedChunk Error).

Definition push_items_back (items : list Item) : M () :=
  p ← latest_chunk_ptr;
  p ← push_all p items;
  c ← deref p;
  if negb (is_first_chunk c) then modify (set_last (Some p)) else mret ().

Definition push_gap_back (gap : Gap) : M () :=
  p ← latest_chunk_ptr;
  id ← next_identifier;
  new ← new_gap_leaked id gap;
  insert_next p new;;
  c ← deref p;
  modify (set_last (next c)).

(** [self.links.chunk_mut(id).ok_or(Error::InvalidChunkIdentifier { .. })?] *)
Definition chunk_mut (id : ChunkIdentifier) : M ptr :=
  p ← chunk_ptr id;
  match p with Some p => mret p | None => throw (InvalidChunkIdentifier id) end.

(** The items of a chunk that must not be a gap. *)
Definition items_mut (id : ChunkIdentifier) (c : Chunk) : M (list Item) :=
  match content c with GapContent _ => throw (ChunkIsAGap id) | Items items => mret items end.

Definition insert_items_at (position : Position) (items : list Item) : M () :=
  let chunk_identifier := chunk_identifier position in
  let item_index := index position in
  p ← chunk_mut chunk_identifier;
  c ← deref p;
  current_items ← items_mut chunk_identifier c;
  if length current_items <? item_index then throw (InvalidItemIndex item_index)
  else
    p ← (if item_index =? length current_items then push_all p items
         else
           push_update (DetachLastItems {| chunk_identifier := chunk_identifier; index := item_index |});;
           store p (set_content (Items (take item_index current_items)));;
           p ← push_all p items;
           push_update StartReattachItems;;
           p ← push_all p (drop item_index current_items);
           push_update EndReattachItems;;
           mret p);
    update_last p.

(** [Vec::remove] *)
Definition vec_remove {A} (i : nat) (l : list A) : list A := take i l ++ drop (S i) l.

Definition remove_item_at (position : Position) : M Item :=
  let chunk_identifier := chunk_identifier position in
  let item_index := index position in
  p ← chunk_mut chunk_identifier;
  c ← deref p;
  current_items ← items_mut chunk_identifier c;
  match current_items !! item_index with
  | None => throw (InvalidItemIndex item_index)
  | Some removed_item =>
      let current_items := vec_remove item_index current_items in
      store p (set_content (Items current_items));;
      push_update (RemoveItem {| chunk_identifier := chunk_identifier; index := item_index |});;
      (if bool_decide (length current_items = 0) && negb (is_first_chunk c) then
         unlink p;;
         (if is_last_chunk c then modify (set_last (previous c)) else mret ());;
         free p
       else mret ());;
      mret removed_item
  end.

Definition replace_item_at (position : Position) (item : Item) : M () :=
  let chunk_identifier := chunk_identifier position in
  let item_index := index position in
  p ← chunk_mut chunk_identifier;
  c ← deref p;
  current_items ← items_mut chunk_identifier c;
  if length current_items <=? item_index then throw (InvalidItemIndex item_index)
  else
    push_update (ReplaceItem {| chunk_identifier := chunk_identifier; index := item_index |} item);;
    store p (set_content (Items (<[item_index := item]> current_items))).

Definition insert_gap_at (gap : Gap) (position : Position) : M () :=
  let chunk_identifier := chunk_identifier position in
  let item_index := index position in
  p ← chunk_mut chunk_identifier;
  c ← deref p;
  current_items ← items_mut chunk_identifier c;
  if item_index =? 0 then
    let chunk_was_first := is_first_chunk c in
    let chunk_was_last := is_last_chunk c in
    id ← next_identifier;
    new ← new_gap_leaked id gap;
    new ← insert_before p new;
    if chunk_was_first then
      modify (set_first (Some new));;
      if chunk_was_last then modify (set_last (Some p)) else mret ()
    else mret ()
  else if length current_items <=? item_index then throw (InvalidItemIndex item_index)
  else
    push_update (DetachLastItems {| chunk_identifier := chunk_identifier; index := item_index |});;
    store p (set_content (Items (take item_index current_items)));;
    id ← next_identifier;
    new ← new_gap_leaked id gap;
    p ← insert_next p new;
    push_update StartReattachItems;;
    id ← next_identifier;
    new ← new_items_leaked id;
    p ← insert_next p new;
    p ← push_all p (drop item_index current_items);
    push_update EndReattachItems;;
    update_last p.

Definition remove_empty_chunk_at (chunk_identifier : ChunkIdentifier) : M (option Position) :=
  f ← first_chunk_ptr;
  f ← deref f;
  if is_last_chunk f then throw RemovingLastChunk
  else
    p ← chunk_mut chunk_identifier;
    c ← deref p;
    if 0 <? num_items c then throw (RemovingNonEmptyItemsChunk chunk_identifier)
    else
      position_of_next ← (match next c with
                          | None => mret None
                          | Some n => c ← deref n; mret (Some (first_position c))
                          end);
      unlink p;;
      (if is_first_chunk c then
         match next c with Some n => modify (set_first (Some n)) | None => mret () end
       else mret ());;
      (if is_last_chunk c then modify (set_last (previous c)) else mret ());;
      free p;;
      mret position_of_next.

(** [replace_gap_at]; the result is the new chunk. *)
Definition replace_gap_at (items : list Item) (chunk_identifier : ChunkIdentifier) : M Chunk :=
  p ← chunk_mut chunk_identifier;
  c ← deref p;
  if is_items c then throw (ChunkIsItems chunk_identifier)
  else
    let chunk_was_first := is_first_chunk c in
    id ← next_identifier;
    new ← new_items_leaked id;
    q ← insert_next p new;
    q ← push_all q items;
    last_inserted_chunk ← deref q;
    c ← deref p;
    match next c with
    | None => crash
    | Some new_chunk_ptr =>
        unlink p;;
        (if chunk_was_first then modify (set_first (Some new_chunk_ptr)) else mret ());;
        (if is_last_chunk last_inserted_chunk then modify (set_last (Some q)) else mret ());;
        free p;;
        deref new_chunk_ptr
    end.

(** ** Iteration from a chunk, and over the items *)

Definition chunks_from (id : ChunkIdentifier) : M (list Chunk) := p ← chunk_mut id; chunks_from_ptr p.
Definition rchunks_from (id : ChunkIdentifier) : M (list Chunk) := p ← chunk_mut id; rchunks_from_ptr p.

(** The items of a chunk with their positions. *)
Definition chunk_items (c : Chunk) : list (Position * Item) :=
  match content c with
  | GapContent _ => []
  | Items items => imap (λ i x, ({| chunk_identifier := identifier c; index := i |}, x)) items
  end.

Definition items : M (list (Position * Item)) :=
  cs ← chunks; mret (cs ≫= chunk_items).

Definition ritems : M (list (Position * Item)) :=
  cs ← rchunks; mret (cs ≫= λ c, reverse (chunk_items c)).

Definition items_from (position : Position) : M (list (Position * Item)) :=
  cs ← chunks_from (chunk_identifier position);
  mret (drop (index position) (cs ≫= chunk_items)).

(** [Iterator::skip_while] *)
Fixpoint skip_while {A} (f : A → bool) (l : list A) : list A :=
  match l with
  | [] => []
  | x :: l => if f x then skip_while f l else x :: l
  end.

Definition ritems_from (position : Position) : M (list (Position * Item)) :=
  cs ← rchunks_from (chunk_identifier position);
  mret (skip_while
    (λ '(p, _), (chunk_identifier p =? chunk_identifier position)%Z && negb (index p =? index position))
    (cs ≫= λ c, reverse (chunk_items c))).

Definition num_all_items : M nat := l ← items; mret (length l).

(** [chunk_identifier] and [item_position]: searches backwards *)
Definition find_chunk_identifier (predicate : Chunk → bool) : M (option ChunkIdentifier) :=
  cs ← rchunks; mret (identifier <$> head (filter predicate cs)).

Definition item_position (predicate : Item → bool) : M (option Position) :=
  l ← ritems; mret (fst <$> head (filter (λ x, predicate x.2) l)).

End operations.

(** ** Lazy loading *)

Section lazy.
Abbreviation M := (M LinkedChunk LazyLoaderError).

Definition too_large (c : ChunkContent Item Gap) : bool :=
  match c with Items items => CAP <? length items | GapContent _ => false end.

(** [from_last_chunk]; the linked chunk it builds has a history. *)
Definition from_last_chunk (chunk : option (RawChunk Item Gap)) (gen : Z) :
    result LazyLoaderError (option LinkedChunk) :=
  match chunk with
  | None => Ok None
  | Some chunk =>
      if too_large (raw_content chunk) then Err (ChunkTooLarge (raw_identifier chunk))
      else if bool_decide (raw_next chunk ≠ None) then Err (ChunkIsNotLast (raw_identifier chunk))
      else
        let c := set_lazy_previous (raw_previous chunk)
                   (new_chunk (raw_identifier chunk) (raw_content chunk)) in
        Ok (Some {| heap := {[ 1%positive := c ]}; first := Some 1%positive; last := None;
                    generator := gen; history := Some new_inner |})
  end.

(** [emit_new_first_chunk_updates] *)
Definition emit_new_first_chunk_updates (p : ptr) : M () :=
  with_updates (
    c ← deref p;
    previous ← deref_identifier (previous c);
    let previous := option_or previous (lazy_previous c) in
    next ← deref_identifier (next c);
    match content c with
    | GapContent gap => push_update (NewGapChunk previous (identifier c) next gap)
    | Items items =>
        push_update (NewItemsChunk previous (identifier c) next);;
        push_update (PushItems (first_position c) items)
    end).

Definition any_chunk (f : Chunk → bool) : M bool :=
  cs ← chunks; mret (existsb f cs).

Definition insert_new_first_chunk (new_first_chunk : RawChunk Item Gap) : M () :=
  let new_id := raw_identifier new_first_chunk in
  if too_large (raw_content new_first_chunk) then throw (ChunkTooLarge new_id)
  else
    cycle ← (match raw_previous new_first_chunk with
             | None => mret false
             | Some previous_chunk => any_chunk (λ c, (identifier c =? previous_chunk)%Z)
             end);
    if (cycle : bool) then throw (Cycle new_id (default 0%Z (raw_previous new_first_chunk)))
    else
      f ← first_chunk_ptr;
      first_chunk ← deref f;
      match raw_next new_first_chunk with
      | None => throw (MissingNextChunk new_id)
      | Some next_chunk =>
          if negb (next_chunk =? identifier first_chunk)%Z then
            throw (CannotConnectTwoChunks new_id (identifier first_chunk))
          else if bool_decide (lazy_previous first_chunk ≠ Some new_id) then
            throw (CannotConnectTwoChunks (identifier first_chunk) new_id)
          else
            new ← new_leaked new_id (raw_content new_first_chunk);
            store f (set_lazy_previous None);;
            store new (set_lazy_previous (raw_previous new_first_chunk));;
            store f (set_previous (Some new));;
            modify (set_first (Some new));;
            store new (set_next (Some f));;
            l ← gets last;
            match l with None => modify (set_last (Some f)) | Some _ => mret () end;;
            emit_new_first_chunk_updates new
      end.

(** [replace_with] *)
Definition replace_with (chunk : option (RawChunk Item Gap)) (gen : Z) : M () :=
  match chunk with
  | None => clear
  | Some chunk =>
      if too_large (raw_content chunk) then throw (ChunkTooLarge (raw_identifier chunk))
      else if bool_decide (raw_next chunk ≠ None) then throw (ChunkIsNotLast (raw_identifier chunk))
      else
        modify (set_generator gen);;
        p ← new_leaked (raw_identifier chunk) (raw_content chunk);
        store p (set_lazy_previous (raw_previous chunk));;
        ends_replace_with p;;
        push_clear;;
        emit_new_first_chunk_updates p
  end.

End lazy.
End linked_chunk.
