(* ===== verification/LinkedHeap.v ===== *)
(** * The heap of a linked chunk

    The chunks that hang together in a heap, as a list of nodes, and what the
    pointer operations of [LinkedChunk.v] do to it: each of them runs without a
    dangling pointer and turns the list of nodes into another. *)

From S2P Require Import Prelude Updates LinkedChunk.

(** Runs one step of a bind whose first computation is known. *)
Ltac run_step H := rewrite (bind_step _ _ _ _ _ H).

(** The last element that satisfies a test, with what is before and behind it. *)
Fixpoint split_last {A} (f : A → bool) (l : list A) : option (list A * A * list A) :=
  match l with
  | [] => None
  | x :: l =>
      match split_last f l with
      | Some (l1, y, l2) => Some (x :: l1, y, l2)
      | None => if f x then Some ([], x, l) else None
      end
  end.

Lemma split_last_snoc {A} (f : A → bool) l x :
  split_last f (l ++ [x])
  = if f x then Some (l, x, []) else (λ '(l1, y, l2), (l1, y, l2 ++ [x])) <$> split_last f l.
Proof.
  induction l as [|y l IH]; simpl; [by destruct (f x)|]. rewrite IH.
  destruct (f x); [done|]. destruct (split_last f l) as [[[? ?] ?]|]; [done|]. by destruct (f y).
Qed.

Lemma split_last_Some {A} (f : A → bool) l l1 x l2 :
  split_last f l = Some (l1, x, l2) → l = l1 ++ x :: l2 ∧ f x = true.
Proof.
  revert l1. induction l as [|y l IH]; intros l1; simpl; [done|].
  destruct (split_last f l) as [[[l1' ?] ?]|] eqn:Hl.
  - intros [= <- <- <-]. destruct (IH _ eq_refl) as [-> ?]. done.
  - destruct (f y) eqn:Hy; [|done]. by intros [= <- <- <-].
Qed.

Lemma split_last_fmap {A B} (g : A → B) (f : B → bool) (l : list A) :
  split_last f (g <$> l)
  = option_map (λ x : list A * A * list A, (g <$> x.1.1, g x.1.2, g <$> x.2)) (split_last (f ∘ g) l).
Proof.
  induction l as [|y l IH]; [done|]. csimpl. rewrite IH.
  destruct (split_last (f ∘ g) l) as [[[? ?] ?]|]; [done|]. simpl. by destruct (f (g y)).
Qed.

Section heap.
Context {Item Gap : Type} {E : Type}.
Abbreviation Content := (ChunkContent Item Gap).
Abbreviation Chunk := (Chunk Item Gap).
Abbreviation LinkedChunk := (LinkedChunk Item Gap).
Abbreviation node := (ptr * (ChunkIdentifier * Content))%type.
Abbreviation M := (M LinkedChunk E).
Implicit Types (h : gmap ptr Chunk) (s : LinkedChunk) (n : node) (ns : list node) (lz : option ChunkIdentifier).

(** A node with its links. *)
Definition as_chunk (prev : option ptr) lz (nxt : option ptr) n : Chunk :=
  {| previous := prev; lazy_previous := lz; next := nxt; identifier := n.2.1; content := n.2.2 |}.

Definition head_ptr ns (nxt : option ptr) : option ptr :=
  match ns with [] => nxt | n :: _ => Some n.1 end.

Definition last_ptr (prev : option ptr) ns : option ptr :=
  match list.last ns with Some n => Some n.1 | None => prev end.

Definition lazy_behind lz ns : option ChunkIdentifier :=
  match ns with [] => lz | _ => None end.

(** The nodes [ns] are linked in [h], between [prev] and [nxt]; the identifier of
    a chunk that is not loaded is on the first one. *)
Fixpoint seg h (prev : option ptr) lz ns (nxt : option ptr) : Prop :=
  match ns with
  | [] => True
  | n :: ns =>
      h !! n.1 = Some (as_chunk prev lz (head_ptr ns nxt) n) ∧ seg h (Some n.1) None ns nxt
  end.

Lemma head_ptr_app ns1 ns2 nxt : head_ptr (ns1 ++ ns2) nxt = head_ptr ns1 (head_ptr ns2 nxt).
Proof. by destruct ns1. Qed.

Lemma last_ptr_cons prev n ns : last_ptr prev (n :: ns) = last_ptr (Some n.1) ns.
Proof. unfold last_ptr. rewrite last_cons. by destruct (list.last ns). Qed.

Lemma last_ptr_app prev ns1 ns2 : last_ptr prev (ns1 ++ ns2) = last_ptr (last_ptr prev ns1) ns2.
Proof. unfold last_ptr. rewrite last_app. by destruct (list.last ns2). Qed.

Lemma seg_app h prev lz ns1 ns2 nxt :
  seg h prev lz (ns1 ++ ns2) nxt
  ↔ seg h prev lz ns1 (head_ptr ns2 nxt) ∧ seg h (last_ptr prev ns1) (lazy_behind lz ns1) ns2 nxt.
Proof.
  revert prev lz. induction ns1 as [|n ns1 IH]; intros prev lz; simpl; [tauto|].
  rewrite IH, head_ptr_app, last_ptr_cons. destruct ns1; simpl; tauto.
Qed.

Lemma seg_frame h h' prev lz ns nxt :
  (∀ p, p ∈ ns.*1 → h' !! p = h !! p) → seg h prev lz ns nxt → seg h' prev lz ns nxt.
Proof.
  revert prev lz. induction ns as [|n ns IH]; intros prev lz Hf; [done|]. simpl.
  intros [Hn Hns]. split.
  - rewrite Hf; [done|]. rewrite fmap_cons. by left.
  - apply IH; [|done]. intros p Hp. apply Hf. rewrite fmap_cons. by right.
Qed.

(** A heap that holds exactly the nodes. *)
Record heap_ok s lz ns : Prop := {
  ok_seg : seg (heap s) None lz ns None;
  ok_dom : dom (heap s) = list_to_set ns.*1;
  ok_nodup : NoDup ns.*1
}.

(** The same with one more chunk, which is not linked. *)
Record heap_plus s lz ns (p : ptr) (c : Chunk) : Prop := {
  plus_seg : seg (heap s) None lz ns None;
  plus_new : heap s !! p = Some c;
  plus_dom : dom (heap s) = list_to_set (p :: ns.*1);
  plus_nodup : NoDup (p :: ns.*1)
}.

(** States that differ in the heap only, up to updates [us] of the history. *)
Record steps_to s s' (us : list (Update Item Gap)) : Prop := {
  same_first : first s' = first s;
  same_last : last s' = last s;
  same_generator : generator s' = generator s;
  more_history : history s' = (λ u, foldl (λ u x, push x u) u us) <$> history s
}.

Lemma steps_to_refl s : steps_to s s [].
Proof. split; try done. simpl. by destruct (history s). Qed.

Lemma steps_to_trans s1 s2 s3 us us' :
  steps_to s1 s2 us → steps_to s2 s3 us' → steps_to s1 s3 (us ++ us').
Proof.
  intros [] []. split; try congruence. rewrite more_history1, more_history0, <- option_fmap_compose.
  destruct (history s1); simpl; [|done]. by rewrite foldl_app.
Qed.

Lemma new_leaked_ok s lz ns id ct :
  heap_ok s lz ns →
  ∃ p s', new_leaked (E := E) id ct s = Ret (Ok p, s') ∧ heap_plus s' lz ns p (new_chunk id ct) ∧ steps_to s s' [].
Proof.
  intros [Hseg Hdom Hnd]. set (p := fresh (dom (heap s))).
  assert (p ∉ ns.*1) as Hp.
  { intros Hp. apply (is_fresh (dom (heap s))). rewrite Hdom at 2. by apply elem_of_list_to_set. }
  exists p, (set_heap <[p := new_chunk id ct]> s). split; [done|]. split; [|by split; simpl; destruct (history s)].
  split; simpl.
  - eapply seg_frame; [|exact Hseg]. intros q Hq. rewrite lookup_insert_ne; [done|]. by intros <-.
  - by rewrite lookup_insert_eq.
  - rewrite dom_insert_L, Hdom. done.
  - by constructor.
Qed.

Lemma deref_ok s p c : heap s !! p = Some c → deref (E := E) p s = Ret (Ok c, s).
Proof. intros Hp. unfold deref. by rewrite Hp. Qed.

Lemma store_ok s p c f :
  heap s !! p = Some c → store (E := E) p f s = Ret (Ok (), set_heap <[p := f c]> s).
Proof. intros Hp. unfold store. by rewrite (bind_step _ _ _ _ _ (deref_ok _ _ _ Hp)). Qed.

Lemma free_ok s p c : heap s !! p = Some c → free (E := E) p s = Ret (Ok (), set_heap (delete p) s).
Proof. intros Hp. unfold free. by rewrite (bind_step _ _ _ _ _ (deref_ok _ _ _ Hp)). Qed.

(** A node in the middle, with its neighbours. *)
Lemma seg_lookup h prev lz ns1 n ns2 nxt :
  seg h prev lz (ns1 ++ n :: ns2) nxt →
  h !! n.1 = Some (as_chunk (last_ptr prev ns1) (lazy_behind lz ns1) (head_ptr ns2 nxt) n).
Proof. rewrite seg_app. simpl. tauto. Qed.

Lemma deref_identifier_ok s p c :
  heap s !! p = Some c → deref_identifier (E := E) (Some p) s = Ret (Ok (Some (identifier c)), s).
Proof. intros Hp. unfold deref_identifier. by rewrite (bind_step _ _ _ _ _ (deref_ok _ _ _ Hp)). Qed.

Lemma with_updates_push s (m : M ()) u :
  m s = push_update u s → with_updates m s = push_update u s.
Proof.
  intros Hm. unfold with_updates, mbind, M_bind, gets. destruct (history s) eqn:Hh; [done|].
  unfold push_update, modify. rewrite Hh. unfold mret, M_ret. destruct s. simpl in *. by subst.
Qed.

Lemma push_update_step {B} u (k : () → M B) s :
  (push_update u ≫= k) s = k () (set_history (push u <$> history s) s).
Proof. done. Qed.

End heap.

(** Looks an address up in a heap that is known up to insertions. *)
Ltac heap_lookup := cbn; simplify_map_eq; done.

(** Runs a bind that starts with a pointer operation. *)
Ltac heap_step :=
  match goal with
  | |- context [(deref ?p ≫= _) ?s] =>
      erewrite (bind_step (deref p)); [|apply deref_ok; heap_lookup]
  | |- context [(store ?p ?f ≫= _) ?s] =>
      erewrite (bind_step (store p f)); [|apply store_ok; heap_lookup]
  | |- context [(deref_identifier (Some ?p) ≫= _) ?s] =>
      erewrite (bind_step (deref_identifier (Some p))); [|apply deref_identifier_ok; heap_lookup]
  end.

(** The domain of a heap whose chunks have been stored to. *)
Ltac heap_dom := rewrite !dom_insert_lookup_L by (simplify_map_eq; eauto).

Section links.
Context {Item Gap : Type} {E : Type}.
Abbreviation Content := (ChunkContent Item Gap).
Abbreviation Chunk := (Chunk Item Gap).
Abbreviation LinkedChunk := (LinkedChunk Item Gap).
Abbreviation node := (ptr * (ChunkIdentifier * Content))%type.
Abbreviation M := (M LinkedChunk E).
Implicit Types (h : gmap ptr Chunk) (s : LinkedChunk) (n : node) (ns : list node) (lz : option ChunkIdentifier).

(** A node apart from its neighbours. *)
Lemma nodup_middle ns1 n ns2 :
  NoDup (ns1 ++ n :: ns2).*1 ↔
  NoDup ns1.*1 ∧ NoDup ns2.*1 ∧ n.1 ∉ ns1.*1 ∧ n.1 ∉ ns2.*1 ∧ (∀ q, q ∈ ns1.*1 → q ∉ ns2.*1).
Proof.
  rewrite fmap_app, fmap_cons, NoDup_app, NoDup_cons. setoid_rewrite not_elem_of_cons.
  split.
  - intros (H1 & H2 & H3 & H4). split_and!; try done; [|naive_solver]. intros Hn. naive_solver.
  - intros (H1 & H2 & H3 & H4 & H5). split_and!; try done. intros q Hq. split; [|auto]. by intros ->.
Qed.

Lemma insert_perm ns1 n ns2 p x : (ns1 ++ n :: (p, x) :: ns2).*1 ≡ₚ p :: (ns1 ++ n :: ns2).*1.
Proof.
  rewrite !fmap_app, !fmap_cons. cbn [fst]. rewrite (Permutation_swap p), <- Permutation_middle. done.
Qed.

(** The update about a chunk that has just been linked. *)
Lemma announce_ok s p c pid nid (f : Chunk → option ChunkIdentifier → option ChunkIdentifier) :
  heap s !! p = Some c →
  deref_identifier (E := E) (previous c) s = Ret (Ok pid, s) →
  deref_identifier (E := E) (next c) s = Ret (Ok nid, s) →
  with_updates (E := E) (
    c ← deref p;
    previous ← deref_identifier (previous c);
    next ← deref_identifier (next c);
    push_update (new_chunk_update c (f c previous) next)) s
  = push_update (new_chunk_update c (f c pid) nid) s.
Proof.
  intros Hp Hprev Hnext. apply with_updates_push. run_step (deref_ok (E := E) _ _ _ Hp).
  by run_step Hprev; run_step Hnext.
Qed.

Lemma insert_next_ok s lz ns1 n ns2 p id ct :
  heap_plus s lz (ns1 ++ n :: ns2) p (new_chunk id ct) →
  ∃ s', insert_next (E := E) n.1 p s = Ret (Ok p, s')
    ∧ heap_ok s' lz (ns1 ++ n :: (p, (id, ct)) :: ns2)
    ∧ steps_to s s' [new_chunk_update (new_chunk id ct) (Some n.2.1) (fst ∘ snd <$> head ns2)].
Proof.
  intros [Hseg Hp Hdom Hnd]. pose proof (seg_lookup _ _ _ _ _ _ _ Hseg) as Hn.
  apply seg_app in Hseg as [Hseg1 [_ Hseg2]]. apply NoDup_cons in Hnd as [Hpnot Hnd]. pose proof Hpnot as Hpnot'.
  rewrite fmap_app, fmap_cons, not_elem_of_app, not_elem_of_cons in Hpnot. destruct Hpnot as (Hp1 & Hpn & Hp2).
  pose proof Hnd as (Hnd1 & Hnd2 & Hn1 & Hn2 & Hdisj)%nodup_middle.
  unfold insert_next. heap_step. cbn [next as_chunk].
  destruct ns2 as [|b ns2]; cbn [head_ptr].
  - rewrite bind_ret_step. do 2 heap_step. erewrite bind_step; cycle 1.
    { eapply (announce_ok _ _ _ _ _ (λ _ i, i)); [heap_lookup|apply deref_identifier_ok; heap_lookup|done]. }
    eexists. split; [done|]. split; [|by split].
    split; [apply seg_app; split|cbn; heap_dom; by rewrite insert_perm|by rewrite insert_perm; constructor].
    + eapply seg_frame; [|exact Hseg1]. intros q Hq. cbn. by rewrite !lookup_insert_ne by (by intros <-).
    + cbn. by simplify_map_eq.
  - destruct Hseg2 as [Hb Hseg2]. rewrite fmap_cons in Hp2, Hn2, Hnd2, Hdisj.
    apply not_elem_of_cons in Hp2 as [Hpb Hp2], Hn2 as [Hnb Hn2]. apply NoDup_cons in Hnd2 as [Hb2 Hnd2].
    assert (b.1 ∉ ns1.*1) as Hb1 by (intros Hq; apply (Hdisj _ Hq); by left).
    rewrite bind_assoc. do 4 heap_step. erewrite bind_step; cycle 1.
    { eapply (announce_ok _ _ _ _ _ (λ _ i, i));
        [heap_lookup|apply deref_identifier_ok; heap_lookup|apply deref_identifier_ok; heap_lookup]. }
    eexists. split; [done|]. split; [|by split].
    split; [apply seg_app; split|cbn; heap_dom; by rewrite insert_perm|by rewrite insert_perm; constructor].
    + eapply seg_frame; [|exact Hseg1]. intros q Hq. cbn. by rewrite !lookup_insert_ne by (by intros <-).
    + cbn. simplify_map_eq. split_and!; [done..|].
      eapply seg_frame; [|exact Hseg2]. intros q Hq. by rewrite !lookup_insert_ne by (by intros <-).
Qed.

Lemma insert_before_ok s lz ns1 n ns2 p id ct :
  heap_plus s lz (ns1 ++ n :: ns2) p (new_chunk id ct) →
  ∃ s', insert_before (E := E) n.1 p s = Ret (Ok p, s')
    ∧ heap_ok s' lz (ns1 ++ (p, (id, ct)) :: n :: ns2)
    ∧ steps_to s s' [new_chunk_update (new_chunk id ct)
                       (option_or (fst ∘ snd <$> list.last ns1) lz) (Some n.2.1)].
Proof.
  intros [Hseg Hp Hdom Hnd]. pose proof (seg_lookup _ _ _ _ _ _ _ Hseg) as Hn.
  apply NoDup_cons in Hnd as [Hpnot Hnd]. pose proof Hpnot as Hpnot'.
  rewrite fmap_app, fmap_cons, not_elem_of_app, not_elem_of_cons in Hpnot'. destruct Hpnot' as (Hp1 & Hpn & Hp2).
  pose proof Hnd as (Hnd1 & Hnd2 & Hn1 & Hn2 & Hdisj)%nodup_middle.
  assert (NoDup (ns1 ++ (p, (id, ct)) :: n :: ns2).*1 ∧
    list_to_set (p :: (ns1 ++ n :: ns2).*1) =@{gset ptr} list_to_set (ns1 ++ (p, (id, ct)) :: n :: ns2).*1) as [Hnd' Hdom'].
  { assert ((ns1 ++ (p, (id, ct)) :: n :: ns2).*1 ≡ₚ p :: (ns1 ++ n :: ns2).*1) as ->.
    { rewrite !fmap_app, !fmap_cons. cbn [fst]. by rewrite <- Permutation_middle. }
    by split; [constructor|]. }
  rewrite Hdom' in Hdom. clear Hdom'. apply seg_app in Hseg as [Hseg1 [_ Hseg2]].
  unfold insert_before. heap_step. cbn [previous lazy_previous as_chunk].
  destruct ns1 as [|a ns1 _] using rev_ind; cbn [last_ptr].
  - cbn. rewrite bind_assoc. do 4 heap_step. erewrite bind_step; cycle 1.
    { eapply (announce_ok _ _ _ _ _ (λ c i, option_or i (lazy_previous c)));
        [heap_lookup|done|apply deref_identifier_ok; heap_lookup]. }
    eexists. split; [done|]. split; [|by split].
    split; [|cbn; heap_dom; exact Hdom|exact Hnd'].
    cbn. simplify_map_eq. split_and!; [done..|].
    eapply seg_frame; [|exact Hseg2]. intros q Hq. by rewrite !lookup_insert_ne by (by intros <-).
  - rewrite last_ptr_app in *. cbn [last_ptr list.last] in *. rewrite fmap_app in Hp1, Hn1, Hnd1, Hdisj. cbn in Hp1, Hn1, Hnd1, Hdisj.
    rewrite not_elem_of_app, list_elem_of_singleton in Hp1, Hn1. destruct Hp1 as [Hp1 Hpa], Hn1 as [Hn1 Hna].
    apply NoDup_app in Hnd1 as (Hnd1 & Ha1 & _).
    assert (a.1 ∉ ns2.*1) as Ha2 by (apply Hdisj, elem_of_app; right; by apply list_elem_of_singleton).
    assert (a.1 ∉ ns1.*1) as Ha1' by (intros Hq; apply (Ha1 _ Hq), list_elem_of_singleton; done).
    pose proof (seg_lookup _ _ _ _ _ _ _ Hseg1) as Ha. apply seg_app in Hseg1 as [Hseg1 _].
    rewrite bind_assoc. do 4 heap_step. erewrite bind_step; cycle 1.
    { eapply (announce_ok _ _ _ _ _ (λ c i, option_or i (lazy_previous c)));
        [heap_lookup|apply deref_identifier_ok; heap_lookup|apply deref_identifier_ok; heap_lookup]. }
    eexists. split; [done|]. split; [|split; try done; by rewrite last_snoc].
    split; [|cbn; heap_dom; exact Hdom|exact Hnd'].
    rewrite <- app_assoc. apply seg_app. cbn. simplify_map_eq. split_and!.
    + eapply seg_frame; [|exact Hseg1]. intros q Hq. by rewrite !lookup_insert_ne by (by intros <-).
    + by destruct ns1.
    + by destruct ns1.
    + by destruct ns1.
    + eapply seg_frame; [|exact Hseg2]. intros q Hq. by rewrite !lookup_insert_ne by (by intros <-).
Qed.

(** The last node of a list linked to another node behind it. *)
Lemma relink_last h prev lz ns a nxt nxt' :
  NoDup (ns ++ [a]).*1 → seg h prev lz (ns ++ [a]) nxt →
  seg (<[a.1 := as_chunk (last_ptr prev ns) (lazy_behind lz ns) nxt' a]> h) prev lz (ns ++ [a]) nxt'.
Proof.
  intros Hnd Hseg. apply nodup_middle in Hnd as (_ & _ & Ha & _).
  apply seg_app in Hseg as [Hseg _]. apply seg_app. cbn. rewrite lookup_insert_eq. split_and!; try done.
  eapply seg_frame; [|exact Hseg]. intros q Hq. by rewrite lookup_insert_ne by (by intros <-).
Qed.

(** The first node of a list linked to another node before it. *)
Lemma relink_first h prev prev' lz lz' b ns nxt :
  b.1 ∉ ns.*1 → seg h prev lz (b :: ns) nxt →
  seg (<[b.1 := as_chunk prev' lz' (head_ptr ns nxt) b]> h) prev' lz' (b :: ns) nxt.
Proof.
  intros Hb [_ Hseg]. cbn. rewrite lookup_insert_eq. split; [done|].
  eapply seg_frame; [|exact Hseg]. intros q Hq. by rewrite lookup_insert_ne by (by intros <-).
Qed.

(** A change outside a segment. *)
Lemma seg_insert_out h prev lz ns nxt p c :
  p ∉ ns.*1 → seg h prev lz ns nxt → seg (<[p := c]> h) prev lz ns nxt.
Proof. intros Hp. apply seg_frame. intros q Hq. by rewrite lookup_insert_ne by (by intros <-). Qed.

Lemma remove_perm ns1 n ns2 : n.1 :: (ns1 ++ ns2).*1 ≡ₚ (ns1 ++ n :: ns2).*1.
Proof. rewrite !fmap_app, fmap_cons. apply Permutation_middle. Qed.

(** Linking the last node of [ns] to [nxt']. *)
Lemma store_next_ok s lz ns nxt nxt' :
  NoDup ns.*1 → seg (heap s) None lz ns nxt →
  ∃ s', (match last_ptr None ns with Some p => store (E := E) p (set_next nxt') | None => mret () end) s
      = Ret (Ok (), s')
    ∧ seg (heap s') None lz ns nxt' ∧ (∀ p, p ∉ ns.*1 → heap s' !! p = heap s !! p)
    ∧ dom (heap s') = dom (heap s) ∧ steps_to s s' [].
Proof.
  intros Hnd Hseg. destruct ns as [|a ns _] using rev_ind; [by exists s; split_and!; eauto using steps_to_refl|].
  rewrite last_ptr_app. cbn [last_ptr list.last]. pose proof (seg_lookup _ _ _ _ _ _ _ Hseg) as Ha.
  eexists. split; [by eapply store_ok|]. split_and!.
  - by eapply (relink_last _ _ _ _ _ _ nxt').
  - intros p Hp. cbn. rewrite lookup_insert_ne; [done|]. intros <-. apply Hp.
    rewrite fmap_app. apply elem_of_app. right. by apply list_elem_of_singleton.
  - cbn. by rewrite dom_insert_lookup_L by eauto.
  - by split; cbn; destruct (history s).
Qed.

(** Linking the first node of [ns] to [prev']. *)
Lemma store_previous_ok s prev prev' lz ns :
  NoDup ns.*1 → seg (heap s) prev None ns None →
  ∃ s', (match head_ptr ns None with
         | Some p => store (E := E) p (set_previous prev');; store p (set_lazy_previous lz)
         | None => mret ()
         end) s = Ret (Ok (), s')
    ∧ seg (heap s') prev' lz ns None ∧ (∀ p, p ∉ ns.*1 → heap s' !! p = heap s !! p)
    ∧ dom (heap s') = dom (heap s) ∧ steps_to s s' [].
Proof.
  intros Hnd Hseg. destruct ns as [|b ns]; [by exists s; split_and!; eauto using steps_to_refl|].
  cbn [head_ptr]. destruct Hseg as [Hb Hseg]. apply NoDup_cons in Hnd as [Hbn Hnd].
  eexists. split; [heap_step; eapply store_ok; heap_lookup|]. cbn. rewrite insert_insert_eq. split_and!.
  - by apply lookup_insert_eq.
  - by apply seg_insert_out.
  - intros p Hp. rewrite lookup_insert_ne; [done|]. intros <-. apply Hp. by left.
  - by rewrite dom_insert_lookup_L by eauto.
  - by split; cbn; destruct (history s).
Qed.

Lemma unlink_ok s lz ns1 n ns2 :
  heap_ok s lz (ns1 ++ n :: ns2) →
  ∃ c s', unlink (E := E) n.1 s = Ret (Ok (), s')
    ∧ heap_plus s' lz (ns1 ++ ns2) n.1 c ∧ steps_to s s' [RemoveChunk n.2.1].
Proof.
  intros [Hseg Hdom Hnd]. pose proof (seg_lookup _ _ _ _ _ _ _ Hseg) as Hn.
  pose proof Hnd as (Hnd1 & Hnd2 & Hn1 & Hn2 & Hdisj)%nodup_middle.
  rewrite <- remove_perm in Hdom, Hnd. apply seg_app in Hseg as [Hseg1 [_ Hseg2]].
  unfold unlink. do 2 heap_step. cbn [previous lazy_previous next identifier as_chunk].
  set (c := set_lazy_previous None _).
  assert (seg (<[n.1 := c]> (heap s)) None lz ns1 (Some n.1)) as Hseg1'
    by (by apply seg_insert_out; [|exact Hseg1]).
  assert (seg (<[n.1 := c]> (heap s)) (Some n.1) None ns2 None) as Hseg2' by (by apply seg_insert_out).
  assert ((<[n.1 := c]> (heap s)) !! n.1 = Some c) as Hc by apply lookup_insert_eq.
  assert (dom (<[n.1 := c]> (heap s)) = list_to_set (n.1 :: (ns1 ++ ns2).*1)) as Hdom'
    by (by rewrite dom_insert_lookup_L by eauto).
  exists c. clear Hseg1 Hseg2 Hn Hdom.
  change (<[n.1 := c]> (heap s)) with (heap (set_heap <[n.1 := c]> s)) in *.
  assert (steps_to s (set_heap <[n.1 := c]> s) []) as Hst by (by split; cbn; destruct (history s)).
  set (t := set_heap _ s) in *. clearbody t c.
  destruct (store_next_ok t lz ns1 (Some n.1) (head_ptr ns2 None) Hnd1 Hseg1')
    as (t1 & Hrun1 & Hs1 & Hf1 & Hd1 & Hst1).
  assert (seg (heap t1) (Some n.1) None ns2 None) as Hs2.
  { eapply seg_frame; [|exact Hseg2']. intros p Hp. apply Hf1. intros Hq. by apply (Hdisj p). }
  destruct (store_previous_ok t1 (Some n.1) (last_ptr None ns1) (lazy_behind lz ns1) ns2 Hnd2 Hs2)
    as (t2 & Hrun2 & Hs2' & Hf2 & Hd2 & Hst2).
  run_step Hrun1. run_step Hrun2. eexists. split; [done|]. split.
  - split; cbn; [apply seg_app; split; [|done]|by rewrite Hf2, Hf1|by rewrite Hd2, Hd1|done].
    eapply seg_frame; [|exact Hs1]. intros p Hp. apply Hf2. auto.
  - pose proof (steps_to_trans _ _ _ _ _ (steps_to_trans _ _ _ _ _ Hst Hst1) Hst2) as [? ? ? Hh].
    split; cbn; try done. rewrite Hh. by destruct (history s).
Qed.

Lemma free_plus s lz ns p c :
  heap_plus s lz ns p c → ∃ s', free (E := E) p s = Ret (Ok (), s') ∧ heap_ok s' lz ns ∧ steps_to s s' [].
Proof.
  intros [Hseg Hp Hdom [Hpn Hnd]%NoDup_cons]. eexists. split; [by eapply free_ok|]. split.
  - split; cbn; [|rewrite dom_delete_L, Hdom; set_solver|done].
    eapply seg_frame; [|exact Hseg]. intros q Hq. by rewrite lookup_delete_ne by (by intros <-).
  - by split; cbn; destruct (history s).
Qed.

(** Storing the content of a node. *)
Lemma store_content_ok s lz ns1 n ns2 ct :
  heap_ok s lz (ns1 ++ n :: ns2) →
  ∃ s', store (E := E) n.1 (set_content ct) s = Ret (Ok (), s')
    ∧ heap_ok s' lz (ns1 ++ (n.1, (n.2.1, ct)) :: ns2) ∧ steps_to s s' [].
Proof.
  intros [Hseg Hdom Hnd]. pose proof (seg_lookup _ _ _ _ _ _ _ Hseg) as Hn.
  pose proof Hnd as (Hnd1 & Hnd2 & Hn1 & Hn2 & Hdisj)%nodup_middle.
  eexists. split; [by eapply store_ok|]. split; [|by split; cbn; destruct (history s)].
  rewrite fmap_app, fmap_cons in Hdom, Hnd. split.
  - apply seg_app in Hseg as [Hseg1 [_ Hseg2]]. apply seg_app. cbn. rewrite lookup_insert_eq.
    split_and!; [by apply seg_insert_out|done|by apply seg_insert_out].
  - cbn. rewrite fmap_app, fmap_cons. by rewrite dom_insert_lookup_L by eauto.
  - by rewrite fmap_app, fmap_cons.
Qed.

Lemma deref_node s lz ns1 n ns2 :
  heap_ok s lz (ns1 ++ n :: ns2) →
  deref (E := E) n.1 s = Ret (Ok (as_chunk (last_ptr None ns1) (lazy_behind lz ns1) (head_ptr ns2 None) n), s).
Proof. intros Hs. by eapply deref_ok, seg_lookup, ok_seg. Qed.

Lemma heap_size s lz ns : heap_ok s lz ns → size (heap s) = length ns.
Proof.
  intros [_ Hdom Hnd]. rewrite <- size_dom, Hdom, size_list_to_set by done. by rewrite length_fmap.
Qed.

(** The search for a chunk goes backwards from the node it starts at. *)
Lemma find_backwards_ok s lz ns n ns2 fuel id :
  heap_ok s lz (ns ++ n :: ns2) → length ns < fuel →
  find_backwards (E := E) fuel id n.1 s
  = Ret (Ok ((λ x, x.1.2.1) <$> split_last (λ n, (n.2.1 =? id)%Z) (ns ++ [n])), s).
Proof.
  revert n ns2 fuel. induction ns as [|m ns IH] using rev_ind; intros n ns2 fuel Hs Hfuel;
    (destruct fuel as [|fuel]; [lia|]); cbn [find_backwards]; run_step (deref_node _ _ _ _ _ Hs);
    cbn [identifier previous as_chunk]; rewrite split_last_snoc.
  - cbn. by destruct (n.2.1 =? id)%Z.
  - rewrite length_app in Hfuel. simpl in Hfuel. rewrite <- app_assoc in Hs. cbn [app] in Hs.
    destruct (n.2.1 =? id)%Z; [done|]. rewrite last_ptr_app. cbn [last_ptr list.last].
    rewrite (IH m (n :: ns2) fuel Hs) by lia.
    by destruct (split_last _ (ns ++ [m])) as [[[? ?] ?]|].
Qed.

(** The chunks of a list of nodes. *)
Fixpoint linked (prev : option ptr) lz ns (nxt : option ptr) : list Chunk :=
  match ns with
  | [] => []
  | n :: ns => as_chunk prev lz (head_ptr ns nxt) n :: linked (Some n.1) None ns nxt
  end.

Lemma linked_app prev lz ns1 ns2 nxt :
  linked prev lz (ns1 ++ ns2) nxt
  = linked prev lz ns1 (head_ptr ns2 nxt) ++ linked (last_ptr prev ns1) (lazy_behind lz ns1) ns2 nxt.
Proof.
  revert prev lz. induction ns1 as [|n ns1 IH]; intros prev lz; [done|]. cbn [linked app].
  rewrite IH, head_ptr_app, last_ptr_cons. by destruct ns1.
Qed.

Lemma walk_next_ok s lz ns1 n ns2 fuel :
  heap_ok s lz (ns1 ++ n :: ns2) → length ns2 < fuel →
  walk (E := E) next fuel n.1 s
  = Ret (Ok (linked (last_ptr None ns1) (lazy_behind lz ns1) (n :: ns2) None), s).
Proof.
  revert n ns1 fuel. induction ns2 as [|m ns2 IH]; intros n ns1 fuel Hs Hfuel;
    (destruct fuel as [|fuel]; [simpl in Hfuel; lia|]); cbn [walk]; run_step (deref_node _ _ _ _ _ Hs);
    cbn [next as_chunk head_ptr]; [done|].
  rewrite cons_middle, app_assoc in Hs. simpl in Hfuel.
  rewrite (bind_step _ _ _ _ _ (IH m (ns1 ++ [n]) fuel Hs ltac:(lia))).
  rewrite last_ptr_app. by destruct ns1.
Qed.

Lemma walk_previous_ok s lz ns n ns2 fuel :
  heap_ok s lz (ns ++ n :: ns2) → length ns < fuel →
  walk (E := E) previous fuel n.1 s
  = Ret (Ok (reverse (linked None lz (ns ++ [n]) (head_ptr ns2 None))), s).
Proof.
  revert n ns2 fuel. induction ns as [|m ns IH] using rev_ind; intros n ns2 fuel Hs Hfuel;
    (destruct fuel as [|fuel]; [lia|]); cbn [walk]; run_step (deref_node _ _ _ _ _ Hs);
    cbn [previous as_chunk]; [done|].
  rewrite length_app in Hfuel. simpl in Hfuel. rewrite last_ptr_app. cbn [last_ptr list.last].
  rewrite <- app_assoc in Hs. cbn [app] in Hs.
  rewrite (bind_step _ _ _ _ _ (IH m (n :: ns2) fuel Hs ltac:(lia))).
  rewrite (linked_app _ _ (ns ++ [m])), reverse_app, last_ptr_app. by destruct ns.
Qed.

(** Clearing frees the nodes and nothing else. *)
Lemma free_backwards_ok s lz ns nxt fuel :
  seg (heap s) None lz ns nxt → NoDup ns.*1 → length ns <= fuel →
  ∃ s', free_backwards (E := E) fuel (last_ptr None ns) s = Ret (Ok (), s')
    ∧ (∀ p, heap s' !! p = if decide (p ∈ ns.*1) then None else heap s !! p) ∧ steps_to s s' [].
Proof.
  revert s nxt fuel. induction ns as [|a ns IH] using rev_ind; intros s nxt fuel Hseg Hnd Hfuel.
  { exists s. split_and!; [by destruct fuel|done|apply steps_to_refl]. }
  rewrite length_app in Hfuel. simpl in Hfuel. destruct fuel as [|fuel]; [lia|].
  pose proof (seg_lookup _ _ _ _ _ _ _ Hseg) as Ha. apply seg_app in Hseg as [Hseg _].
  apply nodup_middle in Hnd as (Hnd & _ & Han & _). rewrite last_ptr_app. cbn [last_ptr list.last free_backwards].
  run_step (deref_ok (E := E) _ _ _ Ha). rewrite (bind_step _ _ _ _ _ (free_ok _ _ _ Ha)). cbn [previous as_chunk].
  destruct (IH (set_heap (delete a.1) s) (Some a.1) fuel) as (s' & -> & Hheap & Hst); [|done|lia|].
  { eapply seg_frame; [|exact Hseg]. intros q Hq. cbn. by rewrite lookup_delete_ne by (by intros <-). }
  exists s'. split_and!; [done| |destruct Hst; split; cbn in *; done].
  intros p. rewrite Hheap, fmap_app. cbn. destruct (decide (p = a.1)) as [->|Hpa].
  - rewrite lookup_delete_eq. repeat case_decide; set_solver.
  - rewrite lookup_delete_ne by done. repeat case_decide; set_solver.
Qed.

End links.
