(* ===== verification/LinkedList.v ===== *)
(** * The linked chunk as a list

    What the operations of [LinkedChunk.v] do, said of a list of chunks: no heap,
    no links, no ends.  [LinkedRefine.v] shows that the pointer code refines
    this machine. *)

From S2P Require Import Prelude Updates LinkedChunk LinkedHeap.

Section list_chunk.
Context {Item Gap : Type} (CAP : nat).
Abbreviation Content := (ChunkContent Item Gap).
Abbreviation chunk := (ChunkIdentifier * Content)%type.
Abbreviation Update := (Update Item Gap).

(** The chunks, the identifier of the one before them that is not loaded, the
    generator and the history. *)
Record ListChunk := {
  l_chunks : list chunk;
  l_lazy : option ChunkIdentifier;
  l_gen : Z;
  l_log : option (UpdatesInner Update)
}.

Definition l_set_chunks (cs : list chunk) (a : ListChunk) : ListChunk :=
  {| l_chunks := cs; l_lazy := l_lazy a; l_gen := l_gen a; l_log := l_log a |}.
Definition l_set_lazy (lz : option ChunkIdentifier) (a : ListChunk) : ListChunk :=
  {| l_chunks := l_chunks a; l_lazy := lz; l_gen := l_gen a; l_log := l_log a |}.
Definition l_set_gen (g : Z) (a : ListChunk) : ListChunk :=
  {| l_chunks := l_chunks a; l_lazy := l_lazy a; l_gen := g; l_log := l_log a |}.
Definition l_set_log (h : option (UpdatesInner Update)) (a : ListChunk) : ListChunk :=
  {| l_chunks := l_chunks a; l_lazy := l_lazy a; l_gen := l_gen a; l_log := h |}.

Definition l_new (h : option (UpdatesInner Update)) : ListChunk :=
  {| l_chunks := []; l_lazy := None; l_gen := FIRST_IDENTIFIER; l_log := h |}.

Section generic.
Context {E : Type}.
Abbreviation M := (M ListChunk E).

Definition l_set (cs : list chunk) : M () := modify (l_set_chunks cs).
Definition l_push (u : Update) : M () := modify (λ a, l_set_log (push u <$> l_log a) a).

Definition l_next_identifier : M ChunkIdentifier := λ a,
  if (l_gen a =? u64_max)%Z then Panic
  else Ret (Ok (l_gen a + 1)%Z, l_set_gen (l_gen a + 1) a).

(** The first chunk is made when a chunk is first asked for. *)
Definition l_first : M () :=
  cs ← gets l_chunks;
  match cs with
  | [] => l_push (NewItemsChunk None FIRST_IDENTIFIER None);; l_set [(FIRST_IDENTIFIER, Items [])]
  | _ => mret ()
  end.

Definition l_latest : M (list chunk * chunk) :=
  l_first;;
  cs ← gets l_chunks;
  match split_last (λ _, true) cs with Some (l1, c, _) => mret (l1, c) | None => crash end.

Definition l_insert_next (l1 : list chunk) (c new : chunk) (l2 : list chunk) : M () :=
  l_set (l1 ++ c :: new :: l2);;
  l_push (new_chunk_update (new_chunk new.1 new.2) (Some c.1) (fst <$> head l2)).

Fixpoint l_push_items (fuel : nat) (l1 : list chunk) (c : chunk) (l2 : list chunk) (new_items : list Item) :
    M (list chunk * chunk) :=
  match new_items with
  | [] => mret (l1, c)
  | _ =>
      match fuel with
      | 0 => starve
      | S fuel =>
          match c.2 with
          | GapContent _ =>
              id ← l_next_identifier;
              l_insert_next l1 c (id, Items []) l2;;
              l_push_items fuel (l1 ++ [c]) (id, Items []) l2 new_items
          | Items items =>
              let free_space := CAP - length items in
              let start := {| chunk_identifier := c.1; index := length items |} in
              if length new_items <=? free_space then
                let c := (c.1, Items (items ++ new_items)) in
                l_set (l1 ++ c :: l2);;
                l_push (PushItems start new_items);;
                mret (l1, c)
              else
                let c := (c.1, Items (items ++ take free_space new_items)) in
                (if 0 <? free_space then
                   l_set (l1 ++ c :: l2);;
                   l_push (PushItems start (take free_space new_items))
                 else mret ());;
                id ← l_next_identifier;
                l_insert_next l1 c (id, Items []) l2;;
                l_push_items fuel (l1 ++ [c]) (id, Items []) l2 (drop free_space new_items)
          end
      end
  end.

Definition l_push_all (l1 : list chunk) (c : chunk) (l2 : list chunk) (new_items : list Item) :
    M (list chunk * chunk) :=
  l_push_items (S (S (length new_items))) l1 c l2 new_items.

Definition l_push_clear : M () :=
  modify (λ a, l_set_log (push Clear ∘ clear_pending <$> l_log a) a).

Definition l_clear : M () :=
  l_set [];;
  modify (l_set_lazy None);;
  modify (l_set_gen FIRST_IDENTIFIER);;
  l_push_clear.

End generic.

Section operations.
Abbreviation M := (M ListChunk Error).

Definition l_find (id : ChunkIdentifier) : M (list chunk * chunk * list chunk) :=
  l_first;;
  cs ← gets l_chunks;
  match split_last (λ c, (c.1 =? id)%Z) cs with
  | Some z => mret z
  | None => throw (InvalidChunkIdentifier id)
  end.

Definition l_items_of (id : ChunkIdentifier) (c : chunk) : M (list Item) :=
  match c.2 with GapContent _ => throw (ChunkIsAGap id) | Items items => mret items end.

Definition l_push_items_back (items : list Item) : M () :=
  z ← l_latest;
  l_push_all z.1 z.2 [] items;;
  mret ().

Definition l_push_gap_back (gap : Gap) : M () :=
  z ← l_latest;
  id ← l_next_identifier;
  l_insert_next z.1 z.2 (id, GapContent gap) [].

Definition l_insert_items_at (position : Position) (items : list Item) : M () :=
  let id := chunk_identifier position in
  let i := index position in
  z ← l_find id;
  let '(l1, c, l2) := z in
  cur ← l_items_of id c;
  if length cur <? i then throw (InvalidItemIndex i)
  else if i =? length cur then l_push_all l1 c l2 items;; mret ()
  else
    l_push (DetachLastItems {| chunk_identifier := id; index := i |});;
    l_set (l1 ++ (c.1, Items (take i cur)) :: l2);;
    z ← l_push_all l1 (c.1, Items (take i cur)) l2 items;
    l_push StartReattachItems;;
    l_push_all z.1 z.2 l2 (drop i cur);;
    l_push EndReattachItems.

Definition l_remove_item_at (position : Position) : M Item :=
  let id := chunk_identifier position in
  let i := index position in
  z ← l_find id;
  let '(l1, c, l2) := z in
  cur ← l_items_of id c;
  match cur !! i with
  | None => throw (InvalidItemIndex i)
  | Some removed_item =>
      let cur := vec_remove i cur in
      l_set (l1 ++ (c.1, Items cur) :: l2);;
      l_push (RemoveItem {| chunk_identifier := id; index := i |});;
      (if bool_decide (length cur = 0) && negb (bool_decide (length l1 = 0)) then
         l_set (l1 ++ l2);; l_push (RemoveChunk c.1)
       else mret ());;
      mret removed_item
  end.

Definition l_replace_item_at (position : Position) (item : Item) : M () :=
  let id := chunk_identifier position in
  let i := index position in
  z ← l_find id;
  let '(l1, c, l2) := z in
  cur ← l_items_of id c;
  if length cur <=? i then throw (InvalidItemIndex i)
  else
    l_push (ReplaceItem {| chunk_identifier := id; index := i |} item);;
    l_set (l1 ++ (c.1, Items (<[i := item]> cur)) :: l2).

Definition l_insert_gap_at (gap : Gap) (position : Position) : M () :=
  let id := chunk_identifier position in
  let i := index position in
  z ← l_find id;
  let '(l1, c, l2) := z in
  cur ← l_items_of id c;
  if i =? 0 then
    new ← l_next_identifier;
    lz ← gets l_lazy;
    l_set (l1 ++ (new, GapContent gap) :: c :: l2);;
    l_push (NewGapChunk (option_or (fst <$> list.last l1) lz) new (Some c.1) gap)
  else if length cur <=? i then throw (InvalidItemIndex i)
  else
    l_push (DetachLastItems {| chunk_identifier := id; index := i |});;
    let c := (c.1, Items (take i cur)) in
    l_set (l1 ++ c :: l2);;
    new ← l_next_identifier;
    let g := (new, GapContent gap) in
    l_insert_next l1 c g l2;;
    l_push StartReattachItems;;
    new ← l_next_identifier;
    l_insert_next (l1 ++ [c]) g (new, Items []) l2;;
    l_push_all (l1 ++ [c] ++ [g]) (new, Items []) l2 (drop i cur);;
    l_push EndReattachItems.

Definition chunk_length (c : chunk) : nat :=
  match c.2 with GapContent _ => 0 | Items items => length items end.

Definition l_remove_empty_chunk_at (id : ChunkIdentifier) : M (option Position) :=
  l_first;;
  cs ← gets l_chunks;
  if length cs <=? 1 then throw RemovingLastChunk
  else
    z ← l_find id;
    let '(l1, c, l2) := z in
    if 0 <? chunk_length c then throw (RemovingNonEmptyItemsChunk id)
    else
      l_set (l1 ++ l2);;
      l_push (RemoveChunk c.1);;
      mret ((λ d, {| chunk_identifier := d.1; index := 0 |}) <$> head l2).

(** The result is the first of the new chunks. *)
Definition l_replace_gap_at (items : list Item) (id : ChunkIdentifier) : M chunk :=
  z ← l_find id;
  let '(l1, c, l2) := z in
  match c.2 with
  | Items _ => throw (ChunkIsItems id)
  | GapContent _ =>
      new ← l_next_identifier;
      l_insert_next l1 c (new, Items []) l2;;
      z ← l_push_all (l1 ++ [c]) (new, Items []) l2 items;
      let inserted := drop (S (length l1)) (z.1 ++ [z.2]) in
      l_set (l1 ++ inserted ++ l2);;
      l_push (RemoveChunk c.1);;
      match inserted with c :: _ => mret c | [] => crash end
  end.

(** The items of a chunk with their positions. *)
Definition l_chunk_items (c : chunk) : list (Position * Item) :=
  match c.2 with
  | GapContent _ => []
  | Items items => imap (λ i x, ({| chunk_identifier := c.1; index := i |}, x)) items
  end.

Definition l_items : M (list (Position * Item)) :=
  l_first;;
  cs ← gets l_chunks;
  mret (cs ≫= l_chunk_items).

End operations.

(** ** Lazy loading *)

Section lazy.
Abbreviation M := (M ListChunk LazyLoaderError).

Definition l_from_last (chunk : RawChunk Item Gap) (gen : Z) : ListChunk :=
  {| l_chunks := [(raw_identifier chunk, raw_content chunk)]; l_lazy := raw_previous chunk;
     l_gen := gen; l_log := Some new_inner |}.

(** The updates about a chunk that has become the first. *)
Definition l_emit (lz : option ChunkIdentifier) (c : chunk) (next : option ChunkIdentifier) : M () :=
  match c.2 with
  | GapContent gap => l_push (NewGapChunk lz c.1 next gap)
  | Items items =>
      l_push (NewItemsChunk lz c.1 next);;
      l_push (PushItems {| chunk_identifier := c.1; index := 0 |} items)
  end.

Definition l_any (id : ChunkIdentifier) : M bool :=
  l_first;;
  cs ← gets l_chunks;
  mret (existsb (λ c, (c.1 =? id)%Z) cs).

Definition l_insert_new_first_chunk (new : RawChunk Item Gap) : M () :=
  let new_id := raw_identifier new in
  if too_large CAP (raw_content new) then throw (ChunkTooLarge new_id)
  else
    cycle ← (match raw_previous new with None => mret false | Some id => l_any id end);
    if (cycle : bool) then throw (Cycle new_id (default 0%Z (raw_previous new)))
    else
      l_first;;
      cs ← gets l_chunks;
      lz ← gets l_lazy;
      let first_id := default 0%Z (fst <$> head cs) in
      match raw_next new with
      | None => throw (MissingNextChunk new_id)
      | Some next_chunk =>
          if negb (next_chunk =? first_id)%Z then throw (CannotConnectTwoChunks new_id first_id)
          else if bool_decide (lz ≠ Some new_id) then throw (CannotConnectTwoChunks first_id new_id)
          else
            let c := (new_id, raw_content new) in
            l_set (c :: cs);;
            modify (l_set_lazy (raw_previous new));;
            l_emit (raw_previous new) c (Some first_id)
      end.

Definition l_replace_with (chunk : option (RawChunk Item Gap)) (gen : Z) : M () :=
  match chunk with
  | None => l_clear
  | Some chunk =>
      if too_large CAP (raw_content chunk) then throw (ChunkTooLarge (raw_identifier chunk))
      else if bool_decide (raw_next chunk ≠ None) then throw (ChunkIsNotLast (raw_identifier chunk))
      else
        let c := (raw_identifier chunk, raw_content chunk) in
        modify (l_set_gen gen);;
        l_set [c];;
        modify (l_set_lazy (raw_previous chunk));;
        l_push_clear;;
        l_emit (raw_previous chunk) c None
  end.

End lazy.

Lemma l_set_step {E B} cs (k : () → M ListChunk E B) a : (l_set cs ≫= k) a = k () (l_set_chunks cs a).
Proof. done. Qed.

Lemma l_push_step {E B} u (k : () → M ListChunk E B) a : (l_push u ≫= k) a = k () (l_set_log (push u <$> l_log a) a).
Proof. done. Qed.

End list_chunk.

Arguments ListChunk : clear implicits.
