(* ===== verification/LinkedRefine.v ===== *)
(** * The pointer code refines the list machine

    Every operation of the linked chunk, run on a heap that holds a list of
    chunks, does what the list machine does to that list: same result or error,
    same updates, and a heap that holds the new list and nothing else.  In
    particular no operation follows a dangling pointer, frees twice or leaks. *)

From S2P Require Import Prelude Updates LinkedChunk LinkedHeap LinkedList.

Section refine.
Context {Item Gap : Type} (CAP : nat).
Abbreviation Content := (ChunkContent Item Gap).
Abbreviation Chunk := (Chunk Item Gap).
Abbreviation LinkedChunk := (LinkedChunk Item Gap).
Abbreviation ListChunk := (ListChunk Item Gap).
Abbreviation node := (ptr * (ChunkIdentifier * Content))%type.
Implicit Types (s : LinkedChunk) (a : ListChunk) (n : node) (ns : list node).

(** The heap, the generator and the history of a state of the list machine. *)
Record core s a ns : Prop := {
  core_heap : heap_ok s (l_lazy a) ns;
  core_chunks : l_chunks a = ns.*2;
  core_gen : generator s = l_gen a;
  core_log : history s = l_log a
}.

(** The ends point to the first and the last node; the last one may be left out
    while there is at most one. *)
Record ends_ok s ns : Prop := {
  ends_first : first s = head_ptr ns None;
  ends_last : last s = last_ptr None ns ∨ (last s = None ∧ length ns <= 1)
}.

Record rel_nodes s a ns : Prop := {
  rel_core : core s a ns;
  rel_ends : ends_ok s ns;
  rel_lazy : ns = [] → l_lazy a = None
}.

Definition rel s a : Prop := ∃ ns, rel_nodes s a ns.

(** A run of the pointer code against a run of the list machine. *)
Definition sim {E A B} (Q : A → B → LinkedChunk → ListChunk → Prop)
    (m : outcome Empty_set (result E A * LinkedChunk))
    (ms : outcome Empty_set (result E B * ListChunk)) : Prop :=
  match ms with
  | Ret (Ok b, a) => ∃ x s, m = Ret (Ok x, s) ∧ Q x b s a
  | Ret (Err e, a) => ∃ s, m = Ret (Err e, s) ∧ rel s a
  | Throw _ => False
  | Panic => m = Panic
  | OutOfFuel => m = OutOfFuel
  end.

Lemma sim_bind {E A B A' B'} (Q : A → B → LinkedChunk → ListChunk → Prop)
    (Q' : A' → B' → LinkedChunk → ListChunk → Prop)
    (m : M LinkedChunk E A) (k : A → M LinkedChunk E A')
    (ms : M ListChunk E B) (ks : B → M ListChunk E B') s a :
  sim Q (m s) (ms a) → (∀ x b s a, Q x b s a → sim Q' (k x s) (ks b a)) →
  sim Q' ((m ≫= k) s) ((ms ≫= ks) a).
Proof.
  unfold mbind, M_bind. intros Hm Hk. destruct (ms a) as [[[b|e] a']| | |]; simpl in Hm; try done.
  - destruct Hm as (x & s' & -> & HQ). by apply Hk.
  - destruct Hm as (s' & -> & Hs). simpl. eauto.
  - by rewrite Hm.
  - by rewrite Hm.
Qed.

Lemma sim_ret {E A B} (Q : A → B → LinkedChunk → ListChunk → Prop) (x : A) (b : B) s a :
  Q x b s a → sim (E := E) Q (Ret (Ok x, s)) (Ret (Ok b, a)).
Proof. intros HQ. by exists x, s. Qed.

Lemma sim_mono {E A B} (Q Q' : A → B → LinkedChunk → ListChunk → Prop)
    (m : outcome Empty_set (result E A * LinkedChunk)) ms :
  sim Q m ms → (∀ x b s a, Q x b s a → Q' x b s a) → sim Q' m ms.
Proof.
  intros Hm HQ. destruct ms as [[[b|e] a']| | |]; try done. simpl in *. naive_solver.
Qed.

(** Pushing an update on both sides. *)
Lemma core_push s a ns u :
  core s a ns →
  core (set_history (push u <$> history s) s) (l_set_log (push u <$> l_log a) a) ns.
Proof. intros [[] ? ? Hl]. split; cbn; [by split|done..|by rewrite Hl]. Qed.

(** A heap that has changed with the list. *)
Lemma core_steps s s' a ns ns' us :
  core s a ns → heap_ok s' (l_lazy a) ns' → steps_to s s' us →
  core s' (l_set_log ((λ u, foldl (λ u x, push x u) u us) <$> l_log a) (l_set_chunks ns'.*2 a)) ns'.
Proof. intros [? ? ? Hl] Hh [? ? ? Hh']. split; cbn; [done..|congruence|by rewrite Hh', Hl]. Qed.

Lemma l_set_log_id a : l_set_log ((λ u, foldl (λ u x, push x u) u []) <$> l_log a) a = a.
Proof. destruct a as [? ? ? []]; done. Qed.

Lemma next_identifier_sim {E} s a ns :
  core s a ns →
  sim (E := E) (λ x b s' a', x = b ∧ core s' a' ns ∧ first s' = first s ∧ last s' = last s
                  ∧ l_lazy a' = l_lazy a ∧ l_chunks a' = l_chunks a)
    (next_identifier s) (l_next_identifier a).
Proof.
  intros [[] ? Hg ?]. unfold next_identifier, l_next_identifier. rewrite Hg.
  destruct (l_gen a =? u64_max)%Z; [done|]. by apply sim_ret.
Qed.

(** Allocating a chunk and linking it behind a node. *)
Lemma insert_next_sim {E} s a ns1 n ns2 id ct :
  core s a (ns1 ++ n :: ns2) →
  ∃ p s', new_leaked (E := E) id ct s = Ret (Ok p, s') ∧
    sim (λ x _ s'' a', x = p ∧ core s'' a' (ns1 ++ n :: (p, (id, ct)) :: ns2)
           ∧ first s'' = first s ∧ last s'' = last s ∧ l_lazy a' = l_lazy a)
      (insert_next (E := E) n.1 p s') (l_insert_next ns1.*2 n.2 (id, ct) ns2.*2 a).
Proof.
  intros Hc. destruct (new_leaked_ok (E := E) _ _ _ id ct (core_heap _ _ _ Hc)) as (p & s1 & Hnew & Hp & Hst1).
  exists p, s1. split; [done|]. destruct (insert_next_ok (E := E) _ _ _ _ _ _ _ _ Hp) as (s2 & -> & Hh & Hst2).
  exists p, s2. split; [done|]. pose proof (steps_to_trans _ _ _ _ _ Hst1 Hst2) as Hst.
  split_and!; [done| |apply Hst..|done].
  pose proof (core_steps _ _ _ _ _ _ Hc Hh Hst) as Hc'. revert Hc'.
  unfold l_insert_next, l_set_log, l_set_chunks. cbn. rewrite !fmap_app, !fmap_cons. cbn.
  by destruct ns2.
Qed.

(** The same without an update. *)
Lemma core_set s s' a ns ns' :
  core s a ns → heap_ok s' (l_lazy a) ns' → steps_to s s' [] → core s' (l_set_chunks ns'.*2 a) ns'.
Proof.
  intros Hc Hh Hst. pose proof (core_steps _ _ _ _ _ _ Hc Hh Hst) as Hc'.
  change (l_log a) with (l_log (l_set_chunks ns'.*2 a)) in Hc'. by rewrite l_set_log_id in Hc'.
Qed.

(** The content of a node on both sides. *)
Lemma store_content_sim {E} s a ns1 n ns2 ct :
  core s a (ns1 ++ n :: ns2) →
  ∃ s', store (E := E) n.1 (set_content ct) s = Ret (Ok (), s')
    ∧ core s' (l_set_chunks (ns1.*2 ++ (n.2.1, ct) :: ns2.*2) a) (ns1 ++ (n.1, (n.2.1, ct)) :: ns2)
    ∧ first s' = first s ∧ last s' = last s.
Proof.
  intros Hc. destruct (store_content_ok (E := E) _ _ _ _ _ ct (core_heap _ _ _ Hc)) as (s' & Hrun & Hh & Hst).
  exists s'. split_and!; [done| |apply Hst..].
  pose proof (core_set _ _ _ _ _ Hc Hh Hst) as Hc'. by rewrite fmap_app, fmap_cons in Hc'.
Qed.

(** What pushing leaves: the nodes before, then some that start with the one it
    was called on, with the result as the last of them. *)
Definition pushed_from s a ns1 n ns2 (p : ptr) (z : list (ChunkIdentifier * Content) * (ChunkIdentifier * Content))
    s' (a' : ListChunk) : Prop :=
  ∃ ns1' n' ms, p = n'.1 ∧ z = (ns1'.*2, n'.2) ∧ core s' a' (ns1' ++ n' :: ns2)
    ∧ ns1' ++ [n'] = ns1 ++ ms ∧ head_ptr ms None = Some n.1
    ∧ first s' = first s ∧ last s' = last s ∧ l_lazy a' = l_lazy a.

Lemma pushed_from_next s a ns1 n ns2 s0 a0 n0 n1 p z s' a' :
  n0.1 = n.1 → first s0 = first s → last s0 = last s → l_lazy a0 = l_lazy a →
  pushed_from s0 a0 (ns1 ++ [n0]) n1 ns2 p z s' a' → pushed_from s a ns1 n ns2 p z s' a'.
Proof.
  intros Hn Hf Hl Hz (ns1' & n' & ms & -> & -> & Hc & Happ & Hhd & Hf' & Hl' & Hz').
  exists ns1', n', (n0 :: ms). split_and!; try done; try congruence; [|by cbn; rewrite Hn].
  rewrite Happ. by rewrite <- app_assoc.
Qed.

(** Filling the free space of a node. *)
Lemma fill_sim {E} s a ns1 n ns2 cur k new_items :
  core s a (ns1 ++ n :: ns2) → n.2.2 = Items cur →
  let c := (n.2.1, Items (cur ++ take k new_items)) in
  let start := {| chunk_identifier := n.2.1; index := length cur |} in
  ∃ s' a',
    (if 0 <? k then
       store (E := E) n.1 (set_content (Items (cur ++ take k new_items)));;
       push_update (PushItems start (take k new_items))
     else mret ()) s = Ret (Ok (), s')
    ∧ (if 0 <? k then
         l_set (E := E) (ns1.*2 ++ c :: ns2.*2);; l_push (PushItems start (take k new_items))
       else mret ()) a = Ret (Ok (), a')
    ∧ core s' a' (ns1 ++ (n.1, c) :: ns2)
    ∧ first s' = first s ∧ last s' = last s ∧ l_lazy a' = l_lazy a.
Proof.
  intros Hc Hn c start. destruct (Nat.ltb_spec 0 k) as [Hk|Hk].
  - destruct (store_content_sim (E := E) s a ns1 n ns2 (Items (cur ++ take k new_items)) Hc)
      as (s1 & Hst & Hc1 & Hf1 & Hl1).
    do 2 eexists. split_and!; [by run_step Hst|done|exact (core_push _ _ _ _ Hc1)|done..].
  - exists s, a. split_and!; try done. assert (k = 0) as -> by lia. subst c.
    rewrite take_0, app_nil_r, <- Hn. by destruct n as [? []].
Qed.

Lemma push_items_sim {E} fuel s a ns1 n ns2 items :
  core s a (ns1 ++ n :: ns2) →
  sim (E := E) (pushed_from s a ns1 n ns2)
    (push_items CAP fuel n.1 items s) (l_push_items CAP fuel ns1.*2 n.2 ns2.*2 items a).
Proof.
  revert s a ns1 n items. induction fuel as [|fuel IH]; intros s a ns1 n items Hc;
    (destruct items as [|x items];
     [by apply sim_ret; exists ns1, n, [n]|]); [done|].
  cbn [push_items l_push_items]. run_step (deref_node (E := E) _ _ _ _ _ (core_heap _ _ _ Hc)).
  cbn [content identifier as_chunk]. set (new_items := x :: items).
  destruct (n.2.2) as [gap|cur] eqn:Hn.
  - apply (sim_bind _ _ _ _ _ _ _ _ (next_identifier_sim s a _ Hc)).
    intros id _ s1 a1 (<- & Hc1 & Hf1 & Hl1 & Hz1 & _).
    destruct (insert_next_sim (E := E) s1 a1 ns1 n ns2 id (Items []) Hc1) as (p & s2 & Hnew & Hins).
    run_step Hnew. apply (sim_bind _ _ _ _ _ _ _ _ Hins). intros p' _ s3 a3 (-> & Hc3 & Hf3 & Hl3 & Hz3).
    rewrite cons_middle, app_assoc in Hc3.
    pose proof (IH s3 a3 (ns1 ++ [n]) (p, (id, Items [])) new_items Hc3) as Hsim.
    rewrite fmap_app in Hsim. eapply sim_mono; [exact Hsim|].
    intros. eapply pushed_from_next; [..|done]; [done|congruence..].
  - destruct (length new_items <=? CAP - length cur).
    + destruct (store_content_sim (E := E) s a ns1 n ns2 (Items (cur ++ new_items)) Hc)
        as (s1 & Hst & Hc1 & Hf1 & Hl1).
      run_step Hst. apply sim_ret.
      exists ns1, (n.1, (n.2.1, Items (cur ++ new_items))), [(n.1, (n.2.1, Items (cur ++ new_items)))].
      split_and!; try done. exact (core_push _ _ _ _ Hc1).
    + destruct (fill_sim (E := E) s a ns1 n ns2 cur (CAP - length cur) new_items Hc Hn)
        as (s1 & a1 & Hr & Hrl & Hc1 & Hf1 & Hl1 & Hz1).
      run_step Hr. run_step Hrl. set (n1 := (n.1, (n.2.1, _))) in *.
      apply (sim_bind _ _ _ _ _ _ _ _ (next_identifier_sim s1 a1 _ Hc1)).
      intros id _ s2 a2 (<- & Hc2 & Hf2 & Hl2 & Hz2 & _).
      destruct (insert_next_sim (E := E) s2 a2 ns1 n1 ns2 id (Items []) Hc2) as (p & s3 & Hnew & Hins).
      run_step Hnew. apply (sim_bind _ _ _ _ _ _ _ _ Hins). intros p' _ s4 a4 (-> & Hc4 & Hf4 & Hl4 & Hz4).
      rewrite cons_middle, app_assoc in Hc4.
      pose proof (IH s4 a4 (ns1 ++ [n1]) (p, (id, Items [])) (drop (CAP - length cur) new_items) Hc4) as Hsim.
      rewrite fmap_app in Hsim. eapply sim_mono; [exact Hsim|].
      intros. eapply (pushed_from_next _ _ _ _ _ _ _ n1); [..|done]; [done|congruence..].
Qed.

(** ** The ends *)

Lemma first_chunk_sim {E} s a ns :
  rel_nodes s a ns →
  sim (E := E) (λ p _ s' a', ∃ n ns', p = n.1 ∧ rel_nodes s' a' (n :: ns') ∧ (n :: ns' = ns ∧ a' = a ∨ ns = [] ∧ ns' = []))
    (first_chunk_ptr s) (l_first a).
Proof.
  intros [Hc He Hz]. pose proof (ends_first _ _ He) as Hf. unfold first_chunk_ptr, l_first.
  rewrite !(bind_step (gets _) _ _ _ _ eq_refl), Hf, (core_chunks _ _ _ Hc).
  destruct ns as [|n ns]; cbn [head_ptr fmap list_fmap].
  - specialize (Hz eq_refl). pose proof (core_push _ _ _ (NewItemsChunk None FIRST_IDENTIFIER None) Hc) as Hc1.
    rewrite push_update_step. destruct (new_leaked_ok (E := E) _ _ _ FIRST_IDENTIFIER (Items []) (core_heap _ _ _ Hc1))
      as (p & s1 & Hnew & [_ Hp Hdom Hnd] & Hst).
    unfold new_items_leaked. run_step Hnew. apply sim_ret.
    exists (p, (FIRST_IDENTIFIER, Items [])), []. split_and!; [done| |by right].
    destruct Hst as [_ Hl Hg Hh]. cbn in Hl, Hg, Hh. destruct Hc as [_ _ Hg0 Hh0].
    split; [split| |done]; cbn; try done.
    + split; cbn; try done. by rewrite Hz.
    + congruence.
    + rewrite Hh, <- Hh0. by destruct (history s).
    + split; cbn; [done|]. right. split; [|lia]. rewrite Hl. destruct He as [_ [->|[-> _]]]; done.
  - apply sim_ret. exists n, ns. split_and!; [done| |by left]. by split.
Qed.

Lemma latest_first_sim {E} s a :
  rel s a →
  sim (E := E) (λ p _ s' a', ∃ ns n, p = n.1 ∧ rel_nodes s' a' (ns ++ [n]) ∧ (l_chunks a ≠ [] → a' = a))
    (latest_chunk_ptr s) (l_first a).
Proof.
  intros [ns Hr]. unfold latest_chunk_ptr. rewrite (bind_step (gets last) _ _ _ _ eq_refl).
  destruct (last s) as [p|] eqn:Hl.
  - assert (∃ ns' n, ns = ns' ++ [n] ∧ p = n.1) as (ns' & n & -> & ->).
    { destruct Hr as [_ [_ [Hl'|[Hl' _]]] _]; [|congruence]. rewrite Hl in Hl'.
      destruct ns as [|n ns _] using rev_ind; [done|]. rewrite last_ptr_app in Hl'. cbn in Hl'. naive_solver. }
    assert (l_first (E := E) a = Ret (Ok (), a)) as ->.
    { unfold l_first. rewrite (bind_step (gets _) _ _ _ _ eq_refl), (core_chunks _ _ _ (rel_core _ _ _ Hr)).
      rewrite fmap_app. by destruct ns'. }
    apply sim_ret. by exists ns', n.
  - assert (length ns <= 1) as Hlen.
    { destruct Hr as [_ [_ [Hl'|[_ ?]]] _]; [|done]. rewrite Hl in Hl'.
      destruct ns as [|n ns _] using rev_ind; [simpl; lia|]. rewrite last_ptr_app in Hl'. done. }
    eapply sim_mono; [exact (first_chunk_sim s a ns Hr)|]. intros p _ s1 a1 (n & ns' & -> & Hr1 & Hns).
    assert (ns' = []) as -> by (destruct Hns as [[<- _]|[_ ?]]; [destruct ns'; [done|simpl in Hlen; lia]|done]).
    exists [], n. split_and!; try done. intros Hne. destruct Hns as [[_ ->]|[-> _]]; [done|].
    by rewrite (core_chunks _ _ _ (rel_core _ _ _ Hr)) in Hne.
Qed.

Lemma chunks_snoc s a ns n : rel_nodes s a (ns ++ [n]) → l_chunks a = ns.*2 ++ [n.2].
Proof. intros [Hc _ _]. by rewrite (core_chunks _ _ _ Hc), fmap_app. Qed.

Lemma latest_chunk_sim {E} s a :
  rel s a →
  sim (E := E) (λ p z s' a', ∃ ns n, p = n.1 ∧ z = (ns.*2, n.2) ∧ rel_nodes s' a' (ns ++ [n]))
    (latest_chunk_ptr s) (l_latest a).
Proof.
  intros Hr. unfold l_latest. rewrite <- bind_ret_r.
  apply (sim_bind _ _ _ _ _ _ _ _ (latest_first_sim (E := E) s a Hr)).
  intros p _ s1 a1 (ns & n & -> & Hr1 & _). rewrite (bind_step (gets _) _ _ _ _ eq_refl).
  rewrite (chunks_snoc _ _ _ _ Hr1), split_last_snoc. apply sim_ret. by exists ns, n.
Qed.

(** ** Finding a chunk *)

Lemma chunk_mut_sim s a id :
  rel s a →
  sim (λ p z s' a', ∃ ns1 n ns2, p = n.1 ∧ z = (ns1.*2, n.2, ns2.*2) ∧ n.2.1 = id
         ∧ rel_nodes s' a' (ns1 ++ n :: ns2) ∧ (l_chunks a ≠ [] → a' = a))
    (chunk_mut id s) (l_find id a).
Proof.
  intros Hr. pose proof (latest_first_sim (E := Error) s a Hr) as Hsim. unfold chunk_mut, chunk_ptr, l_find.
  rewrite bind_assoc. apply (sim_bind _ _ _ _ _ _ _ _ Hsim). clear s Hr Hsim.
  rename a into a0. intros p _ s a (ns & n & -> & Hr & Ha0). rewrite bind_assoc, !(bind_step (gets _) _ _ _ _ eq_refl).
  pose proof (core_heap _ _ _ (rel_core _ _ _ Hr)) as Hh.
  rewrite (bind_step _ _ _ _ _ (find_backwards_ok s _ ns n [] (size (heap s)) id Hh
    ltac:(rewrite (heap_size _ _ _ Hh), length_app; simpl; lia))).
  rewrite (core_chunks _ _ _ (rel_core _ _ _ Hr)), split_last_fmap.
  change ((λ c : ChunkIdentifier * Content, (c.1 =? id)%Z) ∘ snd) with (λ m : node, (m.2.1 =? id)%Z).
  destruct (split_last _ (ns ++ [n])) as [[[ns1 m] ns2]|] eqn:Hsplit; simpl.
  - apply split_last_Some in Hsplit as [Heq Hid%Z.eqb_eq]. rewrite Heq in Hr.
    exists m.1, s. split; [done|]. by exists ns1, m, ns2.
  - exists s. split; [done|]. by eexists.
Qed.

(** ** Restoring the ends *)

Lemma last_ptr_None ns : last_ptr None ns = None ↔ ns = [].
Proof.
  destruct ns as [|n ns _] using rev_ind; [done|]. rewrite last_ptr_app. cbn.
  split; [done|]. by destruct ns.
Qed.

(** After a push, [links.last] is set when the node that is returned is the last
    and not the first. *)
Lemma pushed_ends s a ns1 n ns2 p z s' a' :
  rel_nodes s a (ns1 ++ n :: ns2) → pushed_from s a ns1 n ns2 p z s' a' →
  ∃ ns1' n', p = n'.1 ∧ z = (ns1'.*2, n'.2) ∧ core s' a' (ns1' ++ n' :: ns2)
    ∧ rel (if negb (bool_decide (ns1' = [])) && bool_decide (ns2 = []) then set_last (Some p) s' else s') a'.
Proof.
  intros [Hc [Hf Hl] _] (ns1' & n' & ms & -> & -> & Hc' & Happ & Hhd & Hf' & Hl' & Hz).
  exists ns1', n'. split_and!; try done. exists (ns1' ++ n' :: ns2).
  assert (head_ptr (ns1' ++ n' :: ns2) None = head_ptr (ns1 ++ n :: ns2) None) as Hhead.
  { rewrite (cons_middle n'), app_assoc, Happ, <- app_assoc, !head_ptr_app. cbn.
    destruct ms; [done|]. cbn in *. by rewrite Hhd. }
  set (b := negb _ && _). split.
  - destruct Hc' as [[] ? ? ?]. by destruct b; split.
  - split; [destruct b; cbn; congruence|].
    destruct (decide (ns2 = [])) as [->|Hne2].
    + destruct (decide (ns1' = [])) as [->|Hne1].
      * subst b. cbn. rewrite Hl'. cbn in Happ. destruct ns1 as [|? ns1].
        { cbn in *. subst ms. cbn in Hhd. destruct Hl as [->|[-> ?]]; [left; by rewrite Hhd|right; cbn; auto]. }
        { exfalso. injection Happ as -> Happ. symmetry in Happ. apply app_eq_nil in Happ as [-> ->]. done. }
      * left. subst b. rewrite (bool_decide_false (ns1' = [])), bool_decide_true by done. cbn.
        by rewrite last_ptr_app.
    + left. subst b. rewrite (bool_decide_false (ns2 = [])), andb_false_r by done. rewrite Hl'.
      destruct Hl as [->|[_ Hlen]].
      * rewrite !last_ptr_app, !last_ptr_cons. by destruct ns2 using rev_ind; [|rewrite !last_ptr_app].
      * rewrite length_app in Hlen. destruct ns2; [done|]. simpl in Hlen. lia.
  - by destruct ns1'.
Qed.

Lemma update_last_ok {E} s a ns1 n ns2 :
  core s a (ns1 ++ n :: ns2) →
  update_last (E := E) n.1 s
  = Ret (Ok (), if negb (bool_decide (ns1 = [])) && bool_decide (ns2 = []) then set_last (Some n.1) s else s).
Proof.
  intros Hc. unfold update_last. run_step (deref_node (E := E) _ _ _ _ _ (core_heap _ _ _ Hc)).
  unfold is_first_chunk, is_last_chunk. cbn [previous next as_chunk].
  rewrite (bool_decide_ext _ _ (last_ptr_None ns1)). rewrite (bool_decide_ext (head_ptr ns2 None = None) (ns2 = [])) by (by destruct ns2).
  by destruct (negb _ && _).
Qed.

(** Both sides of an operation end in related states. *)
Definition done_with {A B} (Q : A → B → Prop) (x : A) (b : B) s a : Prop := Q x b ∧ rel s a.

Lemma push_items_back_sim s a items :
  rel s a → sim (done_with eq) (push_items_back CAP items s) (l_push_items_back CAP items a).
Proof.
  intros Hr. unfold push_items_back, l_push_items_back.
  apply (sim_bind _ _ _ _ _ _ _ _ (latest_chunk_sim s a Hr)). clear s a Hr.
  intros p z s a (ns & n & -> & -> & Hr). cbn [fst snd].
  apply (sim_bind _ _ _ _ _ _ _ _ (push_items_sim _ s a ns n [] items (rel_core _ _ _ Hr))).
  intros p z s' a' Hp. destruct (pushed_ends _ _ _ _ _ _ _ _ _ Hr Hp) as (ns1 & n1 & -> & -> & Hc & Hrel).
  run_step (deref_node (E := Error) _ _ _ _ _ (core_heap _ _ _ Hc)). unfold is_first_chunk. cbn [previous as_chunk].
  rewrite (bool_decide_ext _ _ (last_ptr_None ns1)). rewrite (bool_decide_true ([] = [])), andb_true_r in Hrel by done.
  by destruct (negb (bool_decide (ns1 = []))); apply sim_ret.
Qed.

Lemma push_gap_back_sim s a gap :
  rel s a → sim (done_with eq) (push_gap_back gap s) (l_push_gap_back gap a).
Proof.
  intros Hr. unfold push_gap_back, l_push_gap_back.
  apply (sim_bind _ _ _ _ _ _ _ _ (latest_chunk_sim s a Hr)). clear s a Hr.
  intros p z s a (ns & n & -> & -> & [Hc [Hf _] _]). cbn [fst snd].
  apply (sim_bind _ _ _ _ _ _ _ _ (next_identifier_sim s a _ Hc)).
  intros id _ s1 a1 (<- & Hc1 & Hf1 & _ & Hz1 & _).
  destruct (insert_next_sim (E := Error) s1 a1 ns n [] id (GapContent gap) Hc1) as (p & s2 & Hnew & Hins).
  unfold new_gap_leaked. run_step Hnew. rewrite <- (bind_ret_r (l_insert_next _ _ _ _)).
  apply (sim_bind _ _ _ _ _ _ _ _ Hins). intros p' [] s3 a3 (-> & Hc3 & Hf3 & _ & Hz3).
  run_step (deref_node (E := Error) _ _ _ _ _ (core_heap _ _ _ Hc3)). cbn [next as_chunk head_ptr].
  apply sim_ret. split; [done|]. exists (ns ++ [n; (p, (id, GapContent gap))]). split; [|split|by destruct ns].
  - by destruct Hc3 as [[] ? ? ?]; split.
  - cbn. rewrite Hf3, Hf1, Hf. by destruct ns.
  - left. cbn. by rewrite last_ptr_app.
Qed.

Lemma items_mut_sim s a id n prev lz nxt :
  rel s a →
  sim (λ x b s' a', x = b ∧ n.2.2 = Items b ∧ s' = s ∧ a' = a)
    (items_mut id (as_chunk prev lz nxt n) s) (l_items_of id n.2 a).
Proof.
  intros Hr. unfold items_mut, l_items_of. cbn [content as_chunk]. destruct (n.2.2); [|by apply sim_ret].
  by exists s.
Qed.

(** The beginning of the operations at a position: the chunk, its node and its
    items. *)
Lemma at_position_sim {A B} (Q : A → B → LinkedChunk → ListChunk → Prop) s a id
    (k : ptr → Chunk → list Item → M LinkedChunk Error A)
    (ks : list (ChunkIdentifier * Content) → ChunkIdentifier * Content → list (ChunkIdentifier * Content) →
          list Item → M ListChunk Error B) :
  rel s a →
  (∀ s a ns1 n ns2 cur, rel_nodes s a (ns1 ++ n :: ns2) → n.2.1 = id → n.2.2 = Items cur →
    sim Q (k n.1 (as_chunk (last_ptr None ns1) (lazy_behind (l_lazy a) ns1) (head_ptr ns2 None) n) cur s)
      (ks ns1.*2 n.2 ns2.*2 cur a)) →
  sim Q ((p ← chunk_mut id; c ← deref p; cur ← items_mut id c; k p c cur) s)
    ((z ← l_find id; let '(l1, c, l2) := z in cur ← l_items_of id c; ks l1 c l2 cur) a).
Proof.
  intros Hr Hk. apply (sim_bind _ _ _ _ _ _ _ _ (chunk_mut_sim s a id Hr)). clear s Hr.
  rename a into a0. intros p z s a (ns1 & n & ns2 & -> & -> & Hid & Hr & _).
  run_step (deref_node (E := Error) _ _ _ _ _ (core_heap _ _ _ (rel_core _ _ _ Hr))).
  apply (sim_bind _ _ _ _ _ _ _ _ (items_mut_sim s a id n _ _ _ ltac:(by eexists))).
  intros cur _ s' a' (<- & Hcur & -> & ->). by apply Hk.
Qed.

(** An update on both sides, before the ends are restored and after. *)
Lemma sim_push {E A B} (Q : A → B → LinkedChunk → ListChunk → Prop) u
    (k : () → M LinkedChunk E A) (ks : () → M ListChunk E B) s a ns :
  core s a ns →
  (∀ s' a', core s' a' ns → first s' = first s → last s' = last s → l_lazy a' = l_lazy a →
    sim Q (k () s') (ks () a')) →
  sim Q ((push_update u ≫= k) s) ((l_push u ≫= ks) a).
Proof. intros Hc Hk. apply Hk; try done. by apply core_push. Qed.

Lemma sim_push_rel {E A B} (Q : A → B → LinkedChunk → ListChunk → Prop) u
    (k : () → M LinkedChunk E A) (ks : () → M ListChunk E B) s a ns :
  rel_nodes s a ns → (∀ s' a', rel_nodes s' a' ns → sim Q (k () s') (ks () a')) →
  sim Q ((push_update u ≫= k) s) ((l_push u ≫= ks) a).
Proof. intros [Hc [? ?] ?] Hk. apply Hk. split; [by apply core_push|by split|done]. Qed.

(** A push that goes on from where another ended. *)
Lemma pushed_from_trans s a ns1 n ns2 ns3 n3 ms3 s2 a2 p z s3 a3 :
  ns3 ++ [n3] = ns1 ++ ms3 → head_ptr ms3 None = Some n.1 →
  first s2 = first s → last s2 = last s → l_lazy a2 = l_lazy a →
  pushed_from s2 a2 ns3 n3 ns2 p z s3 a3 → pushed_from s a ns1 n ns2 p z s3 a3.
Proof.
  intros H3 Hhd3 Hf Hl Hz (ns5 & n5 & ms5 & -> & -> & Hc & Happ & Hhd5 & Hf5 & Hl5 & Hz5).
  destruct ms3 as [|m ms3 _] using rev_ind; [done|].
  rewrite app_assoc in H3. apply app_inj_tail in H3 as [-> <-].
  exists ns5, n5, (ms3 ++ ms5). split_and!; try done; try congruence.
  - by rewrite Happ, <- app_assoc.
  - rewrite head_ptr_app in *. rewrite Hhd5. done.
Qed.

(** An update after a push. *)
Lemma sim_push_from {E A B} (Q : A → B → LinkedChunk → ListChunk → Prop) u
    (k : () → M LinkedChunk E A) (ks : () → M ListChunk E B) s0 a0 ns1 n ns2 p z s a :
  pushed_from s0 a0 ns1 n ns2 p z s a →
  (∀ s' a', pushed_from s0 a0 ns1 n ns2 p z s' a' → sim Q (k () s') (ks () a')) →
  sim Q ((push_update u ≫= k) s) ((l_push u ≫= ks) a).
Proof.
  intros (ns1' & n' & ms & -> & -> & Hc & Happ & Hhd & Hf & Hl & Hz) Hk.
  apply Hk. exists ns1', n', ms. split_and!; try done. by apply core_push.
Qed.

(** Replacing the content of a node keeps the ends. *)
Lemma rel_content s s' a a' ns1 n ns2 ct :
  rel_nodes s a (ns1 ++ n :: ns2) → core s' a' (ns1 ++ (n.1, (n.2.1, ct)) :: ns2) →
  first s' = first s → last s' = last s → rel_nodes s' a' (ns1 ++ (n.1, (n.2.1, ct)) :: ns2).
Proof.
  intros [_ [Hf Hl] _] Hc Hf' Hl'. split; [done| |by destruct ns1]. split; [rewrite Hf', Hf; by destruct ns1|].
  rewrite Hl'. rewrite !last_ptr_app, !last_ptr_cons in *. rewrite !length_app in *. done.
Qed.

Lemma replace_item_at_sim s a position item :
  rel s a → sim (done_with eq) (replace_item_at position item s) (l_replace_item_at position item a).
Proof.
  intros Hr. unfold replace_item_at, l_replace_item_at. apply at_position_sim; [done|]. clear s a Hr.
  intros s a ns1 n ns2 cur Hr Hid Hcur. destruct (length cur <=? index position).
  { exists s. split; [done|]. by eexists. }
  apply (sim_push_rel _ _ _ _ _ _ _ Hr). clear s a Hr. intros s a Hr.
  destruct (store_content_sim (E := Error) _ _ _ _ _ (Items (<[index position := item]> cur)) (rel_core _ _ _ Hr))
    as (s' & -> & Hc' & Hf' & Hl').
  apply sim_ret. split; [done|]. eexists. by eapply rel_content.
Qed.

Lemma insert_items_at_sim s a position items :
  rel s a → sim (done_with eq) (insert_items_at CAP position items s) (l_insert_items_at CAP position items a).
Proof.
  intros Hr. unfold insert_items_at, l_insert_items_at. apply at_position_sim; [done|]. clear s a Hr.
  intros s a ns1 n ns2 cur Hr Hid Hcur. destruct (length cur <? index position).
  { exists s. split; [done|]. by eexists. }
  destruct (index position =? length cur).
  - apply (sim_bind _ _ _ _ _ _ _ _ (push_items_sim _ s a ns1 n ns2 items (rel_core _ _ _ Hr))).
    intros p z s' a' Hp. destruct (pushed_ends _ _ _ _ _ _ _ _ _ Hr Hp) as (ns1' & n1 & -> & -> & Hc & Hrel).
    rewrite (update_last_ok (E := Error) _ _ _ _ _ Hc). by apply sim_ret.
  - rewrite bind_assoc. apply (sim_push_rel _ _ _ _ _ _ _ Hr). clear s a Hr. intros s a Hr. rewrite bind_assoc.
    destruct (store_content_sim (E := Error) _ _ _ _ _ (Items (take (index position) cur)) (rel_core _ _ _ Hr))
      as (s2 & Hst & Hc2 & Hf2 & Hl2).
    pose proof (rel_content _ _ _ _ _ _ _ _ Hr Hc2 Hf2 Hl2) as Hr2. clear Hc2 Hf2 Hl2.
    run_step Hst. clear Hst Hr s. rewrite l_set_step, bind_assoc.
    set (n2 := (n.1, (n.2.1, _))) in *. set (a2 := l_set_chunks _ a) in *.
    apply (sim_bind _ _ _ _ _ _ _ _ (push_items_sim _ s2 a2 ns1 n2 ns2 items (rel_core _ _ _ Hr2))).
    intros p z s3 a3 Hp3. rewrite bind_assoc.
    pose proof Hp3 as (ns3 & n3 & ms3 & -> & -> & Hc3 & Happ3 & Hhd3 & Hf3 & Hl3 & Hz3).
    apply (sim_push _ _ _ _ _ _ _ Hc3). intros s4 a4 Hc4 Hf4 Hl4 Hz4. rewrite bind_assoc. cbn [fst snd].
    apply (sim_bind _ _ _ _ _ _ _ _ (push_items_sim _ s4 a4 ns3 n3 ns2 (drop (index position) cur) Hc4)).
    intros p z s5 a5 Hp5. 
    apply (pushed_from_trans s2 a2 ns1 n2 ns2 ns3 n3 ms3) in Hp5; [|congruence..].
    rewrite bind_assoc, <- (bind_ret_r (l_push EndReattachItems)).
    apply (sim_push_from _ _ _ _ _ _ _ _ _ _ _ _ _ Hp5). clear Hp5. intros s6 a6 Hp6. rewrite bind_ret_step.
    destruct (pushed_ends _ _ _ _ _ _ _ _ _ Hr2 Hp6) as (ns6 & n6 & -> & -> & Hc6 & Hrel).
    rewrite (update_last_ok (E := Error) _ _ _ _ _ Hc6). by apply sim_ret.
Qed.

(** ** Removing a chunk *)

(** As [core], with a chunk that has been unlinked and not freed yet. *)
Record core_plus s a ns (p : ptr) : Prop := {
  plus_heap : ∃ c, heap_plus s (l_lazy a) ns p c;
  plus_chunks : l_chunks a = ns.*2;
  plus_gen : generator s = l_gen a;
  plus_log : history s = l_log a
}.

Lemma unlink_sim {E} s a ns1 n ns2 :
  core s a (ns1 ++ n :: ns2) →
  ∃ s', unlink (E := E) n.1 s = Ret (Ok (), s')
    ∧ core_plus s' (l_set_log (push (RemoveChunk n.2.1) <$> l_log a) (l_set_chunks (ns1.*2 ++ ns2.*2) a))
        (ns1 ++ ns2) n.1
    ∧ first s' = first s ∧ last s' = last s.
Proof.
  intros [Hh _ Hg Hlog]. destruct (unlink_ok (E := E) _ _ _ _ _ Hh) as (c & s' & Hrun & Hp & [Hf Hl Hg' Hh']).
  exists s'. split_and!; try done. split; cbn; [by exists c|by rewrite fmap_app|congruence|].
  rewrite Hh', Hlog. done.
Qed.

Lemma core_plus_last s a ns p q : core_plus s a ns p → core_plus (set_last q s) a ns p.
Proof. intros [[c []] ? ? ?]. split; try done. exists c. by split. Qed.

Lemma core_plus_first s a ns p q : core_plus s a ns p → core_plus (set_first q s) a ns p.
Proof. intros [[c []] ? ? ?]. split; try done. exists c. by split. Qed.

Lemma free_sim {E} s a ns p :
  core_plus s a ns p →
  ∃ s', free (E := E) p s = Ret (Ok (), s') ∧ core s' a ns ∧ first s' = first s ∧ last s' = last s.
Proof.
  intros [[c Hp] ? ? ?]. destruct (free_plus (E := E) _ _ _ _ _ Hp) as (s' & Hrun & Hh & [? ? ? Hh']).
  exists s'. split_and!; try done. split; try done; [congruence|]. rewrite Hh'. by destruct (history s).
Qed.

(** [self.next.is_none()] and [self.previous.is_none()] of a node *)
Lemma is_last_node prev lz ns2 n : is_last_chunk (as_chunk prev lz (head_ptr ns2 None) n) = bool_decide (ns2 = []).
Proof. apply bool_decide_ext. by destruct ns2. Qed.

Lemma is_first_node ns1 lz nxt n : is_first_chunk (as_chunk (last_ptr None ns1) lz nxt n) = bool_decide (ns1 = []).
Proof. apply bool_decide_ext, last_ptr_None. Qed.

Lemma bool_decide_nil {A B} (f : A → B) (l : list A) : bool_decide (length (f <$> l) = 0) = bool_decide (l = []).
Proof. apply bool_decide_ext. by destruct l. Qed.

(** The last node once one has been removed. *)
Lemma removed_last s ns1 n ns2 :
  ends_ok s (ns1 ++ n :: ns2) → ns1 ++ ns2 ≠ [] →
  (if bool_decide (ns2 = []) then last_ptr None ns1 else last s) = last_ptr None (ns1 ++ ns2).
Proof.
  intros [_ Hl] Hne. destruct (decide (ns2 = [])) as [->|Hne2].
  - rewrite bool_decide_true by done. by rewrite app_nil_r.
  - rewrite bool_decide_false by done. destruct Hl as [->|[_ Hlen]].
    + rewrite !last_ptr_app, last_ptr_cons. by destruct ns2 using rev_ind; [|rewrite !last_ptr_app].
    + rewrite length_app in Hlen. destruct ns2; [done|]. simpl in Hlen. lia.
Qed.

Lemma removed_rel s s' a' ns1 n ns2 :
  ends_ok s (ns1 ++ n :: ns2) → ns1 ++ ns2 ≠ [] → core s' a' (ns1 ++ ns2) →
  first s' = (if bool_decide (ns1 = []) then head_ptr ns2 None else first s) →
  last s' = (if bool_decide (ns2 = []) then last_ptr None ns1 else last s) → rel s' a'.
Proof.
  intros He Hne Hc Hf Hl. exists (ns1 ++ ns2). split; [done| |done]. split.
  - rewrite Hf, (ends_first _ _ He). by destruct ns1.
  - left. rewrite Hl. by apply (removed_last s ns1 n ns2).
Qed.

Lemma remove_item_at_sim s a position :
  rel s a → sim (done_with eq) (remove_item_at position s) (l_remove_item_at position a).
Proof.
  intros Hr. unfold remove_item_at, l_remove_item_at. apply at_position_sim; [done|]. clear s a Hr.
  intros s a ns1 n ns2 cur Hr Hid Hcur. destruct (cur !! index position) as [x|] eqn:Hx.
  2:{ exists s. split; [done|]. by eexists. }
  destruct (store_content_sim (E := Error) _ _ _ _ _ (Items (vec_remove (index position) cur)) (rel_core _ _ _ Hr))
    as (s1 & Hst & Hc1 & Hf1 & Hl1).
  pose proof (rel_content _ _ _ _ _ _ _ _ Hr Hc1 Hf1 Hl1) as Hr1. clear Hc1 Hf1 Hl1.
  cbn zeta. run_step Hst. clear Hst. rewrite l_set_step.
  set (n1 := (n.1, (n.2.1, _))) in *. set (a1 := l_set_chunks _ a) in *. change (n.1) with (n1.1). change (n.2.1) with (n1.2.1).
  rewrite is_first_node, is_last_node, bool_decide_nil. cbn [previous as_chunk].
  apply (sim_push_rel _ _ _ _ _ _ _ Hr1). clear s1 a1 Hr Hr1 s a. intros s a Hr.
  destruct (bool_decide (length (vec_remove _ cur) = 0) && negb (bool_decide (ns1 = []))) eqn:Hempty.
  2:{ apply sim_ret. split; [done|]. by eexists. }
  apply andb_true_iff in Hempty as [_ Hne%negb_true_iff%bool_decide_eq_false_1].
  rewrite bind_assoc. destruct (unlink_sim (E := Error) _ _ _ _ _ (rel_core _ _ _ Hr)) as (s2 & Hun & Hp2 & Hf2 & Hl2).
  run_step Hun. set (a2 := l_set_log _ _) in Hp2. rewrite bind_assoc.
  set (s3 := if bool_decide (ns2 = []) then set_last (last_ptr None ns1) s2 else s2).
  rewrite (bind_step _ _ s2 () s3) by (unfold s3; by destruct (bool_decide (ns2 = []))).
  assert (core_plus s3 a2 (ns1 ++ ns2) n1.1) as Hp3.
  { subst s3. destruct (bool_decide (ns2 = [])); [by apply core_plus_last|done]. }
  destruct (free_sim (E := Error) _ _ _ _ Hp3) as (s4 & Hfree & Hc4 & Hf4 & Hl4). run_step Hfree.
  apply sim_ret. split; [done|].
  eapply (removed_rel s s4 _ ns1 n1 ns2); [apply Hr|by destruct ns1|done|..]; rewrite ?Hf4, ?Hl4; unfold s3.
  - rewrite (bool_decide_false (ns1 = [])) by done. by destruct (bool_decide (ns2 = [])).
  - by destruct (bool_decide (ns2 = [])).
Qed.

(** The position of the next chunk. *)
Lemma next_position {B} s a ns1 n ns2 (k : option Position → M LinkedChunk Error B) :
  rel_nodes s a (ns1 ++ n :: ns2) →
  ((match head_ptr ns2 None with
    | None => mret None
    | Some p => c ← deref p; mret (Some (first_position c))
    end) ≫= k) s
  = k ((λ d, {| chunk_identifier := d.1; index := 0 |}) <$> head ns2.*2) s.
Proof.
  intros [Hc _ _]. destruct ns2 as [|m ns2]; [done|]. cbn [head_ptr]. rewrite bind_assoc.
  pose proof (core_heap _ _ _ Hc) as Hh. rewrite cons_middle, app_assoc in Hh.
  by run_step (deref_node (E := Error) _ _ _ _ _ Hh).
Qed.

Lemma remove_empty_chunk_at_sim s a id :
  rel s a → sim (done_with eq) (remove_empty_chunk_at id s) (l_remove_empty_chunk_at id a).
Proof.
  intros [ns0 Hr]. unfold remove_empty_chunk_at, l_remove_empty_chunk_at.
  apply (sim_bind _ _ _ _ _ _ _ _ (first_chunk_sim s a ns0 Hr)). clear s Hr.
  rename a into a0. intros p _ s a (n & ns & -> & Hr & _).
  run_step (deref_node (E := Error) _ _ [] n ns (core_heap _ _ _ (rel_core _ _ _ Hr))).
  rewrite (bind_step (gets _) _ _ _ _ eq_refl), (core_chunks _ _ _ (rel_core _ _ _ Hr)), is_last_node.
  assert ((length (n :: ns).*2 <=? 1) = bool_decide (ns = [])) as ->.
  { destruct ns; [done|]. symmetry. apply bool_decide_false. done. }
  destruct (bool_decide (ns = [])) eqn:Hns; [exists s; split; [done|]; by eexists|].
  apply bool_decide_eq_false_1 in Hns.
  assert (rel s a ∧ 2 <= length (l_chunks a)) as [Hr' Hlen].
  { split; [by eexists|]. rewrite (core_chunks _ _ _ (rel_core _ _ _ Hr)). destruct ns; [done|]. simpl. lia. }
  apply (sim_bind _ _ _ _ _ _ _ _ (chunk_mut_sim s a id Hr')). clear s n ns Hr Hr' Hns.
  intros p _ s a' (ns1 & n & ns2 & -> & -> & Hid & Hr & Ha'). rewrite Ha' in * by (by destruct (l_chunks a); [simpl in Hlen; lia|]).
  clear a' Ha'. run_step (deref_node (E := Error) _ _ _ _ _ (core_heap _ _ _ (rel_core _ _ _ Hr))).
  rewrite is_first_node, is_last_node. unfold num_items, chunk_length. cbn [content next previous as_chunk fst snd].
  destruct (0 <? _); [exists s; split; [done|]; by eexists|].
  rewrite (next_position s a ns1 n ns2 _ Hr).
  destruct (unlink_sim (E := Error) _ _ _ _ _ (rel_core _ _ _ Hr)) as (s2 & Hun & Hp2 & Hf2 & Hl2).
  run_step Hun. set (a2 := l_set_log _ _) in Hp2.
  assert (ns1 ++ ns2 ≠ []) as Hne.
  { rewrite (core_chunks _ _ _ (rel_core _ _ _ Hr)), length_fmap, length_app in Hlen. simpl in Hlen.
    intros [-> ->]%app_eq_nil. simpl in Hlen. lia. }
  set (s3 := if bool_decide (ns1 = []) then set_first (head_ptr ns2 None) s2 else s2).
  rewrite (bind_step _ _ s2 () s3); cycle 1.
  { subst s3. destruct ns1; [|done]. by destruct ns2. }
  set (s4 := if bool_decide (ns2 = []) then set_last (last_ptr None ns1) s3 else s3).
  rewrite (bind_step _ _ s3 () s4) by (unfold s4; by destruct (bool_decide (ns2 = []))).
  assert (core_plus s4 a2 (ns1 ++ ns2) n.1) as Hp4.
  { subst s3 s4. destruct (bool_decide (ns2 = [])), (bool_decide (ns1 = [])); auto using core_plus_last, core_plus_first. }
  destruct (free_sim (E := Error) _ _ _ _ Hp4) as (s5 & Hfree & Hc5 & Hf5 & Hl5). run_step Hfree.
  apply sim_ret. split; [done|].
  eapply (removed_rel s s5 _ ns1 n ns2); [apply Hr|done|done|..]; rewrite ?Hf5, ?Hl5; unfold s4, s3;
    by destruct (bool_decide (ns2 = [])), (bool_decide (ns1 = [])).
Qed.

(** ** Inserting a gap *)

Lemma insert_before_sim s a ns1 n ns2 id gap :
  core s a (ns1 ++ n :: ns2) →
  ∃ p s' s'', new_gap_leaked (E := Error) id gap s = Ret (Ok p, s')
    ∧ insert_before (E := Error) n.1 p s' = Ret (Ok p, s'')
    ∧ core s'' (l_set_log (push (NewGapChunk (option_or (fst <$> list.last ns1.*2) (l_lazy a)) id (Some n.2.1) gap) <$> l_log a)
                  (l_set_chunks (ns1.*2 ++ (id, GapContent gap) :: n.2 :: ns2.*2) a))
         (ns1 ++ (p, (id, GapContent gap)) :: n :: ns2)
    ∧ first s'' = first s ∧ last s'' = last s.
Proof.
  intros Hc. destruct (new_leaked_ok (E := Error) _ _ _ id (GapContent gap) (core_heap _ _ _ Hc))
    as (p & s1 & Hnew & Hp & Hst1).
  destruct (insert_before_ok (E := Error) _ _ _ _ _ _ _ _ Hp) as (s2 & Hins & Hh & Hst2).
  exists p, s1, s2. split_and!; [done|done| |rewrite (same_first _ _ _ Hst2); apply Hst1
    |rewrite (same_last _ _ _ Hst2); apply Hst1].
  pose proof (core_steps _ _ _ _ _ _ Hc Hh (steps_to_trans _ _ _ _ _ Hst1 Hst2)) as Hc'.
  rewrite fmap_app, !fmap_cons in Hc'. cbn in Hc'. rewrite fmap_last, <- option_fmap_compose. exact Hc'.
Qed.

(** The ends once a gap has been put before a node. *)
Lemma before_rel s s' a' ns1 n ns2 m :
  ends_ok s (ns1 ++ n :: ns2) → core s' a' (ns1 ++ m :: n :: ns2) →
  first s' = (if bool_decide (ns1 = []) then Some m.1 else first s) →
  last s' = (if bool_decide (ns1 = []) && bool_decide (ns2 = []) then Some n.1 else last s) → rel s' a'.
Proof.
  intros [Hf Hl] Hc Hf' Hl'. exists (ns1 ++ m :: n :: ns2). split; [done| |by destruct ns1]. split.
  - rewrite Hf', Hf. by destruct ns1.
  - left. rewrite Hl', last_ptr_app, !last_ptr_cons. rewrite last_ptr_app, last_ptr_cons, length_app in Hl.
    destruct ns1 as [|m' ns1], ns2 as [|n' ns2]; [done|..]; simpl in Hl;
      (destruct Hl as [Hl|[_ Hl]]; [|lia]); exact Hl.
Qed.

Lemma insert_gap_at_sim s a gap position :
  rel s a → sim (done_with eq) (insert_gap_at CAP gap position s) (l_insert_gap_at CAP gap position a).
Proof.
  intros Hr. unfold insert_gap_at, l_insert_gap_at. apply at_position_sim; [done|]. clear s a Hr.
  intros s a ns1 n ns2 cur Hr Hid Hcur. rewrite is_first_node, is_last_node.
  destruct (index position =? 0).
  - apply (sim_bind _ _ _ _ _ _ _ _ (next_identifier_sim s a _ (rel_core _ _ _ Hr))).
    intros id _ s1 a1 (<- & Hc1 & Hf1 & Hl1 & Hz1 & _).
    destruct (insert_before_sim s1 a1 ns1 n ns2 id gap Hc1) as (p & s2 & s3 & Hnew & Hins & Hc3 & Hf3 & Hl3).
    run_step Hnew. run_step Hins. rewrite (bind_step (gets _) _ _ _ _ eq_refl), l_set_step.
    set (m := (p, (id, GapContent gap)) : node) in *.
    destruct (bool_decide (ns1 = [])) eqn:H1; [destruct (bool_decide (ns2 = [])) eqn:H2|];
      apply sim_ret; (split; [done|]); eapply (before_rel s _ _ ns1 n ns2 m); rewrite ?H1, ?H2; cbn;
      try apply Hr; try congruence; by destruct Hc3 as [[] ? ? ?]; split.
  - destruct (length cur <=? index position); [exists s; split; [done|]; by eexists|].
    apply (sim_push_rel _ _ _ _ _ _ _ Hr). clear s a Hr. intros s a Hr.
    destruct (store_content_sim (E := Error) _ _ _ _ _ (Items (take (index position) cur)) (rel_core _ _ _ Hr))
      as (s1 & Hst & Hc1 & Hf1 & Hl1).
    pose proof (rel_content _ _ _ _ _ _ _ _ Hr Hc1 Hf1 Hl1) as Hr1. clear Hf1 Hl1.
    run_step Hst. rewrite l_set_step. set (n1 := (n.1, (n.2.1, _))) in *. set (a1 := l_set_chunks _ a) in *. clearbody a1.
    change (n.1) with (n1.1). change (n.2.1, Items (take (index position) cur)) with (n1.2). clearbody n1. clear s a Hr Hst n Hid Hcur.
    apply (sim_bind _ _ _ _ _ _ _ _ (next_identifier_sim s1 a1 _ Hc1)).
    intros gid _ s2 a2 (<- & Hc2 & Hf2 & Hl2 & Hz2 & _).
    destruct (insert_next_sim (E := Error) s2 a2 ns1 n1 ns2 gid (GapContent gap) Hc2) as (p & s3 & Hnew & Hins).
    unfold new_gap_leaked. run_step Hnew. apply (sim_bind _ _ _ _ _ _ _ _ Hins). clear Hnew Hins s3.
    intros p' _ s3 a3 (-> & Hc3 & Hf3 & Hl3 & Hz3). set (g := (p, (gid, GapContent gap)) : node) in *.
    apply (sim_push _ _ _ _ _ _ _ Hc3). intros s4 a4 Hc4 Hf4 Hl4 Hz4.
    apply (sim_bind _ _ _ _ _ _ _ _ (next_identifier_sim s4 a4 _ Hc4)).
    intros id _ s5 a5 (<- & Hc5 & Hf5 & Hl5 & Hz5 & _). rewrite cons_middle, app_assoc in Hc5.
    destruct (insert_next_sim (E := Error) s5 a5 (ns1 ++ [n1]) g ns2 id (Items []) Hc5) as (q & s6 & Hnew & Hins).
    unfold new_items_leaked. run_step Hnew. rewrite fmap_app in Hins. apply (sim_bind _ _ _ _ _ _ _ _ Hins). clear Hnew Hins s6.
    intros q' _ s6 a6 (-> & Hc6 & Hf6 & Hl6 & Hz6). rewrite cons_middle, app_assoc in Hc6.
    pose proof (push_items_sim (E := Error) (S (S (length (drop (index position) cur)))) s6 a6
      ((ns1 ++ [n1]) ++ [g]) (q, (id, Items [])) ns2 (drop (index position) cur) Hc6) as Hpush.
    rewrite !fmap_app, <- (app_assoc ns1.*2) in Hpush.
    apply (sim_bind _ _ _ _ _ _ _ _ Hpush). clear Hpush. intros r z s7 a7 Hp7.
    apply (pushed_from_next s4 a4 (ns1 ++ [n1]) g) in Hp7; [|congruence..].
    apply (pushed_from_next s1 a1 ns1 n1) in Hp7; [|congruence..].
    rewrite <- (bind_ret_r (l_push EndReattachItems)).
    apply (sim_push_from _ _ _ _ _ _ _ _ _ _ _ _ _ Hp7). clear Hp7. intros s8 a8 Hp8.
    destruct (pushed_ends _ _ _ _ _ _ _ _ _ Hr1 Hp8) as (ns8 & n8 & -> & -> & Hc8 & Hrel).
    rewrite (update_last_ok (E := Error) _ _ _ _ _ Hc8). by apply sim_ret.
Qed.

(** ** Replacing a gap *)

Definition same_chunk (c : Chunk) (d : ChunkIdentifier * Content) : Prop := identifier c = d.1 ∧ content c = d.2.

(** The ends once a gap has been replaced by the nodes [ms]. *)
Lemma replaced_rel s s' a' ns1 n ns2 ms m :
  ends_ok s (ns1 ++ n :: ns2) → core s' a' (ns1 ++ (ms ++ [m]) ++ ns2) →
  first s' = (if bool_decide (ns1 = []) then head_ptr (ms ++ [m]) None else first s) →
  last s' = (if bool_decide (ns2 = []) then Some m.1 else last s) → rel s' a'.
Proof.
  intros [Hf Hl] Hc Hf' Hl'. eexists. split; [done| |by destruct ns1, ms]. split.
  - rewrite Hf', Hf. destruct ns1; [|done]. by destruct ms.
  - left. rewrite Hl'. destruct ns2 as [|n2 ns2 _] using rev_ind.
    + rewrite bool_decide_true by done. by rewrite app_nil_r, app_assoc, last_ptr_app.
    + rewrite bool_decide_false by (by destruct ns2). destruct Hl as [->|[_ Hlen]].
      * by rewrite !last_ptr_app, last_ptr_cons, last_ptr_app.
      * rewrite !length_app in Hlen. simpl in Hlen. rewrite length_app in Hlen. simpl in Hlen. lia.
Qed.

Lemma replace_gap_at_sim s a items id :
  rel s a → sim (done_with same_chunk) (replace_gap_at CAP items id s) (l_replace_gap_at CAP items id a).
Proof.
  intros Hr. unfold replace_gap_at, l_replace_gap_at.
  apply (sim_bind _ _ _ _ _ _ _ _ (chunk_mut_sim s a id Hr)). clear s Hr.
  rename a into a0. intros p z s a (ns1 & n & ns2 & -> & -> & Hid & Hr & _).
  run_step (deref_node (E := Error) _ _ _ _ _ (core_heap _ _ _ (rel_core _ _ _ Hr))).
  rewrite is_first_node. unfold is_items, is_gap. cbn [content as_chunk]. cbn beta iota.
  destruct (n.2.2) as [gap|cur] eqn:Hn; cbn [negb]; [|exists s; split; [done|]; by eexists].
  apply (sim_bind _ _ _ _ _ _ _ _ (next_identifier_sim s a _ (rel_core _ _ _ Hr))).
  intros new _ s1 a1 (<- & Hc1 & Hf1 & Hl1 & Hz1 & _).
  destruct (insert_next_sim (E := Error) s1 a1 ns1 n ns2 new (Items []) Hc1) as (p & s2 & Hnew & Hins).
  unfold new_items_leaked. run_step Hnew. apply (sim_bind _ _ _ _ _ _ _ _ Hins). clear Hnew Hins s2.
  intros p' _ s2 a2 (-> & Hc2 & Hf2 & Hl2 & Hz2). rewrite cons_middle, app_assoc in Hc2.
  pose proof (push_items_sim (E := Error) (S (S (length items))) s2 a2
    (ns1 ++ [n]) (p, (new, Items [])) ns2 items Hc2) as Hpush.
  rewrite fmap_app in Hpush. apply (sim_bind _ _ _ _ _ _ _ _ Hpush). clear Hpush.
  intros r z s3 a3 (ns3 & n3 & ms & -> & -> & Hc3 & Happ & Hhd & Hf3 & Hl3 & Hz3). cbn [fst snd].
  run_step (deref_node (E := Error) _ _ _ _ _ (core_heap _ _ _ Hc3)). rewrite is_last_node.
  assert (drop (S (length ns1.*2)) (ns3.*2 ++ [n3.2]) = ms.*2) as ->.
  { change ([n3.2]) with ([n3].*2). rewrite <- fmap_app, Happ, fmap_app, drop_app_length'; [done|].
    rewrite !length_fmap, length_app. simpl. lia. }
  rewrite cons_middle, app_assoc, Happ, <- !app_assoc in Hc3. cbn [app] in Hc3.
  run_step (deref_node (E := Error) _ _ _ _ _ (core_heap _ _ _ Hc3)). cbn [next as_chunk].
  rewrite head_ptr_app. destruct ms as [|m ms _] using rev_ind; [done|].
  apply (f_equal list.last) in Happ as Hlast. rewrite app_assoc, !last_snoc in Hlast. injection Hlast as ->. clear Happ.
  assert (head_ptr (ms ++ [m]) (head_ptr ns2 None) = Some p) as -> by (by destruct ms).
  rewrite l_set_step.
  destruct (unlink_sim (E := Error) _ _ _ _ _ Hc3) as (s4 & Hun & Hp4 & Hf4 & Hl4). rewrite (fmap_app _ (ms ++ [m])) in Hp4.
  run_step Hun. set (a4 := l_set_log _ _) in Hp4.
  set (s5 := if bool_decide (ns1 = []) then set_first (Some p) s4 else s4).
  rewrite (bind_step _ _ s4 () s5) by (unfold s5; by destruct (bool_decide (ns1 = []))).
  set (s6 := if bool_decide (ns2 = []) then set_last (Some m.1) s5 else s5).
  rewrite (bind_step _ _ s5 () s6) by (unfold s6; by destruct (bool_decide (ns2 = []))).
  assert (core_plus s6 a4 (ns1 ++ (ms ++ [m]) ++ ns2) n.1) as Hp6.
  { subst s5 s6. destruct (bool_decide (ns2 = [])), (bool_decide (ns1 = [])); auto using core_plus_last, core_plus_first. }
  destruct (free_sim (E := Error) _ _ _ _ Hp6) as (s7 & Hfree & Hc7 & Hf7 & Hl7). run_step Hfree.
  assert (rel s7 a4) as Hrel.
  { eapply (replaced_rel s s7 a4 ns1 n ns2 ms m); [apply Hr|done|..]; rewrite ?Hf7, ?Hl7, ?Hhd; unfold s6, s5;
      destruct (bool_decide (ns2 = [])), (bool_decide (ns1 = [])); cbn; congruence. }
  pose proof (core_heap _ _ _ Hc7) as Hh7. destruct ms as [|m' ms]; cbn in Hhd; injection Hhd as <-;
    rewrite (deref_node (E := Error) _ _ _ _ _ Hh7); by apply sim_ret.
Qed.

(** ** Iterating *)

Lemma linked_items prev lz ns nxt : linked prev lz ns nxt ≫= chunk_items = ns.*2 ≫= l_chunk_items.
Proof.
  revert prev lz. induction ns as [|n ns IH]; intros prev lz; [done|]. cbn [linked].
  rewrite fmap_cons, !bind_cons, IH. done.
Qed.

Lemma chunks_sim {E} s a :
  rel s a →
  sim (E := E) (λ cs _ s' a', ∃ n ns, cs = linked None (l_lazy a') (n :: ns) None ∧ rel_nodes s' a' (n :: ns))
    (chunks s) (l_first a).
Proof.
  intros [ns0 Hr]. unfold chunks. rewrite <- (bind_ret_r l_first).
  apply (sim_bind _ _ _ _ _ _ _ _ (first_chunk_sim s a ns0 Hr)). clear s Hr. rename a into a0.
  intros p [] s a (n & ns & -> & Hr & _). pose proof (core_heap _ _ _ (rel_core _ _ _ Hr)) as Hh.
  unfold chunks_from_ptr. rewrite (bind_step (gets _) _ _ _ _ eq_refl).
  rewrite (walk_next_ok s _ [] n ns _ Hh) by (rewrite (heap_size _ _ _ Hh); simpl; lia).
  apply sim_ret. by exists n, ns.
Qed.

Lemma items_sim s a : rel s a → sim (done_with eq) (items s) (l_items a).
Proof.
  intros Hr. unfold items, l_items. apply (sim_bind _ _ _ _ _ _ _ _ (chunks_sim s a Hr)).
  intros cs _ s' a' (n & ns & -> & Hr'). rewrite (bind_step (gets _) _ _ _ _ eq_refl). apply sim_ret.
  split; [|by eexists]. by rewrite linked_items, (core_chunks _ _ _ (rel_core _ _ _ Hr')).
Qed.

Lemma ritems_sim s a : rel s a → sim (done_with (λ x y, x = reverse y)) (ritems s) (l_items a).
Proof.
  intros Hr. unfold ritems, rchunks, l_items. rewrite bind_assoc.
  apply (sim_bind _ _ _ _ _ _ _ _ (latest_first_sim s a Hr)).
  intros p _ s' a' (ns & n & -> & Hr' & _). rewrite (bind_step (gets _) _ _ _ _ eq_refl).
  pose proof (core_heap _ _ _ (rel_core _ _ _ Hr')) as Hh.
  unfold rchunks_from_ptr. rewrite bind_assoc, (bind_step (gets _) _ _ _ _ eq_refl).
  rewrite (bind_step _ _ _ _ _ (walk_previous_ok s' _ ns n [] (size (heap s')) Hh
    ltac:(rewrite (heap_size _ _ _ Hh), length_app; simpl; lia))).
  apply sim_ret. split; [|by eexists]. cbn [head_ptr].
  rewrite (core_chunks _ _ _ (rel_core _ _ _ Hr')), <- (linked_items None (l_lazy a') (ns ++ [n]) None).
  induction (linked None (l_lazy a') (ns ++ [n]) None) as [|c cs IH]; [done|].
  rewrite reverse_cons, bind_app, IH. rewrite (bind_cons chunk_items c cs), reverse_app. cbn. by rewrite app_nil_r.
Qed.

(** ** Clearing *)

Lemma ends_clear_ok {E} s lz ns :
  seg (heap s) None lz ns None → NoDup ns.*1 → ends_ok s ns → length ns <= size (heap s) →
  ∃ s', ends_clear (E := E) s = Ret (Ok (), s')
    ∧ (∀ p, heap s' !! p = if decide (p ∈ ns.*1) then None else heap s !! p)
    ∧ first s' = None ∧ last s' = None ∧ generator s' = generator s ∧ history s' = history s.
Proof.
  intros Hseg Hnd He Hsize. unfold ends_clear. rewrite !(bind_step (gets _) _ _ _ _ eq_refl).
  assert ((match last s with Some p => Some p | None => first s end) = last_ptr None ns) as ->.
  { destruct He as [-> [->|[-> Hlen]]].
    - destruct ns as [|n ns _] using rev_ind; [done|]. by rewrite last_ptr_app.
    - destruct ns as [|n [|]]; [done..|simpl in Hlen; lia]. }
  destruct (free_backwards_ok (E := E) s lz ns None (size (heap s)) Hseg Hnd Hsize) as (s1 & Hrun & Hheap & [_ _ Hg Hh]).
  run_step Hrun. eexists. split; [done|]. cbn. split_and!; try done. rewrite Hh. by destruct (history s).
Qed.

Lemma clear_sim {E} s a : rel s a → sim (E := E) (done_with eq) (clear s) (l_clear a).
Proof.
  intros [ns [Hc He _]]. pose proof (core_heap _ _ _ Hc) as Hh. unfold clear.
  destruct (ends_clear_ok (E := E) s _ ns (ok_seg _ _ _ Hh) (ok_nodup _ _ _ Hh) He) as (s1 & Hrun & Hheap & Hf & Hl & Hg & Hlog).
  { by rewrite (heap_size _ _ _ Hh). }
  run_step Hrun. apply sim_ret. split; [done|]. exists []. split; [|by split; [|left]|done].
  split; cbn; [|done..|by rewrite Hlog, (core_log _ _ _ Hc)].
  assert (heap s1 = ∅) as He1.
  { apply map_empty. intros p. rewrite Hheap. case_decide as Hp; [done|]. apply not_elem_of_dom.
    by rewrite (ok_dom _ _ _ Hh), elem_of_list_to_set. }
  split; cbn; [done|by rewrite He1, dom_empty_L|constructor].
Qed.

(** ** Lazy loading *)

Lemma emit_sim s a n ns :
  rel_nodes s a (n :: ns) →
  sim (done_with eq) (emit_new_first_chunk_updates n.1 s) (l_emit (l_lazy a) n.2 (fst <$> head ns.*2) a).
Proof.
  intros Hr. pose proof (core_heap _ _ _ (rel_core _ _ _ Hr)) as Hh.
  assert (sim (E := LazyLoaderError) (done_with eq)
    ((match n.2.2 with
      | GapContent gap => push_update (NewGapChunk (l_lazy a) n.2.1 (fst <$> head ns.*2) gap)
      | Items items =>
          push_update (NewItemsChunk (l_lazy a) n.2.1 (fst <$> head ns.*2));;
          push_update (PushItems {| chunk_identifier := n.2.1; index := 0 |} items)
      end) s) (l_emit (l_lazy a) n.2 (fst <$> head ns.*2) a)) as Hpush.
  { unfold l_emit. destruct (n.2.2).
    - apply sim_ret. split; [done|]. exists (n :: ns). destruct Hr as [Hc [? ?] ?]. split; [by apply core_push|by split|done].
    - apply (sim_push_rel _ _ _ _ _ _ _ Hr). clear s a Hr Hh. intros s a [Hc [? ?] ?].
      apply sim_ret. split; [done|]. exists (n :: ns). split; [by apply core_push|by split|done]. }
  unfold emit_new_first_chunk_updates, with_updates. rewrite (bind_step (gets _) _ _ _ _ eq_refl).
  destruct (history s) as [h|] eqn:Hhist.
  - run_step (deref_node (E := LazyLoaderError) _ _ [] n ns Hh). cbn [previous lazy_previous as_chunk last_ptr list.last].
    cbn [deref_identifier]. rewrite bind_ret_step. cbn [option_or next as_chunk content identifier lazy_behind].
    assert (deref_identifier (E := LazyLoaderError) (head_ptr ns None) s = Ret (Ok (fst <$> head ns.*2), s)) as Hnext.
    { destruct ns as [|m ns]; [done|]. cbn [head_ptr].
      rewrite (deref_identifier_ok (E := LazyLoaderError) _ _ _ (seg_lookup _ _ _ [n] m ns None (ok_seg _ _ _ Hh))). done. }
    run_step Hnext. exact Hpush.
  - assert (l_log a = None) as Hlog by (by rewrite <- (core_log _ _ _ (rel_core _ _ _ Hr))).
    assert (∀ a u, l_log a = None → l_set_log (push u <$> l_log a) a = a) as Hid.
    { intros [? ? ? ?] u. simpl. by intros ->. }
    assert (l_emit (l_lazy a) n.2 (fst <$> head ns.*2) a = Ret (Ok (), a)) as ->.
    { unfold l_emit. destruct (n.2.2); [|rewrite (bind_step (l_push _) _ _ _ _ eq_refl)];
        unfold l_push, modify; by rewrite ?Hid by (rewrite ?Hid; done). }
    apply sim_ret. split; [done|]. by eexists.
Qed.

Lemma any_sim s a id :
  rel s a →
  sim (λ x b s' a', x = b ∧ rel s' a') (any_chunk (λ c, (identifier c =? id)%Z) s) (l_any id a).
Proof.
  intros Hr. unfold any_chunk, l_any. apply (sim_bind _ _ _ _ _ _ _ _ (chunks_sim s a Hr)).
  intros cs _ s' a' (n & ns & -> & Hr'). rewrite (bind_step (gets _) _ _ _ _ eq_refl). apply sim_ret.
  split; [|by eexists]. rewrite (core_chunks _ _ _ (rel_core _ _ _ Hr')).
  assert (∀ prev lz ns nxt, existsb (λ c : Chunk, (identifier c =? id)%Z) (linked prev lz ns nxt)
    = existsb (λ c, (c.1 =? id)%Z) ns.*2) as Hex; [|by rewrite Hex].
  clear. intros prev lz ns nxt. revert prev lz. induction ns as [|n ns IH]; intros prev lz; [done|]. cbn. by rewrite IH.
Qed.

Lemma insert_new_first_chunk_sim s a raw :
  rel s a → sim (done_with eq) (insert_new_first_chunk CAP raw s) (l_insert_new_first_chunk CAP raw a).
Proof.
  intros Hr. unfold insert_new_first_chunk, l_insert_new_first_chunk.
  destruct (too_large CAP (raw_content raw)); [by exists s|].
  apply (sim_bind (λ x b s' a', x = b ∧ rel s' a')).
  { destruct (raw_previous raw); [by apply any_sim|by apply sim_ret]. }
  clear s a Hr. intros cycle _ s a [<- [ns0 Hr]]. destruct cycle; [exists s; split; [done|]; by eexists|].
  apply (sim_bind _ _ _ _ _ _ _ _ (first_chunk_sim s a ns0 Hr)). clear s Hr. rename a into a0.
  intros p _ s a (n & ns & -> & Hr & _). rewrite !(bind_step (gets _) _ _ _ _ eq_refl).
  pose proof (rel_core _ _ _ Hr) as Hc. rewrite (core_chunks _ _ _ Hc), fmap_cons. cbn [head fmap option_fmap option_map default from_option]. unfold id.
  run_step (deref_node (E := LazyLoaderError) _ _ [] n ns (core_heap _ _ _ Hc)). cbn [identifier lazy_previous as_chunk lazy_behind].
  destruct (raw_next raw) as [nx|]; [|exists s; split; [done|]; by eexists].
  destruct (negb (nx =? n.2.1)%Z); [exists s; split; [done|]; by eexists|].
  destruct (bool_decide (l_lazy a ≠ Some (raw_identifier raw))); [exists s; split; [done|]; by eexists|].
  destruct (new_leaked_ok (E := LazyLoaderError) _ _ _ (raw_identifier raw) (raw_content raw) (core_heap _ _ _ Hc))
    as (p & s1 & Hnew & [Hseg Hp Hdom Hnd] & Hst).
  run_step Hnew. clear Hnew. destruct Hseg as [Hn Hseg]. pose proof Hnd as [[Hpn Hpns]%not_elem_of_cons [Hnns _]%NoDup_cons]%NoDup_cons.
  do 3 heap_step. rewrite (bind_step (modify _) _ _ _ _ eq_refl). heap_step.
  set (t := set_heap _ (set_first _ _)). rewrite (bind_step (gets _) _ t _ _ eq_refl).
  set (t' := match last s with Some _ => t | None => set_last (Some n.1) t end).
  rewrite (bind_step _ _ t () t'); cycle 1.
  { subst t' t. cbn. rewrite (same_last _ _ _ Hst). by destruct (last s). }
  rewrite l_set_step, (bind_step (modify _) _ _ _ _ eq_refl). set (a' := l_set_lazy _ _).
  set (m := (p, (raw_identifier raw, raw_content raw)) : node). apply (emit_sim t' a' m (n :: ns)).
  assert (heap t' = heap t ∧ first t' = first t ∧ generator t' = generator t ∧ history t' = history t)
    as (Hht & Hft & Hgt & Hlt) by (subst t'; by destruct (last s)).
  split; [split; [split|..]| |done]; rewrite ?Hht, ?Hgt, ?Hlt.
  - cbn. simplify_map_eq. split_and!; [done..|].
    eapply seg_frame; [|exact Hseg]. intros q Hq. by rewrite !lookup_insert_ne by (by intros <-).
  - cbn. by heap_dom.
  - done.
  - done.
  - cbn. rewrite (same_generator _ _ _ Hst). apply Hc.
  - cbn. rewrite (more_history _ _ _ Hst), <- (core_log _ _ _ Hc). by destruct (history s).
  - split; [by rewrite Hft|]. left. rewrite !last_ptr_cons. destruct Hr as [_ [_ Hl] _]. subst t' t.
    destruct (last s) as [q|] eqn:Hq; cbn.
    + rewrite (same_last _ _ _ Hst), Hq. destruct Hl as [Hl|[? _]]; [|done]. by rewrite last_ptr_cons in Hl.
    + destruct Hl as [Hl|[_ Hl]]; [|destruct ns; [done|simpl in Hl; lia]].
      symmetry in Hl. by apply last_ptr_None in Hl.
Qed.

Lemma replace_with_sim s a raw gen :
  rel s a → sim (done_with eq) (replace_with CAP raw gen s) (l_replace_with CAP raw gen a).
Proof.
  intros Hr. unfold replace_with, l_replace_with. destruct raw as [raw|]; [|by apply clear_sim].
  destruct (too_large CAP (raw_content raw)); [by exists s|].
  destruct (bool_decide (raw_next raw ≠ None)); [by exists s|].
  destruct Hr as [ns [Hc He _]]. rewrite !(bind_step (modify _) _ _ _ _ eq_refl). rewrite l_set_step.
  assert (heap_ok (set_generator gen s) (l_lazy a) ns) as Hh by (by destruct Hc as [[] ? ? ?]; split).
  destruct (new_leaked_ok (E := LazyLoaderError) _ _ _ (raw_identifier raw) (raw_content raw) Hh)
    as (p & s1 & Hnew & [Hseg Hp Hdom Hnd] & Hst).
  run_step Hnew. heap_step. set (s2 := set_heap _ s1). apply NoDup_cons in Hnd as [Hpn Hnd].
  assert (ends_ok s2 ns) as He2.
  { destruct He as [Hf Hl]. split; cbn; [by rewrite (same_first _ _ _ Hst)|by rewrite (same_last _ _ _ Hst)]. }
  assert (seg (heap s2) None (l_lazy a) ns None) as Hseg2 by (by apply seg_insert_out).
  assert (dom (heap s2) = list_to_set (p :: ns.*1)) as Hdom2 by (cbn; by heap_dom).
  destruct (ends_clear_ok (E := LazyLoaderError) s2 _ ns Hseg2 Hnd He2) as (s3 & Hrun & Hheap & Hf & Hl & Hg & Hlog).
  { rewrite <- size_dom, Hdom2, size_list_to_set by (by constructor). simpl. rewrite length_fmap. lia. }
  unfold ends_replace_with. rewrite bind_assoc. run_step Hrun.
  rewrite !(bind_step (modify _) _ _ _ _ eq_refl). unfold push_clear, l_push_clear.
  rewrite !(bind_step (modify _) _ _ _ _ eq_refl).
  set (t := set_history _ _). set (b := l_set_log _ _). set (m := (p, (raw_identifier raw, raw_content raw)) : node).
  apply (emit_sim t b m []). split; [split; [split|..]| |done]; cbn; try done.
  - split; [|done]. rewrite Hheap. rewrite decide_False by done. cbn. by simplify_map_eq.
  - apply set_eq. intros q. rewrite elem_of_dom, Hheap. cbn. case_decide as Hq.
    + split; [by intros []|]. set_solver.
    + change (is_Some (heap s2 !! q) ↔ q ∈ {[p]} ∪ (∅ : gset ptr)). rewrite <- elem_of_dom, Hdom2.
      cbn. rewrite !elem_of_union, elem_of_list_to_set. set_solver.
  - apply NoDup_singleton.
  - rewrite Hg. cbn. by rewrite (same_generator _ _ _ Hst).
  - rewrite Hlog. cbn. rewrite (more_history _ _ _ Hst), <- (core_log _ _ _ Hc). cbn. by destruct (history s).
  - split; [done|]. cbn. right. split; [done|lia].
Qed.

Lemma from_last_chunk_rel raw gen s :
  from_last_chunk CAP (Some raw) gen = Ok (Some s) → rel s (l_from_last raw gen).
Proof.
  unfold from_last_chunk. repeat case_match; try done. intros [= <-].
  exists [(1%positive, (raw_identifier raw, raw_content raw))]. split; [split; [split|..]| |done]; try done.
  - apply NoDup_singleton.
  - split; [done|]. right. split; [done|simpl; lia].
Qed.

End refine.
