(* ===== verification/LinkedObserver.v ===== *)
(** * What the updates tell an observer

    A linked chunk is followed through its updates: as a vector, as rows of a
    store, as an order of positions.  The class [Observer] states what such a
    follower has to do with each update; the theorems about the list machine show
    that the updates of every operation then keep every observer in step with the
    linked chunk, that the operations return, and that chunks keep their capacity
    and their identifiers stay distinct. *)

From S2P Require Import Prelude Updates LinkedChunk LinkedHeap LinkedList.

(** What the code needs of the capacity of a chunk: an item fits, and its position is
    a machine word. *)
Class Capacity (CAP : nat) : Prop := {
  capacity_positive : 0 < CAP;
  capacity_fits : (Z.of_nat CAP < usize_max)%Z
}.

(** Whether items are detached, and being attached again. *)
Inductive mode := Normal | Detaching | Reattaching.

#[export] Instance mode_eq_dec : EqDecision mode.
Proof. solve_decision. Defined.

Section views.
Context {Item Gap : Type}.
Abbreviation Content := (ChunkContent Item Gap).
Abbreviation chunk := (ChunkIdentifier * Content)%type.
Abbreviation Update := (Update Item Gap).

(** A linked chunk in the middle of an operation: the chunks up to the one that is
    worked on, the items that have been detached from it, and the chunks behind. *)
Record view := {
  v_left : list chunk;
  v_detached : list Item;
  v_right : list chunk;
  v_mode : mode;
  v_lazy : option ChunkIdentifier
}.

Definition normal (L R : list chunk) (lz : option ChunkIdentifier) : view :=
  {| v_left := L; v_detached := []; v_right := R; v_mode := Normal; v_lazy := lz |}.

Definition v_chunks (v : view) : list chunk := v_left v ++ v_right v.

Definition content_items (ct : Content) : list Item :=
  match ct with GapContent _ => [] | Items items => items end.

(** The items of a list of chunks. *)
Definition flat (cs : list chunk) : list Item := cs ≫= (content_items ∘ snd).

Lemma flat_app cs1 cs2 : flat (cs1 ++ cs2) = flat cs1 ++ flat cs2.
Proof. apply bind_app. Qed.

Lemma flat_single c : flat [c] = content_items c.2.
Proof. unfold flat. cbn. apply app_nil_r. Qed.

Lemma chunk_length_items (c : chunk) : chunk_length c = length (content_items c.2).
Proof. unfold chunk_length. by destruct (c.2). Qed.

(** An update does to an observer what [v'] is to [v]. *)
Definition moves_view {O} (observe : Update → O → option O) (sees : O → view → Prop) (u : Update) (v v' : view) : Prop :=
  ∀ o, NoDup (v_chunks v).*1 → sees o v → ∃ o', observe u o = Some o' ∧ sees o' v'.

(** An observer: how it takes an update, what it sees, and the promise that each
    update of the linked chunk moves what it sees. *)
Class Observer (O : Type) : Type := {
  observe : Update → O → option O;
  sees : O → view → Prop;

  (** the identifiers it knows of chunks that are not loaded are below this *)
  floor : option ChunkIdentifier → Z;
  floor_none : (floor None <= FIRST_IDENTIFIER)%Z;

  (** a view without detached items may be split anywhere *)
  sees_split o L R L' R' lz : L ++ R = L' ++ R' → sees o (normal L R lz) → sees o (normal L' R' lz);

  sees_first :
    moves_view observe sees (NewItemsChunk None FIRST_IDENTIFIER None)
      (normal [] [] None) (normal [(FIRST_IDENTIFIER, Items [])] [] None);

  sees_next L c D R m lz new ct :
    content_items ct = [] → new ∉ (L ++ c :: R).*1 → (floor lz < new)%Z →
    moves_view observe sees (new_chunk_update (new_chunk new ct) (Some c.1) (fst <$> head R))
      {| v_left := L ++ [c]; v_detached := D; v_right := R; v_mode := m; v_lazy := lz |}
      {| v_left := (L ++ [c]) ++ [(new, ct)]; v_detached := D; v_right := R; v_mode := m; v_lazy := lz |};

  sees_before L c R lz new gap :
    new ∉ (L ++ c :: R).*1 → (floor lz < new)%Z →
    moves_view observe sees (NewGapChunk (option_or (fst <$> list.last L) lz) new (Some c.1) gap)
      (normal L (c :: R) lz) (normal (L ++ [(new, GapContent gap)]) (c :: R) lz);

  sees_push L id cur D R m lz xs :
    m ≠ Reattaching → (Z.of_nat (length (cur ++ xs)) < usize_max)%Z →
    moves_view observe sees (PushItems {| chunk_identifier := id; index := length cur |} xs)
      {| v_left := L ++ [(id, Items cur)]; v_detached := D; v_right := R; v_mode := m; v_lazy := lz |}
      {| v_left := L ++ [(id, Items (cur ++ xs))]; v_detached := D; v_right := R; v_mode := m; v_lazy := lz |};

  sees_reattach L id cur D R lz xs :
    (Z.of_nat (length (cur ++ xs)) < usize_max)%Z →
    moves_view observe sees (PushItems {| chunk_identifier := id; index := length cur |} xs)
      {| v_left := L ++ [(id, Items cur)]; v_detached := xs ++ D; v_right := R; v_mode := Reattaching; v_lazy := lz |}
      {| v_left := L ++ [(id, Items (cur ++ xs))]; v_detached := D; v_right := R; v_mode := Reattaching; v_lazy := lz |};

  sees_detach L id kept gone R lz :
    moves_view observe sees (DetachLastItems {| chunk_identifier := id; index := length kept |})
      (normal (L ++ [(id, Items (kept ++ gone))]) R lz)
      {| v_left := L ++ [(id, Items kept)]; v_detached := gone; v_right := R; v_mode := Detaching; v_lazy := lz |};

  sees_start L D R lz :
    moves_view observe sees StartReattachItems
      {| v_left := L; v_detached := D; v_right := R; v_mode := Detaching; v_lazy := lz |}
      {| v_left := L; v_detached := D; v_right := R; v_mode := Reattaching; v_lazy := lz |};

  sees_end L R lz :
    moves_view observe sees EndReattachItems
      {| v_left := L; v_detached := []; v_right := R; v_mode := Reattaching; v_lazy := lz |}
      (normal L R lz);

  sees_replace L id xs x y ys R lz :
    moves_view observe sees (ReplaceItem {| chunk_identifier := id; index := length xs |} y)
      (normal (L ++ [(id, Items (xs ++ x :: ys))]) R lz) (normal (L ++ [(id, Items (xs ++ y :: ys))]) R lz);

  sees_remove L id xs x ys R lz :
    moves_view observe sees (RemoveItem {| chunk_identifier := id; index := length xs |})
      (normal (L ++ [(id, Items (xs ++ x :: ys))]) R lz) (normal (L ++ [(id, Items (xs ++ ys))]) R lz);

  sees_remove_chunk L c R lz :
    content_items c.2 = [] → L ++ R ≠ [] →
    moves_view observe sees (RemoveChunk c.1) (normal (L ++ [c]) R lz) (normal L R lz);

  (** clearing does not depend on what was seen *)
  sees_clear o v : sees o v → v_mode v = Normal → ∃ o', observe Clear o = Some o' ∧ sees o' (normal [] [] None)
}.

(** An observer that also follows the loading of earlier chunks. *)
Class LazyObserver (O : Type) `{!Observer O} : Prop := {
  floor_free lz : (floor lz <= FIRST_IDENTIFIER)%Z;

  sees_load cs c new ct lz :
    content_items ct = [] → new ∉ (c :: cs).*1 →
    moves_view observe sees (new_chunk_update (new_chunk new ct) lz (Some c.1))
      (normal [] (c :: cs) (Some new)) (normal [(new, ct)] (c :: cs) lz);

  sees_reload new ct lz :
    content_items ct = [] →
    moves_view observe sees (new_chunk_update (new_chunk new ct) lz None)
      (normal [] [] None) (normal [(new, ct)] [] lz)
}.

End views.

Arguments view : clear implicits.
Arguments flat : simpl never.
Arguments Observer : clear implicits.
Arguments LazyObserver Item Gap O {_}.

Section machine.
Context {Item Gap : Type} (CAP : nat) `{!Capacity CAP}.
Abbreviation Content := (ChunkContent Item Gap).
Abbreviation chunk := (ChunkIdentifier * Content)%type.
Abbreviation Update := (Update Item Gap).
Abbreviation ListChunk := (ListChunk Item Gap).
Abbreviation view := (view Item Gap).
Context {O : Type} `{!Observer Item Gap O}.

Fixpoint observe_all (us : list Update) (o : O) : option O :=
  match us with
  | [] => Some o
  | u :: us => match observe u o with Some o => observe_all us o | None => None end
  end.

Lemma observe_all_snoc us u o :
  observe_all (us ++ [u]) o = match observe_all us o with Some o => observe u o | None => None end.
Proof.
  revert o. induction us as [|u' us IH]; intros o; simpl; [by destruct (observe u o)|].
  by destruct (observe u' o).
Qed.

(** The reader [t] of the history has read up to [o]; with what is pending it sees
    [v]. *)
Definition in_step (o : O) (t : ReaderToken) (v : view) (log : option (UpdatesInner Update)) : Prop :=
  (∃ v0, sees o v0 ∧ v_mode v0 = Normal) ∧
  match log with
  | None => False
  | Some u => updates_ok u ∧ ∃ q o', pending u t = Some q ∧ observe_all q o = Some o' ∧ sees o' v
  end.

Lemma in_step_push o t v v' u log :
  NoDup (v_chunks v).*1 → moves_view observe sees u v v' → in_step o t v log → in_step o t v' (push u <$> log).
Proof.
  intros Hnd Hu [Hbase Hlog]. split; [done|]. destruct log as [l|]; [|done].
  destruct Hlog as (Hok & q & o' & Hq & Ho & Hs). cbn. split; [by apply push_ok|].
  destruct (Hu o' Hnd Hs) as (o'' & Ho'' & Hs''). exists (q ++ [u]), o''.
  rewrite pending_push, Hq, observe_all_snoc, Ho by done. done.
Qed.

Lemma in_step_clear o t v log :
  in_step o t v log → in_step o t (normal [] [] None) (push Clear ∘ clear_pending <$> log).
Proof.
  intros [(v0 & Hv0 & Hm) Hlog]. split; [eauto|]. destruct log as [u|]; [|done]. destruct Hlog as (Hok & q & _ & Hq & _).
  assert (updates_ok (clear_pending u)) as Hok'.
  { destruct Hok as [_ Ht]. split; cbn; [|by apply map_Forall_fmap]. apply map_Forall_fmap. intros ? ? _. cbn. lia. }
  cbn. split; [by apply push_ok|]. destruct (sees_clear o v0 Hv0 Hm) as (o' & Ho' & Hs').
  exists [Clear], o'. rewrite pending_push by done. cbn. rewrite Ho'. split_and!; try done.
  unfold pending in *. cbn. rewrite lookup_fmap. by destruct (last_index_per_reader u !! t).
Qed.

(** The identifiers of the chunks, of the one that is not loaded too. *)
Definition ids (lz : option ChunkIdentifier) (cs : list chunk) : list ChunkIdentifier := option_list lz ++ cs.*1.

#[export] Instance ids_perm lz : Proper ((≡ₚ) ==> (≡ₚ)) (ids lz).
Proof. unfold ids. by intros cs cs' ->. Qed.

Lemma ids_cons lz c cs : ids lz (c :: cs) ≡ₚ c.1 :: ids lz cs.
Proof. unfold ids. by rewrite fmap_cons, Permutation_middle. Qed.

(** The chunks are well formed: distinct identifiers that have been generated, and
    no chunk above its capacity. *)
Record chunks_ok (gen : Z) (lz : option ChunkIdentifier) (cs : list chunk) : Prop := {
  ids_distinct : NoDup (ids lz cs);
  ids_generated : Forall (λ id, 0 <= id <= gen)%Z (ids lz cs);
  capacity_kept : Forall (λ c, chunk_length c <= CAP) cs
}.

(** The state of the machine at the view [v], with [k] identifiers left. *)
Record good (o : O) (t : ReaderToken) (k : nat) (v : view) (a : ListChunk) : Prop := {
  good_chunks : l_chunks a = v_chunks v;
  good_lazy : l_lazy a = v_lazy v;
  good_ok : chunks_ok (l_gen a) (v_lazy v) (v_chunks v);
  good_budget : (0 <= l_gen a ∧ l_gen a + Z.of_nat k < u64_max)%Z;
  good_floor : (floor (v_lazy v) <= l_gen a)%Z;
  good_step : in_step o t v (l_log a)
}.

(** A change of the chunks with the update that tells it. *)
Lemma good_update o t k v v' u cs a :
  good o t k v a → moves_view observe sees u v v' → v_lazy v' = v_lazy v → v_chunks v' = cs → chunks_ok (l_gen a) (v_lazy v) cs →
  good o t k v' (l_set_log (push u <$> l_log a) (l_set_chunks cs a)).
Proof.
  intros [Hc Hlz Hok Hb Hfl Hs] Hu Hlz' <- Hok'. split; cbn; rewrite ?Hlz'; try done.
  eapply in_step_push; [|done|done]. by apply ids_distinct, NoDup_app in Hok as (_ & _ & ?).
Qed.

Lemma good_weaken o t k k' v a : k' <= k → good o t k v a → good o t k' v a.
Proof. intros Hk [? ? ? ? ? ?]. split; try done. lia. Qed.

Lemma good_split o t k L R L' R' lz a :
  L ++ R = L' ++ R' → good o t k (normal L R lz) a → good o t k (normal L' R' lz) a.
Proof.
  intros Heq [Hc Hlz Hok Hb Hfl [Hbase Hs]]. unfold v_chunks in *. cbn in *.
  split; cbn; rewrite <- ?Heq; try done. split; [done|]. destruct (l_log a); [|done].
  destruct Hs as (? & q & o' & ? & ? & ?). split; [done|]. exists q, o'. split_and!; try done. by eapply sees_split.
Qed.

Lemma next_identifier_good {E} o t k v a :
  good o t (S k) v a →
  ∃ a', l_next_identifier (E := E) a = Ret (Ok (l_gen a + 1)%Z, a') ∧ good o t k v a'
    ∧ (l_gen a + 1)%Z ∉ ids (v_lazy v) (v_chunks v) ∧ l_gen a' = (l_gen a + 1)%Z ∧ (floor (v_lazy v) < l_gen a + 1)%Z.
Proof.
  intros [Hc Hlz Hok [H0 Hb] Hfl Hs]. unfold l_next_identifier. destruct (Z.eqb_spec (l_gen a) u64_max) as [?|_]; [lia|].
  eexists. split; [done|]. split_and!; [|intros Hin|done|lia].
  - split; cbn; try done; [|lia..]. destruct Hok as [? Hg ?]. split; try done.
    eapply Forall_impl; [exact Hg|]. cbn. lia.
  - destruct Hok as [_ Hg _]. rewrite Forall_forall in Hg. specialize (Hg _ Hin). lia.
Qed.

Lemma chunks_ok_insert gen lz L R new ct :
  chunks_ok gen lz (L ++ R) → new ∉ ids lz (L ++ R) → (0 <= new <= gen)%Z → content_items ct = [] →
  chunks_ok gen lz (L ++ (new, ct) :: R).
Proof.
  intros [Hd Hg Hc] Hnew Hrange Hct.
  assert (L ++ (new, ct) :: R ≡ₚ (new, ct) :: L ++ R) as Hperm by (by rewrite Permutation_middle).
  split; rewrite Hperm, ?ids_cons; constructor; try done.
  unfold chunk_length. cbn. by destruct ct as [|[]]; simpl in *; [lia..|].
Qed.

Lemma chunks_ok_content gen lz L R id ct ct' :
  chunks_ok gen lz (L ++ (id, ct) :: R) → length (content_items ct') <= CAP → chunks_ok gen lz (L ++ (id, ct') :: R).
Proof.
  intros [Hd Hg Hc] Hct. unfold ids in *. rewrite fmap_app, fmap_cons in *. split; unfold ids; rewrite ?fmap_app, ?fmap_cons; try done.
  apply Forall_app in Hc as [HL [_ HR]%Forall_cons]. apply Forall_app. split; [done|]. constructor; [|done].
  by destruct ct'.
Qed.

Lemma ids_fresh new lz cs : new ∉ ids lz cs → new ∉ cs.*1.
Proof. intros Hn Hin. apply Hn. apply elem_of_app. by right. Qed.

(** Linking a new chunk behind the one that is worked on. *)
Lemma insert_next_good {E} o t k L c D R m lz new ct a :
  good o t k {| v_left := L ++ [c]; v_detached := D; v_right := R; v_mode := m; v_lazy := lz |} a →
  content_items ct = [] → new ∉ ids lz (L ++ c :: R) → (0 <= new <= l_gen a)%Z → (floor lz < new)%Z →
  ∃ a', l_insert_next (E := E) L c (new, ct) R a = Ret (Ok (), a')
    ∧ good o t k {| v_left := (L ++ [c]) ++ [(new, ct)]; v_detached := D; v_right := R; v_mode := m; v_lazy := lz |} a'
    ∧ l_gen a' = l_gen a.
Proof.
  intros Hg Hct Hnew Hrange Hfloor. eexists. split; [done|]. split; [|done].
  apply (good_update _ _ _ _ _ _ _ _ Hg (sees_next L c D R m lz new ct Hct (ids_fresh _ _ _ Hnew) Hfloor) eq_refl).
  { unfold v_chunks. cbn. by rewrite <- !app_assoc. }
  apply good_ok in Hg. unfold v_chunks in Hg. cbn in Hg. rewrite <- app_assoc in Hg.
  cbn [v_lazy]. rewrite (cons_middle c), app_assoc. apply chunks_ok_insert; rewrite <- ?app_assoc; try done.
Qed.

(** How far a chunk is from taking an item: one more chunk when it is full or a
    gap. *)
Definition behind (c : chunk) : nat :=
  match c.2 with GapContent _ => 1 | Items cur => if length cur <? CAP then 0 else 1 end.

(** Where the items that are pushed come from. *)
Definition source (m : mode) (items D D' : list Item) : Prop :=
  if decide (m = Reattaching) then D = items ++ D' else D' = D.


Abbreviation at_view L D R m lz := {| v_left := L; v_detached := D; v_right := R; v_mode := m; v_lazy := lz |}.

(** Items pushed into the chunk that is worked on. *)
Lemma fill_good {E} o t k L id cur D D' R m lz xs a :
  good o t k (at_view (L ++ [(id, Items cur)]) D R m lz) a → source m xs D D' → length (cur ++ xs) <= CAP →
  ∃ a', (l_set (E := E) (L ++ (id, Items (cur ++ xs)) :: R);;
         l_push (PushItems {| chunk_identifier := id; index := length cur |} xs)) a = Ret (Ok (), a')
    ∧ good o t k (at_view (L ++ [(id, Items (cur ++ xs))]) D' R m lz) a'.
Proof.
  intros Hg Hsrc Hlen. eexists. split; [done|].
  assert (moves_view observe sees (PushItems {| chunk_identifier := id; index := length cur |} xs)
    (at_view (L ++ [(id, Items cur)]) D R m lz) (at_view (L ++ [(id, Items (cur ++ xs))]) D' R m lz)) as Hmv.
  { unfold source in Hsrc. destruct (decide (m = Reattaching)) as [->|Hm]; subst D; [apply sees_reattach|apply sees_push; [done|]]; pose proof capacity_fits; lia. }
  apply (good_update _ _ _ _ _ _ _ _ Hg Hmv eq_refl); [by unfold v_chunks; cbn; rewrite <- app_assoc|].
  apply good_ok in Hg. unfold v_chunks in Hg. cbn in Hg. rewrite <- app_assoc in Hg. by eapply chunks_ok_content.
Qed.

Lemma source_split m n xs D D' :
  source m xs D D' → ∃ D1, source m (take n xs) D D1 ∧ source m (drop n xs) D1 D'.
Proof.
  unfold source. destruct (decide (m = Reattaching)); intros ->; [|by exists D]. exists (drop n xs ++ D').
  by rewrite app_assoc, take_drop.
Qed.

Lemma behind_new id : behind (id, Items []) = 0.
Proof. unfold behind. cbn -[Nat.ltb]. by rewrite (proj2 (Nat.ltb_lt 0 CAP) capacity_positive). Qed.

(** The chunk behind which the items go on. *)
Lemma next_chunk_good {E} o t k L c D R m lz ct a :
  good o t (S k) (at_view (L ++ [c]) D R m lz) a → content_items ct = [] →
  ∃ id a', (∀ B (f : ChunkIdentifier → M ListChunk E B),
      (id ← l_next_identifier; l_insert_next L c (id, ct) R;; f id) a = f id a')
    ∧ good o t k (at_view ((L ++ [c]) ++ [(id, ct)]) D R m lz) a'.
Proof.
  intros Hg Hct. destruct (next_identifier_good (E := E) _ _ _ _ _ Hg) as (a1 & Hn & Hg1 & Hfresh & Hgen & Hfloor).
  pose proof (good_budget _ _ _ _ _ Hg) as [H0 _].
  unfold v_chunks in Hfresh. cbn in Hfresh. rewrite <- app_assoc in Hfresh.
  destruct (insert_next_good (E := E) _ _ _ _ _ _ _ _ _ _ _ _ Hg1 Hct Hfresh) as (a2 & Hi & Hg2 & _); [lia|done|].
  exists (l_gen a + 1)%Z, a2. split; [|done]. intros B f. by rewrite (bind_step _ _ _ _ _ Hn), (bind_step _ _ _ _ _ Hi).
Qed.

Lemma l_push_items_good {E} o t fuel k L c D D' R m lz items a :
  length items + behind c <= fuel → source m items D D' →
  good o t (k + (length items + behind c)) (at_view (L ++ [c]) D R m lz) a →
  ∃ z a', l_push_items (E := E) CAP fuel L c R items a = Ret (Ok z, a')
    ∧ good o t k (at_view (z.1 ++ [z.2]) D' R m lz) a'
    ∧ flat (z.1 ++ [z.2]) = flat (L ++ [c]) ++ items ∧ L `prefix_of` z.1.
Proof.
  revert k L c D items a. induction fuel as [|fuel IH]; intros k L c D items a Hf Hsrc Hg.
  all: destruct (decide (items = [])) as [->|Hne].
  1,3: exists (L, c), a; rewrite app_nil_r; assert (D' = D) as -> by (unfold source in Hsrc; by destruct decide);
    split_and!; [done|by eapply good_weaken; [|done]; lia|done|done].
  { destruct items; simpl in Hf; [done|lia]. }
  assert (∀ k c items D a, length items <= fuel → source m items D D' →
    good o t (k + S (length items)) (at_view (L ++ [c]) D R m lz) a →
    ∃ z a', (id ← l_next_identifier; l_insert_next L c (id, Items []) R;;
             l_push_items (E := E) CAP fuel (L ++ [c]) (id, Items []) R items) a = Ret (Ok z, a')
      ∧ good o t k (at_view (z.1 ++ [z.2]) D' R m lz) a'
      ∧ flat (z.1 ++ [z.2]) = flat (L ++ [c]) ++ items ∧ L `prefix_of` z.1) as Hnext.
  { clear - IH Capacity0. intros k c items D a Hf Hsrc Hg. replace (k + S (length items)) with (S (k + length items)) in Hg by lia.
    destruct (next_chunk_good (E := E) _ _ _ _ _ _ _ _ _ (Items []) _ Hg eq_refl) as (id & a1 & Hrun & Hg1). rewrite Hrun.
    destruct (IH k (L ++ [c]) (id, Items []) D items a1) as (z & a2 & Hz & Hgood & Hflat & Hpre);
      rewrite ?behind_new, ?Nat.add_0_r; [done..|].
    exists z, a2. split_and!; try done; [|by etrans; [apply prefix_app_r|]].
    rewrite Hflat, flat_app, (flat_single (id, _)). cbn. by rewrite app_nil_r. }
  destruct c as [cid [gap|cur]]; destruct items as [|x items']; try done; cbn [l_push_items fst snd]; set (items := x :: items') in *.
  { eapply Hnext; [unfold behind in Hf; cbn [snd] in Hf; lia|done|]. eapply good_weaken; [|done]. unfold behind. cbn [snd]. lia. }
  pose proof (capacity_kept _ _ _ (good_ok _ _ _ _ _ Hg)) as Hcap. unfold v_chunks in Hcap. cbn in Hcap.
  rewrite <- app_assoc in Hcap. apply Forall_app in Hcap as [_ [Hcap _]%Forall_cons]. unfold chunk_length in Hcap. cbn in Hcap.
  destruct (Nat.leb_spec (length items) (CAP - length cur)) as [Hfit|Hfull].
  { destruct (fill_good (E := E) _ _ _ _ _ _ _ _ _ _ _ _ _ Hg Hsrc) as (a1 & Hrun & Hg1); [rewrite length_app; lia|].
    exists (L, (cid, Items (cur ++ items))), a1. rewrite <- bind_assoc, (bind_step _ _ _ _ _ Hrun).
    split_and!; [done|by eapply good_weaken; [|done]; lia| |done].
    by rewrite !flat_app, !flat_single, <- app_assoc. }
  unfold behind in Hf, Hg. cbn [snd] in Hf, Hg. set (n := CAP - length cur) in *.
  destruct (source_split m n _ _ _ Hsrc) as (D1 & Hs1 & Hs2). destruct (Nat.ltb_spec 0 n) as [Hn|Hn].
  - destruct (fill_good (E := E) _ _ _ _ _ _ _ _ _ _ _ (take n items) _ Hg Hs1) as (a1 & Hrun & Hg1);
      [rewrite length_app, length_take; lia|].
    rewrite (bind_step _ _ _ _ _ Hrun).
    destruct (Hnext k (cid, Items (cur ++ take n items)) (drop n items) D1 a1) as (z & a2 & Hz & Hgood & Hflat & Hpre);
      [rewrite length_drop; lia|done|eapply good_weaken; [|done]; rewrite length_drop; lia|].
    exists z, a2. split_and!; try done. rewrite Hflat, !flat_app, !flat_single. cbn [snd content_items].
    by rewrite <- !app_assoc, take_drop.
  - destruct (Nat.ltb_spec (length cur) CAP) as [?|_]; [lia|]. assert (n = 0) as -> by lia.
    rewrite bind_ret_step, take_0, app_nil_r, drop_0. eapply Hnext; [lia|exact Hsrc|]. by eapply good_weaken; [|exact Hg]; lia.
Qed.

End machine.
