(* ===== verification/LinkedEdits.v ===== *)
(** * The operations as edits of the items

    Every operation of the list machine returns, keeps the chunks well formed,
    keeps every observer in step, and edits the sequence of the items the way its
    name says: the counterpart of an insertion, a removal or a replacement in a
    vector.

    The second half is the counterpart for the loading of chunks. *)

From S2P Require Import Prelude Updates LinkedChunk LinkedHeap LinkedList LinkedObserver.

Section edits.
Context {Item Gap : Type}.
Abbreviation Content := (ChunkContent Item Gap).
Abbreviation chunk := (ChunkIdentifier * Content)%type.

(** The operations that change a linked chunk. *)
Inductive command :=
| PushItemsBack (items : list Item)
| PushGapBack (gap : Gap)
| InsertItemsAt (position : Position) (items : list Item)
| RemoveItemAt (position : Position)
| ReplaceItemAt (position : Position) (item : Item)
| InsertGapAt (gap : Gap) (position : Position)
| RemoveEmptyChunkAt (id : ChunkIdentifier)
| ReplaceGapAt (items : list Item) (id : ChunkIdentifier)
| ClearAll.

(** The chunks once the first of them has been made. *)
Definition begun (cs : list chunk) : list chunk :=
  match cs with [] => [(FIRST_IDENTIFIER, Items [])] | _ => cs end.

(** A chunk with the number of items before it. *)
Definition locate (id : ChunkIdentifier) (cs : list chunk) : option (nat * Content) :=
  option_map (λ z : list chunk * chunk * list chunk, (length (flat z.1.1), z.1.2.2)) (split_last (λ c, (c.1 =? id)%Z) cs).

(** A chunk of items, likewise. *)
Definition locate_items (id : ChunkIdentifier) (cs : list chunk) : option (nat * list Item) :=
  match locate id cs with Some (n, Items cur) => Some (n, cur) | _ => None end.

(** What an operation does to the items, [None] where it fails. *)
Definition edit (cmd : command) (cs : list chunk) : option (list Item) :=
  let all := flat cs in
  match cmd with
  | PushItemsBack items => Some (all ++ items)
  | PushGapBack _ => Some all
  | InsertItemsAt p items =>
      match locate_items (chunk_identifier p) cs with
      | Some (n, cur) =>
          if index p <=? length cur then Some (take (n + index p) all ++ items ++ drop (n + index p) all) else None
      | None => None
      end
  | RemoveItemAt p =>
      match locate_items (chunk_identifier p) cs with
      | Some (n, cur) =>
          if index p <? length cur then Some (take (n + index p) all ++ drop (S (n + index p)) all) else None
      | None => None
      end
  | ReplaceItemAt p item =>
      match locate_items (chunk_identifier p) cs with
      | Some (n, cur) => if index p <? length cur then Some (<[n + index p := item]> all) else None
      | None => None
      end
  | InsertGapAt _ p =>
      match locate_items (chunk_identifier p) cs with
      | Some (_, cur) => if (index p =? 0) || (index p <? length cur) then Some all else None
      | None => None
      end
  | RemoveEmptyChunkAt id =>
      if length cs <=? 1 then None
      else
        match locate id cs with
        | Some (_, ct) => match content_items ct with [] => Some all | _ => None end
        | None => None
        end
  | ReplaceGapAt items id =>
      match locate id cs with
      | Some (n, GapContent _) => Some (take n all ++ items ++ drop n all)
      | _ => None
      end
  | ClearAll => Some []
  end.

End edits.

Arguments command : clear implicits.

Section ops.
Context {Item Gap : Type} (CAP : nat) `{!Capacity CAP}.
Abbreviation Content := (ChunkContent Item Gap).
Abbreviation chunk := (ChunkIdentifier * Content)%type.
Abbreviation Update := (Update Item Gap).
Abbreviation ListChunk := (ListChunk Item Gap).
Context {O : Type} `{!Observer Item Gap O}.
Implicit Types (o : O) (t : ReaderToken) (cs L R : list chunk) (a : ListChunk).

(** A linked chunk between two operations. *)
Definition settled o t (k : nat) cs (lz : option ChunkIdentifier) a : Prop :=
  good CAP o t k (normal cs [] lz) a ∧ (cs = [] → lz = None).

Lemma flat_begun cs : flat (begun cs) = flat cs.
Proof. by destruct cs. Qed.

Lemma begun_ne cs : begun cs ≠ [].
Proof. by destruct cs. Qed.

Lemma settled_weaken o t k k' cs lz a : k' <= k → settled o t k cs lz a → settled o t k' cs lz a.
Proof. intros Hk [Hg ?]. split; [|done]. by eapply good_weaken. Qed.

Lemma good_settled o t k L R lz a :
  good CAP o t k (normal L R lz) a → L ++ R ≠ [] → settled o t k (L ++ R) lz a.
Proof. intros Hg Hne. split; [|done]. eapply good_split; [|done]. by rewrite app_nil_r. Qed.

Lemma l_first_good {E} o t k cs lz a :
  settled o t k cs lz a →
  ∃ a', l_first (E := E) a = Ret (Ok (), a') ∧ settled o t k (begun cs) lz a' ∧ l_chunks a' = begun cs.
Proof.
  intros [Hg Hz]. pose proof (good_chunks _ _ _ _ _ _ Hg) as Hc. unfold v_chunks in Hc. cbn in Hc. rewrite app_nil_r in Hc.
  unfold l_first. rewrite (bind_step (gets _) _ _ _ _ eq_refl), Hc. destruct cs as [|c cs]; [|by eexists].
  eexists. split; [done|]. split; [|done]. rewrite Hz in Hg |- * by done. split; [|done].
  apply (good_update CAP _ _ _ _ _ _ _ _ Hg sees_first eq_refl eq_refl).
  pose proof (good_budget _ _ _ _ _ _ Hg) as [? _]. split; cbn.
  - apply NoDup_singleton.
  - constructor; [|constructor]. unfold FIRST_IDENTIFIER. lia.
  - constructor; [|constructor]. unfold chunk_length. cbn. lia.
Qed.

Lemma l_latest_good {E} o t k cs lz a :
  settled o t k cs lz a →
  ∃ L c a', l_latest (E := E) a = Ret (Ok (L, c), a') ∧ begun cs = L ++ [c] ∧ good CAP o t k (normal (L ++ [c]) [] lz) a'.
Proof.
  intros Hs. destruct (l_first_good (E := E) _ _ _ _ _ _ Hs) as (a' & Hrun & [Hg _] & Hc).
  unfold l_latest. rewrite (bind_step _ _ _ _ _ Hrun), (bind_step (gets _) _ _ _ _ eq_refl), Hc.
  destruct (exists_last (begun_ne cs)) as (L & c & Heq). rewrite Heq in *. rewrite split_last_snoc.
  by exists L, c, a'.
Qed.

Lemma l_find_good o t k cs lz a id :
  settled o t k cs lz a →
  ∃ a', settled o t k (begun cs) lz a' ∧
    match split_last (λ c, (c.1 =? id)%Z) (begun cs) with
    | Some z => l_find id a = Ret (Ok z, a')
    | None => l_find id a = Ret (Err (InvalidChunkIdentifier id), a')
    end.
Proof.
  intros Hs. destruct (l_first_good (E := Error) _ _ _ _ _ _ Hs) as (a' & Hrun & Hs' & Hc). exists a'. split; [done|].
  unfold l_find. rewrite (bind_step _ _ _ _ _ Hrun), (bind_step (gets _) _ _ _ _ eq_refl), Hc. by destruct (split_last _ _).
Qed.

(** A run that ends in an edit [e] of the items, or in an error that leaves them. *)
Definition edits {A} o t k lz cs (e : option (list Item)) (res : outcome Empty_set (result Error A * ListChunk)) : Prop :=
  ∃ r a' cs', res = Ret (r, a') ∧ settled o t k cs' lz a'
    ∧ match r, e with Ok _, Some xs => flat cs' = xs | Err _, None => cs' = cs | _, _ => False end.

Lemma edits_ret {A} (x : A) o t k lz cs xs L R a' (res : outcome Empty_set (result Error A * ListChunk)) :
  res = Ret (Ok x, a') → good CAP o t k (normal L R lz) a' → L ++ R ≠ [] → flat (L ++ R) = xs →
  edits o t k lz cs (Some xs) res.
Proof. intros -> Hg Hne Hx. exists (Ok x), a', (L ++ R). split_and!; try done. by apply good_settled. Qed.

(** Operations that start at a chunk of items. *)
Lemma at_items_good {A} o t k k' lz cs a id (e : nat → list Item → option (list Item))
    (f : list chunk → chunk → list chunk → list Item → M ListChunk Error A) :
  settled o t k cs lz a → k' <= k →
  (∀ a L R cur, good CAP o t k (normal (L ++ [(id, Items cur)]) R lz) a → begun cs = L ++ (id, Items cur) :: R →
     edits o t k' lz (begun cs) (e (length (flat L)) cur) (f L (id, Items cur) R cur a)) →
  edits o t k' lz (begun cs)
    (match locate_items id (begun cs) with Some (n, cur) => e n cur | None => None end)
    ((z ← l_find id; let '(L, c, R) := z in cur ← l_items_of id c; f L c R cur) a).
Proof.
  intros Hs Hk Hf. destruct (l_find_good _ _ _ _ _ _ id Hs) as (a' & Hs' & Hrun). unfold locate_items, locate.
  destruct (split_last _ (begun cs)) as [[[L c] R]|] eqn:Hsp; cbn [option_map fst snd].
  2:{ rewrite (bind_err _ _ _ _ _ Hrun). exists (Err (InvalidChunkIdentifier id)), a', (begun cs). split_and!; try done.
      by eapply settled_weaken. }
  apply split_last_Some in Hsp as [Heq Hid]. apply Z.eqb_eq in Hid. rewrite (bind_step _ _ _ _ _ Hrun).
  destruct c as [? ct]. cbn in Hid. subst. unfold l_items_of. cbn [snd]. destruct ct as [gap|cur].
  - exists (Err (ChunkIsAGap id)), a', (begun cs). split_and!; try done. by eapply settled_weaken.
  - rewrite bind_ret_step. apply Hf; [|done]. eapply good_split; [|apply Hs']. by rewrite app_nil_r, <- app_assoc.
Qed.

Abbreviation at_view L D R m lz := {| v_left := L; v_detached := D; v_right := R; v_mode := m; v_lazy := lz |}.

Lemma behind_le (c : chunk) : behind CAP c <= 1.
Proof. unfold behind. destruct (c.2); [lia|]. destruct (_ <? _); lia. Qed.

Lemma l_push_all_good {E} o t k n L c D D' R m lz items a :
  source m items D D' → good CAP o t (k + n) (at_view (L ++ [c]) D R m lz) a → length items < n →
  ∃ z a', l_push_all (E := E) CAP L c R items a = Ret (Ok z, a')
    ∧ good CAP o t k (at_view (z.1 ++ [z.2]) D' R m lz) a'
    ∧ flat (z.1 ++ [z.2]) = flat (L ++ [c]) ++ items ∧ L `prefix_of` z.1.
Proof.
  intros Hsrc Hg Hn. pose proof (behind_le c). unfold l_push_all. eapply l_push_items_good; [done|lia|done|].
  eapply good_weaken; [|done]. lia.
Qed.

Lemma source_none items : source Normal items ([] : list Item) [].
Proof. done. Qed.

Lemma snoc_ne (L : list chunk) c R : (L ++ [c]) ++ R ≠ [].
Proof. by destruct L. Qed.

Lemma l_push_items_back_good o t k cs lz a items :
  settled o t (k + S (length items)) cs lz a →
  edits o t k lz (begun cs) (Some (flat cs ++ items)) (l_push_items_back CAP items a).
Proof.
  intros Hs. destruct (l_latest_good (E := Error) _ _ _ _ _ _ Hs) as (L & c & a1 & Hrun & Heq & Hg).
  unfold l_push_items_back. rewrite (bind_step _ _ _ _ _ Hrun). cbn [fst snd].
  destruct (l_push_all_good (E := Error) _ _ _ _ _ _ _ _ _ _ _ _ _ (source_none items) Hg) as (z & a2 & Hrun2 & Hg2 & Hflat & _); [lia|].
  rewrite (bind_step _ _ _ _ _ Hrun2). eapply edits_ret; [done|exact Hg2|apply snoc_ne|].
  by rewrite app_nil_r, Hflat, <- Heq, flat_begun.
Qed.

Lemma l_push_gap_back_good o t k cs lz a gap :
  settled o t (k + 1) cs lz a →
  edits o t k lz (begun cs) (Some (flat cs)) (l_push_gap_back gap a).
Proof.
  intros Hs. destruct (l_latest_good (E := Error) _ _ _ _ _ _ Hs) as (L & c & a1 & Hrun & Heq & Hg).
  unfold l_push_gap_back. rewrite (bind_step _ _ _ _ _ Hrun). cbn [fst snd]. rewrite Nat.add_1_r in Hg.
  destruct (next_chunk_good CAP (E := Error) _ _ _ _ _ _ _ _ _ (GapContent gap) _ Hg eq_refl) as (id & a2 & Hrun2 & Hg2).
  eapply edits_ret; [|exact Hg2|apply snoc_ne|].
  - etrans; [|exact (Hrun2 _ (λ _, mret ()))]. unfold mbind, M_bind. by destruct (l_next_identifier a1) as [[[]]| | |].
  - by rewrite app_nil_r, flat_app, (flat_single (id, _)), app_nil_r, <- Heq, flat_begun.
Qed.

Lemma edits_err {A} o t k k' lz cs L c R a e (res : outcome Empty_set (result Error A * ListChunk)) :
  res = Ret (Err e, a) → good CAP o t k (normal (L ++ [c]) R lz) a → begun cs = L ++ c :: R → k' <= k →
  edits o t k' lz (begun cs) None res.
Proof.
  intros -> Hg Heq Hk. exists (Err e), a, (begun cs). split_and!; try done. eapply settled_weaken; [done|].
  rewrite Heq, (cons_middle c), app_assoc. apply good_settled; [done|apply snoc_ne].
Qed.

Lemma flat_around cs L R id ct : cs = L ++ (id, ct) :: R → flat cs = flat L ++ content_items ct ++ flat R.
Proof. intros ->. rewrite (cons_middle (id, ct)), !flat_app, flat_single. done. Qed.

Lemma take_around (A cur B : list Item) i :
  i <= length cur → take (length A + i) (A ++ cur ++ B) = A ++ take i cur.
Proof. intros Hi. by rewrite take_app_add, take_app_le. Qed.

Lemma drop_around (A cur B : list Item) i :
  i <= length cur → drop (length A + i) (A ++ cur ++ B) = drop i cur ++ B.
Proof. intros Hi. by rewrite drop_app_add, drop_app_le. Qed.

(** Another content for the chunk that is worked on, with the update that tells it. *)
Lemma content_good o t k L id ct ct' D D' R m m' lz u a :
  good CAP o t k (at_view (L ++ [(id, ct)]) D R m lz) a →
  moves_view observe sees u (at_view (L ++ [(id, ct)]) D R m lz) (at_view (L ++ [(id, ct')]) D' R m' lz) →
  length (content_items ct') <= CAP →
  good CAP o t k (at_view (L ++ [(id, ct')]) D' R m' lz)
    (l_set_log (push u <$> l_log a) (l_set_chunks (L ++ (id, ct') :: R) a)).
Proof.
  intros Hg Hu Hct. apply (good_update CAP _ _ _ _ _ _ _ _ Hg Hu eq_refl).
  - unfold v_chunks. cbn. by rewrite <- app_assoc.
  - apply good_ok in Hg. unfold v_chunks in Hg. cbn in Hg. rewrite <- app_assoc in Hg. by eapply chunks_ok_content.
Qed.

Lemma content_fits o t k L id cur D R m lz a :
  good CAP o t k (at_view (L ++ [(id, Items cur)]) D R m lz) a → length cur <= CAP.
Proof.
  intros Hg. apply good_ok, capacity_kept in Hg. unfold v_chunks in Hg. cbn in Hg. rewrite <- app_assoc in Hg.
  by apply Forall_app in Hg as [_ [Hcap _]%Forall_cons].
Qed.

(** An update that leaves the chunks. *)
Lemma mark_good o t k v v' u a :
  good CAP o t k v a → moves_view observe sees u v v' → v_lazy v' = v_lazy v → v_chunks v' = v_chunks v →
  good CAP o t k v' (l_set_log (push u <$> l_log a) a).
Proof.
  intros Hg Hu Hlz Hc. pose proof (good_chunks _ _ _ _ _ _ Hg) as Hcs.
  replace a with (l_set_chunks (v_chunks v) a) at 2 by (rewrite <- Hcs; by destruct a).
  eapply good_update; try done. apply Hg.
Qed.

(** The end of a chunk is detached. *)
Lemma detach_good o t k L id cur i R lz a :
  good CAP o t k (normal (L ++ [(id, Items cur)]) R lz) a → i <= length cur →
  good CAP o t k (at_view (L ++ [(id, Items (take i cur))]) (drop i cur) R Detaching lz)
    (l_set_chunks (L ++ (id, Items (take i cur)) :: R)
       (l_set_log (push (DetachLastItems {| chunk_identifier := id; index := i |}) <$> l_log a) a)).
Proof.
  intros Hg Hi. pose proof (content_fits _ _ _ _ _ _ _ _ _ _ _ Hg). rewrite <- (take_drop i cur) in Hg.
  pose proof (sees_detach L id (take i cur) (drop i cur) R lz) as Hu. rewrite length_take_le in Hu by done.
  apply (content_good _ _ _ _ _ _ _ _ _ _ _ _ _ _ _ Hg Hu). cbn. rewrite length_take_le; lia.
Qed.

(** What was detached is attached again, behind the chunks that came in between. *)
Lemma reattach_good o t k n L c D R lz a :
  good CAP o t (k + n) (at_view (L ++ [c]) D R Reattaching lz) a → length D < n →
  ∃ L' a', (l_push_all CAP L c R D;; l_push EndReattachItems) a = Ret (E := Empty_set) (Ok (E := Error) (), a')
    ∧ good CAP o t k (normal L' R lz) a' ∧ L' ≠ [] ∧ flat L' = flat (L ++ [c]) ++ D.
Proof.
  intros Hg Hn. assert (source Reattaching D D []) as Hsrc by (unfold source; cbn; by rewrite app_nil_r).
  destruct (l_push_all_good (E := Error) _ _ _ _ _ _ _ _ _ _ _ _ _ Hsrc Hg Hn) as (z & a2 & Hrun & Hg2 & Hflat & _).
  rewrite (bind_step _ _ _ _ _ Hrun). exists (z.1 ++ [z.2]). eexists. split; [done|]. split_and!; [|by destruct (z.1)|done].
  by apply (mark_good _ _ _ _ _ _ _ Hg2 (sees_end _ R lz)).
Qed.

Lemma l_insert_items_at_good o t k cs lz a p items :
  settled o t (k + (length items + CAP + 2)) cs lz a →
  edits o t k lz (begun cs) (edit (InsertItemsAt (Gap := Gap) p items) (begun cs)) (l_insert_items_at CAP p items a).
Proof.
  intros Hs. unfold edit, l_insert_items_at. eapply at_items_good; [exact Hs|lia|].
  clear a Hs. intros a L R cur Hg Heq. rewrite (flat_around _ _ _ _ _ Heq). cbn [content_items].
  destruct (Nat.ltb_spec (length cur) (index p)) as [Hlt|Hle].
  { destruct (Nat.leb_spec (index p) (length cur)); [lia|]. by eapply edits_err; [done|done|done|lia]. }
  destruct (Nat.leb_spec (index p) (length cur)) as [_|?]; [|lia].
  rewrite take_around, drop_around by done. pose proof (content_fits _ _ _ _ _ _ _ _ _ _ _ Hg) as Hcap.
  destruct (Nat.eqb_spec (index p) (length cur)) as [->|Hne].
  - destruct (l_push_all_good (E := Error) _ _ _ _ _ _ _ _ _ _ _ _ _ (source_none items) Hg) as (z & a2 & Hrun2 & Hg2 & Hflat & _); [lia|].
    rewrite (bind_step _ _ _ _ _ Hrun2). eapply edits_ret; [done|exact Hg2|apply snoc_ne|].
    rewrite flat_app, Hflat, flat_app, flat_single, firstn_all, drop_all. cbn. by rewrite <- !app_assoc.
  - rewrite l_push_step, l_set_step. cbn [fst]. apply (detach_good _ _ _ _ _ _ (index p)) in Hg; [|done].
    replace (k + (length items + CAP + 2)) with (k + S CAP + S (length items)) in Hg by lia.
    assert (source Detaching items (drop (index p) cur) (drop (index p) cur)) as Hsrc by done.
    destruct (l_push_all_good (E := Error) _ _ _ _ _ _ _ _ _ _ _ _ _ Hsrc Hg) as (z & a2 & Hrun2 & Hg2 & Hflat & _); [lia|].
    rewrite (bind_step _ _ _ _ _ Hrun2), l_push_step. pose proof (mark_good _ _ _ _ _ _ _ Hg2 (sees_start _ _ R lz) eq_refl eq_refl) as Hg3. clear Hg2.
    destruct (reattach_good _ _ _ _ _ _ _ _ _ _ Hg3) as (L' & a3 & Hrun3 & Hg4 & Hne' & Hflat'); [rewrite length_drop; lia|].
    eapply edits_ret; [exact Hrun3|exact Hg4|by destruct L'|].
    rewrite flat_app, Hflat', Hflat, flat_app, flat_single. cbn. by rewrite <- !app_assoc.
Qed.

Lemma l_replace_item_at_good o t k cs lz a p x :
  settled o t k cs lz a →
  edits o t k lz (begun cs) (edit (ReplaceItemAt (Gap := Gap) p x) (begun cs)) (l_replace_item_at p x a).
Proof.
  intros Hs. unfold edit, l_replace_item_at. eapply at_items_good; [exact Hs|lia|].
  clear a Hs. intros a L R cur Hg Heq. rewrite (flat_around _ _ _ _ _ Heq). cbn [content_items].
  destruct (Nat.leb_spec (length cur) (index p)) as [Hle|Hlt].
  { destruct (Nat.ltb_spec (index p) (length cur)); [lia|]. by eapply edits_err; [done|done|done|lia]. }
  destruct (Nat.ltb_spec (index p) (length cur)) as [_|?]; [|lia].
  destruct (lookup_lt_is_Some_2 cur (index p) Hlt) as [y Hy].
  pose proof (content_fits _ _ _ _ _ _ _ _ _ _ _ Hg) as Hcap.
  pose proof (sees_replace L (chunk_identifier p) (take (index p) cur) y x (drop (S (index p)) cur) R lz) as Hu.
  rewrite take_drop_middle, length_take_le in Hu by (done || lia). rewrite <- insert_take_drop in Hu by done.
  eapply edits_ret; [done|eapply (content_good _ _ _ _ _ _ _ _ _ _ _ _ _ _ _ Hg Hu)|apply snoc_ne|].
  - cbn. by rewrite length_insert.
  - rewrite !flat_app, flat_single. cbn. rewrite <- app_assoc, insert_app_r, insert_app_l by done. done.
Qed.

(** A chunk without items is unlinked. *)
Lemma unlink_good o t k L c R lz a :
  good CAP o t k (normal (L ++ [c]) R lz) a → content_items c.2 = [] → L ++ R ≠ [] →
  good CAP o t k (normal L R lz) (l_set_log (push (RemoveChunk c.1) <$> l_log a) (l_set_chunks (L ++ R) a)).
Proof.
  intros Hg Hc Hne. apply (good_update CAP _ _ _ _ _ _ _ _ Hg (sees_remove_chunk L c R lz Hc Hne) eq_refl eq_refl).
  apply good_ok in Hg as [Hd Hr Hf]. unfold v_chunks in *. cbn in *. rewrite <- app_assoc in *. cbn in *.
  assert (L ++ c :: R ≡ₚ c :: (L ++ R)) as Hperm by (by rewrite Permutation_middle).
  rewrite Hperm in Hd, Hr, Hf. rewrite ids_cons in Hd, Hr. split; [by apply NoDup_cons in Hd as [_ ?]|by apply Forall_cons in Hr as [_ ?]|by apply Forall_cons in Hf as [_ ?]].
Qed.

Lemma l_remove_item_at_good o t k cs lz a p :
  settled o t k cs lz a →
  edits o t k lz (begun cs) (edit (RemoveItemAt (Gap := Gap) p) (begun cs)) (l_remove_item_at p a).
Proof.
  intros Hs. unfold edit, l_remove_item_at. eapply at_items_good; [exact Hs|lia|].
  clear a Hs. intros a L R cur Hg Heq. rewrite (flat_around _ _ _ _ _ Heq). cbn [content_items].
  destruct (cur !! index p) as [x|] eqn:Hx.
  2:{ apply lookup_ge_None in Hx. destruct (Nat.ltb_spec (index p) (length cur)); [lia|]. by eapply edits_err; [done|done|done|lia]. }
  pose proof (lookup_lt_Some _ _ _ Hx) as Hlt. destruct (Nat.ltb_spec (index p) (length cur)) as [_|?]; [|lia].
  pose proof (content_fits _ _ _ _ _ _ _ _ _ _ _ Hg) as Hcap.
  pose proof (sees_remove L (chunk_identifier p) (take (index p) cur) x (drop (S (index p)) cur) R lz) as Hu.
  rewrite take_drop_middle, length_take_le in Hu by (done || lia). fold (vec_remove (index p) cur) in Hu.
  pose proof (content_good _ _ _ _ _ _ _ _ _ _ _ _ _ _ _ Hg Hu) as Hg1. cbn [content_items] in Hg1.
  specialize (Hg1 ltac:(unfold vec_remove; rewrite length_app, length_take, length_drop; lia)).
  rewrite <- Nat.add_succ_r, take_around, drop_around by lia.
  rewrite <- app_assoc, (app_assoc (take _ _)). fold (vec_remove (index p) cur).
  rewrite l_set_step, l_push_step. case_bool_decide as Hempty; cbn [andb].
  1: case_bool_decide as HL; cbn [negb].
  2:{ apply nil_length_inv in Hempty. eapply edits_ret; [done|apply (unlink_good _ _ _ _ _ _ _ _ Hg1 Hempty)| |]; [by destruct L..|].
      by rewrite Hempty, flat_app. }
  all: eapply edits_ret; [done|exact Hg1|apply snoc_ne|]; by rewrite !flat_app, flat_single, <- app_assoc.
Qed.

Lemma l_insert_gap_at_good o t k cs lz a gap p :
  settled o t (k + (CAP + 3)) cs lz a →
  edits o t k lz (begun cs) (edit (InsertGapAt (Item := Item) gap p) (begun cs)) (l_insert_gap_at CAP gap p a).
Proof.
  intros Hs. unfold edit, l_insert_gap_at. eapply at_items_good; [exact Hs|lia|].
  clear a Hs. intros a L R cur Hg Heq. rewrite (flat_around _ _ _ _ _ Heq). cbn [content_items].
  destruct (Nat.eqb_spec (index p) 0) as [Hi|Hi]; cbn [orb].
  - apply (good_weaken _ _ _ _ (S k)) in Hg; [|lia]. cbn [fst].
    destruct (next_identifier_good CAP (E := Error) _ _ _ _ _ Hg) as (a1 & Hn & Hg1 & Hfresh & Hgen & Hfloor).
    rewrite (bind_step _ _ _ _ _ Hn), (bind_step (gets _) _ _ _ _ eq_refl), (good_lazy _ _ _ _ _ _ Hg1). cbn [v_lazy normal].
    pose proof (good_budget _ _ _ _ _ _ Hg) as [? _]. unfold v_chunks in Hfresh. cbn in Hfresh. rewrite <- app_assoc in Hfresh.
    apply (good_split _ _ _ _ _ _ L ((chunk_identifier p, Items cur) :: R)) in Hg1; [|by rewrite <- app_assoc].
    pose proof (good_update CAP _ _ _ _ _ _ (L ++ (l_gen a + 1, GapContent gap)%Z :: (chunk_identifier p, Items cur) :: R) _ Hg1
      (sees_before L (chunk_identifier p, Items cur) R lz _ gap (ids_fresh _ _ _ Hfresh) Hfloor) eq_refl) as Hg2.
    eapply edits_ret; [done|apply Hg2|apply snoc_ne|].
    + unfold v_chunks. cbn. by rewrite <- app_assoc.
    + apply chunks_ok_insert; try done; [by apply good_ok in Hg1|lia].
    + by rewrite !flat_app, (flat_single (_, GapContent gap)), app_nil_r.
  - destruct (Nat.leb_spec (length cur) (index p)) as [Hle|Hlt].
    { destruct (Nat.ltb_spec (index p) (length cur)); [lia|]. by eapply edits_err; [done|done|done|lia]. }
    destruct (Nat.ltb_spec (index p) (length cur)) as [_|?]; [|lia].
    pose proof (content_fits _ _ _ _ _ _ _ _ _ _ _ Hg) as Hcap.
    rewrite l_push_step, l_set_step. cbn [fst]. apply (detach_good _ _ _ _ _ _ (index p)) in Hg; [|lia].
    replace (k + (CAP + 3)) with (S (S (k + S CAP))) in Hg by lia.
    destruct (next_chunk_good CAP (E := Error) _ _ _ _ _ _ _ _ _ (GapContent gap) _ Hg eq_refl) as (g & a1 & Hrun1 & Hg1).
    rewrite Hrun1, l_push_step. pose proof (mark_good _ _ _ _ _ _ _ Hg1 (sees_start _ _ R lz) eq_refl eq_refl) as Hg2.
    destruct (next_chunk_good CAP (E := Error) _ _ _ _ _ _ _ _ _ (Items []) _ Hg2 eq_refl) as (new & a2 & Hrun2 & Hg3).
    rewrite Hrun2, (app_assoc L).
    destruct (reattach_good _ _ _ _ _ _ _ _ _ _ Hg3) as (L' & a3 & Hrun3 & Hg4 & Hne' & Hflat'); [rewrite length_drop; lia|].
    eapply edits_ret; [exact Hrun3|exact Hg4|by destruct L'|].
    rewrite flat_app, Hflat', !flat_app, !flat_single. cbn. by rewrite !app_nil_r, <- !app_assoc, (app_assoc (take _ _)), take_drop.
Qed.

Lemma l_remove_empty_chunk_at_good o t k cs lz a id :
  settled o t k cs lz a →
  edits o t k lz (begun cs) (edit (RemoveEmptyChunkAt (Item := Item) (Gap := Gap) id) (begun cs)) (l_remove_empty_chunk_at id a).
Proof.
  intros Hs. destruct (l_first_good (E := Error) _ _ _ _ _ _ Hs) as (a1 & Hrun & Hs1 & Hc1). unfold edit, l_remove_empty_chunk_at.
  rewrite (bind_step _ _ _ _ _ Hrun), (bind_step (gets _) _ _ _ _ eq_refl), Hc1.
  destruct (Nat.leb_spec (length (begun cs)) 1) as [Hle|Hgt].
  { by exists (Err RemovingLastChunk), a1, (begun cs). }
  assert (begun (begun cs) = begun cs) as Hbb by (by destruct cs).
  destruct (l_find_good _ _ _ _ _ _ id Hs1) as (a' & Hs' & Hrun'). rewrite Hbb in Hs', Hrun'. unfold locate.
  destruct (split_last _ (begun cs)) as [[[L [? ct]] R]|] eqn:Hsp; cbn [option_map fst snd].
  2:{ rewrite (bind_err _ _ _ _ _ Hrun'). by exists (Err (InvalidChunkIdentifier id)), a', (begun cs). }
  apply split_last_Some in Hsp as [Heq Hid]. apply Z.eqb_eq in Hid. cbn in Hid. subst. rewrite (bind_step _ _ _ _ _ Hrun').
  assert (chunk_length (id, ct) = length (content_items ct)) as Hlen by (by destruct ct). rewrite Hlen.
  destruct (content_items ct) eqn:Hct; cbn [length].
  2:{ by exists (Err (RemovingNonEmptyItemsChunk id)), a', (begun cs). }
  destruct Hs' as [Hg _]. rewrite Heq in Hg. apply (good_split _ _ _ _ _ _ (L ++ [(id, ct)]) R) in Hg; [|by rewrite app_nil_r, <- app_assoc].
  assert (L ++ R ≠ []) as Hne.
  { rewrite Heq, length_app in Hgt. cbn in Hgt. destruct L, R; cbn in *; (done || lia). }
  eapply edits_ret; [done|apply (unlink_good _ _ _ _ _ _ _ _ Hg Hct Hne)|done|].
  by rewrite (flat_around _ _ _ _ _ Heq), Hct, flat_app.
Qed.

Lemma l_replace_gap_at_good o t k cs lz a items id :
  settled o t (k + (length items + 2)) cs lz a →
  edits o t k lz (begun cs) (edit (ReplaceGapAt (Gap := Gap) items id) (begun cs)) (l_replace_gap_at CAP items id a).
Proof.
  intros Hs. destruct (l_find_good _ _ _ _ _ _ id Hs) as (a' & Hs' & Hrun). unfold edit, l_replace_gap_at, locate.
  destruct (split_last _ (begun cs)) as [[[L [? ct]] R]|] eqn:Hsp; cbn [option_map fst snd].
  2:{ rewrite (bind_err _ _ _ _ _ Hrun). exists (Err (InvalidChunkIdentifier id)), a', (begun cs). split_and!; try done.
      eapply settled_weaken; [|done]. lia. }
  apply split_last_Some in Hsp as [Heq Hid]. apply Z.eqb_eq in Hid. cbn in Hid. subst. rewrite (bind_step _ _ _ _ _ Hrun).
  cbn [snd]. destruct ct as [gap|cur].
  2:{ exists (Err (ChunkIsItems id)), a', (begun cs). split_and!; try done. eapply settled_weaken; [|done]. lia. }
  destruct Hs' as [Hg _]. rewrite Heq in Hg. set (c := (id, GapContent gap)) in *.
  apply (good_split _ _ _ _ _ _ (L ++ [c]) R) in Hg; [|by rewrite app_nil_r, <- app_assoc].
  replace (k + (length items + 2)) with (S (k + S (length items))) in Hg by lia.
  destruct (next_chunk_good CAP (E := Error) _ _ _ _ _ _ _ _ _ (Items []) _ Hg eq_refl) as (new & a1 & Hrun1 & Hg1).
  rewrite Hrun1. destruct (l_push_all_good (E := Error) _ _ _ _ _ _ _ _ _ _ _ _ _ (source_none items) Hg1)
    as (z & a2 & Hrun2 & Hg2 & Hflat & [M HM]); [lia|]. rewrite (bind_step _ _ _ _ _ Hrun2). cbn zeta.
  assert (drop (S (length L)) (z.1 ++ [z.2]) = M ++ [z.2]) as ->.
  { rewrite HM, <- app_assoc. replace (S (length L)) with (length (L ++ [c])) by (rewrite length_app; cbn; lia). apply drop_app_length. }
  rewrite HM in Hg2, Hflat. apply (good_split _ _ _ _ _ _ (L ++ [c]) ((M ++ [z.2]) ++ R)) in Hg2; [|by rewrite <- !app_assoc].
  assert (L ++ (M ++ [z.2]) ++ R ≠ []) as Hne by (by destruct L, M).
  pose proof (unlink_good _ _ _ _ _ _ _ _ Hg2 eq_refl Hne) as Hg3. rewrite l_set_step, l_push_step. cbn [fst].
  rewrite !flat_app, !flat_single in Hflat. cbn [c snd content_items] in Hflat. rewrite !app_nil_r in Hflat.
  assert (flat M ++ content_items (z.2).2 = items) as Hitems.
  { rewrite <- !app_assoc in Hflat. by apply app_inv_head in Hflat. }
  destruct (M ++ [z.2]) as [|d ds] eqn:HMz; [by destruct M|].
  eapply edits_ret; [done|exact Hg3|done|].
  rewrite (flat_around _ _ _ _ _ Heq). cbn [content_items]. rewrite app_nil_l, take_app_length, drop_app_length.
  rewrite <- HMz, !flat_app, flat_single, <- Hitems. by rewrite <- !app_assoc.
Qed.

Lemma l_clear_good {E} o t k cs lz a :
  settled o t k cs lz a → (Z.of_nat k < u64_max)%Z → ∃ a', l_clear (E := E) a = Ret (Ok (), a') ∧ settled o t k [] None a'.
Proof.
  intros [[Hc Hlz Hok Hb Hfl Hst] _] Hk. eexists. split; [done|]. split; [|done].
  split; cbn; try done; [split; constructor|apply floor_none|by apply (in_step_clear _ _ _ _ Hst)].
Qed.

End ops.

(** ** Loading chunks, and observers

    The counterpart of [LinkedEdits.v] for [lazy_loader.rs]: a chunk loaded at the
    front, or in place of all chunks, keeps the chunks well formed and every
    observer of lazy loading in step. *)

Section lazy.
Context {Item Gap : Type} (CAP : nat) `{!Capacity CAP}.
Abbreviation Content := (ChunkContent Item Gap).
Abbreviation chunk := (ChunkIdentifier * Content)%type.
Abbreviation RawChunk := (RawChunk Item Gap).
Abbreviation ListChunk := (ListChunk Item Gap).
Context {O : Type} `{!Observer Item Gap O} `{!LazyObserver Item Gap O}.
Implicit Types (o : O) (t : ReaderToken) (cs L R : list chunk) (a : ListChunk) (raw : RawChunk).

(** What a store promises of a chunk it loads: its identifiers have been
    generated, and it is not its own predecessor. *)
Definition stored (gen : Z) raw : Prop :=
  (0 <= raw_identifier raw <= gen)%Z ∧
  ∀ id, raw_previous raw = Some id → (0 <= id <= gen)%Z ∧ id ≠ raw_identifier raw.

(** A chunk without its items. *)
Definition hollow (ct : Content) : Content :=
  match ct with GapContent gap => GapContent gap | Items _ => Items [] end.

Lemma chunks_ok_load gen raw cs ct :
  stored gen raw → NoDup (raw_identifier raw :: cs.*1) → Forall (λ id, 0 <= id <= gen)%Z cs.*1 →
  Forall (λ c, chunk_length c <= CAP) cs → (∀ id, raw_previous raw = Some id → id ∉ cs.*1) →
  length (content_items ct) <= CAP →
  chunks_ok CAP gen (raw_previous raw) ((raw_identifier raw, ct) :: cs).
Proof.
  intros [Hid Hprev] Hd Hg Hc Hp Hlen.
  assert (chunk_length (raw_identifier raw, ct) <= CAP) as Hcl by (by destruct ct).
  split; [| |by constructor]; unfold ids; destruct (raw_previous raw) as [q|]; cbn; try done.
  - destruct (Hprev q eq_refl) as [_ Hne]. constructor; [|done]. rewrite not_elem_of_cons. split; [done|by apply Hp].
  - destruct (Hprev q eq_refl) as [Hq _]. constructor; [done|]. by constructor.
  - by constructor.
Qed.

(** The updates of [emit_new_first_chunk_updates], as a change of the history. *)
Definition emitted (lz : option ChunkIdentifier) (c : chunk) (nxt : option ChunkIdentifier) a : ListChunk :=
  let a1 := l_set_log (push (new_chunk_update (new_chunk c.1 (hollow c.2)) lz nxt) <$> l_log a) a in
  match c.2 with
  | GapContent _ => a1
  | Items items => l_set_log (push (PushItems {| chunk_identifier := c.1; index := 0 |} items) <$> l_log a1) a1
  end.

Lemma l_emit_run lz c nxt a : l_emit lz c nxt a = Ret (Ok (), emitted lz c nxt a).
Proof. unfold l_emit, emitted. by destruct (c.2). Qed.

(** The items of a chunk that has just been announced. *)
Lemma announced_good o t k raw cs a :
  length (content_items (raw_content raw)) <= CAP →
  good CAP o t k (normal [(raw_identifier raw, hollow (raw_content raw))] cs (raw_previous raw))
    (l_set_log (push (new_chunk_update (new_chunk (raw_identifier raw) (hollow (raw_content raw))) (raw_previous raw) (fst <$> head cs)) <$> l_log a)
       (l_set_chunks ((raw_identifier raw, hollow (raw_content raw)) :: cs) a)) →
  good CAP o t k (normal [] ((raw_identifier raw, raw_content raw) :: cs) (raw_previous raw))
    (emitted (raw_previous raw) (raw_identifier raw, raw_content raw) (fst <$> head cs)
       (l_set_chunks ((raw_identifier raw, raw_content raw) :: cs) a)).
Proof.
  intros Hlen Hg. unfold emitted. cbn [fst snd]. destruct (raw_content raw) as [gap|items]; cbn [hollow] in Hg |- *.
  - by eapply good_split; [|exact Hg].
  - eapply good_split; [|eapply (content_good CAP _ _ _ [] _ (Items []) (Items items) _ [] cs _ Normal _ _ _ Hg); [|done]]; [done|].
    apply (sees_push [] _ [] [] cs Normal); [done|]. pose proof capacity_fits. cbn in *. lia.
Qed.

Lemma l_first_gen {E} a a' : l_first (E := E) a = Ret (Ok (), a') → l_gen a' = l_gen a.
Proof. unfold l_first. rewrite (bind_step (gets _) _ _ _ _ eq_refl). by destruct (l_chunks a); intros [= <-]. Qed.

(** The search for a cycle. *)
Lemma cycle_good o t k cs lz a raw :
  settled CAP o t k cs lz a →
  ∃ b a1 cs1, match raw_previous raw with None => mret false | Some id => l_any id end a = Ret (E := Empty_set) (Ok (E := LazyLoaderError) b, a1)
    ∧ settled CAP o t k cs1 lz a1 ∧ begun cs1 = begun cs ∧ l_gen a1 = l_gen a
    ∧ (b = false → ∀ id, raw_previous raw = Some id → id ∉ (begun cs).*1).
Proof.
  intros Hs. destruct (raw_previous raw) as [q|]; [|by exists false, a, cs].
  destruct (l_first_good CAP (E := LazyLoaderError) _ _ _ _ _ _ Hs) as (a1 & Hrun & Hs1 & Hc). unfold l_any.
  rewrite (bind_step _ _ _ _ _ Hrun), (bind_step (gets _) _ _ _ _ eq_refl), Hc.
  eexists _, a1, (begun cs). split_and!; [done|done|by destruct cs|by eapply l_first_gen|].
  intros Hex id [= <-] Hin. apply not_true_iff_false in Hex. apply Hex, existsb_exists.
  apply list_elem_of_fmap in Hin as (c & -> & Hin). exists c. rewrite Z.eqb_refl. split; [|done]. by apply list_elem_of_In.
Qed.

(** Linking a loaded chunk before the first. *)
Lemma load_good o t k c cs a raw :
  good CAP o t k (normal (c :: cs) [] (Some (raw_identifier raw))) a → stored (l_gen a) raw →
  (∀ id, raw_previous raw = Some id → id ∉ (c :: cs).*1) → length (content_items (raw_content raw)) <= CAP →
  good CAP o t k (normal [] ((raw_identifier raw, raw_content raw) :: c :: cs) (raw_previous raw))
    (emitted (raw_previous raw) (raw_identifier raw, raw_content raw) (Some c.1)
       (l_set_lazy (raw_previous raw) (l_set_chunks ((raw_identifier raw, raw_content raw) :: c :: cs) a))).
Proof.
  intros Hg Hst Hprev Hlen. destruct (Hg) as [_ _ [Hd Hr Hcap] Hb _ Hs].
  apply (good_split _ _ _ _ _ _ [] (c :: cs)) in Hg; [|by rewrite app_nil_r]. destruct Hg as [_ _ _ _ _ Hstep].
  unfold v_chunks in Hd, Hr, Hcap. cbn [v_left v_right v_lazy normal] in Hd, Hr, Hcap. rewrite app_nil_r in Hd, Hr, Hcap.
  apply (announced_good o t k raw (c :: cs) (l_set_lazy (raw_previous raw) a) Hlen).
  assert (content_items (hollow (raw_content raw)) = []) as Hh by (by destruct (raw_content raw)).
  assert (NoDup (raw_identifier raw :: (c :: cs).*1)) as Hnd by done.
  split; cbn; try done.
  - apply chunks_ok_load; try done; [by apply Forall_cons in Hr as [_ ?]|rewrite Hh; cbn; lia].
  - pose proof (floor_free (raw_previous raw)). destruct Hb as [? _]. unfold FIRST_IDENTIFIER in *. lia.
  - apply NoDup_cons in Hnd as [Hfresh Hnd].
    eapply in_step_push; [|by apply (sees_load cs c _ _ (raw_previous raw) Hh Hfresh)|exact Hstep]. done.
Qed.

(** A run that loads chunks, or fails and leaves the items. *)
Definition loads o t k cs lz (cs1 : list chunk) (lz1 : option ChunkIdentifier)
    (res : outcome Empty_set (result LazyLoaderError () * ListChunk)) : Prop :=
  ∃ r a' cs' lz', res = Ret (r, a') ∧ settled CAP o t k cs' lz' a'
    ∧ match r with Ok _ => cs' = cs1 ∧ lz' = lz1 | Err _ => flat cs' = flat cs ∧ lz' = lz end.

Lemma loads_err o t k cs lz cs1 lz1 cs' e a' :
  settled CAP o t k cs' lz a' → flat cs' = flat cs → loads o t k cs lz cs1 lz1 (Ret (Err e, a')).
Proof. intros Hs Hf. by exists (Err e), a', cs', lz. Qed.

Lemma too_large_fits raw :
  too_large CAP (raw_content raw) = false → length (content_items (raw_content raw)) <= CAP.
Proof. unfold too_large. destruct (raw_content raw); cbn; [lia|]. intros H%Nat.ltb_ge. done. Qed.

Lemma l_insert_new_first_chunk_good o t k cs lz a raw :
  settled CAP o t k cs lz a → stored (l_gen a) raw →
  loads o t k cs lz ((raw_identifier raw, raw_content raw) :: begun cs) (raw_previous raw) (l_insert_new_first_chunk CAP raw a).
Proof.
  intros Hs Hst. unfold l_insert_new_first_chunk. pose proof (too_large_fits raw) as Hfit.
  destruct (too_large CAP (raw_content raw)); [by apply loads_err with cs|].
  destruct (cycle_good _ _ _ _ _ _ raw Hs) as (b & a1 & cs1 & Hrun1 & Hs1 & Hb1 & Hgen1 & Hcyc).
  assert (flat cs1 = flat cs) as Hf1 by (by rewrite <- (flat_begun cs1), Hb1, flat_begun).
  rewrite (bind_step _ _ _ _ _ Hrun1). destruct b; [by apply loads_err with cs1|].
  destruct (l_first_good CAP (E := LazyLoaderError) _ _ _ _ _ _ Hs1) as (a2 & Hrun2 & Hs2 & Hc2).
  rewrite (bind_step _ _ _ _ _ Hrun2), !(bind_step (gets _) _ _ _ _ eq_refl), Hc2, (good_lazy _ _ _ _ _ _ (proj1 Hs2)). cbn [v_lazy normal].
  rewrite Hb1 in *. pose proof (l_first_gen _ _ Hrun2) as Hgen2.
  assert (∀ e cs1 lz1, loads o t k cs lz cs1 lz1 (Ret (Err e, a2))) as Herr.
  { intros. apply loads_err with (begun cs); [done|apply flat_begun]. }
  destruct (raw_next raw) as [nxt|]; [|apply Herr]. destruct (begun cs) as [|c cs'] eqn:Hcs; [by destruct (begun_ne cs)|].
  cbn [head fmap option_fmap option_map default]. destruct (negb _); [apply Herr|]. case_bool_decide as Hlz; [apply Herr|].
  assert (lz = Some (raw_identifier raw)) as -> by (destruct (decide (lz = Some (raw_identifier raw))); tauto).
  rewrite l_set_step, (bind_step (modify _) _ _ _ _ eq_refl), l_emit_run.
  eexists (Ok ()), _, _, (raw_previous raw). split; [done|]. split; [|done].
  apply (good_settled CAP _ _ _ []); [|done]. apply load_good; [apply Hs2|by rewrite Hgen2, Hgen1|by apply Hcyc|by apply Hfit].
Qed.

Lemma l_replace_with_good o t k cs lz a chunk gen :
  settled CAP o t k cs lz a → (0 <= gen ∧ gen + Z.of_nat k < u64_max)%Z → from_option (stored gen) True chunk →
  loads o t k cs lz (option_list ((λ raw, (raw_identifier raw, raw_content raw)) <$> chunk)) (chunk ≫= raw_previous)
    (l_replace_with CAP chunk gen a).
Proof.
  intros Hs Hgen Hst. destruct chunk as [raw|]; cbn [l_replace_with from_option] in *.
  2:{ destruct (l_clear_good CAP (E := LazyLoaderError) _ _ _ _ _ _ Hs) as (a' & Hrun & Hs'); [lia|]. by exists (Ok ()), a', [], None. }
  pose proof (too_large_fits raw) as Hfit. destruct (too_large CAP (raw_content raw)); [by apply loads_err with cs|].
  case_bool_decide; [by apply loads_err with cs|].
  destruct Hs as [[_ _ _ _ _ Hstep%in_step_clear] _]. set (log := push Clear ∘ clear_pending <$> l_log a) in Hstep.
  eexists (Ok ()), _, _, _. split.
  { exact (l_emit_run (raw_previous raw) (raw_identifier raw, raw_content raw) None
      (l_set_chunks [(raw_identifier raw, raw_content raw)] (l_set_log log (l_set_lazy (raw_previous raw) (l_set_gen gen a))))). }
  split; [|done]. apply (good_settled CAP _ _ _ []); [|done]. apply (announced_good _ _ _ _ []); [by apply Hfit|].
  assert (content_items (hollow (raw_content raw)) = []) as Hh by (by destruct (raw_content raw)). split; cbn; try done.
  - apply chunks_ok_load; try done; [apply NoDup_singleton|set_solver|rewrite Hh; cbn; lia].
  - pose proof (floor_free (raw_previous raw)). unfold FIRST_IDENTIFIER in *. lia.
  - eapply in_step_push; [|by apply (sees_reload _ _ (raw_previous raw) Hh)|exact Hstep]. constructor.
Qed.

(** The loaded chunk is accepted when it is the one that is waited for. *)
Lemma l_insert_new_first_chunk_accepts o t k c cs a raw :
  settled CAP o t k (c :: cs) (Some (raw_identifier raw)) a → raw_next raw = Some c.1 →
  (∀ id, raw_previous raw = Some id → id ∉ (c :: cs).*1) → length (content_items (raw_content raw)) <= CAP →
  ∃ a', l_insert_new_first_chunk CAP raw a = Ret (Ok (), a') ∧ l_gen a' = l_gen a.
Proof.
  intros [Hg _] Hnext Hprev Hlen. pose proof (good_chunks _ _ _ _ _ _ Hg) as Hc. pose proof (good_lazy _ _ _ _ _ _ Hg) as Hlz.
  unfold v_chunks in Hc. cbn in Hc, Hlz. rewrite app_nil_r in Hc. unfold l_insert_new_first_chunk.
  assert (too_large CAP (raw_content raw) = false) as ->.
  { unfold too_large. destruct (raw_content raw); [done|]. by apply Nat.ltb_ge. }
  assert (l_first (E := LazyLoaderError) a = Ret (Ok (), a)) as Hfirst.
  { unfold l_first. by rewrite (bind_step (gets _) _ _ _ _ eq_refl), Hc. }
  assert (match raw_previous raw with None => mret false | Some id => l_any id end a
    = Ret (E := Empty_set) (Ok (E := LazyLoaderError) false, a)) as Hany.
  { destruct (raw_previous raw) as [q|]; [|done]. unfold l_any.
    rewrite (bind_step _ _ _ _ _ Hfirst), (bind_step (gets _) _ _ _ _ eq_refl), Hc.
    replace (existsb _ _) with false; [done|]. symmetry. apply not_true_is_false. intros (d & Hd & Heq)%existsb_exists.
    apply Z.eqb_eq in Heq. apply (Hprev q eq_refl). rewrite <- Heq. apply list_elem_of_fmap_2. by apply list_elem_of_In. }
  rewrite (bind_step _ _ _ _ _ Hany), (bind_step _ _ _ _ _ Hfirst), !(bind_step (gets _) _ _ _ _ eq_refl), Hc, Hlz, Hnext.
  cbn [head fmap option_fmap option_map default]. rewrite Z.eqb_refl. cbn [negb]. rewrite bool_decide_eq_false_2 by tauto.
  rewrite l_set_step, (bind_step (modify _) _ _ _ _ eq_refl), l_emit_run. eexists. split; [done|].
  unfold emitted. by destruct (raw_content raw).
Qed.

Lemma l_replace_with_accepts raw gen a :
  raw_next raw = None → length (content_items (raw_content raw)) <= CAP →
  ∃ a', l_replace_with CAP (Some raw) gen a = Ret (Ok (), a') ∧ l_gen a' = gen.
Proof.
  intros Hnext Hlen. unfold l_replace_with.
  assert (too_large CAP (raw_content raw) = false) as ->.
  { unfold too_large. destruct (raw_content raw); [done|]. by apply Nat.ltb_ge. }
  rewrite Hnext, bool_decide_eq_false_2 by tauto. eexists.
  split; [exact (l_emit_run (raw_previous raw) (raw_identifier raw, raw_content raw) None
    (l_set_chunks [(raw_identifier raw, raw_content raw)]
      (l_set_log (push Clear ∘ clear_pending <$> l_log a) (l_set_lazy (raw_previous raw) (l_set_gen gen a)))))|].
  unfold emitted. by destruct (raw_content raw).
Qed.

End lazy.
