(* ===== verification/LinkedCommands.v ===== *)
(** * The linked chunk under any sequence of operations

    The operations composed: programs of operations, run on the pointer code and
    on the list machine, and the states the pointer code reaches while a reader
    of its updates follows it. *)

From S2P Require Import Prelude Updates LinkedChunk LinkedHeap LinkedList LinkedRefine LinkedObserver LinkedEdits.

Section commands.
Context {Item Gap : Type}.
Abbreviation Content := (ChunkContent Item Gap).
Abbreviation chunk := (ChunkIdentifier * Content)%type.
Abbreviation RawChunk := (RawChunk Item Gap).
Abbreviation LinkedChunk := (LinkedChunk Item Gap).
Abbreviation ListChunk := (ListChunk Item Gap).
Implicit Types (s : LinkedChunk) (a : ListChunk).

(** An operation, of the linked chunk or of the lazy loader. *)
Inductive action :=
| Do (cmd : command Item Gap)
| LoadFirst (raw : RawChunk)
| ReplaceAll (chunk : option RawChunk) (gen : Z).

Inductive reply :=
| Done
| RemovedItem (item : Item)
| NextPosition (position : option Position)
| InsertedChunk (c : chunk)
| Failed (e : Error)
| LoadFailed (e : LazyLoaderError).

(** A result as a reply. *)
Definition answer {S E A} (ok : A → reply) (err : E → reply) (res : outcome Empty_set (result E A * S)) :
    outcome Empty_set (reply * S) :=
  match res with
  | Ret (Ok x, s) => Ret (ok x, s)
  | Ret (Err e, s) => Ret (err e, s)
  | Throw e => Throw e
  | Panic => Panic
  | OutOfFuel => OutOfFuel
  end.

Context (CAP : nat).

Definition exec (act : action) s : outcome Empty_set (reply * LinkedChunk) :=
  match act with
  | Do (PushItemsBack items) => answer (λ _, Done) Failed (push_items_back CAP items s)
  | Do (PushGapBack gap) => answer (λ _, Done) Failed (push_gap_back gap s)
  | Do (InsertItemsAt p items) => answer (λ _, Done) Failed (insert_items_at CAP p items s)
  | Do (RemoveItemAt p) => answer RemovedItem Failed (remove_item_at p s)
  | Do (ReplaceItemAt p item) => answer (λ _, Done) Failed (replace_item_at p item s)
  | Do (InsertGapAt gap p) => answer (λ _, Done) Failed (insert_gap_at CAP gap p s)
  | Do (RemoveEmptyChunkAt id) => answer NextPosition Failed (remove_empty_chunk_at id s)
  | Do (ReplaceGapAt items id) =>
      answer (λ c, InsertedChunk (identifier c, content c)) Failed (replace_gap_at CAP items id s)
  | Do ClearAll => answer (λ _, Done) Failed (clear s)
  | LoadFirst raw => answer (λ _, Done) LoadFailed (insert_new_first_chunk CAP raw s)
  | ReplaceAll chunk gen => answer (λ _, Done) LoadFailed (replace_with CAP chunk gen s)
  end.

Definition l_exec (act : action) a : outcome Empty_set (reply * ListChunk) :=
  match act with
  | Do (PushItemsBack items) => answer (λ _, Done) Failed (l_push_items_back CAP items a)
  | Do (PushGapBack gap) => answer (λ _, Done) Failed (l_push_gap_back gap a)
  | Do (InsertItemsAt p items) => answer (λ _, Done) Failed (l_insert_items_at CAP p items a)
  | Do (RemoveItemAt p) => answer RemovedItem Failed (l_remove_item_at p a)
  | Do (ReplaceItemAt p item) => answer (λ _, Done) Failed (l_replace_item_at p item a)
  | Do (InsertGapAt gap p) => answer (λ _, Done) Failed (l_insert_gap_at CAP gap p a)
  | Do (RemoveEmptyChunkAt id) => answer NextPosition Failed (l_remove_empty_chunk_at id a)
  | Do (ReplaceGapAt items id) => answer InsertedChunk Failed (l_replace_gap_at CAP items id a)
  | Do ClearAll => answer (λ _, Done) Failed (l_clear a)
  | LoadFirst raw => answer (λ _, Done) LoadFailed (l_insert_new_first_chunk CAP raw a)
  | ReplaceAll chunk gen => answer (λ _, Done) LoadFailed (l_replace_with CAP chunk gen a)
  end.

Section programs.
Context {S : Type} (step : action → S → outcome Empty_set (reply * S)) (list_items : S → outcome Empty_set (result Error (list (Position * Item)) * S))
  (log_of : S → option (UpdatesInner (Update Item Gap))).

(** A program of operations: the replies, the items that are left, and the
    history. *)
Fixpoint run_program (acts : list action) (s : S) :
    outcome Empty_set (list reply * result Error (list (Position * Item)) * option (UpdatesInner (Update Item Gap))) :=
  match acts with
  | [] => let! r := list_items s in Ret ([], r.1, log_of r.2)
  | act :: acts =>
      let! r := step act s in
      let! rest := run_program acts r.2 in
      Ret (r.1 :: rest.1.1, rest.1.2, rest.2)
  end.

End programs.

(** The outcomes correspond: same reply, related states. *)
Definition agree {A} (m : outcome Empty_set (A * LinkedChunk)) (ms : outcome Empty_set (A * ListChunk)) : Prop :=
  match ms with
  | Ret (r, a) => ∃ s, m = Ret (r, s) ∧ rel s a
  | Throw e => m = Throw e
  | Panic => m = Panic
  | OutOfFuel => m = OutOfFuel
  end.

Lemma answer_agree {E A B} (Q : A → B → Prop) (ok : A → reply) (ok' : B → reply) (err : E → reply) m ms :
  (∀ x b, Q x b → ok x = ok' b) → sim (done_with Q) m ms → agree (answer ok err m) (answer ok' err ms).
Proof.
  intros Hok Hsim. destruct ms as [[[b|e] a]|e| |]; cbn in *; try done.
  - destruct Hsim as (x & s & -> & HQ & Hr). exists s. by rewrite <- (Hok x b HQ).
  - destruct Hsim as (s & -> & Hr). by exists s.
  - by rewrite Hsim.
  - by rewrite Hsim.
Qed.

Lemma exec_agree act s a : rel s a → agree (exec act s) (l_exec act a).
Proof.
  intros Hr. destruct act as [[]| |]; cbn [exec l_exec].
  8:{ eapply answer_agree; [|by apply replace_gap_at_sim]. intros c [? ?] [Hid Hct]. cbn in Hid, Hct. by rewrite Hid, Hct. }
  all: eapply (answer_agree eq); [by intros x ? <-|].
  - by apply push_items_back_sim.
  - by apply push_gap_back_sim.
  - by apply insert_items_at_sim.
  - by apply remove_item_at_sim.
  - by apply replace_item_at_sim.
  - by apply insert_gap_at_sim.
  - by apply remove_empty_chunk_at_sim.
  - by apply clear_sim.
  - by apply insert_new_first_chunk_sim.
  - by apply replace_with_sim.
Qed.

Lemma rel_log s a : rel s a → history s = l_log a.
Proof. intros [ns Hr]. apply Hr. Qed.

Lemma run_program_agree acts s a :
  rel s a → run_program exec items history acts s = run_program l_exec l_items l_log acts a.
Proof.
  revert s a. induction acts as [|act acts IH]; intros s a Hr; cbn [run_program].
  - pose proof (items_sim s a Hr) as Hsim. destruct (l_items a) as [[[b|e] a']|[]| |]; cbn in Hsim.
    + destruct Hsim as (x & s' & -> & -> & Hr'). cbn. by rewrite (rel_log _ _ Hr').
    + destruct Hsim as (s' & -> & Hr'). cbn. by rewrite (rel_log _ _ Hr').
    + by rewrite Hsim.
    + by rewrite Hsim.
  - pose proof (exec_agree act s a Hr) as Hag. destruct (l_exec act a) as [[r a']|[]| |]; cbn in Hag.
    + destruct Hag as (s' & -> & Hr'). cbn. by rewrite (IH _ _ Hr').
    + by rewrite Hag.
    + by rewrite Hag.
Qed.

Lemma new_rel : rel (Item := Item) (Gap := Gap) new_with_update_history (l_new (Some new_inner)).
Proof. exists []. split; [split; [split|..]| |]; try done; [constructor|]. by split; [|left]. Qed.

(** C2. Every program of operations, started on a new linked chunk, does on the
    pointer code exactly what it does on the list machine: same replies and
    errors, same items in the end, same history of updates, and a panic only
    where the list machine panics.  In particular the pointer code never follows
    a dangling pointer. *)
Theorem linked_chunk_refines (acts : list action) :
  run_program exec items history acts new_with_update_history
  = run_program l_exec l_items l_log acts (l_new (Some new_inner)).
Proof. apply run_program_agree, new_rel. Qed.

End commands.

Arguments action : clear implicits.
Arguments reply : clear implicits.

(** ** A linked chunk and a reader of its updates *)

Section following.
Context {Item Gap : Type} (CAP : nat) `{!Capacity CAP}.
Abbreviation Content := (ChunkContent Item Gap).
Abbreviation chunk := (ChunkIdentifier * Content)%type.
Abbreviation LinkedChunk := (LinkedChunk Item Gap).
Abbreviation ListChunk := (ListChunk Item Gap).
Context {O : Type} `{!Observer Item Gap O} `{!LazyObserver Item Gap O}.
Implicit Types (s : LinkedChunk) (a : ListChunk) (o : O) (t : ReaderToken).

(** An upper bound for the identifiers an operation generates. *)
Definition cost (cmd : command Item Gap) : nat :=
  match cmd with
  | PushItemsBack items => S (length items)
  | PushGapBack _ => 1
  | InsertItemsAt _ items => length items + CAP + 2
  | InsertGapAt _ _ => CAP + 3
  | ReplaceGapAt items _ => length items + 2
  | RemoveItemAt _ | ReplaceItemAt _ _ | RemoveEmptyChunkAt _ | ClearAll => 0
  end.

(** The linked chunk holds the chunks [cs], well formed, and the reader [t] that
    has read up to [o] is in step; [k] identifiers are left. *)
Definition in_sync o t (k : nat) (cs : list chunk) (lz : option ChunkIdentifier) s : Prop :=
  ∃ a, rel s a ∧ settled CAP o t k cs lz a.

(** The reply of an operation that [edit] describes. *)
Definition failed (r : reply Item Gap) : bool :=
  match r with Failed _ | LoadFailed _ => true | _ => false end.

(** An operation keeps the reader in step, does the edit [e], or fails where there
    is none. *)
Definition performs o t k lz (cs : list chunk) (e : option (list Item)) (m : outcome Empty_set (reply Item Gap * LinkedChunk)) : Prop :=
  ∃ r s cs', m = Ret (r, s) ∧ in_sync o t k cs' lz s
    ∧ failed r = bool_decide (e = None) ∧ flat cs' = default (flat cs) e.

Lemma edits_performs {A} o t k lz cs e (ok : A → reply Item Gap) res m :
  edits CAP o t k lz (begun cs) e res → (∀ x, failed (ok x) = false) → agree m (answer ok Failed res) →
  performs o t k lz cs e m.
Proof.
  intros (r & a & cs' & -> & Hs & He) Hok. destruct r as [x|err], e as [xs|]; try done; cbn; intros (s & -> & Hr).
  - exists (ok x), s, cs'. split_and!; [done|by exists a|by rewrite Hok|done].
  - exists (Failed err), s, cs'. split_and!; try done; [by exists a|]. subst cs'. apply flat_begun.
Qed.

(** [clear] forgets the chunk that is not loaded. *)
Definition lazy_after (cmd : command Item Gap) (lz : option ChunkIdentifier) : option ChunkIdentifier :=
  match cmd with ClearAll => None | _ => lz end.

Lemma do_performs o t k cs lz s cmd :
  in_sync o t (k + cost cmd) cs lz s →
  performs o t k (lazy_after cmd lz) cs (edit cmd (begun cs)) (exec CAP (Do cmd) s).
Proof.
  intros (a & Hr & Hs). pose proof (exec_agree CAP (Do cmd) s a Hr) as Hag.
  destruct cmd; cbn [exec l_exec cost lazy_after] in *.
  9:{ destruct (l_clear_good CAP (E := Error) _ _ _ _ _ _ Hs) as (a' & Hrun & Hs').
      { destruct Hs as [[_ _ _ [? ?] _ _] _]. lia. }
      rewrite Hrun in Hag. cbn in Hag. destruct Hag as (s' & -> & Hr').
      exists Done, s', []. split_and!; try done. exists a'. split; [done|]. eapply settled_weaken; [|done]. lia. }
  all: eapply edits_performs; [| |exact Hag]; [|by intros].
  - cbn [edit]. rewrite flat_begun. by apply l_push_items_back_good.
  - cbn [edit]. rewrite flat_begun. by apply l_push_gap_back_good.
  - by apply l_insert_items_at_good.
  - rewrite Nat.add_0_r in Hs. by apply l_remove_item_at_good.
  - rewrite Nat.add_0_r in Hs. by apply l_replace_item_at_good.
  - by apply l_insert_gap_at_good.
  - rewrite Nat.add_0_r in Hs. by apply l_remove_empty_chunk_at_good.
  - by apply l_replace_gap_at_good.
Qed.

Lemma loads_agree o t k cs lz cs1 lz1 res m :
  loads CAP o t k cs lz cs1 lz1 res → agree m (answer (λ _, Done) LoadFailed res) →
  ∃ r s cs' lz', m = Ret (r, s) ∧ in_sync o t k cs' lz' s
    ∧ (if failed r then flat cs' = flat cs ∧ lz' = lz else cs' = cs1 ∧ lz' = lz1).
Proof.
  intros (r & a & cs' & lz' & -> & Hs & He). destruct r; cbn; intros (s & -> & Hr); eexists _, s, cs', lz'; split_and!; try done; by exists a.
Qed.

Lemma rel_generator s a : rel s a → generator s = l_gen a.
Proof. intros [ns Hr]. apply Hr. Qed.

Lemma load_first_performs o t k cs lz s raw :
  in_sync o t k cs lz s → stored (generator s) raw →
  ∃ r s' cs' lz', exec CAP (LoadFirst raw) s = Ret (r, s') ∧ in_sync o t k cs' lz' s'
    ∧ (if failed r then flat cs' = flat cs ∧ lz' = lz
       else cs' = (raw_identifier raw, raw_content raw) :: begun cs ∧ lz' = raw_previous raw).
Proof.
  intros (a & Hr & Hs) Hst. rewrite (rel_generator _ _ Hr) in Hst. eapply loads_agree; [|by apply (exec_agree CAP (LoadFirst raw))].
  by apply l_insert_new_first_chunk_good.
Qed.

Lemma replace_all_performs o t k cs lz s chunk gen :
  in_sync o t k cs lz s → (0 <= gen ∧ gen + Z.of_nat k < u64_max)%Z → from_option (stored gen) True chunk →
  ∃ r s' cs' lz', exec CAP (ReplaceAll chunk gen) s = Ret (r, s') ∧ in_sync o t k cs' lz' s'
    ∧ (if failed r then flat cs' = flat cs ∧ lz' = lz
       else cs' = option_list ((λ raw, (raw_identifier raw, raw_content raw)) <$> chunk) ∧ lz' = chunk ≫= raw_previous).
Proof.
  intros (a & Hr & Hs) Hgen Hst. eapply loads_agree; [|by apply (exec_agree CAP (ReplaceAll chunk gen))].
  by apply l_replace_with_good.
Qed.

Lemma in_sync_weaken o t k k' cs lz s : k' <= k → in_sync o t k cs lz s → in_sync o t k' cs lz s.
Proof. intros Hk (a & Hr & Hs). exists a. split; [done|]. by eapply settled_weaken. Qed.

Lemma in_sync_budget o t k cs lz s : in_sync o t k cs lz s → (0 <= generator s ∧ generator s + Z.of_nat k < u64_max)%Z.
Proof. intros (a & Hr & [[_ _ _ ? _ _] _]). by rewrite (rel_generator _ _ Hr). Qed.

(** The reader catches up. *)
Lemma read_in_sync o t k cs lz s :
  in_sync o t k cs lz s →
  ∃ h us h' o', history s = Some h ∧ take_with_token t h = Some (us, h') ∧ observe_all us o = Some o'
    ∧ sees o' (normal cs [] lz) ∧ in_sync o' t k cs lz (set_history (Some h') s).
Proof.
  intros (a & Hr & [Hg Hz]). destruct (good_step _ _ _ _ _ _ Hg) as [_ Hst]. rewrite (rel_log _ _ Hr).
  destruct (l_log a) as [h|]; [|done].
  destruct Hst as (Hok & us & o' & Hp & Ho & Hs). pose proof (take_with_token_spec t h Hok) as Ht.
  destruct (take_with_token t h) as [[us' h']|] eqn:Htk; [|congruence]. destruct Ht as (Hok' & Hp' & Hall & _).
  assert (us' = us) as -> by congruence. exists h, us, h', o'. split_and!; try done.
  exists (l_set_log (Some h') a). split.
  - destruct Hr as [ns [[[? ? ?] ? ? ?] [? ?] ?]]. exists ns. by split; [split; [split|..]|split|].
  - split; [|done]. destruct Hg as [? ? ? ? ? _]. split; try done. split; [by eexists|]. cbn. split; [done|].
    exists [], o'. rewrite Hall, decide_True by done. done.
Qed.

(** The steps of a linked chunk whose updates are read, with the identifiers they
    may use up. *)
Inductive follow_step t : nat → LinkedChunk * O → LinkedChunk * O → Prop :=
| follow_do cmd r s s' o :
    exec CAP (Do cmd) s = Ret (r, s') → follow_step t (cost cmd) (s, o) (s', o)
| follow_load raw r s s' o :
    stored (generator s) raw → exec CAP (LoadFirst raw) s = Ret (r, s') → follow_step t 0 (s, o) (s', o)
| follow_replace chunk gen r s s' o :
    (0 <= gen)%Z → from_option (stored gen) True chunk → exec CAP (ReplaceAll chunk gen) s = Ret (r, s') →
    follow_step t (Z.to_nat gen) (s, o) (s', o)
| follow_read us h h' s o o' :
    history s = Some h → take_with_token t h = Some (us, h') → observe_all us o = Some o' →
    follow_step t 0 (s, o) (set_history (Some h') s, o').

Inductive follows t : nat → LinkedChunk * O → LinkedChunk * O → Prop :=
| follows_refl st : follows t 0 st st
| follows_step n m st st' st'' : follow_step t n st st' → follows t m st' st'' → follows t (n + m) st st''.

Lemma follow_step_in_sync t n k st st' cs lz :
  follow_step t n st st' → in_sync st.2 t (k + n) cs lz st.1 → ∃ cs' lz', in_sync st'.2 t k cs' lz' st'.1.
Proof.
  destruct 1 as [cmd r s s' o Hx|raw r s s' o Hst Hx|chunk gen r s s' o Hgen Hst Hx|us h h' s o o' Hh Ht Ho]; cbn [fst snd]; intros Hs.
  - destruct (do_performs _ _ _ _ _ _ _ Hs) as (? & ? & cs' & Heq & Hs' & _). rewrite Hx in Heq. simplify_eq. eauto.
  - rewrite Nat.add_0_r in Hs. destruct (load_first_performs _ _ _ _ _ _ _ Hs Hst) as (? & ? & cs' & lz' & Heq & Hs' & _).
    rewrite Hx in Heq. simplify_eq. eauto.
  - pose proof (in_sync_budget _ _ _ _ _ _ Hs) as [? ?].
    destruct (replace_all_performs _ _ k _ _ _ chunk gen (in_sync_weaken _ _ (k + Z.to_nat gen) k _ _ _ ltac:(lia) Hs) ltac:(lia) Hst) as (? & ? & cs' & lz' & Heq & Hs' & _).
    rewrite Hx in Heq. simplify_eq. eauto.
  - rewrite Nat.add_0_r in Hs. destruct (read_in_sync _ _ _ _ _ _ Hs) as (h1 & us' & h2 & o2 & Hh1 & Ht' & Ho' & _ & Hs').
    assert (h1 = h) as -> by congruence. assert (us' = us ∧ h2 = h') as [-> ->] by (rewrite Ht in Ht'; by simplify_eq).
    assert (o2 = o') as -> by congruence. eauto.
Qed.

Lemma follows_in_sync t n k st st' cs lz :
  follows t n st st' → in_sync st.2 t (k + n) cs lz st.1 → ∃ cs' lz', in_sync st'.2 t k cs' lz' st'.1.
Proof.
  intros Hf. revert cs lz. induction Hf as [st|n m st st1 st2 Hstep Hf IH]; intros cs lz Hs.
  - rewrite Nat.add_0_r in Hs. eauto.
  - rewrite (Nat.add_comm n), Nat.add_assoc in Hs.
    destruct (follow_step_in_sync _ _ _ _ _ _ _ Hstep Hs) as (cs1 & lz1 & Hs1). eauto.
Qed.

End following.

(** ** New readers *)

Section readers.
Context {Item Gap : Type} (CAP : nat).
Abbreviation LinkedChunk := (LinkedChunk Item Gap).

(** Another history for a linked chunk, of which a reader has everything. *)
Lemma handover {O1 O2} `{!Observer Item Gap O1} `{Observer2 : !Observer Item Gap O2} (o1 : O1) (o2 : O2) t1 t k cs lz (s : LinkedChunk) h q o' :
  in_sync CAP o1 t1 k cs lz s → updates_ok h →
  pending h t = Some q → (∃ v0, sees o2 v0 ∧ v_mode v0 = Normal) → observe_all q o2 = Some o' → sees o' (normal cs [] lz) →
  (floor (Observer := Observer2) lz <= generator s)%Z →
  in_sync CAP o2 t k cs lz (set_history (Some h) s).
Proof.
  intros (a & Hr & [Hg Hz]) Hok Hp Hv0 Ho Hs Hfl. rewrite (rel_generator _ _ Hr) in Hfl. exists (l_set_log (Some h) a). split.
  - destruct Hr as [ns [[[? ? ?] ? ? ?] [? ?] ?]]. exists ns. by split; [split; [split|..]|split|].
  - split; [|done]. destruct Hg as [? ? ? ? _ _]. split; try done. split; [done|]. cbn. split; [done|]. by exists q, o'.
Qed.

Lemma in_sync_log {O} `{!Observer Item Gap O} (o : O) t k cs lz (s : LinkedChunk) :
  in_sync CAP o t k cs lz s → ∃ h, history s = Some h ∧ updates_ok h ∧ is_Some (pending h t).
Proof.
  intros (a & Hr & [[_ _ _ _ _ [_ Hst]] _]). rewrite <- (rel_log _ _ Hr) in Hst. destruct (history s) as [h|]; [|done].
  destruct Hst as (Hok & q & o' & Hq & _). by eauto.
Qed.

End readers.

(** ** The reachable states *)

(** An observer that looks at nothing: the properties of the linked chunk alone. *)
#[export] Program Instance blind_observer {Item Gap} : Observer Item Gap () := {|
  observe := λ _ _, Some ();
  sees := λ _ _, True;
  floor := λ _, FIRST_IDENTIFIER
|}.
Solve All Obligations with (intros; first [done|intros ?; eauto|eauto]).

#[export] Instance blind_lazy_observer {Item Gap} : LazyObserver Item Gap ().
Proof. split; intros; first [done|intros ?; eauto]. Qed.

Lemma blind_observes {Item Gap} (us : list (Update Item Gap)) : observe_all us () = Some ().
Proof. by induction us. Qed.

Section reachable.
Context {Item Gap : Type} (CAP : nat) `{!Capacity CAP}.
Abbreviation Content := (ChunkContent Item Gap).
Abbreviation chunk := (ChunkIdentifier * Content)%type.
Abbreviation LinkedChunk := (LinkedChunk Item Gap).

(** A state that operations, loads and reads lead to, with the identifiers they
    may have used up. *)
Definition reachable (n : nat) (s : LinkedChunk) : Prop :=
  follows CAP MAIN_READER_TOKEN n (new_with_update_history, ()) (s, ()).

(** The chunks, without their links. *)
Definition contents (cs : list (Chunk Item Gap)) : list chunk := (λ c, (identifier c, content c)) <$> cs.

Lemma new_in_sync {O} `{!Observer Item Gap O} (o : O) k :
  sees o (normal [] [] None) → (Z.of_nat k < u64_max)%Z →
  in_sync CAP o MAIN_READER_TOKEN k [] None (new_with_update_history (Item := Item) (Gap := Gap)).
Proof.
  intros Ho Hk. exists (l_new (Some new_inner)). split; [apply new_rel|]. split; [|done]. split; cbn; try done.
  - split; constructor.
  - apply floor_none.
  - split; [by exists (normal [] [] None)|]. split; [apply new_inner_ok|]. by exists [], o.
Qed.

Lemma reachable_in_sync n k s :
  reachable n s → (Z.of_nat (k + n) < u64_max)%Z → ∃ cs lz, in_sync CAP () MAIN_READER_TOKEN k cs lz s.
Proof. intros Hr Hk. exact (follows_in_sync CAP _ _ _ _ _ _ _ Hr (new_in_sync () _ I Hk)). Qed.

Lemma chunks_in_sync {E O} `{!Observer Item Gap O} (o : O) t k cs lz (s : LinkedChunk) :
  in_sync CAP o t k cs lz s →
  ∃ ch s', chunks (E := E) s = Ret (Ok ch, s') ∧ contents ch = begun cs
    ∧ (∀ c, head ch = Some c → lazy_previous c = lz) ∧ chunks_ok CAP (generator s) lz (begun cs)
    ∧ in_sync CAP o t k (begun cs) lz s' ∧ generator s' = generator s.
Proof.
  intros (a & Hr & Hs). pose proof (chunks_sim (E := E) s a Hr) as Hsim. rewrite (rel_generator _ _ Hr).
  destruct (l_first_good CAP (E := E) _ _ _ _ _ _ Hs) as (a' & Hrun & Hs1 & Hc). rewrite Hrun in Hsim.
  destruct (Hs1) as [Hs' _]. destruct Hsim as (ch & s' & Hch & n & ns & -> & Hr'). eexists _, s'. split; [done|].
  rewrite <- (l_first_gen _ _ Hrun). pose proof (good_lazy _ _ _ _ _ _ Hs') as Hlz. pose proof (good_ok _ _ _ _ _ _ Hs') as Hok.
  unfold v_chunks in Hok. cbn in Hlz, Hok. rewrite app_nil_r in Hok. split_and!; [|by intros ? [= <-]|done|exists a'; split; [by eexists|done]|apply Hr'].
  rewrite <- Hc, (core_chunks _ _ _ (rel_core _ _ _ Hr')). generalize (n :: ns). clear. intros ns.
  generalize (@None ptr) at 1. generalize (l_lazy a'). induction ns as [|n ns IH]; intros lz prev; [done|].
  cbn. by rewrite IH, <- surjective_pairing.
Qed.

Lemma items_in_sync {O} `{!Observer Item Gap O} (o : O) t k cs lz (s : LinkedChunk) :
  in_sync CAP o t k cs lz s → ∃ l s', items s = Ret (Ok l, s') ∧ l = begun cs ≫= l_chunk_items.
Proof.
  intros (a & Hr & Hs). pose proof (items_sim s a Hr) as Hsim. unfold l_items in Hsim.
  destruct (l_first_good CAP (E := Error) _ _ _ _ _ _ Hs) as (a' & Hrun & _ & Hc).
  rewrite (bind_step _ _ _ _ _ Hrun), (bind_step (gets _) _ _ _ _ eq_refl), Hc in Hsim.
  destruct Hsim as (l & s' & Hl & -> & _). by exists (begun cs ≫= l_chunk_items), s'.
Qed.

Lemma chunk_items_flat (cs : list chunk) : (cs ≫= l_chunk_items).*2 = flat cs.
Proof.
  induction cs as [|c cs IH]; [done|]. rewrite bind_cons, fmap_app, IH. change (flat (c :: cs)) with (flat ([c] ++ cs)).
  rewrite flat_app, flat_single. f_equal. unfold l_chunk_items. destruct (c.2) as [|xs]; [done|].
  rewrite fmap_imap. cbn. clear. induction xs as [|x xs IH]; [done|]. cbn. f_equal. exact IH.
Qed.

(** C23. Every operation of the linked chunk, on every state that operations, lazy
    loads and reads lead to, returns -- no panic, no dangling pointer, no endless
    loop -- and does to the sequence of the items what its name says: [edit] on
    the chunks before it, an insertion, a removal or a replacement at the place of
    the position; where [edit] has no result it answers with an error and leaves
    the items. *)
Theorem commands_edit_items n (s : LinkedChunk) cmd :
  reachable n s → (Z.of_nat (n + cost CAP cmd) < u64_max)%Z →
  ∃ ch s1 r s2 l s3,
    chunks (E := Error) s = Ret (Ok ch, s1) ∧ exec CAP (Do cmd) s = Ret (r, s2) ∧ items s2 = Ret (Ok l, s3)
    ∧ failed r = bool_decide (edit cmd (contents ch) = None)
    ∧ l.*2 = default (flat (contents ch)) (edit cmd (contents ch)).
Proof.
  intros Hr Hn. destruct (reachable_in_sync n (0 + cost CAP cmd) s Hr) as (cs & lz & Hs); [lia|].
  destruct (chunks_in_sync (E := Error) _ _ _ _ _ _ Hs) as (ch & s1 & Hch & Hcs & _).
  destruct (do_performs CAP _ _ _ _ _ _ _ Hs) as (r & s2 & cs' & Hx & Hs2 & Hf & Hflat).
  destruct (items_in_sync _ _ _ _ _ _ Hs2) as (l & s3 & Hl & ->). eexists ch, s1, r, s2, _, s3. rewrite Hcs.
  split_and!; try done. by rewrite chunk_items_flat, !flat_begun.
Qed.

(** In every reachable state of the linked chunk the chunks are well formed:
    identifiers are distinct and have been generated, the identifier of the chunk
    that is not loaded is not among them, and no chunk holds more than [CAP]
    items. *)
Theorem reachable_chunks_ok n (s : LinkedChunk) :
  reachable n s → (Z.of_nat n < u64_max)%Z →
  ∃ ch s', chunks (E := Error) s = Ret (Ok ch, s')
    ∧ NoDup (identifier <$> ch)
    ∧ Forall (λ c, 0 <= identifier c <= generator s)%Z ch
    ∧ Forall (λ c, num_items c <= CAP) ch
    ∧ ∀ c id, head ch = Some c → lazy_previous c = Some id → id ∉ (identifier <$> ch).
Proof.
  intros Hr Hn. destruct (reachable_in_sync n 0 s Hr) as (cs & lz & Hs); [lia|].
  destruct (chunks_in_sync (E := Error) _ _ _ _ _ _ Hs) as (ch & s1 & Hch & Hcs & Hlz & [Hd Hg Hc] & _). exists ch, s1.
  assert (identifier <$> ch = (begun cs).*1) as Hid by (rewrite <- Hcs; unfold contents; by rewrite <- list_fmap_compose).
  rewrite <- Hcs in Hc. unfold ids in Hd, Hg. rewrite <- Hid in Hd, Hg. apply NoDup_app in Hd as (_ & Hlzd & Hd).
  apply Forall_app in Hg as [_ Hg]. split_and!; try done.
  - by apply Forall_fmap in Hg.
  - by apply Forall_fmap in Hc.
  - intros c id Hhd Hprev. apply Hlzd. rewrite <- (Hlz c Hhd), Hprev. by left.
Qed.

End reachable.

#[export] Instance capacity_three : Capacity 3.
Proof. split; unfold usize_max; lia. Qed.

(** The state after some operations. *)
Definition after {Item Gap} (CAP : nat) (cmds : list (command Item Gap)) : LinkedChunk Item Gap :=
  foldl (λ s cmd, left_state s (exec CAP (Do cmd) s)) new_with_update_history cmds.

Lemma commands_edit_items_witness :
  let s := after (Gap := nat) 3 [PushItemsBack [1; 2; 3; 4; 5]] in
  let cmd := InsertItemsAt {| chunk_identifier := 0%Z; index := 1 |} [6; 7] in
  ∃ ch s1 r s2 l s3,
    chunks (E := Error) s = Ret (Ok ch, s1) ∧ exec 3 (Do cmd) s = Ret (r, s2) ∧ items s2 = Ret (Ok l, s3)
    ∧ failed r = bool_decide (edit cmd (contents ch) = None)
    ∧ l.*2 = default (flat (contents ch)) (edit cmd (contents ch)).
Proof.
  intros s cmd. apply (commands_edit_items 3 6); [|cbn; unfold u64_max; lia].
  eapply (follows_step 3 _ 6 0); [|apply follows_refl].
  apply (follow_do 3 _ (PushItemsBack [1; 2; 3; 4; 5]) Done), returned_ret. by_vm.
Defined.

Lemma reachable_chunks_ok_witness :
  let s := after (Gap := nat) 3 [PushItemsBack [1; 2; 3; 4; 5]] in
  ∃ ch s', chunks (E := Error) s = Ret (Ok ch, s')
    ∧ NoDup (identifier <$> ch)
    ∧ Forall (λ c, 0 <= identifier c <= generator s)%Z ch
    ∧ Forall (λ c, num_items c <= 3) ch
    ∧ ∀ c id, head ch = Some c → lazy_previous c = Some id → id ∉ (identifier <$> ch).
Proof.
  intros s. apply (reachable_chunks_ok 3 6); [|unfold u64_max; lia].
  eapply (follows_step 3 _ 6 0); [|apply follows_refl].
  apply (follow_do 3 _ (PushItemsBack [1; 2; 3; 4; 5]) Done), returned_ret. by_vm.
Defined.
