(* ===== verification/AsVector.v ===== *)
(** * The linked chunk as a vector

    [crates/client-common/src/linked_chunk/as_vector.rs] and [order_tracker.rs]:
    updates of a linked chunk mapped to differences of a vector, from the lengths
    of the chunks alone.

    A difference is applied by the third-party vector; the class [VectorApply]
    states what its documentation says of the differences that are emitted.  Lengths
    are natural numbers; [debug] says whether the build has debug assertions and
    overflow checks. *)

From S2P Require Import Prelude Updates LinkedChunk LinkedHeap LinkedList LinkedRefine LinkedObserver LinkedEdits LinkedCommands.

(** The differences that are emitted. *)
Inductive VectorDiff (Item : Type) :=
| DiffAppend (values : list Item)
| DiffClear
| DiffInsert (index : nat) (value : Item)
| DiffSet (index : nat) (value : Item)
| DiffRemove (index : nat).

Arguments DiffAppend {Item} values.
Arguments DiffClear {Item}.
Arguments DiffInsert {Item} index value.
Arguments DiffSet {Item} index value.
Arguments DiffRemove {Item} index.

(** [VectorDiff::apply], that panics on an index out of bounds. *)
Class VectorApply (Item : Type) : Type := {
  apply_diff : VectorDiff Item → list Item → option (list Item);
  apply_append values l : apply_diff (DiffAppend values) l = Some (l ++ values);
  apply_clear l : apply_diff DiffClear l = Some [];
  apply_insert xs ys value : apply_diff (DiffInsert (length xs) value) (xs ++ ys) = Some (xs ++ value :: ys);
  apply_set xs x ys value : apply_diff (DiffSet (length xs) value) (xs ++ x :: ys) = Some (xs ++ value :: ys);
  apply_remove xs x ys : apply_diff (DiffRemove (length xs)) (xs ++ x :: ys) = Some (xs ++ ys)
}.

Section as_vector.
Context {Item Gap : Type} (debug : bool).
Abbreviation Content := (ChunkContent Item Gap).
Abbreviation chunk := (ChunkIdentifier * Content)%type.
Abbreviation Update := (Update Item Gap).
Abbreviation lengths := (list (ChunkIdentifier * nat)).
Abbreviation panics := (outcome Empty_set).

(** The state of the loop of [map]. *)
Record Mapping := {
  m_chunks : lengths;
  reattaching : bool;
  detaching : bool
}.

Definition set_chunks (cs : lengths) (m : Mapping) : Mapping :=
  {| m_chunks := cs; reattaching := reattaching m; detaching := detaching m |}.

(** [UpdateToVectorDiff::new] *)
Definition initial_chunk_lengths (chunk_iterator : list (Chunk Item Gap)) : lengths :=
  (λ c, (identifier c, match content c with GapContent _ => 0 | Items items => length items end)) <$> chunk_iterator.

(** [map_to_offset]: the offset, the index of the chunk and its length. *)
Fixpoint map_to_offset_from (chunk_index offset : nat) (id : ChunkIdentifier) (cs : lengths) : option (nat * nat * nat) :=
  match cs with
  | [] => None
  | (chunk_identifier, chunk_length) :: cs =>
      if (chunk_identifier =? id)%Z then Some (offset, chunk_index, chunk_length)
      else map_to_offset_from (S chunk_index) (offset + chunk_length) id cs
  end.

Definition map_to_offset (cs : lengths) (position : Position) : option (nat * nat * nat) :=
  map_to_offset_from 0 (index position) (chunk_identifier position) cs.

(** [VecDeque::insert] at an index of the deque. *)
Definition insert_chunk_at (i : nat) (c : ChunkIdentifier * nat) (cs : lengths) : lengths := take i cs ++ c :: drop i cs.

Definition chunk_position (id : ChunkIdentifier) (cs : lengths) : option nat :=
  fst <$> list_find (λ c, c.1 = id) cs.

(** [*chunk_length -= 1] *)
Definition decrement (n : nat) : panics nat :=
  match n with 0 => if debug then Panic else Ret (Z.to_nat u64_max) | S n => Ret n end.

Definition map_new_chunk (previous : option ChunkIdentifier) (new : ChunkIdentifier) (next : option ChunkIdentifier)
    (cs : lengths) : panics lengths :=
  match previous, next with
  | Some _, None => Ret (cs ++ [(new, 0)])
  | None, Some next =>
      if debug && negb (bool_decide (fst <$> head cs = Some next)) then Panic else Ret ((new, 0) :: cs)
  | Some _, Some next =>
      match chunk_position next cs with
      | None => Ret cs
      | Some next_chunk_index => Ret (insert_chunk_at next_chunk_index (new, 0) cs)
      end
  | None, None => match cs with [] => Ret [(new, 0)] | _ => Panic end
  end.

Definition map_update (u : Update) (m : Mapping) : panics (Mapping * list (VectorDiff Item)) :=
  let cs := m_chunks m in
  match u with
  | NewItemsChunk previous new next | NewGapChunk previous new next _ =>
      let! cs := map_new_chunk previous new next cs in Ret (set_chunks cs m, [])
  | RemoveChunk chunk_identifier =>
      match map_to_offset cs {| Updates.chunk_identifier := chunk_identifier; index := 0 |} with
      | None => Ret (m, [])
      | Some (offset, chunk_index, _) =>
          match cs !! chunk_index with
          | None => Ret (m, [])
          | Some (_, number_of_items) =>
              Ret (set_chunks (take chunk_index cs ++ drop (S chunk_index) cs) m, replicate number_of_items (DiffRemove offset))
          end
      end
  | PushItems position items =>
      let number_of_chunks := length cs in
      match map_to_offset cs position with
      | None => Ret (m, [])
      | Some (offset, chunk_index, chunk_length) =>
          let is_pushing_back := (chunk_index + 1 =? number_of_chunks) && (chunk_length <=? index position) in
          let m := set_chunks (<[chunk_index := (chunk_identifier position, chunk_length + length items)]> cs) m in
          Ret (m,
            if reattaching m then []
            else if is_pushing_back && negb (detaching m) then [DiffAppend items]
            else imap (λ nth item, DiffInsert (offset + nth) item) items)
      end
  | ReplaceItem position item =>
      match map_to_offset cs position with
      | None => Ret (m, [])
      | Some (offset, _, _) => Ret (m, [DiffSet offset item])
      end
  | RemoveItem position =>
      match map_to_offset cs position with
      | None => Ret (m, [])
      | Some (offset, chunk_index, chunk_length) =>
          let! chunk_length := decrement chunk_length in
          let m := set_chunks (<[chunk_index := (chunk_identifier position, chunk_length)]> cs) m in
          Ret (m, if reattaching m then [] else [DiffRemove offset])
      end
  | DetachLastItems position =>
      match chunk_position (chunk_identifier position) cs with
      | None => Ret (m, [])
      | Some i =>
          Ret ({| m_chunks := <[i := (chunk_identifier position, index position)]> cs;
                  reattaching := reattaching m; detaching := true |}, [])
      end
  | StartReattachItems => Ret ({| m_chunks := cs; reattaching := true; detaching := detaching m |}, [])
  | EndReattachItems => Ret ({| m_chunks := cs; reattaching := false; detaching := false |}, [])
  | Clear => Ret (set_chunks [] m, [DiffClear])
  end.

Fixpoint map_updates (us : list Update) (m : Mapping) : panics (Mapping * list (VectorDiff Item)) :=
  match us with
  | [] => Ret (m, [])
  | u :: us =>
      let! r := map_update u m in
      let! rest := map_updates us r.1 in
      Ret (rest.1, r.2 ++ rest.2)
  end.

(** [UpdateToVectorDiff::map] *)
Definition map_batch (us : list Update) (cs : lengths) : panics (lengths * list (VectorDiff Item)) :=
  let! r := map_updates us {| m_chunks := cs; reattaching := false; detaching := false |} in
  Ret (m_chunks r.1, r.2).

(** [AsVector], and the order tracker, whose mapper has no accumulator. *)
Record AsVector := {
  token : ReaderToken;
  mapper : lengths
}.

(** [updates.take_with_token(token)] on the shared updates of a linked chunk *)
Definition take_shared (t : ReaderToken) (s : LinkedChunk Item Gap) : panics (list Update * LinkedChunk Item Gap) :=
  match history s ≫= take_with_token t with
  | Some (us, h) => Ret (us, set_history (Some h) s)
  | None => Panic
  end.

(** [LinkedChunk::as_vector] with [AsVector::new] *)
Definition as_vector (s : LinkedChunk Item Gap) : panics (option AsVector * LinkedChunk Item Gap) :=
  match history s with
  | None => Ret (None, s)
  | Some updates =>
      let (token, updates) := new_reader_token updates in
      let! r := chunks (E := Empty_set) (set_history (Some updates) s) in
      match r with
      | (Err e, _) => match e with end
      | (Ok chunk_iterator, s) =>
          let! r := take_shared token s in
          Ret (Some {| token := token; mapper := initial_chunk_lengths chunk_iterator |}, r.2)
      end
  end.

(** [AsVector::take] *)
Definition take_diffs (v : AsVector) (s : LinkedChunk Item Gap) :
    panics (list (VectorDiff Item) * AsVector * LinkedChunk Item Gap) :=
  let! taken := take_shared (token v) s in
  let! mapped := map_batch taken.1 (mapper v) in
  Ret (mapped.2, {| token := token v; mapper := mapped.1 |}, taken.2).

(** [LinkedChunk::order_tracker] with [OrderTracker::new]; the metadata that counts
    are the identifiers and the lengths *)
Definition order_tracker (all_chunks : option lengths) (s : LinkedChunk Item Gap) :
    panics (option AsVector * LinkedChunk Item Gap) :=
  match history s with
  | None => Ret (None, s)
  | Some updates =>
      let (token, updates) := new_reader_token updates in
      let s := set_history (Some updates) s in
      let! r :=
        match all_chunks with
        | Some all_chunks => Ret (Ok all_chunks, s)
        | None =>
            let! r := chunks (E := Empty_set) s in
            Ret (match r.1 with Ok cs => Ok ((λ c, (identifier c, num_items c)) <$> cs) | Err e => Err e end, r.2)
        end in
      match r with
      | (Err e, _) => match e with end
      | (Ok all_chunks_metadata, s) =>
          let! r := take_shared token s in
          Ret (Some {| token := token; mapper := all_chunks_metadata |}, r.2)
      end
  end.

(** [OrderTracker::flush_updates] *)
Definition flush_updates (inhibit : bool) (v : AsVector) (s : LinkedChunk Item Gap) : panics (AsVector * LinkedChunk Item Gap) :=
  let! taken := take_shared (token v) s in
  if inhibit then Ret (v, taken.2)
  else
    let! mapped := map_batch taken.1 (mapper v) in
    Ret ({| token := token v; mapper := mapped.1 |}, taken.2).

(** [OrderTracker::map_updates] *)
Definition track_updates (us : list Update) (v : AsVector) : panics AsVector :=
  let! mapped := map_batch us (mapper v) in
  Ret {| token := token v; mapper := mapped.1 |}.

(** The loop of [OrderTracker::ordering] *)
Fixpoint ordering_from (ordering : nat) (event_pos : Position) (cs : lengths) : option nat :=
  match cs with
  | [] => None
  | (chunk_id, chunk_length) :: cs =>
      if (chunk_id =? chunk_identifier event_pos)%Z then
        if chunk_length <=? index event_pos then None else Some (ordering + index event_pos)
      else ordering_from (ordering + chunk_length) event_pos cs
  end.

Definition ordering (event_pos : Position) (v : AsVector) (s : LinkedChunk Item Gap) : panics (option nat) :=
  if debug && negb (bool_decide (history s ≫= is_reader_up_to_date (token v) = Some true)) then Panic
  else Ret (ordering_from 0 event_pos (mapper v)).

End as_vector.
