(* ===== verification/AsVectorSpec.v ===== *)
(** * A vector that follows a linked chunk

    The mapping of [AsVector.v] is an observer of the linked chunk: the differences
    it emits, applied to a vector, reproduce the items after every operation. *)

From S2P Require Import Prelude Updates LinkedChunk LinkedHeap LinkedList LinkedRefine LinkedObserver LinkedEdits LinkedCommands AsVector.

#[local] Arguments v_chunks : simpl never.

Section spec.
Context {Item Gap : Type} (debug : bool).
Context `{!VectorApply Item}.
Abbreviation Content := (ChunkContent Item Gap).
Abbreviation chunk := (ChunkIdentifier * Content)%type.
Abbreviation Update := (Update Item Gap).
Abbreviation lengths := (list (ChunkIdentifier * nat)).
Implicit Types (L R cs : list chunk) (id : ChunkIdentifier).

(** The mapping, with the vector its differences are applied to. *)
Record Follower := {
  mapping : Mapping;
  vector : list Item
}.

Fixpoint apply_all (ds : list (VectorDiff Item)) (l : list Item) : option (list Item) :=
  match ds with
  | [] => Some l
  | d :: ds => match apply_diff d l with Some l => apply_all ds l | None => None end
  end.

Lemma apply_all_app ds1 ds2 l :
  apply_all (ds1 ++ ds2) l = match apply_all ds1 l with Some l => apply_all ds2 l | None => None end.
Proof. revert l. induction ds1 as [|d ds1 IH]; intros l; [done|]. cbn. by destruct (apply_diff d l). Qed.

Definition follow_update (u : Update) (f : Follower) : option Follower :=
  match map_update debug u (mapping f) with
  | Ret (m, ds) => match apply_all ds (vector f) with Some l => Some {| mapping := m; vector := l |} | None => None end
  | _ => None
  end.

Definition chunk_lengths (cs : list chunk) : lengths := (λ c, (c.1, chunk_length c)) <$> cs.

(** The lengths are those of the chunks; the vector still has the items that are
    detached. *)
Record shows (f : Follower) (v : view Item Gap) : Prop := {
  shows_chunks : m_chunks (mapping f) = chunk_lengths (v_chunks v);
  shows_reattaching : reattaching (mapping f) = bool_decide (v_mode v = Reattaching);
  shows_detaching : detaching (mapping f) = negb (bool_decide (v_mode v = Normal));
  shows_vector : vector f = flat (v_left v) ++ v_detached v ++ flat (v_right v);
  shows_detached : v_mode v = Normal → v_detached v = []
}.

Lemma chunk_lengths_app cs1 cs2 : chunk_lengths (cs1 ++ cs2) = chunk_lengths cs1 ++ chunk_lengths cs2.
Proof. apply fmap_app. Qed.

Lemma map_to_offset_found i off L id ct R :
  id ∉ L.*1 →
  map_to_offset_from i off id (chunk_lengths (L ++ (id, ct) :: R))
  = Some (off + length (flat L), i + length L, length (content_items ct)).
Proof.
  revert i off. induction L as [|[d dt] L IH]; intros i off Hid.
  - cbn. rewrite Z.eqb_refl, chunk_length_items. cbn. by rewrite !Nat.add_0_r.
  - rewrite fmap_cons, not_elem_of_cons in Hid. destruct Hid as [Hne Hid]. cbn [fst] in Hne.
    cbn [chunk_lengths fmap list_fmap app map_to_offset_from fst]. destruct (Z.eqb_spec d id); [done|].
    change (list_fmap _ _ _ (L ++ (id, ct) :: R)) with (chunk_lengths (L ++ (id, ct) :: R)).
    rewrite IH by done. rewrite chunk_length_items. change ((d, dt) :: L) with ([(d, dt)] ++ L).
    rewrite flat_app, flat_single, !length_app. cbn [length snd]. by rewrite Nat.add_assoc, Nat.add_succ_comm.
Qed.

Lemma position_found L id ct R :
  id ∉ L.*1 → chunk_position id (chunk_lengths (L ++ (id, ct) :: R)) = Some (length L).
Proof.
  unfold chunk_position. induction L as [|[d dt] L IH]; intros Hid; cbn.
  - by rewrite decide_True.
  - rewrite fmap_cons, not_elem_of_cons in Hid. destruct Hid as [Hne Hid]. cbn [fst] in Hne.
    rewrite decide_False by done. specialize (IH Hid). unfold chunk_lengths in IH.
    destruct (list_find _ _) as [[]|]; [|done]. cbn in IH |- *. by simplify_eq.
Qed.

Lemma insert_middle {A} (l1 l2 : list A) x y : <[length l1 := y]> (l1 ++ x :: l2) = l1 ++ y :: l2.
Proof. by rewrite insert_app_r_alt, Nat.sub_diag by done. Qed.

Lemma lengths_middle L id ct ct' R n :
  n = length (content_items ct') →
  <[length L := (id, n)]> (chunk_lengths (L ++ (id, ct) :: R)) = chunk_lengths (L ++ (id, ct') :: R).
Proof.
  intros ->. rewrite !chunk_lengths_app. cbn. rewrite <- (length_fmap (λ c : chunk, (c.1, chunk_length c)) L), insert_middle.
  by rewrite (chunk_length_items (id, ct')).
Qed.

Lemma distinct_before L id ct R : NoDup (L ++ (id, ct) :: R).*1 → id ∉ L.*1.
Proof.
  rewrite fmap_app, fmap_cons. intros (_ & Hd & _)%NoDup_app Hin. by eapply Hd; [|left].
Qed.

(** A difference at the end of what is before. *)
Lemma apply_inserts xs A B :
  apply_all (imap (λ nth item, DiffInsert (length A + nth) item) xs) (A ++ B) = Some (A ++ xs ++ B).
Proof.
  revert A. induction xs as [|x xs IH]; intros A; [done|]. cbn. rewrite Nat.add_0_r, apply_insert.
  specialize (IH (A ++ [x])). rewrite <- !app_assoc in IH. cbn in IH. rewrite <- IH. f_equal. apply imap_ext.
  intros i y _. cbn. f_equal. rewrite length_app. cbn. lia.
Qed.

Abbreviation at_view L D R m lz := {| v_left := L; v_detached := D; v_right := R; v_mode := m; v_lazy := lz |}.
Abbreviation moves := (moves_view follow_update shows).

Lemma view_middle L c D R m lz : v_chunks (at_view (L ++ [c]) D R m lz) = L ++ c :: R.
Proof. unfold v_chunks. cbn. by rewrite <- app_assoc. Qed.

(** The place of a position of the chunk that is worked on. *)
Lemma map_to_offset_at L id ct D R m lz i :
  NoDup (v_chunks (at_view (L ++ [(id, ct)]) D R m lz)).*1 →
  map_to_offset (chunk_lengths (v_chunks (at_view (L ++ [(id, ct)]) D R m lz))) {| chunk_identifier := id; index := i |}
  = Some (i + length (flat L), length L, length (content_items ct)).
Proof.
  rewrite view_middle. intros Hd. unfold map_to_offset. cbn [chunk_identifier index].
  by rewrite map_to_offset_found by (by eapply distinct_before).
Qed.

Lemma shows_push L id cur D R m lz xs :
  m ≠ Reattaching →
  moves (PushItems {| chunk_identifier := id; index := length cur |} xs)
    (at_view (L ++ [(id, Items cur)]) D R m lz) (at_view (L ++ [(id, Items (cur ++ xs))]) D R m lz).
Proof.
  intros Hm f Hd [Hc Hr Hdt Hv Hn]. unfold follow_update. cbn [map_update].
  rewrite Hc, map_to_offset_at by done. cbn [content_items set_chunks reattaching detaching chunk_identifier index].
  rewrite Hr, Hdt. cbn [v_mode]. rewrite bool_decide_eq_false_2 by done.
  rewrite Nat.leb_refl, andb_true_r, view_middle, (lengths_middle L id (Items cur) (Items (cur ++ xs)) R) by (cbn; by rewrite length_app).
  assert (vector f = (flat L ++ cur) ++ D ++ flat R) as Hvec.
  { rewrite Hv. cbn. by rewrite flat_app, flat_single. }
  assert (apply_all (if (length L + 1 =? length (chunk_lengths (L ++ (id, Items cur) :: R))) && negb (negb (bool_decide (m = Normal)))
    then [DiffAppend xs] else imap (λ nth item, DiffInsert (length cur + length (flat L) + nth) item) xs) (vector f)
    = Some ((flat L ++ cur) ++ xs ++ D ++ flat R)) as ->.
  { rewrite Hvec. destruct (_ && _) eqn:Hcond.
    - apply andb_true_iff in Hcond as [Hlen Hmode]. rewrite negb_involutive in Hmode. apply bool_decide_eq_true in Hmode.
      cbn in Hn. rewrite Hn by done. apply Nat.eqb_eq in Hlen. unfold chunk_lengths in Hlen. rewrite length_fmap, length_app in Hlen.
      cbn in Hlen. destruct R; [|cbn in Hlen; lia]. cbn. rewrite apply_append, !app_nil_r. done.
    - rewrite <- (apply_inserts xs (flat L ++ cur)). f_equal. apply imap_ext. intros i y _. cbn. f_equal. rewrite length_app. lia. }
  eexists. split; [done|]. split; cbn; try done.
  - by rewrite view_middle.
  - rewrite flat_app, flat_single. cbn. by rewrite <- !app_assoc.
Qed.

Lemma shows_reattach L id cur D R lz xs :
  moves (PushItems {| chunk_identifier := id; index := length cur |} xs)
    (at_view (L ++ [(id, Items cur)]) (xs ++ D) R Reattaching lz) (at_view (L ++ [(id, Items (cur ++ xs))]) D R Reattaching lz).
Proof.
  intros f Hd [Hc Hr Hdt Hv Hn]. unfold follow_update. cbn [map_update].
  rewrite Hc, map_to_offset_at by done. cbn [content_items set_chunks reattaching detaching chunk_identifier index].
  rewrite Hr. cbn [v_mode]. rewrite bool_decide_eq_true_2 by done. cbn [apply_all].
  eexists. split; [done|]. split; cbn; try done.
  - by rewrite !view_middle, (lengths_middle L id (Items cur) (Items (cur ++ xs)) R) by (cbn; by rewrite length_app).
  - rewrite Hv. cbn. rewrite !flat_app, !flat_single. cbn. by rewrite <- !app_assoc.
Qed.

Lemma shows_detach L id kept gone R lz :
  moves (DetachLastItems {| chunk_identifier := id; index := length kept |})
    (normal (L ++ [(id, Items (kept ++ gone))]) R lz)
    (at_view (L ++ [(id, Items kept)]) gone R Detaching lz).
Proof.
  intros f Hd [Hc Hr Hdt Hv Hn]. unfold follow_update. cbn [map_update chunk_identifier index].
  unfold normal in *. rewrite view_middle in Hd, Hc. rewrite Hc, position_found by (by eapply distinct_before).
  cbn [apply_all]. eexists. split; [done|]. split; cbn; try done.
  - by rewrite view_middle, (lengths_middle L id _ (Items kept) R).
  - rewrite Hv. cbn. rewrite !flat_app, !flat_single. cbn. by rewrite <- !app_assoc.
Qed.

(** A new chunk without items, between [L] and [R]. *)
Lemma shows_insert L D R m lz lz' new ct previous u :
  (u = NewItemsChunk previous new (fst <$> head R) ∨ ∃ gap, u = NewGapChunk previous new (fst <$> head R) gap) →
  content_items ct = [] → (previous = None → L = []) →
  moves u (at_view L D R m lz) (at_view (L ++ [(new, ct)]) D R m lz').
Proof.
  intros Hu Hct HL f Hd [Hc Hr Hdt Hv Hn]. unfold follow_update, v_chunks in *. cbn [v_left v_right] in *.
  assert (map_new_chunk debug previous new (fst <$> head R) (m_chunks (mapping f)) = Ret (chunk_lengths (L ++ (new, ct) :: R))) as Hmap.
  { rewrite Hc, (chunk_lengths_app L ((new, ct) :: R)). unfold map_new_chunk.
    assert ((new, 0) = ((new, ct).1, chunk_length (new, ct))) as -> by (rewrite chunk_length_items; cbn; by rewrite Hct).
    destruct previous as [p|]; [|rewrite HL by done]; destruct R as [|[r rt] R]; cbn.
    - by rewrite app_nil_r.
    - rewrite position_found by (by eapply distinct_before). unfold insert_chunk_at.
      rewrite chunk_lengths_app, take_app_length', drop_app_length' by (unfold chunk_lengths; by rewrite length_fmap). done.
    - done.
    - rewrite bool_decide_eq_true_2 by done. by rewrite andb_false_r. }
  assert (map_update debug u (mapping f) = Ret (set_chunks (chunk_lengths (L ++ (new, ct) :: R)) (mapping f), [])) as ->.
  { destruct Hu as [->|[gap ->]]; cbn [map_update]; by rewrite Hmap. }
  cbn. eexists. split; [done|]. split; cbn; try done.
  - unfold v_chunks. cbn. by rewrite <- app_assoc.
  - rewrite Hv. cbn. rewrite flat_app, flat_single. cbn. by rewrite Hct, app_nil_r.
Qed.

Lemma shows_replace L id xs x y ys R lz :
  moves (ReplaceItem {| chunk_identifier := id; index := length xs |} y)
    (normal (L ++ [(id, Items (xs ++ x :: ys))]) R lz) (normal (L ++ [(id, Items (xs ++ y :: ys))]) R lz).
Proof.
  intros f Hd [Hc Hr Hdt Hv Hn]. unfold normal, follow_update in *. cbn [map_update].
  rewrite Hc, map_to_offset_at by done. cbn in Hv. rewrite flat_app, flat_single in Hv. cbn in Hv.
  cbn [apply_all]. rewrite Hv, Nat.add_comm, <- length_app.
  rewrite <- (app_assoc (flat L)), <- (app_assoc xs), (app_assoc (flat L)). cbn. rewrite apply_set.
  eexists. split; [done|]. split; cbn; try done.
  - rewrite Hc, !view_middle, !chunk_lengths_app. cbn. unfold chunk_length. cbn. by rewrite !length_app.
  - rewrite flat_app, flat_single. cbn. by rewrite <- !app_assoc.
Qed.

Lemma shows_remove L id xs x ys R lz :
  moves (RemoveItem {| chunk_identifier := id; index := length xs |})
    (normal (L ++ [(id, Items (xs ++ x :: ys))]) R lz) (normal (L ++ [(id, Items (xs ++ ys))]) R lz).
Proof.
  intros f Hd [Hc Hr Hdt Hv Hn]. unfold normal, follow_update in *. cbn [map_update].
  rewrite Hc, map_to_offset_at by done. cbn in Hv, Hr. rewrite flat_app, flat_single in Hv. cbn in Hv.
  cbn [content_items]. rewrite length_app. cbn [length]. rewrite Nat.add_succ_r. cbn. rewrite Hr.
  rewrite Hv, Nat.add_comm, <- !length_app.
  rewrite <- (app_assoc (flat L)), <- (app_assoc xs), (app_assoc (flat L)).
  rewrite bool_decide_eq_false_2 by done. cbn. rewrite apply_remove.
  eexists. split; [done|]. split; cbn; try done.
  - by rewrite !view_middle, (lengths_middle L id _ (Items (xs ++ ys)) R).
  - rewrite flat_app, flat_single. cbn. by rewrite <- !app_assoc.
Qed.

Lemma shows_remove_chunk L c R lz :
  content_items c.2 = [] → moves (RemoveChunk c.1) (normal (L ++ [c]) R lz) (normal L R lz).
Proof.
  intros Hct f Hd [Hc Hr Hdt Hv Hn]. destruct c as [id ct]. unfold normal, follow_update in *. cbn [map_update].
  cbn [fst snd] in *. rewrite Hc, map_to_offset_at by done. rewrite view_middle, chunk_lengths_app in *.
  assert (length L = length (chunk_lengths L)) as -> by (unfold chunk_lengths; by rewrite length_fmap).
  change (chunk_lengths ((id, ct) :: R)) with ((id, chunk_length (id, ct)) :: chunk_lengths R).
  rewrite list_lookup_middle by done. rewrite chunk_length_items. cbn [snd]. rewrite Hct. cbn.
  eexists. split; [done|]. split; cbn; try done.
  - unfold v_chunks. cbn. rewrite chunk_lengths_app, take_app_length. f_equal.
    by rewrite (cons_middle (id, _)), app_assoc, drop_app_length' by (rewrite length_app; cbn; lia).
  - rewrite Hv. cbn. rewrite flat_app, flat_single. cbn. by rewrite Hct, app_nil_r.
Qed.

Lemma new_chunk_update_cases new ct previous next :
  content_items ct = [] →
  new_chunk_update (Item := Item) (new_chunk new ct) previous next = NewItemsChunk previous new next
  ∨ ∃ gap : Gap, new_chunk_update (Item := Item) (new_chunk new ct) previous next = NewGapChunk previous new next gap.
Proof. destruct ct as [gap|items]; [by eauto|by left]. Qed.

#[local] Program Instance follower_observer : Observer Item Gap Follower := {|
  observe := follow_update;
  sees := shows;
  floor := λ _, FIRST_IDENTIFIER
|}.
Next Obligation. done. Qed.
Next Obligation.
  intros f L R L' R' lz Heq [Hc Hr Hdt Hv Hn]. split; try done; unfold v_chunks in *; cbn in *; [by rewrite <- Heq|].
  by rewrite Hv, <- !flat_app, Heq.
Qed.
Next Obligation. apply (shows_insert [] [] [] Normal None None FIRST_IDENTIFIER (Items []) None); eauto. Qed.
Next Obligation. intros. eapply shows_insert; [by apply new_chunk_update_cases|done|done]. Qed.
Next Obligation.
  intros L c R lz new gap _ _. eapply (shows_insert L [] (c :: R) Normal lz lz new (GapContent gap)); [by eauto|done|].
  destruct L as [|d L _] using rev_ind; [done|]. by rewrite last_snoc.
Qed.
Next Obligation. intros. by apply shows_push. Qed.
Next Obligation. intros. apply shows_reattach. Qed.
Next Obligation. intros. apply shows_detach. Qed.
Next Obligation. intros L D R lz f _ [Hc Hr Hdt Hv Hn]. eexists. split; [done|]. by split. Qed.
Next Obligation. intros L R lz f _ [Hc Hr Hdt Hv Hn]. eexists. split; [done|]. by split. Qed.
Next Obligation. intros. apply shows_replace. Qed.
Next Obligation. intros. apply shows_remove. Qed.
Next Obligation. intros. by apply shows_remove_chunk. Qed.
Next Obligation.
  intros f v [Hc Hr Hdt Hv Hn] Hm. unfold follow_update. cbn. rewrite apply_clear. eexists. split; [done|].
  rewrite Hm in *. by split.
Qed.

#[local] Instance follower_lazy_observer : LazyObserver Item Gap Follower.
Proof.
  split.
  - done.
  - intros cs c new ct lz Hct _. eapply (shows_insert [] [] (c :: cs)); [by apply new_chunk_update_cases|done|done].
  - intros new ct lz Hct. eapply (shows_insert [] [] []); [by apply new_chunk_update_cases|done|done].
Qed.

Lemma observe_all_maps us f f' :
  observe_all us f = Some f' →
  ∃ ds, map_updates debug us (mapping f) = Ret (mapping f', ds) ∧ apply_all ds (vector f) = Some (vector f').
Proof.
  revert f. induction us as [|u us IH]; intros f; cbn [observe_all map_updates]; [intros [= <-]; by exists []|].
  cbn [observe follower_observer]. unfold follow_update. destruct (map_update debug u (mapping f)) as [[m ds]| | |]; [|done..].
  destruct (apply_all ds (vector f)) as [l|] eqn:Hds; [|done]. intros (ds' & Hm & Hl)%IH. cbn in Hm, Hl.
  exists (ds ++ ds'). cbn. rewrite Hm. cbn. by rewrite apply_all_app, Hds.
Qed.

Context (CAP : nat) `{!Capacity CAP}.
Implicit Types (s : LinkedChunk Item Gap) (v : AsVector).

(** The follower of a vector between two calls of [take]. *)
Definition follower v (l : list Item) : Follower :=
  {| mapping := {| m_chunks := mapper v; reattaching := false; detaching := false |}; vector := l |}.

Lemma contents_lengths (ch : list (Chunk Item Gap)) : initial_chunk_lengths ch = chunk_lengths (contents ch).
Proof. unfold initial_chunk_lengths, chunk_lengths, contents. by rewrite <- list_fmap_compose. Qed.

Lemma pending_new_reader {U} (h : UpdatesInner U) :
  pending (new_reader_token h).2 (new_reader_token h).1 = Some (updates h).
Proof. unfold pending. cbn. by rewrite lookup_insert_eq. Qed.

Lemma as_vector_attaches t k cs lz s :
  in_sync CAP () t k cs lz s →
  ∃ v s', as_vector s = Ret (Some v, s') ∧ in_sync CAP (follower v (flat cs)) (token v) k (begun cs) lz s'.
Proof.
  intros Hs. destruct (in_sync_log CAP _ _ _ _ _ _ Hs) as (h & Hh & Hok & _). unfold as_vector. rewrite Hh.
  pose proof (new_reader_ok h Hok) as Hok1. pose proof (pending_new_reader h) as Hp1.
  destruct (new_reader_token h) as [tk h1]. cbn [fst snd] in Hok1, Hp1.
  assert (in_sync CAP () tk k cs lz (set_history (Some h1) s)) as Hs1.
  { eapply (handover CAP _ () t tk _ _ _ _ _ _ _ Hs Hok1 Hp1); [by exists (normal [] [] None)|apply blind_observes|done|].
    by apply (in_sync_budget CAP _ _ _ _ _ _ Hs). }
  destruct (chunks_in_sync CAP (E := Empty_set) _ _ _ _ _ _ Hs1) as (ch & s2 & Hch & Hcs & _ & _ & Hs2 & _). rewrite Hch. cbn.
  destruct (read_in_sync CAP _ _ _ _ _ _ Hs2) as (h2 & us & h3 & [] & Hh2 & Ht & _ & _ & Hs3).
  unfold take_shared. rewrite Hh2. cbn. rewrite Ht. cbn. eexists _, _. split; [done|].
  destruct (in_sync_log CAP _ _ _ _ _ _ Hs3) as (h4 & Hh4 & Hok4 & _). cbn in Hh4. injection Hh4 as <-.
  assert (shows (follower {| token := tk; mapper := initial_chunk_lengths ch |} (flat cs)) (normal (begun cs) [] lz)) as Hshows.
  { rewrite contents_lengths, Hcs. split; cbn; try done; [unfold v_chunks; cbn; by rewrite app_nil_r|].
    by rewrite flat_begun, app_nil_r. }
  destruct (in_sync_log CAP _ _ _ _ _ _ Hs2) as (h2' & Hh2' & Hok2 & _). assert (h2' = h2) as -> by congruence.
  pose proof (take_with_token_spec tk h2 Hok2) as Hspec. rewrite Ht in Hspec. destruct Hspec as (_ & _ & Hall & _).
  eapply (handover CAP _ _ _ _ _ _ _ _ _ _ _ Hs2 Hok4).
  - by rewrite Hall, decide_True.
  - by eexists.
  - done.
  - done.
  - by apply (in_sync_budget CAP _ _ _ _ _ _ Hs2).
Qed.

(** Taking the differences of a follower that is in step. *)
Lemma take_diffs_in_sync v l k cs lz s :
  in_sync CAP (follower v l) (token v) k cs lz s →
  ∃ ds v' s', take_diffs debug v s = Ret (ds, v', s') ∧ apply_all ds l = Some (flat cs)
    ∧ mapper v' = chunk_lengths cs ∧ token v' = token v
    ∧ in_sync CAP (follower v' (flat cs)) (token v) k cs lz s'.
Proof.
  intros Hs. destruct (read_in_sync CAP _ _ _ _ _ _ Hs) as (h & us & h' & f & Hh & Ht & Ho & Hsees & Hs').
  destruct (observe_all_maps _ _ _ Ho) as (ds & Hm & Hl). destruct Hsees as [Hc Hr Hdt Hv _].
  unfold v_chunks in Hc. cbn in Hc, Hr, Hdt, Hv. rewrite app_nil_r in Hc. rewrite !app_nil_r in Hv.
  cbn in Hm. unfold take_diffs, take_shared, map_batch. rewrite Hh. cbn. rewrite Ht. cbn. rewrite Hm. cbn.
  eexists ds, _, _. split; [done|]. cbn in Hl. rewrite Hl, Hv. split_and!; try done.
  destruct f as [[mc mr md] fv]. cbn in *. subst. done.
Qed.

(** C11. A vector follows the linked chunk: [as_vector] on any reachable state
    returns, and after any operations, lazy loads and earlier calls of [take], the
    differences the next [take] returns, applied to the vector, give exactly the
    items of the linked chunk, in order; no update is skipped and neither the
    mapping nor the application of a difference panics. *)
Theorem as_vector_follows n m s :
  reachable CAP n s → (Z.of_nat (n + m) < u64_max)%Z →
  ∃ v s1 l1 s1', as_vector s = Ret (Some v, s1) ∧ items s = Ret (Ok l1, s1')
    ∧ ∀ s2 v2 vec, follows CAP (token v) m (s1, follower v l1.*2) (s2, follower v2 vec) → token v2 = token v →
      ∃ ds v3 s3 l s4, take_diffs debug v2 s2 = Ret (ds, v3, s3) ∧ items s2 = Ret (Ok l, s4)
        ∧ apply_all ds vec = Some l.*2.
Proof.
  intros Hr Hn. destruct (reachable_in_sync CAP n m s Hr) as (cs & lz & Hs); [lia|].
  destruct (as_vector_attaches _ _ _ _ _ Hs) as (v & s1 & Hv & Hs1).
  destruct (items_in_sync CAP _ _ _ _ _ _ Hs) as (l1 & s1' & Hl1 & ->).
  eexists v, s1, _, s1'. split_and!; [done..|]. rewrite chunk_items_flat, flat_begun. intros s2 v2 vec Hf Htk.
  destruct (follows_in_sync CAP _ _ 0 _ _ _ _ Hf Hs1) as (cs2 & lz2 & Hs2). cbn in Hs2. rewrite <- Htk in Hs2.
  destruct (take_diffs_in_sync _ _ _ _ _ _ Hs2) as (ds & v3 & s3 & Hd & Happ & _).
  destruct (items_in_sync CAP _ _ _ _ _ _ Hs2) as (l & s4 & Hl & ->).
  eexists ds, v3, s3, _, s4. split_and!; [done..|]. by rewrite chunk_items_flat, flat_begun.
Qed.

(** The place of a position among the items. *)
Lemma ordering_found off L id ct R i :
  id ∉ L.*1 →
  ordering_from off {| chunk_identifier := id; index := i |} (chunk_lengths (L ++ (id, ct) :: R))
  = if length (content_items ct) <=? i then None else Some (off + length (flat L) + i).
Proof.
  revert off. induction L as [|[d dt] L IH]; intros off Hid.
  - cbn -[Nat.leb]. rewrite Z.eqb_refl, chunk_length_items. cbn -[Nat.leb]. by rewrite Nat.add_0_r.
  - rewrite fmap_cons, not_elem_of_cons in Hid. destruct Hid as [Hne Hid]. cbn [fst] in Hne.
    cbn [chunk_lengths fmap list_fmap app ordering_from fst chunk_identifier]. destruct (Z.eqb_spec d id); [done|].
    change (list_fmap _ _ _ (L ++ (id, ct) :: R)) with (chunk_lengths (L ++ (id, ct) :: R)).
    rewrite IH by done. rewrite chunk_length_items. change ((d, dt) :: L) with ([(d, dt)] ++ L).
    rewrite flat_app, flat_single, !length_app. cbn [snd]. by rewrite Nat.add_assoc.
Qed.

Lemma ordering_missing off pos cs : chunk_identifier pos ∉ cs.*1 → ordering_from off pos (chunk_lengths cs) = None.
Proof.
  revert off. induction cs as [|[d dt] cs IH]; intros off Hid; [done|].
  rewrite fmap_cons, not_elem_of_cons in Hid. destruct Hid as [Hne Hid]. cbn in Hne |- *.
  destruct (Z.eqb_spec d (chunk_identifier pos)); [by subst|]. by apply IH.
Qed.

(** The items before the chunk at the head of the rest, in the listing. *)
Lemma listing_lookup cs i pos x :
  (cs ≫= l_chunk_items) !! i = Some (pos, x) →
  ∃ L items R, cs = L ++ (chunk_identifier pos, Items items) :: R ∧ i = length (flat L) + index pos ∧ items !! index pos = Some x.
Proof.
  revert i. induction cs as [|[d dt] cs IH]; intros i; [done|]. rewrite bind_cons, lookup_app.
  destruct (l_chunk_items (d, dt) !! i) as [[p y]|] eqn:Hi.
  - intros [= -> ->]. unfold l_chunk_items in Hi. cbn in Hi. destruct dt as [|items]; [done|].
    rewrite list_lookup_imap in Hi. destruct (items !! i) eqn:Hx; [|done]. cbn in Hi. simplify_eq. cbn. by exists [], items, cs.
  - intros (L & items & R & -> & Hlen & Hx)%IH. apply lookup_ge_None in Hi. exists ((d, dt) :: L), items, R. split_and!; [done| |done].
    change ((d, dt) :: L) with ([(d, dt)] ++ L). rewrite flat_app, flat_single, length_app. cbn [snd].
    assert (length (l_chunk_items (d, dt)) = length (content_items dt)) as Hl.
    { unfold l_chunk_items. cbn. destruct dt; [done|]. apply length_imap. }
    lia.
Qed.

Lemma listing_member L id items R i x :
  items !! i = Some x →
  ((L ++ (id, Items items) :: R) ≫= l_chunk_items) !! (length (flat L) + i)
  = Some ({| chunk_identifier := id; index := i |}, x).
Proof.
  intros Hx. rewrite bind_app, lookup_app_r.
  2:{ rewrite <- (length_fmap snd (L ≫= _)), chunk_items_flat. lia. }
  rewrite <- (length_fmap snd (L ≫= _)), chunk_items_flat, Nat.add_comm, Nat.add_sub.
  rewrite bind_cons, lookup_app_l.
  - unfold l_chunk_items. cbn. by rewrite list_lookup_imap, Hx.
  - unfold l_chunk_items. cbn. rewrite length_imap. by eapply lookup_lt_Some.
Qed.

Lemma ordering_listing pos cs :
  NoDup cs.*1 →
  ordering_from 0 pos (chunk_lengths cs) = fst <$> list_find (λ x, x.1 = pos) (cs ≫= l_chunk_items).
Proof.
  intros Hd. destruct (list_find _ _) as [[i [p x]]|] eqn:Hfind; cbn.
  - apply list_find_Some in Hfind as (Hi & Hp & _). cbn in Hp. subst p.
    destruct (listing_lookup _ _ _ _ Hi) as (L & items & R & -> & -> & Hx). destruct pos as [id j]. cbn in *.
    rewrite ordering_found by (by eapply distinct_before). cbn. apply lookup_lt_Some in Hx.
    by rewrite (proj2 (Nat.leb_gt _ _) Hx).
  - apply list_find_None in Hfind. destruct pos as [id j].
    destruct (decide (id ∈ cs.*1)) as [Hin|Hout]; [|by apply ordering_missing].
    apply list_elem_of_fmap in Hin as ([? ct] & -> & (L & R & ->)%list_elem_of_split). cbn.
    rewrite ordering_found by (by eapply distinct_before). destruct (Nat.leb_spec (length (content_items ct)) j) as [|Hlt]; [done|].
    exfalso. destruct ct as [|items]; cbn in Hlt; [lia|]. destruct (lookup_lt_is_Some_2 items j Hlt) as [x Hx].
    rewrite Forall_lookup in Hfind. by apply (Hfind _ _ (listing_member L _ items R j x Hx)).
Qed.

Lemma order_tracker_as_vector s : order_tracker None s = as_vector s.
Proof.
  unfold order_tracker, as_vector. destruct (history s) as [h|]; [|done]. destruct (new_reader_token h) as [tk h1].
  destruct (chunks (E := Empty_set) (set_history (Some h1) s)) as [[[ch|[]] s']| | |]; done.
Qed.

Lemma flush_in_sync v l k cs lz s :
  in_sync CAP (follower v l) (token v) k cs lz s →
  ∃ v' s', flush_updates debug false v s = Ret (v', s')
    ∧ ∀ pos, ordering debug pos v' s' = Ret (ordering_from 0 pos (chunk_lengths cs)).
Proof.
  intros Hs. destruct (take_diffs_in_sync _ _ _ _ _ _ Hs) as (ds & v' & s' & Hd & _ & Hm & Htk & Hs').
  exists v', s'. unfold take_diffs in Hd. unfold flush_updates.
  destruct (take_shared (token v) s) as [[us s1]| | |] eqn:Ht; [|done..]. cbn in Hd |- *.
  destruct (map_batch debug us (mapper v)) as [[mc ds']| | |]; [|done..]. cbn in Hd |- *. simplify_eq. split; [done|].
  intros pos. unfold ordering. cbn in Hm. subst mc. rewrite bool_decide_eq_true_2; [by rewrite andb_false_r|].
  destruct (read_in_sync CAP _ _ _ _ _ _ Hs) as (h & us' & h' & f & Hh & Htake & _).
  destruct (in_sync_log CAP _ _ _ _ _ _ Hs) as (h2 & Hh2 & Hok & _). assert (h2 = h) as -> by congruence.
  pose proof (take_with_token_spec (token v) h Hok) as Hspec. rewrite Htake in Hspec. destruct Hspec as ([Hidx _] & _ & Hall & _).
  unfold take_shared in Ht. rewrite Hh in Ht. cbn in Ht. rewrite Htake in Ht. simplify_eq. cbn.
  specialize (Hall (token v)). rewrite decide_True in Hall by done. unfold pending in Hall. unfold is_reader_up_to_date.
  destruct (last_index_per_reader h' !! token v) as [i|] eqn:Hi; [|done]. specialize (Hidx _ _ Hi). cbn in Hall, Hidx |- *.
  injection Hall as Hall. apply (f_equal length) in Hall. rewrite length_drop in Hall. cbn in Hall.
  f_equal. apply bool_decide_eq_true_2. lia.
Qed.

(** The order tracker knows the place of every item: after any operations, and
    [flush_updates], the ordering of a position is the index of its item among the
    items of the linked chunk, and a position that is not that of an item has
    none; the assertion that the tracker is up to date holds. *)
Theorem ordering_is_index n m s :
  reachable CAP n s → (Z.of_nat (n + m) < u64_max)%Z →
  ∃ v s1 l1 s1', order_tracker None s = Ret (Some v, s1) ∧ items s = Ret (Ok l1, s1')
    ∧ ∀ s2 v2 vec, follows CAP (token v) m (s1, follower v l1.*2) (s2, follower v2 vec) → token v2 = token v →
      ∃ v3 s3 its s4, flush_updates debug false v2 s2 = Ret (v3, s3) ∧ items s2 = Ret (Ok its, s4)
        ∧ ∀ pos, ordering debug pos v3 s3 = Ret (fst <$> list_find (λ x, x.1 = pos) its).
Proof.
  intros Hr Hn. destruct (reachable_in_sync CAP n m s Hr) as (cs & lz & Hs); [lia|].
  destruct (as_vector_attaches _ _ _ _ _ Hs) as (v & s1 & Hv & Hs1). rewrite <- order_tracker_as_vector in Hv.
  destruct (items_in_sync CAP _ _ _ _ _ _ Hs) as (l1 & s1' & Hl1 & ->).
  eexists v, s1, _, s1'. split_and!; [done..|]. rewrite chunk_items_flat, flat_begun. intros s2 v2 vec Hf Htk.
  destruct (follows_in_sync CAP _ _ 0 _ _ _ _ Hf Hs1) as (cs2 & lz2 & Hs2). cbn in Hs2. rewrite <- Htk in Hs2.
  destruct (flush_in_sync _ _ _ _ _ _ Hs2) as (v3 & s3 & Hfl & Hord).
  destruct (items_in_sync CAP _ _ _ _ _ _ Hs2) as (l & s4 & Hl & ->).
  eexists v3, s3, _, s4. split_and!; [done..|]. intros pos. rewrite Hord. f_equal.
  destruct Hs2 as (a & _ & [Hg _]). apply good_ok, ids_distinct, NoDup_app in Hg as (_ & _ & Hd).
  unfold v_chunks in Hd. cbn in Hd. rewrite app_nil_r in Hd.
  rewrite ordering_listing by done. by destruct cs2.
Qed.

End spec.

(** A vector as a list. *)
#[export] Program Instance list_vector {Item} : VectorApply Item := {|
  apply_diff d l :=
    match d with
    | DiffAppend values => Some (l ++ values)
    | DiffClear => Some []
    | DiffInsert i value => if i <=? length l then Some (take i l ++ value :: drop i l) else None
    | DiffSet i value => if i <? length l then Some (<[i := value]> l) else None
    | DiffRemove i => if i <? length l then Some (take i l ++ drop (S i) l) else None
    end
|}.
Next Obligation. done. Qed.
Next Obligation. done. Qed.
Next Obligation.
  intros Item xs ys value. cbn. rewrite (proj2 (Nat.leb_le _ _)) by (rewrite length_app; lia).
  by rewrite take_app_length, drop_app_length.
Qed.
Next Obligation.
  intros Item xs x ys value. cbn -[Nat.ltb]. rewrite (proj2 (Nat.ltb_lt _ _)) by (rewrite length_app; cbn; lia).
  by rewrite insert_middle.
Qed.
Next Obligation.
  intros Item xs x ys. cbn -[Nat.ltb]. rewrite (proj2 (Nat.ltb_lt _ _)) by (rewrite length_app; cbn; lia).
  rewrite take_app_length, (cons_middle x), app_assoc. by rewrite drop_app_length' by (rewrite length_app; cbn; lia).
Qed.

Lemma attached_inj {E A B} (a a' : A) (b b' : B) : Ret (E := E) (Some a, b) = Ret (Some a', b') → a = a' ∧ b = b'.
Proof. by intros [= -> ->]. Qed.

Section samples.
#[local] Instance sample_observer : Observer nat nat Follower := follower_observer true.

Definition sample : LinkedChunk nat nat := after 3 [PushItemsBack [1; 2; 3; 4]; PushGapBack 0].

Definition sample_vector : AsVector * LinkedChunk nat nat :=
  match as_vector sample with Ret (Some v, s) => (v, s) | _ => ({| token := 0; mapper := [] |}, sample) end.

Lemma attached (o : outcome Empty_set (option AsVector * LinkedChunk nat nat)) d :
  match o with Ret (Some _, _) => true | _ => false end = true → let r := match o with Ret (Some v, s) => (v, s) | _ => d end in o = Ret (Some r.1, r.2).
Proof. by destruct o as [[[v|] s]| | |]. Qed.

Definition sample_edit : command nat nat := InsertItemsAt {| chunk_identifier := 0%Z; index := 1 |} [5; 6].

Definition sample_after : LinkedChunk nat nat :=
  left_state sample_vector.2 (exec 3 (Do sample_edit) sample_vector.2).

Lemma sample_reachable : reachable 3 6 sample.
Proof.
  apply (follows_step 3 _ 5 1 _ (after 3 [PushItemsBack [1; 2; 3; 4]], ())); [apply (follow_do 3 _ (PushItemsBack [1; 2; 3; 4]) Done), returned_ret; by_vm|].
  apply (follows_step 3 _ 1 0 _ (sample, ())); [apply (follow_do 3 _ (PushGapBack 0) Done), returned_ret; by_vm|apply follows_refl].
Qed.

Lemma sample_follows :
  follows (O := Follower) 3 (token sample_vector.1) 7 (sample_vector.2, follower sample_vector.1 [1; 2; 3; 4])
    (sample_after, follower sample_vector.1 [1; 2; 3; 4]).
Proof. apply (follows_step 3 _ 7 0 _ (sample_after, follower sample_vector.1 [1; 2; 3; 4])); [apply (follow_do 3 _ sample_edit Done), returned_ret; by_vm|apply follows_refl]. Qed.

Lemma as_vector_follows_witness :
  ∃ ds v3 s3 l s4, take_diffs true sample_vector.1 sample_after = Ret (ds, v3, s3)
    ∧ items sample_after = Ret (Ok l, s4) ∧ apply_all ds [1; 2; 3; 4] = Some l.*2.
Proof.
  destruct (as_vector_follows true 3 6 7 sample sample_reachable) as (v & s1 & l1 & s1' & Hv & Hl & H);
    [cbn; unfold u64_max; lia|].
  assert (as_vector sample = Ret (Some sample_vector.1, sample_vector.2)) as Hv' by (apply attached; by_vm).
  rewrite Hv' in Hv. destruct (attached_inj _ _ _ _ Hv) as [<- <-].
  assert (snd <$> match items sample with Ret (Ok l, _) => l | _ => [] end = [1; 2; 3; 4]) as Hl' by by_vm.
  rewrite Hl in Hl'. rewrite Hl' in H. exact (H _ _ _ sample_follows eq_refl).
Defined.

Lemma ordering_is_index_witness :
  ∃ v3 s3 its s4, flush_updates true false sample_vector.1 sample_after = Ret (v3, s3)
    ∧ items sample_after = Ret (Ok its, s4)
    ∧ ∀ pos, ordering true pos v3 s3 = Ret (fst <$> list_find (λ x, x.1 = pos) its).
Proof.
  destruct (ordering_is_index true 3 6 7 sample sample_reachable) as (v & s1 & l1 & s1' & Hv & Hl & H);
    [cbn; unfold u64_max; lia|].
  rewrite order_tracker_as_vector in Hv.
  assert (as_vector sample = Ret (Some sample_vector.1, sample_vector.2)) as Hv' by (apply attached; by_vm).
  rewrite Hv' in Hv. destruct (attached_inj _ _ _ _ Hv) as [<- <-].
  assert (snd <$> match items sample with Ret (Ok l, _) => l | _ => [] end = [1; 2; 3; 4]) as Hl' by by_vm.
  rewrite Hl in Hl'. rewrite Hl' in H. exact (H _ _ _ sample_follows eq_refl).
Defined.

End samples.
