(* ===== verification/Relational.v ===== *)
(** * The relational linked chunk

    [crates/client-common/src/linked_chunk/relational.rs]: the memory store of the
    linked chunks of all rooms, as rows of chunks, rows of items and the contents
    of the items.  It is written by applying the updates of linked chunks, and read
    chunk by chunk.

    [apply_updates] may fail in the middle; what it has done until then stays, so
    that an error carries the store.  A [HashMap] or [BTreeMap] is a finite map;
    nothing here depends on an order of iteration.  [debug] says whether the build
    has debug assertions. *)

From S2P Require Import Prelude Updates LinkedChunk.
From stdpp Require Import sorting.

(** [OwnedLinkedChunkId]; the borrowed identifiers compare alike. *)
Inductive LinkedChunkId :=
| RoomChunk (room_id : string)
| Thread (room_id event_id : string)
| PinnedEvents (room_id : string)
| EventFocused (room_id event_id : string).

#[export] Instance LinkedChunkId_eq_dec : EqDecision LinkedChunkId.
Proof. solve_decision. Defined.

#[export] Instance LinkedChunkId_countable : Countable LinkedChunkId.
Proof.
  refine (inj_countable'
    (λ x, match x with
          | RoomChunk r => inl (inl r) | Thread r e => inl (inr (r, e))
          | PinnedEvents r => inr (inl r) | EventFocused r e => inr (inr (r, e)) end)
    (λ y, match y with
          | inl (inl r) => RoomChunk r | inl (inr (r, e)) => Thread r e
          | inr (inl r) => PinnedEvents r | inr (inr (r, e)) => EventFocused r e end) _).
  by intros [].
Defined.

Definition linked_chunk_room (id : LinkedChunkId) : string :=
  match id with RoomChunk r | Thread r _ | PinnedEvents r | EventFocused r _ => r end.

(** [IndexableItem] *)
Class IndexableItem (Item ItemId : Type) : Type := item_id : Item → ItemId.

Record ChunkRow := {
  row_linked_chunk_id : LinkedChunkId;
  previous_chunk : option ChunkIdentifier;
  row_chunk : ChunkIdentifier;
  next_chunk : option ChunkIdentifier
}.

Inductive Either (A B : Type) := EitherItem (id : A) | EitherGap (gap : B).

Arguments EitherItem {A B} id.
Arguments EitherGap {A B} gap.

Inductive RelationalError :=
| RelationalInvalidChunk (identifier : ChunkIdentifier)
| DuplicateChunkIdentifier (identifier : ChunkIdentifier).

(** [ChunkMetadata] *)
Record ChunkMetadata := {
  meta_identifier : ChunkIdentifier;
  meta_num_items : nat;
  meta_previous : option ChunkIdentifier;
  meta_next : option ChunkIdentifier
}.

(** The messages of a malformed store. *)
Inductive LoadError :=
| UnexpectedGap (chunk : ChunkIdentifier)
| SeveralGapRows (chunk : ChunkIdentifier)
| LastChunkNotFound.

(** [collect::<Result<Vec<_>, _>>()] *)
Fixpoint collect_results {E A} (l : list (result E A)) : result E (list A) :=
  match l with
  | [] => Ok []
  | Err e :: _ => Err e
  | Ok x :: l => match collect_results l with Ok xs => Ok (x :: xs) | Err e => Err e end
  end.

Section relational.
Context {ItemId Item Gap : Type} `{Countable ItemId} `{!IndexableItem Item ItemId} (debug : bool).
Abbreviation Update := (Update Item Gap).
Abbreviation RawChunk := (RawChunk Item Gap).

Record ItemRow := {
  item_linked_chunk_id : LinkedChunkId;
  row_position : Position;
  row_item : Either ItemId Gap
}.

Record Relational := {
  rel_chunks : list ChunkRow;
  items_chunks : list ItemRow;
  rel_items : gmap LinkedChunkId (gmap ItemId (Item * option Position))
}.

Definition new_relational : Relational := {| rel_chunks := []; items_chunks := []; rel_items := ∅ |}.

Definition set_rel_chunks (cs : list ChunkRow) (s : Relational) : Relational :=
  {| rel_chunks := cs; items_chunks := items_chunks s; rel_items := rel_items s |}.
Definition set_items_chunks (rows : list ItemRow) (s : Relational) : Relational :=
  {| rel_chunks := rel_chunks s; items_chunks := rows; rel_items := rel_items s |}.
Definition set_rel_items (m : gmap LinkedChunkId (gmap ItemId (Item * option Position))) (s : Relational) : Relational :=
  {| rel_chunks := rel_chunks s; items_chunks := items_chunks s; rel_items := m |}.

Definition clear_room (room_id : string) (s : Relational) : Relational :=
  {| rel_chunks := filter (λ r, linked_chunk_room (row_linked_chunk_id r) ≠ room_id) (rel_chunks s);
     items_chunks := filter (λ r, linked_chunk_room (item_linked_chunk_id r) ≠ room_id) (items_chunks s);
     rel_items := filter (λ kv, linked_chunk_room kv.1 ≠ room_id) (rel_items s) |}.

Definition clear_relational (s : Relational) : Relational := new_relational.

(** [iter_mut().find(..)] followed by an assignment *)
Fixpoint update_first {A} (f : A → bool) (g : A → A) (l : list A) : option (list A) :=
  match l with
  | [] => None
  | x :: l => if f x then Some (g x :: l) else (cons x) <$> update_first f g l
  end.

Definition is_row (lid : LinkedChunkId) (id : ChunkIdentifier) (r : ChunkRow) : bool :=
  bool_decide (lid = row_linked_chunk_id r) && (row_chunk r =? id)%Z.

Definition set_next_chunk (n : option ChunkIdentifier) (r : ChunkRow) : ChunkRow :=
  {| row_linked_chunk_id := row_linked_chunk_id r; previous_chunk := previous_chunk r;
     row_chunk := row_chunk r; next_chunk := n |}.
Definition set_previous_chunk (p : option ChunkIdentifier) (r : ChunkRow) : ChunkRow :=
  {| row_linked_chunk_id := row_linked_chunk_id r; previous_chunk := p;
     row_chunk := row_chunk r; next_chunk := next_chunk r |}.

Definition insert_chunk (lid : LinkedChunkId) (previous : option ChunkIdentifier) (new : ChunkIdentifier)
    (next : option ChunkIdentifier) (chunks : list ChunkRow) : result RelationalError () * list ChunkRow :=
  if existsb (is_row lid new) chunks then (Err (DuplicateChunkIdentifier new), chunks)
  else
    let linked_previous :=
      match previous with
      | None => Ok chunks
      | Some previous =>
          match update_first (is_row lid previous) (set_next_chunk (Some new)) chunks with
          | None => Err (RelationalInvalidChunk previous)
          | Some chunks => Ok chunks
          end
      end in
    match linked_previous with
    | Err e => (Err e, chunks)
    | Ok chunks =>
        let linked_next :=
          match next with
          | None => Ok chunks
          | Some next =>
              match update_first (is_row lid next) (set_previous_chunk (Some new)) chunks with
              | None => Err (RelationalInvalidChunk next)
              | Some chunks => Ok chunks
              end
          end in
        match linked_next with
        | Err e => (Err e, chunks)
        | Ok chunks =>
            (Ok (), chunks ++ [{| row_linked_chunk_id := lid; previous_chunk := previous;
                                  row_chunk := new; next_chunk := next |}])
        end
    end.

(** The first row that matches, and the others. *)
Fixpoint remove_first {A} (f : A → bool) (l : list A) : option (A * list A) :=
  match l with
  | [] => None
  | x :: l => if f x then Some (x, l) else (λ r, (r.1, x :: r.2)) <$> remove_first f l
  end.

(** [.expect(..)] *)
Definition expect {A} (o : option A) : outcome Empty_set A :=
  match o with Some x => Ret x | None => Panic end.

Definition remove_chunk (lid : LinkedChunkId) (chunk_to_remove : ChunkIdentifier) (chunks : list ChunkRow) :
    outcome Empty_set (list ChunkRow) :=
  let! removed := expect (remove_first (is_row lid chunk_to_remove) chunks) in
  let row := removed.1 in
  let! chunks :=
    match previous_chunk row with
    | None => Ret removed.2
    | Some previous =>
        expect (update_first (is_row (row_linked_chunk_id row) previous) (set_next_chunk (next_chunk row)) removed.2)
    end in
  match next_chunk row with
  | None => Ret chunks
  | Some next =>
      expect (update_first (is_row (row_linked_chunk_id row) next) (set_previous_chunk (previous_chunk row)) chunks)
  end.

(** [self.items.entry(..).or_default().insert(item_id, (item, Some(at)))] *)
Definition write_item (lid : LinkedChunkId) (item : Item) (at_ : Position) (s : Relational) : Relational :=
  set_rel_items
    (<[lid := <[item_id item := (item, Some at_)]> (default ∅ (rel_items s !! lid))]> (rel_items s)) s.

Fixpoint push_rows (lid : LinkedChunkId) (at_ : Position) (items : list Item) (s : Relational) :
    outcome Empty_set Relational :=
  match items with
  | [] => Ret s
  | item :: items =>
      let s := write_item lid item at_ s in
      let s := set_items_chunks
        (items_chunks s ++ [{| item_linked_chunk_id := lid; row_position := at_; row_item := EitherItem (item_id item) |}]) s in
      let! at_ := expect (increment_index at_) in
      push_rows lid at_ items s
  end.

Definition is_item (e : Either ItemId Gap) : bool := match e with EitherItem _ => true | EitherGap _ => false end.

Definition set_row_item (e : Either ItemId Gap) (r : ItemRow) : ItemRow :=
  {| item_linked_chunk_id := item_linked_chunk_id r; row_position := row_position r; row_item := e |}.

(** [Update::ReplaceItem]: the row is looked up by its position alone *)
Definition replace_row (lid : LinkedChunkId) (at_ : Position) (item : Item) (s : Relational) :
    outcome Empty_set Relational :=
  let! existing := expect (list_find (λ r, row_position r = at_) (items_chunks s)) in
  if negb (is_item (row_item existing.2)) then Panic
  else
    let s := write_item lid item at_ s in
    let! rows := expect (update_first (λ r, bool_decide (row_position r = at_)) (set_row_item (EitherItem (item_id item))) (items_chunks s)) in
    Ret (set_items_chunks rows s).

(** One turn of the loop of [Update::RemoveItem]: the row, shifted to the left when
    it comes after the one that is removed. *)
Definition shift_row (lid : LinkedChunkId) (at_ : Position) (r : ItemRow) : ItemRow :=
  if bool_decide (lid ≠ item_linked_chunk_id r) then r
  else if (chunk_identifier (row_position r) =? chunk_identifier at_)%Z && (index at_ <? index (row_position r)) then
    {| item_linked_chunk_id := item_linked_chunk_id r;
       row_position := {| chunk_identifier := chunk_identifier (row_position r); index := pred (index (row_position r)) |};
       row_item := row_item r |}
  else r.

Definition is_item_row (lid : LinkedChunkId) (at_ : Position) (r : ItemRow) : bool :=
  bool_decide (lid = item_linked_chunk_id r) && bool_decide (row_position r = at_).

(** The loop: the entry to remove is the last that matches; the rows are shifted. *)
Fixpoint scan_rows (lid : LinkedChunkId) (at_ : Position) (nth : nat) (entry_to_remove : option nat) (rows : list ItemRow) :
    outcome Empty_set (option nat * list ItemRow) :=
  match rows with
  | [] => Ret (entry_to_remove, [])
  | r :: rows =>
      let found := is_item_row lid at_ r in
      if debug && found && bool_decide (entry_to_remove ≠ None) then Panic
      else
        let! rest := scan_rows lid at_ (S nth) (if found then Some nth else entry_to_remove) rows in
        Ret (rest.1, shift_row lid at_ r :: rest.2)
  end.

Definition remove_row (lid : LinkedChunkId) (at_ : Position) (s : Relational) : outcome Empty_set Relational :=
  let! scanned := scan_rows lid at_ 0 None (items_chunks s) in
  let! entry_to_remove := expect scanned.1 in
  Ret (set_items_chunks (delete entry_to_remove scanned.2) s).

Definition apply_update (lid : LinkedChunkId) (u : Update) (s : Relational) :
    outcome Empty_set (result RelationalError () * Relational) :=
  match u with
  | NewItemsChunk previous new next =>
      let r := insert_chunk lid previous new next (rel_chunks s) in
      Ret (r.1, set_rel_chunks r.2 s)
  | NewGapChunk previous new next gap =>
      let r := insert_chunk lid previous new next (rel_chunks s) in
      let s := set_rel_chunks r.2 s in
      match r.1 with
      | Err e => Ret (Err e, s)
      | Ok _ =>
          Ret (Ok (), set_items_chunks
            (items_chunks s ++ [{| item_linked_chunk_id := lid;
                                   row_position := {| chunk_identifier := new; index := 0 |};
                                   row_item := EitherGap gap |}]) s)
      end
  | RemoveChunk chunk_identifier =>
      let! chunks := remove_chunk lid chunk_identifier (rel_chunks s) in
      let s := set_rel_chunks chunks s in
      Ret (Ok (), set_items_chunks
        (filter (λ r, ¬ (lid = item_linked_chunk_id r ∧ Updates.chunk_identifier (row_position r) = chunk_identifier)) (items_chunks s)) s)
  | PushItems at_ items => let! s := push_rows lid at_ items s in Ret (Ok (), s)
  | ReplaceItem at_ item => let! s := replace_row lid at_ item s in Ret (Ok (), s)
  | RemoveItem at_ => let! s := remove_row lid at_ s in Ret (Ok (), s)
  | DetachLastItems at_ =>
      Ret (Ok (), set_items_chunks
        (filter (λ r, ¬ (lid = item_linked_chunk_id r ∧ chunk_identifier (row_position r) = chunk_identifier at_
                         ∧ index at_ <= index (row_position r))) (items_chunks s)) s)
  | StartReattachItems | EndReattachItems => Ret (Ok (), s)
  | Clear =>
      Ret (Ok (), set_items_chunks (filter (λ r, item_linked_chunk_id r ≠ lid) (items_chunks s))
        (set_rel_chunks (filter (λ r, row_linked_chunk_id r ≠ lid) (rel_chunks s)) s))
  end.

Fixpoint apply_updates (lid : LinkedChunkId) (us : list Update) (s : Relational) :
    outcome Empty_set (result RelationalError () * Relational) :=
  match us with
  | [] => Ret (Ok (), s)
  | u :: us =>
      let! r := apply_update lid u s in
      match r.1 with Err e => Ret (Err e, r.2) | Ok _ => apply_updates lid us r.2 end
  end.

(** ** Reading *)

Definition unordered_linked_chunk_items (target : LinkedChunkId) (s : Relational) : list (Item * Position) :=
  omap (λ kv : ItemId * (Item * option Position), (λ pos, (kv.2.1, pos)) <$> kv.2.2) (map_to_list (default ∅ (rel_items s !! target))).

(** [items], of all linked chunks of a room *)
Definition room_items (room_id : string) (s : Relational) : list (LinkedChunkId * (Item * option Position)) :=
  filter (λ kv : LinkedChunkId * gmap ItemId (Item * option Position), linked_chunk_room kv.1 = room_id) (map_to_list (rel_items s))
  ≫= λ kv, (λ it : ItemId * (Item * option Position), (kv.1, it.2)) <$> map_to_list kv.2.

Definition save_in (item : Item) (m : gmap ItemId (Item * option Position)) : gmap ItemId (Item * option Position) :=
  match m !! item_id item with
  | Some prev_value => <[item_id item := (item, prev_value.2)]> m
  | None => <[item_id item := (item, None)]> m
  end.

Definition save_item (room_id : string) (item : Item) (s : Relational) : Relational :=
  let linked_chunk_ids :=
    filter (λ lid, linked_chunk_room lid = room_id) (dom (rel_items s)) ∪ {[ RoomChunk room_id ]} in
  set_rel_items
    (foldr (λ lid m, <[lid := save_in item (default ∅ (m !! lid))]> m) (rel_items s) (elements linked_chunk_ids)) s.

(** The rows of a chunk. *)
Definition chunk_item_rows (lid : LinkedChunkId) (id : ChunkIdentifier) (s : Relational) : list ItemRow :=
  filter (λ r, item_linked_chunk_id r = lid ∧ chunk_identifier (row_position r) = id) (items_chunks s).

Definition with_links (content : ChunkContent Item Gap) (row : ChunkRow) : RawChunk :=
  {| raw_content := content; raw_previous := previous_chunk row;
     raw_identifier := row_chunk row; raw_next := next_chunk row |}.

(** The rows of a chunk of items, with their index; a gap among them is an error. *)
Fixpoint collect_items (row : ChunkRow) (items : list ItemRow) : result LoadError (list (ItemId * nat)) :=
  match items with
  | [] => Ok []
  | r :: items =>
      match row_item r with
      | EitherGap _ => Err (UnexpectedGap (row_chunk row))
      | EitherItem id =>
          match collect_items row items with
          | Err e => Err e
          | Ok rest => Ok ((id, index (row_position r)) :: rest)
          end
      end
  end.

Definition by_index (x y : ItemId * nat) : Prop := x.2 <= y.2.

#[export] Instance by_index_dec : RelDecision by_index.
Proof. intros x y. unfold by_index. apply _. Defined.

Definition load_raw_chunk (s : Relational) (row : ChunkRow) (lid : LinkedChunkId) : result LoadError RawChunk :=
  let items := chunk_item_rows lid (row_chunk row) s in
  match items with
  | [] => Ok (with_links (Items []) row)
  | first_item :: more =>
      match row_item first_item with
      | EitherItem _ =>
          match collect_items row items with
          | Err e => Err e
          | Ok collected_items =>
              Ok (with_links (Items
                (omap (λ x : ItemId * nat, m ← rel_items s !! lid; fst <$> m !! x.1) (merge_sort by_index collected_items))) row)
          end
      | EitherGap gap =>
          match more with
          | [] => Ok (with_links (GapContent gap) row)
          | _ => Err (SeveralGapRows (row_chunk row))
          end
      end
  end.

Definition load_raw_chunk_metadata (s : Relational) (row : ChunkRow) (lid : LinkedChunkId) : result LoadError ChunkMetadata :=
  let items := chunk_item_rows lid (row_chunk row) s in
  let meta n := {| meta_identifier := row_chunk row; meta_num_items := n;
                   meta_previous := previous_chunk row; meta_next := next_chunk row |} in
  match items with
  | [] => Ok (meta 0)
  | first_item :: more =>
      match row_item first_item with
      | EitherItem _ =>
          match collect_items row items with Err e => Err e | Ok collected => Ok (meta (length collected)) end
      | EitherGap _ => match more with [] => Ok (meta 0) | _ => Err (SeveralGapRows (row_chunk row)) end
      end
  end.

Definition rows_of (lid : LinkedChunkId) (s : Relational) : list ChunkRow :=
  filter (λ r, row_linked_chunk_id r = lid) (rel_chunks s).

Definition load_all_chunks (lid : LinkedChunkId) (s : Relational) : result LoadError (list RawChunk) :=
  collect_results ((λ row, load_raw_chunk s row lid) <$> rows_of lid s).

Definition load_all_chunks_metadata (lid : LinkedChunkId) (s : Relational) : result LoadError (list ChunkMetadata) :=
  collect_results ((λ row, load_raw_chunk_metadata s row lid) <$> rows_of lid s).

(** [.max()] *)
Definition max_identifier (l : list ChunkIdentifier) : option ChunkIdentifier :=
  match l with [] => None | id :: l => Some (foldl Z.max id l) end.

Definition load_last_chunk (lid : LinkedChunkId) (s : Relational) : result LoadError (option RawChunk * Z) :=
  let chunk_identifier_generator := default FIRST_IDENTIFIER (max_identifier (row_chunk <$> rows_of lid s)) in
  match list_find (λ r, next_chunk r = None) (rows_of lid s) with
  | Some (_, chunk_row) =>
      match load_raw_chunk s chunk_row lid with
      | Err e => Err e
      | Ok raw_chunk => Ok (Some raw_chunk, chunk_identifier_generator)
      end
  | None =>
      match rows_of lid s with
      | [] => Ok (None, chunk_identifier_generator)
      | _ => Err LastChunkNotFound
      end
  end.

Definition load_previous_chunk (lid : LinkedChunkId) (before_chunk_identifier : ChunkIdentifier) (s : Relational) :
    result LoadError (option RawChunk) :=
  match list_find (λ r, row_linked_chunk_id r = lid ∧ next_chunk r = Some before_chunk_identifier) (rel_chunks s) with
  | None => Ok None
  | Some (_, chunk_row) =>
      match load_raw_chunk s chunk_row lid with Err e => Err e | Ok raw => Ok (Some raw) end
  end.

End relational.

Arguments Relational : clear implicits.
Arguments ItemRow : clear implicits.
Arguments Relational ItemId Item Gap {_ _}.
