(* ===== verification/RelationalSpec.v ===== *)
(** * A store that follows a linked chunk

    The relational linked chunk, fed with the updates of a linked chunk, holds its
    rows: the chunks with their links, the items at their positions, and the
    contents, as long as no two items of the linked chunk share an identifier. *)

From S2P Require Import Prelude Updates LinkedChunk LinkedHeap LinkedList LinkedRefine LinkedObserver LinkedEdits LinkedCommands Relational.
From stdpp Require Import sorting.

(** ** One row among many *)

Section rows.
Context {A : Type}.
Implicit Types (f : A → bool) (g : A → A) (l : list A).

(** The first row, or not. *)
Lemma perm_first y l x l0 : y :: l ≡ₚ x :: l0 → y = x ∧ l ≡ₚ l0 ∨ ∃ l1, l0 ≡ₚ y :: l1 ∧ l ≡ₚ x :: l1.
Proof.
  intros Hp. assert (y ∈ x :: l0) as [->|Hin]%elem_of_cons by (rewrite <- Hp; by left).
  - left. by apply Permutation_cons_inv in Hp.
  - right. apply elem_of_Permutation in Hin as [l1 Hl1]. exists l1. split; [done|].
    apply (Permutation_cons_inv (a := y)). rewrite Hp, Hl1. apply perm_swap.
Qed.

Lemma update_first_perm f g l x l0 :
  l ≡ₚ x :: l0 → f x = true → (∀ y, y ∈ l0 → f y = false) →
  ∃ l', update_first f g l = Some l' ∧ l' ≡ₚ g x :: l0.
Proof.
  revert l0. induction l as [|y l IH]; intros l0 Hp Hx Hl0; [by apply Permutation_nil_cons in Hp|]. cbn.
  destruct (perm_first _ _ _ _ Hp) as [[-> Hl]|(l1 & Hl1 & Hl)].
  - rewrite Hx. exists (g x :: l). split; [done|]. by rewrite Hl.
  - rewrite Hl0 by (rewrite Hl1; by left).
    destruct (IH l1 Hl Hx) as (l' & -> & Hl'); [intros z Hz; apply Hl0; rewrite Hl1; by right|].
    exists (y :: l'). split; [done|]. rewrite Hl', Hl1. apply perm_swap.
Qed.

Lemma remove_first_perm f l x l0 :
  l ≡ₚ x :: l0 → f x = true → (∀ y, y ∈ l0 → f y = false) →
  ∃ l', remove_first f l = Some (x, l') ∧ l' ≡ₚ l0.
Proof.
  revert l0. induction l as [|y l IH]; intros l0 Hp Hx Hl0; [by apply Permutation_nil_cons in Hp|]. cbn.
  destruct (perm_first _ _ _ _ Hp) as [[-> Hl]|(l1 & Hl1 & Hl)].
  - rewrite Hx. by exists l.
  - rewrite Hl0 by (rewrite Hl1; by left).
    destruct (IH l1 Hl Hx) as (l' & -> & Hl'); [intros z Hz; apply Hl0; rewrite Hl1; by right|].
    exists (y :: l'). split; [done|]. by rewrite Hl', Hl1.
Qed.

Lemma filter_none (P : A → Prop) `{!∀ x, Decision (P x)} l : (∀ x, x ∈ l → ¬ P x) → filter P l = [].
Proof.
  induction l as [|x l IH]; intros Hl; [done|]. rewrite filter_cons_False by (apply Hl; by left).
  by rewrite IH by (intros y Hy; apply Hl; by right).
Qed.

End rows.

(** ** The rows of the chunks *)

Section chunk_rows.
Context (lid : LinkedChunkId).
Implicit Types (P R : list ChunkIdentifier) (rows rest : list ChunkRow).

(** The rows of chunks that are linked, from [prev] to [nxt]. *)
Fixpoint link_rows (prev : option ChunkIdentifier) (ids : list ChunkIdentifier) (nxt : option ChunkIdentifier) : list ChunkRow :=
  match ids with
  | [] => []
  | id :: ids =>
      {| row_linked_chunk_id := lid; previous_chunk := prev; row_chunk := id; next_chunk := option_or (head ids) nxt |}
      :: link_rows (Some id) ids nxt
  end.

Lemma option_or_none {A} (o : option A) : option_or o None = o.
Proof. by destruct o. Qed.

Lemma link_rows_app prev P R nxt :
  link_rows prev (P ++ R) nxt = link_rows prev P (option_or (head R) nxt) ++ link_rows (option_or (last P) prev) R nxt.
Proof.
  revert prev. induction P as [|p P IH]; intros prev; [done|]. cbn [app link_rows]. rewrite IH. f_equal.
  - f_equal. by destruct P.
  - f_equal. f_equal. destruct P as [|q P]; [done|]. rewrite last_cons_cons. by destruct (last (q :: P)) eqn:E; [|apply last_None in E].
Qed.

Lemma link_rows_ids prev P nxt : row_chunk <$> link_rows prev P nxt = P.
Proof. revert prev. induction P as [|p P IH]; intros prev; [done|]. cbn. by rewrite IH. Qed.

Lemma link_rows_lid prev P nxt : Forall (λ r, row_linked_chunk_id r = lid) (link_rows prev P nxt).
Proof. revert prev. induction P as [|p P IH]; intros prev; constructor; [done|apply IH]. Qed.

Lemma link_rows_elem prev P nxt r : r ∈ link_rows prev P nxt → row_chunk r ∈ P.
Proof. intros Hr. rewrite <- (link_rows_ids prev P nxt). by apply list_elem_of_fmap_2. Qed.

Lemma is_row_other id r : row_chunk r ≠ id → is_row lid id r = false.
Proof. intros Hne. unfold is_row. rewrite (proj2 (Z.eqb_neq _ _) Hne). apply andb_false_r. Qed.

Lemma relink_next rows P n1 n2 rest :
  rows ≡ₚ link_rows None P n1 ++ rest → NoDup P → (∀ r, r ∈ rest → row_chunk r ∉ P) →
  ∃ rows', match last P with None => Some rows | Some p => update_first (is_row lid p) (set_next_chunk n2) rows end = Some rows'
    ∧ rows' ≡ₚ link_rows None P n2 ++ rest.
Proof.
  destruct P as [|p P _] using rev_ind; intros Hrows Hd Hrest; [by exists rows|]. rewrite last_snoc.
  rewrite link_rows_app in Hrows |- *. cbn [head option_or link_rows] in *. apply NoDup_app in Hd as (Hd & Hp & _).
  rewrite <- app_assoc in Hrows. cbn [app] in Hrows. rewrite <- Permutation_middle in Hrows.
  destruct (update_first_perm (is_row lid p) (set_next_chunk n2) _ _ _ Hrows) as (rows' & -> & Hrows').
  - unfold is_row. cbn. by rewrite bool_decide_eq_true_2, Z.eqb_refl.
  - intros y Hy. apply is_row_other. intros Heq. apply elem_of_app in Hy as [Hy|Hy].
    + apply link_rows_elem in Hy. apply (Hp (row_chunk y) Hy). rewrite Heq. by left.
    + apply (Hrest y Hy). rewrite Heq. apply elem_of_app. right. by left.
  - exists rows'. split; [done|]. rewrite Hrows', <- app_assoc. cbn. by rewrite <- Permutation_middle.
Qed.

Lemma relink_previous rows R p1 p2 rest :
  rows ≡ₚ rest ++ link_rows p1 R None → NoDup R → (∀ r, r ∈ rest → row_chunk r ∉ R) →
  ∃ rows', match head R with None => Some rows | Some r => update_first (is_row lid r) (set_previous_chunk p2) rows end = Some rows'
    ∧ rows' ≡ₚ rest ++ link_rows p2 R None.
Proof.
  destruct R as [|r R]; intros Hrows Hd Hrest; [by exists rows|]. cbn [head link_rows] in *. apply NoDup_cons in Hd as [Hr Hd].
  rewrite <- Permutation_middle in Hrows.
  destruct (update_first_perm (is_row lid r) (set_previous_chunk p2) _ _ _ Hrows) as (rows' & -> & Hrows').
  - unfold is_row. cbn. by rewrite bool_decide_eq_true_2, Z.eqb_refl.
  - intros y Hy. apply is_row_other. intros Heq. apply elem_of_app in Hy as [Hy|Hy].
    + apply (Hrest y Hy). rewrite Heq. by left.
    + apply link_rows_elem in Hy. apply Hr. by rewrite <- Heq.
  - exists rows'. split; [done|]. rewrite Hrows'. cbn. by rewrite <- Permutation_middle.
Qed.

Lemma insert_chunk_rows rows P R new :
  rows ≡ₚ link_rows None (P ++ R) None → NoDup (P ++ R) → new ∉ P ++ R →
  ∃ rows', insert_chunk lid (last P) new (head R) rows = (Ok (), rows') ∧ rows' ≡ₚ link_rows None (P ++ new :: R) None.
Proof.
  intros Hrows Hd Hnew. apply NoDup_app in Hd as (HdP & HPR & HdR). unfold insert_chunk.
  assert (existsb (is_row lid new) rows = false) as ->.
  { apply not_true_is_false. intros (r & Hr & Hn)%existsb_exists. apply list_elem_of_In in Hr. rewrite Hrows in Hr.
    apply link_rows_elem in Hr. unfold is_row in Hn. apply andb_true_iff in Hn as [_ Hn]. apply Z.eqb_eq in Hn. by subst. }
  rewrite link_rows_app, !option_or_none in Hrows.
  destruct (relink_next rows P _ (Some new) _ Hrows HdP) as (rows1 & Hrun1 & Hrows1).
  { intros r Hr Hin. apply link_rows_elem in Hr. by apply (HPR _ Hin). }
  destruct (relink_previous rows1 R _ (Some new) _ Hrows1 HdR) as (rows2 & Hrun2 & Hrows2).
  { intros r Hr Hin. apply link_rows_elem in Hr. by apply (HPR _ Hr). }
  assert (match last P with None => Ok rows | Some previous =>
    match update_first (is_row lid previous) (set_next_chunk (Some new)) rows with
    | None => Err (RelationalInvalidChunk previous) | Some chunks => Ok chunks end end = Ok rows1) as ->.
  { destruct (last P); [by rewrite Hrun1|congruence]. }
  assert (match head R with None => Ok rows1 | Some next =>
    match update_first (is_row lid next) (set_previous_chunk (Some new)) rows1 with
    | None => Err (RelationalInvalidChunk next) | Some chunks => Ok chunks end end = Ok rows2) as ->.
  { destruct (head R); [by rewrite Hrun2|congruence]. }
  eexists. split; [done|]. rewrite Hrows2, (link_rows_app None P (new :: R)), !option_or_none. cbn [head option_or link_rows].
  rewrite option_or_none, <- app_assoc. apply Permutation_app_head. by rewrite Permutation_app_comm.
Qed.

Lemma remove_chunk_rows rows P id R :
  rows ≡ₚ link_rows None (P ++ id :: R) None → NoDup (P ++ id :: R) →
  ∃ rows', remove_chunk lid id rows = Ret rows' ∧ rows' ≡ₚ link_rows None (P ++ R) None.
Proof.
  intros Hrows Hd. apply NoDup_app in Hd as (HdP & HPR & [HidR HdR]%NoDup_cons). unfold remove_chunk.
  rewrite link_rows_app, !option_or_none in Hrows. cbn [head option_or link_rows] in Hrows. rewrite option_or_none in Hrows.
  rewrite <- Permutation_middle in Hrows.
  destruct (remove_first_perm (is_row lid id) _ _ _ Hrows) as (rows0 & -> & Hrows0).
  - unfold is_row. cbn. by rewrite bool_decide_eq_true_2, Z.eqb_refl.
  - intros y Hy. apply is_row_other. intros Heq. apply elem_of_app in Hy as [Hy|Hy]; apply link_rows_elem in Hy.
    + apply (HPR (row_chunk y) Hy). rewrite Heq. by left.
    + by rewrite Heq in Hy.
  - cbn [expect fst snd previous_chunk next_chunk row_linked_chunk_id].
    destruct (relink_next rows0 P _ (head R) _ Hrows0 HdP) as (rows1 & Hrun1 & Hrows1).
    { intros r Hr Hin. apply link_rows_elem in Hr. apply (HPR _ Hin). by right. }
    destruct (relink_previous rows1 R _ (last P) _ Hrows1 HdR) as (rows2 & Hrun2 & Hrows2).
    { intros r Hr Hin. apply link_rows_elem in Hr. apply (HPR _ Hr). by right. }
    exists rows2. rewrite link_rows_app, !option_or_none. split; [|done].
    destruct (last P); cbn in Hrun1 |- *; [rewrite Hrun1; cbn|injection Hrun1 as <-];
      (destruct (head R); cbn in Hrun2 |- *; [by rewrite Hrun2|congruence]).
Qed.

End chunk_rows.

(** ** The rows of the items *)

Section item_rows.
Context {ItemId Item Gap : Type} `{Countable ItemId} `{!IndexableItem Item ItemId} (lid : LinkedChunkId).
Abbreviation Content := (ChunkContent Item Gap).
Abbreviation chunk := (ChunkIdentifier * Content)%type.
Abbreviation ItemRow := (ItemRow ItemId Gap).
Abbreviation Relational := (Relational ItemId Item Gap).
Implicit Types (A B : list chunk) (xs ys : list Item) (s : Relational) (id : ChunkIdentifier).

Definition item_row id (i : nat) (e : Either ItemId Gap) : ItemRow :=
  {| item_linked_chunk_id := lid; row_position := {| chunk_identifier := id; index := i |}; row_item := e |}.

Definition items_from_index id (i : nat) xs : list ItemRow := imap (λ j x, item_row id (i + j) (EitherItem (item_id x))) xs.

Definition rows_of_chunk (c : chunk) : list ItemRow :=
  match c.2 with GapContent gap => [item_row c.1 0 (EitherGap gap)] | Items xs => items_from_index c.1 0 xs end.

Definition item_rows A : list ItemRow := A ≫= rows_of_chunk.

Lemma item_rows_app A B : item_rows (A ++ B) = item_rows A ++ item_rows B.
Proof. apply bind_app. Qed.

Lemma item_rows_cons c A : item_rows (c :: A) = rows_of_chunk c ++ item_rows A.
Proof. done. Qed.

Lemma items_from_app id i xs ys :
  items_from_index id i (xs ++ ys) = items_from_index id i xs ++ items_from_index id (i + length xs) ys.
Proof.
  unfold items_from_index. rewrite imap_app. f_equal. apply imap_ext. intros j x _. cbn. f_equal. lia.
Qed.

Lemma items_from_cons id i x xs :
  items_from_index id i (x :: xs) = item_row id i (EitherItem (item_id x)) :: items_from_index id (S i) xs.
Proof. change (x :: xs) with ([x] ++ xs). rewrite items_from_app, Nat.add_1_r. cbn. by rewrite Nat.add_0_r. Qed.

Lemma items_from_elem id i xs r :
  r ∈ items_from_index id i xs →
  ∃ j x, xs !! j = Some x ∧ r = item_row id (i + j) (EitherItem (item_id x)).
Proof.
  intros (k & Hk)%list_elem_of_lookup. unfold items_from_index in Hk. rewrite list_lookup_imap in Hk.
  destruct (xs !! k) as [x|] eqn:Hx; [|done]. cbn in Hk. injection Hk as <-. by exists k, x.
Qed.

Lemma rows_of_chunk_elem c r : r ∈ rows_of_chunk c → item_linked_chunk_id r = lid ∧ chunk_identifier (row_position r) = c.1.
Proof.
  unfold rows_of_chunk. destruct (c.2).
  - by intros ->%list_elem_of_singleton.
  - by intros (j & x & _ & ->)%items_from_elem.
Qed.

Lemma item_rows_elem A r : r ∈ item_rows A → item_linked_chunk_id r = lid ∧ chunk_identifier (row_position r) ∈ A.*1.
Proof.
  unfold item_rows. intros (c & Hr & Hc)%list_elem_of_bind. apply rows_of_chunk_elem in Hr as [? ->].
  split; [done|]. by apply list_elem_of_fmap_2.
Qed.

(** A filter that looks at one chunk only. *)
Lemma filter_rows (Q : ItemRow → Prop) `{!∀ r, Decision (Q r)} A c B c' :
  NoDup (A ++ c :: B).*1 → (∀ r, chunk_identifier (row_position r) ≠ c.1 → Q r) → filter Q (rows_of_chunk c) = c' →
  filter Q (item_rows (A ++ c :: B)) = item_rows A ++ c' ++ item_rows B.
Proof.
  intros Hd HQ Hc. rewrite item_rows_app, item_rows_cons, !filter_app, Hc. rewrite fmap_app, fmap_cons in Hd.
  apply NoDup_app in Hd as (_ & HAB & [HcB _]%NoDup_cons).
  assert (∀ X, c.1 ∉ X.*1 → filter Q (item_rows X) = item_rows X) as Hkeep.
  { intros X HX. apply filter_all. intros r [_ Hr]%item_rows_elem. apply HQ. congruence. }
  rewrite (Hkeep A), (Hkeep B); [done|done|]. intros Hin. apply (HAB _ Hin). by left.
Qed.

(** The row of an item, among the others. *)
Lemma item_rows_middle A id xs x ys B :
  item_rows (A ++ (id, Items (xs ++ x :: ys)) :: B)
  = (item_rows A ++ items_from_index id 0 xs) ++ item_row id (length xs) (EitherItem (item_id x))
    :: (items_from_index id (S (length xs)) ys ++ item_rows B).
Proof.
  rewrite item_rows_app, item_rows_cons. unfold rows_of_chunk. cbn [fst snd].
  by rewrite items_from_app, items_from_cons, <- !app_assoc.
Qed.

Lemma other_positions A id xs ys B z r :
  NoDup (A ++ (id, z) :: B).*1 →
  r ∈ (item_rows A ++ items_from_index id 0 xs) ++ items_from_index id (S (length xs)) ys ++ item_rows B →
  row_position r ≠ {| chunk_identifier := id; index := length xs |}.
Proof.
  rewrite fmap_app, fmap_cons. cbn [fst]. intros (_ & HAB & [HcB _]%NoDup_cons)%NoDup_app Hr Hpos.
  rewrite !elem_of_app in Hr. destruct Hr as [[Hr|Hr]|[Hr|Hr]].
  - apply item_rows_elem in Hr as [_ Hr]. rewrite Hpos in Hr. apply (HAB _ Hr). by left.
  - apply items_from_elem in Hr as (j & x & Hj%lookup_lt_Some & ->). cbn in Hpos. injection Hpos as Hpos. lia.
  - apply items_from_elem in Hr as (j & x & _ & ->). cbn in Hpos. injection Hpos as Hpos. lia.
  - apply item_rows_elem in Hr as [_ Hr]. rewrite Hpos in Hr. done.
Qed.

End item_rows.

(** ** Applying updates *)

Section applying.
Context {ItemId Item Gap : Type} `{Countable ItemId} `{!IndexableItem Item ItemId} (debug : bool) (lid : LinkedChunkId).
Abbreviation Content := (ChunkContent Item Gap).
Abbreviation chunk := (ChunkIdentifier * Content)%type.
Abbreviation Relational := (Relational ItemId Item Gap).
Implicit Types (A B : list chunk) (xs ys : list Item) (s : Relational) (id : ChunkIdentifier).

(** The store holds the rows of the chunks, and nothing else. *)
Record holds s A : Prop := {
  holds_chunks : rel_chunks s ≡ₚ link_rows lid None A.*1 None;
  holds_items : items_chunks s ≡ₚ item_rows lid A;
  holds_distinct : NoDup A.*1
}.

(** The content the store has for an item. *)
Definition content_of s (k : ItemId) : option Item := m ← rel_items s !! lid; fst <$> m !! k.

(** The contents are those of the chunks. *)
Definition exact s A : Prop := ∀ x, x ∈ flat A → content_of s (item_id x) = Some x.

Definition row_ids (rows : list (ItemRow ItemId Gap)) : list ItemId :=
  omap (λ r, match row_item r with EitherItem i => Some i | EitherGap _ => None end) rows.

#[export] Instance row_ids_perm : Proper ((≡ₚ) ==> (≡ₚ)) row_ids.
Proof. intros l l' Hl. unfold row_ids. by rewrite Hl. Qed.

Lemma row_ids_items id i xs : row_ids (items_from_index lid id i xs) = item_id <$> xs.
Proof.
  revert i. induction xs as [|x xs IH]; intros i; [done|]. rewrite items_from_cons. cbn. by rewrite IH.
Qed.

Lemma row_ids_rows A : row_ids (item_rows lid A) = item_id <$> flat A.
Proof.
  induction A as [|c A IH]; [done|]. rewrite item_rows_cons. unfold row_ids in *. rewrite omap_app, IH.
  change (c :: A) with ([c] ++ A). rewrite flat_app, flat_single, fmap_app. f_equal. unfold rows_of_chunk.
  destruct (c.2) as [gap|xs]; [done|]. apply row_ids_items.
Qed.

(** What an update does, to a store that holds the chunks [A]. *)
Definition turns (u : Update Item Gap) A A' : Prop :=
  ∀ s, holds s A → ∃ s', apply_update debug lid u s = Ret (Ok (), s') ∧ holds s' A'
    ∧ (exact s A → NoDup (item_id <$> flat A') → exact s' A').

Lemma turns_insert P R new ct u :
  (u = NewItemsChunk (last P.*1) new (head R.*1) ∧ ct = Items [] ∨ ∃ gap, u = NewGapChunk (last P.*1) new (head R.*1) gap ∧ ct = GapContent gap) →
  new ∉ (P ++ R).*1 → turns u (P ++ R) (P ++ (new, ct) :: R).
Proof.
  intros Hu Hnew s [Hc Hi Hd]. rewrite fmap_app in Hc, Hd, Hnew.
  destruct (insert_chunk_rows lid _ _ _ new Hc Hd Hnew) as (rows & Hrun & Hrows).
  assert (NoDup (P ++ (new, ct) :: R).*1) as Hd'.
  { rewrite fmap_app, fmap_cons. cbn. rewrite <- Permutation_middle. by constructor. }
  assert (flat (P ++ (new, ct) :: R) = flat (P ++ R)) as Hflat.
  { rewrite (cons_middle (new, ct)), !flat_app, flat_single. destruct Hu as [[_ ->]|(gap & _ & ->)]; reflexivity. }
  destruct Hu as [[-> ->]|(gap & -> & ->)]; cbn [apply_update]; rewrite Hrun; eexists; split; try done; split; try done.
  1,3: split; cbn; try done.
  - by rewrite Hrows, fmap_app.
  - rewrite Hi, !item_rows_app, item_rows_cons. done.
  - by rewrite Hrows, fmap_app.
  - rewrite Hi, !item_rows_app, item_rows_cons, <- app_assoc. apply Permutation_app_head. by rewrite Permutation_app_comm.
  - intros He _ x Hx. rewrite Hflat in Hx. by apply He.
  - intros He _ x Hx. rewrite Hflat in Hx. by apply He.
Qed.

Lemma push_rows_run id i xs s :
  (Z.of_nat (i + length xs) < usize_max)%Z →
  ∃ s', push_rows lid {| chunk_identifier := id; index := i |} xs s = Ret s'
    ∧ rel_chunks s' = rel_chunks s ∧ items_chunks s' = items_chunks s ++ items_from_index lid id i xs
    ∧ (∀ k, k ∉ item_id <$> xs → content_of s' k = content_of s k)
    ∧ (NoDup (item_id <$> xs) → ∀ x, x ∈ xs → content_of s' (item_id x) = Some x).
Proof.
  revert i s. induction xs as [|y xs IH]; intros i s Hmax; [exists s; split_and!; try done; [by rewrite app_nil_r|set_solver]|].
  cbn [push_rows]. unfold increment_index. cbn [index chunk_identifier length] in Hmax |- *.
  rewrite (proj2 (Z.ltb_lt (Z.of_nat i) usize_max)) by lia. cbn [expect].
  set (s1 := set_items_chunks _ _).
  destruct (IH (S i) s1) as (s' & Hrun & Hc & Hi & Hother & Hnew); [lia|].
  assert (∀ k, k ≠ item_id y → content_of s1 k = content_of s k) as Hs1.
  { intros k Hk. unfold content_of, s1. cbn. rewrite lookup_insert_eq. cbn. rewrite lookup_insert_ne by done.
    destruct (rel_items s !! lid); [done|]. cbn. by rewrite lookup_empty. }
  assert (content_of s1 (item_id y) = Some y) as Hy.
  { unfold content_of, s1. cbn. rewrite lookup_insert_eq. cbn. by rewrite lookup_insert_eq. }
  exists s'. split_and!; [done|done| | |].
  - rewrite Hi. unfold s1. cbn [items_chunks set_items_chunks write_item set_rel_items]. by rewrite <- app_assoc, items_from_cons.
  - intros k Hk. rewrite fmap_cons, not_elem_of_cons in Hk. destruct Hk as [Hk1 Hk2]. rewrite Hother by done. by apply Hs1.
  - rewrite fmap_cons. intros [Hny Hnd]%NoDup_cons x [->|Hx]%elem_of_cons; [|by apply Hnew].
    by rewrite Hother.
Qed.

Lemma turns_push P id cur R xs :
  (Z.of_nat (length (cur ++ xs)) < usize_max)%Z →
  turns (PushItems {| chunk_identifier := id; index := length cur |} xs)
    (P ++ (id, Items cur) :: R) (P ++ (id, Items (cur ++ xs)) :: R).
Proof.
  intros Hmax s [Hc Hi Hd]. rewrite length_app in Hmax.
  destruct (push_rows_run id (length cur) xs s Hmax) as (s' & Hrun & Hc' & Hi' & Hother & Hnew).
  exists s'. cbn [apply_update]. rewrite Hrun. split; [done|].
  assert (flat (P ++ (id, Items (cur ++ xs)) :: R) ≡ₚ xs ++ flat (P ++ (id, Items cur) :: R)) as Hflat.
  { rewrite !(cons_middle (id, _)), !flat_app, !flat_single. cbn. rewrite (Permutation_app_comm cur xs), <- app_assoc.
    by rewrite (app_assoc (flat P)), (Permutation_app_comm (flat P) xs), <- app_assoc. }
  split; [split|].
  - rewrite Hc', Hc. by rewrite !fmap_app, !fmap_cons.
  - rewrite Hi', Hi, !item_rows_app, !item_rows_cons. unfold rows_of_chunk. cbn [fst snd].
    rewrite items_from_app, <- !app_assoc. do 2 apply Permutation_app_head. by rewrite Permutation_app_comm.
  - rewrite fmap_app, fmap_cons in Hd |- *. done.
  - intros He Hnd x Hx. rewrite Hflat, fmap_app in Hnd. apply NoDup_app in Hnd as (Hndx & Hdis & _).
    rewrite Hflat in Hx. apply elem_of_app in Hx as [Hx|Hx]; [by apply Hnew|].
    rewrite Hother; [by apply He|]. intros Hin. apply (Hdis _ Hin). by apply list_elem_of_fmap_2.
Qed.

(** An update that drops rows of one chunk. *)
Lemma turns_drop P id ct ct' R (Q : ItemRow ItemId Gap → Prop) `{!∀ r, Decision (Q r)} s :
  holds s (P ++ (id, ct) :: R) → (∀ r, chunk_identifier (row_position r) ≠ id → Q r) →
  filter Q (rows_of_chunk lid (id, ct)) = rows_of_chunk lid (id, ct') →
  holds (set_items_chunks (filter Q (items_chunks s)) s) (P ++ (id, ct') :: R).
Proof.
  intros [Hc Hi Hd] HQ Hct. split; cbn.
  - by rewrite Hc, !fmap_app, !fmap_cons.
  - by rewrite Hi, (filter_rows _ _ _ _ _ _ Hd HQ Hct), item_rows_app, item_rows_cons.
  - by rewrite fmap_app, fmap_cons in Hd |- *.
Qed.

Lemma turns_detach P id kept gone R :
  turns (DetachLastItems {| chunk_identifier := id; index := length kept |})
    (P ++ (id, Items (kept ++ gone)) :: R) (P ++ (id, Items kept) :: R).
Proof.
  intros s Hs. eexists. split; [done|]. split.
  - eapply turns_drop; [done|intros r Hr (_ & Hr' & _); done|]. unfold rows_of_chunk. cbn [fst snd].
    rewrite items_from_app, filter_app, filter_all, filter_none, app_nil_r; [done| |].
    + intros r (j & x & _ & ->)%items_from_elem Hr. apply Hr. cbn. split_and!; [done|done|lia].
    + intros r (j & x & Hj%lookup_lt_Some & ->)%items_from_elem (_ & _ & Hr). cbn in Hr. lia.
  - intros He _ x Hx. apply He. rewrite (flat_around _ P R id (Items kept) eq_refl) in Hx.
    rewrite (flat_around _ P R id (Items (kept ++ gone)) eq_refl). cbn in *. set_solver.
Qed.

Lemma turns_remove_chunk P c R :
  content_items c.2 = [] → turns (RemoveChunk c.1) (P ++ c :: R) (P ++ R).
Proof.
  intros Hct s [Hc Hi Hd]. rewrite fmap_app, fmap_cons in Hc, Hd.
  destruct (remove_chunk_rows lid _ _ _ _ Hc Hd) as (rows & Hrun & Hrows). cbn [apply_update]. rewrite Hrun.
  eexists. split; [done|]. split; [split; cbn|].
  - by rewrite Hrows, fmap_app.
  - rewrite Hi, (filter_rows lid _ P c R []); [by rewrite item_rows_app|by rewrite fmap_app, fmap_cons|by intros r Hr [_ ?]|].
    apply filter_none. intros r [? ?]%rows_of_chunk_elem Hr. by apply Hr.
  - rewrite <- Permutation_middle in Hd. apply NoDup_cons in Hd as [_ Hd]. by rewrite fmap_app.
  - intros He _ x Hx. apply He. rewrite flat_app in Hx. rewrite (cons_middle c), !flat_app. set_solver.
Qed.

(** The row of an item, found by its position. *)
Lemma row_found P id xs x ys R s :
  holds s (P ++ (id, Items (xs ++ x :: ys)) :: R) →
  let pos := {| chunk_identifier := id; index := length xs |} in
  let others := (item_rows lid P ++ items_from_index lid id 0 xs) ++ items_from_index lid id (S (length xs)) ys ++ item_rows lid R in
  items_chunks s ≡ₚ item_row lid id (length xs) (EitherItem (item_id x)) :: others
  ∧ ∀ r, r ∈ others → row_position r ≠ pos.
Proof.
  intros [Hc Hi Hd] pos others. split.
  - rewrite Hi, item_rows_middle. by rewrite <- Permutation_middle.
  - intros r Hr. by eapply other_positions.
Qed.

Lemma turns_replace P id xs x y ys R :
  turns (ReplaceItem {| chunk_identifier := id; index := length xs |} y)
    (P ++ (id, Items (xs ++ x :: ys)) :: R) (P ++ (id, Items (xs ++ y :: ys)) :: R).
Proof.
  intros s Hs. destruct (row_found _ _ _ _ _ _ _ Hs) as [Hrows Hothers]. set (pos := {| index := length xs |}) in *.
  cbn [apply_update]. unfold replace_row.
  destruct (update_first_perm (λ r, bool_decide (row_position r = pos)) (set_row_item (EitherItem (item_id y))) _ _ _ Hrows) as (rows & Hrun & Hrows').
  { by apply bool_decide_eq_true_2. }
  { intros r Hr. apply bool_decide_eq_false_2. by apply Hothers. }
  assert (∃ i, list_find (λ r, row_position r = pos) (items_chunks s) = Some (i, item_row lid id (length xs) (EitherItem (item_id x)))) as [i ->].
  { destruct (list_find _ _) as [[i r]|] eqn:Hf.
    - exists i. apply list_find_Some in Hf as (Hr%list_elem_of_lookup_2 & Hpos & _). rewrite Hrows in Hr.
      apply elem_of_cons in Hr as [->|Hr]; [done|]. by apply Hothers in Hr.
    - apply list_find_None in Hf. rewrite Hrows in Hf. by apply Forall_cons in Hf as [Hf _]. }
  cbn [expect snd row_item item_row is_item negb]. unfold write_item at 1. cbn [items_chunks set_rel_items]. rewrite Hrun. cbn [expect].
  eexists. split; [done|]. destruct Hs as [Hc Hi Hd]. split; [split; cbn|].
  - by rewrite Hc, !fmap_app, !fmap_cons.
  - rewrite Hrows', item_rows_middle. cbn. by rewrite <- Permutation_middle.
  - by rewrite fmap_app, fmap_cons in Hd |- *.
  - intros He Hnd z Hz. rewrite (flat_around _ P R id (Items (xs ++ y :: ys)) eq_refl) in Hz, Hnd. cbn in Hz, Hnd.
    assert (flat P ++ (xs ++ y :: ys) ++ flat R ≡ₚ y :: flat P ++ (xs ++ ys) ++ flat R) as Hp.
    { rewrite <- !app_assoc. cbn. by rewrite <- (Permutation_middle xs), <- (Permutation_middle (flat P)). }
    rewrite Hp in Hz, Hnd. rewrite fmap_cons in Hnd. apply NoDup_cons in Hnd as [Hny _].
    apply elem_of_cons in Hz as [->|Hz]; unfold content_of; cbn; rewrite lookup_insert_eq; cbn; [by rewrite lookup_insert_eq|].
    rewrite lookup_insert_ne by (intros Heq; apply Hny; rewrite Heq; by apply list_elem_of_fmap_2).
    assert (content_of s (item_id z) = Some z) as Hcz.
    { apply He. rewrite (flat_around _ P R id (Items (xs ++ x :: ys)) eq_refl). cbn. set_solver. }
    unfold content_of in Hcz. by destruct (rel_items s !! lid).
Qed.

Lemma scan_rows_none at_ nth e rows :
  (∀ r, r ∈ rows → is_item_row lid at_ r = false) →
  scan_rows (Gap := Gap) (ItemId := ItemId) debug lid at_ nth e rows = Ret (e, shift_row lid at_ <$> rows).
Proof.
  revert nth. induction rows as [|r rows IH]; intros nth Hr; [done|]. cbn [scan_rows].
  rewrite (Hr r) by (by left). rewrite andb_false_r. cbn. rewrite IH; [done|]. intros y Hy. apply Hr. by right.
Qed.

Lemma scan_rows_one at_ nth l1 x l2 :
  is_item_row lid at_ x = true → (∀ r, r ∈ l1 ++ l2 → is_item_row lid at_ r = false) →
  scan_rows (Gap := Gap) (ItemId := ItemId) debug lid at_ nth None (l1 ++ x :: l2)
  = Ret (Some (nth + length l1), shift_row lid at_ <$> l1 ++ x :: l2).
Proof.
  intros Hx. revert nth. induction l1 as [|r l1 IH]; intros nth Hr; cbn [app scan_rows].
  - rewrite Hx, andb_true_r. rewrite bool_decide_eq_false_2 by (intros Hn; by apply Hn). rewrite andb_false_r.
    rewrite scan_rows_none by done. cbn. by rewrite Nat.add_0_r.
  - rewrite (Hr r) by (by left). rewrite andb_false_r. cbn. rewrite IH by (intros y Hy; apply Hr; by right). cbn.
    by rewrite Nat.add_succ_r.
Qed.

Lemma shift_rows_fixed at_ (rows : list (ItemRow ItemId Gap)) :
  (∀ r, r ∈ rows → chunk_identifier (row_position r) = chunk_identifier at_ → index (row_position r) <= index at_) →
  shift_row lid at_ <$> rows = rows.
Proof.
  induction rows as [|r rows IH]; intros Hr; [done|]. rewrite fmap_cons, IH by (intros y Hy; apply Hr; by right). f_equal.
  unfold shift_row. destruct (bool_decide _); [done|]. destruct (Z.eqb_spec (chunk_identifier (row_position r)) (chunk_identifier at_)) as [Heq|]; [|done].
  cbn [andb]. specialize (Hr r ltac:(by left) Heq). by rewrite (proj2 (Nat.ltb_ge _ _) Hr).
Qed.

Lemma shift_rows_items id i n ys :
  n <= i → shift_row lid {| chunk_identifier := id; index := n |} <$> items_from_index (Gap := Gap) lid id (S i) ys = items_from_index lid id i ys.
Proof.
  intros Hn. revert i Hn. induction ys as [|y ys IH]; intros i Hn; [done|]. rewrite !items_from_cons, fmap_cons, IH by lia. f_equal.
  unfold shift_row. cbn [item_linked_chunk_id item_row row_position chunk_identifier index].
  rewrite bool_decide_eq_false_2 by tauto. rewrite Z.eqb_refl. by rewrite (proj2 (Nat.ltb_lt _ _)) by lia.
Qed.

Lemma turns_remove P id xs x ys R :
  turns (RemoveItem {| chunk_identifier := id; index := length xs |})
    (P ++ (id, Items (xs ++ x :: ys)) :: R) (P ++ (id, Items (xs ++ ys)) :: R).
Proof.
  intros s Hs. destruct (row_found _ _ _ _ _ _ _ Hs) as [Hrows Hothers]. set (pos := {| index := length xs |}) in *.
  set (others := _ ++ _) in Hrows, Hothers. set (row := item_row _ _ _ _) in Hrows.
  assert (row ∈ items_chunks s) as (l1 & l2 & Hsplit)%list_elem_of_split by (rewrite Hrows; by left).
  assert (l1 ++ l2 ≡ₚ others) as Hl.
  { apply (Permutation_cons_inv (a := row)). by rewrite <- Hrows, Hsplit, Permutation_middle. }
  cbn [apply_update]. unfold remove_row. rewrite Hsplit, scan_rows_one.
  2:{ unfold is_item_row. cbn. by rewrite !bool_decide_eq_true_2. }
  2:{ intros r Hr. rewrite Hl in Hr. unfold is_item_row. rewrite (bool_decide_eq_false_2 (row_position r = _)) by (by apply Hothers).
      apply andb_false_r. }
  cbn. eexists. split; [done|]. destruct Hs as [Hc Hi Hd]. split; [split; cbn|].
  - by rewrite Hc, !fmap_app, !fmap_cons.
  - rewrite fmap_app, fmap_cons, <- (length_fmap (shift_row lid pos) l1), delete_middle, <- fmap_app.
    rewrite fmap_app, fmap_cons in Hd. cbn in Hd. apply NoDup_app in Hd as (_ & HAB & [HcB _]%NoDup_cons).
    assert (∀ X : list chunk, id ∉ X.*1 → shift_row lid pos <$> item_rows lid X = item_rows lid X) as Hfix.
    { intros X HX. apply shift_rows_fixed. intros r [_ Hr]%item_rows_elem Hid. cbn in Hid. by rewrite Hid in Hr. }
    rewrite Hl. unfold others. rewrite !fmap_app, (Hfix P), (Hfix R); [|done|intros Hin; apply (HAB _ Hin); by left].
    unfold pos. rewrite shift_rows_items, shift_rows_fixed; [| |lia].
    + rewrite item_rows_app, item_rows_cons. unfold rows_of_chunk. cbn [fst snd]. by rewrite items_from_app, <- !app_assoc.
    + intros r (j & z & Hj%lookup_lt_Some & ->)%items_from_elem _. cbn. lia.
  - by rewrite fmap_app, fmap_cons in Hd |- *.
  - intros He _ z Hz. apply He. rewrite (flat_around _ P R id (Items (xs ++ ys)) eq_refl) in Hz.
    rewrite (flat_around _ P R id (Items (xs ++ x :: ys)) eq_refl). cbn in *. set_solver.
Qed.

Lemma turns_clear A : turns Clear A [].
Proof.
  intros s [Hc Hi Hd]. eexists. split; [done|]. split; [split; cbn|].
  - rewrite Hc, filter_none; [done|]. intros r Hr Hne. apply Hne. by apply (proj1 (Forall_forall _ _) (link_rows_lid lid _ _ _) _ Hr).
  - rewrite Hi, filter_none; [done|]. intros r [Hr _]%item_rows_elem. by intros [].
  - constructor.
  - intros _ _ x Hx. set_solver.
Qed.

End applying.

(** ** The store as an observer *)

Section following.
Context {ItemId Item Gap : Type} `{Countable ItemId} `{!IndexableItem Item ItemId} (debug : bool) (lid : LinkedChunkId) (cap : nat) (bound : Z).
Abbreviation Content := (ChunkContent Item Gap).
Abbreviation chunk := (ChunkIdentifier * Content)%type.
Abbreviation Relational := (Relational ItemId Item Gap).
Abbreviation view := (view Item Gap).
Implicit Types (L R U : list chunk) (s : Relational).

(** The store, and whether the items of the linked chunk have had distinct
    identifiers since it was last empty. *)
Record Tracked := {
  tracked : Relational;
  clean : bool
}.

Definition store_update (u : Update Item Gap) (o : Tracked) : option Tracked :=
  match apply_update debug lid u (tracked o) with
  | Ret (Ok _, s) => Some {| tracked := s; clean := clean o && bool_decide (NoDup (row_ids (items_chunks s))) |}
  | _ => None
  end.

(** The store holds the chunks [U] that are not loaded, and those of the view. *)
Record stores_with (o : Tracked) (v : view) U : Prop := {
  stores_rows : holds lid (tracked o) (U ++ v_chunks v);
  stores_lazy : v_lazy v = fst <$> last U;
  stores_bound : Forall (λ id, 0 <= id <= bound)%Z U.*1;
  stores_fit : Forall (λ c, length (content_items c.2) <= cap) U;
  stores_exact : clean o = true → exact lid (tracked o) (U ++ v_chunks v)
}.

Definition stores (o : Tracked) (v : view) : Prop := ∃ U, stores_with o v U.

(** [U] is empty when no chunk is left to load. *)
Definition store_floor (lz : option ChunkIdentifier) : Z :=
  match lz with None => FIRST_IDENTIFIER | Some _ => bound end.

Lemma stores_move u (v v' : view) :
  v_lazy v' = v_lazy v →
  (∀ U, v_lazy v = fst <$> last U → NoDup (U ++ v_chunks v).*1 → Forall (λ id, 0 <= id <= bound)%Z U.*1 →
     turns debug lid u (U ++ v_chunks v) (U ++ v_chunks v')) →
  moves_view store_update stores u v v'.
Proof.
  intros Hlz Hu o _ (U & [Hh Hz Hb Hf He]). destruct (Hu U Hz (holds_distinct _ _ _ Hh) Hb _ Hh) as (s' & Hrun & Hh' & He').
  unfold store_update. rewrite Hrun. eexists. split; [done|]. exists U. split; cbn; try done; [congruence|].
  intros [Hcl Hnd]%andb_true_iff. apply He'; [by apply He|]. apply bool_decide_eq_true in Hnd.
  by rewrite (holds_items _ _ _ Hh'), row_ids_rows in Hnd.
Qed.

Abbreviation at_view L D R m lz := {| v_left := L; v_detached := D; v_right := R; v_mode := m; v_lazy := lz |}.

(** An update at the chunk that is worked on. *)
Lemma stores_at u L c c' D D' R m m' lz :
  (∀ P, turns debug lid u (P ++ c :: R) (P ++ c' :: R)) →
  moves_view store_update stores u (at_view (L ++ [c]) D R m lz) (at_view (L ++ [c']) D' R m' lz).
Proof.
  intros Hu. apply stores_move; [done|]. intros U _ _ _. unfold v_chunks. cbn.
  rewrite <- !app_assoc, !(app_assoc U). apply Hu.
Qed.

Lemma stores_insert u L D R m lz new ct previous :
  (u = NewItemsChunk previous new (head R.*1) ∧ ct = Items [] ∨ ∃ gap, u = NewGapChunk previous new (head R.*1) gap ∧ ct = GapContent gap) →
  previous = option_or (fst <$> last L) lz → new ∉ (L ++ R).*1 → (lz = None ∨ bound < new)%Z →
  moves_view store_update stores u (at_view L D R m lz) (at_view (L ++ [(new, ct)]) D R m lz).
Proof.
  intros Hu Hprev Hnew Hfloor. apply stores_move; [done|]. intros U HU Hd Hb. unfold v_chunks in *. cbn in *.
  rewrite <- app_assoc, !(app_assoc U). apply turns_insert.
  - assert (last (U ++ L).*1 = previous) as ->; [|done]. rewrite fmap_last, Hprev, HU.
    destruct L as [|c L _] using rev_ind; [by rewrite app_nil_r|]. by rewrite app_assoc, !last_snoc.
  - rewrite <- app_assoc, fmap_app. intros [Hin|Hin]%elem_of_app; [|done].
    destruct Hfloor as [->|Hlt].
    + symmetry in HU. apply fmap_None, last_None in HU as ->. by apply elem_of_nil in Hin.
    + rewrite Forall_forall in Hb. specialize (Hb _ Hin). lia.
Qed.

Lemma announced_cases new ct previous next :
  content_items ct = [] →
  (new_chunk_update (new_chunk new ct) previous next = NewItemsChunk previous new next ∧ ct = Items []
   ∨ ∃ gap : Gap, new_chunk_update (Item := Item) (new_chunk new ct) previous next = NewGapChunk previous new next gap ∧ ct = GapContent gap).
Proof. destruct ct as [gap|items]; cbn; [by eauto|]. intros ->. by left. Qed.

Lemma floor_fresh lz new : (store_floor lz < new)%Z → lz = None ∨ (bound < new)%Z.
Proof. destruct lz; cbn; [by right|by left]. Qed.

#[local] Program Instance store_observer : Observer Item Gap Tracked := {|
  observe := store_update;
  sees := stores;
  LinkedObserver.floor := store_floor
|}.
Next Obligation. done. Qed.
Next Obligation.
  intros o L R L' R' lz Heq (U & [Hh Hz Hb Hf He]). exists U. unfold v_chunks in *. cbn in *. rewrite Heq in *. by split.
Qed.
Next Obligation.
  apply (stores_insert _ [] [] [] Normal None FIRST_IDENTIFIER (Items []) None); [by left|done|apply not_elem_of_nil|by left].
Qed.
Next Obligation.
  intros L c D R m lz new ct Hct Hnew Hfl. assert (fst <$> head R = head R.*1) as -> by (by destruct R).
  eapply stores_insert; [by apply announced_cases|by rewrite last_snoc|by rewrite <- app_assoc|by apply floor_fresh].
Qed.
Next Obligation.
  intros L c R lz new gap Hnew Hfl. eapply stores_insert; [right; by exists gap|done|done|by apply floor_fresh].
Qed.
Next Obligation. intros. apply stores_at. intros P. by apply turns_push. Qed.
Next Obligation. intros. apply stores_at. intros P. by apply turns_push. Qed.
Next Obligation. intros. apply stores_at. intros P. apply turns_detach. Qed.
Next Obligation.
  intros L D R lz o _ (U & [Hh Hz Hb Hf He]). eexists. split; [done|]. exists U. split; try done.
  cbn. intros [Hcl _]%andb_true_iff. by apply He.
Qed.
Next Obligation.
  intros L R lz o _ (U & [Hh Hz Hb Hf He]). eexists. split; [done|]. exists U. split; try done.
  cbn. intros [Hcl _]%andb_true_iff. by apply He.
Qed.
Next Obligation. intros. apply stores_at. intros P. apply turns_replace. Qed.
Next Obligation. intros. apply stores_at. intros P. apply turns_remove. Qed.
Next Obligation.
  intros L c R lz Hc _. apply stores_move; [done|]. intros U _ _ _. unfold v_chunks. cbn.
  rewrite <- app_assoc, !(app_assoc U). by apply turns_remove_chunk.
Qed.
Next Obligation.
  intros o v (U & [Hh Hz Hb Hf He]) Hm. destruct (turns_clear debug lid _ _ Hh) as (s' & Hrun & Hh' & He').
  unfold store_update. rewrite Hrun. eexists. split; [done|]. exists []. split; cbn; try done.
  intros _ x Hx. by apply elem_of_nil in Hx.
Qed.

End following.

Arguments Tracked : clear implicits.
Arguments Tracked ItemId Item Gap {_ _}.
