(* ===== verification/RelationalLoad.v ===== *)
(** * Reading the store back, and several linked chunks in one store

    What the store returns for the chunks it holds: every chunk with its content
    and its links, the last chunk with a generator above all identifiers, and the
    chunk before another.  Then which updates leave the rows of other linked chunks
    alone. *)

From S2P Require Import Prelude Updates LinkedChunk LinkedHeap LinkedList LinkedRefine LinkedObserver LinkedEdits LinkedCommands Relational RelationalSpec.
From stdpp Require Import sorting.

(** A list with its indices. *)
Definition indexed {K} (ks : list K) : list (K * nat) := imap (λ i k, (k, i)) ks.

Lemma indexed_lookup {K} (ks : list K) x : x ∈ indexed ks → ks !! x.2 = Some x.1.
Proof.
  intros (i & Hi)%list_elem_of_lookup. unfold indexed in Hi. rewrite list_lookup_imap in Hi.
  destruct (ks !! i) eqn:Hk; [|done]. by injection Hi as <-.
Qed.

Lemma indexed_sorted {K} (ks : list K) (n : nat) :
  StronglySorted (λ x y : K * nat, x.2 <= y.2) (imap (λ i k, (k, n + i)) ks).
Proof.
  revert n. induction ks as [|k ks IH]; intros n; cbn; constructor.
  - rewrite (imap_ext _ (λ i k', (k', S n + i))) by (intros; cbn; f_equal; lia). apply IH.
  - apply Forall_lookup. intros i x Hx. rewrite list_lookup_imap in Hx. destruct (ks !! i); [|done].
    injection Hx as <-. cbn. lia.
Qed.

(** A list of pairs that is sorted by its distinct indices. *)
Lemma sorted_indexed {K} (l : list (K * nat)) (ks : list K) :
  l ≡ₚ indexed ks → StronglySorted (λ x y : K * nat, x.2 <= y.2) l → l = indexed ks.
Proof.
  intros Hp Hs. apply (StronglySorted_unique_strong _ _ _) with (2 := Hs) (4 := Hp); [|apply (indexed_sorted ks 0)].
  intros [k i] [k' i'] Hx Hy Hle Hge. rewrite Hp in Hx. apply indexed_lookup in Hx, Hy. cbn in *.
  assert (i = i') as <- by lia. congruence.
Qed.

Section loading.
Context {ItemId Item Gap : Type} `{Countable ItemId} `{!IndexableItem Item ItemId} (lid : LinkedChunkId).
Abbreviation Content := (ChunkContent Item Gap).
Abbreviation chunk := (ChunkIdentifier * Content)%type.
Abbreviation Relational := (Relational ItemId Item Gap).
Abbreviation RawChunk := (RawChunk Item Gap).
Implicit Types (A P R : list chunk) (xs : list Item) (s : Relational) (id : ChunkIdentifier).

Lemma chunk_item_rows_holds s P c R :
  holds lid s (P ++ c :: R) → chunk_item_rows lid c.1 s ≡ₚ rows_of_chunk lid c.
Proof.
  intros [_ Hi Hd]. unfold chunk_item_rows. rewrite Hi, item_rows_app, item_rows_cons, !filter_app.
  rewrite fmap_app, fmap_cons in Hd. apply NoDup_app in Hd as (_ & HPR & [HcR _]%NoDup_cons).
  rewrite (filter_all _ (rows_of_chunk lid c)) by (by intros r ?%rows_of_chunk_elem).
  rewrite !filter_none; [by rewrite app_nil_r|..]; intros r [_ Hr]%item_rows_elem [_ Heq]; rewrite Heq in Hr; [done|].
  apply (HPR _ Hr). by left.
Qed.

Lemma collect_items_rows row id xs (rows : list (ItemRow ItemId Gap)) :
  rows ≡ₚ items_from_index lid id 0 xs →
  ∃ l, collect_items row rows = Ok l ∧ l ≡ₚ indexed (item_id <$> xs).
Proof.
  intros Hp.
  assert (∀ rows : list (ItemRow ItemId Gap), (∀ r, r ∈ rows → is_item (row_item r) = true) →
    collect_items row rows = Ok (omap (λ r, match row_item r with EitherItem k => Some (k, index (row_position r)) | _ => None end) rows)) as Hall.
  { clear. induction rows as [|r rows IH]; intros Hr; [done|]. cbn. specialize (Hr r) as Hr0. destruct (row_item r); [|by discriminate Hr0; left].
    rewrite IH; [done|]. intros y Hy. apply Hr. by right. }
  rewrite Hall. 2:{ intros r Hr. rewrite Hp in Hr. by apply items_from_elem in Hr as (j & x & _ & ->). }
  eexists. split; [done|]. rewrite Hp. apply reflexive_eq. clear.
  assert (∀ n, omap (λ r : ItemRow ItemId Gap, match row_item r with EitherItem k => Some (k, index (row_position r)) | _ => None end)
    (items_from_index lid id n xs) = imap (λ i k, (k, n + i)) (item_id <$> xs)) as Hn; [|apply (Hn 0)].
  induction xs as [|x xs IH]; intros n; [done|]. rewrite items_from_cons. cbn. rewrite IH, Nat.add_0_r. f_equal.
  apply imap_ext. intros. cbn. f_equal. lia.
Qed.

#[local] Instance by_index_total : Total (by_index (ItemId := ItemId)).
Proof. intros x y. unfold by_index. lia. Qed.

#[local] Instance by_index_trans : Transitive (by_index (ItemId := ItemId)).
Proof. intros x y z. unfold by_index. lia. Qed.

(** A chunk of the store, with its content. *)
Lemma load_raw_chunk_holds s P c R row :
  holds lid s (P ++ c :: R) → exact lid s (P ++ c :: R) → row_chunk row = c.1 →
  load_raw_chunk s row lid = Ok (with_links c.2 row).
Proof.
  intros Hh He Hrow. pose proof (chunk_item_rows_holds _ _ _ _ Hh) as Hp. unfold load_raw_chunk. rewrite Hrow.
  destruct c as [id [gap|xs]]; cbn [fst snd] in *.
  - apply Permutation_singleton_r in Hp as ->. done.
  - unfold rows_of_chunk in Hp. cbn [fst snd] in Hp.
    destruct (collect_items_rows row id xs _ Hp) as (l & Hl & Hlp).
    destruct (chunk_item_rows lid id s) as [|r rows] eqn:Hrows.
    { apply Permutation_nil_l in Hp. destruct xs; [done|]. by rewrite items_from_cons in Hp. }
    assert (is_item (row_item r) = true) as Hitem.
    { assert (r ∈ items_from_index (Gap := Gap) lid id 0 xs) as (j & x & _ & ->)%items_from_elem by (rewrite <- Hp; by left). done. }
    destruct (row_item r); [|done]. rewrite Hl.
    assert (merge_sort by_index l = indexed (item_id <$> xs)) as ->.
    { apply sorted_indexed; [by rewrite merge_sort_Permutation|]. apply Sorted_StronglySorted; [apply _|]. apply Sorted_merge_sort, _. }
    f_equal. unfold with_links. f_equal. f_equal. clear Hp Hl Hlp Hrows Hitem.
    assert (∀ x, x ∈ xs → content_of lid s (item_id x) = Some x) as Hc.
    { intros x Hx. apply He. rewrite (flat_around _ P R id (Items xs) eq_refl). cbn. set_solver. }
    clear He Hh. change (omap (λ x : ItemId * nat, content_of lid s x.1) (indexed (item_id <$> xs)) = xs).
    assert (∀ n, omap (λ x : ItemId * nat, content_of lid s x.1) (imap (λ i k, (k, n + i)) (item_id <$> xs)) = xs) as Hn; [|apply (Hn 0)].
    induction xs as [|x xs IH]; intros n; [done|]. cbn. rewrite Hc by (by left). f_equal.
    rewrite (imap_ext _ (λ i k, (k, S n + i))) by (intros; cbn; f_equal; lia). apply IH. intros y Hy. apply Hc. by right.
Qed.

(** The chunks as the store returns them, from [prev] to [nxt]. *)
Fixpoint raw_links (prev : option ChunkIdentifier) A (nxt : option ChunkIdentifier) : list RawChunk :=
  match A with
  | [] => []
  | c :: A =>
      {| raw_content := c.2; raw_previous := prev; raw_identifier := c.1; raw_next := option_or (head A.*1) nxt |}
      :: raw_links (Some c.1) A nxt
  end.

Lemma load_rows_holds s P R prev nxt :
  holds lid s (P ++ R) → exact lid s (P ++ R) →
  (λ row, load_raw_chunk s row lid) <$> link_rows lid prev R.*1 nxt = Ok <$> raw_links prev R nxt.
Proof.
  revert P prev. induction R as [|c R IH]; intros P prev Hh He; [done|]. cbn.
  rewrite (load_raw_chunk_holds s P c R _ Hh He) by done. f_equal.
  rewrite (cons_middle c), app_assoc in Hh, He. by apply (IH (P ++ [c])).
Qed.

Lemma collect_results_ok {E X} (l : list X) : collect_results (E := E) (Ok <$> l) = Ok l.
Proof. induction l as [|x l IH]; [done|]. cbn. by rewrite IH. Qed.

Lemma rows_of_holds s A : holds lid s A → rows_of lid s ≡ₚ link_rows lid None A.*1 None.
Proof.
  intros [Hc _ _]. unfold rows_of. rewrite Hc, filter_all; [done|].
  intros r Hr. by apply (proj1 (Forall_forall _ _) (link_rows_lid lid _ _ _) _ Hr).
Qed.

Lemma load_all_holds s A :
  holds lid s A → exact lid s A → ∃ raws, load_all_chunks lid s = Ok raws ∧ raws ≡ₚ raw_links None A None.
Proof.
  intros Hh He. pose proof (load_rows_holds s [] A None None Hh He) as Hall. unfold load_all_chunks.
  assert ((λ row, load_raw_chunk s row lid) <$> rows_of lid s ≡ₚ Ok <$> raw_links None A None) as Hp.
  { rewrite <- Hall. by rewrite (rows_of_holds _ _ Hh). }
  apply Permutation_map_inv in Hp as (raws & Heq & Hraws).
  exists raws. rewrite Heq. split; [apply (collect_results_ok raws)|done].
Qed.

Lemma link_row_middle prev (I J : list ChunkIdentifier) id nxt :
  link_rows lid prev (I ++ id :: J) nxt
  = link_rows lid prev I (Some id)
    ++ {| row_linked_chunk_id := lid; previous_chunk := option_or (last I) prev; row_chunk := id; next_chunk := option_or (head J) nxt |}
    :: link_rows lid (Some id) J nxt.
Proof. by rewrite link_rows_app. Qed.

(** The first row of a kind, when only one row is of that kind. *)
Lemma find_row (Q : ChunkRow → Prop) `{!∀ r, Decision (Q r)} rows row rest :
  rows ≡ₚ row :: rest → Q row → (∀ r, r ∈ rest → ¬ Q r) → ∃ i, list_find Q rows = Some (i, row).
Proof.
  intros Hp Hrow Hrest. destruct (list_find Q rows) as [[i r]|] eqn:Hf.
  - exists i. apply list_find_Some in Hf as (Hr%list_elem_of_lookup_2 & HQ & _). rewrite Hp in Hr.
    apply elem_of_cons in Hr as [->|Hr]; [done|]. by apply Hrest in Hr.
  - apply list_find_None in Hf. rewrite Hp in Hf. by apply Forall_cons in Hf as [Hf _].
Qed.

Lemma link_rows_next prev (I : list ChunkIdentifier) nxt r :
  r ∈ link_rows lid prev I nxt → next_chunk r = nxt ∨ ∃ id, next_chunk r = Some id ∧ id ∈ tail I.
Proof.
  revert prev. induction I as [|p I IH]; intros prev; cbn; [by intros ?%elem_of_nil|]. intros [->|Hr]%elem_of_cons.
  - cbn. destruct I as [|q I]; [by left|]. right. exists q. split; [done|]. by left.
  - destruct (IH _ Hr) as [?|(id & ? & ?)]; [by left|]. right. exists id. split; [done|]. destruct I; [done|by right].
Qed.

(** The rows before another chunk have a chunk after them. *)
Lemma link_rows_inner prev (I : list ChunkIdentifier) id r : r ∈ link_rows lid prev I (Some id) → next_chunk r ≠ None.
Proof. intros [->|(? & -> & _)]%link_rows_next; done. Qed.

Lemma max_identifier_spec l :
  l ≠ [] → ∃ m, max_identifier l = Some m ∧ m ∈ l ∧ Forall (λ id, id <= m)%Z l.
Proof.
  destruct l as [|id l]; [done|]. intros _. cbn. eexists. split; [done|].
  assert (∀ m, (foldl Z.max m l ∈ m :: l) ∧ Forall (λ id, id <= foldl Z.max m l)%Z (m :: l)) as Hm; [|apply Hm].
  induction l as [|x l IH]; intros m; cbn; [split; [by left|by constructor]|].
  destruct (IH (Z.max m x)) as [Hin Hall]. apply Forall_cons in Hall as [Hmx Hall].
  split; [|constructor; [lia|constructor; [lia|done]]].
  apply elem_of_cons in Hin as [->|Hin]; [|right; by right].
  destruct (Z.max_spec m x) as [[_ ->]|[_ ->]]; [right; by left|by left].
Qed.

Lemma load_last_holds s P c :
  holds lid s (P ++ [c]) → exact lid s (P ++ [c]) →
  ∃ gen, load_last_chunk lid s
         = Ok (Some {| raw_content := c.2; raw_previous := last P.*1; raw_identifier := c.1; raw_next := None |}, gen)
    ∧ gen ∈ (P ++ [c]).*1 ∧ Forall (λ id, id <= gen)%Z (P ++ [c]).*1.
Proof.
  intros Hh He. pose proof (rows_of_holds _ _ Hh) as Hrows. unfold load_last_chunk.
  assert (row_chunk <$> rows_of lid s ≡ₚ (P ++ [c]).*1) as Hids by (by rewrite Hrows, link_rows_ids).
  destruct (max_identifier_spec (row_chunk <$> rows_of lid s)) as (gen & -> & Hgen & Hmax).
  { intros Hnil. rewrite Hnil in Hids. apply Permutation_nil_l in Hids. by destruct P. }
  rewrite Hids in Hgen, Hmax. rewrite fmap_app, fmap_cons, link_row_middle, <- Permutation_middle in Hrows. cbn in Hrows.
  rewrite app_nil_r in Hrows.
  destruct (find_row (λ r, next_chunk r = None) _ _ _ Hrows) as [i ->]; [done|by intros r Hr%link_rows_inner|].
  rewrite (load_raw_chunk_holds s P c [] _ Hh He) by done. exists gen. split; [|done].
  unfold with_links. cbn. by rewrite option_or_none.
Qed.

Lemma load_last_empty s : holds lid s [] → load_last_chunk lid s = Ok (None, FIRST_IDENTIFIER).
Proof. intros Hh%rows_of_holds. cbn in Hh. apply Permutation_nil_r in Hh. unfold load_last_chunk. by rewrite Hh. Qed.

Lemma load_previous_holds s P c d R :
  holds lid s (P ++ c :: d :: R) → exact lid s (P ++ c :: d :: R) →
  load_previous_chunk lid d.1 s
  = Ok (Some {| raw_content := c.2; raw_previous := last P.*1; raw_identifier := c.1; raw_next := Some d.1 |}).
Proof.
  intros Hh He. unfold load_previous_chunk. pose proof (holds_chunks _ _ _ Hh) as Hrows. pose proof (holds_distinct _ _ _ Hh) as Hd.
  rewrite fmap_app, !fmap_cons, link_row_middle, <- Permutation_middle in Hrows.
  rewrite fmap_app, !fmap_cons in Hd. apply NoDup_app in Hd as (_ & HPR & [HcR [HdR _]%NoDup_cons]%NoDup_cons).
  destruct (find_row (λ r, row_linked_chunk_id r = lid ∧ next_chunk r = Some d.1) _ _ _ Hrows) as [i ->]; [done| |].
  { intros r Hr [_ Hn]. apply elem_of_app in Hr as [Hr|Hr]; apply link_rows_next in Hr as [Hr|(id & Hr & Hin)]; rewrite Hn in Hr; simplify_eq.
    - apply HcR. rewrite Hr. by left.
    - apply (HPR d.1); [|right; by left]. by apply list_elem_of_tail in Hin || (destruct (P.*1); [done|by right]).
    - done. }
  rewrite (load_raw_chunk_holds s P c (d :: R) _ Hh He) by done. unfold with_links. cbn. by rewrite option_or_none.
Qed.

Lemma load_previous_first s d R : holds lid s (d :: R) → load_previous_chunk lid d.1 s = Ok None.
Proof.
  intros Hh. unfold load_previous_chunk.
  assert (list_find (λ r, row_linked_chunk_id r = lid ∧ next_chunk r = Some d.1) (rel_chunks s) = None) as ->; [|done].
  apply list_find_None, Forall_forall. intros r Hr [_ Hn]. rewrite (holds_chunks _ _ _ Hh) in Hr.
  pose proof (holds_distinct _ _ _ Hh) as Hd. apply link_rows_next in Hr as [Hr|(id & Hr & Hin)]; rewrite Hn in Hr; [done|].
  injection Hr as <-. rewrite fmap_cons in Hd, Hin. by apply NoDup_cons in Hd as [Hd _].
Qed.

End loading.

(** ** Several linked chunks in one store

    The rows of [Relational] carry the linked chunk they belong to. Every update but
    one leaves the rows of the other linked chunks alone; [Update::ReplaceItem], which
    looks a row up by its position, does not. *)

(** ** Rows of a kind that is not touched *)

Lemma filter_update_first {A} (P : A → Prop) `{!∀ x, Decision (P x)} (f : A → bool) g (l l' : list A) :
  update_first f g l = Some l' → (∀ x, f x = true → ¬ P x ∧ ¬ P (g x)) → filter P l' = filter P l.
Proof.
  intros Hl Hf. revert l' Hl. induction l as [|x l IH]; intros l' Hl; [done|]. cbn in Hl. destruct (f x) eqn:Hx.
  - injection Hl as <-. destruct (Hf x Hx). by rewrite !filter_cons_False.
  - apply fmap_Some in Hl as (l1 & Hl%IH & ->). by rewrite !filter_cons, Hl.
Qed.

Lemma filter_remove_first {A} (P : A → Prop) `{!∀ x, Decision (P x)} (f : A → bool) (l l' : list A) x :
  remove_first f l = Some (x, l') → (∀ x, f x = true → ¬ P x) → filter P l' = filter P l ∧ f x = true.
Proof.
  intros Hl Hf. revert l' Hl. induction l as [|y l IH]; intros l' Hl; [done|]. cbn in Hl. destruct (f y) eqn:Hy.
  - injection Hl as -> <-. by rewrite filter_cons_False by eauto.
  - apply fmap_Some in Hl as ([z l1] & Hl & [= -> ->]). apply IH in Hl as [Hl ?]. by rewrite !filter_cons, Hl.
Qed.

Lemma filter_delete {A} (P : A → Prop) `{!∀ x, Decision (P x)} (l : list A) n :
  (∀ x, l !! n = Some x → ¬ P x) → filter P (delete n l) = filter P l.
Proof.
  revert n. induction l as [|x l IH]; intros [|n] Hn; [done|done|..]; cbn.
  - by rewrite decide_False by (by apply Hn).
  - by rewrite IH.
Qed.

Lemma filter_filter_weaker {A} (P Q : A → Prop) `{!∀ x, Decision (P x), !∀ x, Decision (Q x)} (l : list A) :
  (∀ x, P x → Q x) → filter P (filter Q l) = filter P l.
Proof.
  intros HPQ. rewrite list_filter_filter. apply list_filter_iff. intros x. split; [by intros [? _]|auto].
Qed.

Lemma find_filter {A} (P Q : A → Prop) `{!∀ x, Decision (P x), !∀ x, Decision (Q x)} (l : list A) :
  (∀ x, Q x → P x) → snd <$> list_find Q l = snd <$> list_find Q (filter P l).
Proof.
  intros HQP. induction l as [|x l IH]; [done|]. rewrite filter_cons. cbn. destruct (decide (Q x)) as [Hx|Hx].
  - rewrite decide_True by auto. cbn. by rewrite decide_True.
  - destruct (decide (P x)); cbn; rewrite ?decide_False by done; rewrite <- ?option_fmap_compose; [|rewrite <- IH].
    + unfold compose. destruct (list_find Q l), (list_find Q (filter P l)); done || exact IH.
    + by destruct (list_find Q l).
Qed.

Section rooms.
Context {ItemId Item Gap : Type} `{Countable ItemId} `{!IndexableItem Item ItemId} (debug : bool).
Abbreviation Relational := (Relational ItemId Item Gap).
Implicit Types (s : Relational) (lid other : LinkedChunkId).

(** What the store has of a linked chunk. *)
Definition slice lid s : list ChunkRow * list (ItemRow ItemId Gap) * option (gmap ItemId (Item * option Position)) :=
  (rows_of lid s, filter (λ r, item_linked_chunk_id r = lid) (items_chunks s), rel_items s !! lid).

(** The readers of a linked chunk look at its slice only. *)
Lemma slice_rows lid id s :
  chunk_item_rows lid id s = filter (λ r, chunk_identifier (row_position r) = id) (slice lid s).1.2.
Proof. cbn. rewrite list_filter_filter. unfold chunk_item_rows. apply list_filter_iff. intros r. by rewrite (and_comm (item_linked_chunk_id r = lid)). Qed.

Lemma slice_load_raw lid row s s' : slice lid s = slice lid s' → load_raw_chunk s row lid = load_raw_chunk s' row lid.
Proof.
  intros Hs. unfold load_raw_chunk. rewrite !slice_rows, Hs. assert (rel_items s !! lid = rel_items s' !! lid) as -> by (by injection Hs).
  done.
Qed.

Lemma slice_load_all lid s s' : slice lid s = slice lid s' → load_all_chunks lid s = load_all_chunks lid s'.
Proof.
  intros Hs. unfold load_all_chunks. assert (rows_of lid s = rows_of lid s') as -> by (by injection Hs).
  f_equal. apply list_fmap_ext. intros _ row _. by apply slice_load_raw.
Qed.

Lemma slice_load_last lid s s' : slice lid s = slice lid s' → load_last_chunk lid s = load_last_chunk lid s'.
Proof.
  intros Hs. unfold load_last_chunk. assert (rows_of lid s = rows_of lid s') as -> by (by injection Hs).
  destruct (list_find _ _) as [[? row]|]; [|done]. by rewrite (slice_load_raw lid row s s' Hs).
Qed.

Lemma slice_load_previous lid id s s' :
  slice lid s = slice lid s' → load_previous_chunk lid id s = load_previous_chunk lid id s'.
Proof.
  intros Hs. assert (rows_of lid s = rows_of lid s') as Hrows by (by injection Hs). unfold load_previous_chunk.
  set (Q := λ r, row_linked_chunk_id r = lid ∧ next_chunk r = Some id).
  assert (snd <$> list_find Q (rel_chunks s) = snd <$> list_find Q (rel_chunks s')) as HQ.
  { unfold rows_of in Hrows. rewrite (find_filter (λ r, row_linked_chunk_id r = lid) Q (rel_chunks s)), Hrows by (by intros r [? _]).
    symmetry. apply find_filter. by intros r [? _]. }
  destruct (list_find Q (rel_chunks s)) as [[? row]|], (list_find Q (rel_chunks s')) as [[? row']|]; try done.
  injection HQ as ->. by rewrite (slice_load_raw lid row' s s' Hs).
Qed.

(** ** The updates *)

Definition untouched lid (rows rows' : list ChunkRow) : Prop :=
  ∀ other, other ≠ lid → filter (λ r, row_linked_chunk_id r = other) rows' = filter (λ r, row_linked_chunk_id r = other) rows.

Lemma is_row_lid lid id r : is_row lid id r = true → row_linked_chunk_id r = lid.
Proof. unfold is_row. intros [Hr _]%andb_true_iff. by apply bool_decide_eq_true in Hr. Qed.

Lemma link_untouched lid id g rows rows' :
  update_first (is_row lid id) g rows = Some rows' → (∀ r, row_linked_chunk_id (g r) = row_linked_chunk_id r) → untouched lid rows rows'.
Proof.
  intros Hu Hg other Hne. eapply filter_update_first; [done|]. intros r Hr%is_row_lid. rewrite Hg, Hr. by split; intros ->.
Qed.

Lemma insert_chunk_untouched lid previous new next rows : untouched lid rows (insert_chunk lid previous new next rows).2.
Proof.
  unfold insert_chunk. destruct (existsb _ _); [done|].
  assert (∀ rows rows', untouched lid rows rows' → ∀ r, row_linked_chunk_id r = lid → untouched lid rows (rows' ++ [r])) as Happ.
  { intros l l' Hl r Hr other Hne. rewrite filter_app, (filter_cons_False _ r) by (by rewrite Hr; intros ->). cbn. by rewrite app_nil_r, Hl. }
  destruct previous as [p|]; [destruct (update_first _ _ rows) as [rows1|] eqn:Hp; [|done]; eapply link_untouched in Hp; [|done]|];
    (destruct next as [n|]; [destruct (update_first (is_row lid n) _ _) as [rows2|] eqn:Hn; [eapply link_untouched in Hn; [|done]|]|]);
    cbn; try done; try (apply Happ; [|done]); try done; intros other Hne; rewrite ?Hn, ?Hp by done; done.
Qed.

Lemma remove_chunk_untouched lid id rows rows' : remove_chunk lid id rows = Ret rows' → untouched lid rows rows'.
Proof.
  unfold remove_chunk. destruct (remove_first _ _) as [[row rows1]|] eqn:Hr; [|done]. cbn. intros Hrun other Hne.
  destruct (filter_remove_first (λ r, row_linked_chunk_id r = other) _ _ _ _ Hr) as [Hr1 Hrow%is_row_lid].
  { intros r ?%is_row_lid. congruence. }
  rewrite Hrow in Hrun. rewrite <- Hr1.
  destruct (previous_chunk row) as [p|]; [destruct (update_first _ _ rows1) as [rows2|] eqn:Hp; [|done]; eapply link_untouched in Hp; [|done]|]; cbn in Hrun;
    (destruct (next_chunk row) as [n|]; [destruct (update_first (is_row lid n) _ _) as [rows3|] eqn:Hn; [eapply link_untouched in Hn; [|done]|done]|]);
    cbn in Hrun; injection Hrun as <-; rewrite ?Hn, ?Hp by done; done.
Qed.

Abbreviation rows_in other rows := (filter (λ r, item_linked_chunk_id r = other) rows).

Lemma shift_row_lid lid at_ (r : ItemRow ItemId Gap) : item_linked_chunk_id (shift_row lid at_ r) = item_linked_chunk_id r.
Proof. unfold shift_row. by repeat case_match. Qed.

Lemma shift_rows_untouched lid other at_ (rows : list (ItemRow ItemId Gap)) :
  other ≠ lid → rows_in other (shift_row lid at_ <$> rows) = rows_in other rows.
Proof.
  intros Hne. induction rows as [|r rows IH]; [done|]. rewrite fmap_cons, !filter_cons, shift_row_lid, IH.
  destruct (decide _) as [<-|]; [|done]. f_equal. unfold shift_row. by rewrite bool_decide_eq_true_2 by done.
Qed.

Lemma scan_rows_spec lid at_ nth e (rows : list (ItemRow ItemId Gap)) e' rows' :
  scan_rows debug lid at_ nth e rows = Ret (e', rows') →
  rows' = shift_row lid at_ <$> rows
  ∧ (e' = e ∨ ∃ i r, e' = Some (nth + i) ∧ rows !! i = Some r ∧ item_linked_chunk_id r = lid).
Proof.
  revert nth e e' rows'. induction rows as [|r rows IH]; intros nth e e' rows'; cbn [scan_rows]; [intros [= <- <-]; auto|].
  destruct (debug && _ && _); [done|]. destruct (scan_rows _ _ _ _ _ rows) as [[e1 rows1]| | |] eqn:Hrun; try done. intros [= <- <-].
  destruct (IH _ _ _ _ Hrun) as [-> [->|(i & r' & -> & Hi & Hr')]]; (split; [done|]).
  - destruct (is_item_row lid at_ r) eqn:Hr; [|by left]. right. exists 0, r. rewrite Nat.add_0_r. split_and!; [done|done|].
    apply andb_true_iff in Hr as [Hr _]. by apply bool_decide_eq_true in Hr.
  - right. exists (S i), r'. split_and!; [f_equal; lia|done|done].
Qed.

Lemma remove_row_slice lid other at_ s s' : other ≠ lid → remove_row debug lid at_ s = Ret s' → slice other s' = slice other s.
Proof.
  intros Hne. unfold remove_row. destruct (scan_rows _ _ _ _ _ _) as [[e rows]| | |] eqn:Hrun; try done. cbn.
  apply scan_rows_spec in Hrun as [-> [->|(i & r & -> & Hi & Hr)]]; [done|]. cbn. intros [= <-]. unfold slice, rows_of. cbn.
  rewrite filter_delete, shift_rows_untouched by (try done; intros x; rewrite list_lookup_fmap, Hi; intros [= <-]; rewrite shift_row_lid; congruence).
  done.
Qed.

Lemma write_item_slice lid other item at_ s : other ≠ lid → slice other (write_item lid item at_ s) = slice other s.
Proof. intros Hne. unfold slice, write_item, rows_of. cbn. by rewrite lookup_insert_ne. Qed.

Lemma add_row_slice lid other row s :
  other ≠ lid → item_linked_chunk_id row = lid → slice other (set_items_chunks (items_chunks s ++ [row]) s) = slice other s.
Proof.
  intros Hne Hrow. unfold slice, rows_of. cbn. rewrite filter_app, (filter_cons_False _ row) by congruence. cbn. by rewrite app_nil_r.
Qed.

Lemma push_rows_slice lid other at_ xs s s' : other ≠ lid → push_rows lid at_ xs s = Ret s' → slice other s' = slice other s.
Proof.
  intros Hne. revert at_ s. induction xs as [|x xs IH]; intros at_ s; cbn [push_rows]; [by intros [= ->]|].
  destruct (increment_index at_) as [at'|]; [|done]. intros Hrun%IH. by rewrite Hrun, (add_row_slice lid), write_item_slice.
Qed.

Lemma drop_rows_slice lid other (Q : ItemRow ItemId Gap → Prop) `{!∀ r, Decision (Q r)} s :
  other ≠ lid → (∀ r, item_linked_chunk_id r ≠ lid → Q r) → slice other (set_items_chunks (filter Q (items_chunks s)) s) = slice other s.
Proof. intros Hne HQ. unfold slice, rows_of. cbn. rewrite filter_filter_weaker; [done|]. intros r <-. by apply HQ. Qed.

Lemma set_chunks_slice lid other rows s :
  other ≠ lid → untouched lid (rel_chunks s) rows → slice other (set_rel_chunks rows s) = slice other s.
Proof. intros Hne Hu. unfold slice, rows_of. cbn. by rewrite Hu. Qed.

Definition replaces (u : Update Item Gap) : bool := match u with ReplaceItem _ _ => true | _ => false end.

Lemma apply_update_slice lid other u s r s' :
  other ≠ lid → replaces u = false → apply_update debug lid u s = Ret (r, s') → slice other s' = slice other s.
Proof.
  intros Hne Hu Hrun. destruct u as [previous new next|previous new next gap|id|at_ xs|at_ x|at_|at_| | |]; cbn [apply_update] in Hrun.
  - injection Hrun as _ <-. by apply (set_chunks_slice lid), insert_chunk_untouched.
  - destruct (insert_chunk _ _ _ _ _) as [res rows] eqn:Hi.
    assert (untouched lid (rel_chunks s) rows) as Hrows by (change rows with (res, rows).2; rewrite <- Hi; apply insert_chunk_untouched).
    cbn [fst snd] in Hrun. destruct res; injection Hrun as _ <-; [|by apply (set_chunks_slice lid)].
    etrans; [by apply (add_row_slice lid other _ (set_rel_chunks rows s))|]. by apply (set_chunks_slice lid).
  - destruct (remove_chunk _ _ _) as [rows| | |] eqn:Hr; try done. apply remove_chunk_untouched in Hr. injection Hrun as _ <-.
    etrans; [apply (drop_rows_slice lid other _ (set_rel_chunks rows s)); [done|]|by apply (set_chunks_slice lid)].
    intros row Hrow [? _]. congruence.
  - destruct (push_rows _ _ _ _) as [s1| | |] eqn:Hp; try done. injection Hrun as _ <-. by eapply push_rows_slice.
  - done.
  - destruct (remove_row _ _ _ _) as [s1| | |] eqn:Hp; try done. injection Hrun as _ <-. by eapply remove_row_slice.
  - injection Hrun as _ <-. apply (drop_rows_slice lid); [done|]. intros row Hrow [? _]. congruence.
  - by injection Hrun as _ <-.
  - by injection Hrun as _ <-.
  - injection Hrun as _ <-. etrans; [by apply (drop_rows_slice lid other _ (set_rel_chunks _ s))|]. apply (set_chunks_slice lid); [done|].
    intros o Ho. apply filter_filter_weaker. by intros row ->.
Qed.

Lemma apply_updates_slice lid other us s r s' :
  other ≠ lid → forallb (λ u, negb (replaces u)) us = true → apply_updates debug lid us s = Ret (r, s') → slice other s' = slice other s.
Proof.
  intros Hne. revert s. induction us as [|u us IH]; intros s; cbn [forallb apply_updates]; [by intros _ [= _ <-]|].
  intros [Hu%negb_true_iff Hus]%andb_true_iff. destruct (apply_update _ _ _ _) as [[[[]|e] s1]| | |] eqn:Hrun; try done; cbn.
  - apply apply_update_slice with (other := other) in Hrun; [|done..]. rewrite <- Hrun. by apply IH.
  - intros [= _ <-]. by eapply apply_update_slice.
Qed.

(** Linked chunks do not interfere. Updates of a linked chunk, accepted or
    refused, without a replacement of an item, change nothing of what the store loads
    for another linked chunk. *)
Theorem updates_stay_in_linked_chunk lid other us s r s' :
  other ≠ lid → forallb (λ u, negb (replaces u)) us = true → apply_updates debug lid us s = Ret (r, s') →
  load_all_chunks other s' = load_all_chunks other s ∧ load_last_chunk other s' = load_last_chunk other s
  ∧ ∀ id, load_previous_chunk other id s' = load_previous_chunk other id s.
Proof.
  intros Hne Hus Hrun. pose proof (apply_updates_slice lid other us s r s' Hne Hus Hrun) as Hs.
  split_and!; [by apply slice_load_all|by apply slice_load_last|]. intros id. by apply slice_load_previous.
Qed.

(** A replacement of an item is not so. When the first row of the store at that
    position is one of another linked chunk, it is that row that gets the new item:
    the rows of the linked chunk whose item is replaced stay as they were. *)
Theorem replace_item_other_linked_chunk lid other at_ x s i row :
  other ≠ lid → list_find (λ r, row_position r = at_) (items_chunks s) = Some (i, row) →
  item_linked_chunk_id row = other → is_item (row_item row) = true →
  ∃ s', apply_update debug lid (ReplaceItem at_ x) s = Ret (Ok (), s')
    ∧ items_chunks s' !! i = Some (set_row_item (EitherItem (item_id x)) row)
    ∧ ∀ id, chunk_item_rows lid id s' = chunk_item_rows lid id s.
Proof.
  intros Hne Hf Hrow Hitem. cbn [apply_update]. unfold replace_row. rewrite Hf. cbn. rewrite Hitem. cbn.
  assert (update_first (λ r, bool_decide (row_position r = at_)) (set_row_item (EitherItem (item_id x))) (items_chunks s)
    = Some (<[i := set_row_item (EitherItem (item_id x)) row]> (items_chunks s))) as Hu.
  { clear Hrow Hitem. revert i Hf. induction (items_chunks s) as [|r rows IH]; intros i Hf; [done|]. cbn in Hf |- *.
    destruct (decide (row_position r = at_)).
    - injection Hf as <- <-. by rewrite bool_decide_eq_true_2.
    - apply fmap_Some in Hf as ([j row'] & Hf & [= -> ->]). rewrite bool_decide_eq_false_2 by done. by rewrite (IH _ Hf). }
  rewrite Hu. cbn. eexists. split; [done|]. cbn. apply list_find_Some in Hf as (Hi & _ & _).
  split; [by eapply list_lookup_insert_eq, lookup_lt_Some|].
  intros id. unfold chunk_item_rows. cbn. rewrite <- (take_drop_middle _ _ _ Hi) at 2.
  rewrite insert_take_drop by (by apply lookup_lt_Some in Hi). rewrite !filter_app, (filter_cons_False _ row), (filter_cons_False _ (set_row_item _ row)) by (cbn; intros [? _]; congruence). done.
Qed.

End rooms.

Section samples.
#[local] Instance identity_item : IndexableItem nat nat := λ x, x.

(** Two rooms, with an item each. *)
Definition red : LinkedChunkId := RoomChunk "!red:example.org".
Definition blue : LinkedChunkId := RoomChunk "!blue:example.org".
Definition first_place : Position := {| chunk_identifier := 0%Z; index := 0 |}.

Definition run_updates (lid : LinkedChunkId) us (s : Relational nat nat nat) : Relational nat nat nat :=
  match apply_updates true lid us s with Ret (_, s) => s | _ => s end.
Definition red_store : Relational nat nat nat :=
  run_updates red [NewItemsChunk None 0%Z None; PushItems first_place [1]] new_relational.
Definition both_store : Relational nat nat nat :=
  run_updates blue [NewItemsChunk None 0%Z None; PushItems first_place [2]] red_store.

Lemma updates_stay_in_linked_chunk_witness :
  load_all_chunks red both_store = load_all_chunks red red_store ∧ load_last_chunk red both_store = load_last_chunk red red_store
  ∧ ∀ id, load_previous_chunk red id both_store = load_previous_chunk red id red_store.
Proof.
  apply (updates_stay_in_linked_chunk true blue red [NewItemsChunk None 0%Z None; PushItems first_place [2]] red_store (Ok ()));
    [done|done|by_vm].
Defined.

Lemma replace_item_other_linked_chunk_witness :
  ∃ s', apply_update true blue (ReplaceItem first_place 3) both_store = Ret (Ok (), s')
    ∧ items_chunks s' !! 0
      = Some (set_row_item (EitherItem (item_id 3)) {| item_linked_chunk_id := red; row_position := first_place; row_item := EitherItem 1 |})
    ∧ ∀ id, chunk_item_rows blue id s' = chunk_item_rows blue id both_store.
Proof.
  apply (replace_item_other_linked_chunk true blue red first_place 3 both_store 0
    {| item_linked_chunk_id := red; row_position := first_place; row_item := EitherItem 1 |}); [done|by_vm|done|done].
Defined.

(** The item of the first room is lost, and the second room still has its old one. *)
Example replaced_rooms :
  let s := run_updates blue [ReplaceItem first_place 3] both_store in
  (load_all_chunks red s, load_all_chunks blue s)
  = (Ok [{| raw_content := Items []; raw_previous := None; raw_identifier := 0%Z; raw_next := None |}],
     Ok [{| raw_content := Items [2]; raw_previous := None; raw_identifier := 0%Z; raw_next := None |}]).
Proof. intros s. by_vm. Qed.

End samples.
