(* ===== verification/Persistence.v ===== *)
(** * Persisting a linked chunk, and loading it again

    The linked chunk, its updates, the store and the lazy loader together: the
    updates of a linked chunk are applied to the store as the event cache does it
    ([propagate_changes]); chunks are unloaded and loaded again from the store
    ([shrink_to_last_reloaded_chunk], [load_more_events_backwards]), whose updates
    are drained. *)

From S2P Require Import Prelude Updates LinkedChunk LinkedHeap LinkedList LinkedRefine LinkedObserver LinkedEdits LinkedCommands AsVector Relational RelationalSpec RelationalLoad.

Section persistence.
Context {ItemId Item Gap : Type} `{Countable ItemId} `{!IndexableItem Item ItemId}.
Context (CAP : nat) `{!Capacity CAP} (debug : bool) (lid : LinkedChunkId).
Abbreviation Content := (ChunkContent Item Gap).
Abbreviation chunk := (ChunkIdentifier * Content)%type.
Abbreviation Relational := (Relational ItemId Item Gap).
Abbreviation LinkedChunk := (LinkedChunk Item Gap).
Abbreviation Tracked := (Tracked ItemId Item Gap).
Implicit Types (s : LinkedChunk) (cs U : list chunk) (st : Relational) (b : Z).
Abbreviation t0 := MAIN_READER_TOKEN.

Abbreviation synced b o k cs lz s := (in_sync CAP (Observer0 := store_observer debug lid CAP b) o t0 k cs lz s).
Abbreviation well_formed k cs lz s := (in_sync CAP () t0 k cs lz s).

Lemma blind_in_sync b (o : Tracked) k cs lz s : synced b o k cs lz s → well_formed k cs lz s.
Proof.
  intros (a & Hr & [[Hc Hlz Hok [Hb Hb'] Hfl [_ Hst]] Hz]). exists a. split; [done|]. split; [|done].
  split; try done. split; [by exists (normal [] [] None)|]. destruct (l_log a) as [u|]; [|done].
  destruct Hst as (Hu & q & o' & Hq & _). split; [done|]. exists q, (). split; [done|]. by rewrite blind_observes.
Qed.

(** The loader accepts the chunk that is waited for. *)
Lemma load_first_accepted k c cs raw s :
  well_formed k (c :: cs) (Some (raw_identifier raw)) s → stored (generator s) raw → raw_next raw = Some c.1 →
  (∀ id, raw_previous raw = Some id → id ∉ (c :: cs).*1) → length (content_items (raw_content raw)) <= CAP →
  ∃ s', exec CAP (LoadFirst raw) s = Ret (Done, s')
    ∧ well_formed k ((raw_identifier raw, raw_content raw) :: c :: cs) (raw_previous raw) s' ∧ generator s' = generator s.
Proof.
  intros Hs Hst Hnext Hprev Hlen. destruct (load_first_performs CAP _ _ _ _ _ _ _ Hs Hst) as (r & s' & cs' & lz' & Hx & Hs' & Hr).
  destruct Hs as (a & Hrel & Ha). destruct (l_insert_new_first_chunk_accepts CAP _ _ _ _ _ _ _ Ha Hnext Hprev Hlen) as (a' & Ha' & Hgen).
  pose proof (exec_agree CAP (LoadFirst raw) s a Hrel) as Hag. cbn [l_exec] in Hag. rewrite Ha' in Hag. cbn [answer agree] in Hag.
  destruct Hag as (s'' & Hx' & Hr''). rewrite Hx in Hx'. simplify_eq. cbn in Hr. destruct Hr as [-> ->]. exists s''. split_and!; try done.
  by rewrite (rel_generator _ _ Hr''), Hgen, (rel_generator _ _ Hrel).
Qed.

Lemma replace_all_accepted k cs lz raw gen s :
  well_formed k cs lz s → (0 <= gen ∧ gen + Z.of_nat k < u64_max)%Z → stored gen raw → raw_next raw = None →
  length (content_items (raw_content raw)) <= CAP →
  ∃ s', exec CAP (ReplaceAll (Some raw) gen) s = Ret (Done, s')
    ∧ well_formed k [(raw_identifier raw, raw_content raw)] (raw_previous raw) s' ∧ generator s' = gen.
Proof.
  intros Hs Hgen Hst Hnext Hlen. destruct (replace_all_performs CAP _ _ _ _ _ _ (Some raw) _ Hs Hgen Hst) as (r & s' & cs' & lz' & Hx & Hs' & Hr).
  destruct Hs as (a & Hrel & Ha). destruct (l_replace_with_accepts CAP raw gen a Hnext Hlen) as (a' & Ha' & Hgen').
  pose proof (exec_agree CAP (ReplaceAll (Some raw) gen) s a Hrel) as Hag. cbn [l_exec] in Hag. rewrite Ha' in Hag. cbn [answer agree] in Hag.
  destruct Hag as (s'' & Hx' & Hr''). rewrite Hx in Hx'. simplify_eq. cbn in Hr. destruct Hr as [-> ->]. exists s''. split_and!; try done.
  by rewrite (rel_generator _ _ Hr'').
Qed.

(** The updates of a linked chunk, taken by the main reader and applied. *)
Lemma observe_all_applies b us (o o' : Tracked) :
  observe_all (Observer0 := store_observer debug lid CAP b) us o = Some o' →
  apply_updates debug lid us (tracked o) = Ret (Ok (), tracked o').
Proof.
  revert o. induction us as [|u us IH]; intros o; cbn [observe_all apply_updates]; [by intros [= ->]|].
  cbn [observe store_observer]. unfold store_update. destruct (apply_update debug lid u (tracked o)) as [[[[]|e] st]| | |]; [|done..].
  cbn. by intros Hu%IH.
Qed.

(** The main reader has read everything. *)
Definition flushed s : Prop := ∃ h, history s = Some h ∧ pending h t0 = Some [].

Lemma flushed_stores b (o : Tracked) k cs lz s :
  synced b o k cs lz s → flushed s → stores lid CAP b o (normal cs [] lz).
Proof.
  intros (a & Hr & [[_ _ _ _ _ [_ Hst]] _]) (h & Hh & Hp). rewrite <- (rel_log _ _ Hr), Hh in Hst.
  destruct Hst as (_ & q & o' & Hq & Ho & Hs). assert (q = []) as -> by congruence. by injection Ho as <-.
Qed.

Lemma synced_floor b (o : Tracked) k cs lz s : synced b o k cs lz s → (store_floor b lz <= generator s)%Z.
Proof. intros (a & Hr & [[_ _ _ _ Hfl _] _]). by rewrite (rel_generator _ _ Hr). Qed.

Lemma take_shared_run k cs lz s :
  well_formed k cs lz s →
  ∃ us h', take_shared t0 s = Ret (us, set_history (Some h') s) ∧ updates_ok h' ∧ pending h' t0 = Some [].
Proof.
  intros Hs. destruct (in_sync_log CAP _ _ _ _ _ _ Hs) as (h & Hh & Hok & [q Hq]). unfold take_shared. rewrite Hh. cbn.
  pose proof (take_with_token_spec t0 h Hok) as Hspec. destruct (take_with_token t0 h) as [[us h']|]; [|congruence].
  destruct Hspec as (Hok' & _ & Hall & _). exists us, h'. split_and!; [done|done|]. by rewrite Hall, decide_True.
Qed.

(** The updates are drained: the store has the chunks already. *)
Lemma drain_synced b (o : Tracked) k cs lz s us s' :
  well_formed k cs lz s → stores lid CAP b o (normal cs [] lz) → (store_floor b lz <= generator s)%Z →
  take_shared t0 s = Ret (us, s') → synced b o k cs lz s'.
Proof.
  intros Hs Ho Hfl Htake. destruct (take_shared_run _ _ _ _ Hs) as (us' & h' & Hrun & Hok & Hp). rewrite Hrun in Htake. simplify_eq.
  eapply (handover CAP (Observer2 := store_observer debug lid CAP b) () o t0 t0 _ _ _ _ _ _ _ Hs Hok Hp); [by eexists|done|done|done].
Qed.

Lemma propagate_synced b (o : Tracked) k cs lz s :
  synced b o k cs lz s →
  ∃ us s' o', take_shared t0 s = Ret (us, s') ∧ apply_updates debug lid us (tracked o) = Ret (Ok (), tracked o')
    ∧ observe_all (Observer0 := store_observer debug lid CAP b) us o = Some o'
    ∧ stores lid CAP b o' (normal cs [] lz) ∧ synced b o' k cs lz s'.
Proof.
  intros Hs. destruct (read_in_sync CAP _ _ _ _ _ _ Hs) as (h & us & h' & o' & Hh & Ht & Ho & Hst & Hs').
  eexists us, _, o'. split_and!; [|by eapply observe_all_applies|done|done|exact Hs'].
  unfold take_shared. rewrite Hh. cbn. by rewrite Ht.
Qed.

(** The raw chunk of a chunk the store holds before others. *)
Lemma stored_before b (o : Tracked) P d cs lz gen :
  stores_with lid CAP b o (normal cs [] lz) (P ++ [d]) → (b <= gen)%Z →
  let raw := {| raw_content := d.2; raw_previous := list.last P.*1; raw_identifier := d.1; raw_next := fst <$> head cs |} in
  stored gen raw ∧ (∀ id, raw_previous raw = Some id → id ∉ cs.*1) ∧ length (content_items d.2) <= CAP
  ∧ (clean o = true → stores lid CAP b o (normal (d :: cs) [] (list.last P.*1))).
Proof.
  intros [Hh Hz Hb Hf He] Hgen raw. pose proof (holds_distinct _ _ _ Hh) as Hd. unfold v_chunks in *. cbn in *. rewrite app_nil_r in *.
  rewrite <- app_assoc in Hh, Hd. cbn in Hh, Hd. rewrite fmap_app in Hb. apply Forall_app in Hb as [HbP Hbd].
  apply Forall_app in Hf as [HfP [Hfd _]%Forall_cons]. cbn in Hbd. apply Forall_cons in Hbd as [Hbd _].
  rewrite fmap_app, fmap_cons in Hd. apply NoDup_app in Hd as (HdP & HdPc & [Hdc _]%NoDup_cons).
  assert (∀ id, list.last P.*1 = Some id → id ∈ P.*1) as Hlast.
  { intros id Hid. apply last_Some in Hid as [l ->]. apply elem_of_app. right. by left. }
  split; [|split; [|split; [done|]]].
  - split; cbn; [lia|]. intros id Hid%Hlast. split.
    + rewrite Forall_forall in HbP. specialize (HbP _ Hid). lia.
    + intros ->. apply (HdPc _ Hid). by left.
  - cbn. intros id Hid%Hlast Hin. apply (HdPc _ Hid). by right.
  - intros Hcl. exists P. split; unfold v_chunks; cbn; rewrite ?app_nil_r; try done; [by rewrite fmap_last|].
    intros _. specialize (He Hcl). by rewrite <- app_assoc in He.
Qed.

(** [load_more_events_backwards]: the chunk before the first is loaded from the
    store. *)
Lemma load_step b (o : Tracked) k c cs lz s P d :
  well_formed k (c :: cs) lz s → stores_with lid CAP b o (normal (c :: cs) [] lz) (P ++ [d]) → clean o = true →
  (store_floor b lz <= generator s)%Z →
  let raw := {| raw_content := d.2; raw_previous := list.last P.*1; raw_identifier := d.1; raw_next := Some c.1 |} in
  load_previous_chunk lid c.1 (tracked o) = Ok (Some raw)
  ∧ ∃ s', exec CAP (LoadFirst raw) s = Ret (Done, s') ∧ well_formed k (d :: c :: cs) (list.last P.*1) s'
    ∧ stores lid CAP b o (normal (d :: c :: cs) [] (list.last P.*1)) ∧ (store_floor b (list.last P.*1) <= generator s')%Z.
Proof.
  intros Hs Hst Hcl Hfl raw. pose proof (in_sync_budget CAP _ _ _ _ _ _ Hs) as [Hgen0 _].
  destruct (Hst) as [Hh Hz Hb Hf He]. specialize (He Hcl). unfold v_chunks in *. cbn in Hh, Hz, He. rewrite app_nil_r in Hh, He.
  rewrite last_snoc in Hz. cbn in Hz. subst lz. cbn in Hfl.
  destruct (stored_before b o P d _ _ (generator s) Hst Hfl) as (Hstored & Hprev & Hfit & Hstores).
  rewrite <- app_assoc in Hh, He. split; [by apply (load_previous_holds lid _ P d c cs)|].
  destruct (load_first_accepted k c cs raw s Hs Hstored eq_refl Hprev Hfit) as (s' & Hx & Hs' & Hgen).
  exists s'. split_and!; [done|by destruct d|by apply Hstores|]. rewrite Hgen. unfold store_floor, FIRST_IDENTIFIER. by destruct (list.last P.*1).
Qed.

(** The chunks of the store, when all that is loaded has been propagated. *)
Lemma stores_identifiers b (o : Tracked) k cs lz s U :
  well_formed k cs lz s → stores_with lid CAP b o (normal cs [] lz) U → (store_floor b lz <= generator s)%Z →
  Forall (λ id, 0 <= id <= generator s)%Z (U ++ cs).*1 ∧ Forall (λ c, length (content_items c.2) <= CAP) (U ++ cs).
Proof.
  intros (a & Hr & [Hg _]) [_ Hz Hb Hf _] Hfl. rewrite (rel_generator _ _ Hr) in *.
  pose proof (good_ok _ _ _ _ _ _ Hg) as [_ Hids Hcap]. unfold v_chunks in *. cbn in *. rewrite app_nil_r in *.
  apply Forall_app in Hids as [_ Hids]. split.
  - rewrite fmap_app. apply Forall_app. split; [|done]. destruct (list.last U) as [d|] eqn:Hlast.
    + cbn in Hz. subst lz. eapply Forall_impl; [exact Hb|]. cbn in *. lia.
    + by apply last_None in Hlast as ->.
  - apply Forall_app. split; [done|]. eapply Forall_impl; [exact Hcap|]. intros c Hc. by rewrite <- chunk_length_items.
Qed.

(** [shrink_to_last_reloaded_chunk]: only the last chunk stays loaded. *)
Lemma shrink_step b (o : Tracked) k cs lz s U :
  well_formed k cs lz s → stores_with lid CAP b o (normal cs [] lz) U → clean o = true →
  (store_floor b lz <= generator s)%Z →
  ∃ chunk gen s' cs' lz', load_last_chunk lid (tracked o) = Ok (chunk, gen) ∧ exec CAP (ReplaceAll chunk gen) s = Ret (Done, s')
    ∧ well_formed k cs' lz' s' ∧ stores lid CAP gen o (normal cs' [] lz') ∧ (store_floor gen lz' <= generator s')%Z.
Proof.
  intros Hs Hst Hcl Hfl. destruct (stores_identifiers _ _ _ _ _ _ _ Hs Hst Hfl) as [Hids Hcap].
  pose proof (in_sync_budget CAP _ _ _ _ _ _ Hs) as [Hgen0 Hgen1].
  destruct Hst as [Hh Hz Hb Hf He]. specialize (He Hcl). unfold v_chunks in *. cbn in Hh, Hz, He. rewrite app_nil_r in Hh, He.
  destruct (U ++ cs) as [|c A _] using rev_ind.
  - exists None, FIRST_IDENTIFIER. rewrite load_last_empty by done.
    destruct (Hs) as (a & Hrel & Ha). destruct (l_clear_good CAP (E := LazyLoaderError) _ _ _ _ _ _ Ha) as (a' & Hrun & Ha'); [lia|].
    pose proof (exec_agree CAP (ReplaceAll None FIRST_IDENTIFIER) s a Hrel) as Hag. cbn [l_exec l_replace_with] in Hag.
    rewrite Hrun in Hag. cbn [answer agree] in Hag. destruct Hag as (s' & Hx & Hrel'). exists s', [], None.
    assert (well_formed k [] None s') as Hs' by (by exists a').
    pose proof (in_sync_budget CAP _ _ _ _ _ _ Hs') as [? _]. split_and!; try done. exists []. split; try done; by constructor.
  - destruct (load_last_holds lid _ A c Hh He) as (gen & Hlast & Hin & Hmax).
    assert (0 <= gen <= generator s)%Z as Hgen by (rewrite Forall_forall in Hids; by apply Hids).
    assert (stores_with lid CAP gen o (normal [] [] (Some c.1)) (A ++ [c])) as Hst'.
    { split; unfold v_chunks; cbn; rewrite ?app_nil_r; try done; [by rewrite last_snoc|].
      rewrite Forall_forall in Hids, Hmax |- *. intros id Hid. split; [by apply Hids|by apply Hmax]. }
    destruct (stored_before gen o A c [] _ gen Hst') as (Hstored & _ & Hfit & Hstores); [lia|].
    destruct (replace_all_accepted k cs lz _ gen s Hs ltac:(lia) Hstored eq_refl Hfit) as (s' & Hx & Hs' & Hgs).
    eexists _, gen, s', [c], (list.last A.*1). split_and!; [done|exact Hx|by destruct c|by apply Hstores|].
    rewrite Hgs. unfold store_floor, FIRST_IDENTIFIER. destruct (list.last A.*1); lia.
Qed.

(** ** Sessions *)

Fixpoint store_updates (us : list (Update Item Gap)) (o : Tracked) : option Tracked :=
  match us with
  | [] => Some o
  | u :: us => match store_update debug lid u o with Some o => store_updates us o | None => None end
  end.

Lemma store_updates_observe b us o : observe_all (Observer0 := store_observer debug lid CAP b) us o = store_updates us o.
Proof. revert o. induction us as [|u us IH]; intros o; [done|]. cbn. destruct (store_update debug lid u o); [apply IH|done]. Qed.

(** A linked chunk and the store that persists it: operations, the propagation of
    updates to the store, and, when all is propagated, the loading of the chunk
    before the first and the unloading of all chunks but the last. *)
Inductive session : nat → LinkedChunk → Tracked → Prop :=
| session_new : session 0 new_with_update_history {| tracked := new_relational; clean := true |}
| session_do n s o cmd r s' :
    session n s o → exec CAP (Do cmd) s = Ret (r, s') → session (n + cost CAP cmd) s' o
| session_propagate n s o us s' o' :
    session n s o → take_shared t0 s = Ret (us, s') → store_updates us o = Some o' → session n s' o'
| session_load n s o c ch s1 raw r s2 us s3 :
    session n s o → flushed s → clean o = true → chunks (E := Error) s = Ret (Ok (c :: ch), s1) →
    load_previous_chunk lid (identifier c) (tracked o) = Ok (Some raw) → exec CAP (LoadFirst raw) s1 = Ret (r, s2) →
    take_shared t0 s2 = Ret (us, s3) → session n s3 o
| session_shrink n s o chunk gen r s1 us s2 :
    session n s o → flushed s → clean o = true → load_last_chunk lid (tracked o) = Ok (chunk, gen) →
    exec CAP (ReplaceAll chunk gen) s = Ret (r, s1) → take_shared t0 s1 = Ret (us, s2) → session n s2 o.

Lemma empty_store b : stores lid CAP b {| tracked := new_relational; clean := true |} (normal (Item := Item) (Gap := Gap) [] [] None).
Proof. exists []. split; [split; [done|done|apply NoDup_nil_2]|done|constructor|constructor|]. intros _ x Hx. by apply elem_of_nil in Hx. Qed.

(** A loaded chunk keeps the store and the linked chunk in step. *)
Lemma load_moves b (o : Tracked) k cs lz s U c ch s1 raw r s2 us s3 :
  well_formed k cs lz s → stores_with lid CAP b o (normal cs [] lz) U → clean o = true → (store_floor b lz <= generator s)%Z →
  chunks (E := Error) s = Ret (Ok (c :: ch), s1) → load_previous_chunk lid (identifier c) (tracked o) = Ok (Some raw) →
  exec CAP (LoadFirst raw) s1 = Ret (r, s2) → take_shared t0 s2 = Ret (us, s3) →
  ∃ cs' lz', synced b o k cs' lz' s3.
Proof.
  intros Hs HU Hcl Hfl Hch Hload Hx Htake.
  destruct (chunks_in_sync CAP (E := Error) _ _ _ _ _ _ Hs) as (ch' & s1' & Hch' & Hcs & _ & _ & Hs1 & Hgen).
  rewrite Hch in Hch'. simplify_eq. destruct cs as [|c0 cs].
  - assert (lz = None) as -> by (destruct Hs as (a & _ & [_ Hz]); by apply Hz).
    destruct HU as [Hh Hz _ _ _]. symmetry in Hz. apply fmap_None, last_None in Hz as ->. cbn in Hh.
    pose proof (holds_chunks _ _ _ Hh) as Hrows. cbn in Hrows. apply Permutation_nil_r in Hrows.
    unfold load_previous_chunk in Hload. by rewrite Hrows in Hload.
  - cbn [begun] in *. assert (identifier c = c0.1) as Hid by (cbn in Hcs; by injection Hcs as <- _). rewrite Hid in Hload.
    destruct U as [|d P _] using rev_ind.
    + destruct HU as [Hh _ _ _ _]. unfold v_chunks in Hh. cbn in Hh. rewrite app_nil_r in Hh. by rewrite (load_previous_first lid _ _ _ Hh) in Hload.
    + rewrite <- Hgen in Hfl. destruct (load_step b o k c0 cs lz s1' P d Hs1 HU Hcl Hfl) as (Hload' & s2' & Hx' & Hs2 & Hst2 & Hfl2).
      rewrite Hload in Hload'. simplify_eq. rewrite Hx in Hx'. simplify_eq. eexists _, _. by eapply drain_synced.
Qed.

Lemma session_synced n s o k :
  session n s o → (Z.of_nat (k + n) < u64_max)%Z → ∃ b cs lz, synced b o k cs lz s.
Proof.
  intros Hss. revert k. induction Hss as [|n s o cmd r s' _ IH Hx|n s o us s' o' _ IH Htake Hus
    |n s o c ch s1 raw r s2 us s3 _ IH Hfl Hcl Hch Hload Hx Htake|n s o chunk gen r s1 us s2 _ IH Hfl Hcl Hload Hx Htake]; intros k Hk.
  - exists 0%Z, [], None. apply (new_in_sync CAP (Observer0 := store_observer debug lid CAP 0)); [apply empty_store|lia].
  - destruct (IH (k + cost CAP cmd)) as (b & cs & lz & Hs); [lia|].
    destruct (do_performs CAP _ _ _ _ _ _ _ Hs) as (? & ? & cs' & Heq & Hs' & _). rewrite Hx in Heq. simplify_eq. eauto.
  - destruct (IH k Hk) as (b & cs & lz & Hs). destruct (propagate_synced _ _ _ _ _ _ Hs) as (us' & s'' & o'' & Htake' & _ & Hus' & _ & Hs').
    rewrite Htake in Htake'. simplify_eq. rewrite store_updates_observe, Hus in Hus'. simplify_eq. eauto.
  - destruct (IH k Hk) as (b & cs & lz & Hs). destruct (flushed_stores _ _ _ _ _ _ Hs Hfl) as [U HU].
    destruct (load_moves b o k cs lz s U c ch s1 raw r s2 us s3) as (cs' & lz' & Hs'); try done; [by eapply blind_in_sync|by eapply synced_floor|eauto].
  - destruct (IH k Hk) as (b & cs & lz & Hs). destruct (flushed_stores _ _ _ _ _ _ Hs Hfl) as [U HU].
    destruct (shrink_step b o k cs lz s U) as (chunk' & gen' & s1' & cs' & lz' & Hload' & Hx' & Hs' & Hst' & Hfl');
      [by eapply blind_in_sync|done|done|by eapply synced_floor|].
    rewrite Hload in Hload'. simplify_eq. rewrite Hx in Hx'. simplify_eq.
    exists gen', cs', lz'. by eapply drain_synced.
Qed.


(** ** Opening a persisted linked chunk *)

(** The chunks before the first one are loaded, until there is none. *)
Fixpoint load_back (fuel : nat) st s : option LinkedChunk :=
  match fuel with
  | 0 => None
  | S fuel =>
      match chunks (E := Error) s with
      | Ret (Ok (c :: _), s) =>
          match load_previous_chunk lid (identifier c) st with
          | Ok None => Some s
          | Ok (Some raw) => match exec CAP (LoadFirst raw) s with Ret (Done, s) => load_back fuel st s | _ => None end
          | Err _ => None
          end
      | _ => None
      end
  end.

(** The last chunk, and from there all the others. *)
Definition restore st : option LinkedChunk :=
  match load_last_chunk lid st with
  | Ok (chunk, gen) =>
      match from_last_chunk CAP chunk gen with
      | Ok (Some s) => load_back (S (length (rel_chunks st))) st s
      | Ok None => Some new_with_update_history
      | Err _ => None
      end
  | Err _ => None
  end.

Lemma load_back_all b (o : Tracked) k fuel c cs lz s U :
  well_formed k (c :: cs) lz s → stores_with lid CAP b o (normal (c :: cs) [] lz) U → clean o = true →
  (store_floor b lz <= generator s)%Z → length U < fuel →
  ∃ s', load_back fuel (tracked o) s = Some s' ∧ well_formed k (U ++ c :: cs) None s'.
Proof.
  revert c cs lz s U. induction fuel as [|fuel IH]; intros c cs lz s U Hs HU Hcl Hfl Hlen; [lia|]. cbn [load_back].
  destruct (chunks_in_sync CAP (E := Error) _ _ _ _ _ _ Hs) as (ch & s1 & -> & Hcs & _ & _ & Hs1 & Hgen). cbn [begun] in *.
  destruct ch as [|c' ch]; [done|]. assert (identifier c' = c.1) as -> by (cbn in Hcs; by injection Hcs as <- _).
  destruct U as [|d P _] using rev_ind.
  - destruct HU as [Hh Hz _ _ _]. unfold v_chunks in Hh. cbn in Hh, Hz. rewrite app_nil_r in Hh. subst lz.
    rewrite (load_previous_first lid _ _ _ Hh). eauto.
  - rewrite <- Hgen in Hfl. destruct (load_step b o k c cs lz s1 P d Hs1 HU Hcl Hfl) as (-> & s2 & -> & Hs2 & Hst2 & Hfl2).
    assert (stores_with lid CAP b o (normal (d :: c :: cs) [] (list.last P.*1)) P) as HP.
    { destruct HU as [Hh Hz Hb Hf He]. unfold v_chunks in *. cbn in *. rewrite !app_nil_r in *. rewrite <- app_assoc in Hh, He.
      rewrite fmap_app in Hb. apply Forall_app in Hb as [Hb _], Hf as [Hf _]. split; unfold v_chunks; cbn; rewrite ?app_nil_r; try done. by rewrite fmap_last. }
    rewrite length_app in Hlen. cbn in Hlen. destruct (IH _ _ _ _ _ Hs2 HP Hcl Hfl2) as (s' & Hl & Hs'); [lia|].
    exists s'. by rewrite <- app_assoc.
Qed.

Lemma from_last_well_formed raw gen :
  stored gen raw → raw_next raw = None → length (content_items (raw_content raw)) <= CAP → (0 <= gen < u64_max)%Z →
  ∃ s, from_last_chunk CAP (Some raw) gen = Ok (Some s)
    ∧ well_formed 0 [(raw_identifier raw, raw_content raw)] (raw_previous raw) s ∧ generator s = gen.
Proof.
  intros [Hid Hprev] Hnext Hlen Hgen. assert (∃ s, from_last_chunk CAP (Some raw) gen = Ok (Some s)) as [s Hs].
  { unfold from_last_chunk, too_large. rewrite Hnext. destruct (raw_content raw) as [|xs]; cbn in Hlen; [by eexists|].
    destruct (Nat.ltb_spec CAP (length xs)); [lia|]. by eexists. }
  exists s. pose proof (from_last_chunk_rel CAP raw gen s Hs) as Hr. split_and!; [done| |by rewrite (rel_generator _ _ Hr)].
  exists (l_from_last raw gen). split; [done|]. split; [|done]. split; cbn; try done; try lia.
  - split; unfold ids, v_chunks; cbn.
    + destruct (raw_previous raw) as [id|]; cbn; [|apply NoDup_singleton]. destruct (Hprev id eq_refl).
      apply NoDup_cons. split; [by rewrite list_elem_of_singleton|apply NoDup_singleton].
    + destruct (raw_previous raw) as [id|]; cbn; repeat constructor; try lia; by destruct (Hprev id eq_refl); lia.
    + repeat constructor. by rewrite chunk_length_items.
  - apply Hgen.
  - split; [by exists (normal [] [] None)|]. split; [apply new_inner_ok|]. by exists [], ().
Qed.

Lemma restore_holds b (o : Tracked) cs lz s U :
  well_formed 0 cs lz s → stores_with lid CAP b o (normal cs [] lz) U → clean o = true →
  (store_floor b lz <= generator s)%Z →
  ∃ r, restore (tracked o) = Some r ∧ ∃ cs', well_formed 0 cs' None r ∧ begun cs' = U ++ begun cs.
Proof.
  intros Hs HU Hcl Hfl. destruct (stores_identifiers _ _ _ _ _ _ _ Hs HU Hfl) as [Hids Hcap].
  pose proof (in_sync_budget CAP _ _ _ _ _ _ Hs) as [Hgen0 Hgen1].
  assert (cs = [] → U = []) as Hnil.
  { intros ->. destruct Hs as (a & _ & [_ Hz]), HU as [_ HU _ _ _]. cbn in HU. rewrite (Hz eq_refl) in HU.
    symmetry in HU. by apply fmap_None, last_None in HU. }
  destruct HU as [Hh Hz Hb Hf He]. specialize (He Hcl). unfold v_chunks in *. cbn in Hh, Hz, He. rewrite app_nil_r in Hh, He.
  assert (begun (U ++ cs) = U ++ begun cs) as <- by (destruct cs; [by rewrite Hnil|by destruct U]).
  unfold restore. destruct (U ++ cs) as [|c A _] using rev_ind.
  - rewrite load_last_empty by done. cbn. eexists. split; [done|]. exists []. split; [|done]. by apply new_in_sync.
  - destruct (load_last_holds lid _ A c Hh He) as (gen & -> & Hin & Hmax).
    assert (0 <= gen <= generator s)%Z as Hgen by (rewrite Forall_forall in Hids; by apply Hids).
    assert (stores_with lid CAP gen o (normal [] [] (Some c.1)) (A ++ [c])) as Hst'.
    { split; unfold v_chunks; cbn; rewrite ?app_nil_r; try done; [by rewrite last_snoc|].
      rewrite Forall_forall in Hids, Hmax |- *. intros id Hid. split; [by apply Hids|by apply Hmax]. }
    destruct (stored_before gen o A c [] _ gen Hst') as (Hstored & _ & Hfit & _); [lia|].
    destruct (from_last_well_formed _ gen Hstored eq_refl Hfit ltac:(lia)) as (s' & Hlast & Hs' & Hgs). cbn [head fmap option_fmap option_map] in Hlast. cbn in Hs'. rewrite Hlast.
    assert (stores_with lid CAP gen o (normal [c] [] (list.last A.*1)) A) as HA.
    { destruct Hst' as [? _ Hb' Hf' ?]. rewrite fmap_app in Hb'. apply Forall_app in Hb' as [Hb' _], Hf' as [Hf' _].
      split; unfold v_chunks; cbn; try done. by rewrite fmap_last. }
    destruct (load_back_all gen o 0 (S (length (rel_chunks (tracked o)))) c [] (list.last A.*1) s' A) as (r & Hr & Hwf); try done.
    + by destruct c.
    + rewrite Hgs. unfold store_floor, FIRST_IDENTIFIER. destruct (list.last A.*1); lia.
    + rewrite (holds_chunks _ _ _ Hh), <- (length_fmap row_chunk), link_rows_ids, length_fmap, length_app. cbn. lia.
    + exists r. split; [done|]. exists (A ++ [c]). split; [done|]. done.
Qed.


End persistence.

(** ** A sample session *)

Section samples.
#[local] Instance nat_item : IndexableItem nat nat := λ x, x.
Abbreviation LinkedChunk := (LinkedChunk nat nat).
Abbreviation Tracked := (Tracked nat nat nat).

Definition sample_room : LinkedChunkId := RoomChunk "!room:example.org".

(** Five items in chunks of at most three, and a gap. *)
Definition sample_filled : LinkedChunk := after 3 [PushItemsBack [1; 2; 3; 4; 5]; PushGapBack 9].
Definition sample_taken (s : LinkedChunk) := match take_shared MAIN_READER_TOKEN s with Ret x => x | _ => ([], s) end.
Definition sample_empty : Tracked := {| tracked := new_relational; clean := true |}.
Definition sample_store : Tracked := default sample_empty (store_updates true sample_room (sample_taken sample_filled).1 sample_empty).
Definition sample_flushed : LinkedChunk := (sample_taken sample_filled).2.

(** All is propagated, and all chunks but the last are unloaded. *)
Definition sample_last := match load_last_chunk sample_room (tracked sample_store) with Ok x => x | Err _ => (None, 0%Z) end.
Definition sample_shrunk : LinkedChunk := left_state sample_flushed (exec 3 (ReplaceAll sample_last.1 sample_last.2) sample_flushed).
Definition sample_reloaded : LinkedChunk := (sample_taken sample_shrunk).2.

Lemma sample_takes s : is_Some (returned (take_shared MAIN_READER_TOKEN s)) → take_shared MAIN_READER_TOKEN s = Ret (sample_taken s).
Proof. unfold sample_taken. destruct (take_shared _ s) as [[? ?]| | |]; [done|by intros []..]. Qed.

Lemma sample_stored us : is_Some (store_updates true sample_room us sample_empty) → store_updates true sample_room us sample_empty = Some (default sample_empty (store_updates true sample_room us sample_empty)).
Proof. by intros [o ->]. Qed.

Lemma sample_session : session 3 true sample_room 7 sample_reloaded sample_store.
Proof.
  apply (session_shrink 3 true sample_room 7 sample_flushed sample_store sample_last.1 sample_last.2 Done sample_shrunk (sample_taken sample_shrunk).1 sample_reloaded).
  - apply (session_propagate 3 true sample_room 7 sample_filled sample_empty (sample_taken sample_filled).1).
    + apply (session_do 3 true sample_room 6 (after 3 [PushItemsBack [1; 2; 3; 4; 5]]) _ (PushGapBack 9) Done), returned_ret; [|by_vm].
      apply (session_do 3 true sample_room 0 new_with_update_history _ (PushItemsBack [1; 2; 3; 4; 5]) Done), returned_ret; [constructor|by_vm].
    + rewrite sample_takes by by_decide. apply (f_equal Ret), surjective_pairing.
    + apply sample_stored. by_decide.
  - exists (default new_inner (history sample_flushed)). split; by_vm.
  - by_vm.
  - by_vm.
  - apply returned_ret. by_vm.
  - rewrite sample_takes by by_decide. apply (f_equal Ret), surjective_pairing.
Qed.



(** The chunks that the session unloaded are back. *)
Example restored_sample :
  match restore 3 sample_room (tracked sample_store) with
  | Some r => match items r with Ret (Ok l, _) => l.*2 | _ => [] end
  | None => []
  end = [1; 2; 3; 4; 5].
Proof. by_vm. Qed.

End samples.
