(* ===== verification/TimelineItems.v ===== *)
(** * The items of a timeline

    [client-ui/src/timeline/controller/observable_items.rs]: the vector of
    timeline items, the list of all the remote events, and the operations of a
    transaction that keep the positions recorded in the second in step with the
    first.  The contents of the items are left out: an event item keeps its
    sender, its timestamp and whether it is a local echo or a remote event.  The
    observable vector is a sequence whose indexing operations panic out of
    range, as [imbl::Vector]'s do.

    The lemmas show that every operation keeps the two halves in step. *)

From S2P Require Import Prelude.

(** ** Items *)

(** The ways the sending of a local event can stand; errors and upload progress
    are left out. *)
Inductive EventSendState :=
| NotSentYet
| SendingFailed (is_recoverable : bool)
| Sent (event_id : string).

Inductive RemoteEventOrigin := Cache | Sync | Pagination | Unknown.

Inductive EventTimelineItemKind :=
| Local (send_state : EventSendState) (transaction_id : string)
| Remote (event_id : string) (transaction_id : option string) (origin : RemoteEventOrigin).

Record EventTimelineItem := {
  sender : string;
  timestamp : Z;
  event_kind : EventTimelineItemKind
}.

Inductive VirtualTimelineItem :=
| DateDivider (ts : Z)
| ReadMarker
| TimelineStart.

Inductive TimelineItemKind :=
| Event (event : EventTimelineItem)
| Virtual (virt : VirtualTimelineItem).

Record TimelineItem := {
  kind : TimelineItemKind;
  internal_id : string
}.

Definition as_event (it : TimelineItem) : option EventTimelineItem :=
  match kind it with Event e => Some e | Virtual _ => None end.

Definition as_virtual (it : TimelineItem) : option VirtualTimelineItem :=
  match kind it with Event _ => None | Virtual v => Some v end.

Definition is_local_echo (it : TimelineItem) : bool :=
  match kind it with
  | Event e => match event_kind e with Local _ _ => true | Remote _ _ _ => false end
  | Virtual _ => false
  end.

Definition is_remote_event (it : TimelineItem) : bool :=
  match kind it with
  | Event e => match event_kind e with Local _ _ => false | Remote _ _ _ => true end
  | Virtual _ => false
  end.

Definition is_event (it : TimelineItem) : bool :=
  match kind it with Event _ => true | Virtual _ => false end.

Definition is_date_divider (it : TimelineItem) : bool :=
  match kind it with Virtual (DateDivider _) => true | _ => false end.

Definition is_read_marker (it : TimelineItem) : bool :=
  match kind it with Virtual ReadMarker => true | _ => false end.

Definition is_timeline_start (it : TimelineItem) : bool :=
  match kind it with Virtual TimelineStart => true | _ => false end.

(** [EventTimelineItem::transaction_id]: only local items have one. *)
Definition transaction_id (e : EventTimelineItem) : option string :=
  match event_kind e with Local _ txn => Some txn | Remote _ _ _ => None end.

(** [EventTimelineItem::event_id], with [LocalEventTimelineItem::event_id]. *)
Definition event_id (e : EventTimelineItem) : option string :=
  match event_kind e with
  | Local (Sent id) _ => Some id
  | Local _ _ => None
  | Remote id _ _ => Some id
  end.

Definition as_remote (e : EventTimelineItem) : option string :=
  match event_kind e with Local _ _ => None | Remote id _ _ => Some id end.

(** [TimelineItem::read_marker] *)
Definition read_marker : TimelineItem :=
  {| kind := Virtual ReadMarker; internal_id := "__read_marker" |}.

(** ** Vectors *)

(** [insert], [remove] and [set] of a vector; all three panic out of range. *)
Definition vec_insert {A} (i : nat) (x : A) (l : list A) : outcome Empty_set (list A) :=
  if i <=? length l then Ret (take i l ++ x :: drop i l) else Panic.

Definition vec_remove {A} (i : nat) (l : list A) : outcome Empty_set (A * list A) :=
  match l !! i with Some x => Ret (x, delete i l) | None => Panic end.

Definition vec_set {A} (i : nat) (x : A) (l : list A) : outcome Empty_set (list A) :=
  if i <? length l then Ret (<[i := x]> l) else Panic.

(** [iter().enumerate()] *)
Definition enumerate {A} (l : list A) : list (nat * A) := imap pair l.

(** [find_map] *)
Fixpoint find_map {A B} (f : A → option B) (l : list A) : option B :=
  match l with
  | [] => None
  | x :: l => match f x with Some b => Some b | None => find_map f l end
  end.

(** ** All remote events *)

Record EventMeta := {
  meta_event_id : string;
  meta_sender : option string;
  thread_root_id : option string;
  visible : bool;
  can_show_read_receipts : bool;
  is_join : bool;
  timeline_item_index : option nat
}.

Definition with_index (o : option nat) (m : EventMeta) : EventMeta :=
  {| meta_event_id := meta_event_id m; meta_sender := meta_sender m;
     thread_root_id := thread_root_id m; visible := visible m;
     can_show_read_receipts := can_show_read_receipts m; is_join := is_join m;
     timeline_item_index := o |}.

(** [EventMeta::new] *)
Definition new_meta (id : string) (from : option string) (vis can_show : bool)
    (root : option string) (join : bool) : EventMeta :=
  {| meta_event_id := id; meta_sender := from; thread_root_id := root; visible := vis;
     can_show_read_receipts := can_show; is_join := join; timeline_item_index := None |}.

(** The loop of [increment_all_timeline_item_index_after], from the last event
    to the first, stopped at the first smaller index. *)
Fixpoint increment_from_last (n : nat) (l : list EventMeta) : list EventMeta :=
  match l with
  | [] => []
  | m :: l' =>
      match timeline_item_index m with
      | None => m :: increment_from_last n l'
      | Some k => if n <=? k then with_index (Some (k + 1)) m :: increment_from_last n l' else l
      end
  end.

Definition increment_all_timeline_item_index_after (n : nat) (l : list EventMeta) : list EventMeta :=
  reverse (increment_from_last n (reverse l)).

(** The same of [decrement_all_timeline_item_index_after]. *)
Fixpoint decrement_from_last (n : nat) (l : list EventMeta) : list EventMeta :=
  match l with
  | [] => []
  | m :: l' =>
      match timeline_item_index m with
      | None => m :: decrement_from_last n l'
      | Some k => if n <? k then with_index (Some (k - 1)) m :: decrement_from_last n l' else l
      end
  end.

Definition decrement_all_timeline_item_index_after (n : nat) (l : list EventMeta) : list EventMeta :=
  reverse (decrement_from_last n (reverse l)).

(** What [push_front], [push_back] and [insert] do first. *)
Definition make_place (m : EventMeta) (l : list EventMeta) : list EventMeta :=
  match timeline_item_index m with
  | Some n => increment_all_timeline_item_index_after n l
  | None => l
  end.

Definition events_push_front (m : EventMeta) (l : list EventMeta) : list EventMeta :=
  m :: make_place m l.

Definition events_push_back (m : EventMeta) (l : list EventMeta) : list EventMeta :=
  make_place m l ++ [m].

Definition events_insert (i : nat) (m : EventMeta) (l : list EventMeta) : outcome Empty_set (list EventMeta) :=
  vec_insert i m (make_place m l).

(** [VecDeque::remove] returns [None] out of range. *)
Definition events_remove (i : nat) (l : list EventMeta) : option EventMeta * list EventMeta :=
  match l !! i with
  | None => (None, l)
  | Some m =>
      (Some m,
       match timeline_item_index m with
       | Some n => decrement_all_timeline_item_index_after n (delete i l)
       | None => delete i l
       end)
  end.

Definition timeline_item_has_been_inserted_at (n : nat) (event_index : option nat)
    (l : list EventMeta) : list EventMeta :=
  let l := increment_all_timeline_item_index_after n l in
  match event_index with
  | Some i => alter (with_index (Some n)) i l
  | None => l
  end.

Definition timeline_item_has_been_removed_at (n : nat) (l : list EventMeta) : list EventMeta :=
  (λ m,
    match timeline_item_index m with
    | None => m
    | Some k =>
        match Nat.compare k n with
        | Eq => with_index None m
        | Gt => with_index (Some (k - 1)) m
        | Lt => m
        end
    end) <$> l.

(** [get_by_event_id_mut]: the last event with the id is changed by [f]. *)
Definition update_by_event_id (id : string) (f : EventMeta → EventMeta) (l : list EventMeta) : list EventMeta :=
  match find_map (λ '(i, m), if bool_decide (meta_event_id m = id) then Some i else None) (reverse (enumerate l)) with
  | Some i => alter f i l
  | None => l
  end.

(** ** Transactions *)

Record ObservableItems := {
  items : list TimelineItem;
  all_remote_events : list EventMeta
}.

(** [ObservableItems::new] *)
Definition new_items : ObservableItems := {| items := []; all_remote_events := [] |}.

Definition on_items (o : outcome Empty_set (list TimelineItem)) (f : list EventMeta → list EventMeta)
    (s : ObservableItems) : outcome Empty_set ObservableItems :=
  let! l := o in
  Ret {| items := l; all_remote_events := f (all_remote_events s) |}.

Definition replace (i : nat) (it : TimelineItem) (s : ObservableItems) : outcome Empty_set ObservableItems :=
  on_items (vec_set i it (items s)) id s.

Definition remove (i : nat) (s : ObservableItems) : outcome Empty_set (TimelineItem * ObservableItems) :=
  let! (it, l) := vec_remove i (items s) in
  Ret (it, {| items := l;
              all_remote_events := timeline_item_has_been_removed_at i (all_remote_events s) |}).

Definition insert (i : nat) (it : TimelineItem) (event_index : option nat) (s : ObservableItems)
    : outcome Empty_set ObservableItems :=
  on_items (vec_insert i it (items s)) (timeline_item_has_been_inserted_at i event_index) s.

Definition push_front (it : TimelineItem) (event_index : option nat) (s : ObservableItems) : ObservableItems :=
  {| items := it :: items s;
     all_remote_events := timeline_item_has_been_inserted_at 0 event_index (all_remote_events s) |}.

Definition push_back (it : TimelineItem) (event_index : option nat) (s : ObservableItems) : ObservableItems :=
  {| items := items s ++ [it];
     all_remote_events :=
       timeline_item_has_been_inserted_at (length (items s ++ [it]) - 1) event_index (all_remote_events s) |}.

Definition push_local (it : TimelineItem) (s : ObservableItems) : outcome Empty_set ObservableItems :=
  if is_local_echo it then Ret (push_back it None s) else Panic.

Definition push_date_divider (i : nat) (it : TimelineItem) (s : ObservableItems) : outcome Empty_set ObservableItems :=
  if negb (is_date_divider it) then Panic
  else if (i =? 0) && negb (length (items s) =? 0)
          && match items s !! i with Some first => is_timeline_start first | None => true end then Panic
  else if i =? length (items s) then Ret (push_back it None s)
  else if i =? 0 then Ret (push_front it None s)
  else insert i it None s.

Definition push_timeline_start_if_missing (it : TimelineItem) (s : ObservableItems)
    : outcome Empty_set ObservableItems :=
  if negb (is_timeline_start it) then Panic
  else if match items s !! 0 with Some first => is_timeline_start first | None => false end then Ret s
  else Ret (push_front it None s).

(** [ObservableItemsTransaction::clear] *)
Definition clear_items (s : ObservableItems) : ObservableItems := {| items := []; all_remote_events := [] |}.

Definition has_local (s : ObservableItems) : bool :=
  match last (items s) with Some it => is_local_echo it | None => false end.

(** ** Regions *)

(** The sizes [ObservableItemsTransactionIterBuilder::build] computes. *)
Definition size_of_start_region (l : list TimelineItem) : nat :=
  match l !! 0 with Some first => if is_timeline_start first then 1 else 0 | None => 0 end.

Fixpoint count_while {A} (f : A → bool) (l : list A) : nat :=
  match l with [] => 0 | x :: l => if f x then S (count_while f l) else 0 end.

Definition size_of_locals_region (l : list TimelineItem) : nat := count_while is_local_echo (reverse l).

Definition size_of_remotes_region (l : list TimelineItem) : nat :=
  length l - size_of_start_region l - size_of_locals_region l.

Definition first_remotes_region_index (s : ObservableItems) : nat := size_of_start_region (items s).

Definition iter_remotes_region (s : ObservableItems) : list (nat * TimelineItem) :=
  let l := items s in
  take (size_of_remotes_region l) (drop (size_of_start_region l) (enumerate l)).

Definition iter_remotes_and_locals_regions (s : ObservableItems) : list (nat * TimelineItem) :=
  let l := items s in
  take (size_of_remotes_region l + size_of_locals_region l) (drop (size_of_start_region l) (enumerate l)).

Definition iter_locals_region (s : ObservableItems) : list (nat * TimelineItem) :=
  let l := items s in
  take (size_of_locals_region l) (drop (size_of_start_region l + size_of_remotes_region l) (enumerate l)).

(** ** Metadata

    The part of [TimelineMetadata] that decides which items there are: internal
    identifiers, and the read marker. *)

Record TimelineMetadata := {
  internal_id_prefix : option string;
  own_user_id : string;
  next_internal_id : Z;
  fully_read_event : option string;
  has_up_to_date_read_marker_item : bool
}.

Definition with_next_internal_id (n : Z) (m : TimelineMetadata) : TimelineMetadata :=
  {| internal_id_prefix := internal_id_prefix m; own_user_id := own_user_id m; next_internal_id := n;
     fully_read_event := fully_read_event m;
     has_up_to_date_read_marker_item := has_up_to_date_read_marker_item m |}.

(** The method [next_internal_id]: a [u64] counter that wraps around. *)
Definition take_internal_id (m : TimelineMetadata) : string * TimelineMetadata :=
  (default EmptyString (internal_id_prefix m) +:+ pretty (Z.to_N (next_internal_id m)),
   with_next_internal_id ((next_internal_id m + 1) mod 2 ^ 64)%Z m).

Definition new_timeline_item (k : TimelineItemKind) (m : TimelineMetadata) : TimelineItem * TimelineMetadata :=
  let '(i, m) := take_internal_id m in ({| kind := k; internal_id := i |}, m).

Definition new_timeline_item_with_internal_id (k : TimelineItemKind) (recycled : option string)
    (m : TimelineMetadata) : TimelineItem * TimelineMetadata :=
  match recycled with
  | Some i => ({| kind := k; internal_id := i |}, m)
  | None => new_timeline_item k m
  end.

(** ** Positions of the remote events among the items of a timeline

    The operations of [TimelineItems] keep the two halves of a timeline in step:
    the events with an index are, in order, the remote items of the vector with
    their positions.  The loops that shift the indices stop early on the ground
    that the indices are ordered; they shift every index they should. *)

(** ** Lists *)

Lemma list_omap_ext_elem {A B} (f g : A → option B) (l : list A) : (∀ x, x ∈ l → f x = g x) → omap f l = omap g l.
Proof.
  induction l as [|x l IH]; intros Hfg; [done|]. cbn. rewrite Hfg by by left.
  by rewrite IH by (intros; apply Hfg; by right).
Qed.

(** ** In step *)

Definition remote_id (it : TimelineItem) : option string := as_event it ≫= as_remote.

(** The events that have an index, with it. *)
Definition mapped (l : list EventMeta) : list (string * nat) :=
  omap (λ m, pair (meta_event_id m) <$> timeline_item_index m) l.

(** The remote items of a vector that starts at position [n], with their positions. *)
Fixpoint remotes_from (n : nat) (l : list TimelineItem) : list (string * nat) :=
  match l with
  | [] => []
  | it :: l =>
      match remote_id it with
      | Some id => (id, n) :: remotes_from (S n) l
      | None => remotes_from (S n) l
      end
  end.

Definition in_step (s : ObservableItems) : Prop := mapped (all_remote_events s) = remotes_from 0 (items s).

Definition event_ids (s : ObservableItems) : list string := meta_event_id <$> all_remote_events s.

(** ** Remote items and their positions *)

Lemma remotes_from_app n l1 l2 : remotes_from n (l1 ++ l2) = remotes_from n l1 ++ remotes_from (n + length l1) l2.
Proof.
  revert n. induction l1 as [|it l1 IH]; intros n; cbn; [by rewrite Nat.add_0_r|].
  rewrite IH, <-plus_n_Sm. by destruct (remote_id it).
Qed.

Lemma remotes_from_bounds n l p : p ∈ remotes_from n l → n ≤ p.2 < n + length l.
Proof.
  revert n. induction l as [|it l IH]; intros n Hp; cbn in *; [by apply elem_of_nil in Hp|].
  destruct (remote_id it); [apply elem_of_cons in Hp as [->|Hp]; [cbn; lia|]|]; apply IH in Hp; lia.
Qed.

Lemma remotes_from_split i l : i ≤ length l → remotes_from 0 l = remotes_from 0 (take i l) ++ remotes_from i (drop i l).
Proof.
  intros Hi. rewrite <-(take_drop i l) at 1. rewrite remotes_from_app, length_take. by rewrite Nat.min_l by done.
Qed.

Definition at_index (f : nat → nat) (p : string * nat) : string * nat := (p.1, f p.2).

Lemma remotes_from_shift (f : nat → nat) n m l :
  (∀ k, k < length l → f (n + k) = m + k) → remotes_from m l = at_index f <$> remotes_from n l.
Proof.
  revert n m. induction l as [|it l IH]; intros n m Hf; [done|]. cbn.
  rewrite (IH (S n) (S m)) by (intros k Hk; specialize (Hf (S k)); cbn in Hf; rewrite <-!plus_n_Sm in Hf; cbn; apply Hf; lia).
  destruct (remote_id it); [|done]. cbn. f_equal. unfold at_index. cbn. f_equal.
  specialize (Hf 0). rewrite !Nat.add_0_r in Hf. symmetry. apply Hf. cbn. lia.
Qed.

Lemma remotes_from_keep (f : nat → nat) n l :
  (∀ k, k < length l → f (n + k) = n + k) → at_index f <$> remotes_from n l = remotes_from n l.
Proof. intros Hf. symmetry. by apply remotes_from_shift. Qed.

Lemma remotes_from_sorted n l : StronglySorted lt (remotes_from n l).*2.
Proof.
  revert n. induction l as [|it l IH]; intros n; cbn; [constructor|].
  destruct (remote_id it); [|done]. cbn. constructor; [done|]. apply Forall_fmap, Forall_forall.
  intros p Hp%remotes_from_bounds. cbn. lia.
Qed.

Lemma remotes_from_lookup n l id i : (id, n + i) ∈ remotes_from n l ↔ ∃ it, l !! i = Some it ∧ remote_id it = Some id.
Proof.
  revert n i. induction l as [|it l IH]; intros n i; cbn.
  { rewrite elem_of_nil. split; [done|]. by intros (it & ? & ?). }
  destruct i as [|i]; cbn.
  - rewrite Nat.add_0_r.
    assert (Hno : (id, n) ∉ remotes_from (S n) l) by (intros Hp%remotes_from_bounds; cbn in Hp; lia).
    destruct (remote_id it) as [id'|] eqn:Hid; [rewrite elem_of_cons|]; split.
    + intros [[= ->]|?]; [eauto|done].
    + intros (it' & [= <-] & Hid'). left. congruence.
    + done.
    + intros (it' & [= <-] & Hid'). congruence.
  - rewrite <-(IH (S n) i). replace (n + S i) with (S n + i) by lia.
    destruct (remote_id it) as [id'|] eqn:Hid; [|done]. rewrite elem_of_cons. split; [|by right].
    intros [[= _ Hn]|?]; [lia|done].
Qed.

(** ** Events with an index *)

Lemma mapped_app l1 l2 : mapped (l1 ++ l2) = mapped l1 ++ mapped l2.
Proof. apply omap_app. Qed.

Lemma mapped_reverse l : mapped (reverse l) = reverse (mapped l).
Proof.
  induction l as [|m l IH]; [done|]. rewrite reverse_cons, mapped_app, IH.
  unfold mapped at 2 3. cbn [omap list_omap]. fold (mapped l).
  destruct (timeline_item_index m); cbn -[reverse]; [by rewrite reverse_cons|by rewrite app_nil_r].
Qed.

Lemma mapped_fmap (g : EventMeta → EventMeta) (f : nat → option nat) l :
  (∀ m, m ∈ l → meta_event_id (g m) = meta_event_id m) →
  (∀ m, m ∈ l → timeline_item_index (g m) = timeline_item_index m ≫= f) →
  mapped (g <$> l) = omap (λ p, pair p.1 <$> f p.2) (mapped l).
Proof.
  intros Hid Hix. induction l as [|m l IH]; [done|].
  rewrite fmap_cons. unfold mapped in *. cbn [omap list_omap]. rewrite Hid, Hix by (by left).
  rewrite IH by (intros; (apply Hid || apply Hix); by right).
  destruct (timeline_item_index m) as [k|]; [|done]. cbn. by destruct (f k).
Qed.

Lemma mapped_elem l id k : (id, k) ∈ mapped l ↔ ∃ m, m ∈ l ∧ meta_event_id m = id ∧ timeline_item_index m = Some k.
Proof.
  unfold mapped. rewrite list_elem_of_omap. split.
  - intros (m & Hm & (k' & Hk & [= -> ->])%fmap_Some). eauto.
  - intros (m & Hm & <- & Hk). exists m. split; [done|]. by rewrite Hk.
Qed.

Lemma with_same_index m : with_index (timeline_item_index m) m = m.
Proof. by destruct m. Qed.

Definition bump (n : nat) (m : EventMeta) : EventMeta :=
  match timeline_item_index m with
  | Some k => if n <=? k then with_index (Some (k + 1)) m else m
  | None => m
  end.

Lemma bump_id n m : meta_event_id (bump n m) = meta_event_id m.
Proof. unfold bump. by repeat case_match. Qed.

Lemma bump_index n m : timeline_item_index (bump n m) = timeline_item_index m ≫= λ k, Some (if n <=? k then k + 1 else k).
Proof. unfold bump. destruct (timeline_item_index m) as [k|] eqn:Hk; [|done]. cbn. by destruct (n <=? k). Qed.

Lemma increment_from_last_map n l :
  StronglySorted gt (mapped l).*2 → increment_from_last n l = bump n <$> l.
Proof.
  induction l as [|m l IH]; intros Hs; [done|]. cbn. unfold bump at 1. unfold mapped in Hs. cbn in Hs.
  destruct (timeline_item_index m) as [k|] eqn:Hk; cbn in Hs; [|by rewrite IH].
  apply StronglySorted_inv in Hs as [Hs Hlt]. destruct (Nat.leb_spec n k) as [Hle|Hgt]; [by rewrite IH|].
  f_equal. rewrite <-(list_fmap_id l) at 1. apply list_fmap_ext. intros j m' Hm'%list_elem_of_lookup_2. unfold bump.
  destruct (timeline_item_index m') as [k'|] eqn:Hk'; [|done].
  rewrite Forall_fmap, Forall_forall in Hlt. specialize (Hlt (meta_event_id m', k')). cbn in Hlt.
  rewrite (proj2 (Nat.leb_gt _ _)); [done|]. enough (k > k') by lia. apply Hlt, mapped_elem. eauto.
Qed.

Lemma sorted_reverse (l : list nat) : StronglySorted lt l → StronglySorted gt (reverse l).
Proof.
  induction 1 as [|x l Hs IH Hx]; [constructor|]. rewrite reverse_cons. apply StronglySorted_app_2.
  - intros y z Hy ->%list_elem_of_singleton. rewrite elem_of_reverse in Hy. rewrite Forall_forall in Hx. apply Hx in Hy. lia.
  - done.
  - repeat constructor.
Qed.

Lemma increment_map n l :
  StronglySorted lt (mapped l).*2 → increment_all_timeline_item_index_after n l = bump n <$> l.
Proof.
  intros Hs. unfold increment_all_timeline_item_index_after. rewrite increment_from_last_map.
  - by rewrite <-fmap_reverse, reverse_involutive.
  - rewrite mapped_reverse, fmap_reverse. by apply sorted_reverse.
Qed.

Lemma in_step_sorted s : in_step s → StronglySorted lt (mapped (all_remote_events s)).*2.
Proof. intros ->. apply remotes_from_sorted. Qed.

Lemma mapped_bump n l : mapped (bump n <$> l) = at_index (λ k, if n <=? k then k + 1 else k) <$> mapped l.
Proof.
  rewrite (mapped_fmap _ (λ k, Some (if n <=? k then k + 1 else k))).
  - induction (mapped l) as [|p l' IH]; [done|]. cbn. by rewrite <-IH.
  - intros m _. apply bump_id.
  - intros m _. apply bump_index.
Qed.

(** ** Insertion *)

(** What the event at [event_index] must be for an item inserted at [i] to be its own. *)
Definition place_for (i : nat) (it : TimelineItem) (event_index : option nat) (l : list EventMeta) : Prop :=
  match remote_id it, event_index with
  | None, None => True
  | Some id, Some e =>
      ∃ pre m post,
        l = pre ++ m :: post ∧ e = length pre ∧ meta_event_id m = id ∧ timeline_item_index m = None ∧
        (∀ p, p ∈ mapped pre → p.2 < i) ∧ (∀ p, p ∈ mapped post → i ≤ p.2)
  | _, _ => False
  end.

Lemma remotes_from_insert i it l :
  i ≤ length l →
  remotes_from 0 (take i l ++ it :: drop i l) =
    remotes_from 0 (take i l) ++ (match remote_id it with Some id => [(id, i)] | None => [] end)
    ++ remotes_from (S i) (drop i l).
Proof.
  intros Hi. rewrite remotes_from_app, length_take, Nat.min_l by done. cbn. by destruct (remote_id it).
Qed.

Lemma bump_low i l :
  i ≤ length l → at_index (λ k, if i <=? k then k + 1 else k) <$> remotes_from 0 (take i l) = remotes_from 0 (take i l).
Proof.
  intros Hi. apply remotes_from_keep. intros k. rewrite length_take. intros Hk. cbn.
  rewrite (proj2 (Nat.leb_gt _ _)); lia.
Qed.

Lemma bump_high i l : at_index (λ k, if i <=? k then k + 1 else k) <$> remotes_from i l = remotes_from (S i) l.
Proof.
  symmetry. apply remotes_from_shift. intros k Hk. rewrite (proj2 (Nat.leb_le _ _)); lia.
Qed.

(** A list cut where another, equal one is: by the side of [i] the indices are on. *)
Lemma split_at_index i (l1 l2 r1 r2 : list (string * nat)) :
  l1 ++ l2 = r1 ++ r2 →
  (∀ p, p ∈ l1 → p.2 < i) → (∀ p, p ∈ r1 → p.2 < i) →
  (∀ p, p ∈ l2 → i ≤ p.2) → (∀ p, p ∈ r2 → i ≤ p.2) → l1 = r1 ∧ l2 = r2.
Proof.
  revert r1. induction l1 as [|x l1 IH]; intros [|y r1] Heq Hl1 Hr1 Hl2 Hr2; cbn in *.
  - done.
  - subst l2. specialize (Hl2 y). specialize (Hr1 y). rewrite elem_of_cons in *. exfalso.
    assert (y.2 < i) by (apply Hr1; by left). assert (i ≤ y.2) by (apply Hl2; by left). lia.
  - subst r2. specialize (Hr2 x). specialize (Hl1 x). rewrite elem_of_cons in *. exfalso.
    assert (x.2 < i) by (apply Hl1; by left). assert (i ≤ x.2) by (apply Hr2; by left). lia.
  - injection Heq as -> Heq. destruct (IH r1 Heq) as [-> ->]; try done.
    + intros p Hp. apply Hl1. by right.
    + intros p Hp. apply Hr1. by right.
Qed.

Lemma inserted_mapped i it e s :
  in_step s → i ≤ length (items s) → place_for i it e (all_remote_events s) →
  mapped (timeline_item_has_been_inserted_at i e (all_remote_events s))
    = remotes_from 0 (take i (items s) ++ it :: drop i (items s)).
Proof.
  intros Hs Hi Hp. rewrite remotes_from_insert by done. unfold timeline_item_has_been_inserted_at.
  rewrite increment_map by by apply in_step_sorted. unfold place_for in Hp.
  unfold in_step in Hs. rewrite (remotes_from_split i) in Hs by done.
  destruct (remote_id it) as [id|], e as [e|]; try done.
  - destruct Hp as (pre & m & post & Hl & -> & <- & Hm & Hpre & Hpost). rewrite Hl in Hs |- *.
    rewrite mapped_app in Hs. unfold mapped at 2 in Hs. cbn in Hs. rewrite Hm in Hs. cbn in Hs. fold (mapped post) in Hs.
    apply (split_at_index i) in Hs as [Hs1 Hs2]; [|done| |done|].
    + rewrite fmap_app, fmap_cons. replace (length pre) with (length (bump i <$> pre) + 0) by (rewrite length_fmap; lia).
      rewrite alter_app_r. cbn. rewrite mapped_app. unfold mapped at 2. cbn. fold (mapped (bump i <$> post)).
      rewrite !mapped_bump, Hs1, Hs2, bump_low, bump_high by done. by rewrite bump_id.
    + intros p Hp%remotes_from_bounds. rewrite length_take in Hp. lia.
    + intros p Hp%remotes_from_bounds. lia.
  - cbn. rewrite mapped_bump, Hs, fmap_app, bump_low, bump_high by done. done.
Qed.

Lemma inserted_ids i e s : in_step s →
  meta_event_id <$> timeline_item_has_been_inserted_at i e (all_remote_events s) = event_ids s.
Proof.
  intros Hs. unfold timeline_item_has_been_inserted_at, event_ids. rewrite increment_map by by apply in_step_sorted.
  assert (Hb : meta_event_id <$> (bump i <$> all_remote_events s) = meta_event_id <$> all_remote_events s).
  { rewrite <-list_fmap_compose. apply list_fmap_ext. intros k m _. apply bump_id. }
  destruct e as [e|]; [|done]. rewrite <-Hb. apply list_eq. intros j. rewrite !list_lookup_fmap.
  destruct (decide (e = j)) as [->|Hne]; [rewrite list_lookup_alter_eq|by rewrite list_lookup_alter_ne, list_lookup_fmap].
  rewrite list_lookup_fmap. by destruct (_ !! j).
Qed.

(** The three ways of inserting agree. *)
Lemma push_front_insert it e s : insert 0 it e s = Ret (push_front it e s).
Proof. unfold insert, vec_insert. cbn. by rewrite drop_0. Qed.

Lemma push_back_insert it e s : insert (length (items s)) it e s = Ret (push_back it e s).
Proof.
  unfold insert, vec_insert, push_back. rewrite Nat.leb_refl. cbn. rewrite take_ge, drop_ge by done.
  rewrite length_app. cbn. by rewrite Nat.add_sub.
Qed.

Lemma insert_in_step i it e s :
  in_step s → i ≤ length (items s) → place_for i it e (all_remote_events s) →
  ∃ s', insert i it e s = Ret s' ∧ in_step s' ∧ event_ids s' = event_ids s ∧
    items s' = take i (items s) ++ it :: drop i (items s).
Proof.
  intros Hs Hi Hp. unfold insert, vec_insert. rewrite (proj2 (Nat.leb_le _ _)) by done. cbn.
  eexists. split; [done|]. unfold in_step. cbn.
  split; [by apply inserted_mapped|]. split; [by apply inserted_ids|done].
Qed.

(** ** Removal and replacement *)

Definition lower (n : nat) (m : EventMeta) : EventMeta :=
  match timeline_item_index m with
  | None => m
  | Some k => match Nat.compare k n with Eq => with_index None m | Gt => with_index (Some (k - 1)) m | Lt => m end
  end.

Lemma lower_id n m : meta_event_id (lower n m) = meta_event_id m.
Proof. unfold lower. by repeat case_match. Qed.

Lemma lower_index n m :
  timeline_item_index (lower n m) =
    timeline_item_index m ≫= λ k, match Nat.compare k n with Eq => None | Gt => Some (k - 1) | Lt => Some k end.
Proof. unfold lower. destruct (timeline_item_index m) as [k|] eqn:Hk; [|done]. cbn. by destruct (Nat.compare k n). Qed.

Lemma remove_mapped i s it :
  in_step s → items s !! i = Some it →
  mapped (timeline_item_has_been_removed_at i (all_remote_events s)) = remotes_from 0 (delete i (items s)).
Proof.
  intros Hs Hit. change (timeline_item_has_been_removed_at i (all_remote_events s)) with (lower i <$> all_remote_events s).
  rewrite (mapped_fmap _ (λ k, match Nat.compare k i with Eq => None | Gt => Some (k - 1) | Lt => Some k end))
    by (intros m _; (apply lower_id || apply lower_index)).
  pose proof (lookup_lt_Some _ _ _ Hit) as Hi.
  rewrite Hs, (remotes_from_split i) by lia. rewrite (drop_S _ _ _ Hit). cbn [remotes_from].
  rewrite delete_take_drop, remotes_from_app, length_take, Nat.min_l by lia.
  rewrite omap_app. cbn [Nat.add]. f_equal.
  - transitivity (omap Some (remotes_from 0 (take i (items s)))); [|by induction (remotes_from 0 (take i (items s))); cbn; f_equal].
    apply list_omap_ext_elem. intros p Hp%remotes_from_bounds. rewrite length_take in Hp.
    rewrite (proj2 (Nat.compare_lt_iff _ _)) by lia. by destruct p.
  - assert (Hhi : omap (λ p, pair p.1 <$> match Nat.compare p.2 i with Eq => None | Gt => Some (p.2 - 1) | Lt => Some p.2 end)
      (remotes_from (S i) (drop (S i) (items s))) = remotes_from i (drop (S i) (items s))).
    { rewrite (remotes_from_shift pred (S i) i) by done.
      transitivity (omap (λ p, Some (at_index pred p)) (remotes_from (S i) (drop (S i) (items s)))).
      - apply list_omap_ext_elem. intros p Hp%remotes_from_bounds.
        rewrite (proj2 (Nat.compare_gt_iff _ _)) by lia. cbn. unfold at_index. by rewrite Nat.sub_1_r.
      - by induction (remotes_from _ _); cbn; f_equal. }
    destruct (remote_id it); [|exact Hhi]. cbn. rewrite (proj2 (Nat.compare_eq_iff _ _)) by done. exact Hhi.
Qed.

Lemma remove_in_step i s it :
  in_step s → items s !! i = Some it →
  ∃ s', remove i s = Ret (it, s') ∧ in_step s' ∧ event_ids s' = event_ids s ∧ items s' = delete i (items s).
Proof.
  intros Hs Hit. unfold remove, vec_remove. rewrite Hit. eexists. split; [done|]. unfold in_step, event_ids. cbn.
  split; [by eapply remove_mapped|]. split; [|done].
  change (timeline_item_has_been_removed_at i (all_remote_events s)) with (lower i <$> all_remote_events s).
  rewrite <-list_fmap_compose. apply list_fmap_ext. intros k m _. apply lower_id.
Qed.

Lemma remotes_from_replace n i it it' l :
  l !! i = Some it → remote_id it' = remote_id it → remotes_from n (<[i := it']> l) = remotes_from n l.
Proof.
  revert n i. induction l as [|x l IH]; intros n [|i] Hi Hid; [done|done| |].
  - injection Hi as ->. cbn. by rewrite Hid.
  - cbn. cbn in Hi. by rewrite (IH _ _ Hi Hid).
Qed.

Lemma replace_in_step i s it it' :
  in_step s → items s !! i = Some it → remote_id it' = remote_id it →
  ∃ s', replace i it' s = Ret s' ∧ in_step s' ∧ event_ids s' = event_ids s ∧ items s' = <[i := it']> (items s).
Proof.
  intros Hs Hit Hid. unfold replace, vec_set. pose proof (lookup_lt_Some _ _ _ Hit) as Hi.
  rewrite (proj2 (Nat.ltb_lt _ _)) by done. eexists. split; [done|]. unfold in_step, event_ids. cbn.
  split; [|done]. by rewrite (remotes_from_replace _ _ _ _ _ Hit Hid).
Qed.

Lemma push_date_divider_insert i it s :
  is_date_divider it = true → i ≤ length (items s) →
  (i = 0 → size_of_start_region (items s) = 0) → push_date_divider i it s = insert i it None s.
Proof.
  intros Hd Hi Hstart. unfold push_date_divider. rewrite Hd. cbn [negb].
  assert (Hno : (i =? 0) && negb (length (items s) =? 0)
    && match items s !! i with Some first => is_timeline_start first | None => true end = false).
  { destruct (Nat.eqb_spec i 0) as [->|]; [|done]. specialize (Hstart eq_refl). unfold size_of_start_region in Hstart.
    destruct (items s) as [|x l]; [done|]. cbn in *. by destruct (is_timeline_start x). }
  rewrite Hno. destruct (Nat.eqb_spec i (length (items s))) as [->|]; [by rewrite push_back_insert|].
  destruct (Nat.eqb_spec i 0) as [->|]; [by rewrite push_front_insert|done].
Qed.
