(* ===== verification/DateDividers.v ===== *)
(** * Date dividers

    [client-ui/src/timeline/date_dividers.rs]: the algorithm that inserts,
    replaces and removes the date dividers of a timeline after its events have
    changed, and the invariants it checks afterwards. *)

From S2P Require Import Prelude TimelineItems.

Inductive DateDividerMode := Daily | Monthly | ModeNone.

#[export] Instance DateDividerMode_eq_dec : EqDecision DateDividerMode.
Proof. solve_decision. Defined.

Record Date := { year : Z; month : Z; day : Z }.

#[export] Instance Date_eq_dec : EqDecision Date.
Proof. solve_decision. Defined.

Definition is_same_month_as (a b : Date) : bool := bool_decide (year a = year b ∧ month a = month b).

(** The date of a timestamp in the local time zone, which the [chrono] crate and
    the clock of the machine decide. *)
Class LocalTime := { timestamp_to_date : Z → Date }.

Inductive DateDividerOperation :=
| Insert (i : nat) (ts : Z)
| Replace (i : nat) (ts : Z)
| Remove (i : nat).

Definition op_index (op : DateDividerOperation) : nat :=
  match op with Insert i _ | Replace i _ | Remove i => i end.

Record DateDividerAdjuster := {
  ops : list DateDividerOperation;
  consumed : bool;
  mode : DateDividerMode
}.

Definition new_adjuster (m : DateDividerMode) : DateDividerAdjuster :=
  {| ops := []; consumed := true; mode := m |}.

Definition mark_used (a : DateDividerAdjuster) : DateDividerAdjuster :=
  {| ops := ops a; consumed := false; mode := mode a |}.

Record PrevItemDesc := {
  item_index : nat;
  item : TimelineItem;
  insert_op_at : nat
}.

Inductive DateDividerInsertError :=
| FirstItemNotDateDivider
| DuplicateDateDivider (at_ : nat)
| TrailingDateDivider
| MissingDateDividerBetweenEvents (at_ : nat)
| MissingDateDividerBeforeEvent (at_ : nat)
| InconsistentDateAfterPreviousDateDivider (at_ : nat)
| ReadMarkerDisappeared.

Section adjuster.
Context {local_time : LocalTime}.

Definition is_same_date_divider_group_as (m : DateDividerMode) (lhs rhs : Z) : bool :=
  match m with
  | Daily => bool_decide (timestamp_to_date lhs = timestamp_to_date rhs)
  | Monthly => is_same_month_as (timestamp_to_date lhs) (timestamp_to_date rhs)
  | ModeNone => true
  end.

(** ** Recording the operations *)

(** Whether the divider is removed, and the operations recorded. *)
Definition handle_date_divider (m : DateDividerMode) (i : nat) (ts : Z) (prev_item : option TimelineItem)
    (ops : list DateDividerOperation) : bool * list DateDividerOperation :=
  match prev_item with
  | None => (false, ops)
  | Some prev =>
      match kind prev with
      | Event event =>
          if is_same_date_divider_group_as m (timestamp event) ts then (true, ops ++ [Remove i]) else (false, ops)
      | Virtual (DateDivider _) => (true, ops ++ [Remove i])
      | Virtual ReadMarker | Virtual TimelineStart => (false, ops)
      end
  end.

Definition handle_event (m : DateDividerMode) (i : nat) (ts : Z) (prev_item_desc : option PrevItemDesc)
    (latest_event_ts : option Z) (ops : list DateDividerOperation)
    : outcome Empty_set (list DateDividerOperation) :=
  match prev_item_desc with
  | None => Ret (ops ++ [Insert i ts])
  | Some desc =>
      match kind (item desc) with
      | Event prev_event =>
          if is_same_date_divider_group_as m (timestamp prev_event) ts then Ret ops else Ret (ops ++ [Insert i ts])
      | Virtual (DateDivider prev_ts) =>
          let event_date := timestamp_to_date ts in
          if bool_decide (timestamp_to_date prev_ts = event_date) then Ret ops
          else if match latest_event_ts with
                  | Some last_event_ts => bool_decide (timestamp_to_date last_event_ts = event_date)
                  | None => false
                  end
          then vec_insert (insert_op_at desc) (Remove (item_index desc)) ops
          else vec_insert (insert_op_at desc) (Replace (item_index desc) ts) ops
      | Virtual ReadMarker | Virtual TimelineStart => Ret ops
      end
  end.

(** The state of the first loop of [run]. *)
Record Analysis := {
  an_ops : list DateDividerOperation;
  prev_item : option PrevItemDesc;
  latest_event_ts : option Z
}.

Definition analyze_item (m : DateDividerMode) (a : Analysis) (i : nat) (it : TimelineItem)
    : outcome Empty_set Analysis :=
  match kind it with
  | Virtual (DateDivider ts) =>
      let '(removed, ops) := handle_date_divider m i ts (item <$> prev_item a) (an_ops a) in
      Ret {| an_ops := ops;
             prev_item :=
               if removed then prev_item a
               else Some {| item_index := i; item := it; insert_op_at := length ops |};
             latest_event_ts := latest_event_ts a |}
  | Event event =>
      let ts := timestamp event in
      let! ops := handle_event m i ts (prev_item a) (latest_event_ts a) (an_ops a) in
      Ret {| an_ops := ops;
             prev_item := Some {| item_index := i; item := it; insert_op_at := length ops |};
             latest_event_ts := Some ts |}
  | Virtual ReadMarker | Virtual TimelineStart => Ret a
  end.

Fixpoint analyze (m : DateDividerMode) (a : Analysis) (l : list (nat * TimelineItem)) : outcome Empty_set Analysis :=
  match l with
  | [] => Ret a
  | (i, it) :: l => let! a := analyze_item m a i it in analyze m a l
  end.

Definition is_removal_of (i : nat) (op : DateDividerOperation) : bool :=
  match op with Remove j => i =? j | _ => false end.

(** [position(|op| op.index() > i)], or the length. *)
Fixpoint position_above (i : nat) (ops : list DateDividerOperation) : nat :=
  match ops with
  | [] => 0
  | op :: ops => if i <? op_index op then 0 else S (position_above i ops)
  end.

(** The second loop of [run]; [l] is the list of items from the last to the first. *)
Fixpoint chase_trailing (l : list (nat * TimelineItem)) (ops : list DateDividerOperation)
    : outcome Empty_set (list DateDividerOperation) :=
  match l with
  | [] => Ret ops
  | (i, it) :: l =>
      let! ops :=
        (if is_date_divider it && negb (existsb (is_removal_of i) ops)
         then vec_insert (position_above i ops) (Remove i) ops
         else Ret ops) in
      if is_event it then Ret ops else chase_trailing l ops
  end.

(** ** Applying them *)

(** The state of the loop of [process_ops]. *)
Record Processing := {
  offset : Z;
  max_i : nat;
  pr_items : ObservableItems;
  pr_meta : TimelineMetadata
}.

Definition process_op (p : Processing) (op : DateDividerOperation) : outcome Empty_set Processing :=
  if op_index op <? max_i p then Panic
  else
    match op with
    | Insert i ts =>
        let at_ := Z.min (Z.of_nat i + offset p) (Z.of_nat (length (items (pr_items p)))) in
        if (at_ <? 0)%Z then Panic
        else
          let '(it, meta) := new_timeline_item (Virtual (DateDivider ts)) (pr_meta p) in
          let! s := push_date_divider (Z.to_nat at_) it (pr_items p) in
          Ret {| offset := offset p + 1; max_i := i; pr_items := s; pr_meta := meta |}
    | Replace i ts =>
        let at_ := (Z.of_nat i + offset p)%Z in
        if (at_ <? 0)%Z then Panic
        else
          match items (pr_items p) !! Z.to_nat at_ with
          | None => Panic
          | Some replaced =>
              let it := {| kind := Virtual (DateDivider ts); internal_id := internal_id replaced |} in
              let! s := replace (Z.to_nat at_) it (pr_items p) in
              Ret {| offset := offset p; max_i := i; pr_items := s; pr_meta := pr_meta p |}
          end
    | Remove i =>
        let at_ := (Z.of_nat i + offset p)%Z in
        if (at_ <? 0)%Z then Panic
        else
          let! (_, s) := remove (Z.to_nat at_) (pr_items p) in
          Ret {| offset := offset p - 1; max_i := i; pr_items := s; pr_meta := pr_meta p |}
    end.

Fixpoint process_loop (ops : list DateDividerOperation) (p : Processing) : outcome Empty_set Processing :=
  match ops with
  | [] => Ret p
  | op :: ops => let! p := process_op p op in process_loop ops p
  end.

Definition process_ops (ops : list DateDividerOperation) (s : ObservableItems) (meta : TimelineMetadata)
    : outcome Empty_set (ObservableItems * TimelineMetadata) :=
  let! p := process_loop ops {| offset := 0; max_i := 0; pr_items := s; pr_meta := meta |} in
  Ret (pr_items p, pr_meta p).

(** ** Checking the invariants *)

(** 1. The timeline starts with a date divider, if it is not only virtual items. *)
Fixpoint check_first (l : list TimelineItem) : list DateDividerInsertError :=
  match l with
  | [] => []
  | it :: l =>
      match as_virtual it with
      | Some (DateDivider _) => []
      | Some _ => check_first l
      | None => [FirstItemNotDateDivider]
      end
  end.

(** 2. There are no two date dividers following each other. *)
Fixpoint check_following (prev_was_date_divider : bool) (l : list (nat * TimelineItem))
    : list DateDividerInsertError :=
  match l with
  | [] => []
  | (i, it) :: l =>
      if is_date_divider it
      then (if prev_was_date_divider then [DuplicateDateDivider i] else []) ++ check_following true l
      else check_following false l
  end.

(** 3. There is no trailing date divider. *)
Definition check_trailing (l : list TimelineItem) : list DateDividerInsertError :=
  match last l with
  | Some it => if is_date_divider it then [TrailingDateDivider] else []
  | None => []
  end.

(** 4. Items are properly separated with date dividers. *)
Fixpoint check_separated (m : DateDividerMode) (prev_event_ts prev_date_divider_ts : option Z)
    (l : list (nat * TimelineItem)) : list DateDividerInsertError :=
  match l with
  | [] => []
  | (i, it) :: l =>
      match kind it with
      | Event ev =>
          let ts := timestamp ev in
          (match prev_event_ts with
           | Some prev_ts =>
               if is_same_date_divider_group_as m prev_ts ts then [] else [MissingDateDividerBetweenEvents i]
           | None => []
           end)
          ++ (match prev_date_divider_ts with
              | Some prev_ts =>
                  if is_same_date_divider_group_as m prev_ts ts then []
                  else [InconsistentDateAfterPreviousDateDivider i]
              | None => [MissingDateDividerBeforeEvent i]
              end)
          ++ check_separated m (Some ts) prev_date_divider_ts l
      | Virtual (DateDivider ts) =>
          (match prev_date_divider_ts with
           | Some prev_ts => if is_same_date_divider_group_as m prev_ts ts then [DuplicateDateDivider i] else []
           | None => []
           end)
          ++ check_separated m None (Some ts) l
      | Virtual ReadMarker | Virtual TimelineStart =>
          check_separated m prev_event_ts prev_date_divider_ts l
      end
  end.

(** The errors of the report; [initial_state] is recorded at the trace level only. *)
Definition check_invariants (m : DateDividerMode) (s : ObservableItems) (initial_state : option (list TimelineItem))
    : list DateDividerInsertError :=
  let regions := iter_remotes_and_locals_regions s in
  check_first (drop (first_remotes_region_index s) (items s))
  ++ check_following false regions
  ++ check_trailing (items s)
  ++ check_separated m None None regions
  ++ match initial_state with
     | Some state =>
         if existsb is_read_marker state && negb (existsb (λ '(_, it), is_read_marker it) regions)
         then [ReadMarkerDisappeared] else []
     | None => []
     end.

(** ** Running the adjuster *)

(** [debug_assertions] is whether the build has them: a violated invariant then
    panics, and is logged otherwise. *)
Definition remove_all_date_dividers (debug_assertions : bool) (a : DateDividerAdjuster) (s : ObservableItems)
    (meta : TimelineMetadata) : outcome Empty_set (DateDividerAdjuster * ObservableItems * TimelineMetadata) :=
  let ops :=
    ops a ++ omap (λ '(i, it), if is_date_divider it then Some (Remove i) else None)
                  (iter_remotes_and_locals_regions s) in
  let! (s, meta) := process_ops ops s meta in
  if existsb (λ '(_, it), is_date_divider it) (iter_remotes_and_locals_regions s) && debug_assertions then Panic
  else Ret ({| ops := ops; consumed := true; mode := mode a |}, s, meta).

(** [trace] is whether the trace level is enabled. *)
Definition run (debug_assertions trace : bool) (a : DateDividerAdjuster) (s : ObservableItems)
    (meta : TimelineMetadata) : outcome Empty_set (DateDividerAdjuster * ObservableItems * TimelineMetadata) :=
  match mode a with
  | ModeNone => remove_all_date_dividers debug_assertions a s meta
  | _ =>
      let regions := iter_remotes_and_locals_regions s in
      let! an := analyze (mode a) {| an_ops := ops a; prev_item := None; latest_event_ts := None |} regions in
      let! ops := chase_trailing (reverse regions) (an_ops an) in
      let initial_state := if trace then Some (snd <$> regions) else None in
      let! (s, meta) := process_ops ops s meta in
      match check_invariants (mode a) s initial_state with
      | [] => Ret ({| ops := []; consumed := true; mode := mode a |}, s, meta)
      | _ =>
          if debug_assertions then Panic
          else Ret ({| ops := []; consumed := true; mode := mode a |}, s, meta)
      end
  end.

End adjuster.
