(* ===== verification/DateDividersSpec.v ===== *)
(** * The date dividers are where they should be

    [run] of [DateDividers] against a declarative account of a well-divided
    timeline: each run of events of the same day is opened by one divider of
    that day, and there is no other divider.  The recorded operations are
    related to the edit they stand for, index by index of the original items. *)

From S2P Require Import Prelude TimelineItems DateDividers.

(** ** The edit a list of operations stands for *)

Fixpoint op_at (ops : list DateDividerOperation) (n : nat) : option DateDividerOperation :=
  match ops with
  | [] => None
  | op :: ops => if op_index op =? n then Some op else op_at ops n
  end.

Definition edit_kind (o : option DateDividerOperation) (k : TimelineItemKind) : list TimelineItemKind :=
  match o with
  | None => [k]
  | Some (Insert _ ts) => [Virtual (DateDivider ts); k]
  | Some (Replace _ ts) => [Virtual (DateDivider ts)]
  | Some (Remove _) => []
  end.

Fixpoint edit (ops : list DateDividerOperation) (n : nat) (l : list TimelineItem) : list TimelineItemKind :=
  match l with
  | [] => []
  | it :: l => edit_kind (op_at ops n) (kind it) ++ edit ops (S n) l
  end.

Lemma op_at_app ops1 ops2 n :
  op_at (ops1 ++ ops2) n = match op_at ops1 n with Some op => Some op | None => op_at ops2 n end.
Proof. induction ops1 as [|op ops1 IH]; [done|]. cbn. by destruct (op_index op =? n). Qed.

Lemma op_at_none ops n : (∀ op, op ∈ ops → op_index op ≠ n) → op_at ops n = None.
Proof.
  induction ops as [|op ops IH]; intros Hops; [done|]. cbn.
  rewrite (proj2 (Nat.eqb_neq _ _)) by (apply Hops; by left). apply IH. intros op' Hop. apply Hops. by right.
Qed.

Lemma edit_app ops n l1 l2 : edit ops n (l1 ++ l2) = edit ops n l1 ++ edit ops (n + length l1) l2.
Proof.
  revert n. induction l1 as [|it l1 IH]; intros n; cbn; [by rewrite Nat.add_0_r|].
  by rewrite IH, <-plus_n_Sm, (assoc_L (++)).
Qed.

Lemma edit_ext ops1 ops2 n l :
  (∀ k, n ≤ k < n + length l → op_at ops1 k = op_at ops2 k) → edit ops1 n l = edit ops2 n l.
Proof.
  revert n. induction l as [|it l IH]; intros n Hk; [done|]. cbn in *. rewrite (Hk n) by lia. f_equal.
  apply IH. intros k ?. apply Hk. lia.
Qed.

Lemma edit_none ops n l : (∀ op, op ∈ ops → op_index op < n ∨ n + length l ≤ op_index op) → edit ops n l = kind <$> l.
Proof.
  intros Hops. rewrite (edit_ext ops [] n l).
  - clear Hops. revert n. induction l as [|it l IH]; intros n; [done|]. cbn. by rewrite IH.
  - intros k Hk. rewrite op_at_none; [done|]. intros op Hop <-. specialize (Hops op Hop). lia.
Qed.

(** ** Applying the operations *)

(** An operation applies to the item at its index: dividers are inserted before
    events, and dividers are replaced and removed. *)
Definition op_fits (l : list TimelineItem) (op : DateDividerOperation) : Prop :=
  ∃ it, l !! op_index op = Some it ∧
    match op with Insert _ _ => is_event it = true | Replace _ _ | Remove _ => is_date_divider it = true end.

Definition ops_ok (l : list TimelineItem) (ops : list DateDividerOperation) : Prop :=
  StronglySorted lt (op_index <$> ops) ∧ Forall (op_fits l) ops.

Definition not_divider (it : TimelineItem) : Prop := is_date_divider it = false.

#[local] Instance not_divider_dec it : Decision (not_divider it).
Proof. unfold not_divider. apply _. Defined.

Lemma divider_not_remote it : is_date_divider it = true → remote_id it = None.
Proof. unfold is_date_divider, remote_id, as_event. by destruct (kind it). Qed.

Lemma divider_place i it l : is_date_divider it = true → place_for i it None l.
Proof. intros Hd. unfold place_for. by rewrite divider_not_remote. Qed.

(** What the loop of [process_ops] has done before the operations that are left:
    the items before position [n] of the original ones have become [D]. *)
Record processed (l : list TimelineItem) (ids : list string) (n : nat) (D : list TimelineItem) (p : Processing) : Prop := {
  done_items : items (pr_items p) = D ++ drop n l;
  done_offset : offset p = (Z.of_nat (length D) - Z.of_nat n)%Z;
  done_max : max_i p ≤ n;
  done_le : n ≤ length l;
  done_step : in_step (pr_items p);
  done_ids : event_ids (pr_items p) = ids
}.

Lemma take_drop_at {A} (l : list A) n i x :
  n ≤ i → l !! i = Some x → drop n l = take (i - n) (drop n l) ++ x :: drop (S i) l.
Proof.
  intros Hn Hx. rewrite <-(take_drop (i - n) (drop n l)) at 1. rewrite drop_drop.
  replace (n + (i - n)) with i by lia. by rewrite (drop_S _ _ _ Hx).
Qed.

Lemma length_take_drop_at {A} (l : list A) n i x :
  n ≤ i → l !! i = Some x → length (take (i - n) (drop n l)) = i - n.
Proof. intros Hn Hx%lookup_lt_Some. rewrite length_take, length_drop. lia. Qed.

Definition op_divider (op : DateDividerOperation) : list TimelineItemKind :=
  match op with Insert _ ts | Replace _ ts => [Virtual (DateDivider ts)] | Remove _ => [] end.

Definition op_next (op : DateDividerOperation) : nat :=
  match op with Insert i _ => i | Replace i _ | Remove i => S i end.

Lemma processed_at l ids n D p i x :
  processed l ids n D p → n ≤ i → l !! i = Some x →
  items (pr_items p) = (D ++ take (i - n) (drop n l)) ++ x :: drop (S i) l ∧
  (Z.of_nat i + offset p)%Z = Z.of_nat (length (D ++ take (i - n) (drop n l))).
Proof.
  intros [Hi Ho _ _ _ _] Hn Hx. rewrite Hi, Ho. split.
  - rewrite (take_drop_at l n i x) at 1 by done. by rewrite (assoc_L (++)).
  - rewrite length_app, (length_take_drop_at l n i x) by done. lia.
Qed.

Lemma filter_divider (D mid : list TimelineItem) it :
  is_date_divider it = true →
  filter not_divider ((D ++ mid) ++ [it]) = filter not_divider D ++ filter not_divider mid.
Proof.
  intros Hd. rewrite !filter_app. rewrite (filter_cons_False not_divider) by (unfold not_divider; congruence).
  by rewrite app_nil_r.
Qed.

Lemma process_insert l ids n D p i ts :
  processed l ids n D p → n ≤ i → op_fits l (Insert i ts) →
  ∃ p' it, process_op p (Insert i ts) = Ret p' ∧ kind it = Virtual (DateDivider ts) ∧
    processed l ids i ((D ++ take (i - n) (drop n l)) ++ [it]) p'.
Proof.
  intros Hp Hn (x & Hx & Hev). destruct (processed_at _ _ _ _ _ _ _ Hp Hn Hx) as [Hit Hoff]. cbn in Hx.
  unfold process_op. cbn [op_index]. pose proof (lookup_lt_Some _ _ _ Hx) as Hlt.
  rewrite (proj2 (Nat.ltb_ge _ _)) by (pose proof (done_max _ _ _ _ _ Hp); lia).
  set (P := D ++ take (i - n) (drop n l)) in *. rewrite Hoff.
  rewrite Z.min_l by (rewrite Hit, length_app; lia). rewrite (proj2 (Z.ltb_ge _ _)) by lia. rewrite Nat2Z.id.
  cbn -[push_date_divider]. set (it := {| kind := _; internal_id := _ |}).
  destruct (insert_in_step (length P) it None (pr_items p)) as (s' & Hins & Hs' & Hids & Hitems).
  { apply Hp. } { rewrite Hit, length_app. lia. } { by apply divider_place. }
  rewrite push_date_divider_insert; [|done|rewrite Hit, length_app; lia|].
  - rewrite Hins. cbn. eexists _, it. split; [done|]. split; [done|]. split; cbn.
    + rewrite Hitems, Hit. rewrite take_app_length, drop_app_length, (drop_S _ _ _ Hx).
      by rewrite <-(assoc_L (++)).
    + rewrite length_app. cbn. lia.
    + lia.
    + lia.
    + done.
    + rewrite Hids. apply Hp.
  - intros HP%length_zero_iff_nil. rewrite Hit, HP. cbn. unfold is_event in Hev. unfold is_timeline_start.
    by destruct (kind x).
Qed.

Lemma process_replace l ids n D p i ts :
  processed l ids n D p → n ≤ i → op_fits l (Replace i ts) →
  ∃ p' it, process_op p (Replace i ts) = Ret p' ∧ kind it = Virtual (DateDivider ts) ∧
    processed l ids (S i) ((D ++ take (i - n) (drop n l)) ++ [it]) p'.
Proof.
  intros Hp Hn (x & Hx & Hd). destruct (processed_at _ _ _ _ _ _ _ Hp Hn Hx) as [Hit Hoff]. cbn in Hx.
  unfold process_op. cbn [op_index]. pose proof (lookup_lt_Some _ _ _ Hx) as Hlt.
  rewrite (proj2 (Nat.ltb_ge _ _)) by (pose proof (done_max _ _ _ _ _ Hp); lia).
  set (P := D ++ take (i - n) (drop n l)) in *. rewrite Hoff.
  rewrite (proj2 (Z.ltb_ge _ _)) by lia. rewrite Nat2Z.id.
  assert (Hat : items (pr_items p) !! length P = Some x) by (rewrite Hit; by apply list_lookup_middle).
  rewrite Hat. set (it := {| kind := _; internal_id := _ |}).
  destruct (replace_in_step (length P) (pr_items p) x it) as (s' & Hrep & Hs' & Hids & Hitems).
  { apply Hp. } { done. } { rewrite (divider_not_remote x Hd). by apply divider_not_remote. }
  rewrite Hrep. eexists _, it. split; [done|]. split; [done|]. split; cbn.
  - rewrite Hitems, Hit. replace (length P) with (length P + 0) by lia. rewrite insert_app_r. cbn.
    by rewrite <-(assoc_L (++)).
  - rewrite length_app. cbn. pose proof (done_offset _ _ _ _ _ Hp). lia.
  - lia.
  - lia.
  - done.
  - rewrite Hids. apply Hp.
Qed.

Lemma process_remove l ids n D p i :
  processed l ids n D p → n ≤ i → op_fits l (Remove i) →
  ∃ p', process_op p (Remove i) = Ret p' ∧ processed l ids (S i) (D ++ take (i - n) (drop n l)) p'.
Proof.
  intros Hp Hn (x & Hx & Hd). destruct (processed_at _ _ _ _ _ _ _ Hp Hn Hx) as [Hit Hoff]. cbn in Hx.
  unfold process_op. cbn [op_index]. pose proof (lookup_lt_Some _ _ _ Hx) as Hlt.
  rewrite (proj2 (Nat.ltb_ge _ _)) by (pose proof (done_max _ _ _ _ _ Hp); lia).
  set (P := D ++ take (i - n) (drop n l)) in *. rewrite Hoff.
  rewrite (proj2 (Z.ltb_ge _ _)) by lia. rewrite Nat2Z.id.
  assert (Hat : items (pr_items p) !! length P = Some x) by (rewrite Hit; by apply list_lookup_middle).
  destruct (remove_in_step (length P) (pr_items p) x) as (s' & Hrem & Hs' & Hids & Hitems); [apply Hp|done|].
  rewrite Hrem. eexists. split; [done|]. split; cbn.
  - rewrite Hitems, Hit, delete_middle. done.
  - pose proof (done_offset _ _ _ _ _ Hp). lia.
  - lia.
  - lia.
  - done.
  - rewrite Hids. apply Hp.
Qed.

Lemma process_op_spec l ids n D p op :
  processed l ids n D p → n ≤ op_index op → op_fits l op →
  ∃ p' D', process_op p op = Ret p' ∧ processed l ids (op_next op) D' p' ∧
    kind <$> D' = (kind <$> D) ++ (kind <$> take (op_index op - n) (drop n l)) ++ op_divider op ∧
    filter not_divider D' = filter not_divider D ++ filter not_divider (take (op_index op - n) (drop n l)).
Proof.
  intros Hp Hn Hfit. destruct op as [i ts|i ts|i]; cbn [op_index op_next op_divider] in *.
  - destruct (process_insert _ _ _ _ _ _ _ Hp Hn Hfit) as (p' & it & -> & Hk & Hp').
    eexists _, _. split; [done|]. split; [done|]. rewrite filter_divider by (unfold is_date_divider; by rewrite Hk).
    split; [|done]. rewrite !fmap_app. cbn. by rewrite Hk, (assoc_L (++)).
  - destruct (process_replace _ _ _ _ _ _ _ Hp Hn Hfit) as (p' & it & -> & Hk & Hp').
    eexists _, _. split; [done|]. split; [done|]. rewrite filter_divider by (unfold is_date_divider; by rewrite Hk).
    split; [|done]. rewrite !fmap_app. cbn. by rewrite Hk, (assoc_L (++)).
  - destruct (process_remove _ _ _ _ _ _ Hp Hn Hfit) as (p' & -> & Hp').
    eexists _, _. split; [done|]. split; [done|]. by rewrite !fmap_app, filter_app, app_nil_r.
Qed.

Lemma op_next_bounds op : op_index op ≤ op_next op ≤ S (op_index op).
Proof. destruct op; cbn; lia. Qed.

(** The edit of the items from [n] on, up to and past the first operation. *)
Lemma edit_first l n op ops x :
  n ≤ op_index op → l !! op_index op = Some x → (∀ op', op' ∈ ops → op_index op < op_index op') →
  edit (op :: ops) n (drop n l) =
    (kind <$> take (op_index op - n) (drop n l)) ++ op_divider op ++ edit ops (op_next op) (drop (op_next op) l).
Proof.
  intros Hn Hx Hops. rewrite (take_drop_at l n (op_index op) x) at 1 by done.
  rewrite edit_app, (length_take_drop_at l n (op_index op) x) by done.
  replace (n + (op_index op - n)) with (op_index op) by lia. rewrite edit_none.
  2:{ intros op' Hop'. rewrite (length_take_drop_at l n (op_index op) x) by done. right.
      apply elem_of_cons in Hop' as [->|Hop']; [lia|]. apply Hops in Hop'. lia. }
  f_equal. cbn [edit op_at]. rewrite Nat.eqb_refl.
  rewrite (edit_ext (op :: ops) ops) by (intros k Hk; cbn; by rewrite (proj2 (Nat.eqb_neq _ _)) by lia).
  destruct op as [i ts|i ts|i]; cbn in *; [|done..]. rewrite (drop_S _ _ _ Hx). cbn. rewrite op_at_none; [done|].
  intros op' Hop'. apply Hops in Hop'. lia.
Qed.

Lemma process_loop_spec l ids ops : ops_ok l ops → ∀ n D p,
  processed l ids n D p → (∀ op, op ∈ ops → n ≤ op_index op) →
  ∃ p', process_loop ops p = Ret p' ∧ in_step (pr_items p') ∧ event_ids (pr_items p') = ids ∧
    kind <$> items (pr_items p') = (kind <$> D) ++ edit ops n (drop n l) ∧
    filter not_divider (items (pr_items p')) = filter not_divider (D ++ drop n l).
Proof.
  induction ops as [|op ops IH]; intros [Hsort Hfit] n D p Hp Hn.
  { exists p. split; [done|]. destruct Hp as [Hi _ _ _ Hs Hids]. rewrite Hi. split_and!; try done.
    rewrite fmap_app. f_equal. symmetry. apply edit_none. intros op Hop. by apply elem_of_nil in Hop. }
  cbn in Hsort. apply StronglySorted_inv in Hsort as [Hsort Hlt]. apply Forall_cons in Hfit as [Hop Hfit].
  rewrite Forall_fmap, Forall_forall in Hlt.
  assert (Hn0 : n ≤ op_index op) by (apply Hn; by left).
  destruct (process_op_spec _ _ _ _ _ _ Hp Hn0 Hop) as (p1 & D1 & Hstep & Hp1 & HD1 & Hf1).
  destruct Hop as (x & Hx & Hkind). pose proof (op_next_bounds op) as Hnext.
  destruct (IH (conj Hsort Hfit) _ _ _ Hp1) as (p' & Hloop & Hs & Hids & Hk & Hf).
  { intros op' Hop'. apply Hlt in Hop'. cbn in Hop'. lia. }
  exists p'. cbn [process_loop]. rewrite Hstep. split_and!; try done.
  - rewrite Hk, HD1, (edit_first l n op ops x) by (try done; intros op' Hop'; by apply Hlt in Hop').
    by rewrite <-!(assoc_L (++)).
  - rewrite Hf, !filter_app, Hf1. rewrite <-(assoc_L (++)). f_equal.
    rewrite (take_drop_at l n (op_index op) x) at 2 by done. rewrite filter_app. f_equal.
    destruct op as [i ts|i ts|i]; cbn [op_index op_next] in *; [by rewrite (drop_S _ _ _ Hx)|..];
      by rewrite filter_cons_False by (unfold not_divider; congruence).
Qed.

(** The operations of [process_ops] do not panic, do what they stand for and
    leave everything but dividers alone. *)
Lemma process_ops_spec ops s meta :
  in_step s → ops_ok (items s) ops →
  ∃ s' meta', process_ops ops s meta = Ret (s', meta') ∧ in_step s' ∧ event_ids s' = event_ids s ∧
    kind <$> items s' = edit ops 0 (items s) ∧
    filter not_divider (items s') = filter not_divider (items s).
Proof.
  intros Hs Hops. unfold process_ops. set (p := {| offset := _ |}).
  destruct (process_loop_spec (items s) (event_ids s) ops Hops 0 [] p) as (p' & -> & ? & ? & Hk & Hf).
  { split; cbn; try done. lia. } { lia. }
  eexists _, _. split; [done|]. done.
Qed.

(** ** Well-divided timelines *)

Section scan.
Context {local_time : LocalTime} (m : DateDividerMode).

Notation same := (is_same_date_divider_group_as m).

Lemma same_refl a : same a a = true.
Proof. destruct m; cbn; [|unfold is_same_month_as|done]; by apply bool_decide_eq_true. Qed.

Lemma same_sym a b : same a b = same b a.
Proof.
  destruct m; cbn; [|unfold is_same_month_as|done]; apply bool_decide_ext; naive_solver.
Qed.

Lemma same_trans a b c : same a b = true → same b c = same a c.
Proof.
  destruct m; cbn; [|unfold is_same_month_as|done]; rewrite bool_decide_eq_true; intros Hab; apply bool_decide_ext; naive_solver congruence.
Qed.

Lemma date_same a b : timestamp_to_date a = timestamp_to_date b → same a b = true.
Proof. intros Heq. destruct m; cbn; [|unfold is_same_month_as|done]; apply bool_decide_eq_true; rewrite Heq; done. Qed.

(** Reading the items in order: the timestamp of the last event, and of the divider
    that is waiting for its first event.  [None] is a timeline that is not well divided:
    a divider follows another one or repeats the date of the event before it, or an
    event has no divider of its date. *)
Definition scan_step (st : option Z * option Z) (k : TimelineItemKind) : option (option Z * option Z) :=
  match k with
  | Event e =>
      let ts := timestamp e in
      match st.2, st.1 with
      | Some d, _ => if same d ts then Some (Some ts, None) else None
      | None, Some p => if same p ts then Some (Some ts, None) else None
      | None, None => None
      end
  | Virtual (DateDivider ts) =>
      match st.2, st.1 with
      | Some _, _ => None
      | None, Some p => if same p ts then None else Some (st.1, Some ts)
      | None, None => Some (st.1, Some ts)
      end
  | Virtual ReadMarker | Virtual TimelineStart => Some st
  end.

Fixpoint scan (st : option Z * option Z) (ks : list TimelineItemKind) : option (option Z * option Z) :=
  match ks with [] => Some st | k :: ks => scan_step st k ≫= λ st, scan st ks end.

Definition well_divided (ks : list TimelineItemKind) : Prop := ∃ latest, scan (None, None) ks = Some (latest, None).

Lemma scan_app st ks1 ks2 : scan st (ks1 ++ ks2) = scan st ks1 ≫= λ st, scan st ks2.
Proof. revert st. induction ks1 as [|k ks1 IH]; intros st; [done|]. cbn. destruct (scan_step st k); [apply IH|done]. Qed.

(** *** Well-divided timelines pass the checks *)

Lemma scan_check_first st l st' : st.1 = None → st.2 = None → scan st (kind <$> l) = Some st' → check_first l = [].
Proof.
  destruct st as [latest pending]. cbn. intros -> ->. induction l as [|it l IH]; [done|]. cbn. unfold as_virtual.
  by destruct (kind it) as [e|[ts| |]]; cbn.
Qed.

Lemma scan_check_following st b (l : list (nat * TimelineItem)) st' :
  (b = true → st.2 ≠ None) → scan st (kind <$> l.*2) = Some st' → check_following b l = [].
Proof.
  revert st b. induction l as [|[i it] l IH]; intros [latest pending] b Hb Hscan; [done|]. cbn in *. unfold is_date_divider.
  destruct (kind it) as [e|[ts| |]]; cbn in *.
  - apply bind_Some in Hscan as (st & _ & Hscan). by eapply IH.
  - destruct pending as [d|]; [done|]. destruct b; [by destruct (Hb eq_refl)|]. cbn.
    apply bind_Some in Hscan as (st & Hst & Hscan). eapply IH; [|done]. intros _.
    destruct latest as [p|]; [destruct (same p ts)|]; by simplify_eq/=.
  - by eapply IH.
  - by eapply IH.
Qed.

Lemma scan_check_trailing st l latest : scan st (kind <$> l) = Some (latest, None) → check_trailing l = [].
Proof.
  unfold check_trailing. destruct (last l) as [it|] eqn:Hl; [|done].
  apply last_Some in Hl as [l' ->]. rewrite fmap_app, scan_app. intros (st1 & _ & Hst)%bind_Some. cbn in Hst.
  unfold is_date_divider. destruct (kind it) as [e|[ts| |]]; [done| |done..]. exfalso.
  apply bind_Some in Hst as (st2 & Hst2 & [= ->]). destruct st1 as [[p|] [d|]]; cbn in Hst2; try done.
  by destruct (same p ts).
Qed.

(** What [check_separated] remembers, against what [scan] does. *)
Definition remembers (st : option Z * option Z) (prev_event prev_divider : option Z) : Prop :=
  match st with
  | (_, Some d) => prev_event = None ∧ prev_divider = Some d
  | (Some p, None) => prev_event = Some p ∧ ∃ d, prev_divider = Some d ∧ same d p = true
  | (None, None) => prev_event = None ∧ prev_divider = None
  end.

Lemma scan_check_separated st pe pd (l : list (nat * TimelineItem)) st' :
  remembers st pe pd → scan st (kind <$> l.*2) = Some st' → check_separated m pe pd l = [].
Proof.
  revert st pe pd. induction l as [|[i it] l IH]; intros st pe pd Hr Hscan; [done|]. cbn in *.
  destruct (kind it) as [e|[ts| |]]; cbn in *.
  - apply bind_Some in Hscan as (st1 & Hst1 & Hscan).
    destruct st as [[p|] [d|]]; cbn in *; [..|done]; destruct Hr as [-> Hr].
    + subst pd. destruct (same d (timestamp e)) eqn:Hs; simplify_eq/=. eapply IH; [|done]. cbn. eauto.
    + destruct Hr as (d & -> & Hd). destruct (same p (timestamp e)) eqn:Hs; simplify_eq/=.
      rewrite <-(same_trans d p) by done. rewrite Hs. cbn. eapply IH; [|done]. cbn. split; [done|]. exists d. split; [done|].
      by rewrite <-(same_trans d p).
    + subst pd. destruct (same d (timestamp e)) eqn:Hs; simplify_eq/=. eapply IH; [|done]. cbn. eauto.
  - apply bind_Some in Hscan as (st1 & Hst1 & Hscan).
    destruct st as [[p|] [d|]]; cbn in *; try done; destruct Hr as [-> Hr].
    + destruct Hr as (d & -> & Hd). destruct (same p ts) eqn:Hs; simplify_eq/=.
      rewrite <-(same_trans d p) by done. rewrite Hs. cbn. eapply IH; [|exact Hscan]. done.
    + subst pd. simplify_eq/=. eapply IH; [|exact Hscan]. done.
  - by eapply IH.
  - by eapply IH.
Qed.

(** *** The operations in order *)

Lemma ops_ok_mid l ops1 op ops2 :
  ops_ok l (ops1 ++ ops2) → op_fits l op →
  (∀ o, o ∈ ops1 → op_index o < op_index op) → (∀ o, o ∈ ops2 → op_index op < op_index o) →
  ops_ok l (ops1 ++ op :: ops2).
Proof.
  intros [Hs Hf] Hop H1 H2. rewrite fmap_app, StronglySorted_app in Hs. destruct Hs as (Hb & Hs1 & Hs2).
  apply Forall_app in Hf as [Hf1 Hf2]. split; [|apply Forall_app; split; [done|by constructor]].
  rewrite fmap_app, fmap_cons. apply StronglySorted_app_2; [|done|].
  - intros x y (o & -> & Ho)%list_elem_of_fmap Hy. apply elem_of_cons in Hy as [->|Hy]; [by apply H1|].
    apply Hb; [by apply list_elem_of_fmap_2|done].
  - constructor; [done|]. apply Forall_fmap, Forall_forall. intros o Ho. by apply H2.
Qed.

Lemma ops_ok_snoc l ops op :
  ops_ok l ops → op_fits l op → (∀ o, o ∈ ops → op_index o < op_index op) → ops_ok l (ops ++ [op]).
Proof. intros Hok Hop Hlt. apply ops_ok_mid; [by rewrite app_nil_r|done..|]. intros o Ho. by apply elem_of_nil in Ho. Qed.

Lemma op_at_elem l ops op n : ops_ok l ops → op ∈ ops → op_index op = n → op_at ops n = Some op.
Proof.
  intros [Hs _] Hop <-. revert Hop. induction ops as [|o ops IH]; [by intros ?%elem_of_nil|]. cbn in *.
  apply StronglySorted_inv in Hs as [Hs Hlt]. intros [->|Hop]%elem_of_cons; [by rewrite Nat.eqb_refl|].
  rewrite Forall_fmap, Forall_forall in Hlt. rewrite (proj2 (Nat.eqb_neq _ _)) by (apply Hlt in Hop; cbn in Hop; lia). auto.
Qed.

Lemma op_at_Some ops n op : op_at ops n = Some op → op ∈ ops ∧ op_index op = n.
Proof.
  induction ops as [|o ops IH]; cbn; [done|]. destruct (Nat.eqb_spec (op_index o) n) as [<-|Hne].
  - intros [= ->]. split; [by left|done].
  - intros Hop. destruct (IH Hop). split; [by right|done].
Qed.

(** An item that is neither an event nor a divider has no operation. *)
Lemma op_at_other l ops n it :
  ops_ok l ops → l !! n = Some it → is_event it = false → is_date_divider it = false → op_at ops n = None.
Proof.
  intros [_ Hf] Hit He Hd. apply op_at_none. intros op Hop Hn. rewrite Forall_forall in Hf.
  destruct (Hf op Hop) as (it' & Hit' & Hk). rewrite Hn, Hit in Hit'. injection Hit' as <-. destruct op; congruence.
Qed.

Lemma edit_take_S ops l n x :
  l !! n = Some x → edit ops 0 (take (S n) l) = edit ops 0 (take n l) ++ edit_kind (op_at ops n) (kind x).
Proof.
  intros Hx. rewrite (take_S_r _ _ _ Hx), edit_app. cbn. rewrite app_nil_r. do 3 f_equal.
  rewrite length_take. apply lookup_lt_Some in Hx. lia.
Qed.

Lemma edit_take_mid ops1 op ops2 l n :
  n ≤ op_index op → edit (ops1 ++ op :: ops2) 0 (take n l) = edit (ops1 ++ ops2) 0 (take n l).
Proof.
  intros Hn. apply edit_ext. intros k Hk. rewrite length_take in Hk. rewrite !op_at_app. cbn.
  by rewrite (proj2 (Nat.eqb_neq _ _)) by lia.
Qed.

Lemma edit_take_snoc ops op l n : n ≤ op_index op → edit (ops ++ [op]) 0 (take n l) = edit ops 0 (take n l).
Proof. intros Hn. by rewrite edit_take_mid, app_nil_r. Qed.

(** Items that are removed, or neither events nor dividers, change nothing. *)
Lemma scan_neutral ops n l st :
  (∀ i it, l !! i = Some it → is_event it = false ∧
     match op_at ops (n + i) with
     | Some (Remove _) => True
     | None => is_date_divider it = false
     | _ => False
     end) →
  scan st (edit ops n l) = Some st.
Proof.
  revert n st. induction l as [|it l IH]; intros n st Hl; [done|]. cbn. rewrite scan_app.
  destruct (Hl 0 it) as [He Hop]; [done|]. rewrite Nat.add_0_r in Hop.
  assert (Htl : ∀ st, scan st (edit ops (S n) l) = Some st).
  { intros st'. apply IH. intros i it' Hi. specialize (Hl (S i) it' Hi). by rewrite <-plus_n_Sm in Hl. }
  destruct (op_at ops n) as [[| |]|]; try done; cbn; [by rewrite Htl|].
  unfold is_event, is_date_divider in *. by destruct (kind it) as [|[| |]]; cbn; rewrite ?Htl.
Qed.

(** *** The first loop *)

(** The events of the same group as one another are of the same date; so it is in
    the daily mode, whatever the events. *)
Definition groups_are_dates (l : list TimelineItem) : Prop :=
  ∀ i j it it' e e', l !! i = Some it → l !! j = Some it' → kind it = Event e → kind it' = Event e' →
    same (timestamp e) (timestamp e') = true → timestamp_to_date (timestamp e) = timestamp_to_date (timestamp e').

Definition pending (a : Analysis) : option nat :=
  match prev_item a with
  | Some d => if is_date_divider (item d) then Some (item_index d) else None
  | None => None
  end.

Definition no_event_in (l : list TimelineItem) (i n : nat) : Prop :=
  ∀ k it, i < k < n → l !! k = Some it → is_event it = false.

(** Where the last divider that is kept stands among the operations. *)
Definition divider_desc (l : list TimelineItem) (n : nat) (d : PrevItemDesc) (ops : list DateDividerOperation) : Prop :=
  l !! item_index d = Some (item d) ∧ item_index d < n ∧ no_event_in l (item_index d) n ∧
  ∃ ops1 ops2, ops = ops1 ++ ops2 ∧ length ops1 = insert_op_at d ∧
    (∀ o, o ∈ ops1 → op_index o < item_index d) ∧ (∀ o, o ∈ ops2 → item_index d < op_index o).

Definition prev_ok (l : list TimelineItem) (n : nat) (a : Analysis) : Prop :=
  match prev_item a with
  | None =>
      latest_event_ts a = None ∧
      ∀ k it, k < n → l !! k = Some it → is_event it = false ∧ is_date_divider it = false
  | Some d =>
      match kind (item d) with
      | Event e =>
          latest_event_ts a = Some (timestamp e) ∧
          (groups_are_dates l → scan (None, None) (edit (an_ops a) 0 (take n l)) = Some (Some (timestamp e), None))
      | Virtual (DateDivider ts) =>
          divider_desc l n d (an_ops a) ∧
          (∀ p, latest_event_ts a = Some p → same p ts = false) ∧
          (groups_are_dates l → scan (None, None) (edit (an_ops a) 0 (take (item_index d) l)) = Some (latest_event_ts a, None))
      | Virtual ReadMarker | Virtual TimelineStart => False
      end
  end.

Record analyzed (l : list TimelineItem) (n : nat) (a : Analysis) : Prop := {
  an_ok : ops_ok l (an_ops a);
  an_below : ∀ op, op ∈ an_ops a → op_index op < n;
  an_clean : ∀ k it, k < n → l !! k = Some it → is_date_divider it = true → no_event_in l k n →
    Remove k ∈ an_ops a ∨ pending a = Some k;
  an_latest : ∀ p, latest_event_ts a = Some p →
    ∃ k it e, l !! k = Some it ∧ kind it = Event e ∧ timestamp e = p;
  an_prev : prev_ok l n a
}.

(** Past the last divider that is kept, the edit changes nothing. *)
Lemma scan_past_divider l n a d ts st :
  analyzed l n a → prev_item a = Some d → kind (item d) = Virtual (DateDivider ts) →
  scan st (edit (an_ops a) (S (item_index d)) (take (n - S (item_index d)) (drop (S (item_index d)) l))) = Some st.
Proof.
  intros Ha Hd Hk. pose proof (an_prev _ _ _ Ha) as Hp. unfold prev_ok in Hp. rewrite Hd, Hk in Hp.
  destruct Hp as ((Hat & Hlt & Hnoev & _) & _ & _). apply scan_neutral. intros i it Hi.
  apply lookup_take_Some in Hi as [Hi Hin]. rewrite lookup_drop in Hi.
  assert (He : is_event it = false) by (eapply Hnoev; [|done]; lia). split; [done|].
  destruct (is_date_divider it) eqn:Hdiv.
  - assert (Hn : S (item_index d) + i < n) by lia.
    destruct (an_clean _ _ _ Ha _ _ Hn Hi Hdiv) as [Hrem|Hpend].
    + intros k it' Hk' Hit'. eapply Hnoev; [|done]. lia.
    + by rewrite (op_at_elem l _ _ (S (item_index d) + i) (an_ok _ _ _ Ha) Hrem).
    + unfold pending in Hpend. rewrite Hd in Hpend. destruct (is_date_divider (item d)); simplify_eq/=. lia.
  - by rewrite (op_at_other l _ _ it (an_ok _ _ _ Ha) Hi He Hdiv).
Qed.

(** The edit up to an event that follows the last divider that is kept, in three parts. *)
Lemma edit_around_divider l n a d ts x ops :
  analyzed l n a → prev_item a = Some d → kind (item d) = Virtual (DateDivider ts) → l !! n = Some x →
  (∀ k, k ≠ item_index d → op_at ops k = op_at (an_ops a) k) →
  edit ops 0 (take (S n) l) =
    edit (an_ops a) 0 (take (item_index d) l)
    ++ edit_kind (op_at ops (item_index d)) (kind (item d))
    ++ edit (an_ops a) (S (item_index d)) (take (n - S (item_index d)) (drop (S (item_index d)) l))
    ++ [kind x].
Proof.
  intros Ha Hd Hk Hx Hops. pose proof (an_prev _ _ _ Ha) as Hp. unfold prev_ok in Hp. rewrite Hd, Hk in Hp.
  destruct Hp as ((Hat & Hlt & _) & _ & _). set (j := item_index d) in *.
  rewrite (edit_take_S _ _ _ x) by done. rewrite (Hops n) by lia.
  rewrite (op_at_none (an_ops a) n) by (intros op Hop%(an_below _ _ _ Ha); lia). cbn [edit_kind].
  replace (take n l) with (take j l ++ item d :: take (n - S j) (drop (S j) l)).
  - rewrite edit_app. cbn [edit]. rewrite length_take, Nat.min_l by (apply lookup_lt_Some in Hat; lia). cbn [Nat.add].
    rewrite <-!(assoc_L (++)). f_equal; [|do 2 f_equal]; apply edit_ext; intros k Hk'; apply Hops; [|lia].
    rewrite length_take in Hk'. lia.
  - rewrite <-(take_drop j (take n l)), take_take, Nat.min_l by lia. f_equal.
    rewrite skipn_firstn_comm, (drop_S _ _ _ Hat). by replace (n - j) with (S (n - S j)) by lia.
Qed.

Lemma no_event_snoc l k n x : no_event_in l k n → l !! n = Some x → is_event x = false → no_event_in l k (S n).
Proof.
  intros Hno Hx He i it Hi Hit. destruct (decide (i = n)) as [->|]; [congruence|]. eapply Hno; [|done]. lia.
Qed.

Lemma no_event_prefix l k n : no_event_in l k (S n) → no_event_in l k n.
Proof. intros Hno i it Hi. apply Hno. lia. Qed.

(** An item that is neither an event nor a divider. *)
Lemma analyzed_other l n a x :
  analyzed l n a → l !! n = Some x → is_event x = false → is_date_divider x = false → analyzed l (S n) a.
Proof.
  intros Ha Hx He Hd. pose proof (op_at_other l _ _ _ (an_ok _ _ _ Ha) Hx He Hd) as Hop.
  assert (Hscan : ∀ st, scan st (edit_kind None (kind x)) = Some st).
  { intros st. unfold is_event, is_date_divider in *. by destruct (kind x) as [|[| |]]. }
  split; try apply Ha.
  - intros op Hop'%(an_below _ _ _ Ha). lia.
  - intros k it Hk Hit Hdiv Hno. apply (an_clean _ _ _ Ha k it); [|done..|by apply no_event_prefix].
    destruct (decide (k = n)) as [->|]; [congruence|lia].
  - pose proof (an_prev _ _ _ Ha) as Hp. unfold prev_ok in *. destruct (prev_item a) as [d|].
    + destruct (kind (item d)) as [e|[ts| |]]; [| |done..].
      * destruct Hp as [Hl Hs]. split; [done|]. intros Hg. rewrite (edit_take_S _ _ _ x), Hop, scan_app, Hs by done. apply Hscan.
      * destruct Hp as ((Hat & Hlt & Hno & Hops) & Hrest). split; [|done]. split; [done|]. split; [lia|].
        split; [by eapply no_event_snoc|done].
    + destruct Hp as [Hl Hno]. split; [done|]. intros k it Hk Hit.
      destruct (decide (k = n)) as [->|]; [simplify_eq; done|]. apply (Hno k); [lia|done].
Qed.

(** A divider that is removed. *)
Lemma analyzed_remove_divider l n a x ts :
  analyzed l n a → l !! n = Some x → kind x = Virtual (DateDivider ts) → prev_item a ≠ None →
  analyzed l (S n) {| an_ops := an_ops a ++ [Remove n]; prev_item := prev_item a; latest_event_ts := latest_event_ts a |}.
Proof.
  intros Ha Hx Hk Hprev. assert (Hd : is_date_divider x = true) by (unfold is_date_divider; by rewrite Hk).
  assert (He : is_event x = false) by (unfold is_event; by rewrite Hk).
  assert (Hok : ops_ok l (an_ops a ++ [Remove n])).
  { apply ops_ok_snoc; [apply Ha|by exists x|apply Ha]. }
  assert (Hat : op_at (an_ops a ++ [Remove n]) n = Some (Remove n)).
  { apply (op_at_elem l); [done| |done]. apply elem_of_app. right. by left. }
  split; cbn; try done.
  - intros op [Hop%(an_below _ _ _ Ha)| ->%list_elem_of_singleton]%elem_of_app; cbn; lia.
  - intros k it Hk' Hit Hdiv Hno. destruct (decide (k = n)) as [->|Hne]; [left; apply elem_of_app; right; by left|].
    destruct (an_clean _ _ _ Ha k it) as [?|?]; [lia|done..|by apply no_event_prefix|left; apply elem_of_app; by left|by right].
  - apply Ha.
  - pose proof (an_prev _ _ _ Ha) as Hp. unfold prev_ok in *. cbn. destruct (prev_item a) as [d|]; [|done].
    destruct (kind (item d)) as [e|[ts'| |]]; [| |done..].
    + destruct Hp as [Hl Hs]. split; [done|]. intros Hg.
      rewrite (edit_take_S _ _ _ x), Hat, edit_take_snoc, app_nil_r by done. by apply Hs.
    + destruct Hp as ((Hj & Hlt & Hno & ops1 & ops2 & Hops & Hlen & H1 & H2) & Hl & Hs). split; [|split; [done|]].
      * split; [done|]. split; [lia|]. split; [by eapply no_event_snoc|]. exists ops1, (ops2 ++ [Remove n]).
        rewrite (assoc_L (++)), <-Hops. split_and!; try done.
        intros o [?| ->%list_elem_of_singleton]%elem_of_app; [by apply H2|done].
      * intros Hg. rewrite edit_take_snoc by (cbn; lia). by apply Hs.
Qed.

(** A divider that is kept, for now. *)
Lemma analyzed_keep_divider l n a x ts :
  analyzed l n a → l !! n = Some x → kind x = Virtual (DateDivider ts) →
  match prev_item a with
  | Some d => match kind (item d) with Event e => same (timestamp e) ts = false | Virtual _ => False end
  | None => True
  end →
  analyzed l (S n) {| an_ops := an_ops a;
                      prev_item := Some {| item_index := n; item := x; insert_op_at := length (an_ops a) |};
                      latest_event_ts := latest_event_ts a |}.
Proof.
  intros Ha Hx Hk Hprev. assert (Hd : is_date_divider x = true) by (unfold is_date_divider; by rewrite Hk).
  split; cbn; try apply Ha.
  - intros op Hop%(an_below _ _ _ Ha). lia.
  - unfold pending. cbn. rewrite Hd. intros k it Hk' Hit Hdiv Hno. destruct (decide (k = n)) as [->|Hne]; [by right|].
    left. destruct (an_clean _ _ _ Ha k it) as [?|Hpend]; [lia|done..|by apply no_event_prefix|done|].
    unfold pending in Hpend. destruct (prev_item a) as [d|]; [|done]. unfold is_date_divider in Hpend.
    by destruct (kind (item d)).
  - unfold prev_ok. cbn. rewrite Hk. split; [|].
    + split; [done|]. split; [cbn; lia|]. split; [intros i it Hi; cbn in Hi; lia|]. exists (an_ops a), [].
      split_and!; [by rewrite app_nil_r|done|apply Ha|]. intros o Ho. by apply elem_of_nil in Ho.
    + pose proof (an_prev _ _ _ Ha) as Hp. unfold prev_ok in Hp. destruct (prev_item a) as [d|].
      * destruct (kind (item d)) as [e|]; [|done]. destruct Hp as [Hl Hs]. rewrite Hl. split; [by intros p [= <-]|]. done.
      * destruct Hp as [Hl Hno]. rewrite Hl. split; [done|]. intros _. apply scan_neutral. intros i it Hi.
        apply lookup_take_Some in Hi as [Hi Hin]. destruct (Hno i it Hin Hi) as [He' Hd']. split; [done|]. cbn.
        by rewrite (op_at_other l _ _ it (an_ok _ _ _ Ha) Hi He' Hd').
Qed.

(** An event, once its operation is recorded. *)
Lemma analyzed_at_event l n x e ops :
  l !! n = Some x → kind x = Event e → ops_ok l ops → (∀ op, op ∈ ops → op_index op < S n) →
  (groups_are_dates l → scan (None, None) (edit ops 0 (take (S n) l)) = Some (Some (timestamp e), None)) →
  analyzed l (S n) {| an_ops := ops;
                      prev_item := Some {| item_index := n; item := x; insert_op_at := length ops |};
                      latest_event_ts := Some (timestamp e) |}.
Proof.
  intros Hx Hk Hok Hlt Hs. assert (He : is_event x = true) by (unfold is_event; by rewrite Hk).
  split; cbn; try done.
  - intros k it Hk' Hit Hdiv Hno. exfalso. destruct (decide (k = n)) as [->|Hne].
    + simplify_eq. unfold is_date_divider in Hdiv. by rewrite Hk in Hdiv.
    + assert (is_event x = false) by (apply (Hno n); [lia|done]). congruence.
  - intros p [= <-]. by exists n, x, e.
  - unfold prev_ok. cbn. by rewrite Hk.
Qed.

Lemma insert_before_event l n x e ops ts :
  l !! n = Some x → kind x = Event e → ops_ok l ops → (∀ op, op ∈ ops → op_index op < n) →
  ops_ok l (ops ++ [Insert n ts]) ∧ (∀ op, op ∈ ops ++ [Insert n ts] → op_index op < S n) ∧
  edit (ops ++ [Insert n ts]) 0 (take (S n) l) = edit ops 0 (take n l) ++ [Virtual (DateDivider ts); Event e].
Proof.
  intros Hx Hk Hok Hlt.
  assert (Hok' : ops_ok l (ops ++ [Insert n ts])).
  { apply ops_ok_snoc; [done| |done]. exists x. split; [done|]. unfold is_event. by rewrite Hk. }
  split; [done|]. split.
  - intros op [Hop%Hlt| ->%list_elem_of_singleton]%elem_of_app; cbn; lia.
  - rewrite (edit_take_S _ _ _ x), edit_take_snoc by done.
    rewrite (op_at_elem l (ops ++ [Insert n ts]) (Insert n ts) n); [by rewrite Hk|done| |done]. apply elem_of_app. right. by left.
Qed.

(** The operation recorded for the last divider that is kept. *)
Lemma divider_op l n a d dts op :
  analyzed l n a → prev_item a = Some d → kind (item d) = Virtual (DateDivider dts) →
  op_index op = item_index d → match op with Insert _ _ => False | _ => True end →
  ∃ ops, vec_insert (insert_op_at d) op (an_ops a) = Ret ops ∧ ops_ok l ops ∧ (∀ o, o ∈ ops → op_index o < S n) ∧
    op_at ops (item_index d) = Some op ∧ (∀ k, k ≠ item_index d → op_at ops k = op_at (an_ops a) k).
Proof.
  intros Ha Hd Hdk Hidx Hop. pose proof (an_prev _ _ _ Ha) as Hp. unfold prev_ok in Hp. rewrite Hd, Hdk in Hp.
  destruct Hp as ((Hat & Hlt & Hno & ops1 & ops2 & Hops & Hlen & H1 & H2) & _ & _).
  pose proof (an_ok _ _ _ Ha) as Hok. pose proof (an_below _ _ _ Ha) as Hb. rewrite Hops in Hok, Hb |- *.
  assert (Hok' : ops_ok l (ops1 ++ op :: ops2)).
  { apply ops_ok_mid; [done| |rewrite Hidx; done..]. exists (item d). rewrite Hidx. split; [done|].
    unfold is_date_divider. rewrite Hdk. by destruct op. }
  exists (ops1 ++ op :: ops2). split; [|split; [done|split; [|split]]].
  - unfold vec_insert. rewrite <-Hlen, (proj2 (Nat.leb_le _ _)) by (rewrite length_app; lia).
    by rewrite take_app_length, drop_app_length.
  - intros o Ho. rewrite elem_of_app, elem_of_cons in Ho.
    destruct Ho as [Ho|[->|Ho]]; [enough (op_index o < n) by lia; apply Hb, elem_of_app; by left|lia|].
    enough (op_index o < n) by lia. apply Hb, elem_of_app. by right.
  - apply (op_at_elem l); [done| |done]. apply elem_of_app. right. by left.
  - intros k Hne. rewrite !op_at_app. cbn. by rewrite (proj2 (Nat.eqb_neq _ _)) by congruence.
Qed.

(** Reading the items up to an event, when the divider before it ends up as [ks]. *)
Lemma scan_around_divider l n a d dts x e ops pend :
  analyzed l n a → prev_item a = Some d → kind (item d) = Virtual (DateDivider dts) →
  l !! n = Some x → kind x = Event e → groups_are_dates l →
  (∀ k, k ≠ item_index d → op_at ops k = op_at (an_ops a) k) →
  scan (latest_event_ts a, None) (edit_kind (op_at ops (item_index d)) (kind (item d))) = Some (latest_event_ts a, pend) →
  match pend, latest_event_ts a with
  | Some t, _ | None, Some t => same t (timestamp e) = true
  | None, None => False
  end →
  scan (None, None) (edit ops 0 (take (S n) l)) = Some (Some (timestamp e), None).
Proof.
  intros Ha Hd Hdk Hx Hk Hg Hne Hpend Hsame. pose proof (an_prev _ _ _ Ha) as Hp. unfold prev_ok in Hp. rewrite Hd, Hdk in Hp.
  destruct Hp as (_ & _ & Hs). rewrite (edit_around_divider l n a d dts x) by done.
  rewrite scan_app, Hs by done. cbn -[scan]. rewrite scan_app, Hpend. cbn -[scan].
  rewrite scan_app, (scan_past_divider l n a d dts) by done. cbn. rewrite Hk. cbn.
  destruct pend; [by rewrite Hsame|]. destruct (latest_event_ts a); [by rewrite Hsame|done].
Qed.

(** An event that follows the last divider that is kept. *)
Lemma analyzed_event_divider l n a x e d dts :
  analyzed l n a → l !! n = Some x → kind x = Event e → prev_item a = Some d → kind (item d) = Virtual (DateDivider dts) →
  ∃ ops, handle_event m n (timestamp e) (Some d) (latest_event_ts a) (an_ops a) = Ret ops ∧
    ops_ok l ops ∧ (∀ op, op ∈ ops → op_index op < S n) ∧
    (groups_are_dates l → scan (None, None) (edit ops 0 (take (S n) l)) = Some (Some (timestamp e), None)).
Proof.
  intros Ha Hx Hk Hd Hdk. pose proof (an_prev _ _ _ Ha) as Hp. unfold prev_ok in Hp. rewrite Hd, Hdk in Hp.
  destruct Hp as ((_ & _ & _ & ops1 & ops2 & Hops & _ & H1 & H2) & Hlast & _).
  assert (Hopen : ∀ ts, (∀ p, latest_event_ts a = Some p → same p ts = false) →
    scan (latest_event_ts a, None) [Virtual (DateDivider ts)] = Some (latest_event_ts a, Some ts)).
  { intros ts Hts. cbn. destruct (latest_event_ts a) as [p|]; [by rewrite (Hts p)|done]. }
  unfold handle_event. rewrite Hdk. case_bool_decide as Hdate.
  { exists (an_ops a). split; [done|]. split; [apply Ha|]. split; [intros op Hop%(an_below _ _ _ Ha); lia|]. intros Hg.
    apply (scan_around_divider l n a d dts x e _ (Some dts)); try done; [|by apply date_same].
    rewrite (op_at_none (an_ops a)) by (rewrite Hops; intros op [?%H1|?%H2]%elem_of_app; lia). rewrite Hdk.
    by apply Hopen. }
  set (same_as_last := match latest_event_ts a with Some _ => _ | None => _ end).
  destruct same_as_last eqn:Hsame; unfold same_as_last in Hsame.
  - destruct (divider_op l n a d dts (Remove (item_index d))) as (ops & -> & Hok & Hb & Hat & Hne); [done..|].
    exists ops. split_and!; try done. intros Hg. apply (scan_around_divider l n a d dts x e _ None); try done; [by rewrite Hat|].
    destruct (latest_event_ts a) as [p|]; [|done]. by apply bool_decide_eq_true, date_same in Hsame.
  - destruct (divider_op l n a d dts (Replace (item_index d) (timestamp e))) as (ops & -> & Hok & Hb & Hat & Hne); [done..|].
    exists ops. split_and!; try done. intros Hg. 
    apply (scan_around_divider l n a d dts x e _ (Some (timestamp e))); try done; [|apply same_refl]. rewrite Hat. apply Hopen. intros p Hp. rewrite Hp in Hsame. apply bool_decide_eq_false in Hsame.
    destruct (same p (timestamp e)) eqn:Hpe; [|done]. exfalso. apply Hsame.
    destruct (an_latest _ _ _ Ha p Hp) as (k & it & e' & Hit & He' & <-). by eapply (Hg k n it x).
Qed.

Lemma analyzed_event l n a x e :
  analyzed l n a → l !! n = Some x → kind x = Event e →
  ∃ ops, handle_event m n (timestamp e) (prev_item a) (latest_event_ts a) (an_ops a) = Ret ops ∧
    ops_ok l ops ∧ (∀ op, op ∈ ops → op_index op < S n) ∧
    (groups_are_dates l → scan (None, None) (edit ops 0 (take (S n) l)) = Some (Some (timestamp e), None)).
Proof.
  intros Ha Hx Hk. pose proof (an_prev _ _ _ Ha) as Hp. unfold prev_ok in Hp.
  destruct (insert_before_event l n x e (an_ops a) (timestamp e)) as (Hok & Hb & Hed); [done|done|apply Ha|apply Ha|].
  destruct (prev_item a) as [d|] eqn:Hd; [destruct (kind (item d)) as [pe|[dts| |]] eqn:Hdk; [| |done..]|].
  - destruct Hp as [Hl Hs]. cbn. rewrite Hdk. destruct (same (timestamp pe) (timestamp e)) eqn:Hsame.
    + exists (an_ops a). split; [done|]. split; [apply Ha|]. split; [intros op Hop%(an_below _ _ _ Ha); lia|]. intros Hg.
      rewrite (edit_take_S _ _ _ x) by done. rewrite op_at_none by (intros op Hop%(an_below _ _ _ Ha); lia).
      rewrite scan_app, Hs by done. cbn. rewrite Hk. cbn. by rewrite Hsame.
    + eexists. split; [done|]. split; [done|]. split; [done|]. intros Hg. rewrite Hed, scan_app, Hs by done. cbn.
      rewrite Hsame. cbn. by rewrite same_refl.
  - by eapply analyzed_event_divider.
  - destruct Hp as [Hl Hno]. eexists. split; [done|]. split; [done|]. split; [done|]. intros Hg. rewrite Hed, scan_app.
    rewrite scan_neutral; [cbn; by rewrite same_refl|]. intros i it Hi. apply lookup_take_Some in Hi as [Hi Hin].
    destruct (Hno i it Hin Hi) as [He' Hd']. split; [done|]. cbn.
    by rewrite (op_at_other l _ _ it (an_ok _ _ _ Ha) Hi He' Hd').
Qed.

Lemma analyze_item_spec l n a x :
  analyzed l n a → l !! n = Some x → ∃ a', analyze_item m a n x = Ret a' ∧ analyzed l (S n) a'.
Proof.
  intros Ha Hx. unfold analyze_item. destruct (kind x) as [e|[ts| |]] eqn:Hk.
  - destruct (analyzed_event l n a x e) as (ops & -> & Hok & Hb & Hs); [done..|]. eexists. split; [done|].
    by apply analyzed_at_event.
  - pose proof (an_prev _ _ _ Ha) as Hp. unfold prev_ok in Hp. unfold handle_date_divider.
    pose proof (analyzed_keep_divider l n a x ts Ha Hx Hk) as Hkeep.
    pose proof (analyzed_remove_divider l n a x ts Ha Hx Hk) as Hrem.
    destruct (prev_item a) as [d|]; cbn; [|eexists; split; [done|]; by apply Hkeep].
    destruct (kind (item d)) as [e|[ts'| |]]; [|eexists; split; [done|]; by apply Hrem|done..].
    destruct (same (timestamp e) ts) eqn:Hsame; (eexists; split; [done|]); [by apply Hrem|by apply Hkeep].
  - exists a. split; [done|]. eapply analyzed_other; [done..| |]; unfold is_event, is_date_divider; by rewrite Hk.
  - exists a. split; [done|]. eapply analyzed_other; [done..| |]; unfold is_event, is_date_divider; by rewrite Hk.
Qed.

Lemma enumerate_cons {A} n (x : A) l : imap (λ i, pair (n + i)) (x :: l) = (n, x) :: imap (λ i, pair (S n + i)) l.
Proof. cbn. rewrite Nat.add_0_r. f_equal. apply imap_ext. intros i y _. cbn. by rewrite <-plus_n_Sm. Qed.

Lemma analyze_spec l l2 : ∀ l1 a,
  l = l1 ++ l2 → analyzed l (length l1) a →
  ∃ a', analyze m a (imap (λ i, pair (length l1 + i)) l2) = Ret a' ∧ analyzed l (length l) a'.
Proof.
  induction l2 as [|x l2 IH]; intros l1 a Hl Ha.
  { exists a. split; [done|]. rewrite app_nil_r in Hl. by rewrite <-Hl in Ha. }
  rewrite enumerate_cons. cbn [analyze].
  destruct (analyze_item_spec l (length l1) a x Ha) as (a' & -> & Ha'); [rewrite Hl; by apply list_lookup_middle|].
  specialize (IH (l1 ++ [x]) a'). rewrite length_app in IH. cbn in IH. rewrite Nat.add_1_r in IH.
  apply IH; [by rewrite <-(assoc_L (++))|done].
Qed.

Lemma analyze_all l :
  ∃ a, analyze m {| an_ops := []; prev_item := None; latest_event_ts := None |} (enumerate l) = Ret a ∧ analyzed l (length l) a.
Proof.
  apply (analyze_spec l l [] _ eq_refl). split; cbn; try done.
  - split; constructor.
  - intros op Hop. by apply elem_of_nil in Hop.
  - lia.
  - unfold prev_ok. cbn. split; [done|]. lia.
Qed.

(** *** The second loop *)

Lemma existsb_removal i ops : existsb (is_removal_of i) ops = true ↔ Remove i ∈ ops.
Proof.
  rewrite existsb_exists. split.
  - intros (op & Hop%list_elem_of_In & Hr). destruct op as [| |j]; try done. cbn in Hr. apply Nat.eqb_eq in Hr as ->. done.
  - intros Hop. exists (Remove i). rewrite <-list_elem_of_In. split; [done|]. cbn. apply Nat.eqb_refl.
Qed.

Lemma reverse_enumerate_S {A} (l : list A) n x :
  l !! n = Some x → reverse (enumerate (take (S n) l)) = (n, x) :: reverse (enumerate (take n l)).
Proof.
  intros Hx. unfold enumerate. rewrite (take_S_r _ _ _ Hx), imap_app, reverse_app. cbn. rewrite Nat.add_0_r, length_take.
  apply lookup_lt_Some in Hx. by rewrite Nat.min_l by lia.
Qed.

Lemma chase_none l n ops :
  n ≤ length l →
  (∀ k it, k < n → l !! k = Some it → is_date_divider it = true → no_event_in l k n → Remove k ∈ ops) →
  chase_trailing (reverse (enumerate (take n l))) ops = Ret ops.
Proof.
  induction n as [|n IH]; intros Hn Hclean; [done|].
  destruct (lookup_lt_is_Some_2 l n) as [x Hx]; [lia|]. rewrite (reverse_enumerate_S _ _ _ Hx). cbn [chase_trailing].
  assert (Hsame : (if is_date_divider x && negb (existsb (is_removal_of n) ops)
    then vec_insert (position_above n ops) (Remove n) ops else Ret ops) = Ret ops).
  { destruct (is_date_divider x) eqn:Hd; [|done]. rewrite (proj2 (existsb_removal n ops)); [done|].
    apply (Hclean n x); [lia|done..|]. intros k it Hk. lia. }
  rewrite Hsame. destruct (is_event x) eqn:He; [done|]. apply IH; [lia|]. intros k it Hk Hit Hd Hno.
  apply (Hclean k it); [lia|done..|]. by eapply no_event_snoc.
Qed.

Lemma position_above_split j ops1 ops2 :
  (∀ o, o ∈ ops1 → op_index o < j) → (∀ o, o ∈ ops2 → j < op_index o) → position_above j (ops1 ++ ops2) = length ops1.
Proof.
  intros H1 H2. induction ops1 as [|o ops1 IH]; cbn [app position_above length].
  - destruct ops2 as [|o ops2]; [done|]. cbn [position_above]. by rewrite (proj2 (Nat.ltb_lt _ _)) by (apply H2; by left).
  - rewrite (proj2 (Nat.ltb_ge _ _)) by (specialize (H1 o); rewrite elem_of_cons in H1; enough (op_index o < j) by lia; auto).
    f_equal. apply IH. intros o' Ho'. apply H1. by right.
Qed.

Lemma chase_pending l n j x ops1 ops2 :
  n ≤ length l → j < n → l !! j = Some x → is_date_divider x = true → no_event_in l j n →
  (∀ o, o ∈ ops1 → op_index o < j) → (∀ o, o ∈ ops2 → j < op_index o) →
  (∀ k it, k < n → k ≠ j → l !! k = Some it → is_date_divider it = true → no_event_in l k n → Remove k ∈ ops1 ++ ops2) →
  chase_trailing (reverse (enumerate (take n l))) (ops1 ++ ops2) = Ret (ops1 ++ Remove j :: ops2).
Proof.
  intros Hn Hj Hx Hd Hno H1 H2 Hclean. induction n as [|n IH]; [lia|].
  destruct (lookup_lt_is_Some_2 l n) as [y Hy]; [lia|]. rewrite (reverse_enumerate_S _ _ _ Hy). cbn [chase_trailing].
  destruct (decide (n = j)) as [->|Hne].
  - simplify_eq. rewrite Hd.
    assert (Hnot : existsb (is_removal_of j) (ops1 ++ ops2) = false).
    { apply not_true_iff_false. rewrite existsb_removal. intros [Hr%H1|Hr%H2]%elem_of_app; cbn in Hr; lia. }
    rewrite Hnot. cbn [negb andb]. rewrite position_above_split by done. unfold vec_insert.
    rewrite (proj2 (Nat.leb_le _ _)) by (rewrite length_app; lia). rewrite take_app_length, drop_app_length.
    assert (He : is_event x = false) by (unfold is_event, is_date_divider in *; by destruct (kind x)). rewrite He.
    apply chase_none; [lia|]. intros k it Hk Hit Hdiv Hnoev.
    assert (Remove k ∈ ops1 ++ ops2) as Hin; [|set_solver].
    apply (Hclean k it); [lia|lia|done..|]. by eapply no_event_snoc.
  - assert (Hey : is_event y = false) by (eapply Hno; [|done]; lia).
    assert (Hsame : (if is_date_divider y && negb (existsb (is_removal_of n) (ops1 ++ ops2))
      then vec_insert (position_above n (ops1 ++ ops2)) (Remove n) (ops1 ++ ops2) else Ret (ops1 ++ ops2)) = Ret (ops1 ++ ops2)).
    { destruct (is_date_divider y) eqn:Hdy; [|done]. rewrite (proj2 (existsb_removal n _)); [done|].
      apply (Hclean n y); [lia|done..|]. intros k it Hk. lia. }
    rewrite Hsame, Hey. apply IH; [lia|lia|by apply no_event_prefix|]. intros k it Hk Hkj Hit Hdiv Hnoev.
    apply (Hclean k it); [lia|done..|]. by eapply no_event_snoc.
Qed.

(** The operations the two loops record are in order, and stand for an edit that
    divides the timeline well when groups are dates. *)
Lemma operations_spec l :
  ∃ a ops, analyze m {| an_ops := []; prev_item := None; latest_event_ts := None |} (enumerate l) = Ret a ∧
    chase_trailing (reverse (enumerate l)) (an_ops a) = Ret ops ∧ ops_ok l ops ∧
    (groups_are_dates l → well_divided (edit ops 0 l)).
Proof.
  destruct (analyze_all l) as (a & Han & Ha). exists a.
  assert (Hfull : take (length l) l = l) by by apply take_ge. pose proof (an_prev _ _ _ Ha) as Hp. unfold prev_ok in Hp.
  destruct (pending a) as [j|] eqn:Hpend.
  - unfold pending in Hpend. destruct (prev_item a) as [d|] eqn:Hd; [|done].
    destruct (is_date_divider (item d)) eqn:Hdiv; simplify_eq/=.
    destruct (kind (item d)) as [e|[dts| |]] eqn:Hdk; try (unfold is_date_divider in Hdiv; by rewrite Hdk in Hdiv).
    destruct Hp as ((Hat & Hlt & Hno & ops1 & ops2 & Hops & Hlen & H1 & H2) & _ & Hs).
    destruct (divider_op l (length l) a d dts (Remove (item_index d))) as (ops & Hins & Hok & _ & Hopat & Hne); [done..|].
    assert (ops = ops1 ++ Remove (item_index d) :: ops2) as ->.
    { unfold vec_insert in Hins. rewrite Hops, <-Hlen in Hins. rewrite (proj2 (Nat.leb_le _ _)) in Hins by (rewrite length_app; lia).
      rewrite take_app_length, drop_app_length in Hins. by injection Hins. }
    eexists. split; [done|]. split; [|split; [exact Hok|]].
    + rewrite Hops, <-Hfull at 1. eapply chase_pending; [done|done|exact Hat|done..|]. intros k it Hk Hkj Hit Hdk' Hnoev. rewrite <-Hops.
      destruct (an_clean _ _ _ Ha k it) as [?|Hpk]; [done..|]. unfold pending in Hpk. rewrite Hd, Hdiv in Hpk. congruence.
    + intros Hg. exists (latest_event_ts a). set (j := item_index d) in *.
      rewrite <-(take_drop j l) at 1. rewrite (drop_S _ _ _ Hat), edit_app. cbn [edit].
      rewrite length_take, Nat.min_l by lia. cbn [Nat.add]. rewrite Hopat, scan_app.
      rewrite (edit_ext _ (an_ops a) 0) by (intros k Hk; rewrite length_take in Hk; apply Hne; lia). rewrite Hs by done. cbn -[scan].
      rewrite (edit_ext _ (an_ops a)) by (intros k Hk; apply Hne; lia).
      pose proof (scan_past_divider l (length l) a d dts (latest_event_ts a, None) Ha Hd Hdk) as Hpast.
      rewrite take_ge in Hpast by (rewrite length_drop; done). exact Hpast.
  - exists (an_ops a). split; [done|]. split; [|split; [apply Ha|]].
    + rewrite <-Hfull at 1. apply chase_none; [done|]. intros k it Hk Hit Hdiv Hnoev.
      destruct (an_clean _ _ _ Ha k it) as [?|Hpk]; [done..|]. congruence.
    + intros Hg. unfold pending in Hpend. destruct (prev_item a) as [d|] eqn:Hd.
      * destruct (kind (item d)) as [e|[dts| |]] eqn:Hdk; [|by unfold is_date_divider in Hpend; rewrite Hdk in Hpend|done..].
        destruct Hp as [_ Hs]. rewrite Hfull in Hs. eexists. by apply Hs.
      * destruct Hp as [_ Hno]. exists None. apply scan_neutral. intros i it Hi.
        destruct (Hno i it) as [He' Hd']; [by apply lookup_lt_Some in Hi|done|]. split; [done|]. cbn.
        by rewrite (op_at_other l _ _ it (an_ok _ _ _ Ha) Hi He' Hd').
Qed.

End scan.

(** ** The regions *)

Lemma count_while_le {A} (f : A → bool) l : count_while f l ≤ length l.
Proof. induction l as [|x l IH]; cbn; [done|]. destruct (f x); lia. Qed.

Lemma count_while_snoc {A} (f : A → bool) l x : f x = false → count_while f (l ++ [x]) ≤ length l.
Proof. intros Hx. induction l as [|y l IH]; cbn; [by rewrite Hx|]. destruct (f y); lia. Qed.

Lemma regions_le l : size_of_start_region l + size_of_locals_region l ≤ length l.
Proof.
  unfold size_of_start_region, size_of_locals_region. destruct l as [|x l]; [done|]. cbn -[reverse].
  destruct (is_timeline_start x) eqn:Hx; [|cbn; pose proof (count_while_le is_local_echo (reverse (x :: l))) as Hle;
    rewrite length_reverse in Hle; exact Hle].
  rewrite reverse_cons. pose proof (count_while_snoc is_local_echo (reverse l) x) as Hle. rewrite length_reverse in Hle.
  assert (Hloc : is_local_echo x = false) by (unfold is_timeline_start, is_local_echo in *; by destruct (kind x)).
  specialize (Hle Hloc). lia.
Qed.

Lemma regions_enumerate s :
  iter_remotes_and_locals_regions s = drop (size_of_start_region (items s)) (enumerate (items s)).
Proof.
  unfold iter_remotes_and_locals_regions, size_of_remotes_region. pose proof (regions_le (items s)).
  apply take_ge. unfold enumerate. rewrite length_drop, length_imap. lia.
Qed.

(** The items are those of the regions, after the start of the timeline if it is there. *)
Lemma regions_cases s :
  iter_remotes_and_locals_regions s = enumerate (items s) ∨
  ∃ x, is_timeline_start x = true ∧ enumerate (items s) = (0, x) :: iter_remotes_and_locals_regions s ∧
    items s = x :: drop 1 (items s) ∧ first_remotes_region_index s = 1.
Proof.
  rewrite regions_enumerate. unfold first_remotes_region_index, size_of_start_region.
  destruct (items s) as [|x l]; [by left|]. cbn. destruct (is_timeline_start x) eqn:Hx; [|by left]. right. by exists x.
Qed.

Lemma start_other x : is_timeline_start x = true → is_event x = false ∧ is_date_divider x = false ∧ is_read_marker x = false.
Proof. unfold is_timeline_start, is_event, is_date_divider, is_read_marker. by destruct (kind x) as [|[| |]]. Qed.

Section runs.
Context {local_time : LocalTime}.

Lemma analyze_regions m a s : analyze m a (iter_remotes_and_locals_regions s) = analyze m a (enumerate (items s)).
Proof.
  destruct (regions_cases s) as [->|(x & Hx & -> & _)]; [done|]. cbn. unfold analyze_item, is_timeline_start in *.
  by destruct (kind x) as [|[| |]].
Qed.

Lemma chase_app_start l x ops :
  is_timeline_start x = true → chase_trailing (l ++ [(0, x)]) ops = chase_trailing l ops.
Proof.
  intros (He & Hd & _)%start_other. revert ops. induction l as [|[i it] l IH]; intros ops; cbn -[vec_insert].
  - by rewrite He, Hd.
  - destruct (if is_date_divider it && _ then _ else _); [|done..]. by destruct (is_event it).
Qed.

Lemma chase_regions s ops :
  chase_trailing (reverse (iter_remotes_and_locals_regions s)) ops = chase_trailing (reverse (enumerate (items s))) ops.
Proof.
  destruct (regions_cases s) as [->|(x & Hx & -> & _)]; [done|]. by rewrite reverse_cons, chase_app_start.
Qed.

Lemma enumerate_snd {A} (l : list A) : (enumerate l).*2 = l.
Proof.
  apply list_eq. intros i. unfold enumerate. rewrite list_lookup_fmap, list_lookup_imap. by destruct (l !! i).
Qed.

Lemma existsb_regions s : existsb (λ '(_, it), is_read_marker it) (iter_remotes_and_locals_regions s) = existsb is_read_marker (items s).
Proof.
  transitivity (existsb is_read_marker (iter_remotes_and_locals_regions s).*2).
  { induction (iter_remotes_and_locals_regions s) as [|[i it] l IH]; [done|]. cbn. by rewrite IH. }
  destruct (regions_cases s) as [->|(x & Hx & Hl & _)]; [by rewrite enumerate_snd|].
  rewrite <-(enumerate_snd (items s)), Hl. cbn.
  destruct (start_other x Hx) as (_ & _ & ->). done.
Qed.

Lemma read_markers_kept (l l' : list TimelineItem) :
  filter not_divider l = filter not_divider l' → existsb is_read_marker l = true → existsb is_read_marker l' = true.
Proof.
  rewrite !existsb_exists. intros Hf (x & Hx%list_elem_of_In & Hm). exists x. split; [|done]. apply list_elem_of_In.
  assert (Hin : x ∈ filter not_divider l).
  { apply list_elem_of_filter. split; [|done]. unfold not_divider, is_read_marker, is_date_divider in *.
    by destruct (kind x) as [|[| |]]. }
  rewrite Hf in Hin. by apply list_elem_of_filter in Hin as [_ ?].
Qed.

(** A well-divided timeline passes the checks. *)
Lemma well_divided_checks m s initial :
  well_divided m (kind <$> items s) →
  (∀ l, initial = Some l → existsb is_read_marker l = true → existsb is_read_marker (items s) = true) →
  check_invariants m s initial = [].
Proof.
  intros [latest Hscan] Hread. unfold check_invariants.
  assert (Hreg : scan m (None, None) (kind <$> (iter_remotes_and_locals_regions s).*2) = Some (latest, None) ∧
                 scan m (None, None) (kind <$> drop (first_remotes_region_index s) (items s)) = Some (latest, None)).
  { unfold first_remotes_region_index. rewrite regions_enumerate, (fmap_drop snd), enumerate_snd. split.
    all: unfold size_of_start_region; destruct (items s) as [|x l]; [done|]; cbn; destruct (is_timeline_start x) eqn:Hx; [|done].
    all: cbn; rewrite drop_0; cbn in Hscan; unfold is_timeline_start in Hx; by destruct (kind x) as [|[| |]]. }
  destruct Hreg as [Hreg Hfirst].
  rewrite (scan_check_first m (None, None) _ (latest, None)) by done.
  rewrite (scan_check_following m (None, None) false _ (latest, None)) by done.
  rewrite (scan_check_trailing m (None, None) _ latest) by done.
  rewrite (scan_check_separated m (None, None) None None _ (latest, None)) by done. cbn.
  destruct initial as [l|]; [|done]. rewrite existsb_regions. destruct (existsb is_read_marker l) eqn:Hl; [|done].
  by rewrite (Hread l).
Qed.

(** What [run] does in the daily and monthly modes. *)
Lemma run_spec debug trace m s meta :
  m ≠ ModeNone → in_step s →
  ∃ s' meta' (errors : list DateDividerInsertError),
    in_step s' ∧ event_ids s' = event_ids s ∧ filter not_divider (items s') = filter not_divider (items s) ∧
    (groups_are_dates m (items s) → well_divided m (kind <$> items s') ∧ errors = []) ∧
    run debug trace (new_adjuster m) s meta =
      match errors with
      | [] => Ret ({| ops := []; consumed := true; mode := m |}, s', meta')
      | _ => if debug then Panic else Ret ({| ops := []; consumed := true; mode := m |}, s', meta')
      end.
Proof.
  intros Hm Hs. destruct (operations_spec m (items s)) as (a & ops & Han & Hch & Hok & Hwell).
  destruct (process_ops_spec ops s meta Hs Hok) as (s' & meta' & Hpr & Hs' & Hids & Hk & Hf).
  set (initial := if trace then Some (snd <$> iter_remotes_and_locals_regions s) else None).
  exists s', meta', (check_invariants m s' initial). split_and!; try done.
  - intros Hg. specialize (Hwell Hg). rewrite <-Hk in Hwell. split; [done|]. apply well_divided_checks; [done|].
    intros l Hl Hex. apply (read_markers_kept (items s)); [done|]. unfold initial in Hl. destruct trace; [|done].
    injection Hl as <-. rewrite <-existsb_regions.
    clear -Hex. induction (iter_remotes_and_locals_regions s) as [|[i it] l IH]; [done|]. cbn in *.
    apply orb_true_iff in Hex as [->|Hex]; [done|]. rewrite IH by done. apply orb_true_r.
  - unfold run, new_adjuster. cbn [mode DateDividers.ops]. rewrite analyze_regions, Han. cbn.
    rewrite chase_regions, Hch. fold initial. rewrite Hpr. by destruct m.
Qed.

(** *** Without dividers *)

Definition removal (p : nat * TimelineItem) : option DateDividerOperation :=
  let '(i, it) := p in if is_date_divider it then Some (Remove i) else None.

Lemma removals_spec n l l0 :
  (∀ i, l0 !! (n + i) = l !! i) →
  ops_ok l0 (omap removal (imap (λ i, pair (n + i)) l)) ∧
  (∀ op, op ∈ omap removal (imap (λ i, pair (n + i)) l) → n ≤ op_index op) ∧
  edit (omap removal (imap (λ i, pair (n + i)) l)) n l = kind <$> filter not_divider l.
Proof.
  revert n. induction l as [|x l IH]; intros n Hl0.
  { split; [split; constructor|]. split; [|done]. intros op Hop. by apply elem_of_nil in Hop. }
  rewrite enumerate_cons. cbn [omap list_omap removal].
  destruct (IH (S n)) as ([Hs Hf] & Hge & Hed).
  { intros i. specialize (Hl0 (S i)). cbn in Hl0. by rewrite <-plus_n_Sm in Hl0. }
  assert (Hx : l0 !! n = Some x) by (specialize (Hl0 0); by rewrite Nat.add_0_r in Hl0).
  assert (Htl : ∀ op, op ∈ omap removal (imap (λ i, pair (S n + i)) l) → n < op_index op) by (intros op Hop%Hge; lia).
  destruct (is_date_divider x) eqn:Hd.
  - split; [split|split].
    + cbn. constructor; [done|]. apply Forall_fmap, Forall_forall. intros op Hop. by apply Htl.
    + constructor; [|done]. by exists x.
    + intros op [->|Hop%Htl]%elem_of_cons; cbn; lia.
    + cbn [edit op_at op_index]. rewrite Nat.eqb_refl. cbn [edit_kind app].
      rewrite (edit_ext _ (omap removal (imap (λ i, pair (S n + i)) l))) by (intros k Hk; cbn; by rewrite (proj2 (Nat.eqb_neq _ _)) by lia).
      rewrite filter_cons_False by (unfold not_divider; congruence). exact Hed.
  - split; [done|]. split; [intros op Hop%Htl; lia|]. cbn [edit]. rewrite op_at_none by (intros op Hop%Htl; lia).
    rewrite filter_cons_True by done. cbn. f_equal. exact Hed.
Qed.

Lemma removals_all l :
  ops_ok l (omap removal (enumerate l)) ∧ edit (omap removal (enumerate l)) 0 l = kind <$> filter not_divider l.
Proof. by destruct (removals_spec 0 l l) as (? & _ & ?). Qed.

Lemma kinds_not_dividers (l l' : list TimelineItem) :
  kind <$> l' = kind <$> filter not_divider l → Forall not_divider l'.
Proof.
  intros Hk. apply Forall_forall. intros it Hit.
  assert (Hin : kind it ∈ kind <$> filter not_divider l) by (rewrite <-Hk; by apply list_elem_of_fmap_2).
  apply list_elem_of_fmap in Hin as (it' & Heq & [Hd _]%list_elem_of_filter).
  unfold not_divider, is_date_divider in *. by rewrite Heq.
Qed.

Lemma run_none_spec debug trace s meta :
  in_step s →
  ∃ a s' meta', run debug trace (new_adjuster ModeNone) s meta = Ret (a, s', meta') ∧
    in_step s' ∧ event_ids s' = event_ids s ∧ filter not_divider (items s') = filter not_divider (items s) ∧
    Forall not_divider (items s').
Proof.
  intros Hs. unfold run, remove_all_date_dividers. cbn [mode new_adjuster DateDividers.ops app].
  assert (Hops : omap (λ '(i, it), if is_date_divider it then Some (Remove i) else None) (iter_remotes_and_locals_regions s)
    = omap removal (enumerate (items s))).
  { destruct (regions_cases s) as [->|(x & Hx & -> & _)]; [done|]. cbn. by destruct (start_other x Hx) as (_ & -> & _). }
  rewrite Hops. destruct (removals_all (items s)) as [Hok Hed].
  destruct (process_ops_spec _ s meta Hs Hok) as (s' & meta' & Hpr & Hs' & Hids & Hk & Hf).
  rewrite Hpr. rewrite Hed in Hk. apply kinds_not_dividers in Hk as Hno.
  assert (Hex : existsb (λ '(_, it), is_date_divider it) (iter_remotes_and_locals_regions s') = false).
  { apply not_true_iff_false. rewrite existsb_exists. intros ([i it] & Hin%list_elem_of_In & Hd).
    rewrite regions_enumerate in Hin. apply list_elem_of_lookup_1 in Hin as (k & Hin). rewrite lookup_drop in Hin.
    unfold enumerate in Hin. rewrite list_lookup_imap in Hin. apply fmap_Some in Hin as (it' & Hit & [= _ ->]).
    rewrite Forall_forall in Hno. apply list_elem_of_lookup_2 in Hit. specialize (Hno it' Hit). unfold not_divider in Hno. congruence. }
  rewrite Hex. cbn. eauto 10.
Qed.


(** Monthly dividers: two events of the same month but not of the same day,
    around a divider of another month, make [run] insert a second divider for the
    month.  The divider is compared with the event by the day, and replaced where
    it should be removed.  With debug assertions the adjuster panics; without them
    the timeline keeps two dividers of one month. *)
Theorem monthly_dividers_repeat trace e1 e3 t2 s meta :
  is_same_month_as (timestamp_to_date (timestamp e1)) (timestamp_to_date (timestamp e3)) = true →
  timestamp_to_date (timestamp e1) ≠ timestamp_to_date (timestamp e3) →
  is_same_month_as (timestamp_to_date (timestamp e1)) (timestamp_to_date t2) = false →
  in_step s → kind <$> items s = [Event e1; Virtual (DateDivider t2); Event e3] →
  run true trace (new_adjuster Monthly) s meta = Panic ∧
  ∃ a s' meta', run false trace (new_adjuster Monthly) s meta = Ret (a, s', meta') ∧
    kind <$> items s' =
      [Virtual (DateDivider (timestamp e1)); Event e1; Virtual (DateDivider (timestamp e3)); Event e3].
Proof.
  intros H13 Hne H12 Hs Hk.
  assert (H23 : timestamp_to_date t2 ≠ timestamp_to_date (timestamp e3)) by (intros Heq; rewrite Heq in H12; congruence).
  assert (Hit : ∃ x1 x2 x3, items s = [x1; x2; x3] ∧ kind x1 = Event e1 ∧ kind x2 = Virtual (DateDivider t2) ∧ kind x3 = Event e3).
  { destruct (items s) as [|x1 [|x2 [|x3 [|]]]]; simplify_eq/=. eauto 10. }
  destruct Hit as (x1 & x2 & x3 & Hit & Hk1 & Hk2 & Hk3).
  set (ops := [Insert 0 (timestamp e1); Replace 1 (timestamp e3)]).
  assert (Hops : ∃ an, analyze Monthly {| an_ops := []; prev_item := None; latest_event_ts := None |} (enumerate (items s)) = Ret an
    ∧ an_ops an = ops).
  { rewrite Hit. cbn. unfold analyze_item. rewrite Hk1. cbn. rewrite Hk2. cbn. rewrite Hk1. cbn. rewrite H12. cbn. rewrite Hk3.
    cbn. rewrite Hk2. rewrite !bool_decide_eq_false_2 by done. cbn. by eexists. }
  destruct Hops as (an & Han & Hops).
  assert (Hok : ops_ok (items s) ops).
  { rewrite Hit. split; [repeat constructor|]. repeat constructor.
    - exists x1. unfold is_event. by rewrite Hk1.
    - exists x2. unfold is_date_divider. by rewrite Hk2. }
  assert (Hch : chase_trailing (reverse (enumerate (items s))) ops = Ret ops).
  { rewrite Hit. cbn. unfold is_date_divider, is_event. by rewrite Hk3. }
  destruct (process_ops_spec ops s meta Hs Hok) as (s' & meta' & Hpr & _ & _ & Hks & _).
  rewrite Hit in Hks. cbn in Hks. rewrite Hk1, Hk3 in Hks.
  assert (Herr : ∀ initial, check_invariants Monthly s' initial ≠ []).
  { intros initial. unfold check_invariants. rewrite regions_enumerate.
    destruct (items s') as [|y1 [|y2 [|y3 [|y4 [|]]]]]; simplify_eq/=. unfold size_of_start_region, is_timeline_start. cbn.
    intros (_ & (_ & (_ & (Hsep & _)%app_eq_nil)%app_eq_nil)%app_eq_nil)%app_eq_nil. revert Hsep.
    repeat (match goal with Hky : kind ?y = _ |- context [kind ?y] => rewrite Hky end; cbn).
    rewrite H13. by repeat destruct (is_same_month_as _ _). }
  unfold run. cbn [mode new_adjuster DateDividers.ops]. rewrite analyze_regions, Han, Hops, chase_regions, Hch, Hpr.
  set (initial := if trace then _ else _). specialize (Herr initial). destruct (check_invariants Monthly s' initial); [done|].
  split; [done|]. eauto.
Qed.

End runs.

(** ** A time zone, and timelines *)

(** The proleptic Gregorian calendar, in Coordinated Universal Time. *)
#[export] Instance utc_time : LocalTime := {|
  timestamp_to_date ts :=
    let z := (ts / 86400000 + 719468)%Z in
    let era := (z / 146097)%Z in
    let doe := (z mod 146097)%Z in
    let yoe := ((doe - doe / 1460 + doe / 36524 - doe / 146096) / 365)%Z in
    let doy := (doe - (365 * yoe + yoe / 4 - yoe / 100))%Z in
    let mp := ((5 * doy + 2) / 153)%Z in
    let month := (if mp <? 10 then mp + 3 else mp - 9)%Z in
    {| year := (yoe + era * 400 + if month <=? 2 then 1 else 0)%Z;
       month := month;
       day := (doy - (153 * mp + 2) / 5 + 1)%Z |} |}.

Definition sample_metadata : TimelineMetadata :=
  {| internal_id_prefix := None; own_user_id := "@alice:example.org"; next_internal_id := 10;
     fully_read_event := None; has_up_to_date_read_marker_item := false |}.

(** Noon of the [n]th day after the epoch. *)
Definition noon (n : Z) : Z := (n * 86400000 + 43200000)%Z.

Definition sample_remote (id : string) (ts : Z) : EventTimelineItem :=
  {| sender := "@bob:example.org"; timestamp := ts; event_kind := Remote id None Sync |}.

Definition sample_local (txn : string) (ts : Z) : EventTimelineItem :=
  {| sender := "@alice:example.org"; timestamp := ts; event_kind := Local NotSentYet txn |}.

Definition sample_meta (id : string) (index : option nat) : EventMeta :=
  with_index index (new_meta id (Some "@bob:example.org") true true None false).

Definition sample_item (i : string) (k : TimelineItemKind) : TimelineItem := {| kind := k; internal_id := i |}.

(** Two remote events of two days, with a divider of neither day between them, a
    local echo, and a divider at the end. *)
Definition sample_timeline : ObservableItems :=
  {| items := [ sample_item "0" (Event (sample_remote "$a" (noon 4)));
                sample_item "1" (Virtual (DateDivider (noon 33)));
                read_marker;
                sample_item "2" (Event (sample_remote "$b" (noon 19)));
                sample_item "3" (Event (sample_local "t" (noon 19)));
                sample_item "4" (Virtual (DateDivider (noon 40))) ];
     all_remote_events := [sample_meta "$a" (Some 0); sample_meta "$hidden" None; sample_meta "$b" (Some 3)] |}.


Definition sample_months : ObservableItems :=
  {| items := [ sample_item "0" (Event (sample_remote "$a" (noon 4)));
                sample_item "1" (Virtual (DateDivider (noon 33)));
                sample_item "2" (Event (sample_remote "$b" (noon 19))) ];
     all_remote_events := [sample_meta "$a" (Some 0); sample_meta "$b" (Some 2)] |}.

Lemma monthly_dividers_repeat_witness :
  run true false (new_adjuster Monthly) sample_months sample_metadata = Panic ∧
  ∃ a s' meta', run false false (new_adjuster Monthly) sample_months sample_metadata = Ret (a, s', meta') ∧
    kind <$> items s' =
      [Virtual (DateDivider (noon 4)); Event (sample_remote "$a" (noon 4));
       Virtual (DateDivider (noon 19)); Event (sample_remote "$b" (noon 19))].
Proof.
  apply (monthly_dividers_repeat false (sample_remote "$a" (noon 4)) (sample_remote "$b" (noon 19)) (noon 33)).
  - by_vm.
  - by_decide.
  - by_vm.
  - unfold in_step. by_vm.
  - reflexivity.
Defined.
