(* ===== verification/TimelineState.v ===== *)
(** * The state of a timeline

    [client-ui/src/timeline]: how remote events, local echoes, the read marker and
    date dividers become the items of a timeline ([controller/state_transaction.rs],
    [controller/state.rs], [controller/mod.rs], [controller/metadata.rs] and the
    placing of new items in [event_handler.rs]).  The contents of the items are
    left out, and with them read receipts, aggregations and replies, which rewrite
    the contents of items that are there; an event comes with what
    [TimelineAction::from_event] makes of it. *)

From S2P Require Import Prelude TimelineItems DateDividers.

Record TimelineState := {
  tl : ObservableItems;
  meta : TimelineMetadata
}.

Definition with_tl (s : ObservableItems) (st : TimelineState) : TimelineState := {| tl := s; meta := meta st |}.

Inductive TimelineItemPosition :=
| Start (origin : RemoteEventOrigin)
| End_ (origin : RemoteEventOrigin)
| At (event_index : nat) (origin : RemoteEventOrigin)
| UpdateAt (timeline_item_index : nat).

Inductive Flow :=
| LocalFlow (txn_id : string)
| RemoteFlow (event_id : string) (txn_id : option string) (position : TimelineItemPosition).

(** An item to add, with whether its content and the one it would replace are both
    redacted, or an aggregation. *)
Inductive TimelineAction :=
| AddItem (already_redacted : bool)
| HandleAggregation.

Record TimelineEventContext := {
  ctx_sender : string;
  ctx_timestamp : Z;
  flow : Flow;
  should_add_new_items : bool
}.

(** ** The read marker *)

Definition with_marker (up_to_date : bool) (m : TimelineMetadata) : TimelineMetadata :=
  {| internal_id_prefix := internal_id_prefix m; own_user_id := own_user_id m;
     next_internal_id := next_internal_id m; fully_read_event := fully_read_event m;
     has_up_to_date_read_marker_item := up_to_date |}.

Fixpoint skip_while {A} (f : A → bool) (l : list A) : list A :=
  match l with [] => [] | x :: l' => if f x then skip_while f l' else l end.

Definition update_read_marker (st : TimelineState) : outcome Empty_set TimelineState :=
  match fully_read_event (meta st) with
  | None => Ret st
  | Some fully_read =>
      let s := tl st in
      let read_marker_idx :=
        find_map (λ '(idx, it), if is_read_marker it then Some idx else None) (reverse (iter_remotes_region s)) in
      let fully_read_event_idx :=
        find_map (λ '(idx, it),
          match as_event it with
          | Some e => if bool_decide (event_id e = Some fully_read) then Some idx else None
          | None => None
          end) (reverse (iter_remotes_region s)) in
      let fully_read_event_idx :=
        match fully_read_event_idx with
        | None => None
        | Some at_ =>
            match find_map (λ '(idx, it),
                    match as_event it with
                    | Some e => if bool_decide (sender e = own_user_id (meta st)) then None else Some idx
                    | None => None
                    end) (skip_while (λ '(idx, _), idx <=? at_) (iter_remotes_region s)) with
            | Some next => Some (next - 1)
            | None => Some (length (items s) - 1)
            end
        end in
      match read_marker_idx, fully_read_event_idx with
      | None, None | Some _, None => Ret {| tl := s; meta := with_marker false (meta st) |}
      | None, Some idx =>
          if idx + 1 <? length (items s)
          then
            let! s := insert (idx + 1) read_marker None s in
            Ret {| tl := s; meta := with_marker true (meta st) |}
          else Ret {| tl := s; meta := with_marker false (meta st) |}
      | Some from, Some to =>
          if to <=? from
          then
            let! s := (if from + 1 =? length (items s) then let! (_, s) := remove from s in Ret s else Ret s) in
            Ret {| tl := s; meta := with_marker true (meta st) |}
          else
            let prev_len := length (items s) in
            let! (marker, s) := remove from s in
            if to + 1 <? prev_len
            then
              let! s := insert to marker None s in
              Ret {| tl := s; meta := with_marker true (meta st) |}
            else Ret {| tl := s; meta := with_marker false (meta st) |}
      end
  end.

(** ** Adding an item *)

(** The local item that the remote event replaces is removed and lends its
    identifier; a new item is made otherwise. *)
Definition recycle_local_or_create_item (e : EventTimelineItem) (id : string) (txn : option string)
    (recycled : option string) (st : TimelineState) : outcome Empty_set (TimelineItem * TimelineState) :=
  match find_map (λ '(nth, it),
          match as_event it with
          | Some local =>
              if bool_decide (Some id = event_id local)
                 || bool_decide (txn ≠ None) && bool_decide (txn = transaction_id local)
              then Some nth else None
          | None => None
          end) (reverse (iter_locals_region (tl st))) with
  | Some nth =>
      let! (removed, s) := remove nth (tl st) in
      Ret ({| kind := Event e; internal_id := internal_id removed |}, with_tl s st)
  | None =>
      let '(it, m) := new_timeline_item_with_internal_id (Event e) recycled (meta st) in
      Ret (it, {| tl := tl st; meta := m |})
  end.

(** After the last event of the remotes region, or at its start. *)
Definition after_last_event (s : ObservableItems) : nat :=
  default (first_remotes_region_index s)
    (find_map (λ '(i, it), match as_event it with Some _ => Some (i + 1) | None => None end)
       (reverse (iter_remotes_region s))).

(** Where an event inserted at [event_index] goes; [VecDeque::range] panics when the
    range ends past the last event. *)
Definition position_of_event_at (event_index : nat) (s : ObservableItems) : outcome Empty_set nat :=
  let events := all_remote_events s in
  if event_index <? length events
  then
    Ret (match find_map timeline_item_index (reverse (take (event_index + 1) events)) with
         | Some i => i + 1
         | None =>
             match find_map timeline_item_index (drop (event_index + 1) events) with
             | Some i => i
             | None => after_last_event s
             end
         end)
  else Panic.

Definition origin_of (position : TimelineItemPosition) (s : ObservableItems) : outcome Empty_set RemoteEventOrigin :=
  match position with
  | Start origin | End_ origin | At _ origin => Ret origin
  | UpdateAt idx =>
      match items s !! idx with
      | None => Panic
      | Some it =>
          Ret match kind it with
              | Event {| event_kind := Remote _ _ origin |} => origin
              | _ => Unknown
              end
      end
  end.

(** [TimelineEventHandler::add_item] *)
Definition add_item (ctx : TimelineEventContext) (already_redacted : bool) (recycled : option string)
    (st : TimelineState) : outcome Empty_set TimelineState :=
  let! k :=
    (match flow ctx with
     | LocalFlow txn => Ret (Local NotSentYet txn)
     | RemoteFlow id txn position => let! origin := origin_of position (tl st) in Ret (Remote id txn origin)
     end) in
  let e := {| sender := ctx_sender ctx; timestamp := ctx_timestamp ctx; event_kind := k |} in
  let! st :=
    (match flow ctx with
     | LocalFlow _ =>
         let '(it, m) := new_timeline_item_with_internal_id (Event e) recycled (meta st) in
         let! s := push_local it (tl st) in
         Ret {| tl := s; meta := m |}
     | RemoteFlow id txn (Start _) =>
         let! (it, st) := recycle_local_or_create_item e id txn recycled st in
         Ret (with_tl (push_front it (Some 0) (tl st)) st)
     | RemoteFlow id txn (At event_index _) =>
         let! (it, st) := recycle_local_or_create_item e id txn recycled st in
         let! i := position_of_event_at event_index (tl st) in
         let! s := insert i it (Some event_index) (tl st) in
         Ret (with_tl s st)
     | RemoteFlow id txn (End_ _) =>
         let! (it, st) := recycle_local_or_create_item e id txn recycled st in
         let i := after_last_event (tl st) in
         let event_index := Some (length (all_remote_events (tl st)) - 1) in
         if i =? length (items (tl st)) then Ret (with_tl (push_back it event_index (tl st)) st)
         else if i =? 0 then Ret (with_tl (push_front it event_index (tl st)) st)
         else let! s := insert i it event_index (tl st) in Ret (with_tl s st)
     | RemoteFlow id txn (UpdateAt idx) =>
         match items (tl st) !! idx with
         | None => Panic
         | Some old =>
             if already_redacted then Ret st
             else
               let! s := replace idx {| kind := Event e; internal_id := internal_id old |} (tl st) in
               Ret (with_tl s st)
         end
     end) in
  if has_up_to_date_read_marker_item (meta st) then Ret st else update_read_marker st.

(** [handle_event] and [handle_timeline_action]: whether an item was added. *)
Definition handle_timeline_action (ctx : TimelineEventContext) (action : TimelineAction) (recycled : option string)
    (st : TimelineState) : outcome Empty_set (bool * TimelineState) :=
  match action with
  | AddItem already_redacted =>
      if should_add_new_items ctx
      then let! st := add_item ctx already_redacted recycled st in Ret (true, st)
      else Ret (false, st)
  | HandleAggregation => Ret (false, st)
  end.

(** ** Remote events *)

Inductive TimelineReadReceiptTracking := AllEvents | MessageLikeEvents | Disabled.

Inductive TimelineFocusKind :=
| Live (hide_threaded_events : bool)
| EventFocus
| Thread (root_event_id : string)
| PinnedEvents.

(** An event that can be read. *)
Record SyncEvent := {
  ev_event_id : string;
  ev_sender : string;
  ev_origin_server_ts : Z;
  ev_transaction_id : option string;
  ev_thread_root : option string;
  ev_is_state : bool;
  ev_is_join : bool;
  ev_actions : list TimelineAction
}.

(** The fields of an event that cannot. *)
Record RawEvent := {
  raw_event_id : option string;
  raw_sender : option string;
  raw_origin_server_ts : option Z;
  raw_has_type : bool;
  raw_transaction_id : option string
}.

Inductive TimelineEvent := Readable (event : SyncEvent) | Unreadable (event : RawEvent).

Record TimelineSettings := {
  event_filter : SyncEvent → bool;
  add_failed_to_parse : bool;
  track_read_receipts : TimelineReadReceiptTracking;
  date_divider_mode : DateDividerMode
}.

Definition should_add_event_item (settings : TimelineSettings) (focus : TimelineFocusKind) (ev : SyncEvent)
    (position : TimelineItemPosition) (s : ObservableItems) : bool :=
  if negb (event_filter settings ev) then false
  else
    match focus with
    | PinnedEvents => true
    | EventFocus =>
        let origin :=
          match position with
          | End_ origin | Start origin | At _ origin => origin
          | UpdateAt idx =>
              match items s !! idx with
              | Some {| kind := Event {| event_kind := Remote _ _ origin |} |} => origin
              | _ => Unknown
              end
          end in
        match origin with Sync | Unknown => false | Cache | Pagination => true end
    | Live hide_threaded_events => bool_decide (ev_thread_root ev = None) || negb hide_threaded_events
    | Thread root =>
        bool_decide (ev_event_id ev = root) || bool_decide (ev_thread_root ev = Some root)
    end.

Definition shows_read_receipts (settings : TimelineSettings) (is_state : bool) : bool :=
  match track_read_receipts settings with
  | AllEvents => true
  | MessageLikeEvents => negb is_state
  | Disabled => false
  end.

Definition with_visibility (vis can_show : bool) (m : EventMeta) : EventMeta :=
  {| meta_event_id := meta_event_id m; meta_sender := meta_sender m; thread_root_id := thread_root_id m;
     visible := vis; can_show_read_receipts := can_show; is_join := is_join m;
     timeline_item_index := timeline_item_index m |}.

Definition add_or_update_remote_event (m : EventMeta) (position : TimelineItemPosition) (s : ObservableItems)
    : outcome Empty_set ObservableItems :=
  let! events :=
    (match position with
     | Start _ => Ret (events_push_front m (all_remote_events s))
     | End_ _ => Ret (events_push_back m (all_remote_events s))
     | At event_index _ => events_insert event_index m (all_remote_events s)
     | UpdateAt _ =>
         Ret (update_by_event_id (meta_event_id m) (with_visibility (visible m) (can_show_read_receipts m))
                (all_remote_events s))
     end) in
  Ret {| items := items s; all_remote_events := events |}.

(** The loop over the actions of an event. *)
Fixpoint handle_actions (ctx : TimelineEventContext) (actions : list TimelineAction) (recycled : option string)
    (item_added : bool) (st : TimelineState) : outcome Empty_set (bool * TimelineState) :=
  match actions with
  | [] => Ret (item_added, st)
  | action :: actions =>
      let! (added, st) := handle_timeline_action ctx action recycled st in
      handle_actions ctx actions recycled (item_added || added) st
  end.

Definition remember_and_handle (m : EventMeta) (ctx : TimelineEventContext) (position : TimelineItemPosition)
    (actions : list TimelineAction) (recycled : option string) (st : TimelineState)
    : outcome Empty_set TimelineState :=
  let! s := add_or_update_remote_event m position (tl st) in
  let recycled := if length actions =? 1 then recycled else None in
  let! (item_added, st) := handle_actions ctx actions recycled false (with_tl s st) in
  if item_added then Ret st
  else
    match position with
    | UpdateAt idx => let! (_, s) := remove idx (tl st) in Ret (with_tl s st)
    | _ => Ret st
    end.

(** [handle_remote_event], with [maybe_add_error_item] for an event that cannot be read. *)
Definition handle_remote_event (settings : TimelineSettings) (focus : TimelineFocusKind) (event : TimelineEvent)
    (position : TimelineItemPosition) (recycled : option string) (st : TimelineState)
    : outcome Empty_set TimelineState :=
  match event with
  | Readable ev =>
      let should_add := should_add_event_item settings focus ev position (tl st) in
      remember_and_handle
        (new_meta (ev_event_id ev) (Some (ev_sender ev)) should_add (shows_read_receipts settings (ev_is_state ev))
           (ev_thread_root ev) (ev_is_join ev))
        {| ctx_sender := ev_sender ev; ctx_timestamp := ev_origin_server_ts ev;
           flow := RemoteFlow (ev_event_id ev) (ev_transaction_id ev) position;
           should_add_new_items := should_add |}
        position (ev_actions ev) recycled st
  | Unreadable raw =>
      match raw_event_id raw with
      | None => Ret st
      | Some id =>
          match raw_sender raw, raw_origin_server_ts raw with
          | Some from, Some ts =>
              if raw_has_type raw && add_failed_to_parse settings
              then
                remember_and_handle (new_meta id (Some from) true true None false)
                  {| ctx_sender := from; ctx_timestamp := ts;
                     flow := RemoteFlow id (raw_transaction_id raw) position;
                     should_add_new_items := true |}
                  position [AddItem false] recycled st
              else
                let! s := add_or_update_remote_event (new_meta id (Some from) false false None false) position (tl st) in
                Ret (with_tl s st)
          | from, _ =>
              let! s := add_or_update_remote_event (new_meta id from false false None false) position (tl st) in
              Ret (with_tl s st)
          end
      end
  end.

(** ** Removing events *)

(** The identifier of the removed item, and of its event. *)
Definition remove_timeline_item (event_index : nat) (st : TimelineState)
    : outcome Empty_set (option (string * string) * TimelineState) :=
  match all_remote_events (tl st) !! event_index with
  | None => Ret (None, st)
  | Some m =>
      let! (recycled, s) :=
        (match timeline_item_index m with
         | Some i => let! (it, s) := remove i (tl st) in Ret (Some (internal_id it, meta_event_id m), s)
         | None => Ret (None, tl st)
         end) in
      Ret (recycled,
           with_tl {| items := items s; all_remote_events := snd (events_remove event_index (all_remote_events s)) |} st)
  end.

(** [for_each] with [ObservableItemsTransactionEntry::remove] on the items [f] selects;
    [todo] is the number of items that have not been visited. *)
Fixpoint remove_each (f : TimelineItem → bool) (todo i : nat) (s : ObservableItems) : outcome Empty_set ObservableItems :=
  match todo with
  | 0 => Ret s
  | S todo =>
      match items s !! i with
      | None => Ret s
      | Some it =>
          if f it then let! (_, s) := remove i s in remove_each f todo i s
          else remove_each f todo (S i) s
      end
  end.

(** The loop that removes stray date dividers; every turn brings [idx] closer to the
    length, so that as many turns as there are items are enough. *)
Fixpoint remove_stray_dividers (fuel idx : nat) (s : ObservableItems) : outcome Empty_set ObservableItems :=
  match items s !! idx with
  | None => Ret s
  | Some it =>
      match fuel with
      | 0 => OutOfFuel
      | S fuel =>
          if is_date_divider it
             && match items s !! (idx + 1) with Some next => is_date_divider next | None => true end
          then let! (_, s) := remove idx s in remove_stray_dividers fuel idx s
          else remove_stray_dividers fuel (idx + 1) s
      end
  end.

Definition cleared (m : TimelineMetadata) : TimelineMetadata :=
  {| internal_id_prefix := internal_id_prefix m; own_user_id := own_user_id m;
     next_internal_id := next_internal_id m; fully_read_event := None;
     has_up_to_date_read_marker_item := true |}.

Definition clear (st : TimelineState) : outcome Empty_set TimelineState :=
  let! s :=
    (if has_local (tl st)
     then
       let! s := remove_each (λ it, is_remote_event it || is_read_marker it || is_timeline_start it)
                   (length (items (tl st))) 0 (tl st) in
       remove_stray_dividers (length (items s)) 0 s
     else Ret (clear_items (tl st))) in
  Ret {| tl := s; meta := cleared (meta st) |}.

(** ** Diffs *)

Inductive VectorDiff :=
| Append (values : list TimelineEvent)
| PushFront (value : TimelineEvent)
| PushBack (value : TimelineEvent)
| DiffInsert (index : nat) (value : TimelineEvent)
| DiffSet (index : nat) (value : TimelineEvent)
| DiffRemove (index : nat)
| Clear
| PopFront | PopBack | Truncate (length : nat) | Reset (values : list TimelineEvent).

(** The identifier of an event, if it has one. *)
Definition id_of (event : TimelineEvent) : option string :=
  match event with Readable ev => Some (ev_event_id ev) | Unreadable raw => raw_event_id raw end.

Section diffs.
Context (settings : TimelineSettings) (focus : TimelineFocusKind) (origin : RemoteEventOrigin).

(** An event at a position, with the identifier its item had before it was removed
    by the same batch of diffs. *)
Definition handle_new_event (event : TimelineEvent) (position : TimelineItemPosition) (ids : gmap string string)
    (st : TimelineState) : outcome Empty_set (gmap string string * TimelineState) :=
  let recycled := id_of event ≫= (λ id, ids !! id) in
  let ids := match id_of event with Some id => delete id ids | None => ids end in
  let! st := handle_remote_event settings focus event position recycled st in
  Ret (ids, st).

Fixpoint append_events (events : list TimelineEvent) (ids : gmap string string) (st : TimelineState)
    : outcome Empty_set (gmap string string * TimelineState) :=
  match events with
  | [] => Ret (ids, st)
  | event :: events =>
      let! (ids, st) := handle_new_event event (End_ origin) ids st in
      append_events events ids st
  end.

Definition handle_diff (diff : VectorDiff) (ids : gmap string string) (st : TimelineState)
    : outcome Empty_set (gmap string string * TimelineState) :=
  match diff with
  | Append events => append_events events ids st
  | PushFront event => handle_new_event event (Start origin) ids st
  | PushBack event => handle_new_event event (End_ origin) ids st
  | DiffInsert event_index event => handle_new_event event (At event_index origin) ids st
  | DiffSet event_index event =>
      match all_remote_events (tl st) !! event_index ≫= timeline_item_index with
      | Some i =>
          let! st := handle_remote_event settings focus event (UpdateAt i) None st in
          Ret (ids, st)
      | None => Ret (ids, st)
      end
  | DiffRemove event_index =>
      let! (recycled, st) := remove_timeline_item event_index st in
      Ret (match recycled with Some (timeline_id, id) => <[id := timeline_id]> ids | None => ids end, st)
  | Clear => let! st := clear st in Ret (ids, st)
  | PopFront | PopBack | Truncate _ | Reset _ => Panic
  end.

Fixpoint handle_diffs (diffs : list VectorDiff) (ids : gmap string string) (st : TimelineState)
    : outcome Empty_set (gmap string string * TimelineState) :=
  match diffs with
  | [] => Ret (ids, st)
  | diff :: diffs =>
      let! (ids, st) := handle_diff diff ids st in
      handle_diffs diffs ids st
  end.

End diffs.

Section operations.
Context {local_time : LocalTime} (debug_assertions trace : bool).

Definition adjust_date_dividers (mode : DateDividerMode) (st : TimelineState) : outcome Empty_set TimelineState :=
  let! (_, s, m) := run debug_assertions trace (new_adjuster mode) (tl st) (meta st) in
  Ret {| tl := s; meta := m |}.

(** Whether two items have the same identifier, which is logged, or a panic with
    debug assertions. *)
Definition check_no_unused_unique_ids (st : TimelineState) : outcome Empty_set unit :=
  if bool_decide (NoDup (internal_id <$> items (tl st))) then Ret tt
  else if debug_assertions then Panic else Ret tt.

Definition handle_remote_events_with_diffs (settings : TimelineSettings) (focus : TimelineFocusKind)
    (diffs : list VectorDiff) (origin : RemoteEventOrigin) (st : TimelineState) : outcome Empty_set TimelineState :=
  match diffs with
  | [] => Ret st
  | _ =>
      let! (_, st) := handle_diffs settings focus origin diffs ∅ st in
      let! st := adjust_date_dividers (date_divider_mode settings) st in
      let! _ := check_no_unused_unique_ids st in
      Ret st
  end.

(** ** Local echoes *)

(** [handle_local_event]; [now] is the time of the call. *)
Definition handle_local_event (settings : TimelineSettings) (focus : TimelineFocusKind) (own : string) (txn : string)
    (now : Z) (thread_root : option string) (allowed_by_filter : bool) (action : TimelineAction)
    (st : TimelineState) : outcome Empty_set TimelineState :=
  let should_add :=
    allowed_by_filter &&
    match focus with
    | Live hide_threaded_events => bool_decide (thread_root = None) || negb hide_threaded_events
    | Thread root => bool_decide (thread_root = Some root)
    | EventFocus | PinnedEvents => false
    end in
  let! (_, st) :=
    handle_timeline_action
      {| ctx_sender := own; ctx_timestamp := now; flow := LocalFlow txn; should_add_new_items := should_add |}
      action None st in
  adjust_date_dividers (date_divider_mode settings) st.

(** [rfind_event_item] *)
Definition rfind_event_item (f : EventTimelineItem → bool) (l : list TimelineItem) : option (nat * TimelineItem) :=
  find_map (λ '(i, it),
    match as_event it with Some e => if f e then Some (i, it) else None | None => None end)
    (reverse (enumerate l)).

Definition update_event_send_state (settings : TimelineSettings) (txn : string) (send_state : EventSendState)
    (st : TimelineState) : outcome Empty_set TimelineState :=
  let l := items (tl st) in
  let new_event_id := match send_state with Sent id => Some id | _ => None end in
  match rfind_event_item (λ e, bool_decide (new_event_id ≠ None) && bool_decide (event_id e = new_event_id)
                               && bool_decide (as_remote e ≠ None)) l with
  | Some _ =>
      match rfind_event_item (λ e, bool_decide (transaction_id e = Some txn)) l with
      | Some (idx, _) =>
          let! (_, s) := remove idx (tl st) in
          adjust_date_dividers (date_divider_mode settings) (with_tl s st)
      | None => Ret st
      end
  | None =>
      match rfind_event_item (λ e, bool_decide (transaction_id e = Some txn)
                                   || bool_decide (new_event_id ≠ None) && bool_decide (event_id e = new_event_id)
                                      && bool_decide (as_remote e = None)) l with
      | Some (idx, it) =>
          match kind it with
          | Event {| sender := from; timestamp := ts; event_kind := Local _ txn' |} =>
              let! s := replace idx {| kind := Event {| sender := from; timestamp := ts;
                                                        event_kind := Local send_state txn' |};
                                       internal_id := internal_id it |} (tl st) in
              Ret (with_tl s st)
          | _ => Ret st
          end
      | None => Ret st
      end
  end.

Definition discard_local_echo (settings : TimelineSettings) (txn : string) (st : TimelineState)
    : outcome Empty_set TimelineState :=
  match rfind_event_item (λ e, bool_decide (transaction_id e = Some txn)) (items (tl st)) with
  | Some (idx, _) =>
      let! (_, s) := remove idx (tl st) in
      let! st := adjust_date_dividers (date_divider_mode settings) (with_tl s st) in
      update_read_marker st
  | None => Ret st
  end.

Definition set_fully_read_event (id : string) (st : TimelineState) : outcome Empty_set TimelineState :=
  if bool_decide (fully_read_event (meta st) = Some id) then Ret st
  else
    let m := meta st in
    update_read_marker
      {| tl := tl st;
         meta := {| internal_id_prefix := internal_id_prefix m; own_user_id := own_user_id m;
                    next_internal_id := next_internal_id m; fully_read_event := Some id;
                    has_up_to_date_read_marker_item := has_up_to_date_read_marker_item m |} |}.

Definition insert_timeline_start_if_missing (st : TimelineState) : outcome Empty_set TimelineState :=
  let '(it, m) := new_timeline_item (Virtual TimelineStart) (meta st) in
  let! s := push_timeline_start_if_missing it (tl st) in
  Ret {| tl := s; meta := m |}.

End operations.
