(* ===== verification/TimelineSpec.v ===== *)
(** * The timeline follows the events

    The operations of [TimelineState] return, and keep the remote events of a
    timeline in step with its items and with the vector of events the diffs come
    from. *)

From S2P Require Import Prelude TimelineItems DateDividers DateDividersSpec TimelineState.

(** ** Searches *)

Lemma find_map_Some {A B} (f : A → option B) l b :
  find_map f l = Some b → ∃ l1 x l2, l = l1 ++ x :: l2 ∧ f x = Some b ∧ ∀ y, y ∈ l1 → f y = None.
Proof.
  induction l as [|x l IH]; cbn; [done|]. destruct (f x) as [b'|] eqn:Hx.
  - intros [= ->]. exists [], x, l. split_and!; [done..|]. intros y Hy. by apply elem_of_nil in Hy.
  - intros (l1 & y & l2 & -> & Hy & Hl1)%IH. exists (x :: l1), y, l2. split_and!; [done..|].
    intros z [->|Hz]%elem_of_cons; auto.
Qed.

Lemma find_map_None {A B} (f : A → option B) l : find_map f l = None → ∀ x, x ∈ l → f x = None.
Proof.
  induction l as [|y l IH]; cbn; [by intros _ x ?%elem_of_nil|]. destruct (f y) eqn:Hy; [done|].
  intros Hf x [->|Hx]%elem_of_cons; auto.
Qed.

Lemma find_map_reverse {A B} (f : A → option B) l b :
  find_map f (reverse l) = Some b → ∃ l1 x l2, l = l1 ++ x :: l2 ∧ f x = Some b ∧ ∀ y, y ∈ l2 → f y = None.
Proof.
  intros (l1 & x & l2 & Hl & Hx & Hl1)%find_map_Some. exists (reverse l2), x, (reverse l1). split_and!; [|done|].
  - rewrite <-(reverse_involutive l), Hl, reverse_app, reverse_cons. by rewrite <-(assoc_L (++)).
  - intros y Hy. apply Hl1. by rewrite elem_of_reverse in Hy.
Qed.

Lemma find_map_reverse_None {A B} (f : A → option B) l : find_map f (reverse l) = None → ∀ x, x ∈ l → f x = None.
Proof. intros Hf x Hx. eapply find_map_None; [done|]. by rewrite elem_of_reverse. Qed.

Lemma find_map_elem {A B} (f : A → option B) l b : find_map f l = Some b → ∃ x, x ∈ l ∧ f x = Some b.
Proof. intros (l1 & x & l2 & -> & Hx & _)%find_map_Some. exists x. split; [|done]. apply elem_of_app. right. by left. Qed.

(** ** Regions *)

(** The items of a part of the vector are at the positions they are listed with. *)
Lemma part_lookup {A} (l : list A) a b j p :
  take a (drop b (enumerate l)) !! j = Some p → p.1 = b + j ∧ l !! p.1 = Some p.2.
Proof.
  intros [Hj _]%lookup_take_Some. rewrite lookup_drop in Hj. unfold enumerate in Hj. rewrite list_lookup_imap in Hj.
  apply fmap_Some in Hj as (x & Hx & ->). done.
Qed.

Lemma part_elem {A} (l : list A) a b p : p ∈ take a (drop b (enumerate l)) → l !! p.1 = Some p.2.
Proof. intros [j Hj]%list_elem_of_lookup_1. by destruct (part_lookup _ _ _ _ _ Hj). Qed.

Lemma in_part {A} (l : list A) a b k x : l !! k = Some x → b ≤ k < b + a → take a (drop b (enumerate l)) !! (k - b) = Some (k, x).
Proof.
  intros Hx Hk. rewrite lookup_take_lt by lia. rewrite lookup_drop. unfold enumerate. rewrite list_lookup_imap.
  replace (b + (k - b)) with k by lia. by rewrite Hx.
Qed.

Lemma count_while_all {A} (f : A → bool) l i x : i < count_while f l → l !! i = Some x → f x = true.
Proof.
  revert i. induction l as [|y l IH]; intros i; cbn; [done|]. destruct (f y) eqn:Hy; [|lia].
  destruct i as [|i]; cbn; [by intros _ [= <-]|]. intros Hi. apply IH. lia.
Qed.

(** The last items of a vector are local echoes, as many as the locals region has. *)
Lemma locals_are_local l k it :
  l !! k = Some it → length l - size_of_locals_region l ≤ k → is_local_echo it = true.
Proof.
  intros Hit Hk. unfold size_of_locals_region in Hk. pose proof (lookup_lt_Some _ _ _ Hit) as Hlt.
  pose proof (count_while_le is_local_echo (reverse l)) as Hle. rewrite length_reverse in Hle.
  eapply (count_while_all _ (reverse l) (length l - 1 - k)); [lia|].
  rewrite reverse_lookup by lia. rewrite <-Hit. f_equal. lia.
Qed.

Lemma remote_not_local it id : remote_id it = Some id → is_local_echo it = false ∧ is_event it = true ∧ is_timeline_start it = false.
Proof.
  unfold remote_id, as_event, is_local_echo, is_event, is_timeline_start. destruct (kind it) as [e|v]; [|done]. cbn.
  unfold as_remote. by destruct (event_kind e).
Qed.

(** Every remote item is in the remotes region. *)
Lemma remote_in_region s k it id :
  items s !! k = Some it → remote_id it = Some id →
  iter_remotes_region s !! (k - size_of_start_region (items s)) = Some (k, it) ∧ size_of_start_region (items s) ≤ k.
Proof.
  intros Hit Hid. destruct (remote_not_local it id Hid) as (Hl & He & Hs). pose proof (lookup_lt_Some _ _ _ Hit) as Hlt.
  assert (Hge : size_of_start_region (items s) ≤ k).
  { unfold size_of_start_region. destruct (items s) as [|x l] eqn:Hl'; [done|]. cbn.
    destruct (is_timeline_start x) eqn:Hx; [|lia]. destruct k; [|lia]. cbn in Hit. simplify_eq. congruence. }
  split; [|done]. unfold iter_remotes_region, size_of_remotes_region. apply in_part; [done|].
  destruct (decide (length (items s) - size_of_locals_region (items s) ≤ k)) as [Hloc|Hloc]; [|lia].
  apply (locals_are_local _ _ _ Hit) in Hloc. congruence.
Qed.

Lemma size_of_start_le l : size_of_start_region l ≤ length l.
Proof. pose proof (regions_le l). lia. Qed.

Lemma after_last_event_le s : after_last_event s ≤ length (items s).
Proof.
  unfold after_last_event. destruct (find_map _ _) as [i|] eqn:Hf; cbn; [|apply size_of_start_le].
  apply find_map_elem in Hf as ([k it] & Hin & Hi). rewrite elem_of_reverse in Hin. apply part_elem, lookup_lt_Some in Hin.
  cbn in Hin. destruct (as_event it); simplify_eq. lia.
Qed.

Lemma after_last_event_above s p : p ∈ remotes_from 0 (items s) → p.2 < after_last_event s.
Proof.
  destruct p as [id k]. cbn. intros Hp. apply (remotes_from_lookup 0 (items s) id k) in Hp as (it & Hit & Hid).
  destruct (remote_in_region s k it id Hit Hid) as [Hreg Hge]. destruct (remote_not_local it id Hid) as (_ & He & _).
  unfold after_last_event. destruct (find_map _ _) as [i|] eqn:Hf; cbn.
  - apply find_map_reverse in Hf as (l1 & [j it'] & l2 & Hl & Hj & Hl2).
    assert (Hjat : iter_remotes_region s !! length l1 = Some (j, it')) by (rewrite Hl; by apply list_lookup_middle).
    apply part_lookup in Hjat as [Hjat _]. cbn in Hjat.
    assert (Hle : k - size_of_start_region (items s) ≤ length l1).
    { destruct (decide (k - size_of_start_region (items s) ≤ length l1)) as [|Hgt]; [done|exfalso].
      rewrite Hl, lookup_app_r in Hreg by lia. destruct (k - _ - length l1) as [|r] eqn:Hr; [lia|]. cbn in Hreg.
      apply list_elem_of_lookup_2 in Hreg. specialize (Hl2 _ Hreg). cbn in Hl2. unfold is_event, as_event in *. by destruct (kind it). }
    destruct (as_event it'); simplify_eq. lia.
  - exfalso. apply list_elem_of_lookup_2 in Hreg. apply (find_map_reverse_None _ _ Hf) in Hreg. cbn in Hreg.
    unfold is_event, as_event in *. by destruct (kind it).
Qed.

(** ** Adding an item *)

(** What an operation promises: it returns, and keeps the events. *)
Definition keeps_events (s : ObservableItems) (o : outcome Empty_set TimelineState) : Prop :=
  ∃ st, o = Ret st ∧ in_step (tl st) ∧ event_ids (tl st) = event_ids s.

(** The event at [i] has the identifier [id] and no item. *)
Definition fresh_at (i : nat) (id : string) (l : list EventMeta) : Prop :=
  ∃ pre m post, l = pre ++ m :: post ∧ length pre = i ∧ meta_event_id m = id ∧ timeline_item_index m = None.

Lemma mapped_fresh pre m post : timeline_item_index m = None → mapped (pre ++ m :: post) = mapped pre ++ mapped post.
Proof. intros Hm. rewrite mapped_app. unfold mapped at 2. cbn. by rewrite Hm. Qed.

Lemma virtual_place i it l : is_event it = false → place_for i it None l.
Proof. intros He. unfold place_for, remote_id, as_event, is_event in *. by destruct (kind it). Qed.

Lemma local_place i it l : is_local_echo it = true → place_for i it None l.
Proof.
  intros He. unfold place_for, remote_id, as_event, is_local_echo, as_remote in *. destruct (kind it) as [e|]; [|done]. cbn.
  unfold as_remote. by destruct (event_kind e).
Qed.

Lemma event_place i it e id txn origin k l :
  kind it = Event e → event_kind e = Remote id txn origin → fresh_at k id l →
  (∀ pre m post, l = pre ++ m :: post → length pre = k →
     (∀ p, p ∈ mapped pre → p.2 < i) ∧ (∀ p, p ∈ mapped post → i ≤ p.2)) →
  place_for i it (Some k) l.
Proof.
  intros Hk He (pre & m & post & Hl & Hpre & Hm & Hnone) Hside. unfold place_for, remote_id, as_event. rewrite Hk. cbn.
  unfold as_remote. rewrite He. exists pre, m, post. destruct (Hside pre m post Hl Hpre). split_and!; done.
Qed.

Lemma update_read_marker_keeps st : in_step (tl st) → keeps_events (tl st) (update_read_marker st).
Proof.
  intros Hs. unfold update_read_marker. destruct (fully_read_event (meta st)) as [id|]; [|by exists st].
  set (s := tl st) in *. set (marker := find_map _ _). set (to := match find_map _ (reverse _) with Some _ => _ | None => _ end).
  assert (Hmark : ∀ from, marker = Some from → ∃ it, items s !! from = Some it ∧ is_read_marker it = true).
  { intros from ([k it] & Hin & Hk)%find_map_elem. rewrite elem_of_reverse in Hin. apply part_elem in Hin. cbn in Hin.
    destruct (is_read_marker it) eqn:Hm; simplify_eq. eauto. }
  assert (Hvirt : ∀ it, is_read_marker it = true → is_event it = false).
  { intros it. unfold is_read_marker, is_event. by destruct (kind it). }
  destruct marker as [from|] eqn:Hfrom; destruct to as [idx|]; [|by eexists..| |by eexists].
  - destruct (Hmark from eq_refl) as (it & Hit & Hm).
    destruct (remove_in_step from s it Hs Hit) as (s1 & Hrem & Hs1 & Hids1 & Hit1). rewrite Hrem.
    destruct (idx <=? from) eqn:Hle; [destruct (from + 1 =? _); by eexists|].
    destruct (Nat.ltb_spec (idx + 1) (length (items s))) as [Hlt|]; [|by eexists].
    destruct (insert_in_step idx it None s1) as (s2 & Hins & Hs2 & Hids2 & _).
    { done. } { rewrite Hit1, length_delete by done. lia. } { by apply virtual_place, Hvirt. }
    rewrite Hins. eexists. split; [done|]. split; [done|]. cbn. congruence.
  - destruct (Nat.ltb_spec (idx + 1) (length (items s))) as [Hlt|]; [|by eexists].
    destruct (insert_in_step (idx + 1) read_marker None s) as (s2 & Hins & Hs2 & Hids2 & _); [done|lia|done|].
    rewrite Hins. by eexists.
Qed.

Lemma lower_fresh n m : timeline_item_index m = None → lower n m = m.
Proof. intros Hm. unfold lower. by rewrite Hm. Qed.

Lemma remove_fresh i k id s it s' : remove i s = Ret (it, s') → fresh_at k id (all_remote_events s) → fresh_at k id (all_remote_events s').
Proof.
  unfold remove. destruct (vec_remove i (items s)) as [[it' l]| | |]; intros [= -> <-]. cbn.
  intros (pre & m & post & -> & Hpre & Hm & Hnone). exists (lower i <$> pre), m, (lower i <$> post).
  split; [|by rewrite length_fmap]. unfold timeline_item_has_been_removed_at. rewrite fmap_app, fmap_cons.
  f_equal. f_equal. by apply lower_fresh.
Qed.

Lemma recycle_keeps e id txn recycled k st :
  in_step (tl st) → fresh_at k id (all_remote_events (tl st)) →
  ∃ it st', recycle_local_or_create_item e id txn recycled st = Ret (it, st') ∧ kind it = Event e ∧
    in_step (tl st') ∧ event_ids (tl st') = event_ids (tl st) ∧ fresh_at k id (all_remote_events (tl st')).
Proof.
  intros Hs Hf. unfold recycle_local_or_create_item. destruct (find_map _ _) as [nth|] eqn:Hfind.
  - apply find_map_elem in Hfind as ([j it] & Hin & Hj). rewrite elem_of_reverse in Hin. apply part_elem in Hin. cbn in Hin.
    destruct (as_event it) as [local|]; [|done]. destruct (_ || _); simplify_eq.
    destruct (remove_in_step nth (tl st) it Hs Hin) as (s' & Hrem & Hs' & Hids & _). rewrite Hrem.
    eexists _, _. split_and!; [done..|]. cbn. by eapply remove_fresh.
  - unfold new_timeline_item_with_internal_id, new_timeline_item. destruct recycled as [i|]; [by eexists _, _|].
    by eexists _, _.
Qed.

(** The last event of a list that has an index has the greatest. *)
Lemma last_index_of l i :
  find_map timeline_item_index (reverse l) = Some i →
  ∃ l1 id, mapped l = l1 ++ [(id, i)].
Proof.
  intros (l1 & x & l2 & -> & Hx & Hl2)%find_map_reverse. exists (mapped l1), (meta_event_id x). rewrite mapped_app.
  unfold mapped at 2. cbn. rewrite Hx. cbn. f_equal. f_equal. clear -Hl2. induction l2 as [|y l2 IH]; [done|]. cbn.
  rewrite Hl2 by by left. cbn. apply IH. intros z Hz. apply Hl2. by right.
Qed.

Lemma first_index_of l i :
  find_map timeline_item_index l = Some i → ∃ l2 id, mapped l = (id, i) :: l2.
Proof.
  intros (l1 & x & l2 & -> & Hx & Hl1)%find_map_Some. exists (mapped l2), (meta_event_id x). rewrite mapped_app.
  assert (Hnil : mapped l1 = []).
  { clear -Hl1. induction l1 as [|y l1 IH]; [done|]. unfold mapped. cbn. rewrite Hl1 by by left. cbn. apply IH.
    intros z Hz. apply Hl1. by right. }
  rewrite Hnil. unfold mapped. cbn. by rewrite Hx.
Qed.

Lemma no_index_of l : (∀ m, m ∈ l → timeline_item_index m = None) → mapped l = [].
Proof.
  intros Hl. induction l as [|y l IH]; [done|]. unfold mapped. cbn. rewrite Hl by by left. cbn. apply IH.
  intros z Hz. apply Hl. by right.
Qed.

(** The positions of the items of the events before and after a new one. *)
Lemma sides_of_position pre m post s :
  in_step s → all_remote_events s = pre ++ m :: post → timeline_item_index m = None →
  ∃ i, position_of_event_at (length pre) s = Ret i ∧ i ≤ length (items s) ∧
    (∀ p, p ∈ mapped pre → p.2 < i) ∧ (∀ p, p ∈ mapped post → i ≤ p.2).
Proof.
  intros Hs Hl Hnone. unfold position_of_event_at. rewrite Hl. rewrite (proj2 (Nat.ltb_lt _ _)) by (rewrite length_app; cbn; lia).
  eexists. split; [done|]. replace (length pre + 1) with (length (pre ++ [m]) + 0) by (rewrite length_app; cbn; lia).
  replace (pre ++ m :: post) with ((pre ++ [m]) ++ post) by by rewrite <-(assoc_L (++)).
  rewrite Nat.add_0_r, take_app_length, drop_app_length, reverse_snoc. cbn [find_map]. rewrite Hnone.
  pose proof (in_step_sorted s Hs) as Hsort. rewrite Hl, mapped_fresh, fmap_app, StronglySorted_app in Hsort by done.
  destruct Hsort as (Hsep & Hs1 & Hs2). unfold in_step in Hs. rewrite Hl, mapped_fresh in Hs by done.
  assert (Hlt : ∀ p, p ∈ mapped pre ++ mapped post → p.2 < length (items s)).
  { intros p Hp. rewrite Hs in Hp. apply remotes_from_bounds in Hp; lia. }
  assert (Hafter : ∀ p q, p ∈ mapped pre → q ∈ mapped post → p.2 < q.2).
  { intros p q Hp Hq. apply Hsep; by apply (list_elem_of_fmap_2 snd). }
  destruct (find_map _ (reverse pre)) as [i|] eqn:Hleft.
  - apply last_index_of in Hleft as (l1 & id & Hpre). rewrite Hpre in Hs1, Hlt, Hafter |- *.
    assert (Hin : (id, i) ∈ l1 ++ [(id, i)]) by (apply elem_of_app; right; by left). split_and!.
    + specialize (Hlt (id, i)). cbn in Hlt. rewrite elem_of_app in Hlt. enough (i < length (items s)) by lia. auto.
    + intros p [Hp| ->%list_elem_of_singleton]%elem_of_app; cbn; [|lia]. rewrite fmap_app, StronglySorted_app in Hs1.
      destruct Hs1 as (Hs1 & _). enough (p.2 < i) by lia. apply Hs1; [by apply (list_elem_of_fmap_2 snd)|by left].
    + intros p Hp. specialize (Hafter _ p Hin Hp). cbn in Hafter. lia.
  - pose proof (no_index_of pre (find_map_reverse_None _ _ Hleft)) as Hpre. rewrite Hpre in Hlt |- *.
    destruct (find_map _ post) as [i|] eqn:Hright.
    + apply first_index_of in Hright as (l2 & id & Hpost). rewrite Hpost in Hs2, Hlt |- *. split_and!.
      * specialize (Hlt (id, i)). cbn in Hlt. enough (i < length (items s)) by lia. apply Hlt. by left.
      * intros p Hp. by apply elem_of_nil in Hp.
      * cbn in Hs2. apply StronglySorted_inv in Hs2 as [_ Hs2]. rewrite Forall_fmap, Forall_forall in Hs2.
        intros p [->|Hp]%elem_of_cons; [done|]. apply Hs2 in Hp. cbn in Hp. lia.
    + split; [apply after_last_event_le|]. rewrite (no_index_of post (find_map_None _ _ Hright)).
      split; intros p Hp; by apply elem_of_nil in Hp.
Qed.

Lemma then_read_marker s st :
  in_step (tl st) → event_ids (tl st) = event_ids s →
  keeps_events s (if has_up_to_date_read_marker_item (meta st) then Ret st else update_read_marker st).
Proof.
  intros Hs Hids. destruct (has_up_to_date_read_marker_item (meta st)); [by exists st|].
  destruct (update_read_marker_keeps st Hs) as (st' & -> & Hs' & Hids'). exists st'. split_and!; [done..|]. congruence.
Qed.

(** The index of the event that is being added. *)
Definition new_index (position : TimelineItemPosition) (s : ObservableItems) : option nat :=
  match position with
  | Start _ => Some 0
  | End_ _ => Some (length (all_remote_events s) - 1)
  | At i _ => Some i
  | UpdateAt _ => None
  end.

Lemma length_event_ids s s' : event_ids s' = event_ids s → length (all_remote_events s') = length (all_remote_events s).
Proof. intros Hids. apply (f_equal length) in Hids. unfold event_ids in Hids. by rewrite !length_fmap in Hids. Qed.

(** Where the item of a new event at the end goes. *)
Lemma insert_after_last it e id txn origin s :
  in_step s → kind it = Event e → event_kind e = Remote id txn origin →
  fresh_at (length (all_remote_events s) - 1) id (all_remote_events s) →
  ∃ s', insert (after_last_event s) it (Some (length (all_remote_events s) - 1)) s = Ret s' ∧
    in_step s' ∧ event_ids s' = event_ids s.
Proof.
  intros Hs Hk He Hf.
  destruct (insert_in_step (after_last_event s) it (Some (length (all_remote_events s) - 1)) s) as (s' & ? & ? & ? & _);
    [done|apply after_last_event_le| |by exists s'].
  eapply event_place; [done..|]. intros pre m post Hl Hlen. rewrite Hl, length_app in Hlen. cbn in Hlen.
  destruct post; [|cbn in Hlen; lia]. split; [|intros p Hp; by apply elem_of_nil in Hp].
  intros p Hp. apply after_last_event_above. rewrite <-Hs, Hl, mapped_app. apply elem_of_app. by left.
Qed.

Lemma add_item_new ctx redacted recycled st id txn position k :
  flow ctx = RemoteFlow id txn position → new_index position (tl st) = Some k →
  in_step (tl st) → fresh_at k id (all_remote_events (tl st)) →
  keeps_events (tl st) (add_item ctx redacted recycled st).
Proof.
  intros Hflow Hk Hs Hf. unfold add_item. rewrite Hflow. cbv beta iota.
  set (origin := match position with Start o | End_ o | At _ o => o | UpdateAt _ => Unknown end).
  assert (Horigin : origin_of position (tl st) = Ret origin) by by destruct position.
  rewrite Horigin. set (e := {| sender := _ |}).
  destruct (recycle_keeps e id txn recycled k st Hs Hf) as (it & st1 & Hrec & Hkind & Hs1 & Hids1 & Hf1).
  assert (Hdone : ∀ s', in_step s' → event_ids s' = event_ids (tl st1) →
    keeps_events (tl st) (if has_up_to_date_read_marker_item (meta (with_tl s' st1)) then Ret (with_tl s' st1)
                          else update_read_marker (with_tl s' st1))).
  { intros s' Hs' Hids'. apply then_read_marker; cbn; congruence. }
  destruct position as [o|o|i o|idx]; cbn in Hk; simplify_eq; rewrite Hrec.
  - destruct (insert_in_step 0 it (Some 0) (tl st1)) as (s' & Hins & Hs' & Hids' & _); [done|lia| |].
    + eapply event_place; [done..|]. intros [|] m post _ Hlen; [|done]. split; [intros p Hp; by apply elem_of_nil in Hp|lia].
    + rewrite push_front_insert in Hins. injection Hins as Hins. rewrite Hins. by apply Hdone.
  - rewrite <-(length_event_ids _ _ Hids1) in Hf1.
    destruct (insert_after_last it e id txn o (tl st1)) as (s' & Hins & Hs' & Hids'); [done..|].
    destruct (Nat.eqb_spec (after_last_event (tl st1)) (length (items (tl st1)))) as [Heq|Hne1].
    + rewrite Heq, push_back_insert in Hins. injection Hins as Hins. rewrite Hins. by apply Hdone.
    + destruct (Nat.eqb_spec (after_last_event (tl st1)) 0) as [Heq|Hne2]; [|rewrite Hins; by apply Hdone].
      rewrite Heq, push_front_insert in Hins. injection Hins as Hins. rewrite Hins. by apply Hdone.
  - destruct Hf1 as (pre & m & post & Hl & <- & Hid & Hnone).
    destruct (sides_of_position pre m post (tl st1) Hs1 Hl Hnone) as (i & -> & Hi & Hlo & Hhi).
    destruct (insert_in_step i it (Some (length pre)) (tl st1)) as (s' & -> & Hs' & Hids' & _); [done..| |by apply Hdone].
    unfold place_for, remote_id, as_event. rewrite Hkind. cbn. by exists pre, m, post.
Qed.

(** ** Handling an event *)

Definition adds (a : TimelineAction) : Prop := match a with AddItem _ => True | HandleAggregation => False end.

#[export] Instance adds_dec a : Decision (adds a).
Proof. destruct a; apply _. Defined.

(** At most one of the actions of an event adds an item. *)
Definition one_item (actions : list TimelineAction) : Prop := length (filter adds actions) ≤ 1.

Lemma one_item_single r : one_item [AddItem r].
Proof. unfold one_item. by rewrite filter_cons_True by exact I. Qed.

Lemma handle_aggregations ctx actions recycled added st :
  filter adds actions = [] → handle_actions ctx actions recycled added st = Ret (added, st).
Proof.
  revert added. induction actions as [|[r|] actions IH]; intros added Hf; [done| |].
  - by rewrite filter_cons_True in Hf.
  - rewrite filter_cons_False in Hf by (by intros []). cbn. rewrite orb_false_r. by apply IH.
Qed.

(** The actions of an event, given what the action that adds its item does. *)
Lemma handle_actions_one ctx actions recycled st :
  one_item actions →
  (∀ r, keeps_events (tl st) (add_item ctx r recycled st)) → in_step (tl st) →
  ∃ added st', handle_actions ctx actions recycled false st = Ret (added, st') ∧
    in_step (tl st') ∧ event_ids (tl st') = event_ids (tl st) ∧ (added = false → st' = st).
Proof.
  intros Hone Hadd Hs. unfold one_item in Hone. induction actions as [|[r|] actions IH]; [by eexists _, _| |].
  - rewrite filter_cons_True in Hone by exact I. cbn in Hone. assert (Hnil : filter adds actions = []) by (apply nil_length_inv; lia).
    cbn. destruct (should_add_new_items ctx); rewrite ?(handle_aggregations _ _ _ _ _ Hnil); [|by eexists _, _].
    destruct (Hadd r) as (st' & -> & Hs' & Hids'). rewrite (handle_aggregations _ _ _ _ _ Hnil). by eexists _, _.
  - rewrite filter_cons_False in Hone by (by intros []). by apply IH.
Qed.

(** The events once an event is remembered at a position. *)
Definition insert_id (position : TimelineItemPosition) (id : string) (ids : list string) : list string :=
  match position with
  | Start _ => id :: ids
  | End_ _ => ids ++ [id]
  | At i _ => take i ids ++ id :: drop i ids
  | UpdateAt _ => ids
  end.

(** A position for a new event of a vector of events. *)
Definition position_fits (position : TimelineItemPosition) (n : nat) : Prop :=
  match position with At i _ => i ≤ n | UpdateAt _ => False | Start _ | End_ _ => True end.

Lemma remember_new m position s :
  in_step s → timeline_item_index m = None → position_fits position (length (all_remote_events s)) →
  ∃ s' k, add_or_update_remote_event m position s = Ret s' ∧ in_step s' ∧ items s' = items s ∧
    event_ids s' = insert_id position (meta_event_id m) (event_ids s) ∧
    new_index position s' = Some k ∧ fresh_at k (meta_event_id m) (all_remote_events s').
Proof.
  intros Hs Hm Hpos. unfold add_or_update_remote_event, events_push_front, events_push_back, events_insert, make_place. rewrite Hm.
  destruct position as [o|o|i o|idx]; [| |cbn in Hpos|done].
  - eexists _, 0. split; [done|]. unfold in_step, event_ids. cbn. split_and!; try done.
    + unfold mapped. cbn. by rewrite Hm.
    + by exists [], m, (all_remote_events s).
  - eexists _, _. split; [done|]. unfold in_step, event_ids. cbn. split_and!; try done.
    + rewrite mapped_app. unfold mapped at 2. cbn. rewrite Hm. cbn. by rewrite app_nil_r.
    + by rewrite fmap_app.
    + exists (all_remote_events s), m, []. split_and!; try done. rewrite length_app. cbn. lia.
  - unfold vec_insert. rewrite (proj2 (Nat.leb_le _ _)) by done. eexists _, i. split; [done|]. unfold in_step, event_ids. cbn.
    split_and!; try done.
    + rewrite mapped_fresh by done. by rewrite <-mapped_app, take_drop.
    + by rewrite fmap_app, fmap_cons, fmap_take, fmap_drop.
    + exists (take i (all_remote_events s)), m, (drop i (all_remote_events s)). split_and!; try done. rewrite length_take. lia.
Qed.

Lemma remember_and_handle_new m ctx position actions recycled st id txn :
  flow ctx = RemoteFlow id txn position → meta_event_id m = id → timeline_item_index m = None →
  one_item actions → in_step (tl st) → position_fits position (length (all_remote_events (tl st))) →
  ∃ st', remember_and_handle m ctx position actions recycled st = Ret st' ∧ in_step (tl st') ∧
    event_ids (tl st') = insert_id position id (event_ids (tl st)).
Proof.
  intros Hflow <- Hm Hone Hs Hpos. unfold remember_and_handle.
  destruct (remember_new m position (tl st) Hs Hm Hpos) as (s1 & k & -> & Hs1 & Hit & Hids & Hk & Hf).
  destruct (handle_actions_one ctx actions (if length actions =? 1 then recycled else None) (with_tl s1 st))
    as (added & st' & -> & Hs' & Hids' & _); [done| |done|].
  { intros r. by eapply add_item_new. }
  rewrite Hids in Hids' || (cbn in Hids'; rewrite Hids in Hids').
  destruct added; [by eexists|]. destruct position; try done; by eexists.
Qed.

(** An event with an identifier, at most one of whose actions adds an item. *)
Definition event_fits (id : string) (event : TimelineEvent) : Prop :=
  id_of event = Some id ∧ match event with Readable ev => one_item (ev_actions ev) | Unreadable _ => True end.

Lemma remember_only m position st :
  in_step (tl st) → timeline_item_index m = None → position_fits position (length (all_remote_events (tl st))) →
  ∃ st', (let! s := add_or_update_remote_event m position (tl st) in Ret (with_tl s st)) = Ret st' ∧ in_step (tl st') ∧
    event_ids (tl st') = insert_id position (meta_event_id m) (event_ids (tl st)).
Proof.
  intros Hs Hm Hpos. destruct (remember_new m position (tl st) Hs Hm Hpos) as (s1 & k & -> & Hs1 & _ & Hids & _). by eexists.
Qed.

Lemma handle_remote_event_new settings focus event position recycled st id :
  event_fits id event → in_step (tl st) → position_fits position (length (all_remote_events (tl st))) →
  ∃ st', handle_remote_event settings focus event position recycled st = Ret st' ∧ in_step (tl st') ∧
    event_ids (tl st') = insert_id position id (event_ids (tl st)).
Proof.
  intros [Hid Hone] Hs Hpos. unfold handle_remote_event. destruct event as [ev|raw]; cbn in Hid.
  - simplify_eq. by eapply remember_and_handle_new.
  - rewrite Hid. destruct (raw_sender raw) as [from|], (raw_origin_server_ts raw) as [ts|]; [|by apply remember_only..].
    destruct (_ && _); [|by apply remember_only]. eapply remember_and_handle_new; try done. apply one_item_single.
Qed.

Lemma handle_new_event_spec settings focus event position ids st id :
  event_fits id event → in_step (tl st) → position_fits position (length (event_ids (tl st))) →
  ∃ ids' st', handle_new_event settings focus event position ids st = Ret (ids', st') ∧ in_step (tl st') ∧
    event_ids (tl st') = insert_id position id (event_ids (tl st)).
Proof.
  intros Hev Hs Hpos. unfold handle_new_event. unfold event_ids in Hpos. rewrite length_fmap in Hpos.
  destruct (handle_remote_event_new settings focus event position (id_of event ≫= (λ id, ids !! id)) st id)
    as (st' & -> & Hs' & Hids'); [done..|]. by eexists _, _.
Qed.

Lemma append_events_spec settings focus origin events ids st eids :
  Forall2 event_fits eids events → in_step (tl st) →
  ∃ ids' st', append_events settings focus origin events ids st = Ret (ids', st') ∧ in_step (tl st') ∧
    event_ids (tl st') = event_ids (tl st) ++ eids.
Proof.
  intros Hev. revert ids st. induction Hev as [|id event eids events Hev _ IH]; intros ids st Hs.
  { eexists _, _. split; [done|]. by rewrite app_nil_r. }
  cbn. destruct (handle_new_event_spec settings focus event (End_ origin) ids st id) as (ids1 & st1 & -> & Hs1 & Hids1); [done..|].
  destruct (IH ids1 st1 Hs1) as (ids2 & st2 & -> & Hs2 & Hids2). eexists _, _. split; [done|]. split; [done|].
  rewrite Hids2, Hids1. cbn. by rewrite <-(assoc_L (++)).
Qed.

(** ** Updating and removing an event *)

Lemma update_by_event_id_mapped id vis can l :
  mapped (update_by_event_id id (with_visibility vis can) l) = mapped l ∧
  meta_event_id <$> update_by_event_id id (with_visibility vis can) l = meta_event_id <$> l.
Proof.
  unfold update_by_event_id. destruct (find_map _ _) as [i|]; [|done].
  revert i. induction l as [|m l IH]; intros [|i]; [done..|]. cbn. unfold mapped in *. cbn.
  destruct (IH i) as [H1 H2]. unfold alter in *. by rewrite H1, H2.
Qed.

(** The event of an index has its item there. *)
Lemma event_item s k m i :
  in_step s → all_remote_events s !! k = Some m → timeline_item_index m = Some i →
  ∃ it, items s !! i = Some it ∧ remote_id it = Some (meta_event_id m).
Proof.
  intros Hs Hk Hi. apply (remotes_from_lookup 0 (items s) (meta_event_id m) i). cbn. rewrite <-Hs.
  apply mapped_elem. exists m. split; [by eapply list_elem_of_lookup_2|done].
Qed.

Lemma add_item_update ctx redacted recycled st id txn idx old :
  flow ctx = RemoteFlow id txn (UpdateAt idx) → in_step (tl st) →
  items (tl st) !! idx = Some old → remote_id old = Some id →
  keeps_events (tl st) (add_item ctx redacted recycled st).
Proof.
  intros Hflow Hs Hold Hid. unfold add_item. rewrite Hflow. cbn. rewrite Hold.
  set (e := {| sender := _ |}). destruct redacted; [by apply then_read_marker|].
  destruct (replace_in_step idx (tl st) old {| kind := Event e; internal_id := internal_id old |}) as (s' & -> & Hs' & Hids & _);
    [done..|]. by apply then_read_marker.
Qed.

Lemma handle_remote_event_update settings focus event st id k m idx :
  event_fits id event → in_step (tl st) →
  all_remote_events (tl st) !! k = Some m → timeline_item_index m = Some idx → meta_event_id m = id →
  keeps_events (tl st) (handle_remote_event settings focus event (UpdateAt idx) None st).
Proof.
  intros [Hid Hone] Hs Hk Hidx Hm. destruct (event_item _ _ _ _ Hs Hk Hidx) as (it & Hit & Hrem). rewrite Hm in Hrem.
  assert (Hupd : ∀ em, ∃ s, add_or_update_remote_event em (UpdateAt idx) (tl st) = Ret s ∧ in_step s ∧
    event_ids s = event_ids (tl st) ∧ items s = items (tl st)).
  { intros em. eexists. split; [done|]. unfold in_step, event_ids. cbn [items all_remote_events].
    by destruct (update_by_event_id_mapped (meta_event_id em) (visible em) (can_show_read_receipts em) (all_remote_events (tl st))) as [-> ->]. }
  assert (Hhandle : ∀ em ctx txn actions, flow ctx = RemoteFlow id txn (UpdateAt idx) → one_item actions →
    keeps_events (tl st) (remember_and_handle em ctx (UpdateAt idx) actions None st)).
  { intros em ctx txn actions Hflow Hone'. unfold remember_and_handle. destruct (Hupd em) as (s1 & -> & Hs1 & Hids1 & Hit1).
    assert (Hnone : (if length actions =? 1 then None else None) = (None : option string)) by by destruct (_ =? _).
    rewrite Hnone. destruct (handle_actions_one ctx actions None (with_tl s1 st)) as (added & st' & -> & Hs' & Hids' & Hsame); [done| |done|].
    { intros r. eapply (add_item_update _ _ _ (with_tl s1 st)); [done..| |done]. cbn. by rewrite Hit1. }
    destruct added; [exists st'; split_and!; [done..|]; by rewrite Hids'|].
    rewrite (Hsame eq_refl). cbn -[remove]. destruct (remove_in_step idx s1 it) as (s2 & -> & Hs2 & Hids2 & _); [done|by rewrite Hit1|].
    eexists. split; [done|]. split; [done|]. cbn. congruence. }
  unfold handle_remote_event. destruct event as [ev|raw]; cbn in Hid.
  - injection Hid as <-. by eapply Hhandle.
  - rewrite Hid. assert (Honly : ∀ em, keeps_events (tl st)
      (let! s := add_or_update_remote_event em (UpdateAt idx) (tl st) in Ret (with_tl s st))).
    { intros em. destruct (Hupd em) as (s1 & -> & Hs1 & Hids1 & _). by eexists. }
    destruct (raw_sender raw) as [from|], (raw_origin_server_ts raw) as [ts|]; [|done..].
    destruct (_ && _); [|done]. eapply Hhandle; [done|]. apply one_item_single.
Qed.

Lemma delete_unmapped l k m : l !! k = Some m → timeline_item_index m = None → mapped (delete k l) = mapped l.
Proof.
  intros Hk Hm. rewrite delete_take_drop. rewrite <-(take_drop_middle _ _ _ Hk) at 3. by rewrite mapped_fresh, mapped_app.
Qed.

Lemma remove_timeline_item_spec k st :
  in_step (tl st) →
  ∃ r st', remove_timeline_item k st = Ret (r, st') ∧ in_step (tl st') ∧ event_ids (tl st') = delete k (event_ids (tl st)).
Proof.
  intros Hs. unfold remove_timeline_item. destruct (all_remote_events (tl st) !! k) as [m|] eqn:Hk.
  2:{ eexists _, _. split; [done|]. split; [done|]. unfold event_ids. rewrite delete_take_drop. apply lookup_ge_None in Hk.
      rewrite take_ge, drop_ge, app_nil_r by (rewrite length_fmap; lia). done. }
  assert (Hdel : ∀ l m', l !! k = Some m' → timeline_item_index m' = None →
    snd (events_remove k l) = delete k l).
  { intros l m' Hl Hm'. unfold events_remove. by rewrite Hl, Hm'. }
  destruct (timeline_item_index m) as [i|] eqn:Hi.
  - destruct (event_item _ _ _ _ Hs Hk Hi) as (it & Hit & _).
    destruct (remove_in_step i (tl st) it Hs Hit) as (s1 & Hrem & Hs1 & Hids1 & _). rewrite Hrem.
    assert (Hk1 : all_remote_events s1 !! k = Some (with_index None m)).
    { unfold remove in Hrem. destruct (vec_remove _ _) as [[? ?]| | |]; simplify_eq/=. unfold timeline_item_has_been_removed_at.
      rewrite list_lookup_fmap, Hk. cbn. rewrite Hi. by rewrite Nat.compare_refl. }
    eexists _, _. split; [done|]. unfold in_step, event_ids. cbn [tl with_tl items all_remote_events]. rewrite (Hdel _ _ Hk1) by done.
    rewrite (delete_unmapped _ _ _ Hk1) by done. split; [done|]. rewrite list_fmap_delete. f_equal. exact Hids1.
  - eexists _, _. split; [done|]. unfold in_step, event_ids. cbn [tl with_tl items all_remote_events]. rewrite (Hdel _ _ Hk) by done.
    rewrite (delete_unmapped _ _ _ Hk) by done. split; [done|]. by rewrite list_fmap_delete.
Qed.

(** ** Clearing *)

Lemma remove_each_keeps f n i s : in_step s → ∃ s', remove_each f n i s = Ret s' ∧ in_step s' ∧ event_ids s' = event_ids s.
Proof.
  revert i s. induction n as [|n IH]; intros i s Hs; [by eexists|]. cbn.
  destruct (items s !! i) as [it|] eqn:Hit; [|by eexists]. destruct (f it); [|by apply IH].
  destruct (remove_in_step i s it Hs Hit) as (s1 & -> & Hs1 & Hids1 & _).
  destruct (IH i s1 Hs1) as (s2 & -> & Hs2 & Hids2). eexists. split_and!; [done..|]. congruence.
Qed.

(** As many turns as there are items left are enough. *)
Lemma remove_stray_dividers_keeps n i s :
  in_step s → length (items s) ≤ i + n →
  ∃ s', remove_stray_dividers n i s = Ret s' ∧ in_step s' ∧ event_ids s' = event_ids s.
Proof.
  revert i s. induction n as [|n IH]; intros i s Hs Hn; cbn.
  - rewrite lookup_ge_None_2 by lia. by eexists.
  - destruct (items s !! i) as [it|] eqn:Hit; [|by eexists].
    destruct (is_date_divider it && _); [|apply IH; [done|lia]].
    destruct (remove_in_step i s it Hs Hit) as (s1 & -> & Hs1 & Hids1 & Hit1).
    destruct (IH i s1 Hs1) as (s2 & -> & Hs2 & Hids2).
    { rewrite Hit1, length_delete by done. lia. }
    eexists. split_and!; [done..|]. congruence.
Qed.

(** Clearing keeps the remote events when the timeline ends with a local echo. *)
Lemma clear_spec st :
  in_step (tl st) →
  ∃ st', clear st = Ret st' ∧ in_step (tl st') ∧
    event_ids (tl st') = if has_local (tl st) then event_ids (tl st) else [].
Proof.
  intros Hs. unfold clear. destruct (has_local (tl st)); [|by eexists].
  destruct (remove_each_keeps (λ it, is_remote_event it || is_read_marker it || is_timeline_start it)
              (length (items (tl st))) 0 (tl st) Hs) as (s1 & -> & Hs1 & Hids1).
  destruct (remove_stray_dividers_keeps (length (items s1)) 0 s1 Hs1) as (s2 & -> & Hs2 & Hids2); [done|].
  eexists. split_and!; [done..|]. cbn. congruence.
Qed.

(** ** Diffs *)

(** The identifiers of a vector of events after a diff. *)
Definition diff_ids (diff : VectorDiff) (src : list string) : list string :=
  match diff with
  | Append events => src ++ omap id_of events
  | PushFront event => match id_of event with Some id => id :: src | None => src end
  | PushBack event => match id_of event with Some id => src ++ [id] | None => src end
  | DiffInsert i event => match id_of event with Some id => take i src ++ id :: drop i src | None => src end
  | DiffRemove i => delete i src
  | Clear => []
  | _ => src
  end.

(** A diff of the vector: its events have identifiers, its indices are within the
    vector, an update keeps the identifier of the event.  A timeline that ends with a
    local echo is not cleared. *)
Definition diff_fits (src : list string) (st : TimelineState) (diff : VectorDiff) : Prop :=
  match diff with
  | Append events => Forall (λ event, ∃ id, event_fits id event) events
  | PushFront event | PushBack event => ∃ id, event_fits id event
  | DiffInsert i event => (∃ id, event_fits id event) ∧ i ≤ length src
  | DiffSet i event => ∃ id, event_fits id event ∧ src !! i = Some id
  | DiffRemove _ => True
  | Clear => has_local (tl st) = false
  | PopFront | PopBack | Truncate _ | Reset _ => False
  end.

Section following.
Context (settings : TimelineSettings) (focus : TimelineFocusKind).

Lemma handle_diff_spec origin diff ids st :
  in_step (tl st) → diff_fits (event_ids (tl st)) st diff →
  ∃ ids' st', handle_diff settings focus origin diff ids st = Ret (ids', st') ∧ in_step (tl st') ∧
    event_ids (tl st') = diff_ids diff (event_ids (tl st)).
Proof.
  intros Hs Hfit. destruct diff as [events|event|event|i event|i event|i| | | | |]; cbn in Hfit; [..|done|done|done|done].
  - assert (Hev : Forall2 event_fits (omap id_of events) events).
    { induction Hfit as [|event events (id & Hid & Hone) _ IH]; [constructor|]. cbn. rewrite Hid. by constructor. }
    by apply append_events_spec.
  - destruct Hfit as (id & Hev). pose proof (proj1 Hev) as Hid. cbn [diff_ids]. rewrite Hid.
    by apply (handle_new_event_spec settings focus event (Start origin)).
  - destruct Hfit as (id & Hev). pose proof (proj1 Hev) as Hid. cbn [diff_ids]. rewrite Hid.
    by apply (handle_new_event_spec settings focus event (End_ origin)).
  - destruct Hfit as ((id & Hev) & Hi). pose proof (proj1 Hev) as Hid. cbn [diff_ids]. rewrite Hid.
    by apply (handle_new_event_spec settings focus event (At i origin)).
  - destruct Hfit as (id & Hev & Hsrc). cbn. unfold event_ids in Hsrc. rewrite list_lookup_fmap in Hsrc.
    apply fmap_Some in Hsrc as (m & Hm & Hid). rewrite Hm. cbn. destruct (timeline_item_index m) as [idx|] eqn:Hidx; [|by eexists _, _].
    destruct (handle_remote_event_update settings focus event st id i m idx) as (st' & -> & Hs' & Hids'); [done..|]. by eexists _, _.
  - cbn. destruct (remove_timeline_item_spec i st Hs) as (r & st' & -> & Hs' & Hids'). by eexists _, _.
  - cbn. destruct (clear_spec st Hs) as (st' & -> & Hs' & Hids'). rewrite Hfit in Hids'. by eexists _, _.
Qed.

Fixpoint diffs_fit (origin : RemoteEventOrigin) (diffs : list VectorDiff) (ids : gmap string string)
    (src : list string) (st : TimelineState) : Prop :=
  match diffs with
  | [] => True
  | diff :: diffs =>
      diff_fits src st diff ∧
      match handle_diff settings focus origin diff ids st with
      | Ret (ids, st) => diffs_fit origin diffs ids (diff_ids diff src) st
      | _ => True
      end
  end.

Lemma handle_diffs_spec origin diffs ids st :
  in_step (tl st) → diffs_fit origin diffs ids (event_ids (tl st)) st →
  ∃ ids' st', handle_diffs settings focus origin diffs ids st = Ret (ids', st') ∧ in_step (tl st') ∧
    event_ids (tl st') = foldl (λ src diff, diff_ids diff src) (event_ids (tl st)) diffs.
Proof.
  revert ids st. induction diffs as [|diff diffs IH]; intros ids st Hs Hfit; [by eexists _, _|]. cbn in Hfit |- *.
  destruct Hfit as [Hfit Hrest].
  destruct (handle_diff_spec origin diff ids st Hs Hfit) as (ids1 & st1 & Hd & Hs1 & Hids1). rewrite Hd in Hrest |- *.
  rewrite <-Hids1 in Hrest |- *. by apply IH.
Qed.

(** ** The other operations *)

Context {local_time : LocalTime} (trace : bool).

(** In a build without debug assertions the date dividers are adjusted in every mode. *)
Lemma adjust_date_dividers_keeps mode st : in_step (tl st) → keeps_events (tl st) (adjust_date_dividers false trace mode st).
Proof.
  intros Hs. unfold adjust_date_dividers. destruct (decide (mode = ModeNone)) as [->|Hm].
  - destruct (run_none_spec false trace (tl st) (meta st) Hs) as (a & s' & m' & -> & Hs' & Hids' & _). by eexists.
  - destruct (run_spec false trace mode (tl st) (meta st) Hm Hs) as (s' & m' & errors & Hs' & Hids' & _ & _ & ->).
    destruct errors; by eexists.
Qed.

Lemma keeps_trans_events s st1 o :
  event_ids (tl st1) = event_ids s → keeps_events (tl st1) o → keeps_events s o.
Proof. intros Hids (st & -> & Hs & Hst). exists st. split_and!; [done..|]. congruence. Qed.

Lemma add_local_item ctx redacted st txn :
  flow ctx = LocalFlow txn → in_step (tl st) → keeps_events (tl st) (add_item ctx redacted None st).
Proof.
  intros Hflow Hs. unfold add_item. rewrite Hflow. cbn.
  set (it := {| kind := Event {| sender := _ |}; internal_id := _ |}).
  destruct (insert_in_step (length (items (tl st))) it None (tl st)) as (s' & Hins & Hs' & Hids' & _); [done..|].
  rewrite push_back_insert in Hins. injection Hins as Hins. rewrite Hins.
  by apply (then_read_marker (tl st) {| tl := s'; meta := with_next_internal_id _ (meta st) |}).
Qed.

Lemma handle_local_event_keeps own txn now root allowed action st :
  in_step (tl st) →
  keeps_events (tl st) (handle_local_event false trace settings focus own txn now root allowed action st).
Proof.
  intros Hs. unfold handle_local_event, handle_timeline_action. set (ctx := {| ctx_sender := own |}).
  destruct action as [r|]; [|by apply adjust_date_dividers_keeps].
  destruct (should_add_new_items ctx); [|by apply adjust_date_dividers_keeps].
  destruct (add_local_item ctx r st txn eq_refl Hs) as (st1 & -> & Hs1 & Hids1).
  eapply keeps_trans_events; [done|]. by apply adjust_date_dividers_keeps.
Qed.

Lemma rfind_event_item_Some f l i it :
  rfind_event_item f l = Some (i, it) → l !! i = Some it ∧ ∃ e, kind it = Event e ∧ f e = true.
Proof.
  intros ([j x] & Hin & Hj)%find_map_elem. rewrite elem_of_reverse in Hin. unfold enumerate in Hin.
  apply elem_of_lookup_imap_1 in Hin as (k & y & [= -> ->] & Hy). unfold as_event in Hj.
  destruct (kind y) as [e|] eqn:Hk; [|done]. destruct (f e) eqn:Hf; simplify_eq. eauto.
Qed.

Lemma remove_then_adjust i it st :
  in_step (tl st) → items (tl st) !! i = Some it →
  keeps_events (tl st)
    (let! (_, s) := remove i (tl st) in adjust_date_dividers false trace (date_divider_mode settings) (with_tl s st)).
Proof.
  intros Hs Hit. destruct (remove_in_step i (tl st) it Hs Hit) as (s1 & -> & Hs1 & Hids1 & _).
  eapply (keeps_trans_events _ (with_tl s1 st)); [done|]. by apply adjust_date_dividers_keeps.
Qed.

Lemma update_event_send_state_keeps txn send_state st :
  in_step (tl st) → keeps_events (tl st) (update_event_send_state false trace settings txn send_state st).
Proof.
  intros Hs. unfold update_event_send_state. destruct (rfind_event_item _ _) as [found|].
  { destruct (rfind_event_item (λ e, bool_decide (transaction_id e = Some txn)) _) as [[i it]|] eqn:Hf; [|by exists st].
    apply rfind_event_item_Some in Hf as [Hit _]. by eapply remove_then_adjust. }
  destruct (rfind_event_item _ _) as [[i it]|] eqn:Hf; [|by exists st]. apply rfind_event_item_Some in Hf as [Hit _].
  destruct (kind it) as [[from ts [old txn'|]]|] eqn:Hk; [|by exists st..].
  destruct (replace_in_step i (tl st) it
    {| kind := Event {| sender := from; timestamp := ts; event_kind := Local send_state txn' |}; internal_id := internal_id it |})
    as (s' & -> & Hs' & Hids' & _); [done..| |by eexists].
  unfold remote_id, as_event. by rewrite Hk.
Qed.

Lemma discard_local_echo_keeps txn st :
  in_step (tl st) → keeps_events (tl st) (discard_local_echo false trace settings txn st).
Proof.
  intros Hs. unfold discard_local_echo. destruct (rfind_event_item _ _) as [[i it]|] eqn:Hf; [|by exists st].
  apply rfind_event_item_Some in Hf as [Hit _]. destruct (remove_in_step i (tl st) it Hs Hit) as (s1 & -> & Hs1 & Hids1 & _).
  destruct (adjust_date_dividers_keeps (date_divider_mode settings) (with_tl s1 st) Hs1) as (st2 & -> & Hs2 & Hids2).
  eapply (keeps_trans_events _ st2); [|by apply update_read_marker_keeps]. cbn in Hids2. congruence.
Qed.

Lemma insert_timeline_start_keeps st : in_step (tl st) → keeps_events (tl st) (insert_timeline_start_if_missing st).
Proof.
  intros Hs. unfold insert_timeline_start_if_missing, push_timeline_start_if_missing. cbn.
  set (it := {| kind := _; internal_id := _ |}). destruct (match items (tl st) !! 0 with Some _ => _ | None => _ end); [by eexists|].
  destruct (insert_in_step 0 it None (tl st)) as (s' & Hins & Hs' & Hids' & _); [done|lia|done|].
  rewrite push_front_insert in Hins. injection Hins as Hins. rewrite Hins. by eexists.
Qed.

(** ** Sequences of operations *)

Inductive TimelineInput :=
| RemoteDiffs (diffs : list VectorDiff) (origin : RemoteEventOrigin)
| LocalEcho (own txn : string) (now : Z) (thread_root : option string) (allowed_by_filter : bool) (action : TimelineAction)
| SendStateUpdate (txn : string) (send_state : EventSendState)
| LocalEchoDiscarded (txn : string)
| FullyRead (id : string)
| StartReached.

Definition step (input : TimelineInput) (st : TimelineState) : outcome Empty_set TimelineState :=
  match input with
  | RemoteDiffs diffs origin => handle_remote_events_with_diffs false trace settings focus diffs origin st
  | LocalEcho own txn now root allowed action =>
      handle_local_event false trace settings focus own txn now root allowed action st
  | SendStateUpdate txn send_state => update_event_send_state false trace settings txn send_state st
  | LocalEchoDiscarded txn => discard_local_echo false trace settings txn st
  | FullyRead id => set_fully_read_event id st
  | StartReached => insert_timeline_start_if_missing st
  end.

Fixpoint steps (inputs : list TimelineInput) (st : TimelineState) : outcome Empty_set TimelineState :=
  match inputs with
  | [] => Ret st
  | input :: inputs => let! st := step input st in steps inputs st
  end.

(** The vector the diffs describe. *)
Definition input_ids (input : TimelineInput) (src : list string) : list string :=
  match input with
  | RemoteDiffs diffs _ => foldl (λ src diff, diff_ids diff src) src diffs
  | _ => src
  end.

Fixpoint inputs_fit (inputs : list TimelineInput) (src : list string) (st : TimelineState) : Prop :=
  match inputs with
  | [] => True
  | input :: inputs =>
      match input with RemoteDiffs diffs origin => diffs_fit origin diffs ∅ src st | _ => True end ∧
      match step input st with Ret st => inputs_fit inputs (input_ids input src) st | _ => True end
  end.

Lemma step_spec input st :
  in_step (tl st) →
  match input with RemoteDiffs diffs origin => diffs_fit origin diffs ∅ (event_ids (tl st)) st | _ => True end →
  ∃ st', step input st = Ret st' ∧ in_step (tl st') ∧ event_ids (tl st') = input_ids input (event_ids (tl st)).
Proof.
  intros Hs Hfit. destruct input as [diffs origin|own txn now root allowed action|txn send_state|txn|id|]; cbn -[adjust_date_dividers].
  - unfold handle_remote_events_with_diffs. destruct diffs as [|diff diffs]; [by exists st|].
    destruct (handle_diffs_spec origin (diff :: diffs) ∅ st Hs Hfit) as (ids & st1 & -> & Hs1 & Hids1).
    destruct (adjust_date_dividers_keeps (date_divider_mode settings) st1 Hs1) as (st2 & -> & Hs2 & Hids2).
    unfold check_no_unused_unique_ids. case_bool_decide; (eexists; split; [done|]; split; [done|]; by rewrite Hids2).
  - by apply handle_local_event_keeps.
  - by apply update_event_send_state_keeps.
  - by apply discard_local_echo_keeps.
  - unfold set_fully_read_event. case_bool_decide; [by exists st|]. exact (update_read_marker_keeps {| tl := tl st; meta := _ |} Hs).
  - by apply insert_timeline_start_keeps.
Qed.

Lemma steps_spec inputs st :
  in_step (tl st) → inputs_fit inputs (event_ids (tl st)) st →
  ∃ st', steps inputs st = Ret st' ∧ in_step (tl st') ∧
    event_ids (tl st') = foldl (λ src input, input_ids input src) (event_ids (tl st)) inputs.
Proof.
  revert st. induction inputs as [|input inputs IH]; intros st Hs Hfit; [by exists st|]. cbn in Hfit |- *.
  destruct Hfit as [Hfit Hrest]. destruct (step_spec input st Hs Hfit) as (st1 & Hst & Hs1 & Hids1).
  rewrite Hst in Hrest |- *. rewrite <-Hids1 in Hrest |- *. by apply IH.
Qed.

Lemma remotes_from_ids n l : (remotes_from n l).*1 = omap remote_id l.
Proof. revert n. induction l as [|it l IH]; intros n; [done|]. cbn. destruct (remote_id it); cbn; by rewrite IH. Qed.

Lemma mapped_sublist l : sublist (mapped l).*1 (meta_event_id <$> l).
Proof.
  induction l as [|m l IH]; [constructor|]. unfold mapped. cbn. destruct (timeline_item_index m); cbn; by constructor.
Qed.


End following.

(** ** Timelines *)

Definition sample_settings : TimelineSettings :=
  {| event_filter := λ _, true; add_failed_to_parse := true; track_read_receipts := AllEvents;
     date_divider_mode := Daily |}.

Definition sample_event (id : string) (txn : option string) (day : Z) (actions : list TimelineAction) : TimelineEvent :=
  Readable {| ev_event_id := id; ev_sender := "@bob:example.org"; ev_origin_server_ts := noon day;
              ev_transaction_id := txn; ev_thread_root := None; ev_is_state := false; ev_is_join := false;
              ev_actions := actions |}.

Definition sample_message (id : string) (txn : option string) (day : Z) : TimelineEvent :=
  sample_event id txn day [AddItem false].

(** Messages of three days, a reaction, an echo sent and received, an update and a removal. *)
Definition sample_inputs : list TimelineInput :=
  [ RemoteDiffs [Append [sample_message "$b" None 2; sample_event "$r" None 2 [HandleAggregation]];
                 PushFront (sample_message "$a" None 1)] Sync;
    LocalEcho "@alice:example.org" "t" (noon 3) None true (AddItem false);
    FullyRead "$b";
    RemoteDiffs [PushBack (sample_message "$c" (Some "t") 3); DiffInsert 1 (sample_message "$d" None 1);
                 DiffSet 0 (sample_message "$a" None 1); DiffRemove 2] Sync;
    StartReached ].



(** Echoes of two days: of two local echoes with a date divider between them, the
    first is outside the locals region, which ends at the divider.  Its remote echo
    does not replace it: both are in the timeline. *)
Theorem echo_before_divider_is_repeated :
  let st := {| tl := new_items; meta := sample_metadata |} in
  let inputs :=
    [ LocalEcho "@alice:example.org" "t1" (noon 1) None true (AddItem false);
      LocalEcho "@alice:example.org" "t2" (noon 2) None true (AddItem false);
      RemoteDiffs [PushBack (sample_message "$a" (Some "t1") 1)] Sync ] in
  ∃ st', steps sample_settings (Live false) false inputs st = Ret st' ∧
    omap as_event (items (tl st')) =
      [ sample_local "t1" (noon 1);
        {| sender := "@bob:example.org"; timestamp := noon 1; event_kind := Remote "$a" (Some "t1") Sync |};
        sample_local "t2" (noon 2) ].
Proof. eexists. split; by vm_compute. Qed.
