(* ===== verification/SlidingSync.v ===== *)
(** * Lists of sliding sync

    [client-matrix/src/sliding_sync/list]: the requests a list of rooms makes, page
    by page or in a growing window, and what it keeps of the responses.  Filters and
    required state are passed on as they are, and left out; [debug] says whether
    arithmetic on [u32] is checked.

    The theorems show that every request is valid, and that the pages cover all rooms. *)

From S2P Require Import Prelude.

Definition u32_limit : Z := 2 ^ 32.

(** [+] on [u32]: an overflow panics with overflow checks and wraps around without. *)
Definition u32_plus {E} (debug : bool) (a b : Z) : outcome E Z :=
  if (a + b <? u32_limit)%Z then Ret (a + b)%Z else if debug then Panic else Ret ((a + b) mod u32_limit)%Z.

Definition saturating_add (a b : Z) : Z := Z.min (a + b) (u32_limit - 1).

Definition saturating_sub (a b : Z) : Z := Z.max (a - b) 0.

(** A range includes both of its ends. *)
Definition Range : Type := Z * Z.

Inductive SlidingSyncMode :=
| Selective (ranges : list Range)
| Paging (batch_size : Z) (maximum_number_of_rooms_to_fetch : option Z)
| Growing (batch_size : Z) (maximum_number_of_rooms_to_fetch : option Z).

(** The fields the growing and the paging generators have in common. *)
Record Window := {
  batch_size : Z;
  maximum_number_of_rooms_to_fetch : option Z;
  number_of_fetched_rooms : Z;
  fully_loaded : bool;
  requested_end : option Z
}.

Inductive SlidingSyncListRequestGeneratorKind :=
| KindGrowing (w : Window)
| KindPaging (w : Window)
| KindSelective.

Record SlidingSyncListRequestGenerator := {
  ranges : list Range;
  gen_kind : SlidingSyncListRequestGeneratorKind
}.

Inductive SlidingSyncListLoadingState := NotLoaded | Preloaded | PartiallyLoaded | FullyLoaded.

Inductive Error :=
| InvalidRange (start end_ : Z)
| RequestGeneratorHasNotBeenInitialized (name : string).

(** ** The request generator *)

Definition new_window (batch_size : Z) (to_fetch : option Z) : Window :=
  {| batch_size := batch_size; maximum_number_of_rooms_to_fetch := to_fetch; number_of_fetched_rooms := 0;
     fully_loaded := false; requested_end := None |}.

Definition new_generator (mode : SlidingSyncMode) : SlidingSyncListRequestGenerator :=
  match mode with
  | Paging batch to_fetch => {| ranges := []; gen_kind := KindPaging (new_window batch to_fetch) |}
  | Growing batch to_fetch => {| ranges := []; gen_kind := KindGrowing (new_window batch to_fetch) |}
  | Selective ranges => {| ranges := ranges; gen_kind := KindSelective |}
  end.

Definition at_most (limit : option Z) (z : Z) : Z :=
  match limit with Some limit => Z.min z limit | None => z end.

Definition create_range (debug : bool) (start desired_size : Z) (to_fetch maximum_number_of_rooms : option Z)
    : outcome Error Range :=
  let! end_ := u32_plus debug start desired_size in
  let end_ := at_most to_fetch end_ in
  let end_ := at_most maximum_number_of_rooms end_ in
  let end_ := saturating_sub end_ 1 in
  if (end_ <? start)%Z then Throw (InvalidRange start end_) else Ret (start, end_).

Definition with_requested_end (e : Z) (w : Window) : Window :=
  {| batch_size := batch_size w; maximum_number_of_rooms_to_fetch := maximum_number_of_rooms_to_fetch w;
     number_of_fetched_rooms := number_of_fetched_rooms w; fully_loaded := fully_loaded w;
     requested_end := Some e |}.

Definition generate_next_ranges (debug : bool) (maximum_number_of_rooms : option Z)
    (g : SlidingSyncListRequestGenerator) : outcome Error (list Range * SlidingSyncListRequestGenerator) :=
  match gen_kind g with
  | KindSelective => Ret (ranges g, g)
  | KindPaging w =>
      if fully_loaded w then Ret (ranges g, g)
      else
        let! next := create_range debug (number_of_fetched_rooms w) (batch_size w)
                       (maximum_number_of_rooms_to_fetch w) maximum_number_of_rooms in
        Ret ([next], {| ranges := ranges g; gen_kind := KindPaging (with_requested_end next.2 w) |})
  | KindGrowing w =>
      if fully_loaded w then Ret (ranges g, g)
      else
        let! next := create_range debug 0 (saturating_add (number_of_fetched_rooms w) (batch_size w))
                       (maximum_number_of_rooms_to_fetch w) maximum_number_of_rooms in
        Ret ([next], {| ranges := ranges g; gen_kind := KindGrowing (with_requested_end next.2 w) |})
  end.

(** The part of [handle_response] the growing and the paging generators share. *)
Definition respond (name : string) (maximum_number_of_rooms : Z) (w : Window)
    : outcome Error (SlidingSyncListLoadingState * list Range * Window) :=
  match requested_end w with
  | None => Throw (RequestGeneratorHasNotBeenInitialized name)
  | Some range_end =>
      let range_maximum := saturating_sub (at_most (maximum_number_of_rooms_to_fetch w) maximum_number_of_rooms) 1 in
      let set fetched loaded :=
        {| batch_size := batch_size w; maximum_number_of_rooms_to_fetch := maximum_number_of_rooms_to_fetch w;
           number_of_fetched_rooms := fetched; fully_loaded := loaded; requested_end := requested_end w |} in
      if (range_end <? range_maximum)%Z
      then Ret (PartiallyLoaded, [(0%Z, range_end)], set (saturating_add range_end 1) false)
      else Ret (FullyLoaded, [(0%Z, range_maximum)], set range_maximum true)
  end.

Definition handle_response (name : string) (maximum_number_of_rooms : Z) (g : SlidingSyncListRequestGenerator)
    : outcome Error (SlidingSyncListLoadingState * SlidingSyncListRequestGenerator) :=
  match gen_kind g with
  | KindPaging w =>
      let! (state, ranges, w) := respond name maximum_number_of_rooms w in
      Ret (state, {| ranges := ranges; gen_kind := KindPaging w |})
  | KindGrowing w =>
      let! (state, ranges, w) := respond name maximum_number_of_rooms w in
      Ret (state, {| ranges := ranges; gen_kind := KindGrowing w |})
  | KindSelective => Ret (FullyLoaded, g)
  end.

Definition is_fully_loaded (g : SlidingSyncListRequestGenerator) : bool :=
  match gen_kind g with
  | KindPaging w | KindGrowing w => fully_loaded w
  | KindSelective => true
  end.

(** ** Lists *)

Record SlidingSyncList := {
  name : string;
  state : SlidingSyncListLoadingState;
  timeline_limit : Z;
  maximum_number_of_rooms : option Z;
  request_generator : SlidingSyncListRequestGenerator;
  skip_messages : nat
}.

(** [SlidingSyncListBuilder::build], with what was read from the cache if anything was. *)
Definition build (n : string) (mode : SlidingSyncMode) (limit : Z) (cached : option (option Z)) : SlidingSyncList :=
  {| name := n;
     state := match cached with Some _ => Preloaded | None => NotLoaded end;
     timeline_limit := limit;
     maximum_number_of_rooms := match cached with Some rooms => rooms | None => None end;
     request_generator := new_generator mode;
     skip_messages := 0 |}.

(** The new mode, the state after it, and the message that makes the sync loop skip
    over its current iteration. *)
Definition set_sync_mode (mode : SlidingSyncMode) (l : SlidingSyncList) : SlidingSyncList :=
  {| name := name l;
     state := match state l with
              | NotLoaded => NotLoaded
              | Preloaded => Preloaded
              | PartiallyLoaded | FullyLoaded => PartiallyLoaded
              end;
     timeline_limit := timeline_limit l;
     maximum_number_of_rooms := maximum_number_of_rooms l;
     request_generator := new_generator mode;
     skip_messages := S (skip_messages l) |}.

Definition set_timeline_limit (limit : Z) (l : SlidingSyncList) : SlidingSyncList :=
  {| name := name l; state := state l; timeline_limit := limit;
     maximum_number_of_rooms := maximum_number_of_rooms l; request_generator := request_generator l;
     skip_messages := skip_messages l |}.

(** The ranges and the timeline limit of the request. *)
Definition next_request (debug : bool) (l : SlidingSyncList)
    : outcome Error ((list Range * Z) * SlidingSyncList) :=
  let! (ranges, g) := generate_next_ranges debug (maximum_number_of_rooms l) (request_generator l) in
  Ret ((ranges, timeline_limit l),
       {| name := name l; state := state l; timeline_limit := timeline_limit l;
          maximum_number_of_rooms := maximum_number_of_rooms l; request_generator := g;
          skip_messages := skip_messages l |}).

(** [update]: whether the number of rooms changed, and the list.  The generator is
    updated first, and an error leaves the number of rooms as it was. *)
Definition update (rooms : option Z) (l : SlidingSyncList) : outcome Error (bool * SlidingSyncList) :=
  match rooms with
  | None => Ret (false, l)
  | Some n =>
      let! (st, g) := handle_response (name l) n (request_generator l) in
      Ret (negb (bool_decide (maximum_number_of_rooms l = Some n)),
           {| name := name l; state := st; timeline_limit := timeline_limit l;
              maximum_number_of_rooms := Some n; request_generator := g; skip_messages := skip_messages l |})
  end.

Inductive PollTimeout := TimeoutNone | TimeoutSome (seconds : Z) | TimeoutDefault.

(** The default of [requires_timeout]. *)
Definition default_requires_timeout (g : SlidingSyncListRequestGenerator) : PollTimeout :=
  if is_fully_loaded g then TimeoutDefault else TimeoutNone.

(** ** The requests of a sliding sync list

    Whatever the server answers, a list asks for ranges within the rooms there are;
    and when the number of rooms does not change, its pages cover them all. *)

Local Open Scope Z_scope.

(** ** Requests are always valid *)

Section valid.
Context (debug : bool) (bound : Z).

Definition limit_ok (limit : option Z) : Prop := match limit with Some n => 0 <= n | None => True end.

(** No batch can make a sum overflow, as long as there are at most [bound] rooms. *)
Definition mode_ok (mode : SlidingSyncMode) : Prop :=
  match mode with
  | Selective _ => True
  | Paging batch to_fetch | Growing batch to_fetch => 0 < batch /\ batch + bound < u32_limit /\ limit_ok to_fetch
  end.

Definition rooms_ok (rooms : option Z) : Prop := match rooms with Some n => 0 <= n <= bound | None => True end.

(** The last room a window may ask for. *)
Definition last_room (w : Window) (rooms : Z) : Z :=
  saturating_sub (at_most (maximum_number_of_rooms_to_fetch w) rooms) 1.

Definition window_ok (ranges : list Range) (rooms : option Z) (w : Window) : Prop :=
  0 < batch_size w /\ batch_size w + bound < u32_limit /\ limit_ok (maximum_number_of_rooms_to_fetch w) /\
  0 <= number_of_fetched_rooms w <= bound /\
  (∀ e, requested_end w = Some e → 0 <= e) /\
  if fully_loaded w
  then ∃ n, rooms = Some n /\ ranges = [(0, last_room w n)]
  else number_of_fetched_rooms w = 0 \/ ∃ n, rooms = Some n /\ number_of_fetched_rooms w <= last_room w n.

Definition list_ok (l : SlidingSyncList) : Prop :=
  0 <= bound < u32_limit /\ rooms_ok (maximum_number_of_rooms l) /\
  match gen_kind (request_generator l) with
  | KindPaging w => window_ok (ranges (request_generator l)) (maximum_number_of_rooms l) w
  | KindGrowing w => window_ok (ranges (request_generator l)) (maximum_number_of_rooms l) w
  | KindSelective => True
  end.

(** A range that stays within the rooms there are and the rooms that are wanted; the
    first room may always be asked for. *)
Definition range_ok (w : Window) (rooms : option Z) (r : Range) : Prop :=
  0 <= r.1 <= r.2 /\
  (∀ n, rooms = Some n → r.2 <= Z.max 0 (n - 1)) /\
  (∀ n, maximum_number_of_rooms_to_fetch w = Some n → r.2 <= Z.max 0 (n - 1)).

Lemma at_most_cases limit z : at_most limit z = z ∧ (∀ n, limit = Some n → z <= n) ∨ ∃ n, limit = Some n ∧ at_most limit z = n ∧ n <= z.
Proof.
  destruct limit as [n|]; cbn; [|by left]. destruct (Z.min_spec z n) as [[? ->]|[? ->]]; [left; split; [done|]; intros ? [= <-]; lia|].
  right. eauto.
Qed.

Lemma create_range_ok w start size rooms :
  0 <= start -> start + size < u32_limit -> limit_ok (maximum_number_of_rooms_to_fetch w) -> rooms_ok rooms ->
  0 < size -> (start = 0 \/ ∃ n, rooms = Some n /\ start <= last_room w n) ->
  ∃ r, create_range debug start size (maximum_number_of_rooms_to_fetch w) rooms = Ret r /\ r.1 = start /\ range_ok w rooms r.
Proof.
  intros H0 Hlt Hlim Hrooms Hsize Hstart. unfold create_range, u32_plus. rewrite (proj2 (Z.ltb_lt _ _)) by done.
  set (e := saturating_sub _ 1).
  assert (He : start <= e /\ (∀ n, rooms = Some n → e <= Z.max 0 (n - 1)) /\
    (∀ n, maximum_number_of_rooms_to_fetch w = Some n → e <= Z.max 0 (n - 1))).
  { unfold e, saturating_sub, last_room, saturating_sub, limit_ok, rooms_ok, at_most in *.
    destruct rooms as [n|], (maximum_number_of_rooms_to_fetch w) as [c|]; cbn;
      (split; [destruct Hstart as [->|(n' & Hn & Hle)]; simplify_eq; lia|]); split; intros ? [=]; subst; lia. }
  destruct He as (Hse & Hr & Hc). rewrite (proj2 (Z.ltb_ge _ _)) by done. exists (start, e). done.
Qed.

Lemma loaded_range rs rooms w :
  window_ok rs rooms w -> rooms_ok rooms -> fully_loaded w = true -> Forall (range_ok w rooms) rs.
Proof.
  intros (_ & _ & Hlim & _ & _ & Hst) Hrooms Hfl. rewrite Hfl in Hst. destruct Hst as (n & -> & ->).
  apply Forall_singleton. unfold range_ok, last_room, saturating_sub, at_most. cbn in Hrooms |- *.
  destruct (maximum_number_of_rooms_to_fetch w); cbn in *; split_and!; try lia; intros ? [=]; subst; lia.
Qed.

Lemma window_ok_requested rs rooms w e : 0 <= e -> window_ok rs rooms w -> window_ok rs rooms (with_requested_end e w).
Proof. intros ? (? & ? & ? & ? & _ & ?). do 4 (split; [done|]). split; [|done]. by intros ? [= <-]. Qed.

(** The window that is asked for while rooms are missing, in both modes. *)
Lemma partial_range (paging : bool) rs rooms w :
  window_ok rs rooms w -> rooms_ok rooms -> 0 <= bound -> fully_loaded w = false ->
  ∃ r, create_range debug (if paging then number_of_fetched_rooms w else 0)
         (if paging then batch_size w else saturating_add (number_of_fetched_rooms w) (batch_size w))
         (maximum_number_of_rooms_to_fetch w) rooms = Ret r /\
       range_ok w rooms r /\ window_ok rs rooms (with_requested_end r.2 w).
Proof.
  intros Hw Hrooms Hb Hfl. pose proof Hw as (Hbs & Hov & Hlim & Hf & He & Hst). rewrite Hfl in Hst.
  assert (Hsat : saturating_add (number_of_fetched_rooms w) (batch_size w) = number_of_fetched_rooms w + batch_size w)
    by (unfold saturating_add; lia).
  rewrite Hsat.
  edestruct (create_range_ok w (if paging then number_of_fetched_rooms w else 0)
    (if paging then batch_size w else number_of_fetched_rooms w + batch_size w) rooms) as (r & Hcr & _ & Hr);
    [destruct paging; lia|destruct paging; lia|done|done|destruct paging; lia|destruct paging; [done|by left]|].
  exists r. split; [done|]. split; [done|]. apply window_ok_requested; [|done]. destruct Hr as (? & _). lia.
Qed.

Lemma next_request_ok l :
  list_ok l ->
  ∃ rs l', next_request debug l = Ret ((rs, timeline_limit l), l') /\ list_ok l' /\
    match gen_kind (request_generator l) with
    | KindPaging w | KindGrowing w => Forall (range_ok w (maximum_number_of_rooms l)) rs
    | KindSelective => rs = ranges (request_generator l)
    end.
Proof.
  intros (Hb & Hrooms & Hw). unfold next_request, generate_next_ranges.
  destruct (gen_kind (request_generator l)) as [w|w|] eqn:Hk.
  - destruct (fully_loaded w) eqn:Hfl; [|destruct (partial_range false _ _ w Hw Hrooms) as (r & -> & ? & ?); [lia|done|]];
      (eexists _, _; split; [done|]); (split; [split; [done|]; split; [done|]; cbn; by rewrite ?Hk|]);
      eauto using loaded_range.
  - destruct (fully_loaded w) eqn:Hfl; [|destruct (partial_range true _ _ w Hw Hrooms) as (r & -> & ? & ?); [lia|done|]];
      (eexists _, _; split; [done|]); (split; [split; [done|]; split; [done|]; cbn; by rewrite ?Hk|]);
      eauto using loaded_range.
  - eexists _, _. split; [done|]. split; [|done]. split; [done|]. split; [done|]. cbn. by rewrite Hk.
Qed.

Lemma respond_ok n rs rooms w k :
  window_ok rs rooms w -> 0 <= n <= bound -> bound < u32_limit ->
  match respond k n w with
  | Ret (st, rs', w') => window_ok rs' (Some n) w' /\ st = (if fully_loaded w' then FullyLoaded else PartiallyLoaded)
  | Throw e => requested_end w = None /\ e = RequestGeneratorHasNotBeenInitialized k
  | _ => False
  end.
Proof.
  intros (Hbs & Hov & Hlim & Hf & He & _) Hn Hb. unfold respond. destruct (requested_end w) as [e|] eqn:Hre; [|done].
  specialize (He e eq_refl).
  assert (Hlast : saturating_sub (at_most (maximum_number_of_rooms_to_fetch w) n) 1 <= bound).
  { unfold saturating_sub, at_most. destruct (maximum_number_of_rooms_to_fetch w); lia. }
  assert (0 <= saturating_sub (at_most (maximum_number_of_rooms_to_fetch w) n) 1) by (unfold saturating_sub; lia).
  destruct (Z.ltb_spec e (saturating_sub (at_most (maximum_number_of_rooms_to_fetch w) n) 1)).
  - assert (Hs : saturating_add e 1 = e + 1) by (unfold saturating_add; lia). rewrite Hs.
    split; [|done]. split_and!; cbn; try done; try lia; [by intros ? [= <-]|]. right. exists n. split; [done|].
    change (e + 1 <= saturating_sub (at_most (maximum_number_of_rooms_to_fetch w) n) 1). lia.
  - split; [|done]. split_and!; cbn; try done; try lia; [by intros ? [= <-]|]. by exists n.
Qed.

Lemma update_ok rooms l :
  list_ok l -> rooms_ok rooms ->
  match update rooms l with
  | Ret (_, l') => list_ok l'
  | Throw e => e = RequestGeneratorHasNotBeenInitialized (name l)
  | _ => False
  end.
Proof.
  intros Hl Hn. destruct rooms as [n|]; [|done]. destruct Hl as (Hb & Hrooms & Hw). unfold update, handle_response.
  destruct (gen_kind (request_generator l)) as [w|w|] eqn:Hk.
  - pose proof (respond_ok n _ _ w (name l) Hw Hn ltac:(lia)) as Hr.
    destruct (respond (name l) n w) as [[[st rs'] w']|e| |]; cbn; try done; [|by destruct Hr]. by destruct Hr.
  - pose proof (respond_ok n _ _ w (name l) Hw Hn ltac:(lia)) as Hr.
    destruct (respond (name l) n w) as [[[st rs'] w']|e| |]; cbn; try done; [|by destruct Hr]. by destruct Hr.
  - cbn. split; [done|]. split; [done|]. cbn. by rewrite Hk.
Qed.

Lemma new_generator_ok l mode :
  0 <= bound < u32_limit -> rooms_ok (maximum_number_of_rooms l) -> mode_ok mode ->
  request_generator l = new_generator mode -> list_ok l.
Proof.
  intros Hb Hr Hm Hg. split; [done|]. split; [done|]. rewrite Hg.
  destruct mode; cbn in *; [done| |]; destruct Hm as (? & ? & ?); split_and!; cbn; try done; try lia; by left.
Qed.

(** ** What can happen to a list *)

Inductive ListOp :=
| NextRequest
| Update (rooms : option Z)
| SetSyncMode (mode : SlidingSyncMode)
| SetTimelineLimit (limit : Z).

Definition op_ok (op : ListOp) : Prop :=
  match op with
  | NextRequest | SetTimelineLimit _ => True
  | Update rooms => rooms_ok rooms
  | SetSyncMode mode => mode_ok mode
  end.

(** An error is handed to the caller, and the list is kept. *)
Definition exec (op : ListOp) (l : SlidingSyncList) : outcome Empty_set SlidingSyncList :=
  let kept {A} (o : outcome Error (A * SlidingSyncList)) :=
    match o with Ret (_, l') => Ret l' | Throw _ => Ret l | Panic => Panic | OutOfFuel => OutOfFuel end in
  match op with
  | NextRequest => kept (next_request debug l)
  | Update rooms => kept (update rooms l)
  | SetSyncMode mode => Ret (set_sync_mode mode l)
  | SetTimelineLimit limit => Ret (set_timeline_limit limit l)
  end.

Fixpoint exec_all (ops : list ListOp) (l : SlidingSyncList) : outcome Empty_set SlidingSyncList :=
  match ops with
  | [] => Ret l
  | op :: ops => let! l := exec op l in exec_all ops l
  end.

Lemma exec_ok op l : list_ok l -> op_ok op -> ∃ l', exec op l = Ret l' /\ list_ok l'.
Proof.
  intros Hl Hop. destruct op as [|rooms|mode|limit]; cbn.
  - destruct (next_request_ok l Hl) as (rs & l' & -> & ? & _). eauto.
  - pose proof (update_ok rooms l Hl Hop) as Hu. destruct (update rooms l) as [[b l']|e| |]; try done; eauto.
  - eexists. split; [done|]. destruct Hl as (? & ? & _). by eapply new_generator_ok.
  - eexists. split; [done|]. exact Hl.
Qed.

Lemma exec_all_ok ops : ∀ l, list_ok l -> Forall op_ok ops -> ∃ l', exec_all ops l = Ret l' /\ list_ok l'.
Proof.
  induction ops as [|op ops IH]; intros l Hl Hops; [by exists l|]. inversion Hops; subst.
  destruct (exec_ok op l) as (l' & Hop & Hl'); [done..|]. cbn. rewrite Hop. by apply IH.
Qed.


End valid.


(** ** The pages of a list *)

Section pages.
Context (debug paging : bool) (batch rooms : Z) (to_fetch : option Z).

Definition mode_of : SlidingSyncMode := if paging then Paging batch to_fetch else Growing batch to_fetch.

Definition kind_of (w : Window) : SlidingSyncListRequestGeneratorKind := if paging then KindPaging w else KindGrowing w.

(** The number of rooms that are to be fetched. *)
Definition wanted : Z := at_most to_fetch rooms.

(** The [k]th range after the first [from] rooms: a page, or all the rooms so far. *)
Definition page (from : Z) (k : nat) : Range :=
  ((if paging then from + Z.of_nat k * batch else 0), Z.min (from + (Z.of_nat k + 1) * batch) wanted - 1).

(** A request and its response, which announces the number of rooms. *)
Definition round (l : SlidingSyncList) : outcome Error (list Range * SlidingSyncList) :=
  let! (request, l) := next_request debug l in
  let! (_, l) := update (Some rooms) l in
  Ret (request.1, l).

Fixpoint rounds (k : nat) (l : SlidingSyncList) : outcome Error (list (list Range) * SlidingSyncList) :=
  match k with
  | O => Ret ([], l)
  | S k =>
      let! (request, l) := round l in
      let! (requests, l) := rounds k l in
      Ret (request :: requests, l)
  end.

Definition at_room (f : Z) (l : SlidingSyncList) : Prop :=
  (maximum_number_of_rooms l = Some rooms \/ maximum_number_of_rooms l = None /\ f = 0 /\ batch <= wanted) /\
  ∃ w, gen_kind (request_generator l) = kind_of w /\ batch_size w = batch /\
    maximum_number_of_rooms_to_fetch w = to_fetch /\ number_of_fetched_rooms w = f /\ fully_loaded w = false.

Definition loaded (l : SlidingSyncList) : Prop :=
  state l = FullyLoaded /\ ranges (request_generator l) = [(0, wanted - 1)] /\
  ∃ w, gen_kind (request_generator l) = kind_of w /\ fully_loaded w = true.

Hypothesis (Hbatch : 0 < batch) (Hrooms : 1 <= rooms) (Hsum : rooms + batch < u32_limit).
Hypothesis (Hwant : match to_fetch with Some n => 1 <= n | None => True end).

Lemma wanted_bounds : 1 <= wanted <= rooms.
Proof. unfold wanted, at_most. destruct to_fetch; lia. Qed.

Lemma round_range f l :
  at_room f l -> 0 <= f < wanted ->
  create_range debug (if paging then f else 0) (if paging then batch else saturating_add f batch) to_fetch
    (maximum_number_of_rooms l) = Ret (page f 0).
Proof.
  intros [Hmax _] Hf. pose proof wanted_bounds. unfold create_range, u32_plus.
  assert (Hs : saturating_add f batch = f + batch) by (unfold saturating_add; lia). rewrite Hs.
  assert (Hsz : (if paging then f else 0) + (if paging then batch else f + batch) = f + batch) by (destruct paging; lia).
  rewrite Hsz, (proj2 (Z.ltb_lt _ _)) by lia.
  assert (He : saturating_sub (at_most (maximum_number_of_rooms l) (at_most to_fetch (f + batch))) 1 = Z.min (f + batch) wanted - 1).
  { unfold saturating_sub, wanted, at_most in *. destruct Hmax as [->|(-> & -> & ?)], to_fetch; lia. }
  cbv beta iota zeta. rewrite He, (proj2 (Z.ltb_ge _ _)); [|destruct paging; lia].
  unfold page. replace (f + (Z.of_nat 0 + 1) * batch) with (f + batch) by lia.
  replace (f + Z.of_nat 0 * batch) with f by lia. done.
Qed.

(** One round: the next page, and then either the next room or the whole list. *)
Lemma round_spec f l :
  at_room f l -> 0 <= f < wanted ->
  ∃ l', round l = Ret ([page f 0], l') /\ timeline_limit l' = timeline_limit l /\
    if f + batch <? wanted then at_room (f + batch) l' /\ state l' = PartiallyLoaded else loaded l'.
Proof.
  intros Hat Hf. pose proof wanted_bounds. pose proof (round_range f l Hat Hf) as Hr.
  destruct Hat as (_ & w & Hk & Hb & Ht & Hn & Hl).
  assert (Hnext : ∃ l1, next_request debug l = Ret (([page f 0], timeline_limit l), l1) /\
    name l1 = name l /\ timeline_limit l1 = timeline_limit l /\
    gen_kind (request_generator l1) = kind_of (with_requested_end (page f 0).2 w)).
  { unfold next_request, generate_next_ranges. rewrite Hk. unfold kind_of in *.
    destruct paging; rewrite Hl, Hb, Ht, Hn, Hr; eexists; split; done. }
  destruct Hnext as (l1 & Hl1 & Hname & Hlim & Hg). unfold round. rewrite Hl1.
  assert (He : (page f 0).2 = Z.min (f + batch) wanted - 1) by (unfold page; cbn [snd]; f_equal; lia).
  assert (Hw : saturating_sub (at_most to_fetch rooms) 1 = wanted - 1) by (unfold saturating_sub, wanted in *; lia).
  unfold update, handle_response, respond. rewrite Hg. unfold loaded, at_room, kind_of. rewrite He.
  destruct (Z.ltb_spec (f + batch) wanted) as [Hlt|Hge]; cbn [fst].
  - rewrite Z.min_l by lia. assert (Hsat : saturating_add (f + batch - 1) 1 = f + batch) by (unfold saturating_add; lia).
    destruct paging; cbn; rewrite Ht, Hw, (proj2 (Z.ltb_lt _ _)) by lia; rewrite Hsat;
      (eexists; split; [done|]); (split; [done|]); (split; [|done]); (split; [by left|]); eexists; split; done.
  - rewrite Z.min_r by lia.
    destruct paging; cbn; rewrite Ht, Hw, (proj2 (Z.ltb_ge _ _)) by lia;
      (eexists; split; [done|]); (split; [done|]); (split; [done|]); (split; [done|]); eexists; split; done.
Qed.

Lemma page_shift f k : page (f + batch) k = page f (S k).
Proof. unfold page. f_equal; [destruct paging; lia|]. do 2 f_equal. lia. Qed.

Lemma rounds_spec k : ∀ f l,
  at_room f l -> 0 <= f < wanted -> (Z.of_nat k - 1) * batch < wanted - f <= Z.of_nat k * batch ->
  ∃ l', rounds k l = Ret (map (λ i, [page f i]) (seq 0 k), l') /\ timeline_limit l' = timeline_limit l /\ loaded l'.
Proof.
  induction k as [|k IH]; intros f l Hat Hf Hk; [lia|].
  destruct (round_spec f l Hat Hf) as (l1 & Hr & Hlim & Hst). cbn [rounds]. rewrite Hr.
  destruct (Z.ltb_spec (f + batch) wanted) as [Hlt|Hge].
  - destruct Hst as [Hat1 _]. destruct (IH (f + batch) l1 Hat1) as (l' & Hrs & Hl' & Hok); [lia|lia|].
    rewrite Hrs. exists l'. split; [|split; [congruence|done]]. cbn [seq map]. do 3 f_equal.
    rewrite <- seq_shift, map_map. apply map_ext. intros i. by rewrite page_shift.
  - assert (k = 0%nat) as -> by nia. exists l1. done.
Qed.

Lemma rounds_before k : ∀ f l,
  at_room f l -> 0 <= f -> (0 < k)%nat -> f + Z.of_nat k * batch < wanted ->
  ∃ rs l', rounds k l = Ret (rs, l') /\ state l' = PartiallyLoaded.
Proof.
  induction k as [|k IH]; intros f l Hat Hf Hk Hlt; [lia|].
  destruct (round_spec f l Hat) as (l1 & Hr & Hlim & Hst); [lia|]. cbn [rounds]. rewrite Hr.
  rewrite (proj2 (Z.ltb_lt _ _)) in Hst by lia. destruct Hst as [Hat1 Hs1].
  destruct k as [|k]; [cbn; eauto|].
  destruct (IH (f + batch) l1) as (rs & l' & -> & ?); [done|lia|lia|lia|]. eauto.
Qed.

(** The number of rounds it takes. *)
Definition rounds_needed : nat := Z.to_nat ((wanted + batch - 1) / batch).

Lemma rounds_needed_bounds : (Z.of_nat rounds_needed - 1) * batch < wanted <= Z.of_nat rounds_needed * batch.
Proof.
  pose proof wanted_bounds. unfold rounds_needed. rewrite Z2Nat.id by (apply Z.div_pos; lia).
  pose proof (Z.div_mod (wanted + batch - 1) batch ltac:(lia)). pose proof (Z.mod_pos_bound (wanted + batch - 1) batch Hbatch). nia.
Qed.

Lemma page_of_room i : 0 <= i < wanted -> ∃ k, (k < rounds_needed)%nat /\ (page 0 k).1 <= i <= (page 0 k).2.
Proof.
  intros Hi. exists (Z.to_nat (i / batch)). pose proof rounds_needed_bounds as Hb.
  pose proof (Z.div_mod i batch ltac:(lia)). pose proof (Z.mod_pos_bound i batch Hbatch).
  assert (0 <= i / batch) by (apply Z.div_pos; lia). split; [nia|].
  unfold page. cbn [fst snd]. rewrite Z2Nat.id by lia. destruct paging; nia.
Qed.


End pages.

