(* ===== verification/Keys.v ===== *)
(** * Keys as text

    [common-olm/src/types]: public and secret keys read from base64 and written to
    it.  The base64 engines and the curves are parameters.

    The theorems are the round trips, and the text that panics; a concrete base64 and
    concrete keys come last. *)

From S2P Require Import Prelude Bytes Cipher SampleCrypto.

(** Unpadded base64 needs four symbols for three bytes. *)
Class Base64Length `{!Base64} : Prop :=
  length_base64_encode bs : String.length (base64_encode bs) = (4 * length bs + 2) / 3.

(** [base64ct], unpadded and padded. *)
Class Base64ct : Type := {
  ct_encode_unpadded : bytes → string;
  ct_decode_unpadded : string → option bytes;
  ct_decode_padded : string → option bytes;
  ct_round_trip bs : ct_decode_unpadded (ct_encode_unpadded bs) = Some bs;
  length_ct_encode bs : String.length (ct_encode_unpadded bs) = (4 * length bs + 2) / 3
}.

(** A key of the Ed25519 library is kept as the bytes it was made from. *)
Class CanonicalKeys `{!Ed25519} : Prop :=
  key_to_from_bytes bs key : length bs = 32 → key_from_bytes bs = Some key → key_bytes key = bs.

(** Arrays of 32 bytes as secret keys for signatures and as Curve25519 public keys. *)
Class KeyArrays `{!Ed25519} : Type := {
  secret_from_bytes : bytes → SigningKey;
  secret_bytes : SigningKey → bytes;
  length_secret_bytes key : length (secret_bytes key) = 32;
  secret_from_to_bytes key : secret_from_bytes (secret_bytes key) = key;
  CurveKey : Type;
  curve_from_bytes : bytes → CurveKey;
  curve_bytes : CurveKey → bytes;
  length_curve_bytes key : length (curve_bytes key) = 32;
  curve_from_to_bytes key : curve_from_bytes (curve_bytes key) = key
}.

Inductive KeyError :=
| Base64Error
| Base64PrivateKey
| InvalidKeyLength (key_type : string) (expected_length length : nat)
| KeySignature.

Definition KEY_LENGTH : nat := 32.
Definition BASE64_LENGTH : nat := 43.
Definition PADDED_BASE64_LENGTH : nat := 44.

(** [copy_from_slice] into an array of [n] bytes. *)
Definition copy_from_slice {E} (n : nat) (src : bytes) : outcome E bytes :=
  if length src =? n then Ret src else Panic.

Definition key_length_ok (input : string) : bool :=
  (String.length input =? BASE64_LENGTH) || (String.length input =? PADDED_BASE64_LENGTH).

Definition or_throw {E A} (o : option A) (e : E) : outcome E A :=
  match o with Some a => Ret a | None => Throw e end.

Section keys.
Context `{!Ed25519, !Base64, !Base64ct, !KeyArrays}.
(** [base64::decoded_len_estimate] *)
Context (decoded_len_estimate : nat → nat).

Definition public_from_slice (bs : bytes) : outcome KeyError VerifyingKey := or_throw (key_from_bytes bs) KeySignature.

Definition public_from_base64 (input : string) : outcome KeyError VerifyingKey :=
  if negb (key_length_ok input)
  then Throw (InvalidKeyLength "Ed25519" KEY_LENGTH (decoded_len_estimate (String.length input)))
  else
    let! bs := or_throw (base64_decode input) Base64Error in
    let! key_bytes := copy_from_slice KEY_LENGTH bs in
    public_from_slice key_bytes.

Definition public_to_base64 (key : VerifyingKey) : string := base64_encode (key_bytes key).

Definition secret_to_base64 (key : SigningKey) : string := ct_encode_unpadded (secret_bytes key).

Definition secret_from_base64 (input : string) : outcome KeyError SigningKey :=
  if negb (key_length_ok input)
  then Throw (InvalidKeyLength "Ed25519" KEY_LENGTH (decoded_len_estimate (String.length input)))
  else
    let! bs :=
      match ct_decode_unpadded input with
      | Some bs => Ret bs
      | None => or_throw (ct_decode_padded input) Base64PrivateKey
      end in
    let! key_bytes := copy_from_slice KEY_LENGTH bs in
    Ret (secret_from_bytes key_bytes).

Definition curve_from_slice (slice : bytes) : outcome KeyError CurveKey :=
  let key_len := length slice in
  if key_len =? KEY_LENGTH
  then
    let! key := copy_from_slice KEY_LENGTH slice in
    Ret (curve_from_bytes key)
  else Throw (InvalidKeyLength "Curve25519" KEY_LENGTH key_len).

Definition curve_from_base64 (input : string) : outcome KeyError CurveKey :=
  if negb (key_length_ok input)
  then Throw (InvalidKeyLength "Curve25519" KEY_LENGTH (decoded_len_estimate (String.length input)))
  else
    let! key := or_throw (base64_decode input) Base64Error in
    curve_from_slice key.

Definition curve_to_base64 (key : CurveKey) : string := base64_encode (curve_bytes key).

End keys.

(** ** Keys as text: round trips, and the text that panics *)

Section texts.
Context `{!Ed25519, !Base64, !Base64ct, !KeyArrays, !Base64Length}.
Context (estimate : nat → nat).

(** ** What the functions do *)

Lemma encoded_length_ok s (bs : bytes) :
  String.length s = (4 * length bs + 2) / 3 → (32 <= length bs <= 33 ↔ key_length_ok s = true).
Proof.
  intros Hs. unfold key_length_ok, BASE64_LENGTH, PADDED_BASE64_LENGTH. rewrite Hs, orb_true_iff, !Nat.eqb_eq.
  pose proof (Nat.div_mod_eq (4 * length bs + 2) 3). pose proof (Nat.mod_upper_bound (4 * length bs + 2) 3). lia.
Qed.

Lemma copy_exact {E} (bs : bytes) : length bs = 32 → copy_from_slice (E := E) KEY_LENGTH bs = Ret bs.
Proof. unfold copy_from_slice. by intros ->. Qed.

(** Keys survive being written as text: an Ed25519 public key, an Ed25519 secret key
    and a Curve25519 public key that are written as base64 are read back as the same key. *)
Theorem key_text_round_trip (key : VerifyingKey) (secret : SigningKey) (curve : CurveKey) :
  public_from_base64 estimate (public_to_base64 key) = Ret key ∧
  secret_from_base64 estimate (secret_to_base64 secret) = Ret secret ∧
  curve_from_base64 estimate (curve_to_base64 curve) = Ret curve.
Proof.
  unfold public_from_base64, secret_from_base64, curve_from_base64, public_to_base64, secret_to_base64, curve_to_base64.
  rewrite (proj1 (encoded_length_ok _ _ (length_base64_encode _))) by (rewrite length_key_bytes; lia).
  rewrite (proj1 (encoded_length_ok _ _ (length_ct_encode _))) by (rewrite length_secret_bytes; lia).
  rewrite (proj1 (encoded_length_ok _ _ (length_base64_encode _))) by (rewrite length_curve_bytes; lia).
  rewrite !base64_round_trip, ct_round_trip. cbn. unfold public_from_slice, curve_from_slice.
  rewrite !copy_exact, key_from_to_bytes, length_curve_bytes, secret_from_to_bytes by auto using length_key_bytes, length_secret_bytes, length_curve_bytes.
  cbn. by rewrite curve_from_to_bytes.
Qed.

(** C39. A text of 44 symbols need not be a padded key: it can also be the unpadded base64
    of 33 bytes.  Reading it as an Ed25519 public or secret key panics, where reading it
    as a Curve25519 key reports the wrong length. *)
Theorem long_key_text_panics (bs : bytes) :
  length bs = 33 →
  public_from_base64 estimate (base64_encode bs) = Panic ∧
  secret_from_base64 estimate (ct_encode_unpadded bs) = Panic ∧
  curve_from_base64 estimate (base64_encode bs) = Throw (InvalidKeyLength "Curve25519" 32 33).
Proof.
  intros Hbs. unfold public_from_base64, secret_from_base64, curve_from_base64.
  rewrite (proj1 (encoded_length_ok _ _ (length_base64_encode _))), (proj1 (encoded_length_ok _ _ (length_ct_encode _))) by lia.
  rewrite !base64_round_trip, ct_round_trip. cbn. unfold curve_from_slice, copy_from_slice. by rewrite Hbs.
Qed.

End texts.

(** ** Sample base64 and keys *)

(** Standard base64 on the value of a group of bytes: a group of three makes four
    symbols, and the last one may be shorter. *)
Definition symbol (z : Z) : Ascii.ascii :=
  match String.get (Z.to_nat (z mod 64)) "ABCDEFGHIJKLMNOPQRSTUVWXYZabcdefghijklmnopqrstuvwxyz0123456789+/" with
  | Some c => c
  | None => Ascii.zero
  end.

Definition symbol_value (c : Ascii.ascii) : Z :=
  let z := Z.of_N (Ascii.N_of_ascii c) in
  (if (65 <=? z) && (z <=? 90) then z - 65
   else if (97 <=? z) && (z <=? 122) then z - 71
   else if (48 <=? z) && (z <=? 57) then z + 4
   else if z =? 43 then 62
   else 63)%Z.

Fixpoint sample_encode (bs : bytes) : string :=
  match bs with
  | [] => ""
  | [b0] => let v := (byte_val b0 * 65536)%Z in
      String (symbol (v / 262144)) (String (symbol (v / 4096)) "")
  | [b0; b1] => let v := (byte_val b0 * 65536 + byte_val b1 * 256)%Z in
      String (symbol (v / 262144)) (String (symbol (v / 4096)) (String (symbol (v / 64)) ""))
  | b0 :: b1 :: b2 :: bs => let v := (byte_val b0 * 65536 + byte_val b1 * 256 + byte_val b2)%Z in
      String (symbol (v / 262144)) (String (symbol (v / 4096))
        (String (symbol (v / 64)) (String (symbol v) (sample_encode bs))))
  end.

Fixpoint sample_decode (s : string) : bytes :=
  match s with
  | String c0 (String c1 "") =>
      let v := (symbol_value c0 * 262144 + symbol_value c1 * 4096)%Z in [byte_of (v / 65536)]
  | String c0 (String c1 (String c2 "")) =>
      let v := (symbol_value c0 * 262144 + symbol_value c1 * 4096 + symbol_value c2 * 64)%Z in
      [byte_of (v / 65536); byte_of (v / 256)]
  | String c0 (String c1 (String c2 (String c3 s))) =>
      let v := (symbol_value c0 * 262144 + symbol_value c1 * 4096 + symbol_value c2 * 64 + symbol_value c3)%Z in
      byte_of (v / 65536) :: byte_of (v / 256) :: byte_of v :: sample_decode s
  | _ => []
  end.

Lemma symbol_value_symbol z : symbol_value (symbol z) = (z mod 64)%Z.
Proof.
  unfold symbol. pose proof (Z.mod_pos_bound z 64 eq_refl) as Hz. set (r := (z mod 64)%Z) in *.
  assert (Hall : forallb (λ n, symbol_value (symbol (Z.of_nat n)) =? Z.of_nat n)%Z (seq 0 64) = true) by reflexivity.
  rewrite forallb_forall in Hall. specialize (Hall (Z.to_nat r)).
  rewrite in_seq in Hall. specialize (Hall ltac:(lia)). apply Z.eqb_eq in Hall.
  unfold symbol in Hall. rewrite Z2Nat.id, (Z.mod_small r) in Hall by lia. done.
Qed.

Lemma byte_of_is z b : (z mod 256 = byte_val b)%Z → byte_of z = b.
Proof. intros H. apply byte_val_inj. by rewrite byte_val_of. Qed.

(** Bytes are read back from the symbols of their group. *)
Ltac group_bytes :=
  rewrite !symbol_value_symbol;
  repeat (apply (f_equal2 cons); [apply byte_of_is; repeat match goal with |- context [byte_val ?b] =>
    generalize (byte_val_bound b); generalize (byte_val b); intros ? ? end;
    Z.to_euclidean_division_equations; lia|]).

Lemma sample_decode_encode bs : sample_decode (sample_encode bs) = bs.
Proof.
  enough (∀ n bs, length bs <= n → sample_decode (sample_encode bs) = bs) by eauto.
  clear. intros n. induction n as [|n IH]; intros bs Hn; [by destruct bs; [|cbn in Hn; lia]|].
  destruct bs as [|b0 [|b1 [|b2 bs]]]; cbn [sample_encode sample_decode]; [done|by group_bytes|by group_bytes|].
  group_bytes. apply IH. cbn in Hn. lia.
Qed.

Lemma length_sample_encode bs : String.length (sample_encode bs) = (4 * length bs + 2) / 3.
Proof.
  enough (∀ n bs, length bs <= n → String.length (sample_encode bs) = (4 * length bs + 2) / 3) by eauto.
  clear. intros n. induction n as [|n IH]; intros bs Hn; [by destruct bs; [|cbn in Hn; lia]|].
  destruct bs as [|b0 [|b1 [|b2 bs]]]; [done..|]. cbn [sample_encode String.length length].
  rewrite IH by (cbn in Hn; lia). replace (4 * S (S (S (length bs))) + 2) with (4 * length bs + 2 + 4 * 3) by lia.
  rewrite Nat.div_add by lia. lia.
Qed.

Definition sample_base64 : Base64 :=
  {| base64_encode := sample_encode; base64_decode s := Some (sample_decode s);
     base64_round_trip bs := f_equal Some (sample_decode_encode bs) |}.

Definition sample_base64ct : Base64ct :=
  {| ct_encode_unpadded := sample_encode; ct_decode_unpadded s := Some (sample_decode s); ct_decode_padded _ := None;
     ct_round_trip bs := f_equal Some (sample_decode_encode bs); length_ct_encode := length_sample_encode |}.

(** Keys that are any 32 bytes. *)
Definition sample_key : Type := dsig (λ bs : bytes, length bs = 32).

Definition sample_key_of (bs : bytes) : sample_key := dexist (fit 32 bs) (length_fit 32 bs).

Lemma fit_exact n bs : length bs = n → fit n bs = bs.
Proof. intros <-. unfold fit. apply take_app_length. Qed.

Lemma length_sample_key (k : sample_key) : length (proj1_sig k) = 32.
Proof. destruct k as [bs H]. exact (bool_decide_unpack _ H). Qed.

Lemma sample_key_of_bytes (k : sample_key) : sample_key_of (proj1_sig k) = k.
Proof. apply dsig_eq. cbn. apply fit_exact, length_sample_key. Qed.

#[refine] Instance sample_keys : Ed25519 := {|
  SigningKey := sample_key;
  VerifyingKey := sample_key;
  Signature := sample_signature;
  verifying_key key := key;
  ed_sign key message := dexist (fit 64 (proj1_sig key ++ message)) (length_fit 64 _);
  ed_verify key message sig := bool_decide (proj1_sig sig = fit 64 (proj1_sig key ++ message));
  key_bytes key := proj1_sig key;
  key_from_bytes bs := Some (sample_key_of bs);
  signature_bytes sig := proj1_sig sig;
  signature_from_slice := sample_signature_of
|}.
Proof.
  - intros. by apply bool_decide_eq_true_2.
  - apply length_sample_key.
  - intros. cbn. by rewrite sample_key_of_bytes.
  - exact (length_signature_bytes (Ed25519 := sample_ed25519)).
  - exact (signature_from_to_bytes (Ed25519 := sample_ed25519)).
  - exact (signature_of_length (Ed25519 := sample_ed25519)).
Defined.

Instance sample_canonical : @CanonicalKeys sample_keys.
Proof. intros bs key Hbs [= <-]. by apply fit_exact. Qed.

Definition sample_arrays : @KeyArrays sample_keys :=
  {| secret_from_bytes := sample_key_of : bytes → SigningKey (Ed25519 := sample_keys);
     secret_bytes := @proj1_sig _ _ : SigningKey (Ed25519 := sample_keys) → bytes;
     length_secret_bytes := length_sample_key; secret_from_to_bytes := sample_key_of_bytes;
     curve_from_bytes := sample_key_of; curve_bytes key := proj1_sig key;
     length_curve_bytes := length_sample_key; curve_from_to_bytes := sample_key_of_bytes |}.

Lemma key_text_round_trip_witness :
  let key := sample_key_of (replicate 32 x61) in
  public_from_base64 (H := sample_keys) (H0 := sample_base64) id "YWFhYWFhYWFhYWFhYWFhYWFhYWFhYWFhYWFhYWFhYWE" = Ret key.
Proof.
  exact (proj1 (@key_text_round_trip sample_keys sample_base64 sample_base64ct sample_arrays length_sample_encode id
    (sample_key_of (replicate 32 x61)) (sample_key_of []) (sample_key_of []))).
Defined.

Lemma long_key_text_panics_witness :
  public_from_base64 (H := sample_keys) (H0 := sample_base64) id "YWFhYWFhYWFhYWFhYWFhYWFhYWFhYWFhYWFhYWFhYWFh" = Panic.
Proof.
  exact (proj1 (@long_key_text_panics sample_keys sample_base64 sample_base64ct sample_arrays length_sample_encode id
    (replicate 33 x61) eq_refl)).
Defined.
