(* ===== verification/QrCode.v ===== *)
(** * QR codes for verification

    [client-qrcode]: the bytes of a verification code, written and parsed.  A string is
    the list of its UTF-8 bytes; a [Base64] value is the bytes it stands for.  Drawing
    the code is left to the [qrcode] library, a parameter of [to_qr_code].

    The theorems show that codes are read exactly as they were written. *)

From S2P Require Import Prelude Bytes Cipher SampleCrypto Keys.

Definition HEADER : bytes := [x4d; x41; x54; x52; x49; x58].
Definition VERSION : Z := 2.
Definition MAX_MODE : Z := 2.
Definition MIN_SECRET_LEN : nat := 8.

Inductive DecodingError :=
| BadHeader
| BadUtf8
| BadMode (mode : Z)
| Read
| SharedSecret (length : nat)
| BadVersion (version : Z)
| BadKeys (e : KeyError).

Inductive EncodingError :=
| Qr
| FlowId.

Section qr.
Context `{!Ed25519}.

Record VerificationData := {
  flow_id : bytes;
  first_master_key : VerifyingKey;
  second_master_key : VerifyingKey;
  v_shared_secret : bytes
}.

Record SelfVerificationData := {
  s_transaction_id : bytes;
  s_master_key : VerifyingKey;
  s_device_key : VerifyingKey;
  s_shared_secret : bytes
}.

Record SelfVerificationNoMasterKey := {
  n_transaction_id : bytes;
  n_device_key : VerifyingKey;
  n_master_key : VerifyingKey;
  n_shared_secret : bytes
}.

Inductive QrVerificationData :=
| Verification (v : VerificationData)
| SelfVerification (v : SelfVerificationData)
| NoMasterKey (v : SelfVerificationNoMasterKey).

(** ** Encoding *)

(** [to_bytes] of [utils.rs]; the length of the flow id is converted to [u16]. *)
Definition utils_to_bytes (mode : Z) (flow_id : bytes) (first_key second_key : VerifyingKey) (shared_secret : bytes)
    : outcome EncodingError bytes :=
  let! flow_id_len := if (Z.of_nat (length flow_id) <? 2 ^ 16)%Z then Ret (Z.of_nat (length flow_id)) else Throw FlowId in
  Ret (HEADER ++ [byte_of VERSION] ++ [byte_of mode] ++ to_be_bytes 2 flow_id_len ++ flow_id
         ++ key_bytes first_key ++ key_bytes second_key ++ shared_secret).

Definition qr_mode (d : QrVerificationData) : Z :=
  match d with Verification _ => 0 | SelfVerification _ => 1 | NoMasterKey _ => 2 end.

Definition qr_flow_id (d : QrVerificationData) : bytes :=
  match d with
  | Verification v => flow_id v
  | SelfVerification v => s_transaction_id v
  | NoMasterKey v => n_transaction_id v
  end.

Definition first_key (d : QrVerificationData) : VerifyingKey :=
  match d with
  | Verification v => first_master_key v
  | SelfVerification v => s_master_key v
  | NoMasterKey v => n_device_key v
  end.

Definition second_key (d : QrVerificationData) : VerifyingKey :=
  match d with
  | Verification v => second_master_key v
  | SelfVerification v => s_device_key v
  | NoMasterKey v => n_master_key v
  end.

Definition secret (d : QrVerificationData) : bytes :=
  match d with
  | Verification v => v_shared_secret v
  | SelfVerification v => s_shared_secret v
  | NoMasterKey v => n_shared_secret v
  end.

Definition qr_to_bytes (d : QrVerificationData) : outcome EncodingError bytes :=
  match d with
  | Verification v => utils_to_bytes 0 (flow_id v) (first_master_key v) (second_master_key v) (v_shared_secret v)
  | SelfVerification v => utils_to_bytes 1 (s_transaction_id v) (s_master_key v) (s_device_key v) (s_shared_secret v)
  | NoMasterKey v => utils_to_bytes 2 (n_transaction_id v) (n_device_key v) (n_master_key v) (n_shared_secret v)
  end.

Definition to_qr_code {QrCode} (draw : bytes → option QrCode) (d : QrVerificationData) : outcome EncodingError QrCode :=
  let! data := qr_to_bytes d in
  or_throw (draw data) Qr.

(** ** Decoding *)

(** [Cursor::read_exact] *)
Definition read_exact (n : nat) (cursor : bytes) : outcome DecodingError (bytes * bytes) :=
  if n <=? length cursor then Ret (take n cursor, drop n cursor) else Throw Read.

Definition read_uint (n : nat) (cursor : bytes) : outcome DecodingError (Z * bytes) :=
  let! (bs, cursor) := read_exact n cursor in
  Ret (u_from_be_bytes bs, cursor).

Definition of_key {A} (o : outcome KeyError A) : outcome DecodingError A :=
  match o with Ret a => Ret a | Throw e => Throw (BadKeys e) | Panic => Panic | OutOfFuel => OutOfFuel end.

Definition qr_new (mode : Z) (id : bytes) (first_key second_key : VerifyingKey) (secret : bytes)
    : outcome DecodingError QrVerificationData :=
  if negb (utf8_valid id) then Throw BadUtf8
  else if (mode =? 0)%Z then Ret (Verification (Build_VerificationData id first_key second_key secret))
  else if (mode =? 1)%Z then Ret (SelfVerification (Build_SelfVerificationData id first_key second_key secret))
  else if (mode =? 2)%Z then Ret (NoMasterKey (Build_SelfVerificationNoMasterKey id first_key second_key secret))
  else Throw (BadMode mode).

Definition decode_bytes (decoded : bytes) : outcome DecodingError QrVerificationData :=
  let! (header, decoded) := read_exact 6 decoded in
  let! (version, decoded) := read_uint 1 decoded in
  let! (mode, decoded) := read_uint 1 decoded in
  if bool_decide (header ≠ HEADER) then Throw BadHeader
  else if negb (version =? VERSION)%Z then Throw (BadVersion version)
  else if (MAX_MODE <? mode)%Z then Throw (BadMode mode)
  else
    let! (flow_id_len, decoded) := read_uint 2 decoded in
    let! (flow_id, decoded) := read_exact (Z.to_nat flow_id_len) decoded in
    let! (first, decoded) := read_exact 32 decoded in
    let! (second, decoded) := read_exact 32 decoded in
    let shared_secret := decoded in
    if length shared_secret <? MIN_SECRET_LEN then Throw (SharedSecret (length shared_secret))
    else
      let! first_key := of_key (public_from_slice first) in
      let! second_key := of_key (public_from_slice second) in
      qr_new mode flow_id first_key second_key shared_secret.

End qr.

(** ** QR codes are read as they were written *)

Section codes.
Context `{!Ed25519, !CanonicalKeys}.

(** What a code must have to be read back. *)
Definition readable (d : QrVerificationData) : Prop :=
  utf8_valid (qr_flow_id d) = true ∧ MIN_SECRET_LEN <= length (secret d).

Lemma read_exact_front n (a b : bytes) : length a = n → read_exact n (a ++ b) = Ret (a, b).
Proof.
  intros <-. unfold read_exact. rewrite (proj2 (Nat.leb_le _ _)) by (rewrite length_app; lia).
  by rewrite take_app_length, drop_app_length.
Qed.

Lemma read_exact_inv n (cursor a b : bytes) : read_exact n cursor = Ret (a, b) → cursor = a ++ b ∧ length a = n.
Proof.
  unfold read_exact. destruct (Nat.leb_spec n (length cursor)); [|done]. intros [= <- <-].
  rewrite take_drop, length_take. split; [done|lia].
Qed.

Lemma read_uint_app w z (b : bytes) : (0 <= z < 256 ^ Z.of_nat w)%Z → read_uint w (to_be_bytes w z ++ b) = Ret (z, b).
Proof.
  intros Hz. unfold read_uint. rewrite read_exact_front by apply length_to_be_bytes.
  by rewrite u_from_to_be_bytes, Z.mod_small.
Qed.

Lemma u_from_be_bytes_inj (a : bytes) : ∀ b, length a = length b → u_from_be_bytes a = u_from_be_bytes b → a = b.
Proof.
  induction a as [|x a IH]; intros [|y b] Hl; try done. injection Hl as Hl. rewrite !u_from_be_bytes_cons, Hl.
  pose proof (u_from_be_bytes_bound a) as Ha. pose proof (u_from_be_bytes_bound b) as Hb. rewrite Hl in Ha. intros Hv.
  assert (Hxy : byte_val x = byte_val y) by nia. rewrite Hxy in Hv. f_equal; [by apply byte_val_inj|]. apply IH; [done|lia].
Qed.

Lemma read_uint_inv w (cursor b : bytes) z :
  read_uint w cursor = Ret (z, b) → cursor = to_be_bytes w z ++ b ∧ (0 <= z < 256 ^ Z.of_nat w)%Z.
Proof.
  unfold read_uint. destruct (read_exact w cursor) as [[bs rest]| | |] eqn:Hr; [|done..]. intros [= <- <-].
  apply read_exact_inv in Hr as [-> <-]. pose proof (u_from_be_bytes_bound bs). split; [|done]. f_equal.
  apply u_from_be_bytes_inj; [by rewrite length_to_be_bytes|]. by rewrite u_from_to_be_bytes, Z.mod_small.
Qed.

Lemma byte_as_uint z : [byte_of z] = to_be_bytes 1 z.
Proof. unfold to_be_bytes. by rewrite Z.div_1_r. Qed.

(** The bytes of a code, and how they are read back. *)
Definition layout (mode : Z) (id : bytes) (first second secret : bytes) : bytes :=
  HEADER ++ to_be_bytes 1 VERSION ++ to_be_bytes 1 mode ++ to_be_bytes 2 (Z.of_nat (length id))
    ++ id ++ first ++ second ++ secret.

Lemma utils_to_bytes_layout mode id first second secret :
  utils_to_bytes mode id first second secret =
  if (Z.of_nat (length id) <? 2 ^ 16)%Z then Ret (layout mode id (key_bytes first) (key_bytes second) secret) else Throw FlowId.
Proof. unfold utils_to_bytes, layout. rewrite !byte_as_uint. by destruct (_ <? _)%Z. Qed.

Lemma decode_layout mode id first second secret :
  (0 <= mode <= 2)%Z → (Z.of_nat (length id) < 2 ^ 16)%Z → length first = 32 → length second = 32 →
  decode_bytes (layout mode id first second secret) =
  if length secret <? MIN_SECRET_LEN then Throw (SharedSecret (length secret))
  else
    let! first_key := of_key (public_from_slice first) in
    let! second_key := of_key (public_from_slice second) in
    qr_new mode id first_key second_key secret.
Proof.
  intros Hm Hid Hf Hs. unfold decode_bytes, layout.
  rewrite read_exact_front by done. rewrite !read_uint_app by (unfold VERSION; cbn; lia).
  rewrite bool_decide_eq_false_2 by auto. cbn [negb]. rewrite Z.eqb_refl, (proj2 (Z.ltb_ge _ _)) by (unfold MAX_MODE; lia).
  cbn [negb]. rewrite ?read_uint_app by (cbn; lia). rewrite Nat2Z.id, !read_exact_front by done. done.
Qed.

Lemma decode_inv bs d :
  decode_bytes bs = Ret d →
  ∃ mode id first second secret k1 k2, bs = layout mode id first second secret ∧ (0 <= mode <= 2)%Z ∧
    (Z.of_nat (length id) < 2 ^ 16)%Z ∧ length first = 32 ∧ length second = 32 ∧ MIN_SECRET_LEN <= length secret ∧
    public_from_slice first = Ret k1 ∧ public_from_slice second = Ret k2 ∧ qr_new mode id k1 k2 secret = Ret d.
Proof.
  unfold decode_bytes. destruct (read_exact 6 bs) as [[h r1]| | |] eqn:R1; [|done..].
  destruct (read_uint 1 r1) as [[v r2]| | |] eqn:R2; [|done..]. destruct (read_uint 1 r2) as [[m r3]| | |] eqn:R3; [|done..].
  case_bool_decide as Hh; [done|]. destruct (Z.eqb_spec v VERSION) as [->|]; [|done]. cbn [negb].
  destruct (Z.ltb_spec MAX_MODE m); [done|].
  destruct (read_uint 2 r3) as [[n r4]| | |] eqn:R4; [|done..].
  destruct (read_exact (Z.to_nat n) r4) as [[id r5]| | |] eqn:R5; [|done..].
  destruct (read_exact 32 r5) as [[k1 r6]| | |] eqn:R6; [|done..]. destruct (read_exact 32 r6) as [[k2 r7]| | |] eqn:R7; [|done..].
  destruct (Nat.ltb_spec (length r7) MIN_SECRET_LEN); [done|].
  destruct (public_from_slice k1) as [key1| | |] eqn:Hk1; [|done..]. destruct (public_from_slice k2) as [key2| | |] eqn:Hk2; [|done..].
  cbn [of_key]. intros Hd. subst h.
  apply read_exact_inv in R1 as [-> _], R5 as [-> Hid], R6 as [-> ?], R7 as [-> ?].
  apply read_uint_inv in R2 as [-> _], R3 as [-> Hm], R4 as [-> Hn].
  exists m, id, k1, k2, r7, key1, key2. split_and!; try done; try lia. unfold layout. rewrite Hid, Z2Nat.id by lia. done.
Qed.

Lemma public_from_slice_key (key : VerifyingKey) : public_from_slice (key_bytes key) = Ret key.
Proof. unfold public_from_slice. by rewrite key_from_to_bytes. Qed.

Lemma public_from_slice_inv bs key : length bs = 32 → public_from_slice bs = Ret key → bs = key_bytes key.
Proof.
  intros Hl. unfold public_from_slice. destruct (key_from_bytes bs) eqn:Hk; [|done]. intros [= ->].
  symmetry. by apply key_to_from_bytes.
Qed.

Lemma decode_written mode id k1 k2 secret bs d :
  (0 <= mode <= 2)%Z → utils_to_bytes mode id k1 k2 secret = Ret bs → MIN_SECRET_LEN <= length secret →
  qr_new mode id k1 k2 secret = Ret d → decode_bytes bs = Ret d.
Proof.
  intros Hm Hb Hsec Hd. rewrite utils_to_bytes_layout in Hb. destruct (Z.ltb_spec (Z.of_nat (length id)) (2 ^ 16)); [|done].
  injection Hb as <-. rewrite decode_layout by (done || apply length_key_bytes).
  rewrite (proj2 (Nat.ltb_ge _ _)), !public_from_slice_key by done. exact Hd.
Qed.

(** C14. The bytes of a verification code determine the code and are determined by it:
    bytes are decoded to some data exactly when encoding the data gives these bytes, the
    flow id is valid UTF-8 and the secret has at least eight bytes.  This covers all three
    modes and both orders of keys. *)
Theorem qr_decodes_iff bs d : decode_bytes bs = Ret d ↔ qr_to_bytes d = Ret bs ∧ readable d.
Proof.
  split.
  - intros Hd. apply decode_inv in Hd as (m & id & f & s & sec & k1 & k2 & -> & Hm & Hid & Hf & Hs & Hsec & Hk1 & Hk2 & Hnew).
    apply public_from_slice_inv in Hk1 as ->, Hk2 as ->; [|done..]. unfold qr_new in Hnew.
    destruct (utf8_valid id) eqn:Hu; [|done]. cbn [negb] in Hnew.
    destruct (Z.eqb_spec m 0) as [->|]; [|destruct (Z.eqb_spec m 1) as [->|]; [|destruct (Z.eqb_spec m 2) as [->|]; [|lia]]];
      injection Hnew as <-; (split; [|done]); cbn [qr_to_bytes];
      by rewrite utils_to_bytes_layout, (proj2 (Z.ltb_lt _ _)).
  - intros [Hb [Hu Hsec]]. destruct d as [[]|[]|[]]; cbn [qr_to_bytes qr_flow_id secret] in *;
      eapply decode_written; try exact Hb; try done; unfold qr_new; cbn in *; by rewrite Hu.
Qed.

(** Encoding fails only for a flow id of more than 65535 bytes, and checks nothing
    else: a secret of fewer than eight bytes is encoded, and the bytes are then rejected
    for it. *)
Theorem qr_encoding_cases d :
  match qr_to_bytes d with
  | Ret bs => (Z.of_nat (length (qr_flow_id d)) < 2 ^ 16)%Z ∧
      (length (secret d) < MIN_SECRET_LEN → decode_bytes bs = Throw (SharedSecret (length (secret d))))
  | Throw e => e = FlowId ∧ (2 ^ 16 <= Z.of_nat (length (qr_flow_id d)))%Z
  | _ => False
  end.
Proof.
  assert (qr_to_bytes d = utils_to_bytes (qr_mode d) (qr_flow_id d) (first_key d) (second_key d) (secret d)) as -> by by destruct d.
  rewrite utils_to_bytes_layout. destruct (Z.ltb_spec (Z.of_nat (length (qr_flow_id d))) (2 ^ 16)); [|done].
  split; [done|]. intros Hs. rewrite decode_layout, (proj2 (Nat.ltb_lt _ _)) by (done || apply length_key_bytes || (destruct d; cbn; lia)).
  done.
Qed.

End codes.

Definition sample_code : QrVerificationData (H := sample_keys) :=
  SelfVerification {| s_transaction_id := [x46; x4c; x4f; x57]; s_master_key := sample_key_of [x01];
    s_device_key := sample_key_of [x02]; s_shared_secret := replicate 8 x53 |}.

Definition sample_code_bytes : bytes :=
  [x4d; x41; x54; x52; x49; x58; x02; x01; x00; x04; x46; x4c; x4f; x57]
    ++ fit 32 [x01] ++ fit 32 [x02] ++ replicate 8 x53.

Lemma qr_decodes_iff_witness : decode_bytes sample_code_bytes = Ret sample_code.
Proof.
  apply (qr_decodes_iff (H := sample_keys)). split; [by_vm|]. split; [by_vm|]. apply Nat.leb_le. by_vm.
Defined.
