(* ===== verification/ShortAuth.v ===== *)
(** * Short authentication strings

    [common-olm/src/sas.rs]: the key agreement, the bytes that both sides show, and the
    codes that authenticate their keys.  The ephemeral secret that the code draws at
    random is an argument. *)

From S2P Require Import Prelude Bytes Cipher Megolm Olm.

Definition str_bytes (s : string) : bytes := String.list_byte_of_string s.

(** ** The bytes that are shown *)

(** [SasBytes::bytes_to_emoji_index], on six bytes as [u64] values. *)
Definition bytes_to_emoji_index (bytes : list Z) : list Z :=
  let b i := nth i bytes 0%Z in
  let num := Z.shiftl (b 0) 40 in
  let num := Z.add num (Z.shiftl (b 1) 32) in
  let num := Z.add num (Z.shiftl (b 2) 24) in
  let num := Z.add num (Z.shiftl (b 3) 16) in
  let num := Z.add num (Z.shiftl (b 4) 8) in
  let num := Z.add num (b 5) in
  [Z.land (Z.shiftr num 42) 63; Z.land (Z.shiftr num 36) 63; Z.land (Z.shiftr num 30) 63; Z.land (Z.shiftr num 24) 63;
   Z.land (Z.shiftr num 18) 63; Z.land (Z.shiftr num 12) 63; Z.land (Z.shiftr num 6) 63].

(** [<<] on [u16] drops the bits that do not fit; [+] panics or wraps around. *)
Definition u16_shl (z n : Z) : Z := (Z.shiftl z n mod 2 ^ 16)%Z.

Definition u16_plus {E} (debug : bool) (a b : Z) : outcome E Z :=
  if (a + b <? 2 ^ 16)%Z then Ret (a + b)%Z else if debug then Panic else Ret ((a + b) mod 2 ^ 16)%Z.

Definition bytes_to_decimal {E} (debug : bool) (bytes : list Z) : outcome E (Z * Z * Z) :=
  let b i := nth i bytes 0%Z in
  let first := Z.lor (u16_shl (b 0) 5) (Z.shiftr (b 1) 3) in
  let second := Z.lor (Z.lor (u16_shl (Z.land (b 1) 7) 10) (u16_shl (b 2) 2)) (Z.shiftr (b 3) 6) in
  let third := Z.lor (u16_shl (Z.land (b 3) 63) 7) (Z.shiftr (b 4) 1) in
  let! first := u16_plus debug first 1000 in
  let! second := u16_plus debug second 1000 in
  let! third := u16_plus debug third 1000 in
  Ret (first, second, third).

(** ** The agreement *)

Inductive SasKeyError := NonContributoryKey.

Section sas.
Context `{!Primitives, !Base64, !Curve25519}.

Record EstablishedSas := {
  shared_secret : bytes;
  our_public_key : PublicKey;
  their_public_key : PublicKey
}.

(** [Sas::diffie_hellman], of the ephemeral secret. *)
Definition sas_diffie_hellman (secret_key : SecretKey) (their : PublicKey) : outcome SasKeyError EstablishedSas :=
  match diffie_hellman secret_key their with
  | Some secret => Ret {| shared_secret := secret; our_public_key := public_of secret_key; their_public_key := their |}
  | None => Throw NonContributoryKey
  end.

(** [get_hkdf] without a salt, and [expand], whose output is at most 255 hashes long. *)
Definition hkdf_expand (sas : EstablishedSas) (info : string) (count : nat) : option bytes :=
  if count <=? 255 * 32 then Some (hkdf_sha256 (replicate 32 x00) (shared_secret sas) (str_bytes info) count) else None.

Definition bytes_raw (sas : EstablishedSas) (info : string) (count : nat) : option bytes := hkdf_expand sas info count.

(** [EstablishedSas::bytes], with its [expect]. *)
Definition sas_bytes {E} (sas : EstablishedSas) (info : string) : outcome E (list Z) :=
  match bytes_raw sas info 6 with Some bs => Ret (byte_val <$> bs) | None => Panic end.

Definition get_mac_key {E} (sas : EstablishedSas) (info : string) : outcome E bytes :=
  match hkdf_expand sas info 32 with Some key => Ret key | None => Panic end.

Definition calculate_mac {E} (sas : EstablishedSas) (input info : string) : outcome E bytes :=
  let! key := get_mac_key sas info in
  Ret (hmac_sha256 key (str_bytes input)).

(** [verify_mac]: whether the tag is the full code. *)
Definition verify_mac {E} (sas : EstablishedSas) (input info : string) (tag : bytes) : outcome E bool :=
  let! mac := calculate_mac sas input info in
  Ret (bool_decide (tag = mac)).

(** [&s[from..to]] on bytes. *)
Definition sub_bytes {E} (s : bytes) (from to : nat) : outcome E bytes :=
  if (from <=? to) && (to <=? length s) then Ret (take (to - from) (drop from s)) else Panic.

Definition encode_bytes (bs : bytes) : bytes := str_bytes (base64_encode bs).

(** The two steps in which less and less of the code is left. *)
Fixpoint overwrite {E} (mac : bytes) (steps : list nat) (bytes_from_mac : nat) (out : bytes) : outcome E bytes :=
  match steps with
  | [] => Ret out
  | i :: steps =>
      let! from_mac := sub_bytes mac (i - bytes_from_mac) i in
      let! from_out := sub_bytes out (length out - (3 - bytes_from_mac)) (length out) in
      overwrite mac steps (bytes_from_mac - 1) (out ++ encode_bytes (from_out ++ from_mac))
  end.

(** The steps that only encode the output again. *)
Fixpoint reencode {E} (steps : list nat) (out : bytes) : outcome E bytes :=
  match steps with
  | [] => Ret out
  | i :: steps =>
      let! next := sub_bytes out i (i + 3) in
      reencode steps (out ++ encode_bytes next)
  end.

(** The code of old versions of libolm, encoded over the buffer it is read from. *)
Definition calculate_mac_invalid_base64 {E} (sas : EstablishedSas) (input info : string) : outcome E bytes :=
  let! mac := calculate_mac sas input info in
  let! start := sub_bytes mac 0 3 in
  let! out := overwrite mac [6; 9] 2 (encode_bytes start) in
  let! out := reencode [9; 12; 15; 18; 21; 24; 27] out in
  let! next := sub_bytes out 30 32 in
  Ret (out ++ encode_bytes next).

End sas.
