(* ===== verification/SasFlow.v ===== *)
(** * Verification by short authentication strings

    [client-crypto/src/verification/sas]: the states of one side of a verification, what
    moves it from one to the next, and the messages it sends.  The clock and the random
    values of a step are its arguments; serialization and SHA-256 are parameters.  A
    [Base64] value is the bytes it stands for, and a device or identity key is its base64
    text.  Both kinds of events, to a device and in a room, carry their [FlowId]. *)

From S2P Require Import Prelude Identifiers CanonicalJson Bytes Cipher Megolm Olm ShortAuth.

(** ** Names *)

Inductive CancelCode :=
| CUser | CTimeout | CUnknownTransaction | CUnknownMethod | CUnexpectedMessage | CKeyMismatch | CUserMismatch
| CInvalidMessage | CAccepted | CMismatchedCommitment | CMismatchedSas
| CCustom (code : string).

Inductive FlowId :=
| ToDevice (transaction_id : string)
| InRoom (room_id event_id : string).

Definition flow_str (f : FlowId) : string := match f with ToDevice t => t | InRoom _ e => e end.

Record SasV1Content := {
  key_agreement_protocols : list string;
  hashes : list string;
  message_authentication_codes : list string;
  short_authentication_string : list string
}.

Definition KEY_AGREEMENT_PROTOCOLS : list string := ["curve25519-hkdf-sha256"].
Definition HASHES : list string := ["sha256"].
Definition STRINGS : list string := ["decimal"; "emoji"].

Definition the_protocol_definitions (short_auth_strings : option (list string)) : SasV1Content :=
  {| short_authentication_string := match short_auth_strings with Some l => l | None => STRINGS end;
     key_agreement_protocols := KEY_AGREEMENT_PROTOCOLS;
     message_authentication_codes := ["hkdf-hmac-sha256"; "hkdf-hmac-sha256.v2"; "org.matrix.msc3783.hkdf-hmac-sha256"];
     hashes := HASHES |}.

(** In nanoseconds. *)
Definition MAX_AGE : Z := 300 * 1000000000.
Definition MAX_EVENT_TIMEOUT : Z := 60 * 1000000000.

Inductive SupportedMacMethod := HkdfHmacSha256 | HkdfHmacSha256V2 | Msc3783HkdfHmacSha256V2.

#[export] Instance SupportedMacMethod_eq_dec : EqDecision SupportedMacMethod.
Proof. solve_decision. Defined.

Definition mac_method_str (m : SupportedMacMethod) : string :=
  match m with
  | HkdfHmacSha256 => "hkdf-hmac-sha256"
  | HkdfHmacSha256V2 => "hkdf-hmac-sha256.v2"
  | Msc3783HkdfHmacSha256V2 => "org.matrix.msc3783.hkdf-hmac-sha256"
  end.

Definition mac_method_of (value : string) : option SupportedMacMethod :=
  if String.eqb value "hkdf-hmac-sha256" then Some HkdfHmacSha256
  else if String.eqb value "org.matrix.msc3783.hkdf-hmac-sha256" then Some Msc3783HkdfHmacSha256V2
  else if String.eqb value "hkdf-hmac-sha256.v2" then Some HkdfHmacSha256V2
  else None.

Record AcceptedProtocols := {
  key_agreement_protocol : string;
  hash : string;
  message_auth_code : SupportedMacMethod;
  short_auth_string : list string
}.

(** The accept content of the SAS method. *)
Record AcceptV1Content := {
  commitment : bytes;
  accept_hash : string;
  accept_key_agreement_protocol : string;
  message_authentication_code : string;
  accept_short_authentication_string : list string
}.

Definition contains (l : list string) (s : string) : bool := existsb (String.eqb s) l.

(** [TryFrom<AcceptV1Content>] *)
Definition accepted_of_accept (content : AcceptV1Content) : outcome CancelCode AcceptedProtocols :=
  if negb (contains KEY_AGREEMENT_PROTOCOLS (accept_key_agreement_protocol content))
     || negb (contains HASHES (accept_hash content))
     || (negb (contains (accept_short_authentication_string content) "emoji")
         && negb (contains (accept_short_authentication_string content) "decimal"))
  then Throw CUnknownMethod
  else
    match mac_method_of (message_authentication_code content) with
    | None => Throw CUnknownMethod
    | Some method =>
        Ret {| hash := accept_hash content; key_agreement_protocol := accept_key_agreement_protocol content;
               message_auth_code := method; short_auth_string := accept_short_authentication_string content |}
    end.

(** [TryFrom<&SasV1Content>] *)
Definition accepted_of_start (content : SasV1Content) : outcome CancelCode AcceptedProtocols :=
  if negb (contains (key_agreement_protocols content) "curve25519-hkdf-sha256")
     || negb (contains (hashes content) "sha256")
     || (negb (contains (short_authentication_string content) "decimal")
         && negb (contains (short_authentication_string content) "emoji"))
  then Throw CUnknownMethod
  else
    let mac_methods := omap mac_method_of (message_authentication_codes content) in
    let method :=
      if bool_decide (HkdfHmacSha256V2 ∈ mac_methods) then Some HkdfHmacSha256V2
      else if bool_decide (Msc3783HkdfHmacSha256V2 ∈ mac_methods) then Some Msc3783HkdfHmacSha256V2
      else head mac_methods in
    match method with
    | None => Throw CUnknownMethod
    | Some method =>
        Ret {| hash := "sha256"; key_agreement_protocol := "curve25519-hkdf-sha256"; message_auth_code := method;
               short_auth_string :=
                 (if contains (short_authentication_string content) "decimal" then ["decimal"] else [])
                   ++ (if contains (short_authentication_string content) "emoji" then ["emoji"] else []) |}
    end.

(** ** Devices and identities *)

Record DeviceData := {
  dev_user_id : string;
  dev_device_id : string;
  dev_keys : list (string * string)
}.

(** The keys of the master key of another user. *)
Record UserIdentityData := { master_keys : list (string * string) }.

Record OwnUserIdentityData := { own_is_verified : bool; own_first_key : option string }.

Record SasIds := {
  account_user_id : string;
  account_device_id : string;
  account_ed25519 : string;
  own_identity : option OwnUserIdentityData;
  other_device : DeviceData;
  other_identity : option UserIdentityData
}.

(** ** Contents *)

Record StartContent := {
  from_device : string;
  start_flow : FlowId;
  (** [None] for another method *)
  start_method : option SasV1Content
}.

Record AcceptContent := { accept_flow : FlowId; accept_method : option AcceptV1Content }.
Record KeyContent := { key_flow : FlowId; key_public_key : bytes }.
Record MacContent := { mac_flow : FlowId; mac_mac : list (string * bytes); mac_keys : bytes }.
Record DoneContent := { done_flow : FlowId }.
Record CancelContent := { cancel_flow : FlowId; cancel_reason : string; cancel_code : CancelCode }.

Inductive AnyVerificationContent :=
| CtRequest | CtReady
| CtStart (c : StartContent)
| CtAccept (c : AcceptContent)
| CtKey (c : KeyContent)
| CtMac (c : MacContent)
| CtDone (c : DoneContent)
| CtCancel (c : CancelContent).

Record RequestInfo := { info_flow_id : FlowId; info_request_id : string }.

(** What is sent in reply, and the request to wait for. *)
Abbreviation reply := (option (AnyVerificationContent * option RequestInfo)).

(** ** Emoji *)

Definition emojis : list (string * string) :=
  [
   ("🐶", "Dog"); ("🐱", "Cat"); ("🦁", "Lion"); ("🐎", "Horse");
   ("🦄", "Unicorn"); ("🐷", "Pig"); ("🐘", "Elephant"); ("🐰", "Rabbit");
   ("🐼", "Panda"); ("🐓", "Rooster"); ("🐧", "Penguin"); ("🐢", "Turtle");
   ("🐟", "Fish"); ("🐙", "Octopus"); ("🦋", "Butterfly"); ("🌷", "Flower");
   ("🌳", "Tree"); ("🌵", "Cactus"); ("🍄", "Mushroom"); ("🌏", "Globe");
   ("🌙", "Moon"); ("☁️", "Cloud"); ("🔥", "Fire"); ("🍌", "Banana");
   ("🍎", "Apple"); ("🍓", "Strawberry"); ("🌽", "Corn"); ("🍕", "Pizza");
   ("🎂", "Cake"); ("❤️", "Heart"); ("😀", "Smiley"); ("🤖", "Robot");
   ("🎩", "Hat"); ("👓", "Glasses"); ("🔧", "Spanner"); ("🎅", "Santa");
   ("👍", "Thumbs Up"); ("☂️", "Umbrella"); ("⌛", "Hourglass"); ("⏰", "Clock");
   ("🎁", "Gift"); ("💡", "Light Bulb"); ("📕", "Book"); ("✏️", "Pencil");
   ("📎", "Paperclip"); ("✂️", "Scissors"); ("🔒", "Lock"); ("🔑", "Key");
   ("🔨", "Hammer"); ("☎️", "Telephone"); ("🏁", "Flag"); ("🚂", "Train");
   ("🚲", "Bicycle"); ("✈️", "Aeroplane"); ("🚀", "Rocket"); ("🏆", "Trophy");
   ("⚽", "Ball"); ("🎸", "Guitar"); ("🎺", "Trumpet"); ("🔔", "Bell");
   ("⚓", "Anchor"); ("🎧", "Headphones"); ("📁", "Folder"); ("📌", "Pin")
  ].

Definition emoji_from_index {E} (index : Z) : outcome E (string * string) :=
  match emojis !! Z.to_nat index with Some e => Ret e | None => Panic end.

(** ** Codes *)

(** SHA-256, the canonical JSON text of a start content, and [Base64::parse]. *)
Class SasWorld `{!Base64} : Type := {
  sas_sha256 : bytes → bytes;
  start_text : StartContent → string;
  base64_parse : bytes → option bytes;
  base64_parse_encode bs : base64_parse (str_bytes (base64_encode bs)) = Some bs;
  (** Groups of three bytes are encoded on their own. *)
  base64_encode_app a b : length a mod 3 = 0 → base64_encode (a ++ b) = base64_encode a +:+ base64_encode b;
  base64_encode_length a : String.length (base64_encode a) = (4 * length a + 2) / 3
}.

(** The names of the states, for logs. *)
Inductive State := SCreated | SStarted | SAccepted | SWeAccepted | SKeyReceived | SKeySent | SKeysExchanged
  | SConfirmed | SMacReceived | SWaitingForDone | SDone | SCancelled.

Section flow.
Context `{!Primitives, !Base64, !Curve25519, !SasWorld} (debug : bool).

Definition key_to_base64 (key : PublicKey) : string := base64_encode (public_bytes key).

Definition calculate_commitment (public_key : PublicKey) (content : StartContent) : bytes :=
  sas_sha256 (str_bytes (key_to_base64 public_key) ++ str_bytes (start_text content)).

(** [SupportedMacMethod::calculate_mac] *)
Definition method_calculate_mac {E} (m : SupportedMacMethod) (sas : EstablishedSas) (input info : string) : outcome E bytes :=
  match m with
  | HkdfHmacSha256 =>
      let! text := calculate_mac_invalid_base64 sas input info in
      match base64_parse text with Some mac => Ret mac | None => Panic end
  | HkdfHmacSha256V2 | Msc3783HkdfHmacSha256V2 => calculate_mac sas input info
  end.

(** [SupportedMacMethod::verify_mac] *)
Definition method_verify_mac (m : SupportedMacMethod) (sas : EstablishedSas) (input info : string) (mac : bytes)
    : outcome CancelCode unit :=
  match m with
  | HkdfHmacSha256 =>
      let! text := calculate_mac_invalid_base64 sas input info in
      match base64_parse text with
      | Some calculated => if bool_decide (calculated ≠ mac) then Throw CKeyMismatch else Ret tt
      | None => Panic
      end
  | HkdfHmacSha256V2 | Msc3783HkdfHmacSha256V2 =>
      let! ok := verify_mac sas input info mac in
      if ok then Ret tt else Throw CMismatchedSas
  end.

Definition extra_mac_info_receive (ids : SasIds) (flow_id : string) : string :=
  "MATRIX_KEY_VERIFICATION_MAC" +:+ dev_user_id (other_device ids) +:+ dev_device_id (other_device ids)
    +:+ account_user_id ids +:+ account_device_id ids +:+ flow_id.

Definition extra_mac_info_send (ids : SasIds) (flow_id : string) : string :=
  "MATRIX_KEY_VERIFICATION_MAC" +:+ account_user_id ids +:+ account_device_id ids
    +:+ dev_user_id (other_device ids) +:+ dev_device_id (other_device ids) +:+ flow_id.

(** The loop of [receive_mac_event] over the codes, which are in the order of their key
    ids.  A key id that does not parse is skipped. *)
Fixpoint check_macs (sas : EstablishedSas) (ids : SasIds) (info : string) (m : SupportedMacMethod)
    (macs : list (string * bytes)) (devices : list DeviceData) (identities : list UserIdentityData)
    : outcome CancelCode (list DeviceData * list UserIdentityData) :=
  match macs with
  | [] => Ret (devices, identities)
  | (key_id, key_mac) :: macs =>
      match key_id_validate (λ _, Ok tt) key_id with
      | Throw _ => check_macs sas ids info m macs devices identities
      | Panic => Panic
      | OutOfFuel => OutOfFuel
      | Ret _ =>
          match obj_get key_id (dev_keys (other_device ids)) with
          | Some key =>
              let! _ := method_verify_mac m sas key (info +:+ key_id) key_mac in
              check_macs sas ids info m macs (devices ++ [other_device ids]) identities
          | None =>
              match other_identity ids with
              | Some identity =>
                  match obj_get key_id (master_keys identity) with
                  | Some key =>
                      let! _ := method_verify_mac m sas key (info +:+ key_id) key_mac in
                      check_macs sas ids info m macs devices (identities ++ [identity])
                  | None => check_macs sas ids info m macs devices identities
                  end
              | None => check_macs sas ids info m macs devices identities
              end
          end
      end
  end.

Definition receive_mac_event (sas : EstablishedSas) (ids : SasIds) (flow_id : string) (m : SupportedMacMethod)
    (content : MacContent) : outcome CancelCode (list DeviceData * list UserIdentityData) :=
  let info := extra_mac_info_receive ids flow_id in
  let keys := map fst (mac_mac content) in
  let! _ := method_verify_mac m sas (String.concat "," keys) (info +:+ "KEY_IDS") (mac_keys content) in
  check_macs sas ids info m (mac_mac content) [] [].

Definition get_mac_content {E} (sas : EstablishedSas) (ids : SasIds) (flow_id : FlowId) (m : SupportedMacMethod)
    : outcome E MacContent :=
  let key_id := "ed25519:" +:+ account_device_id ids in
  let info := extra_mac_info_send ids (flow_str flow_id) in
  let! code := method_calculate_mac m sas (account_ed25519 ids) (info +:+ key_id) in
  let mac := obj_insert key_id code [] in
  let! mac :=
    match own_identity ids with
    | Some identity =>
        match own_is_verified identity, own_first_key identity with
        | true, Some key =>
            let key_id := "ed25519:" +:+ key in
            let! code := method_calculate_mac m sas key (info +:+ key_id) in
            Ret (obj_insert key_id code mac)
        | _, _ => Ret mac
        end
    | None => Ret mac
    end in
  let! keys := method_calculate_mac m sas (String.concat "," (map fst mac)) (info +:+ "KEY_IDS") in
  Ret {| mac_flow := flow_id; mac_mac := mac; mac_keys := keys |}.

Definition extra_info_sas (ids : SasIds) (own_pubkey their_pubkey : PublicKey) (flow_id : string) (we_started : bool) : string :=
  let our_info := account_user_id ids +:+ "|" +:+ account_device_id ids +:+ "|" +:+ key_to_base64 own_pubkey in
  let their_info := dev_user_id (other_device ids) +:+ "|" +:+ dev_device_id (other_device ids) +:+ "|"
                      +:+ key_to_base64 their_pubkey in
  let '(first_info, second_info) := if we_started then (our_info, their_info) else (their_info, our_info) in
  "MATRIX_KEY_VERIFICATION_SAS|" +:+ first_info +:+ "|" +:+ second_info +:+ "|" +:+ flow_id.

Definition shown_bytes {E} (sas : EstablishedSas) (ids : SasIds) (flow_id : string) (we_started : bool) : outcome E (list Z) :=
  sas_bytes sas (extra_info_sas ids (our_public_key sas) (their_public_key sas) flow_id we_started).

Definition get_emoji_index {E} (sas : EstablishedSas) (ids : SasIds) (flow_id : string) (we_started : bool) : outcome E (list Z) :=
  let! bytes := shown_bytes sas ids flow_id we_started in
  Ret (bytes_to_emoji_index bytes).

Fixpoint emojis_from {E} (indices : list Z) : outcome E (list (string * string)) :=
  match indices with
  | [] => Ret []
  | i :: indices =>
      let! e := emoji_from_index i in
      let! es := emojis_from indices in
      Ret (e :: es)
  end.

Definition get_emoji {E} (sas : EstablishedSas) (ids : SasIds) (flow_id : string) (we_started : bool)
    : outcome E (list (string * string)) :=
  let! indices := get_emoji_index sas ids flow_id we_started in
  emojis_from indices.

Definition get_decimal {E} (sas : EstablishedSas) (ids : SasIds) (flow_id : string) (we_started : bool) : outcome E (Z * Z * Z) :=
  let! bytes := shown_bytes sas ids flow_id we_started in
  bytes_to_decimal debug bytes.

(** ** States *)

(** What all states have. *)
Record SasState := {
  inner : option SecretKey;
  our_key : PublicKey;
  ids : SasIds;
  creation_time : Z;
  last_event_time : Z;
  verification_flow_id : FlowId;
  started_from_request : bool
}.

Record Cancelled := { cancelled_by_us : bool; cancelled_code : CancelCode; reason : string }.

Record Started := {
  started_commitment : bytes;
  started_protocol_definitions : SasV1Content;
  started_accepted_protocols : AcceptedProtocols
}.

Record Accepted := {
  acc_accepted_protocols : AcceptedProtocols;
  acc_start_content : StartContent;
  acc_request_id : string;
  acc_commitment : bytes
}.

Record WeAccepted := { wa_we_started : bool; wa_accepted_protocols : AcceptedProtocols; wa_commitment : bytes }.

Record KeyReceived := {
  kr_sas : EstablishedSas;
  kr_we_started : bool;
  kr_request_id : string;
  kr_accepted_protocols : AcceptedProtocols
}.

Record KeySent := {
  ks_we_started : bool;
  ks_start_content : StartContent;
  ks_commitment : bytes;
  ks_accepted_protocols : AcceptedProtocols
}.

Record KeysExchanged := { ke_sas : EstablishedSas; ke_we_started : bool; ke_accepted_protocols : AcceptedProtocols }.

Record Confirmed := { co_sas : EstablishedSas; co_accepted_protocols : AcceptedProtocols }.

Record MacReceived := {
  mr_sas : EstablishedSas;
  mr_we_started : bool;
  mr_verified_devices : list DeviceData;
  mr_verified_master_keys : list UserIdentityData;
  mr_accepted_protocols : AcceptedProtocols
}.

(** [WaitingForDone] and [Done] have the same fields. *)
Record Done := {
  do_sas : EstablishedSas;
  do_verified_devices : list DeviceData;
  do_verified_master_keys : list UserIdentityData;
  do_accepted_protocols : AcceptedProtocols
}.

Inductive InnerSas :=
| ISCreated (s : SasState) (protocol_definitions : SasV1Content)
| ISStarted (s : SasState) (st : Started)
| ISAccepted (s : SasState) (st : Accepted)
| ISWeAccepted (s : SasState) (st : WeAccepted)
| ISKeyReceived (s : SasState) (st : KeyReceived)
| ISKeySent (s : SasState) (st : KeySent)
| ISKeysExchanged (s : SasState) (st : KeysExchanged)
| ISConfirmed (s : SasState) (st : Confirmed)
| ISMacReceived (s : SasState) (st : MacReceived)
| ISWaitingForDone (s : SasState) (st : Done)
| ISDone (s : SasState) (st : Done)
| ISCancelled (s : SasState) (st : Cancelled).

Definition set_last_event (now : Z) (s : SasState) : SasState :=
  {| inner := inner s; our_key := our_key s; ids := ids s; creation_time := creation_time s; last_event_time := now;
     verification_flow_id := verification_flow_id s; started_from_request := started_from_request s |}.

Definition set_inner (i : option SecretKey) (s : SasState) : SasState :=
  {| inner := i; our_key := our_key s; ids := ids s; creation_time := creation_time s; last_event_time := last_event_time s;
     verification_flow_id := verification_flow_id s; started_from_request := started_from_request s |}.

Definition cancelled_new (cancelled_by_us : bool) (code : CancelCode) : Cancelled :=
  {| cancelled_by_us := cancelled_by_us; cancelled_code := code;
     reason :=
       match code with
       | CAccepted => "A m.key.verification.request was accepted by a different device."
       | CInvalidMessage => "The received message was invalid."
       | CKeyMismatch => "The expected key did not match the verified one"
       | CMismatchedCommitment => "The hash commitment did not match."
       | CMismatchedSas => "The SAS did not match."
       | CTimeout => "The verification process timed out."
       | CUnexpectedMessage => "The device received an unexpected message."
       | CUnknownMethod => "The device does not know how to handle the requested method."
       | CUnknownTransaction => "The device does not know about the given transaction ID."
       | CUser => "The user cancelled the verification."
       | CUserMismatch => "The expected user did not match the verified user"
       | CCustom _ => "Unknown cancel reason"
       end |}.

Definition cancelled_as_content (c : Cancelled) (flow_id : FlowId) : AnyVerificationContent :=
  CtCancel {| cancel_flow := flow_id; cancel_reason := reason c; cancel_code := cancelled_code c |}.

Definition timed_out (now : Z) (s : SasState) : bool :=
  ((MAX_AGE <? now - creation_time s) || (MAX_EVENT_TIMEOUT <? now - last_event_time s))%Z.

Definition check_event (now : Z) (s : SasState) (sender flow_id : string) : outcome CancelCode unit :=
  if negb (String.eqb flow_id (flow_str (verification_flow_id s))) then Throw CUnknownTransaction
  else if negb (String.eqb sender (dev_user_id (other_device (ids s)))) then Throw CUserMismatch
  else if timed_out now s then Throw CTimeout
  else Ret tt.

(** The result, and what is left of the ephemeral secret. *)
Definition handle_key_content (now : Z) (s : SasState) (sender : string) (content : KeyContent)
    : outcome CancelCode EstablishedSas * SasState :=
  match check_event now s sender (flow_str (key_flow content)) with
  | Throw c => (Throw c, s)
  | Panic => (Panic, s)
  | OutOfFuel => (OutOfFuel, s)
  | Ret _ =>
      match public_from_slice (key_public_key content) with
      | None => (Throw (CCustom "Invalid public key"), s)
      | Some their_public_key =>
          match inner s with
          | Some sas =>
              (match sas_diffie_hellman sas their_public_key with
               | Ret established => Ret established
               | Throw _ => Throw (CCustom "Invalid public key")
               | Panic => Panic
               | OutOfFuel => OutOfFuel
               end, set_inner None s)
          | None => (Throw CUnexpectedMessage, s)
          end
      end
  end.

(** ** Transitions

    A transition that fails ends in the cancelled state it throws. *)

Definition or_cancel {A} (s : SasState) (o : outcome CancelCode A) : outcome (SasState * Cancelled) A :=
  match o with
  | Ret a => Ret a
  | Throw c => Throw (s, cancelled_new true c)
  | Panic => Panic
  | OutOfFuel => OutOfFuel
  end.

(** [SasState::<Created>::new] *)
Definition created_new (secret : SecretKey) (now : Z) (i : SasIds) (flow_id : FlowId) (from_request : bool)
    (short_auth_strings : option (list string)) : SasState * SasV1Content :=
  ({| inner := Some secret; our_key := public_of secret; ids := i; verification_flow_id := flow_id;
      creation_time := now; last_event_time := now; started_from_request := from_request |},
   the_protocol_definitions short_auth_strings).

(** [as_content] of the created and of the started state. *)
Definition start_as_content (s : SasState) (protocol_definitions : SasV1Content) : StartContent :=
  {| from_device := account_device_id (ids s); start_flow := verification_flow_id s;
     start_method := Some protocol_definitions |}.

(** [into_accepted] of the created and of the started state. *)
Definition into_accepted (now : Z) (fresh_id : string) (s : SasState) (protocol_definitions : SasV1Content)
    (sender : string) (content : AcceptContent) : outcome (SasState * Cancelled) (SasState * Accepted) :=
  let! _ := or_cancel s (check_event now s sender (flow_str (accept_flow content))) in
  match accept_method content with
  | None => Throw (s, cancelled_new true CUnknownMethod)
  | Some content =>
      let! accepted_protocols := or_cancel s (accepted_of_accept content) in
      Ret (set_last_event now s,
           {| acc_start_content := start_as_content s protocol_definitions; acc_commitment := commitment content;
              acc_request_id := fresh_id; acc_accepted_protocols := accepted_protocols |})
  end.

(** [SasState::<Started>::from_start_event] *)
Definition started_from_start_event (secret : SecretKey) (now : Z) (i : SasIds) (flow_id : FlowId) (content : StartContent)
    (from_request : bool) : outcome (SasState * Cancelled) (SasState * Started) :=
  let s key :=
    {| inner := key; our_key := public_of secret; ids := i; verification_flow_id := flow_id;
       creation_time := now; last_event_time := now; started_from_request := from_request |} in
  let canceled := (s None, cancelled_new true CUnknownMethod) in
  match start_method content with
  | Some method_content =>
      let commitment := calculate_commitment (public_of secret) content in
      match accepted_of_start method_content with
      | Ret accepted_protocols =>
          Ret (s (Some secret),
               {| started_protocol_definitions := method_content; started_accepted_protocols := accepted_protocols;
                  started_commitment := commitment |})
      | _ => Throw canceled
      end
  | None => Throw canceled
  end.

Definition into_we_accepted (s : SasState) (st : Started) (methods : list string) : SasState * WeAccepted :=
  let p := started_accepted_protocols st in
  let strings := if contains methods "decimal" then methods else methods ++ ["decimal"] in
  (s, {| wa_we_started := false; wa_commitment := started_commitment st;
         wa_accepted_protocols := {| key_agreement_protocol := key_agreement_protocol p; hash := hash p;
                                     message_auth_code := message_auth_code p; short_auth_string := strings |} |}).

Definition we_accepted_as_content (s : SasState) (st : WeAccepted) : AcceptContent :=
  let p := wa_accepted_protocols st in
  {| accept_flow := verification_flow_id s;
     accept_method := Some {| commitment := wa_commitment st; accept_hash := hash p;
                              accept_key_agreement_protocol := key_agreement_protocol p;
                              message_authentication_code := mac_method_str (message_auth_code p);
                              accept_short_authentication_string := short_auth_string p |} |}.

Definition we_accepted_into_key_received (now : Z) (fresh_id : string) (s : SasState) (st : WeAccepted) (sender : string)
    (content : KeyContent) : outcome (SasState * Cancelled) (SasState * KeyReceived) :=
  let '(established, s) := handle_key_content now s sender content in
  let! established := or_cancel s established in
  Ret (set_last_event now s,
       {| kr_sas := established; kr_we_started := wa_we_started st; kr_request_id := fresh_id;
          kr_accepted_protocols := wa_accepted_protocols st |}).

Definition accepted_into_key_received (now : Z) (s : SasState) (st : Accepted) (sender : string) (content : KeyContent)
    : outcome (SasState * Cancelled) (SasState * KeyReceived) :=
  let '(established, s) := handle_key_content now s sender content in
  let! established := or_cancel s established in
  let commitment := calculate_commitment (their_public_key established) (acc_start_content st) in
  if bool_decide (acc_commitment st = commitment)
  then Ret (set_last_event now s,
            {| kr_sas := established; kr_we_started := true; kr_request_id := acc_request_id st;
               kr_accepted_protocols := acc_accepted_protocols st |})
  else Throw (s, cancelled_new true CKeyMismatch).

Definition into_key_sent (now : Z) (s : SasState) (st : Accepted) (request_id : string) : option (SasState * KeySent) :=
  if String.eqb (acc_request_id st) request_id
  then Some (set_last_event now s,
             {| ks_we_started := true; ks_start_content := acc_start_content st; ks_commitment := acc_commitment st;
                ks_accepted_protocols := acc_accepted_protocols st |})
  else None.

(** [as_content] of the accepted and of the key received state. *)
Definition key_as_content (s : SasState) (request_id : string) : AnyVerificationContent * RequestInfo :=
  (CtKey {| key_flow := verification_flow_id s; key_public_key := public_bytes (our_key s) |},
   {| info_flow_id := verification_flow_id s; info_request_id := request_id |}).

Definition key_sent_into_keys_exchanged (now : Z) (s : SasState) (st : KeySent) (sender : string) (content : KeyContent)
    : outcome (SasState * Cancelled) (SasState * KeysExchanged) :=
  let '(established, s) := handle_key_content now s sender content in
  let! established := or_cancel s established in
  let commitment := calculate_commitment (their_public_key established) (ks_start_content st) in
  if bool_decide (ks_commitment st = commitment)
  then Ret (set_last_event now s,
            {| ke_sas := established; ke_we_started := ks_we_started st; ke_accepted_protocols := ks_accepted_protocols st |})
  else Throw (s, cancelled_new true CKeyMismatch).

Definition key_received_into_keys_exchanged (now : Z) (s : SasState) (st : KeyReceived) (request_id : string)
    : option (SasState * KeysExchanged) :=
  if String.eqb (kr_request_id st) request_id
  then Some (set_last_event now s,
             {| ke_sas := kr_sas st; ke_we_started := kr_we_started st; ke_accepted_protocols := kr_accepted_protocols st |})
  else None.

(** The check of the sender and of the codes that three transitions share. *)
Definition check_mac (now : Z) (s : SasState) (sas : EstablishedSas) (p : AcceptedProtocols) (sender : string)
    (content : MacContent) : outcome (SasState * Cancelled) (list DeviceData * list UserIdentityData) :=
  let! _ := or_cancel s (check_event now s sender (flow_str (mac_flow content))) in
  or_cancel s (receive_mac_event sas (ids s) (flow_str (verification_flow_id s)) (message_auth_code p) content).

Definition into_mac_received (now : Z) (s : SasState) (st : KeysExchanged) (sender : string) (content : MacContent)
    : outcome (SasState * Cancelled) (SasState * MacReceived) :=
  let! (devices, master_keys) := check_mac now s (ke_sas st) (ke_accepted_protocols st) sender content in
  Ret (set_last_event now s,
       {| mr_sas := ke_sas st; mr_we_started := ke_we_started st; mr_verified_devices := devices;
          mr_verified_master_keys := master_keys; mr_accepted_protocols := ke_accepted_protocols st |}).

Definition keys_exchanged_confirm (s : SasState) (st : KeysExchanged) : SasState * Confirmed :=
  (s, {| co_sas := ke_sas st; co_accepted_protocols := ke_accepted_protocols st |}).

(** [into_done] and [into_waiting_for_done] of the confirmed state. *)
Definition confirmed_into_done (now : Z) (s : SasState) (st : Confirmed) (sender : string) (content : MacContent)
    : outcome (SasState * Cancelled) (SasState * Done) :=
  let! (devices, master_keys) := check_mac now s (co_sas st) (co_accepted_protocols st) sender content in
  Ret (set_last_event now s,
       {| do_sas := co_sas st; do_verified_devices := devices; do_verified_master_keys := master_keys;
          do_accepted_protocols := co_accepted_protocols st |}).

(** [confirm] and [confirm_and_wait_for_done] of the state with a received code. *)
Definition mac_received_confirm (s : SasState) (st : MacReceived) : SasState * Done :=
  (s, {| do_sas := mr_sas st; do_verified_devices := mr_verified_devices st;
         do_verified_master_keys := mr_verified_master_keys st; do_accepted_protocols := mr_accepted_protocols st |}).

(** [as_content] of the states that send their codes. *)
Definition mac_as_content {E} (s : SasState) (sas : EstablishedSas) (p : AcceptedProtocols) : outcome E AnyVerificationContent :=
  let! content := get_mac_content sas (ids s) (verification_flow_id s) (message_auth_code p) in
  Ret (CtMac content).

Definition done_content (s : SasState) : AnyVerificationContent := CtDone {| done_flow := verification_flow_id s |}.

Definition waiting_into_done (now : Z) (s : SasState) (st : Done) (sender : string) (content : DoneContent)
    : outcome (SasState * Cancelled) (SasState * Done) :=
  let! _ := or_cancel s (check_event now s sender (flow_str (done_flow content))) in
  Ret (set_last_event now s, st).

(** ** One side of the verification *)

Definition sas_start (secret : SecretKey) (now : Z) (i : SasIds) (flow_id : FlowId) (from_request : bool)
    (short_auth_strings : option (list string)) : InnerSas * StartContent :=
  let '(s, p) := created_new secret now i flow_id from_request short_auth_strings in
  (ISCreated s p, start_as_content s p).

Definition sas_from_start_event (secret : SecretKey) (now : Z) (i : SasIds) (flow_id : FlowId) (content : StartContent)
    (from_request : bool) : outcome AnyVerificationContent InnerSas :=
  match started_from_start_event secret now i flow_id content from_request with
  | Ret (s, st) => Ret (ISStarted s st)
  | Throw (s, c) => Throw (cancelled_as_content c (verification_flow_id s))
  | Panic => Panic
  | OutOfFuel => OutOfFuel
  end.

Definition sas_accept (methods : list string) (sas : InnerSas) : option (InnerSas * AcceptContent) :=
  match sas with
  | ISStarted s st =>
      let '(s, st) := into_we_accepted s st methods in
      Some (ISWeAccepted s st, we_accepted_as_content s st)
  | _ => None
  end.

Definition common_of (sas : InnerSas) : SasState :=
  match sas with
  | ISCreated s _ | ISStarted s _ | ISAccepted s _ | ISWeAccepted s _ | ISKeyReceived s _ | ISKeySent s _
  | ISKeysExchanged s _ | ISConfirmed s _ | ISMacReceived s _ | ISWaitingForDone s _ | ISDone s _ | ISCancelled s _ => s
  end.

Definition sas_cancel (by_us : bool) (code : CancelCode) (sas : InnerSas) : InnerSas * option AnyVerificationContent :=
  match sas with
  | ISDone _ _ | ISCancelled _ _ => (sas, None)
  | _ =>
      let c := cancelled_new by_us code in
      (ISCancelled (common_of sas) c, Some (cancelled_as_content c (verification_flow_id (common_of sas))))
  end.

Definition sas_confirm {E} (sas : InnerSas) : outcome E (InnerSas * list AnyVerificationContent) :=
  match sas with
  | ISKeysExchanged s st =>
      let '(s, st) := keys_exchanged_confirm s st in
      let! content := mac_as_content s (co_sas st) (co_accepted_protocols st) in
      Ret (ISConfirmed s st, [content])
  | ISMacReceived s st =>
      let '(s, st) := mac_received_confirm s st in
      let! content := mac_as_content s (do_sas st) (do_accepted_protocols st) in
      if started_from_request s
      then Ret (ISWaitingForDone s st, [content; done_content s])
      else Ret (ISDone s st, [content])
  | _ => Ret (sas, [])
  end.

(** The next state, or the cancelled state with its message. *)
Definition or_cancelled {E A} (o : outcome (SasState * Cancelled) A) (k : A → InnerSas * reply)
    : outcome E (InnerSas * reply) :=
  match o with
  | Ret a => Ret (k a)
  | Throw (s, c) => Ret (ISCancelled s c, Some (cancelled_as_content c (verification_flow_id s), None))
  | Panic => Panic
  | OutOfFuel => OutOfFuel
  end.

Definition with_request_info (x : AnyVerificationContent * RequestInfo) : reply := Some (x.1, Some x.2).

Definition receive_any_event {E} (now : Z) (fresh_id : string) (sender : string) (content : AnyVerificationContent)
    (sas : InnerSas) : outcome E (InnerSas * reply) :=
  match content with
  | CtAccept c =>
      let accepted s p :=
        or_cancelled (into_accepted now fresh_id s p sender c)
          (λ '(s, st), (ISAccepted s st, with_request_info (key_as_content s (acc_request_id st)))) in
      match sas with
      | ISCreated s p => accepted s p
      | ISStarted s st => accepted s (started_protocol_definitions st)
      | _ => Ret (sas, None)
      end
  | CtCancel c => Ret (fst (sas_cancel false (cancel_code c) sas), None)
  | CtKey c =>
      match sas with
      | ISAccepted s st =>
          or_cancelled (accepted_into_key_received now s st sender c) (λ '(s, st), (ISKeyReceived s st, None))
      | ISKeySent s st =>
          or_cancelled (key_sent_into_keys_exchanged now s st sender c) (λ '(s, st), (ISKeysExchanged s st, None))
      | ISWeAccepted s st =>
          or_cancelled (we_accepted_into_key_received now fresh_id s st sender c)
            (λ '(s, st), (ISKeyReceived s st, with_request_info (key_as_content s (kr_request_id st))))
      | _ => Ret (sas, None)
      end
  | CtMac c =>
      match sas with
      | ISKeysExchanged s st =>
          or_cancelled (into_mac_received now s st sender c) (λ '(s, st), (ISMacReceived s st, None))
      | ISConfirmed s st =>
          or_cancelled (confirmed_into_done now s st sender c)
            (λ '(s, st), if started_from_request s then (ISWaitingForDone s st, Some (done_content s, None))
                         else (ISDone s st, None))
      | _ => Ret (sas, None)
      end
  | CtDone c =>
      match sas with
      | ISWaitingForDone s st => or_cancelled (waiting_into_done now s st sender c) (λ '(s, st), (ISDone s st, None))
      | _ => Ret (sas, None)
      end
  | CtRequest | CtReady | CtStart _ => Ret (sas, None)
  end.

(** [None] when the id is not the one of the request with the key. *)
Definition mark_request_as_sent (now : Z) (request_id : string) (sas : InnerSas) : option InnerSas :=
  match sas with
  | ISAccepted s st => (λ '(s, st), ISKeySent s st) <$> into_key_sent now s st request_id
  | ISKeyReceived s st => (λ '(s, st), ISKeysExchanged s st) <$> key_received_into_keys_exchanged now s st request_id
  | _ => Some sas
  end.

Definition supports_emoji (sas : InnerSas) : bool :=
  let has p := contains (short_auth_string p) "emoji" in
  match sas with
  | ISStarted _ st => has (started_accepted_protocols st)
  | ISWeAccepted _ st => has (wa_accepted_protocols st)
  | ISAccepted _ st => has (acc_accepted_protocols st)
  | ISKeyReceived _ st => has (kr_accepted_protocols st)
  | ISKeySent _ st => has (ks_accepted_protocols st)
  | ISKeysExchanged _ st => has (ke_accepted_protocols st)
  | ISMacReceived _ st => has (mr_accepted_protocols st)
  | ISCreated _ _ | ISConfirmed _ _ | ISWaitingForDone _ _ | ISDone _ _ | ISCancelled _ _ => false
  end.

Definition can_be_presented (sas : InnerSas) : bool :=
  match sas with ISKeysExchanged _ _ | ISMacReceived _ _ => true | _ => false end.

(** The short authentication string, in the states that present it. *)
Definition shown {E A} (get : EstablishedSas → SasIds → string → bool → outcome E A) (sas : InnerSas) : outcome E (option A) :=
  match sas with
  | ISKeysExchanged s st =>
      let! x := get (ke_sas st) (ids s) (flow_str (verification_flow_id s)) (ke_we_started st) in Ret (Some x)
  | ISMacReceived s st =>
      let! x := get (mr_sas st) (ids s) (flow_str (verification_flow_id s)) (mr_we_started st) in Ret (Some x)
  | _ => Ret None
  end.

Definition sas_emoji {E} (sas : InnerSas) : outcome E (option (list (string * string))) :=
  if negb (supports_emoji sas) then Ret None else shown get_emoji sas.

Definition sas_emoji_index {E} (sas : InnerSas) : outcome E (option (list Z)) :=
  if negb (supports_emoji sas) then Ret None else shown get_emoji_index sas.

Definition sas_decimals {E} (sas : InnerSas) : outcome E (option (Z * Z * Z)) := shown get_decimal sas.

Definition verified_devices (sas : InnerSas) : option (list DeviceData) :=
  match sas with ISDone _ st => Some (do_verified_devices st) | _ => None end.

Definition verified_identities (sas : InnerSas) : option (list UserIdentityData) :=
  match sas with ISDone _ st => Some (do_verified_master_keys st) | _ => None end.

(** [Sas::cancel_if_timed_out], without the verification request it may belong to. *)
Definition cancel_if_timed_out (now : Z) (sas : InnerSas) : InnerSas * option AnyVerificationContent :=
  match sas with
  | ISCancelled _ _ | ISDone _ _ => (sas, None)
  | _ => if timed_out now (common_of sas) then sas_cancel true CTimeout sas else (sas, None)
  end.

Definition state_of (sas : InnerSas) : State :=
  match sas with
  | ISCreated _ _ => SCreated | ISStarted _ _ => SStarted | ISAccepted _ _ => SAccepted | ISWeAccepted _ _ => SWeAccepted
  | ISKeyReceived _ _ => SKeyReceived | ISKeySent _ _ => SKeySent | ISKeysExchanged _ _ => SKeysExchanged
  | ISConfirmed _ _ => SConfirmed | ISMacReceived _ _ => SMacReceived | ISWaitingForDone _ _ => SWaitingForDone
  | ISDone _ _ => SDone | ISCancelled _ _ => SCancelled
  end.

End flow.
