(* ===== verification/SasSpec.v ===== *)
(** * Short authentication strings: samples, what is shown, and the codes

    Concrete functions for the parameters of the verification flow, the strings that a
    verification shows, and the codes of all methods. *)

From S2P Require Import Prelude Identifiers CanonicalJson Bytes Cipher Megolm SampleCrypto Keys Olm ShortAuth SasFlow.

Lemma sample_encode_app (a b : bytes) : length a mod 3 = 0 → sample_encode (a ++ b) = sample_encode a +:+ sample_encode b.
Proof.
  enough (∀ k (a : bytes), length a = 3 * k → sample_encode (a ++ b) = sample_encode a +:+ sample_encode b) as Hk.
  { intros H0. apply (Hk (length a / 3)). pose proof (Nat.div_mod_eq (length a) 3). lia. }
  clear a. induction k as [|k IH]; intros a Ha; [by destruct a|].
  destruct a as [|b0 [|b1 [|b2 a]]]; cbn in Ha; try lia. cbn [app sample_encode]. cbn [String.append]. by rewrite IH by lia.
Qed.

(** Tags in the place of hashes and of JSON. *)
#[export, refine] Instance sample_world : @SasWorld sample_base64 := {|
  sas_sha256 bs := fit 32 bs;
  start_text c := from_device c +:+ flow_str (start_flow c);
  base64_parse bs := Some (sample_decode (String.string_of_list_byte bs))
|}.
Proof.
  - intros bs. unfold str_bytes. by rewrite String.string_of_list_byte_of_string, sample_decode_encode.
  - exact sample_encode_app.
  - exact length_sample_encode.
Defined.

Definition alice_ids : SasIds :=
  {| account_user_id := "@a"; account_device_id := "A"; account_ed25519 := "KA"; own_identity := None;
     other_device := {| dev_user_id := "@b"; dev_device_id := "B"; dev_keys := [("ed25519:B", "KB")] |}; other_identity := None |}.

Definition bob_ids : SasIds :=
  {| account_user_id := "@b"; account_device_id := "B"; account_ed25519 := "KB";
     own_identity := Some {| own_is_verified := true; own_first_key := Some "M" |};
     other_device := {| dev_user_id := "@a"; dev_device_id := "A"; dev_keys := [("ed25519:A", "KA")] |}; other_identity := None |}.

(** ** What a verification shows, and its codes

    The strings that are shown are digits of the agreed bytes; the codes of all methods,
    also those in the invalid base64 of libolm, are always computed. *)

(** ** The strings that are shown *)

Lemma lor_disjoint (a b n : Z) : (0 <= n → 0 <= b < 2 ^ n → Z.lor (a * 2 ^ n) b = a * 2 ^ n + b)%Z.
Proof.
  intros Hn Hb. rewrite <- Z.add_lor_land. enough (Z.land (a * 2 ^ n) b = 0)%Z as -> by lia.
  apply Z.bits_inj'. intros i Hi. rewrite Z.land_spec, Z.bits_0. destruct (decide (i < n)%Z).
  - by rewrite Z.mul_pow2_bits_low.
  - rewrite <- (Z.mod_small b (2 ^ n)), Z.mod_pow2_bits_high by lia. apply andb_false_r.
Qed.

(** The number that six bytes stand for. *)
Definition sas_number (bytes : list Z) : Z := fold_left (λ acc b, acc * 256 + b)%Z bytes 0%Z.

Definition is_byte (z : Z) : Prop := (0 <= z < 256)%Z.

Lemma emoji_digits b0 b1 b2 b3 b4 b5 :
  bytes_to_emoji_index [b0; b1; b2; b3; b4; b5]
  = map (λ k, (sas_number [b0; b1; b2; b3; b4; b5] / 64 ^ k) mod 64)%Z [7; 6; 5; 4; 3; 2; 1]%Z.
Proof.
  unfold bytes_to_emoji_index. cbn [nth].
  assert (Hn : (Z.shiftl b0 40 + Z.shiftl b1 32 + Z.shiftl b2 24 + Z.shiftl b3 16 + Z.shiftl b4 8 + b5
    = sas_number [b0; b1; b2; b3; b4; b5])%Z).
  { rewrite !Z.shiftl_mul_pow2 by lia. unfold sas_number. cbn [fold_left]. lia. }
  rewrite Hn. change 63%Z with (Z.ones 6). rewrite !Z.land_ones, !Z.shiftr_div_pow2 by lia. done.
Qed.

Lemma decimal_digits {E} debug b0 b1 b2 b3 b4 b5 :
  Forall is_byte [b0; b1; b2; b3; b4; b5] →
  let n := sas_number [b0; b1; b2; b3; b4; b5] in
  bytes_to_decimal (E := E) debug [b0; b1; b2; b3; b4; b5]
  = Ret (1000 + n / 2 ^ 35, 1000 + (n / 2 ^ 22) mod 2 ^ 13, 1000 + (n / 2 ^ 9) mod 2 ^ 13)%Z.
Proof.
  intros HF n. rewrite !Forall_cons in HF. unfold is_byte in HF. destruct HF as (H0 & H1 & H2 & H3 & H4 & H5 & _).
  unfold bytes_to_decimal, u16_shl. cbn [nth]. change 7%Z with (Z.ones 3) at 1. change 63%Z with (Z.ones 6).
  rewrite !Z.land_ones, !Z.shiftr_div_pow2, !Z.shiftl_mul_pow2 by lia.
  rewrite (Z.mod_small (b0 * _)), (Z.mod_small (b1 mod _ * _)), (Z.mod_small (b2 * _)), (Z.mod_small (b3 mod _ * _))
    by (Z.to_euclidean_division_equations; lia).
  assert (E1 : (Z.lor (b0 * 2 ^ 5) (b1 / 2 ^ 3) = n / 2 ^ 35)%Z).
  { rewrite lor_disjoint by (Z.to_euclidean_division_equations; lia). unfold n, sas_number. cbn [fold_left].
    Z.to_euclidean_division_equations; lia. }
  assert (E2 : (Z.lor (Z.lor (b1 mod 2 ^ 3 * 2 ^ 10) (b2 * 2 ^ 2)) (b3 / 2 ^ 6) = (n / 2 ^ 22) mod 2 ^ 13)%Z).
  { rewrite (lor_disjoint _ (b2 * 2 ^ 2) 10) by lia.
    replace (b1 mod 2 ^ 3 * 2 ^ 10 + b2 * 2 ^ 2)%Z with ((b1 mod 2 ^ 3 * 2 ^ 8 + b2) * 2 ^ 2)%Z by lia.
    rewrite lor_disjoint by (Z.to_euclidean_division_equations; lia). unfold n, sas_number. cbn [fold_left].
    Z.to_euclidean_division_equations; lia. }
  assert (E3 : (Z.lor (b3 mod 2 ^ 6 * 2 ^ 7) (b4 / 2 ^ 1) = (n / 2 ^ 9) mod 2 ^ 13)%Z).
  { rewrite lor_disjoint by (Z.to_euclidean_division_equations; lia). unfold n, sas_number. cbn [fold_left].
    Z.to_euclidean_division_equations; lia. }
  rewrite E1, E2, E3. unfold u16_plus.
  assert (n / 2 ^ 35 < 2 ^ 13)%Z by (unfold n, sas_number; cbn [fold_left]; Z.to_euclidean_division_equations; lia).
  pose proof (Z.mod_pos_bound (n / 2 ^ 22) (2 ^ 13) eq_refl). pose proof (Z.mod_pos_bound (n / 2 ^ 9) (2 ^ 13) eq_refl).
  rewrite !(proj2 (Z.ltb_lt _ _)) by lia. by rewrite !(Z.add_comm 1000).
Qed.

(** ** The codes *)

Section codes.
Context `{!Primitives, !Base64, !Curve25519, !SasWorld}.

Lemma str_bytes_app a b : str_bytes (a +:+ b) = str_bytes a ++ str_bytes b.
Proof.
  induction a as [|c a IH]; [done|].
  change (Ascii.byte_of_ascii c :: str_bytes (a +:+ b) = Ascii.byte_of_ascii c :: (str_bytes a ++ str_bytes b)). by rewrite IH.
Qed.

Lemma length_str_bytes s : length (str_bytes s) = String.length s.
Proof. induction s as [|c s IH]; [done|]. change (S (length (str_bytes s)) = S (String.length s)). by rewrite IH. Qed.

Lemma encode_bytes_app a b : length a mod 3 = 0 → encode_bytes (a ++ b) = encode_bytes a ++ encode_bytes b.
Proof. intros Ha. unfold encode_bytes. by rewrite base64_encode_app, str_bytes_app. Qed.

Lemma length_encode_bytes a : length (encode_bytes a) = (4 * length a + 2) / 3.
Proof. unfold encode_bytes. by rewrite length_str_bytes, base64_encode_length. Qed.

Lemma length_encode_groups k a : length a = 3 * k → length (encode_bytes a) = 4 * k.
Proof.
  intros Ha. rewrite length_encode_bytes, Ha. replace (4 * (3 * k) + 2) with (2 + 4 * k * 3) by lia.
  by rewrite Nat.div_add.
Qed.

Lemma sub_bytes_ok (s : bytes) from to :
  from <= to → to <= length s → ∃ r, (∀ E, sub_bytes (E := E) s from to = Ret r) ∧ length r = to - from.
Proof.
  intros Hf Ht. unfold sub_bytes. rewrite !(proj2 (Nat.leb_le _ _)) by done. eexists. split; [done|].
  rewrite length_take, length_drop. lia.
Qed.

(** Encoding three bytes more. *)
Lemma encode_group k a b : length a = 3 * k → encode_bytes a ++ encode_bytes b = encode_bytes (a ++ b).
Proof. intros Ha. rewrite encode_bytes_app; [done|]. rewrite Ha, Nat.mul_comm. by apply Nat.Div0.mod_mul. Qed.

Lemma overwrite_ok (mac : bytes) : ∀ steps from k a,
  Forall (λ i, from <= i <= length mac) steps → from <= 2 → length steps <= from → 1 <= k → length a = 3 * k →
  ∃ b, (∀ E, overwrite (E := E) mac steps from (encode_bytes a) = Ret (encode_bytes b)) ∧ length b = 3 * (k + length steps).
Proof.
  induction steps as [|i steps IH]; intros from k a Hs Hf Hl Hk Ha; [exists a; split; [done|cbn; lia]|].
  inversion Hs as [|? ? Hi Hs']; subst. cbn in Hl. pose proof (length_encode_groups k a Ha) as He.
  destruct (sub_bytes_ok mac (i - from) i) as (m & Hm & Hml); [lia|lia|].
  destruct (sub_bytes_ok (encode_bytes a) (length (encode_bytes a) - (3 - from)) (length (encode_bytes a)))
    as (o & Ho & Hol); [lia|lia|].
  destruct (IH (from - 1) (S k) (a ++ o ++ m)) as (b & Hb & Hbl);
    [eapply Forall_impl; [exact Hs'|]; cbn; lia|lia|lia|lia|rewrite !length_app; lia|].
  exists b. split; [|cbn; lia]. intros E. cbn [overwrite]. by rewrite Hm, Ho, (encode_group k).
Qed.

Lemma reencode_ok : ∀ steps k a,
  (∀ j i, steps !! j = Some i → i + 3 <= 4 * (k + j)) → length a = 3 * k →
  ∃ b, (∀ E, reencode (E := E) steps (encode_bytes a) = Ret (encode_bytes b)) ∧ length b = 3 * (k + length steps).
Proof.
  induction steps as [|i steps IH]; intros k a Hs Ha; [exists a; split; [done|cbn; lia]|].
  pose proof (length_encode_groups k a Ha) as He.
  destruct (sub_bytes_ok (encode_bytes a) i (i + 3)) as (n & Hn & Hnl);
    [lia|specialize (Hs 0 i eq_refl); lia|].
  destruct (IH (S k) (a ++ n)) as (b & Hb & Hbl).
  - intros j i' Hj. specialize (Hs (S j) i' Hj). lia.
  - rewrite length_app. lia.
  - exists b. split; [|cbn; lia]. intros E. cbn [reencode]. by rewrite Hn, (encode_group k).
Qed.

Lemma calculate_mac_eq {E} sas input info :
  calculate_mac (E := E) sas input info
  = Ret (hmac_sha256 (hkdf_sha256 (replicate 32 x00) (shared_secret sas) (str_bytes info) 32) (str_bytes input)).
Proof. done. Qed.

Lemma invalid_base64_ok sas input info :
  ∃ b, (∀ E, calculate_mac_invalid_base64 (E := E) sas input info = Ret (encode_bytes b)) ∧ length b = 32.
Proof.
  set (mac := hmac_sha256 (hkdf_sha256 (replicate 32 x00) (shared_secret sas) (str_bytes info) 32) (str_bytes input)).
  assert (Hmac : length mac = 32) by apply length_hmac.
  destruct (sub_bytes_ok mac 0 3) as (st & Hst & Hstl); [lia|lia|].
  destruct (overwrite_ok mac [6; 9] 2 1 st) as (b1 & Hb1 & Hb1l); [repeat constructor; lia|lia|cbn; lia|lia|lia|].
  destruct (reencode_ok [9; 12; 15; 18; 21; 24; 27] 3 b1) as (b2 & Hb2 & Hb2l); [|exact Hb1l|].
  { intros j i Hj. do 7 (destruct j as [|j]; [injection Hj as <-; lia|]). done. }
  destruct (sub_bytes_ok (encode_bytes b2) 30 32) as (n & Hn & Hnl);
    [lia|rewrite (length_encode_groups 10 b2) by exact Hb2l; lia|].
  exists (b2 ++ n). split; [|rewrite length_app, Hb2l, Hnl; done]. intros E. unfold calculate_mac_invalid_base64.
  rewrite calculate_mac_eq. fold mac. by rewrite Hst, Hb1, Hb2, Hn, (encode_group 10).
Qed.

(** The code of each method is always computed, does not depend on who computes it, and
    is the only one that is accepted. *)
Lemma mac_code m sas input info :
  ∃ c, (∀ E, method_calculate_mac (E := E) m sas input info = Ret c) ∧
    ∀ mac, ∃ e, method_verify_mac m sas input info mac = if bool_decide (mac = c) then Ret tt else Throw e.
Proof.
  assert (Hv2 : ∀ mac, ∃ e, (let! ok := verify_mac sas input info mac in if ok then Ret tt else Throw CMismatchedSas)
    = if bool_decide (mac = hmac_sha256 (hkdf_sha256 (replicate 32 x00) (shared_secret sas) (str_bytes info) 32) (str_bytes input))
      then Ret tt else Throw e).
  { intros mac. exists CMismatchedSas. unfold verify_mac. by rewrite calculate_mac_eq. }
  destruct m; cbn [method_calculate_mac method_verify_mac]; [|eexists; split; [intros E; apply calculate_mac_eq|exact Hv2]..].
  destruct (invalid_base64_ok sas input info) as (b & Hb & _). exists b. split.
  - intros E. rewrite Hb. unfold encode_bytes. by rewrite base64_parse_encode.
  - intros mac. exists CKeyMismatch. rewrite Hb. unfold encode_bytes. rewrite base64_parse_encode.
    by repeat case_bool_decide; subst.
Qed.
(** ** The strings of an agreement *)

(** The number whose digits are shown. *)
Definition agreed_number (sas : EstablishedSas) (ids : SasIds) (flow_id : string) (we_started : bool) : Z :=
  sas_number (byte_val <$> hkdf_sha256 (replicate 32 x00) (shared_secret sas)
    (str_bytes (extra_info_sas ids (our_public_key sas) (their_public_key sas) flow_id we_started)) 6).

Lemma shown_six {E} sas i flow we :
  ∃ b0 b1 b2 b3 b4 b5, shown_bytes (E := E) sas i flow we = Ret [b0; b1; b2; b3; b4; b5] ∧
    Forall is_byte [b0; b1; b2; b3; b4; b5] ∧ agreed_number sas i flow we = sas_number [b0; b1; b2; b3; b4; b5].
Proof.
  unfold shown_bytes, sas_bytes, bytes_raw, hkdf_expand, agreed_number. cbn [Nat.leb].
  set (bs := hkdf_sha256 _ _ _ 6). assert (Hl : length bs = 6) by (apply length_hkdf; lia).
  do 6 (destruct bs as [|? bs]; [done|]). destruct bs; [|done].
  do 6 eexists. split; [done|]. split; [|done]. repeat (constructor; [apply byte_val_bound|]). constructor.
Qed.

Lemma sas_number_bound b0 b1 b2 b3 b4 b5 :
  Forall is_byte [b0; b1; b2; b3; b4; b5] → (0 <= sas_number [b0; b1; b2; b3; b4; b5] < 2 ^ 48)%Z.
Proof. intros HF. rewrite !Forall_cons in HF. unfold is_byte in HF. unfold sas_number. cbn [fold_left]. lia. Qed.

Lemma emojis_nodup : NoDup (map fst emojis) ∧ length emojis = 64.
Proof. split; [|done]. by_decide. Qed.

Lemma emojis_from_ok {E} (l : list Z) :
  Forall (λ i, 0 <= i < 64)%Z l → ∃ es, emojis_from (E := E) l = Ret es ∧ length es = length l ∧
    Forall2 (λ e i, emojis !! Z.to_nat i = Some e) es l.
Proof.
  induction 1 as [|i l Hi Hl (es & IH & Hlen & Hes)]; [by exists []|]. cbn [emojis_from]. unfold emoji_from_index.
  destruct (lookup_lt_is_Some_2 emojis (Z.to_nat i)) as [e He]; [destruct emojis_nodup as [_ ->]; lia|].
  rewrite He, IH. exists (e :: es). split; [done|]. split; [cbn; lia|]. by constructor.
Qed.

Lemma same_emojis (es l1 l2 : list _) :
  Forall (λ i, 0 <= i)%Z l1 → Forall (λ i, 0 <= i)%Z l2 →
  Forall2 (λ e i, emojis !! Z.to_nat i = Some e) es l1 → Forall2 (λ e i, emojis !! Z.to_nat i = Some e) es l2 → l1 = l2.
Proof.
  intros P1. revert es l2. induction P1 as [|i l1 Hi P1 IH]; intros es l2 P2 F1 F2; inversion F1; subst; inversion F2; subst; [done|].
  inversion P2; subst. f_equal; [|by eapply IH].
  destruct emojis_nodup as [Hnd _].
  assert (Z.to_nat i = Z.to_nat y); [|lia]. eapply (NoDup_lookup (map fst emojis)); [done|..]; rewrite list_lookup_fmap;
    match goal with H : emojis !! ?n = Some _ |- context [emojis !! ?n] => rewrite H end; done.
Qed.

Lemma same_indices (es es' : list _) (l : list Z) :
  Forall2 (λ e i, emojis !! Z.to_nat i = Some e) es l → Forall2 (λ e i, emojis !! Z.to_nat i = Some e) es' l → es = es'.
Proof. intros F. revert es'. induction F; inversion 1; subst; [done|]. f_equal; [congruence|auto]. Qed.

Definition emoji_digits_of (n : Z) : list Z := map (λ k, (n / 64 ^ k) mod 64)%Z [7; 6; 5; 4; 3; 2; 1]%Z.

Lemma emoji_digits_bound n : Forall (λ i, 0 <= i < 64)%Z (emoji_digits_of n).
Proof. unfold emoji_digits_of. cbn [map]. repeat constructor; apply Z.mod_pos_bound; lia. Qed.

Lemma emoji_digits_eq n m :
  (0 <= n < 2 ^ 48)%Z → (0 <= m < 2 ^ 48)%Z → emoji_digits_of n = emoji_digits_of m ↔ (n / 64 = m / 64)%Z.
Proof.
  intros Hn Hm. unfold emoji_digits_of. cbn [map].
  assert (Hk : ∀ x k, (0 < k → x / 64 ^ (k + 1) = x / 64 ^ k / 64)%Z).
  { intros x k Hk. rewrite Z.div_div, Z.pow_add_r by lia. done. }
  assert (Htop : ∀ x, (0 <= x < 2 ^ 48 → x / 64 ^ 7 < 64 ∧ 0 <= x / 64 ^ 7)%Z)
    by (intros x Hx; Z.to_euclidean_division_equations; lia).
  pose proof (Htop n Hn). pose proof (Htop m Hm).
  pose proof (λ x, Hk x 1 eq_refl)%Z as K1. pose proof (λ x, Hk x 2 eq_refl)%Z as K2. pose proof (λ x, Hk x 3 eq_refl)%Z as K3.
  pose proof (λ x, Hk x 4 eq_refl)%Z as K4. pose proof (λ x, Hk x 5 eq_refl)%Z as K5. pose proof (λ x, Hk x 6 eq_refl)%Z as K6.
  cbn [Z.add Pos.add Pos.succ] in K1, K2, K3, K4, K5, K6. rewrite !Z.pow_1_r in *.
  split.
  - intros [= E7 E6 E5 E4 E3 E2 E1].
    assert (D7 : (n / 64 ^ 7 = m / 64 ^ 7)%Z) by (rewrite !(Z.mod_small (_ / 64 ^ 7)) in E7 by lia; done).
    assert (Hstep : ∀ a b, (a / 64 = b / 64 → a mod 64 = b mod 64 → a = b)%Z).
    { intros a b Hd Hr. rewrite (Z.div_mod a 64), (Z.div_mod b 64) by lia. by rewrite Hd, Hr. }
    apply Hstep; [|done]. rewrite <- !K1. apply Hstep; [|done]. rewrite <- !K2. apply Hstep; [|done]. rewrite <- !K3.
    apply Hstep; [|done]. rewrite <- !K4. apply Hstep; [|done]. rewrite <- !K5. apply Hstep; [|done]. by rewrite <- !K6.
  - intros Heq. by rewrite !K6, !K5, !K4, !K3, !K2, !K1, Heq.
Qed.

(** C32. The strings that the two users compare are digits of one number of 48 bits, which
    depends on the shared secret, the parties, their keys and the flow.  Nothing panics
    or overflows: the three decimals are the three upper groups of 13 bits, each plus
    1000, and there are always seven emojis.  The emojis stand for exactly the upper 42
    bits: another agreement shows the same seven emojis if and only if it has the same
    upper 42 bits. *)
Theorem strings_are_digits (debug : bool) (E : Type) sas i flow we :
  let n := agreed_number sas i flow we in
  (0 <= n < 2 ^ 48)%Z ∧
  get_decimal debug (E := E) sas i flow we
    = Ret (1000 + n / 2 ^ 35, 1000 + (n / 2 ^ 22) mod 2 ^ 13, 1000 + (n / 2 ^ 9) mod 2 ^ 13)%Z ∧
  ∃ es, get_emoji (E := E) sas i flow we = Ret es ∧ length es = 7 ∧
    ∀ sas' i' flow' we',
      get_emoji (E := E) sas' i' flow' we' = Ret es ↔ (agreed_number sas' i' flow' we' / 64 = n / 64)%Z.
Proof.
  intros n.
  assert (Hone : ∀ sas i flow we, (0 <= agreed_number sas i flow we < 2 ^ 48)%Z ∧
    ∃ es, get_emoji (E := E) sas i flow we = Ret es ∧ length es = 7 ∧
      Forall2 (λ e i, emojis !! Z.to_nat i = Some e) es (emoji_digits_of (agreed_number sas i flow we))).
  { clear. intros sas i flow we. destruct (shown_six (E := E) sas i flow we) as (b0 & b1 & b2 & b3 & b4 & b5 & Hs & HF & Hn).
    rewrite Hn. split; [by apply sas_number_bound|].
    destruct (emojis_from_ok (E := E) (emoji_digits_of (sas_number [b0; b1; b2; b3; b4; b5]))) as (es & Hes & Hl & H2');
      [apply emoji_digits_bound|].
    exists es. split; [|split; [exact Hl|exact H2']]. unfold get_emoji, get_emoji_index. rewrite Hs, emoji_digits. exact Hes. }
  destruct (Hone sas i flow we) as (Hb & es & Hes & Hl & HF). split; [done|]. split.
  { destruct (shown_six (E := E) sas i flow we) as (b0 & b1 & b2 & b3 & b4 & b5 & Hs & HB & Hn).
    unfold get_decimal. rewrite Hs. unfold n. rewrite Hn. by apply decimal_digits. }
  exists es. split; [done|]. split; [done|]. intros sas' i' flow' we'.
  destruct (Hone sas' i' flow' we') as (Hb' & es' & Hes' & _ & HF'). rewrite Hes', <- emoji_digits_eq by done. split.
  - intros [= ->]. eapply same_emojis; [| |exact HF'|exact HF]; eapply Forall_impl; try apply emoji_digits_bound; cbn; lia.
  - intros Hd. rewrite Hd in HF'. f_equal. exact (same_indices _ _ _ HF' HF).
Qed.

End codes.

Section example_strings.
Existing Instance sample_base64.

Lemma strings_are_digits_witness :
  let sas := {| shared_secret := to_be_bytes 32 3; our_public_key := pub x01; their_public_key := pub x02 |} in
  let n := agreed_number sas alice_ids "t" true in
  (0 <= n < 2 ^ 48)%Z ∧
  ∃ es, get_emoji (E := Empty_set) sas alice_ids "t" true = Ret es ∧ length es = 7.
Proof.
  intros sas n. destruct (strings_are_digits true Empty_set sas alice_ids "t" true) as (Hn & _ & es & Hes & Hl & _).
  split; [exact Hn|]. by exists es.
Defined.
End example_strings.
