(* ===== verification/SasAuth.v ===== *)
(** * What a finished verification has established

    Whatever messages arrive, in whatever order and from whomever, and whatever the user
    does: a side that reports a verified device has seen all the evidence for it. *)

From S2P Require Import Prelude Identifiers CanonicalJson Bytes Cipher Megolm SampleCrypto Keys Olm ShortAuth SasFlow SasSpec.

Inductive SasAction :=
| Receive (now : Z) (fresh_id sender : string) (content : AnyVerificationContent)
| AcceptStart (methods : list string)
| ConfirmStrings
| CancelFlow (code : CancelCode)
| MarkSent (now : Z) (request_id : string)
| CheckTimeout (now : Z).

Section auth.
Context `{!Primitives, !Base64, !Curve25519, !SasWorld}.

(** One step of a side, without what it sends; a request id that does not match leaves
    the state as it was. *)
Definition act (a : SasAction) (sas : InnerSas) : outcome Empty_set InnerSas :=
  match a with
  | Receive now fresh_id sender content => let! (sas, _) := receive_any_event now fresh_id sender content sas in Ret sas
  | AcceptStart methods => Ret (match sas_accept methods sas with Some (sas, _) => sas | None => sas end)
  | ConfirmStrings => let! (sas, _) := sas_confirm sas in Ret sas
  | CancelFlow code => Ret (fst (sas_cancel true code sas))
  | MarkSent now id => Ret (match mark_request_as_sent now id sas with Some sas => sas | None => sas end)
  | CheckTimeout now => Ret (fst (cancel_if_timed_out now sas))
  end.

Fixpoint act_all (actions : list SasAction) (sas : InnerSas) : outcome Empty_set InnerSas :=
  match actions with
  | [] => Ret sas
  | a :: actions => let! sas := act a sas in act_all actions sas
  end.

Lemma act_all_app a b sas : act_all (a ++ b) sas = let! sas := act_all a sas in act_all b sas.
Proof. revert sas. induction a as [|x a IH]; intros sas; [done|]. cbn. destruct (act x sas); [apply IH|done..]. Qed.

(** The agreement that a state presents to its user. *)
Definition presented (sas : InnerSas) : option EstablishedSas :=
  match sas with
  | ISKeysExchanged _ st => Some (ke_sas st)
  | ISMacReceived _ st => Some (mr_sas st)
  | _ => None
  end.

(** ** Evidence *)

Section evidence.
Context (start : InnerSas) (secret : SecretKey) (i : SasIds) (f : FlowId).
(** The start content, if this side sent it. *)
Context (sent : option StartContent).

Abbreviation other := (dev_user_id (other_device i)).

(** The other user sent the key, and the secret is the agreement with it. *)
Definition key_seen (h : list SasAction) (e : EstablishedSas) : Prop :=
  our_public_key e = public_of secret ∧ diffie_hellman secret (their_public_key e) = Some (shared_secret e) ∧
  ∃ now fresh c, Receive now fresh other (CtKey c) ∈ h ∧ flow_str (key_flow c) = flow_str f ∧
    public_from_slice (key_public_key c) = Some (their_public_key e).

(** The other user sent this commitment. *)
Definition commitment_seen (h : list SasAction) (c : bytes) : Prop :=
  ∃ now fresh a m, Receive now fresh other (CtAccept a) ∈ h ∧ flow_str (accept_flow a) = flow_str f ∧
    accept_method a = Some m ∧ commitment m = c.

(** Whoever starts has a commitment to the key from before its own key was sent. *)
Definition committed (h : list SasAction) (e : EstablishedSas) : Prop :=
  match sent with
  | Some content => commitment_seen h (calculate_commitment (their_public_key e) content)
  | None => True
  end.

(** The user confirmed while the strings of this agreement were shown. *)
Definition user_confirmed (h : list SasAction) (e : EstablishedSas) : Prop :=
  ∃ h1 h2 sas, h = h1 ++ ConfirmStrings :: h2 ∧ act_all h1 start = Ret sas ∧ presented sas = Some e.

(** The other user sent codes that pass the check. *)
Definition codes_checked (h : list SasAction) (e : EstablishedSas) (p : AcceptedProtocols)
    (devices : list DeviceData) (identities : list UserIdentityData) : Prop :=
  ∃ now fresh c, Receive now fresh other (CtMac c) ∈ h ∧ flow_str (mac_flow c) = flow_str f ∧
    receive_mac_event e i (flow_str f) (message_auth_code p) c = Ret (devices, identities).

Definition agreed (h : list SasAction) (e : EstablishedSas) : Prop := key_seen h e ∧ committed h e.

Definition awaits_key (h : list SasAction) (c : bytes) (content : StartContent) : Prop :=
  match sent with Some content' => content = content' ∧ commitment_seen h c | None => True end.

Definition sas_inv (h : list SasAction) (sas : InnerSas) : Prop :=
  (ids (common_of sas) = i ∧ verification_flow_id (common_of sas) = f ∧ ∀ k, inner (common_of sas) = Some k → k = secret) ∧
  match sas with
  | ISCreated s p => sent = Some (start_as_content s p)
  | ISStarted _ _ | ISWeAccepted _ _ => sent = None
  | ISAccepted _ st => awaits_key h (acc_commitment st) (acc_start_content st)
  | ISKeySent _ st => awaits_key h (ks_commitment st) (ks_start_content st)
  | ISKeyReceived _ st => agreed h (kr_sas st)
  | ISKeysExchanged _ st => agreed h (ke_sas st)
  | ISConfirmed _ st => agreed h (co_sas st) ∧ user_confirmed h (co_sas st)
  | ISMacReceived _ st =>
      agreed h (mr_sas st) ∧
      codes_checked h (mr_sas st) (mr_accepted_protocols st) (mr_verified_devices st) (mr_verified_master_keys st)
  | ISWaitingForDone _ st | ISDone _ st =>
      agreed h (do_sas st) ∧ user_confirmed h (do_sas st) ∧
      codes_checked h (do_sas st) (do_accepted_protocols st) (do_verified_devices st) (do_verified_master_keys st)
  | ISCancelled _ _ => True
  end.

(** Evidence is never lost. *)
Lemma key_seen_app h h' e : key_seen h e → key_seen (h ++ h') e.
Proof. intros (? & ? & n & fr & c & Hin & ?). split; [done|]. split; [done|]. exists n, fr, c. split; [set_solver|done]. Qed.

Lemma commitment_seen_app h h' c : commitment_seen h c → commitment_seen (h ++ h') c.
Proof. intros (n & fr & a & m & Hin & ?). exists n, fr, a, m. split; [set_solver|done]. Qed.

Lemma agreed_app h h' e : agreed h e → agreed (h ++ h') e.
Proof.
  intros [Hk Hc]. split; [by apply key_seen_app|]. unfold committed in *. destruct sent; [by apply commitment_seen_app|done].
Qed.

Lemma awaits_key_app h h' c content : awaits_key h c content → awaits_key (h ++ h') c content.
Proof. unfold awaits_key. destruct sent; [|done]. intros [-> ?]. split; [done|]. by apply commitment_seen_app. Qed.

Lemma user_confirmed_app h h' e : user_confirmed h e → user_confirmed (h ++ h') e.
Proof. intros (h1 & h2 & sas & -> & ?). exists h1, (h2 ++ h'), sas. split; [by rewrite <- app_assoc|done]. Qed.

Lemma codes_checked_app h h' e p d m : codes_checked h e p d m → codes_checked (h ++ h') e p d m.
Proof. intros (n & fr & c & Hin & ?). exists n, fr, c. split; [set_solver|done]. Qed.

Hint Resolve key_seen_app commitment_seen_app agreed_app awaits_key_app user_confirmed_app codes_checked_app : sas.

Lemma sas_inv_app h h' sas : sas_inv h sas → sas_inv (h ++ h') sas.
Proof. intros [Hb Hs]. split; [done|]. destruct sas; naive_solver eauto with sas. Qed.

Lemma sas_inv_cancelled h s c :
  ids s = i → verification_flow_id s = f → (∀ k, inner s = Some k → k = secret) → sas_inv h (ISCancelled s c).
Proof. done. Qed.

Lemma check_event_inv now s sender flow :
  check_event now s sender flow = Ret tt → flow = flow_str (verification_flow_id s) ∧ sender = dev_user_id (other_device (ids s)).
Proof.
  unfold check_event. destruct (String.eqb_spec flow (flow_str (verification_flow_id s))); [|done].
  destruct (String.eqb_spec sender (dev_user_id (other_device (ids s)))); [|done]. done.
Qed.

Lemma or_cancelled_inv {E A} (o : outcome (SasState * Cancelled) A) k (r : InnerSas * reply) :
  or_cancelled (E := E) o k = Ret r →
  (∃ a, o = Ret a ∧ r = k a) ∨ (∃ s c, o = Throw (s, c) ∧ r.1 = ISCancelled s c).
Proof. destruct o as [a|[s c]| |]; cbn; intros [= <-]; eauto. Qed.

(** A transition keeps the parties, the flow and the secret. *)
Definition kept (s s' : SasState) : Prop :=
  ids s' = ids s ∧ verification_flow_id s' = verification_flow_id s ∧ ∀ k, inner s' = Some k → inner s = Some k.

Lemma kept_cancelled h s s' c :
  (ids s = i ∧ verification_flow_id s = f ∧ ∀ k, inner s = Some k → k = secret) → kept s s' → sas_inv h (ISCancelled s' c).
Proof. intros (? & ? & Hi) (? & ? & Hk). split; [|done]. cbn. split_and!; [congruence..|auto]. Qed.

Lemma or_cancel_inv {A} s (o : outcome CancelCode A) s' c : or_cancel s o = Throw (s', c) → s' = s.
Proof. destruct o; cbn; intros [=]; done. Qed.

Lemma or_cancel_ret {A} s (o : outcome CancelCode A) a : or_cancel s o = Ret a → o = Ret a.
Proof. destruct o; cbn; intros [=]; by subst. Qed.

Lemma into_accepted_inv now fresh s p sender c :
  match into_accepted now fresh s p sender c with
  | Ret (s', st) => kept s s' ∧ acc_start_content st = start_as_content s p ∧
      flow_str (accept_flow c) = flow_str (verification_flow_id s) ∧ sender = dev_user_id (other_device (ids s)) ∧
      ∃ m, accept_method c = Some m ∧ commitment m = acc_commitment st
  | Throw (s', _) => kept s s'
  | _ => True
  end.
Proof.
  unfold into_accepted. destruct (or_cancel s (check_event _ _ _ _)) as [[]|[s1 c1]| |] eqn:Hc; [|by apply or_cancel_inv in Hc as ->|done..].
  apply or_cancel_ret, check_event_inv in Hc as [? ?]. destruct (accept_method c) as [m|]; [|done].
  destruct (or_cancel s (accepted_of_accept m)) as [p'|[s1 c1]| |] eqn:Ha; [|by apply or_cancel_inv in Ha as ->|done..].
  split; [done|]. split; [done|]. split; [done|]. split; [done|]. by exists m.
Qed.

Lemma handle_key_inv now s sender c :
  let '(o, s') := handle_key_content now s sender c in
  kept s s' ∧
  ∀ e, o = Ret e → flow_str (key_flow c) = flow_str (verification_flow_id s) ∧ sender = dev_user_id (other_device (ids s)) ∧
    ∃ k, inner s = Some k ∧ our_public_key e = public_of k ∧ diffie_hellman k (their_public_key e) = Some (shared_secret e) ∧
      public_from_slice (key_public_key c) = Some (their_public_key e).
Proof.
  unfold handle_key_content. destruct (check_event _ _ _ _) as [[]|c1| |] eqn:Hc; [|done..].
  apply check_event_inv in Hc as [? ?]. destruct (public_from_slice (key_public_key c)) as [their|]; [|done].
  destruct (inner s) as [k|] eqn:Hk; [|done]. split; [done|]. intros e. unfold sas_diffie_hellman.
  destruct (diffie_hellman k their) eqn:Hd; [|done]. intros [= <-]. split; [done|]. split; [done|]. by exists k.
Qed.

(** A key that is accepted. *)
Lemma key_seen_now h now fresh sender s s' c e :
  (ids s = i ∧ verification_flow_id s = f ∧ ∀ k, inner s = Some k → k = secret) →
  handle_key_content now s sender c = (Ret e, s') → kept s s' ∧ key_seen (h ++ [Receive now fresh sender (CtKey c)]) e.
Proof.
  intros (Hi & Hf & Hk) He. pose proof (handle_key_inv now s sender c) as Hh. rewrite He in Hh.
  destruct Hh as [Hkept Hh]. destruct (Hh e eq_refl) as (Hfl & Hs & k & Hin & Ho & Hd & Hp). split; [done|].
  apply Hk in Hin as ->. split; [done|]. split; [done|]. exists now, fresh, c. rewrite Hs, Hi, Hf in *.
  split; [set_solver|done].
Qed.

Lemma check_mac_inv now s e p sender c :
  match check_mac now s e p sender c with
  | Ret (d, m) => flow_str (mac_flow c) = flow_str (verification_flow_id s) ∧ sender = dev_user_id (other_device (ids s)) ∧
      receive_mac_event e (ids s) (flow_str (verification_flow_id s)) (message_auth_code p) c = Ret (d, m)
  | Throw (s', _) => s' = s
  | _ => True
  end.
Proof.
  unfold check_mac. destruct (or_cancel s (check_event _ _ _ _)) as [[]|[s1 c1]| |] eqn:Hc; [|by apply or_cancel_inv in Hc|done..].
  apply or_cancel_ret, check_event_inv in Hc as [? ?].
  destruct (or_cancel s (receive_mac_event _ _ _ _ _)) as [[d m]|[s1 c1]| |] eqn:Hr; [|by apply or_cancel_inv in Hr|done..].
  by apply or_cancel_ret in Hr.
Qed.

Lemma codes_checked_now h now fresh sender s c e p d m :
  (ids s = i ∧ verification_flow_id s = f ∧ ∀ k, inner s = Some k → k = secret) →
  check_mac now s e p sender c = Ret (d, m) → codes_checked (h ++ [Receive now fresh sender (CtMac c)]) e p d m.
Proof.
  intros (Hi & Hf & _) Hc. pose proof (check_mac_inv now s e p sender c) as H'. rewrite Hc in H'.
  destruct H' as (Hfl & Hs & Hr). rewrite Hi, Hf in *. exists now, fresh, c. rewrite Hs. split; [set_solver|done].
Qed.

(** ** Steps *)

Lemma receive_accept_inv h now fresh sender c s p r :
  (ids s = i ∧ verification_flow_id s = f ∧ ∀ k, inner s = Some k → k = secret) →
  match sent with Some content => content = start_as_content s p | None => True end →
  or_cancelled (E := Empty_set) (into_accepted now fresh s p sender c)
    (λ '(s, st), (ISAccepted s st, with_request_info (key_as_content s (acc_request_id st)))) = Ret r →
  sas_inv (h ++ [Receive now fresh sender (CtAccept c)]) r.1.
Proof.
  intros Hb Hsent Hr. pose proof (into_accepted_inv now fresh s p sender c) as Hi.
  apply or_cancelled_inv in Hr as [([s' st] & Ho & ->)|(s' & c' & Ho & ->)]; rewrite Ho in Hi;
    [|by eapply kept_cancelled].
  destruct Hi as (Hk & Hst & Hfl & Hs & m & Hm & Hcm). destruct Hb as (Hids & Hf & Hin), Hk as (Hk1 & Hk2 & Hk3).
  split; cbn; [split_and!; [congruence..|auto]|]. unfold awaits_key. destruct sent as [content|]; [|done].
  split; [congruence|]. exists now, fresh, c, m. rewrite Hs, Hids, Hf in *. split; [set_solver|done].
Qed.

Lemma receive_key_inv h now fresh sender c sas r :
  sas_inv h sas → receive_any_event (E := Empty_set) now fresh sender (CtKey c) sas = Ret r →
  sas_inv (h ++ [Receive now fresh sender (CtKey c)]) r.1.
Proof.
  intros [Hb Hs] Hr. set (a := Receive now fresh sender (CtKey c)).
  assert (Hthrow : ∀ s o s' cc (sas' : InnerSas), handle_key_content now s sender c = (o, s') →
    (ids s = i ∧ verification_flow_id s = f ∧ ∀ k, inner s = Some k → k = secret) → sas' = ISCancelled s' cc → sas_inv (h ++ [a]) sas').
  { intros s o s' cc sas' Ho Hbs ->. eapply kept_cancelled; [done|]. pose proof (handle_key_inv now s sender c) as Hh.
    rewrite Ho in Hh. by destruct Hh. }
  destruct sas; cbn [receive_any_event] in Hr; try (injection Hr as <-; by apply sas_inv_app); cbn [common_of] in Hb.
  - unfold accepted_into_key_received in Hr. destruct (handle_key_content now s sender c) as [o s'] eqn:Hh.
    destruct o as [e|cc| |]; cbn in Hr; try done; [|injection Hr as <-; by eapply Hthrow].
    destruct (key_seen_now h now fresh sender s s' c e Hb Hh) as [(Hk1 & Hk2 & Hk3) Hseen].
    case_bool_decide as Hc; cbn in Hr; injection Hr as <-; [|by eapply Hthrow].
    destruct Hb as (? & ? & ?). split; cbn; [split_and!; [congruence..|auto]|]. split; [done|]. unfold committed, awaits_key in *.
    destruct sent; [|done]. destruct Hs as [<- Hs]. rewrite <- Hc. by apply commitment_seen_app.
  - unfold we_accepted_into_key_received in Hr. destruct (handle_key_content now s sender c) as [o s'] eqn:Hh.
    destruct o as [e|cc| |]; cbn in Hr; try done; injection Hr as <-; [|by eapply Hthrow].
    destruct (key_seen_now h now fresh sender s s' c e Hb Hh) as [(Hk1 & Hk2 & Hk3) Hseen].
    destruct Hb as (? & ? & ?). split; cbn; [split_and!; [congruence..|auto]|]. split; [done|]. unfold committed. cbn in Hs. by rewrite Hs.
  - unfold key_sent_into_keys_exchanged in Hr. destruct (handle_key_content now s sender c) as [o s'] eqn:Hh.
    destruct o as [e|cc| |]; cbn in Hr; try done; [|injection Hr as <-; by eapply Hthrow].
    destruct (key_seen_now h now fresh sender s s' c e Hb Hh) as [(Hk1 & Hk2 & Hk3) Hseen].
    case_bool_decide as Hc; cbn in Hr; injection Hr as <-; [|by eapply Hthrow].
    destruct Hb as (? & ? & ?). split; cbn; [split_and!; [congruence..|auto]|]. split; [done|]. unfold committed, awaits_key in *.
    destruct sent; [|done]. destruct Hs as [<- Hs]. rewrite <- Hc. by apply commitment_seen_app.
Qed.

Lemma receive_mac_inv h now fresh sender c sas r :
  sas_inv h sas → receive_any_event (E := Empty_set) now fresh sender (CtMac c) sas = Ret r →
  sas_inv (h ++ [Receive now fresh sender (CtMac c)]) r.1.
Proof.
  intros [Hb Hs] Hr. destruct sas; cbn [receive_any_event] in Hr; try (injection Hr as <-; by apply sas_inv_app); cbn [common_of] in Hb;
    [unfold into_mac_received in Hr|unfold confirmed_into_done in Hr];
    match type of Hr with context [check_mac ?n ?s ?e ?p ?sd ?c] => pose proof (check_mac_inv n s e p sd c) as Hc;
      destruct (check_mac n s e p sd c) as [[d m]|[s1 cc]| |] eqn:Hcm end; cbn in Hr; try done.
  - injection Hr as <-. split; [done|]. cbn. split; [by apply agreed_app|]. by eapply codes_checked_now.
  - injection Hr as <-. subst s1. by apply sas_inv_cancelled; destruct Hb as (? & ? & ?).
  - destruct Hs as [Ha Hu]. injection Hr as <-. destruct (started_from_request s);
      (split; [done|]); cbn; (split; [by apply agreed_app|]); (split; [by apply user_confirmed_app|]); by eapply codes_checked_now.
  - injection Hr as <-. subst s1. by apply sas_inv_cancelled; destruct Hb as (? & ? & ?).
Qed.

Lemma cancel_inv h by_us code sas : sas_inv h sas → sas_inv h (fst (sas_cancel by_us code sas)).
Proof. intros Hi. pose proof Hi as [Hb _]. by destruct sas. Qed.

Lemma receive_inv h now fresh sender c sas r :
  sas_inv h sas → receive_any_event (E := Empty_set) now fresh sender c sas = Ret r →
  sas_inv (h ++ [Receive now fresh sender c]) r.1.
Proof.
  intros Hi Hr. destruct c as [| |c|c|c|c|c|c]; try (cbn in Hr; injection Hr as <-; by apply sas_inv_app).
  - pose proof Hi as [Hb Hs]. destruct sas; cbn [receive_any_event] in Hr; try (injection Hr as <-; by apply sas_inv_app);
      eapply receive_accept_inv; try exact Hr; try exact Hb; cbn in Hs; by rewrite Hs.
  - by eapply receive_key_inv.
  - by eapply receive_mac_inv.
  - pose proof Hi as [Hb Hs]. destruct sas; cbn [receive_any_event] in Hr; try (injection Hr as <-; by apply sas_inv_app).
    unfold waiting_into_done in Hr. destruct (or_cancel s (check_event _ _ _ _)) as [[]|[s1 c1]| |] eqn:Hc; cbn in Hr; try done; injection Hr as <-.
    + split; [done|]. cbn. destruct Hs as (? & ? & ?). split_and!; eauto with sas.
    + apply or_cancel_inv in Hc as ->. by apply sas_inv_cancelled; destruct Hb as (? & ? & ?).
  - cbn in Hr. injection Hr as <-. apply sas_inv_app. by apply (cancel_inv h false).
Qed.

Lemma confirm_inv h sas r :
  act_all h start = Ret sas → sas_inv h sas → sas_confirm (E := Empty_set) sas = Ret r → sas_inv (h ++ [ConfirmStrings]) r.1.
Proof.
  intros Hrun Hi Hr. pose proof Hi as [Hb Hs].
  destruct sas; cbn [sas_confirm] in Hr; try (injection Hr as <-; by apply sas_inv_app);
    cbn [keys_exchanged_confirm mac_received_confirm] in Hr;
    match type of Hr with context [mac_as_content ?s ?e ?p] => destruct (mac_as_content s e p) as [m| | |] end; try done.
  - injection Hr as <-. split; [done|]. cbn. split; [by apply agreed_app|]. by exists h, [], (ISKeysExchanged s st).
  - destruct Hs as [Ha Hc].
    assert (Hu : user_confirmed (h ++ [ConfirmStrings]) (mr_sas st)) by (by exists h, [], (ISMacReceived s st)).
    destruct (started_from_request s); injection Hr as <-; (split; [done|]); cbn;
      (split; [by apply agreed_app|]); (split; [done|]); by apply codes_checked_app.
Qed.

Lemma act_inv h a sas sas' :
  act_all h start = Ret sas → sas_inv h sas → act a sas = Ret sas' → sas_inv (h ++ [a]) sas'.
Proof.
  intros Hrun Hi Ha. destruct a as [now fresh sender c|methods| |code|now id|now]; cbn in Ha.
  - destruct (receive_any_event now fresh sender c sas) as [[s r]| | |] eqn:Hr; [|done..]. injection Ha as <-.
    by apply (receive_inv h now fresh sender c sas (s, r)).
  - injection Ha as <-. pose proof Hi as [Hb Hs]. by destruct sas; apply sas_inv_app.
  - destruct (sas_confirm sas) as [[s r]| | |] eqn:Hr; [|done..]. injection Ha as <-. by apply (confirm_inv h sas (s, r)).
  - injection Ha as <-. apply sas_inv_app. by apply (cancel_inv h true).
  - injection Ha as <-. pose proof Hi as [Hb Hs].
    destruct sas; try by apply sas_inv_app; cbn [mark_request_as_sent]; cbn.
    + cbn. unfold into_key_sent. destruct (String.eqb _ _); [|by apply sas_inv_app]. split; [done|]. cbn. by apply awaits_key_app.
    + cbn. unfold key_received_into_keys_exchanged. destruct (String.eqb _ _); [|by apply sas_inv_app]. split; [done|]. cbn. by apply agreed_app.
  - injection Ha as <-. apply sas_inv_app. pose proof (cancel_inv h true CTimeout sas Hi).
    destruct sas; cbn; try done; by destruct (timed_out now s).
Qed.

Lemma act_all_inv actions : ∀ sas, sas_inv [] start → act_all actions start = Ret sas → sas_inv actions sas.
Proof.
  induction actions as [|a actions IH] using rev_ind; intros sas Hinit Hrun; [by injection Hrun as <-|].
  rewrite act_all_app in Hrun. destruct (act_all actions start) as [s| | |] eqn:Hs; [|done..]. cbn in Hrun.
  destruct (act a s) as [s'| | |] eqn:Ha; [|done..]. injection Hrun as <-. eapply act_inv; eauto.
Qed.

(** ** What the codes vouch for *)

(** A code of the message is the code of one of these keys, under the agreed secret. *)
Definition vouched (c : MacContent) (e : EstablishedSas) (m : SupportedMacMethod) (keys : list (string * string)) : Prop :=
  ∃ key_id key code, (key_id, code) ∈ mac_mac c ∧ obj_get key_id keys = Some key ∧
    ∀ E, method_calculate_mac (E := E) m e key (extra_mac_info_receive i (flow_str f) +:+ key_id) = Ret code.

Lemma verify_vouches m e input info mac :
  method_verify_mac m e input info mac = Ret tt → ∀ E, method_calculate_mac (E := E) m e input info = Ret mac.
Proof.
  destruct (mac_code m e input info) as (c & Hc & Hv). destruct (Hv mac) as [err ->]. case_bool_decide; [by subst|done].
Qed.

Definition vouches (c : MacContent) (e : EstablishedSas) (m : SupportedMacMethod)
    (r : list DeviceData * list UserIdentityData) : Prop :=
  (∀ d, d ∈ r.1 → d = other_device i ∧ vouched c e m (dev_keys d)) ∧
  (∀ u, u ∈ r.2 → other_identity i = Some u ∧ vouched c e m (master_keys u)).

Lemma check_macs_vouch c e m : ∀ macs devices identities r,
  (∀ x, x ∈ macs → x ∈ mac_mac c) → vouches c e m (devices, identities) →
  check_macs e i (extra_mac_info_receive i (flow_str f)) m macs devices identities = Ret r → vouches c e m r.
Proof.
  induction macs as [|[key_id code] macs IH]; intros devices identities r Hin Hv Hr; cbn [check_macs] in Hr; [by injection Hr as <-|].
  assert (Hin' : ∀ x, x ∈ macs → x ∈ mac_mac c) by (intros x Hx; apply Hin; by right).
  destruct (key_id_validate _ key_id); [|by eapply IH|done..].
  destruct (obj_get key_id (dev_keys (other_device i))) as [key|] eqn:Hk.
  - destruct (method_verify_mac m e key _ code) as [[]| | |] eqn:Hm; [|done..]. eapply IH; [done| |exact Hr].
    destruct Hv as [Hd Hu]. split; [|done]. intros d [Hd'|Hd'%list_elem_of_singleton]%elem_of_app; [by apply Hd|subst d]. split; [done|].
    exists key_id, key, code. split; [apply Hin; by left|]. split; [done|]. by apply verify_vouches.
  - destruct (other_identity i) as [u|] eqn:Hu; [|by eapply IH].
    destruct (obj_get key_id (master_keys u)) as [key|] eqn:Hk'; [|by eapply IH].
    destruct (method_verify_mac m e key _ code) as [[]| | |] eqn:Hm; [|done..]. eapply IH; [done| |exact Hr].
    destruct Hv as [Hd Hu']. split; [done|]. intros u' [Hx|Hx%list_elem_of_singleton]%elem_of_app; [by apply Hu'|subst u']. split; [done|].
    exists key_id, key, code. split; [apply Hin; by left|]. split; [done|]. by apply verify_vouches.
Qed.

Lemma receive_mac_vouches c e m r : receive_mac_event e i (flow_str f) m c = Ret r → vouches c e m r.
Proof.
  unfold receive_mac_event. destruct (method_verify_mac _ _ _ _ _) as [[]| | |]; [|done..]. intros Hr.
  eapply check_macs_vouch; [..|exact Hr]; [done|]. split; intros ? []%not_elem_of_nil.
Qed.

End evidence.

(** The states from which a verification starts: with the start message that was sent, or
    from one that was received. *)
Definition begins (secret : SecretKey) (i : SasIds) (f : FlowId) (sent : option StartContent) (start : InnerSas) : Prop :=
  ∃ now from_request,
    match sent with
    | Some content => ∃ strings, sas_start secret now i f from_request strings = (start, content)
    | None => ∃ content, sas_from_start_event secret now i f content from_request = Ret start
    end.

Lemma begins_inv secret i f sent start : begins secret i f sent start → sas_inv start secret i f sent [] start.
Proof.
  intros (now & r & Hb). destruct sent as [content|].
  - destruct Hb as [strings [= <- <-]]. split; cbn; [|done]. split; [done|]. split; [done|]. by intros k [= <-].
  - destruct Hb as [content Hb]. unfold sas_from_start_event, started_from_start_event in Hb.
    destruct (start_method content); [|done]. destruct (accepted_of_start s); [|done..]. injection Hb as <-.
    split; cbn; [|done]. split; [done|]. split; [done|]. by intros k [= <-].
Qed.

(** C5. A verification is only done with all its evidence, whoever sends what.  Take
    either side, any list of received messages from any senders, in any order, and any
    actions of the user and the program.  If this ends in the done state, then the user
    confirmed at a moment when the strings of this very agreement were shown; the other
    user sent the key that was agreed with, and, if this side started, had sent a
    commitment to this key and to the start message; and the other user sent codes
    such that every device that is reported as verified is the device of this flow, every
    identity the identity of the other user, and for each the message has the code of
    one of its keys under the agreed secret. *)
Theorem done_is_authenticated secret i f sent start actions s st :
  begins secret i f sent start → act_all actions start = Ret (ISDone s st) →
  user_confirmed start actions (do_sas st) ∧ key_seen secret i f actions (do_sas st) ∧
  match sent with
  | Some content => commitment_seen i f actions (calculate_commitment (their_public_key (do_sas st)) content)
  | None => True
  end ∧
  ∃ now fresh c, Receive now fresh (dev_user_id (other_device i)) (CtMac c) ∈ actions ∧
    vouches i f c (do_sas st) (message_auth_code (do_accepted_protocols st)) (do_verified_devices st, do_verified_master_keys st).
Proof.
  intros Hb Hrun. apply begins_inv in Hb.
  destruct (act_all_inv start secret i f sent actions (ISDone s st) Hb Hrun) as (_ & [Hk Hc] & Hu & now & fresh & c & Hin & _ & Hr).
  split; [done|]. split; [done|]. split; [exact Hc|]. exists now, fresh, c. split; [done|]. by apply receive_mac_vouches.
Qed.
End auth.

(** ** An example *)

Section example.
Existing Instance sample_base64.

Definition sample_flow : FlowId := ToDevice "t".

Definition alice_begin : InnerSas * StartContent := sas_start (sec x01) 0 alice_ids sample_flow false None.

(** What Bob's side sends. *)
Definition bob_accept : AcceptContent :=
  {| accept_flow := sample_flow;
     accept_method := Some {| commitment := calculate_commitment (pub x02) (snd alice_begin); accept_hash := "sha256";
       accept_key_agreement_protocol := "curve25519-hkdf-sha256"; message_authentication_code := "hkdf-hmac-sha256.v2";
       accept_short_authentication_string := ["emoji"] |} |}.

Definition bob_agreement : EstablishedSas :=
  {| shared_secret := to_be_bytes 32 3; our_public_key := pub x02; their_public_key := pub x01 |}.

Definition sample_bob_codes : option MacContent :=
  match get_mac_content (E := Empty_set) bob_agreement bob_ids sample_flow HkdfHmacSha256V2 with Ret c => Some c | _ => None end.

Definition alice_actions : list SasAction :=
  [Receive 1 "r" "@b" (CtAccept bob_accept); MarkSent 2 "r";
   Receive 3 "q" "@b" (CtKey {| key_flow := sample_flow; key_public_key := public_bytes (pub x02) |});
   ConfirmStrings]
  ++ match sample_bob_codes with Some c => [Receive 4 "s" "@b" (CtMac c)] | None => [] end.

Definition is_done (o : outcome Empty_set InnerSas) : option (SasState * Done) :=
  match o with Ret (ISDone s st) => Some (s, st) | _ => None end.

Lemma done_is_authenticated_witness :
  ∃ s st, act_all alice_actions (fst alice_begin) = Ret (ISDone s st) ∧ do_verified_devices st = [other_device alice_ids] ∧
    user_confirmed (fst alice_begin) alice_actions (do_sas st).
Proof.
  destruct (is_done (act_all alice_actions (fst alice_begin))) as [[s st]|] eqn:Hd.
  2:{ exfalso. assert (Hs : bool_decide (is_Some (is_done (act_all alice_actions (fst alice_begin)))) = true) by by_vm.
      apply bool_decide_eq_true_1 in Hs. rewrite Hd in Hs. by destruct Hs. }
  assert (Hdev : (do_verified_devices ∘ snd) <$> is_done (act_all alice_actions (fst alice_begin)) = Some [other_device alice_ids])
    by by_vm.
  rewrite Hd in Hdev. injection Hdev as Hdev.
  assert (Hrun : act_all alice_actions (fst alice_begin) = Ret (ISDone s st)).
  { unfold is_done in Hd. destruct (act_all alice_actions (fst alice_begin)) as [[]| | |]; try done. by injection Hd as -> ->. }
  exists s, st. split; [done|]. split; [done|].
  apply (done_is_authenticated (sec x01) alice_ids sample_flow (Some (snd alice_begin)) (fst alice_begin) alice_actions s st);
    [|exact Hrun]. exists 0%Z, false, None. done.
Defined.
End example.
