(* ===== verification/SasPair.v ===== *)
(** * Two honest sides

    Both sides of one verification, over a network that reorders, repeats and loses
    messages, with users that confirm and cancel when they like.  In every interleaving
    they show the same strings and verify each other's device. *)

From S2P Require Import Prelude Identifiers CanonicalJson Bytes Cipher Megolm SampleCrypto Keys Olm ShortAuth SasFlow SasSpec SasAuth.

Section pair.
Context `{!Primitives, !Base64, !Curve25519, !SasWorld}.

(** ** One side against an honest peer *)

Section side.
Context (x : SecretKey) (peer : PublicKey) (ss : bytes) (i : SasIds) (f : FlowId) (request we_started : bool).
Context (content : StartContent) (m : SupportedMacMethod) (devices : list DeviceData) (identities : list UserIdentityData).

Definition agreement : EstablishedSas :=
  {| shared_secret := ss; our_public_key := public_of x; their_public_key := peer |}.

(** What the peer may send. *)
Definition good_message (msg : AnyVerificationContent) : Prop :=
  match msg with
  | CtRequest | CtReady | CtStart _ => True
  | CtAccept c =>
      we_started = true ∧ flow_str (accept_flow c) = flow_str f ∧
      ∃ v p, accept_method c = Some v ∧ commitment v = calculate_commitment peer content ∧
        accepted_of_accept v = Ret p ∧ message_auth_code p = m
  | CtKey c => flow_str (key_flow c) = flow_str f ∧ key_public_key c = public_bytes peer
  | CtMac c => flow_str (mac_flow c) = flow_str f ∧ receive_mac_event agreement i (flow_str f) m c = Ret (devices, identities)
  | CtDone c => flow_str (done_flow c) = flow_str f
  | CtCancel _ => False
  end.

Definition has_secret (s : SasState) : Prop := inner s = Some x.

Definition good_state (sas : InnerSas) : Prop :=
  (ids (common_of sas) = i ∧ verification_flow_id (common_of sas) = f ∧ our_key (common_of sas) = public_of x ∧
   started_from_request (common_of sas) = request) ∧
  match sas with
  | ISCreated s p => we_started = true ∧ start_as_content s p = content ∧ has_secret s
  | ISStarted s st =>
      we_started = false ∧ started_commitment st = calculate_commitment (public_of x) content ∧ has_secret s ∧
      message_auth_code (started_accepted_protocols st) = m ∧
      hash (started_accepted_protocols st) = "sha256" ∧
      key_agreement_protocol (started_accepted_protocols st) = "curve25519-hkdf-sha256"
  | ISAccepted s st =>
      we_started = true ∧ acc_start_content st = content ∧ acc_commitment st = calculate_commitment peer content ∧
      has_secret s ∧ message_auth_code (acc_accepted_protocols st) = m
  | ISWeAccepted s st => we_started = false ∧ wa_we_started st = false ∧ has_secret s ∧ message_auth_code (wa_accepted_protocols st) = m
  | ISKeyReceived _ st => kr_sas st = agreement ∧ kr_we_started st = we_started ∧ message_auth_code (kr_accepted_protocols st) = m
  | ISKeySent s st =>
      we_started = true ∧ ks_we_started st = true ∧ ks_start_content st = content ∧
      ks_commitment st = calculate_commitment peer content ∧ has_secret s ∧ message_auth_code (ks_accepted_protocols st) = m
  | ISKeysExchanged _ st => ke_sas st = agreement ∧ ke_we_started st = we_started ∧ message_auth_code (ke_accepted_protocols st) = m
  | ISConfirmed _ st => co_sas st = agreement ∧ message_auth_code (co_accepted_protocols st) = m
  | ISMacReceived _ st =>
      mr_sas st = agreement ∧ mr_we_started st = we_started ∧ message_auth_code (mr_accepted_protocols st) = m ∧
      mr_verified_devices st = devices ∧ mr_verified_master_keys st = identities
  | ISWaitingForDone _ st | ISDone _ st =>
      do_sas st = agreement ∧ message_auth_code (do_accepted_protocols st) = m ∧
      do_verified_devices st = devices ∧ do_verified_master_keys st = identities
  | ISCancelled _ _ => False
  end.

(** What this side sends, apart from its acceptance. *)
Definition sent_message (msg : AnyVerificationContent) : Prop :=
  match msg with
  | CtKey c => c = {| key_flow := f; key_public_key := public_bytes (public_of x) |}
  | CtMac c => ∀ E, get_mac_content (E := E) agreement i f m = Ret c
  | CtDone c => c = {| done_flow := f |}
  | _ => False
  end.

Hypothesis Hss : diffie_hellman x peer = Some ss.

Lemma check_event_ok now s flow :
  ids s = i → verification_flow_id s = f → timed_out now s = false → flow = flow_str f →
  check_event now s (dev_user_id (other_device i)) flow = Ret tt.
Proof. intros Hi Hf Ht ->. unfold check_event. by rewrite Hi, Hf, !String.eqb_refl, Ht. Qed.

Lemma handle_key_ok now s c :
  ids s = i → verification_flow_id s = f → timed_out now s = false → has_secret s → good_message (CtKey c) →
  handle_key_content now s (dev_user_id (other_device i)) c = (Ret agreement, set_inner None s).
Proof.
  intros Hi Hf Ht Hx [Hfl Hk]. unfold handle_key_content. rewrite check_event_ok, Hk, public_from_to_bytes, Hx by done.
  unfold sas_diffie_hellman. by rewrite Hss.
Qed.

Lemma check_mac_ok now s e p c :
  ids s = i → verification_flow_id s = f → timed_out now s = false → e = agreement → message_auth_code p = m →
  good_message (CtMac c) → check_mac now s e p (dev_user_id (other_device i)) c = Ret (devices, identities).
Proof.
  intros Hi Hf Ht -> Hm [Hfl Hr]. unfold check_mac. rewrite check_event_ok by done. cbn. by rewrite Hi, Hf, Hm, Hr.
Qed.

(** What a side does with a message, as a table. *)
Definition after_message (msg : AnyVerificationContent) (st : State) : State :=
  match msg, st with
  | CtAccept _, (SCreated | SStarted) => SAccepted
  | CtKey _, SAccepted => SKeyReceived
  | CtKey _, SKeySent => SKeysExchanged
  | CtKey _, SWeAccepted => SKeyReceived
  | CtMac _, SKeysExchanged => SMacReceived
  | CtMac _, SConfirmed => if request then SWaitingForDone else SDone
  | CtDone _, SWaitingForDone => SDone
  | _, _ => st
  end.

Definition own_key_message (id : string) : reply :=
  Some (CtKey {| key_flow := f; key_public_key := public_bytes (public_of x) |},
        Some {| info_flow_id := f; info_request_id := id |}).

Definition reply_to (fresh_id : string) (msg : AnyVerificationContent) (st : State) : reply :=
  match msg, st with
  | CtAccept _, (SCreated | SStarted) => own_key_message fresh_id
  | CtKey _, SWeAccepted => own_key_message fresh_id
  | CtMac _, SConfirmed => if request then Some (CtDone {| done_flow := f |}, None) else None
  | _, _ => None
  end.

(** The request whose response is awaited. *)
Definition awaited (sas : InnerSas) : option string :=
  match sas with
  | ISAccepted _ st => Some (acc_request_id st)
  | ISKeyReceived _ st => Some (kr_request_id st)
  | _ => None
  end.

(** A step at the moment [now] keeps the time of creation. *)
Definition clock_kept (now : Z) (sas sas' : InnerSas) : Prop :=
  creation_time (common_of sas') = creation_time (common_of sas) ∧
  (last_event_time (common_of sas) = now → last_event_time (common_of sas') = now).

Definition receives (now : Z) (fresh_id : string) (msg : AnyVerificationContent) (sas sas' : InnerSas) : Prop :=
  (∀ E, receive_any_event (E := E) now fresh_id (dev_user_id (other_device i)) msg sas
     = Ret (sas', reply_to fresh_id msg (state_of sas))) ∧
  good_state sas' ∧ state_of sas' = after_message msg (state_of sas) ∧ clock_kept now sas sas' ∧
  match reply_to fresh_id msg (state_of sas) with
  | Some (_, Some info) => awaited sas' = Some (info_request_id info)
  | _ => True
  end.

Lemma receive_good now fresh msg sas :
  good_state sas → good_message msg → timed_out now (common_of sas) = false → ∃ sas', receives now fresh msg sas sas'.
Proof.
  intros Hg Hm Ht. pose proof Hg as [(Hi & Hf & Hk & Hr) Hs].
  assert (Hsame : ∀ msg', reply_to fresh msg' (state_of sas) = None → after_message msg' (state_of sas) = state_of sas →
    (∀ E, receive_any_event (E := E) now fresh (dev_user_id (other_device i)) msg' sas = Ret (sas, None)) →
    ∃ sas', receives now fresh msg' sas sas').
  { intros msg' H1' H2' H3'. exists sas. unfold receives. by rewrite H1'. }
  destruct msg as [| |c|c|c|c|c|c]; [by apply Hsame|by apply Hsame|by apply Hsame|..|by destruct Hm];
    destruct sas as [s p|s st|s st|s st|s st|s st|s st|s st|s st|s st|s st|s st]; try (by apply Hsame);
    cbn in Hi, Hf, Hk, Hr, Ht, Hs; clear Hsame.
  - destruct Hm as (Hw & Hfl & v & q & Hv & Hcm & Hq & Hmq), Hs as (_ & Hst & Hx).
    eexists. split; [intros E; cbn; unfold into_accepted; rewrite check_event_ok, Hv by done; cbn; rewrite Hq; cbn;
      unfold key_as_content; cbn; by rewrite Hf, Hk|]. by split_and!; cbn.
  - by destruct Hm as (Hw & _), Hs as (Hw' & _); rewrite Hw' in Hw.
  - destruct Hs as (Hw & Hst & Hcm & Hx & Hmq). eexists.
    split; [intros E; cbn; unfold accepted_into_key_received; rewrite handle_key_ok by done; cbn; rewrite Hst, Hcm;
      by rewrite bool_decide_eq_true_2|]. by split_and!; cbn.
  - destruct Hs as (Hw & Hws & Hx & Hmq). eexists.
    split; [intros E; cbn; unfold we_accepted_into_key_received; rewrite handle_key_ok by done; cbn;
      unfold key_as_content; cbn; by rewrite Hf, Hk|]. split; [|done]. split; [done|]. cbn. split_and!; try done; congruence.
  - destruct Hs as (Hw & Hws & Hst & Hcm & Hx & Hmq). eexists.
    split; [intros E; cbn; unfold key_sent_into_keys_exchanged; rewrite handle_key_ok by done; cbn; rewrite Hst, Hcm;
      by rewrite bool_decide_eq_true_2|]. split; [|done]. split; [done|]. cbn. split_and!; try done; congruence.
  - destruct Hs as (He & Hw & Hmq). eexists.
    split; [intros E; cbn; unfold into_mac_received; by rewrite check_mac_ok|]. by split_and!; cbn.
  - destruct Hs as (He & Hmq). unfold receives. cbn [state_of reply_to after_message].
    destruct request eqn:Hreq; eexists;
      (split; [intros E; cbn; unfold confirmed_into_done; rewrite check_mac_ok by done; cbn; rewrite Hr;
        unfold done_content; cbn; by rewrite ?Hf|]); (split; [|done]); (split; [cbn; split_and!; congruence|done]).
  - destruct Hs as (He & Hmq & Hd & Hu). eexists.
    split; [intros E; cbn; unfold waiting_into_done; by rewrite check_event_ok|]. by split_and!; cbn.
Qed.

(** A message that comes too late is ignored, or it cancels the flow. *)
Definition is_cancelled (sas : InnerSas) : Prop := match sas with ISCancelled _ _ => True | _ => False end.

Definition is_cancel (msg : AnyVerificationContent) : Prop := match msg with CtCancel _ => True | _ => False end.

Lemma check_event_late now s flow :
  ids s = i → verification_flow_id s = f → timed_out now s = true → flow = flow_str f →
  check_event now s (dev_user_id (other_device i)) flow = Throw CTimeout.
Proof. intros Hi Hf Ht ->. unfold check_event. by rewrite Hi, Hf, !String.eqb_refl, Ht. Qed.

Definition cancels_or_ignores (now : Z) (fresh_id : string) (msg : AnyVerificationContent) (sas : InnerSas) : Prop :=
  ∃ sas' r, (∀ E, receive_any_event (E := E) now fresh_id (dev_user_id (other_device i)) msg sas = Ret (sas', r)) ∧
    (sas' = sas ∨ is_cancelled sas') ∧ match r with Some (answer, _) => is_cancel answer ∧ is_cancelled sas' | None => True end.

Lemma receive_late now fresh msg sas :
  good_state sas → good_message msg → timed_out now (common_of sas) = true → cancels_or_ignores now fresh msg sas.
Proof.
  intros [(Hi & Hf & _ & _) Hs] Hm Ht. unfold cancels_or_ignores.
  assert (Hsame : (∀ E, receive_any_event (E := E) now fresh (dev_user_id (other_device i)) msg sas = Ret (sas, None)) →
    cancels_or_ignores now fresh msg sas) by (intros; exists sas, None; auto).
  destruct msg as [| |c|c|c|c|c|c]; [by apply Hsame|by apply Hsame|by apply Hsame|..|by destruct Hm];
    destruct sas as [s p|s st|s st|s st|s st|s st|s st|s st|s st|s st|s st|s st]; try (by apply Hsame);
    cbn in Hi, Hf, Ht, Hm; cbn;
    unfold into_accepted, accepted_into_key_received, we_accepted_into_key_received, key_sent_into_keys_exchanged,
      handle_key_content, into_mac_received, confirmed_into_done, check_mac, waiting_into_done;
    rewrite check_event_late by tauto; cbn; eexists _, _; (split; [done|]); cbn; auto.
Qed.

Lemma receive_cancelled now fresh msg sas : is_cancelled sas → cancels_or_ignores now fresh msg sas.
Proof.
  intros Hc. destruct sas; try done. unfold cancels_or_ignores. destruct msg; cbn; eexists _, _; (split; [done|]); cbn; auto.
Qed.

Lemma receive_cancel now fresh msg sas : is_cancel msg → cancels_or_ignores now fresh msg sas.
Proof. intros Hc. destruct msg; try done. unfold cancels_or_ignores. destruct sas; cbn; eexists _, _; (split; [done|]); cbn; auto. Qed.

Definition after_confirm (st : State) : State :=
  match st with
  | SKeysExchanged => SConfirmed
  | SMacReceived => if request then SWaitingForDone else SDone
  | _ => st
  end.

Definition confirm_messages (codes : MacContent) (st : State) : list AnyVerificationContent :=
  match st with
  | SKeysExchanged => [CtMac codes]
  | SMacReceived => if request then [CtMac codes; CtDone {| done_flow := f |}] else [CtMac codes]
  | _ => []
  end.

Lemma confirm_good codes sas :
  (∀ E, get_mac_content (E := E) agreement i f m = Ret codes) → good_state sas →
  ∃ sas', (∀ E, sas_confirm (E := E) sas = Ret (sas', confirm_messages codes (state_of sas))) ∧
    good_state sas' ∧ state_of sas' = after_confirm (state_of sas) ∧ ∀ now, clock_kept now sas sas'.
Proof.
  intros Hc Hg. pose proof Hg as [(Hi & Hf & Hk & Hr) Hs].
  destruct sas as [s p|s st|s st|s st|s st|s st|s st|s st|s st|s st|s st|s st]; try (by eexists; split);
    cbn in Hi, Hf, Hk, Hr, Hs.
  - destruct Hs as (He & Hw & Hm). eexists. split; [intros E; cbn; unfold mac_as_content; by rewrite He, Hi, Hf, Hm, Hc|]. done.
  - destruct Hs as (He & Hw & Hm & Hd & Hu). cbn [state_of after_confirm confirm_messages]. destruct request eqn:Hreq; eexists;
      (split; [intros E; cbn; unfold mac_as_content; cbn; rewrite He, Hi, Hf, Hm, Hc, Hr; unfold done_content; by rewrite ?Hf|]);
      (split; [|done]); (split; [cbn; split_and!; congruence|done]).
Qed.

Definition after_mark (st : State) : State :=
  match st with SAccepted => SKeySent | SKeyReceived => SKeysExchanged | _ => st end.

Lemma mark_sent_good now id sas :
  good_state sas →
  match mark_request_as_sent now id sas with
  | Some sas' => good_state sas' ∧ state_of sas' = after_mark (state_of sas) ∧ clock_kept now sas sas'
  | None => awaited sas ≠ Some id
  end.
Proof.
  intros Hg. pose proof Hg as [(Hi & Hf & Hk & Hr) Hs]. destruct sas; cbn; try done.
  - unfold into_key_sent. destruct (String.eqb_spec (acc_request_id st) id); cbn; [|congruence].
    split; [|done]. split; [done|]. cbn. destruct Hs as (? & ? & ? & ? & ?). by split_and!.
  - unfold key_received_into_keys_exchanged. by destruct (String.eqb_spec (kr_request_id st) id); cbn; [|congruence].
Qed.

(** The acceptance of the side that did not start. *)
Lemma mac_method_of_str method : mac_method_of (mac_method_str method) = Some method.
Proof. by destruct method. Qed.

Lemma accept_good methods sas :
  good_state sas →
  match sas_accept methods sas with
  | Some (sas', c) => good_state sas' ∧ state_of sas = SStarted ∧ state_of sas' = SWeAccepted ∧
      (∀ now, clock_kept now sas sas') ∧
      flow_str (accept_flow c) = flow_str f ∧
      ∃ v p, accept_method c = Some v ∧ commitment v = calculate_commitment (public_of x) content ∧
        accepted_of_accept v = Ret p ∧ message_auth_code p = m
  | None => state_of sas ≠ SStarted
  end.
Proof.
  intros Hg. pose proof Hg as [(Hi & Hf & Hk & Hr) Hs]. destruct sas as [|s st| | | | | | | | | |]; cbn; try done.
  destruct Hs as (Hw & Hc & Hx & Hm & Hh & Hka). cbn in Hi, Hf, Hk, Hr.
  split; [done|]. split; [done|]. split; [done|]. split; [done|]. split; [by rewrite Hf|]. eexists _, _. split; [done|]. split; [done|].
  unfold accepted_of_accept. cbn. rewrite Hh, Hka, mac_method_of_str, andb_false_intro2; [done|].
  apply negb_false_iff. destruct (contains methods "decimal") eqn:Hd; [exact Hd|]. unfold contains. rewrite existsb_app.
  apply orb_true_r.
Qed.

End side.

(** ** Codes between the two sides *)

Definition master_key_of (i : SasIds) : option string :=
  match own_identity i with
  | Some o => if own_is_verified o then own_first_key o else None
  | None => None
  end.

Definition parses (key_id : string) : Prop := ∃ n, key_id_validate (λ _, Ok tt) key_id = Ret n.

(** One side has the device of the other, with its key, and no other key under the name of
    its master key. *)
Record knows (ia ib : SasIds) : Prop := {
  knows_user : dev_user_id (other_device ib) = account_user_id ia;
  knows_device : dev_device_id (other_device ib) = account_device_id ia;
  knows_parses : parses ("ed25519:" +:+ account_device_id ia);
  knows_key : obj_get ("ed25519:" +:+ account_device_id ia) (dev_keys (other_device ib)) = Some (account_ed25519 ia);
  knows_master key :
    master_key_of ia = Some key →
    parses ("ed25519:" +:+ key) ∧ obj_get ("ed25519:" +:+ key) (dev_keys (other_device ib)) = None ∧
    ∀ u, other_identity ib = Some u →
      obj_get ("ed25519:" +:+ key) (master_keys u) = None ∨ obj_get ("ed25519:" +:+ key) (master_keys u) = Some key
}.

(** The identity of the other side, if it is known under the key it vouches for. *)
Definition known_identity (ia ib : SasIds) : list UserIdentityData :=
  match master_key_of ia, other_identity ib with
  | Some key, Some u => match obj_get ("ed25519:" +:+ key) (master_keys u) with Some _ => [u] | None => [] end
  | _, _ => []
  end.

Lemma mac_same_secret {E} m e e' input info :
  shared_secret e = shared_secret e' → method_calculate_mac (E := E) m e input info = method_calculate_mac m e' input info.
Proof.
  intros Hs. destruct m; cbn; unfold calculate_mac_invalid_base64, calculate_mac, get_mac_key, hkdf_expand; by rewrite Hs.
Qed.

Lemma verify_calculated m e e' input info c :
  shared_secret e = shared_secret e' → (∀ E, method_calculate_mac (E := E) m e input info = Ret c) →
  method_verify_mac m e' input info c = Ret tt.
Proof.
  intros Hs Hc. destruct (mac_code m e' input info) as (c' & Hc' & Hv). destruct (Hv c) as [err ->].
  specialize (Hc CancelCode). rewrite (mac_same_secret m e e') in Hc by done. rewrite Hc' in Hc. injection Hc as ->.
  by rewrite bool_decide_eq_true_2.
Qed.

Section codes_between.
Context (ia ib : SasIds) (f : FlowId) (m : SupportedMacMethod) (ea eb : EstablishedSas).
Hypothesis (Hab : knows ia ib) (Hba : knows ib ia) (Hss : shared_secret ea = shared_secret eb).

Abbreviation info := (extra_mac_info_receive ib (flow_str f)).

Lemma same_info : extra_mac_info_send ia (flow_str f) = info.
Proof.
  unfold extra_mac_info_send, extra_mac_info_receive.
  by rewrite (knows_user _ _ Hab), (knows_device _ _ Hab), (knows_user _ _ Hba), (knows_device _ _ Hba).
Qed.

Lemma device_entry code macs D I :
  (∀ E, method_calculate_mac (E := E) m ea (account_ed25519 ia) (info +:+ "ed25519:" +:+ account_device_id ia) = Ret code) →
  check_macs eb ib info m (("ed25519:" +:+ account_device_id ia, code) :: macs) D I
  = check_macs eb ib info m macs (D ++ [other_device ib]) I.
Proof.
  intros Hc. cbn [check_macs]. destruct (knows_parses _ _ Hab) as [n ->]. rewrite (knows_key _ _ Hab).
  by rewrite (verify_calculated _ ea eb _ _ code).
Qed.

Lemma master_entry key code macs D I :
  master_key_of ia = Some key →
  (∀ E, method_calculate_mac (E := E) m ea key (info +:+ "ed25519:" +:+ key) = Ret code) →
  check_macs eb ib info m (("ed25519:" +:+ key, code) :: macs) D I = check_macs eb ib info m macs D (I ++ known_identity ia ib).
Proof.
  intros Hk Hc. destruct (knows_master _ _ Hab key Hk) as ([n Hp] & Hd & Hu). cbn [check_macs]. rewrite Hp, Hd. unfold known_identity.
  rewrite Hk. destruct (other_identity ib) as [u|]; [|by rewrite app_nil_r].
  destruct (Hu u eq_refl) as [->| ->]; [by rewrite app_nil_r|]. by rewrite (verify_calculated _ ea eb _ _ code).
Qed.

(** The codes that one side sends are accepted by the other, for its device and, if it is
    known, for its identity. *)
Lemma codes_accepted :
  ∃ c, (∀ E, get_mac_content (E := E) ea ia f m = Ret c) ∧ mac_flow c = f ∧
    receive_mac_event eb ib (flow_str f) m c = Ret ([other_device ib], known_identity ia ib).
Proof.
  unfold get_mac_content. rewrite same_info.
  destruct (mac_code m ea (account_ed25519 ia) (info +:+ "ed25519:" +:+ account_device_id ia)) as (cd & Hcd & _).
  assert (Hkeys : ∀ mac D I r, check_macs eb ib info m mac D I = Ret r → D = [] → I = [] →
    ∃ c, (∀ E, (let! keys := method_calculate_mac (E := E) m ea (String.concat "," (map fst mac)) (info +:+ "KEY_IDS") in
       Ret {| mac_flow := f; mac_mac := mac; mac_keys := keys |}) = Ret c) ∧ mac_flow c = f ∧
      receive_mac_event eb ib (flow_str f) m c = Ret r).
  { intros mac D I r Hr -> ->. destruct (mac_code m ea (String.concat "," (map fst mac)) (info +:+ "KEY_IDS")) as (ck & Hck & _).
    exists {| mac_flow := f; mac_mac := mac; mac_keys := ck |}. split; [intros E; by rewrite Hck|]. split; [done|].
    unfold receive_mac_event. cbn [mac_mac mac_keys]. by rewrite (verify_calculated _ ea eb _ _ ck). }
  destruct (master_key_of ia) as [key|] eqn:Hk.
  - destruct (mac_code m ea key (info +:+ "ed25519:" +:+ key)) as (cm & Hcm & _).
    assert (Hown : ∃ o, own_identity ia = Some o ∧ own_is_verified o = true ∧ own_first_key o = Some key).
    { unfold master_key_of in Hk. destruct (own_identity ia) as [o|]; [|done]. exists o. destruct (own_is_verified o); done. }
    destruct Hown as (o & Ho & Hv & Hfk).
    destruct (knows_master _ _ Hab key Hk) as (_ & Hd & _).
    edestruct (Hkeys (obj_insert ("ed25519:" +:+ key) cm [("ed25519:" +:+ account_device_id ia, cd)])) as (c & Hc & Hr); [|done|done|].
    2:{ exists c. split; [|exact Hr]. intros E. rewrite Hcd, Ho, Hv, Hfk, Hcm. exact (Hc E). }
    cbn [obj_insert]. destruct (String.compare _ _) eqn:Hcmp.
    + apply String.compare_eq_iff in Hcmp. rewrite Hcmp, (knows_key _ _ Hab) in Hd. done.
    + by rewrite (master_entry key), device_entry.
    + by rewrite device_entry, (master_entry key).
  - edestruct (Hkeys [("ed25519:" +:+ account_device_id ia, cd)]) as (c & Hc & Hr); [by rewrite device_entry|done|done|].
    exists c. unfold known_identity in *. rewrite Hk in *. split; [|exact Hr]. intros E. rewrite Hcd.
    unfold master_key_of in Hk. destruct (own_identity ia) as [o|]; [|exact (Hc E)].
    destruct (own_is_verified o); [rewrite Hk|]; exact (Hc E).
Qed.
End codes_between.

(** ** The two sides together *)

Record Pair := {
  alice : InnerSas;
  bob : InnerSas;
  to_alice : list AnyVerificationContent;
  to_bob : list AnyVerificationContent
}.

Definition reply_messages (r : reply) : list AnyVerificationContent := match r with Some (msg, _) => [msg] | None => [] end.

(** A message that was sent may be delivered at any moment, in any order and more than
    once, and messages may be lost; the users accept, confirm and cancel when they like;
    requests are marked as sent, and flows are given up, at any moment.  In a calm run
    nobody cancels, and messages arrive before the flow times out. *)
Inductive pair_step (calm : bool) (user_a user_b : string) : Pair → Pair → Prop :=
| AliceReceives p now fresh msg rest sas r :
    msg ∈ to_alice p → rest ⊆ to_alice p → (calm = true → timed_out now (common_of (alice p)) = false) →
    receive_any_event (E := Empty_set) now fresh user_b msg (alice p) = Ret (sas, r) →
    pair_step calm user_a user_b p
      {| alice := sas; bob := bob p; to_alice := rest; to_bob := to_bob p ++ reply_messages r |}
| BobReceives p now fresh msg rest sas r :
    msg ∈ to_bob p → rest ⊆ to_bob p → (calm = true → timed_out now (common_of (bob p)) = false) →
    receive_any_event (E := Empty_set) now fresh user_a msg (bob p) = Ret (sas, r) →
    pair_step calm user_a user_b p
      {| alice := alice p; bob := sas; to_alice := to_alice p ++ reply_messages r; to_bob := rest |}
| AliceConfirms p sas out :
    sas_confirm (E := Empty_set) (alice p) = Ret (sas, out) →
    pair_step calm user_a user_b p {| alice := sas; bob := bob p; to_alice := to_alice p; to_bob := to_bob p ++ out |}
| BobConfirms p sas out :
    sas_confirm (E := Empty_set) (bob p) = Ret (sas, out) →
    pair_step calm user_a user_b p {| alice := alice p; bob := sas; to_alice := to_alice p ++ out; to_bob := to_bob p |}
| AliceMarks p now id sas :
    mark_request_as_sent now id (alice p) = Some sas →
    pair_step calm user_a user_b p {| alice := sas; bob := bob p; to_alice := to_alice p; to_bob := to_bob p |}
| BobMarks p now id sas :
    mark_request_as_sent now id (bob p) = Some sas →
    pair_step calm user_a user_b p {| alice := alice p; bob := sas; to_alice := to_alice p; to_bob := to_bob p |}
| BobAccepts p methods sas c :
    sas_accept methods (bob p) = Some (sas, c) →
    pair_step calm user_a user_b p
      {| alice := alice p; bob := sas; to_alice := to_alice p ++ [CtAccept c]; to_bob := to_bob p |}
| AliceCancels p code sas out :
    calm = false → sas_cancel true code (alice p) = (sas, out) →
    pair_step calm user_a user_b p
      {| alice := sas; bob := bob p; to_alice := to_alice p; to_bob := to_bob p ++ option_list out |}
| BobCancels p code sas out :
    calm = false → sas_cancel true code (bob p) = (sas, out) →
    pair_step calm user_a user_b p
      {| alice := alice p; bob := sas; to_alice := to_alice p ++ option_list out; to_bob := to_bob p |}
| AliceGivesUp p now sas out :
    calm = false → cancel_if_timed_out now (alice p) = (sas, out) →
    pair_step calm user_a user_b p
      {| alice := sas; bob := bob p; to_alice := to_alice p; to_bob := to_bob p ++ option_list out |}
| BobGivesUp p now sas out :
    calm = false → cancel_if_timed_out now (bob p) = (sas, out) →
    pair_step calm user_a user_b p
      {| alice := alice p; bob := sas; to_alice := to_alice p ++ option_list out; to_bob := to_bob p |}.

(** Alice starts, and her start message has reached Bob. *)
Definition pair_start (a b : SecretKey) (ia ib : SasIds) (f : FlowId) (now_a now_b : Z) (request : bool)
    (strings : option (list string)) : outcome AnyVerificationContent Pair :=
  let '(sas_a, content) := sas_start a now_a ia f request strings in
  let! sas_b := sas_from_start_event b now_b ib f content request in
  Ret {| alice := sas_a; bob := sas_b; to_alice := []; to_bob := [] |}.

Section together.
Context (a b : SecretKey) (ia ib : SasIds) (f : FlowId) (now_a now_b : Z) (request : bool) (strings : option (list string)).
Context (ss : bytes) (p0 : Pair).
Hypothesis (Hab : knows ia ib) (Hba : knows ib ia).
Hypothesis (Hss : diffie_hellman a (public_of b) = Some ss).
Hypothesis (Hstart : pair_start a b ia ib f now_a now_b request strings = Ret p0).

Abbreviation content := (snd (sas_start a now_a ia f request strings)).
Abbreviation method := HkdfHmacSha256V2.
Abbreviation good_a := (good_state a (public_of b) ss ia f request true content method [other_device ia] (known_identity ib ia)).
Abbreviation good_b := (good_state b (public_of a) ss ib f request false content method [other_device ib] (known_identity ia ib)).
Abbreviation msg_a := (good_message a (public_of b) ss ia f true content method [other_device ia] (known_identity ib ia)).
Abbreviation msg_b := (good_message b (public_of a) ss ib f false content method [other_device ib] (known_identity ia ib)).

(** A side is good or, if the run is not calm, cancelled; so are the messages. *)
Definition good_or (calm : bool) (good cancelled : Prop) : Prop := good ∨ calm = false ∧ cancelled.

Definition pair_good (calm : bool) (p : Pair) : Prop :=
  good_or calm (good_a (alice p)) (is_cancelled (alice p)) ∧ good_or calm (good_b (bob p)) (is_cancelled (bob p)) ∧
  Forall (λ msg, good_or calm (msg_a msg) (is_cancel msg)) (to_alice p) ∧
  Forall (λ msg, good_or calm (msg_b msg) (is_cancel msg)) (to_bob p).

Lemma secrets_agree : diffie_hellman b (public_of a) = Some ss.
Proof. by rewrite <- diffie_hellman_comm. Qed.

Lemma start_good :
  (∀ calm, pair_good calm p0) ∧ state_of (alice p0) = SCreated ∧ state_of (bob p0) = SStarted ∧ to_alice p0 = [] ∧ to_bob p0 = [] ∧
  creation_time (common_of (alice p0)) = now_a ∧ last_event_time (common_of (alice p0)) = now_a ∧
  creation_time (common_of (bob p0)) = now_b ∧ last_event_time (common_of (bob p0)) = now_b.
Proof.
  unfold pair_start in Hstart. cbn in Hstart. unfold sas_from_start_event, started_from_start_event in Hstart.
  cbn [start_method start_as_content] in Hstart.
  destruct (accepted_of_start (the_protocol_definitions strings)) as [p| | |] eqn:Hp; cbn in Hstart; try done.
  injection Hstart as <-. split; [|done]. intros calm. split; [|split; [|by split; constructor]]; left; split; try done; cbn.
  unfold accepted_of_start in Hp. destruct (_ || _); [done|].
  cbn [message_authentication_codes the_protocol_definitions omap list_omap mac_method_of String.eqb] in Hp.
  rewrite bool_decide_eq_true_2 in Hp by by_decide. by injection Hp as <-.
Qed.

(** What one side sends is what the other may receive. *)
Lemma alice_codes :
  ∃ c, (∀ E, get_mac_content (E := E) (agreement a (public_of b) ss) ia f method = Ret c) ∧ msg_b (CtMac c).
Proof.
  destruct (codes_accepted ia ib f method (agreement a (public_of b) ss) (agreement b (public_of a) ss) Hab Hba eq_refl)
    as (c & Hc & Hf & Hr).
  exists c. split; [done|]. split; [by rewrite Hf|done].
Qed.

Lemma bob_codes :
  ∃ c, (∀ E, get_mac_content (E := E) (agreement b (public_of a) ss) ib f method = Ret c) ∧ msg_a (CtMac c).
Proof.
  destruct (codes_accepted ib ia f method (agreement b (public_of a) ss) (agreement a (public_of b) ss) Hba Hab eq_refl)
    as (c & Hc & Hf & Hr).
  exists c. split; [done|]. split; [by rewrite Hf|done].
Qed.

Lemma reply_good_b fresh msg st : Forall msg_b (reply_messages (reply_to a f request fresh msg st)).
Proof. destruct msg, st; cbn; try constructor; try done; by destruct request; repeat constructor. Qed.

Lemma reply_good_a fresh msg st : Forall msg_a (reply_messages (reply_to b f request fresh msg st)).
Proof. destruct msg, st; cbn; try constructor; try done; by destruct request; repeat constructor. Qed.

Lemma confirm_good_msgs (P : AnyVerificationContent → Prop) c st :
  P (CtMac c) → P (CtDone {| done_flow := f |}) → Forall P (confirm_messages f request c st).
Proof. intros. destruct st; cbn; repeat constructor; try done; destruct request; by repeat constructor. Qed.

Lemma forall_good calm (P Q : AnyVerificationContent → Prop) l : Forall P l → Forall (λ msg, good_or calm (P msg) (Q msg)) l.
Proof. intros Hl. eapply Forall_impl; [exact Hl|]. by left. Qed.

Lemma forall_rest (P : AnyVerificationContent → Prop) (l rest : list AnyVerificationContent) :
  Forall P l → rest ⊆ l → Forall P rest.
Proof. rewrite !Forall_forall. eauto. Qed.

(** What the reception of a message does to one side and adds for the other. *)
Lemma receive_pair (P : AnyVerificationContent → Prop) x peer i w D I calm now fresh msg side side' r :
  diffie_hellman x peer = Some ss →
  (∀ st, Forall P (reply_messages (reply_to x f request fresh msg st))) →
  good_or calm (good_state x peer ss i f request w content method D I side) (is_cancelled side) →
  good_or calm (good_message x peer ss i f w content method D I msg) (is_cancel msg) →
  (calm = true → timed_out now (common_of side) = false) →
  receive_any_event (E := Empty_set) now fresh (dev_user_id (other_device i)) msg side = Ret (side', r) →
  good_or calm (good_state x peer ss i f request w content method D I side') (is_cancelled side') ∧
  Forall (λ msg, good_or calm (P msg) (is_cancel msg)) (reply_messages r).
Proof.
  intros Hdh Hrep Hside Hmsg Ht Hr.
  assert (Hother : calm = false → cancels_or_ignores i now fresh msg side →
    good_or calm (good_state x peer ss i f request w content method D I side') (is_cancelled side') ∧
    Forall (λ msg, good_or calm (P msg) (is_cancel msg)) (reply_messages r)).
  { intros Hcalm (side1 & r1 & Hrec & Hs1 & Hr1). rewrite Hrec in Hr. injection Hr as <- <-. split.
    - destruct Hs1 as [->|]; [done|by right].
    - destruct r1 as [[answer ?]|]; cbn in Hr1 |- *; [|constructor]. destruct Hr1 as [Hc _]. constructor; [by right|constructor]. }
  destruct Hside as [Hg|[Hcalm Hc]]; [|by apply Hother, receive_cancelled].
  destruct Hmsg as [Hm|[Hcalm Hc]]; [|by apply Hother, receive_cancel].
  destruct (timed_out now (common_of side)) eqn:Hlate.
  - destruct calm; [by specialize (Ht eq_refl)|]. apply Hother; [done|]. by eapply receive_late.
  - destruct (receive_good _ _ _ _ _ _ _ _ _ _ _ Hdh now fresh msg side Hg Hm Hlate) as (side1 & Hrec & Hg1 & _).
    rewrite Hrec in Hr. injection Hr as <- <-. split; [by left|]. by apply forall_good.
Qed.

(** A side that is cancelled, or gives up. *)
Lemma cancel_pair (P : AnyVerificationContent → Prop) (good : InnerSas → Prop) code side side' out :
  sas_cancel true code side = (side', out) → good_or false (good side) (is_cancelled side) →
  good_or false (good side') (is_cancelled side') ∧ Forall (λ msg, good_or false (P msg) (is_cancel msg)) (option_list out).
Proof.
  intros Hc Hg. destruct side; cbn in Hc; injection Hc as <- <-; (split; [first [done|by right]|]); cbn; constructor; first [done|by right].
Qed.

Lemma give_up_pair (P : AnyVerificationContent → Prop) (good : InnerSas → Prop) now side side' out :
  cancel_if_timed_out now side = (side', out) → good_or false (good side) (is_cancelled side) →
  good_or false (good side') (is_cancelled side') ∧ Forall (λ msg, good_or false (P msg) (is_cancel msg)) (option_list out).
Proof.
  intros Hc Hg.
  assert (Hcase : (side', out) = (side, None) ∨ sas_cancel true CTimeout side = (side', out)).
  { unfold cancel_if_timed_out in Hc. destruct (timed_out now (common_of side)); destruct side; auto. }
  destruct Hcase as [[= -> ->]|Hs]; [by split; [|constructor]|by eapply cancel_pair].
Qed.

Lemma confirm_pair (P : AnyVerificationContent → Prop) x peer i w D I calm c side side' out :
  (∀ E, get_mac_content (E := E) (agreement x peer ss) i f method = Ret c) → P (CtMac c) → P (CtDone {| done_flow := f |}) →
  good_or calm (good_state x peer ss i f request w content method D I side) (is_cancelled side) →
  sas_confirm (E := Empty_set) side = Ret (side', out) →
  good_or calm (good_state x peer ss i f request w content method D I side') (is_cancelled side') ∧
  Forall (λ msg, good_or calm (P msg) (is_cancel msg)) out.
Proof.
  intros Hc HP HP' [Hg|[Hcalm Hcan]] Hr.
  - destruct (confirm_good _ _ _ _ _ _ _ _ _ _ _ c side Hc Hg) as (side1 & Hcon & Hg1 & _). rewrite Hcon in Hr.
    injection Hr as <- <-. split; [by left|]. by apply forall_good, confirm_good_msgs.
  - destruct side; try done. injection Hr as <- <-. split; [by right|constructor].
Qed.

Lemma mark_pair x peer i w D I calm now id side side' :
  good_or calm (good_state x peer ss i f request w content method D I side) (is_cancelled side) →
  mark_request_as_sent now id side = Some side' →
  good_or calm (good_state x peer ss i f request w content method D I side') (is_cancelled side').
Proof.
  intros [Hg|[Hcalm Hcan]] Hr.
  - pose proof (mark_sent_good _ _ _ _ _ _ _ _ _ _ _ now id side Hg) as Hmk. rewrite Hr in Hmk. left. apply Hmk.
  - destruct side; try done. injection Hr as <-. by right.
Qed.

Abbreviation step calm := (pair_step calm (account_user_id ia) (account_user_id ib)).

Lemma pair_step_good calm p p' : pair_good calm p → step calm p p' → pair_good calm p'.
Proof.
  intros (Ha & Hb & Hma & Hmb) Hstep.
  destruct Hstep as [p now fresh msg rest sas r Hq Hsub Ht Hr|p now fresh msg rest sas r Hq Hsub Ht Hr|p sas out Hr|p sas out Hr
    |p now id sas Hr|p now id sas Hr|p methods sas c Hr|p code sas out Hcalm Hr|p code sas out Hcalm Hr
    |p now sas out Hcalm Hr|p now sas out Hcalm Hr]; try subst calm.
  - rewrite <- (knows_user _ _ Hba) in Hr. pose proof (proj1 (Forall_forall _ _) Hma msg Hq) as Hm.
    destruct (receive_pair msg_b _ _ _ _ _ _ _ _ _ _ _ _ _ Hss (reply_good_b fresh msg) Ha Hm Ht Hr) as [Hg Hout].
    split_and!; cbn; [done|done|by eapply forall_rest|by apply Forall_app_2].
  - rewrite <- (knows_user _ _ Hab) in Hr. pose proof (proj1 (Forall_forall _ _) Hmb msg Hq) as Hm.
    destruct (receive_pair msg_a _ _ _ _ _ _ _ _ _ _ _ _ _ secrets_agree (reply_good_a fresh msg) Hb Hm Ht Hr) as [Hg Hout].
    split_and!; cbn; [done|done|by apply Forall_app_2|by eapply forall_rest].
  - destruct alice_codes as (c & Hc & Hmsg). destruct (confirm_pair msg_b _ _ _ _ _ _ _ c _ _ _ Hc Hmsg eq_refl Ha Hr) as [Hg Hout].
    split_and!; cbn; [done|done|done|by apply Forall_app_2].
  - destruct bob_codes as (c & Hc & Hmsg). destruct (confirm_pair msg_a _ _ _ _ _ _ _ c _ _ _ Hc Hmsg eq_refl Hb Hr) as [Hg Hout].
    split_and!; cbn; [done|done|by apply Forall_app_2|done].
  - split_and!; cbn; [|done..]. by eapply mark_pair.
  - split_and!; cbn; [done| |done..]. by eapply mark_pair.
  - destruct Hb as [Hb|[_ Hb]]; [|by destruct (bob p)].
    pose proof (accept_good _ _ _ _ _ _ _ _ _ _ _ methods (bob p) Hb) as Hac. rewrite Hr in Hac.
    destruct Hac as (Hg & _ & _ & _ & Hf & Hv). split_and!; cbn; [done|by left| |done].
    apply Forall_app_2; [done|]. constructor; [|constructor]. left. by split.
  - destruct (cancel_pair msg_b _ _ _ _ _ Hr Ha) as [Hg Hout]. split_and!; cbn; [done..|by apply Forall_app_2].
  - destruct (cancel_pair msg_a _ _ _ _ _ Hr Hb) as [Hg Hout]. split_and!; cbn; [done..|by apply Forall_app_2|done].
  - destruct (give_up_pair msg_b _ _ _ _ _ Hr Ha) as [Hg Hout]. split_and!; cbn; [done..|by apply Forall_app_2].
  - destruct (give_up_pair msg_a _ _ _ _ _ Hr Hb) as [Hg Hout]. split_and!; cbn; [done..|by apply Forall_app_2|done].
Qed.

Lemma reachable_good calm p : rtc (step calm) p0 p → pair_good calm p.
Proof.
  revert p. apply rtc_ind_r; [apply start_good|]. intros p1 p2 _ Hs Hg. exact (pair_step_good calm p1 p2 Hg Hs).
Qed.

Lemma same_strings {E A} (get : EstablishedSas → SasIds → string → bool → outcome E A) :
  (∀ e e' i i' w w', shared_secret e = shared_secret e' →
     extra_info_sas i (our_public_key e) (their_public_key e) (flow_str f) w
     = extra_info_sas i' (our_public_key e') (their_public_key e') (flow_str f) w' →
     get e i (flow_str f) w = get e' i' (flow_str f) w') →
  get (agreement a (public_of b) ss) ia (flow_str f) true = get (agreement b (public_of a) ss) ib (flow_str f) false.
Proof.
  intros Hget. apply Hget; [done|]. unfold extra_info_sas. cbn.
  by rewrite (knows_user _ _ Hab), (knows_device _ _ Hab), (knows_user _ _ Hba), (knows_device _ _ Hba).
Qed.

Lemma shown_good (side : InnerSas) {E A} (get : EstablishedSas → SasIds → string → bool → outcome E A) x peer i w content' method' D I :
  good_state x peer ss i f request w content' method' D I side → can_be_presented side = true →
  shown get side = let! v := get (agreement x peer ss) i (flow_str f) w in Ret (Some v).
Proof.
  intros [(Hi & Hf & _ & _) Hs] Hc. destruct side; try done; cbn in *; [destruct Hs as (-> & -> & _)|destruct Hs as (-> & -> & _)];
    by rewrite Hi, Hf.
Qed.

Lemma verified_good (side : InnerSas) x peer i w content' method' D I :
  good_state x peer ss i f request w content' method' D I side →
  state_of side ≠ SCancelled ∧ (∀ d, verified_devices side = Some d → d = D) ∧ (∀ u, verified_identities side = Some u → u = I).
Proof. intros [_ Hs]. destruct side; cbn in *; try done. destruct Hs as (_ & _ & -> & ->). split; [done|]. split; by intros ? [= <-]. Qed.

Lemma side_verified (side : InnerSas) calm x peer i w content' method' D I :
  good_or calm (good_state x peer ss i f request w content' method' D I side) (is_cancelled side) →
  (calm = true → state_of side ≠ SCancelled) ∧
  (∀ d, verified_devices side = Some d → d = D) ∧ (∀ u, verified_identities side = Some u → u = I).
Proof.
  intros [Hg|[-> Hc]]; [|by destruct side]. apply verified_good in Hg as (? & ? & ?). by split.
Qed.

Lemma presented_good (side : InnerSas) calm x peer i w content' method' D I :
  can_be_presented side = true →
  good_or calm (good_state x peer ss i f request w content' method' D I side) (is_cancelled side) →
  good_state x peer ss i f request w content' method' D I side.
Proof. intros Hp [|[_ Hc]]; [done|by destruct side]. Qed.


(** ** A run to the end *)

Definition clock (now : Z) (sas : InnerSas) : Prop :=
  creation_time (common_of sas) = now ∧ last_event_time (common_of sas) = now.

Lemma clock_in_time now sas : clock now sas → timed_out now (common_of sas) = false.
Proof. intros [Hc Hl]. unfold timed_out. by rewrite Hc, Hl, Z.sub_diag. Qed.

Lemma clock_kept_clock now sas sas' : clock now sas → clock_kept now sas sas' → clock now sas'.
Proof. intros [Hc Hl] [Hc' Hl']. split; [congruence|auto]. Qed.

(** A point of a calm run: the states, and the messages on their way. *)
Record point (p : Pair) (sa sb : State) (qa qb : list AnyVerificationContent) : Prop := {
  point_good : pair_good true p;
  point_alice : state_of (alice p) = sa;
  point_bob : state_of (bob p) = sb;
  point_to_alice : to_alice p = qa;
  point_to_bob : to_bob p = qb;
  point_clock_a : clock now_a (alice p);
  point_clock_b : clock now_b (bob p)
}.

(** A calm side is good. *)
Lemma calm_good (P Q : Prop) : good_or true P Q → P.
Proof. by intros [|[]]. Qed.

Lemma step_point p p' sa sb qa qb :
  pair_good true p → step true p p' → state_of (alice p') = sa → state_of (bob p') = sb → to_alice p' = qa → to_bob p' = qb →
  clock now_a (alice p') → clock now_b (bob p') → step true p p' ∧ point p' sa sb qa qb.
Proof. intros Hg Hs. split; [done|]. split; try done. by eapply pair_step_good. Qed.

Lemma alice_gets p sa sb msg qa qb :
  point p sa sb (msg :: qa) qb →
  ∃ p', (step true p p' ∧
         point p' (after_message request msg sa) sb qa (qb ++ reply_messages (reply_to a f request "a" msg sa))) ∧
    match reply_to a f request "a" msg sa with Some (_, Some info) => awaited (alice p') = Some "a" | _ => True end.
Proof.
  intros [Hp Hsa Hsb Hqa Hqb Hca Hcb]. pose proof Hp as (Ha & _ & Hma & _). rewrite Hqa in Hma.
  apply Forall_cons in Hma as [Hm%calm_good _]. apply calm_good in Ha. subst.
  destruct (receive_good _ _ _ _ _ _ _ _ _ _ _ Hss now_a "a" msg (alice p) Ha Hm (clock_in_time _ _ Hca))
    as (sas' & Hrec & Hg & Hst & Hck & Haw).
  eexists {| alice := sas'; bob := bob p; to_alice := qa; to_bob := _ |}. split.
  - apply step_point; cbn; try done; [|by eapply clock_kept_clock].
    eapply (AliceReceives _ _ _ p now_a "a" msg); [rewrite Hqa; by left|rewrite Hqa; by right|intros _; by apply clock_in_time|].
    rewrite <- (knows_user _ _ Hba). apply Hrec.
  - cbn. destruct (reply_to a f request "a" msg (state_of (alice p))) as [[? [info|]]|] eqn:Hre; [|done..].
    destruct msg, (state_of (alice p)); cbn in Hre; try done; try (by injection Hre as <- <-); by destruct request.
Qed.

Lemma bob_gets p sa sb msg qa qb :
  point p sa sb qa (msg :: qb) →
  ∃ p', (step true p p' ∧
         point p' sa (after_message request msg sb) (qa ++ reply_messages (reply_to b f request "b" msg sb)) qb) ∧
    match reply_to b f request "b" msg sb with Some (_, Some info) => awaited (bob p') = Some "b" | _ => True end.
Proof.
  intros [Hp Hsa Hsb Hqa Hqb Hca Hcb]. pose proof Hp as (_ & Hb & _ & Hmb). rewrite Hqb in Hmb.
  apply Forall_cons in Hmb as [Hm%calm_good _]. apply calm_good in Hb. subst.
  destruct (receive_good _ _ _ _ _ _ _ _ _ _ _ secrets_agree now_b "b" msg (bob p) Hb Hm (clock_in_time _ _ Hcb))
    as (sas' & Hrec & Hg & Hst & Hck & Haw).
  eexists {| alice := alice p; bob := sas'; to_alice := _; to_bob := qb |}. split.
  - apply step_point; cbn; try done; [|by eapply clock_kept_clock].
    eapply (BobReceives _ _ _ p now_b "b" msg); [rewrite Hqb; by left|rewrite Hqb; by right|intros _; by apply clock_in_time|].
    rewrite <- (knows_user _ _ Hab). apply Hrec.
  - cbn. destruct (reply_to b f request "b" msg (state_of (bob p))) as [[? [info|]]|] eqn:Hre; [|done..].
    destruct msg, (state_of (bob p)); cbn in Hre; try done; try (by injection Hre as <- <-); by destruct request.
Qed.

Lemma alice_confirms p sa sb qa qb c :
  (∀ E, get_mac_content (E := E) (agreement a (public_of b) ss) ia f method = Ret c) → point p sa sb qa qb →
  ∃ p', step true p p' ∧ point p' (after_confirm request sa) sb qa (qb ++ confirm_messages f request c sa).
Proof.
  intros Hc [Hp Hsa Hsb Hqa Hqb Hca Hcb]. pose proof Hp as (Ha%calm_good & _).
  destruct (confirm_good _ _ _ _ _ _ _ _ _ _ _ c (alice p) Hc Ha) as (sas' & Hcon & Hg & Hst & Hck). subst.
  eexists {| alice := sas'; bob := bob p; to_alice := to_alice p; to_bob := _ |}.
  apply step_point; cbn; try done; [|by eapply clock_kept_clock]. apply AliceConfirms, Hcon.
Qed.

Lemma bob_confirms p sa sb qa qb c :
  (∀ E, get_mac_content (E := E) (agreement b (public_of a) ss) ib f method = Ret c) → point p sa sb qa qb →
  ∃ p', step true p p' ∧ point p' sa (after_confirm request sb) (qa ++ confirm_messages f request c sb) qb.
Proof.
  intros Hc [Hp Hsa Hsb Hqa Hqb Hca Hcb]. pose proof Hp as (_ & Hb%calm_good & _).
  destruct (confirm_good _ _ _ _ _ _ _ _ _ _ _ c (bob p) Hc Hb) as (sas' & Hcon & Hg & Hst & Hck). subst.
  eexists {| alice := alice p; bob := sas'; to_alice := _; to_bob := to_bob p |}.
  apply step_point; cbn; try done; [|by eapply clock_kept_clock]. apply BobConfirms, Hcon.
Qed.

Lemma alice_marks p sa sb qa qb :
  point p sa sb qa qb → awaited (alice p) = Some "a" → ∃ p', step true p p' ∧ point p' (after_mark sa) sb qa qb.
Proof.
  intros [Hp Hsa Hsb Hqa Hqb Hca Hcb] Haw. pose proof Hp as (Ha%calm_good & _).
  pose proof (mark_sent_good _ _ _ _ _ _ _ _ _ _ _ now_a "a" (alice p) Ha) as Hm.
  destruct (mark_request_as_sent now_a "a" (alice p)) as [sas'|] eqn:Hmk; [|done]. destruct Hm as (Hg & Hst & Hck). subst.
  eexists {| alice := sas'; bob := bob p; to_alice := to_alice p; to_bob := to_bob p |}.
  apply step_point; cbn; try done; [|by eapply clock_kept_clock]. by eapply AliceMarks.
Qed.

Lemma bob_marks p sa sb qa qb :
  point p sa sb qa qb → awaited (bob p) = Some "b" → ∃ p', step true p p' ∧ point p' sa (after_mark sb) qa qb.
Proof.
  intros [Hp Hsa Hsb Hqa Hqb Hca Hcb] Haw. pose proof Hp as (_ & Hb%calm_good & _).
  pose proof (mark_sent_good _ _ _ _ _ _ _ _ _ _ _ now_b "b" (bob p) Hb) as Hm.
  destruct (mark_request_as_sent now_b "b" (bob p)) as [sas'|] eqn:Hmk; [|done]. destruct Hm as (Hg & Hst & Hck). subst.
  eexists {| alice := alice p; bob := sas'; to_alice := to_alice p; to_bob := to_bob p |}.
  apply step_point; cbn; try done; [|by eapply clock_kept_clock]. by eapply BobMarks.
Qed.

Lemma bob_accepts p sa qa qb (methods : list string) :
  point p sa SStarted qa qb →
  ∃ p' c, sas_accept methods (bob p) = Some (bob p', c) ∧ step true p p' ∧ point p' sa SWeAccepted (qa ++ [CtAccept c]) qb.
Proof.
  intros [Hp Hsa Hsb Hqa Hqb Hca Hcb]. pose proof Hp as (_ & Hb%calm_good & _).
  pose proof (accept_good _ _ _ _ _ _ _ _ _ _ _ methods (bob p) Hb) as Hac.
  destruct (sas_accept methods (bob p)) as [[sas' c]|] eqn:Hacc; [|done]. destruct Hac as (Hg & _ & Hst & Hck & _). subst.
  eexists {| alice := alice p; bob := sas'; to_alice := _; to_bob := to_bob p |}, c. split; [done|].
  apply step_point; cbn; try done; [|by eapply clock_kept_clock]. by eapply BobAccepts.
Qed.

(** The points of the usual run, up to the moment when both strings are shown, and from
    there to the end. *)
Lemma keys_are_exchanged (methods : list string) :
  ∃ p1 c p, sas_accept methods (bob p0) = Some (bob p1, c) ∧ to_alice p1 = [CtAccept c] ∧ step true p0 p1 ∧ rtc (step true) p1 p ∧
    point p SKeysExchanged SKeysExchanged [] [].
Proof.
  destruct start_good as (Hg & Hsa & Hsb & Hqa & Hqb & ? & ? & ? & ?).
  assert (Hp0 : point p0 SCreated SStarted [] []) by (split; [apply Hg|done..]).
  destruct (bob_accepts _ _ _ _ methods Hp0) as (p1 & c & Hacc & Hs1 & Hp1).
  destruct (alice_gets _ _ _ _ _ _ Hp1) as (p2 & [Hs2 Hp2] & Haw2). cbn in Hp2, Haw2.
  destruct (alice_marks _ _ _ _ _ Hp2 Haw2) as (p3 & Hs3 & Hp3). cbn in Hp3.
  destruct (bob_gets _ _ _ _ _ _ Hp3) as (p4 & [Hs4 Hp4] & Haw4). cbn in Hp4, Haw4.
  destruct (bob_marks _ _ _ _ _ Hp4 Haw4) as (p5 & Hs5 & Hp5). cbn in Hp5.
  destruct (alice_gets _ _ _ _ _ _ Hp5) as (p6 & [Hs6 Hp6] & _). exists p1, c, p6. split_and!; [done|apply Hp1|done| |done].
  do 5 (eapply rtc_l; [eassumption|]). done.
Qed.

Lemma both_confirm p :
  point p SKeysExchanged SKeysExchanged [] [] → ∃ p', rtc (step true) p p' ∧ point p' SDone SDone [] [].
Proof.
  intros Hp. destruct alice_codes as (ca & Hca & _), bob_codes as (cb & Hcb & _).
  destruct (alice_confirms _ _ _ _ _ ca Hca Hp) as (p1 & Hs1 & Hp1). cbn in Hp1.
  destruct (bob_gets _ _ _ _ _ _ Hp1) as (p2 & [Hs2 Hp2] & _). cbn in Hp2.
  destruct (bob_confirms _ _ _ _ _ cb Hcb Hp2) as (p3 & Hs3 & Hp3). cbn in Hp3.
  assert (Hend : ∃ p', rtc (step true) p3 p' ∧ point p' SDone SDone [] []).
  { assert (request = true ∨ request = false) as [Hreq|Hreq] by (clear; destruct request; auto); rewrite Hreq in Hp3; cbn in Hp3.
    - destruct (alice_gets _ _ _ _ _ _ Hp3) as (p4 & [Hs4 Hp4] & _). cbn in Hp4. rewrite Hreq in Hp4. cbn in Hp4.
      destruct (alice_gets _ _ _ _ _ _ Hp4) as (p5 & [Hs5 Hp5] & _). cbn in Hp5.
      destruct (bob_gets _ _ _ _ _ _ Hp5) as (p6 & [Hs6 Hp6] & _). exists p6. split; [|done].
      do 3 (eapply rtc_l; [eassumption|]). done.
    - destruct (alice_gets _ _ _ _ _ _ Hp3) as (p4 & [Hs4 Hp4] & _). cbn in Hp4. rewrite Hreq in Hp4. exists p4.
      split; [by apply rtc_once|done]. }
  destruct Hend as (p' & Hr & Hp'). exists p'. split; [|done]. do 3 (eapply rtc_l; [eassumption|]). done.
Qed.

(** C22. Two honest sides that know each other's devices can complete.  Whatever methods
    Bob accepts the start message with, there is a run without cancellations and
    time-outs that goes on from his acceptance to a moment at which both sides present
    their strings, and from that moment to one at which both sides are done. *)
Theorem honest_run_completes (methods : list string) :
  ∃ p1 c p p', sas_accept methods (bob p0) = Some (bob p1, c) ∧ to_alice p1 = [CtAccept c] ∧
    pair_step true (account_user_id ia) (account_user_id ib) p0 p1 ∧
    rtc (pair_step true (account_user_id ia) (account_user_id ib)) p1 p ∧
    can_be_presented (alice p) = true ∧ can_be_presented (bob p) = true ∧
    rtc (pair_step true (account_user_id ia) (account_user_id ib)) p p' ∧
    state_of (alice p') = SDone ∧ state_of (bob p') = SDone.
Proof.
  destruct (keys_are_exchanged methods) as (p1 & c & p & Hacc & Hq & Hs & Hr & Hp).
  destruct (both_confirm p Hp) as (p' & Hr' & [_ Ha' Hb' _ _ _ _]). destruct Hp as [_ Ha Hb _ _ _ _].
  exists p1, c, p, p'. split_and!; try done; [by destruct (alice p)|by destruct (bob p)].
Qed.
End together.
End pair.

(** ** An example *)

Section example_pair.
Existing Instance sample_base64.

Lemma sample_knows : knows alice_ids bob_ids ∧ knows bob_ids alice_ids.
Proof.
  split; split; try done; try (by exists 7%Z).
  intros key [= <-]. split; [by exists 7%Z|]. done.
Qed.

Definition sample_pair : outcome AnyVerificationContent Pair :=
  pair_start (sec x01) (sec x02) alice_ids bob_ids sample_flow 0 0 true None.

Lemma sample_pair_starts : ∃ p0, sample_pair = Ret p0.
Proof.
  destruct sample_pair as [p0| | |] eqn:Hp; [by exists p0|..]; exfalso;
    assert (Hs : match sample_pair with Ret _ => true | _ => false end = true) by by_vm; rewrite Hp in Hs; done.
Qed.


Lemma honest_run_completes_witness :
  ∃ p0 p1 c p p', sample_pair = Ret p0 ∧ sas_accept ["emoji"] (bob p0) = Some (bob p1, c) ∧
    rtc (pair_step true "@a" "@b") p1 p ∧ can_be_presented (alice p) = true ∧ can_be_presented (bob p) = true ∧
    rtc (pair_step true "@a" "@b") p p' ∧ state_of (alice p') = SDone ∧ state_of (bob p') = SDone.
Proof.
  destruct sample_knows as [Hab Hba], sample_pair_starts as [p0 Hp0].
  destruct (honest_run_completes (sec x01) (sec x02) alice_ids bob_ids sample_flow 0 0 true None (to_be_bytes 32 3) p0
    Hab Hba eq_refl Hp0 ["emoji"]) as (p1 & c & p & p' & Hacc & _ & _ & Hrun).
  exists p0, p1, c, p, p'. split; [done|]. split; [done|exact Hrun].
Defined.
End example_pair.
